(* ===== verification/_CoqProject ===== *)
-Q . S2P
Prelude.v
Words.v
Liveness.v
Ids.v
View.v
EdgeViews.v
Chains.v
Runs.v
Store.v
StoreInv.v
StoreEdits.v
StoreOverlay.v
StoreRedirect.v
StoreSpec.v
StoreView.v
Compress.v
Renumbering.v
Slots.v
Compact.v
History.v
Samples.v
StoreTheorems.v
Validate.v
ValidateSound.v
ValidateTheorems.v
Traverse.v
Bfs.v
Reach.v
Topo.v
TraverseTheorems.v
Events.v
EventsTheorems.v
EdgeKinds.v
Cfg.v
CfgTraces.v
CfgTheorems.v
Cleanup.v
CleanupTheorems.v
Scc.v
SccKosaraju.v
SccTarjan.v
SccTheorems.v
SccCondense.v
Relax.v
DomTheory.v
Epoch.v
Search.v
SearchTheorems.v
Dominator.v
DomSearch.v
DomLink.v
DomIdom.v
DomNumber.v
DomTree.v
DomCompute.v
DomVirtual.v
DominatorTheorems.v
Structure.v
StructureTheorems.v
Frontier.v
FrontierTheorems.v
VirtualRoot.v
CompletedForest.v
PostDominator.v
PostCut.v
PostTree.v
PostTheorems.v
Cdg.v
DisjointSet.v
Bits.v
Worklist.v
Horn.v
Solver.v
SolverTheorems.v
EdgeSolver.v
EdgeSolverTheorems.v
LiveVars.v
LiveVarsTheorems.v
Reaching.v
ReachingTheorems.v
