(* ===== verification/Prelude.v ===== *)
(** * cfglib, verified

    A verification library for the crate under [src/crates/cfglib/src]: its
    graph store with its serialized form, the view traits graph algorithms are
    written against, the graph algorithms over any view, the dataflow solvers
    with the containers they run on, and the control-flow graph with its
    exception metadata, its cleanup transforms, the liveness of its variables
    and its reaching definitions. Definitions are executable and
    follow the source function by function; theorems are about those
    definitions.

    ** The program and its parts

    The crate keeps directed graphs in an append-only columnar store
    ([graph/store.rs] and [graph/store/]). Slots are never reused; a removal
    clears a liveness bit, a redirected edge is filed under an overlay, and a
    compaction rebuilds the columns and reports a renumbering. A store is
    written as its columns, and loading checks them before it trusts them
    ([graph/store/validate.rs]). Algorithms do not see the store: they take any
    [GraphView] ([graph/view.rs]) or [EdgeView] ([graph/edge_view.rs]), which
    the store, its adapters and client types implement. The traversals, the
    component decompositions, the label relaxation and the dominator
    constructions of [graph/] and the fixpoint solvers of [dataflow/] are such
    clients. Some put an adapter of their own in front of the view: the
    post-dominator tree searches the reversed graph behind a virtual exit, the
    completed dominator forest the graph behind a virtual root, and a
    condensation is a new store. A control-flow graph ([cfg.rs], [cfg/]) owns a
    store of basic blocks and classified edges beside an entry and exception
    metadata that names blocks; it forwards its queries to the store, is itself
    a view, and moves the metadata along when a block is split or the store is
    compacted. The cleanup transforms ([transform/]) edit it through those
    calls, and the liveness analysis ([dataflow/liveness.rs]) reads any view of
    one with a worklist of its own; reaching definitions
    ([dataflow/reaching.rs]) are a problem of the edge-sensitive solver, and the
    chains ([dataflow/def_use.rs]) read them. The solvers queue nodes in a bit row
    ([dataflow/worklist.rs], [dataflow/bits.rs]).

    ** Conventions

    A Rust outcome is a [res]: [Ok], [Panic] for a failed assertion, an index
    out of range or an arithmetic overflow, and [Stuck] for a loop whose model
    ran out of fuel. Indices ([usize]) are [nat]; raw identities ([u32]) and
    packed words ([u64]) are [N] with their bounds stated ([U32_MAX], [NONE],
    [MAX_SLOTS], [is_u64]) and checked where the code checks or overflows. A
    [&mut self] method returns the new state. [vget] and [vset] panic outside a
    vector as indexing does. Iterators are the list of what they yield, except
    where the code steps one by hand ([Store.walk_next], [Bits.wo_next]).
    Buffers the code keeps between calls are arguments where their contents
    matter and start fresh where every call clears them.

    ** Files

    The store.

    - [Prelude], [Words]: outcomes, lists, call sequences ([run_calls],
      [refines]); packed 64-bit words.
    - [Liveness] models [graph/store/liveness.rs]; [Ids] models
      [graph/store/id.rs], [graph/store/edge.rs] and the identity helpers of
      [graph/store.rs].
    - [Chains] models the delta chains of [graph/store/adjacency.rs], rings of
      appended edges threaded through two arrays; [Runs] models
      [graph/store/relocate/runs.rs].
    - [Store] models the [Graph] of [graph/store.rs] with the walks of
      [graph/store/adjacency.rs] and the redirections of
      [graph/store/relocate.rs]. [StoreInv] states its invariant in layers, each
      used where it is enough: [walkable] for the walks, [core] for the writes,
      [mirrored] for the views, [inv] for the whole, with the edges of each
      chain as a ghost map, and gives the meaning of a walk; [StoreEdits],
      [StoreOverlay] and [StoreRedirect] prove that each operation keeps [inv]
      and what it does.
    - [StoreSpec] states the abstract graph (payload lists, edge records and two
      ordered adjacency functions) and proves one operation a refinement of it;
      [StoreView] proves the queries and gives the views.
    - [Compress], [Slots], [Compact], [Renumbering] model the counting sort of
      [graph/store/adjacency.rs], [graph/store/compact.rs] and
      [graph/store/renumbering.rs].
    - [History] runs sequences of calls, compactions included, on both levels;
      [reachable_store] is what a client can own. [Samples] holds a concrete
      history.
    - [Validate] models [graph/store/validate.rs] with the checks of
      [graph/store/adjacency.rs] and [graph/store/relocate/format.rs];
      [ValidateSound] proves what accepted columns satisfy and
      [ValidateTheorems] that written columns are accepted.

    Views and the algorithms over them.

    - [View], [EdgeViews] model the view traits with their adapters, and state
      the contracts as the classes [Views] and [EdgeViews] against a shape;
      [StoreView] is the store's instance.
    - [Traverse], [Bfs], [Reach], [Topo] model [graph/traverse.rs].
    - [Scc] models [graph/scc.rs]. [SccKosaraju] relates its arrays to lists
      of components and proves one search; [SccTarjan] states the other as a
      step relation and [SccTheorems] shows the loop performs its steps;
      [SccCondense] proves the condensations.
    - [Relax] models [graph/relax.rs], [Epoch] models [graph/epoch.rs].
    - [Dominator] models [graph/dominator.rs], [graph/dominator/construction.rs]
      and [graph/dominator/numbering.rs]. [DomTheory] is the mathematics of
      semidominators; [DomSearch], [DomLink] and [DomIdom] prove the
      construction pass by pass; [DomNumber] and [DomTree] the numbering and the
      queries; [DomCompute] joins them.
    - [Frontier] models [graph/dominator/frontier.rs]; [FrontierTheorems] proves
      its search.
    - [VirtualRoot], [CompletedForest] model
      [graph/virtual_root.rs] and [graph/dominator/forest.rs]; [DomVirtual] is
      what they share with the post-dominators.
    - [PostDominator], [PostCut], [PostTree] model
      [graph/dominator/post.rs] with its [cut.rs] and [augmented.rs].
    - [Cdg] models [graph/cdg.rs].
    - [Events] models [graph/search/events.rs] with its two walks, [Search]
      models [graph/search.rs]; [EdgeKinds] models [edge.rs], [Structure] the
      detectors of [graph/structure.rs] that read dominance.

    The control-flow graph.

    - [Cfg] models [cfg.rs], [block.rs], [region.rs], [rewrite.rs], the modules
      of [cfg/] for views, mutation, exception metadata, anchors and compaction,
      and [dataflow/cfg_view.rs]. [CfgTraces] gives the executions of a graph,
      traces of instructions run and edges taken with the departures of
      [dataflow/unwind.rs], and proves a split a simulation both ways; [CfgTheorems] runs histories of calls.
    - [Cleanup] models [transform/contract.rs], [transform/cleanup.rs] and
      [transform/critical.rs]; [CleanupTheorems] proves each step a simulation
      and composes them.
    - [LiveVars] models [dataflow/liveness.rs], the departure rule of
      [dataflow/unwind.rs] and the contract of [dataflow/instruction.rs];
      [LiveVarsTheorems] defines being live by paths ([live_at]) and proves the
      rows of bits exact.
    - [Reaching] models [dataflow/reaching.rs], [dataflow/def_use.rs],
      [dataflow/program_point.rs] and the replay of [dataflow/unwind.rs];
      [ReachingTheorems] defines reaching by paths ([reaching_at]) and applies the
      convergence of [EdgeSolverTheorems].

    Containers and solvers.

    - [DisjointSet] models [union_find.rs]; [Horn] models [graph/horn.rs].
    - [Bits], [Worklist] model [dataflow/bits.rs] and [dataflow/worklist.rs];
      [Solver] models [dataflow/node_fixpoint.rs] and [dataflow/fixpoint.rs],
      [EdgeSolver] models [dataflow/edge_fixpoint.rs]; [SolverTheorems] and
      [EdgeSolverTheorems] carry the invariants of their loops.

    The main theorems and their witnesses are in [StoreTheorems],
    [ValidateTheorems], [TraverseTheorems], [SccTheorems], [DominatorTheorems],
    [FrontierTheorems], [PostTheorems], [EventsTheorems], [SearchTheorems],
    [StructureTheorems], [CfgTheorems], [CleanupTheorems], [LiveVarsTheorems],
    [ReachingTheorems], [SolverTheorems], [EdgeSolverTheorems] and at the ends of the files of
    one-file components.

    ** What the theorems show

    - The store refines the abstract graph over whole histories, panics
      included; the adjacency agrees with the edge records; redirection,
      removal, compaction, recompaction and every query do what their
      documentation says. One theorem shows a gap: a record assigned through
      [edge_mut] escapes the adjacency.
    - A store written and loaded back is the store that was written; columns
      from anywhere, whose overlay runs a walk can count, either are refused or
      load to a store whose walks stay in bounds and whose views keep their
      contract.
    - The store and its filtered view keep the view contracts, and scanned
      predecessors agree with reported ones.
    - Every traversal terminates without a panic on a view that keeps the
      contract, and computes depth-first order, a reverse postorder that is
      topological up to cycles, exact distances, shortest paths, exact
      reachability, a topological order or the absence of one, and common
      ancestors.
    - Both component decompositions give the classes of mutual reachability in
      reverse topological order, and a condensation is their acyclic quotient.
      Relaxation ends when labels cannot descend for ever, with the least label
      every node can be reached with.
    - The dominator tree's parents are the immediate dominators, its ancestor
      relation is dominance, and its queries, subtree and scoped walks and
      differences read that tree. Frontiers and iterated frontiers are those of
      the dominance relation. The completed forest is dominance over every way
      into the graph. The post-dominator tree is post-dominance over the exits
      and one cut per exit-free region, and its climbs answer control
      dependence. The control
      dependence graph has exactly the edges of that relation, once each.
    - The event walks feed their callback the events of the recursive search,
      classified, until it breaks; every configuration of the search does what
      its recursive reference does; a graph is called reducible exactly when
      every cycle has a header, and back edges are those to a dominator.
    - Any history of calls on a control-flow graph leaves a live entry and views
      that keep their contracts. Splitting a block, at one point or several,
      changes no execution from any block, whichever instructions throw, unless
      one before a boundary does and the block has an unwind edge. Compaction
      panics exactly when metadata dangles, and otherwise every reference
      follows its block and every set of blocks keeps its survivors.
    - Simplification ends, leaves only reachable blocks, keeps what metadata
      names and every execution from there, as long as merging joins no
      exception that leaves the function to an unwind edge, and does nothing the
      second time. Splitting critical edges splits exactly those and changes no
      execution. Two examples show that the conditions are needed.
    - The liveness analysis ends on every graph, and the sets it gives at the
      ends of a block and between its instructions hold exactly the variables
      some path reads before it writes them, a throw leaving the block before
      the instruction that throws.
    - Reaching definitions are exact in the same sense, over the blocks the
      entry reaches, and the chains link exactly the uses they supply.
    - The containers refine their abstract counterparts: bit rows and epoch
      marks are finite sets, the worklist serves the least element, the
      disjoint-set forest is the labelled partition, with logarithmic climbs
      under union by rank and least representatives under union toward the
      minimum. Horn saturation is the least fixpoint.
    - The solvers, on nodes and on edges, never panic; what they return solves
      the equation of every node they should visit; with a step limit they
      always return; on a monotone problem of finite height they return the
      least solution.

    ** Fuel

    Every loop that is not structural takes fuel, and [Stuck] is excluded by a
    theorem. Walks: one more than the entries of the base run and the chain.
    Ring checks on loading: one more than the delta's edges. Traversals and the
    dominator's search: the adjacency entries of the view plus its nodes
    ([adjacency_total]), since a node is expanded once. Tarjan's and Kosaraju's
    loops: the steps left of the machine ([frame_steps]). Forest climbs,
    compressions and settling passes: the number of elements or nodes, since
    every step goes up ([rooted_depth]); two climbs that meet: twice that. A
    subtree walk: its interval. Draining a bit row: its bits; scanning for the
    least: its words. Saturation: the facts, each queued once. Event walks: the adjacency entries
    plus the node bound and two. Merging from a block, and simplification: the
    blocks, since every turn removes one. The liveness worklist: the nodes, and
    every node's predecessors once for each variable it can gain. The loops of the search, the
    solvers and of the relaxation are unbounded in the source, so they take the
    fuel as an argument: [limit + 2] suffices under a step limit, a search whose marks last the walk
    ends within a stated bound and one whose marks are per path within some
    fuel,
    [enough_visits] and [enough_edge_visits] on a monotone problem (for the
    reaching definitions [enough_reaching], with as many heights as the program
    has definitions), and for the
    relaxation some fuel exists whenever labels are well founded.

    ** What is assumed

    [PartialEq] on solver facts is equality, and the order on relaxation labels
    is total. Functions a client supplies (transfers, tests, roots) are pure. A
    generic identity is its raw value; where an algorithm rebuilds an identity
    from an index the theorem asks for the [DenseId] round trip. Where the code
    reserves the index after the last node for a virtual one, or a raw word for
    an absent entry, the theorem asks that the view fits. Debug assertions are
    checked like any other. Serialized columns have the types the format gives
    them ([well_typed]): words are [u64], overlay keys ascend. A document's
    overlay runs fit the [u32] a walk counts in ([runs_fit]), which the code
    does not check ([long_run_panics]). Capacities, allocation, rendering, hashing and the byte format itself are not modelled.

    ** Not modelled yet

    In [graph/]: loop forests and the loop half of [graph/structure.rs],
    intervals and edge traversals, the program dependence graph; scope, stack
    and open graphs; text and DOT formats. Above it: the text and serde forms of
    a control-flow graph, its builders and the recovery of regions, the analyses
    built on the solvers, SSA, the block problems that over-approximate liveness,
    the transforms other than cleanup, the exception models and the IR layers.
    Each is a further client of the parts modelled here, left for its size
    alone. *)

From stdpp Require Export prelude strings gmap sorting.

Declare Scope rust_scope.
Delimit Scope rust_scope with rust.

(** ** Outcomes of Rust code

    [Ok] is a normal return, [Panic why] the abort of an [assert!], an
    [expect], an index out of range or an arithmetic overflow, and [Stuck] a
    loop that used up the fuel its model was given. *)
Inductive res (A : Type) : Type :=
  | Ok (a : A)
  | Panic (why : string)
  | Stuck.
Arguments Ok {A} a.
Arguments Panic {A} why.
Arguments Stuck {A}.

#[export] Instance res_ret : MRet res := λ A a, Ok a.
#[export] Instance res_bind : MBind res := λ A B f m,
  match m with Ok a => f a | Panic w => Panic w | Stuck => Stuck end.
#[export] Instance res_fmap : FMap res := λ A B f m,
  match m with Ok a => Ok (f a) | Panic w => Panic w | Stuck => Stuck end.

#[export] Instance res_eq_dec {A} `{EqDecision A} : EqDecision (res A).
Proof. solve_decision. Defined.

(** [assert!(b, why)] *)
Definition rassert (b : bool) (why : string) : res () :=
  if b then Ok () else Panic why.

(** [v\[i\]] on a slice, and [v\[i\] = x] *)
Definition vget {A} (v : list A) (i : nat) : res A :=
  match v !! i with
  | Some x => Ok x
  | None => Panic "index out of bounds"
  end.

Definition vset {A} (v : list A) (i : nat) (x : A) : res (list A) :=
  match v !! i with
  | Some _ => Ok (<[i := x]> v)
  | None => Panic "index out of bounds"
  end.

(** [option.expect(why)] *)
Definition expect {A} (o : option A) (why : string) : res A :=
  match o with Some x => Ok x | None => Panic why end.

(** A loop that folds a fallible step over a list, as a [for] loop does. *)
Fixpoint rfold {A S} (f : S → A → res S) (s : S) (l : list A) : res S :=
  match l with
  | [] => Ok s
  | x :: l => s' ← f s x; rfold f s' l
  end.

(** [iter.map(f).collect()] of a fallible [f] *)
Fixpoint rmapM {A B} (f : A → res B) (l : list A) : res (list B) :=
  match l with
  | [] => mret []
  | x :: l => y ← f x; ys ← rmapM f l; mret (y :: ys)
  end.

(** The short-circuiting [iter.all(p)] *)
Fixpoint rall {A} (p : A → res bool) (l : list A) : res bool :=
  match l with
  | [] => mret true
  | x :: l => ok ← p x; if (ok : bool) then rall p l else mret false
  end.

(** The short-circuiting [iter.any(p)] *)
Fixpoint rany {A} (p : A → res bool) (l : list A) : res bool :=
  match l with
  | [] => mret false
  | x :: l => hit ← p x; if (hit : bool) then mret true else rany p l
  end.

(** [iter.filter(p).collect()] of a fallible [p] *)
Fixpoint rfilter {A} (p : A → res bool) (l : list A) : res (list A) :=
  match l with
  | [] => mret []
  | x :: l => keep ← p x; rest ← rfilter p l; mret (if (keep : bool) then x :: rest else rest)
  end.

(** ** Machine integers

    Indices ([usize]) are [nat]; raw [u32] identities and [u64] words are [N]
    so that their bounds stay computable. *)
Definition U32_MAX : N := 4294967295.
Definition U64_MAX : N := 18446744073709551615.

(** [u32::try_from(value)] *)
Definition u32_try_from (value : nat) : option N :=
  if decide (N.of_nat value ≤ U32_MAX)%N then Some (N.of_nat value) else None.

Lemma res_bind_Ok {A B} (m : res A) (f : A → res B) b :
  (m ≫= f) = Ok b ↔ ∃ a, m = Ok a ∧ f a = Ok b.
Proof.
  destruct m as [a| |]; cbn; split; try naive_solver.
Qed.

Lemma res_bind_Ok_1 {A B} (a : A) (f : A → res B) : (Ok a ≫= f) = f a.
Proof. reflexivity. Qed.

Lemma res_fmap_Ok {A B} (m : res A) (f : A → B) b :
  (f <$> m) = Ok b ↔ ∃ a, m = Ok a ∧ f a = b.
Proof. destruct m; cbn; naive_solver. Qed.

Lemma rassert_Ok b why u : rassert b why = Ok u ↔ b = true.
Proof. destruct b, u; cbn; naive_solver. Qed.

Lemma vget_Ok {A} (v : list A) i x : vget v i = Ok x ↔ v !! i = Some x.
Proof. unfold vget. destruct (v !! i); naive_solver. Qed.

Lemma vget_eq {A} (v : list A) i x : v !! i = Some x → vget v i = Ok x.
Proof. intros. by apply vget_Ok. Qed.

Lemma vset_Ok {A} (v : list A) i x v' :
  vset v i x = Ok v' ↔ i < length v ∧ v' = <[i := x]> v.
Proof.
  unfold vset. destruct (v !! i) eqn:E.
  - apply lookup_lt_Some in E. naive_solver.
  - apply lookup_ge_None in E. split; [done|]. intros [??]. lia.
Qed.

Lemma vset_lt {A} (v : list A) i x :
  i < length v → vset v i x = Ok (<[i := x]> v).
Proof. intros. by apply vset_Ok. Qed.

Lemma expect_Ok {A} (o : option A) why x : expect o why = Ok x ↔ o = Some x.
Proof. destruct o; cbn; naive_solver. Qed.

Lemma u32_try_from_Some n r :
  u32_try_from n = Some r ↔ (r = N.of_nat n ∧ N.of_nat n ≤ U32_MAX)%N.
Proof. unfold u32_try_from. case_decide; naive_solver. Qed.

Lemma rmapM_eq {A B} (f : A → res B) (l : list A) (l' : list B) :
  length l = length l' → (∀ i x y, l !! i = Some x → l' !! i = Some y → f x = Ok y) → rmapM f l = Ok l'.
Proof.
  revert l'. induction l as [|x l IH]; intros [|y l'] Hl Hf; try done. cbn.
  rewrite (Hf 0 x y) by done. cbn. rewrite (IH l'); [done|cbn in Hl; lia|].
  intros i. apply (Hf (S i)).
Qed.

Lemma rfold_app {A S} (f : S → A → res S) s l1 l2 :
  rfold f s (l1 ++ l2) = (rfold f s l1 ≫= λ s', rfold f s' l2).
Proof.
  revert s. induction l1 as [|x l1 IH]; intros s; [done|]. cbn.
  destruct (f s x); cbn; auto.
Qed.

(** A loop whose every step succeeds under an invariant succeeds and keeps it. *)
Lemma rfold_inv {A S} (P : list A → S → Prop) (f : S → A → res S) s l :
  P [] s →
  (∀ done x s0, done ++ [x] `prefix_of` l → P done s0 →
     ∃ s1, f s0 x = Ok s1 ∧ P (done ++ [x]) s1) →
  ∃ s', rfold f s l = Ok s' ∧ P l s'.
Proof.
  intros H0 Hstep.
  cut (∀ done rest s0, l = done ++ rest → P done s0 →
        ∃ s', rfold f s0 rest = Ok s' ∧ P l s').
  { intros H. by apply (H [] l). }
  intros dn rest. revert dn. induction rest as [|x rest IH]; intros dn s0 -> HP.
  - exists s0. rewrite app_nil_r. done.
  - destruct (Hstep dn x s0) as (s1 & Hf & HP1); [|done|].
    { exists rest. by rewrite <-app_assoc. }
    cbn. rewrite Hf. cbn. apply (IH (dn ++ [x])); [|done].
    by rewrite <-app_assoc.
Qed.

(** Loops whose steps succeed are the pure functions on lists. *)
Lemma rmapM_pure {A B} (f : A → res B) (h : A → B) l : (∀ x, x ∈ l → f x = Ok (h x)) → rmapM f l = Ok (h <$> l).
Proof.
  induction l as [|x l IH]; intros H; [done|]. cbn [rmapM]. rewrite H by left. cbn. rewrite IH; [done|].
  intros y Hy. apply H. by right.
Qed.

Lemma rall_pure {A} (p : A → res bool) (q : A → bool) l : (∀ x, x ∈ l → p x = Ok (q x)) → rall p l = Ok (forallb q l).
Proof.
  induction l as [|x l IH]; intros H; [done|]. cbn [rall]. rewrite H by left. cbn. destruct (q x); [|done].
  apply IH. intros y Hy. apply H. by right.
Qed.

Lemma rany_pure {A} (p : A → res bool) (q : A → bool) l : (∀ x, x ∈ l → p x = Ok (q x)) → rany p l = Ok (existsb q l).
Proof.
  induction l as [|x l IH]; intros H; [done|]. cbn [rany]. rewrite H by left. cbn. destruct (q x); [done|].
  apply IH. intros y Hy. apply H. by right.
Qed.

Lemma rfilter_pure {A} (p : A → res bool) (q : A → bool) l :
  (∀ x, x ∈ l → p x = Ok (q x)) → rfilter p l = Ok (filter (λ x, q x = true) l).
Proof.
  induction l as [|x l IH]; intros H; [done|]. cbn [rfilter]. rewrite H by left. cbn.
  rewrite IH by (intros y Hy; apply H; by right). cbn.
  destruct (q x); by case_decide.
Qed.

Lemma forallb_elem {A} (q : A → bool) l : forallb q l = true ↔ ∀ x, x ∈ l → q x = true.
Proof. rewrite forallb_forall. by setoid_rewrite list_elem_of_In. Qed.

Lemma forallb_false {A} (q : A → bool) l : forallb q l = false → ∃ x, x ∈ l ∧ q x = false.
Proof.
  induction l as [|x l IH]; cbn; [done|]. destruct (q x) eqn:Hq; intros H; [|by exists x; split; [left|]].
  destruct (IH H) as (y & Hy & ?). exists y. split; [by right|done].
Qed.

Lemma existsb_elem {A} (q : A → bool) l : existsb q l = true ↔ ∃ x, x ∈ l ∧ q x = true.
Proof. rewrite existsb_exists. by setoid_rewrite list_elem_of_In. Qed.

(** ** Lists *)

Lemma filter_none {A} (P : A → Prop) `{∀ x, Decision (P x)} (l : list A) :
  (∀ x, x ∈ l → ¬ P x) → filter P l = [].
Proof.
  intros HP. induction l as [|x l IH]; [done|].
  rewrite filter_cons_False by (apply HP; set_solver). apply IH. set_solver.
Qed.

Lemma filter_all {A} (P : A → Prop) `{∀ x, Decision (P x)} (l : list A) :
  (∀ x, x ∈ l → P x) → filter P l = l.
Proof.
  intros HP. induction l as [|x l IH]; [done|].
  rewrite filter_cons_True by (apply HP; set_solver). f_equal. apply IH. set_solver.
Qed.

Lemma filter_ext_in {A} (P Q : A → Prop) `{∀ x, Decision (P x), ∀ x, Decision (Q x)} (l : list A) :
  (∀ x, x ∈ l → P x ↔ Q x) → filter P l = filter Q l.
Proof.
  intros HP. induction l as [|x l IH]; [done|].
  rewrite !filter_cons, IH by set_solver.
  assert (P x ↔ Q x) by set_solver. repeat case_decide; naive_solver.
Qed.

Lemma list_insert_alter_Some {A} (f : A → A) (l : list A) i x :
  l !! i = Some x → <[i := f x]> l = alter f i l.
Proof.
  intros Hx. rewrite list_insert_alter. apply list_alter_ext; [|done].
  intros y Hy. by simplify_eq.
Qed.

(** Distinct numbers below [m] are at most [m]. *)
Lemma NoDup_length_below (l : list nat) m : NoDup l → (∀ v, v ∈ l → v < m) → length l ≤ m.
Proof.
  intros Hnd Hl. rewrite <-(length_seq m 0). apply submseteq_length, NoDup_submseteq; [done|].
  intros v Hv. apply elem_of_seq. specialize (Hl v Hv). lia.
Qed.

(** ** Automation *)

Create HintDb rust discriminated.

(** Reduce the monad's operations, and nothing else. *)
Ltac rsimpl := cbn [mbind res_bind mret res_ret fmap res_fmap negb rassert].

(** Turn a successful run of monadic code into the equations of its steps. *)
Ltac inv_res_step :=
  match goal with
  | H : Ok _ = Ok _ |- _ => injection H as H; try subst
  | H : Panic _ = Ok _ |- _ => discriminate H
  | H : Stuck = Ok _ |- _ => discriminate H
  | H : mret _ = Ok _ |- _ => unfold mret, res_ret in H
  | H : (_ ≫= _) = Ok _ |- _ =>
      let E := fresh H in
      apply res_bind_Ok in H as (? & E & H)
  | H : (_ <$> _) = Ok _ |- _ => apply res_fmap_Ok in H as (? & H & ?)
  | H : rassert _ _ = Ok _ |- _ => apply rassert_Ok in H
  | H : vget _ _ = Ok _ |- _ => apply vget_Ok in H
  | H : vset _ _ _ = Ok _ |- _ => apply vset_Ok in H as [? H]; try subst
  | H : expect _ _ = Ok _ |- _ => apply expect_Ok in H
  end.
Ltac inv_res := repeat inv_res_step.

(** ** Sorted lists *)

(** [Vec::dedup] *)
Fixpoint dedup {A} `{EqDecision A} (l : list A) : list A :=
  match l with
  | x :: (y :: _) as l' => if decide (x = y) then dedup l' else x :: dedup l'
  | _ => l
  end.

Lemma dedup_cons {A} `{EqDecision A} (x y : A) l :
  dedup (x :: y :: l) = if decide (x = y) then dedup (y :: l) else x :: dedup (y :: l).
Proof. done. Qed.

Lemma elem_of_dedup {A} `{EqDecision A} (l : list A) x : x ∈ dedup l ↔ x ∈ l.
Proof.
  induction l as [|y [|z l] IH]; [done..|]. rewrite dedup_cons. case_decide as Heq.
  - subst z. rewrite IH, !elem_of_cons. tauto.
  - rewrite elem_of_cons, IH, (elem_of_cons _ _ y). tauto.
Qed.

(** Equal entries of a sorted list are neighbours, so none are left. *)
Lemma dedup_strict {A} `{EqDecision A} (R : relation A) (l : list A) :
  (∀ x y, x ∈ l → y ∈ l → R x y → R y x → x = y) → StronglySorted R l →
  StronglySorted (λ x y, R x y ∧ x ≠ y) (dedup l).
Proof.
  induction l as [|x l IH]; intros Hanti Hs; [constructor|]. apply StronglySorted_inv in Hs as [Hs Hx].
  assert (IHs : StronglySorted (λ x y, R x y ∧ x ≠ y) (dedup l)) by (apply IH; [set_solver|done]).
  destruct l as [|y l]; [by repeat constructor|]. rewrite dedup_cons. case_decide as Heq; [done|].
  constructor; [done|]. apply Forall_forall. intros z Hz. rewrite elem_of_dedup in Hz. rewrite Forall_forall in Hx.
  split; [by apply Hx|]. intros <-. apply Heq. apply StronglySorted_inv in Hs as [_ Hy]. rewrite Forall_forall in Hy.
  apply elem_of_cons in Hz as [Hz|Hz]; [done|]. apply Hanti; [left|right; left|apply Hx; left|by apply Hy].
Qed.

Lemma ascending_nodup (l : list N) : StronglySorted N.lt l → NoDup l.
Proof.
  induction 1 as [|x l _ IH Hx]; constructor; [|done]. intros Hin. rewrite Forall_forall in Hx. specialize (Hx x Hin). lia.
Qed.


Lemma StronglySorted_filter {A} (R : A → A → Prop) P `{∀ x, Decision (P x)} (l : list A) :
  StronglySorted R l → StronglySorted R (filter P l).
Proof.
  induction 1 as [|x l Hs IH Hx]; [constructor|]. rewrite filter_cons. case_decide; [|done].
  constructor; [done|]. apply Forall_forall. intros y [_ Hy]%list_elem_of_filter.
  rewrite Forall_forall in Hx. by apply Hx.
Qed.

Lemma StronglySorted_fmap {A B} (R : A → A → Prop) (S : B → B → Prop) (h : A → B) (l : list A) :
  (∀ x y, x ∈ l → y ∈ l → R x y → S (h x) (h y)) → StronglySorted R l → StronglySorted S (h <$> l).
Proof.
  intros Hh. induction 1 as [|x l Hs IH Hx]; [constructor|]. rewrite fmap_cons.
  constructor; [apply IH; set_solver|]. apply Forall_fmap, Forall_forall. intros y Hy.
  rewrite Forall_forall in Hx. apply Hh; set_solver.
Qed.

Lemma StronglySorted_impl_in {A} (R S : A → A → Prop) (l : list A) :
  (∀ x y, x ∈ l → y ∈ l → R x y → S x y) → StronglySorted R l → StronglySorted S l.
Proof.
  intros HR. induction 1 as [|x l H IH Hx]; constructor; [apply IH; set_solver|].
  rewrite Forall_forall in Hx |- *. intros y Hy. apply HR; set_solver.
Qed.

Lemma StronglySorted_app_r {A} (R : A → A → Prop) (l1 l2 : list A) :
  StronglySorted R (l1 ++ l2) → StronglySorted R l2.
Proof. induction l1 as [|x l1 IH]; [done|]. intros [H _]%StronglySorted_inv. auto. Qed.

Lemma seq_ascending a n : StronglySorted lt (seq a n).
Proof.
  revert a. induction n as [|n IH]; intros a; cbn; constructor; [done|].
  apply Forall_forall. intros x ?%elem_of_seq. lia.
Qed.

(** ** Sequences of calls

    A component's calls as a step function that reports what each call
    returned, and the comparison of two such components: the concrete one
    panics when the abstract one does, and otherwise reports the same and ends
    in a related state. *)
Definition run_calls {S C O} (step : S → C → res (S * list O)) (s : S) (cs : list C)
    : res (S * list O) :=
  rfold (λ '(s, out) c, '(s, o) ← step s c; mret (s, out ++ o)) (s, []) cs.

Definition refines {S A O} (P : S → A → Prop) (m : res (S * O)) (n : res (A * O)) : Prop :=
  match n with
  | Ok (a, out) => ∃ s, m = Ok (s, out) ∧ P s a
  | Panic w => m = Panic w
  | Stuck => False
  end.

Lemma refines_mono {S A O} (P Q : S → A → Prop) (m : res (S * O)) (n : res (A * O)) :
  (∀ s a, P s a → Q s a) → refines P m n → refines Q m n.
Proof. unfold refines. destruct n as [[]| |]; naive_solver. Qed.

Lemma calls_refine {S A C O} (P : S → A → Prop) (step : S → C → res (S * list O))
    (astep : A → C → res (A * list O)) s a cs :
  P s a →
  (∀ s a c, c ∈ cs → P s a → refines P (step s c) (astep a c)) →
  refines P (run_calls step s cs) (run_calls astep a cs).
Proof.
  unfold run_calls. generalize (@nil O). revert s a.
  induction cs as [|c cs IH]; intros s a out HP Hstep; cbn [rfold].
  - cbn. eauto.
  - pose proof (Hstep s a c ltac:(set_solver) HP) as Hc. unfold refines in Hc.
    destruct (astep a c) as [[a' o]| |]; [|by rewrite Hc|done].
    destruct Hc as (s' & -> & HP'). cbn. apply IH; [done|].
    intros. apply Hstep; [set_solver|done].
Qed.

Lemma Ok_inj {A} (a b : A) : Ok a = Ok b → a = b.
Proof. by intros [=]. Qed.
