(* ===== verification/Words.v ===== *)
(** * Packed 64-bit words

    The bit packing shared by [graph/store/liveness.rs] and
    [dataflow/bits.rs]: 64 indices per [u64] word, least-significant bit
    first, with the word primitives of the Rust standard library they use. *)

From S2P Require Import Prelude.

(** [a.div_ceil(b)] *)
Definition div_ceil (a b : nat) : nat := (a + (b - 1)) `div` b.

(** [1_u64 << k], for [k < 64]. *)
Definition bit_of (k : nat) : N := N.shiftl 1 (N.of_nat k).

(** [!w] on a [u64]. *)
Definition not64 (w : N) : N := N.lxor w U64_MAX.

(** The set bits of a word in ascending order; [w.count_ones()] and
    [w.trailing_zeros()] are its length and its first element. *)
Definition word_ones (w : N) : list nat :=
  filter (λ k, N.testbit w (N.of_nat k) = true) (seq 0 64).
Definition count_ones (w : N) : nat := length (word_ones w).
Definition trailing_zeros (w : N) : nat :=
  match word_ones w with k :: _ => k | [] => 64 end.

(** Membership of an index in a row of words, the meaning of every bit row. *)
Definition row_mem (words : list N) (i : nat) : bool :=
  match words !! (i `div` 64) with
  | Some w => N.testbit w (N.of_nat (i `mod` 64))
  | None => false
  end.

(** The indices of a row, in ascending order. *)
Definition row_ones (words : list N) : list nat :=
  filter (λ i, row_mem words i = true) (seq 0 (64 * length words)).

(** A word is a [u64] when it has no bit above 63. *)
Definition is_u64 (w : N) : Prop := (w ≤ U64_MAX)%N.

(** ** Word lemmas *)

Lemma bit_of_testbit k j : N.testbit (bit_of k) (N.of_nat j) = bool_decide (j = k).
Proof.
  unfold bit_of. rewrite N.shiftl_1_l, N.pow2_bits_eqb.
  case_bool_decide; [apply N.eqb_eq | apply N.eqb_neq]; lia.
Qed.

Lemma U64_MAX_ones : U64_MAX = N.ones 64.
Proof. reflexivity. Qed.

Lemma U64_MAX_testbit j : N.testbit U64_MAX j = (j <? 64)%N.
Proof. rewrite U64_MAX_ones.
  destruct (N.ltb_spec j 64); [by apply N.ones_spec_low | by apply N.ones_spec_high].
Qed.

Lemma is_u64_testbit w : is_u64 w ↔ ∀ j, (64 ≤ j)%N → N.testbit w j = false.
Proof.
  unfold is_u64. split.
  - intros Hw j Hj. destruct (decide (w = 0)%N) as [->|]; [apply N.bits_0|].
    apply N.bits_above_log2. apply N.log2_lt_pow2; [lia|].
    assert (2 ^ 64 ≤ 2 ^ j)%N by (apply N.pow_le_mono_r; lia).
    change (2 ^ 64)%N with (U64_MAX + 1)%N in *. lia.
  - intros H. destruct (N.le_gt_cases w U64_MAX) as [|Hgt]; [done|].
    assert (64 ≤ N.log2 w)%N as Hl.
    { apply N.log2_le_pow2; [lia|]. change (2 ^ 64)%N with (U64_MAX + 1)%N. lia. }
    specialize (H _ Hl). rewrite N.bit_log2 in H by lia. done.
Qed.

Lemma is_u64_lor w v : is_u64 w → is_u64 v → is_u64 (N.lor w v).
Proof.
  rewrite !is_u64_testbit. intros Hw Hv j Hj. by rewrite N.lor_spec, Hw, Hv.
Qed.

Lemma is_u64_land w v : is_u64 w → is_u64 (N.land w v).
Proof. rewrite !is_u64_testbit. intros Hw j Hj. by rewrite N.land_spec, Hw. Qed.

Lemma is_u64_bit_of k : k < 64 → is_u64 (bit_of k).
Proof.
  rewrite is_u64_testbit. intros Hk j Hj.
  rewrite <-(N2Nat.id j), bit_of_testbit. apply bool_decide_eq_false. lia.
Qed.

Lemma land_bit_of w k :
  (N.land w (bit_of k) =? 0)%N = negb (N.testbit w (N.of_nat k)).
Proof.
  destruct (N.testbit w (N.of_nat k)) eqn:E; cbn.
  - apply N.eqb_neq. intros H. apply (f_equal (λ x, N.testbit x (N.of_nat k))) in H.
    rewrite N.land_spec, E, bit_of_testbit, bool_decide_eq_true_2, N.bits_0 in H; done.
  - apply N.eqb_eq. apply N.bits_inj. intros j.
    rewrite N.bits_0, N.land_spec, <-(N2Nat.id j), bit_of_testbit.
    case_bool_decide; [subst; by rewrite E | by rewrite andb_false_r].
Qed.

Lemma lor_bit_of_testbit w k j :
  N.testbit (N.lor w (bit_of k)) (N.of_nat j) =
    (N.testbit w (N.of_nat j) || bool_decide (j = k)).
Proof. by rewrite N.lor_spec, bit_of_testbit. Qed.

Lemma clear_bit_testbit w k j :
  j < 64 →
  N.testbit (N.land w (not64 (bit_of k))) (N.of_nat j) =
    (N.testbit w (N.of_nat j) && negb (bool_decide (j = k))).
Proof.
  intros Hj. unfold not64. rewrite N.land_spec, N.lxor_spec, bit_of_testbit, U64_MAX_testbit.
  assert ((N.of_nat j <? 64)%N = true) as -> by (apply N.ltb_lt; lia).
  by rewrite xorb_true_r.
Qed.

Lemma elem_of_word_ones w k : k ∈ word_ones w ↔ k < 64 ∧ N.testbit w (N.of_nat k) = true.
Proof. unfold word_ones. rewrite list_elem_of_filter, elem_of_seq. naive_solver lia. Qed.

Lemma word_ones_nil w : is_u64 w → word_ones w = [] ↔ w = 0%N.
Proof.
  intros Hw. split.
  - intros H. apply N.bits_inj. intros j. rewrite N.bits_0.
    destruct (decide (j < 64)%N) as [Hj|Hj].
    + destruct (N.testbit w j) eqn:E; [|done]. exfalso.
      assert (N.to_nat j ∈ word_ones w) as Hin.
      { apply elem_of_word_ones. rewrite N2Nat.id. split; [lia|done]. }
      rewrite H in Hin. by apply elem_of_nil in Hin.
    + apply is_u64_testbit; [done|lia].
  - intros ->. reflexivity.
Qed.

(** [w & (w - 1)] clears the lowest set bit, so iterating it yields the set
    bits in ascending order. *)
Lemma land_pred_testbit w k j :
  N.testbit w k = true → (∀ i, (i < k)%N → N.testbit w i = false) →
  N.testbit (N.land w (w - 1)) j = (N.testbit w j && negb (j =? k)%N).
Proof.
  intros Hk Hlow. rewrite N.land_spec.
  assert (Hw : w = ((2 * (w / 2 ^ (k + 1)) + 1) * 2 ^ k)%N).
  { apply N.bits_inj. intros i. destruct (N.ltb_spec i k).
    - rewrite N.mul_pow2_bits_low by done. by apply Hlow.
    - rewrite N.mul_pow2_bits_high by done.
      destruct (N.eq_dec i k) as [->|].
      + by rewrite N.sub_diag, N.testbit_odd_0.
      + replace (i - k)%N with (N.succ (i - k - 1)) by lia.
        rewrite N.testbit_odd_succ by lia. rewrite N.div_pow2_bits. f_equal. lia. }
  set (m := (w / 2 ^ (k + 1))%N) in *. clearbody m.
  assert (Hp : (2 ^ k ≠ 0)%N) by (apply N.pow_nonzero; lia).
  assert (Hw1 : (w - 1 = (2 * m) * 2 ^ k + (2 ^ k - 1))%N) by (rewrite Hw; lia).
  assert (Hhigh : ∀ i, (k ≤ i)%N → N.testbit (w - 1) i = N.testbit (2 * m) (i - k)).
  { intros i Hi. replace i with ((i - k) + k)%N at 1 by lia.
    rewrite <-N.div_pow2_bits, Hw1, N.div_add_l by done.
    rewrite (N.div_small (_ - 1)), N.add_0_r by lia. done. }
  destruct (N.ltb_spec j k).
  { rewrite Hlow by done. done. }
  destruct (N.eqb_spec j k) as [->|].
  - rewrite Hhigh, N.sub_diag by lia. rewrite N.testbit_even_0. by rewrite !andb_false_r.
  - rewrite Hhigh by lia. rewrite Hw at 1. rewrite N.mul_pow2_bits_high by done.
    replace (j - k)%N with (N.succ (j - k - 1)) by lia.
    rewrite N.testbit_odd_succ, N.testbit_even_succ by lia.
    rewrite Hw, N.mul_pow2_bits_high by done.
    replace (j - k)%N with (N.succ (j - k - 1)) by lia.
    rewrite N.testbit_odd_succ by lia. cbn [negb]. rewrite andb_true_r, andb_diag.
    f_equal. lia.
Qed.

(** Splitting an ascending filtered sequence at its first hit. *)
Lemma filter_seq_cons (P : nat → Prop) `{∀ x, Decision (P x)} a n k l :
  filter P (seq a n) = k :: l →
  a ≤ k < a + n ∧ P k ∧ (∀ i, a ≤ i < k → ¬ P i) ∧ l = filter P (seq (S k) (a + n - S k)).
Proof.
  revert a. induction n as [|n IH]; intros a; [done|]. cbn [seq].
  rewrite filter_cons. case_decide as Ha.
  - intros [= -> <-]. replace (k + S n - S k) with n by lia.
    split_and!; [lia|lia|done|intros i ?; lia|done].
  - intros H1. apply IH in H1 as (? & ? & Hlt & ->).
    replace (a + S n - S k) with (S a + n - S k) by lia.
    split_and!; [lia|lia|done| |done].
    intros i Hi. destruct (decide (i = a)) as [->|]; [done|]. apply Hlt. lia.
Qed.

Lemma word_ones_cons w k l :
  is_u64 w → word_ones w = k :: l →
  trailing_zeros w = k ∧ word_ones (N.land w (w - 1)) = l.
Proof.
  intros Hw Hc. unfold trailing_zeros. rewrite Hc. split; [done|].
  unfold word_ones in Hc. apply filter_seq_cons in Hc as (Hk & Hbit & Hlow & ->).
  assert (Hland : ∀ j, N.testbit (N.land w (w - 1)) (N.of_nat j) =
            (N.testbit w (N.of_nat j) && negb (N.of_nat j =? N.of_nat k)%N)).
  { intros j. apply land_pred_testbit; [done|]. intros i Hi.
    apply not_true_is_false. rewrite <-(N2Nat.id i). apply Hlow. lia. }
  unfold word_ones. replace 64 with (S k + (64 - S k)) at 1 by lia.
  rewrite seq_app, filter_app. cbn [Nat.add].
  rewrite filter_none.
  - apply filter_ext_in. intros j Hj%elem_of_seq. rewrite Hland.
    destruct (N.eqb_spec (N.of_nat j) (N.of_nat k)); [lia|]. by rewrite andb_true_r.
  - intros j Hj%elem_of_seq. rewrite Hland.
    destruct (N.eqb_spec (N.of_nat j) (N.of_nat k)); [by rewrite andb_false_r|].
    rewrite andb_true_r. apply Hlow. lia.
Qed.

(** ** Row lemmas *)

Lemma index_split i j : i `div` 64 = j `div` 64 → i `mod` 64 = j `mod` 64 → i = j.
Proof.
  intros Hd Hm. rewrite (Nat.div_mod_eq i 64), (Nat.div_mod_eq j 64). lia.
Qed.

Lemma mod64_lt i : i `mod` 64 < 64.
Proof. by apply Nat.mod_upper_bound. Qed.
#[export] Hint Resolve mod64_lt : rust.

Lemma div_ceil_lt i n : i < n → i `div` 64 < div_ceil n 64.
Proof.
  intros Hi. unfold div_ceil. cbn [Nat.sub].
  apply Nat.lt_le_trans with (S (i `div` 64)); [lia|].
  rewrite <-Nat.add_1_r, <-Nat.div_add by done. apply Nat.Div0.div_le_mono. lia.
Qed.

Lemma div_ceil_spec n : n ≤ 64 * div_ceil n 64 < n + 64.
Proof.
  unfold div_ceil. cbn [Nat.sub].
  pose proof (Nat.div_mod_eq (n + 63) 64). pose proof (mod64_lt (n + 63)). lia.
Qed.

Lemma row_mem_oob words i : 64 * length words ≤ i → row_mem words i = false.
Proof.
  intros Hi. unfold row_mem. rewrite lookup_ge_None_2; [done|].
  apply Nat.div_le_lower_bound; lia.
Qed.

Lemma row_mem_insert words q w i :
  q < length words →
  row_mem (<[q := w]> words) i =
    if decide (i `div` 64 = q) then N.testbit w (N.of_nat (i `mod` 64)) else row_mem words i.
Proof.
  intros Hq. unfold row_mem. case_decide as Hd.
  - subst. by rewrite list_lookup_insert_eq.
  - by rewrite list_lookup_insert_ne by done.
Qed.

Lemma row_mem_set words w i j :
  words !! (i `div` 64) = Some w →
  row_mem (<[i `div` 64 := N.lor w (bit_of (i `mod` 64))]> words) j =
    (row_mem words j || bool_decide (j = i)).
Proof.
  intros Hw. rewrite row_mem_insert by (by eapply lookup_lt_Some). case_decide as Hd.
  - rewrite lor_bit_of_testbit. unfold row_mem. rewrite Hd, Hw. f_equal.
    apply bool_decide_ext. split; [|by intros ->]. intros; by apply index_split.
  - rewrite (bool_decide_eq_false_2 (j = i)) by naive_solver. by rewrite orb_false_r.
Qed.

Lemma row_mem_clear words w i j :
  words !! (i `div` 64) = Some w →
  row_mem (<[i `div` 64 := N.land w (not64 (bit_of (i `mod` 64)))]> words) j =
    (row_mem words j && negb (bool_decide (j = i))).
Proof.
  intros Hw. rewrite row_mem_insert by (by eapply lookup_lt_Some). case_decide as Hd.
  - rewrite clear_bit_testbit by apply mod64_lt. unfold row_mem. rewrite Hd, Hw. do 2 f_equal.
    apply bool_decide_ext. split; [|by intros ->]. intros; by apply index_split.
  - rewrite (bool_decide_eq_false_2 (j = i)) by naive_solver. by rewrite andb_true_r.
Qed.

Lemma row_mem_probe words w i :
  words !! (i `div` 64) = Some w →
  negb (N.land w (bit_of (i `mod` 64)) =? 0)%N = row_mem words i.
Proof. intros Hw. rewrite land_bit_of, negb_involutive. unfold row_mem. by rewrite Hw. Qed.

Lemma elem_of_row_ones words i : i ∈ row_ones words ↔ row_mem words i = true.
Proof.
  unfold row_ones. rewrite list_elem_of_filter, elem_of_seq. split; [naive_solver|].
  intros Hi. split_and!; [done|lia|].
  destruct (decide (i < 0 + 64 * length words)); [done|].
  rewrite row_mem_oob in Hi; [done|lia].
Qed.

Lemma NoDup_row_ones words : NoDup (row_ones words).
Proof. apply NoDup_filter, NoDup_seq. Qed.

(** Two rows of [u64] words with the same members are the same row. *)
Lemma row_ext words1 words2 :
  length words1 = length words2 → Forall is_u64 words1 → Forall is_u64 words2 →
  (∀ i, row_mem words1 i = row_mem words2 i) → words1 = words2.
Proof.
  intros Hlen H1 H2 Hmem. apply list_eq. intros q.
  destruct (words1 !! q) as [w1|] eqn:E1.
  - destruct (lookup_lt_is_Some_2 words2 q) as [w2 E2].
    { rewrite <-Hlen. by eapply lookup_lt_Some. }
    rewrite E2. f_equal. apply N.bits_inj. intros j.
    destruct (N.ltb_spec j 64) as [Hj|Hj].
    + specialize (Hmem (64 * q + N.to_nat j)). unfold row_mem in Hmem.
      replace ((64 * q + N.to_nat j) `div` 64) with q in Hmem.
      2:{ rewrite Nat.mul_comm, Nat.div_add_l by done. rewrite Nat.div_small by lia. lia. }
      replace ((64 * q + N.to_nat j) `mod` 64) with (N.to_nat j) in Hmem.
      2:{ rewrite Nat.mul_comm, Nat.add_comm, Nat.Div0.mod_add. rewrite Nat.mod_small; lia. }
      by rewrite E1, E2, N2Nat.id in Hmem.
    + rewrite Forall_lookup in H1, H2.
      rewrite (proj1 (is_u64_testbit w1)), (proj1 (is_u64_testbit w2)); eauto.
  - apply lookup_ge_None in E1. symmetry. apply lookup_ge_None. lia.
Qed.

Lemma div_ceil_S n :
  div_ceil (S n) 64 = if decide (n `mod` 64 = 0) then S (div_ceil n 64) else div_ceil n 64.
Proof.
  pose proof (Nat.div_mod_eq n 64) as Hn. pose proof (mod64_lt n) as Hr.
  pose proof (div_ceil_spec n) as H1. pose proof (div_ceil_spec (S n)) as H2.
  case_decide; lia.
Qed.

Lemma row_mem_app_zero ws i : row_mem (ws ++ [0%N]) i = row_mem ws i.
Proof.
  unfold row_mem. destruct (decide (i `div` 64 < length ws)) as [H|H].
  - by rewrite lookup_app_l.
  - rewrite lookup_app_r by lia.
    assert (ws !! (i `div` 64) = None) as -> by (apply lookup_ge_None; lia).
    destruct (i `div` 64 - length ws) as [|k]; [|done]. cbn [lookup list_lookup]. by rewrite N.bits_0.
Qed.

Lemma row_mem_cons w ws i :
  row_mem (w :: ws) i = if decide (i < 64) then N.testbit w (N.of_nat i) else row_mem ws (i - 64).
Proof.
  unfold row_mem. case_decide as Hi.
  - by rewrite Nat.div_small, Nat.mod_small.
  - assert (i `div` 64 = S ((i - 64) `div` 64)) as ->.
    { pose proof (Nat.div_add (i - 64) 1 64). replace (i - 64 + 1 * 64) with i in * by lia. lia. }
    assert (i `mod` 64 = (i - 64) `mod` 64) as ->.
    { pose proof (Nat.Div0.mod_add (i - 64) 1 64). by replace (i - 64 + 1 * 64) with i in * by lia. }
    done.
Qed.

Lemma filter_seq_shift (P : nat → Prop) `{∀ x, Decision (P x)} k a n :
  filter P (seq (k + a) n) = (Nat.add k) <$> filter (λ i, P (k + i)) (seq a n).
Proof.
  revert a. induction n as [|n IH]; intros a; [done|]. cbn [seq].
  rewrite !filter_cons, <-Nat.add_succ_r, IH. by case_decide.
Qed.

(** A row is its first word's set bits followed by the rest, 64 higher. *)
Lemma row_ones_cons w ws :
  row_ones (w :: ws) = word_ones w ++ (Nat.add 64 <$> row_ones ws).
Proof.
  unfold row_ones, word_ones. cbn [length].
  replace (64 * S (length ws)) with (64 + 64 * length ws) by lia.
  rewrite seq_app, filter_app. apply (f_equal2 app).
  - apply filter_ext_in. intros i Hi%elem_of_seq. rewrite row_mem_cons.
    rewrite decide_True by lia. done.
  - replace (0 + 64) with (64 + 0) by lia. rewrite filter_seq_shift. apply (f_equal (fmap _)).
    apply filter_ext_in. intros i _. rewrite row_mem_cons, decide_False by lia.
    by replace (64 + i - 64) with i by lia.
Qed.

Lemma row_ones_nil : row_ones [] = [].
Proof. done. Qed.

Lemma length_row_ones ws : length (row_ones ws) = sum_list (count_ones <$> ws).
Proof.
  induction ws as [|w ws IH]; [done|].
  rewrite row_ones_cons, length_app, length_fmap, IH. done.
Qed.

Lemma length_row_ones_le ws : length (row_ones ws) ≤ 64 * length ws.
Proof.
  unfold row_ones. etrans; [apply length_filter|]. by rewrite length_seq.
Qed.

Lemma row_ones_seq ws n :
  (∀ i, n ≤ i → row_mem ws i = false) →
  row_ones ws = filter (λ i, row_mem ws i = true) (seq 0 n).
Proof.
  intros Hn. unfold row_ones.
  destruct (Nat.le_ge_cases (64 * length ws) n) as [Hle|Hge].
  - replace n with (64 * length ws + (n - 64 * length ws)) by lia.
    rewrite seq_app, filter_app, (filter_none _ (seq (0 + _) _)), app_nil_r; [done|].
    intros i Hi%elem_of_seq. rewrite row_mem_oob; [done|lia].
  - replace (64 * length ws) with (n + (64 * length ws - n)) by lia.
    rewrite seq_app, filter_app, (filter_none _ (seq (0 + _) _)), app_nil_r; [done|].
    intros i Hi%elem_of_seq. rewrite Hn; [done|lia].
Qed.

Lemma shiftr_zero_testbit w k :
  (N.shiftr w (N.of_nat k) =? 0)%N = true ↔ ∀ j, (N.of_nat k ≤ j)%N → N.testbit w j = false.
Proof.
  rewrite N.eqb_eq. split.
  - intros H j Hj. apply (f_equal (λ x, N.testbit x (j - N.of_nat k))) in H.
    rewrite N.shiftr_spec', N.bits_0 in H. by replace (j - N.of_nat k + N.of_nat k)%N with j in H by lia.
  - intros H. apply N.bits_inj. intros j. rewrite N.shiftr_spec', N.bits_0. apply H. lia.
Qed.

Lemma pred_pow2_testbit k j :
  N.testbit (bit_of k - 1) j = (j <? N.of_nat k)%N.
Proof.
  unfold bit_of. rewrite N.shiftl_1_l, <-N.pred_sub, <-N.ones_equiv.
  destruct (N.ltb_spec j (N.of_nat k)); [by apply N.ones_spec_low|by apply N.ones_spec_high].
Qed.
