(* ===== verification/Liveness.v ===== *)
(** * The liveness bitset of the graph store

    Models [graph/store/liveness.rs]: a growable row of packed words whose
    index space is the store's slot space. The abstract state is the length
    and the set of live slots ([live_in]). *)

From S2P Require Import Prelude Words.

Module LiveSet.

Record t : Type := mk { words : list N; len : nat }.

#[export] Instance t_eq_dec : EqDecision t.
Proof. solve_decision. Defined.

(** [LiveSet::new] *)
Definition new : t := mk [] 0.

(** [LiveSet::push_live] *)
Definition push_live (s : t) : res (nat * t) :=
  let index := len s in
  let words1 := if decide (index `mod` 64 = 0) then words s ++ [0%N] else words s in
  let word := index `div` 64 in
  w ← vget words1 word;
  words2 ← vset words1 word (N.lor w (bit_of (index `mod` 64)));
  mret (index, mk words2 (S (len s))).

(** [LiveSet::is_live] *)
Definition is_live (s : t) (index : nat) : res bool :=
  if decide (len s ≤ index) then mret false
  else
    w ← vget (words s) (index `div` 64);
    mret (negb (N.land w (bit_of (index `mod` 64)) =? 0)%N).

(** [LiveSet::clear] *)
Definition clear (s : t) (index : nat) : res (bool * t) :=
  live ← is_live s index;
  if negb live then mret (false, s)
  else
    w ← vget (words s) (index `div` 64);
    words' ← vset (words s) (index `div` 64) (N.land w (not64 (bit_of (index `mod` 64))));
    mret (true, mk words' (len s)).

(** The [u32] sum of the population counts, as [Iterator::sum] computes it. *)
Definition sum_step (acc : nat) (w : N) : res nat :=
  let total := acc + count_ones w in
  if decide (N.of_nat total ≤ U32_MAX)%N then Ok total
  else Panic "attempt to add with overflow".
Definition sum_count_ones (ws : list N) : res nat := rfold sum_step 0 ws.

(** [LiveSet::count_live] *)
Definition count_live (s : t) (slots : nat) : res (option nat) :=
  if decide (len s ≠ slots ∨ length (words s) ≠ div_ceil slots 64) then mret None
  else
    let tail := slots `mod` 64 in
    stray ← (if decide (tail ≠ 0)
             then w ← vget (words s) (length (words s) - 1);
                  mret (negb (N.shiftr w (N.of_nat tail) =? 0)%N)
             else mret false);
    if (stray : bool) then mret None
    else live ← sum_count_ones (words s); mret (Some live).

(** [LiveSet::reset_all_live] *)
Definition reset_all_live (slots : nat) : res t :=
  let words0 := replicate (div_ceil slots 64) U64_MAX in
  let tail := slots `mod` 64 in
  words1 ← (if decide (tail ≠ 0)
            then vset words0 (length words0 - 1) (bit_of tail - 1)%N
            else mret words0);
  mret (mk words1 slots).

(** ** Abstract state and well-formedness *)

Definition live_in (s : t) (i : nat) : bool := row_mem (words s) i.
Definition live_slots (s : t) : list nat :=
  filter (λ i, live_in s i = true) (seq 0 (len s)).

Record wf (s : t) : Prop := mk_wf {
  wf_length : length (words s) = div_ceil (len s) 64;
  wf_u64 : Forall is_u64 (words s);
  wf_tail : ∀ i, len s ≤ i → live_in s i = false;
}.

Lemma wf_lookup s i : wf s → i < len s → ∃ w, words s !! (i `div` 64) = Some w.
Proof.
  intros Hwf Hi. apply lookup_lt_is_Some_2. rewrite wf_length by done. by apply div_ceil_lt.
Qed.

Lemma live_in_lt s i : wf s → live_in s i = true → i < len s.
Proof.
  intros Hwf Hi. destruct (decide (i < len s)); [done|].
  rewrite wf_tail in Hi; [done|done|lia].
Qed.

Lemma new_wf : wf new.
Proof. split; [done|by constructor|done]. Qed.

Lemma is_live_Ok s i : wf s → is_live s i = Ok (live_in s i).
Proof.
  intros Hwf. unfold is_live. case_decide as Hi.
  - by rewrite wf_tail.
  - destruct (wf_lookup s i) as [w Hw]; [done|lia|].
    rewrite (vget_eq _ _ _ Hw). rsimpl.
    f_equal. by apply row_mem_probe.
Qed.

(** [push_live] never panics on a well-formed set, returns the next slot and
    makes exactly that slot live. *)
Lemma push_live_spec s :
  wf s →
  ∃ s', push_live s = Ok (len s, s') ∧ wf s' ∧ len s' = S (len s) ∧
    ∀ i, live_in s' i = (live_in s i || bool_decide (i = len s)).
Proof.
  intros Hwf. unfold push_live.
  set (ws := if decide (len s `mod` 64 = 0) then words s ++ [0%N] else words s).
  assert (Hlen : length ws = div_ceil (S (len s)) 64).
  { unfold ws. rewrite div_ceil_S, <-(wf_length s Hwf). case_decide; [|done].
    rewrite length_app. cbn. lia. }
  assert (Hmem : ∀ i, row_mem ws i = live_in s i).
  { intros i. unfold ws. case_decide; [apply row_mem_app_zero|done]. }
  assert (Hu : Forall is_u64 ws).
  { unfold ws. case_decide; [|by apply wf_u64]. apply Forall_app. split; [by apply wf_u64|].
    repeat constructor. unfold is_u64, U64_MAX. lia. }
  destruct (lookup_lt_is_Some_2 ws (len s `div` 64)) as [w Hw].
  { rewrite Hlen. apply div_ceil_lt. lia. }
  rewrite (vget_eq _ _ _ Hw). rsimpl.
  rewrite vset_lt by (by eapply lookup_lt_Some). rsimpl.
  eexists. split; [done|].
  assert (Hnew : ∀ i, row_mem (<[len s `div` 64:=N.lor w (bit_of (len s `mod` 64))]> ws) i =
            (live_in s i || bool_decide (i = len s))).
  { intros i. by rewrite row_mem_set, Hmem. }
  split_and!; [|done|done]. split; cbn.
  - by rewrite length_insert.
  - apply Forall_insert; [done|]. apply is_u64_lor; [|apply is_u64_bit_of, mod64_lt].
    rewrite Forall_lookup in Hu. by eapply Hu.
  - intros i Hi. unfold live_in. cbn. rewrite Hnew, wf_tail by (done || lia).
    apply bool_decide_eq_false. lia.
Qed.

(** [clear] reports whether the slot was live and removes exactly it. *)
Lemma clear_spec s i :
  wf s →
  ∃ s', clear s i = Ok (live_in s i, s') ∧ wf s' ∧ len s' = len s ∧
    ∀ j, live_in s' j = (live_in s j && negb (bool_decide (j = i))).
Proof.
  intros Hwf. unfold clear. rewrite is_live_Ok by done. rsimpl.
  destruct (live_in s i) eqn:Hi; rsimpl.
  - destruct (wf_lookup s i) as [w Hw]; [done|by apply live_in_lt|].
    rewrite (vget_eq _ _ _ Hw). rsimpl.
    rewrite vset_lt by (by eapply lookup_lt_Some). rsimpl. eexists. split; [done|].
    assert (Hnew : ∀ j, row_mem (<[i `div` 64:=N.land w (not64 (bit_of (i `mod` 64)))]> (words s)) j =
              (live_in s j && negb (bool_decide (j = i)))).
    { intros j. by rewrite row_mem_clear. }
    split_and!; [|done|done]. split; cbn.
    + rewrite length_insert. by apply wf_length.
    + apply Forall_insert; [by apply wf_u64|]. apply is_u64_land.
      pose proof (wf_u64 s Hwf) as Hu. rewrite Forall_lookup in Hu. by eapply Hu.
    + intros j Hj. unfold live_in. cbn. by rewrite Hnew, wf_tail.
  - exists s. split_and!; [done|done|done|]. intros j. case_bool_decide; [by subst; rewrite Hi|].
    by rewrite andb_true_r.
Qed.

#[local] Opaque count_ones.

Lemma sum_count_ones_acc ws acc :
  (N.of_nat (acc + sum_list (count_ones <$> ws)) ≤ U32_MAX)%N →
  rfold sum_step acc ws = Ok (acc + sum_list (count_ones <$> ws)).
Proof.
  revert acc. induction ws as [|w ws IH]; intros acc; cbn [rfold fmap list_fmap];
    cbn [sum_list sum_list_with id]; intros Hle.
  - by rewrite Nat.add_0_r.
  - assert (sum_step acc w = Ok (acc + count_ones w)) as ->.
    { unfold sum_step; cbv zeta. apply decide_True. lia. }
    rsimpl. rewrite IH by lia. f_equal. lia.
Qed.

Lemma sum_count_ones_Ok ws :
  (N.of_nat (length (row_ones ws)) ≤ U32_MAX)%N →
  sum_count_ones ws = Ok (length (row_ones ws)).
Proof. rewrite length_row_ones. apply (sum_count_ones_acc ws 0). Qed.

Lemma sum_count_ones_inv ws n : sum_count_ones ws = Ok n → n = length (row_ones ws).
Proof.
  rewrite length_row_ones. unfold sum_count_ones.
  cut (∀ acc n, rfold sum_step acc ws = Ok n → n = acc + sum_list (count_ones <$> ws)).
  { intros H Hf. apply H in Hf. lia. }
  clear n. induction ws as [|w ws IH]; intros acc n; cbn [rfold fmap list_fmap].
  - intros [= <-]. cbn. lia.
  - intros H. inv_res. unfold sum_step in H0; cbv zeta in H0. case_decide; inv_res.
    apply IH in H. cbn [sum_list sum_list_with id] in *. lia.
Qed.

Lemma live_slots_row s : wf s → live_slots s = row_ones (words s).
Proof. intros Hwf. symmetry. apply row_ones_seq. intros i Hi. by apply wf_tail. Qed.

Lemma length_live_slots_le s : length (live_slots s) ≤ len s.
Proof. unfold live_slots. etrans; [apply length_filter|]. by rewrite length_seq. Qed.

(** The last word's bits above the tail are the row's members past the end. *)
Lemma tail_word_spec s w :
  length (words s) = div_ceil (len s) 64 → Forall is_u64 (words s) →
  len s `mod` 64 ≠ 0 → words s !! (length (words s) - 1) = Some w →
  (N.shiftr w (N.of_nat (len s `mod` 64)) =? 0)%N = true ↔
  ∀ i, len s ≤ i → live_in s i = false.
Proof.
  intros Hlen Hu Htail Hw. rewrite shiftr_zero_testbit.
  pose proof (div_ceil_spec (len s)) as Hc. rewrite <-Hlen in Hc.
  pose proof (Nat.div_mod_eq (len s) 64) as Hn. pose proof (mod64_lt (len s)).
  assert (Hq : length (words s) - 1 = len s `div` 64) by lia.
  rewrite Hq in Hw. split.
  - intros Hbits i Hi. unfold live_in, row_mem.
    destruct (words s !! (i `div` 64)) as [w'|] eqn:E; [|done].
    apply lookup_lt_Some in E as Hlt.
    assert (i `div` 64 = len s `div` 64) as Hd.
    { pose proof (Nat.Div0.div_le_mono (len s) i 64 Hi). lia. }
    rewrite Hd, Hw in E. injection E as <-. apply Hbits.
    pose proof (Nat.div_mod_eq i 64). lia.
  - intros Hrow j Hj. destruct (N.ltb_spec j 64) as [Hlt|Hge].
    + specialize (Hrow (64 * (len s `div` 64) + N.to_nat j)).
      unfold live_in, row_mem in Hrow.
      replace ((64 * (len s `div` 64) + N.to_nat j) `div` 64) with (len s `div` 64) in Hrow.
      2:{ apply (Nat.div_unique _ _ _ (N.to_nat j)); lia. }
      rewrite Hw in Hrow.
      replace ((64 * (len s `div` 64) + N.to_nat j) `mod` 64) with (N.to_nat j) in Hrow.
      2:{ apply (Nat.mod_unique _ _ (len s `div` 64)); lia. }
      rewrite N2Nat.id in Hrow. apply Hrow. lia.
    + rewrite Forall_lookup in Hu. eapply is_u64_testbit; eauto.
Qed.

(** What a successful check of a decoded set establishes. *)
Lemma count_live_Some s slots n :
  Forall is_u64 (words s) →
  count_live s slots = Ok (Some n) →
  wf s ∧ len s = slots ∧ n = length (live_slots s).
Proof.
  intros Hu. unfold count_live. case_decide as Hd; [done|].
  assert (len s = slots ∧ length (words s) = div_ceil slots 64) as [Hl Hw].
  { split; apply dec_stable; naive_solver. }
  subst slots. intros H. inv_res. destruct x; [inv_res; done|]. inv_res.
  assert (Hwf : wf s).
  { split; [done|done|]. case_decide as Ht.
    - inv_res. eapply tail_word_spec; [done..|]. by apply negb_false_iff.
    - intros i Hi. apply row_mem_oob. rewrite Hw.
      pose proof (div_ceil_spec (len s)). pose proof (Nat.div_mod_eq (len s) 64). lia. }
  split_and!; [done|done|].
  apply sum_count_ones_inv in H1. by rewrite live_slots_row.
Qed.

(** A well-formed set passes the check and is counted exactly. *)
Lemma count_live_wf s :
  wf s → (N.of_nat (len s) ≤ U32_MAX)%N →
  count_live s (len s) = Ok (Some (length (live_slots s))).
Proof.
  intros Hwf Hle. unfold count_live. rewrite decide_False by (rewrite (wf_length s Hwf); tauto).
  assert (Hsum : sum_count_ones (words s) = Ok (length (live_slots s))).
  { rewrite live_slots_row by done. apply sum_count_ones_Ok. rewrite <-live_slots_row by done.
    pose proof (length_live_slots_le s). lia. }
  case_decide as Ht; rsimpl; [|by rewrite Hsum].
  assert (0 < length (words s)) as Hpos.
  { rewrite wf_length by done. pose proof (div_ceil_spec (len s)).
    destruct (decide (len s = 0)) as [H0|]; [by rewrite H0 in Ht|lia]. }
  destruct (lookup_lt_is_Some_2 (words s) (length (words s) - 1)) as [w Hw]; [lia|].
  rewrite (vget_eq _ _ _ Hw). rsimpl.
  rewrite (proj2 (tail_word_spec s w (wf_length s Hwf) (wf_u64 s Hwf) Ht Hw) (wf_tail s Hwf)).
  rsimpl. by rewrite Hsum.
Qed.

(** The check of a decoded set never panics. *)
Lemma count_live_total s slots :
  Forall is_u64 (words s) → (N.of_nat slots ≤ U32_MAX)%N → ∃ o, count_live s slots = Ok o.
Proof.
  intros Hu Hle. destruct (decide (len s = slots ∧ length (words s) = div_ceil slots 64)) as [[<- Hw]|Hne].
  2:{ exists None. unfold count_live. rewrite decide_True; [done|]. apply not_and_l in Hne. naive_solver. }
  assert (Hsome : wf s → ∃ o, count_live s (len s) = Ok o) by (intros; eexists; by apply count_live_wf).
  destruct (decide (len s `mod` 64 = 0)) as [Ht|Ht].
  { apply Hsome. split; [done..|]. intros i Hi. apply row_mem_oob. rewrite Hw.
    pose proof (div_ceil_spec (len s)). pose proof (Nat.div_mod_eq (len s) 64). lia. }
  assert (0 < length (words s)) as Hpos.
  { rewrite Hw. pose proof (div_ceil_spec (len s)). destruct (decide (len s = 0)) as [H0|]; [by rewrite H0 in Ht|lia]. }
  destruct (lookup_lt_is_Some_2 (words s) (length (words s) - 1)) as [w Hlast]; [lia|].
  destruct (N.shiftr w (N.of_nat (len s `mod` 64)) =? 0)%N eqn:Hs.
  - apply Hsome. split; [done..|]. by apply (tail_word_spec s w).
  - exists None. unfold count_live. rewrite decide_False by tauto. rewrite decide_True by done.
    rewrite (vget_eq _ _ _ Hlast). rsimpl. by rewrite Hs.
Qed.

Lemma row_mem_full n i : row_mem (replicate n U64_MAX) i = bool_decide (i < 64 * n).
Proof.
  unfold row_mem. destruct (decide (i < 64 * n)) as [Hi|Hi].
  - rewrite lookup_replicate_2 by (apply Nat.Div0.div_lt_upper_bound; lia).
    rewrite U64_MAX_testbit, bool_decide_true by done. apply N.ltb_lt. pose proof (mod64_lt i). lia.
  - rewrite bool_decide_false by done.
    assert (replicate n U64_MAX !! (i `div` 64) = None) as ->; [|done].
    apply lookup_ge_None. rewrite length_replicate. apply Nat.div_le_lower_bound; lia.
Qed.

(** [reset_all_live] covers exactly [slots] slots, all of them live. *)
Lemma reset_all_live_spec slots :
  ∃ s, reset_all_live slots = Ok s ∧ wf s ∧ len s = slots ∧
    ∀ i, live_in s i = bool_decide (i < slots).
Proof.
  unfold reset_all_live. pose proof (div_ceil_spec slots) as Hc.
  pose proof (Nat.div_mod_eq slots 64) as Hn. pose proof (mod64_lt slots) as Hm.
  set (n := div_ceil slots 64) in *.
  assert (Hu : Forall is_u64 (replicate n U64_MAX)).
  { apply Forall_replicate. unfold is_u64. done. }
  case_decide as Ht; rsimpl.
  - rewrite length_replicate. rewrite vset_lt by (rewrite length_replicate; lia). rsimpl.
    eexists. split; [done|].
    assert (Hmem : ∀ i, row_mem (<[n - 1:=(bit_of (slots `mod` 64) - 1)%N]> (replicate n U64_MAX)) i
              = bool_decide (i < slots)).
    { intros i. rewrite row_mem_insert by (rewrite length_replicate; lia).
      pose proof (Nat.div_mod_eq i 64). pose proof (mod64_lt i). case_decide as Hd.
      - rewrite pred_pow2_testbit. apply eq_true_iff_eq.
        rewrite N.ltb_lt, bool_decide_eq_true. lia.
      - rewrite row_mem_full. apply bool_decide_ext.
        assert (n - 1 = slots `div` 64) by lia. split; [|lia]. intros. lia. }
    split_and!; [|done|done]. split; cbn.
    + by rewrite length_insert, length_replicate.
    + apply Forall_insert; [done|]. apply is_u64_testbit. intros j Hj.
      rewrite pred_pow2_testbit. apply N.ltb_ge. lia.
    + intros i Hi. unfold live_in. cbn. rewrite Hmem. apply bool_decide_eq_false. lia.
  - eexists. split; [done|].
    assert (Hmem : ∀ i, row_mem (replicate n U64_MAX) i = bool_decide (i < slots)).
    { intros i. rewrite row_mem_full. apply bool_decide_ext. lia. }
    split_and!; [|done|done]. split; cbn.
    + by rewrite length_replicate.
    + done.
    + intros i Hi. unfold live_in. cbn. rewrite Hmem. apply bool_decide_eq_false. lia.
Qed.

(** ** Counting live slots across updates *)

Lemma elem_of_live_slots s i : wf s → i ∈ live_slots s ↔ live_in s i = true.
Proof.
  intros Hwf. unfold live_slots. rewrite list_elem_of_filter, elem_of_seq. split; [naive_solver|].
  intros Hi. pose proof (live_in_lt _ _ Hwf Hi). split; [done|lia].
Qed.

Lemma NoDup_live_slots s : NoDup (live_slots s).
Proof. apply NoDup_filter, NoDup_seq. Qed.

Lemma live_slots_push s s' :
  wf s → wf s' → len s' = S (len s) →
  (∀ i, live_in s' i = (live_in s i || bool_decide (i = len s))) →
  length (live_slots s') = S (length (live_slots s)).
Proof.
  intros Hwf Hwf' Hlen Hin.
  assert (Hp : live_slots s' ≡ₚ len s :: live_slots s).
  { apply NoDup_Permutation.
    - apply NoDup_live_slots.
    - apply NoDup_cons. split; [|apply NoDup_live_slots].
      rewrite elem_of_live_slots by done. rewrite wf_tail; done.
    - intros i. rewrite elem_of_cons, !elem_of_live_slots, Hin by done.
      rewrite orb_true_iff, bool_decide_eq_true. tauto. }
  by rewrite Hp.
Qed.

Lemma live_slots_clear s s' i :
  wf s → wf s' → live_in s i = true →
  (∀ j, live_in s' j = (live_in s j && negb (bool_decide (j = i)))) →
  S (length (live_slots s')) = length (live_slots s).
Proof.
  intros Hwf Hwf' Hi Hin.
  assert (Hp : live_slots s ≡ₚ i :: live_slots s').
  { apply NoDup_Permutation.
    - apply NoDup_live_slots.
    - apply NoDup_cons. split; [|apply NoDup_live_slots].
      rewrite elem_of_live_slots, Hin, bool_decide_true by done. by rewrite andb_false_r.
    - intros j. rewrite elem_of_cons, !elem_of_live_slots, Hin by done.
      rewrite andb_true_iff, negb_true_iff, bool_decide_eq_false. 
      destruct (decide (j = i)); naive_solver. }
  by rewrite Hp.
Qed.

End LiveSet.
