(* ===== verification/Ids.v ===== *)
(** * Identities, directions and edge records

    Models [graph/store/id.rs], [graph/store/edge.rs], the direction type of
    [graph/traverse.rs] and the raw-index helpers of [graph/store.rs]. A raw
    [u32] is an [N]; the dense index of an identity is [N.to_nat] of it. *)

From S2P Require Import Prelude.

(** [NONE], the link that names no slot, and [MAX_SLOTS]. *)
Definition NONE : N := U32_MAX.
Definition MAX_SLOTS : N := NONE.

(** [TraversalDirection] *)
Inductive TraversalDirection := Outgoing | Incoming.

#[export] Instance TraversalDirection_eq_dec : EqDecision TraversalDirection.
Proof. solve_decision. Defined.

(** [Id<T>]: a tagged raw [u32]. The tag is a phantom type and has no content. *)
Abbreviation Id := N (only parsing).
Definition index (id : Id) : nat := N.to_nat id.

(** [Id::from_index] *)
Definition from_index (i : nat) : res Id :=
  expect (u32_try_from i) "dense identity index exceeds u32::MAX".

(** [raw_index] of the store. *)
Definition raw_index (value : nat) : res N :=
  expect (u32_try_from value) "dense slot count exceeds u32::MAX".

(** [u32] addition; an overflow aborts. *)
Definition u32_add (a b : N) : res N :=
  if decide (a + b ≤ U32_MAX)%N then Ok (a + b)%N else Panic "attempt to add with overflow".

(** [EdgeRecord<E, NT>] *)
Record EdgeRecord (E : Type) : Type := mk_EdgeRecord {
  source : Id;
  target : Id;
  payload : E;
}.
Arguments mk_EdgeRecord {E} source target payload.
Arguments source {E} _.
Arguments target {E} _.
Arguments payload {E} _.

#[export] Instance EdgeRecord_eq_dec {E} `{EqDecision E} : EqDecision (EdgeRecord E).
Proof. solve_decision. Defined.

(** The endpoint an adjacency direction files an edge under. *)
Definition endpoint {E} (direction : TraversalDirection) (r : EdgeRecord E) : Id :=
  match direction with Outgoing => source r | Incoming => target r end.

Definition set_endpoint {E} (direction : TraversalDirection) (n : Id) (r : EdgeRecord E)
    : EdgeRecord E :=
  match direction with
  | Outgoing => mk_EdgeRecord n (target r) (payload r)
  | Incoming => mk_EdgeRecord (source r) n (payload r)
  end.

(** Assignment through [EdgeRecord::payload_mut] *)
Definition payload_mut {E} (f : E → E) (r : EdgeRecord E) : EdgeRecord E :=
  mk_EdgeRecord (source r) (target r) (f (payload r)).

Lemma from_index_Ok i id :
  from_index i = Ok id ↔ id = N.of_nat i ∧ (N.of_nat i ≤ U32_MAX)%N.
Proof. unfold from_index. by rewrite expect_Ok, u32_try_from_Some. Qed.

Lemma from_index_eq i : (N.of_nat i ≤ U32_MAX)%N → from_index i = Ok (N.of_nat i).
Proof. intros. by apply from_index_Ok. Qed.

Lemma raw_index_Ok i r :
  raw_index i = Ok r ↔ r = N.of_nat i ∧ (N.of_nat i ≤ U32_MAX)%N.
Proof. unfold raw_index. by rewrite expect_Ok, u32_try_from_Some. Qed.

Lemma raw_index_eq i : (N.of_nat i ≤ U32_MAX)%N → raw_index i = Ok (N.of_nat i).
Proof. intros. by apply raw_index_Ok. Qed.

Lemma u32_add_eq a b : (a + b ≤ U32_MAX)%N → u32_add a b = Ok (a + b)%N.
Proof. intros. unfold u32_add. by rewrite decide_True. Qed.

Lemma index_inj (n m : Id) : index n = index m → n = m.
Proof. unfold index. lia. Qed.

(** Dense identities round-trip. *)
Lemma word_of_index (x : Id) : N.of_nat (index x) = x.
Proof. unfold index. lia. Qed.

Lemma index_of_nat i : index (N.of_nat i) = i.
Proof. unfold index. lia. Qed.

Lemma index_from_index i id : from_index i = Ok id → index id = i.
Proof. rewrite from_index_Ok. intros [-> _]. unfold index. lia. Qed.

Lemma endpoint_set_eq {E} d n (r : EdgeRecord E) : endpoint d (set_endpoint d n r) = n.
Proof. by destruct d. Qed.

Lemma endpoint_set_ne {E} d d' n (r : EdgeRecord E) :
  d ≠ d' → endpoint d (set_endpoint d' n r) = endpoint d r.
Proof. by destruct d, d'. Qed.

Lemma payload_set {E} d n (r : EdgeRecord E) : payload (set_endpoint d n r) = payload r.
Proof. by destruct d. Qed.

Lemma endpoint_payload_mut {E} d f (r : EdgeRecord E) : endpoint d (payload_mut f r) = endpoint d r.
Proof. by destruct d. Qed.

(** A duplicate-free list of identities below a bound is no longer than it. *)
Lemma NoDup_index_length (l : list N) n :
  NoDup l → (∀ x, x ∈ l → index x < n) → length l ≤ n.
Proof.
  intros Hnd Hlt. rewrite <-(length_fmap N.to_nat l). apply NoDup_length_below.
  - apply NoDup_fmap_2; [|done]. intros ??. apply N2Nat.inj.
  - intros i (x & -> & Hx)%list_elem_of_fmap. by apply Hlt.
Qed.

#[export] Hint Rewrite @endpoint_set_eq @payload_set : rust.
