(* ===== verification/View.v ===== *)
(** * Graph views

    Models [graph/view.rs]: the [GraphView] trait as a class, its contract as
    a class of laws against a [shape] (what the view says the graph is), and
    the adapters [Rooted], [Reversed] and [scan_predecessors], each with its
    proof that it keeps the contract. Algorithms are proved against this
    interface, stores and adapters implement it. An identity is modelled by
    its raw value, which [DenseId] makes its index. *)

From S2P Require Import Prelude Ids.

(** [trait GraphView] *)
Class GraphView (G : Type) : Type := {
  gv_node_bound : G → nat;
  gv_node_ids : G → res (list Id);
  gv_successors : G → Id → res (list Id);
  gv_predecessors : G → Id → res (list Id);
}.

(** [Adjacency::neighbors] of the axis a direction resolves to ([by_axis!]) *)
Definition neighbors {G} `{GraphView G} (d : TraversalDirection) (g : G) (n : Id) : res (list Id) :=
  match d with Outgoing => gv_successors g n | Incoming => gv_predecessors g n end.

(** [Adjacency::against] *)
Definition against (d : TraversalDirection) : TraversalDirection :=
  match d with Outgoing => Incoming | Incoming => Outgoing end.

(** [assert_in_bound] *)
Definition assert_in_bound {G} `{GraphView G} (g : G) (n : Id) (role : string) : res () :=
  rassert (bool_decide (index n < gv_node_bound g)) (role +:+ " is out of range").

(** [scan_predecessors] *)
Definition scan_predecessors {G} `{GraphView G} (g : G) (n : Id) : res (list Id) :=
  candidates ← gv_node_ids g;
  rfold (λ acc candidate,
    succ ← gv_successors g candidate;
    mret (acc ++ ((λ _, candidate) <$> filter (λ s, s = n) succ))) [] candidates.

(** [Rooted] *)
Record Rooted (G : Type) : Type := mk_Rooted { rooted_graph : G; rooted_root : Id }.
Arguments mk_Rooted {G} _ _.
Arguments rooted_graph {G} _.
Arguments rooted_root {G} _.
#[export] Instance Rooted_view {G} `{GraphView G} : GraphView (Rooted G) := {|
  gv_node_bound r := gv_node_bound (rooted_graph r);
  gv_node_ids r := gv_node_ids (rooted_graph r);
  gv_successors r := gv_successors (rooted_graph r);
  gv_predecessors r := gv_predecessors (rooted_graph r);
|}.

(** [trait RootedView] *)
Class RootedView (G : Type) `{GraphView G} : Type := gv_root : G → Id.
#[export] Instance Rooted_rooted {G} `{GraphView G} : RootedView (Rooted G) := rooted_root.

(** [Reversed] *)
Record Reversed (G : Type) : Type := mk_Reversed { reversed_graph : G }.
Arguments mk_Reversed {G} _.
Arguments reversed_graph {G} _.
#[export] Instance Reversed_view {G} `{GraphView G} : GraphView (Reversed G) := {|
  gv_node_bound r := gv_node_bound (reversed_graph r);
  gv_node_ids r := gv_node_ids (reversed_graph r);
  gv_successors r := gv_predecessors (reversed_graph r);
  gv_predecessors r := gv_successors (reversed_graph r);
|}.

(** ** The contract *)

(** What a view says the graph is. *)
Record shape : Type := mk_shape {
  sh_bound : nat;
  sh_nodes : list Id;
  sh_next : TraversalDirection → Id → list Id;
}.

Definition sh_reverse (s : shape) : shape :=
  mk_shape (sh_bound s) (sh_nodes s) (λ d, sh_next s (against d)).

(** How often [x] occurs in [l]. *)
Definition occurrences (x : Id) (l : list Id) : nat := length (filter (λ y, y = x) l).

(** The dense-identity contract: live identities are distinct and below the
    bound, adjacency stays among them, and the two directions hold the same
    multiset of edges. *)
Record shape_ok (s : shape) : Prop := mk_shape_ok {
  so_bound : ∀ n, n ∈ sh_nodes s → index n < sh_bound s;
  so_nodup : NoDup (sh_nodes s);
  so_live : ∀ d n m, n ∈ sh_nodes s → m ∈ sh_next s d n → m ∈ sh_nodes s;
  so_mirror : ∀ n m, n ∈ sh_nodes s → m ∈ sh_nodes s →
    occurrences m (sh_next s Outgoing n) = occurrences n (sh_next s Incoming m);
}.

(** [g] shows the graph [s] and keeps the contract. *)
Class Views {G} `{GraphView G} (g : G) (s : shape) : Prop := mk_Views {
  vw_bound : gv_node_bound g = sh_bound s;
  vw_nodes : gv_node_ids g = Ok (sh_nodes s);
  vw_next : ∀ d n, n ∈ sh_nodes s → neighbors d g n = Ok (sh_next s d n);
  vw_ok : shape_ok s;
}.

Lemma occurrences_elem x (l : list Id) : 0 < occurrences x l ↔ x ∈ l.
Proof.
  unfold occurrences. split.
  - destruct (filter (λ y, y = x) l) as [|y l'] eqn:E; [cbn; lia|]. intros _.
    assert (y ∈ filter (λ y, y = x) l) as [-> ?]%list_elem_of_filter by (rewrite E; left). done.
  - intros Hx. destruct (filter (λ y, y = x) l) eqn:E; [|cbn; lia].
    assert (x ∈ filter (λ y, y = x) l) as H by by apply list_elem_of_filter.
    rewrite E in H. by apply elem_of_nil in H.
Qed.

Lemma against_involutive d : against (against d) = d.
Proof. by destruct d. Qed.

(** A neighbour one way is a neighbour the other way round. *)
Lemma mirror_elem s d n m :
  shape_ok s → n ∈ sh_nodes s → m ∈ sh_nodes s →
  m ∈ sh_next s d n ↔ n ∈ sh_next s (against d) m.
Proof.
  intros Hok Hn Hm. rewrite <-!occurrences_elem.
  destruct d; cbn; [rewrite (so_mirror _ Hok n m)|rewrite (so_mirror _ Hok m n)]; done.
Qed.

Lemma shape_ok_reverse s : shape_ok s → shape_ok (sh_reverse s).
Proof.
  intros Hok. split; cbn; [apply Hok..| |].
  - intros d n m. apply (so_live _ Hok).
  - intros n m Hn Hm. symmetry. by apply (so_mirror _ Hok).
Qed.

#[export] Instance Reversed_Views {G} `{GraphView G} (g : G) s :
  Views g s → Views (mk_Reversed g) (sh_reverse s).
Proof.
  intros [Hb Hn Hnx Hok]. split; [done|done| |by apply shape_ok_reverse].
  intros d n Hin. specialize (Hnx (against d) n Hin). by destruct d.
Qed.

#[export] Instance Rooted_Views {G} `{GraphView G} (g : G) r s :
  Views g s → Views (mk_Rooted g r) s.
Proof. intros [Hb Hn Hnx Hok]. split; [done|done| |done]. intros d n Hin. specialize (Hnx d n Hin). by destruct d. Qed.

Lemma vw_in_bound {G} `{GraphView G} (g : G) s n role :
  Views g s → n ∈ sh_nodes s → assert_in_bound g n role = Ok ().
Proof.
  intros HV Hn. unfold assert_in_bound. rewrite vw_bound, bool_decide_true; [done|].
  by apply (so_bound _ (vw_ok (g := g))).
Qed.

(** ** Scanning for predecessors *)

Lemma occurrences_app x l1 l2 : occurrences x (l1 ++ l2) = occurrences x l1 + occurrences x l2.
Proof. unfold occurrences. by rewrite filter_app, length_app. Qed.

Lemma occurrences_nodup x (l : list Id) : NoDup l → occurrences x l = if decide (x ∈ l) then 1 else 0.
Proof.
  unfold occurrences. induction 1 as [|y l Hy _ IH]; [done|]. rewrite filter_cons. destruct (decide (y = x)) as [->|Hne].
  - rewrite decide_True by left. cbn. rewrite IH, decide_False by done. done.
  - rewrite IH. destruct (decide (x ∈ l)); [rewrite decide_True by by right|rewrite decide_False by set_solver]; done.
Qed.

Lemma occurrences_const x c (l : list Id) :
  occurrences x ((λ _, c) <$> l) = if decide (c = x) then length l else 0.
Proof.
  unfold occurrences. induction l as [|y l IH]; [by case_decide|].
  rewrite fmap_cons, filter_cons. repeat case_decide; cbn; congruence.
Qed.

Definition scanned s (n : Id) (l : list Id) : list Id :=
  l ≫= λ c, (λ _, c) <$> filter (λ x, x = n) (sh_next s Outgoing c).

Lemma scan_predecessors_eq {G} `{GraphView G} (g : G) s n :
  Views g s → scan_predecessors g n = Ok (scanned s n (sh_nodes s)).
Proof.
  intros HV. unfold scan_predecessors. rewrite vw_nodes. rsimpl.
  cut (∀ l acc, l ⊆ sh_nodes s →
    rfold (λ acc candidate, succ ← gv_successors g candidate;
      mret (acc ++ ((λ _, candidate) <$> filter (λ s, s = n) succ))) acc l
    = Ok (acc ++ scanned s n l)); [intros Hc; by rewrite Hc|].
  induction l as [|c l IH]; intros acc Hl; cbn [rfold scanned]; [by rewrite app_nil_r|].
  pose proof (vw_next Outgoing c (g := g)) as Hc. cbn in Hc. rewrite Hc by set_solver. rsimpl.
  rewrite IH by set_solver. rewrite <-app_assoc. done.
Qed.

Lemma scanned_occurrences s n x l :
  NoDup l → occurrences x (scanned s n l) =
    if decide (x ∈ l) then occurrences n (sh_next s Outgoing x) else 0.
Proof.
  induction l as [|c l IH]; intros Hnd; [by rewrite decide_False by set_solver|].
  apply NoDup_cons in Hnd as [Hc Hnd].
  change (scanned s n (c :: l)) with
    (((λ _, c) <$> filter (λ x0, x0 = n) (sh_next s Outgoing c)) ++ scanned s n l).
  rewrite occurrences_app, occurrences_const, IH by done.
  change (length (filter (λ x0, x0 = n) (sh_next s Outgoing c)))
    with (occurrences n (sh_next s Outgoing c)).
  destruct (decide (c = x)) as [->|Hne].
  - rewrite decide_False by done. rewrite decide_True by set_solver. lia.
  - destruct (decide (x ∈ l)); [rewrite decide_True by set_solver|rewrite decide_False by set_solver]; lia.
Qed.

Lemma occurrences_cons x y (l : list Id) :
  occurrences x (y :: l) = (if decide (y = x) then 1 else 0) + occurrences x l.
Proof. unfold occurrences. rewrite filter_cons. by case_decide. Qed.

#[export] Instance occurrences_proper : Proper ((=) ==> (≡ₚ) ==> (=)) occurrences.
Proof. intros x ? <- l l' Hl. unfold occurrences. by rewrite Hl. Qed.

(** Lists in which everything occurs equally often are permutations. *)
Lemma occurrences_perm (l l' : list Id) :
  (∀ x, occurrences x l = occurrences x l') → l ≡ₚ l'.
Proof.
  revert l'. induction l as [|y l IH]; intros l' H.
  - destruct l' as [|z l']; [done|]. specialize (H z). rewrite occurrences_cons in H.
    rewrite decide_True in H by done. by cbn in H.
  - assert (Hy : y ∈ l').
    { apply occurrences_elem. rewrite <-H, occurrences_cons, decide_True by done. lia. }
    apply elem_of_Permutation in Hy as [l'' Hl]. rewrite Hl. constructor. apply IH.
    intros x. specialize (H x). rewrite Hl, !occurrences_cons in H. lia.
Qed.

(** Scanning every successor list finds the predecessors, parallel edges kept. *)
Lemma scan_predecessors_perm {G} `{GraphView G} (g : G) s n :
  Views g s → n ∈ sh_nodes s →
  ∃ l, scan_predecessors g n = Ok l ∧ l ≡ₚ sh_next s Incoming n.
Proof.
  intros HV Hn. pose proof (vw_ok (g := g)) as Hok. exists (scanned s n (sh_nodes s)).
  split; [by apply scan_predecessors_eq|]. apply occurrences_perm. intros x.
  rewrite scanned_occurrences by apply Hok. case_decide as Hx; [by apply (so_mirror _ Hok)|].
  destruct (occurrences x (sh_next s Incoming n)) eqn:E; [done|]. exfalso. apply Hx.
  apply (so_live _ Hok Incoming n); [done|]. apply occurrences_elem. lia.
Qed.
