(* ===== verification/EdgeViews.v ===== *)
(** * Edge views

    Models [graph/edge_view.rs]: the [EdgeView] trait, its contract, and the
    [FilteredEdges] adapter. From the contract of the edges follows the
    contract of [GraphView] for the neighbours, so a store or an adapter that
    keeps the first is usable wherever the second is asked for. *)

From S2P Require Import Prelude Ids View.

(** [EdgeRef] *)
Record EdgeRef (D : Type) : Type := mk_EdgeRef {
  er_id : Id; er_source : Id; er_target : Id; er_data : D }.
Arguments mk_EdgeRef {D} _ _ _ _.
Arguments er_id {D} _.
Arguments er_source {D} _.
Arguments er_target {D} _.
Arguments er_data {D} _.

(** [trait EdgeView] *)
Class EdgeView (G : Type) (D : Type) `{GraphView G} : Type := {
  ev_edge_bound : G → nat;
  ev_edge_ids : G → res (list Id);
  ev_outgoing : G → Id → res (list Id);
  ev_incoming : G → Id → res (list Id);
  ev_edge : G → Id → res (EdgeRef D);
}.

Definition incident_edges {G D} `{EdgeView G D} (d : TraversalDirection) (g : G) (n : Id)
    : res (list Id) :=
  match d with Outgoing => ev_outgoing g n | Incoming => ev_incoming g n end.

(** A lazily filtered and mapped iterator with tests and maps that can panic. *)
Fixpoint filterM {A} (f : A → res bool) (l : list A) : res (list A) :=
  match l with
  | [] => mret []
  | x :: l =>
      keep ← f x; rest ← filterM f l;
      mret (if (keep : bool) then x :: rest else rest)
  end.
Fixpoint mapMr {A B} (f : A → res B) (l : list A) : res (list B) :=
  match l with
  | [] => mret []
  | x :: l => y ← f x; ys ← mapMr f l; mret (y :: ys)
  end.

(** ** [FilteredEdges] *)

Record FilteredEdges (G D : Type) : Type := mk_FilteredEdges {
  fe_graph : G; fe_predicate : Id → D → bool }.
Arguments mk_FilteredEdges {G D} _ _.
Arguments fe_graph {G D} _.
Arguments fe_predicate {G D} _ _ _.

Section Filtered.
Context {G D : Type} {HG : GraphView G} {HE : @EdgeView G D HG}.

(** [FilteredEdges::accepts] *)
Definition accepts (f : FilteredEdges G D) (e : Id) : res bool :=
  value ← ev_edge (fe_graph f) e; mret (fe_predicate f e (er_data value)).

(** [impl GraphView for FilteredEdges] *)
#[export] Instance Filtered_view : GraphView (FilteredEdges G D) := {|
  gv_node_bound f := gv_node_bound (fe_graph f);
  gv_node_ids f := gv_node_ids (fe_graph f);
  gv_successors f n :=
    es ← ev_outgoing (fe_graph f) n; kept ← filterM (accepts f) es;
    mapMr (λ e, er_target <$> ev_edge (fe_graph f) e) kept;
  gv_predecessors f n :=
    es ← ev_incoming (fe_graph f) n; kept ← filterM (accepts f) es;
    mapMr (λ e, er_source <$> ev_edge (fe_graph f) e) kept;
|}.

(** [impl EdgeView for FilteredEdges] *)
#[export] Instance Filtered_edge_view : EdgeView (FilteredEdges G D) D := {|
  ev_edge_bound f := ev_edge_bound (fe_graph f);
  ev_edge_ids f := es ← ev_edge_ids (fe_graph f); filterM (accepts f) es;
  ev_outgoing f n := es ← ev_outgoing (fe_graph f) n; filterM (accepts f) es;
  ev_incoming f n := es ← ev_incoming (fe_graph f) n; filterM (accepts f) es;
  ev_edge f e :=
    ok ← accepts f e;
    _ ← rassert ok "edge is excluded from the filtered view";
    ev_edge (fe_graph f) e;
|}.
End Filtered.

(** [impl EdgeView for Reversed] *)
#[export] Instance Reversed_edge_view {G D} `{EdgeView G D} : EdgeView (Reversed G) D := {|
  ev_edge_bound r := ev_edge_bound (reversed_graph r);
  ev_edge_ids r := ev_edge_ids (reversed_graph r);
  ev_outgoing r := ev_incoming (reversed_graph r);
  ev_incoming r := ev_outgoing (reversed_graph r);
  ev_edge r e :=
    value ← ev_edge (reversed_graph r) e;
    mret (mk_EdgeRef e (er_target value) (er_source value) (er_data value));
|}.

(** ** The contract *)

Section Contract.
Context {D : Type}.

(** The edge's end on the side its adjacency is filed under, and the other. *)
Definition near (d : TraversalDirection) (r : EdgeRef D) : Id :=
  match d with Outgoing => er_source r | Incoming => er_target r end.
Definition far (d : TraversalDirection) (r : EdgeRef D) : Id := near (against d) r.

Record eshape : Type := mk_eshape {
  es_node_bound : nat;
  es_nodes : list Id;
  es_edge_bound : nat;
  es_ids : list Id;
  es_ref : Id → option (EdgeRef D);
  es_adj : TraversalDirection → Id → list Id;
}.

(** The neighbours the edges imply. *)
Definition es_shape (s : eshape) : shape :=
  mk_shape (es_node_bound s) (es_nodes s)
    (λ d n, omap (λ e, far d <$> es_ref s e) (es_adj s d n)).

Record eshape_ok (s : eshape) : Prop := mk_eshape_ok {
  eo_node_bound : ∀ n, n ∈ es_nodes s → index n < es_node_bound s;
  eo_nodes : NoDup (es_nodes s);
  eo_edge_bound : ∀ e, e ∈ es_ids s → index e < es_edge_bound s;
  eo_ids : NoDup (es_ids s);
  eo_ref : ∀ e, e ∈ es_ids s → ∃ r, es_ref s e = Some r ∧ er_id r = e ∧
             ∀ d, near d r ∈ es_nodes s;
  eo_adj_nodup : ∀ d n, n ∈ es_nodes s → NoDup (es_adj s d n);
  eo_adj : ∀ d n e, n ∈ es_nodes s →
    e ∈ es_adj s d n ↔ e ∈ es_ids s ∧ ∃ r, es_ref s e = Some r ∧ near d r = n;
}.

Lemma occurrences_omap (f : Id → option Id) x (l : list Id) :
  occurrences x (omap f l) = length (filter (λ e, f e = Some x) l).
Proof.
  induction l as [|e l IH]; [done|]. rewrite filter_cons.
  change (omap f (e :: l)) with (match f e with Some y => y :: omap f l | None => omap f l end).
  destruct (f e) as [y|] eqn:E.
  - rewrite occurrences_cons, IH. repeat case_decide; cbn; naive_solver.
  - rewrite IH. by case_decide.
Qed.

(** Each edge is met once from either end, so the two directions agree. *)
Lemma eshape_mirror s n m :
  eshape_ok s → n ∈ es_nodes s → m ∈ es_nodes s →
  occurrences m (sh_next (es_shape s) Outgoing n) = occurrences n (sh_next (es_shape s) Incoming m).
Proof.
  intros Hok Hn Hm. unfold es_shape, sh_next. rewrite !occurrences_omap. apply Permutation_length, NoDup_Permutation.
  - apply NoDup_filter. by apply (eo_adj_nodup _ Hok).
  - apply NoDup_filter. by apply (eo_adj_nodup _ Hok).
  - intros e. rewrite !list_elem_of_filter, (eo_adj _ Hok Outgoing n), (eo_adj _ Hok Incoming m) by done.
    rewrite !fmap_Some. unfold far. cbn [near against].
    split; intros [(r & Hr & Hf) (He & r' & Hr' & Hnear)]; simplify_eq; eauto 10.
Qed.

Lemma eshape_shape_ok s : eshape_ok s → shape_ok (es_shape s).
Proof.
  intros Hok. split; [apply Hok|apply Hok| |by intros; apply eshape_mirror].
  intros d n m Hn (e & He & (r & Hr & ->)%fmap_Some)%list_elem_of_omap.
  apply (eo_adj _ Hok) in He as (He & _); [|done].
  destruct (eo_ref _ Hok _ He) as (r' & Hr' & _ & Hends). simplify_eq. apply Hends.
Qed.

(** [g] shows the edges [s] and keeps the contract. *)
Class EdgeViews {G} {HG : GraphView G} {HE : EdgeView G D} (g : G) (s : eshape) : Prop := mk_EdgeViews {
  ew_views : Views g (es_shape s);
  ew_bound : ev_edge_bound g = es_edge_bound s;
  ew_ids : ev_edge_ids g = Ok (es_ids s);
  ew_adj : ∀ d n, n ∈ es_nodes s → incident_edges d g n = Ok (es_adj s d n);
  ew_edge : ∀ e r, e ∈ es_ids s → es_ref s e = Some r → ev_edge g e = Ok r;
  ew_ok : eshape_ok s;
}.

(** ** Filtering keeps the contract *)

(** Does [p] accept the edge? *)
Definition accepted (p : Id → D → bool) (s : eshape) (e : Id) : bool :=
  match es_ref s e with Some r => p e (er_data r) | None => false end.

Definition es_filter (p : Id → D → bool) (s : eshape) : eshape :=
  mk_eshape (es_node_bound s) (es_nodes s) (es_edge_bound s)
    (filter (λ e, accepted p s e = true) (es_ids s)) (es_ref s)
    (λ d n, filter (λ e, accepted p s e = true) (es_adj s d n)).

Lemma eshape_ok_filter p s : eshape_ok s → eshape_ok (es_filter p s).
Proof.
  intros Hok. split; cbn.
  - apply Hok.
  - apply Hok.
  - intros e [_ He]%list_elem_of_filter. by apply (eo_edge_bound _ Hok).
  - apply NoDup_filter, Hok.
  - intros e [_ He]%list_elem_of_filter. by apply (eo_ref _ Hok).
  - intros d n Hn. apply NoDup_filter. by apply (eo_adj_nodup _ Hok).
  - intros d n e Hn. rewrite !list_elem_of_filter, (eo_adj _ Hok) by done. tauto.
Qed.

Lemma filterM_Ok {A} (f : A → res bool) (p : A → bool) (l : list A) :
  (∀ x, x ∈ l → f x = Ok (p x)) → filterM f l = Ok (filter (λ x, p x = true) l).
Proof.
  induction l as [|x l IH]; intros Hf; [done|]. cbn [filterM]. rewrite Hf by set_solver. rsimpl.
  rewrite IH by set_solver. rsimpl. rewrite filter_cons. destruct (p x); by case_decide.
Qed.

Lemma mapMr_omap {A B} (f : A → res B) (o : A → option B) (l : list A) :
  (∀ x, x ∈ l → ∃ y, f x = Ok y ∧ o x = Some y) → mapMr f l = Ok (omap o l).
Proof.
  induction l as [|x l IH]; intros Hf; [done|]. cbn.
  destruct (Hf x) as (y & -> & ->); [set_solver|]. rsimpl. rewrite IH by set_solver. done.
Qed.

Section Filter_views.
Context {G} {HG : GraphView G} {HE : EdgeView G D} (g : G) (s : eshape) (HV : EdgeViews g s).
Context (p : Id → D → bool).

Lemma accepts_Ok e : e ∈ es_ids s → accepts (mk_FilteredEdges g p) e = Ok (accepted p s e).
Proof.
  intros He. destruct (eo_ref _ ew_ok _ He) as (r & Hr & _). unfold accepts, accepted. cbn.
  by rewrite (ew_edge _ _ He Hr), Hr.
Qed.

Lemma adj_ids d n e : n ∈ es_nodes s → e ∈ es_adj s d n → e ∈ es_ids s.
Proof. intros Hn He. by apply (eo_adj _ ew_ok) in He as [? _]. Qed.

Lemma kept_next d n :
  n ∈ es_nodes s →
  (es ← incident_edges d g n; kept ← filterM (accepts (mk_FilteredEdges g p)) es;
   mapMr (λ e, far d <$> ev_edge g e) kept) = Ok (sh_next (es_shape (es_filter p s)) d n).
Proof.
  intros Hn. rewrite ew_adj by done. rsimpl.
  rewrite (filterM_Ok _ (accepted p s)) by (intros; by eapply accepts_Ok, adj_ids). rsimpl.
  apply mapMr_omap. intros e [_ He]%list_elem_of_filter. apply (adj_ids _ _ _ Hn) in He.
  destruct (eo_ref _ ew_ok _ He) as (r & Hr & _). exists (far d r).
  rewrite (ew_edge _ _ He Hr). cbn. by rewrite Hr.
Qed.

(** The filtered view keeps the whole contract, for whatever predicate. *)
#[export] Instance Filtered_Views : EdgeViews (mk_FilteredEdges g p) (es_filter p s).
Proof.
  pose proof ew_ok as Hok. destruct (ew_views (g := g) (s := s)) as [Hb Hns _ _]. split.
  - split; [exact Hb|exact Hns| |].
    + intros d n Hn. specialize (kept_next d n Hn) as H. by destruct d.
    + by apply eshape_shape_ok, eshape_ok_filter.
  - exact (ew_bound (g := g) (s := s)).
  - cbn. rewrite (ew_ids (g := g) (s := s)). rsimpl. by rewrite (filterM_Ok _ (accepted p s)) by apply accepts_Ok.
  - intros d n Hn. pose proof (ew_adj (g := g) (s := s) d n Hn) as Ha. cbn in Hn.
    transitivity (es ← incident_edges d g n; filterM (accepts (mk_FilteredEdges g p)) es);
      [by destruct d|]. rewrite Ha. rsimpl. cbn.
    by rewrite (filterM_Ok _ (accepted p s)) by (intros; by eapply accepts_Ok, adj_ids).
  - intros e r [Hacc He]%list_elem_of_filter Hr. cbn. rewrite accepts_Ok, Hacc by done. rsimpl.
    by apply (ew_edge (g := g) (s := s)).
  - by apply eshape_ok_filter.
Qed.

End Filter_views.

(** ** Reversal keeps the contract *)

Definition er_swap (r : EdgeRef D) : EdgeRef D :=
  mk_EdgeRef (er_id r) (er_target r) (er_source r) (er_data r).

Definition es_reverse (s : eshape) : eshape :=
  mk_eshape (es_node_bound s) (es_nodes s) (es_edge_bound s) (es_ids s)
    (λ e, er_swap <$> es_ref s e) (λ d, es_adj s (against d)).

Lemma near_swap d r : near d (er_swap r) = near (against d) r.
Proof. by destruct d. Qed.

Lemma eshape_ok_reverse s : eshape_ok s → eshape_ok (es_reverse s).
Proof.
  intros Hok. split; cbn; try apply Hok.
  - intros e He. destruct (eo_ref _ Hok e He) as (r & -> & Hid & Hends).
    exists (er_swap r). split_and!; [done|done|]. intros d. by rewrite near_swap.
  - intros d. apply (eo_adj_nodup _ Hok).
  - intros d n e Hn. rewrite (eo_adj _ Hok) by done. split; intros [He (r & Hr & Hend)]; (split; [done|]).
    + rewrite Hr. exists (er_swap r). by rewrite near_swap.
    + apply fmap_Some in Hr as (r' & Hr & ->). exists r'. by rewrite <-near_swap.
Qed.

#[export] Instance Reversed_EdgeViews {G} {HG : GraphView G} {HE : EdgeView G D} (g : G) (s : eshape) :
  EdgeViews g s → EdgeViews (mk_Reversed g) (es_reverse s).
Proof.
  intros HV. pose proof (ew_ok (g := g)) as Hok. destruct (ew_views (g := g) (s := s)) as [Hb Hns Hnx _].
  split.
  - split; [exact Hb|exact Hns| |by apply eshape_shape_ok, eshape_ok_reverse].
    intros d n Hn. specialize (Hnx (against d) n Hn).
    transitivity (neighbors (against d) g n); [by destruct d|]. rewrite Hnx. f_equal. cbn.
    apply list_omap_ext, Forall2_same_length_lookup. split; [done|]. intros i e e' -> [= <-].
    unfold far. destruct (es_ref s e) as [r|]; [|done]. cbn. by rewrite near_swap.
  - exact (ew_bound (g := g) (s := s)).
  - exact (ew_ids (g := g) (s := s)).
  - intros d n Hn. pose proof (ew_adj (g := g) (s := s) (against d) n Hn) as Ha. by destruct d.
  - intros e r He (r0 & Hr & ->)%fmap_Some. cbn. rewrite (ew_edge (g := g) (s := s) e r0) by done.
    rsimpl. destruct (eo_ref _ Hok e He) as (r1 & Hr1 & Hid & _). simplify_eq. done.
  - by apply eshape_ok_reverse.
Qed.
End Contract.
Arguments eshape : clear implicits.
