(* ===== verification/Chains.v ===== *)
(** * The incremental delta's circular chains

    Models [DeltaChains] of [graph/store/adjacency.rs]: every node slot holds
    the last delta edge of its outgoing and of its incoming chain, every
    delta edge its successor in both, and a chain is circular, so its first
    element is the successor of its last. The invariant names the chain of a
    node as a list ([chain_rep]) and the operations are proved against it. *)

From S2P Require Import Prelude Words Liveness Ids.

(** [Links]: one link per direction. *)
Record Links : Type := mk_Links { out_link : N; in_link : N }.

#[export] Instance Links_eq_dec : EqDecision Links.
Proof. solve_decision. Defined.

Definition UNLINKED : Links := mk_Links NONE NONE.

Definition link (d : TraversalDirection) (l : Links) : N :=
  match d with Outgoing => out_link l | Incoming => in_link l end.
Definition set_link (d : TraversalDirection) (v : N) (l : Links) : Links :=
  match d with
  | Outgoing => mk_Links v (in_link l)
  | Incoming => mk_Links (out_link l) v
  end.

Module DeltaChains.

Record t : Type := mk { last : list Links; next : list Links }.

#[export] Instance t_eq_dec : EqDecision t.
Proof. solve_decision. Defined.

(** [DeltaChains::new] and [DeltaChains::reset] *)
Definition new : t := mk [] [].
Definition reset : t := new.

(** [DeltaChains::thread] *)
Definition thread (c : t) (node : nat) (chain : TraversalDirection) (appended : N) : res t :=
  links ← vget (last c) node;
  let tail := link chain links in
  '(value, next1) ←
    (if decide (tail = NONE) then mret (appended, next c)
     else
       l ← vget (next c) (index tail);
       next1 ← vset (next c) (index tail) (set_link chain appended l);
       mret (link chain l, next1));
  l ← vget next1 (index appended);
  next2 ← vset next1 (index appended) (set_link chain value l);
  last' ← vset (last c) node (set_link chain appended links);
  mret (mk last' next2).

(** [DeltaChains::materialize] *)
Definition materialize (c : t) (nodes : nat) : t :=
  mk (resize nodes UNLINKED (last c)) (next c).

(** [DeltaChains::append] *)
Definition append (c : t) (source target nodes : nat) : res t :=
  let c1 := if decide (length (last c) < nodes) then materialize c nodes else c in
  appended ← expect (u32_try_from (length (next c1))) "delta edge index exceeds u32::MAX";
  let c2 := mk (last c1) (next c1 ++ [UNLINKED]) in
  c3 ← thread c2 source Outgoing appended;
  thread c3 target Incoming appended.

(** [DeltaChains::ends] *)
Definition ends (c : t) (node : nat) (chain : TraversalDirection) : res (option (N * N)) :=
  match last c !! node with
  | None => mret None
  | Some links =>
      let tail := link chain links in
      if decide (tail = NONE) then mret None
      else l ← vget (next c) (index tail); mret (Some (link chain l, tail))
  end.

(** [DeltaChains::detach_node] *)
Definition detach_node (c : t) (node : nat) (direction : TraversalDirection) : t :=
  match last c !! node with
  | Some links => mk (<[node := set_link direction NONE links]> (last c)) (next c)
  | None => c
  end.

(** [live.is_none_or(|set| set.is_live(edge))] *)
Definition none_or_live (live : option LiveSet.t) (edge : N) : res bool :=
  match live with
  | None => mret true
  | Some set => LiveSet.is_live set (index edge)
  end.

(** The loop of [DeltaChains::drain_into]. *)
Fixpoint drain_loop (fuel : nat) (c : t) (chain : TraversalDirection) (delta_base : N)
    (live : option LiveSet.t) (delta tail : N) (run : list N) : res (list N) :=
  match fuel with
  | 0 => Stuck
  | S fuel =>
      edge ← u32_add delta_base delta;
      keep ← none_or_live live edge;
      let run' := if (keep : bool) then run ++ [edge] else run in
      if decide (delta = tail) then mret run'
      else
        l ← vget (next c) (index delta);
        drain_loop fuel c chain delta_base live (link chain l) tail run'
  end.

(** [DeltaChains::drain_into] *)
Definition drain_into (c : t) (node : nat) (direction : TraversalDirection) (delta_base : N)
    (live : option LiveSet.t) (run : list N) : res (t * list N) :=
  e ← ends c node direction;
  match e with
  | None => mret (c, run)
  | Some (delta, tail) =>
      run' ← drain_loop (length (next c)) c direction delta_base live delta tail run;
      mret (detach_node c node direction, run')
  end.

(** ** The chain of a node as a list *)

(** An absent slot means [UNLINKED]. *)
Definition last_link (c : t) (d : TraversalDirection) (n : nat) : N :=
  from_option (link d) NONE (last c !! n).
Definition next_link (c : t) (d : TraversalDirection) (x : N) : option N :=
  link d <$> next c !! index x.

(** [l] follows [x] along the successor links. *)
Fixpoint path (c : t) (d : TraversalDirection) (x : N) (l : list N) : Prop :=
  match l with
  | [] => True
  | y :: l => next_link c d x = Some y ∧ path c d y l
  end.

Definition tail_of (x : N) (l : list N) : N := default x (list.last l).

Definition chain_rep (c : t) (d : TraversalDirection) (n : nat) (l : list N) : Prop :=
  match l with
  | [] => last_link c d n = NONE
  | x :: l =>
      last_link c d n = tail_of x l ∧ tail_of x l ≠ NONE ∧
      path c d x l ∧ next_link c d (tail_of x l) = Some x
  end.

Lemma link_set d d' v l : link d (set_link d' v l) = if decide (d = d') then v else link d l.
Proof. by destruct d, d', l. Qed.

Lemma tail_of_cons x y l : tail_of x (y :: l) = tail_of y l.
Proof. unfold tail_of. rewrite last_cons. by destruct (list.last l). Qed.

Lemma tail_of_snoc x l y : tail_of x (l ++ [y]) = y.
Proof. unfold tail_of. by rewrite last_snoc. Qed.

Lemma tail_of_elem x l : tail_of x l ∈ x :: l.
Proof.
  revert x. induction l as [|y l IH]; intros x; [by left|].
  rewrite tail_of_cons. right. apply IH.
Qed.

Lemma path_snoc c d x l y :
  path c d x (l ++ [y]) ↔ path c d x l ∧ next_link c d (tail_of x l) = Some y.
Proof.
  revert x. induction l as [|z l IH]; intros x; cbn; [naive_solver|].
  rewrite IH, tail_of_cons. naive_solver.
Qed.

Lemma path_frame c c' d x l :
  NoDup (x :: l) →
  (∀ z, z ∈ x :: l → z ≠ tail_of x l → next_link c' d z = next_link c d z) →
  path c d x l → path c' d x l.
Proof.
  revert x. induction l as [|y l IH]; intros x [Hx Hnd]%NoDup_cons Hfr; [done|].
  intros [Hy Hp]. rewrite tail_of_cons in Hfr. split.
  - rewrite Hfr; [done|by left|]. intros ->. apply Hx, tail_of_elem.
  - apply IH; [done| |done]. intros z Hz. apply Hfr. by right.
Qed.

(** A chain only depends on its node's slot and on its own links. *)
Lemma chain_rep_frame c c' d n l :
  last_link c' d n = last_link c d n →
  (∀ x, x ∈ l → next_link c' d x = next_link c d x) →
  NoDup l → chain_rep c d n l → chain_rep c' d n l.
Proof.
  destruct l as [|x l]; cbn; intros Hl Hn Hnd; [by rewrite Hl|].
  rewrite Hl, (Hn (tail_of x l)) by apply tail_of_elem.
  intros (?&?&?&?). split_and!; try done. eapply path_frame; [done| |done]. auto.
Qed.

Lemma path_elem c d a l x :
  path c d a l → x ∈ a :: l → x = tail_of a l ∨ is_Some (next_link c d x).
Proof.
  revert a. induction l as [|b l IH]; intros a Hp Hx.
  - left. by apply list_elem_of_singleton in Hx.
  - destruct Hp as [Hb Hp]. rewrite tail_of_cons.
    apply elem_of_cons in Hx as [->|Hx]; [right; by eexists|by apply IH].
Qed.

Lemma next_link_lt c d x : is_Some (next_link c d x) → index x < length (next c).
Proof. unfold next_link. rewrite fmap_is_Some. apply lookup_lt_is_Some_1. Qed.

Lemma chain_rep_lt c d n l x : chain_rep c d n l → x ∈ l → index x < length (next c).
Proof.
  destruct l as [|a l]; [by intros _ ?%elem_of_nil|]. intros (_&_&Hp&Ht) Hx.
  apply (next_link_lt c d). destruct (path_elem _ _ _ _ _ Hp Hx) as [->|?]; [by eexists|done].
Qed.

Lemma last_link_Some c d n links : last c !! n = Some links → last_link c d n = link d links.
Proof. unfold last_link. by intros ->. Qed.

Lemma next_link_Some c d x y :
  next_link c d x = Some y ↔ ∃ l, next c !! index x = Some l ∧ link d l = y.
Proof. unfold next_link. rewrite fmap_Some. naive_solver. Qed.

(** Splicing an unlinked delta edge in appends it to its node's chain and
    leaves every other chain alone. *)
Lemma thread_spec c d n l a :
  n < length (last c) → index a < length (next c) → a ≠ NONE →
  chain_rep c d n l → NoDup l → a ∉ l →
  ∃ c', thread c n d a = Ok c' ∧
    length (last c') = length (last c) ∧ length (next c') = length (next c) ∧
    chain_rep c' d n (l ++ [a]) ∧
    ∀ d' n' l', (d' ≠ d ∨ n' ≠ n ∧ a ∉ l' ∧ ∀ x, x ∈ l → x ∉ l') → NoDup l' →
      chain_rep c d' n' l' → chain_rep c' d' n' l'.
Proof.
  intros Hn Ha HaN Hrep Hnd Hal. unfold thread.
  destruct (lookup_lt_is_Some_2 _ _ Hn) as [links Hlinks].
  destruct (lookup_lt_is_Some_2 _ _ Ha) as [la Hla].
  rewrite (vget_eq _ _ _ Hlinks). rsimpl.
  assert (Hll : last_link c d n = link d links) by (by apply last_link_Some).
  assert (Hlast : ∀ nx d' n', last_link (mk (<[n:=set_link d a links]> (last c)) nx) d' n' =
            if decide (d' = d ∧ n' = n) then a else last_link c d' n').
  { intros nx d' n'. unfold last_link. cbn. destruct (decide (n' = n)) as [->|].
    - rewrite list_lookup_insert_eq, Hlinks by done. cbn. rewrite link_set.
      repeat case_decide; naive_solver.
    - rewrite list_lookup_insert_ne by done. rewrite decide_False by naive_solver. done. }
  destruct l as [|x l].
  - cbn in Hrep. rewrite Hll in Hrep. rewrite decide_True by done. rsimpl.
    rewrite (vget_eq _ _ _ Hla). rsimpl. rewrite vset_lt by done. rsimpl.
    rewrite vset_lt by done. rsimpl. eexists. split; [done|]. cbn [last next].
    rewrite !length_insert. split_and!; [done|done| |].
    + cbn. rewrite Hlast, decide_True by done. split_and!; try done.
      unfold next_link. cbn. rewrite list_lookup_insert_eq by done. cbn.
      by rewrite link_set, decide_True.
    + intros d' n' l' Hd Hnd' Hr. eapply chain_rep_frame; [| |done|exact Hr].
      * rewrite Hlast. case_decide as Hdn; [|done]. destruct Hdn as [-> ->].
        destruct Hd as [|[]]; done.
      * intros z Hz. unfold next_link. cbn. destruct (decide (z = a)) as [->|].
        -- rewrite list_lookup_insert_eq, Hla by done. cbn.
           rewrite link_set, decide_False; [done|]. intros <-. destruct Hd as [|(_&?&_)]; done.
        -- rewrite list_lookup_insert_ne; [done|]. by intros ?%N2Nat.inj.
  - destruct Hrep as (Hlk & HtN & Hp & Ht). rewrite Hll in Hlk.
    rewrite decide_False by congruence. rewrite Hlk. set (u := tail_of x l) in *.
    apply next_link_Some in Ht as (lu & Hlu & Hlux).
    assert (Hul : u ∈ x :: l) by apply tail_of_elem.
    assert (Hua : u ≠ a) by (intros ->; done).
    assert (Hua' : index u ≠ index a) by (intros ?%N2Nat.inj; done).
    rewrite (vget_eq _ _ _ Hlu). rsimpl.
    rewrite (vset_lt (next c) (index u)) by (by eapply lookup_lt_Some). rsimpl.
    assert (Hla' : <[index u:=set_link d a lu]> (next c) !! index a = Some la).
    { by rewrite list_lookup_insert_ne. }
    rewrite (vget_eq _ _ _ Hla'). rsimpl.
    rewrite (vset_lt (<[_:=_]> _) (index a)) by (by eapply lookup_lt_Some). rsimpl.
    rewrite (vset_lt (last c)) by done. rsimpl. eexists. split; [done|]. cbn [last next].
    rewrite !length_insert.
    set (nx := <[index a:=set_link d (link d lu) la]> (<[index u:=set_link d a lu]> (next c))).
    assert (Hnx : ∀ la' d' z, next_link (mk la' nx) d' z =
              if decide (d' = d ∧ z = a) then Some x
              else if decide (d' = d ∧ z = u) then Some a else next_link c d' z).
    { intros la' d' z. unfold next_link, nx. cbn. destruct (decide (z = a)) as [->|].
      - rewrite list_lookup_insert_eq by (rewrite length_insert; done). cbn. rewrite link_set, Hlux.
        rewrite (decide_False (P := d' = d ∧ a = u)) by naive_solver.
        rewrite Hla. cbn. repeat case_decide; naive_solver.
      - rewrite decide_False by naive_solver.
        rewrite list_lookup_insert_ne by (intros ?%N2Nat.inj; done).
        destruct (decide (z = u)) as [->|].
        + rewrite list_lookup_insert_eq by (by eapply lookup_lt_Some). cbn. rewrite link_set, Hlu. cbn.
          repeat case_decide; naive_solver.
        + rewrite decide_False by naive_solver.
          rewrite list_lookup_insert_ne by (intros ?%N2Nat.inj; done). done. }
    split_and!; [done|done| |].
    + cbn. rewrite tail_of_snoc, Hlast, decide_True by done. split_and!; [done|done| |].
      * apply path_snoc. split.
        { eapply path_frame; [done| |done]. intros z Hz Hzu. rewrite Hnx.
          rewrite decide_False by (intros [_ ->]; done). by rewrite decide_False by naive_solver. }
        fold u. rewrite Hnx, decide_False, decide_True by naive_solver. done.
      * by rewrite Hnx, decide_True.
    + intros d' n' l' Hd Hnd' Hr. eapply chain_rep_frame; [| |done|exact Hr].
      * rewrite Hlast. case_decide as Hdn; [|done]. destruct Hdn as [-> ->].
        destruct Hd as [|[]]; done.
      * intros z Hz. rewrite Hnx. rewrite !decide_False; [done| |].
        -- intros [-> ->]. destruct Hd as [|(_&_&Hd)]; [done|]. by eapply Hd.
        -- intros [-> ->]. destruct Hd as [|(_&?&_)]; done.
Qed.

(** ** All the chains at once *)

(** [L d n] is the chain of node [n] along [d]; the chains of one direction
    share no edge. *)
Record rings (c : t) (L : TraversalDirection → nat → list N) : Prop := mk_rings {
  rings_rep : ∀ d n, chain_rep c d n (L d n);
  rings_nodup : ∀ d n, NoDup (L d n);
  rings_disj : ∀ d n n' x, n ≠ n' → x ∈ L d n → x ∉ L d n';
}.

Lemma rings_lt c L d n x : rings c L → x ∈ L d n → index x < length (next c).
Proof. intros HL. apply (chain_rep_lt _ d n). by apply rings_rep. Qed.

Lemma rings_ext c L L' : (∀ d n, L d n = L' d n) → rings c L → rings c L'.
Proof.
  intros HE [H1 H2 H3]. split; intros *; rewrite <-!HE; [apply H1|apply H2|apply H3].
Qed.

Lemma rings_new : rings new (λ _ _, []).
Proof. split; [done|intros; constructor|by intros ????? ?%elem_of_nil]. Qed.

(** Reading past the end of [last] is reading an [UNLINKED] slot, and a fresh
    [next] record belongs to no chain. *)
Lemma rings_widen c L nodes extra :
  length (last c) ≤ nodes → rings c L →
  rings (mk (resize nodes UNLINKED (last c)) (next c ++ extra)) L.
Proof.
  intros Hle HL. split; [|by eapply rings_nodup|by eapply rings_disj]. intros d n.
  eapply chain_rep_frame; [| |by eapply rings_nodup|by apply (rings_rep _ _ HL)].
  - unfold last_link. cbn. destruct (decide (n < length (last c))) as [Hn|Hn].
    + by rewrite lookup_resize by lia.
    + rewrite (lookup_ge_None_2 (last c)) by lia. destruct (decide (n < nodes)).
      * rewrite lookup_resize_new by lia. by destruct d.
      * rewrite lookup_resize_old by lia. done.
  - intros x Hx. unfold next_link. cbn. rewrite lookup_app_l; [done|]. by eapply rings_lt.
Qed.

Lemma rings_thread c L n d a :
  rings c L → n < length (last c) → index a < length (next c) → a ≠ NONE →
  (∀ n', a ∉ L d n') →
  ∃ c', thread c n d a = Ok c' ∧
    length (last c') = length (last c) ∧ length (next c') = length (next c) ∧
    rings c' (λ d' n', if decide (d' = d ∧ n' = n) then L d' n' ++ [a] else L d' n').
Proof.
  intros HL Hn Ha HaN Hfresh.
  destruct (thread_spec c d n (L d n) a Hn Ha HaN) as (c' & Ht & Hll & Hln & Hrep & Hother).
  { by apply rings_rep. } { by eapply rings_nodup. } { done. }
  exists c'. split_and!; [done..|]. split.
  - intros d' n'. case_decide as Hd; [by destruct Hd as [-> ->]|].
    apply Hother; [|by eapply rings_nodup|by apply rings_rep].
    destruct (decide (d' = d)) as [->|]; [right|by left].
    assert (n' ≠ n) as Hne by (intros ->; by apply Hd).
    split_and!; [done|done|]. intros x Hx. by eapply rings_disj; [done|apply not_eq_sym, Hne|].
  - intros d' n'. case_decide as Hd; [|by eapply rings_nodup]. destruct Hd as [-> ->].
    apply NoDup_app. split_and!; [by eapply rings_nodup| |apply NoDup_singleton].
    intros x Hx ->%list_elem_of_singleton. by eapply Hfresh.
  - intros d' n1 n2 x Hne. pose proof (rings_disj _ _ HL d' n1 n2 x Hne).
    pose proof (Hfresh n1). pose proof (Hfresh n2).
    repeat case_decide; rewrite ?elem_of_app, ?list_elem_of_singleton; naive_solver.
Qed.

(** The chains after an edge from [source] to [target] was appended. *)
Definition extend (L : TraversalDirection → nat → list N) (source target : nat) (a : N)
    (d : TraversalDirection) (n : nat) : list N :=
  if decide (n = match d with Outgoing => source | Incoming => target end)
  then L d n ++ [a] else L d n.

Lemma append_spec c L source target nodes :
  rings c L → length (last c) ≤ nodes → source < nodes → target < nodes →
  (N.of_nat (length (next c)) < NONE)%N →
  ∃ c', append c source target nodes = Ok c' ∧
    length (last c') = nodes ∧ length (next c') = S (length (next c)) ∧
    rings c' (extend L source target (N.of_nat (length (next c)))).
Proof.
  intros HL Hle Hs Ht Hlen. unfold append. set (a := N.of_nat (length (next c))).
  set (c1 := if decide (length (last c) < nodes) then materialize c nodes else c).
  assert (Hc1 : c1 = mk (resize nodes UNLINKED (last c)) (next c)).
  { unfold c1, materialize. case_decide; [done|]. destruct c; cbn in *.
    rewrite resize_ge by lia. replace (nodes - length last0) with 0 by lia. by rewrite app_nil_r. }
  rewrite Hc1. cbn [next last]. unfold expect, u32_try_from.
  rewrite decide_True by (unfold NONE in *; lia). rsimpl. fold a.
  set (c2 := mk (resize nodes UNLINKED (last c)) (next c ++ [UNLINKED])) in *.
  assert (HL2 : rings c2 L) by (by apply rings_widen).
  assert (Hlast2 : length (last c2) = nodes) by apply length_resize.
  assert (Hnext2 : length (next c2) = S (length (next c))) by (cbn; rewrite length_app; cbn; lia).
  assert (Ha : index a < length (next c2)) by (unfold index, a; lia).
  assert (HaN : a ≠ NONE) by (unfold a, NONE in *; lia).
  assert (Hfresh : ∀ d n, a ∉ L d n).
  { intros d n Hin. apply (rings_lt _ _ _ _ _ HL) in Hin. unfold index, a in Hin. lia. }
  destruct (rings_thread c2 L source Outgoing a HL2) as (c3 & -> & Hll3 & Hln3 & HL3);
    [lia|lia|done|by intros|]. rsimpl.
  destruct (rings_thread c3 _ target Incoming a HL3) as (c4 & -> & Hll4 & Hln4 & HL4);
    [lia|lia|done|by intros; rewrite decide_False by naive_solver|].
  exists c4. split_and!; [done|lia|lia|]. eapply rings_ext; [|exact HL4].
  intros d n. unfold extend. destruct d; repeat case_decide; naive_solver.
Qed.

(** ** Reading and draining a chain *)

Lemma ends_spec c d n l :
  chain_rep c d n l →
  ends c n d = Ok (match l with [] => None | x :: l' => Some (x, tail_of x l') end).
Proof.
  unfold ends. intros Hrep. destruct (last c !! n) as [links|] eqn:Hl.
  - apply (last_link_Some c d) in Hl as Hll. destruct l as [|x l]; cbn in Hrep.
    + by rewrite decide_True by congruence.
    + destruct Hrep as (Hlk & HN & _ & Ht). rewrite Hll in Hlk. rewrite decide_False by congruence.
      apply next_link_Some in Ht as (lk & Hlk' & <-). rewrite Hlk, (vget_eq _ _ _ Hlk'). done.
  - destruct l as [|x l]; [done|]. cbn in Hrep. unfold last_link in Hrep.
    rewrite Hl in Hrep. cbn in Hrep. destruct Hrep as (? & [] & _). done.
Qed.

(** Whether an optional liveness set keeps an edge. *)
Definition kept (live : option LiveSet.t) (e : N) : bool :=
  match live with None => true | Some s => LiveSet.live_in s (index e) end.
Definition live_wf (live : option LiveSet.t) : Prop :=
  match live with None => True | Some s => LiveSet.wf s end.

Lemma none_or_live_Ok live e : live_wf live → none_or_live live e = Ok (kept live e).
Proof. destruct live; [apply LiveSet.is_live_Ok|done]. Qed.

Lemma drain_loop_spec c d base live x l run fuel :
  live_wf live → path c d x l → NoDup (x :: l) → length l < fuel →
  (∀ y, y ∈ x :: l → (base + y ≤ U32_MAX)%N) →
  drain_loop fuel c d base live x (tail_of x l) run =
    Ok (run ++ filter (λ e, kept live e = true) (N.add base <$> x :: l)).
Proof.
  intros Hlive. revert x run fuel. induction l as [|y l IH]; intros x run [|fuel] Hp Hnd Hf Hb;
    try (cbn in Hf; lia); cbn [drain_loop].
  - rewrite u32_add_eq by (apply Hb; left). rsimpl. rewrite none_or_live_Ok by done. rsimpl.
    rewrite decide_True by done. rsimpl. f_equal.
    rewrite fmap_cons, fmap_nil, filter_cons, filter_nil.
    destruct (kept live (base + x)%N); repeat case_decide; try done. by rewrite app_nil_r.
  - rewrite u32_add_eq by (apply Hb; left). rsimpl. rewrite none_or_live_Ok by done. rsimpl.
    destruct Hp as [Hy Hp]. apply NoDup_cons in Hnd as [Hx Hnd]. rewrite tail_of_cons.
    rewrite decide_False by (intros ->; apply Hx, tail_of_elem).
    apply next_link_Some in Hy as (lk & Hlk & <-). rewrite (vget_eq _ _ _ Hlk). rsimpl.
    rewrite IH; [|done..|cbn in Hf; lia|intros z Hz; apply Hb; by right].
    f_equal. rewrite (fmap_cons _ x), filter_cons.
    destruct (kept live (base + x)%N); case_decide; try done. by rewrite <-app_assoc.
Qed.

Lemma rings_length c L d n : rings c L → length (L d n) ≤ length (next c).
Proof.
  intros HL. apply NoDup_index_length; [by eapply rings_nodup|].
  intros x. by apply rings_lt.
Qed.

(** A forgotten chain is empty and the others stay. *)
Definition forget (L : TraversalDirection → nat → list N) (d : TraversalDirection) (n : nat)
    (d' : TraversalDirection) (n' : nat) : list N :=
  if decide (d' = d ∧ n' = n) then [] else L d' n'.

Lemma detach_node_spec c L d n :
  rings c L →
  rings (detach_node c n d) (forget L d n) ∧
  length (last (detach_node c n d)) = length (last c) ∧
  next (detach_node c n d) = next c.
Proof.
  intros HL. split_and!.
  - assert (Hlk : ∀ d' n', last_link (detach_node c n d) d' n' =
              if decide (d' = d ∧ n' = n) then NONE else last_link c d' n').
    { intros d' n'. unfold detach_node, last_link. destruct (last c !! n) as [lk|] eqn:E; cbn.
      - destruct (decide (n' = n)) as [->|].
        + rewrite list_lookup_insert_eq, E by (by eapply lookup_lt_Some). cbn. rewrite link_set.
          repeat case_decide; naive_solver.
        + rewrite list_lookup_insert_ne by done. by rewrite decide_False by naive_solver.
      - case_decide as Hd; [|done]. destruct Hd as [-> ->]. by rewrite E. }
    split.
    + intros d' n'. unfold forget. case_decide as Hd; cbn.
      * by rewrite Hlk, decide_True.
      * eapply chain_rep_frame; [| |by eapply rings_nodup|by apply (rings_rep _ _ HL)].
        -- by rewrite Hlk, decide_False.
        -- intros x _. unfold next_link, detach_node. by destruct (last c !! n).
    + intros d' n'. unfold forget. case_decide; [constructor|by eapply rings_nodup].
    + intros d' n1 n2 x Hne. unfold forget. repeat case_decide; rewrite ?elem_of_nil; try tauto.
      by eapply rings_disj.
  - unfold detach_node. destruct (last c !! n); [|done]. cbn. by rewrite length_insert.
  - unfold detach_node. by destruct (last c !! n).
Qed.

Lemma drain_into_spec c L d n base live run :
  rings c L → live_wf live →
  (∀ y, y ∈ L d n → (base + y ≤ U32_MAX)%N) →
  ∃ c', drain_into c n d base live run =
      Ok (c', run ++ filter (λ e, kept live e = true) (N.add base <$> L d n)) ∧
    rings c' (forget L d n) ∧ length (last c') = length (last c) ∧ next c' = next c.
Proof.
  intros HL Hlive Hb. unfold drain_into. rewrite (ends_spec _ _ _ _ (rings_rep _ _ HL d n)). rsimpl.
  pose proof (rings_rep _ _ HL d n) as Hrep. pose proof (rings_nodup _ _ HL d n) as Hnd.
  pose proof (rings_length _ _ d n HL) as Hlen.
  destruct (L d n) as [|x l] eqn:HLdn; rsimpl.
  - exists c. rewrite app_nil_r. split_and!; [done| |done|done].
    eapply rings_ext; [|done]. intros d' n'. unfold forget. case_decide as Hd; [|done].
    by destruct Hd as [-> ->].
  - destruct Hrep as (_ & _ & Hp & _). rewrite drain_loop_spec; [|done..|cbn in Hlen; lia|done].
    rsimpl. eexists. split; [done|]. by apply detach_node_spec.
Qed.

End DeltaChains.
