(* ===== verification/Runs.v ===== *)
(** * Replacement adjacency runs

    Models [graph/store/relocate/runs.rs]: a dense per-node index into the run
    storage of one direction. Its abstract state is the partial map from
    nodes to runs, [run_of]. *)

From S2P Require Import Prelude Ids.

Module Runs.

Record t : Type := mk { slots : list N; runs : list (list N) }.

(** [Runs::default] *)
Definition default : t := mk [] [].

(** [Runs::get] *)
Definition get (r : t) (node : nat) : res (option (list N)) :=
  match slots r !! node with
  | None => mret None
  | Some slot =>
      if decide (slot = NONE) then mret None
      else run ← vget (runs r) (index slot); mret (Some run)
  end.

(** Writing through [Runs::get_mut]: [None] when the node has no run. *)
Definition put (r : t) (node : nat) (run : list N) : res (option t) :=
  match slots r !! node with
  | None => mret None
  | Some slot =>
      if decide (slot = NONE) then mret None
      else runs' ← vset (runs r) (index slot) run; mret (Some (mk (slots r) runs'))
  end.

(** [Runs::insert] *)
Definition insert (r : t) (node node_bound : nat) (run : list N) : res t :=
  let slots1 := if decide (length (slots r) ≤ node) then resize node_bound NONE (slots r)
                else slots r in
  slot ← vget slots1 node;
  _ ← rassert (bool_decide (slot = NONE)) "node already has a run";
  raw ← raw_index (length (runs r));
  slots2 ← vset slots1 node raw;
  mret (mk slots2 (runs r ++ [run])).

(** [Runs::is_empty] *)
Definition is_empty (r : t) : bool := bool_decide (runs r = []).

(** [Runs::iter] *)
Definition iter (r : t) : res (list (N * list N)) :=
  rfold (λ acc '(node, slot),
    if decide (slot = NONE) then mret acc
    else
      n ← raw_index node;
      run ← vget (runs r) (index slot);
      mret (acc ++ [(n, run)])) [] (zip (seq 0 (length (slots r))) (slots r)).

(** ** Invariant *)

(** Every slot in use names a run, no two nodes share one, and every run
    belongs to a node. *)
Record wf (r : t) (bound : nat) : Prop := mk_wf {
  wf_bound : length (slots r) ≤ bound;
  wf_slot : ∀ n s, slots r !! n = Some s → s ≠ NONE → index s < length (runs r);
  wf_inj : ∀ n m s, slots r !! n = Some s → slots r !! m = Some s → s ≠ NONE → n = m;
  wf_owned : ∀ k, k < length (runs r) → ∃ n s, slots r !! n = Some s ∧ s ≠ NONE ∧ index s = k;
}.

Definition run_of (r : t) (node : nat) : option (list N) :=
  slot ← slots r !! node;
  if decide (slot = NONE) then None else runs r !! index slot.

Lemma default_wf bound : wf default bound.
Proof. split; cbn; [lia|done|done|lia]. Qed.

Lemma wf_weaken r b b' : b ≤ b' → wf r b → wf r b'.
Proof. intros ? []. split; [lia|done..]. Qed.

Lemma run_of_default n : run_of default n = None.
Proof. done. Qed.

Lemma wf_count r b : wf r b → length (runs r) ≤ length (filter (.≠ NONE) (slots r)).
Proof.
  intros Hwf. rewrite <-(length_seq (length (runs r)) 0).
  rewrite <-(length_fmap N.to_nat (filter (.≠ NONE) (slots r))).
  apply submseteq_length, NoDup_submseteq; [apply NoDup_seq|].
  intros k [_ Hk]%elem_of_seq. destruct (wf_owned _ _ Hwf k Hk) as (n & s & Hs & HN & <-).
  apply list_elem_of_fmap_2, list_elem_of_filter. split; [done|]. by eapply list_elem_of_lookup_2.
Qed.

Lemma get_Ok r b n : wf r b → get r n = Ok (run_of r n).
Proof.
  intros Hwf. unfold get, run_of. destruct (slots r !! n) as [s|] eqn:Hs; [|done].
  cbn. case_decide as HN; [done|].
  destruct (lookup_lt_is_Some_2 _ _ (wf_slot _ _ Hwf _ _ Hs HN)) as [run Hrun].
  by rewrite (vget_eq _ _ _ Hrun), Hrun.
Qed.

Lemma run_of_lt r b n run : wf r b → run_of r n = Some run → n < b.
Proof.
  intros Hwf. unfold run_of. destruct (slots r !! n) eqn:E; [|done]. intros _.
  apply lookup_lt_Some in E. pose proof (wf_bound _ _ Hwf). lia.
Qed.

Lemma insert_spec r b n run :
  wf r b → n < b → (N.of_nat b ≤ U32_MAX)%N → run_of r n = None →
  ∃ r', insert r n b run = Ok r' ∧ wf r' b ∧
    ∀ m, run_of r' m = if decide (m = n) then Some run else run_of r m.
Proof.
  intros Hwf Hn Hb Hnone. unfold insert.
  set (s1 := if decide (length (slots r) ≤ n) then resize b NONE (slots r) else slots r).
  assert (Hlen1 : n < length s1 ∧ length s1 ≤ b).
  { unfold s1. case_decide; [rewrite length_resize; lia|]. pose proof (wf_bound _ _ Hwf). lia. }
  assert (Hs1 : ∀ m s, s1 !! m = Some s → s ≠ NONE → slots r !! m = Some s).
  { intros m s. unfold s1. case_decide; [|done]. destruct (decide (m < length (slots r))).
    - by rewrite lookup_resize by lia.
    - destruct (decide (m < b)); [rewrite lookup_resize_new by lia|rewrite lookup_resize_old by lia];
        naive_solver. }
  assert (Hs1' : ∀ m s, slots r !! m = Some s → s1 !! m = Some s).
  { intros m s Hm. unfold s1. case_decide; [|done]. rewrite lookup_resize; [done| |].
    - pose proof (wf_bound _ _ Hwf). apply lookup_lt_Some in Hm. lia.
    - by eapply lookup_lt_Some. }
  destruct (lookup_lt_is_Some_2 s1 n) as [s Hs]; [lia|].
  assert (s = NONE) as ->.
  { destruct (decide (s = NONE)) as [|HN]; [done|exfalso].
    pose proof (Hs1 _ _ Hs HN) as Hr. unfold run_of in Hnone. rewrite Hr in Hnone. cbn in Hnone.
    rewrite decide_False in Hnone by done. apply lookup_ge_None in Hnone.
    pose proof (wf_slot _ _ Hwf _ _ Hr HN). lia. }
  assert (Hraw : length (runs r) < b).
  { eapply Nat.le_lt_trans; [by eapply wf_count|]. destruct (decide (length (slots r) ≤ n)).
    - eapply Nat.le_lt_trans; [apply length_filter|]. lia.
    - eapply Nat.lt_le_trans; [|by eapply wf_bound].
      apply (length_filter_lt _ _ NONE); [|naive_solver].
      apply list_elem_of_lookup_2 with n. exact Hs. }
  rewrite (vget_eq _ _ _ Hs). rsimpl. rewrite bool_decide_true by done. rsimpl.
  rewrite raw_index_eq by lia. rsimpl. rewrite vset_lt by lia. rsimpl.
  assert (HrawN : N.of_nat (length (runs r)) ≠ NONE) by (unfold NONE; lia).
  eexists. split; [done|]. split.
  - split; cbn [slots runs]; rewrite ?length_insert, ?length_app; [lia| | |].
    + intros m s. destruct (decide (m = n)) as [->|Hm].
      * rewrite list_lookup_insert_eq by lia. intros [= <-] _. unfold index. cbn. lia.
      * rewrite list_lookup_insert_ne by done. intros Hms HN.
        pose proof (wf_slot _ _ Hwf _ _ (Hs1 _ _ Hms HN) HN). lia.
    + intros m1 m2 s.
      assert (Hold : ∀ m, s1 !! m = Some (N.of_nat (length (runs r))) → False).
      { intros m Hm. pose proof (wf_slot _ _ Hwf _ _ (Hs1 _ _ Hm HrawN) HrawN) as Hlt.
        unfold index in Hlt. lia. }
      destruct (decide (m1 = n)) as [->|H1], (decide (m2 = n)) as [->|H2]; [done|..];
        rewrite ?list_lookup_insert_eq by lia; rewrite ?list_lookup_insert_ne by done.
      * intros [= <-] Hm _. by apply Hold in Hm.
      * intros Hm [= <-] _. by apply Hold in Hm.
      * intros Hm1 Hm2 HN. eapply (wf_inj _ _ Hwf); [by apply Hs1|by apply Hs1|done].
    + intros k Hk. destruct (decide (k < length (runs r))) as [Hlt|].
      * destruct (wf_owned _ _ Hwf k Hlt) as (m & s & Hms & HN & Hi).
        exists m, s. rewrite list_lookup_insert_ne; [by auto|]. intros <-.
        apply Hs1' in Hms. congruence.
      * exists n, (N.of_nat (length (runs r))). rewrite list_lookup_insert_eq by lia.
        split_and!; [done|done|]. unfold index. cbn in Hk. lia.
  - intros m. unfold run_of. cbn [slots runs]. case_decide as Hm.
    + subst. rewrite list_lookup_insert_eq by lia. cbn. rewrite decide_False by done.
      unfold index. rewrite Nat2N.id, lookup_app_r, Nat.sub_diag by lia. done.
    + rewrite list_lookup_insert_ne by done. destruct (s1 !! m) as [s|] eqn:E; cbn.
      * case_decide as HN.
        { destruct (slots r !! m) as [s'|] eqn:E'; [|done]. cbn. apply Hs1' in E'.
          rewrite decide_True by congruence. done. }
        rewrite (Hs1 _ _ E HN). cbn. rewrite decide_False by done.
        rewrite lookup_app_l; [done|]. by eapply wf_slot; [|by apply Hs1|].
      * destruct (slots r !! m) as [s'|] eqn:E'; [|done]. apply Hs1' in E'. congruence.
Qed.

Lemma put_spec r b n old run :
  wf r b → run_of r n = Some old →
  ∃ r', put r n run = Ok (Some r') ∧ wf r' b ∧
    ∀ m, run_of r' m = if decide (m = n) then Some run else run_of r m.
Proof.
  intros Hwf Hold. unfold put. unfold run_of in Hold.
  destruct (slots r !! n) as [s|] eqn:Hs; [|done]. cbn in Hold. case_decide as HN; [done|].
  pose proof (wf_slot _ _ Hwf _ _ Hs HN) as Hlt. rewrite vset_lt by done. rsimpl.
  eexists. split; [done|]. split.
  - split; cbn [slots runs]; rewrite ?length_insert; by apply Hwf.
  - intros m. unfold run_of. cbn [slots runs]. destruct (decide (m = n)) as [->|Hm].
    + rewrite Hs. cbn. rewrite decide_False by done. by rewrite list_lookup_insert_eq.
    + destruct (slots r !! m) as [s'|] eqn:Hs'; [|done]. cbn. case_decide; [done|].
      rewrite list_lookup_insert_ne; [done|]. intros ?%N2Nat.inj. subst s'.
      apply Hm. by eapply (wf_inj _ _ Hwf).
Qed.

Lemma is_empty_spec r b : wf r b → is_empty r = true ↔ ∀ n, run_of r n = None.
Proof.
  intros Hwf. unfold is_empty. rewrite bool_decide_eq_true. split.
  - intros He n. unfold run_of. destruct (slots r !! n); [|done]. cbn. case_decide; [done|].
    by rewrite He.
  - intros Hall. destruct (runs r) as [|run rs] eqn:E; [done|exfalso].
    destruct (wf_owned _ _ Hwf 0) as (n & s & Hs & HN & Hi); [rewrite E; cbn; lia|].
    specialize (Hall n). unfold run_of in Hall. rewrite Hs in Hall. cbn in Hall.
    by rewrite decide_False, Hi, E in Hall.
Qed.

End Runs.
