(* ===== verification/Store.v ===== *)
(** * The graph store: state and operations

    Models [graph/store.rs], the walk of [graph/store/adjacency.rs] and the
    overlay edits of [graph/store/relocate.rs]: the columns of [Graph] as they
    are stored and every operation that reads or changes them, panics
    included. Proofs are in the files that require this one. *)

From S2P Require Import Prelude Words Liveness Ids Chains Runs.

(** [Relocations] *)
Record Relocations : Type := mk_Relocations { outgoing_runs : Runs.t; incoming_runs : Runs.t }.

Definition Relocations_default : Relocations := mk_Relocations Runs.default Runs.default.

(** [Relocations::runs] and writing through [Relocations::runs_mut] *)
Definition runs_along (r : Relocations) (d : TraversalDirection) : Runs.t :=
  match d with Outgoing => outgoing_runs r | Incoming => incoming_runs r end.
Definition set_runs_along (d : TraversalDirection) (v : Runs.t) (r : Relocations) : Relocations :=
  match d with
  | Outgoing => mk_Relocations v (incoming_runs r)
  | Incoming => mk_Relocations (outgoing_runs r) v
  end.

Section Store.
Context {NP EP : Type}.

(** [Graph<N, E, NT, ET>] *)
Record Graph : Type := mk_Graph {
  base_nodes : list NP;
  base_edges : list (EdgeRecord EP);
  out_offsets : list N;
  out_edges : list N;
  in_offsets : list N;
  in_edges : list N;
  delta_nodes : list NP;
  delta_edges : list (EdgeRecord EP);
  chains : DeltaChains.t;
  live_nodes : LiveSet.t;
  live_edges : LiveSet.t;
  live_node_count : nat;
  live_edge_count : nat;
  relocations : option Relocations;
}.

(** Assignment to the fields the operations mutate. *)
Definition set_base_edges v g := mk_Graph (base_nodes g) v (out_offsets g) (out_edges g)
  (in_offsets g) (in_edges g) (delta_nodes g) (delta_edges g) (chains g) (live_nodes g)
  (live_edges g) (live_node_count g) (live_edge_count g) (relocations g).
Definition set_base_nodes v g := mk_Graph v (base_edges g) (out_offsets g) (out_edges g)
  (in_offsets g) (in_edges g) (delta_nodes g) (delta_edges g) (chains g) (live_nodes g)
  (live_edges g) (live_node_count g) (live_edge_count g) (relocations g).
Definition set_delta_nodes v g := mk_Graph (base_nodes g) (base_edges g) (out_offsets g) (out_edges g)
  (in_offsets g) (in_edges g) v (delta_edges g) (chains g) (live_nodes g)
  (live_edges g) (live_node_count g) (live_edge_count g) (relocations g).
Definition set_delta_edges v g := mk_Graph (base_nodes g) (base_edges g) (out_offsets g) (out_edges g)
  (in_offsets g) (in_edges g) (delta_nodes g) v (chains g) (live_nodes g)
  (live_edges g) (live_node_count g) (live_edge_count g) (relocations g).
Definition set_chains v g := mk_Graph (base_nodes g) (base_edges g) (out_offsets g) (out_edges g)
  (in_offsets g) (in_edges g) (delta_nodes g) (delta_edges g) v (live_nodes g)
  (live_edges g) (live_node_count g) (live_edge_count g) (relocations g).
Definition set_live_nodes v n g := mk_Graph (base_nodes g) (base_edges g) (out_offsets g) (out_edges g)
  (in_offsets g) (in_edges g) (delta_nodes g) (delta_edges g) (chains g) v
  (live_edges g) n (live_edge_count g) (relocations g).
Definition set_live_edges v n g := mk_Graph (base_nodes g) (base_edges g) (out_offsets g) (out_edges g)
  (in_offsets g) (in_edges g) (delta_nodes g) (delta_edges g) (chains g) (live_nodes g)
  v (live_node_count g) n (relocations g).
Definition set_relocations v g := mk_Graph (base_nodes g) (base_edges g) (out_offsets g) (out_edges g)
  (in_offsets g) (in_edges g) (delta_nodes g) (delta_edges g) (chains g) (live_nodes g)
  (live_edges g) (live_node_count g) (live_edge_count g) v.

(** [Graph::tagged], and [Graph::new] at the default tags *)
Definition tagged : Graph :=
  mk_Graph [] [] [] [] [] [] [] [] DeltaChains.new LiveSet.new LiveSet.new 0 0 None.

(** ** Bounds, counts and liveness *)

Definition node_bound (g : Graph) : nat := length (base_nodes g) + length (delta_nodes g).
Definition edge_bound (g : Graph) : nat := length (base_edges g) + length (delta_edges g).
Definition node_count (g : Graph) : nat := live_node_count g.
Definition edge_count (g : Graph) : nat := live_edge_count g.
Definition is_empty (g : Graph) : bool := bool_decide (live_node_count g = 0).

Definition tombstoned_nodes (g : Graph) : bool := bool_decide (live_node_count g ≠ node_bound g).
Definition tombstoned_edges (g : Graph) : bool := bool_decide (live_edge_count g ≠ edge_bound g).

Definition node_is_live (g : Graph) (slot : nat) : res bool :=
  if decide (slot < node_bound g) then
    if tombstoned_nodes g then LiveSet.is_live (live_nodes g) slot else mret true
  else mret false.

Definition edge_is_live (g : Graph) (slot : nat) : res bool :=
  if decide (slot < edge_bound g) then
    if tombstoned_edges g then LiveSet.is_live (live_edges g) slot else mret true
  else mret false.

Definition contains_node (g : Graph) (node : Id) : res bool := node_is_live g (index node).
Definition contains_edge (g : Graph) (edge : Id) : res bool := edge_is_live g (index edge).

(** [Graph::node] and [Graph::edge] *)
Definition node (g : Graph) (n : Id) : res NP :=
  let base := length (base_nodes g) in
  if decide (index n < base) then vget (base_nodes g) (index n)
  else vget (delta_nodes g) (index n - base).

Definition edge (g : Graph) (e : Id) : res (EdgeRecord EP) :=
  let base := length (base_edges g) in
  if decide (index e < base) then vget (base_edges g) (index e)
  else vget (delta_edges g) (index e - base).

(** Writing through [Graph::node_mut] and [Graph::edge_mut] *)
Definition node_mut (g : Graph) (n : Id) (f : NP → NP) : res Graph :=
  let base := length (base_nodes g) in
  if decide (index n < base) then
    p ← vget (base_nodes g) (index n);
    v ← vset (base_nodes g) (index n) (f p); mret (set_base_nodes v g)
  else
    p ← vget (delta_nodes g) (index n - base);
    v ← vset (delta_nodes g) (index n - base) (f p); mret (set_delta_nodes v g).

Definition edge_mut (g : Graph) (e : Id) (f : EdgeRecord EP → EdgeRecord EP) : res Graph :=
  let base := length (base_edges g) in
  if decide (index e < base) then
    r ← vget (base_edges g) (index e);
    v ← vset (base_edges g) (index e) (f r); mret (set_base_edges v g)
  else
    r ← vget (delta_edges g) (index e - base);
    v ← vset (delta_edges g) (index e - base) (f r); mret (set_delta_edges v g).

(** [filter(|slot| !tombstoned || set.is_live(slot)).map(Id::from_index)] *)
Definition live_ids (bound : nat) (tombstoned : bool) (set : LiveSet.t) : res (list Id) :=
  rfold (λ acc slot,
    keep ← (if tombstoned then LiveSet.is_live set slot else mret true);
    if (keep : bool) then id ← from_index slot; mret (acc ++ [id]) else mret acc)
    [] (seq 0 bound).

Definition node_ids (g : Graph) : res (list Id) :=
  live_ids (node_bound g) (tombstoned_nodes g) (live_nodes g).
Definition edge_ids (g : Graph) : res (list Id) :=
  live_ids (edge_bound g) (tombstoned_edges g) (live_edges g).

(** [Graph::assert_live_endpoint] *)
Definition assert_live_endpoint (g : Graph) (n : Id) (role : string) : res () :=
  _ ← rassert (bool_decide (index n < node_bound g)) (role +:+ " node is out of range");
  live ← node_is_live g (index n);
  rassert live (role +:+ " node has been removed").

(** [Graph::retire_edge] and [Graph::remove_edge] *)
Definition retire_edge (g : Graph) (slot : nat) : res (Graph * bool) :=
  '(was, set) ← LiveSet.clear (live_edges g) slot;
  if negb was then mret (g, false)
  else
    if decide (live_edge_count g = 0) then Panic "attempt to subtract with overflow"
    else mret (set_live_edges set (live_edge_count g - 1) g, true).

Definition remove_edge (g : Graph) (e : Id) : res (Graph * bool) := retire_edge g (index e).

(** [Graph::add_node] *)
Definition add_node (g : Graph) (payload : NP) : res (Graph * Id) :=
  let slot := node_bound g in
  _ ← rassert (bool_decide (N.of_nat slot < MAX_SLOTS)%N)
        "node count exceeds the dense identity space";
  let g1 := set_delta_nodes (delta_nodes g ++ [payload]) g in
  '(_, set) ← LiveSet.push_live (live_nodes g);
  let g2 := set_live_nodes set (S (live_node_count g)) g1 in
  id ← from_index slot;
  mret (g2, id).

(** [Graph::add_edge] *)
Definition add_edge (g : Graph) (s t : Id) (p : EP) : res (Graph * Id) :=
  _ ← assert_live_endpoint g s "source";
  _ ← assert_live_endpoint g t "target";
  let slot := edge_bound g in
  _ ← rassert (bool_decide (N.of_nat slot < MAX_SLOTS)%N)
        "edge count exceeds the dense identity space";
  let nodes := node_bound g in
  let g1 := set_delta_edges (delta_edges g ++ [mk_EdgeRecord s t p]) g in
  c ← DeltaChains.append (chains g) (index s) (index t) nodes;
  let g2 := set_chains c g1 in
  '(_, set) ← LiveSet.push_live (live_edges g);
  let g3 := set_live_edges set (S (live_edge_count g)) g2 in
  id ← from_index slot;
  mret (g3, id).

(** ** The adjacency walk *)

(** [AdjacencyCursor] *)
Record AdjacencyCursor : Type := mk_cursor {
  cur_base : N; cur_base_end : N; cur_delta : N; cur_delta_last : N }.
Definition EXHAUSTED : AdjacencyCursor := mk_cursor 0 0 NONE NONE.

(** [Axis]: one direction's arrays *)
Record Axis : Type := mk_axis {
  ax_offsets : list N; ax_edges : list N; ax_chains : DeltaChains.t;
  ax_chain : TraversalDirection }.

Definition axis (g : Graph) (d : TraversalDirection) : Axis :=
  match d with
  | Outgoing => mk_axis (out_offsets g) (out_edges g) (chains g) d
  | Incoming => mk_axis (in_offsets g) (in_edges g) (chains g) d
  end.

(** [AdjacentEdges] *)
Record AdjacentEdges : Type := mk_walk {
  w_cursor : AdjacencyCursor; w_axis : Axis; w_live : option LiveSet.t; w_delta_base : N }.

(** The two loops of [advance]. *)
Fixpoint advance_base (fuel : nat) (c : AdjacencyCursor) (ax : Axis) (live : option LiveSet.t)
    : res (option N * AdjacencyCursor) :=
  match fuel with
  | 0 => Stuck
  | S fuel =>
      if decide (cur_base c < cur_base_end c)%N then
        e ← vget (ax_edges ax) (index (cur_base c));
        let c' := mk_cursor (cur_base c + 1) (cur_base_end c) (cur_delta c) (cur_delta_last c) in
        keep ← DeltaChains.none_or_live live e;
        if (keep : bool) then mret (Some e, c') else advance_base fuel c' ax live
      else mret (None, c)
  end.

Fixpoint advance_delta (fuel : nat) (c : AdjacencyCursor) (ax : Axis) (live : option LiveSet.t)
    (delta_base : N) : res (option N * AdjacencyCursor) :=
  match fuel with
  | 0 => Stuck
  | S fuel =>
      if decide (cur_delta c = NONE) then mret (None, c)
      else
        let delta := cur_delta c in
        nxt ← (if decide (delta = cur_delta_last c) then mret NONE
               else l ← vget (DeltaChains.next (ax_chains ax)) (index delta);
                    mret (link (ax_chain ax) l));
        let c' := mk_cursor (cur_base c) (cur_base_end c) nxt (cur_delta_last c) in
        e ← u32_add delta_base delta;
        keep ← DeltaChains.none_or_live live e;
        if (keep : bool) then mret (Some e, c') else advance_delta fuel c' ax live delta_base
  end.

(** How many entries a walk can still read. *)
Definition walk_size (c : AdjacencyCursor) (ax : Axis) : nat :=
  index (cur_base_end c) - index (cur_base c) + length (DeltaChains.next (ax_chains ax)).

(** [advance], and [Iterator::next] of [AdjacentEdges] *)
Definition advance (c : AdjacencyCursor) (ax : Axis) (live : option LiveSet.t) (delta_base : N)
    : res (option N * AdjacencyCursor) :=
  '(found, c1) ← advance_base (S (walk_size c ax)) c ax live;
  match found with
  | Some e => mret (Some e, c1)
  | None => advance_delta (S (walk_size c ax)) c1 ax live delta_base
  end.

Definition walk_next (w : AdjacentEdges) : res (option Id * AdjacentEdges) :=
  '(found, c) ← advance (w_cursor w) (w_axis w) (w_live w) (w_delta_base w);
  mret (found, mk_walk c (w_axis w) (w_live w) (w_delta_base w)).

(** Exhausting the iterator into a list. *)
Fixpoint collect_loop (fuel : nat) (w : AdjacentEdges) : res (list Id) :=
  match fuel with
  | 0 => Stuck
  | S fuel =>
      '(found, w') ← walk_next w;
      match found with
      | None => mret []
      | Some e => rest ← collect_loop fuel w'; mret (e :: rest)
      end
  end.
Definition collect (w : AdjacentEdges) : res (list Id) :=
  collect_loop (S (walk_size (w_cursor w) (w_axis w))) w.

(** [Graph::cursor] *)
Definition cursor (g : Graph) (n : Id) (ax : Axis) : res AdjacencyCursor :=
  let i := index n in
  _ ← rassert (bool_decide (i < node_bound g)) "node identity is out of range";
  dead ← (if tombstoned_nodes g then negb <$> LiveSet.is_live (live_nodes g) i else mret false);
  if (dead : bool) then mret EXHAUSTED
  else
    '(base, base_end) ←
      (if decide (i + 1 < length (ax_offsets ax)) then
         lo ← vget (ax_offsets ax) i; hi ← vget (ax_offsets ax) (i + 1); mret (lo, hi)
       else mret (0%N, 0%N));
    e ← DeltaChains.ends (ax_chains ax) i (ax_chain ax);
    let '(delta, delta_last) := default (NONE, NONE) e in
    mret (mk_cursor base base_end delta delta_last).

(** [Graph::overlay] *)
Definition overlay (g : Graph) (n : nat) (d : TraversalDirection) : res (option (list N)) :=
  match relocations g with
  | None => mret None
  | Some r => Runs.get (runs_along r d) n
  end.

(** [self.tombstoned_edges().then_some(&self.live_edges)] *)
Definition live_filter (g : Graph) : option LiveSet.t :=
  if tombstoned_edges g then Some (live_edges g) else None.

(** [Graph::adjacent] *)
Definition adjacent (g : Graph) (n : Id) (d : TraversalDirection) : res AdjacentEdges :=
  let ax := axis g d in
  c ← cursor g n ax;
  o ← overlay g (index n) d;
  '(c1, ax1) ←
    (match o with
     | Some run =>
         n ← raw_index (length run);
         mret (mk_cursor 0 n (cur_delta c) (cur_delta_last c),
               mk_axis (ax_offsets ax) run (ax_chains ax) (ax_chain ax))
     | None => mret (c, ax)
     end);
  delta_base ← raw_index (length (base_edges g));
  mret (mk_walk c1 ax1 (live_filter g) delta_base).

(** [Graph::outgoing] and [Graph::incoming], exhausted *)
Definition adjacency (g : Graph) (d : TraversalDirection) (n : Id) : res (list Id) :=
  w ← adjacent g n d; collect w.
Definition outgoing (g : Graph) (n : Id) : res (list Id) := adjacency g Outgoing n.
Definition incoming (g : Graph) (n : Id) : res (list Id) := adjacency g Incoming n.

(** [Graph::successors] and [Graph::predecessors] *)
Definition successors (g : Graph) (n : Id) : res (list Id) :=
  es ← outgoing g n; rmapM (λ e, target <$> edge g e) es.
Definition predecessors (g : Graph) (n : Id) : res (list Id) :=
  es ← incoming g n; rmapM (λ e, source <$> edge g e) es.

(** [Graph::base_run] *)
Definition base_run (g : Graph) (n : nat) (d : TraversalDirection) : res (list N) :=
  let ax := axis g d in
  if decide (n + 1 < length (ax_offsets ax)) then
    lo ← vget (ax_offsets ax) n; hi ← vget (ax_offsets ax) (n + 1);
    if decide ((lo ≤ hi)%N ∧ index hi ≤ length (ax_edges ax))
    then mret (take (index hi - index lo) (drop (index lo) (ax_edges ax)))
    else Panic "slice index out of range"
  else mret [].

(** [Vec::retain] with a liveness test, and the [filter] of a run by it *)
Definition retain_live (set : LiveSet.t) (run : list N) : res (list N) :=
  rfold (λ acc e, keep ← LiveSet.is_live set (index e);
                  mret (if (keep : bool) then acc ++ [e] else acc)) [] run.

(** [Graph::live_base_run] *)
Definition live_base_run (g : Graph) (n : Id) (d : TraversalDirection) : res (list N) :=
  run ← base_run g (index n) d;
  match live_filter g with
  | Some live => retain_live live run
  | None => mret run
  end.

(** [Graph::degree] *)
Fixpoint degree_loop (fuel : nat) (ax : Axis) (delta tail : N) (count : nat) : res nat :=
  match fuel with
  | 0 => Stuck
  | S fuel =>
      if decide (delta = NONE) then mret count
      else if decide (delta = tail) then mret (S count)
      else
        l ← vget (DeltaChains.next (ax_chains ax)) (index delta);
        degree_loop fuel ax (link (ax_chain ax) l) tail (S count)
  end.
Definition degree (g : Graph) (n : Id) (d : TraversalDirection) : res nat :=
  w ← adjacent g n d;
  match w_live w with
  | Some _ => es ← collect w; mret (length es)
  | None =>
      let c := w_cursor w in
      if decide (cur_base c ≤ cur_base_end c)%N then
        degree_loop (S (walk_size c (w_axis w))) (w_axis w) (cur_delta c) (cur_delta_last c)
          (index (cur_base_end c - cur_base c)%N)
      else Panic "attempt to subtract with overflow"
  end.

(** [Graph::clear_adjacency] *)
Definition clear_adjacency (g : Graph) (n : Id) (d : TraversalDirection) : res Graph :=
  incident ← adjacency g d n;
  rfold (λ g e, fst <$> retire_edge g (index e)) g incident.

(** [Graph::remove_node] *)
Definition remove_node (g : Graph) (n : Id) : res (Graph * bool) :=
  live ← node_is_live g (index n);
  if negb live then mret (g, false)
  else
    g1 ← clear_adjacency g n Outgoing;
    g2 ← clear_adjacency g1 n Incoming;
    '(_, set) ← LiveSet.clear (live_nodes g2) (index n);
    if decide (live_node_count g2 = 0) then Panic "attempt to subtract with overflow"
    else mret (set_live_nodes set (live_node_count g2 - 1) g2, true).

(** ** Redirection *)

(** [Graph::has_relocations] *)
Definition has_relocations (g : Graph) : bool :=
  match relocations g with
  | None => false
  | Some r => negb (Runs.is_empty (outgoing_runs r)) || negb (Runs.is_empty (incoming_runs r))
  end.

(** [usize::is_power_of_two] *)
Definition is_power_of_two (n : nat) : bool :=
  bool_decide (n ≠ 0 ∧ 2 ^ Nat.log2 n = n).

(** [sweep] *)
Definition sweep (run : list N) (live : option LiveSet.t) : res (list N) :=
  match live with
  | Some set => if is_power_of_two (length run) then retain_live set run else mret run
  | None => mret run
  end.

(** [Graph::start_run] *)
Definition start_run (g : Graph) (n : Id) (d : TraversalDirection) : res Graph :=
  run ← live_base_run g n d;
  let bound := node_bound g in
  let r := default Relocations_default (relocations g) in
  runs ← Runs.insert (runs_along r d) (index n) bound run;
  mret (set_relocations (Some (set_runs_along d runs r)) g).

(** [Graph::with_run]: [edit] returns its result and the run it leaves. *)
Definition with_run {R} (g : Graph) (n : Id) (d : TraversalDirection)
    (edit : list N → option LiveSet.t → res (R * list N)) : res (Graph * R) :=
  o ← overlay g (index n) d;
  g1 ← (match o with Some _ => mret g | None => start_run g n d end);
  let live := live_filter g1 in
  delta_base ← raw_index (length (base_edges g1));
  o1 ← overlay g1 (index n) d;
  run ← expect o1 "a node being edited has a run, which start_run gave it";
  '(c, run1) ← DeltaChains.drain_into (chains g1) (index n) d delta_base live run;
  '(r, run2) ← edit run1 live;
  rel ← expect (relocations g1) "a node being edited has a run, which start_run gave it";
  put ← Runs.put (runs_along rel d) (index n) run2;
  runs ← expect put "a node being edited has a run, which start_run gave it";
  mret (set_relocations (Some (set_runs_along d runs rel)) (set_chains c g1), r).

(** [run.iter().position(|&slot| slot == raw)] followed by [run.remove] *)
Definition remove_position (run : list N) (raw : N) : list N :=
  match list_find (.= raw) run with
  | Some (i, _) => delete i run
  | None => run
  end.

(** [Graph::redirect], with its public forms [redirect_edge_source] and
    [redirect_edge_target] *)
Definition redirect (g : Graph) (e : Id) (n : Id) (d : TraversalDirection) : res (Graph * Id) :=
  live ← contains_edge g e;
  _ ← rassert live "edge has been removed";
  _ ← assert_live_endpoint g n "replacement";
  record ← edge g e;
  let previous := endpoint d record in
  if decide (previous = n) then mret (g, previous)
  else
    g1 ← edge_mut g e (set_endpoint d n);
    raw ← raw_index (index e);
    '(g2, _) ← with_run g1 previous d (λ run live,
      run1 ← sweep run live; mret ((), remove_position run1 raw));
    '(g3, _) ← with_run g2 n d (λ run live,
      run1 ← sweep run live; mret ((), run1 ++ [raw]));
    mret (g3, previous).
Definition redirect_edge_source (g : Graph) (e n : Id) := redirect g e n Outgoing.
Definition redirect_edge_target (g : Graph) (e n : Id) := redirect g e n Incoming.

(** [Graph::move_adjacency] *)
Definition move_adjacency (g : Graph) (old new : Id) (d : TraversalDirection) : res Graph :=
  _ ← rassert (bool_decide (old ≠ new)) "adjacency cannot move onto its own node";
  w ← adjacent g old d;
  '(first, _) ← walk_next w;
  match first with
  | None => mret g
  | Some _ =>
      _ ← assert_live_endpoint g new "replacement";
      '(g1, moved) ← with_run g old d (λ run live,
        run1 ← (match live with Some set => retain_live set run | None => mret run end);
        mret (run1, []));
      g2 ← rfold (λ g slot, edge_mut g slot (set_endpoint d new)) g1 moved;
      '(g3, _) ← with_run g2 new d (λ run live,
        run1 ← sweep run live;
        mret ((), match run1 with [] => moved | _ => run1 ++ moved end));
      mret g3
  end.

End Store.
Arguments Graph : clear implicits.
