(* ===== verification/StoreInv.v ===== *)
(** * What the adjacency walk reads

    The walk of [graph/store/adjacency.rs] against lists: a cursor stands for
    the rest of a compressed run followed by the rest of a delta chain, and
    exhausting it yields their kept edges in that order. *)

From S2P Require Import Prelude Words Liveness Ids Chains Runs Store.

Import DeltaChains.

(** [c] still has to read the run entries [bs] and the delta edges [ds]. *)
Record cursor_rep (c : AdjacencyCursor) (ax : Axis) (bs ds : list N) : Prop := mk_cursor_rep {
  cr_len : index (cur_base c) + length bs = index (cur_base_end c);
  cr_base : ∃ rest, drop (index (cur_base c)) (ax_edges ax) = bs ++ rest;
  cr_delta : match ds with
    | [] => cur_delta c = NONE
    | x :: l => cur_delta c = x ∧ cur_delta_last c = tail_of x l ∧
                path (ax_chains ax) (ax_chain ax) x l
    end;
  cr_nodup : NoDup ds;
  cr_some : NONE ∉ ds;
}.

(** The kept edges among the pending ones, in reading order. *)
Definition pending (live : option LiveSet.t) (base : N) (bs ds : list N) : list N :=
  filter (λ e, kept live e = true) (bs ++ (N.add base <$> ds)).

Lemma filter_kept_cons live e (l : list N) :
  filter (λ e, kept live e = true) (e :: l) =
    if kept live e then e :: filter (λ e, kept live e = true) l
    else filter (λ e, kept live e = true) l.
Proof. rewrite filter_cons. destruct (kept live e); by case_decide. Qed.

Lemma advance_base_spec fuel c ax live bs ds :
  live_wf live → cursor_rep c ax bs ds → length bs < fuel →
  ∃ found c' bs', advance_base fuel c ax live = Ok (found, c') ∧ cursor_rep c' ax bs' ds ∧
    match found with
    | Some e => length bs' < length bs ∧
        filter (λ e, kept live e = true) bs = e :: filter (λ e, kept live e = true) bs'
    | None => bs' = [] ∧ filter (λ e, kept live e = true) bs = []
    end.
Proof.
  intros Hlive. revert c bs. induction fuel as [|fuel IH]; intros c bs Hc Hf; [lia|].
  cbn [advance_base]. destruct Hc as [Hlen [rest Hdrop] Hd Hnd HN]. case_decide as Hlt.
  - destruct bs as [|e bs]; [cbn in Hlen; unfold index in *; lia|].
    assert (He : ax_edges ax !! index (cur_base c) = Some e).
    { rewrite <-(Nat.add_0_r (index _)), <-lookup_drop, Hdrop. done. }
    rewrite (vget_eq _ _ _ He). rsimpl. rewrite none_or_live_Ok by done. rsimpl.
    set (c' := mk_cursor (cur_base c + 1) (cur_base_end c) (cur_delta c) (cur_delta_last c)).
    assert (Hc' : cursor_rep c' ax bs ds).
    { split; cbn; [|exists rest|done..].
      - cbn in Hlen. unfold index in *. lia.
      - replace (index (cur_base c + 1)%N) with (index (cur_base c) + 1) by (unfold index; lia).
        by rewrite <-drop_drop, Hdrop. }
    rewrite filter_kept_cons. destruct (kept live e) eqn:Hk.
    + exists (Some e), c', bs. split_and!; [done|done|cbn; lia|done].
    + destruct (IH c' bs Hc') as (found & c'' & bs'' & Heq & Hc'' & Hf''); [cbn in Hf; lia|].
      exists found, c'', bs''. split_and!; [done|done|]. destruct found; [|done].
      destruct Hf''. split; [cbn; lia|done].
  - destruct bs; [|cbn in Hlen; unfold index in *; lia].
    exists None, c, []. split_and!; try done. split; [done|by exists rest|done..].
Qed.

Lemma advance_delta_spec fuel c ax live base bs ds :
  live_wf live → cursor_rep c ax bs ds → length ds < fuel →
  (∀ y, y ∈ ds → (base + y ≤ U32_MAX)%N) →
  ∃ found c' ds', advance_delta fuel c ax live base = Ok (found, c') ∧ cursor_rep c' ax bs ds' ∧
    (∀ y, y ∈ ds' → y ∈ ds) ∧
    match found with
    | Some e => length ds' < length ds ∧
        filter (λ e, kept live e = true) (N.add base <$> ds) =
          e :: filter (λ e, kept live e = true) (N.add base <$> ds')
    | None => ds' = [] ∧ filter (λ e, kept live e = true) (N.add base <$> ds) = []
    end.
Proof.
  intros Hlive. revert c ds. induction fuel as [|fuel IH]; intros c ds Hc Hf Hb; [lia|].
  cbn [advance_delta]. destruct Hc as [Hlen Hdrop Hd Hnd HN]. case_decide as Hlt.
  - destruct ds as [|x l]; [by exists None, c, []|]. destruct Hd as (Hx & _).
    exfalso. apply HN. rewrite <-Hlt, Hx. by left.
  - destruct ds as [|x l]; [done|]. destruct Hd as (Hx & Htl & Hp). rewrite Hx, Htl.
    assert (Hnxt : (if decide (x = tail_of x l) then mret NONE
                    else l0 ← vget (next (ax_chains ax)) (index x); mret (link (ax_chain ax) l0)) =
                   Ok (match l with [] => NONE | y :: _ => y end)).
    { destruct l as [|y l]; [by rewrite decide_True|]. rewrite tail_of_cons.
      rewrite decide_False.
      - destruct Hp as [Hy _]. apply next_link_Some in Hy as (lk & Hlk & <-).
        by rewrite (vget_eq _ _ _ Hlk).
      - intros ->. apply NoDup_cons in Hnd as [Hnd _]. apply Hnd, tail_of_elem. }
    rewrite Hnxt. rsimpl. rewrite u32_add_eq by (apply Hb; left). rsimpl.
    rewrite none_or_live_Ok by done. rsimpl.
    set (c' := mk_cursor _ _ _ _).
    assert (Hc' : cursor_rep c' ax bs l).
    { split; cbn; [done|done| |by apply NoDup_cons in Hnd as [_ ?]|set_solver].
      destruct l as [|y l]; [done|]. rewrite tail_of_cons in *. by destruct Hp. }
    rewrite (fmap_cons _ x), filter_kept_cons. destruct (kept live (base + x)%N) eqn:Hk.
    + exists (Some (base + x)%N), c', l. split_and!; [done|done|set_solver|cbn; lia|done].
    + destruct (IH c' l Hc') as (found & c'' & ds'' & Heq & Hc'' & Hsub & Hf'');
        [cbn in Hf; lia|set_solver|].
      exists found, c'', ds''. split_and!; [done|done|set_solver|]. destruct found; [|done].
      destruct Hf''. split; [cbn; lia|done].
Qed.

Lemma cursor_rep_size c ax bs ds :
  cursor_rep c ax bs ds → length ds ≤ length (next (ax_chains ax)) →
  length bs + length ds ≤ walk_size c ax.
Proof. intros [Hlen _ _ _ _] Hds. unfold walk_size. lia. Qed.

Definition walk_rep (w : AdjacentEdges) (bs ds : list N) : Prop :=
  live_wf (w_live w) ∧ cursor_rep (w_cursor w) (w_axis w) bs ds ∧
  length ds ≤ length (next (ax_chains (w_axis w))) ∧
  (∀ y, y ∈ ds → (w_delta_base w + y ≤ U32_MAX)%N).

(** One step of the iterator yields the first kept pending edge. *)
Lemma walk_next_spec w bs ds :
  walk_rep w bs ds →
  match pending (w_live w) (w_delta_base w) bs ds with
  | [] => ∃ w', walk_next w = Ok (None, w')
  | e :: rest => ∃ w' bs' ds', walk_next w = Ok (Some e, w') ∧ walk_rep w' bs' ds' ∧
      w_axis w' = w_axis w ∧ w_live w' = w_live w ∧ w_delta_base w' = w_delta_base w ∧
      length bs' + length ds' < length bs + length ds ∧
      pending (w_live w) (w_delta_base w) bs' ds' = rest
  end.
Proof.
  intros (Hlive & Hc & Hds & Hb). pose proof (cursor_rep_size _ _ _ _ Hc Hds) as Hsize.
  unfold walk_next, advance, pending. rewrite filter_app.
  destruct (advance_base_spec (S (walk_size (w_cursor w) (w_axis w))) _ _ _ _ _ Hlive Hc)
    as (found & c1 & bs1 & -> & Hc1 & Hf); [lia|]. rsimpl.
  destruct found as [e|].
  - destruct Hf as [Hlt ->]. cbn [app]. rsimpl. eexists _, bs1, ds. split; [done|].
    split_and!; [by split_and!|done..|lia|by rewrite filter_app].
  - destruct Hf as [-> ->]. rewrite app_nil_l.
    destruct (advance_delta_spec (S (walk_size (w_cursor w) (w_axis w))) _ _ _ (w_delta_base w) _ _ Hlive Hc1)
      as (found & c2 & ds2 & -> & Hc2 & Hsub & Hf); [lia|done|]. rsimpl.
    destruct found as [e|].
    + destruct Hf as [Hlt ->]. eexists _, [], ds2. split; [done|].
      split_and!; [|done..|cbn; lia|done]. split_and!; [done|done|cbn; lia|by auto].
    + destruct Hf as [-> ->]. by eexists.
Qed.

(** Exhausting a walk collects its pending edges, and the fuel suffices. *)
Lemma collect_spec w bs ds :
  walk_rep w bs ds → collect w = Ok (pending (w_live w) (w_delta_base w) bs ds).
Proof.
  intros Hw. unfold collect.
  assert (Hsize : length bs + length ds < S (walk_size (w_cursor w) (w_axis w))).
  { destruct Hw as (_ & Hc & Hds & _). pose proof (cursor_rep_size _ _ _ _ Hc Hds). lia. }
  revert Hsize. generalize (S (walk_size (w_cursor w) (w_axis w))) as fuel. intros fuel.
  revert w bs ds Hw. induction fuel as [|fuel IH]; intros w bs ds Hw Hsize; [lia|].
  cbn [collect_loop]. pose proof (walk_next_spec w bs ds Hw) as Hnext.
  destruct (pending _ _ bs ds) as [|e rest].
  - destruct Hnext as (w' & ->). done.
  - destruct Hnext as (w' & bs' & ds' & -> & Hw' & Hax & Hlv & Hdb & Hlt & <-). rsimpl.
    rewrite (IH w' bs' ds' Hw') by lia. rsimpl. by rewrite Hlv, Hdb.
Qed.

(** * The store's invariant and what its queries answer

    [inv g L] says that every column of a [Graph] agrees with every other,
    [L] naming the delta chains of its nodes. Under it every read stays in
    bounds, the adjacency walk returns exactly the live edges filed under the
    node, and the liveness shortcuts answer as the bitsets do. *)


Section StoreInv.
Context {NP EP : Type}.
Implicit Types g : Graph NP EP.

Abbreviation chain_map := (TraversalDirection → nat → list N).

Definition all_edges g : list (EdgeRecord EP) := base_edges g ++ delta_edges g.
Definition all_nodes g : list NP := base_nodes g ++ delta_nodes g.
Definition elive g (e : Id) : bool := LiveSet.live_in (live_edges g) (index e).
Definition nlive g (n : nat) : bool := LiveSet.live_in (live_nodes g) n.
Definition delta_base g : N := N.of_nat (length (base_edges g)).

(** ** Compressed rows *)

Definition csr_run (offsets edges : list N) (n : nat) : list N :=
  match offsets !! n, offsets !! (n + 1) with
  | Some lo, Some hi => take (index hi - index lo) (drop (index lo) edges)
  | _, _ => []
  end.

(** One direction's compressed index over [nodes] base nodes and [edges] base
    edges: the empty index of a store never compacted, or one run per node. *)
Definition csr_wf (offsets edges : list N) (nodes nedges : nat) : Prop :=
  (offsets = [] ∧ edges = [] ∧ nodes = 0 ∧ nedges = 0) ∨
  (length offsets = nodes + 1 ∧ length edges = nedges ∧
   offsets !! 0 = Some 0%N ∧ offsets !! nodes = Some (N.of_nat nedges) ∧
   (∀ n lo hi, offsets !! n = Some lo → offsets !! (n + 1) = Some hi → (lo ≤ hi)%N) ∧
   (∀ e, e ∈ edges → index e < nedges)).

Lemma csr_mono offsets edges nodes nedges n m lo hi :
  csr_wf offsets edges nodes nedges →
  offsets !! n = Some lo → offsets !! m = Some hi → n ≤ m → (lo ≤ hi)%N.
Proof.
  intros [(->&_)|(Hlen&_&_&_&Hmono&_)] Hn Hm Hle; [done|].
  revert hi Hm. induction Hle as [|m Hle IH]; intros hi Hm; [naive_solver lia|].
  destruct (lookup_lt_is_Some_2 offsets m) as [mid Hmid].
  { apply lookup_lt_Some in Hm. lia. }
  specialize (IH _ Hmid). rewrite <-Nat.add_1_r in Hm. specialize (Hmono _ _ _ Hmid Hm). lia.
Qed.

Lemma csr_hi offsets edges nodes nedges n hi :
  csr_wf offsets edges nodes nedges → offsets !! n = Some hi → index hi ≤ length edges.
Proof.
  intros Hwf Hn. pose proof Hwf as [(->&_)|(Hlen&Hlen2&_&Hlast&_)]; [done|].
  assert (n ≤ nodes) by (apply lookup_lt_Some in Hn; lia).
  assert (hi ≤ N.of_nat nedges)%N by (by eapply csr_mono). unfold index. lia.
Qed.

Lemma csr_run_elem offsets edges nodes nedges n e :
  csr_wf offsets edges nodes nedges → e ∈ csr_run offsets edges n → index e < nedges.
Proof.
  intros Hwf He. unfold csr_run in He.
  destruct (offsets !! n), (offsets !! (n + 1)); try by apply elem_of_nil in He.
  apply subseteq_take, subseteq_drop in He.
  destruct Hwf as [(->&->&_)|(_&_&_&_&_&H)]; [by apply elem_of_nil in He|by apply H].
Qed.

(** ** Pure readings of the columns *)

Definition offsets_of g (d : TraversalDirection) : list N :=
  match d with Outgoing => out_offsets g | Incoming => in_offsets g end.
Definition run_edges_of g (d : TraversalDirection) : list N :=
  match d with Outgoing => out_edges g | Incoming => in_edges g end.

Lemma axis_eq g d : axis g d = mk_axis (offsets_of g d) (run_edges_of g d) (chains g) d.
Proof. by destruct d. Qed.

Definition overlay_of g (n : nat) (d : TraversalDirection) : option (list N) :=
  r ← relocations g; Runs.run_of (runs_along r d) n.

(** The run a walk reads before the node's chain. *)
Definition run_of g (d : TraversalDirection) (n : nat) : list N :=
  default (csr_run (offsets_of g d) (run_edges_of g d) n) (overlay_of g n d).

(** Everything filed under a node, removed edges included, in reading order. *)
Definition raw g (L : chain_map) (d : TraversalDirection) (n : nat) : list N :=
  run_of g d n ++ (N.add (delta_base g) <$> L d n).

(** The adjacency of a node: its live entries. *)
Definition adj g (L : chain_map) (d : TraversalDirection) (n : nat) : list N :=
  filter (λ e, elive g e = true) (raw g L d n).

(** ** The invariant *)

(** What a walk relies on: every read stays inside the columns, the liveness
    sets describe them and the chains are rings. *)
Record walkable g (L : chain_map) : Prop := mk_walkable {
  inv_ln : LiveSet.wf (live_nodes g);
  inv_ln_len : LiveSet.len (live_nodes g) = node_bound g;
  inv_ln_count : live_node_count g = length (LiveSet.live_slots (live_nodes g));
  inv_le : LiveSet.wf (live_edges g);
  inv_le_len : LiveSet.len (live_edges g) = edge_bound g;
  inv_le_count : live_edge_count g = length (LiveSet.live_slots (live_edges g));
  inv_node_max : (N.of_nat (node_bound g) ≤ MAX_SLOTS)%N;
  inv_edge_max : (N.of_nat (edge_bound g) ≤ MAX_SLOTS)%N;
  inv_csr : ∀ d, csr_wf (offsets_of g d) (run_edges_of g d)
                   (length (base_nodes g)) (length (base_edges g));
  inv_rings : DeltaChains.rings (chains g) L;
  inv_last : length (DeltaChains.last (chains g)) ≤ node_bound g;
  inv_next : length (DeltaChains.next (chains g)) = length (delta_edges g);
  inv_reloc : ∀ r d, relocations g = Some r → Runs.wf (runs_along r d) (node_bound g);
  inv_run_lt : ∀ d n e, e ∈ run_of g d n → index e < edge_bound g;
}.

(** Everything but the agreement of the adjacency with the edge records,
    which an edge on the move breaks for a while. *)
Record core g (L : chain_map) : Prop := mk_core {
  inv_walkable :> walkable g L;
  inv_run_ring : ∀ d n x y, x ∈ run_of g d n → y ∈ L d n → (x < delta_base g + y)%N;
  inv_ring_sorted : ∀ d n, StronglySorted N.lt (L d n);
  inv_run_nodup : ∀ d n, NoDup (run_of g d n);
}.

Record inv g (L : chain_map) : Prop := mk_inv {
  inv_core :> core g L;
  inv_ring_end : ∀ d n x, x ∈ L d n →
    ∃ r, delta_edges g !! index x = Some r ∧ index (endpoint d r) = n;
  inv_endpoints : ∀ e r d, all_edges g !! e = Some r → index (endpoint d r) < node_bound g;
  inv_live_end : ∀ e r d, all_edges g !! index e = Some r → elive g e = true →
    nlive g (index (endpoint d r)) = true;
  inv_adj : ∀ d n e, elive g e = true →
    e ∈ raw g L d n ↔ ∃ r, all_edges g !! index e = Some r ∧ index (endpoint d r) = n;
}.

(** ** Queries under the invariant *)

Lemma length_all_edges g : length (all_edges g) = edge_bound g.
Proof. apply length_app. Qed.
Lemma length_all_nodes g : length (all_nodes g) = node_bound g.
Proof. apply length_app. Qed.

Lemma edge_lookup g e r : edge g e = Ok r ↔ all_edges g !! index e = Some r.
Proof.
  unfold edge, all_edges. case_decide.
  - by rewrite vget_Ok, lookup_app_l.
  - by rewrite vget_Ok, lookup_app_r by lia.
Qed.

Lemma node_lookup g n p : node g n = Ok p ↔ all_nodes g !! index n = Some p.
Proof.
  unfold node, all_nodes. case_decide.
  - by rewrite vget_Ok, lookup_app_l.
  - by rewrite vget_Ok, lookup_app_r by lia.
Qed.

(** The shortcut through the counters: no tombstone means every slot is live. *)
Lemma all_live_count s i :
  LiveSet.wf s → length (LiveSet.live_slots s) = LiveSet.len s → i < LiveSet.len s →
  LiveSet.live_in s i = true.
Proof.
  intros Hwf Hc Hi. destruct (LiveSet.live_in s i) eqn:E; [done|exfalso].
  unfold LiveSet.live_slots in Hc.
  assert (length (filter (λ i, LiveSet.live_in s i = true) (seq 0 (LiveSet.len s))) <
          length (seq 0 (LiveSet.len s))) as Hlt.
  { apply (length_filter_lt _ _ i); [apply elem_of_seq; lia|by rewrite E]. }
  rewrite length_seq in Hlt. lia.
Qed.

Section Walk_queries.
Context g L (Hinv : walkable g L).

Lemma elive_lt e : elive g e = true → index e < edge_bound g.
Proof.
  intros H. rewrite <-(inv_le_len _ _ Hinv). by apply LiveSet.live_in_lt; [apply (inv_le _ _ Hinv)|].
Qed.

Lemma nlive_lt n : nlive g n = true → n < node_bound g.
Proof.
  intros H. rewrite <-(inv_ln_len _ _ Hinv). by apply LiveSet.live_in_lt; [apply (inv_ln _ _ Hinv)|].
Qed.

Lemma not_tombstoned_nodes n :
  tombstoned_nodes g = false → n < node_bound g → nlive g n = true.
Proof.
  unfold tombstoned_nodes. rewrite bool_decide_eq_false. intros Hc%dec_stable Hn.
  apply all_live_count; [apply (inv_ln _ _ Hinv)| |].
  - by rewrite <-(inv_ln_count _ _ Hinv), (inv_ln_len _ _ Hinv).
  - by rewrite (inv_ln_len _ _ Hinv).
Qed.

Lemma not_tombstoned_edges e :
  tombstoned_edges g = false → index e < edge_bound g → elive g e = true.
Proof.
  unfold tombstoned_edges. rewrite bool_decide_eq_false. intros Hc%dec_stable Hn.
  apply all_live_count; [apply (inv_le _ _ Hinv)| |].
  - by rewrite <-(inv_le_count _ _ Hinv), (inv_le_len _ _ Hinv).
  - by rewrite (inv_le_len _ _ Hinv).
Qed.

Lemma node_is_live_Ok n : node_is_live g n = Ok (nlive g n).
Proof.
  unfold node_is_live. case_decide as Hn.
  - destruct (tombstoned_nodes g) eqn:Ht.
    + apply LiveSet.is_live_Ok, (inv_ln _ _ Hinv).
    + by rewrite not_tombstoned_nodes.
  - destruct (nlive g n) eqn:E; [by apply nlive_lt in E|done].
Qed.

Lemma contains_node_Ok n : contains_node g n = Ok (nlive g (index n)).
Proof. apply node_is_live_Ok. Qed.

Lemma contains_edge_Ok e : contains_edge g e = Ok (elive g e).
Proof.
  unfold contains_edge, edge_is_live. case_decide as Hn.
  - destruct (tombstoned_edges g) eqn:Ht.
    + apply LiveSet.is_live_Ok, (inv_le _ _ Hinv).
    + by rewrite not_tombstoned_edges.
  - destruct (elive g e) eqn:E; [by apply elive_lt in E|done].
Qed.

Lemma assert_live_endpoint_Ok n role :
  nlive g (index n) = true → assert_live_endpoint g n role = Ok ().
Proof.
  intros Hn. unfold assert_live_endpoint. rewrite node_is_live_Ok, Hn.
  rewrite bool_decide_true by (by apply nlive_lt). done.
Qed.

Lemma assert_live_endpoint_inv n role u :
  assert_live_endpoint g n role = Ok u → nlive g (index n) = true.
Proof.
  unfold assert_live_endpoint. rewrite node_is_live_Ok. intros H. by inv_res.
Qed.

Lemma overlay_Ok n d : overlay g n d = Ok (overlay_of g n d).
Proof.
  unfold overlay, overlay_of. destruct (relocations g) as [r|] eqn:Hr; [|done]. cbn.
  eapply Runs.get_Ok. by apply (inv_reloc _ _ Hinv).
Qed.

Lemma live_filter_wf : DeltaChains.live_wf (live_filter g).
Proof. unfold live_filter. destruct (tombstoned_edges g); [apply (inv_le _ _ Hinv)|done]. Qed.

Lemma live_filter_kept e :
  index e < edge_bound g → DeltaChains.kept (live_filter g) e = elive g e.
Proof.
  intros He. unfold live_filter. destruct (tombstoned_edges g) eqn:Ht; [done|]. cbn.
  by rewrite not_tombstoned_edges.
Qed.

Lemma ring_lt d n y : y ∈ L d n → index y < length (delta_edges g).
Proof.
  intros Hy. rewrite <-(inv_next _ _ Hinv). by eapply DeltaChains.rings_lt; [apply (inv_rings _ _ Hinv)|].
Qed.

Lemma ring_lt_NONE d n y : y ∈ L d n → (y < NONE)%N.
Proof.
  intros Hy%ring_lt. pose proof (inv_edge_max _ _ Hinv) as Hm.
  unfold edge_bound, MAX_SLOTS, index in *. lia.
Qed.

Lemma raw_lt d n e : e ∈ raw g L d n → index e < edge_bound g.
Proof.
  unfold raw. rewrite elem_of_app, list_elem_of_fmap. intros [He|(y&->&Hy)].
  - by eapply (inv_run_lt _ _ Hinv).
  - apply ring_lt in Hy. unfold index, delta_base, edge_bound in *. lia.
Qed.

Lemma delta_base_add y d n : y ∈ L d n → (delta_base g + y ≤ U32_MAX)%N.
Proof.
  intros Hy%ring_lt. pose proof (inv_edge_max _ _ Hinv) as Hm.
  unfold delta_base, edge_bound, MAX_SLOTS, NONE, index in *. lia.
Qed.

Lemma base_bound_max : (N.of_nat (length (base_edges g)) ≤ U32_MAX)%N.
Proof. pose proof (inv_edge_max _ _ Hinv). unfold edge_bound, MAX_SLOTS, NONE in *. lia. Qed.

(** ** The walk *)

Lemma cursor_Ok n d :
  index n < node_bound g → nlive g (index n) = true →
  ∃ c, cursor g n (axis g d) = Ok c ∧
    cursor_rep c (axis g d) (csr_run (offsets_of g d) (run_edges_of g d) (index n)) (L d (index n)).
Proof.
  intros Hn Hlive. rewrite axis_eq. unfold cursor. rewrite bool_decide_true by done. rsimpl.
  assert (Hdead : (if tombstoned_nodes g then negb <$> LiveSet.is_live (live_nodes g) (index n)
                   else mret false) = Ok false).
  { destruct (tombstoned_nodes g); [|done]. rewrite LiveSet.is_live_Ok by apply (inv_ln _ _ Hinv).
    unfold nlive in Hlive. by rewrite Hlive. }
  rewrite Hdead. rsimpl.
  pose proof (inv_csr _ _ Hinv d) as Hcsr.
  pose proof (inv_rings _ _ Hinv) as HR. pose proof (DeltaChains.rings_rep _ _ HR d (index n)) as Hrep.
  pose proof (DeltaChains.rings_nodup _ _ HR d (index n)) as Hnd.
  cbn [ax_chains ax_chain ax_offsets]. rewrite (DeltaChains.ends_spec _ _ _ _ Hrep).
  assert (HN : NONE ∉ L d (index n)).
  { intros Hin%ring_lt_NONE. by apply N.lt_irrefl in Hin. }
  set (bs := csr_run _ _ _).
  assert (Hoff : ∃ lo hi,
    (if decide (index n + 1 < length (offsets_of g d)) then
       lo ← vget (offsets_of g d) (index n);
       hi ← vget (offsets_of g d) (index n + 1); mret (lo, hi)
     else mret (0%N, 0%N)) = Ok (lo, hi) ∧
    index lo + length bs = index hi ∧ ∃ rest, drop (index lo) (run_edges_of g d) = bs ++ rest).
  { case_decide as Hlt.
    - destruct (lookup_lt_is_Some_2 (offsets_of g d) (index n)) as [lo Hlo]; [lia|].
      destruct (lookup_lt_is_Some_2 (offsets_of g d) (index n + 1)) as [hi Hhi]; [lia|].
      exists lo, hi. rewrite (vget_eq _ _ _ Hlo), (vget_eq _ _ _ Hhi). split; [done|].
      unfold bs, csr_run. rewrite Hlo, Hhi.
      assert (lo ≤ hi)%N by (eapply csr_mono; eauto; lia).
      pose proof (csr_hi _ _ _ _ _ _ Hcsr Hhi). split.
      + rewrite length_take, length_drop. unfold index in *. lia.
      + eexists. symmetry. apply take_drop.
    - exists 0%N, 0%N. split; [done|]. unfold bs, csr_run.
      rewrite (lookup_ge_None_2 _ (index n + 1)) by lia.
      destruct (offsets_of g d !! index n); split; try done; by eexists. }
  destruct Hoff as (lo & hi & -> & Hlen & Hdrop). rsimpl.
  destruct (L d (index n)) as [|x l] eqn:HL; eexists; (split; [done|]); split; cbn; try done.
  split_and!; [done|done|]. by destruct Hrep as (_&_&?&_).
Qed.

(** The walk over a live node. *)
Lemma adjacent_live n d :
  nlive g (index n) = true → (N.of_nat (length (run_of g d (index n))) ≤ U32_MAX)%N →
  ∃ w, adjacent g n d = Ok w ∧ walk_rep w (run_of g d (index n)) (L d (index n)) ∧
    w_live w = live_filter g ∧
    pending (w_live w) (w_delta_base w) (run_of g d (index n)) (L d (index n)) = adj g L d (index n).
Proof.
  intros Hlive Hlen. pose proof (nlive_lt _ Hlive) as Hn. unfold adjacent. rewrite overlay_Ok, axis_eq.
  rewrite (raw_index_eq (length (base_edges g))) by apply base_bound_max.
  assert (Hkept : filter (λ e, DeltaChains.kept (live_filter g) e = true) (raw g L d (index n))
                = filter (λ e, elive g e = true) (raw g L d (index n))).
  { apply filter_ext_in. intros e He. rewrite live_filter_kept; [done|]. eapply raw_lt, He. }
  destruct (cursor_Ok n d Hn Hlive) as (c & Hcur & Hc).
  rewrite axis_eq in Hcur, Hc. rewrite Hcur. rsimpl.
  assert (Hds : length (L d (index n)) ≤ length (DeltaChains.next (chains g))).
  { apply (DeltaChains.rings_length _ _ _ _ (inv_rings _ _ Hinv)). }
  destruct (overlay_of g (index n) d) as [run|] eqn:Hrun.
  - assert (Hov : run_of g d (index n) = run) by (unfold run_of; by rewrite Hrun). rewrite Hov in *.
    rewrite raw_index_eq by done. rsimpl.
    eexists. split; [done|]. split_and!; [|done|].
    + split_and!; [apply live_filter_wf| |done|intros; by eapply delta_base_add].
      destruct Hc as [_ _ H1 H2 H3]. split; cbn; [unfold index; lia| |done..].
      exists []. by rewrite app_nil_r.
    + cbn. unfold pending, adj. rewrite <-Hkept. unfold raw. by rewrite Hov.
  - rsimpl. eexists. split; [done|].
    assert (Hrun' : run_of g d (index n) = csr_run (offsets_of g d) (run_edges_of g d) (index n)).
    { unfold run_of. by rewrite Hrun. }
    rewrite <-Hrun' in Hc. split_and!; [|done|].
    + split_and!; [apply live_filter_wf|exact Hc|done|intros; by eapply delta_base_add].
    + cbn. unfold pending, adj. by rewrite <-Hkept.
Qed.

Lemma adjacency_live n d :
  nlive g (index n) = true → (N.of_nat (length (run_of g d (index n))) ≤ U32_MAX)%N →
  adjacency g d n = Ok (adj g L d (index n)).
Proof.
  intros Hn Hlen. unfold adjacency. destruct (adjacent_live n d Hn Hlen) as (w & -> & Hw & _ & <-).
  by apply collect_spec.
Qed.

End Walk_queries.

Section Core_queries.
Context g L (Hinv : core g L).

Lemma run_length d n : (N.of_nat (length (run_of g d n)) ≤ U32_MAX)%N.
Proof.
  assert (length (run_of g d n) ≤ edge_bound g) as Hlen.
  { apply NoDup_index_length; [apply (inv_run_nodup _ _ Hinv)|apply (inv_run_lt _ _ Hinv)]. }
  pose proof (inv_edge_max _ _ Hinv). unfold MAX_SLOTS, NONE in *. lia.
Qed.

Lemma raw_nodup d n : NoDup (raw g L d n).
Proof.
  apply NoDup_app. split_and!; [apply (inv_run_nodup _ _ Hinv)| |].
  - intros x Hx (y & -> & Hy)%list_elem_of_fmap.
    pose proof (inv_run_ring _ _ Hinv _ _ _ _ Hx Hy). lia.
  - apply NoDup_fmap_2; [intros ???; lia|].
    apply (DeltaChains.rings_nodup _ _ (inv_rings _ _ Hinv)).
Qed.

Lemma adj_nodup d n : NoDup (adj g L d n).
Proof. apply NoDup_filter, raw_nodup. Qed.

End Core_queries.

Section Queries.
Context g L (Hinv : inv g L).

Lemma elem_of_adj d n e :
  e ∈ adj g L d n ↔
  elive g e = true ∧ ∃ r, all_edges g !! index e = Some r ∧ index (endpoint d r) = n.
Proof.
  unfold adj. rewrite list_elem_of_filter. split.
  - intros [He Hr]. split; [done|]. by apply (inv_adj _ _ Hinv).
  - intros [He Hr]. split; [done|]. by apply (inv_adj _ _ Hinv).
Qed.

Lemma adj_dead d n : nlive g n = false → adj g L d n = [].
Proof.
  intros Hn. apply elem_of_nil_inv. intros e (He & r & Hr & Hend)%elem_of_adj.
  apply (inv_live_end _ _ Hinv _ _ d) in Hr; [|done]. congruence.
Qed.

(** The walk over a node's adjacency never panics or runs out of fuel, and
    reads exactly its live edges. *)
Lemma adjacent_Ok n d :
  index n < node_bound g →
  ∃ w bs ds, adjacent g n d = Ok w ∧ walk_rep w bs ds ∧
    w_live w = live_filter g ∧
    pending (w_live w) (w_delta_base w) bs ds = adj g L d (index n) ∧
    (nlive g (index n) = true → bs = run_of g d (index n) ∧ ds = L d (index n)).
Proof.
  intros Hn. destruct (nlive g (index n)) eqn:Hlive.
  { destruct (adjacent_live g L Hinv n d Hlive) as (w & Hw & Hrep & Hf & Hp); [apply (run_length _ _ Hinv)|].
    by exists w, (run_of g d (index n)), (L d (index n)). }
  unfold adjacent. rewrite (overlay_Ok _ _ Hinv), axis_eq.
  rewrite (raw_index_eq (length (base_edges g))) by apply (base_bound_max _ _ Hinv).
  assert (Hkept : ∀ (l : list N) d, (∀ e, e ∈ l → e ∈ raw g L d (index n)) →
    filter (λ e, DeltaChains.kept (live_filter g) e = true) l = filter (λ e, elive g e = true) l).
  { intros l d' Hsub. apply filter_ext_in. intros e He. rewrite (live_filter_kept _ _ Hinv); [done|].
    eapply (raw_lt _ _ Hinv), Hsub, He. }
  assert (Hov : ∀ run, overlay_of g (index n) d = Some run → run_of g d (index n) = run).
  { intros run Hrun. unfold run_of. by rewrite Hrun. }
  assert (Hrunlen : ∀ run, overlay_of g (index n) d = Some run →
    (N.of_nat (length run) ≤ U32_MAX)%N).
  { intros run Hrun%Hov. rewrite <-Hrun. apply (run_length _ _ Hinv). }
  assert (Htomb : tombstoned_nodes g = true).
  { destruct (tombstoned_nodes g) eqn:E; [done|]. by rewrite (not_tombstoned_nodes _ _ Hinv) in Hlive. }
  assert (Hcur : ∀ ax, cursor g n ax = Ok EXHAUSTED).
  { intros ax. unfold cursor. rewrite bool_decide_true, Htomb by done.
    rewrite LiveSet.is_live_Ok by apply (inv_ln _ _ Hinv). unfold nlive in Hlive. by rewrite Hlive. }
  rewrite Hcur. rsimpl. rewrite adj_dead by done.
  destruct (overlay_of g (index n) d) as [run|] eqn:Hrun.
  + rewrite raw_index_eq by (by apply Hrunlen). rsimpl.
    eexists _, run, []. split; [done|]. split_and!; [|done| |done].
    * split_and!; [apply (live_filter_wf _ _ Hinv)| |cbn; lia|set_solver].
      split; cbn; [unfold index; lia| |done|constructor|set_solver].
      exists []. by rewrite app_nil_r.
    * cbn. unfold pending. rewrite app_nil_r.
      rewrite (Hkept run d); [|unfold raw; rewrite (Hov _ eq_refl); set_solver].
      pose proof (adj_dead d _ Hlive) as Hd. unfold adj, raw in Hd.
      rewrite (Hov _ eq_refl), filter_app in Hd. by apply app_eq_nil in Hd as [? _].
  + rsimpl. eexists _, [], []. split; [done|]. split_and!; [|done|done|done].
    split_and!; [apply (live_filter_wf _ _ Hinv)| |cbn; lia|set_solver].
    split; cbn; [done|by eexists|done|constructor|set_solver].
Qed.

Lemma adjacency_Ok n d :
  index n < node_bound g → adjacency g d n = Ok (adj g L d (index n)).
Proof.
  intros Hn. unfold adjacency. destruct (adjacent_Ok n d Hn) as (w & bs & ds & -> & Hw & _ & <- & _).
  by apply collect_spec.
Qed.

End Queries.

(** ** What the views need *)

(** Live nodes list each live edge once from each of its endpoints, which are
    live: the mirrored adjacency the views promise. *)
Record mirrored g L : Prop := {
  mi_walkable :> walkable g L;
  mi_run_length : ∀ d n, (N.of_nat (length (run_of g d n)) ≤ U32_MAX)%N;
  mi_live_end : ∀ e r d, all_edges g !! index e = Some r → elive g e = true →
    nlive g (index (endpoint d r)) = true;
  mi_nodup : ∀ d n, nlive g n = true → NoDup (adj g L d n);
  mi_adj : ∀ d n e, nlive g n = true → e ∈ adj g L d n ↔
    elive g e = true ∧ ∃ r, all_edges g !! index e = Some r ∧ index (endpoint d r) = n;
}.

Lemma inv_mirrored g L : inv g L → mirrored g L.
Proof.
  intros Hinv. split; [apply Hinv|apply (run_length _ _ Hinv)|apply (inv_live_end _ _ Hinv)| |].
  - intros d n _. apply (adj_nodup _ _ Hinv).
  - intros d n e _. apply (elem_of_adj _ _ Hinv).
Qed.
End StoreInv.

Coercion inv_mirrored : inv >-> mirrored.
