(* ===== verification/StoreEdits.v ===== *)
(** * Appending and removing

    [Graph::add_node], [Graph::add_edge], [Graph::remove_edge] and
    [Graph::remove_node] keep the invariant. A new node has no edges and a new
    edge reads after the ones its endpoints had; a removal takes out exactly the
    edges that are gone. *)

From S2P Require Import Prelude Words Liveness Ids Chains Runs Store StoreInv.

Section StoreAppend.
Context {NP EP : Type}.
Implicit Types g : Graph NP EP.

Lemma elem_of_StronglySorted_snoc (l : list N) x :
  StronglySorted N.lt l → (∀ y, y ∈ l → (y < x)%N) → StronglySorted N.lt (l ++ [x]).
Proof.
  induction l as [|y l IH]; intros Hs Hx; cbn.
  - repeat constructor.
  - apply StronglySorted_inv in Hs as [Hs Hall]. constructor.
    + apply IH; [done|]. set_solver.
    + apply Forall_app. split; [done|]. constructor; [|done]. apply Hx. by left.
Qed.

Lemma add_node_spec g L p :
  inv g L → (N.of_nat (node_bound g) < MAX_SLOTS)%N →
  ∃ g', add_node g p = Ok (g', N.of_nat (node_bound g)) ∧ inv g' L ∧
    all_nodes g' = all_nodes g ++ [p] ∧ all_edges g' = all_edges g ∧
    (∀ n, nlive g' n = (nlive g n || bool_decide (n = node_bound g))) ∧
    (∀ e, elive g' e = elive g e) ∧ (∀ d n, adj g' L d n = adj g L d n).
Proof.
  intros Hinv Hmax. unfold add_node. rewrite bool_decide_true by done. rsimpl.
  destruct (LiveSet.push_live_spec _ (inv_ln _ _ Hinv)) as (s & -> & Hwf & Hlen & Hin). rsimpl.
  rewrite from_index_eq by (unfold MAX_SLOTS, NONE in Hmax; lia). rsimpl.
  eexists. split; [done|]. set (g' := set_live_nodes _ _ _).
  assert (Hbound : node_bound g' = S (node_bound g)).
  { unfold node_bound. cbn. rewrite length_app. cbn. lia. }
  assert (Hnl : ∀ n, nlive g' n = (nlive g n || bool_decide (n = node_bound g))).
  { intros n. unfold nlive. cbn. by rewrite Hin, (inv_ln_len _ _ Hinv). }
  split_and!; [|unfold all_nodes; cbn; by rewrite app_assoc|done|done|done|done].
  destruct Hinv as [[[H1 H2 H3 H4 H5 H6 H7 H8 H9 H10 H11 H12 H13 H14] H15 H17 H21] H16 H18 H19 H20].
  split; [split; [split|..]|..]; try done; rewrite ?Hbound.
  - cbn. lia.
  - cbn. rewrite H3. symmetry. by apply LiveSet.live_slots_push.
  - lia.
  - cbn. lia.
  - intros r d Hr. eapply Runs.wf_weaken; [|by apply (H13 r d)]. lia.
  - intros e r d Hr. specialize (H18 e r d Hr). lia.
  - intros e r d Hr He. rewrite Hnl. by rewrite (H19 e r d Hr He).
Qed.

(** The panic of a full store. *)
Lemma add_node_full g p :
  ¬ (N.of_nat (node_bound g) < MAX_SLOTS)%N →
  add_node g p = Panic "node count exceeds the dense identity space".
Proof. intros H. unfold add_node. by rewrite bool_decide_false. Qed.

Lemma add_edge_spec g L s t p :
  inv g L → nlive g (index s) = true → nlive g (index t) = true →
  (N.of_nat (edge_bound g) < MAX_SLOTS)%N →
  let e := N.of_nat (edge_bound g) in
  ∃ g' L', add_edge g s t p = Ok (g', e) ∧ inv g' L' ∧
    all_nodes g' = all_nodes g ∧ all_edges g' = all_edges g ++ [mk_EdgeRecord s t p] ∧
    (∀ n, nlive g' n = nlive g n) ∧
    (∀ x, elive g' x = (elive g x || bool_decide (x = e))) ∧
    (∀ d n, adj g' L' d n =
       if decide (n = index (endpoint d (mk_EdgeRecord s t p))) then adj g L d n ++ [e]
       else adj g L d n).
Proof.
  intros Hinv Hs Ht Hmax e. unfold add_edge.
  rewrite !(assert_live_endpoint_Ok g L Hinv) by done. rsimpl.
  rewrite bool_decide_true by done. rsimpl.
  set (m := N.of_nat (length (delta_edges g))).
  pose proof (nlive_lt _ _ Hinv _ Hs) as Hsb. pose proof (nlive_lt _ _ Hinv _ Ht) as Htb.
  destruct (DeltaChains.append_spec (chains g) L (index s) (index t) (node_bound g))
    as (c & -> & Hlast & Hnext & Hrings);
    [apply (inv_rings _ _ Hinv)|apply (inv_last _ _ Hinv)|done|done| |].
  { rewrite (inv_next _ _ Hinv). unfold edge_bound, MAX_SLOTS in Hmax. lia. }
  rsimpl. destruct (LiveSet.push_live_spec _ (inv_le _ _ Hinv)) as (ls & -> & Hwf & Hlen & Hin). rsimpl.
  rewrite from_index_eq by (unfold MAX_SLOTS, NONE in Hmax; lia). rsimpl.
  rewrite (inv_next _ _ Hinv) in Hrings, Hnext. fold m in Hrings.
  set (rec := mk_EdgeRecord s t p). set (L' := DeltaChains.extend L (index s) (index t) m).
  assert (HL' : ∀ d n, L' d n = if decide (n = index (endpoint d rec)) then L d n ++ [m] else L d n).
  { intros [] n; done. }
  eexists _, L'. split; [done|]. set (g' := set_live_edges _ _ _).
  assert (Hbound : edge_bound g' = S (edge_bound g)).
  { unfold edge_bound. cbn. rewrite length_app. cbn. lia. }
  assert (Hel : ∀ x, elive g' x = (elive g x || bool_decide (x = e))).
  { intros x. unfold elive. cbn. rewrite Hin, (inv_le_len _ _ Hinv). f_equal.
    apply bool_decide_ext. unfold index, e. lia. }
  assert (Hbm : (delta_base g + m = e)%N) by (unfold delta_base, m, e, edge_bound; lia).
  assert (Hall : all_edges g' = all_edges g ++ [rec]) by (unfold all_edges; cbn; by rewrite app_assoc).
  assert (Hraw : ∀ d n, raw g' L' d n =
            if decide (n = index (endpoint d rec)) then raw g L d n ++ [e] else raw g L d n).
  { intros d n. unfold raw. rewrite HL'. change (run_of g' d n) with (run_of g d n).
    change (delta_base g') with (delta_base g). case_decide; [|done].
    by rewrite fmap_app, app_assoc, <-Hbm. }
  assert (Hold : ∀ d n x, x ∈ raw g L d n → x ≠ e).
  { intros d n x Hx%(raw_lt _ _ Hinv) ->. unfold e, index in Hx. lia. }
  assert (Hadj : ∀ d n, adj g' L' d n =
            if decide (n = index (endpoint d rec)) then adj g L d n ++ [e] else adj g L d n).
  { intros d n. unfold adj. rewrite Hraw.
    assert (Hf : filter (λ x, elive g' x = true) (raw g L d n) = filter (λ x, elive g x = true) (raw g L d n)).
    { apply filter_ext_in. intros x Hx%Hold. rewrite Hel, bool_decide_false by done.
      by rewrite orb_false_r. }
    case_decide; [|done]. rewrite filter_app, Hf. f_equal. rewrite filter_cons_True; [done|].
    rewrite Hel, bool_decide_true by done. by rewrite orb_true_r. }
  split_and!; [|done|done|done|done|done].
  assert (Hie : index e = length (all_edges g)) by (rewrite length_all_edges; unfold e, index; lia).
  assert (Hlook : ∀ x r, all_edges g' !! x = Some r ↔
            all_edges g !! x = Some r ∨ x = index e ∧ r = rec).
  { intros x r. rewrite Hall, Hie, lookup_snoc_Some, <-Hie.
    split; [naive_solver|]. intros [Hx|[-> ->]]; [left|by right].
    split; [|done]. rewrite Hie. by eapply lookup_lt_Some. }
  pose proof Hinv as [[[H1 H2 H3 H4 H5 H6 H7 H8 H9 H10 H11 H12 H13 H14] H15 H17 H21] H16 H18 H19 H20].
  split; [split; [split|..]|..]; try done; rewrite ?Hbound.
  - cbn. lia.
  - cbn. rewrite H6. symmetry. by apply LiveSet.live_slots_push.
  - lia.
  - cbn. unfold node_bound in *. cbn. lia.
  - cbn. rewrite length_app. cbn. lia.
  - intros d n x Hx. specialize (H14 d n x Hx). lia.
  - intros d n x y Hx Hy. rewrite HL' in Hy. change (delta_base g') with (delta_base g).
    case_decide; [|by eapply H15]. apply elem_of_app in Hy as [Hy|Hy%list_elem_of_singleton];
      [by eapply H15|]. subst y. specialize (H14 d n x Hx). rewrite Hbm. unfold e, index in *. lia.
  - intros d n. rewrite HL'. case_decide; [|done]. apply elem_of_StronglySorted_snoc; [done|].
    intros y Hy%(ring_lt _ _ Hinv). unfold m, index in *. lia.
  - intros d n x Hx. rewrite HL' in Hx. cbn [delta_edges set_live_edges g' set_chains set_delta_edges].
    assert (Hx' : x ∈ L d n ∨ x = m ∧ n = index (endpoint d rec)).
    { case_decide; [|by left]. apply elem_of_app in Hx as [?|?%list_elem_of_singleton]; naive_solver. }
    destruct Hx' as [Hx'|[-> ->]].
    + destruct (H16 d n x Hx') as (r & Hr & Hn). exists r. split; [|done]. by apply lookup_app_l_Some.
    + exists rec. split; [|done]. unfold m, index. rewrite Nat2N.id. by apply list_lookup_middle.
  - intros x r d [Hr|[-> ->]]%Hlook; [by eapply H18|]. by destruct d.
  - intros x r d Hr Hx. change (nlive g' ?n) with (nlive g n).
    apply Hlook in Hr as [Hr|[_ ->]]; [|by destruct d].
    eapply H19; [done|]. rewrite Hel in Hx. apply orb_true_iff in Hx as [Hx|Hx]; [done|].
    apply bool_decide_eq_true in Hx as ->. apply lookup_lt_Some in Hr. lia.
  - intros d n x Hx. rewrite Hraw. rewrite Hel in Hx. apply orb_true_iff in Hx as [Hx|Hx].
    + pose proof (elive_lt _ _ Hinv _ Hx) as Hlt.
      assert (Hxe : x ≠ e) by (intros ->; unfold e, index in Hlt; lia).
      assert (Hxi : index x ≠ index e) by (intros ?%N2Nat.inj; done).
      transitivity (x ∈ raw g L d n).
      { case_decide; [|done]. rewrite elem_of_app, list_elem_of_singleton. naive_solver. }
      rewrite H20 by done. setoid_rewrite Hlook. naive_solver.
    + apply bool_decide_eq_true in Hx as ->. setoid_rewrite Hlook. split.
      * case_decide as Hd; [|by intros ?%Hold]. intros _. exists rec. auto.
      * intros (r & [Hr|[_ ->]] & Hn); [apply lookup_lt_Some in Hr; lia|].
        rewrite decide_True by done. apply elem_of_app. right. by apply list_elem_of_singleton.
Qed.

End StoreAppend.

(** * Removing edges and nodes

    [Graph::remove_edge], [Graph::clear_adjacency] and [Graph::remove_node]
    keep the invariant: removal clears liveness bits and nothing else moves. *)


Section StoreRemove.
Context {NP EP : Type}.
Implicit Types g : Graph NP EP.

(** [g'] is [g] with the edges of [gone] removed. *)
Record without g g' (L : TraversalDirection → nat → list N) (gone : N → bool) : Prop := mk_without {
  wo_inv : inv g' L;
  wo_nodes : all_nodes g' = all_nodes g;
  wo_edges : all_edges g' = all_edges g;
  wo_nlive : ∀ n, nlive g' n = nlive g n;
  wo_elive : ∀ e, elive g' e = (elive g e && negb (gone e));
  wo_raw : ∀ d n, raw g' L d n = raw g L d n;
}.

Lemma without_adj g g' L gone d n :
  without g g' L gone → adj g' L d n = filter (λ e, gone e = false) (adj g L d n).
Proof.
  intros Hw. unfold adj. rewrite (wo_raw _ _ _ _ Hw), list_filter_filter.
  apply filter_ext_in. intros e _. rewrite (wo_elive _ _ _ _ Hw), andb_true_iff, negb_true_iff. tauto.
Qed.

Lemma without_refl g L : inv g L → without g g L (λ _, false).
Proof. intros. split; try done. intros e. by rewrite andb_true_r. Qed.

Lemma without_trans g1 g2 g3 L gone1 gone2 :
  without g1 g2 L gone1 → without g2 g3 L gone2 →
  without g1 g3 L (λ e, gone1 e || gone2 e).
Proof.
  intros [] []. split; try congruence.
  intros e. rewrite wo_elive1, wo_elive0, negb_orb. by rewrite andb_assoc.
Qed.

Lemma without_ext g g' L gone gone' :
  (∀ e, elive g e = true → gone e = gone' e) → without g g' L gone → without g g' L gone'.
Proof.
  intros He []. split; try done. intros e. rewrite wo_elive0.
  destruct (elive g e) eqn:E; [|done]. by rewrite He.
Qed.

(** Retiring an edge reports whether it was live and removes exactly it. *)
Lemma retire_edge_spec g L e :
  inv g L →
  ∃ g', retire_edge g (index e) = Ok (g', elive g e) ∧
    without g g' L (λ x, bool_decide (x = e)).
Proof.
  intros Hinv. unfold retire_edge.
  destruct (LiveSet.clear_spec _ (index e) (inv_le _ _ Hinv)) as (s & -> & Hwf & Hlen & Hin). rsimpl.
  fold (elive g e). destruct (elive g e) eqn:He; rsimpl.
  2:{ exists g. split; [done|]. eapply without_ext; [|by apply without_refl].
      intros x Hx. rewrite bool_decide_false; [done|]. intros ->; congruence. }
  pose proof (LiveSet.live_slots_clear _ _ _ (inv_le _ _ Hinv) Hwf He Hin) as Hcount.
  rewrite <-(inv_le_count _ _ Hinv) in Hcount.
  rewrite decide_False by lia. rsimpl. eexists. split; [done|]. set (g' := set_live_edges _ _ _).
  assert (Hel : ∀ x, elive g' x = (elive g x && negb (bool_decide (x = e)))).
  { intros x. unfold elive. cbn. rewrite Hin. do 2 f_equal. apply bool_decide_ext.
    split; [apply N2Nat.inj|by intros ->]. }
  split; try done.
  assert (Hsub : ∀ x, elive g' x = true → elive g x = true).
  { intros x. rewrite Hel. by intros [? _]%andb_true_iff. }
  destruct Hinv as [[[H1 H2 H3 H4 H5 H6 H7 H8 H9 H10 H11 H12 H13 H14] H15 H17 H21] H16 H18 H19 H20].
  split; [split; [split|..]|..]; try done.
  - cbn. by rewrite Hlen.
  - cbn. lia.
  - intros x r d Hr Hx. change (nlive g' ?n) with (nlive g n). by eapply H19; [|apply Hsub].
  - intros d n x Hx. by apply H20, Hsub.
Qed.

(** Retiring a list of edges removes exactly them. *)
Lemma retire_all_spec g L es :
  inv g L →
  ∃ g', rfold (λ g e, fst <$> retire_edge g (index e)) g es = Ok g' ∧
    without g g' L (λ x, bool_decide (x ∈ es)).
Proof.
  revert g. induction es as [|e es IH]; intros g Hinv; cbn [rfold].
  - exists g. split; [done|]. eapply without_ext; [|by apply without_refl]. done.
  - destruct (retire_edge_spec g L e Hinv) as (g1 & -> & Hw1). rsimpl. cbn [fst].
    destruct (IH g1 (wo_inv _ _ _ _ Hw1)) as (g2 & -> & Hw2). exists g2. split; [done|].
    eapply without_ext; [|by eapply without_trans]. intros x _. cbn.
    apply eq_true_iff_eq. rewrite orb_true_iff, !bool_decide_eq_true, elem_of_cons. done.
Qed.

Lemma clear_adjacency_spec g L n d :
  inv g L → index n < node_bound g →
  ∃ g', clear_adjacency g n d = Ok g' ∧
    without g g' L (λ x, bool_decide (x ∈ adj g L d (index n))).
Proof.
  intros Hinv Hn. unfold clear_adjacency. rewrite (adjacency_Ok g L) by done. rsimpl.
  by apply retire_all_spec.
Qed.

(** An edge is incident to [n] when it is filed under it in either direction. *)
Definition incident g L (n : nat) (e : N) : bool :=
  bool_decide (e ∈ adj g L Outgoing n ∨ e ∈ adj g L Incoming n).

Lemma without_bound g g' L gone : without g g' L gone → node_bound g' = node_bound g.
Proof. intros Hw. by rewrite <-!length_all_nodes, (wo_nodes _ _ _ _ Hw). Qed.

Lemma remove_node_dead g L n :
  inv g L → nlive g (index n) = false → remove_node g n = Ok (g, false).
Proof. intros Hinv Hn. unfold remove_node. by rewrite (node_is_live_Ok g L Hinv), Hn. Qed.

(** Removing a live node removes its edges and clears its own bit. *)
Lemma remove_node_spec g L n :
  inv g L → nlive g (index n) = true →
  ∃ g', remove_node g n = Ok (g', true) ∧ inv g' L ∧
    all_nodes g' = all_nodes g ∧ all_edges g' = all_edges g ∧
    (∀ m, nlive g' m = (nlive g m && negb (bool_decide (m = index n)))) ∧
    (∀ e, elive g' e = (elive g e && negb (incident g L (index n) e))) ∧
    (∀ d m, adj g' L d m = filter (λ e, incident g L (index n) e = false) (adj g L d m)).
Proof.
  intros Hinv Hn. pose proof (nlive_lt _ _ Hinv _ Hn) as Hb. unfold remove_node.
  rewrite (node_is_live_Ok g L Hinv), Hn. rsimpl.
  destruct (clear_adjacency_spec g L n Outgoing Hinv Hb) as (g1 & -> & Hw1). rsimpl.
  pose proof (wo_inv _ _ _ _ Hw1) as Hinv1.
  destruct (clear_adjacency_spec g1 L n Incoming Hinv1) as (g2 & -> & Hw2);
    [by rewrite (without_bound _ _ _ _ Hw1)|]. rsimpl.
  assert (Hw : without g g2 L (incident g L (index n))).
  { eapply without_ext; [|by eapply without_trans]. intros e He. cbn. unfold incident.
    apply eq_true_iff_eq. rewrite orb_true_iff, !bool_decide_eq_true.
    rewrite (without_adj _ _ _ _ _ _ Hw1), list_elem_of_filter, bool_decide_eq_false. 
    destruct (decide (e ∈ adj g L Outgoing (index n))); naive_solver. }
  clear Hw1 Hw2 Hinv1 g1. pose proof (wo_inv _ _ _ _ Hw) as Hinv2.
  destruct (LiveSet.clear_spec _ (index n) (inv_ln _ _ Hinv2)) as (s & -> & Hwf & Hlen & Hin). rsimpl.
  fold (nlive g2 (index n)) in *.
  assert (Hn2 : nlive g2 (index n) = true) by (by rewrite (wo_nlive _ _ _ _ Hw)).
  pose proof (LiveSet.live_slots_clear _ _ _ (inv_ln _ _ Hinv2) Hwf Hn2 Hin) as Hcount.
  rewrite <-(inv_ln_count _ _ Hinv2) in Hcount.
  rewrite decide_False by lia. rsimpl. eexists. split; [done|]. set (g' := set_live_nodes _ _ _).
  assert (Hnl : ∀ m, nlive g' m = (nlive g m && negb (bool_decide (m = index n)))).
  { intros m. unfold nlive at 1. cbn. rewrite Hin. fold (nlive g2 m). by rewrite (wo_nlive _ _ _ _ Hw). }
  split_and!.
  - destruct Hinv2 as [[[H1 H2 H3 H4 H5 H6 H7 H8 H9 H10 H11 H12 H13 H14] H15 H17 H21] H16 H18 H19 H20].
    split; [split; [split|..]|..]; try done.
    + cbn. by rewrite Hlen.
    + cbn. lia.
    + intros e r d Hr He. change (all_edges g') with (all_edges g2) in Hr.
      change (elive g' e) with (elive g2 e) in He.
      rewrite Hnl, <-(wo_nlive _ _ _ _ Hw), (H19 e r d Hr He). cbn.
      rewrite bool_decide_false; [done|]. intros Hbad.
      rewrite (wo_elive _ _ _ _ Hw) in He. apply andb_true_iff in He as [He Hni].
      apply negb_true_iff, bool_decide_eq_false in Hni. apply Hni.
      rewrite (wo_edges _ _ _ _ Hw) in Hr.
      destruct d; [left|right]; apply elem_of_adj; eauto.
  - apply (wo_nodes _ _ _ _ Hw).
  - apply (wo_edges _ _ _ _ Hw).
  - done.
  - apply (wo_elive _ _ _ _ Hw).
  - intros d m. change (adj g' L d m) with (adj g2 L d m). by apply without_adj.
Qed.

End StoreRemove.
