(* ===== verification/StoreOverlay.v ===== *)
(** * Overlay runs

    The building blocks of [graph/store/relocate.rs]: a node's first run, the
    sweeps that drop removed edges from it, the edits that go through
    [Graph::with_run], and writing an edge record. They keep the columns in
    agreement with each other ([core]); whether the edges agree with their
    records is up to the edit. *)

From S2P Require Import Prelude Words Liveness Ids Chains Runs Store StoreInv.

Section StoreOverlay.
Context {NP EP : Type}.
Implicit Types g : Graph NP EP.
Abbreviation chain_map := (TraversalDirection → nat → list N).

(** The entries of a run that a liveness set keeps. *)
Definition keep (live : option LiveSet.t) (run : list N) : list N :=
  filter (λ e, DeltaChains.kept live e = true) run.

Lemma keep_None run : keep None run = run.
Proof. by apply filter_all. Qed.

Lemma keep_idemp live run : keep live (keep live run) = keep live run.
Proof. apply filter_all. intros x [Hx _]%list_elem_of_filter. done. Qed.

Lemma keep_app live r1 r2 : keep live (r1 ++ r2) = keep live r1 ++ keep live r2.
Proof. apply filter_app. Qed.

Lemma retain_live_Ok set run :
  LiveSet.wf set → retain_live set run = Ok (keep (Some set) run).
Proof.
  intros Hwf. unfold retain_live.
  cut (∀ acc, rfold (λ acc e, keep ← LiveSet.is_live set (index e);
         mret (if (keep : bool) then acc ++ [e] else acc)) acc run = Ok (acc ++ keep (Some set) run)).
  { intros H. by rewrite H. }
  induction run as [|e run IH]; intros acc; cbn [rfold].
  - by rewrite app_nil_r.
  - rewrite LiveSet.is_live_Ok by done. rsimpl. rewrite IH. f_equal.
    unfold keep. rewrite filter_kept_cons. cbn.
    destruct (LiveSet.live_in set (index e)); [by rewrite <-app_assoc|done].
Qed.

Lemma sublist_keep live run : keep live run `sublist_of` run.
Proof. apply sublist_filter. Qed.

(** Sweeping may drop removed edges and nothing else. *)
Lemma sweep_Ok run live :
  DeltaChains.live_wf live →
  ∃ run', sweep run live = Ok run' ∧ run' `sublist_of` run ∧ keep live run' = keep live run.
Proof.
  intros Hwf. unfold sweep. destruct live as [set|]; [|by exists run].
  destruct (is_power_of_two (length run)); [|by exists run].
  rewrite retain_live_Ok by done. eexists. split; [done|].
  split; [apply sublist_keep|apply keep_idemp].
Qed.

Lemma remove_position_spec (run : list N) e :
  NoDup run → remove_position run e = filter (λ x, x ≠ e) run.
Proof.
  unfold remove_position. intros Hnd. destruct (list_find (.= e) run) as [[i x]|] eqn:Hf.
  - apply list_find_Some in Hf as (Hx & -> & Hlt).
    rewrite <-(take_drop_middle _ _ _ Hx) at 2. rewrite delete_take_drop, filter_app.
    rewrite filter_cons_False by naive_solver.
    pose proof (take_drop_middle _ _ _ Hx) as Hsplit. rewrite <-Hsplit in Hnd.
    apply NoDup_app in Hnd as (_ & Hdis & [Hni _]%NoDup_cons).
    rewrite !filter_all; [done| |].
    + intros y Hy ->. done.
    + intros y Hy ->. apply (Hdis e Hy). by left.
  - apply list_find_None in Hf. rewrite filter_all; [done|].
    intros x Hx. rewrite Forall_forall in Hf. by apply Hf.
Qed.

Lemma base_run_Ok g L n d :
  core g L → base_run g n d = Ok (csr_run (offsets_of g d) (run_edges_of g d) n).
Proof.
  intros Hinv. pose proof (inv_csr _ _ Hinv d) as Hcsr. unfold base_run, csr_run.
  rewrite axis_eq. cbn [ax_offsets ax_edges]. case_decide as Hlt.
  - destruct (lookup_lt_is_Some_2 (offsets_of g d) n) as [lo Hlo]; [lia|].
    destruct (lookup_lt_is_Some_2 (offsets_of g d) (n + 1)) as [hi Hhi]; [lia|].
    rewrite (vget_eq _ _ _ Hlo), (vget_eq _ _ _ Hhi), Hlo, Hhi. rsimpl.
    assert (lo ≤ hi)%N by (eapply csr_mono; eauto; lia).
    pose proof (csr_hi _ _ _ _ _ _ Hcsr Hhi). by rewrite decide_True.
  - rewrite (lookup_ge_None_2 _ (n + 1)) by lia. by destruct (offsets_of g d !! n).
Qed.

Lemma live_base_run_Ok g L n d :
  core g L →
  live_base_run g n d =
    Ok (keep (live_filter g) (csr_run (offsets_of g d) (run_edges_of g d) (index n))).
Proof.
  intros Hinv. unfold live_base_run. rewrite (base_run_Ok g L) by done. rsimpl.
  pose proof (live_filter_wf g L Hinv) as Hwf. destruct (live_filter g) as [set|].
  - by apply retain_live_Ok.
  - by rewrite keep_None.
Qed.

(** ** Editing a run *)

(** The complete current adjacency of a node as an edit finds it. *)
Definition full_run g (L : chain_map) (d : TraversalDirection) (n : nat) : list N :=
  match overlay_of g n d with
  | Some run => run
  | None => keep (live_filter g) (csr_run (offsets_of g d) (run_edges_of g d) n)
  end ++ keep (live_filter g) (N.add (delta_base g) <$> L d n).

Lemma full_run_sublist g L d n : full_run g L d n `sublist_of` raw g L d n.
Proof.
  unfold full_run, raw, run_of. apply sublist_app; [|apply sublist_keep].
  destruct (overlay_of g n d); cbn; [done|apply sublist_keep].
Qed.

Lemma full_run_keep g L d n :
  keep (live_filter g) (full_run g L d n) = keep (live_filter g) (raw g L d n).
Proof.
  unfold full_run, raw, run_of. rewrite !keep_app, keep_idemp.
  destruct (overlay_of g n d); cbn; [done|by rewrite keep_idemp].
Qed.

Lemma keep_adj g L d n (l : list N) :
  core g L → l `sublist_of` raw g L d n →
  keep (live_filter g) l = filter (λ e, elive g e = true) l.
Proof.
  intros Hinv Hsub. apply filter_ext_in. intros e He. rewrite (live_filter_kept _ _ Hinv); [done|].
  eapply (raw_lt _ _ Hinv). eapply sublist_subseteq; done.
Qed.

Lemma runs_along_set d d' v r :
  runs_along (set_runs_along d v r) d' = if decide (d' = d) then v else runs_along r d'.
Proof. by destruct d, d'. Qed.

Lemma start_run_spec g L n d :
  core g L → index n < node_bound g → overlay_of g (index n) d = None →
  ∃ rel, start_run g n d = Ok (set_relocations (Some rel) g) ∧
    (∀ d', Runs.wf (runs_along rel d') (node_bound g)) ∧
    ∀ d' m, Runs.run_of (runs_along rel d') m =
      if decide (d' = d ∧ m = index n)
      then Some (keep (live_filter g) (csr_run (offsets_of g d) (run_edges_of g d) (index n)))
      else overlay_of g m d'.
Proof.
  intros Hinv Hn Hnone. unfold start_run. rewrite (live_base_run_Ok g L) by done. rsimpl.
  set (rel := default Relocations_default (relocations g)).
  assert (Hwf : ∀ d', Runs.wf (runs_along rel d') (node_bound g)).
  { intros d'. unfold rel. destruct (relocations g) eqn:Hr; cbn.
    - by apply (inv_reloc _ _ Hinv).
    - destruct d'; apply Runs.default_wf. }
  assert (Hof : ∀ d' m, Runs.run_of (runs_along rel d') m = overlay_of g m d').
  { intros d' m. unfold rel, overlay_of. destruct (relocations g); cbn; [done|by destruct d']. }
  destruct (Runs.insert_spec (runs_along rel d) (node_bound g) (index n)
    (keep (live_filter g) (csr_run (offsets_of g d) (run_edges_of g d) (index n))))
    as (r' & -> & Hwf' & Hof').
  { apply Hwf. } { done. }
  { pose proof (inv_node_max _ _ Hinv). unfold MAX_SLOTS, NONE in *. lia. }
  { by rewrite Hof. }
  rsimpl. eexists. split; [done|]. split.
  - intros d'. rewrite runs_along_set. case_decide; [done|apply Hwf].
  - intros d' m. rewrite runs_along_set. destruct (decide (d' = d)) as [->|Hd].
    + rewrite Hof', Hof. repeat case_decide; naive_solver.
    + rewrite Hof. by rewrite decide_False by naive_solver.
Qed.

(** An edit replaces its node's run, takes over its chain and leaves every
    other column alone. *)
Lemma with_run_spec {R} g L n d (edit : list N → option LiveSet.t → res (R * list N)) r run' :
  core g L → index n < node_bound g →
  edit (full_run g L d (index n)) (live_filter g) = Ok (r, run') →
  (∀ e, e ∈ run' → index e < edge_bound g) → NoDup run' →
  ∃ rel c, let g' := set_relocations (Some rel) (set_chains c g) in
    with_run g n d edit = Ok (g', r) ∧ core g' (DeltaChains.forget L d (index n)) ∧
    ∀ d' m, run_of g' d' m = if decide (d' = d ∧ m = index n) then run' else run_of g d' m.
Proof.
  intros Hinv Hn Hedit Hlt Hnd. unfold with_run. rewrite (overlay_Ok g L Hinv). rsimpl.
  (* the state once the node has a run *)
  assert (Hstart : ∃ rel,
    (match overlay_of g (index n) d with Some _ => mret g | None => start_run g n d end) =
      Ok (set_relocations (Some rel) g) ∧
    (∀ d', Runs.wf (runs_along rel d') (node_bound g)) ∧
    (∀ d' m, ¬ (d' = d ∧ m = index n) → Runs.run_of (runs_along rel d') m = overlay_of g m d') ∧
    Runs.run_of (runs_along rel d) (index n) = Some (match overlay_of g (index n) d with
      | Some run => run
      | None => keep (live_filter g) (csr_run (offsets_of g d) (run_edges_of g d) (index n)) end)).
  { destruct (overlay_of g (index n) d) as [run|] eqn:Ho.
    - unfold overlay_of in Ho. destruct (relocations g) as [rel|] eqn:Hr; [|done]. cbn in Ho.
      exists rel. split_and!; [|intros; by apply (inv_reloc _ _ Hinv)| |done].
      + destruct g; cbn in *. by subst.
      + intros d' m _. unfold overlay_of. by rewrite Hr.
    - destruct (start_run_spec g L n d Hinv Hn Ho) as (rel & -> & Hwf & Hof).
      exists rel. split_and!; [done|done| |].
      + intros d' m Hne. by rewrite Hof, decide_False.
      + by rewrite Hof, decide_True. }
  destruct Hstart as (rel & -> & Hwf & Hother & Hself). rsimpl.
  set (g1 := set_relocations (Some rel) g).
  change (length (base_edges g1)) with (length (base_edges g)).
  rewrite (raw_index_eq (length (base_edges g))) by apply (base_bound_max _ _ Hinv). rsimpl.
  change (live_filter g1) with (live_filter g). unfold overlay at 1. cbn [relocations g1 set_relocations].
  rewrite (Runs.get_Ok _ _ _ (Hwf d)), Hself. rsimpl. cbn [expect]. rsimpl.
  destruct (DeltaChains.drain_into_spec (chains g) L d (index n) (delta_base g) (live_filter g)
    (match overlay_of g (index n) d with
      | Some run => run
      | None => keep (live_filter g) (csr_run (offsets_of g d) (run_edges_of g d) (index n)) end))
    as (c & Hdrain & Hrings & Hlast & Hnext);
    [apply (inv_rings _ _ Hinv)|apply (live_filter_wf _ _ Hinv)|intros; by eapply (delta_base_add _ _ Hinv)|].
  unfold delta_base in Hdrain. change (chains g1) with (chains g). rewrite Hdrain. rsimpl.
  fold (delta_base g).
  change (_ ++ filter _ _) with (full_run g L d (index n)). rewrite Hedit. rsimpl. cbn [expect]. rsimpl.
  destruct (Runs.put_spec _ _ _ _ run' (Hwf d) Hself) as (runs' & -> & Hwf' & Hof'). rsimpl.
  cbn [expect]. rsimpl. eexists (set_runs_along d runs' rel), c. cbv zeta. split; [done|].
  set (g' := set_relocations _ _).
  assert (Hrun : ∀ d' m, run_of g' d' m = if decide (d' = d ∧ m = index n) then run' else run_of g d' m).
  { intros d' m. unfold run_of, overlay_of at 1. cbn [relocations g' set_relocations mbind option_bind].
    rewrite runs_along_set. destruct (decide (d' = d)) as [->|Hd].
    - rewrite Hof'. destruct (decide (m = index n)) as [->|Hm].
      + by rewrite decide_True.
      + rewrite decide_False by naive_solver. rewrite Hother by naive_solver. done.
    - rewrite decide_False by naive_solver. rewrite Hother by naive_solver. done. }
  split; [|done].
  pose proof Hinv as [[H1 H2 H3 H4 H5 H6 H7 H8 H9 H10 H11 H12 H13 H14] H15 H17 H21].
  split; [split|..]; try done.
  - cbn. by rewrite Hlast.
  - cbn. by rewrite Hnext.
  - intros r0 d' Hr. injection Hr as <-. rewrite runs_along_set. case_decide; [done|apply Hwf].
  - intros d' m e. rewrite Hrun. case_decide; [apply Hlt|apply H14].
  - intros d' m x y. rewrite Hrun. unfold DeltaChains.forget.
    case_decide; [by intros _ ?%elem_of_nil|apply H15].
  - intros d' m. unfold DeltaChains.forget. case_decide; [constructor|done].
  - intros d' m. rewrite Hrun. by case_decide.
Qed.

(** ** Writing an edge record *)

Lemma edge_mut_spec g L e r f :
  core g L → all_edges g !! index e = Some r →
  ∃ g', edge_mut g e f = Ok g' ∧ core g' L ∧
    all_edges g' = alter f (index e) (all_edges g) ∧
    all_nodes g' = all_nodes g ∧
    delta_base g' = delta_base g ∧
    (∀ n, nlive g' n = nlive g n) ∧ (∀ x, elive g' x = elive g x) ∧
    live_filter g' = live_filter g ∧ 
    (∀ d m, run_of g' d m = run_of g d m) ∧
    (∀ d m, full_run g' L d m = full_run g L d m).
Proof.
  intros Hinv Hr. unfold edge_mut, all_edges in *. case_decide as Hlt.
  - rewrite lookup_app_l in Hr by done. rewrite (vget_eq _ _ _ Hr). rsimpl.
    rewrite vset_lt by done. rsimpl. eexists. split; [done|].
    assert (Hlen : length (<[index e:=f r]> (base_edges g)) = length (base_edges g)) by apply length_insert.
    assert (Hb : delta_base (set_base_edges (<[index e:=f r]> (base_edges g)) g) = delta_base g).
    { unfold delta_base. cbn. by rewrite Hlen. }
    assert (Hlf : live_filter (set_base_edges (<[index e:=f r]> (base_edges g)) g) = live_filter g).
    { unfold live_filter, tombstoned_edges, edge_bound. cbn. by rewrite Hlen. }
    split_and!; try done.
    + destruct Hinv as [[] ???]. split; [split|..]; try done; unfold edge_bound, node_bound in *; cbn; rewrite ?Hlen, ?Hb; auto.
    + cbn. rewrite alter_app_l by done. by rewrite (list_insert_alter_Some f).
    + intros d m. unfold full_run. rewrite Hlf, Hb. done.
  - rewrite lookup_app_r in Hr by lia. rewrite (vget_eq _ _ _ Hr). rsimpl.
    rewrite vset_lt by (by eapply lookup_lt_Some). rsimpl. eexists. split; [done|].
    set (v := <[_:=f r]> _).
    assert (Hlen : length v = length (delta_edges g)) by apply length_insert.
    assert (Hlf : live_filter (set_delta_edges v g) = live_filter g).
    { unfold live_filter, tombstoned_edges, edge_bound. cbn. by rewrite Hlen. }
    split_and!; try done.
    + destruct Hinv as [[] ???]. split; [split|..]; try done; unfold edge_bound, node_bound in *; cbn; rewrite ?Hlen; auto.
    + cbn. rewrite alter_app_r_alt by lia. f_equal. by apply list_insert_alter_Some.
    + intros d m. unfold full_run. rewrite Hlf. done.
Qed.

End StoreOverlay.
