(* ===== verification/StoreRedirect.v ===== *)
(** * Redirecting edges and writing payloads

    [Graph::redirect_edge_source], [Graph::redirect_edge_target] and
    [Graph::move_adjacency] keep the invariant: a moved edge keeps its
    identity and payload and reads after the edges its new node had. Payload
    writes keep it too. *)

From S2P Require Import Prelude Words Liveness Ids Chains Runs Store StoreInv StoreOverlay.

Section StoreRedirect.
Context {NP EP : Type}.
Implicit Types g : Graph NP EP.
Abbreviation chain_map := (TraversalDirection → nat → list N).

Lemma endpoint_set {E} d d' n (r : EdgeRecord E) :
  endpoint d' (set_endpoint d n r) = if decide (d' = d) then n else endpoint d' r.
Proof. by destruct d, d'. Qed.

Lemma delta_lookup g x :
  delta_edges g !! index x = all_edges g !! index (delta_base g + x)%N.
Proof.
  unfold all_edges, delta_base. rewrite lookup_app_r by (unfold index; lia).
  f_equal. unfold index. lia.
Qed.

(** ** The common part of every move *)

(** The edges [M] of node [old] now belong to node [n]: when the adjacency
    says so, the invariant holds again. *)
Lemma moved_inv g L g' L' d old n (M : list N) :
  inv g L → core g' L' → nlive g (index n) = true → index n ≠ old →
  node_bound g' = node_bound g → delta_base g' = delta_base g →
  (∀ m, nlive g' m = nlive g m) → (∀ x, elive g' x = elive g x) →
  (∀ x, all_edges g' !! index x =
     (if decide (x ∈ M) then set_endpoint d n else id) <$> all_edges g !! index x) →
  (∀ x, x ∈ M → x ∈ adj g L d old) →
  (∀ d' m x, x ∈ L' d' m → x ∈ L d' m ∧ ¬ (d' = d ∧ m = old)) →
  (∀ d' m, adj g' L' d' m =
     if decide (d' = d ∧ m = old) then filter (λ x, x ∉ M) (adj g L d m)
     else if decide (d' = d ∧ m = index n) then adj g L d m ++ M else adj g L d' m) →
  inv g' L'.
Proof.
  intros Hinv Hcore Hn Hne Hnb Hdb Hnl Hel Hall HM HL Hadj.
  pose proof (nlive_lt _ _ Hinv _ Hn) as Hnlt.
  assert (HMr : ∀ x, x ∈ M → elive g x = true ∧
            ∃ r, all_edges g !! index x = Some r ∧ index (endpoint d r) = old).
  { intros x Hx. by apply (elem_of_adj g L Hinv), HM. }
  assert (Hlook : ∀ x r', all_edges g' !! index x = Some r' → ∃ r,
    all_edges g !! index x = Some r ∧ r' = if decide (x ∈ M) then set_endpoint d n r else r).
  { intros x r'. rewrite Hall. intros (r & Hr & ->)%fmap_Some. exists r. by case_decide. }
  split; [done|..].
  - intros d' m x Hx. apply HL in Hx as (Hx & Hnp).
    destruct (inv_ring_end _ _ Hinv _ _ _ Hx) as (r & Hr & Hend).
    rewrite delta_lookup in Hr |- *. rewrite Hdb, Hall, Hr. cbn. eexists. split; [done|].
    case_decide as HxM; [|done]. rewrite endpoint_set. case_decide; [|done]. subst d'.
    destruct (HMr _ HxM) as (_ & r' & Hr' & Hend'). exfalso. apply Hnp. split; [done|]. congruence.
  - intros x r' d' Hx. rewrite <-(Nat2N.id x) in Hx. apply Hlook in Hx as (r & Hr & ->). rewrite Hnb.
    pose proof (inv_endpoints _ _ Hinv _ _ d' Hr).
    case_decide; [|done]. rewrite endpoint_set. by case_decide.
  - intros x r' d' Hx Hxl. rewrite Hel in Hxl. rewrite Hnl. apply Hlook in Hx as (r & Hr & ->).
    pose proof (inv_live_end _ _ Hinv _ _ d' Hr Hxl).
    case_decide; [|done]. rewrite endpoint_set. by case_decide.
  - intros d' m x Hx. rewrite Hel in Hx.
    transitivity (x ∈ adj g' L' d' m).
    { unfold adj. rewrite list_elem_of_filter, Hel. tauto. }
    rewrite Hadj, Hall.
    assert (Hga : ∀ d0 m0, x ∈ adj g L d0 m0 ↔
              ∃ r, all_edges g !! index x = Some r ∧ index (endpoint d0 r) = m0).
    { intros d0 m0. rewrite (elem_of_adj g L Hinv). tauto. }
    destruct (decide (x ∈ M)) as [HxM|HxM].
    + destruct (HMr _ HxM) as (_ & r & Hr & Hend). rewrite Hr in Hga |- *. cbn.
      transitivity (index (endpoint d' (set_endpoint d n r)) = m); [|naive_solver].
      rewrite endpoint_set. repeat case_decide;
        rewrite ?list_elem_of_filter, ?elem_of_app, ?Hga; naive_solver.
    + rewrite option_fmap_id, <-Hga.
      repeat case_decide; rewrite ?list_elem_of_filter, ?elem_of_app; naive_solver.
Qed.

(** ** Edits, read through the adjacency *)

(** An edit that leaves [run'] makes it the node's whole adjacency. *)
Lemma edit_spec {R} g L n d (edit : list N → option LiveSet.t → res (R * list N)) r run' :
  core g L → index n < node_bound g →
  edit (full_run g L d (index n)) (live_filter g) = Ok (r, run') →
  (∀ e, e ∈ run' → index e < edge_bound g) → NoDup run' →
  ∃ rel c, let g' := set_relocations (Some rel) (set_chains c g) in
    let L' := DeltaChains.forget L d (index n) in
    with_run g n d edit = Ok (g', r) ∧ core g' L' ∧
    (∀ d' m, raw g' L' d' m = if decide (d' = d ∧ m = index n) then run' else raw g L d' m) ∧
    (∀ d' m, adj g' L' d' m =
       if decide (d' = d ∧ m = index n) then filter (λ x, elive g x = true) run' else adj g L d' m).
Proof.
  intros Hc Hn Hedit Hlt Hnd.
  destruct (with_run_spec g L n d edit r run' Hc Hn Hedit Hlt Hnd) as (rel & c & Hw & Hc' & Hrun).
  exists rel, c. cbv zeta. set (g' := set_relocations _ _) in *.
  assert (Hraw : ∀ d' m, raw g' (DeltaChains.forget L d (index n)) d' m =
            if decide (d' = d ∧ m = index n) then run' else raw g L d' m).
  { intros d' m. unfold raw. rewrite Hrun. change (delta_base g') with (delta_base g).
    unfold DeltaChains.forget. case_decide; [by rewrite app_nil_r|done]. }
  split_and!; [done|done|done|]. intros d' m. unfold adj. rewrite Hraw.
  change (elive g') with (elive g). by case_decide.
Qed.

Lemma sublist_raw_facts g L d n (l : list N) :
  core g L → l `sublist_of` raw g L d n → NoDup l ∧ ∀ e, e ∈ l → index e < edge_bound g.
Proof.
  intros Hc Hsub. split; [eapply sublist_NoDup; [apply (raw_nodup _ _ Hc)|done]|].
  intros e He. eapply (raw_lt _ _ Hc). by eapply elem_of_sublist.
Qed.

(** What a sweep leaves of a node's full run. *)
Lemma sweep_full g L d n :
  core g L →
  ∃ run', sweep (full_run g L d n) (live_filter g) = Ok run' ∧
    run' `sublist_of` raw g L d n ∧ filter (λ x, elive g x = true) run' = adj g L d n.
Proof.
  intros Hc. destruct (sweep_Ok (full_run g L d n) (live_filter g) (live_filter_wf _ _ Hc))
    as (run' & Hsw & Hsub & Hkeep).
  assert (Hraw : run' `sublist_of` raw g L d n) by (etrans; [done|apply full_run_sublist]).
  exists run'. split_and!; [done|done|].
  rewrite <-(keep_adj g L d n _ Hc Hraw), Hkeep, full_run_keep. by apply (keep_adj g L d n _ Hc).
Qed.

(** Landing the live edges [M] on a node that does not have them. *)
Lemma land_spec g L n d (M : list N) edit :
  core g L → index n < node_bound g → NoDup M →
  (∀ x, x ∈ M → elive g x = true ∧ x ∉ raw g L d (index n)) →
  (∀ run live, edit run live = (run1 ← sweep run live; mret ((), run1 ++ M))) →
  ∃ rel c, let g' := set_relocations (Some rel) (set_chains c g) in
    let L' := DeltaChains.forget L d (index n) in
    with_run g n d edit = Ok (g', ()) ∧ core g' L' ∧
    (∀ d' m, adj g' L' d' m =
       if decide (d' = d ∧ m = index n) then adj g L d m ++ M else adj g L d' m).
Proof.
  intros Hc Hn HndM HM Hedit. destruct (sweep_full g L d (index n) Hc) as (S1 & Hsw & Hsub & Hlive).
  destruct (sublist_raw_facts _ _ _ _ _ Hc Hsub) as [HndS HltS].
  destruct (edit_spec g L n d edit () (S1 ++ M) Hc Hn) as (rel & c & Hw & Hc' & _ & Hadj).
  - rewrite Hedit, Hsw. done.
  - intros x [Hx|Hx]%elem_of_app; [by apply HltS|]. apply (elive_lt _ _ Hc). by apply HM.
  - apply NoDup_app. split_and!; [done| |done]. intros x Hx Hx'.
    apply HM in Hx' as [_ []]. by eapply elem_of_sublist.
  - exists rel, c. cbv zeta. split_and!; [done|done|]. intros d' m. rewrite Hadj.
    case_decide as Hd; [|done]. destruct Hd as [-> ->]. rewrite filter_app, Hlive. f_equal.
    apply filter_all. intros x Hx. by apply HM.
Qed.

(** ** Redirecting one edge *)

(** An edge that is already where it is sent stays there. *)
Lemma redirect_same g L e n d r :
  inv g L → elive g e = true → nlive g (index n) = true →
  all_edges g !! index e = Some r → endpoint d r = n →
  redirect g e n d = Ok (g, n).
Proof.
  intros Hinv He Hn Hr Hend. unfold redirect. rewrite (contains_edge_Ok g L Hinv), He. rsimpl.
  rewrite (assert_live_endpoint_Ok g L Hinv) by done. rsimpl.
  rewrite (proj2 (edge_lookup g e r) Hr). rsimpl. by rewrite Hend, decide_True.
Qed.

(** The previous endpoint gives the edge up. *)
Lemma give_up_spec g L prev d e :
  core g L → index prev < node_bound g →
  ∃ rel c, let g' := set_relocations (Some rel) (set_chains c g) in
    let L' := DeltaChains.forget L d (index prev) in
    with_run g prev d (λ run live, run1 ← sweep run live; mret ((), remove_position run1 e))
      = Ok (g', ()) ∧ core g' L' ∧
    (∀ d' m, ¬ (d' = d ∧ m = index prev) → raw g' L' d' m = raw g L d' m) ∧
    (∀ d' m, adj g' L' d' m =
       if decide (d' = d ∧ m = index prev) then filter (λ x, x ∉ [e]) (adj g L d m)
       else adj g L d' m).
Proof.
  intros Hc Hp. destruct (sweep_full g L d (index prev) Hc) as (R1 & Hsw & Hsub & Hlive).
  destruct (sublist_raw_facts _ _ _ _ _ Hc Hsub) as [HndR HltR].
  destruct (edit_spec g L prev d (λ run live, run1 ← sweep run live; mret ((), remove_position run1 e))
    () (filter (λ x, x ≠ e) R1) Hc Hp) as (rel & c & Hw & Hc' & Hraw & Hadj).
  - rewrite Hsw. rsimpl. by rewrite remove_position_spec.
  - intros x [_ Hx]%list_elem_of_filter. by apply HltR.
  - by apply NoDup_filter.
  - exists rel, c. cbv zeta. split_and!; [done|done| |].
    + intros d' m Hne. by rewrite Hraw, decide_False.
    + intros d' m. rewrite Hadj. case_decide as Hd; [|done]. destruct Hd as [-> ->].
      rewrite <-Hlive, !list_filter_filter. apply filter_ext_in.
      intros x _. rewrite list_elem_of_singleton. tauto.
Qed.

Lemma raw_index_edge g L e : core g L → elive g e = true → raw_index (index e) = Ok e.
Proof.
  intros Hc He%(elive_lt _ _ Hc). rewrite raw_index_eq; [unfold index; by rewrite N2Nat.id|].
  pose proof (inv_edge_max _ _ Hc). unfold MAX_SLOTS, NONE, index in *. lia.
Qed.

Lemma redirect_spec g L e n d r :
  inv g L → elive g e = true → nlive g (index n) = true →
  all_edges g !! index e = Some r → endpoint d r ≠ n →
  ∃ g' L', redirect g e n d = Ok (g', endpoint d r) ∧ inv g' L' ∧
    all_nodes g' = all_nodes g ∧
    all_edges g' = alter (set_endpoint d n) (index e) (all_edges g) ∧
    (∀ m, nlive g' m = nlive g m) ∧ (∀ x, elive g' x = elive g x) ∧
    (∀ d' m, adj g' L' d' m =
       if decide (d' = d ∧ m = index (endpoint d r)) then filter (λ x, x ∉ [e]) (adj g L d m)
       else if decide (d' = d ∧ m = index n) then adj g L d m ++ [e]
       else adj g L d' m).
Proof.
  intros Hinv He Hn Hr Hne. unfold redirect.
  rewrite (contains_edge_Ok g L Hinv), He. rsimpl.
  rewrite (assert_live_endpoint_Ok g L Hinv) by done. rsimpl.
  rewrite (proj2 (edge_lookup g e r) Hr). rsimpl. rewrite decide_False by done.
  set (prev := endpoint d r) in *.
  pose proof (nlive_lt _ _ Hinv _ Hn) as Hnb.
  assert (Hpb : index prev < node_bound g) by (by apply (inv_endpoints _ _ Hinv _ _ d Hr)).
  assert (Hidx : index n ≠ index prev) by (intros ?%N2Nat.inj; done).
  destruct (edge_mut_spec g L e r (set_endpoint d n) Hinv Hr)
    as (g1 & -> & Hc1 & Hall & Hnodes & Hdb & Hnl & Hel & _ & Hrun1 & _). rsimpl.
  assert (Hnb1 : node_bound g1 = node_bound g) by (by rewrite <-!length_all_nodes, Hnodes).
  assert (Hraw1 : ∀ d' m, raw g1 L d' m = raw g L d' m) by (intros; unfold raw; by rewrite Hrun1, Hdb).
  assert (Hadj1 : ∀ d' m, adj g1 L d' m = adj g L d' m).
  { intros d' m. unfold adj. rewrite Hraw1. apply filter_ext_in. intros x _. by rewrite Hel. }
  rewrite (raw_index_edge g L e Hinv He). rsimpl.
  destruct (give_up_spec g1 L prev d e Hc1) as (rel2 & c2 & -> & Hc2 & Hraw2 & Hadj2);
    [by rewrite Hnb1|]. rsimpl.
  destruct (land_spec _ _ n d [e] (λ run live, run1 ← sweep run live; mret ((), run1 ++ [e])) Hc2)
    as (rel3 & c3 & -> & Hc3 & Hadj3).
  { change (index n < node_bound g1). by rewrite Hnb1. }
  { apply NoDup_singleton. }
  { intros x ->%list_elem_of_singleton. split; [change (elive g1 e = true); by rewrite Hel|].
    rewrite Hraw2, Hraw1 by naive_solver. intros (r' & Hr' & Hend)%(inv_adj _ _ Hinv); [|done].
    simplify_eq. }
  { done. }
  rsimpl. set (g3 := set_relocations (Some rel3) _) in *.
  set (L3 := DeltaChains.forget _ d (index n)) in *.
  assert (Hadj : ∀ d' m, adj g3 L3 d' m =
       if decide (d' = d ∧ m = index prev) then filter (λ x, x ∉ [e]) (adj g L d m)
       else if decide (d' = d ∧ m = index n) then adj g L d m ++ [e] else adj g L d' m).
  { intros d' m. rewrite Hadj3, !Hadj2, !Hadj1. repeat case_decide; naive_solver. }
  exists g3, L3. split; [done|]. split_and!; [|exact Hnodes|exact Hall|exact Hnl|exact Hel|exact Hadj].
  eapply (moved_inv g L g3 L3 d (index prev) n [e]); try done.
  - intros x. change (all_edges g3) with (all_edges g1). rewrite Hall.
    case_decide as Hx; [apply list_elem_of_singleton in Hx as ->; apply list_lookup_alter_eq|].
    rewrite list_lookup_alter_ne; [by rewrite option_fmap_id|].
    intros ?%N2Nat.inj. apply Hx. by apply list_elem_of_singleton.
  - intros x ->%list_elem_of_singleton. apply (elem_of_adj g L Hinv). eauto.
  - intros d' m x. unfold L3, DeltaChains.forget. repeat case_decide; rewrite ?elem_of_nil; tauto.
Qed.

(** ** Moving a whole adjacency *)

Lemma set_endpoint_idemp {E} d n (r : EdgeRecord E) :
  set_endpoint d n (set_endpoint d n r) = set_endpoint d n r.
Proof. by destruct d. Qed.

(** Rewriting one end of every edge of [M], as the loop of the move does. *)
Lemma edge_mut_all g L d n (M : list N) :
  core g L → (∀ x, x ∈ M → index x < edge_bound g) →
  ∃ g', rfold (λ g slot, edge_mut g slot (set_endpoint d n)) g M = Ok g' ∧ core g' L ∧
    (∀ x, all_edges g' !! index x =
       (if decide (x ∈ M) then set_endpoint d n else id) <$> all_edges g !! index x) ∧
    all_nodes g' = all_nodes g ∧ delta_base g' = delta_base g ∧
    (∀ m, nlive g' m = nlive g m) ∧ (∀ x, elive g' x = elive g x) ∧
    (∀ d' m, run_of g' d' m = run_of g d' m).
Proof.
  revert g. induction M as [|e M IH]; intros g Hc HM; cbn [rfold].
  { exists g. split_and!; try done. intros x. by rewrite option_fmap_id. }
  destruct (lookup_lt_is_Some_2 (all_edges g) (index e)) as [r Hr].
  { rewrite length_all_edges. apply HM. by left. }
  destruct (edge_mut_spec g L e r (set_endpoint d n) Hc Hr)
    as (g1 & -> & Hc1 & Hall1 & Hn1 & Hb1 & Hnl1 & Hel1 & _ & Hrun1 & _). rsimpl.
  destruct (IH g1 Hc1) as (g2 & -> & Hc2 & Hall2 & Hn2 & Hb2 & Hnl2 & Hel2 & Hrun2).
  { intros x Hx. rewrite <-length_all_edges, Hall1, length_alter, length_all_edges.
    apply HM. by right. }
  exists g2. split_and!; [done|done| |congruence..].
  intros x. rewrite Hall2, Hall1. destruct (decide (x = e)) as [->|Hxe].
  - rewrite list_lookup_alter_eq, (decide_True (P := e ∈ e :: M)) by (by left).
    rewrite Hr. cbn. case_decide; [|done]. by rewrite set_endpoint_idemp.
  - rewrite list_lookup_alter_ne by (intros ?%N2Nat.inj; done).
    repeat case_decide; try done; set_solver.
Qed.

(** Taking the whole run of a node leaves it nothing. *)
Lemma take_all_spec g L old d :
  core g L → index old < node_bound g →
  ∃ rel c, let g' := set_relocations (Some rel) (set_chains c g) in
    let L' := DeltaChains.forget L d (index old) in
    with_run g old d (λ run live,
        run1 ← (match live with Some set => retain_live set run | None => mret run end);
        mret (run1, [])) = Ok (g', adj g L d (index old)) ∧ core g' L' ∧
    (∀ d' m, raw g' L' d' m = if decide (d' = d ∧ m = index old) then [] else raw g L d' m) ∧
    (∀ d' m, adj g' L' d' m = if decide (d' = d ∧ m = index old) then [] else adj g L d' m).
Proof.
  intros Hc Ho. apply (edit_spec g L old d _ _ []); try done.
  - assert (Hk : (match live_filter g with
                  | Some set => retain_live set (full_run g L d (index old))
                  | None => mret (full_run g L d (index old)) end) =
                 Ok (keep (live_filter g) (full_run g L d (index old)))).
    { destruct (live_filter g) as [set|] eqn:E; [|by rewrite keep_None].
      apply retain_live_Ok. pose proof (live_filter_wf _ _ Hc) as Hwf. by rewrite E in Hwf. }
    rewrite Hk. rsimpl. do 2 f_equal. rewrite full_run_keep. by apply (keep_adj g L d (index old)).
  - intros e He. by apply elem_of_nil in He.
  - constructor.
Qed.

(** A move with nothing to move changes nothing, and does not look at [new]. *)
Lemma move_empty g L old new d :
  inv g L → index old < node_bound g → old ≠ new → adj g L d (index old) = [] →
  move_adjacency g old new d = Ok g.
Proof.
  intros Hinv Ho Hne Hadj. unfold move_adjacency. rewrite bool_decide_true by done. rsimpl.
  destruct (adjacent_Ok g L Hinv old d Ho) as (w & bs & ds & -> & Hw & _ & Hp & _). rsimpl.
  pose proof (walk_next_spec _ _ _ Hw) as Hnext. rewrite Hp, Hadj in Hnext.
  destruct Hnext as (w' & ->). done.
Qed.

Lemma move_adjacency_spec g L old new d :
  inv g L → index old < node_bound g → old ≠ new → adj g L d (index old) ≠ [] →
  nlive g (index new) = true →
  ∃ g' L', move_adjacency g old new d = Ok g' ∧ inv g' L' ∧
    all_nodes g' = all_nodes g ∧
    (∀ x, all_edges g' !! index x =
       (if decide (x ∈ adj g L d (index old)) then set_endpoint d new else id)
         <$> all_edges g !! index x) ∧
    (∀ m, nlive g' m = nlive g m) ∧ (∀ x, elive g' x = elive g x) ∧
    (∀ d' m, adj g' L' d' m =
       if decide (d' = d ∧ m = index old) then []
       else if decide (d' = d ∧ m = index new) then adj g L d m ++ adj g L d (index old)
       else adj g L d' m).
Proof.
  intros Hinv Ho Hne Hadj Hn. unfold move_adjacency. rewrite bool_decide_true by done. rsimpl.
  destruct (adjacent_Ok g L Hinv old d Ho) as (w & bs & ds & -> & Hw & _ & Hp & _). rsimpl.
  pose proof (walk_next_spec _ _ _ Hw) as Hnext. rewrite Hp in Hnext.
  destruct (adj g L d (index old)) as [|e0 rest] eqn:EM; [done|].
  destruct Hnext as (w' & _ & _ & -> & _). rsimpl.
  rewrite (assert_live_endpoint_Ok g L Hinv) by done. rsimpl. rewrite <-EM in *. clear e0 rest EM w bs ds Hw Hp w'.
  set (M := adj g L d (index old)) in *.
  assert (Hidx : index new ≠ index old) by (intros ?%N2Nat.inj; done).
  pose proof (nlive_lt _ _ Hinv _ Hn) as Hnb.
  destruct (take_all_spec g L old d Hinv Ho) as (rel & c & -> & Hc1 & Hraw1 & Hadj1). rsimpl. fold M.
  set (g1 := set_relocations (Some rel) (set_chains c g)) in *.
  set (L1 := DeltaChains.forget L d (index old)) in *.
  destruct (edge_mut_all g1 L1 d new M Hc1) as (g2 & -> & Hc2 & Hall & Hnodes & Hb & Hnl & Hel & Hrun).
  { intros x Hx. apply (elive_lt _ _ Hinv). by apply (elem_of_adj g L Hinv) in Hx as [? _]. } rsimpl.
  assert (Hnb2 : node_bound g2 = node_bound g) by (by rewrite <-!length_all_nodes, Hnodes).
  assert (Hraw2 : ∀ d' m, raw g2 L1 d' m = raw g1 L1 d' m) by (intros; unfold raw; by rewrite Hrun, Hb).
  assert (Hadj2 : ∀ d' m, adj g2 L1 d' m = adj g1 L1 d' m).
  { intros d' m. unfold adj. rewrite Hraw2. apply filter_ext_in. intros x _. by rewrite Hel. }
  edestruct (land_spec g2 L1 new d M (λ run live, run1 ← sweep run live;
        mret ((), match run1 with [] => M | _ => run1 ++ M end)) Hc2)
    as (rel3 & c3 & -> & Hc3 & Hadj3).
  { by rewrite Hnb2. }
  { apply (adj_nodup _ _ Hinv). }
  { intros x Hx. apply (elem_of_adj g L Hinv) in Hx as (Hx & r & Hr & Hend).
    split; [by rewrite Hel|]. rewrite Hraw2, Hraw1, decide_False by naive_solver.
    intros (r' & Hr' & Hend')%(inv_adj _ _ Hinv); [|done]. simplify_eq. }
  { intros run live. destruct (sweep run live) as [[|]| |]; done. }
  rsimpl. set (g3 := set_relocations (Some rel3) _) in *.
  set (L3 := DeltaChains.forget L1 d (index new)) in *.
  assert (Hfin : ∀ d' m, adj g3 L3 d' m =
       if decide (d' = d ∧ m = index old) then []
       else if decide (d' = d ∧ m = index new) then adj g L d m ++ M else adj g L d' m).
  { intros d' m. rewrite Hadj3, !Hadj2, !Hadj1. repeat case_decide; naive_solver. }
  exists g3, L3. split; [done|]. split_and!; [|exact Hnodes|exact Hall|exact Hnl|exact Hel|exact Hfin].
  eapply (moved_inv g L g3 L3 d (index old) new M); try done.
  - intros d' m x. unfold L3, L1, DeltaChains.forget. repeat case_decide; rewrite ?elem_of_nil; tauto.
  - intros d' m. rewrite Hfin. case_decide as Hd; [|done]. destruct Hd as [-> ->].
    symmetry. apply filter_none. intros x Hx []. exact Hx.
Qed.

End StoreRedirect.

(** * Payload writes

    [Graph::node_mut] and the payload of [Graph::edge_mut]: a write leaves the
    structure of the graph alone. What [edge_mut] lets a caller do beyond the
    payload is the subject of [edge_mut_can_break]. *)


Section StoreWrite.
Context {NP EP : Type}.
Implicit Types g : Graph NP EP.

Lemma edge_payload_spec g L e f :
  inv g L → index e < edge_bound g →
  ∃ g', edge_mut g e (payload_mut f) = Ok g' ∧ inv g' L ∧
    all_nodes g' = all_nodes g ∧ all_edges g' = alter (payload_mut f) (index e) (all_edges g) ∧
    (∀ n, nlive g' n = nlive g n) ∧ (∀ x, elive g' x = elive g x) ∧
    (∀ d n, adj g' L d n = adj g L d n).
Proof.
  intros Hinv He. rewrite <-length_all_edges in He.
  destruct (lookup_lt_is_Some_2 _ _ He) as [r Hr].
  destruct (edge_mut_spec g L e r (payload_mut f) Hinv Hr)
    as (g' & -> & Hc & Hall & Hn & Hb & Hnl & Hel & _ & Hrun & _).
  assert (Hnb : node_bound g' = node_bound g) by (by rewrite <-!length_all_nodes, Hn).
  assert (Hraw : ∀ d n, raw g' L d n = raw g L d n) by (intros; unfold raw; by rewrite Hrun, Hb).
  assert (Hlook : ∀ x r', all_edges g' !! x = Some r' →
    ∃ r0, all_edges g !! x = Some r0 ∧ ∀ d, endpoint d r' = endpoint d r0).
  { intros x r'. rewrite Hall, list_lookup_alter. case_decide as Hd; [subst x|intros ?; by exists r'].
    intros (r0 & Hr0 & ->)%fmap_Some. exists r0. split; [done|]. intros d.
    apply endpoint_payload_mut. }
  assert (Hback : ∀ x r0, all_edges g !! x = Some r0 →
    ∃ r', all_edges g' !! x = Some r' ∧ ∀ d, endpoint d r' = endpoint d r0).
  { intros x r0 Hr0. rewrite Hall, list_lookup_alter. case_decide; [subst x|by exists r0].
    rewrite Hr0.
    eexists. split; [done|]. intros d. apply endpoint_payload_mut. }
  exists g'. split_and!; try done.
  - split; [done|..].
    + intros d n x Hx. destruct (inv_ring_end _ _ Hinv _ _ _ Hx) as (r0 & Hr0 & Hend).
      assert (Hd : ∀ h : Graph NP EP, delta_edges h !! index x = all_edges h !! index (delta_base h + x)%N).
      { intros h. unfold all_edges, delta_base, index. rewrite lookup_app_r by lia. f_equal. lia. }
      rewrite Hd in Hr0 |- *. rewrite Hb. apply Hback in Hr0 as (r' & Hr' & Hends).
      exists r'. by rewrite Hends.
    + intros x r' d (r0 & Hr0 & ->)%Hlook. rewrite Hnb. by eapply (inv_endpoints _ _ Hinv).
    + intros x r' d (r0 & Hr0 & ->)%Hlook. rewrite Hel, Hnl. by eapply (inv_live_end _ _ Hinv).
    + intros d n x Hx. rewrite Hel in Hx. rewrite Hraw, (inv_adj _ _ Hinv) by done. split.
      * intros (r0 & Hr0 & Hend). apply Hback in Hr0 as (r' & Hr' & Hends). exists r'. by rewrite Hends.
      * intros (r' & (r0 & Hr0 & Hends)%Hlook & Hend). exists r0. by rewrite <-Hends.
  - intros d n. unfold adj. rewrite Hraw. apply filter_ext_in. intros x _. by rewrite Hel.
Qed.

Lemma node_mut_spec g L n f :
  inv g L → index n < node_bound g →
  ∃ g', node_mut g n f = Ok g' ∧ inv g' L ∧
    all_nodes g' = alter f (index n) (all_nodes g) ∧ all_edges g' = all_edges g ∧
    (∀ m, nlive g' m = nlive g m) ∧ (∀ x, elive g' x = elive g x) ∧
    (∀ d m, adj g' L d m = adj g L d m).
Proof.
  intros Hinv Hn. rewrite <-length_all_nodes in Hn.
  destruct (lookup_lt_is_Some_2 _ _ Hn) as [p Hp]. unfold node_mut, all_nodes in *. case_decide as Hlt.
  - rewrite lookup_app_l in Hp by done. rewrite (vget_eq _ _ _ Hp). rsimpl.
    rewrite vset_lt by done. rsimpl. eexists. split; [done|].
    set (v := <[_:=_]> _). assert (Hlen : length v = length (base_nodes g)) by apply length_insert.
    split_and!; try done.
    + destruct Hinv as [[[] ] ]. split; [split; [split|..]|..]; try done; unfold node_bound in *; cbn; rewrite ?Hlen; auto.
    + cbn. rewrite alter_app_l by done. f_equal. by apply list_insert_alter_Some.
  - rewrite lookup_app_r in Hp by lia. rewrite (vget_eq _ _ _ Hp). rsimpl.
    rewrite vset_lt by (by eapply lookup_lt_Some). rsimpl. eexists. split; [done|].
    set (v := <[_:=_]> _). assert (Hlen : length v = length (delta_nodes g)) by apply length_insert.
    split_and!; try done.
    + destruct Hinv as [[[] ] ]. split; [split; [split|..]|..]; try done; unfold node_bound in *; cbn; rewrite ?Hlen; auto.
    + cbn. rewrite alter_app_r_alt by lia. f_equal. by apply list_insert_alter_Some.
Qed.

End StoreWrite.
