(* ===== verification/StoreSpec.v ===== *)
(** * What the graph store promises

    The abstract graph a client of [Graph] reasons with (payloads by identity,
    the live identities, and one edge list per node and direction), its
    operations, and the refinement of the stored columns to it: every call
    answers as the abstract operation does and panics exactly when that one is
    undefined. *)

From S2P Require Import Prelude Words Liveness Ids Chains Runs Store StoreInv StoreEdits StoreOverlay StoreRedirect.

Section StoreSpec.
Context {NP EP : Type}.
Implicit Types g : Graph NP EP.

(** ** The abstract graph *)

Record agraph : Type := mk_agraph {
  a_nodes : list NP;
  a_edges : list (EdgeRecord EP);
  a_nlive : Id → bool;
  a_elive : Id → bool;
  a_adj : TraversalDirection → Id → list Id;
}.
Implicit Types a : agraph.

Definition a_empty : agraph := mk_agraph [] [] (λ _, false) (λ _, false) (λ _ _, []).

(** The columns represent an abstract graph. *)
Record repr g a : Prop := mk_repr {
  rp_nodes : all_nodes g = a_nodes a;
  rp_edges : all_edges g = a_edges a;
  rp_nlive : ∀ n, nlive g (index n) = a_nlive a n;
  rp_elive : ∀ e, elive g e = a_elive a e;
  rp_inv : ∃ L, inv g L ∧ ∀ d n, adj g L d (index n) = a_adj a d n;
}.

(** ** Calls and replies *)

Inductive event : Type :=
  | AddNode (p : NP)
  | AddEdge (s t : Id) (p : EP)
  | RemoveEdge (e : Id)
  | RemoveNode (n : Id)
  | RedirectEdge (d : TraversalDirection) (e n : Id)
  | MoveAdjacency (d : TraversalDirection) (old new : Id)
  | SetNode (n : Id) (f : NP → NP)
  | SetPayload (e : Id) (f : EP → EP).

Inductive reply : Type := RUnit | RBool (b : bool) | RId (i : Id).

(** The call on the store. *)
Definition exec g (ev : event) : res (Graph NP EP * reply) :=
  match ev with
  | AddNode p => '(g', i) ← add_node g p; mret (g', RId i)
  | AddEdge s t p => '(g', i) ← add_edge g s t p; mret (g', RId i)
  | RemoveEdge e => '(g', b) ← remove_edge g e; mret (g', RBool b)
  | RemoveNode n => '(g', b) ← remove_node g n; mret (g', RBool b)
  | RedirectEdge Outgoing e n => '(g', i) ← redirect_edge_source g e n; mret (g', RId i)
  | RedirectEdge Incoming e n => '(g', i) ← redirect_edge_target g e n; mret (g', RId i)
  | MoveAdjacency d old new => g' ← move_adjacency g old new d; mret (g', RUnit)
  | SetNode n f => g' ← node_mut g n f; mret (g', RUnit)
  | SetPayload e f => g' ← edge_mut g e (payload_mut f); mret (g', RUnit)
  end.

(** ** The abstract operations *)

Definition a_add_node a p : agraph :=
  let i := N.of_nat (length (a_nodes a)) in
  mk_agraph (a_nodes a ++ [p]) (a_edges a) (λ n, a_nlive a n || bool_decide (n = i))
    (a_elive a) (a_adj a).

Definition a_add_edge a (s t : Id) p : agraph :=
  let i := N.of_nat (length (a_edges a)) in
  let r := mk_EdgeRecord s t p in
  mk_agraph (a_nodes a) (a_edges a ++ [r]) (a_nlive a)
    (λ e, a_elive a e || bool_decide (e = i))
    (λ d n, if decide (n = endpoint d r) then a_adj a d n ++ [i] else a_adj a d n).

(** The edges in [gone] disappear, from the adjacency too. *)
Definition a_remove_edges a (gone : Id → bool) : agraph :=
  mk_agraph (a_nodes a) (a_edges a) (a_nlive a) (λ e, a_elive a e && negb (gone e))
    (λ d n, filter (λ e, gone e = false) (a_adj a d n)).

Definition a_incident a (n e : Id) : bool :=
  bool_decide (e ∈ a_adj a Outgoing n ∨ e ∈ a_adj a Incoming n).

Definition a_remove_node a (n : Id) : agraph :=
  let a' := a_remove_edges a (a_incident a n) in
  mk_agraph (a_nodes a') (a_edges a') (λ m, a_nlive a' m && negb (bool_decide (m = n)))
    (a_elive a') (a_adj a').

(** The edges [M] of [old] now belong to [n], after the ones it had. *)
Definition a_move a d (old n : Id) (M : list Id) : agraph :=
  mk_agraph (a_nodes a)
    (imap (λ i r, if decide (N.of_nat i ∈ M) then set_endpoint d n r else r) (a_edges a))
    (a_nlive a) (a_elive a)
    (λ d' m, if decide (d' = d ∧ m = old) then filter (λ x, x ∉ M) (a_adj a d m)
             else if decide (d' = d ∧ m = n) then a_adj a d m ++ M
             else a_adj a d' m).

Definition a_redirect a d (e n : Id) : option (agraph * reply) :=
  r ← a_edges a !! index e;
  Some (if decide (endpoint d r = n) then a else a_move a d (endpoint d r) n [e],
        RId (endpoint d r)).

(** The answer to each call; [None] is the panic. *)
Definition a_step a (ev : event) : option (agraph * reply) :=
  match ev with
  | AddNode p =>
      let i := N.of_nat (length (a_nodes a)) in
      if decide (i < MAX_SLOTS)%N then Some (a_add_node a p, RId i) else None
  | AddEdge s t p =>
      let i := N.of_nat (length (a_edges a)) in
      if decide (a_nlive a s = true ∧ a_nlive a t = true ∧ (i < MAX_SLOTS)%N)
      then Some (a_add_edge a s t p, RId i) else None
  | RemoveEdge e => Some (a_remove_edges a (λ x, bool_decide (x = e)), RBool (a_elive a e))
  | RemoveNode n =>
      Some (if a_nlive a n then a_remove_node a n else a, RBool (a_nlive a n))
  | RedirectEdge d e n =>
      if decide (a_elive a e = true ∧ a_nlive a n = true) then a_redirect a d e n else None
  | MoveAdjacency d old new =>
      if decide (old ≠ new ∧ index old < length (a_nodes a)) then
        match a_adj a d old with
        | [] => Some (a, RUnit)
        | M => if a_nlive a new then Some (a_move a d old new M, RUnit) else None
        end
      else None
  | SetNode n f =>
      if decide (index n < length (a_nodes a)) then
        Some (mk_agraph (alter f (index n) (a_nodes a)) (a_edges a) (a_nlive a) (a_elive a)
                (a_adj a), RUnit)
      else None
  | SetPayload e f =>
      if decide (index e < length (a_edges a)) then
        Some (mk_agraph (a_nodes a) (alter (payload_mut f) (index e) (a_edges a)) (a_nlive a)
                (a_elive a) (a_adj a), RUnit)
      else None
  end.

(** ** Panics *)

Definition panics {A} (m : res A) : Prop := ∃ why, m = Panic why.

Lemma panics_bind {A B} (m : res A) (k : A → res B) : panics m → panics (m ≫= k).
Proof. intros [why ->]. by exists why. Qed.

Lemma vget_panics {A} (v : list A) i : length v ≤ i → panics (vget v i).
Proof. intros H. unfold vget. rewrite lookup_ge_None_2 by done. by eexists. Qed.

Lemma assert_live_endpoint_panics g L n role :
  inv g L → nlive g (index n) = false → panics (assert_live_endpoint g n role).
Proof.
  intros Hinv Hn. unfold assert_live_endpoint. rewrite (node_is_live_Ok g L Hinv), Hn.
  destruct (bool_decide _); by eexists.
Qed.

Lemma adjacent_panics g d n : node_bound g ≤ index n → panics (adjacent g n d).
Proof.
  intros Hn. unfold adjacent, cursor. rewrite bool_decide_false by lia. by eexists.
Qed.

Lemma add_edge_panics g L s t p :
  inv g L →
  ¬ (nlive g (index s) = true ∧ nlive g (index t) = true ∧ (N.of_nat (edge_bound g) < MAX_SLOTS)%N) →
  panics (add_edge g s t p).
Proof.
  intros Hinv Hn. unfold add_edge.
  destruct (nlive g (index s)) eqn:Hs; [|by eapply panics_bind, assert_live_endpoint_panics].
  rewrite (assert_live_endpoint_Ok g L Hinv s _ Hs). rsimpl.
  destruct (nlive g (index t)) eqn:Ht; [|by eapply panics_bind, assert_live_endpoint_panics].
  rewrite (assert_live_endpoint_Ok g L Hinv t _ Ht). rsimpl.
  rewrite bool_decide_false by naive_solver. by eexists.
Qed.

Lemma redirect_panics g L e n d :
  inv g L → ¬ (elive g e = true ∧ nlive g (index n) = true) → panics (redirect g e n d).
Proof.
  intros Hinv Hn. unfold redirect. rewrite (contains_edge_Ok g L Hinv). rsimpl.
  destruct (elive g e) eqn:He; [|by eexists]. rsimpl.
  eapply panics_bind, assert_live_endpoint_panics; [done|]. destruct (nlive g (index n)); naive_solver.
Qed.

Lemma move_panics g L old new d :
  inv g L →
  ¬ (old ≠ new ∧ index old < node_bound g) ∨
    (adj g L d (index old) ≠ [] ∧ nlive g (index new) = false) →
  panics (move_adjacency g old new d).
Proof.
  intros Hinv H. unfold move_adjacency.
  destruct (decide (old = new)) as [->|Hne]; [rewrite bool_decide_false by naive_solver; by eexists|].
  rewrite bool_decide_true by done. rsimpl.
  destruct (decide (index old < node_bound g)) as [Hlt|]; [|eapply panics_bind, adjacent_panics; lia].
  destruct H as [[]|[Hadj Hn]]; [done|].
  destruct (adjacent_Ok g L Hinv old d Hlt) as (w & bs & ds & -> & Hw & _ & Hp & _). rsimpl.
  pose proof (walk_next_spec _ _ _ Hw) as Hnext. rewrite Hp in Hnext.
  destruct (adj g L d (index old)) as [|e rest]; [done|].
  destruct Hnext as (w' & _ & _ & -> & _). rsimpl. by eapply panics_bind, assert_live_endpoint_panics.
Qed.

Lemma node_mut_panics g n f : node_bound g ≤ index n → panics (node_mut g n f).
Proof.
  unfold node_bound, node_mut. intros H. rewrite decide_False by lia.
  apply panics_bind, vget_panics. lia.
Qed.

Lemma edge_mut_panics g e f : edge_bound g ≤ index e → panics (edge_mut g e f).
Proof.
  unfold edge_bound, edge_mut. intros H. rewrite decide_False by lia.
  apply panics_bind, vget_panics. lia.
Qed.

(** ** Refinement *)

(** A call refines the abstract operation at the state [a] stands for. *)
Definition refines g a ev : Prop :=
  match a_step a ev with
  | Some (a', r) => ∃ g', exec g ev = Ok (g', r) ∧ repr g' a'
  | None => panics (exec g ev)
  end.

Lemma repr_node_bound g a : repr g a → node_bound g = length (a_nodes a).
Proof. intros Hr. by rewrite <-length_all_nodes, (rp_nodes _ _ Hr). Qed.

Lemma repr_edge_bound g a : repr g a → edge_bound g = length (a_edges a).
Proof. intros Hr. by rewrite <-length_all_edges, (rp_edges _ _ Hr). Qed.

Lemma index_eq_iff (x y : Id) : index x = index y ↔ x = y.
Proof. unfold index. split; [apply N2Nat.inj|congruence]. Qed.

Lemma index_bound (x : Id) (n : nat) : index x = n ↔ x = N.of_nat n.
Proof. unfold index. lia. Qed.

(** The shape every successful call shares. *)
Lemma refines_Ok g a ev g' a' L' r :
  a_step a ev = Some (a', r) → exec g ev = Ok (g', r) → inv g' L' →
  all_nodes g' = a_nodes a' → all_edges g' = a_edges a' →
  (∀ n, nlive g' (index n) = a_nlive a' n) → (∀ e, elive g' e = a_elive a' e) →
  (∀ d n, adj g' L' d (index n) = a_adj a' d n) →
  refines g a ev.
Proof.
  intros Hs He Hinv Hn Hed Hnl Hel Hadj. unfold refines. rewrite Hs. exists g'. split; [done|].
  split; try done. by exists L'.
Qed.

Lemma refines_panics g a ev : a_step a ev = None → panics (exec g ev) → refines g a ev.
Proof. intros Hs Hp. unfold refines. by rewrite Hs. Qed.

Lemma refines_add_node g a p : repr g a → refines g a (AddNode p).
Proof.
  intros Hr. destruct (rp_inv _ _ Hr) as (L & Hinv & Hadj).
  destruct (decide (N.of_nat (length (a_nodes a)) < MAX_SLOTS)%N) as [Hlt|Hge].
  - destruct (add_node_spec g L p Hinv) as (g' & Hadd & Hinv' & Hn & He & Hnl & Hel & Hadj').
    { by rewrite (repr_node_bound _ _ Hr). }
    rewrite (repr_node_bound _ _ Hr) in Hadd, Hnl.
    eapply (refines_Ok _ _ _ g' (a_add_node a p) L); [cbn; by rewrite decide_True| |done|..]; cbn.
    + by rewrite Hadd.
    + by rewrite Hn, (rp_nodes _ _ Hr).
    + by rewrite He, (rp_edges _ _ Hr).
    + intros n. rewrite Hnl, (rp_nlive _ _ Hr). f_equal. apply bool_decide_ext, index_bound.
    + intros e. by rewrite Hel, (rp_elive _ _ Hr).
    + intros d n. by rewrite Hadj', Hadj.
  - apply refines_panics; cbn; [by rewrite decide_False|]. apply panics_bind.
    rewrite add_node_full; [by eexists|]. by rewrite (repr_node_bound _ _ Hr).
Qed.

Lemma refines_add_edge g a s t p : repr g a → refines g a (AddEdge s t p).
Proof.
  intros Hr. destruct (rp_inv _ _ Hr) as (L & Hinv & Hadj).
  destruct (decide (a_nlive a s = true ∧ a_nlive a t = true ∧
                    (N.of_nat (length (a_edges a)) < MAX_SLOTS)%N)) as [(Hs&Ht&Hlt)|Hno].
  - rewrite <-(rp_nlive _ _ Hr) in Hs, Ht. rewrite <-(repr_edge_bound _ _ Hr) in Hlt.
    destruct (add_edge_spec g L s t p Hinv Hs Ht Hlt)
      as (g' & L' & Hadd & Hinv' & Hn & He & Hnl & Hel & Hadj').
    rewrite (repr_edge_bound _ _ Hr) in *. rewrite (rp_nlive _ _ Hr) in Hs, Ht.
    eapply (refines_Ok _ _ _ g' (a_add_edge a s t p) L');
      [cbn; by rewrite decide_True| |done|..]; cbn.
    + by rewrite Hadd.
    + by rewrite Hn, (rp_nodes _ _ Hr).
    + by rewrite He, (rp_edges _ _ Hr).
    + intros n. by rewrite Hnl, (rp_nlive _ _ Hr).
    + intros e. by rewrite Hel, (rp_elive _ _ Hr).
    + intros d n. rewrite Hadj', Hadj. pose proof (index_eq_iff n (endpoint d (mk_EdgeRecord s t p))).
      repeat case_decide; naive_solver.
  - apply refines_panics; cbn; [by rewrite decide_False|].
    apply panics_bind, (add_edge_panics g L); [done|].
    by rewrite !(rp_nlive _ _ Hr), (repr_edge_bound _ _ Hr).
Qed.

Lemma refines_remove_edge g a e : repr g a → refines g a (RemoveEdge e).
Proof.
  intros Hr. destruct (rp_inv _ _ Hr) as (L & Hinv & Hadj).
  destruct (retire_edge_spec g L e Hinv) as (g' & Hrem & Hw).
  eapply (refines_Ok _ _ _ g' _ L); [done| |apply Hw|..]; cbn.
  - unfold remove_edge. rewrite Hrem. cbn. by rewrite (rp_elive _ _ Hr).
  - by rewrite (wo_nodes _ _ _ _ Hw), (rp_nodes _ _ Hr).
  - by rewrite (wo_edges _ _ _ _ Hw), (rp_edges _ _ Hr).
  - intros n. by rewrite (wo_nlive _ _ _ _ Hw), (rp_nlive _ _ Hr).
  - intros x. by rewrite (wo_elive _ _ _ _ Hw), (rp_elive _ _ Hr).
  - intros d n. by rewrite (without_adj _ _ _ _ _ _ Hw), Hadj.
Qed.

Lemma incident_repr g a L n e :
  (∀ d n, adj g L d (index n) = a_adj a d n) → incident g L (index n) e = a_incident a n e.
Proof. intros Hadj. unfold incident, a_incident. by rewrite !Hadj. Qed.

Lemma refines_remove_node g a n : repr g a → refines g a (RemoveNode n).
Proof.
  intros Hr. destruct (rp_inv _ _ Hr) as (L & Hinv & Hadj).
  destruct (a_nlive a n) eqn:Hn; pose proof Hn as Hn'; rewrite <-(rp_nlive _ _ Hr) in Hn'.
  - destruct (remove_node_spec g L n Hinv Hn') as (g' & Hrem & Hinv' & Hnd & He & Hnl & Hel & Hadj').
    eapply (refines_Ok _ _ _ g' (a_remove_node a n) L); [cbn; by rewrite Hn| |done|..]; cbn.
    + by rewrite Hrem.
    + by rewrite Hnd, (rp_nodes _ _ Hr).
    + by rewrite He, (rp_edges _ _ Hr).
    + intros m. rewrite Hnl, (rp_nlive _ _ Hr). do 2 f_equal. apply bool_decide_ext, index_eq_iff.
    + intros x. by rewrite Hel, (rp_elive _ _ Hr), (incident_repr _ _ _ _ _ Hadj).
    + intros d m. rewrite Hadj', Hadj. apply filter_ext_in. intros x _.
      by rewrite (incident_repr _ _ _ _ _ Hadj).
  - eapply (refines_Ok _ _ _ g a L); [cbn; by rewrite Hn| |done|apply Hr..|done].
    cbn. by rewrite (remove_node_dead g L n Hinv Hn').
Qed.

(** Reading the records of a move by identity. *)
Lemma moved_edges (l l' : list (EdgeRecord EP)) d n (M : list Id) :
  (∀ x : Id, l' !! index x = (if decide (x ∈ M) then set_endpoint d n else id) <$> l !! index x) →
  l' = imap (λ i r, if decide (N.of_nat i ∈ M) then set_endpoint d n r else r) l.
Proof.
  intros H. apply list_eq. intros i. specialize (H (N.of_nat i)). unfold index in H.
  rewrite Nat2N.id in H. rewrite H, list_lookup_imap. destruct (l !! i); [|done]. cbn. by case_decide.
Qed.

Lemma alter_moved (l : list (EdgeRecord EP)) d n (e : Id) :
  alter (set_endpoint d n) (index e) l =
  imap (λ i r, if decide (N.of_nat i ∈ [e]) then set_endpoint d n r else r) l.
Proof.
  apply moved_edges. intros x. destruct (decide (x = e)) as [->|Hne].
  - by rewrite list_lookup_alter_eq, decide_True by set_solver.
  - rewrite list_lookup_alter_ne by (rewrite index_eq_iff; congruence).
    by rewrite decide_False, option_fmap_id by set_solver.
Qed.

(** Translating a decision about slots into one about identities. *)
Lemma decide_moved {A} (d d' : TraversalDirection) (m n : Id) (x y : A) :
  (if decide (d' = d ∧ index m = index n) then x else y) =
  (if decide (d' = d ∧ m = n) then x else y).
Proof. pose proof (index_eq_iff m n). repeat case_decide; naive_solver. Qed.

Lemma exec_redirect g d e n :
  exec g (RedirectEdge d e n) = ('(g', i) ← redirect g e n d; mret (g', RId i)).
Proof. by destruct d. Qed.

Lemma refines_redirect g a d e n : repr g a → refines g a (RedirectEdge d e n).
Proof.
  intros Hr. destruct (rp_inv _ _ Hr) as (L & Hinv & Hadj).
  destruct (decide (a_elive a e = true ∧ a_nlive a n = true)) as [[He Hn]|Hno].
  2:{ apply refines_panics; [cbn; by rewrite decide_False|]. rewrite exec_redirect.
      apply panics_bind, (redirect_panics g L); [done|].
      by rewrite (rp_nlive _ _ Hr), (rp_elive _ _ Hr). }
  pose proof He as Hel. pose proof Hn as Hnl.
  rewrite <-(rp_elive _ _ Hr) in Hel. rewrite <-(rp_nlive _ _ Hr) in Hnl.
  destruct (lookup_lt_is_Some_2 (all_edges g) (index e)) as [r Hrec].
  { rewrite length_all_edges. by apply (elive_lt _ _ Hinv). }
  assert (Hstep : a_step a (RedirectEdge d e n) =
    Some (if decide (endpoint d r = n) then a else a_move a d (endpoint d r) n [e],
          RId (endpoint d r))).
  { cbn. rewrite decide_True by done. unfold a_redirect. by rewrite <-(rp_edges _ _ Hr), Hrec. }
  case_decide as Hend.
  - eapply (refines_Ok _ _ _ g a L); [exact Hstep| |done|apply Hr..|done].
    rewrite exec_redirect, (redirect_same g L e n d r) by done. by rewrite Hend.
  - destruct (redirect_spec g L e n d r Hinv Hel Hnl Hrec Hend)
      as (g' & L' & Hred & Hinv' & Hnd & Hed & Hnl' & Hel' & Hadj').
    eapply (refines_Ok _ _ _ g' _ L'); [exact Hstep|by rewrite exec_redirect, Hred|done|..]; cbn.
    + by rewrite Hnd, (rp_nodes _ _ Hr).
    + rewrite Hed, (rp_edges _ _ Hr). apply alter_moved.
    + intros m. by rewrite Hnl', (rp_nlive _ _ Hr).
    + intros x. by rewrite Hel', (rp_elive _ _ Hr).
    + intros d' m. by rewrite Hadj', !decide_moved, !Hadj.
Qed.

Lemma refines_move g a d old new : repr g a → refines g a (MoveAdjacency d old new).
Proof.
  intros Hr. destruct (rp_inv _ _ Hr) as (L & Hinv & Hadj).
  pose proof (repr_node_bound _ _ Hr) as Hb.
  destruct (decide (old ≠ new ∧ index old < length (a_nodes a))) as [[Hne Ho]|Hno].
  2:{ apply refines_panics; cbn; [by rewrite decide_False|]. apply panics_bind, (move_panics g L); [done|].
      left. by rewrite Hb. }
  assert (Hstep : a_step a (MoveAdjacency d old new) =
    match a_adj a d old with
    | [] => Some (a, RUnit)
    | M => if a_nlive a new then Some (a_move a d old new M, RUnit) else None
    end) by (cbn; by rewrite decide_True).
  rewrite <-Hb in Ho. destruct (a_adj a d old) as [|e M] eqn:HM; rewrite <-Hadj in HM.
  { eapply (refines_Ok _ _ _ g a L); [exact Hstep| |done|apply Hr..|done].
    cbn. by rewrite (move_empty g L). }
  assert (Hnil : adj g L d (index old) ≠ []) by (by rewrite HM). cbv zeta in Hstep. rewrite <-HM in Hstep.
  destruct (a_nlive a new) eqn:Hn; pose proof Hn as Hnl; rewrite <-(rp_nlive _ _ Hr) in Hnl.
  2:{ apply refines_panics; [done|]. cbn. apply panics_bind, (move_panics g L); [done|]. by right. }
  destruct (move_adjacency_spec g L old new d Hinv Ho Hne Hnil Hnl)
    as (g' & L' & Hmv & Hinv' & Hnd & Hed & Hnl' & Hel' & Hadj').
  eapply (refines_Ok _ _ _ g' _ L'); [exact Hstep| |done|..]; cbn.
  - by rewrite Hmv.
  - by rewrite Hnd, (rp_nodes _ _ Hr).
  - rewrite <-(rp_edges _ _ Hr). by apply moved_edges.
  - intros m. by rewrite Hnl', (rp_nlive _ _ Hr).
  - intros x. by rewrite Hel', (rp_elive _ _ Hr).
  - intros d' m. rewrite Hadj', !decide_moved, !Hadj. case_decide as Hd; [|done].
    destruct Hd as [-> ->]. symmetry. apply filter_none. intros x Hx []. done.
Qed.

Lemma refines_set_node g a n f : repr g a → refines g a (SetNode n f).
Proof.
  intros Hr. destruct (rp_inv _ _ Hr) as (L & Hinv & Hadj).
  pose proof (repr_node_bound _ _ Hr) as Hb.
  destruct (decide (index n < length (a_nodes a))) as [Hlt|Hge].
  - destruct (node_mut_spec g L n f Hinv) as (g' & Hm & Hinv' & Hn & He & Hnl & Hel & Hadj'); [lia|].
    eapply (refines_Ok _ _ _ g' _ L); [cbn; by rewrite decide_True| |done|..]; cbn.
    + by rewrite Hm.
    + by rewrite Hn, (rp_nodes _ _ Hr).
    + by rewrite He, (rp_edges _ _ Hr).
    + intros m. by rewrite Hnl, (rp_nlive _ _ Hr).
    + intros x. by rewrite Hel, (rp_elive _ _ Hr).
    + intros d m. by rewrite Hadj', Hadj.
  - apply refines_panics; cbn; [by rewrite decide_False|]. apply panics_bind, node_mut_panics. lia.
Qed.

Lemma refines_set_payload g a e f : repr g a → refines g a (SetPayload e f).
Proof.
  intros Hr. destruct (rp_inv _ _ Hr) as (L & Hinv & Hadj).
  pose proof (repr_edge_bound _ _ Hr) as Hb.
  destruct (decide (index e < length (a_edges a))) as [Hlt|Hge].
  - destruct (edge_payload_spec g L e f Hinv) as (g' & Hm & Hinv' & Hn & He & Hnl & Hel & Hadj'); [lia|].
    eapply (refines_Ok _ _ _ g' _ L); [cbn; by rewrite decide_True| |done|..]; cbn.
    + by rewrite Hm.
    + by rewrite Hn, (rp_nodes _ _ Hr).
    + by rewrite He, (rp_edges _ _ Hr).
    + intros m. by rewrite Hnl, (rp_nlive _ _ Hr).
    + intros x. by rewrite Hel, (rp_elive _ _ Hr).
    + intros d m. by rewrite Hadj', Hadj.
  - apply refines_panics; cbn; [by rewrite decide_False|]. apply panics_bind, edge_mut_panics. lia.
Qed.

Lemma step_refines g a ev : repr g a → refines g a ev.
Proof.
  destruct ev; auto using refines_add_node, refines_add_edge, refines_remove_edge,
    refines_remove_node, refines_redirect, refines_move, refines_set_node, refines_set_payload.
Qed.

End StoreSpec.
Arguments agraph : clear implicits.
Arguments event : clear implicits.
