(* ===== verification/StoreView.v ===== *)
(** * What the store's queries return

    Counts, identities, degrees and neighbours of a store under its invariant,
    in terms of the lists of [StoreInv]. *)

From S2P Require Import Prelude Words Liveness Ids View EdgeViews Chains Runs Store StoreInv.

Section StoreQuery.
Context {NP EP : Type}.
Implicit Types g : Graph NP EP.
Abbreviation chain_map := (TraversalDirection → nat → list N).

(** ** Identities *)

Lemma live_ids_spec bound tombstoned set :
  LiveSet.wf set → (N.of_nat bound ≤ U32_MAX)%N →
  (tombstoned = false → ∀ i, i < bound → LiveSet.live_in set i = true) →
  live_ids bound tombstoned set =
    Ok (N.of_nat <$> filter (λ i, LiveSet.live_in set i = true) (seq 0 bound)).
Proof.
  intros Hwf Hb Hall. unfold live_ids.
  cut (∀ l acc, (∀ i, i ∈ l → i < bound) → rfold (λ acc slot,
        keep ← (if tombstoned then LiveSet.is_live set slot else mret true);
        if (keep : bool) then id ← from_index slot; mret (acc ++ [id]) else mret acc) acc l =
      Ok (acc ++ (N.of_nat <$> filter (λ i, LiveSet.live_in set i = true) l))).
  { intros H. rewrite H; [done|]. intros i Hi. apply elem_of_seq in Hi. lia. }
  induction l as [|i l IH]; intros acc Hl; cbn [rfold]; [by rewrite app_nil_r|].
  assert (Hi : i < bound) by (apply Hl; left).
  assert (Hk : (if tombstoned then LiveSet.is_live set i else mret true) =
               Ok (LiveSet.live_in set i)).
  { destruct tombstoned; [by apply LiveSet.is_live_Ok|]. by rewrite Hall. }
  rewrite Hk. rsimpl. rewrite filter_cons. destruct (LiveSet.live_in set i).
  - rewrite from_index_eq by lia. rsimpl. rewrite decide_True, IH by set_solver.
    by rewrite <-app_assoc.
  - rsimpl. rewrite decide_False, IH by set_solver. done.
Qed.

Lemma node_ids_spec g L :
  walkable g L → node_ids g = Ok (N.of_nat <$> filter (λ i, nlive g i = true) (seq 0 (node_bound g))).
Proof.
  intros Hinv. apply live_ids_spec; [apply (inv_ln _ _ Hinv)|apply (inv_node_max _ _ Hinv)|].
  intros Ht i Hi. by apply (not_tombstoned_nodes _ _ Hinv).
Qed.

Lemma edge_ids_spec g L :
  walkable g L →
  edge_ids g = Ok (N.of_nat <$> filter (λ i, elive g (N.of_nat i) = true) (seq 0 (edge_bound g))).
Proof.
  intros Hinv. unfold edge_ids. rewrite live_ids_spec;
    [|apply (inv_le _ _ Hinv)|apply (inv_edge_max _ _ Hinv)|].
  - do 2 f_equal. apply filter_ext_in. intros i _. unfold elive, index. by rewrite Nat2N.id.
  - intros Ht i Hi. pose proof (not_tombstoned_edges _ _ Hinv (N.of_nat i) Ht) as H.
    unfold elive, index in H. rewrite Nat2N.id in H. auto.
Qed.

(** The counters are the numbers of identities. *)
Lemma node_count_ids g L ids : walkable g L → node_ids g = Ok ids → node_count g = length ids.
Proof.
  intros Hinv. rewrite (node_ids_spec g L Hinv). intros [= <-]. rewrite length_fmap.
  unfold node_count. rewrite (inv_ln_count _ _ Hinv). unfold LiveSet.live_slots, nlive.
  by rewrite (inv_ln_len _ _ Hinv).
Qed.

Lemma edge_count_ids g L ids : walkable g L → edge_ids g = Ok ids → edge_count g = length ids.
Proof.
  intros Hinv. rewrite (edge_ids_spec g L Hinv). intros [= <-]. rewrite length_fmap.
  unfold edge_count. rewrite (inv_le_count _ _ Hinv). unfold LiveSet.live_slots.
  rewrite (inv_le_len _ _ Hinv). f_equal. apply filter_ext_in. intros i _.
  unfold elive, index. by rewrite Nat2N.id.
Qed.

Lemma elem_of_ids (f : nat → bool) bound (x : Id) :
  x ∈ N.of_nat <$> filter (λ i, f i = true) (seq 0 bound) ↔ index x < bound ∧ f (index x) = true.
Proof.
  rewrite list_elem_of_fmap. unfold index. split.
  - intros (i & -> & [Hi Hs]%list_elem_of_filter). apply elem_of_seq in Hs.
    rewrite Nat2N.id. split; [lia|done].
  - intros [Hb Hf]. exists (N.to_nat x). rewrite N2Nat.id. split; [done|].
    apply list_elem_of_filter. split; [done|]. apply elem_of_seq. lia.
Qed.

Lemma ids_nodup (f : nat → bool) bound :
  NoDup (N.of_nat <$> filter (λ i, f i = true) (seq 0 bound)).
Proof.
  apply NoDup_fmap_2; [intros ???; lia|]. apply NoDup_filter, NoDup_seq.
Qed.

(** ** Degrees *)

Lemma degree_loop_spec fuel ax x l count :
  DeltaChains.path (ax_chains ax) (ax_chain ax) x l → NoDup (x :: l) → NONE ∉ x :: l →
  length l < fuel →
  degree_loop fuel ax x (DeltaChains.tail_of x l) count = Ok (count + S (length l)).
Proof.
  revert x l count. induction fuel as [|fuel IH]; intros x l count Hp Hnd HN Hf; [lia|].
  cbn [degree_loop]. rewrite decide_False by set_solver. destruct l as [|y l].
  - rewrite decide_True by done. f_equal. cbn. lia.
  - rewrite DeltaChains.tail_of_cons. rewrite decide_False.
    2:{ intros ->. apply NoDup_cons in Hnd as [Hnd _]. apply Hnd, DeltaChains.tail_of_elem. }
    destruct Hp as [Hy Hp]. apply DeltaChains.next_link_Some in Hy as (lk & Hlk & Hl).
    rewrite (vget_eq _ _ _ Hlk). rsimpl. rewrite Hl, IH; [f_equal; cbn; lia|done| | |cbn in Hf; lia].
    + by apply NoDup_cons in Hnd as [_ ?].
    + set_solver.
Qed.

(** The degree counts exactly the edges the walk yields. *)
Lemma degree_Ok g L n d :
  inv g L → index n < node_bound g → degree g n d = Ok (length (adj g L d (index n))).
Proof.
  intros Hinv Hn. unfold degree.
  destruct (adjacent_Ok g L Hinv n d Hn) as (w & bs & ds & -> & Hw & _ & Hp & _). rsimpl.
  destruct (w_live w) as [set|] eqn:Hl.
  { rewrite (collect_spec w bs ds Hw). rsimpl. by rewrite Hl, Hp. }
  destruct Hw as (_ & Hc & Hlen & _). pose proof (cursor_rep_size _ _ _ _ Hc Hlen) as Hsz.
  destruct Hc as [Hbase _ Hd Hnd HN].
  rewrite decide_True by (unfold index in Hbase; lia).
  assert (Hlive : length (adj g L d (index n)) = length bs + length ds).
  { rewrite <-Hp. unfold pending. rewrite filter_all by done. by rewrite length_app, length_fmap. }
  assert (Hcount : index (cur_base_end (w_cursor w) - cur_base (w_cursor w))%N = length bs).
  { unfold index in *. lia. }
  rewrite Hcount, Hlive. destruct ds as [|x l].
  - rewrite Hd. cbn [degree_loop]. rewrite decide_True by done. f_equal. cbn. lia.
  - destruct Hd as (-> & -> & Hpath). rewrite degree_loop_spec; [done|done|done|done|cbn in Hsz; lia].
Qed.

(** ** Neighbours *)

Definition flip (d : TraversalDirection) : TraversalDirection :=
  match d with Outgoing => Incoming | Incoming => Outgoing end.

(** The far ends of a list of edges. *)
Definition far_ends (records : list (EdgeRecord EP)) (d : TraversalDirection) (es : list Id) : list Id :=
  omap (λ e, endpoint (flip d) <$> records !! index e) es.

Lemma rmapM_far_ends g d es :
  (∀ e, e ∈ es → index e < edge_bound g) →
  rmapM (λ e, endpoint (flip d) <$> edge g e) es = Ok (far_ends (all_edges g) d es).
Proof.
  induction es as [|e es IH]; intros Hes; [done|]. cbn.
  destruct (lookup_lt_is_Some_2 (all_edges g) (index e)) as [r Hr].
  { rewrite length_all_edges. apply Hes. left. }
  rewrite (proj2 (edge_lookup g e r) Hr), Hr. cbn. rewrite IH by set_solver. done.
Qed.

Lemma successors_Ok g L n :
  inv g L → index n < node_bound g →
  successors g n = Ok (far_ends (all_edges g) Outgoing (adj g L Outgoing (index n))).
Proof.
  intros Hinv Hn. unfold successors, outgoing. rewrite (adjacency_Ok g L) by done. rsimpl.
  apply (rmapM_far_ends g Outgoing). intros e He. apply (elem_of_adj g L Hinv) in He as [He _].
  by apply (elive_lt _ _ Hinv).
Qed.

Lemma predecessors_Ok g L n :
  inv g L → index n < node_bound g →
  predecessors g n = Ok (far_ends (all_edges g) Incoming (adj g L Incoming (index n))).
Proof.
  intros Hinv Hn. unfold predecessors, incoming. rewrite (adjacency_Ok g L) by done. rsimpl.
  apply (rmapM_far_ends g Incoming). intros e He. apply (elem_of_adj g L Hinv) in He as [He _].
  by apply (elive_lt _ _ Hinv).
Qed.

Lemma successors_live g L n :
  mirrored g L → nlive g (index n) = true →
  successors g n = Ok (far_ends (all_edges g) Outgoing (adj g L Outgoing (index n))).
Proof.
  intros Hm Hn. unfold successors, outgoing. rewrite (adjacency_live g L Hm) by (done || apply (mi_run_length _ _ Hm)). rsimpl.
  apply (rmapM_far_ends g Outgoing). intros e [He _]%(mi_adj _ _ Hm); [|done]. by apply (elive_lt _ _ Hm).
Qed.

Lemma predecessors_live g L n :
  mirrored g L → nlive g (index n) = true →
  predecessors g n = Ok (far_ends (all_edges g) Incoming (adj g L Incoming (index n))).
Proof.
  intros Hm Hn. unfold predecessors, incoming. rewrite (adjacency_live g L Hm) by (done || apply (mi_run_length _ _ Hm)). rsimpl.
  apply (rmapM_far_ends g Incoming). intros e [He _]%(mi_adj _ _ Hm); [|done]. by apply (elive_lt _ _ Hm).
Qed.

End StoreQuery.

(** * The store as a view

    Models [graph/store/view.rs]: [Graph] implements [GraphView] and
    [EdgeView], and under its invariant it keeps both contracts. *)


Section StoreView.
Context {NP EP : Type}.

(** [impl GraphView for Graph] *)
#[export] Instance Graph_view : GraphView (Graph NP EP) := {|
  gv_node_bound := node_bound;
  gv_node_ids := node_ids;
  gv_successors := successors;
  gv_predecessors := predecessors;
|}.

(** [EdgeView::edge] of a store *)
Definition view_edge (g : Graph NP EP) (e : Id) : res (EdgeRef EP) :=
  live ← contains_edge g e;
  _ ← rassert live "edge has been removed";
  record ← edge g e;
  mret (mk_EdgeRef e (source record) (target record) (payload record)).

(** [impl EdgeView for Graph] *)
#[export] Instance Graph_edge_view : EdgeView (Graph NP EP) EP := {|
  ev_edge_bound := edge_bound;
  ev_edge_ids := edge_ids;
  ev_outgoing := outgoing;
  ev_incoming := incoming;
  ev_edge := view_edge;
|}.

(** [impl NodeView for Graph] *)
Definition view_node (g : Graph NP EP) (n : Id) : res NP := node g n.

Definition store_shape (g : Graph NP EP) (L : TraversalDirection → nat → list N) : eshape EP :=
  mk_eshape (node_bound g)
    (N.of_nat <$> filter (λ i, nlive g i = true) (seq 0 (node_bound g)))
    (edge_bound g)
    (N.of_nat <$> filter (λ i, elive g (N.of_nat i) = true) (seq 0 (edge_bound g)))
    (λ e, (λ r, mk_EdgeRef e (source r) (target r) (payload r)) <$> all_edges g !! index e)
    (λ d n, adj g L d (index n)).

Section Laws.
Context (g : Graph NP EP) (L : TraversalDirection → nat → list N) (Hinv : mirrored g L).

Lemma near_endpoint d e (r : EdgeRecord EP) :
  near d (mk_EdgeRef e (source r) (target r) (payload r)) = endpoint d r.
Proof. by destruct d. Qed.

Lemma store_node_ids n :
  n ∈ es_nodes (store_shape g L) ↔ nlive g (index n) = true.
Proof.
  cbn. rewrite (elem_of_ids (nlive g)). split; [by intros [_ ?]|]. intros H.
  split; [by apply (nlive_lt _ _ Hinv)|done].
Qed.

Lemma store_edge_ids e : e ∈ es_ids (store_shape g L) ↔ elive g e = true.
Proof.
  cbn. rewrite (elem_of_ids (λ i, elive g (N.of_nat i))). unfold index. rewrite N2Nat.id.
  split; [by intros [_ ?]|]. intros H. split; [by apply (elive_lt _ _ Hinv)|done].
Qed.

Lemma live_edge_record e :
  elive g e = true → ∃ r, all_edges g !! index e = Some r ∧
    ∀ d, nlive g (index (endpoint d r)) = true.
Proof.
  intros He. destruct (lookup_lt_is_Some_2 (all_edges g) (index e)) as [r Hr].
  { rewrite length_all_edges. by apply (elive_lt _ _ Hinv). }
  exists r. split; [done|]. intros d. by eapply (mi_live_end _ _ Hinv).
Qed.

Lemma store_eshape_ok : eshape_ok (store_shape g L).
Proof.
  split.
  - intros n Hn%store_node_ids. by apply (nlive_lt _ _ Hinv).
  - apply (ids_nodup (nlive g)).
  - intros e He%store_edge_ids. by apply (elive_lt _ _ Hinv).
  - apply (ids_nodup (λ i, elive g (N.of_nat i))).
  - intros e He%store_edge_ids. destruct (live_edge_record e He) as (r & Hr & Hends). cbn. rewrite Hr.
    eexists. split; [done|]. split; [done|]. intros d.
    rewrite store_node_ids, near_endpoint. apply Hends.
  - intros d n Hn%store_node_ids. by apply (mi_nodup _ _ Hinv).
  - intros d n e Hn. rewrite store_edge_ids. apply store_node_ids in Hn. cbn. rewrite (mi_adj _ _ Hinv) by done.
    split; intros [He (r & Hr & Hend)]; (split; [done|]).
    + rewrite Hr. eexists. split; [done|]. rewrite near_endpoint. by apply N2Nat.inj.
    + apply fmap_Some in Hr as (r' & Hr & ->). exists r'. rewrite near_endpoint in Hend. by subst n.
Qed.

#[export] Instance store_EdgeViews : EdgeViews g (store_shape g L).
Proof.
  split.
  - split; [done|exact (node_ids_spec g L Hinv)| |apply eshape_shape_ok, store_eshape_ok].
    intros d n Hn%store_node_ids.
    assert (Hfar : far_ends (all_edges g) d (adj g L d (index n)) =
                   sh_next (es_shape (store_shape g L)) d n).
    { cbn. apply list_omap_ext, Forall2_same_length_lookup. split; [done|]. intros i e e' -> [= <-].
      destruct (all_edges g !! index e); [|done]. by destruct d. }
    rewrite <-Hfar. destruct d; [by apply (successors_live g L)|by apply (predecessors_live g L)].
  - done.
  - exact (edge_ids_spec g L Hinv).
  - intros d n Hn%store_node_ids. destruct d; apply (adjacency_live g L Hinv); (done || apply (mi_run_length _ _ Hinv)).
  - intros e r He%store_edge_ids Hr. cbn in Hr |- *. apply fmap_Some in Hr as (r' & Hr & ->).
    unfold view_edge. rewrite (contains_edge_Ok g L Hinv), He. rsimpl.
    by rewrite (proj2 (edge_lookup g e r') Hr).
  - apply store_eshape_ok.
Qed.

End Laws.
End StoreView.
