(* ===== verification/Compress.v ===== *)
(** * Building a compressed adjacency index

    Models [compress] of [graph/store/adjacency.rs]: one counting pass, a
    prefix sum, and a stable placement pass. It never panics, and the run of
    each node is the list of its edges in insertion order. *)

From S2P Require Import Prelude Ids Chains Runs Store StoreInv.

Section Compress.
Context {EP : Type}.

(** [vector\[i\] += by] on a [Vec<u32>] *)
Definition vadd (v : list N) (i : nat) (by_ : N) : res (list N) :=
  x ← vget v i; y ← u32_add x by_; vset v i y.

(** The first loop of [compress] *)
Definition count_pass (edges : list (EdgeRecord EP)) (d : TraversalDirection) (offsets : list N)
    : res (list N) :=
  rfold (λ offsets edge, vadd offsets (index (endpoint d edge) + 1) 1) offsets edges.

(** The second loop *)
Definition prefix_pass (offsets : list N) : res (list N) :=
  rfold (λ offsets i, before ← vget offsets (i - 1); vadd offsets i before)
    offsets (seq 1 (length offsets - 1)).

(** The third loop *)
Definition place_pass (edges : list (EdgeRecord EP)) (d : TraversalDirection)
    (next adjacency : list N) : res (list N * list N) :=
  rfold (λ '(next, adjacency) '(i, edge),
      slot ← vget next (index (endpoint d edge));
      raw ← expect (u32_try_from i) "compacted edge index exceeds u32::MAX";
      adjacency' ← vset adjacency (index slot) raw;
      next' ← vadd next (index (endpoint d edge)) 1;
      mret (next', adjacency'))
    (next, adjacency) (imap pair edges).

(** [compress] *)
Definition compress (edges : list (EdgeRecord EP)) (nodes : nat) (d : TraversalDirection)
    : res (list N * list N) :=
  offsets ← count_pass edges d (replicate (nodes + 1) 0%N);
  offsets ← prefix_pass offsets;
  let next := take nodes offsets in
  let adjacency := replicate (length edges) 0%N in
  '(_, adjacency) ← place_pass edges d next adjacency;
  mret (offsets, adjacency).

(** ** Counting *)

(** Edges of [l] filed under [n], and under a node before [n]. *)
Definition cnt (d : TraversalDirection) (l : list (EdgeRecord EP)) (n : nat) : nat :=
  length (filter (λ r, index (endpoint d r) = n) l).
Definition cnt_lt (d : TraversalDirection) (l : list (EdgeRecord EP)) (n : nat) : nat :=
  length (filter (λ r, index (endpoint d r) < n) l).

Lemma cnt_app d l1 l2 n : cnt d (l1 ++ l2) n = cnt d l1 n + cnt d l2 n.
Proof. unfold cnt. by rewrite filter_app, length_app. Qed.

Lemma cnt_snoc d l r n :
  cnt d (l ++ [r]) n = cnt d l n + if decide (index (endpoint d r) = n) then 1 else 0.
Proof. rewrite cnt_app. unfold cnt at 2. rewrite filter_cons, filter_nil. by case_decide. Qed.

Lemma cnt_lt_S d l n : cnt_lt d l (S n) = cnt_lt d l n + cnt d l n.
Proof.
  unfold cnt_lt, cnt. induction l as [|r l IH]; [done|].
  rewrite !filter_cons. repeat case_decide; cbn; lia.
Qed.

Lemma cnt_lt_0 d l : cnt_lt d l 0 = 0.
Proof. unfold cnt_lt. rewrite filter_none; [done|lia]. Qed.

Lemma cnt_lt_all d l n :
  (∀ r, r ∈ l → index (endpoint d r) < n) → cnt_lt d l n = length l.
Proof. intros H. unfold cnt_lt. by rewrite filter_all. Qed.

Lemma cnt_lt_mono d l n m : n ≤ m → cnt_lt d l n ≤ cnt_lt d l m.
Proof. induction 1 as [|m _ IH]; [done|]. rewrite cnt_lt_S. lia. Qed.

Lemma cnt_lt_le d l n : cnt_lt d l n ≤ length l.
Proof. unfold cnt_lt. apply length_filter. Qed.

Lemma cnt_lt_lt d l n m : n < m → cnt_lt d l n + cnt d l n ≤ cnt_lt d l m.
Proof. intros H. rewrite <-cnt_lt_S. by apply cnt_lt_mono. Qed.

Lemma cnt_take d l j n : cnt d (take j l) n ≤ cnt d l n.
Proof. rewrite <-(take_drop j l) at 2. rewrite cnt_app. lia. Qed.

Lemma cnt_take_lt d l j r n :
  l !! j = Some r → index (endpoint d r) = n → cnt d (take j l) n < cnt d l n.
Proof.
  intros Hj Hn. rewrite <-(take_drop_middle l j r Hj) at 2. rewrite cnt_app.
  unfold cnt at 3. rewrite filter_cons, decide_True by done. cbn. lia.
Qed.

(** ** The passes *)

Section Passes.
Context (edges : list (EdgeRecord EP)) (nodes : nat) (d : TraversalDirection).
Context (Hends : ∀ r, r ∈ edges → index (endpoint d r) < nodes).
Context (Hlen : (N.of_nat (length edges) ≤ U32_MAX)%N).

Lemma vadd_Ok v i x by_ :
  v !! i = Some x → (x + by_ ≤ U32_MAX)%N → vadd v i by_ = Ok (<[i := (x + by_)%N]> v).
Proof.
  intros Hi Hb. unfold vadd. rewrite (vget_eq _ _ _ Hi). rsimpl. rewrite u32_add_eq by done.
  rsimpl. apply vset_lt. by eapply lookup_lt_Some.
Qed.

(** A table with one entry per slot, described by a function. *)
Definition table (f : nat → nat) (n : nat) : list N := (λ i, N.of_nat (f i)) <$> seq 0 n.

Lemma table_lookup f n i : i < n → table f n !! i = Some (N.of_nat (f i)).
Proof. intros H. unfold table. rewrite list_lookup_fmap, lookup_seq_lt by done. done. Qed.

Lemma length_table f n : length (table f n) = n.
Proof. unfold table. by rewrite length_fmap, length_seq. Qed.

Lemma table_ext f h n : (∀ i, i < n → f i = h i) → table f n = table h n.
Proof.
  intros H. apply list_fmap_ext. intros i x Hx. apply lookup_seq in Hx as [-> Hi]. cbn.
  by rewrite H.
Qed.

Lemma table_vadd f n i by_ :
  i < n → (N.of_nat (f i + by_) ≤ U32_MAX)%N →
  vadd (table f n) i (N.of_nat by_) = Ok (table (λ j, f j + if decide (i = j) then by_ else 0) n).
Proof.
  intros Hi Hb. rewrite (vadd_Ok _ _ (N.of_nat (f i))); [|by apply table_lookup|lia].
  f_equal. apply list_eq. intros j. destruct (decide (j < n)) as [Hj|Hj].
  - rewrite (table_lookup _ _ _ Hj). destruct (decide (i = j)) as [->|Hne].
    + rewrite list_lookup_insert_eq by (by rewrite length_table). f_equal. lia.
    + rewrite list_lookup_insert_ne, table_lookup by done. f_equal. lia.
  - rewrite !lookup_ge_None_2; [done|rewrite length_table; lia|rewrite length_insert, length_table; lia].
Qed.

Lemma count_pass_Ok :
  count_pass edges d (replicate (nodes + 1) 0%N) =
    Ok (table (λ i, match i with 0 => 0 | S n => cnt d edges n end) (nodes + 1)).
Proof.
  assert (Hrep : replicate (nodes + 1) 0%N =
                 table (λ i, match i with 0 => 0 | S n => cnt d [] n end) (nodes + 1)).
  { unfold table. generalize 0 at 3. induction (nodes + 1) as [|k IH]; intros i; [done|].
    cbn. rewrite <-IH. by destruct i. }
  rewrite Hrep.
  destruct (rfold_inv (λ P v, v = table (λ i, match i with 0 => 0 | S n => cnt d P n end) (nodes + 1))
    (λ offsets edge, vadd offsets (index (endpoint d edge) + 1) 1)
    (table (λ i, match i with 0 => 0 | S n => cnt d [] n end) (nodes + 1)) edges) as (v & Hv & ->).
  - done.
  - intros P r v Hpre ->. assert (Hr : index (endpoint d r) < nodes).
    { apply Hends. eapply elem_of_prefix; [|done]. apply elem_of_app. right. by apply list_elem_of_singleton. }
    change 1%N with (N.of_nat 1). rewrite table_vadd.
    + eexists. split; [done|]. apply table_ext. intros [|n] _; rewrite ?cnt_snoc;
        repeat case_decide; lia.
    + lia.
    + rewrite (Nat.add_1_r (index _)). apply prefix_length in Hpre. rewrite length_app in Hpre. cbn in Hpre.
      assert (cnt d P (index (endpoint d r)) ≤ length P) by apply length_filter. cbv beta iota in *. lia.
  - exact Hv.
Qed.

Lemma prefix_pass_Ok :
  prefix_pass (table (λ i, match i with 0 => 0 | S n => cnt d edges n end) (nodes + 1)) =
    Ok (table (cnt_lt d edges) (nodes + 1)).
Proof.
  unfold prefix_pass. rewrite length_table. replace (nodes + 1 - 1) with nodes by lia.
  set (F := λ k i, if decide (i ≤ k) then cnt_lt d edges i
                   else match i with 0 => 0 | S n => cnt d edges n end).
  assert (Hstart : table (λ i, match i with 0 => 0 | S n => cnt d edges n end) (nodes + 1) =
                   table (F 0) (nodes + 1)).
  { apply table_ext. intros i _. unfold F. case_decide; [|done].
    replace i with 0 by lia. by rewrite cnt_lt_0. }
  assert (Hend : table (cnt_lt d edges) (nodes + 1) = table (F nodes) (nodes + 1)).
  { apply table_ext. intros i Hi. unfold F. rewrite decide_True by lia. done. }
  rewrite Hstart, Hend. clear Hstart Hend.
  cut (∀ k m, k + m = nodes →
    rfold (λ offsets i, before ← vget offsets (i - 1); vadd offsets i before)
      (table (F k) (nodes + 1)) (seq (S k) m) = Ok (table (F nodes) (nodes + 1))).
  { intros Hc. by apply Hc. }
  intros k m. revert k. induction m as [|m IH]; intros k Hk; cbn [seq rfold].
  - by replace k with nodes by lia.
  - rewrite (vget_eq _ _ (N.of_nat (F k k))).
    2:{ replace (S k - 1) with k by lia. apply table_lookup. lia. }
    assert (HFk : F k k = cnt_lt d edges k) by (unfold F; by rewrite decide_True).
    assert (HFS : F k (S k) = cnt d edges k) by (unfold F; rewrite decide_False; [done|lia]).
    rsimpl. rewrite table_vadd.
    + rewrite <-(IH (S k)) by lia. rsimpl. f_equal. apply table_ext. intros i Hi. rewrite HFk.
      unfold F. destruct (decide (S k = i)) as [<-|Hne].
      * rewrite decide_False, decide_True, cnt_lt_S by lia. lia.
      * repeat case_decide; lia.
    + lia.
    + rewrite HFk, HFS, Nat.add_comm, <-cnt_lt_S. pose proof (cnt_lt_le d edges (S k)). lia.
Qed.

(** Where the placement pass puts the edge at position [j]. *)
Definition place (j : nat) (r : EdgeRecord EP) : nat :=
  cnt_lt d edges (index (endpoint d r)) + cnt d (take j edges) (index (endpoint d r)).

Lemma place_lt j r : edges !! j = Some r → place j r < length edges.
Proof.
  intros Hj. unfold place. pose proof (cnt_take_lt d edges j r _ Hj eq_refl).
  pose proof (cnt_lt_lt d edges (index (endpoint d r)) nodes) as H1.
  rewrite (cnt_lt_all d edges nodes) in H1 by done.
  assert (index (endpoint d r) < nodes) by (apply Hends; by eapply list_elem_of_lookup_2). lia.
Qed.

Lemma place_ne j k r s : edges !! j = Some r → edges !! k = Some s → j < k → place j r ≠ place k s.
Proof.
  intros Hj Hk Hlt. unfold place.
  pose proof (cnt_take_lt d edges j r _ Hj eq_refl). pose proof (cnt_take_lt d edges k s _ Hk eq_refl).
  destruct (Nat.lt_trichotomy (index (endpoint d r)) (index (endpoint d s))) as [Ho|[Ho|Ho]].
  - pose proof (cnt_lt_lt d edges _ _ Ho). lia.
  - rewrite <-Ho. assert (take k edges !! j = Some r) as Hj' by by rewrite lookup_take_lt.
    pose proof (cnt_take_lt d _ j r _ Hj' eq_refl) as Hc.
    rewrite take_take, Nat.min_l in Hc by lia. lia.
  - pose proof (cnt_lt_lt d edges _ _ Ho). lia.
Qed.

(** After a prefix [P], every placed edge is in its place and [next] points
    past the placed edges of each node. *)
Lemma place_pass_Ok :
  ∃ next adjacency,
    place_pass edges d (table (cnt_lt d edges) nodes) (replicate (length edges) 0%N) = Ok (next, adjacency) ∧
    length adjacency = length edges ∧
    Forall (λ e, index e < length edges) adjacency ∧
    ∀ j r, edges !! j = Some r → adjacency !! place j r = Some (N.of_nat j).
Proof.
  set (P := λ (k : nat) (st : list N * list N),
    st.1 = table (λ n, cnt_lt d edges n + cnt d (take k edges) n) nodes ∧
    length st.2 = length edges ∧
    Forall (λ e, index e < length edges) st.2 ∧
    ∀ j r, j < k → edges !! j = Some r → st.2 !! place j r = Some (N.of_nat j)).
  destruct (rfold_inv (λ dn st, P (length dn) st)
    (λ '(next, adjacency) '(i, edge),
      slot ← vget next (index (endpoint d edge));
      raw ← expect (u32_try_from i) "compacted edge index exceeds u32::MAX";
      adjacency' ← vset adjacency (index slot) raw;
      next' ← vadd next (index (endpoint d edge)) 1;
      mret (next', adjacency'))
    (table (cnt_lt d edges) nodes, replicate (length edges) 0%N) (imap pair edges))
    as ([next adjacency] & Hrun & Hn & Hl & Hall & Hplaced).
  - split_and!; cbn; [|by rewrite length_replicate| |lia].
    2:{ destruct edges; [constructor|]. apply Forall_replicate. unfold index; cbn; lia. }
    apply table_ext. intros i _. rewrite ?take_0, ?filter_nil. cbn. lia.
  - intros dn [i r] [nx ad] Hpre (Hnx & Hla & Hal & Hp). cbn in Hnx, Hla, Hal, Hp. subst nx.
    assert (i = length dn ∧ edges !! length dn = Some r) as [-> Hr].
    { assert ((imap pair edges : list (nat * EdgeRecord EP)) !! length dn = Some (i, r)) as Hl.
      { eapply prefix_lookup_Some; [|exact Hpre]. by rewrite list_lookup_middle. }
      rewrite list_lookup_imap in Hl. apply fmap_Some in Hl as (r' & Hr' & [= -> ->]). done. }
    set (i := length dn) in *. set (n := index (endpoint d r)) in *.
    assert (Hn : n < nodes) by (apply Hends; by eapply list_elem_of_lookup_2).
    assert (Hi : i < length edges) by (by eapply lookup_lt_Some).
    pose proof (place_lt i r Hr) as Hplt. unfold place in Hplt. fold n in Hplt.
    rewrite (vget_eq _ _ _ (table_lookup _ _ _ Hn)). rsimpl.
    rewrite (proj2 (u32_try_from_Some i (N.of_nat i))) by (split; [done|lia]). cbn [expect]. rsimpl.
    change (cnt_lt d edges n + cnt d (take i edges) n) with (place i r) at 1.
    replace (index (N.of_nat (place i r))) with (place i r) by (symmetry; apply Nat2N.id).
    rewrite vset_lt by (rewrite Hla; by apply place_lt). rsimpl.
    change 1%N with (N.of_nat 1). rewrite table_vadd by lia. rsimpl.
    eexists. split; [done|]. unfold P. rewrite length_app. cbn. fold i. split_and!.
    + apply table_ext. intros m _. rewrite Nat.add_1_r, (take_S_r _ _ r Hr), cnt_snoc.
      fold n. lia.
    + by rewrite length_insert.
    + apply Forall_insert; [done|]. unfold index. by rewrite Nat2N.id.
    + intros j s Hj Hs. destruct (decide (j = i)) as [->|Hne].
      * rewrite Hr in Hs. simplify_eq. rewrite list_lookup_insert_eq; [done|].
        rewrite Hla. by apply place_lt.
      * rewrite list_lookup_insert_ne; [apply Hp; [lia|done]|].
        intros Heq. symmetry in Heq. revert Heq. apply (place_ne j i); [done|done|lia].
  - exists next, adjacency. split_and!; [exact Hrun|exact Hl|exact Hall|].
    intros j r Hj. apply Hplaced; [|done]. rewrite length_imap. by eapply lookup_lt_Some.
Qed.

End Passes.

(** ** The runs *)

(** The edges filed under [n], in insertion order. *)
Definition bucket (d : TraversalDirection) (edges : list (EdgeRecord EP)) (n : nat) : list N :=
  N.of_nat <$> filter (λ j, (λ r, index (endpoint d r)) <$> edges !! j = Some n) (seq 0 (length edges)).

Lemma bucket_snoc d edges r n :
  bucket d (edges ++ [r]) n =
    bucket d edges n ++ if decide (index (endpoint d r) = n) then [N.of_nat (length edges)] else [].
Proof.
  unfold bucket. rewrite length_app, Nat.add_1_r, seq_S, filter_app, fmap_app. f_equal.
  - f_equal. apply filter_ext_in. intros j Hj. apply elem_of_seq in Hj. by rewrite lookup_app_l by lia.
  - rewrite filter_cons, filter_nil. cbn. rewrite lookup_app_r, Nat.sub_diag by lia. cbn.
    repeat case_decide; naive_solver.
Qed.

Lemma length_bucket d edges n : length (bucket d edges n) = cnt d edges n.
Proof.
  induction edges as [|r edges IH] using rev_ind; [done|].
  rewrite bucket_snoc, cnt_snoc, length_app, IH. by case_decide.
Qed.

Lemma bucket_lookup d edges n j r :
  edges !! j = Some r → index (endpoint d r) = n →
  bucket d edges n !! cnt d (take j edges) n = Some (N.of_nat j).
Proof.
  induction edges as [|s edges IH] using rev_ind; [done|]. intros Hj Hr.
  rewrite bucket_snoc. destruct (decide (j < length edges)) as [Hlt|Hge].
  - rewrite take_app_le by lia. rewrite lookup_app_l in Hj by lia. rewrite lookup_app_l; [auto|].
    rewrite length_bucket. by eapply cnt_take_lt.
  - pose proof (lookup_lt_Some _ _ _ Hj) as Hb. rewrite length_app in Hb. cbn in Hb.
    replace j with (length edges) in * by lia. rewrite list_lookup_middle in Hj by done. simplify_eq.
    rewrite take_app_length, decide_True by done.
    rewrite lookup_app_r by (rewrite length_bucket; lia). by rewrite length_bucket, Nat.sub_diag.
Qed.

Lemma elem_of_bucket d edges n (x : N) :
  x ∈ bucket d edges n ↔ ∃ r, edges !! index x = Some r ∧ index (endpoint d r) = n.
Proof.
  unfold bucket. rewrite list_elem_of_fmap. split.
  - intros (j & -> & [(r & Hr & ->)%fmap_Some _]%list_elem_of_filter). unfold index.
    rewrite Nat2N.id. eauto.
  - intros (r & Hr & <-). exists (index x). unfold index. rewrite N2Nat.id. split; [done|].
    apply list_elem_of_filter. unfold index in Hr. rewrite Hr. split; [done|].
    apply elem_of_seq. apply lookup_lt_Some in Hr. lia.
Qed.

Lemma bucket_nodup d edges n : NoDup (bucket d edges n).
Proof. apply NoDup_fmap_2; [intros ???; lia|]. apply NoDup_filter, NoDup_seq. Qed.

Lemma bucket_sorted d edges n : StronglySorted N.lt (bucket d edges n).
Proof.
  induction edges as [|r edges IH] using rev_ind; [constructor|].
  rewrite bucket_snoc. case_decide; [|by rewrite app_nil_r].
  assert (Hall : ∀ x, x ∈ bucket d edges n → (x < N.of_nat (length edges))%N).
  { intros x (s & Hs%lookup_lt_Some & _)%elem_of_bucket. unfold index in Hs. lia. }
  revert IH Hall. generalize (bucket d edges n) as l. induction l as [|y l IHl]; intros Hs Hall.
  - repeat constructor.
  - apply StronglySorted_inv in Hs as [Hs Hy]. cbn. constructor; [apply IHl; [done|set_solver]|].
    apply Forall_app. split; [done|]. constructor; [|constructor]. apply Hall. left.
Qed.

(** [compress] never panics on edges whose endpoints are in range, its index
    is well formed, and the run of each node lists its edges in insertion
    order: a stable counting sort. *)
Lemma compress_spec edges nodes d :
  (∀ r, r ∈ edges → index (endpoint d r) < nodes) → (N.of_nat (length edges) ≤ U32_MAX)%N →
  ∃ offsets adjacency, compress edges nodes d = Ok (offsets, adjacency) ∧
    csr_wf offsets adjacency nodes (length edges) ∧
    (∀ n, n < nodes → csr_run offsets adjacency n = bucket d edges n) ∧
    (∀ n, n < nodes → offsets !! n = Some (N.of_nat (cnt_lt d edges n))).
Proof.
  intros Hends Hlen. unfold compress. rewrite (count_pass_Ok edges nodes d Hends Hlen). rsimpl.
  rewrite (prefix_pass_Ok edges nodes d Hlen). rsimpl.
  assert (Htake : take nodes (table (cnt_lt d edges) (nodes + 1)) = table (cnt_lt d edges) nodes).
  { unfold table. rewrite <-fmap_take, take_seq. f_equal. f_equal. lia. }
  rewrite Htake. destruct (place_pass_Ok edges nodes d Hends Hlen) as (nx & ad & -> & Hla & Hall & Hplace).
  rsimpl. exists (table (cnt_lt d edges) (nodes + 1)), ad. split; [done|].
  assert (Hrun : ∀ n, n < nodes →
    csr_run (table (cnt_lt d edges) (nodes + 1)) ad n = bucket d edges n).
  { intros n Hn. unfold csr_run. rewrite !table_lookup by lia. unfold index.
    rewrite !Nat2N.id, Nat.add_1_r, cnt_lt_S.
    replace (cnt_lt d edges n + cnt d edges n - cnt_lt d edges n) with (cnt d edges n) by lia.
    assert (Hfit : cnt_lt d edges n + cnt d edges n ≤ length ad).
    { rewrite Hla, <-cnt_lt_S. apply cnt_lt_le. }
    apply list_eq_same_length with (cnt d edges n).
    - apply length_bucket.
    - rewrite length_take, length_drop. lia.
    - intros k x y Hk Hx Hy. rewrite lookup_take_lt, lookup_drop in Hx by done.
      assert (y ∈ bucket d edges n) as (r & Hr & Hend)%elem_of_bucket by (by eapply list_elem_of_lookup_2).
      pose proof (bucket_lookup d edges n _ r Hr Hend) as Hpos. unfold index in Hpos.
      rewrite N2Nat.id in Hpos.
      assert (k = cnt d (take (index y) edges) n) as -> by (by eapply NoDup_lookup; [apply bucket_nodup| |]).
      specialize (Hplace (index y) r Hr). unfold place in Hplace. rewrite Hend, Hx in Hplace.
      injection Hplace as ->. unfold index. by rewrite N2Nat.id. }
  split_and!; [|exact Hrun|intros n Hn; apply table_lookup; lia].
  right. rewrite length_table. split_and!; [done|done| | | |].
  - rewrite table_lookup, cnt_lt_0 by lia. done.
  - rewrite table_lookup, cnt_lt_all by (lia || done). done.
  - intros n lo hi Hlo Hhi. pose proof (lookup_lt_Some _ _ _ Hhi) as Hb. rewrite length_table in Hb.
    rewrite table_lookup in Hlo, Hhi by lia. simplify_eq. rewrite Nat.add_1_r, cnt_lt_S. lia.
  - intros e He. rewrite Forall_forall in Hall. by apply Hall.
Qed.
End Compress.
