(* ===== verification/Renumbering.v ===== *)
(** * Renumberings

    Models [graph/store/renumbering.rs]: the old-to-new translation a
    compaction reports, and its composition. *)

From S2P Require Import Prelude Ids.

(** [translate] *)
Definition translate (mapping : list N) (old : nat) : option Id :=
  new ← mapping !! old; if decide (new = NONE) then None else Some new.

(** [compose_axis] *)
Definition compose_axis (first second : list N) : list N :=
  (λ intermediate, if decide (intermediate = NONE) then NONE
                   else default NONE (second !! index intermediate)) <$> first.

(** [is_identity_axis] *)
Definition is_identity_axis (mapping : list N) : bool :=
  forallb (λ '(old, new), match u32_try_from old with
                          | Some old => bool_decide (old = new)
                          | None => false
                          end) (imap pair mapping).

(** [Renumbering<NT, ET>] *)
Record Renumbering : Type := mk_Renumbering { rn_nodes : list N; rn_edges : list N }.

Module Renumber.

Definition node (r : Renumbering) (old : Id) : option Id := translate (rn_nodes r) (index old).
Definition edge (r : Renumbering) (old : Id) : option Id := translate (rn_edges r) (index old).
Definition node_bound (r : Renumbering) : nat := length (rn_nodes r).
Definition edge_bound (r : Renumbering) : nat := length (rn_edges r).
Definition compose (r later : Renumbering) : Renumbering :=
  mk_Renumbering (compose_axis (rn_nodes r) (rn_nodes later))
                 (compose_axis (rn_edges r) (rn_edges later)).
Definition is_identity (r : Renumbering) : bool :=
  is_identity_axis (rn_nodes r) && is_identity_axis (rn_edges r).

Lemma translate_compose first second old :
  translate (compose_axis first second) old = (translate first old ≫= λ i, translate second (index i)).
Proof.
  unfold translate, compose_axis. rewrite list_lookup_fmap.
  destruct (first !! old) as [i|]; [|done].
  cbn [fmap option_fmap option_map mbind option_bind]. destruct (decide (i = NONE)) as [Hi|Hi]; [by case_decide|].
  cbn [mbind option_bind]. destruct (second !! index i) as [j|]; [done|by case_decide].
Qed.

(** Composition is composition of the partial maps. *)
Lemma compose_spec (r later : Renumbering) (x : Id) :
  node (compose r later) x = (node r x ≫= node later) ∧
  edge (compose r later) x = (edge r x ≫= edge later).
Proof. split; apply translate_compose. Qed.

Lemma is_identity_axis_spec mapping :
  (N.of_nat (length mapping) ≤ U32_MAX)%N →
  is_identity_axis mapping = true ↔
  ∀ old, old < length mapping → translate mapping old = Some (N.of_nat old).
Proof.
  intros Hb. unfold is_identity_axis. rewrite forallb_forall. split.
  - intros H old Hold. destruct (lookup_lt_is_Some_2 mapping old Hold) as [new Hnew].
    assert (In (old, new) (imap pair mapping)) as Hin.
    { apply list_elem_of_In, (list_elem_of_lookup_2 _ old). by rewrite list_lookup_imap, Hnew. }
    specialize (H _ Hin). cbn in H.
    rewrite (proj2 (u32_try_from_Some old (N.of_nat old))) in H by (split; [done|lia]).
    apply bool_decide_eq_true in H. unfold translate. rewrite Hnew. cbn. subst new.
    rewrite decide_False; [done|]. unfold NONE. lia.
  - intros H [old new] Hin. apply list_elem_of_In, list_elem_of_lookup in Hin as [i Hi].
    rewrite list_lookup_imap in Hi. apply fmap_Some in Hi as (x & Hx & [= <- ->]).
    pose proof (lookup_lt_Some _ _ _ Hx) as Hlt. specialize (H _ Hlt).
    unfold translate in H. rewrite Hx in H. cbn in H. case_decide; [done|]. simplify_eq.
    rewrite (proj2 (u32_try_from_Some old (N.of_nat old))) by (split; [done|lia]).
    by apply bool_decide_eq_true.
Qed.

End Renumber.
