(* ===== verification/Slots.v ===== *)
(** * Slots, ranks and runs

    The parts of [graph/store/compact.rs] that know nothing of the store:
    numbering the surviving slots, and overwriting runs of a compressed index.
    The new number of a live slot is its rank among the live ones. *)

From S2P Require Import Prelude Words Liveness Ids Chains Runs Store StoreInv.

(** [slice::is_sorted] *)
Fixpoint is_sorted (l : list N) : bool :=
  match l with
  | x :: l' => match l' with
               | y :: _ => bool_decide (x ≤ y)%N && is_sorted l'
               | [] => true
               end
  | [] => true
  end.

(** [surviving_slots] *)
Definition surviving_slots (live : LiveSet.t) (slots : nat) : res (list N) :=
  '(mapping, _) ← rfold (λ '(mapping, next) slot,
      alive ← LiveSet.is_live live slot;
      if (alive : bool) then next' ← u32_add next 1; mret (mapping ++ [next], next')
      else mret (mapping ++ [NONE], next)) ([], 0%N) (seq 0 slots);
  mret mapping.

(** [restore_runs] *)
Definition restore_runs (offsets edges : list N) (reordered : list (N * list N)) : res (list N) :=
  rfold (λ edges '(node, run),
    start ← vget offsets (index node);
    let start := index start in
    if decide (start + length run ≤ length edges)
    then mret (take start edges ++ run ++ drop (start + length run) edges)
    else Panic "slice index out of range") edges reordered.

(** [remap_endpoint] *)
Definition remap_endpoint (node_map : list N) (old : Id) : res Id :=
  new ← vget node_map (index old);
  _ ← rassert (bool_decide (new ≠ NONE)) "a live edge always has live endpoints";
  mret new.

(** ** Ranks *)

Section Ranks.
Context (f : nat → bool).

Definition rank (i : nat) : nat := length (filter (λ j, f j = true) (seq 0 i)).
Definition renum (x : Id) : Id := N.of_nat (rank (index x)).
Definition slot_map (n : nat) : list N :=
  (λ i, if f i then N.of_nat (rank i) else NONE) <$> seq 0 n.

Lemma rank_S i : rank (S i) = rank i + if f i then 1 else 0.
Proof.
  unfold rank. rewrite seq_S, filter_app, length_app, filter_cons, filter_nil. cbn.
  destruct (f i); by case_decide.
Qed.

Lemma rank_le i : rank i ≤ i.
Proof. unfold rank. etrans; [apply length_filter|]. by rewrite length_seq. Qed.

Lemma rank_mono i j : i ≤ j → rank i ≤ rank j.
Proof. induction 1 as [|j _ IH]; [done|]. rewrite rank_S. lia. Qed.

Lemma rank_lt i j : f i = true → i < j → rank i < rank j.
Proof. intros Hi Hij. apply (rank_mono (S i) j) in Hij. rewrite rank_S, Hi in Hij. lia. Qed.

Lemma rank_inj i j : f i = true → f j = true → rank i = rank j → i = j.
Proof.
  intros Hi Hj Heq. destruct (Nat.lt_trichotomy i j) as [H|[H|H]]; [|done|].
  - pose proof (rank_lt _ _ Hi H). lia.
  - pose proof (rank_lt _ _ Hj H). lia.
Qed.

Lemma rank_surj k n : k < rank n → ∃ i, i < n ∧ f i = true ∧ rank i = k.
Proof.
  induction n as [|n IH]; [cbn; lia|]. rewrite rank_S. intros Hk.
  destruct (decide (k < rank n)) as [Hlt|Hge].
  - destruct (IH Hlt) as (i & Hi & Hf & Hr). exists i. split_and!; [lia|done|done].
  - exists n. destruct (f n); [|lia]. split_and!; [lia|done|lia].
Qed.

Lemma slot_map_lookup n i :
  i < n → slot_map n !! i = Some (if f i then N.of_nat (rank i) else NONE).
Proof. intros Hi. unfold slot_map. by rewrite list_lookup_fmap, lookup_seq_lt. Qed.

Lemma length_slot_map n : length (slot_map n) = n.
Proof. unfold slot_map. by rewrite length_fmap, length_seq. Qed.

(** A number given to a live slot is not [NONE]. *)
Lemma rank_NONE n i : (N.of_nat n ≤ U32_MAX)%N → i < n → N.of_nat (rank i) ≠ NONE.
Proof. intros Hn Hi. pose proof (rank_le i). unfold NONE. lia. Qed.

(** The entries of [l] at live positions, in order. *)
Definition live_part {A} (l : list A) : list A :=
  snd <$> filter (λ p, f (fst p) = true) (imap pair l).

Lemma live_part_snoc {A} (l : list A) x :
  live_part (l ++ [x]) = live_part l ++ if f (length l) then [x] else [].
Proof.
  unfold live_part. rewrite imap_app, filter_app, fmap_app. f_equal.
  change (imap (λ n, pair (length l + n)) [x]) with [(length l + 0, x)].
  rewrite Nat.add_0_r, filter_cons, filter_nil. cbn [fst]. destruct (f (length l)); by case_decide.
Qed.

Lemma length_live_part {A} (l : list A) : length (live_part l) = rank (length l).
Proof.
  induction l as [|x l IH] using rev_ind; [done|].
  rewrite live_part_snoc, !length_app, Nat.add_1_r, rank_S, IH. by destruct (f (length l)).
Qed.

Lemma live_part_lookup {A} (l : list A) i x :
  l !! i = Some x → f i = true → live_part l !! rank i = Some x.
Proof.
  induction l as [|y l IH] using rev_ind; [done|]. intros Hi Hf. rewrite live_part_snoc.
  destruct (decide (i < length l)) as [Hlt|Hge].
  - rewrite lookup_app_l in Hi by done. rewrite lookup_app_l; [auto|].
    rewrite length_live_part. by apply rank_lt.
  - pose proof (lookup_lt_Some _ _ _ Hi) as Hb. rewrite length_app in Hb. cbn in Hb.
    replace i with (length l) in * by lia. rewrite list_lookup_middle in Hi by done. simplify_eq.
    rewrite Hf, lookup_app_r by (rewrite length_live_part; lia).
    by rewrite length_live_part, Nat.sub_diag.
Qed.

Lemma live_part_elem {A} (l : list A) x :
  x ∈ live_part l → ∃ i, l !! i = Some x ∧ f i = true.
Proof.
  unfold live_part. intros ([i y] & -> & [Hf Hin]%list_elem_of_filter)%list_elem_of_fmap.
  apply list_elem_of_lookup in Hin as [j Hj]. rewrite list_lookup_imap in Hj.
  apply fmap_Some in Hj as (z & Hz & [= <- ->]). eauto.
Qed.
End Ranks.

Lemma surviving_slots_Ok live slots :
  LiveSet.wf live → (N.of_nat slots ≤ U32_MAX)%N →
  surviving_slots live slots = Ok (slot_map (LiveSet.live_in live) slots).
Proof.
  intros Hwf Hb. unfold surviving_slots. set (f := LiveSet.live_in live).
  cut (∀ n, n ≤ slots → rfold (λ '(mapping, next) slot,
      alive ← LiveSet.is_live live slot;
      if (alive : bool) then next' ← u32_add next 1; mret (mapping ++ [next], next')
      else mret (mapping ++ [NONE], next)) ([], 0%N) (seq 0 n)
    = Ok (slot_map f n, N.of_nat (rank f n))).
  { intros Hc. by rewrite Hc. }
  induction n as [|n IH]; intros Hn; [done|].
  rewrite seq_S, rfold_app, IH by lia. cbn [rfold Nat.add]. rsimpl.
  rewrite LiveSet.is_live_Ok by done. fold f. rsimpl.
  unfold slot_map. rewrite seq_S, fmap_app. cbn [fmap list_fmap Nat.add]. rewrite rank_S.
  pose proof (rank_le f n). destruct (f n); rsimpl.
  - rewrite u32_add_eq by lia. rsimpl. do 2 f_equal. lia.
  - do 2 f_equal. lia.
Qed.

Lemma remap_endpoint_Ok f n x :
  (N.of_nat n ≤ U32_MAX)%N → index x < n → f (index x) = true →
  remap_endpoint (slot_map f n) x = Ok (renum f x).
Proof.
  intros Hn Hx Hf. unfold remap_endpoint. rewrite (vget_eq _ _ _ (slot_map_lookup f n _ Hx)), Hf.
  rsimpl. rewrite bool_decide_true by (by apply (rank_NONE f n)). done.
Qed.

(** ** Sorted runs *)

Lemma is_sorted_cons x l : is_sorted (x :: l) = true → (∀ y, y ∈ l → (x ≤ y)%N) ∧ is_sorted l = true.
Proof.
  revert x. induction l as [|z l IH]; intros x; [split; [set_solver|done]|].
  intros [Hxz%bool_decide_eq_true Hl]%andb_true_iff. split; [|done].
  apply IH in Hl as [Hz _]. intros y [->|Hy]%elem_of_cons; [done|]. apply Hz in Hy. lia.
Qed.

Lemma is_sorted_strict (l : list N) :
  is_sorted l = true → NoDup l → StronglySorted N.lt l.
Proof.
  induction l as [|x l IH]; intros Hs Hnd; [constructor|].
  apply is_sorted_cons in Hs as [Hx Hs]. apply NoDup_cons in Hnd as [Hni Hnd].
  constructor; [auto|]. apply Forall_forall. intros y Hy. specialize (Hx y Hy).
  assert (x ≠ y) by (intros ->; done). lia.
Qed.

(** Two strictly ascending lists with the same elements are equal. *)
Lemma sorted_perm_eq (l1 l2 : list N) :
  StronglySorted N.lt l1 → StronglySorted N.lt l2 → l1 ≡ₚ l2 → l1 = l2.
Proof.
  revert l2. induction l1 as [|x l1 IH]; intros l2 H1 H2 Hp.
  - by apply Permutation_nil in Hp as ->.
  - destruct l2 as [|y l2]; [by apply Permutation_nil_r in Hp|].
    apply StronglySorted_inv in H1 as [H1 Hx]. apply StronglySorted_inv in H2 as [H2 Hy].
    rewrite Forall_forall in Hx, Hy.
    assert (x = y) as ->.
    { assert (x ∈ y :: l2) as [->|Hxl]%elem_of_cons by (rewrite <-Hp; left); [done|].
      assert (y ∈ x :: l1) as [->|Hyl]%elem_of_cons by (rewrite Hp; left); [done|].
      apply Hx in Hyl. apply Hy in Hxl. lia. }
    f_equal. apply IH; [done|done|]. by apply Permutation_cons_inv in Hp.
Qed.

(** ** Overwriting runs *)

(** [edges\[start..start + run.len()\].copy_from_slice(&run)] *)
Definition splice (start : nat) (run edges : list N) : list N :=
  take start edges ++ run ++ drop (start + length run) edges.

Lemma splice_lookup start run edges i :
  start + length run ≤ length edges →
  splice start run edges !! i =
    if decide (start ≤ i < start + length run) then run !! (i - start) else edges !! i.
Proof.
  intros Hfit. unfold splice.
  assert (Hlt : length (take start edges) = start) by (rewrite length_take; lia).
  case_decide as Hi.
  - rewrite lookup_app_r by lia. rewrite Hlt, lookup_app_l by lia. done.
  - destruct (decide (i < start)).
    + rewrite lookup_app_l, lookup_take_lt by lia. done.
    + rewrite lookup_app_r by lia. rewrite Hlt, lookup_app_r by lia.
      rewrite lookup_drop. f_equal. lia.
Qed.

Lemma length_splice start run edges :
  start + length run ≤ length edges → length (splice start run edges) = length edges.
Proof. intros H. unfold splice. rewrite !length_app, length_take, length_drop. lia. Qed.

(** Overwriting the run of [k] leaves the runs of the others. *)
Lemma csr_run_splice offsets edges nodes nedges k m lo run :
  csr_wf offsets edges nodes nedges → k < nodes → m < nodes → offsets !! k = Some lo →
  length run = length (csr_run offsets edges k) →
  index lo + length run ≤ length edges ∧
  csr_run offsets (splice (index lo) run edges) m = if decide (m = k) then run else csr_run offsets edges m.
Proof.
  intros Hwf Hk Hm Hlo Hrun.
  assert (Hsome : ∀ j, j ≤ nodes → is_Some (offsets !! j)).
  { intros j Hj. apply lookup_lt_is_Some_2. destruct Hwf as [(->&_&->&_)|(->&_)]; lia. }
  destruct (Hsome (k + 1)) as [hi Hhi]; [lia|].
  assert (Hlohi : (lo ≤ hi)%N) by (eapply csr_mono; eauto; lia).
  pose proof (csr_hi _ _ _ _ _ _ Hwf Hhi) as Hhib.
  assert (Hlen : length run = index hi - index lo).
  { rewrite Hrun. unfold csr_run. rewrite Hlo, Hhi, length_take, length_drop. unfold index in *. lia. }
  assert (Hfit : index lo + length run ≤ length edges) by (unfold index in *; lia).
  split; [done|]. destruct (Hsome m) as [lom Hlom]; [lia|]. destruct (Hsome (m + 1)) as [him Him]; [lia|].
  unfold csr_run. rewrite Hlom, Him. case_decide as Hmk.
  - subst m. simplify_eq. unfold splice. rewrite drop_app_length' by (rewrite length_take; lia).
    by rewrite take_app_length' by lia.
  - apply list_eq. intros i. destruct (decide (i < index him - index lom)) as [Hi|Hi].
    2:{ rewrite !lookup_ge_None_2; [done| |]; rewrite length_take; lia. }
    rewrite !lookup_take_lt, !lookup_drop, splice_lookup by done. rewrite decide_False; [done|].
    destruct (decide (m < k)).
    + assert (him ≤ lo)%N by (eapply csr_mono; eauto; lia). unfold index in *. lia.
    + assert (hi ≤ lom)%N by (eapply csr_mono; eauto; lia). unfold index in *. lia.
Qed.

Lemma csr_wf_splice offsets edges nodes nedges start run :
  csr_wf offsets edges nodes nedges → start + length run ≤ length edges →
  (∀ e, e ∈ run → index e < nedges) → csr_wf offsets (splice start run edges) nodes nedges.
Proof.
  intros [(->&->&->&->)|(H1&H2&H3&H4&H5&H6)] Hfit Hrun.
  - left. cbn in Hfit. destruct run; [|cbn in Hfit; lia]. unfold splice.
    rewrite take_nil, drop_nil. done.
  - right. rewrite length_splice by done. split_and!; [done..|].
    unfold splice. intros e. rewrite !elem_of_app. intros [He|[He|He]]; [|by apply Hrun|].
    + apply H6. by eapply subseteq_take.
    + apply H6. by eapply subseteq_drop.
Qed.

Lemma restore_runs_spec offsets edges nodes nedges reordered :
  csr_wf offsets edges nodes nedges → NoDup reordered.*1 →
  (∀ k run, (k, run) ∈ reordered → index k < nodes ∧
     length run = length (csr_run offsets edges (index k)) ∧ ∀ e, e ∈ run → index e < nedges) →
  ∃ edges', restore_runs offsets edges reordered = Ok edges' ∧
    csr_wf offsets edges' nodes nedges ∧
    (∀ k run, (k, run) ∈ reordered → csr_run offsets edges' (index k) = run) ∧
    (∀ m, m < nodes → N.of_nat m ∉ reordered.*1 → csr_run offsets edges' m = csr_run offsets edges m).
Proof.
  revert edges. induction reordered as [|[k run] rest IH]; intros edges Hwf Hnd Hre.
  { exists edges. split_and!; [done|done|set_solver|done]. }
  rewrite fmap_cons in Hnd. apply NoDup_cons in Hnd as [Hk Hnd]. cbn in Hk.
  destruct (Hre k run) as (Hkn & Hlen & Hel); [left|].
  destruct (lookup_lt_is_Some_2 offsets (index k)) as [lo Hlo].
  { destruct Hwf as [(->&_&->&_)|(->&_)]; lia. }
  destruct (csr_run_splice _ _ _ _ _ _ _ _ Hwf Hkn Hkn Hlo Hlen) as [Hfit _].
  unfold restore_runs. cbn [rfold]. rewrite (vget_eq _ _ _ Hlo). rsimpl. rewrite decide_True by done. rsimpl.
  fold (splice (index lo) run edges). fold (restore_runs offsets (splice (index lo) run edges) rest).
  assert (Hruns : ∀ m, m < nodes → csr_run offsets (splice (index lo) run edges) m =
            if decide (m = index k) then run else csr_run offsets edges m).
  { intros m Hm. by apply (csr_run_splice _ _ _ _ _ _ _ _ Hwf Hkn Hm Hlo Hlen). }
  destruct (IH (splice (index lo) run edges)) as (edges' & Hres & Hwf' & Hin & Hout).
  - by apply csr_wf_splice.
  - done.
  - intros k' run' Hk'. destruct (Hre k' run') as (? & Hlen' & ?); [by right|].
    split_and!; [done| |done]. rewrite Hruns by done. rewrite decide_False; [done|].
    intros Heq%N2Nat.inj. subst k'. apply Hk. apply list_elem_of_fmap. by exists (k, run').
  - exists edges'. split_and!; [done|done| |].
    + intros k' run' [[= -> ->]|Hk']%elem_of_cons; [|by apply Hin].
      rewrite Hout; [by rewrite Hruns, decide_True|done|]. unfold index. by rewrite N2Nat.id.
    + intros m Hm Hni. rewrite fmap_cons in Hni. apply not_elem_of_cons in Hni as [Hne Hni]. cbn in Hne.
      rewrite Hout, Hruns, decide_False by done || (intros ->; apply Hne; unfold index; lia). done.
Qed.
