(* ===== verification/Compact.v ===== *)
(** * Compaction

    Models [graph/store/compact.rs] and [Graph::reordered_adjacency]: the
    store is rebuilt from its live entities in identity order, and every
    adjacency reads as it did, in the new numbering. *)

From S2P Require Import Prelude Words Liveness Ids Chains Runs Store StoreInv StoreOverlay Compress Renumbering Slots.

Section Compact.
Context {NP EP : Type}.
Implicit Types g : Graph NP EP.

(** [Graph::is_compact] *)
Definition is_compact g : bool :=
  bool_decide (delta_nodes g = [] ∧ delta_edges g = []) &&
  bool_decide (live_node_count g = length (base_nodes g)) &&
  bool_decide (live_edge_count g = length (base_edges g)) &&
  negb (has_relocations g).

(** [Graph::reordered_adjacency] *)
Definition reordered_adjacency g (d : TraversalDirection) (node_map edge_map : list N)
    : res (list (N * list N)) :=
  rfold (λ acc slot,
    new ← vget node_map slot;
    if decide (new = NONE) then mret acc
    else
      o ← overlay g slot d;
      run ← (match o with Some run => mret run | None => base_run g slot d end);
      if is_sorted run then mret acc
      else
        id ← from_index slot;
        es ← adjacency g d id;
        run' ← rmapM (λ e, vget edge_map (index e)) es;
        mret (acc ++ [(new, run')])) [] (seq 0 (node_bound g)).

(** [Graph::take_live_nodes] *)
Definition take_live_nodes g (node_map : list N) : res (list NP) :=
  rfold (λ nodes '(slot, payload),
    new ← vget node_map slot;
    mret (if decide (new = NONE) then nodes else nodes ++ [payload]))
    [] (imap pair (base_nodes g ++ delta_nodes g)).

(** [Graph::take_live_edges] *)
Definition take_live_edges g (node_map : list N) : res (list (EdgeRecord EP)) :=
  rfold (λ edges '(slot, record),
    alive ← LiveSet.is_live (live_edges g) slot;
    if negb alive then mret edges
    else
      s ← remap_endpoint node_map (source record);
      t ← remap_endpoint node_map (target record);
      mret (edges ++ [mk_EdgeRecord s t (payload record)]))
    [] (imap pair (base_edges g ++ delta_edges g)).

(** [Graph::compact], and [Graph::compacted] *)
Definition compact g : res (Graph NP EP * Renumbering) :=
  node_map ← surviving_slots (live_nodes g) (node_bound g);
  edge_map ← surviving_slots (live_edges g) (edge_bound g);
  reordered_out ← reordered_adjacency g Outgoing node_map edge_map;
  reordered_in ← reordered_adjacency g Incoming node_map edge_map;
  nodes ← take_live_nodes g node_map;
  edges ← take_live_edges g node_map;
  '(out_offsets, out_edges) ← compress edges (length nodes) Outgoing;
  '(in_offsets, in_edges) ← compress edges (length nodes) Incoming;
  out_edges ← restore_runs out_offsets out_edges reordered_out;
  in_edges ← restore_runs in_offsets in_edges reordered_in;
  ln ← LiveSet.reset_all_live (length nodes);
  le ← LiveSet.reset_all_live (length edges);
  mret (mk_Graph nodes edges out_offsets out_edges in_offsets in_edges [] []
          DeltaChains.reset ln le (length nodes) (length edges) None,
        mk_Renumbering node_map edge_map).

(** ** The new numbering and the records it gives *)

Section Spec.
Context (g : Graph NP EP) (L : TraversalDirection → nat → list N) (Hinv : inv g L).

Abbreviation nf := (nlive g).
Abbreviation ef := (LiveSet.live_in (live_edges g)).

Definition new_node (x : Id) : Id := renum (nlive g) x.
Definition new_edge (x : Id) : Id := renum (LiveSet.live_in (live_edges g)) x.

Definition remap (r : EdgeRecord EP) : EdgeRecord EP :=
  mk_EdgeRecord (new_node (source r)) (new_node (target r)) (payload r).

Definition live_node_payloads : list NP := live_part (nlive g) (all_nodes g).
Definition live_edge_records : list (EdgeRecord EP) :=
  remap <$> live_part (LiveSet.live_in (live_edges g)) (all_edges g).

Lemma node_max : (N.of_nat (node_bound g) ≤ U32_MAX)%N.
Proof. apply (inv_node_max _ _ Hinv). Qed.
Lemma edge_max : (N.of_nat (edge_bound g) ≤ U32_MAX)%N.
Proof. apply (inv_edge_max _ _ Hinv). Qed.

Lemma node_map_Ok :
  surviving_slots (live_nodes g) (node_bound g) = Ok (slot_map nf (node_bound g)).
Proof. apply surviving_slots_Ok; [apply (inv_ln _ _ Hinv)|apply node_max]. Qed.

Lemma edge_map_Ok :
  surviving_slots (live_edges g) (edge_bound g) = Ok (slot_map ef (edge_bound g)).
Proof. apply surviving_slots_Ok; [apply (inv_le _ _ Hinv)|apply edge_max]. Qed.

Lemma take_live_nodes_Ok :
  take_live_nodes g (slot_map nf (node_bound g)) = Ok live_node_payloads.
Proof.
  unfold take_live_nodes, live_node_payloads. fold (all_nodes g).
  assert (Hb : length (all_nodes g) ≤ node_bound g) by (by rewrite length_all_nodes).
  revert Hb. generalize (all_nodes g) as l. intros l. induction l as [|x l IH] using rev_ind; [done|].
  rewrite length_app. cbn. intros Hb. rewrite imap_app, rfold_app, IH by lia. rsimpl.
  change (imap (λ n, pair (length l + n)) [x]) with [(length l + 0, x)]. rewrite Nat.add_0_r.
  assert (Hl : length l < node_bound g) by lia.
  cbn [rfold]. rewrite (vget_eq _ _ _ (slot_map_lookup nf _ _ Hl)). rsimpl.
  rewrite live_part_snoc. destruct (nf (length l)).
  - rewrite decide_False by (apply (rank_NONE nf (node_bound g)); [apply node_max|lia]). done.
  - by rewrite decide_True, app_nil_r.
Qed.

Lemma live_record_ends i r d :
  all_edges g !! i = Some r → ef i = true → nf (index (endpoint d r)) = true.
Proof.
  intros Hr Hi. eapply (inv_live_end _ _ Hinv (N.of_nat i)); unfold elive, index; by rewrite ?Nat2N.id.
Qed.

Lemma take_live_edges_Ok :
  take_live_edges g (slot_map nf (node_bound g)) = Ok live_edge_records.
Proof.
  unfold take_live_edges, live_edge_records. fold (all_edges g).
  assert (Hsub : ∀ i r, all_edges g !! i = Some r → all_edges g !! i = Some r) by done.
  revert Hsub. generalize (all_edges g) at 1 3 4 as l. intros l.
  induction l as [|r l IH] using rev_ind; [done|]. intros Hsub.
  rewrite imap_app, rfold_app, IH.
  2:{ intros i r' Hr'. apply Hsub. by apply lookup_app_l_Some. }
  rsimpl. change (imap (λ n, pair (length l + n)) [r]) with [(length l + 0, r)]. rewrite Nat.add_0_r.
  cbn [rfold]. rewrite LiveSet.is_live_Ok by apply (inv_le _ _ Hinv). rsimpl.
  rewrite live_part_snoc. destruct (LiveSet.live_in (live_edges g) (length l)) eqn:Hl; rsimpl.
  - assert (Hr : all_edges g !! length l = Some r) by (apply Hsub; by apply list_lookup_middle).
    assert (Hend : ∀ d, remap_endpoint (slot_map nf (node_bound g)) (endpoint d r) =
                        Ok (new_node (endpoint d r))).
    { intros d. pose proof (live_record_ends _ _ d Hr Hl) as Hlive.
      apply remap_endpoint_Ok; [apply node_max|by apply (nlive_lt _ _ Hinv)|done]. }
    pose proof (Hend Outgoing) as Hs. pose proof (Hend Incoming) as Ht. cbn in Hs, Ht.
    rewrite Hs. rsimpl. rewrite Ht. rsimpl. by rewrite fmap_app.
  - by rewrite app_nil_r.
Qed.

Lemma endpoint_remap d r : endpoint d (remap r) = new_node (endpoint d r).
Proof. by destruct d. Qed.

Lemma index_new_node x : index (new_node x) = rank nf (index x).
Proof. apply Nat2N.id. Qed.
Lemma index_new_edge x : index (new_edge x) = rank ef (index x).
Proof. apply Nat2N.id. Qed.

Lemma length_new_nodes : length live_node_payloads = rank nf (node_bound g).
Proof. unfold live_node_payloads. by rewrite length_live_part, length_all_nodes. Qed.
Lemma length_new_edges : length live_edge_records = rank ef (edge_bound g).
Proof. unfold live_edge_records. by rewrite length_fmap, length_live_part, length_all_edges. Qed.

(** The record of a surviving edge. *)
Lemma new_record e r :
  all_edges g !! index e = Some r → elive g e = true →
  live_edge_records !! index (new_edge e) = Some (remap r).
Proof.
  intros Hr He. unfold live_edge_records. rewrite list_lookup_fmap, index_new_edge.
  by rewrite (live_part_lookup ef _ _ _ Hr He).
Qed.

Lemma new_records_inv k r' :
  live_edge_records !! k = Some r' →
  ∃ e r, all_edges g !! index e = Some r ∧ elive g e = true ∧ index (new_edge e) = k ∧ r' = remap r.
Proof.
  intros Hk. pose proof (lookup_lt_Some _ _ _ Hk) as Hlt. rewrite length_new_edges in Hlt.
  destruct (rank_surj ef k _ Hlt) as (i & Hi & Hf & <-).
  destruct (lookup_lt_is_Some_2 (all_edges g) i) as [r Hr]; [by rewrite length_all_edges|].
  assert (Hi' : index (N.of_nat i) = i) by apply Nat2N.id.
  assert (He : elive g (N.of_nat i) = true) by (unfold elive; by rewrite Hi').
  exists (N.of_nat i), r. rewrite index_new_edge, Hi'. split_and!; [done..|].
  pose proof (new_record (N.of_nat i) r) as Hn. rewrite index_new_edge, Hi' in Hn.
  rewrite Hn in Hk by done. congruence.
Qed.

Lemma new_ends d r' : r' ∈ live_edge_records → index (endpoint d r') < length live_node_payloads.
Proof.
  intros [k Hk]%list_elem_of_lookup.
  destruct (new_records_inv _ _ Hk) as (e & r & Hr & He & _ & ->).
  rewrite endpoint_remap, index_new_node, length_new_nodes.
  pose proof (inv_live_end _ _ Hinv _ _ d Hr He) as Hlive.
  apply rank_lt; [done|]. by apply (nlive_lt _ _ Hinv).
Qed.

(** ** Adjacency in the new numbering *)

Definition new_adj (d : TraversalDirection) (n : nat) : list N := new_edge <$> adj g L d n.

Lemma new_edge_inj e e' : elive g e = true → elive g e' = true → new_edge e = new_edge e' → e = e'.
Proof.
  intros He He' Heq%(f_equal index). rewrite !index_new_edge in Heq.
  apply rank_inj in Heq; [|done|done]. by apply N2Nat.inj.
Qed.

Lemma elem_of_new_adj d n x :
  nf n = true →
  x ∈ new_adj d n ↔ ∃ r', live_edge_records !! index x = Some r' ∧ index (endpoint d r') = rank nf n.
Proof.
  intros Hn. unfold new_adj. rewrite list_elem_of_fmap. split.
  - intros (e & -> & (He & r & Hr & <-)%(elem_of_adj g L Hinv)). exists (remap r).
    split; [by apply new_record|]. by rewrite endpoint_remap, index_new_node.
  - intros (r' & Hr' & Hend). destruct (new_records_inv _ _ Hr') as (e & r & Hr & He & Hk & ->).
    exists e. split; [by apply N2Nat.inj|]. apply (elem_of_adj g L Hinv). split; [done|].
    exists r. split; [done|]. rewrite endpoint_remap, index_new_node in Hend.
    apply rank_inj in Hend; [done| |done]. by apply (inv_live_end _ _ Hinv _ _ d Hr He).
Qed.

Lemma new_adj_nodup d n : NoDup (new_adj d n).
Proof.
  unfold new_adj. apply NoDup_fmap_2_strong; [|apply (adj_nodup _ _ Hinv)].
  intros e e' (He & _)%(elem_of_adj g L Hinv) (He' & _)%(elem_of_adj g L Hinv). by apply new_edge_inj.
Qed.

Lemma new_adj_bucket d n :
  nf n = true → new_adj d n ≡ₚ bucket d live_edge_records (rank nf n).
Proof.
  intros Hn. apply NoDup_Permutation; [apply new_adj_nodup|apply bucket_nodup|].
  intros x. rewrite elem_of_new_adj, elem_of_bucket by done. done.
Qed.

(** A node whose run is in identity order reads in identity order. *)
Lemma new_adj_sorted d n :
  nf n = true → is_sorted (run_of g d n) = true → new_adj d n = bucket d live_edge_records (rank nf n).
Proof.
  intros Hn Hs. apply sorted_perm_eq; [|apply bucket_sorted|by apply new_adj_bucket].
  assert (Hraw : StronglySorted N.lt (raw g L d n)).
  { unfold raw. apply is_sorted_strict in Hs; [|apply (inv_run_nodup _ _ Hinv)].
    pose proof (inv_ring_sorted _ _ Hinv d n) as Hr. pose proof (inv_run_ring _ _ Hinv d n) as Hlt.
    induction Hs as [|x l Hs IH Hx]; cbn.
    - eapply StronglySorted_fmap; [|exact Hr]. intros; lia.
    - constructor; [apply IH; set_solver|]. apply Forall_app. split; [done|].
      apply Forall_fmap, Forall_forall. intros y Hy. cbn. apply Hlt; set_solver. }
  unfold new_adj, adj. eapply StronglySorted_fmap; [|by apply StronglySorted_filter, Hraw].
  intros x y [Hx _]%list_elem_of_filter [Hy _]%list_elem_of_filter Hxy.
  unfold new_edge, renum. pose proof (rank_lt ef (index x) (index y) Hx) as H.
  unfold index in *. lia.
Qed.
Definition reordered (d : TraversalDirection) : list (N * list N) :=
  (λ slot, (N.of_nat (rank nf slot), new_adj d slot)) <$>
    filter (λ slot, nf slot = true ∧ is_sorted (run_of g d slot) = false) (seq 0 (node_bound g)).

Lemma new_adj_Ok d n :
  rmapM (λ e, vget (slot_map ef (edge_bound g)) (index e)) (adj g L d n) = Ok (new_adj d n).
Proof.
  unfold new_adj. assert (Hall : ∀ e, e ∈ adj g L d n → elive g e = true).
  { intros e He. by apply (elem_of_adj g L Hinv) in He as [? _]. }
  revert Hall. generalize (adj g L d n) as l. induction l as [|e l IH]; intros Hall; [done|].
  cbn [rmapM]. assert (He : elive g e = true) by (apply Hall; left).
  rewrite (vget_eq _ _ _ (slot_map_lookup ef _ _ (elive_lt _ _ Hinv _ He))).
  unfold elive in He. rewrite He. rsimpl. rewrite IH by set_solver. done.
Qed.

Lemma reordered_adjacency_Ok d :
  reordered_adjacency g d (slot_map nf (node_bound g)) (slot_map ef (edge_bound g)) = Ok (reordered d).
Proof.
  unfold reordered_adjacency, reordered.
  cut (∀ l acc, (∀ i, i ∈ l → i < node_bound g) → rfold (λ acc slot,
    new ← vget (slot_map nf (node_bound g)) slot;
    if decide (new = NONE) then mret acc
    else
      o ← overlay g slot d;
      run ← (match o with Some run => mret run | None => base_run g slot d end);
      if is_sorted run then mret acc
      else
        id ← from_index slot;
        es ← adjacency g d id;
        run' ← rmapM (λ e, vget (slot_map ef (edge_bound g)) (index e)) es;
        mret (acc ++ [(new, run')])) acc l =
    Ok (acc ++ ((λ slot, (N.of_nat (rank nf slot), new_adj d slot)) <$>
       filter (λ slot, nf slot = true ∧ is_sorted (run_of g d slot) = false) l))).
  { intros Hc. rewrite Hc; [done|]. intros i Hi. apply elem_of_seq in Hi. lia. }
  induction l as [|i l IH]; intros acc Hl; cbn [rfold]; [by rewrite app_nil_r|].
  assert (Hi : i < node_bound g) by (apply Hl; left).
  rewrite (vget_eq _ _ _ (slot_map_lookup nf _ _ Hi)). rsimpl. rewrite filter_cons.
  destruct (nlive g i) eqn:Hn.
  2:{ rewrite decide_True by done. rewrite decide_False by naive_solver. rsimpl. apply IH. set_solver. }
  rewrite decide_False by (apply (rank_NONE nf (node_bound g)); [apply node_max|done]).
  rewrite (overlay_Ok g L Hinv). rsimpl.
  assert (Hrun : (match overlay_of g i d with Some run => mret run | None => base_run g i d end) =
                 Ok (run_of g d i)).
  { unfold run_of. destruct (overlay_of g i d); [done|]. by rewrite (base_run_Ok g L _ _ Hinv). }
  rewrite Hrun. rsimpl. destruct (is_sorted (run_of g d i)) eqn:Hs.
  { rewrite decide_False by naive_solver. rsimpl. apply IH. set_solver. }
  pose proof node_max. rewrite from_index_eq by lia. rsimpl. rewrite decide_True by done.
  assert (Hii : index (N.of_nat i) = i) by apply Nat2N.id.
  rewrite (adjacency_Ok g L Hinv), Hii by (by rewrite Hii). rsimpl. rewrite new_adj_Ok. rsimpl.
  rewrite IH by set_solver. by rewrite <-app_assoc.
Qed.

(** One direction of the rebuilt index: the run of every surviving node is its
    adjacency as it read before. *)
Lemma rebuilt_runs d :
  ∃ offsets edges edges',
    compress live_edge_records (length live_node_payloads) d = Ok (offsets, edges) ∧
    restore_runs offsets edges (reordered d) = Ok edges' ∧
    csr_wf offsets edges' (length live_node_payloads) (length live_edge_records) ∧
    ∀ n, nf n = true → csr_run offsets edges' (rank nf n) = new_adj d n.
Proof.
  destruct (compress_spec live_edge_records (length live_node_payloads) d) as
    (offsets & edges & Hcomp & Hwf & Hruns & _).
  { intros r Hr. by apply new_ends. }
  { rewrite length_new_edges. pose proof (rank_le ef (edge_bound g)). pose proof edge_max. lia. }
  assert (Hrk : ∀ n, nf n = true → rank nf n < length live_node_payloads).
  { intros n Hn. rewrite length_new_nodes. apply rank_lt; [done|]. by apply (nlive_lt _ _ Hinv). }
  destruct (restore_runs_spec offsets edges (length live_node_payloads) (length live_edge_records)
    (reordered d) Hwf) as (edges' & Hres & Hwf' & Hin & Hout).
  - unfold reordered. rewrite <-list_fmap_compose. cbn.
    apply NoDup_fmap_2_strong; [|apply NoDup_filter, NoDup_seq].
    intros x y [[Hx _] _]%list_elem_of_filter [[Hy _] _]%list_elem_of_filter Heq%Nat2N.inj.
    by apply (rank_inj nf).
  - intros k run (n & [= -> ->] & [[Hn _] _]%list_elem_of_filter)%list_elem_of_fmap.
    assert (Hi : index (N.of_nat (rank nf n)) = rank nf n) by apply Nat2N.id. rewrite Hi.
    split_and!; [by apply Hrk|by rewrite Hruns, (new_adj_bucket d n Hn) by (by apply Hrk)|].
    intros e (r' & Hr' & _)%elem_of_new_adj; [|done]. by eapply lookup_lt_Some.
  - exists offsets, edges, edges'. split_and!; [done|done|done|]. intros n Hn.
    assert (Hi : index (N.of_nat (rank nf n)) = rank nf n) by apply Nat2N.id.
    destruct (is_sorted (run_of g d n)) eqn:Hs.
    + rewrite Hout, Hruns; [by rewrite new_adj_sorted|by apply Hrk|by apply Hrk|].
      unfold reordered. rewrite <-list_fmap_compose.
      intros (m & Heq & [[Hm Hm'] _]%list_elem_of_filter)%list_elem_of_fmap. cbn in Heq.
      apply Nat2N.inj, rank_inj in Heq; [|done|done]. subst m. congruence.
    + rewrite <-Hi. apply Hin. unfold reordered. apply list_elem_of_fmap. exists n. split; [done|].
      apply list_elem_of_filter. split; [done|]. apply elem_of_seq. split; [lia|].
      by apply (nlive_lt _ _ Hinv).
Qed.
End Spec.

(** ** The rebuilt store *)

Lemma csr_run_out offsets edges nodes nedges n :
  csr_wf offsets edges nodes nedges → nodes ≤ n → csr_run offsets edges n = [].
Proof.
  intros Hwf Hn. unfold csr_run. rewrite (lookup_ge_None_2 offsets (n + 1)); [by destruct (offsets !! n)|].
  destruct Hwf as [(->&_)|(->&_)]; cbn; lia.
Qed.

Lemma all_live_slots s :
  (∀ i, LiveSet.live_in s i = bool_decide (i < LiveSet.len s)) →
  length (LiveSet.live_slots s) = LiveSet.len s.
Proof.
  intros H. unfold LiveSet.live_slots. rewrite filter_all, length_seq; [done|].
  intros i Hi%elem_of_seq. rewrite H. apply bool_decide_eq_true. lia.
Qed.

(** A base with a well-formed index whose runs hold each edge under its ends
    is a store in which everything is live. *)
Lemma base_inv (nodes : list NP) (edges : list (EdgeRecord EP)) oo oe io ie ln le :
  let g' := mk_Graph nodes edges oo oe io ie [] [] DeltaChains.reset ln le
              (length nodes) (length edges) None in
  (N.of_nat (length nodes) ≤ U32_MAX)%N → (N.of_nat (length edges) ≤ U32_MAX)%N →
  LiveSet.wf ln → LiveSet.len ln = length nodes →
  (∀ i, LiveSet.live_in ln i = bool_decide (i < length nodes)) →
  LiveSet.wf le → LiveSet.len le = length edges →
  (∀ i, LiveSet.live_in le i = bool_decide (i < length edges)) →
  (∀ d r, r ∈ edges → index (endpoint d r) < length nodes) →
  (∀ d, csr_wf (offsets_of g' d) (run_edges_of g' d) (length nodes) (length edges)) →
  (∀ d n, n < length nodes → csr_run (offsets_of g' d) (run_edges_of g' d) n ≡ₚ bucket d edges n) →
  inv g' (λ _ _, []) ∧
  ∀ d n, adj g' (λ _ _, []) d n = csr_run (offsets_of g' d) (run_edges_of g' d) n.
Proof.
  intros g' Hnm Hem Hlnw Hlnl Hln Hlew Hlel Hle Hends Hcsr Hruns.
  assert (Hrun : ∀ d n, run_of g' d n = csr_run (offsets_of g' d) (run_edges_of g' d) n) by done.
  assert (Hraw : ∀ d n, raw g' (λ _ _, []) d n = run_of g' d n) by (intros; apply app_nil_r).
  assert (Helem : ∀ d n (e : N), e ∈ run_of g' d n ↔
    ∃ r, edges !! index e = Some r ∧ index (endpoint d r) = n).
  { intros d n e. rewrite Hrun. destruct (decide (n < length nodes)) as [Hn|Hn].
    - by rewrite Hruns, elem_of_bucket.
    - rewrite (csr_run_out _ _ _ _ n (Hcsr d)), elem_of_nil by lia. split; [done|].
      intros (r & Hr & <-). apply Hn, Hends. by eapply list_elem_of_lookup_2. }
  assert (Hall : all_edges g' = edges) by apply app_nil_r.
  assert (Heb : edge_bound g' = length edges) by (unfold edge_bound; cbn; lia).
  assert (Hnb : node_bound g' = length nodes) by (unfold node_bound; cbn; lia).
  split.
  - split; [split; [split|..]|..]; rewrite ?Heb, ?Hnb, ?Hall; try done.
    + cbn. rewrite all_live_slots; [by rewrite Hlnl|]. by rewrite Hlnl.
    + cbn. rewrite all_live_slots; [by rewrite Hlel|]. by rewrite Hlel.
    + apply DeltaChains.rings_new.
    + cbn. lia.
    + intros d n e (r & Hr & _)%Helem. by eapply lookup_lt_Some.
    + intros d n x y _ Hy. by apply elem_of_nil in Hy.
    + intros d n. constructor.
    + intros d n. rewrite Hrun. destruct (decide (n < length nodes)) as [Hn|Hn].
      * rewrite Hruns by done. apply bucket_nodup.
      * rewrite (csr_run_out _ _ _ _ n (Hcsr d)) by lia. constructor.
    + intros d n x Hx. by apply elem_of_nil in Hx.
    + intros e r d Hr. apply Hends. by eapply list_elem_of_lookup_2.
    + intros e r d Hr _. unfold nlive. cbn. rewrite Hln. apply bool_decide_eq_true, Hends.
      by eapply list_elem_of_lookup_2.
    + intros d n e _. rewrite Hraw. apply Helem.
  - intros d n. unfold adj. rewrite Hraw, filter_all; [done|].
    intros e (r & Hr%lookup_lt_Some & _)%Helem. unfold elive. cbn. rewrite Hle.
    by apply bool_decide_eq_true.
Qed.

Lemma compact_spec g L :
  inv g L →
  ∃ g', compact g = Ok (g', mk_Renumbering (slot_map (nlive g) (node_bound g))
                              (slot_map (LiveSet.live_in (live_edges g)) (edge_bound g))) ∧
    inv g' (λ _ _, []) ∧ is_compact g' = true ∧
    all_nodes g' = live_node_payloads g ∧ all_edges g' = live_edge_records g ∧
    (∀ n, nlive g' n = bool_decide (n < length (live_node_payloads g))) ∧
    (∀ e, elive g' e = bool_decide (index e < length (live_edge_records g))) ∧
    (∀ d n, nlive g n = true → adj g' (λ _ _, []) d (rank (nlive g) n) = new_adj g L d n).
Proof.
  intros Hinv. unfold compact. rewrite (node_map_Ok g L Hinv). rsimpl. rewrite (edge_map_Ok g L Hinv). rsimpl.
  rewrite !(reordered_adjacency_Ok g L Hinv). rsimpl.
  rewrite (take_live_nodes_Ok g L Hinv). rsimpl. rewrite (take_live_edges_Ok g L Hinv). rsimpl.
  destruct (rebuilt_runs g L Hinv Outgoing) as (oo & oe & oe' & -> & Hro & Hwo & Hso). rsimpl.
  destruct (rebuilt_runs g L Hinv Incoming) as (io & ie & ie' & -> & Hri & Hwi & Hsi). rsimpl.
  rewrite Hro. rsimpl. rewrite Hri. rsimpl.
  destruct (LiveSet.reset_all_live_spec (length (live_node_payloads g))) as (ln & -> & Hlnw & Hlnl & Hln). rsimpl.
  destruct (LiveSet.reset_all_live_spec (length (live_edge_records g))) as (le & -> & Hlew & Hlel & Hle). rsimpl.
  eexists. split; [done|].
  assert (Hruns : ∀ n, n < length (live_node_payloads g) → ∃ m, nlive g m = true ∧ rank (nlive g) m = n).
  { intros n Hn. rewrite length_new_nodes in Hn. destruct (rank_surj _ _ _ Hn) as (m & _ & ? & ?). eauto. }
  edestruct (base_inv (live_node_payloads g) (live_edge_records g) oo oe' io ie' ln le) as [Hinv' Hadj]; try done.
  - rewrite length_new_nodes. pose proof (rank_le (nlive g) (node_bound g)). pose proof (node_max g L Hinv). lia.
  - rewrite length_new_edges. pose proof (rank_le (LiveSet.live_in (live_edges g)) (edge_bound g)).
    pose proof (edge_max g L Hinv). lia.
  - intros d r. by apply (new_ends g L Hinv).
  - by intros [].
  - intros d n (m & Hm & <-)%Hruns. transitivity (new_adj g L d m); [|by apply new_adj_bucket].
    destruct d; [rewrite <-(Hso m Hm)|rewrite <-(Hsi m Hm)]; done.
  - split_and!.
    + exact Hinv'.
    + unfold is_compact, has_relocations. cbn. by rewrite !bool_decide_true.
    + apply app_nil_r.
    + apply app_nil_r.
    + intros n. apply Hln.
    + intros e. apply Hle.
    + intros d n Hn. rewrite Hadj. destruct d; [by apply Hso|by apply Hsi].
Qed.

End Compact.
