(* ===== verification/History.v ===== *)
(** * Histories of calls on a store

    Any sequence of calls on a fresh store, compactions included, answers as
    the abstract graph of [StoreSpec] does. *)

From S2P Require Import Prelude Words Liveness Ids View EdgeViews Chains Runs Store StoreInv StoreSpec StoreView Compress Renumbering Slots Compact.

Section History.
Context {NP EP : Type}.
Implicit Types (g : Graph NP EP) (a : agraph NP EP).

(** ** Abstract compaction *)

Definition a_nf a (i : nat) : bool := a_nlive a (N.of_nat i).
Definition a_ef a (i : nat) : bool := a_elive a (N.of_nat i).

(** The live slots in order: the new number of a slot is its place here. *)
Definition live_list (f : nat → bool) (n : nat) : list nat := filter (λ i, f i = true) (seq 0 n).

Definition a_remap a (r : EdgeRecord EP) : EdgeRecord EP :=
  mk_EdgeRecord (renum (a_nf a) (source r)) (renum (a_nf a) (target r)) (payload r).

Definition a_compact a : agraph NP EP :=
  let nodes := live_part (a_nf a) (a_nodes a) in
  let edges := a_remap a <$> live_part (a_ef a) (a_edges a) in
  mk_agraph nodes edges
    (λ n, bool_decide (index n < length nodes)) (λ e, bool_decide (index e < length edges))
    (λ d n, match live_list (a_nf a) (length (a_nodes a)) !! index n with
            | Some old => renum (a_ef a) <$> a_adj a d (N.of_nat old)
            | None => []
            end).

(** The renumbering a compaction reports. *)
Definition a_renumbering a : Renumbering :=
  mk_Renumbering (slot_map (a_nf a) (length (a_nodes a))) (slot_map (a_ef a) (length (a_edges a))).

Lemma live_list_lookup f n k i :
  live_list f n !! k = Some i → i < n ∧ f i = true ∧ rank f i = k.
Proof.
  unfold live_list. revert k. induction n as [|n IH]; [done|]. intros k.
  rewrite seq_S, filter_app. cbn [Nat.add]. intros [Hl|[Hge Hl]]%lookup_app_Some.
  - destruct (IH _ Hl) as (? & ? & ?). split_and!; [lia|done|done].
  - rewrite filter_cons, filter_nil in Hl. case_decide as Hf; [|done].
    apply list_lookup_singleton_Some in Hl as [Hk <-].
    split_and!; [lia|done|]. change (length (filter (λ i, f i = true) (seq 0 n))) with (rank f n) in *. lia.
Qed.

Lemma live_list_None f n k : live_list f n !! k = None → rank f n ≤ k.
Proof. by intros ?%lookup_ge_None. Qed.

Lemma rank_ext f h n : (∀ i, f i = h i) → rank f n = rank h n.
Proof. intros H. unfold rank. f_equal. apply filter_ext_in. intros i _. by rewrite H. Qed.

Lemma renum_ext f h x : (∀ i, f i = h i) → renum f x = renum h x.
Proof. intros H. unfold renum. by rewrite (rank_ext f h). Qed.

Lemma slot_map_ext f h n : (∀ i, f i = h i) → slot_map f n = slot_map h n.
Proof.
  intros H. apply list_fmap_ext. intros i x _. by rewrite H, (rank_ext f h).
Qed.

Lemma live_part_ext {A} f h (l : list A) : (∀ i, f i = h i) → live_part f l = live_part h l.
Proof. intros H. unfold live_part. f_equal. apply filter_ext_in. intros [i x] _. cbn. by rewrite H. Qed.

Lemma repr_nf g a i : repr g a → nlive g i = a_nf a i.
Proof. intros Hr. unfold a_nf. rewrite <-(rp_nlive _ _ Hr). unfold index. by rewrite Nat2N.id. Qed.

Lemma repr_ef g a i : repr g a → LiveSet.live_in (live_edges g) i = a_ef a i.
Proof. intros Hr. unfold a_ef. rewrite <-(rp_elive _ _ Hr). unfold elive, index. by rewrite Nat2N.id. Qed.

Lemma compact_refines g a :
  repr g a →
  ∃ g', compact g = Ok (g', a_renumbering a) ∧ repr g' (a_compact a) ∧ is_compact g' = true.
Proof.
  intros Hr. destruct (rp_inv _ _ Hr) as (L & Hinv & Hadj).
  destruct (compact_spec g L Hinv) as (g' & Hc & Hinv' & Hcomp & Hn & He & Hnl & Hel & Hadj').
  assert (Hnf : ∀ i, nlive g i = a_nf a i) by (intros; by apply repr_nf).
  assert (Hef : ∀ i, LiveSet.live_in (live_edges g) i = a_ef a i) by (intros; by apply repr_ef).
  assert (Hnodes : live_node_payloads g = a_nodes (a_compact a)).
  { cbn. rewrite <-(rp_nodes _ _ Hr). by apply live_part_ext. }
  assert (Hedges : live_edge_records g = a_edges (a_compact a)).
  { cbn. unfold live_edge_records. rewrite <-(rp_edges _ _ Hr), (live_part_ext _ _ _ Hef).
    apply list_fmap_ext. intros i r _. unfold remap, a_remap, new_node. by rewrite !(renum_ext _ _ _ Hnf). }
  exists g'. split_and!; [|split|done].
  - rewrite Hc. unfold a_renumbering. rewrite (repr_node_bound _ _ Hr), (repr_edge_bound _ _ Hr).
    by rewrite (slot_map_ext _ _ _ Hnf), (slot_map_ext _ _ _ Hef).
  - by rewrite Hn.
  - by rewrite He.
  - intros n. rewrite Hnl, Hnodes. done.
  - intros e. rewrite Hel, Hedges. done.
  - exists (λ _ _, []). split; [done|]. intros d n. cbn.
    destruct (live_list (a_nf a) (length (a_nodes a)) !! index n) as [old|] eqn:Hold.
    + apply live_list_lookup in Hold as (Hlt & Hlive & <-).
      rewrite <-(rank_ext _ _ _ Hnf), Hadj' by (by rewrite Hnf). unfold new_adj.
      rewrite <-Hadj. unfold index. rewrite Nat2N.id. apply list_fmap_ext.
      intros i x _. unfold new_edge. by apply renum_ext.
    + apply (adj_dead g' _ Hinv'). rewrite Hnl, bool_decide_eq_false, length_new_nodes.
      apply live_list_None in Hold. rewrite <-(rank_ext _ _ _ Hnf), <-(repr_node_bound _ _ Hr) in Hold. lia.
Qed.

(** ** Histories *)

Inductive call : Type :=
  | Mutate (ev : event NP EP)
  | CompactCall.

Inductive answer : Type :=
  | Answer (r : reply)
  | Renumbered (r : Renumbering).

Definition exec_call g (c : call) : res (Graph NP EP * answer) :=
  match c with
  | Mutate ev => '(g', r) ← exec g ev; mret (g', Answer r)
  | CompactCall => '(g', r) ← compact g; mret (g', Renumbered r)
  end.

Fixpoint run g (cs : list call) : res (Graph NP EP * list answer) :=
  match cs with
  | [] => mret (g, [])
  | c :: cs => '(g1, r) ← exec_call g c; '(g2, rs) ← run g1 cs; mret (g2, r :: rs)
  end.

Definition a_call a (c : call) : option (agraph NP EP * answer) :=
  match c with
  | Mutate ev => '(a', r) ← a_step a ev; Some (a', Answer r)
  | CompactCall => Some (a_compact a, Renumbered (a_renumbering a))
  end.

Fixpoint a_run a (cs : list call) : option (agraph NP EP * list answer) :=
  match cs with
  | [] => Some (a, [])
  | c :: cs => '(a1, r) ← a_call a c; '(a2, rs) ← a_run a1 cs; Some (a2, r :: rs)
  end.

Lemma tagged_inv : inv (tagged : Graph NP EP) (λ _ _, []).
Proof.
  destruct (base_inv ([] : list NP) ([] : list (EdgeRecord EP)) [] [] [] [] LiveSet.new LiveSet.new)
    as [H _]; try done; try apply LiveSet.new_wf.
  - set_solver.
  - intros []; by left.
  - intros d n. cbn. lia.
Qed.

Lemma tagged_repr : repr (tagged : Graph NP EP) a_empty.
Proof. split; try done. exists (λ _ _, []). split; [apply tagged_inv|]. by intros []. Qed.

Lemma call_refines g a c :
  repr g a →
  match a_call a c with
  | Some (a', r) => ∃ g', exec_call g c = Ok (g', r) ∧ repr g' a'
  | None => panics (exec_call g c)
  end.
Proof.
  intros Hr. destruct c as [ev|].
  - pose proof (step_refines g a ev Hr) as H. unfold refines in H. cbn.
    destruct (a_step a ev) as [[a' r]|]; cbn.
    + destruct H as (g' & -> & Hr'). by exists g'.
    + by apply panics_bind.
  - destruct (compact_refines g a Hr) as (g' & Hc & Hr' & _). exists g'. cbn. by rewrite Hc.
Qed.

Lemma run_refines g a cs :
  repr g a →
  match a_run a cs with
  | Some (a', rs) => ∃ g', run g cs = Ok (g', rs) ∧ repr g' a'
  | None => panics (run g cs)
  end.
Proof.
  revert g a. induction cs as [|c cs IH]; intros g a Hr; cbn; [by exists g|].
  pose proof (call_refines g a c Hr) as Hc. destruct (a_call a c) as [[a1 r]|]; cbn.
  - destruct Hc as (g1 & -> & Hr1). cbn. specialize (IH g1 a1 Hr1).
    destruct (a_run a1 cs) as [[a2 rs]|]; cbn.
    + destruct IH as (g2 & -> & Hr2). by exists g2.
    + by apply panics_bind.
  - by apply panics_bind.
Qed.

(** A store some history of calls produced. *)
Definition reachable_store g : Prop := ∃ cs rs, run tagged cs = Ok (g, rs).

Lemma reachable_repr g : reachable_store g → ∃ a, repr g a.
Proof.
  intros (cs & rs & Hrun). pose proof (run_refines tagged a_empty cs tagged_repr) as H.
  destruct (a_run a_empty cs) as [[a rs']|].
  - destruct H as (g' & Hg & Hr). rewrite Hg in Hrun. simplify_eq. eauto.
  - destruct H as [why Hw]. congruence.
Qed.

Lemma reachable_inv g : reachable_store g → ∃ L, inv g L.
Proof. intros [a Hr]%reachable_repr. destruct (rp_inv _ _ Hr) as (L & Hinv & _). eauto. Qed.

End History.
Arguments call : clear implicits.
