(* ===== verification/Samples.v ===== *)
(** * Sample values

    The concrete store the witnesses run on, reached by a history of calls,
    and the view it gives. *)

From S2P Require Import Prelude Words Liveness Ids View EdgeViews Chains Runs Store StoreInv StoreSpec StoreView History.

(** ** A concrete history *)

(** Four nodes, five edges with a parallel pair, a redirection, removals and a
    compaction between them. *)
Definition sample_calls : list (call N N) :=
  [Mutate (AddNode 10%N); Mutate (AddNode 11%N); Mutate (AddNode 12%N); Mutate (AddNode 13%N);
   Mutate (AddEdge 0%N 1%N 100%N); Mutate (AddEdge 0%N 2%N 101%N); Mutate (AddEdge 1%N 2%N 102%N);
   Mutate (AddEdge 0%N 2%N 103%N); Mutate (AddEdge 2%N 3%N 104%N);
   Mutate (RedirectEdge Incoming 0%N 3%N); Mutate (RemoveEdge 1%N);
   CompactCall; Mutate (RemoveNode 1%N); Mutate (AddEdge 2%N 0%N 105%N);
   Mutate (MoveAdjacency Outgoing 0%N 3%N)].

Definition sample_store : Graph N N :=
  match run tagged sample_calls with Ok (g, _) => g | _ => tagged end.

Lemma sample_reachable : reachable_store sample_store.
Proof.
  unfold reachable_store, sample_store. exists sample_calls.
  assert (H : is_Some (match run tagged sample_calls with Ok (_, rs) => Some rs | _ => None end))
    by (vm_compute; eauto).
  destruct (run tagged sample_calls) as [[g rs]| |]; [by exists rs|by destruct H..].
Qed.

(** The sample store is a view whose nodes are 0, 2 and 3. *)
Lemma sample_view :
  ∃ s, Views sample_store s ∧ 0%N ∈ sh_nodes s ∧ 2%N ∈ sh_nodes s ∧ 3%N ∈ sh_nodes s ∧ sh_bound s = 4.
Proof.
  destruct (reachable_inv _ sample_reachable) as [L Hinv].
  exists (es_shape (store_shape sample_store L)).
  split; [apply (store_EdgeViews sample_store L Hinv)|].
  pose proof (store_node_ids sample_store L Hinv) as Hids.
  split_and!; [apply Hids; vm_compute; reflexivity..|vm_compute; reflexivity].
Qed.

(** The same, with the nodes listed and their identities read back from their
    indices. *)
Lemma sample_nodes :
  ∃ s, Views sample_store s ∧ sh_nodes s = [0; 2; 3]%N ∧ sh_bound s = 4 ∧
    ∀ n, n ∈ sh_nodes s → from_index (index n) = Ok n.
Proof.
  destruct sample_view as (s & HV & _ & _ & _ & Hb). exists s. split; [exact HV|].
  assert (sh_nodes s = [0; 2; 3]%N) as ->.
  { assert (gv_node_ids sample_store = Ok [0; 2; 3]%N) as H by (vm_compute; reflexivity).
    rewrite (vw_nodes (g := sample_store) (s := s)) in H. by injection H. }
  split; [reflexivity|]. split; [exact Hb|].
  intros n Hn. apply from_index_Ok. unfold index. rewrite N2Nat.id. split; [done|].
  repeat (apply elem_of_cons in Hn as [->|Hn]; [vm_compute; discriminate|]). by apply elem_of_nil in Hn.
Qed.

(** The sample store from its node 3, whose one exit is node 0. *)
Definition sample_rooted_at : Rooted (Graph N N) := mk_Rooted sample_store 3%N.

(** Its edges. *)
Lemma sample_edges :
  ∃ s : eshape N, EdgeViews sample_store s ∧ es_nodes s = [0; 2; 3]%N ∧ es_ids s = [0; 2; 3; 4]%N ∧
    ∀ n, n ∈ es_nodes s → from_index (index n) = Ok n.
Proof.
  destruct (reachable_inv _ sample_reachable) as [L Hinv].
  pose proof (store_EdgeViews sample_store L Hinv) as HV. revert HV.
  generalize (store_shape sample_store L). intros s HV. exists s. split; [exact HV|].
  assert (es_nodes s = [0; 2; 3]%N) as ->.
  { assert (gv_node_ids sample_store = Ok [0; 2; 3]%N) as H by (vm_compute; reflexivity).
    rewrite (vw_nodes (Views := ew_views (EdgeViews := HV))) in H. by injection H. }
  split_and!; [done| |].
  - assert (ev_edge_ids sample_store = Ok [0; 2; 3; 4]%N) as H by (vm_compute; reflexivity).
    rewrite (ew_ids (EdgeViews := HV)) in H. by injection H.
  - intros n Hn. apply from_index_Ok. unfold index. rewrite N2Nat.id. split; [done|].
    repeat (apply elem_of_cons in Hn as [->|Hn]; [vm_compute; discriminate|]). by apply elem_of_nil in Hn.
Qed.
