(* ===== verification/StoreTheorems.v ===== *)
(** * The graph store: what it guarantees

    The properties of [Graph] a client relies on, each for every store that
    some history of calls on a fresh one produced, with a concrete history on
    which they hold. *)

From S2P Require Import Prelude Words Liveness Ids View EdgeViews Chains Runs Store StoreInv StoreEdits StoreOverlay StoreRedirect StoreSpec StoreView Compress Renumbering Slots Compact History Samples.

Section StoreTheorems.
Context {NP EP : Type}.
Implicit Types g : Graph NP EP.

(** C1: every history of calls on a fresh store, compactions and redirections
    included, answers call by call as the abstract graph does, ends in a store
    that represents the abstract graph it reached, and panics exactly when the
    abstract operation is undefined; it never loops. *)
Theorem history_refines (cs : list (call NP EP)) :
  match a_run a_empty cs with
  | Some (a, answers) => ∃ g, run tagged cs = Ok (g, answers) ∧ repr g a
  | None => panics (run (tagged : Graph NP EP) cs)
  end.
Proof. apply run_refines, tagged_repr. Qed.

(** C2: in every store a history produced, a live edge has live endpoints, and
    it is read exactly once from the outgoing walk of its source and the
    incoming walk of its target, and from the walk of no other node. *)
Theorem adjacency_mirrors_edges g e :
  reachable_store g → contains_edge g e = Ok true →
  ∃ r, edge g e = Ok r ∧ ∀ d, contains_node g (endpoint d r) = Ok true ∧
    ∀ n, index n < node_bound g →
      ∃ es, adjacency g d n = Ok es ∧ NoDup es ∧ (e ∈ es ↔ endpoint d r = n).
Proof.
  intros [L Hinv]%reachable_inv. rewrite (contains_edge_Ok g L Hinv). intros [= He].
  destruct (live_edge_record g L Hinv e He) as (r & Hr & Hends).
  exists r. split; [by apply edge_lookup|]. intros d. rewrite (contains_node_Ok g L Hinv), Hends.
  split; [done|]. intros n Hn. exists (adj g L d (index n)).
  split_and!; [by apply adjacency_Ok|apply (adj_nodup _ _ Hinv)|].
  rewrite (elem_of_adj g L Hinv). split.
  - intros (_ & r' & Hr' & Hend). simplify_eq. by apply index_eq_iff.
  - intros <-. eauto.
Qed.

(** C5: the walk over a node in range never panics and yields only live edges
    filed under it; the degree counts exactly what the walk yields, and the
    neighbours are the far endpoints in the same order. *)
Theorem queries_agree g n :
  reachable_store g → index n < node_bound g →
  ∃ outs ins succs preds,
    outgoing g n = Ok outs ∧ incoming g n = Ok ins ∧
    successors g n = Ok succs ∧ predecessors g n = Ok preds ∧
    degree g n Outgoing = Ok (length outs) ∧ degree g n Incoming = Ok (length ins) ∧
    Forall2 (λ e m, contains_edge g e = Ok true ∧ ∃ r, edge g e = Ok r ∧ source r = n ∧ target r = m) outs succs ∧
    Forall2 (λ e m, contains_edge g e = Ok true ∧ ∃ r, edge g e = Ok r ∧ target r = n ∧ source r = m) ins preds.
Proof.
  intros [L Hinv]%reachable_inv Hn.
  assert (Hwalk : ∀ d, Forall2 (λ e m, contains_edge g e = Ok true ∧
      ∃ r, edge g e = Ok r ∧ endpoint d r = n ∧ endpoint (flip d) r = m)
      (adj g L d (index n)) (far_ends (all_edges g) d (adj g L d (index n)))).
  { intros d. assert (Hall : ∀ e, e ∈ adj g L d (index n) → elive g e = true ∧
      ∃ r, all_edges g !! index e = Some r ∧ index (endpoint d r) = index n).
    { intros e He. by apply (elem_of_adj g L Hinv) in He. }
    revert Hall. generalize (adj g L d (index n)) as l. induction l as [|e l IH]; intros Hall; [constructor|].
    destruct (Hall e) as (He & r & Hr & Hend%index_eq_iff); [left|]. unfold far_ends. cbn. rewrite Hr. cbn.
    constructor; [|apply IH; set_solver]. rewrite (contains_edge_Ok g L Hinv), He.
    split; [done|]. exists r. split; [by apply edge_lookup|done]. }
  exists (adj g L Outgoing (index n)), (adj g L Incoming (index n)),
    (far_ends (all_edges g) Outgoing (adj g L Outgoing (index n))),
    (far_ends (all_edges g) Incoming (adj g L Incoming (index n))).
  split_and!; [by apply (adjacency_Ok g L)|by apply (adjacency_Ok g L)|by apply (successors_Ok g L)|
    by apply (predecessors_Ok g L)|by apply (degree_Ok g L)|by apply (degree_Ok g L)|
    exact (Hwalk Outgoing)|exact (Hwalk Incoming)].
Qed.

(** The identities a store iterates over are the live ones, each once, in
    ascending order, and the two counters are their numbers. *)
Theorem identities_are_live g :
  reachable_store g →
  ∃ ns es, node_ids g = Ok ns ∧ edge_ids g = Ok es ∧
    StronglySorted N.lt ns ∧ StronglySorted N.lt es ∧
    node_count g = length ns ∧ edge_count g = length es ∧
    (∀ x, (x ∈ ns ↔ contains_node g x = Ok true) ∧ (x ∈ es ↔ contains_edge g x = Ok true)).
Proof.
  intros [L Hinv]%reachable_inv.
  assert (Hsorted : ∀ (f : nat → bool) n,
    StronglySorted N.lt (N.of_nat <$> filter (λ i, f i = true) (seq 0 n))).
  { intros f n. apply (StronglySorted_fmap lt); [intros; lia|]. apply StronglySorted_filter.
    generalize 0. induction n as [|n IH]; intros s; cbn; constructor; [done|].
    apply Forall_forall. intros x Hx%elem_of_seq. lia. }
  eexists _, _. split_and!;
    [exact (node_ids_spec g L Hinv)|exact (edge_ids_spec g L Hinv)|apply Hsorted|
     apply (Hsorted (λ i, elive g (N.of_nat i)))|by apply (node_count_ids g L _ Hinv), (node_ids_spec g L Hinv)|
     by apply (edge_count_ids g L _ Hinv), (edge_ids_spec g L Hinv)|].
  intros x. rewrite (contains_node_Ok g L Hinv), (contains_edge_Ok g L Hinv).
  pose proof (store_node_ids g L Hinv x) as Hn. pose proof (store_edge_ids g L Hinv x) as He.
  cbn in Hn, He. rewrite Hn, He. split; split; congruence.
Qed.

(** C6: a store keeps the [GraphView] and [EdgeView] contracts, removed nodes
    and redirected edges or not: identities stay below the bound, edges have
    live endpoints, and the two directions hold the same multiset of edges. *)
Theorem store_keeps_view_contract g : reachable_store g → ∃ s, EdgeViews g s.
Proof. intros [L Hinv]%reachable_inv. exists (store_shape g L). exact (store_EdgeViews g L Hinv). Qed.

Lemma renum_mono f (x y : Id) : f (index x) = true → (x < y)%N → (renum f x < renum f y)%N.
Proof. intros Hx Hlt. pose proof (rank_lt f (index x) (index y) Hx) as Hr. unfold renum, index in *. lia. Qed.

(** C3: compaction succeeds, leaves a compact store, and renumbers exactly the
    live nodes and the live edges, neither reordered and with no number left
    over. A surviving node keeps its payload and reads its edges in the order it
    read them before; a surviving edge keeps its payload and joins the nodes it
    joined, under their new numbers. *)
Theorem compact_preserves g :
  reachable_store g →
  ∃ g' rn, compact g = Ok (g', rn) ∧ is_compact g' = true ∧
    (∀ n, contains_node g n = Ok true ↔ is_Some (Renumber.node rn n)) ∧
    (∀ e, contains_edge g e = Ok true ↔ is_Some (Renumber.edge rn e)) ∧
    (∀ n', contains_node g' n' = Ok true → ∃ n, Renumber.node rn n = Some n') ∧
    (∀ e', contains_edge g' e' = Ok true → ∃ e, Renumber.edge rn e = Some e') ∧
    (∀ n m n' m', Renumber.node rn n = Some n' → Renumber.node rn m = Some m' → (n < m)%N → (n' < m')%N) ∧
    (∀ e f e' f', Renumber.edge rn e = Some e' → Renumber.edge rn f = Some f' → (e < f)%N → (e' < f')%N) ∧
    (∀ e e', Renumber.edge rn e = Some e' →
       ∃ r r', edge g e = Ok r ∧ edge g' e' = Ok r' ∧ payload r' = payload r ∧
         ∀ d, Renumber.node rn (endpoint d r) = Some (endpoint d r')) ∧
    (∀ n n', Renumber.node rn n = Some n' →
       node g' n' = node g n ∧
       ∀ d es, adjacency g d n = Ok es →
         ∃ es', adjacency g' d n' = Ok es' ∧ Some <$> es' = Renumber.edge rn <$> es).
Proof.
  intros [L Hinv]%reachable_inv.
  destruct (compact_spec g L Hinv) as (g' & Hc & Hinv' & Hcomp & Hn & He & Hnl & Hel & Hadj).
  assert (Htr : ∀ f n x, (N.of_nat n ≤ U32_MAX)%N → (f (index x) = true → index x < n) →
    translate (slot_map f n) (index x) = if f (index x) then Some (renum f x) else None).
  { intros f n x Hmax Hlt. unfold translate. destruct (decide (index x < n)) as [Hx|Hx].
    - rewrite slot_map_lookup by done. cbn. destruct (f (index x)); [|by rewrite decide_True].
      rewrite decide_False; [done|]. by apply (rank_NONE f n).
    - rewrite lookup_ge_None_2 by (rewrite length_slot_map; lia). cbn.
      destruct (f (index x)); [|done]. exfalso. auto. }
  assert (Hnode : ∀ x, translate (slot_map (nlive g) (node_bound g)) (index x) =
    if nlive g (index x) then Some (renum (nlive g) x) else None).
  { intros x. apply Htr; [apply (inv_node_max _ _ Hinv)|apply (nlive_lt _ _ Hinv)]. }
  assert (Hedge : ∀ x, translate (slot_map (LiveSet.live_in (live_edges g)) (edge_bound g)) (index x) =
    if elive g x then Some (new_edge g x) else None).
  { intros x. apply Htr; [apply (inv_edge_max _ _ Hinv)|apply (elive_lt _ _ Hinv)]. }
  eexists g', _. split_and!; [exact Hc|done|..]; unfold Renumber.node, Renumber.edge; cbn [rn_nodes rn_edges].
  - intros n. rewrite Hnode, (contains_node_Ok g L Hinv). destruct (nlive g (index n)); split; (done || by intros []).
  - intros e. rewrite Hedge, (contains_edge_Ok g L Hinv). destruct (elive g e); split; (done || by intros []).
  - intros n'. rewrite (contains_node_Ok g' _ Hinv'), Hnl, length_new_nodes. intros [= Hn'%bool_decide_eq_true].
    destruct (rank_surj _ _ _ Hn') as (m & _ & Hm & Heq). exists (N.of_nat m). rewrite Hnode. unfold renum, index.
    rewrite Nat2N.id, Hm. f_equal. unfold index in Heq. lia.
  - intros e'. rewrite (contains_edge_Ok g' _ Hinv'), Hel, length_new_edges. intros [= He'%bool_decide_eq_true].
    destruct (rank_surj _ _ _ He') as (m & _ & Hm & Heq). exists (N.of_nat m). rewrite Hedge. unfold elive, new_edge, renum, index.
    rewrite Nat2N.id, Hm. f_equal. unfold index in Heq. lia.
  - intros n m n' m'. rewrite !Hnode. destruct (nlive g (index n)) eqn:Hln; [|done].
    destruct (nlive g (index m)); [|done]. intros [= <-] [= <-]. by apply renum_mono.
  - intros e f e' f'. rewrite !Hedge. destruct (elive g e) eqn:Hle; [|done].
    destruct (elive g f); [|done]. intros [= <-] [= <-]. by apply renum_mono.
  - intros e e'. rewrite Hedge. destruct (elive g e) eqn:Hle; [|done]. intros [= <-].
    destruct (live_edge_record g L Hinv e Hle) as (r & Hrec & Hends). exists r, (remap g r). split_and!; [by apply edge_lookup| |done|].
    + apply edge_lookup. rewrite He. by apply (new_record g e r).
    + intros d. rewrite Hnode, Hends. by destruct d.
  - intros n n'. rewrite Hnode. destruct (nlive g (index n)) eqn:Hln; [|done]. intros [= <-].
    pose proof (nlive_lt _ _ Hinv _ Hln) as Hnlt.
    assert (Hidx : index (renum (nlive g) n) = rank (nlive g) (index n)) by apply Nat2N.id. split.
    + destruct (lookup_lt_is_Some_2 (all_nodes g) (index n)) as [p Hp]; [by rewrite length_all_nodes|].
      rewrite (proj2 (node_lookup g n p) Hp). apply node_lookup. rewrite Hn, Hidx.
      by apply live_part_lookup.
    + intros d es. rewrite (adjacency_Ok g L Hinv) by done. intros [= <-].
      exists (new_adj g L d (index n)). rewrite (adjacency_Ok g' _ Hinv'), Hidx, Hadj by
        (first [done|rewrite Hidx; apply (nlive_lt _ _ Hinv'); rewrite Hnl, length_new_nodes;
                apply bool_decide_eq_true, rank_lt; done]).
      split; [done|]. unfold new_adj. rewrite <-list_fmap_compose. apply list_fmap_ext.
      intros i e Hi. cbn. rewrite Hedge.
      assert (e ∈ adj g L d (index n)) as [-> _]%(elem_of_adj g L Hinv) by (by eapply list_elem_of_lookup_2).
      done.
Qed.

Lemma adjacency_in_range g d n es : adjacency g d n = Ok es → index n < node_bound g.
Proof.
  intros H. destruct (decide (index n < node_bound g)) as [|Hge]; [done|]. exfalso.
  destruct (adjacent_panics g d n) as [why Hw]; [lia|]. unfold adjacency in H. by rewrite Hw in H.
Qed.

(** Redirecting a live edge to a live node changes that one endpoint and
    nothing else of the record, returns the previous endpoint, takes the edge
    out of the walk it was in without disturbing the others, and appends it to
    the walk of its new node. *)
Theorem redirect_moves_one_edge g e n d r :
  reachable_store g → contains_edge g e = Ok true → contains_node g n = Ok true →
  edge g e = Ok r → endpoint d r ≠ n →
  ∃ g', redirect g e n d = Ok (g', endpoint d r) ∧ edge g' e = Ok (set_endpoint d n r) ∧
    (∀ x rx, x ≠ e → edge g x = Ok rx → edge g' x = Ok rx) ∧
    ∀ d' m es, adjacency g d' m = Ok es →
      adjacency g' d' m = Ok (
        if decide (d' = d ∧ m = endpoint d r) then filter (λ x, x ∉ [e]) es
        else if decide (d' = d ∧ m = n) then es ++ [e] else es).
Proof.
  intros [L Hinv]%reachable_inv. rewrite (contains_edge_Ok g L Hinv), (contains_node_Ok g L Hinv).
  intros [= He] [= Hn] Hr%edge_lookup Hne.
  destruct (redirect_spec g L e n d r Hinv He Hn Hr Hne) as (g' & L' & Hred & Hinv' & Hnd & Hed & _ & _ & Hadj).
  exists g'. split_and!; [done| | |].
  - apply edge_lookup. by rewrite Hed, list_lookup_alter_eq, Hr.
  - intros x rx Hx. rewrite !edge_lookup, Hed, list_lookup_alter_ne; [done|]. by rewrite index_eq_iff.
  - intros d' m es Hes. assert (Hm : index m < node_bound g) by (by eapply adjacency_in_range).
    rewrite (adjacency_Ok g L Hinv) in Hes by done. injection Hes as <-.
    assert (Hnb : node_bound g' = node_bound g) by (by rewrite <-!length_all_nodes, Hnd).
    rewrite (adjacency_Ok g' L' Hinv') by (by rewrite Hnb). rewrite Hadj, !decide_moved.
    f_equal. repeat case_decide; naive_solver.
Qed.

(** Removing a node removes it and exactly the edges incident to it, and
    leaves every other walk with its order. *)
Theorem remove_node_removes_incident g n :
  reachable_store g → contains_node g n = Ok true →
  ∃ g', remove_node g n = Ok (g', true) ∧ contains_node g' n = Ok false ∧
    (∀ m, m ≠ n → contains_node g' m = contains_node g m) ∧
    (∀ e r, edge g e = Ok r → contains_edge g' e =
       Ok (bool_decide (contains_edge g e = Ok true ∧ source r ≠ n ∧ target r ≠ n))) ∧
    ∀ d m es, adjacency g d m = Ok es →
      ∃ es', adjacency g' d m = Ok es' ∧ es' `sublist_of` es ∧
        ∀ e, e ∈ es' ↔ e ∈ es ∧ contains_edge g' e = Ok true.
Proof.
  intros [L Hinv]%reachable_inv. rewrite (contains_node_Ok g L Hinv). intros [= Hn].
  destruct (remove_node_spec g L n Hinv Hn) as (g' & Hrem & Hinv' & Hnd & Hed & Hnl & Hel & Hadj).
  assert (Hinc : ∀ e r, all_edges g !! index e = Some r → elive g e = true →
    incident g L (index n) e = bool_decide (source r = n ∨ target r = n)).
  { intros e r Hr He. unfold incident. apply bool_decide_ext.
    rewrite !(elem_of_adj g L Hinv). split.
    - intros [(_ & r' & Hr' & Hend%index_eq_iff)|(_ & r' & Hr' & Hend%index_eq_iff)]; simplify_eq; auto.
    - intros [<-|<-]; [left|right]; eauto. }
  exists g'. split_and!; [done| | | |].
  - by rewrite (contains_node_Ok g' L Hinv'), Hnl, bool_decide_true, andb_false_r.
  - intros m Hm. rewrite (contains_node_Ok g' L Hinv'), (contains_node_Ok g L Hinv), Hnl.
    rewrite bool_decide_false by (by rewrite index_eq_iff). by rewrite andb_true_r.
  - intros e r Hr%edge_lookup. rewrite (contains_edge_Ok g' L Hinv'), (contains_edge_Ok g L Hinv), Hel.
    f_equal. destruct (elive g e) eqn:He; [|symmetry; apply bool_decide_eq_false; naive_solver].
    rewrite (Hinc e r Hr He). apply eq_true_iff_eq. cbn.
    rewrite negb_true_iff, bool_decide_eq_false, bool_decide_eq_true. naive_solver.
  - intros d m es Hes. assert (Hm : index m < node_bound g) by (by eapply adjacency_in_range).
    rewrite (adjacency_Ok g L Hinv) in Hes by done. injection Hes as <-.
    assert (Hnb : node_bound g' = node_bound g) by (by rewrite <-!length_all_nodes, Hnd).
    exists (adj g' L d (index m)). rewrite (adjacency_Ok g' L Hinv') by (by rewrite Hnb).
    split_and!; [done| |].
    + rewrite Hadj. apply sublist_filter.
    + intros e. rewrite (contains_edge_Ok g' L Hinv'), Hel, Hadj, list_elem_of_filter.
      split; [intros [Hi He]|intros [He [= [_ Hc]%andb_true_iff]]].
      * pose proof He as [-> _]%(elem_of_adj g L Hinv). by rewrite Hi.
      * apply negb_true_iff in Hc. done.
Qed.
End StoreTheorems.

(** ** The properties at the sample history *)

Lemma adjacency_mirrors_edges_witness :
  reachable_store sample_store ∧ contains_edge sample_store 2%N = Ok true ∧
  ∃ r, edge sample_store 2%N = Ok r ∧ ∀ d, contains_node sample_store (endpoint d r) = Ok true ∧
    ∀ n, index n < node_bound sample_store →
      ∃ es, adjacency sample_store d n = Ok es ∧ NoDup es ∧ (2%N ∈ es ↔ endpoint d r = n).
Proof.
  split; [exact sample_reachable|]. split; [vm_compute; reflexivity|].
  apply (adjacency_mirrors_edges sample_store 2%N); [exact sample_reachable|vm_compute; reflexivity].
Defined.

Lemma queries_agree_witness :
  reachable_store sample_store ∧ index 3%N < node_bound sample_store ∧
  ∃ outs ins succs preds,
    outgoing sample_store 3%N = Ok outs ∧ incoming sample_store 3%N = Ok ins ∧
    successors sample_store 3%N = Ok succs ∧ predecessors sample_store 3%N = Ok preds ∧
    degree sample_store 3%N Outgoing = Ok (length outs) ∧
    degree sample_store 3%N Incoming = Ok (length ins) ∧
    Forall2 (λ e m, contains_edge sample_store e = Ok true ∧
      ∃ r, edge sample_store e = Ok r ∧ source r = 3%N ∧ target r = m) outs succs ∧
    Forall2 (λ e m, contains_edge sample_store e = Ok true ∧
      ∃ r, edge sample_store e = Ok r ∧ target r = 3%N ∧ source r = m) ins preds.
Proof.
  assert (H : index 3%N < node_bound sample_store) by (vm_compute; lia).
  split; [exact sample_reachable|]. split; [exact H|].
  apply (queries_agree sample_store 3%N); [exact sample_reachable|exact H].
Defined.

Lemma identities_are_live_witness :
  reachable_store sample_store ∧
  ∃ ns es, node_ids sample_store = Ok ns ∧ edge_ids sample_store = Ok es ∧
    StronglySorted N.lt ns ∧ StronglySorted N.lt es ∧
    node_count sample_store = length ns ∧ edge_count sample_store = length es ∧
    (∀ x, (x ∈ ns ↔ contains_node sample_store x = Ok true) ∧
          (x ∈ es ↔ contains_edge sample_store x = Ok true)).
Proof.
  split; [exact sample_reachable|].
  apply (identities_are_live sample_store). exact sample_reachable.
Defined.

Lemma store_keeps_view_contract_witness :
  reachable_store sample_store ∧ ∃ s, EdgeViews sample_store s.
Proof.
  split; [exact sample_reachable|].
  apply (store_keeps_view_contract sample_store). exact sample_reachable.
Defined.

Lemma compact_preserves_witness :
  reachable_store sample_store ∧
  ∃ g' rn, compact sample_store = Ok (g', rn) ∧ is_compact g' = true.
Proof.
  split; [exact sample_reachable|].
  destruct (compact_preserves sample_store sample_reachable) as (g' & rn & Hc & Hi & _).
  exists g', rn. split; [exact Hc|exact Hi].
Defined.

Lemma redirect_moves_one_edge_witness :
  reachable_store sample_store ∧ contains_edge sample_store 3%N = Ok true ∧
  contains_node sample_store 0%N = Ok true ∧
  ∃ g', redirect sample_store 3%N 0%N Incoming = Ok (g', 3%N) ∧
    adjacency g' Incoming 0%N = Ok [4; 3]%N.
Proof.
  split; [exact sample_reachable|]. split; [vm_compute; reflexivity|]. split; [vm_compute; reflexivity|].
  destruct (redirect_moves_one_edge sample_store 3%N 0%N Incoming (mk_EdgeRecord 2%N 3%N 104%N))
    as (g' & Hg & _ & _ & Hadj).
  - exact sample_reachable.
  - vm_compute; reflexivity.
  - vm_compute; reflexivity.
  - vm_compute; reflexivity.
  - cbn. lia.
  - exists g'. split; [exact Hg|].
    rewrite (Hadj Incoming 0%N [4%N]) by (vm_compute; reflexivity). vm_compute. reflexivity.
Defined.

Lemma remove_node_removes_incident_witness :
  reachable_store sample_store ∧ contains_node sample_store 2%N = Ok true ∧
  ∃ g', remove_node sample_store 2%N = Ok (g', true) ∧ contains_node g' 2%N = Ok false.
Proof.
  split; [exact sample_reachable|]. split; [vm_compute; reflexivity|].
  destruct (remove_node_removes_incident sample_store 2%N) as (g' & Hg & Hn & _).
  - exact sample_reachable.
  - vm_compute; reflexivity.
  - exists g'. split; [exact Hg|exact Hn].
Defined.

(** The map of a store in which every slot is live is the identity. *)
Lemma full_rank f n : (∀ j, j < n → f j = true) → ∀ i, i ≤ n → rank f i = i.
Proof.
  intros Hf i Hi. unfold rank. rewrite filter_all, length_seq; [done|].
  intros j Hj%elem_of_seq. apply Hf. lia.
Qed.

Lemma full_slot_map f n i :
  (N.of_nat n ≤ U32_MAX)%N → (∀ j, j < n → f j = true) → i < n →
  translate (slot_map f n) i = Some (N.of_nat i).
Proof.
  intros Hn Hf Hi. unfold translate. rewrite slot_map_lookup, Hf by done. cbn.
  rewrite (full_rank f n Hf) by lia. rewrite decide_False; [done|]. unfold NONE. lia.
Qed.

(** Translating first through a map and then through the identity of the slots
    it fills is translating through the map alone. *)
Lemma translate_then_full f f' n n' i :
  (N.of_nat n ≤ U32_MAX)%N → n' = rank f n → (∀ j, j < n' → f' j = true) →
  (translate (slot_map f n) i ≫= λ x, translate (slot_map f' n') (index x)) =
  translate (slot_map f n) i.
Proof.
  intros Hn -> Hf'. pose proof (rank_le f n) as Hr.
  destruct (translate (slot_map f n) i) as [x|] eqn:Hx; [|done]. cbn.
  unfold translate in Hx. destruct (slot_map f n !! i) as [y|] eqn:Hy; [|done]. cbn in Hx.
  case_decide as Hnone; [done|]. injection Hx as <-.
  pose proof (lookup_lt_Some _ _ _ Hy) as Hi. rewrite length_slot_map in Hi.
  rewrite slot_map_lookup in Hy by done. destruct (f i) eqn:Hfi; [|by injection Hy as <-].
  injection Hy as <-. pose proof (rank_lt f i n Hfi Hi). unfold index. rewrite Nat2N.id.
  apply full_slot_map; [lia|done|done].
Qed.

(** Compacting a store that was just compacted renumbers nothing: the
    second renumbering is the identity, and composing the two, as a caller
    does to carry identities across both, is the first. *)
Theorem recompaction_is_identity {NP EP} (g : Graph NP EP) :
  reachable_store g →
  ∃ g1 r1 g2 r2, compact g = Ok (g1, r1) ∧ compact g1 = Ok (g2, r2) ∧
    Renumber.is_identity r2 = true ∧
    ∀ x, Renumber.node (Renumber.compose r1 r2) x = Renumber.node r1 x ∧
         Renumber.edge (Renumber.compose r1 r2) x = Renumber.edge r1 x.
Proof.
  intros [L Hinv]%reachable_inv.
  destruct (compact_spec g L Hinv) as (g1 & Hc1 & Hinv1 & _ & Hn & He & Hnl & Hel & _).
  destruct (compact_spec g1 _ Hinv1) as (g2 & Hc2 & _).
  pose proof (node_max g L Hinv) as Hnm. pose proof (edge_max g L Hinv) as Hem.
  assert (node_bound g1 = rank (nlive g) (node_bound g)) as Hnb.
  { by rewrite <-length_all_nodes, Hn, length_new_nodes. }
  assert (edge_bound g1 = rank (LiveSet.live_in (live_edges g)) (edge_bound g)) as Heb.
  { by rewrite <-length_all_edges, He, length_new_edges. }
  assert (∀ j, j < node_bound g1 → nlive g1 j = true) as Hnf.
  { intros j Hj. rewrite Hnl, length_new_nodes. apply bool_decide_true. lia. }
  assert (∀ j, j < edge_bound g1 → LiveSet.live_in (live_edges g1) j = true) as Hef.
  { intros j Hj. specialize (Hel (N.of_nat j)). unfold elive, index in Hel.
    rewrite Nat2N.id in Hel. rewrite Hel, length_new_edges. apply bool_decide_true. lia. }
  pose proof (node_max g1 _ Hinv1) as Hnm1. pose proof (edge_max g1 _ Hinv1) as Hem1.
  eexists g1, _, g2, _. split; [exact Hc1|]. split; [exact Hc2|]. split.
  - apply andb_true_iff. cbn [rn_nodes rn_edges]. split; apply Renumber.is_identity_axis_spec;
      rewrite ?length_slot_map; try done; intros; by apply full_slot_map.
  - intros x. destruct (Renumber.compose_spec (mk_Renumbering (slot_map (nlive g) (node_bound g))
      (slot_map (LiveSet.live_in (live_edges g)) (edge_bound g))) (mk_Renumbering
      (slot_map (nlive g1) (node_bound g1))
      (slot_map (LiveSet.live_in (live_edges g1)) (edge_bound g1))) x) as [-> ->].
    unfold Renumber.node, Renumber.edge. cbn [rn_nodes rn_edges].
    split; by apply translate_then_full.
Qed.

Lemma recompaction_is_identity_witness :
  reachable_store sample_store ∧
  ∃ g1 r1 g2 r2, compact sample_store = Ok (g1, r1) ∧ compact g1 = Ok (g2, r2) ∧
    Renumber.is_identity r2 = true.
Proof.
  split; [exact sample_reachable|].
  destruct (recompaction_is_identity sample_store sample_reachable)
    as (g1 & r1 & g2 & r2 & H1 & H2 & H3 & _).
  exists g1, r1, g2, r2. split; [exact H1|]. split; [exact H2|exact H3].
Defined.

(** Rebuilding one direction's index over edges with endpoints in range
    never panics, and the run of every node lists exactly the edges filed under
    it, in insertion order: a stable counting sort. *)
Theorem compress_is_stable {EP} (edges : list (EdgeRecord EP)) (nodes : nat) (d : TraversalDirection) :
  Forall (λ r, index (endpoint d r) < nodes) edges → (N.of_nat (length edges) ≤ U32_MAX)%N →
  ∃ offsets adjacency, compress edges nodes d = Ok (offsets, adjacency) ∧
    length adjacency = length edges ∧
    ∀ n, n < nodes →
      (∃ lo hi, offsets !! n = Some lo ∧ offsets !! (n + 1) = Some hi ∧
        take (index hi - index lo) (drop (index lo) adjacency) = csr_run offsets adjacency n) ∧
      csr_run offsets adjacency n =
        N.of_nat <$> filter (λ j, (λ r, index (endpoint d r)) <$> edges !! j = Some n)
                       (seq 0 (length edges)).
Proof.
  intros Hends Hlen. rewrite Forall_forall in Hends.
  destruct (compress_spec edges nodes d Hends Hlen) as (offsets & adjacency & Hc & Hwf & Hrun & _).
  exists offsets, adjacency. split; [done|].
  destruct Hwf as [(-> & -> & -> & Hz)|(Hlo & Hla & _)].
  - split; [done|]. intros; lia.
  - split; [done|]. intros n Hn. split; [|by apply Hrun].
    destruct (lookup_lt_is_Some_2 offsets n) as [lo Hlo']; [lia|].
    destruct (lookup_lt_is_Some_2 offsets (n + 1)) as [hi Hhi]; [lia|].
    exists lo, hi. split; [done|]. split; [done|]. unfold csr_run. by rewrite Hlo', Hhi.
Qed.

Lemma compress_is_stable_witness :
  let edges := [mk_EdgeRecord 1%N 0%N 7; mk_EdgeRecord 0%N 1%N 8; mk_EdgeRecord 1%N 1%N 9] in
  Forall (λ r, index (endpoint Outgoing r) < 2) edges ∧
  ∃ offsets adjacency, compress edges 2 Outgoing = Ok (offsets, adjacency) ∧
    csr_run offsets adjacency 1 = [0; 2]%N.
Proof.
  intros edges. assert (H : Forall (λ r, index (endpoint Outgoing r) < 2) edges)
    by (repeat constructor; vm_compute; lia).
  split; [exact H|].
  destruct (compress_is_stable edges 2 Outgoing H) as (offsets & adjacency & Hc & _ & Hrun).
  - vm_compute. discriminate.
  - exists offsets, adjacency. split; [exact Hc|]. destruct (Hrun 1) as [_ ->]; [lia|].
    vm_compute. reflexivity.
Defined.

(** The edge-filtered view of a store keeps the whole view contract for
    any predicate, and a live node's walk in it is the node's walk in the store
    with exactly the edges whose payload the predicate rejects left out. *)
Theorem filtered_view_keeps_contract {NP EP} (g : Graph NP EP) (p : Id → EP → bool) :
  reachable_store g →
  (∃ s, EdgeViews (mk_FilteredEdges g p) s) ∧
  ∀ d n es, contains_node g n = Ok true → adjacency g d n = Ok es →
    ∃ kept, incident_edges d (mk_FilteredEdges g p) n = Ok kept ∧ kept `sublist_of` es ∧
      ∀ e, e ∈ kept ↔ e ∈ es ∧ ∃ r, edge g e = Ok r ∧ p e (payload r) = true.
Proof.
  intros [L Hinv]%reachable_inv. pose proof (store_EdgeViews g L Hinv) as HE.
  assert (EdgeViews (mk_FilteredEdges g p) (es_filter p (store_shape g L))) as HF by apply _.
  split; [by eexists|]. intros d n es Hn Hes.
  assert (n ∈ es_nodes (store_shape g L)) as Hns.
  { apply (store_node_ids g L Hinv). rewrite (contains_node_Ok g L Hinv) in Hn. by injection Hn. }
  pose proof (ew_adj (EdgeViews := HE) d n Hns) as Hadj.
  assert (es = es_adj (store_shape g L) d n) as ->.
  { assert (Ok es = Ok (es_adj (store_shape g L) d n)) as [=]; [|done].
    rewrite <-Hes, <-Hadj. by destruct d. }
  pose proof (ew_adj (EdgeViews := HF) d n Hns) as Hkept. eexists. split; [exact Hkept|]. cbn.
  split; [apply sublist_filter|]. intros e. rewrite list_elem_of_filter.
  assert ((∃ r, edge g e = Ok r ∧ p e (payload r) = true) ↔
    accepted p (store_shape g L) e = true) as ->; [|cbn; tauto].
  unfold accepted. cbn. split.
  - by intros (r & ->%edge_lookup & ?).
  - destruct (all_edges g !! index e) as [r|] eqn:Hr; [|done]. intros ?. exists r.
    split; [by apply edge_lookup|done].
Qed.

Lemma filtered_view_keeps_contract_witness :
  reachable_store sample_store ∧
  ∃ kept, incident_edges Outgoing (mk_FilteredEdges sample_store (λ e _, bool_decide (e ≠ 2%N))) 3%N
    = Ok kept ∧ 2%N ∉ kept.
Proof.
  split; [exact sample_reachable|].
  destruct (filtered_view_keeps_contract sample_store (λ e _, bool_decide (e ≠ 2%N)) sample_reachable)
    as [_ Hk].
  destruct (Hk Outgoing 3%N (match outgoing sample_store 3%N with Ok es => es | _ => [] end))
    as (kept & Hkept & _ & Hin); [vm_compute; reflexivity..|].
  exists kept. split; [exact Hkept|]. intros (_ & r & _ & Hr)%Hin.
  apply bool_decide_eq_true in Hr. by apply Hr.
Defined.

(** [Graph::edge_mut] hands out the whole record, not only the payload:
    assigning another edge's clone through it moves the edge's endpoints while
    the adjacency still files it under the old ones, so the edge is live but
    no longer in the outgoing walk of its source. *)
Theorem edge_mut_can_break_adjacency :
  ∃ (g g' : Graph N N) r, reachable_store g ∧ edge g 2%N = Ok r ∧
    edge_mut g 3%N (λ _, r) = Ok g' ∧ contains_edge g' 3%N = Ok true ∧ edge g' 3%N = Ok r ∧
    ∃ es, outgoing g' (source r) = Ok es ∧ 3%N ∉ es.
Proof.
  exists sample_store, (match edge_mut sample_store 3%N (λ _, mk_EdgeRecord 3%N 2%N 103%N) with
                        | Ok g' => g' | _ => sample_store end), (mk_EdgeRecord 3%N 2%N 103%N).
  split; [exact sample_reachable|]. split_and!; [vm_compute; reflexivity..|].
  exists [0; 2]%N. split; [vm_compute; reflexivity|]. set_solver by lia.
Qed.
