(* ===== verification/Validate.v ===== *)
(** * Reading a store from its serialized form

    Models [graph/store/validate.rs], the checks of
    [graph/store/adjacency.rs] and [graph/store/relocate/format.rs]: the
    columns of a store as they are written, and the checks that turn columns
    read from outside into a store. Proofs are in [ValidateSound] and
    [ValidateTheorems]. *)

From S2P Require Import Prelude Words Liveness Ids Chains Runs Store.

(** ** Checks

    A check either fails with a message or goes on, and like all code may
    panic: [Result<A, &'static str>] inside the monad of panics. *)
Notation checked A := (res (string + A)).

Definition reject {A} (why : string) : checked A := Ok (inl why).
Definition accept {A} (a : A) : checked A := Ok (inr a).

(** The [?] operator *)
Definition and_then {A B} (m : checked A) (k : A → checked B) : checked B :=
  r ← m; match r with inl why => reject why | inr a => k a end.

Notation "x ←? m ; k" := (and_then m (λ x, k))
  (at level 20, m at level 100, k at level 200, only parsing) : rust_scope.
#[local] Open Scope rust_scope.

(** A loop whose body may return with an error *)
Fixpoint cfold {A S} (f : S → A → checked S) (s : S) (l : list A) : checked S :=
  match l with
  | [] => accept s
  | x :: l => s' ←? f s x; cfold f s' l
  end.

(** ** The relocation overlay *)

(** [Encoded]: each [BTreeMap] as its ascending list of entries. *)
Record Encoded : Type := mk_Encoded {
  enc_outgoing : list (N * list N);
  enc_incoming : list (N * list N);
}.

(** The loop of [Runs::from_encoded] *)
Definition place_run (acc : list N * list (list N)) (entry : N * list N) : res (list N * list (list N)) :=
  let '(index', runs) := acc in
  let '(node, run) := entry in
  raw ← raw_index (length runs);
  index'' ← vset index' (index node) raw;
  mret (index'', runs ++ [run]).

(** [Runs::from_encoded] *)
Definition from_encoded (encoded : list (N * list N)) (node_bound edge_bound : nat) : checked Runs.t :=
  match list.last encoded with
  | None => accept Runs.default
  | Some (highest, _) =>
      if decide (N.of_nat node_bound ≤ highest)%N then
        reject "an overlay run belongs to a node the store does not hold"
      else if existsb (λ e, bool_decide (N.of_nat edge_bound ≤ e)%N) (concat encoded.*2) then
        reject "an overlay run names an edge the store does not hold"
      else
        '(slots, runs) ← rfold place_run (replicate (index highest + 1) NONE, []) encoded;
        accept (Runs.mk slots runs)
  end.

(** [Encoded::into_relocations] *)
Definition into_relocations (e : Encoded) (node_bound edge_bound : nat) : checked Relocations :=
  outgoing ←? from_encoded (enc_outgoing e) node_bound edge_bound;
  incoming ←? from_encoded (enc_incoming e) node_bound edge_bound;
  accept (mk_Relocations outgoing incoming).

(** ** The compressed index *)

(** [offsets.windows(2).any(|pair| pair\[0\] > pair\[1\])] *)
Fixpoint descends (l : list N) : bool :=
  match l with
  | x :: (y :: _) as l' => bool_decide (y < x)%N || descends l'
  | _ => false
  end.

(** [check_index] *)
Definition check_index (offsets edges : list N) (base_nodes base_edges : nat) : checked () :=
  if decide (offsets = []) then
    if decide (edges = [] ∧ base_nodes = 0 ∧ base_edges = 0) then accept ()
    else reject "a store with a compressed base has no adjacency index"
  else
    mismatch ←
      (if decide (length offsets ≠ base_nodes + 1 ∨ length edges ≠ base_edges) then mret true
       else
         first ← vget offsets 0;
         last ← vget offsets base_nodes;
         mret (bool_decide (first ≠ 0%N) || bool_decide (last ≠ N.of_nat (length edges)) || descends offsets));
    if (mismatch : bool) then reject "the adjacency index does not describe the compressed base"
    else if existsb (λ e, bool_decide (N.of_nat base_edges ≤ e)%N) edges then
      reject "the adjacency index names an edge outside the compressed base"
    else accept ().

(** ** The chains *)

Section Chains.
Context (c : DeltaChains.t) (owner_of : nat → TraversalDirection → res nat) (chain : TraversalDirection).

(** The inner [loop] of [DeltaChains::check] *)
Fixpoint check_ring (fuel : nat) (node : nat) (seen : list bool) (edge last : N) : checked (list bool) :=
  match fuel with
  | 0 => Stuck
  | S fuel =>
      bad ←
        (if decide (N.of_nat (length seen) ≤ edge)%N then mret true
         else
           listed ← vget seen (index edge);
           if (listed : bool) then mret true
           else owner ← owner_of (index edge) chain; mret (bool_decide (owner ≠ node)));
      if (bad : bool) then reject "an adjacency chain is not a ring of the node's own edges"
      else
        seen' ← vset seen (index edge) true;
        if decide (edge = last) then accept seen'
        else
          links ← vget (DeltaChains.next c) (index edge);
          check_ring fuel node seen' (link chain links) last
  end.

(** One node of [DeltaChains::check] *)
Definition check_chain (seen : list bool) (entry : nat * Links) : checked (list bool) :=
  let '(node, links) := entry in
  let last := link chain links in
  if decide (last = NONE) then accept seen
  else match DeltaChains.next c !! index last with
  | None => reject "an adjacency chain ends outside the delta edges"
  | Some links => check_ring (S (length (DeltaChains.next c))) node seen (link chain links) last
  end.
End Chains.

(** [DeltaChains::check] *)
Definition check_chains (c : DeltaChains.t) (nodes delta_edges : nat)
    (owner_of : nat → TraversalDirection → res nat) : checked () :=
  if decide (nodes < length (DeltaChains.last c) ∨ length (DeltaChains.next c) ≠ delta_edges) then
    reject "the adjacency chains do not match the nodes and delta edges"
  else
    cfold (λ _ chain,
      _ ←? cfold (check_chain c owner_of chain) (replicate (length (DeltaChains.next c)) false)
             (zip (seq 0 (length (DeltaChains.last c))) (DeltaChains.last c));
      accept ()) () [Outgoing; Incoming].

(** ** The store *)

Section Store.
Context {NP EP : Type}.

(** [Stored]: the columns of a [Graph], as they are written. *)
Record Stored : Type := mk_Stored {
  st_base_nodes : list NP;
  st_base_edges : list (EdgeRecord EP);
  st_out_offsets : list N;
  st_out_edges : list N;
  st_in_offsets : list N;
  st_in_edges : list N;
  st_delta_nodes : list NP;
  st_delta_edges : list (EdgeRecord EP);
  st_chains : DeltaChains.t;
  st_live_nodes : LiveSet.t;
  st_live_edges : LiveSet.t;
  st_live_node_count : nat;
  st_live_edge_count : nat;
  st_relocations : option Encoded;
}.

(** The derived [Serialize] of [Graph], whose overlay is written by
    [Serialize for Relocations]. *)
Definition store_columns (g : Graph NP EP) : res Stored :=
  encoded ←
    match relocations g with
    | None => mret None
    | Some r =>
        outgoing ← Runs.iter (outgoing_runs r);
        incoming ← Runs.iter (incoming_runs r);
        mret (Some (mk_Encoded outgoing incoming))
    end;
  mret (mk_Stored (base_nodes g) (base_edges g) (out_offsets g) (out_edges g) (in_offsets g) (in_edges g)
    (delta_nodes g) (delta_edges g) (chains g) (live_nodes g) (live_edges g)
    (live_node_count g) (live_edge_count g) encoded).

(** One edge of a node in [Graph::check_adjacency] *)
Definition list_edge (g : Graph NP EP) (d : TraversalDirection) (node : Id) (listed : list bool) (e : Id)
    : checked (list bool) :=
  was ← vget listed (index e);
  record ← edge g e;
  if decide (endpoint d record ≠ node ∨ was = true) then
    reject match d with
      | Outgoing => "a node lists an edge that does not leave it, or lists it twice"
      | Incoming => "a node lists an edge that does not enter it, or lists it twice"
      end
  else listed' ← vset listed (index e) true; accept listed'.

(** One node of [Graph::check_adjacency] *)
Definition list_node (g : Graph NP EP) (listed : list bool * list bool) (node : Id)
    : checked (list bool * list bool) :=
  let '(out, inc) := listed in
  es ← outgoing g node;
  out' ←? cfold (list_edge g Outgoing node) out es;
  es ← incoming g node;
  inc' ←? cfold (list_edge g Incoming node) inc es;
  accept (out', inc').

(** [Graph::check_adjacency] *)
Definition check_adjacency (g : Graph NP EP) : checked () :=
  nodes ← node_ids g;
  listed ←? cfold (list_node g) (replicate (edge_bound g) false, replicate (edge_bound g) false) nodes;
  let '(out, inc) := (listed : list bool * list bool) in
  edges ← edge_ids g;
  cfold (λ _ e,
    o ← vget out (index e);
    missing ← (if (o : bool) then negb <$> vget inc (index e) else mret true);
    if (missing : bool) then reject "a live edge is missing from its endpoints' adjacency" else accept ())
    () edges.

(** The liveness test of [TryFrom<Stored>] *)
Definition counts_disagree (s : Stored) (node_bound edge_bound : nat) : res bool :=
  nodes ← LiveSet.count_live (st_live_nodes s) node_bound;
  if decide (nodes ≠ Some (st_live_node_count s)) then mret true
  else
    edges ← LiveSet.count_live (st_live_edges s) edge_bound;
    mret (bool_decide (edges ≠ Some (st_live_edge_count s))).

(** [TryFrom<Stored> for Graph] *)
Definition try_from (s : Stored) : checked (Graph NP EP) :=
  let node_bound := length (st_base_nodes s) + length (st_delta_nodes s) in
  let edge_bound := length (st_base_edges s) + length (st_delta_edges s) in
  if decide (MAX_SLOTS < N.of_nat node_bound ∨ MAX_SLOTS < N.of_nat edge_bound)%N then
    reject "the store holds more slots than the dense identity space"
  else
    disagree ← counts_disagree s node_bound edge_bound;
    if (disagree : bool) then reject "the liveness bitsets disagree with the slots or the live counts"
    else if existsb (λ r, bool_decide (node_bound ≤ index (source r)) || bool_decide (node_bound ≤ index (target r)))
              (st_base_edges s ++ st_delta_edges s) then
      reject "an edge names a node the store does not hold"
    else
      _ ←? check_index (st_out_offsets s) (st_out_edges s) (length (st_base_nodes s)) (length (st_base_edges s));
      _ ←? check_index (st_in_offsets s) (st_in_edges s) (length (st_base_nodes s)) (length (st_base_edges s));
      _ ←? check_chains (st_chains s) node_bound (length (st_delta_edges s)) (λ e chain,
             r ← vget (st_delta_edges s) e; mret (index (endpoint chain r)));
      relocations ←?
        match st_relocations s with
        | None => accept None
        | Some encoded => r ←? into_relocations encoded node_bound edge_bound; accept (Some r)
        end;
      let g := mk_Graph (st_base_nodes s) (st_base_edges s) (st_out_offsets s) (st_out_edges s)
        (st_in_offsets s) (st_in_edges s) (st_delta_nodes s) (st_delta_edges s) (st_chains s)
        (st_live_nodes s) (st_live_edges s) (st_live_node_count s) (st_live_edge_count s) relocations in
      _ ←? check_adjacency g;
      accept g.
End Store.
Arguments Stored : clear implicits.
