(* ===== verification/ValidateSound.v ===== *)
(** * What the checks of a serialized store establish

    On columns read from outside no check of [graph/store/validate.rs] panics
    or runs on for ever, and a store they accept keeps what its walks and its
    views rely on. *)

From S2P Require Import Prelude Words Liveness Ids Chains Runs Store StoreInv StoreView Validate.
#[local] Open Scope rust_scope.

(** ** Checks *)

(** [m] neither panics nor runs on, and what it accepts satisfies [P]. *)
Definition settles {A} (m : checked A) (P : A → Prop) : Prop :=
  ∃ r, m = Ok r ∧ ∀ a, r = inr a → P a.

Lemma settles_accept {A} (a : A) (P : A → Prop) : P a → settles (accept a) P.
Proof. intros Ha. eexists. split; [done|]. by intros ? [= <-]. Qed.

Lemma settles_reject {A} why (P : A → Prop) : settles (reject why) P.
Proof. by eexists. Qed.

Lemma settles_then {A B} (m : checked A) (k : A → checked B) P Q :
  settles m P → (∀ a, P a → settles (k a) Q) → settles (and_then m k) Q.
Proof.
  intros ([why|a] & -> & Ha) Hk; [by eexists|]. destruct (Hk a (Ha a eq_refl)) as (r & Hr & HQ).
  exists r. split; [exact Hr|done].
Qed.

Lemma settles_mono {A} (m : checked A) (P Q : A → Prop) : settles m P → (∀ a, P a → Q a) → settles m Q.
Proof. intros (r & -> & HP) HQ. exists r. split; [done|]. intros a Ha. by apply HQ, HP. Qed.

Lemma settles_cfold {A S} (f : S → A → checked S) (I : list A → S → Prop) s l :
  I [] s →
  (∀ dn x acc, dn ++ [x] `prefix_of` l → I dn acc → settles (f acc x) (I (dn ++ [x]))) →
  settles (cfold f s l) (I l).
Proof.
  intros H0 Hstep. cut (∀ rest dn acc, dn ++ rest = l → I dn acc → settles (cfold f acc rest) (I l)).
  { intros H. by apply (H l []). }
  induction rest as [|x rest IH]; intros dn acc Hl Hacc; cbn [cfold].
  - rewrite app_nil_r in Hl. subst dn. by apply settles_accept.
  - eapply settles_then; [apply (Hstep dn x acc); [exists rest; by rewrite <-app_assoc|done]|].
    intros acc' Hacc'. apply (IH (dn ++ [x])); [by rewrite <-app_assoc|done].
Qed.

(** ** The liveness counts *)

Lemma count_live_settles s slots :
  Forall is_u64 (LiveSet.words s) → (N.of_nat slots ≤ U32_MAX)%N →
  ∃ o, LiveSet.count_live s slots = Ok o ∧
    ∀ n, o = Some n → LiveSet.wf s ∧ LiveSet.len s = slots ∧ n = length (LiveSet.live_slots s).
Proof.
  intros Hu Hle. destruct (LiveSet.count_live_total s slots Hu Hle) as [o Ho]. exists o. split; [done|].
  intros n ->. by apply LiveSet.count_live_Some.
Qed.

(** ** The compressed index *)

Lemma descends_false l :
  descends l = false ↔ ∀ n lo hi, l !! n = Some lo → l !! (n + 1) = Some hi → (lo ≤ hi)%N.
Proof.
  induction l as [|x l IH]; [done|]. destruct l as [|y l].
  - split; [|done]. intros _ n lo hi _ Hhi. apply lookup_lt_Some in Hhi. cbn in Hhi. lia.
  - cbn [descends]. rewrite orb_false_iff, bool_decide_eq_false, IH. split.
    + intros [Hxy Hl] n lo hi Hlo Hhi. destruct n as [|n]; [|by apply (Hl n)].
      injection Hlo as <-. injection Hhi as <-. lia.
    + intros H. split; [pose proof (H 0 x y eq_refl eq_refl); lia|]. intros n lo hi Hlo Hhi. by apply (H (S n)).
Qed.

Lemma edges_below (edges : list N) bound :
  existsb (λ e, bool_decide (N.of_nat bound ≤ e)%N) edges = false ↔ ∀ e, e ∈ edges → index e < bound.
Proof.
  rewrite <-not_true_iff_false, existsb_elem. setoid_rewrite bool_decide_eq_true. unfold index. split.
  - intros H e He. destruct (decide (N.of_nat bound ≤ e)%N); [|lia]. exfalso. apply H. by exists e.
  - intros H (e & He & Hle). specialize (H e He). lia.
Qed.

Lemma check_index_settles offsets edges nodes nedges :
  settles (check_index offsets edges nodes nedges) (λ _, csr_wf offsets edges nodes nedges).
Proof.
  unfold check_index. case_decide as Ho.
  { case_decide as He; [|apply settles_reject]. apply settles_accept. left. naive_solver. }
  destruct (decide (length offsets ≠ nodes + 1 ∨ length edges ≠ nedges)) as [Hl|Hl]; rsimpl; [apply settles_reject|].
  assert (length offsets = nodes + 1 ∧ length edges = nedges) as [Hlo Hle] by (split; apply dec_stable; tauto).
  destruct (lookup_lt_is_Some_2 offsets 0) as [first Hf]; [lia|].
  destruct (lookup_lt_is_Some_2 offsets nodes) as [last Hlast]; [lia|].
  rewrite (vget_eq _ _ _ Hf), (vget_eq _ _ _ Hlast). rsimpl.
  destruct (_ || _ || _) eqn:Hb; [apply settles_reject|]. apply orb_false_iff in Hb as [[H1 H2]%orb_false_iff H3].
  apply bool_decide_eq_false, dec_stable in H1, H2. subst first last.
  destruct (existsb _ edges) eqn:He; [apply settles_reject|]. apply settles_accept. right.
  split_and!; [done..|by rewrite Hlast, Hle|by apply descends_false|by apply edges_below].
Qed.

Lemma check_index_accepts offsets edges nodes nedges :
  csr_wf offsets edges nodes nedges → check_index offsets edges nodes nedges = accept ().
Proof.
  unfold check_index. intros [(-> & -> & -> & ->)|(Hl & He & Hf & Hlast & Hmono & Hin)]; [done|].
  rewrite decide_False by (intros ->; cbn in Hl; lia). rewrite decide_False by tauto.
  rewrite (vget_eq _ _ _ Hf), (vget_eq _ _ _ Hlast). rsimpl.
  rewrite (bool_decide_false (0 ≠ 0)%N), (bool_decide_false (_ ≠ _)) by (intros []; congruence).
  rewrite (proj2 (descends_false offsets) Hmono), (proj2 (edges_below edges nedges) Hin). done.
Qed.

(** ** The overlay *)

(** What loading the overlay's entries gives: the runs of exactly the entries. *)
Record placed (dn : list (N * list N)) (bound : nat) (slots : list N) (runs : list (list N)) : Prop := {
  pl_length : length slots = bound;
  pl_runs : runs = dn.*2;
  pl_slot : ∀ i s, slots !! i = Some s → s ≠ NONE → ∃ k, s = N.of_nat k ∧ dn.*1 !! k = Some (N.of_nat i);
  pl_key : ∀ k n, dn.*1 !! k = Some n → slots !! index n = Some (N.of_nat k);
}.

Lemma place_run_spec dn bound slots runs node run :
  placed dn bound slots runs → (N.of_nat bound ≤ MAX_SLOTS)%N → index node < bound → node ∉ dn.*1 →
  length dn < bound →
  ∃ slots', place_run (slots, runs) (node, run) = Ok (slots', runs ++ [run]) ∧
    placed (dn ++ [(node, run)]) bound slots' (runs ++ [run]).
Proof.
  intros [Hl -> Hs Hk] Hb Hn Hnew Hlen. unfold place_run. rewrite length_fmap.
  rewrite raw_index_eq by (unfold MAX_SLOTS, NONE in Hb; lia). rsimpl. rewrite vset_lt by lia. rsimpl.
  eexists. split; [done|]. split.
  - by rewrite length_insert.
  - by rewrite fmap_app.
  - intros i s Hi HN. rewrite fmap_app. destruct (decide (i = index node)) as [->|Hne].
    + rewrite list_lookup_insert_eq in Hi by lia. injection Hi as <-. exists (length dn).
      split; [done|]. rewrite lookup_app_r, length_fmap, Nat.sub_diag by (rewrite length_fmap; lia).
      cbn. by rewrite word_of_index.
    + rewrite list_lookup_insert_ne in Hi by done. destruct (Hs i s Hi HN) as (k & -> & Hkk). exists k.
      split; [done|]. by apply lookup_app_l_Some.
  - intros k n. rewrite fmap_app. intros [Hkn|[Hge Hkn]]%lookup_app_Some.
    + rewrite list_lookup_insert_ne; [by apply Hk|]. intros Heq%index_inj. subst n.
      apply Hnew. by eapply list_elem_of_lookup_2.
    + rewrite length_fmap in Hge, Hkn. destruct (k - length dn) as [|k'] eqn:Hkd; [|by destruct k'].
      injection Hkn as <-. replace k with (length dn) by lia. by rewrite list_lookup_insert_eq by lia.
Qed.

Lemma place_runs_spec (es : list (N * list N)) bound :
  StronglySorted N.lt es.*1 → (N.of_nat bound ≤ MAX_SLOTS)%N → (∀ n, n ∈ es.*1 → index n < bound) →
  ∃ slots, rfold place_run (replicate bound NONE, []) es = Ok (slots, es.*2) ∧ placed es bound slots es.*2.
Proof.
  intros Hsort Hb Hin.
  pose proof (ascending_nodup _ Hsort) as Hnd.
  destruct (rfold_inv (λ dn acc, acc.2 = dn.*2 ∧ placed dn bound acc.1 acc.2) place_run (replicate bound NONE, []) es)
    as ([slots runs] & Hrun & Hr & Hp).
  - split; [done|]. split; cbn; [by rewrite length_replicate|done| |done].
    intros i s [-> _]%lookup_replicate. done.
  - intros dn [node run] [slots runs] (rest & Hpref) [_ Hp]. cbn in Hp.
    assert (Hes : es.*1 = dn.*1 ++ node :: rest.*1) by (rewrite Hpref, !fmap_app, <-app_assoc; done).
    rewrite Hes in Hnd, Hin. apply NoDup_app in Hnd as (Hnd1 & Hdis & _).
    assert (Hnew : node ∉ dn.*1) by (intros Hx; apply (Hdis node Hx); left).
    assert (Hlen : length (dn.*1 ++ [node]) ≤ bound).
    { apply NoDup_index_length.
      - apply NoDup_app. split_and!; [done| |apply NoDup_singleton]. intros x Hx ->%list_elem_of_singleton. done.
      - intros x Hx. apply Hin. set_solver. }
    rewrite length_app, length_fmap in Hlen. cbn in Hlen.
    destruct (place_run_spec dn bound slots runs node run Hp Hb) as (slots' & -> & Hp'); [apply Hin; set_solver|done|lia|].
    eexists. split; [done|]. split; [apply Hp'|exact Hp'].
  - cbn in Hr, Hp. subst runs. by exists slots.
Qed.

Lemma placed_runs es bound slots :
  placed es bound slots es.*2 → NoDup es.*1 → (N.of_nat bound ≤ MAX_SLOTS)%N → length es ≤ bound →
  Runs.wf (Runs.mk slots es.*2) bound ∧
  ∀ n run, Runs.run_of (Runs.mk slots es.*2) n = Some run ↔ (N.of_nat n, run) ∈ es.
Proof.
  intros [Hl _ Hs Hk] Hnd Hb Hlen.
  assert (HN : ∀ k, k < length es → N.of_nat k ≠ NONE) by (intros k Hkl; unfold MAX_SLOTS, NONE in *; lia).
  assert (Hlt : ∀ k n, es.*1 !! k = Some n → k < length es) by (intros k n Hkn; apply lookup_lt_Some in Hkn; by rewrite length_fmap in Hkn).
  split; [split; cbn [Runs.slots Runs.runs]|].
  - lia.
  - intros n s Hn Hne. destruct (Hs n s Hn Hne) as (k & -> & Hkn). rewrite length_fmap. unfold index. rewrite Nat2N.id. by eapply Hlt.
  - intros n m s Hn Hm Hne. destruct (Hs n s Hn Hne) as (k & -> & Hkn), (Hs m _ Hm Hne) as (k' & Heq & Hkm).
    assert (k = k') as <- by lia. rewrite Hkn in Hkm. injection Hkm. lia.
  - intros k. rewrite length_fmap. intros Hkl. destruct (lookup_lt_is_Some_2 es.*1 k) as [n Hn]; [by rewrite length_fmap|].
    exists (index n), (N.of_nat k). split_and!; [by apply Hk|by apply HN|]. unfold index. lia.
  - intros n run. unfold Runs.run_of. cbn [Runs.slots Runs.runs]. split.
    + destruct (slots !! n) as [s|] eqn:Hn; [|done]. cbn. case_decide as Hne; [done|].
      destruct (Hs n s Hn Hne) as (k & -> & Hkn). unfold index. rewrite Nat2N.id. intros Hrun.
      apply list_lookup_fmap_Some in Hkn as ([a b] & Ha & Hek). apply list_lookup_fmap_Some in Hrun as ([a' b'] & -> & Hek').
      rewrite Hek in Hek'. injection Hek' as <- <-. cbn in Ha. subst a. by eapply list_elem_of_lookup_2.
    + intros [k Hek]%list_elem_of_lookup. pose proof (lookup_lt_Some _ _ _ Hek) as Hkl.
      assert (Hkn : es.*1 !! k = Some (N.of_nat n)) by by rewrite list_lookup_fmap, Hek.
      apply Hk in Hkn. rewrite index_of_nat in Hkn. rewrite Hkn. cbn. rewrite decide_False by by apply HN.
      unfold index. by rewrite Nat2N.id, list_lookup_fmap, Hek.
Qed.

Lemma last_greatest (l : list N) x m : StronglySorted N.lt l → list.last l = Some m → x ∈ l → (x ≤ m)%N.
Proof.
  induction 1 as [|y l Hs IH Hy]; [done|]. rewrite last_cons. destruct (list.last l) as [z|] eqn:Hz.
  - intros [= ->] [->|Hx]%elem_of_cons; [|by apply IH]. rewrite Forall_forall in Hy.
    assert (m ∈ l) as Hm%Hy by by apply last_Some_elem_of. lia.
  - apply last_None in Hz as ->. intros [= ->] Hx%list_elem_of_singleton. by subst.
Qed.

(** The runs an encoded direction loads to. *)
Definition loads_runs (es : list (N * list N)) (node_bound : nat) (r : Runs.t) : Prop :=
  Runs.wf r node_bound ∧ ∀ n run, Runs.run_of r n = Some run ↔ (N.of_nat n, run) ∈ es.

Section Encoded.
Context (es : list (N * list N)) (node_bound edge_bound : nat).
Context (Hsort : StronglySorted N.lt es.*1) (Hmax : (N.of_nat node_bound ≤ MAX_SLOTS)%N).

Lemma from_encoded_accepts :
  (∀ n, n ∈ es.*1 → index n < node_bound) → (∀ e, e ∈ concat es.*2 → index e < edge_bound) →
  ∃ r, from_encoded es node_bound edge_bound = accept r ∧ loads_runs es node_bound r.
Proof using Hsort Hmax.
  intros Hkeys Hedges. unfold from_encoded. destruct (list.last es) as [[highest run]|] eqn:Hlast.
  2:{ apply last_None in Hlast. subst es. eexists. split; [done|]. split; [apply Runs.default_wf|].
      intros n run. rewrite elem_of_nil. by rewrite Runs.run_of_default. }
  assert (Hh : list.last es.*1 = Some highest) by by rewrite fmap_last, Hlast.
  assert (Hhn : index highest < node_bound) by by apply Hkeys, last_Some_elem_of.
  rewrite decide_False by (unfold index in Hhn; lia). rewrite (proj2 (edges_below _ edge_bound) Hedges).
  assert (Hin : ∀ n, n ∈ es.*1 → index n < index highest + 1).
  { intros n Hn. pose proof (last_greatest _ n highest Hsort Hh Hn). unfold index. lia. }
  assert (Hb : (N.of_nat (index highest + 1) ≤ MAX_SLOTS)%N) by lia.
  destruct (place_runs_spec es (index highest + 1) Hsort Hb Hin) as (slots & -> & Hp). rsimpl.
  pose proof (ascending_nodup _ Hsort) as Hnd.
  pose proof (NoDup_index_length _ _ Hnd Hin) as Hlen. rewrite length_fmap in Hlen.
  destruct (placed_runs es _ slots Hp Hnd Hb Hlen) as [Hwf Hof]. eexists. split; [done|]. split; [|done].
  eapply Runs.wf_weaken; [|done]. lia.
Qed.

Lemma from_encoded_settles :
  settles (from_encoded es node_bound edge_bound)
    (λ r, loads_runs es node_bound r ∧ ∀ e, e ∈ concat es.*2 → index e < edge_bound).
Proof using Hsort Hmax.
  destruct (list.last es) as [[highest run]|] eqn:Hlast.
  2:{ unfold from_encoded. rewrite Hlast. apply last_None in Hlast. subst es. apply settles_accept. split; [|set_solver].
      split; [apply Runs.default_wf|]. intros n run. rewrite elem_of_nil. by rewrite Runs.run_of_default. }
  destruct (decide (N.of_nat node_bound ≤ highest)%N) as [Hge|Hlt].
  { unfold from_encoded. rewrite Hlast, decide_True by done. apply settles_reject. }
  destruct (existsb (λ e, bool_decide (N.of_nat edge_bound ≤ e)%N) (concat es.*2)) eqn:He.
  { unfold from_encoded. rewrite Hlast, decide_False, He by done. apply settles_reject. }
  rewrite edges_below in He. destruct from_encoded_accepts as (r & -> & Hr); [|done|].
  - intros n Hn. assert (Hh : list.last es.*1 = Some highest) by by rewrite fmap_last, Hlast.
    pose proof (last_greatest _ n highest Hsort Hh Hn). unfold index. lia.
  - by apply settles_accept.
Qed.
End Encoded.

(** ** The chains *)

Lemma unseen_insert (seen : list bool) i :
  seen !! i = Some false →
  length (filter (λ b : bool, b = false) (<[i := true]> seen)) < length (filter (λ b : bool, b = false) seen).
Proof.
  revert i. induction seen as [|b seen IH]; intros i Hi; [done|]. destruct i as [|i].
  - injection Hi as ->. cbn [insert list_insert]. rewrite !filter_cons, decide_False, decide_True by done. cbn [length]. lia.
  - specialize (IH i Hi). cbn [insert list_insert]. rewrite !filter_cons. destruct (decide (b = false)); [|done]. by apply (proj1 (Nat.succ_lt_mono _ _)).
Qed.

Section Chains.
Context (c : DeltaChains.t) (owner_of : nat → TraversalDirection → res nat) (d : TraversalDirection).
Notation m := (length (DeltaChains.next c)).
Context (Howner : ∀ i, i < length (DeltaChains.next c) → ∃ o, owner_of i d = Ok o).

(** A chain whose edges all belong to the node. *)
Definition owned (node : nat) (l : list N) : Prop := NoDup l ∧ ∀ x, x ∈ l → owner_of (index x) d = Ok node.

Lemma check_ring_settles fuel node seen e last :
  length seen = m → length (filter (λ b : bool, b = false) seen) < fuel →
  settles (check_ring c owner_of d fuel node seen e last) (λ seen', length seen' = m ∧
    ∃ l, DeltaChains.path c d e l ∧ DeltaChains.tail_of e l = last ∧ owned node (e :: l) ∧
      ∀ x, x ∈ e :: l → seen !! index x = Some false).
Proof using Howner.
  revert seen e. induction fuel as [|fuel IH]; intros seen e Hl Hf; [lia|]. cbn [check_ring].
  destruct (decide (N.of_nat (length seen) ≤ e)%N) as [Hout|Hin]; rsimpl; [apply settles_reject|].
  assert (He : index e < length seen) by (unfold index; lia).
  destruct (lookup_lt_is_Some_2 seen (index e) He) as [listed Hs]. rewrite (vget_eq _ _ _ Hs). rsimpl.
  destruct listed; rsimpl; [apply settles_reject|].
  destruct (Howner (index e)) as [o Ho]; [lia|]. rewrite Ho. rsimpl.
  destruct (decide (o = node)) as [->|Hno]; [rewrite bool_decide_false by tauto|rewrite bool_decide_true by done; apply settles_reject].
  rewrite vset_lt by done. rsimpl. destruct (decide (e = last)) as [->|Hlast].
  - apply settles_accept. split; [by rewrite length_insert|]. exists []. split_and!; [done..| |].
    + split; [apply NoDup_singleton|]. by intros x ->%list_elem_of_singleton.
    + by intros x ->%list_elem_of_singleton.
  - destruct (lookup_lt_is_Some_2 (DeltaChains.next c) (index e)) as [links Hlk]; [lia|].
    rewrite (vget_eq _ _ _ Hlk). rsimpl. eapply settles_mono.
    { apply IH; [by rewrite length_insert|]. pose proof (unseen_insert seen (index e) Hs). lia. }
    intros seen' (Hl' & l & Hp & Ht & [Hnd Hown] & Hfresh). split; [done|]. exists (link d links :: l).
    assert (Hfr : ∀ x, x ∈ link d links :: l → x ≠ e ∧ seen !! index x = Some false).
    { intros x Hx. specialize (Hfresh x Hx). destruct (decide (x = e)) as [->|Hne].
      - by rewrite list_lookup_insert_eq in Hfresh.
      - split; [done|]. rewrite list_lookup_insert_ne in Hfresh; [done|]. by intros ?%index_inj. }
    split_and!.
    + split; [|done]. apply DeltaChains.next_link_Some. by exists links.
    + by rewrite DeltaChains.tail_of_cons.
    + split; [constructor; [|done]; intros Hx; by apply Hfr in Hx as [? _]|].
      intros x [->|Hx]%elem_of_cons; [done|by apply Hown].
    + intros x [->|Hx]%elem_of_cons; [done|by apply Hfr].
Qed.

Lemma check_chain_settles seen node links :
  length seen = m → DeltaChains.last c !! node = Some links →
  settles (check_chain c owner_of d seen (node, links)) (λ seen', length seen' = m ∧
    ∃ l, DeltaChains.chain_rep c d node l ∧ owned node l).
Proof using Howner.
  intros Hl Hlinks. unfold check_chain. pose proof (DeltaChains.last_link_Some c d node links Hlinks) as Hll.
  destruct (decide (link d links = NONE)) as [HN|HN].
  { apply settles_accept. split; [done|]. exists []. split; [by cbn; rewrite Hll|]. split; [constructor|set_solver]. }
  destruct (DeltaChains.next c !! index (link d links)) as [links'|] eqn:Hnext; [|apply settles_reject].
  eapply settles_mono.
  { apply check_ring_settles; [done|]. apply Nat.lt_succ_r. etrans; [apply length_filter|]. lia. }
  intros seen' (Hl' & l & Hp & Ht & Hown & _). split; [done|]. exists (link d links' :: l). split; [|done]. cbn.
  rewrite Hll, Ht. split_and!; [done..|]. apply DeltaChains.next_link_Some. by exists links'.
Qed.

Lemma check_direction_settles :
  settles (_ ←? cfold (check_chain c owner_of d) (replicate m false)
                  (zip (seq 0 (length (DeltaChains.last c))) (DeltaChains.last c)); accept ())
    (λ _, ∃ L, ∀ n, DeltaChains.chain_rep c d n (L n) ∧ owned n (L n)).
Proof using Howner.
  set (entries := zip _ _).
  assert (Hent : ∀ k node links, entries !! k = Some (node, links) → node = k ∧ DeltaChains.last c !! k = Some links).
  { intros k node links Hk. apply lookup_zip_with_Some in Hk as (a & b & [= <- <-] & Ha & Hb).
    apply lookup_seq in Ha as [-> _]. done. }
  assert (Hlen : length entries = length (DeltaChains.last c)).
  { unfold entries. rewrite length_zip_with, length_seq. lia. }
  eapply settles_then.
  { apply (settles_cfold _ (λ dn seen, length seen = m ∧ ∃ Ls, length Ls = length dn ∧
      ∀ k l, Ls !! k = Some l → DeltaChains.chain_rep c d k l ∧ owned k l)).
    - split; [apply length_replicate|]. by exists [].
    - intros dn [node links] seen Hpref [Hl (Ls & HLs & HL)].
      assert (Hk : entries !! length dn = Some (node, links)).
      { destruct Hpref as (rest & ->). rewrite <-app_assoc, lookup_app_r, Nat.sub_diag by done. done. }
      apply Hent in Hk as [-> Hlinks]. eapply settles_mono; [by apply check_chain_settles|].
      intros seen' (Hl' & l & Hrep & Hown). split; [done|]. exists (Ls ++ [l]). split; [rewrite !length_app; cbn; lia|].
      intros k l' [Hk|[Hge Hk]]%lookup_app_Some; [by apply HL|].
      destruct (k - length Ls) as [|k'] eqn:Hkd; [|by destruct k']. injection Hk as <-. by replace k with (length dn) by lia. }
  intros seen [_ (Ls & HLs & HL)]. apply settles_accept. exists (λ n, default [] (Ls !! n)). intros n.
  destruct (Ls !! n) as [l|] eqn:Hn; [by apply HL|]. apply lookup_ge_None in Hn. cbn. split.
  - unfold DeltaChains.last_link. by rewrite lookup_ge_None_2 by lia.
  - split; [constructor|set_solver].
Qed.
End Chains.

Lemma check_chains_settles c nodes delta_edges owner_of :
  (∀ i d, i < delta_edges → ∃ o, owner_of i d = Ok o) →
  settles (check_chains c nodes delta_edges owner_of) (λ _,
    length (DeltaChains.last c) ≤ nodes ∧ length (DeltaChains.next c) = delta_edges ∧
    ∃ L, DeltaChains.rings c L ∧ ∀ d n x, x ∈ L d n → owner_of (index x) d = Ok n).
Proof.
  intros Hown. unfold check_chains. case_decide as Hd; [apply settles_reject|].
  assert (length (DeltaChains.last c) ≤ nodes ∧ length (DeltaChains.next c) = delta_edges) as [Hl <-].
  { split; [|apply dec_stable]; [destruct (decide (nodes < length (DeltaChains.last c))); [tauto|lia]|tauto]. }
  cbn [cfold]. eapply settles_then; [by apply check_direction_settles; intros; apply Hown|]. intros u [LO HO].
  eapply settles_then; [by apply check_direction_settles; intros; apply Hown|]. intros u' [LI HI]. apply settles_accept. split_and!; [done..|].
  exists (λ d n, match d with Outgoing => LO n | Incoming => LI n end). split; [split|].
  - intros [] n; [apply HO|apply HI].
  - intros [] n; [apply (proj2 (HO n))|apply (proj2 (HI n))].
  - intros d n n' x Hne Hx Hx'. apply Hne.
    assert (Ok n = Ok n'); [|congruence].
    destruct d; [rewrite <-(proj2 (proj2 (HO n)) x Hx), <-(proj2 (proj2 (HO n')) x Hx')|
      rewrite <-(proj2 (proj2 (HI n)) x Hx), <-(proj2 (proj2 (HI n')) x Hx')]; done.
  - intros [] n x Hx; [by apply HO|by apply HI].
Qed.

(** ** The adjacency *)

Section Adjacency.
Context {NP EP : Type} (g : Graph NP EP) (L : TraversalDirection → nat → list N) (Hw : walkable g L).
Context (Hrun : ∀ d n, (N.of_nat (length (run_of g d n)) ≤ U32_MAX)%N).

Lemma adj_lt d n e : e ∈ adj g L d n → index e < edge_bound g.
Proof using Hw. unfold adj. intros [He _]%list_elem_of_filter. by apply (elive_lt g L Hw). Qed.

(** The edges of [l] end at [node] and are listed once. *)
Definition once_at (d : TraversalDirection) (node : Id) (l : list Id) : Prop :=
  NoDup l ∧ ∀ e, e ∈ l → ∃ r, all_edges g !! index e = Some r ∧ endpoint d r = node.

Lemma list_edges_settles d node listed l :
  length listed = edge_bound g → (∀ e, e ∈ l → index e < edge_bound g) →
  settles (cfold (list_edge g d node) listed l) (λ listed', length listed' = edge_bound g ∧ once_at d node l ∧
    ∀ e, listed' !! index e = Some true → listed !! index e = Some true ∨ e ∈ l).
Proof using.
  clear L Hw Hrun. intros Hlen Hl. eapply settles_mono.
  { apply (settles_cfold _ (λ dn acc, length acc = edge_bound g ∧ once_at d node dn ∧
      ∀ e, index e < edge_bound g → acc !! index e = Some true ↔ listed !! index e = Some true ∨ e ∈ dn)).
    - split_and!; [done|split; [constructor|set_solver]|]. intros e _. set_solver.
    - intros dn e acc Hpref (Hacc & [Hnd Hend] & Hseen).
      assert (He : index e < edge_bound g).
      { apply Hl. eapply elem_of_prefix; [|exact Hpref]. set_solver. }
      unfold list_edge. destruct (lookup_lt_is_Some_2 acc (index e)) as [was Hwas]; [lia|].
      rewrite (vget_eq _ _ _ Hwas). rsimpl.
      destruct (lookup_lt_is_Some_2 (all_edges g) (index e)) as [r Hr]; [by rewrite length_all_edges|].
      rewrite (proj2 (edge_lookup g e r) Hr). rsimpl. case_decide as Hbad; [apply settles_reject|].
      assert (endpoint d r = node ∧ was = false) as [Hr' ->].
      { split; [apply dec_stable; tauto|]. destruct was; tauto. }
      rewrite vset_lt by lia. rsimpl. apply settles_accept. split_and!; [by rewrite length_insert| |].
      + split.
        * apply NoDup_app. split_and!; [done| |apply NoDup_singleton]. intros x Hx ->%list_elem_of_singleton.
          assert (acc !! index e = Some true) by (apply Hseen; [done|by right]). congruence.
        * intros x [Hx| ->%list_elem_of_singleton]%elem_of_app; [by apply Hend|by exists r].
      + intros x Hx. destruct (decide (x = e)) as [->|Hne].
        * rewrite list_lookup_insert_eq by lia. set_solver.
        * rewrite list_lookup_insert_ne by (by intros ?%index_inj). rewrite (Hseen x Hx). set_solver. }
  intros listed' (Hlen' & Honce & Hseen). split_and!; [done..|]. intros e He. apply Hseen; [|done].
  rewrite <-Hlen'. by eapply lookup_lt_Some.
Qed.

Definition flags (listed : list bool * list bool) (d : TraversalDirection) : list bool :=
  match d with Outgoing => listed.1 | Incoming => listed.2 end.

(** The nodes of [dn] list their edges once, and the flags are theirs. *)
Definition nodes_listed (dn : list Id) (listed : list bool * list bool) : Prop := ∀ d,
  length (flags listed d) = edge_bound g ∧
  (∀ n, n ∈ dn → once_at d n (adj g L d (index n))) ∧
  ∀ e, flags listed d !! index e = Some true → ∃ n, n ∈ dn ∧ e ∈ adj g L d (index n).

Lemma list_nodes_settles nodes :
  (∀ n, n ∈ nodes → nlive g (index n) = true) →
  settles (cfold (list_node g) (replicate (edge_bound g) false, replicate (edge_bound g) false) nodes)
    (nodes_listed nodes).
Proof using Hw Hrun.
  intros Hn. apply settles_cfold.
  - intros d. split_and!; [destruct d; apply length_replicate|set_solver|]. intros e He. exfalso.
    destruct d; cbn in He; by apply lookup_replicate in He as [].
  - intros dn n [out inc] Hpref Hdn.
    assert (Hlive : nlive g (index n) = true).
    { apply Hn. eapply elem_of_prefix; [|exact Hpref]. set_solver. }
    unfold list_node, outgoing, incoming. rewrite !(adjacency_live g L Hw n _ Hlive) by apply Hrun. rsimpl.
    pose proof (Hdn Outgoing) as (Hlo & Ho & Hfo). pose proof (Hdn Incoming) as (Hli & Hi & Hfi). cbn in Hlo, Hli, Hfo, Hfi.
    eapply settles_then; [apply list_edges_settles; [done|apply adj_lt]|]. intros out' (Hlo' & Hoo & Hfo').
    eapply settles_then; [apply list_edges_settles; [done|apply adj_lt]|]. intros inc' (Hli' & Hoi & Hfi').
    apply settles_accept. intros []; (split_and!; cbn; [done| |]).
    + intros x [Hx| ->%list_elem_of_singleton]%elem_of_app; [by apply Ho|done].
    + intros e [(x & Hx & He)%Hfo|He]%Hfo'; [exists x; set_solver|exists n; set_solver].
    + intros x [Hx| ->%list_elem_of_singleton]%elem_of_app; [by apply Hi|done].
    + intros e [(x & Hx & He)%Hfi|He]%Hfi'; [exists x; set_solver|exists n; set_solver].
Qed.

Lemma check_adjacency_settles : settles (check_adjacency g) (λ _, mirrored g L).
Proof using Hw Hrun.
  unfold check_adjacency. rewrite (node_ids_spec g L Hw). rsimpl. set (nodes := N.of_nat <$> _).
  assert (Hnodes : ∀ n, n ∈ nodes ↔ nlive g (index n) = true).
  { intros n. unfold nodes. rewrite elem_of_ids. split; [by intros [_ ?]|]. intros Hn. split; [by apply (nlive_lt g L Hw)|done]. }
  eapply settles_then; [apply list_nodes_settles; intros n; by apply Hnodes|]. intros [out inc] Hlisted.
  rewrite (edge_ids_spec g L Hw). rsimpl. set (edges := N.of_nat <$> _).
  assert (Hedges : ∀ e, e ∈ edges ↔ elive g e = true).
  { intros e. unfold edges. rewrite (elem_of_ids (λ i, elive g (N.of_nat i))), word_of_index.
    split; [by intros [_ ?]|]. intros He. split; [by apply (elive_lt g L Hw)|done]. }
  pose proof (Hlisted Outgoing) as (Hlo & _ & _). pose proof (Hlisted Incoming) as (Hli & _ & _). cbn in Hlo, Hli.
  eapply settles_mono.
  { apply (settles_cfold _ (λ dn _, ∀ e d, e ∈ dn → flags (out, inc) d !! index e = Some true)); [set_solver|].
    intros dn e [] Hpref Hdn.
    assert (He : index e < edge_bound g).
    { apply (elive_lt g L Hw), Hedges. eapply elem_of_prefix; [|exact Hpref]. set_solver. }
    destruct (lookup_lt_is_Some_2 out (index e)) as [o Ho]; [lia|]. rewrite (vget_eq _ _ _ Ho). rsimpl.
    destruct o; [|apply settles_reject]. destruct (lookup_lt_is_Some_2 inc (index e)) as [i Hi]; [lia|].
    rewrite (vget_eq _ _ _ Hi). rsimpl. destruct i; [|apply settles_reject]. apply settles_accept.
    intros x d [Hx| ->%list_elem_of_singleton]%elem_of_app; [by apply Hdn|by destruct d]. }
  intros u Hall.
  assert (Hfound : ∀ e d, elive g e = true → ∃ n, nlive g (index n) = true ∧ e ∈ adj g L d (index n) ∧
            ∃ r, all_edges g !! index e = Some r ∧ endpoint d r = n).
  { intros e d He%Hedges. apply (Hall e d) in He. destruct (Hlisted d) as (_ & Honce & Hfl).
    destruct (Hfl e He) as (n & Hn & Hen). exists n. split_and!; [by apply Hnodes|done|]. by apply (Honce n Hn). }
  split; [done|done| | |].
  - intros e r d Hr He. destruct (Hfound e d He) as (n & Hn & _ & r' & Hr' & <-). by simplify_eq.
  - intros d n Hn. destruct (Hlisted d) as (_ & Honce & _). specialize (Honce (N.of_nat n)). rewrite index_of_nat in Honce.
    apply Honce, Hnodes. by rewrite index_of_nat.
  - intros d n e Hn. split.
    + intros Hen. destruct (Hlisted d) as (_ & Honce & _). destruct (Honce (N.of_nat n)) as [_ Hend].
      { apply Hnodes. by rewrite index_of_nat. }
      rewrite index_of_nat in Hend. destruct (Hend e Hen) as (r & Hr & Hr').
      split; [by apply list_elem_of_filter in Hen as [? _]|]. exists r. split; [done|]. by rewrite Hr', index_of_nat.
    + intros [He (r & Hr & <-)]. destruct (Hfound e d He) as (n & _ & Hen & r' & Hr' & Heq). by simplify_eq.
Qed.
End Adjacency.

(** ** Loading *)

Section Load.
Context {NP EP : Type}.
Implicit Types s : Stored NP EP.

(** What the types of the decoded columns ensure: [u64] words and [BTreeMap]
    keys *)
Record well_typed s : Prop := {
  wt_nodes : Forall is_u64 (LiveSet.words (st_live_nodes s));
  wt_edges : Forall is_u64 (LiveSet.words (st_live_edges s));
  wt_keys : ∀ e, st_relocations s = Some e →
    StronglySorted N.lt (enc_outgoing e).*1 ∧ StronglySorted N.lt (enc_incoming e).*1;
}.

(** No run of the overlay is longer than the [u32] a walk counts in. Neither the
    types nor the checks before the first walk ensure it. *)
Definition runs_fit s : Prop := ∀ e n run, st_relocations s = Some e → (n, run) ∈ enc_outgoing e ++ enc_incoming e →
  (N.of_nat (length run) ≤ U32_MAX)%N.

(** A walk of a longer run panics. *)
Lemma long_run_panics (g : Graph NP EP) d n c run :
  cursor g n (axis g d) = Ok c → overlay g (index n) d = Ok (Some run) → (U32_MAX < N.of_nat (length run))%N → ∃ why, adjacent g n d = Panic why.
Proof.
  intros Hc Ho Hlong. unfold adjacent. rewrite Hc. rsimpl. rewrite Ho. rsimpl.
  unfold raw_index, u32_try_from. rewrite (decide_False (P := (N.of_nat (length run) ≤ U32_MAX)%N)) by lia. by eexists.
Qed.

(** The store has the columns it was loaded from. *)
Record columns_of s (g : Graph NP EP) : Prop := {
  co_nodes : base_nodes g = st_base_nodes s ∧ delta_nodes g = st_delta_nodes s;
  co_edges : base_edges g = st_base_edges s ∧ delta_edges g = st_delta_edges s;
  co_live : live_nodes g = st_live_nodes s ∧ live_edges g = st_live_edges s;
}.

Lemma csr_run_length offsets edges nodes nedges n :
  csr_wf offsets edges nodes nedges → length (csr_run offsets edges n) ≤ nedges.
Proof.
  intros Hwf. unfold csr_run. destruct (offsets !! n), (offsets !! (n + 1)); cbn; [|lia..].
  rewrite length_take, length_drop. destruct Hwf as [(_ & -> & _ & ->)|(_ & -> & _)]; cbn; lia.
Qed.

Lemma counts_disagree_settles s nb eb :
  well_typed s → (N.of_nat nb ≤ MAX_SLOTS)%N → (N.of_nat eb ≤ MAX_SLOTS)%N →
  ∃ b, counts_disagree s nb eb = Ok b ∧ (b = false →
    (LiveSet.wf (st_live_nodes s) ∧ LiveSet.len (st_live_nodes s) = nb ∧
       st_live_node_count s = length (LiveSet.live_slots (st_live_nodes s))) ∧
    LiveSet.wf (st_live_edges s) ∧ LiveSet.len (st_live_edges s) = eb ∧
       st_live_edge_count s = length (LiveSet.live_slots (st_live_edges s))).
Proof.
  intros Hwt Hn He. unfold counts_disagree.
  destruct (count_live_settles (st_live_nodes s) nb (wt_nodes s Hwt)) as (o & -> & Ho); [unfold MAX_SLOTS, NONE in Hn; lia|]. rsimpl.
  case_decide as Hd; [by exists true|]. apply Ho in Hd.
  destruct (count_live_settles (st_live_edges s) eb (wt_edges s Hwt)) as (o' & -> & Ho'); [unfold MAX_SLOTS, NONE in He; lia|]. rsimpl.
  eexists. split; [done|]. intros Hd'%bool_decide_eq_false%dec_stable. apply Ho' in Hd'. done.
Qed.

Lemma relocations_settle s e nb eb :
  well_typed s → runs_fit s → st_relocations s = Some e → (N.of_nat nb ≤ MAX_SLOTS)%N →
  settles (into_relocations e nb eb) (λ r, ∀ d, Runs.wf (runs_along r d) nb ∧
    ∀ n run, Runs.run_of (runs_along r d) n = Some run →
      (N.of_nat (length run) ≤ U32_MAX)%N ∧ ∀ x, x ∈ run → index x < eb).
Proof.
  intros Hwt Hfit He Hmax. destruct (wt_keys s Hwt e He) as [Hko Hki]. unfold into_relocations.
  eapply settles_then; [by apply from_encoded_settles|]. intros ro [[Hwo Hro] Hxo].
  eapply settles_then; [by apply from_encoded_settles|]. intros ri [[Hwi Hri] Hxi].
  apply settles_accept. intros d.
  assert (Hin : ∀ (es : list (N * list N)) n run x, (n, run) ∈ es → x ∈ run → x ∈ concat es.*2).
  { intros es n run x Hn Hx. apply list_elem_of_In, in_concat. exists run. split; apply list_elem_of_In; [|done].
    by apply (list_elem_of_fmap_2 snd) in Hn. }
  destruct d; cbn; (split; [done|]); intros n run Hrun.
  - apply Hro in Hrun. split; [by eapply (Hfit e), elem_of_app; [|left]|]. intros x Hx. by eapply Hxo, Hin.
  - apply Hri in Hrun. split; [by eapply (Hfit e), elem_of_app; [|right]|]. intros x Hx. by eapply Hxi, Hin.
Qed.

(** Loading neither panics nor runs on, and a store it returns is one whose
    walks are mirrored. *)
Lemma try_from_settles s : well_typed s → runs_fit s →
  settles (try_from s) (λ g, columns_of s g ∧ ∃ L, mirrored g L).
Proof.
  intros Hwt Hfit. unfold try_from. set (nb := length (st_base_nodes s) + _). set (eb := length (st_base_edges s) + _).
  case_decide as Hm; [apply settles_reject|].
  assert ((N.of_nat nb ≤ MAX_SLOTS)%N ∧ (N.of_nat eb ≤ MAX_SLOTS)%N) as [Hnb Heb] by lia. clear Hm.
  destruct (counts_disagree_settles s nb eb Hwt Hnb Heb) as (b & -> & Hb). rsimpl.
  destruct b; [apply settles_reject|]. destruct (Hb eq_refl) as [(Hwn & Hln & Hcn) (Hwe & Hle & Hce)].
  destruct (existsb _ _) eqn:Hends; [apply settles_reject|].
  eapply settles_then; [apply check_index_settles|]. intros u1 Hco.
  eapply settles_then; [apply check_index_settles|]. intros u2 Hci.
  eapply settles_then.
  { apply check_chains_settles. intros i d Hi. destruct (lookup_lt_is_Some_2 (st_delta_edges s) i Hi) as [r Hr].
    rewrite (vget_eq _ _ _ Hr). rsimpl. by eexists. }
  intros u3 (Hlast & Hnext & L & HL & _). eapply settles_then with (P := λ o, ∀ r d, o = Some r →
    Runs.wf (runs_along r d) nb ∧ ∀ n run, Runs.run_of (runs_along r d) n = Some run →
      (N.of_nat (length run) ≤ U32_MAX)%N ∧ ∀ x, x ∈ run → index x < eb).
  { destruct (st_relocations s) as [e|] eqn:He; [|by apply settles_accept].
    eapply settles_then; [by apply (relocations_settle s e nb eb)|]. intros r Hr. apply settles_accept. by intros ? d [= <-]. }
  intros relocs Hrel. set (g := mk_Graph _ _ _ _ _ _ _ _ _ _ _ _ _ _).
  assert (Hcsr : ∀ d, csr_wf (offsets_of g d) (run_edges_of g d) (length (base_nodes g)) (length (base_edges g))) by by intros [].
  assert (Hrun : ∀ d n, (N.of_nat (length (run_of g d n)) ≤ U32_MAX)%N ∧ ∀ e, e ∈ run_of g d n → index e < edge_bound g).
  { intros d n. unfold run_of, overlay_of. cbn [relocations g].
    assert (Hbase : (N.of_nat (length (csr_run (offsets_of g d) (run_edges_of g d) n)) ≤ U32_MAX)%N ∧
      ∀ e, e ∈ csr_run (offsets_of g d) (run_edges_of g d) n → index e < edge_bound g).
    { pose proof (csr_run_length _ _ _ _ n (Hcsr d)) as Hl. cbn [base_edges g] in Hl. split.
      - unfold eb in Heb. unfold MAX_SLOTS, NONE in Heb. lia.
      - intros e He. apply (csr_run_elem _ _ _ _ _ _ (Hcsr d)) in He. unfold edge_bound. cbn [base_edges delta_edges g] in *. lia. }
    destruct relocs as [r|]; [|exact Hbase]. cbn [mbind option_bind].
    destruct (Runs.run_of (runs_along r d) n) as [run|] eqn:Hr; [|exact Hbase]. cbn. by apply (Hrel r d eq_refl) in Hr. }
  assert (Hw : walkable g L).
  { split; try done; [by intros r d Hr; apply Hrel|apply Hrun]. }
  eapply settles_then; [apply (check_adjacency_settles g L Hw); intros; apply Hrun|].
  intros u4 Hmir. apply settles_accept. split; [done|]. by exists L.
Qed.
End Load.
