(* ===== verification/ValidateTheorems.v ===== *)
(** * Writing a store and loading it back

    Every store a history of calls reaches is written to columns the checks of
    [graph/store/validate.rs] accept, and loads back with the same columns, the
    same overlay and so the same behaviour. *)

From S2P Require Import Prelude Words Liveness Ids View EdgeViews Chains Runs Store StoreInv StoreSpec StoreView History Samples Validate ValidateSound.
#[local] Open Scope rust_scope.

Ltac vsimpl := cbn [and_then accept mbind res_bind mret res_ret fmap res_fmap negb].

Lemma cfold_accepts {A S} (f : S → A → checked S) (I : list A → S → Prop) s l :
  I [] s →
  (∀ dn x acc, dn ++ [x] `prefix_of` l → I dn acc → ∃ acc', f acc x = accept acc' ∧ I (dn ++ [x]) acc') →
  ∃ s', cfold f s l = accept s' ∧ I l s'.
Proof.
  intros H0 Hstep. cut (∀ rest dn acc, dn ++ rest = l → I dn acc → ∃ s', cfold f acc rest = accept s' ∧ I l s').
  { intros H. by apply (H l []). }
  induction rest as [|x rest IH]; intros dn acc Hl Hacc; cbn [cfold].
  - rewrite app_nil_r in Hl. subst dn. by exists acc.
  - destruct (Hstep dn x acc) as (acc' & -> & Hacc'); [exists rest; by rewrite <-app_assoc|done|].
    apply (IH (dn ++ [x])); [by rewrite <-app_assoc|done].
Qed.

(** ** The overlay *)

Section Overlay.
Context (r : Runs.t) (b : nat) (Hwf : Runs.wf r b) (Hb : (N.of_nat b ≤ U32_MAX)%N).

(** The entries of a direction, by ascending node. *)
Definition entry (n : nat) : option (N * list N) := (N.of_nat n,.) <$> Runs.run_of r n.
Definition entries : list (N * list N) := omap entry (seq 0 b).

Lemma entries_elem n run : (n, run) ∈ entries ↔ Runs.run_of r (index n) = Some run.
Proof using Hwf.
  clear Hb. unfold entries, entry. rewrite list_elem_of_omap. split.
  - intros (i & _ & Hi). apply fmap_Some in Hi as (run' & Hr & [= -> ->]). by rewrite index_of_nat.
  - intros Hr. exists (index n). rewrite elem_of_seq, Hr. cbn. rewrite word_of_index. split; [|done].
    pose proof (Runs.run_of_lt r b _ _ Hwf Hr). lia.
Qed.

Lemma entries_sorted : StronglySorted N.lt entries.*1.
Proof using.
  clear Hwf Hb. unfold entries.
  cut (∀ k, StronglySorted N.lt (omap entry (seq k b)).*1 ∧ Forall (λ n, (N.of_nat k ≤ n)%N) (omap entry (seq k b)).*1).
  { intros H. apply (H 0). }
  induction b as [|b' IH]; intros k; [by split; constructor|]. destruct (IH (S k)) as [Hs Hf]. cbn [seq omap list_omap].
  destruct (entry k) as [p|] eqn:He; cbn.
  - unfold entry in He. apply fmap_Some in He as (run & _ & ->). cbn. split; constructor; [done| |lia|]; eapply Forall_impl; [exact Hf|cbn; intros; lia|exact Hf|cbn; intros; lia].
  - split; [done|]. eapply Forall_impl; [exact Hf|cbn; intros; lia].
Qed.

Lemma entries_from k : length (Runs.slots r) ≤ k → k ≤ b → entries = omap entry (seq 0 k).
Proof using.
  clear Hwf Hb. intros Hk Hkb. unfold entries. replace b with (k + (b - k)) by lia. rewrite seq_app, omap_app.
  assert (Hnil : omap entry (seq (0 + k) (b - k)) = []); [|by rewrite Hnil, app_nil_r].
  apply elem_of_nil_inv. intros x (i & [Hi _]%elem_of_seq & He)%list_elem_of_omap.
  unfold entry, Runs.run_of in He. by rewrite lookup_ge_None_2 in He by lia.
Qed.

(** Writing a direction lists its runs. *)
Lemma iter_spec : Runs.iter r = Ok entries.
Proof using Hwf Hb.
  pose proof (Runs.wf_bound _ _ Hwf) as Hlen. unfold Runs.iter. set (rows := zip _ _).
  assert (Hfst : rows.*1 = seq 0 (length (Runs.slots r))).
  { unfold rows. apply fst_zip. by rewrite length_seq. }
  edestruct (rfold_inv (λ (dn : list (nat * N)) (acc : list (N * list N)), acc = omap entry dn.*1)) as (acc & Hrun & Hacc);
    [reflexivity| |rewrite Hrun, Hacc, Hfst; f_equal; symmetry; by apply entries_from].
  intros dn [node slot] acc Hpref ->.
  assert (Hs : Runs.slots r !! node = Some slot).
  { assert (Hin : (node, slot) ∈ rows) by (eapply elem_of_prefix; [|exact Hpref]; set_solver).
    apply list_elem_of_lookup in Hin as [k Hk]. apply lookup_zip_with_Some in Hk as (n' & s' & [= <- <-] & Hn & Hs).
    apply lookup_seq in Hn as [-> _]. done. }
  rewrite fmap_app, omap_app. cbn [fmap list_fmap omap list_omap fst].
  assert (He : entry node = if decide (slot = NONE) then None else (N.of_nat node,.) <$> Runs.runs r !! index slot).
  { unfold entry, Runs.run_of. rewrite Hs. cbn [mbind option_bind]. by case_decide. }
  rewrite He. destruct (decide (slot = NONE)) as [->|HN]; [rewrite app_nil_r; by eexists|].
  pose proof (lookup_lt_Some _ _ _ Hs). rewrite raw_index_eq by lia. rsimpl.
  destruct (lookup_lt_is_Some_2 (Runs.runs r) (index slot)) as [run Hr]; [by apply (Runs.wf_slot _ _ Hwf node)|].
  rewrite (vget_eq _ _ _ Hr), Hr. rsimpl. by eexists.
Qed.
End Overlay.

(** Loading a written direction gives its runs back. *)
Lemma entries_load r nb eb :
  Runs.wf r nb → (N.of_nat nb ≤ MAX_SLOTS)%N →
  (∀ n run x, Runs.run_of r n = Some run → x ∈ run → index x < eb) →
  ∃ r', from_encoded (entries r nb) nb eb = accept r' ∧ Runs.wf r' nb ∧ ∀ n, Runs.run_of r' n = Runs.run_of r n.
Proof.
  intros Hwf Hmax Hlt. destruct (from_encoded_accepts (entries r nb) nb eb (entries_sorted r nb) Hmax) as (r' & Hr' & Hwf' & Hof).
  - intros n ([n' run] & -> & Hn)%list_elem_of_fmap. apply (entries_elem r nb Hwf) in Hn. by eapply Runs.run_of_lt.
  - intros e (run & Hrun & He)%list_elem_of_In%in_concat. apply list_elem_of_In in Hrun as ([n run'] & -> & Hn)%list_elem_of_fmap.
    apply (entries_elem r nb Hwf) in Hn. apply list_elem_of_In in He. by eapply Hlt.
  - exists r'. split_and!; [done..|]. intros n. apply option_eq. intros run.
    by rewrite Hof, (entries_elem r nb Hwf), index_of_nat.
Qed.

(** ** The chains *)

Section Chains.
Context (c : DeltaChains.t) (owner_of : nat → TraversalDirection → res nat) (d : TraversalDirection).
Notation m := (length (DeltaChains.next c)).

Lemma check_ring_accepts fuel node seen e last l :
  length seen = m → DeltaChains.path c d e l → DeltaChains.tail_of e l = last → owned owner_of d node (e :: l) →
  (∀ x, x ∈ e :: l → index x < m ∧ seen !! index x = Some false) → length l < fuel →
  ∃ seen', check_ring c owner_of d fuel node seen e last = accept seen' ∧ length seen' = m ∧
    ∀ i, seen !! i = Some false → N.of_nat i ∉ e :: l → seen' !! i = Some false.
Proof.
  revert seen e l. induction fuel as [|fuel IH]; intros seen e l Hl Hp Ht [Hnd Hown] Hfresh Hf; [lia|]. cbn [check_ring].
  destruct (Hfresh e ltac:(left)) as [He Hs]. rewrite decide_False by (unfold index in He; lia).
  rewrite (vget_eq _ _ _ Hs). rsimpl. rewrite (Hown e) by left. rsimpl. rewrite bool_decide_false by tauto.
  rewrite vset_lt by lia. rsimpl.
  assert (Hother : ∀ i, N.of_nat i ∉ e :: l → <[index e := true]> seen !! i = seen !! i).
  { intros i Hi. apply list_lookup_insert_ne. intros <-. apply Hi. rewrite word_of_index. left. }
  destruct l as [|y l].
  - rewrite decide_True by done. eexists. split; [done|]. split; [by rewrite length_insert|].
    intros i Hi Hni. by rewrite Hother.
  - apply NoDup_cons in Hnd as [Hni Hnd]. rewrite DeltaChains.tail_of_cons in Ht.
    rewrite decide_False by (intros ->; apply Hni; rewrite <-Ht; apply DeltaChains.tail_of_elem).
    destruct Hp as [Hy Hp]. apply DeltaChains.next_link_Some in Hy as (links & Hlk & <-). rewrite (vget_eq _ _ _ Hlk). rsimpl.
    destruct (IH (<[index e := true]> seen) (link d links) l) as (seen' & -> & Hl' & Hs'); [by rewrite length_insert|done|done| | |cbn in Hf; lia|].
    + split; [done|]. intros x Hx. apply Hown. by right.
    + intros x Hx. destruct (Hfresh x ltac:(by right)) as [Hxm Hxs]. split; [done|].
      rewrite list_lookup_insert_ne; [done|]. intros ?%index_inj. by subst.
    + exists seen'. split_and!; [done..|]. intros i Hi Hin. apply Hs'; [by rewrite Hother|set_solver].
Qed.

Lemma check_chain_accepts seen node links l :
  length seen = m → DeltaChains.last c !! node = Some links → DeltaChains.chain_rep c d node l →
  owned owner_of d node l → (∀ x, x ∈ l → index x < m ∧ seen !! index x = Some false) →
  ∃ seen', check_chain c owner_of d seen (node, links) = accept seen' ∧ length seen' = m ∧
    ∀ i, seen !! i = Some false → N.of_nat i ∉ l → seen' !! i = Some false.
Proof.
  intros Hl Hlinks Hrep Hown Hfresh. unfold check_chain. pose proof (DeltaChains.last_link_Some c d node links Hlinks) as Hll.
  destruct l as [|x l]; cbn in Hrep; rewrite Hll in Hrep.
  { rewrite decide_True by done. exists seen. split_and!; [done..|]. by intros. }
  destruct Hrep as (Hlk & HN & Hp & Ht). rewrite decide_False by congruence. rewrite Hlk.
  apply DeltaChains.next_link_Some in Ht as (links' & Hnext & Hx). rewrite Hnext, Hx.
  apply (check_ring_accepts _ _ _ _ _ l); [done..|]. apply Nat.lt_succ_r.
  assert (Hnd : NoDup (x :: l)) by apply Hown. enough (length (x :: l) ≤ m) by (cbn in *; lia).
  apply NoDup_index_length; [done|]. intros y Hy. by apply Hfresh.
Qed.

Lemma check_direction_accepts L :
  (∀ n, DeltaChains.chain_rep c d n (L n) ∧ owned owner_of d n (L n)) → (∀ n n' x, n ≠ n' → x ∈ L n → x ∉ L n') →
  (_ ←? cfold (check_chain c owner_of d) (replicate m false)
          (zip (seq 0 (length (DeltaChains.last c))) (DeltaChains.last c)); accept ()) = accept ().
Proof.
  intros HL Hdis.
  edestruct (cfold_accepts (check_chain c owner_of d) (λ dn seen, length seen = m ∧
    ∀ i, i < m → (∀ n, n < length dn → N.of_nat i ∉ L n) → seen !! i = Some false)) as (seen & Hrun & _); [| |unfold and_then; by rewrite Hrun].
  - split; [apply length_replicate|]. intros i Hi _. by apply lookup_replicate.
  - intros dn [node links] seen Hpref [Hl Hfresh].
    assert (node = length dn ∧ DeltaChains.last c !! length dn = Some links) as [-> Hlinks].
    { assert (Hk : zip (seq 0 (length (DeltaChains.last c))) (DeltaChains.last c) !! length dn = Some (node, links)).
      { destruct Hpref as (rest & ->). rewrite <-app_assoc, lookup_app_r, Nat.sub_diag by done. done. }
      apply lookup_zip_with_Some in Hk as (a & b & [= <- <-] & Ha & Hb). apply lookup_seq in Ha as [-> _]. done. }
    destruct (HL (length dn)) as [Hrep Hown].
    destruct (check_chain_accepts seen (length dn) links (L (length dn)) Hl Hlinks Hrep Hown) as (seen' & -> & Hl' & Hs').
    + intros x Hx. pose proof (DeltaChains.chain_rep_lt _ _ _ _ _ Hrep Hx) as Hxm. split; [done|]. apply Hfresh; [done|].
      intros n Hn. rewrite word_of_index. apply (Hdis (length dn)); [lia|done].
    + exists seen'. split_and!; [done..|]. intros i Hi Hni. rewrite length_app in Hni. cbn in Hni.
      apply Hs'; [apply Hfresh; [done|intros; apply Hni; lia]|apply Hni; lia].
Qed.
End Chains.

Lemma check_chains_accepts c L nodes owner_of :
  DeltaChains.rings c L → length (DeltaChains.last c) ≤ nodes →
  (∀ d n x, x ∈ L d n → owner_of (index x) d = Ok n) →
  check_chains c nodes (length (DeltaChains.next c)) owner_of = accept ().
Proof.
  intros HL Hlast Hown. unfold check_chains. rewrite decide_False by lia. cbn [cfold].
  assert (Hdir : ∀ d, (_ ←? cfold (check_chain c owner_of d) (replicate (length (DeltaChains.next c)) false)
    (zip (seq 0 (length (DeltaChains.last c))) (DeltaChains.last c)); accept ()) = accept ()).
  { intros d. apply (check_direction_accepts c owner_of d (L d)).
    - intros n. split; [by apply (DeltaChains.rings_rep _ _ HL)|]. split; [by apply (DeltaChains.rings_nodup _ _ HL)|by apply Hown].
    - apply (DeltaChains.rings_disj _ _ HL). }
  by rewrite !Hdir.
Qed.

(** ** The adjacency *)

Section Adjacency.
Context {NP EP : Type} (g : Graph NP EP) (L : TraversalDirection → nat → list N) (Hm : mirrored g L).

Lemma list_edges_accept d node listed l :
  length listed = edge_bound g → once_at g d node l → (∀ e, e ∈ l → listed !! index e = Some false) →
  ∃ listed', cfold (list_edge g d node) listed l = accept listed' ∧ length listed' = edge_bound g ∧
    ∀ e, index e < edge_bound g → listed' !! index e = Some true ↔ listed !! index e = Some true ∨ e ∈ l.
Proof using.
  clear L Hm. intros Hlen [Hnd Hend] Hfresh.
  destruct (cfold_accepts (list_edge g d node) (λ dn acc, length acc = edge_bound g ∧
    (∀ e, index e < edge_bound g → acc !! index e = Some true ↔ listed !! index e = Some true ∨ e ∈ dn)) listed l)
    as (listed' & -> & H); [split; [done|set_solver]| |by exists listed'].
  intros dn e acc (rest & Hpref) [Hacc Hseen].
  assert (Hin : e ∈ l) by (rewrite Hpref; set_solver).
  assert (Hout : e ∉ dn).
  { rewrite Hpref, <-app_assoc in Hnd. apply NoDup_app in Hnd as (_ & Hdis & _). intros Hx. apply (Hdis e Hx). left. }
  destruct (Hend e Hin) as (r & Hr & Hnode). pose proof (lookup_lt_Some _ _ _ Hr) as He. rewrite length_all_edges in He.
  destruct (lookup_lt_is_Some_2 acc (index e)) as [was Hwas]; [lia|].
  assert (was = false) as ->.
  { destruct was; [|done]. apply Hseen in Hwas as [Hl|]; [|done|done]. by rewrite (Hfresh e Hin) in Hl. }
  unfold list_edge. rewrite (vget_eq _ _ _ Hwas). rsimpl. rewrite (proj2 (edge_lookup g e r) Hr). rsimpl.
  rewrite decide_False by naive_solver. rewrite vset_lt by lia. rsimpl. eexists. split; [done|].
  split; [by rewrite length_insert|]. intros x Hx. destruct (decide (x = e)) as [->|Hne].
  - rewrite list_lookup_insert_eq by lia. set_solver.
  - rewrite list_lookup_insert_ne by (by intros ?%index_inj). rewrite (Hseen x Hx). set_solver.
Qed.

Lemma adj_once d n : nlive g (index n) = true → once_at g d n (adj g L d (index n)).
Proof using Hm.
  intros Hn. split; [by apply (mi_nodup g L Hm)|]. intros e [_ (r & Hr & He)]%(mi_adj g L Hm); [|done].
  exists r. split; [done|by apply index_inj].
Qed.

Lemma list_nodes_accept nodes :
  (∀ n, n ∈ nodes → nlive g (index n) = true) → NoDup nodes →
  ∃ listed, cfold (list_node g) (replicate (edge_bound g) false, replicate (edge_bound g) false) nodes = accept listed ∧
    ∀ d e, index e < edge_bound g → length (flags listed d) = edge_bound g ∧
      (flags listed d !! index e = Some true ↔ ∃ n, n ∈ nodes ∧ e ∈ adj g L d (index n)).
Proof using Hm.
  intros Hn Hnd. edestruct (cfold_accepts (list_node g) (λ dn acc, ∀ d, length (flags acc d) = edge_bound g ∧
    ∀ e, index e < edge_bound g → flags acc d !! index e = Some true ↔ ∃ n, n ∈ dn ∧ e ∈ adj g L d (index n)))
    as (listed & Hrun & H); [| |exists listed; split; [exact Hrun|intros d e He; split; by apply H]].
  - intros d. split; [destruct d; apply length_replicate|]. intros e He. split; [|set_solver].
    destruct d; cbn; by intros [? _]%lookup_replicate.
  - intros dn n [out inc] (rest & Hpref) Hdn.
    assert (Hlive : nlive g (index n) = true) by (apply Hn; rewrite Hpref; set_solver).
    assert (Hnew : ∀ n' d e, n' ∈ dn → e ∈ adj g L d (index n') → e ∉ adj g L d (index n)).
    { intros n' d e Hn' He' He. assert (Hlive' : nlive g (index n') = true) by (apply Hn; rewrite Hpref; set_solver).
      apply (mi_adj g L Hm) in He as (_ & r & Hr & Hend); [|done]. apply (mi_adj g L Hm) in He' as (_ & r' & Hr' & Hend'); [|done].
      rewrite Hr in Hr'. injection Hr' as <-. rewrite Hend in Hend'. apply index_inj in Hend'. subst n'.
      rewrite Hpref, <-app_assoc in Hnd. apply NoDup_app in Hnd as (_ & Hdis & _). apply (Hdis n Hn'). left. }
    assert (Hfresh : ∀ d e, e ∈ adj g L d (index n) → flags (out, inc) d !! index e = Some false).
    { intros d e He. assert (Heb : index e < edge_bound g).
      { apply (elive_lt g L Hm). by apply list_elem_of_filter in He as [? _]. }
      destruct (Hdn d) as [Hl Hiff]. destruct (lookup_lt_is_Some_2 (flags (out, inc) d) (index e)) as [[] Hb]; [by rewrite Hl| |done].
      exfalso. apply Hiff in Hb as (n' & Hn' & He'); [|done]. by apply (Hnew n' d e). }
    unfold list_node, outgoing, incoming. rewrite !(adjacency_live g L Hm n _ Hlive) by apply (mi_run_length g L Hm). rsimpl.
    destruct (list_edges_accept Outgoing n out (adj g L Outgoing (index n))) as (out' & -> & Hlo & Hso);
      [apply (Hdn Outgoing)|by apply adj_once|apply (Hfresh Outgoing)|]. vsimpl.
    destruct (list_edges_accept Incoming n inc (adj g L Incoming (index n))) as (inc' & -> & Hli & Hsi);
      [apply (Hdn Incoming)|by apply adj_once|apply (Hfresh Incoming)|]. vsimpl.
    eexists. split; [done|]. intros d. split; [by destruct d|]. intros e He. destruct (Hdn d) as [_ Hiff].
    assert (Hs : flags (out', inc') d !! index e = Some true ↔ flags (out, inc) d !! index e = Some true ∨ e ∈ adj g L d (index n)).
    { destruct d; [by apply Hso|by apply Hsi]. }
    rewrite Hs, (Hiff e He). set_solver.
Qed.

Lemma check_adjacency_accepts : check_adjacency g = accept ().
Proof using Hm.
  unfold check_adjacency. rewrite (node_ids_spec g L Hm). rsimpl. set (nodes := N.of_nat <$> _).
  assert (Hnodes : ∀ n, n ∈ nodes ↔ nlive g (index n) = true).
  { intros n. unfold nodes. rewrite elem_of_ids. split; [by intros [_ ?]|]. intros Hn. split; [by apply (nlive_lt g L Hm)|done]. }
  destruct (list_nodes_accept nodes) as ([out inc] & -> & Hlisted); [intros n; by apply Hnodes|apply ids_nodup|].
  vsimpl. rewrite (edge_ids_spec g L Hm). vsimpl. set (edges := N.of_nat <$> _).
  assert (Hedges : ∀ e, e ∈ edges → elive g e = true).
  { intros e. unfold edges. rewrite (elem_of_ids (λ i, elive g (N.of_nat i))), word_of_index. by intros [_ ?]. }
  match goal with |- cfold ?f _ _ = _ =>
    destruct (cfold_accepts f (λ _ _, True) () edges) as ([] & Hrun & _); [done| |exact Hrun] end.
  intros dn e [] (rest & Hpref) _. assert (Hlive : elive g e = true) by (apply Hedges; rewrite Hpref; set_solver).
  pose proof (elive_lt g L Hm e Hlive) as He.
  assert (Hflag : ∀ d, flags (out, inc) d !! index e = Some true).
  { intros d. apply (Hlisted d e He). destruct (lookup_lt_is_Some_2 (all_edges g) (index e)) as [r Hr]; [by rewrite length_all_edges|].
    pose proof (mi_live_end g L Hm _ _ d Hr Hlive) as Hend. exists (endpoint d r). split; [by apply Hnodes|].
    apply (mi_adj g L Hm); [done|]. split; [done|]. by exists r. }
  pose proof (Hflag Outgoing) as Ho. pose proof (Hflag Incoming) as Hi. cbn in Ho, Hi.
  rewrite (vget_eq _ _ _ Ho). rsimpl. rewrite (vget_eq _ _ _ Hi). rsimpl. by exists ().
Qed.
End Adjacency.

(** ** Loading what was written *)

Section Load.
Context {NP EP : Type} (g : Graph NP EP) (L : TraversalDirection → nat → list N) (Hinv : inv g L).

(** The overlay as it is written. *)
Definition encoded_overlay (r : Relocations) : Encoded :=
  mk_Encoded (entries (outgoing_runs r) (node_bound g)) (entries (incoming_runs r) (node_bound g)).

Definition written : Stored NP EP :=
  mk_Stored (base_nodes g) (base_edges g) (out_offsets g) (out_edges g) (in_offsets g) (in_edges g)
    (delta_nodes g) (delta_edges g) (chains g) (live_nodes g) (live_edges g)
    (live_node_count g) (live_edge_count g) (encoded_overlay <$> relocations g).

Lemma bounds_u32 : (N.of_nat (node_bound g) ≤ U32_MAX)%N ∧ (N.of_nat (edge_bound g) ≤ U32_MAX)%N.
Proof using Hinv.
  pose proof (inv_node_max _ _ Hinv). pose proof (inv_edge_max _ _ Hinv). unfold MAX_SLOTS, NONE in *. lia.
Qed.

Lemma store_columns_Ok : store_columns g = Ok written.
Proof using Hinv.
  unfold store_columns, written. destruct (relocations g) as [r|] eqn:Hr; [|done].
  pose proof (inv_reloc _ _ Hinv r Outgoing Hr) as Ho. pose proof (inv_reloc _ _ Hinv r Incoming Hr) as Hi.
  rewrite (iter_spec (outgoing_runs r) _ Ho), (iter_spec (incoming_runs r) _ Hi) by apply bounds_u32. done.
Qed.

Lemma run_overlay r d n run : relocations g = Some r → Runs.run_of (runs_along r d) n = Some run → run_of g d n = run.
Proof using. clear. intros Hr Hrun. unfold run_of, overlay_of. rewrite Hr. cbn. by rewrite Hrun. Qed.

Lemma written_typed : well_typed written.
Proof using Hinv.
  split; [apply (LiveSet.wf_u64 _ (inv_ln _ _ Hinv))|apply (LiveSet.wf_u64 _ (inv_le _ _ Hinv))|].
  intros e He. cbn in He. apply fmap_Some in He as (r & _ & ->). split; apply entries_sorted.
Qed.

Lemma written_fits : runs_fit written.
Proof using Hinv.
  intros e n run He Hin. cbn in He. apply fmap_Some in He as (r & Hr & ->).
  assert (∃ d, Runs.run_of (runs_along r d) (index n) = Some run) as [d Hd].
  { apply elem_of_app in Hin as [Hin|Hin]; [exists Outgoing|exists Incoming].
    - by apply (entries_elem _ _ (inv_reloc _ _ Hinv r Outgoing Hr)) in Hin.
    - by apply (entries_elem _ _ (inv_reloc _ _ Hinv r Incoming Hr)) in Hin. }
  rewrite <-(run_overlay r d (index n) run Hr Hd). apply (run_length _ _ Hinv).
Qed.

(** A store that differs only in where its overlay keeps its runs. *)
Lemma relocated_inv r' :
  (∀ d, Runs.wf (runs_along r' d) (node_bound g)) →
  (∀ d n, run_of (set_relocations (Some r') g) d n = run_of g d n) →
  inv (set_relocations (Some r') g) L.
Proof using Hinv.
  intros Hwf Hrun. pose proof Hinv as [[[H1 H2 H3 H4 H5 H6 H7 H8 H9 H10 H11 H12 H13 H14] H15 H17 H21] H16 H18 H19 H20].
  split; [split; [split|..]|..]; try done.
  - intros r d [= <-]. apply Hwf.
  - intros d n e. rewrite Hrun. apply H14.
  - intros d n x y. rewrite Hrun. apply H15.
  - intros d n. rewrite Hrun. apply H21.
  - intros d n e He. unfold raw. rewrite Hrun. by apply H20.
Qed.

(** The written columns load to a store with the same columns and overlay. *)
Lemma written_loads :
  ∃ g', try_from written = accept g' ∧ inv g' L ∧ g' = set_relocations (relocations g') g ∧
    (∀ d n, overlay_of g' n d = overlay_of g n d) ∧ (is_Some (relocations g') ↔ is_Some (relocations g)).
Proof using Hinv.
  pose proof (inv_node_max _ _ Hinv) as Hnm. pose proof (inv_edge_max _ _ Hinv) as Hem. pose proof bounds_u32 as [Hnu Heu].
  assert (Hrel : ∃ o, (match st_relocations written with
      | None => accept None
      | Some encoded => r ←? into_relocations encoded (node_bound g) (edge_bound g); accept (Some r)
      end) = accept o ∧ (is_Some o ↔ is_Some (relocations g)) ∧
      (∀ r d, o = Some r → Runs.wf (runs_along r d) (node_bound g)) ∧
      ∀ d n, overlay_of (set_relocations o g) n d = overlay_of g n d).
  { cbn [st_relocations written]. destruct (relocations g) as [r|] eqn:Hr; cbn [fmap option_fmap option_map].
    2:{ exists None. split_and!; [done..|]. intros d n. unfold overlay_of. cbn. by rewrite Hr. }
    assert (Hlt : ∀ d n run x, Runs.run_of (runs_along r d) n = Some run → x ∈ run → index x < edge_bound g).
    { intros d n run x Hrun Hx. apply (inv_run_lt _ _ Hinv d n). by rewrite (run_overlay r d n run Hr Hrun). }
    destruct (entries_load (runs_along r Outgoing) _ (edge_bound g) (inv_reloc _ _ Hinv r Outgoing Hr) Hnm (Hlt Outgoing))
      as (ro & Hro & Hwo & Hoo).
    destruct (entries_load (runs_along r Incoming) _ (edge_bound g) (inv_reloc _ _ Hinv r Incoming Hr) Hnm (Hlt Incoming))
      as (ri & Hri & Hwi & Hoi).
    exists (Some (mk_Relocations ro ri)). split_and!.
    - unfold into_relocations, encoded_overlay. cbn [enc_outgoing enc_incoming runs_along] in *. rewrite Hro. vsimpl. by rewrite Hri.
    - by split; eexists.
    - by intros r' [] [= <-].
    - intros d n. unfold overlay_of. rewrite Hr. cbn. by destruct d. }
  destruct Hrel as (o & Hload & Hsome & Hwf & Hov). set (g' := set_relocations o g).
  assert (Hinv' : inv g' L).
  { unfold g'. destruct o as [r'|].
    - apply relocated_inv; [intros d; by apply Hwf|]. intros d n. unfold run_of. by rewrite Hov.
    - assert (Hnone : relocations g = None) by (destruct (relocations g); [by destruct (proj2 Hsome)|done]).
      replace (set_relocations None g) with g; [done|]. rewrite <-Hnone. by destruct g. }
  exists g'. split_and!; [|done|done|done|done].
  unfold try_from. cbn [st_base_nodes st_delta_nodes st_base_edges st_delta_edges written].
  change (length (base_nodes g) + length (delta_nodes g)) with (node_bound g).
  change (length (base_edges g) + length (delta_edges g)) with (edge_bound g).
  rewrite decide_False by lia.
  assert (Hcounts : counts_disagree written (node_bound g) (edge_bound g) = Ok false).
  { unfold counts_disagree. cbn [written st_live_nodes st_live_edges st_live_node_count st_live_edge_count].
    rewrite <-(inv_ln_len _ _ Hinv), <-(inv_le_len _ _ Hinv).
    rewrite (LiveSet.count_live_wf _ (inv_ln _ _ Hinv)) by (rewrite (inv_ln_len _ _ Hinv); lia). rsimpl.
    rewrite decide_False by (rewrite (inv_ln_count _ _ Hinv); tauto).
    rewrite (LiveSet.count_live_wf _ (inv_le _ _ Hinv)) by (rewrite (inv_le_len _ _ Hinv); lia). rsimpl.
    f_equal. apply bool_decide_eq_false. rewrite (inv_le_count _ _ Hinv). tauto. }
  rewrite Hcounts. rsimpl.
  assert (Hends : existsb (λ r, bool_decide (node_bound g ≤ index (source r)) || bool_decide (node_bound g ≤ index (target r)))
            (base_edges g ++ delta_edges g) = false).
  { apply not_true_iff_false. rewrite existsb_elem. intros (r & [i Hr]%list_elem_of_lookup & Hbad).
    pose proof (inv_endpoints _ _ Hinv i r Outgoing Hr). pose proof (inv_endpoints _ _ Hinv i r Incoming Hr). cbn in *.
    rewrite !bool_decide_false in Hbad by lia. done. }
  rewrite Hends. cbn [st_out_offsets st_out_edges st_in_offsets st_in_edges st_chains written].
  pose proof (check_index_accepts _ _ _ _ (inv_csr _ _ Hinv Outgoing)) as Hco. cbn [offsets_of run_edges_of] in Hco.
  pose proof (check_index_accepts _ _ _ _ (inv_csr _ _ Hinv Incoming)) as Hci. cbn [offsets_of run_edges_of] in Hci.
  cbn [written st_base_nodes st_base_edges]. rewrite Hco. vsimpl. rewrite Hci. vsimpl. cbn [written st_delta_edges].
  rewrite <-(inv_next _ _ Hinv). rewrite (check_chains_accepts (chains g) L).
  2:{ apply (inv_rings _ _ Hinv). }
  2:{ apply (inv_last _ _ Hinv). }
  2:{ intros d n x Hx. destruct (inv_ring_end _ _ Hinv d n x Hx) as (r & Hr & Hend). rewrite (vget_eq _ _ _ Hr). rsimpl. by rewrite Hend. }
  vsimpl. rewrite Hload. vsimpl.
  change (mk_Graph _ _ _ _ _ _ _ _ _ _ _ _ _ _) with g'. rewrite (check_adjacency_accepts g' L Hinv'). done.
Qed.
End Load.

(** * Serialized stores: what loading guarantees

    The two directions of [graph/store/validate.rs]: a store any history of
    calls reaches survives being written and loaded, and columns from anywhere
    load, if at all, to a store whose walks and views can be trusted. *)


Section Theorems.
Context {NP EP : Type}.

Lemma written_same (g g' : Graph NP EP) L L' :
  inv g L → inv g' L' → g' = set_relocations (relocations g') g → (∀ d n, overlay_of g' n d = overlay_of g n d) →
  (is_Some (relocations g') ↔ is_Some (relocations g)) → store_columns g' = store_columns g.
Proof.
  intros Hi Hi' Heq Hov Hsome. rewrite (store_columns_Ok g L Hi), (store_columns_Ok g' L' Hi'). f_equal.
  assert (Hrel : encoded_overlay g' <$> relocations g' = encoded_overlay g <$> relocations g).
  { assert (Hnb : node_bound g' = node_bound g) by by rewrite Heq.
    destruct (relocations g') as [r'|] eqn:Hr', (relocations g) as [r|] eqn:Hr; [|by destruct (proj1 Hsome)|by destruct (proj2 Hsome)|done].
    cbn. f_equal. unfold encoded_overlay. rewrite Hnb.
    assert (Hrun : ∀ d n, Runs.run_of (runs_along r' d) n = Runs.run_of (runs_along r d) n).
    { intros d n. specialize (Hov d n). unfold overlay_of in Hov. by rewrite Hr, Hr' in Hov. }
    assert (Hent : ∀ d, entries (runs_along r' d) (node_bound g) = entries (runs_along r d) (node_bound g)).
    { intros d. apply list_omap_ext, Forall2_same_length_lookup. split; [done|]. intros i x y -> [= <-].
      unfold entry. by rewrite Hrun. }
    by rewrite (Hent Outgoing : entries (outgoing_runs r') _ = _), (Hent Incoming : entries (incoming_runs r') _ = _). }
  unfold written. rewrite Hrel, Heq. done.
Qed.

(** C14: every store a history of calls reaches is written without a panic to
    columns that load back. The loaded store writes the same columns, its nodes
    read the same adjacency in the same order, and any further history of calls
    gets the same replies from it, panics included. *)
Theorem stored_store_loads_back (g : Graph NP EP) :
  reachable_store g →
  ∃ s g', store_columns g = Ok s ∧ Validate.try_from s = Ok (inr g') ∧ store_columns g' = Ok s ∧
    (∀ d n, index n < node_bound g → adjacency g' d n = adjacency g d n) ∧
    ∀ cs, match run g cs with
          | Ok (_, rs) => ∃ g'', run g' cs = Ok (g'', rs)
          | _ => panics (run g' cs)
          end.
Proof.
  intros [a Hr]%reachable_repr. pose proof (rp_inv _ _ Hr) as (L & Hinv & Hadj).
  destruct (written_loads g L Hinv) as (g' & Hload & Hinv' & Heq & Hov & Hsome).
  exists (written g), g'. split_and!; [by apply (store_columns_Ok g L)|done| | |].
  - rewrite (written_same g g' L L) by done. by apply (store_columns_Ok g L).
  - assert (Hraw : ∀ d n, adj g' L d n = adj g L d n).
    { intros d n. assert (Hrun : run_of g' d n = run_of g d n) by (unfold run_of; rewrite Hov; by rewrite Heq).
      unfold adj, raw. rewrite Hrun. by rewrite Heq. }
    intros d n Hn. rewrite (adjacency_Ok g L Hinv), (adjacency_Ok g' L Hinv'); [by rewrite Hraw|by rewrite Heq|done].
  - assert (Hr' : repr g' a).
    { destruct Hr as [H1 H2 H3 H4 _]. rewrite Heq in *. split; [done..|]. exists L. split; [done|].
      intros d n. rewrite <-Hadj. unfold adj, raw, run_of. by rewrite Hov. }
    intros cs. pose proof (run_refines g a cs Hr) as H. pose proof (run_refines g' a cs Hr') as H'.
    destruct (a_run a cs) as [[a' rs]|]; [destruct H as (g1 & -> & _), H' as (g2 & -> & _); by exists g2|].
    by destruct H as [why ->].
Qed.

(** C15: loading well typed columns, wherever they come from, neither panics nor
    runs on for ever, as long as no run of the relocation overlay has more than
    [u32::MAX] entries, which no check ensures and a walk would panic on. When it
    returns a store, the store has those columns, its identities are those its
    liveness sets name, and it keeps the [GraphView] and [EdgeView] contracts:
    walks stay inside the arrays and end, live edges have live endpoints, and
    each is listed once by either of them. *)
Theorem loaded_store_keeps_contract (s : Stored NP EP) :
  well_typed s → runs_fit s →
  ∃ r, Validate.try_from s = Ok r ∧ ∀ g, r = inr g →
    columns_of s g ∧ ∃ sh, EdgeViews g sh ∧
      (∀ n, n ∈ es_nodes sh ↔ LiveSet.live_in (st_live_nodes s) (index n) = true) ∧
      ∀ e, e ∈ es_ids sh ↔ LiveSet.live_in (st_live_edges s) (index e) = true.
Proof.
  intros Hwt Hfit. destruct (try_from_settles s Hwt Hfit) as (r & Hr & Hok). exists r. split; [done|].
  intros g Hg. destruct (Hok g Hg) as [Hco (L & Hm)]. split; [done|]. exists (store_shape g L).
  split; [exact (store_EdgeViews g L Hm)|]. destruct (co_live s g Hco) as [<- <-].
  split; intros x; [apply (store_node_ids g L Hm)|apply (store_edge_ids g L Hm)].
Qed.
End Theorems.

(** ** Witnesses *)

Lemma stored_store_loads_back_witness :
  reachable_store sample_store ∧
  ∃ s g', store_columns sample_store = Ok s ∧ Validate.try_from s = Ok (inr g') ∧ store_columns g' = Ok s.
Proof.
  split; [exact sample_reachable|].
  destruct (stored_store_loads_back sample_store sample_reachable) as (s & g' & Hs & Hg & Hs' & _). exists s, g'. split; [exact Hs|]. split; [exact Hg|exact Hs'].
Defined.

Definition sample_columns : Stored N N :=
  match store_columns sample_store with
  | Ok s => s
  | _ => mk_Stored [] [] [] [] [] [] [] [] DeltaChains.new LiveSet.new LiveSet.new 0 0 None
  end.

Lemma sample_columns_typed : well_typed sample_columns ∧ runs_fit sample_columns.
Proof.
  destruct (reachable_inv _ sample_reachable) as (L & Hinv). unfold sample_columns.
  rewrite (store_columns_Ok sample_store L Hinv). split; [exact (written_typed sample_store L Hinv)|exact (written_fits sample_store L Hinv)].
Qed.

(** A document that drops a live edge from the node that lists it. *)
Definition tampered (s : Stored N N) : Stored N N :=
  mk_Stored (st_base_nodes s) (st_base_edges s) (st_out_offsets s) (st_out_edges s) (st_in_offsets s) (st_in_edges s)
    (st_delta_nodes s) (st_delta_edges s) (st_chains s) (st_live_nodes s) (st_live_edges s)
    (st_live_node_count s) (st_live_edge_count s) (Some (mk_Encoded [(0, []); (3, [0])] [])%N).

Lemma tampered_rejected :
  Validate.try_from (tampered sample_columns) = Ok (inl "a live edge is missing from its endpoints' adjacency").
Proof. vm_compute. reflexivity. Qed.

Lemma loaded_store_keeps_contract_witness :
  (well_typed sample_columns ∧ runs_fit sample_columns) ∧
  ∃ r, Validate.try_from sample_columns = Ok r ∧ match r with inr g => node_ids g = Ok [0; 2; 3]%N | inl _ => False end ∧
    ∀ g, r = inr g → ∃ sh, EdgeViews g sh.
Proof.
  split; [exact sample_columns_typed|].
  destruct (loaded_store_keeps_contract sample_columns (proj1 sample_columns_typed) (proj2 sample_columns_typed)) as (r & Hr & Hok). exists r. split; [exact Hr|].
  assert (Hv : match Validate.try_from sample_columns with Ok (inr g) => node_ids g = Ok [0; 2; 3]%N | _ => False end)
    by (vm_compute; reflexivity).
  rewrite Hr in Hv. split; [destruct r; exact Hv|]. intros g Hg. destruct (Hok g Hg) as (_ & sh & HE & _). exists sh. exact HE.
Defined.
