(* ===== verification/Traverse.v ===== *)
(** * Traversals

    Models the walks of [graph/traverse.rs] over any [GraphView]: depth-first
    preorder and postorder, breadth-first order and distances, shortest paths,
    multi-source reachability and topological order. Each loop runs on fuel
    computed from the view, and the proofs show that it is enough. *)

From S2P Require Import Prelude Ids View.

Section Walks.
Context {G : Type} {HG : GraphView G}.

(** The entries a walk along [d] can read: the fuel of every loop. *)
Definition adjacency_total (d : TraversalDirection) (g : G) : nat :=
  match gv_node_ids g with
  | Ok ns => sum_list_with (λ n, match neighbors d g n with Ok l => length l | _ => 0 end) ns
  | _ => 0
  end.

(** [for &successor in adjacent.iter().rev() { if !visited { push } }] *)
Definition push_unvisited {A} (f : Id → A) (visited : list bool) (adjacent : list Id)
    (stack : list A) : res (list A) :=
  rfold (λ stack successor,
    v ← vget visited (index successor);
    mret (if (v : bool) then stack else f successor :: stack)) stack (rev adjacent).

(** The loop of [preorder_from]; the head of the list is the top of the stack. *)
Fixpoint preorder_loop (fuel : nat) (d : TraversalDirection) (g : G) (visited : list bool)
    (order stack : list Id) : res (list Id) :=
  match fuel with
  | 0 => Stuck
  | S fuel =>
      match stack with
      | [] => mret order
      | node :: stack =>
          v ← vget visited (index node);
          if (v : bool) then preorder_loop fuel d g visited order stack
          else
            visited ← vset visited (index node) true;
            adjacent ← neighbors d g node;
            stack ← push_unvisited id visited adjacent stack;
            preorder_loop fuel d g visited (order ++ [node]) stack
      end
  end.

(** [preorder_from], and [depth_first_preorder] at the direction *)
Definition depth_first_preorder (g : G) (start : Id) (d : TraversalDirection) : res (list Id) :=
  _ ← assert_in_bound g start "start node";
  preorder_loop (2 + adjacency_total d g) d g (replicate (gv_node_bound g) false) [] [start].

(** The loop of [postorder_from] *)
Fixpoint postorder_loop (fuel : nat) (d : TraversalDirection) (g : G) (visited : list bool)
    (order : list Id) (stack : list (Id * bool)) : res (list Id) :=
  match fuel with
  | 0 => Stuck
  | S fuel =>
      match stack with
      | [] => mret order
      | (node, true) :: stack => postorder_loop fuel d g visited (order ++ [node]) stack
      | (node, false) :: stack =>
          v ← vget visited (index node);
          if (v : bool) then postorder_loop fuel d g visited order stack
          else
            visited ← vset visited (index node) true;
            adjacent ← neighbors d g node;
            stack ← push_unvisited (λ s, (s, false)) visited adjacent ((node, true) :: stack);
            postorder_loop fuel d g visited order stack
      end
  end.

(** [postorder_from], and [depth_first_postorder] at the direction *)
Definition depth_first_postorder (g : G) (start : Id) (d : TraversalDirection) : res (list Id) :=
  _ ← assert_in_bound g start "start node";
  postorder_loop (2 + adjacency_total d g + gv_node_bound g) d g
    (replicate (gv_node_bound g) false) [] [(start, false)].

(** [reverse_postorder] *)
Definition reverse_postorder (g : G) (start : Id) (d : TraversalDirection) : res (list Id) :=
  order ← depth_first_postorder g start d; mret (rev order).

End Walks.

(** [x] comes before [y] in [o]. *)
Definition before (o : list Id) (x y : Id) : Prop := ∃ o1 o2 o3, o = o1 ++ x :: o2 ++ y :: o3.

Lemma before_lookup {A} (o : list A) i j x y :
  i < j → o !! i = Some x → o !! j = Some y → ∃ o1 o2 o3, o = o1 ++ x :: o2 ++ y :: o3.
Proof.
  intros Hij Hx Hy. exists (take i o), (take (j - S i) (drop (S i) o)), (drop (S (j - S i)) (drop (S i) o)).
  etrans; [symmetry; apply (take_drop_middle o i x Hx)|]. do 2 f_equal. symmetry. apply take_drop_middle.
  rewrite lookup_drop. by replace (S i + (j - S i)) with j by lia.
Qed.

Lemma before_app_l o1 o2 x y : before o1 x y → before (o1 ++ o2) x y.
Proof. intros (a & b & c & ->). exists a, b, (c ++ o2). by rewrite <-!app_assoc, <-!app_comm_cons, <-app_assoc. Qed.
Lemma before_app_r o1 o2 x y : before o2 x y → before (o1 ++ o2) x y.
Proof. intros (a & b & c & ->). exists (o1 ++ a), b, c. by rewrite <-app_assoc. Qed.
Lemma before_mid o1 o2 x y : x ∈ o1 → y ∈ o2 → before (o1 ++ o2) x y.
Proof.
  intros (a & b & ->)%list_elem_of_split (c & d & ->)%list_elem_of_split. exists a, (b ++ c), d.
  by rewrite <-!app_assoc, <-app_comm_cons.
Qed.

Lemma before_trans o x y z : NoDup o → before o x y → before o y z → before o x z.
Proof.
  intros Hnd (a & b & c & ->) (a' & b' & c' & Heq).
  assert (Hy : (a ++ x :: b) ++ y :: c = a' ++ y :: b' ++ z :: c') by (by rewrite <-Heq, <-app_assoc).
  assert (a ++ x :: b = a' ∧ c = b' ++ z :: c') as [<- ->].
  { rewrite app_comm_cons, (app_assoc a) in Hnd. revert Hy Hnd. generalize (a ++ x :: b) as l.
    clear Heq. intros l. revert a'. induction l as [|w l IH]; intros [|w' a'] Hl Hnd; cbn in Hl.
    - injection Hl as ->. done.
    - injection Hl as <- ->. cbn in Hnd. apply NoDup_cons in Hnd as [Hni _]. set_solver.
    - injection Hl as -> _. cbn in Hnd. apply NoDup_cons in Hnd as [Hni _]. set_solver.
    - injection Hl as -> Hl. cbn in Hnd. apply NoDup_cons in Hnd as [_ Hnd].
      destruct (IH a' Hl Hnd) as [-> ->]. done. }
  exists a, (b ++ y :: b'), c'. by rewrite <-!app_assoc.
Qed.

(** ** Depth-first search, as a relation

    [dfs next V l o V']: searching from the nodes [l] in order, with [V]
    already visited, reports [o] and ends with [V'] visited. *)
Section Search.
Context (next : Id → list Id).

Inductive preorder : gset Id → list Id → list Id → gset Id → Prop :=
  | pre_nil V : preorder V [] [] V
  | pre_skip V n l o V' : n ∈ V → preorder V l o V' → preorder V (n :: l) o V'
  | pre_visit V n l o1 o2 V1 V' : n ∉ V →
      preorder ({[n]} ∪ V) (next n) o1 V1 → preorder V1 l o2 V' →
      preorder V (n :: l) (n :: o1 ++ o2) V'.

Inductive postorder : gset Id → list Id → list Id → gset Id → Prop :=
  | post_nil V : postorder V [] [] V
  | post_skip V n l o V' : n ∈ V → postorder V l o V' → postorder V (n :: l) o V'
  | post_visit V n l o1 o2 V1 V' : n ∉ V →
      postorder ({[n]} ∪ V) (next n) o1 V1 → postorder V1 l o2 V' →
      postorder V (n :: l) (o1 ++ n :: o2) V'.

Lemma preorder_app_inv V l1 l2 o V' :
  preorder V (l1 ++ l2) o V' →
  ∃ o1 o2 V1, preorder V l1 o1 V1 ∧ preorder V1 l2 o2 V' ∧ o = o1 ++ o2.
Proof.
  revert V o. induction l1 as [|n l1 IH]; intros V o H; [by eexists [], o, V; eauto using preorder|].
  inversion H as [|? ? ? ? ? Hn Hl|? ? ? q1 q2 W1 ? Hn Hx Hl]; subst.
  - apply IH in Hl as (o1 & o2 & V1 & ? & ? & ->). exists o1, o2, V1. eauto using preorder.
  - apply IH in Hl as (p1 & p2 & W & ? & ? & ->). eexists (n :: q1 ++ p1), p2, W.
    split_and!; [eauto using preorder|done|]. cbn. by rewrite app_assoc.
Qed.

Lemma postorder_app_inv V l1 l2 o V' :
  postorder V (l1 ++ l2) o V' →
  ∃ o1 o2 V1, postorder V l1 o1 V1 ∧ postorder V1 l2 o2 V' ∧ o = o1 ++ o2.
Proof.
  revert V o. induction l1 as [|n l1 IH]; intros V o H; [by eexists [], o, V; eauto using postorder|].
  inversion H as [|? ? ? ? ? Hn Hl|? ? ? q1 q2 W1 ? Hn Hx Hl]; subst.
  - apply IH in Hl as (o1 & o2 & V1 & ? & ? & ->). exists o1, o2, V1. eauto using postorder.
  - apply IH in Hl as (p1 & p2 & W & ? & ? & ->). eexists (q1 ++ n :: p1), p2, W.
    split_and!; [eauto using postorder|done|]. by rewrite <-app_assoc.
Qed.

Lemma preorder_grows V l o V' : preorder V l o V' → V' = V ∪ list_to_set o.
Proof. induction 1; set_solver. Qed.
Lemma postorder_grows V l o V' : postorder V l o V' → V' = V ∪ list_to_set o.
Proof. induction 1; set_solver. Qed.

(** Entries already visited may be dropped from the work list. *)
Lemma preorder_unfilter V l o V' (W : gset Id) :
  W ⊆ V → preorder V (filter (λ x, x ∉ W) l) o V' → preorder V l o V'.
Proof.
  revert V o. induction l as [|n l IH]; intros V o HW H; [done|]. rewrite filter_cons in H.
  case_decide as Hn.
  - inversion H as [|? ? ? ? ? Hv Hl|? ? ? q1 q2 W1 ? Hv Hx Hl]; subst; [by constructor; auto|].
    econstructor; [done|done|]. apply IH; [|done].
    rewrite (preorder_grows _ _ _ _ Hx). set_solver.
  - constructor; [set_solver|auto].
Qed.

Lemma postorder_unfilter V l o V' (W : gset Id) :
  W ⊆ V → postorder V (filter (λ x, x ∉ W) l) o V' → postorder V l o V'.
Proof.
  revert V o. induction l as [|n l IH]; intros V o HW H; [done|]. rewrite filter_cons in H.
  case_decide as Hn.
  - inversion H as [|? ? ? ? ? Hv Hl|? ? ? q1 q2 W1 ? Hv Hx Hl]; subst; [by constructor; auto|].
    econstructor; [done|done|]. apply IH; [|done].
    rewrite (postorder_grows _ _ _ _ Hx). set_solver.
  - constructor; [set_solver|auto].
Qed.

Definition edge_to (n m : Id) : Prop := m ∈ next n.

(** What was reported, once each, is what was newly visited, and everything
    reachable from the work list is visited. *)
Record search_facts (V : gset Id) (l o : list Id) (V' : gset Id) : Prop := mk_facts {
  sf_set : V' = V ∪ list_to_set o;
  sf_nodup : NoDup o;
  sf_new : ∀ x, x ∈ o → x ∉ V;
  sf_from : ∀ x, x ∈ o → ∃ n, n ∈ l ∧ rtc edge_to n x;
  sf_start : ∀ n, n ∈ l → n ∈ V';
  sf_closed : ∀ x m, x ∈ o → edge_to x m → m ∈ V';
}.

Lemma preorder_facts V l o V' : preorder V l o V' → search_facts V l o V'.
Proof.
  induction 1 as [V|V n l o V' Hn H IH|V n l o1 o2 V1 V' Hn H1 IH1 H2 IH2].
  - split; set_solver by constructor.
  - destruct IH as [Hs Hnd Hnew Hfrom Hstart Hclosed]. split; [done|done|done| |set_solver|done].
    intros x Hx. destruct (Hfrom x Hx) as (m & Hm & ?). exists m. split; [by right|done].
  - destruct IH1 as [Hs1 Hnd1 Hnew1 Hfrom1 Hstart1 Hclosed1].
    destruct IH2 as [Hs2 Hnd2 Hnew2 Hfrom2 Hstart2 Hclosed2]. split.
    + set_solver.
    + constructor; [|apply NoDup_app; set_solver]. set_solver.
    + set_solver.
    + intros x. rewrite elem_of_cons, elem_of_app. intros [->|[Hx|Hx]].
      * exists n. split; [left|done].
      * destruct (Hfrom1 x Hx) as (m & Hm & ?). exists n. split; [left|]. by eapply rtc_l.
      * destruct (Hfrom2 x Hx) as (m & Hm & ?). exists m. split; [by right|done].
    + set_solver.
    + intros x m. rewrite elem_of_cons, elem_of_app. unfold edge_to. intros [->|[Hx|Hx]] Hm.
      * apply Hstart1 in Hm. set_solver.
      * apply Hclosed1 in Hm; [set_solver|done].
      * by apply Hclosed2 in Hm.
Qed.

Lemma postorder_facts V l o V' : postorder V l o V' → search_facts V l o V'.
Proof.
  induction 1 as [V|V n l o V' Hn H IH|V n l o1 o2 V1 V' Hn H1 IH1 H2 IH2].
  - split; set_solver by constructor.
  - destruct IH as [Hs Hnd Hnew Hfrom Hstart Hclosed]. split; [done|done|done| |set_solver|done].
    intros x Hx. destruct (Hfrom x Hx) as (m & Hm & ?). exists m. split; [by right|done].
  - destruct IH1 as [Hs1 Hnd1 Hnew1 Hfrom1 Hstart1 Hclosed1].
    destruct IH2 as [Hs2 Hnd2 Hnew2 Hfrom2 Hstart2 Hclosed2]. split.
    + set_solver.
    + apply NoDup_app. split_and!; [done| |constructor; [set_solver|done]]. set_solver.
    + set_solver.
    + intros x. rewrite elem_of_app, elem_of_cons. intros [Hx|[->|Hx]].
      * destruct (Hfrom1 x Hx) as (m & Hm & ?). exists n. split; [left|]. by eapply rtc_l.
      * exists n. split; [left|done].
      * destruct (Hfrom2 x Hx) as (m & Hm & ?). exists m. split; [by right|done].
    + set_solver.
    + intros x m. rewrite elem_of_app, elem_of_cons. unfold edge_to. intros [Hx|[->|Hx]] Hm.
      * apply Hclosed1 in Hm; [set_solver|done].
      * apply Hstart1 in Hm. set_solver.
      * by apply Hclosed2 in Hm.
Qed.

(** From nothing visited, a search reports exactly the reachable nodes. *)
Lemma search_reachable l o V' x :
  search_facts ∅ l o V' → x ∈ o ↔ ∃ n, n ∈ l ∧ rtc edge_to n x.
Proof.
  intros [Hs Hnd Hnew Hfrom Hstart Hclosed]. split; [by apply Hfrom|].
  intros (n & Hn & Hr). apply Hstart in Hn.
  cut (x ∈ V'); [set_solver|]. clear Hfrom Hstart. induction Hr as [|y z w Hyz Hr IH]; [done|].
  apply IH. apply (Hclosed y); [set_solver|done].
Qed.

(** In postorder an edge's target comes first unless it was visited already
    or leads back to the edge's source. *)
Lemma postorder_edges V l o V' :
  postorder V l o V' → ∀ u v, u ∈ o → edge_to u v → before o v u ∨ v ∈ V ∨ rtc edge_to v u.
Proof.
  induction 1 as [V|V n l o V' Hn H IH|V n l o1 o2 V1 V' Hn H1 IH1 H2 IH2]; intros u v Hu Hv.
  - by apply elem_of_nil in Hu.
  - by apply IH.
  - destruct (postorder_facts _ _ _ _ H1) as [Hs1 _ _ Hfrom1 Hstart1 _].
    rewrite elem_of_app, elem_of_cons in Hu. destruct Hu as [Hu|[->|Hu]].
    + destruct (IH1 _ _ Hu Hv) as [Hb|[HV|Hr]]; [left; by apply before_app_l| |by right; right].
      apply elem_of_union in HV as [->%elem_of_singleton|HV]; [|by right; left].
      right; right. destruct (Hfrom1 _ Hu) as (m & Hm & Hr). by eapply rtc_l.
    + apply Hstart1 in Hv. rewrite Hs1, !elem_of_union, elem_of_singleton, elem_of_list_to_set in Hv.
      destruct Hv as [[->|HV]|Hv]; [by right; right|by right; left|].
      left. apply before_mid; [done|left].
    + destruct (IH2 _ _ Hu Hv) as [Hb|[HV|Hr]]; [| |by right; right].
      * left. apply before_app_r. by apply (before_app_r [n]).
      * rewrite Hs1, !elem_of_union, elem_of_singleton, elem_of_list_to_set in HV.
        destruct HV as [[->|HV]|HV]; [|by right; left|].
        -- left. apply before_app_r. apply (before_mid [n]); [left|done].
        -- left. apply before_mid; [done|by right].
Qed.
End Search.

(** ** The visited table *)

(** [visited] marks exactly the nodes of [V]. *)
Definition marked (visited : list bool) (bound : nat) (V : gset Id) : Prop :=
  length visited = bound ∧ ∀ n : Id, index n < bound → visited !! index n = Some (bool_decide (n ∈ V)).

Lemma marked_empty bound : marked (replicate bound false) bound ∅.
Proof.
  split; [apply length_replicate|]. intros n Hn. rewrite lookup_replicate_2 by done.
  by rewrite bool_decide_false by set_solver.
Qed.

Lemma marked_get visited bound V n :
  marked visited bound V → index n < bound → vget visited (index n) = Ok (bool_decide (n ∈ V)).
Proof. intros [_ H] Hn. by apply vget_eq, H. Qed.

Lemma marked_set visited bound V n :
  marked visited bound V → index n < bound →
  vset visited (index n) true = Ok (<[index n := true]> visited) ∧
  marked (<[index n := true]> visited) bound ({[n]} ∪ V).
Proof.
  intros [Hl H] Hn. split; [apply vset_lt; lia|]. split; [by rewrite length_insert|].
  intros m Hm. destruct (decide (m = n)) as [->|Hne].
  - rewrite list_lookup_insert_eq by lia. rewrite bool_decide_true by set_solver. done.
  - rewrite list_lookup_insert_ne by (unfold index; intros ?%N2Nat.inj; congruence).
    rewrite H by done. f_equal. apply bool_decide_ext. set_solver.
Qed.

Lemma push_unvisited_Ok {A} (f : Id → A) visited bound V adjacent stack :
  marked visited bound V → (∀ n, n ∈ adjacent → index n < bound) →
  push_unvisited f visited adjacent stack = Ok ((f <$> filter (λ x, x ∉ V) adjacent) ++ stack).
Proof.
  intros Hm. unfold push_unvisited. revert stack. induction adjacent as [|n l IH] using rev_ind; intros stack Hl.
  { done. }
  rewrite rev_app_distr. cbn [rev app rfold]. rewrite (marked_get _ _ _ _ Hm) by (apply Hl; set_solver). rsimpl.
  rewrite IH by set_solver. rewrite filter_app, fmap_app, <-app_assoc. do 2 f_equal.
  rewrite filter_cons, filter_nil. destruct (bool_decide_reflect (n ∈ V)); by case_decide.
Qed.

(** ** What is left to expand *)

Definition pending (w : Id → nat) (nodes : list Id) (V : gset Id) : nat :=
  sum_list_with (λ n, if decide (n ∈ V) then 0 else w n) nodes.

Lemma pending_not w nodes V n : n ∉ nodes → pending w nodes ({[n]} ∪ V) = pending w nodes V.
Proof.
  unfold pending. induction nodes as [|m l IH]; intros Hn; [done|]. cbn. rewrite IH by set_solver.
  f_equal. assert (m ≠ n) by set_solver. repeat case_decide; set_solver.
Qed.

Lemma pending_visit w nodes V n :
  NoDup nodes → n ∈ nodes → n ∉ V → pending w nodes V = w n + pending w nodes ({[n]} ∪ V).
Proof.
  induction nodes as [|m l IH]; intros Hnd Hn HV; [by apply elem_of_nil in Hn|].
  apply NoDup_cons in Hnd as [Hm Hnd]. unfold pending in *. cbn. apply elem_of_cons in Hn as [->|Hn].
  - rewrite decide_False by done. rewrite decide_True by set_solver.
    pose proof (pending_not w l V m Hm) as Hp. unfold pending in Hp. rewrite Hp. lia.
  - rewrite (IH Hnd Hn HV). assert (m ≠ n) by set_solver. repeat case_decide; set_solver by lia.
Qed.

Lemma pending_empty w nodes : pending w nodes ∅ = sum_list_with w nodes.
Proof. unfold pending. induction nodes as [|n l IH]; [done|]. cbn. rewrite IH. by case_decide; set_solver. Qed.

Lemma pending_le w nodes V : pending w nodes V ≤ pending w nodes ∅.
Proof. unfold pending. induction nodes as [|n l IH]; [done|]. cbn. repeat case_decide; set_solver by lia. Qed.

Lemma pending_shrinks w nodes (V V' : gset Id) : V ⊆ V' → pending w nodes V' ≤ pending w nodes V.
Proof. intros HV. unfold pending. induction nodes as [|x l IH]; [done|]. cbn. repeat case_decide; set_solver by lia. Qed.

Section Walk_proofs.
Context {G : Type} {HG : GraphView G} (g : G) (s : shape) (HV : Views g s).

Lemma nodes_bound n : n ∈ sh_nodes s → index n < sh_bound s.
Proof. apply (so_bound _ (vw_ok (g := g))). Qed.

Lemma nodes_next d n m : n ∈ sh_nodes s → m ∈ sh_next s d n → m ∈ sh_nodes s.
Proof. apply (so_live _ (vw_ok (g := g))). Qed.

Lemma nodes_nodup : NoDup (sh_nodes s).
Proof. apply (so_nodup _ (vw_ok (g := g))). Qed.

Lemma adjacency_total_eq d :
  adjacency_total d g = sum_list_with (λ n, length (sh_next s d n)) (sh_nodes s).
Proof.
  unfold adjacency_total. rewrite (vw_nodes (g := g) (s := s)).
  assert (Hin : sh_nodes s ⊆ sh_nodes s) by done. revert Hin. generalize (sh_nodes s) at 1 3 4 as l.
  induction l as [|n l IH]; intros Hl; [done|]. cbn. rewrite IH by set_solver.
  by rewrite (vw_next (g := g) d n) by set_solver.
Qed.

Lemma preorder_loop_spec d fuel visited order stack V :
  marked visited (sh_bound s) V → (∀ n, n ∈ stack → n ∈ sh_nodes s) →
  length stack + pending (λ n, length (sh_next s d n)) (sh_nodes s) V < fuel →
  ∃ o V', preorder_loop fuel d g visited order stack = Ok (order ++ o) ∧
    preorder (sh_next s d) V stack o V'.
Proof.
  revert visited order stack V. induction fuel as [|fuel IH]; intros visited order stack V Hm Hst Hf; [lia|].
  cbn [preorder_loop]. destruct stack as [|n stack].
  { exists [], V. rewrite app_nil_r. split; [done|constructor]. }
  assert (Hn : n ∈ sh_nodes s) by (apply Hst; left). pose proof (nodes_bound n Hn) as Hb.
  rewrite (marked_get _ _ _ _ Hm Hb). rsimpl. destruct (bool_decide_reflect (n ∈ V)) as [HnV|HnV].
  - destruct (IH visited order stack V) as (o & V' & Hl & Hp); [done|set_solver|cbn in Hf; lia|].
    exists o, V'. split; [done|]. by constructor.
  - destruct (marked_set _ _ _ _ Hm Hb) as [-> Hm']. rsimpl.
    rewrite (vw_next (g := g) d n Hn). rsimpl.
    rewrite (push_unvisited_Ok id _ _ _ _ _ Hm') by (intros m Hmn; eapply nodes_bound, nodes_next; done).
    rsimpl. rewrite list_fmap_id.
    destruct (IH (<[index n:=true]> visited) (order ++ [n])
      (filter (λ x, x ∉ {[n]} ∪ V) (sh_next s d n) ++ stack) ({[n]} ∪ V)) as (o & V' & -> & Hp); [done| | |].
    + intros m [[_ Hmn]%list_elem_of_filter|Hmn]%elem_of_app; [by eapply nodes_next|set_solver].
    + rewrite length_app.
      pose proof (length_filter (λ x, x ∉ {[n]} ∪ V) (sh_next s d n)).
      rewrite (pending_visit _ _ V n nodes_nodup Hn HnV) in Hf. cbn in Hf. lia.
    + apply preorder_app_inv in Hp as (o1 & o2 & V1 & H1 & H2 & ->).
      exists (n :: o1 ++ o2), V'. split; [by rewrite <-app_assoc|].
      econstructor; [done| |done]. by eapply preorder_unfilter.
Qed.

(** A mixed stack: finished nodes wait to be reported. *)
Inductive pstack (next : Id → list Id) : gset Id → list (Id * bool) → list Id → gset Id → Prop :=
  | ps_nil V : pstack next V [] [] V
  | ps_done V n st o V' : pstack next V st o V' → pstack next V ((n, true) :: st) (n :: o) V'
  | ps_todo V n st o1 o2 V1 V' :
      postorder next V [n] o1 V1 → pstack next V1 st o2 V' →
      pstack next V ((n, false) :: st) (o1 ++ o2) V'.

Lemma postorder_cons next V n l o1 o2 V1 V2 :
  postorder next V [n] o1 V1 → postorder next V1 l o2 V2 → postorder next V (n :: l) (o1 ++ o2) V2.
Proof.
  intros H1 H2. inversion H1 as [|? ? ? ? ? Hn Hl|? ? ? q1 q2 W1 ? Hn Hx Hl]; subst.
  - inversion Hl; subst. by constructor.
  - inversion Hl; subst. rewrite <-app_assoc. by econstructor.
Qed.

Lemma pstack_app_inv next V l st o V' :
  pstack next V (((λ x, (x, false)) <$> l) ++ st) o V' →
  ∃ o1 o2 V1, postorder next V l o1 V1 ∧ pstack next V1 st o2 V' ∧ o = o1 ++ o2.
Proof.
  revert V o. induction l as [|n l IH]; intros V o H; [by eexists [], o, V; eauto using postorder|].
  rewrite fmap_cons in H. cbn in H. inversion H as [| |? ? ? q1 q2 W ? Hn Hl]; subst.
  apply IH in Hl as (o1 & o2 & V1 & H1 & H2 & ->). exists (q1 ++ o1), o2, V1.
  split_and!; [by eapply postorder_cons|done|]. by rewrite app_assoc.
Qed.

Lemma postorder_loop_spec d fuel visited order stack V :
  marked visited (sh_bound s) V → (∀ n, n ∈ stack.*1 → n ∈ sh_nodes s) →
  length stack + pending (λ n, S (length (sh_next s d n))) (sh_nodes s) V < fuel →
  ∃ o V', postorder_loop fuel d g visited order stack = Ok (order ++ o) ∧
    pstack (sh_next s d) V stack o V'.
Proof.
  revert visited order stack V. induction fuel as [|fuel IH]; intros visited order stack V Hm Hst Hf; [lia|].
  cbn [postorder_loop]. destruct stack as [|[n [|]] stack].
  { exists [], V. rewrite app_nil_r. split; [done|constructor]. }
  { destruct (IH visited (order ++ [n]) stack V) as (o & V' & -> & Hp); [done|set_solver|cbn in Hf; lia|].
    exists (n :: o), V'. split; [by rewrite <-app_assoc|]. by constructor. }
  assert (Hn : n ∈ sh_nodes s) by (apply Hst; left). pose proof (nodes_bound n Hn) as Hb.
  rewrite (marked_get _ _ _ _ Hm Hb). rsimpl. destruct (bool_decide_reflect (n ∈ V)) as [HnV|HnV].
  - destruct (IH visited order stack V) as (o & V' & Hl & Hp); [done|set_solver|cbn in Hf; lia|].
    exists o, V'. split; [done|]. apply (ps_todo _ _ _ _ [] _ V); [|done]. by repeat constructor.
  - destruct (marked_set _ _ _ _ Hm Hb) as [-> Hm']. rsimpl.
    rewrite (vw_next (g := g) d n Hn). rsimpl.
    rewrite (push_unvisited_Ok (λ x, (x, false)) _ _ _ _ _ Hm')
      by (intros m Hmn; eapply nodes_bound, nodes_next; done). rsimpl.
    set (fresh := filter (λ x, x ∉ {[n]} ∪ V) (sh_next s d n)).
    assert (Hfresh : length fresh ≤ length (sh_next s d n)) by apply length_filter.
    destruct (IH (<[index n:=true]> visited) order
      (((λ x, (x, false)) <$> fresh) ++ (n, true) :: stack) ({[n]} ∪ V)) as (o & V' & -> & Hp); [done| | |].
    + intros m. rewrite fmap_app, <-list_fmap_compose, list_fmap_id, elem_of_app.
      intros [[_ Hmn]%list_elem_of_filter|Hmn]; [by eapply nodes_next|set_solver].
    + rewrite length_app, length_fmap. cbn.
      rewrite (pending_visit _ _ V n nodes_nodup Hn HnV) in Hf. cbn in Hf. lia.
    + apply pstack_app_inv in Hp as (o1 & o2 & V1 & H1 & H2 & ->).
      inversion H2 as [|? ? ? q ? Hq|]; subst. exists ((o1 ++ [n]) ++ q), V'.
      split; [by rewrite <-!app_assoc|]. eapply ps_todo; [|done].
      econstructor; [done| |constructor]. by eapply postorder_unfilter.
Qed.

Lemma depth_first_preorder_spec d start :
  start ∈ sh_nodes s →
  ∃ o V', depth_first_preorder g start d = Ok o ∧ preorder (sh_next s d) ∅ [start] o V'.
Proof.
  intros Hs. unfold depth_first_preorder. rewrite (vw_in_bound g s start _ HV Hs). rsimpl.
  rewrite (vw_bound (g := g) (s := s)).
  destruct (preorder_loop_spec d (2 + adjacency_total d g) (replicate (sh_bound s) false) [] [start] ∅)
    as (o & V' & Hl & Hp); [apply marked_empty|set_solver| |by exists o, V'].
  rewrite pending_empty, adjacency_total_eq. cbn. lia.
Qed.

Lemma depth_first_postorder_spec d start :
  start ∈ sh_nodes s →
  ∃ o V', depth_first_postorder g start d = Ok o ∧ postorder (sh_next s d) ∅ [start] o V'.
Proof.
  intros Hs. unfold depth_first_postorder. rewrite (vw_in_bound g s start _ HV Hs). rsimpl.
  rewrite (vw_bound (g := g) (s := s)).
  destruct (postorder_loop_spec d (2 + adjacency_total d g + sh_bound s)
    (replicate (sh_bound s) false) [] [(start, false)] ∅) as (o & V' & Hl & Hp); [apply marked_empty|set_solver| |].
  - rewrite pending_empty, adjacency_total_eq.
    assert (Hlen : length (sh_nodes s) ≤ sh_bound s).
    { apply NoDup_index_length; [apply nodes_nodup|apply nodes_bound]. }
    assert (Hsum : ∀ l, sum_list_with (λ n, S (length (sh_next s d n))) l =
              sum_list_with (λ n, length (sh_next s d n)) l + length l).
    { induction l as [|n l IHl]; [done|]. cbn. rewrite IHl. lia. }
    rewrite Hsum. cbn. lia.
  - inversion Hp as [| |? ? ? q1 q2 W ? Hq Hnil]; subst. inversion Hnil; subst.
    exists q1, V'. rewrite app_nil_r in Hl. done.
Qed.

End Walk_proofs.
