(* ===== verification/Bfs.v ===== *)
(** * Breadth-first walks

    Models [breadth_first], the bounded breadth-first distances,
    [shortest_path] and [common_ancestors] of [graph/traverse.rs]. One
    invariant of the queue serves them all: it gives exact distances, the
    discovery order by distance, and shortest paths. *)

From S2P Require Import Prelude Ids View Traverse.

Section Bfs_walks.
Context {G : Type} {HG : GraphView G}.

(** The loop of [breadth_first_from] *)
Fixpoint breadth_first_loop (fuel : nat) (d : TraversalDirection) (g : G) (visited : list bool)
    (order queue : list Id) : res (list Id) :=
  match fuel with
  | 0 => Stuck
  | S fuel =>
      match queue with
      | [] => mret order
      | node :: queue =>
          adjacent ← neighbors d g node;
          '(visited, queue) ← rfold (λ '(visited, queue) next,
              v ← vget visited (index next);
              if (v : bool) then mret (visited, queue)
              else visited ← vset visited (index next) true; mret (visited, queue ++ [next]))
            (visited, queue) adjacent;
          breadth_first_loop fuel d g visited (order ++ [node]) queue
      end
  end.

(** [breadth_first_from], and [breadth_first] at the direction *)
Definition breadth_first (g : G) (start : Id) (d : TraversalDirection) : res (list Id) :=
  _ ← assert_in_bound g start "start node";
  visited ← vset (replicate (gv_node_bound g) false) (index start) true;
  breadth_first_loop (S (gv_node_bound g)) d g visited [] [start].

(** The loop of [breadth_first_bounded_with]. The distance table holds [None]
    where the code has [usize::MAX]; [discovered] is the callback's record. *)
Fixpoint bounded_loop (fuel : nat) (d : TraversalDirection) (g : G) (max_depth : option nat)
    (distances : list (option nat)) (discovered queue : list Id)
    : res (list (option nat) * list Id) :=
  match fuel with
  | 0 => Stuck
  | S fuel =>
      match queue with
      | [] => mret (distances, discovered)
      | node :: queue =>
          entry ← vget distances (index node);
          depth ← expect entry "a queued node has a distance";
          if match max_depth with Some limit => bool_decide (limit ≤ depth) | None => false end
          then bounded_loop fuel d g max_depth distances discovered queue
          else
            adjacent ← neighbors d g node;
            '(distances, discovered, queue) ← rfold (λ '(distances, discovered, queue) next,
                entry ← vget distances (index next);
                match entry with
                | Some _ => mret (distances, discovered, queue)
                | None =>
                    distances ← vset distances (index next) (Some (depth + 1));
                    mret (distances, discovered ++ [next], queue ++ [next])
                end) (distances, discovered, queue) adjacent;
            bounded_loop fuel d g max_depth distances discovered queue
      end
  end.

(** [breadth_first_bounded_with] *)
Definition breadth_first_bounded_with (d : TraversalDirection) (g : G) (start : Id)
    (max_depth : option nat) : res (list (option nat) * list Id) :=
  distances ← vset (replicate (gv_node_bound g) None) (index start) (Some 0);
  bounded_loop (S (gv_node_bound g)) d g max_depth distances [start] [start].

(** [breadth_first_bounded], and [breadth_first_distances] without a bound *)
Definition breadth_first_bounded (d : TraversalDirection) (g : G) (start : Id)
    (max_depth : option nat) : res (list (option nat)) :=
  fst <$> breadth_first_bounded_with d g start max_depth.
Definition breadth_first_distances (d : TraversalDirection) (g : G) (start : Id)
    : res (list (option nat)) :=
  breadth_first_bounded d g start None.

(** [min] over [(combined distance, node id)] *)
Definition rank_less (x y : nat * Id) : bool :=
  bool_decide (x.1 < y.1 ∨ (x.1 = y.1 ∧ (x.2 ≤ y.2)%N)).
Definition min_ranked (l : list (nat * Id)) : option (nat * Id) :=
  match l with
  | [] => None
  | x :: l => Some (foldl (λ best y, if rank_less best y then best else y) x l)
  end.

(** [nearest_meet], and [nearest_common_ancestor] at the direction *)
Definition nearest_common_ancestor (g : G) (a b : Id) (d : TraversalDirection) : res (option Id) :=
  _ ← assert_in_bound g a "node `a`";
  _ ← assert_in_bound g b "node `b`";
  from_a ← breadth_first_distances d g a;
  from_b ← breadth_first_distances d g b;
  ids ← gv_node_ids g;
  candidates ← rfold (λ acc node,
    reached_from_a ← vget from_a (index node);
    reached_from_b ← vget from_b (index node);
    mret (match reached_from_a, reached_from_b with
          | Some x, Some y => acc ++ [(x + y, node)]
          | _, _ => acc
          end)) [] ids;
  mret (snd <$> min_ranked candidates).

(** [CommonAncestor] *)
Record CommonAncestor : Type := mk_CommonAncestor { ca_node : Id; ca_from_a : nat; ca_from_b : nat }.

(** [all_meets], and [common_ancestors] at the direction *)
Definition common_ancestors (g : G) (a b : Id) (d : TraversalDirection) (max_depth : option nat)
    : res (list CommonAncestor) :=
  _ ← assert_in_bound g a "node `a`";
  _ ← assert_in_bound g b "node `b`";
  from_a ← breadth_first_bounded d g a max_depth;
  '(from_b, order_b) ← breadth_first_bounded_with d g b max_depth;
  rfold (λ acc node,
    x ← vget from_a (index node);
    y ← vget from_b (index node);
    mret (match x, y with
          | Some x, Some y => acc ++ [mk_CommonAncestor node x y]
          | _, _ => acc
          end)) [] order_b.

(** The walk back along [previous] in [shortest_path_from] *)
Fixpoint rebuild_path (fuel : nat) (previous : list (option Id)) (start current : Id)
    (path : list Id) : res (option (list Id)) :=
  match fuel with
  | 0 => Stuck
  | S fuel =>
      if decide (current = start) then mret (Some path)
      else
        p ← vget previous (index current);
        match p with
        | None => mret None
        | Some p => rebuild_path fuel previous start p (p :: path)
        end
  end.

(** The loop of [shortest_path_from] *)
Fixpoint shortest_loop (fuel : nat) (d : TraversalDirection) (g : G) (start goal : Id)
    (previous : list (option Id)) (visited : list bool) (queue : list Id) : res (option (list Id)) :=
  match fuel with
  | 0 => Stuck
  | S fuel =>
      match queue with
      | [] => mret None
      | node :: queue =>
          if decide (node = goal) then rebuild_path (S (length previous)) previous start goal [goal]
          else
            adjacent ← neighbors d g node;
            '(previous, visited, queue) ← rfold (λ '(previous, visited, queue) next,
                v ← vget visited (index next);
                if (v : bool) then mret (previous, visited, queue)
                else
                  visited ← vset visited (index next) true;
                  previous ← vset previous (index next) (Some node);
                  mret (previous, visited, queue ++ [next])) (previous, visited, queue) adjacent;
            shortest_loop fuel d g start goal previous visited queue
      end
  end.

(** [shortest_path_from], and [shortest_path] at the direction *)
Definition shortest_path (g : G) (start goal : Id) (d : TraversalDirection)
    : res (option (list Id)) :=
  _ ← assert_in_bound g start "start node";
  _ ← assert_in_bound g goal "goal node";
  visited ← vset (replicate (gv_node_bound g) false) (index start) true;
  shortest_loop (S (gv_node_bound g)) d g start goal (replicate (gv_node_bound g) None) visited [start].

End Bfs_walks.

(** ** The queue's invariant *)

(** The entries of [l] not in [V], each once, in order. *)
Fixpoint fresh (V : gset Id) (l : list Id) : list Id :=
  match l with
  | [] => []
  | x :: l => if decide (x ∈ V) then fresh V l else x :: fresh ({[x]} ∪ V) l
  end.

Lemma elem_of_fresh V l x : x ∈ fresh V l ↔ x ∈ l ∧ x ∉ V.
Proof.
  revert V. induction l as [|y l IH]; intros V; cbn; [set_solver|].
  case_decide; [rewrite IH; set_solver|]. rewrite elem_of_cons, IH.
  destruct (decide (x = y)); set_solver.
Qed.

Lemma fresh_nodup V l : NoDup (fresh V l).
Proof.
  revert V. induction l as [|y l IH]; intros V; cbn; [constructor|]. case_decide; [done|].
  constructor; [|done]. rewrite elem_of_fresh. set_solver.
Qed.

(** The depth of a node, with [dist] the distances assigned so far. *)
Definition dep (dist : gmap Id nat) (x : Id) : nat := default 0 (dist !! x).

(** Assign [k] to the nodes of [l]. *)
Definition assign {A} (k : A) (l : list Id) (dist : gmap Id A) : gmap Id A :=
  foldr (λ x, <[x := k]>) dist l.

Lemma assign_lookup {A} (k : A) l dist x :
  assign k l dist !! x = if decide (x ∈ l) then Some k else dist !! x.
Proof.
  induction l as [|y l IH]; [by rewrite decide_False by set_solver|].
  change (assign k (y :: l) dist) with (<[y := k]> (assign k l dist)).
  destruct (decide (x = y)) as [->|Hne].
  - rewrite lookup_insert_eq, decide_True by set_solver. done.
  - rewrite lookup_insert_ne, IH by done. repeat case_decide; set_solver.
Qed.

Lemma dep_assign_old k l dist x : x ∉ l → dep (assign k l dist) x = dep dist x.
Proof. intros Hx. unfold dep. by rewrite assign_lookup, decide_False. Qed.
Lemma dep_assign_new k l dist x : x ∈ l → dep (assign k l dist) x = k.
Proof. intros Hx. unfold dep. by rewrite assign_lookup, decide_True. Qed.

Lemma StronglySorted_app_intro {A} (R : A → A → Prop) (l1 l2 : list A) :
  StronglySorted R l1 → StronglySorted R l2 → (∀ x y, x ∈ l1 → y ∈ l2 → R x y) →
  StronglySorted R (l1 ++ l2).
Proof.
  induction 1 as [|x l1 H1 IH Hx]; intros H2 HR; [done|]. cbn. constructor; [apply IH; set_solver|].
  apply Forall_app. split; [done|]. apply Forall_forall. intros y Hy. apply HR; set_solver.
Qed.

Lemma StronglySorted_const {A} (f : A → nat) c (l : list A) :
  (∀ x, x ∈ l → f x = c) → StronglySorted (λ x y, f x ≤ f y) l.
Proof.
  induction l as [|x l IH]; intros Hf; constructor; [apply IH; set_solver|].
  apply Forall_forall. intros y Hy. rewrite !Hf by set_solver. done.
Qed.

Section Queue.
Context (next : Id → list Id) (start : Id) (limit : option nat).

Definition below (k : nat) : Prop := match limit with Some b => k < b | None => True end.
Definition within (k : nat) : Prop := match limit with Some b => k ≤ b | None => True end.
#[export] Instance below_dec k : Decision (below k).
Proof. unfold below. destruct limit; apply _. Defined.
#[export] Instance within_dec k : Decision (within k).
Proof. unfold within. destruct limit; apply _. Defined.

Lemma below_within k : below k ↔ within (S k).
Proof. unfold below, within. destruct limit; lia || done. Qed.
Lemma within_le j k : j ≤ k → within k → within j.
Proof. unfold within. destruct limit; lia || done. Qed.

(** [done] have been expanded, [queue] wait; [dist] has them all. *)
Record bfs_inv (dist : gmap Id nat) (done queue : list Id) : Prop := mk_bfs_inv {
  bi_dom : ∀ x, is_Some (dist !! x) ↔ x ∈ done ++ queue;
  bi_nodup : NoDup (done ++ queue);
  bi_start : dist !! start = Some 0;
  bi_path : ∀ x k, dist !! x = Some k → nsteps (edge_to next) k start x ∧ within k;
  bi_sorted : StronglySorted (λ x y, dep dist x ≤ dep dist y) (done ++ queue);
  bi_span : ∀ h rest x, queue = h :: rest → x ∈ done ++ queue → dep dist x ≤ S (dep dist h);
  bi_closed : ∀ x m, x ∈ done → below (dep dist x) → m ∈ next x →
    ∃ k, dist !! m = Some k ∧ k ≤ S (dep dist x);
}.

Lemma bfs_init : bfs_inv {[start := 0]} [] [start].
Proof.
  split; cbn.
  - intros x. rewrite lookup_singleton_is_Some, list_elem_of_singleton. split; congruence.
  - apply NoDup_singleton.
  - apply lookup_singleton_eq.
  - intros x k [<- <-]%lookup_singleton_Some. split; [constructor|]. unfold within. destruct limit; [lia|done].
  - repeat constructor.
  - intros h rest x [= <- <-] ->%list_elem_of_singleton. lia.
  - intros x m Hx. by apply elem_of_nil in Hx.
Qed.

(** Expanding the front of the queue keeps the invariant. *)
Lemma bfs_step dist done n queue new :
  bfs_inv dist done (n :: queue) →
  new = (if decide (below (dep dist n)) then fresh (dom dist) (next n) else []) →
  bfs_inv (assign (S (dep dist n)) new dist) (done ++ [n]) (queue ++ new).
Proof.
  intros [Hdom Hnd Hst Hpath Hsort Hspan Hclosed] Hnew.
  set (k := dep dist n) in *.
  assert (Hin : ∀ x, x ∈ new → x ∉ done ++ n :: queue ∧ x ∈ next n ∧ below k).
  { intros x Hx. subst new. case_decide; [|by apply elem_of_nil in Hx].
    apply elem_of_fresh in Hx as [Hx Hd]. split_and!; [|done|done].
    rewrite <-Hdom. by rewrite elem_of_dom in Hd. }
  assert (Hndn : NoDup new) by (subst new; case_decide; [apply fresh_nodup|constructor]).
  assert (Hn : dist !! n = Some k).
  { unfold k, dep. destruct (proj2 (Hdom n)) as [kn ->]; [set_solver|done]. }
  assert (Happ : (done ++ [n]) ++ queue ++ new = (done ++ n :: queue) ++ new) by (by rewrite <-!app_assoc).
  assert (Hold : ∀ x, x ∈ done ++ n :: queue → dep (assign (S k) new dist) x = dep dist x).
  { intros x Hx. apply dep_assign_old. intros Hx'. by apply Hin in Hx' as [[] _]. }
  assert (Hub : ∀ x, x ∈ done ++ n :: queue → dep dist x ≤ S k) by (intros x Hx; by eapply Hspan).
  assert (Hlb : ∀ x, x ∈ queue → k ≤ dep dist x).
  { intros x Hx. apply StronglySorted_app_r, StronglySorted_inv in Hsort as [_ Hall].
    rewrite Forall_forall in Hall. by apply Hall. }
  split.
  - intros x. rewrite Happ, assign_lookup, elem_of_app, <-Hdom. destruct (decide (x ∈ new)); naive_solver.
  - rewrite Happ. apply NoDup_app. split_and!; [done| |done]. intros x Hx Hx'. by apply Hin in Hx' as [[] _].
  - rewrite assign_lookup. rewrite decide_False; [done|]. intros Hx. apply Hin in Hx as [Hx _].
    apply Hx, Hdom. eauto.
  - intros x j. rewrite assign_lookup. destruct (decide (x ∈ new)) as [Hx|_]; [|by apply Hpath]. intros [= <-].
    apply Hin in Hx as (_ & Hx & Hb). apply Hpath in Hn as [Hsteps _]. split.
    + by eapply nsteps_r.
    + by apply below_within.
  - rewrite Happ. apply StronglySorted_app_intro.
    + eapply StronglySorted_impl_in; [|exact Hsort]. intros x y Hx Hy. cbn. by rewrite !Hold.
    + apply (StronglySorted_const _ (S k)). apply dep_assign_new.
    + intros x y Hx Hy. rewrite (Hold x Hx), (dep_assign_new _ _ _ y Hy). auto.
  - intros h rest x Hq. rewrite Happ, elem_of_app. intros Hx.
    assert (Hh : k ≤ dep (assign (S k) new dist) h).
    { assert (h ∈ queue ++ new) as [Hh|Hh]%elem_of_app by (rewrite Hq; left).
      - rewrite Hold by set_solver. by apply Hlb.
      - rewrite dep_assign_new by done. lia. }
    destruct Hx as [Hx|Hx]; [rewrite Hold by done; specialize (Hub x Hx); lia|].
    rewrite dep_assign_new by done. lia.
  - intros x m Hx Hb Hm. assert (Hx' : x ∈ done ++ n :: queue) by set_solver.
    rewrite Hold in Hb |- * by done. rewrite assign_lookup.
    apply elem_of_app in Hx as [Hx| ->%list_elem_of_singleton].
    + destruct (Hclosed x m Hx Hb Hm) as (j & Hj & Hle).
      rewrite decide_False; [eauto|]. intros Hmn. apply Hin in Hmn as [Hmn _]. apply Hmn, Hdom. eauto.
    + fold k in Hb |- *. destruct (decide (m ∈ new)) as [Hmn|Hmn]; [eauto|].
      assert (Hd : is_Some (dist !! m)).
      { apply elem_of_dom. destruct (decide (m ∈ dom dist)) as [|Hnd']; [done|]. exfalso. apply Hmn.
        subst new. rewrite decide_True by done. by apply elem_of_fresh. }
      pose proof (proj1 (Hdom m) Hd) as Hmq. destruct Hd as [j Hj]. exists j. split; [done|].
      specialize (Hub m Hmq). unfold dep in Hub at 1. rewrite Hj in Hub. done.
Qed.

(** When the queue is empty everything within reach is assigned. *)
Lemma bfs_reaches dist done j y :
  bfs_inv dist done [] → nsteps (edge_to next) j start y → within j →
  ∃ i, dist !! y = Some i ∧ i ≤ j.
Proof.
  intros [Hdom Hnd Hst Hpath Hsort Hspan Hclosed]. rewrite app_nil_r in Hdom. revert y.
  induction j as [|j IH]; intros y Hy Hw.
  - inversion Hy; subst. eauto.
  - apply nsteps_inv_r in Hy as (z & Hz & Hzy). destruct (IH z Hz) as (i & Hi & Hle).
    { eapply within_le; [|exact Hw]. lia. }
    assert (Hdep : dep dist z = i) by (unfold dep; by rewrite Hi).
    destruct (Hclosed z y) as (i' & Hi' & Hle').
    + apply Hdom. eauto.
    + rewrite Hdep. apply below_within. eapply within_le; [|exact Hw]. lia.
    + done.
    + exists i'. split; [done|]. lia.
Qed.

(** And the assigned distances are exact. *)
Lemma bfs_exact dist done x k :
  bfs_inv dist done [] →
  dist !! x = Some k ↔
  nsteps (edge_to next) k start x ∧ within k ∧ ∀ j, nsteps (edge_to next) j start x → k ≤ j.
Proof.
  intros Hinv. pose proof (bi_path _ _ _ Hinv) as Hpath. split.
  - intros Hk. destruct (Hpath _ _ Hk) as [Hs Hw]. split_and!; [done|done|]. intros j Hj.
    destruct (decide (k ≤ j)) as [|Hlt]; [done|].
    destruct (bfs_reaches dist done j x Hinv Hj) as (i & Hi & Hle); [eapply within_le; [|exact Hw]; lia|].
    simplify_eq. done.
  - intros (Hs & Hw & Hmin). destruct (bfs_reaches dist done k x Hinv Hs Hw) as (i & Hi & Hle).
    destruct (Hpath _ _ Hi) as [Hsi _]. apply Hmin in Hsi. by replace k with i by lia.
Qed.

Lemma fresh_length_bound dist done n queue new bound :
  bfs_inv dist (done ++ [n]) (queue ++ new) → (∀ x, x ∈ done ++ n :: queue ++ new → index x < bound) →
  length done + S (length queue + length new) ≤ bound.
Proof.
  intros Hinv Hb. pose proof (bi_nodup _ _ _ Hinv) as Hnd. rewrite <-app_assoc in Hnd.
  apply (NoDup_index_length _ bound) in Hnd; [|done].
  rewrite ?length_app in Hnd. cbn in Hnd. rewrite ?length_app in Hnd. lia.
Qed.
End Queue.

(** ** The walks keep it *)

(** A table indexed by node holds what the map [m] holds. *)
Definition tabled {A} (table : list (option A)) (bound : nat) (m : gmap Id A) : Prop :=
  length table = bound ∧ ∀ n : Id, index n < bound → table !! index n = Some (m !! n).

Lemma tabled_ext {A} (table : list (option A)) bound m m' :
  (∀ x, m !! x = m' !! x) → tabled table bound m → tabled table bound m'.
Proof. intros Hm [Hl H]. split; [done|]. intros n Hn. by rewrite <-Hm, H. Qed.

Lemma tabled_empty {A} bound : tabled (replicate bound (None : option A)) bound ∅.
Proof.
  split; [apply length_replicate|]. intros n Hn. by rewrite lookup_replicate_2, lookup_empty.
Qed.

Lemma tabled_get {A} (table : list (option A)) bound m n :
  tabled table bound m → index n < bound → vget table (index n) = Ok (m !! n).
Proof. intros [_ H] Hn. by apply vget_eq, H. Qed.

Lemma tabled_set {A} (table : list (option A)) bound m n x :
  tabled table bound m → index n < bound →
  vset table (index n) (Some x) = Ok (<[index n := Some x]> table) ∧
  tabled (<[index n := Some x]> table) bound (<[n := x]> m).
Proof.
  intros [Hl H] Hn. split; [apply vset_lt; lia|]. split; [by rewrite length_insert|].
  intros k Hk. destruct (decide (k = n)) as [->|Hne].
  - rewrite list_lookup_insert_eq by lia. by rewrite lookup_insert_eq.
  - rewrite list_lookup_insert_ne by (unfold index; intros ?%N2Nat.inj; congruence).
    by rewrite lookup_insert_ne, H by done.
Qed.

(** Assigning in front or behind is the same. *)
Lemma assign_cons_lookup {A} (k : A) x l dist y :
  assign k l (<[x := k]> dist) !! y = assign k (x :: l) dist !! y.
Proof.
  rewrite !assign_lookup. destruct (decide (y = x)) as [->|Hne].
  - rewrite lookup_insert_eq. rewrite (decide_True (P := x ∈ x :: l)) by set_solver. by case_decide.
  - rewrite lookup_insert_ne by done.
    destruct (decide (y ∈ l)); [by rewrite decide_True by set_solver|by rewrite decide_False by set_solver].
Qed.

Section Loops.
Context {G : Type} {HG : GraphView G} (g : G) (s : shape) (HV : Views g s) (d : TraversalDirection).
Abbreviation bound := (sh_bound s).
Abbreviation nx := (sh_next s d).

Lemma expand_distances k l dist distances discovered queue :
  tabled distances bound dist → (∀ n, n ∈ l → index n < bound) →
  ∃ distances',
    rfold (λ '(distances, discovered, queue) next,
        entry ← vget distances (index next);
        match entry with
        | Some _ => mret (distances, discovered, queue)
        | None =>
            distances ← vset distances (index next) (Some (k + 1));
            mret (distances, discovered ++ [next], queue ++ [next])
        end) (distances, discovered, queue) l =
      Ok (distances', discovered ++ fresh (dom dist) l, queue ++ fresh (dom dist) l) ∧
    tabled distances' bound (assign (S k) (fresh (dom dist) l) dist).
Proof.
  revert dist distances discovered queue. induction l as [|x l IH]; intros dist distances discovered queue Ht Hl.
  { exists distances. cbn. by rewrite !app_nil_r. }
  assert (Hx : index x < bound) by (apply Hl; left). cbn [rfold fresh].
  rewrite (tabled_get _ _ _ _ Ht Hx). rsimpl. destruct (dist !! x) as [j|] eqn:Hd.
  - rewrite decide_True by (apply elem_of_dom; eauto). rsimpl. apply IH; [done|set_solver].
  - rewrite decide_False by (by apply not_elem_of_dom).
    destruct (tabled_set _ _ _ _ (k + 1) Ht Hx) as [-> Ht']. rsimpl.
    replace (<[x := k + 1]> dist) with (<[x := S k]> dist) in Ht' by (by rewrite Nat.add_1_r).
    destruct (IH (<[x := S k]> dist) (<[index x:=Some (k + 1)]> distances) (discovered ++ [x]) (queue ++ [x]))
      as (T & HT & HT'); [done|set_solver|].
    rewrite dom_insert_L in HT, HT'. rewrite HT. exists T. rewrite <-!app_assoc. split; [done|].
    eapply tabled_ext; [|exact HT']. intros y. by apply assign_cons_lookup.
Qed.

Lemma expand_visited l V visited queue :
  marked visited bound V → (∀ n, n ∈ l → index n < bound) →
  ∃ visited',
    rfold (λ '(visited, queue) next,
        v ← vget visited (index next);
        if (v : bool) then mret (visited, queue)
        else visited ← vset visited (index next) true; mret (visited, queue ++ [next]))
      (visited, queue) l = Ok (visited', queue ++ fresh V l) ∧
    marked visited' bound (V ∪ list_to_set (fresh V l)).
Proof.
  revert V visited queue. induction l as [|x l IH]; intros V visited queue Hm Hl.
  { exists visited. cbn. rewrite app_nil_r. split; [done|]. by replace (V ∪ ∅) with V by set_solver. }
  assert (Hx : index x < bound) by (apply Hl; left). cbn [rfold fresh].
  rewrite (marked_get _ _ _ _ Hm Hx). rsimpl. destruct (bool_decide_reflect (x ∈ V)) as [HxV|HxV].
  - rewrite decide_True by done. rsimpl. apply IH; [done|set_solver].
  - rewrite decide_False by done. destruct (marked_set _ _ _ _ Hm Hx) as [-> Hm']. rsimpl.
    destruct (IH ({[x]} ∪ V) (<[index x:=true]> visited) (queue ++ [x])) as (T & HT & HT'); [done|set_solver|].
    rewrite HT. exists T. rewrite <-app_assoc. split; [done|].
    cbn. replace (V ∪ ({[x]} ∪ list_to_set (fresh ({[x]} ∪ V) l)))
      with ({[x]} ∪ V ∪ list_to_set (fresh ({[x]} ∪ V) l)) by set_solver. done.
Qed.

Lemma dom_assign (k : nat) l (dist : gmap Id nat) : dom (assign k l dist) = dom dist ∪ list_to_set l.
Proof.
  apply set_eq. intros x. rewrite elem_of_union, elem_of_list_to_set, !elem_of_dom, assign_lookup.
  destruct (decide (x ∈ l)); naive_solver.
Qed.

(** Every node a walk meets is a node of the view. *)
Lemma bfs_nodes limit dist done n queue new :
  (∀ x, x ∈ done ++ n :: queue → x ∈ sh_nodes s) →
  new = (if decide (below limit (dep dist n)) then fresh (dom dist) (nx n) else []) →
  ∀ x, x ∈ (done ++ [n]) ++ queue ++ new → x ∈ sh_nodes s.
Proof.
  intros Hq -> x. rewrite <-app_assoc. cbn. rewrite !elem_of_app, !elem_of_cons, elem_of_app.
  intros [Hx|[->|[Hx|Hx]]]; [set_solver..|]. case_decide; [|by apply elem_of_nil in Hx].
  apply elem_of_fresh in Hx as [Hx _]. eapply (nodes_next g s HV d n); [set_solver|done].
Qed.

Lemma bfs_done_bound limit start dist done n queue :
  bfs_inv nx start limit dist done (n :: queue) → (∀ x, x ∈ done ++ n :: queue → x ∈ sh_nodes s) →
  length done < bound.
Proof.
  intros Hinv Hq. pose proof (bi_nodup _ _ _ _ _ _ Hinv) as Hnd.
  apply (NoDup_index_length _ bound) in Hnd; [|intros x Hx; by eapply nodes_bound, Hq].
  rewrite length_app in Hnd. cbn in Hnd. lia.
Qed.

Lemma bounded_loop_spec start limit fuel dist done queue distances :
  bfs_inv nx start limit dist done queue → tabled distances bound dist →
  (∀ x, x ∈ done ++ queue → x ∈ sh_nodes s) → bound < fuel + length done →
  ∃ T dist' o, bounded_loop fuel d g limit distances (done ++ queue) queue = Ok (T, o) ∧
    bfs_inv nx start limit dist' o [] ∧ tabled T bound dist' ∧ ∀ x, x ∈ o → x ∈ sh_nodes s.
Proof.
  revert dist done queue distances. induction fuel as [|fuel IH]; intros dist done queue distances Hinv Ht Hq Hf.
  { destruct queue as [|n queue]; [|pose proof (bfs_done_bound _ _ _ _ _ _ Hinv Hq); lia].
    pose proof (bi_nodup _ _ _ _ _ _ Hinv) as Hnd. rewrite app_nil_r in Hnd, Hq.
    apply (NoDup_index_length _ bound) in Hnd; [|intros x Hx; by eapply nodes_bound, Hq]. lia. }
  cbn [bounded_loop]. destruct queue as [|n queue].
  { rewrite app_nil_r in *. exists distances, dist, done. done. }
  assert (Hn : n ∈ sh_nodes s) by (apply Hq; set_solver). pose proof (nodes_bound g s HV n Hn) as Hb.
  destruct (proj2 (bi_dom _ _ _ _ _ _ Hinv n)) as [k Hk]; [set_solver|].
  assert (Hdep : dep dist n = k) by (unfold dep; by rewrite Hk).
  rewrite (tabled_get _ _ _ _ Ht Hb), Hk. rsimpl. cbn [expect]. rsimpl.
  assert (Hcond : (match limit with Some limit => bool_decide (limit ≤ k) | None => false end) =
                  negb (bool_decide (below limit k))).
  { unfold below. destruct limit as [b|]; [|by rewrite bool_decide_true].
    apply eq_true_iff_eq. rewrite negb_true_iff, bool_decide_eq_true, bool_decide_eq_false. lia. }
  rewrite Hcond. destruct (bool_decide_reflect (below limit k)) as [Hbl|Hbl]; rsimpl.
  - rewrite (vw_next (g := g) d n Hn). rsimpl.
    destruct (expand_distances k (nx n) dist distances (done ++ n :: queue) queue Ht) as (T & -> & HT).
    { intros m Hm. eapply nodes_bound, nodes_next; done. }
    rsimpl. set (new := fresh (dom dist) (nx n)) in *.
    assert (Hnew : new = if decide (below limit (dep dist n)) then fresh (dom dist) (nx n) else [])
      by (by rewrite Hdep, decide_True).
    pose proof (bfs_step nx start limit dist done n queue new Hinv Hnew) as Hinv'. rewrite Hdep in Hinv'.
    destruct (IH _ (done ++ [n]) (queue ++ new) T Hinv' HT) as (T' & dist' & o & Hl & Hr).
    + by eapply bfs_nodes.
    + rewrite length_app. cbn. lia.
    + exists T', dist', o. rewrite <-app_assoc in Hl |- *. done.
  - assert (Hnew : [] = if decide (below limit (dep dist n)) then fresh (dom dist) (nx n) else [])
      by (by rewrite Hdep, decide_False).
    pose proof (bfs_step nx start limit dist done n queue [] Hinv Hnew) as Hinv'. rewrite app_nil_r in Hinv'.
    destruct (IH dist (done ++ [n]) queue distances) as (T' & dist' & o & Hl & Hr); [done|done| | |].
    + rewrite <-app_assoc. done.
    + rewrite length_app. cbn. lia.
    + exists T', dist', o. rewrite <-app_assoc in Hl. done.
Qed.

Lemma bounded_spec start limit :
  start ∈ sh_nodes s →
  ∃ T dist o, breadth_first_bounded_with d g start limit = Ok (T, o) ∧
    bfs_inv nx start limit dist o [] ∧ tabled T bound dist ∧ ∀ x, x ∈ o → x ∈ sh_nodes s.
Proof.
  intros Hs. unfold breadth_first_bounded_with. rewrite (vw_bound (g := g) (s := s)).
  destruct (tabled_set _ bound ∅ start 0 (tabled_empty bound)) as [-> Ht]; [by eapply nodes_bound|]. rsimpl.
  apply (bounded_loop_spec start limit (S bound) {[start := 0]} [] [start]); [apply bfs_init|done| |cbn; lia].
  set_solver.
Qed.

Lemma breadth_first_loop_spec start fuel dist done queue visited :
  bfs_inv nx start None dist done queue → marked visited bound (dom dist) →
  (∀ x, x ∈ done ++ queue → x ∈ sh_nodes s) → bound < fuel + length done →
  ∃ dist' o, breadth_first_loop fuel d g visited done queue = Ok o ∧ bfs_inv nx start None dist' o [].
Proof.
  revert dist done queue visited. induction fuel as [|fuel IH]; intros dist done queue visited Hinv Hm Hq Hf.
  { destruct queue as [|n queue]; [|pose proof (bfs_done_bound _ _ _ _ _ _ Hinv Hq); lia].
    pose proof (bi_nodup _ _ _ _ _ _ Hinv) as Hnd. rewrite app_nil_r in Hnd, Hq.
    apply (NoDup_index_length _ bound) in Hnd; [|intros x Hx; by eapply nodes_bound, Hq]. lia. }
  cbn [breadth_first_loop]. destruct queue as [|n queue]; [by exists dist, done|].
  assert (Hn : n ∈ sh_nodes s) by (apply Hq; set_solver).
  rewrite (vw_next (g := g) d n Hn). rsimpl.
  destruct (expand_visited (nx n) (dom dist) visited queue Hm) as (T & -> & HT).
  { intros m Hmn. eapply nodes_bound, nodes_next; done. }
  rsimpl. set (new := fresh (dom dist) (nx n)) in *.
  assert (Hnew : new = if decide (below None (dep dist n)) then fresh (dom dist) (nx n) else []) by done.
  pose proof (bfs_step nx start None dist done n queue new Hinv Hnew) as Hinv'.
  destruct (IH _ (done ++ [n]) (queue ++ new) T Hinv') as (dist' & o & Hl & Hr); [| | |by exists dist', o].
  - by rewrite dom_assign.
  - by eapply bfs_nodes.
  - rewrite length_app. cbn. lia.
Qed.

Lemma breadth_first_spec start :
  start ∈ sh_nodes s →
  ∃ dist o, breadth_first g start d = Ok o ∧ bfs_inv nx start None dist o [].
Proof.
  intros Hs. unfold breadth_first. rewrite (vw_in_bound g s start _ HV Hs). rsimpl.
  rewrite (vw_bound (g := g) (s := s)).
  destruct (marked_set _ bound ∅ start (marked_empty bound)) as [-> Hm]; [by eapply nodes_bound|]. rsimpl.
  apply (breadth_first_loop_spec start (S bound) {[start := 0]} [] [start]); [apply bfs_init| |set_solver|cbn; lia].
  rewrite dom_singleton_L. by replace {[start]} with ({[start]} ∪ ∅ : gset Id) by set_solver.
Qed.

(** ** Shortest paths *)

(** Each step of [l] is an edge. *)
Fixpoint chain (l : list Id) : Prop :=
  match l with
  | x :: l' => match l' with y :: _ => y ∈ nx x ∧ chain l' | [] => True end
  | [] => True
  end.

(** [pm] points from every assigned node but the start to one a level above. *)
Record prev_inv (start : Id) (dist : gmap Id nat) (pm : gmap Id Id) : Prop := mk_prev_inv {
  pi_some : ∀ x, is_Some (dist !! x) → x ≠ start → is_Some (pm !! x);
  pi_edge : ∀ x y, pm !! x = Some y →
    x ∈ nx y ∧ ∃ k, dist !! y = Some k ∧ dist !! x = Some (S k);
}.

(** A level holds at least one node, so no depth reaches the number of nodes. *)
Definition depth_ok (dist : gmap Id nat) (l : list Id) : Prop := ∀ x, x ∈ l → dep dist x < length l.

Lemma expand_previous (n : Id) (l : list Id) (V : gset Id) previous (pm : gmap Id Id) visited queue :
  tabled previous bound pm → marked visited bound V → (∀ n, n ∈ l → index n < bound) →
  ∃ previous' visited',
    rfold (λ '(previous, visited, queue) next,
        v ← vget visited (index next);
        if (v : bool) then mret (previous, visited, queue)
        else
          visited ← vset visited (index next) true;
          previous ← vset previous (index next) (Some n);
          mret (previous, visited, queue ++ [next])) (previous, visited, queue) l =
      Ok (previous', visited', queue ++ fresh V l) ∧
    tabled previous' bound (assign n (fresh V l) pm) ∧
    marked visited' bound (V ∪ list_to_set (fresh V l)).
Proof.
  revert V previous pm visited queue. induction l as [|x l IH]; intros V previous pm visited queue Ht Hm Hl.
  { exists previous, visited. cbn. rewrite app_nil_r. split_and!; [done|done|].
    by replace (V ∪ ∅) with V by set_solver. }
  assert (Hx : index x < bound) by (apply Hl; left). cbn [rfold fresh].
  rewrite (marked_get _ _ _ _ Hm Hx). rsimpl. destruct (bool_decide_reflect (x ∈ V)) as [HxV|HxV].
  - rewrite decide_True by done. rsimpl. apply IH; [done|done|set_solver].
  - rewrite decide_False by done. destruct (marked_set _ _ _ _ Hm Hx) as [-> Hm']. rsimpl.
    destruct (tabled_set _ _ _ _ n Ht Hx) as [-> Ht']. rsimpl.
    destruct (IH ({[x]} ∪ V) (<[index x:=Some n]> previous) (<[x:=n]> pm) (<[index x:=true]> visited) (queue ++ [x]))
      as (P & T & HT & HP & HT'); [done|done|set_solver|].
    rewrite HT. exists P, T. rewrite <-app_assoc. split_and!; [done| |].
    + eapply tabled_ext; [|exact HP]. intros y. by apply assign_cons_lookup.
    + cbn. by replace (V ∪ ({[x]} ∪ list_to_set (fresh ({[x]} ∪ V) l)))
        with ({[x]} ∪ V ∪ list_to_set (fresh ({[x]} ∪ V) l)) by set_solver.
Qed.

Section Step.
Context (start n : Id) (dist : gmap Id nat) (done queue new : list Id).
Context (Hinv : bfs_inv nx start None dist done (n :: queue)) (Hnew : new = fresh (dom dist) (nx n)).
Abbreviation dist' := (assign (A := nat) (S (dep dist n)) new dist).

Lemma step_front : dist !! n = Some (dep dist n).
Proof.
  destruct (proj2 (bi_dom _ _ _ _ _ _ Hinv n)) as [k Hk]; [set_solver|]. unfold dep. by rewrite Hk.
Qed.

Lemma step_old x k : dist !! x = Some k → dist' !! x = Some k.
Proof.
  intros Hx. rewrite assign_lookup, decide_False; [done|]. rewrite Hnew, elem_of_fresh, elem_of_dom.
  intros [_ []]. eauto.
Qed.

Lemma prev_step (pm : gmap Id Id) : prev_inv start dist pm → prev_inv start dist' (assign n new pm).
Proof.
  intros [Hsome Hedge]. split.
  - intros x. rewrite !assign_lookup. case_decide; [by eauto|]. apply Hsome.
  - intros x y. rewrite assign_lookup. case_decide as Hx.
    + intros [= <-]. rewrite Hnew, elem_of_fresh in Hx. split; [by apply Hx|].
      exists (dep dist n). split; [by apply step_old, step_front|].
      rewrite assign_lookup, decide_True; [done|]. by rewrite Hnew, elem_of_fresh.
    + intros Hp. destruct (Hedge _ _ Hp) as (He & k & Hy & Hk). split; [done|].
      exists k. split; by apply step_old.
Qed.

Lemma depth_step :
  depth_ok dist (done ++ n :: queue) → depth_ok dist' ((done ++ [n]) ++ queue ++ new).
Proof.
  intros Hd x Hx. assert (Happ : (done ++ [n]) ++ queue ++ new = (done ++ n :: queue) ++ new)
    by (by rewrite <-!app_assoc).
  rewrite Happ in Hx |- *. rewrite length_app. unfold dep. rewrite assign_lookup. case_decide as Hn.
  - assert (0 < length new) by (destruct new; [by apply elem_of_nil in Hn|cbn; lia]).
    specialize (Hd n ltac:(set_solver)). unfold dep in Hd. cbn. unfold dep. lia.
  - apply elem_of_app in Hx as [Hx|Hx]; [|done]. specialize (Hd x Hx). unfold dep in Hd. lia.
Qed.
End Step.

(** The front of the queue has its exact distance already. *)
Lemma front_exact start n dist done queue j :
  bfs_inv nx start None dist done (n :: queue) → nsteps (edge_to nx) j start n → dep dist n ≤ j.
Proof.
  intros Hinv Hj. pose proof Hinv as [Hdom Hnd Hst Hpath Hsort Hspan Hclosed].
  destruct (decide (dep dist n ≤ j)) as [|Hlt]; [done|]. exfalso.
  assert (Hdone : ∀ x k, dist !! x = Some k → k < dep dist n → x ∈ done).
  { intros x k Hx Hk. assert (Hin : x ∈ done ++ n :: queue) by (apply Hdom; eauto).
    apply elem_of_app in Hin as [|Hin]; [done|]. exfalso.
    apply StronglySorted_app_r, StronglySorted_inv in Hsort as [_ Hall]. rewrite Forall_forall in Hall.
    assert (Hdx : dep dist x = k) by (unfold dep; by rewrite Hx).
    apply elem_of_cons in Hin as [->|Hin]; [lia|]. apply Hall in Hin. lia. }
  assert (Hreach : ∀ i y, nsteps (edge_to nx) i start y → i ≤ dep dist n → ∃ k, dist !! y = Some k ∧ k ≤ i).
  { induction i as [|i IH]; intros y Hy Hi.
    - inversion Hy; subst. eauto.
    - apply nsteps_inv_r in Hy as (z & Hz & Hzy). destruct (IH z Hz) as (k & Hk & Hle); [lia|].
      assert (Hdz : dep dist z = k) by (unfold dep; by rewrite Hk).
      destruct (Hclosed z y) as (k' & Hk' & Hle'); [eapply Hdone; [done|lia]|done|done|].
      exists k'. split; [done|lia]. }
  destruct (Hreach j n Hj) as (k & Hk & Hle); [lia|]. unfold dep in Hlt. rewrite Hk in Hlt. cbn in Hlt. lia.
Qed.

Lemma rebuild_path_spec start dist pm previous limit done queue :
  bfs_inv nx start limit dist done queue → prev_inv start dist pm → tabled previous bound pm →
  (∀ x, x ∈ done ++ queue → x ∈ sh_nodes s) →
  ∀ k fuel current rest, dist !! current = Some k → k < fuel → chain (current :: rest) →
  ∃ p, rebuild_path fuel previous start current (current :: rest) = Ok (Some p) ∧
    head p = Some start ∧ chain p ∧ length p = k + length (current :: rest) ∧
    last p = last (current :: rest).
Proof.
  intros Hinv [Hsome Hedge] Ht Hq. pose proof Hinv as [Hdom Hnd Hst Hpath Hsort Hspan Hclosed].
  induction k as [|k IH]; intros fuel current rest Hk Hf Hc; destruct fuel as [|fuel]; try lia; cbn [rebuild_path].
  - apply Hpath in Hk as [Hk _]. inversion Hk; subst. rewrite decide_True by done. by eexists.
  - rewrite decide_False by (intros ->; congruence).
    assert (Hb : index current < bound) by (eapply nodes_bound, Hq, Hdom; [done|eauto]).
    rewrite (tabled_get _ _ _ _ Ht Hb). rsimpl.
    destruct (Hsome current) as [y Hy]; [eauto|intros ->; congruence|]. rewrite Hy.
    destruct (Hedge _ _ Hy) as (He & k' & Hk' & Hkk). simplify_eq.
    destruct (IH fuel y (current :: rest) Hk') as (p & Hp & Hh & Hcp & Hlen & Hlast); [lia|by split|].
    exists p. split_and!; [done|done|done| |done]. cbn in Hlen |- *. lia.
Qed.

Lemma shortest_loop_spec start goal fuel dist done queue previous pm visited :
  bfs_inv nx start None dist done queue → prev_inv start dist pm → depth_ok dist (done ++ queue) →
  tabled previous bound pm → marked visited bound (dom dist) →
  (∀ x, x ∈ done ++ queue → x ∈ sh_nodes s) → goal ∉ done → bound < fuel + length done →
  ∃ r, shortest_loop fuel d g start goal previous visited queue = Ok r ∧
    match r with
    | Some p => head p = Some start ∧ last p = Some goal ∧ chain p ∧
        ∀ j, nsteps (edge_to nx) j start goal → length p ≤ S j
    | None => ¬ rtc (edge_to nx) start goal
    end.
Proof.
  revert dist done queue previous pm visited.
  induction fuel as [|fuel IH]; intros dist done queue previous pm visited Hinv Hp Hd Ht Hm Hq Hg Hf.
  { destruct queue as [|n queue]; [|pose proof (bfs_done_bound _ _ _ _ _ _ Hinv Hq); lia].
    pose proof (bi_nodup _ _ _ _ _ _ Hinv) as Hnd. rewrite app_nil_r in Hnd, Hq.
    apply (NoDup_index_length _ bound) in Hnd; [|intros x Hx; by eapply nodes_bound, Hq]. lia. }
  cbn [shortest_loop]. destruct queue as [|n queue].
  { exists None. split; [done|]. intros (j & Hj)%rtc_nsteps.
    destruct (bfs_reaches _ _ _ _ _ j goal Hinv Hj) as (i & Hi & _); [done|].
    apply Hg. rewrite <-(app_nil_r done). apply (bi_dom _ _ _ _ _ _ Hinv). eauto. }
  assert (Hn : n ∈ sh_nodes s) by (apply Hq; set_solver).
  pose proof (step_front start n dist done queue Hinv) as Hfront.
  case_decide as Hng.
  - subst n. destruct (rebuild_path_spec _ _ _ _ _ _ _ Hinv Hp Ht Hq (dep dist goal) (S (length previous)) goal [] Hfront)
      as (p & Hr & Hh & Hcp & Hlen & Hl); [|done|].
    { assert (Hlt : dep dist goal < length (done ++ goal :: queue)) by (apply Hd; set_solver).
      pose proof (bi_nodup _ _ _ _ _ _ Hinv) as Hnd.
      apply (NoDup_index_length _ bound) in Hnd; [|intros x Hx; by eapply nodes_bound, Hq].
      destruct Ht as [-> _]. lia. }
    exists (Some p). split; [done|]. split_and!; [done|done|done|]. intros j Hj.
    pose proof (front_exact _ _ _ _ _ _ Hinv Hj). cbn in Hlen. lia.
  - rewrite (vw_next (g := g) d n Hn). rsimpl.
    destruct (expand_previous n (nx n) (dom dist) previous pm visited queue Ht Hm) as (P & T & -> & HP & HT).
    { intros m Hmn. eapply nodes_bound, nodes_next; done. }
    rsimpl. set (new := fresh (dom dist) (nx n)) in *.
    assert (Hnew : new = if decide (below None (dep dist n)) then fresh (dom dist) (nx n) else []) by done.
    eapply (IH _ (done ++ [n]) (queue ++ new)).
    + exact (bfs_step nx start None dist done n queue new Hinv Hnew).
    + by eapply prev_step.
    + by eapply depth_step.
    + done.
    + by rewrite dom_assign.
    + by eapply bfs_nodes.
    + set_solver.
    + rewrite length_app. cbn. lia.
Qed.

Lemma shortest_path_spec start goal :
  start ∈ sh_nodes s → goal ∈ sh_nodes s →
  ∃ r, shortest_path g start goal d = Ok r ∧
    match r with
    | Some p => head p = Some start ∧ last p = Some goal ∧ chain p ∧
        ∀ j, nsteps (edge_to nx) j start goal → length p ≤ S j
    | None => ¬ rtc (edge_to nx) start goal
    end.
Proof.
  intros Hs Hg. unfold shortest_path. rewrite !(vw_in_bound g s _ _ HV) by done. rsimpl.
  rewrite (vw_bound (g := g) (s := s)).
  destruct (marked_set _ bound ∅ start (marked_empty bound)) as [-> Hm]; [by eapply nodes_bound|]. rsimpl.
  apply (shortest_loop_spec start goal (S bound) {[start := 0]} [] [start] _ ∅).
  - apply bfs_init.
  - split; [|by intros ? ? ?%lookup_empty_Some]. intros x [k [<- _]%lookup_singleton_Some] []. done.
  - intros x ->%list_elem_of_singleton. unfold dep. rewrite lookup_singleton_eq. cbn. lia.
  - apply tabled_empty.
  - rewrite dom_singleton_L. by replace {[start]} with ({[start]} ∪ ∅ : gset Id) by set_solver.
  - set_solver.
  - set_solver.
  - cbn. lia.
Qed.
End Loops.

(** ** Meeting points *)

(** A [filter_map] over nodes that reads two tables. *)
Definition meets {A} (mk : Id → nat → nat → A) (T1 T2 : list (option nat)) (l : list Id) : list A :=
  omap (λ n, x ← T1 !! index n; y ← T2 !! index n;
             x ← x; y ← y; Some (mk n x y)) l.

Lemma meets_fold {A} (mk : Id → nat → nat → A) T1 T2 l acc :
  (∀ n, n ∈ l → index n < length T1 ∧ index n < length T2) →
  rfold (λ acc node,
    x ← vget T1 (index node);
    y ← vget T2 (index node);
    mret (match x, y with Some x, Some y => acc ++ [mk node x y] | _, _ => acc end)) acc l =
  Ok (acc ++ meets mk T1 T2 l).
Proof.
  revert acc. induction l as [|n l IH]; intros acc Hl; cbn [rfold]; [by rewrite app_nil_r|].
  destruct (Hl n) as [H1 H2]; [left|].
  destruct (lookup_lt_is_Some_2 _ _ H1) as [x Hx]. destruct (lookup_lt_is_Some_2 _ _ H2) as [y Hy].
  rewrite (vget_eq _ _ _ Hx), (vget_eq _ _ _ Hy). rsimpl. rewrite IH by set_solver. f_equal.
  unfold meets. cbn. rewrite Hx, Hy. cbn.
  destruct x as [x|], y as [y|]; cbn; by rewrite <-?app_assoc.
Qed.

Lemma elem_of_meets {A} (mk : Id → nat → nat → A) T1 T2 l r :
  r ∈ meets mk T1 T2 l ↔
  ∃ n x y, n ∈ l ∧ T1 !! index n = Some (Some x) ∧ T2 !! index n = Some (Some y) ∧ r = mk n x y.
Proof.
  unfold meets. rewrite list_elem_of_omap. split.
  - intros (n & Hn & Hr). destruct (T1 !! index n) as [[x|]|] eqn:H1; [|by destruct (T2 !! index n)|done].
    destruct (T2 !! index n) as [[y|]|] eqn:H2; [|done..]. cbn in Hr. simplify_eq. eauto 10.
  - intros (n & x & y & Hn & H1 & H2 & ->). exists n. by rewrite H1, H2.
Qed.

Definition rank_le (x y : nat * Id) : Prop := x.1 < y.1 ∨ (x.1 = y.1 ∧ (x.2 ≤ y.2)%N).

(** The minimum is one of the candidates, and no candidate ranks below it. *)
Lemma min_ranked_spec l :
  match min_ranked l with
  | Some m => m ∈ l ∧ ∀ y, y ∈ l → rank_le m y
  | None => l = []
  end.
Proof.
  unfold min_ranked. destruct l as [|x l]; [done|].
  cut (foldl (λ best y, if rank_less best y then best else y) x l ∈ x :: l ∧
       ∀ y, y ∈ x :: l → rank_le (foldl (λ best y, if rank_less best y then best else y) x l) y); [done|].
  revert x. induction l as [|z l IH]; intros x; cbn [foldl].
  { split; [left|]. intros y ->%list_elem_of_singleton. right. lia. }
  unfold rank_less at 2 4. destruct (bool_decide_reflect (x.1 < z.1 ∨ x.1 = z.1 ∧ (x.2 ≤ z.2)%N)) as [Hlt|Hge].
  - destruct (IH x) as [Hin Hmin]. split; [set_solver|]. intros y [->|[->|Hy]%elem_of_cons]%elem_of_cons.
    + apply Hmin. left.
    + assert (H := Hmin x ltac:(left)). unfold rank_le in *. lia.
    + apply Hmin. by right.
  - destruct (IH z) as [Hin Hmin]. split; [set_solver|]. intros y [->|Hy]%elem_of_cons; [|by apply Hmin].
    assert (H := Hmin z ltac:(left)). unfold rank_le in *. lia.
Qed.
