(* ===== verification/Reach.v ===== *)
(** * Multi-source reachability

    Models [reachable] and [reachable_in] of [graph/traverse.rs]: the walk
    marks exactly the seeds and what can be reached from them through nodes
    of the optional confining set. *)

From S2P Require Import Prelude Ids View Traverse.

Section Reachable.
Context {G : Type} {HG : GraphView G}.

(** [core::mem::replace(&mut visited\[i\], true)] *)
Definition replace_true (visited : list bool) (i : nat) : res (bool * list bool) :=
  old ← vget visited i; visited ← vset visited i true; mret (old, visited).

(** [within.is_none_or(|within| within\[next\])] *)
Definition is_none_or (within : option (list bool)) (i : nat) : res bool :=
  match within with None => mret true | Some w => vget w i end.

(** The seeding loop of [reachable_from]; the head of the list is the top. *)
Definition seed_loop (g : G) (seeds : list Id) (visited : list bool) : res (list bool * list nat) :=
  rfold (λ '(visited, stack) seed,
    _ ← assert_in_bound g seed "seed node";
    '(old, visited) ← replace_true visited (index seed);
    mret (visited, if (old : bool) then stack else index seed :: stack)) (visited, []) seeds.

(** The body of the [while] loop *)
Definition reach_expand (within : option (list bool)) (adjacent : list Id)
    (visited : list bool) (stack : list nat) : res (list bool * list nat) :=
  rfold (λ '(visited, stack) next,
    let next := index next in
    inside ← is_none_or within next;
    if (inside : bool) then
      '(old, visited) ← replace_true visited next;
      mret (visited, if (old : bool) then stack else next :: stack)
    else mret (visited, stack)) (visited, stack) adjacent.

Fixpoint reach_loop (fuel : nat) (d : TraversalDirection) (g : G) (within : option (list bool))
    (visited : list bool) (stack : list nat) : res (list bool) :=
  match fuel with
  | 0 => Stuck
  | S fuel =>
      match stack with
      | [] => mret visited
      | i :: stack =>
          adjacent ← neighbors d g (N.of_nat i);
          '(visited, stack) ← reach_expand within adjacent visited stack;
          reach_loop fuel d g within visited stack
      end
  end.

(** [reachable_from], and [reachable_in] at the direction *)
Definition reachable_in (g : G) (seeds : list Id) (d : TraversalDirection)
    (within : option (list bool)) : res (list bool) :=
  '(visited, stack) ← seed_loop g seeds (replicate (gv_node_bound g) false);
  reach_loop (S (gv_node_bound g)) d g within visited stack.

(** [reachable] *)
Definition reachable (g : G) (seeds : list Id) (d : TraversalDirection) : res (list bool) :=
  reachable_in g seeds d None.

End Reachable.

(** ** Correctness *)

Section Reachable_proofs.
Context {G : Type} {HG : GraphView G} (g : G) (s : shape) (HV : Views g s) (d : TraversalDirection).
Context (within : option (list bool)).
Context (Hwithin : match within with Some w => length w = sh_bound s | None => True end).
Abbreviation bound := (sh_bound s).

Definition inside (m : Id) : bool :=
  match within with None => true | Some w => default false (w !! index m) end.

Definition step_inside (n m : Id) : Prop := m ∈ sh_next s d n ∧ inside m = true.

Lemma is_none_or_Ok m : index m < bound → is_none_or within (index m) = Ok (inside m).
Proof.
  intros Hm. unfold is_none_or, inside. destruct within as [w|]; [|done].
  destruct (lookup_lt_is_Some_2 w (index m)) as [b Hb]; [lia|]. by rewrite (vget_eq _ _ _ Hb), Hb.
Qed.

Lemma replace_true_Ok visited V n :
  marked visited bound V → index n < bound →
  replace_true visited (index n) = Ok (bool_decide (n ∈ V), <[index n := true]> visited) ∧
  marked (<[index n := true]> visited) bound ({[n]} ∪ V).
Proof.
  intros Hm Hn. unfold replace_true. rewrite (marked_get _ _ _ _ Hm Hn). rsimpl.
  destruct (marked_set _ _ _ _ Hm Hn) as [-> Hm']. done.
Qed.

(** [V] is marked, the nodes of [stack] are still to be expanded. *)
Record reach_inv (seeds : list Id) (V : gset Id) (stack : list Id) : Prop := mk_reach_inv {
  ri_nodes : ∀ x, x ∈ V → x ∈ sh_nodes s;
  ri_stack : ∀ x, x ∈ stack → x ∈ V;
  ri_seeds : ∀ x, x ∈ seeds → x ∈ V;
  ri_from : ∀ x, x ∈ V → ∃ n, n ∈ seeds ∧ rtc step_inside n x;
  ri_closed : ∀ x m, x ∈ V → x ∉ stack → step_inside x m → m ∈ V;
}.

Lemma reach_expand_Ok adjacent V visited stack :
  marked visited bound V → (∀ m, m ∈ adjacent → index m < bound) →
  ∃ visited' fresh,
    reach_expand within adjacent visited (index <$> stack) = Ok (visited', index <$> (fresh ++ stack)) ∧
    marked visited' bound (list_to_set fresh ∪ V) ∧ NoDup fresh ∧ (∀ x, x ∈ fresh → x ∉ V) ∧
    (∀ x, x ∈ fresh → x ∈ adjacent ∧ inside x = true) ∧
    (∀ m, m ∈ adjacent → inside m = true → m ∈ list_to_set fresh ∪ V).
Proof.
  revert V visited stack. induction adjacent as [|m l IH]; intros V visited stack Hm Hl.
  { exists visited, []. cbn. replace (∅ ∪ V) with V by set_solver.
    split_and!; [done|done|constructor|set_solver..]. }
  assert (Hmb : index m < bound) by (apply Hl; left).
  unfold reach_expand. cbn [rfold]. rewrite (is_none_or_Ok m Hmb). rsimpl.
  destruct (inside m) eqn:Hin.
  - destruct (replace_true_Ok _ _ _ Hm Hmb) as [-> Hm']. rsimpl.
    destruct (bool_decide_reflect (m ∈ V)) as [HmV|HmV].
    + replace ({[m]} ∪ V) with V in Hm' by set_solver.
      destruct (IH V _ stack Hm') as (v' & fr & Hr & H1 & H2 & H3 & H4 & H5); [set_solver|].
      exists v', fr. unfold reach_expand in Hr. rewrite Hr.
      split_and!; [done|done|done|done|set_solver|].
      intros x [->|Hx]%elem_of_cons Hi; [set_solver|]. by apply H5.
    + destruct (IH ({[m]} ∪ V) _ (m :: stack) Hm') as (v' & fr & Hr & H1 & H2 & H3 & H4 & H5); [set_solver|].
      exists v', (fr ++ [m]). unfold reach_expand in Hr. rewrite fmap_cons in Hr. rewrite Hr.
      rewrite <-app_assoc. split_and!; [done| | | | |].
      * replace (list_to_set (fr ++ [m]) ∪ V) with (list_to_set fr ∪ ({[m]} ∪ V)) by set_solver. done.
      * apply NoDup_app. split_and!; [done|set_solver|apply NoDup_singleton].
      * set_solver.
      * intros x [Hx| ->%list_elem_of_singleton]%elem_of_app; [|split; [left|done]].
        destruct (H4 x Hx). split; [by right|done].
      * intros x [->|Hx]%elem_of_cons Hi; [set_solver|]. specialize (H5 x Hx Hi). set_solver.
  - rsimpl. destruct (IH V _ stack Hm) as (v' & fr & Hr & H1 & H2 & H3 & H4 & H5); [set_solver|].
    exists v', fr. unfold reach_expand in Hr. rewrite Hr.
    split_and!; [done|done|done|done|set_solver|].
    intros x [->|Hx]%elem_of_cons Hi; [congruence|]. by apply H5.
Qed.

Lemma size_bound (V : gset Id) : (∀ x, x ∈ V → x ∈ sh_nodes s) → size V ≤ bound.
Proof.
  intros H. unfold size, set_size. cbn. apply NoDup_index_length; [apply NoDup_elements|].
  intros x Hx. eapply nodes_bound, H; [done|]. by apply elem_of_elements.
Qed.

Lemma reach_loop_spec seeds fuel V visited stack :
  marked visited bound V → reach_inv seeds V stack → NoDup stack →
  length stack + (bound - size V) < fuel →
  ∃ visited' V', reach_loop fuel d g within visited (index <$> stack) = Ok visited' ∧
    marked visited' bound V' ∧ reach_inv seeds V' [].
Proof.
  revert V visited stack. induction fuel as [|fuel IH]; intros V visited stack Hm Hinv Hnd Hf; [lia|].
  cbn [reach_loop]. destruct stack as [|n stack]; [by exists visited, V|].
  rewrite fmap_cons. cbv beta iota.
  replace (N.of_nat (index n)) with n by (unfold index; by rewrite N2Nat.id).
  destruct Hinv as [Hnodes Hstack Hseeds Hfrom Hclosed].
  assert (HnV : n ∈ V) by (apply Hstack; left). pose proof (Hnodes n HnV) as Hn.
  rewrite (vw_next (g := g) d n Hn). rsimpl.
  destruct (reach_expand_Ok (sh_next s d n) V visited stack Hm) as (v' & fr & Hr & H1 & H2 & H3 & H4 & H5).
  { intros m Hmn. eapply nodes_bound, nodes_next; done. }
  rewrite Hr. rsimpl. apply NoDup_cons in Hnd as [Hni Hnd].
  assert (Hnodes' : ∀ x, x ∈ list_to_set fr ∪ V → x ∈ sh_nodes s).
  { intros x [Hx%elem_of_list_to_set|Hx]%elem_of_union; [|by apply Hnodes].
    apply H4 in Hx as [Hx _]. by eapply nodes_next. }
  apply (IH (list_to_set fr ∪ V)); [done| | |].
  - split; [done|set_solver|set_solver| |].
    + intros x [Hx%elem_of_list_to_set|Hx]%elem_of_union; [|by apply Hfrom].
      destruct (Hfrom n HnV) as (n0 & Hn0 & Hr0). exists n0. split; [done|].
      eapply rtc_r; [done|]. by apply H4 in Hx.
    + intros x m Hx Hns Hstep. destruct (decide (x = n)) as [->|Hne].
      { apply H5; apply Hstep. }
      apply elem_of_union in Hx as [Hx%elem_of_list_to_set|Hx]; [set_solver|].
      apply elem_of_union_r. apply (Hclosed x); [done|set_solver|done].
  - apply NoDup_app. split_and!; [done| |done]. intros x Hx Hxs. apply (H3 x Hx), Hstack. by right.
  - assert (Hsz : size (list_to_set fr ∪ V) = length fr + size V).
    { rewrite size_union by set_solver. by rewrite size_list_to_set. }
    pose proof (size_bound _ Hnodes'). rewrite length_app. cbn in Hf. lia.
Qed.

Lemma seed_loop_spec seeds visited :
  marked visited bound ∅ → (∀ x, x ∈ seeds → x ∈ sh_nodes s) →
  ∃ visited' stack, seed_loop g seeds visited = Ok (visited', index <$> stack) ∧
    marked visited' bound (list_to_set seeds) ∧ NoDup stack ∧ (∀ x, x ∈ stack ↔ x ∈ seeds).
Proof.
  intros Hm Hs. unfold seed_loop.
  destruct (rfold_inv (λ dn '(v, st), ∃ stack, st = index <$> stack ∧
      marked v bound (list_to_set dn) ∧ NoDup stack ∧ (∀ x : Id, x ∈ stack ↔ x ∈ dn))
    (λ '(visited, stack) seed,
      _ ← assert_in_bound g seed "seed node";
      '(old, visited) ← replace_true visited (index seed);
      mret (visited, if (old : bool) then stack else index seed :: stack)) (visited, []) seeds)
    as ([v st] & Hrun & stack & -> & Hmk & Hnd & Hel).
  - exists []. split_and!; [done|done|constructor|done].
  - intros dn x [v st] Hpre (stack & -> & Hmk & Hnd & Hel).
    assert (Hx : x ∈ sh_nodes s).
    { apply Hs. eapply elem_of_prefix; [|done]. set_solver. }
    rewrite (vw_in_bound g s x _ HV Hx). rsimpl.
    destruct (replace_true_Ok _ _ x Hmk) as [-> Hmk']; [by eapply nodes_bound|]. rsimpl.
    eexists. split; [done|]. replace (list_to_set (dn ++ [x]) : gset Id) with ({[x]} ∪ list_to_set dn : gset Id) by set_solver.
    destruct (bool_decide_reflect (x ∈ (list_to_set dn : gset Id))) as [Hd%elem_of_list_to_set|Hd];
      [exists stack|exists (x :: stack)].
    + split_and!; [done|done|done|set_solver].
    + split_and!; [done|done| |set_solver]. constructor; [set_solver|done].
  - exists v, stack. done.
Qed.

Lemma reachable_in_spec seeds :
  (∀ x, x ∈ seeds → x ∈ sh_nodes s) →
  ∃ visited, reachable_in g seeds d within = Ok visited ∧ length visited = bound ∧
    ∀ x : Id, visited !! index x = Some true ↔ ∃ n, n ∈ seeds ∧ rtc step_inside n x.
Proof.
  intros Hs. unfold reachable_in. rewrite (vw_bound (g := g) (s := s)).
  destruct (seed_loop_spec seeds _ (marked_empty bound) Hs) as (v & stack & -> & Hm & Hnd & Hel). rsimpl.
  destruct (reach_loop_spec seeds (S bound) (list_to_set seeds) v stack Hm) as (v' & V' & -> & Hm' & Hinv).
  - split; [set_solver|set_solver|set_solver| |].
    + intros x Hx%elem_of_list_to_set. by exists x.
    + intros x m Hx%elem_of_list_to_set Hns. exfalso. by apply Hns, Hel.
  - done.
  - assert (Hsz : size (list_to_set seeds : gset Id) = length stack).
    { replace (list_to_set seeds : gset Id) with (list_to_set stack : gset Id) by set_solver.
      by apply size_list_to_set. }
    pose proof (size_bound (list_to_set seeds)) as Hb. rewrite Hsz in Hb |- *.
    assert (length stack ≤ bound) by (apply Hb; set_solver). lia.
  - exists v'. destruct Hm' as [Hlen Hmk]. split_and!; [done|done|]. intros x.
    assert (HV' : x ∈ V' ↔ ∃ n, n ∈ seeds ∧ rtc step_inside n x).
    { split; [apply Hinv|]. intros (n & Hn & Hr). apply (ri_seeds _ _ _ Hinv) in Hn.
      induction Hr as [|y z w Hyz Hr IH]; [done|]. apply IH. apply (ri_closed _ _ _ Hinv y); [done|apply not_elem_of_nil|done]. }
    rewrite <-HV'. split.
    + intros Hx. pose proof (lookup_lt_Some _ _ _ Hx) as Hlt. rewrite Hmk in Hx by lia.
      injection Hx as Hx. by apply bool_decide_eq_true in Hx.
    + intros Hx. rewrite Hmk; [by rewrite bool_decide_true|]. eapply nodes_bound, (ri_nodes _ _ _ Hinv); done.
Qed.
End Reachable_proofs.
