(* ===== verification/Topo.v ===== *)
(** * Topological order

    Models [topological_sort] of [graph/traverse.rs], Kahn's algorithm over a
    view: it returns an order of all live nodes in which every edge goes
    forward exactly when the live nodes have no cycle. *)

From S2P Require Import Prelude Ids View Traverse.

Section Topological.
Context {G : Type} {HG : GraphView G}.

(** The counting loop *)
Definition count_incoming (g : G) (ids : list Id) : res (list nat * nat) :=
  rfold (λ '(counts, live) node,
    preds ← gv_predecessors g node;
    counts ← vset counts (index node) (length preds);
    mret (counts, S live)) (replicate (gv_node_bound g) 0, 0) ids.

(** [filter(|node| incoming_counts\[node.index()\] == 0).collect()] *)
Definition initial_queue (counts : list nat) (ids : list Id) : res (list Id) :=
  rfold (λ queue node,
    c ← vget counts (index node);
    mret (if decide (c = 0) then queue ++ [node] else queue)) [] ids.

(** The inner loop over the successors of a dequeued node *)
Definition release (successors : list Id) (counts : list nat) (queue : list Id)
    : res (list nat * list Id) :=
  rfold (λ '(counts, queue) successor,
    c ← vget counts (index successor);
    if decide (c = 0) then Panic "attempt to subtract with overflow"
    else
      counts ← vset counts (index successor) (c - 1);
      mret (counts, if decide (c - 1 = 0) then queue ++ [successor] else queue))
    (counts, queue) successors.

Fixpoint topo_loop (fuel : nat) (g : G) (counts : list nat) (order queue : list Id) : res (list Id) :=
  match fuel with
  | 0 => Stuck
  | S fuel =>
      match queue with
      | [] => mret order
      | node :: queue =>
          succ ← gv_successors g node;
          '(counts, queue) ← release succ counts queue;
          topo_loop fuel g counts (order ++ [node]) queue
      end
  end.

(** [topological_sort] *)
Definition topological_sort (g : G) : res (option (list Id)) :=
  ids ← gv_node_ids g;
  '(counts, live) ← count_incoming g ids;
  queue ← initial_queue counts ids;
  order ← topo_loop (S (gv_node_bound g)) g counts [] queue;
  mret (if decide (length order = live) then Some order else None).

End Topological.

(** ** Cycles in a finite set *)

(** If every node of a nonempty finite set has a predecessor in it, the set
    holds a cycle. *)
Lemma predecessors_cycle (R : Id → Id → Prop) (X : gset Id) :
  X ≠ ∅ → (∀ x, x ∈ X → ∃ y, y ∈ X ∧ R y x) → ∃ x, x ∈ X ∧ tc R x x.
Proof.
  intros Hne Hpred.
  assert (Hlong : ∀ n x, x ∈ X → ∃ l, length l = n ∧ (∀ y, y ∈ l → y ∈ X) ∧
            ∀ a y b, x :: l = a ++ y :: b → ∀ z, z ∈ b → tc R z y).
  { induction n as [|n IH]; intros x Hx.
    - exists []. split_and!; [done|set_solver|]. intros a y b Heq z Hz.
      destruct a as [|a0 a]; [injection Heq as _ <-; by apply elem_of_nil in Hz|].
      injection Heq as _ Heq. by destruct a.
    - destruct (Hpred x Hx) as (y & Hy & Hyx). destruct (IH y Hy) as (l & Hlen & Hl & Htc).
      exists (y :: l). split_and!; [cbn; lia|set_solver|]. intros a w b Heq z Hz.
      destruct a as [|a0 a].
      + injection Heq as <- <-. apply elem_of_cons in Hz as [->|Hz]; [by apply tc_once|].
        eapply tc_r; [|exact Hyx]. by apply (Htc [] y l).
      + injection Heq as _ Heq. by eapply Htc. }
  apply set_choose_L in Hne as [x Hx].
  destruct (Hlong (size X) x Hx) as (l & Hlen & Hl & Htc).
  assert (Hdup : ¬ NoDup (x :: l)).
  { intros Hnd. assert (Hsz : size (list_to_set (x :: l) : gset Id) ≤ size X).
    { apply subseteq_size. set_solver. }
    rewrite size_list_to_set in Hsz by done. cbn in Hsz. lia. }
  cut (∃ a y b, x :: l = a ++ y :: b ∧ y ∈ b).
  { intros (a & y & b & Heq & Hy). exists y. split; [|by eapply Htc].
    assert (y ∈ x :: l) by (rewrite Heq; set_solver). set_solver. }
  clear -Hdup. revert Hdup. generalize (x :: l) as L. induction L as [|y L IH]; intros Hdup.
  { by destruct Hdup; constructor. }
  destruct (decide (y ∈ L)) as [Hy|Hy]; [by exists [], y, L|].
  destruct IH as (a & z & b & -> & Hz); [intros Hnd; by apply Hdup; constructor|].
  by exists (y :: a), z, b.
Qed.

(** ** Correctness *)

Section Topological_proofs.
Context {G : Type} {HG : GraphView G} (g : G) (s : shape) (HV : Views g s).
Abbreviation bound := (sh_bound s).
Abbreviation nodes := (sh_nodes s).
Abbreviation nx := (sh_next s Outgoing).

Lemma pending_zero (w : Id → nat) l (V : gset Id) :
  pending w l V = 0 ↔ ∀ u, u ∈ l → u ∉ V → w u = 0.
Proof.
  unfold pending. induction l as [|x l IH]; cbn; [set_solver|].
  rewrite Nat.eq_add_0, IH. split.
  - intros [Hx Hl] u [->|Hu]%elem_of_cons HuV; [by rewrite decide_False in Hx|auto].
  - intros H. split; [case_decide; [done|apply H; set_solver]|]. intros u Hu. apply H. by right.
Qed.

(** Edges into [v] from nodes not yet emitted. *)
Definition waiting (D : gset Id) (v : Id) : nat := pending (λ u, occurrences v (nx u)) nodes D.

Lemma occurrences_total (l m : list Id) :
  NoDup l → (∀ x, x ∈ m → x ∈ l) → sum_list_with (λ u, occurrences u m) l = length m.
Proof.
  intros Hnd. induction m as [|x m IH]; intros Hm.
  - clear. induction l as [|u l IH]; [done|]. cbn [sum_list_with]. by rewrite IH.
  - assert (Hone : ∀ k : list Id, NoDup k → sum_list_with (λ u, if decide (x = u) then 1 else 0) k =
              if decide (x ∈ k) then 1 else 0).
    { induction k as [|u k IHk]; intros Hk; [by rewrite decide_False by set_solver|].
      apply NoDup_cons in Hk as [Hu Hk]. cbn [sum_list_with]. rewrite IHk by done.
      destruct (decide (x = u)) as [->|Hxu].
      - rewrite decide_False by done. by rewrite decide_True by set_solver.
      - destruct (decide (x ∈ k)); [by rewrite decide_True by set_solver|by rewrite decide_False by set_solver]. }
    assert (Hsplit : ∀ k : list Id, sum_list_with (λ u, occurrences u (x :: m)) k =
              sum_list_with (λ u, if decide (x = u) then 1 else 0) k + sum_list_with (λ u, occurrences u m) k).
    { induction k as [|u k IHk]; [done|]. cbn [sum_list_with]. rewrite IHk, occurrences_cons. lia. }
    rewrite Hsplit, Hone, IH by (done || set_solver). rewrite decide_True by set_solver. cbn. lia.
Qed.

Lemma waiting_empty v : v ∈ nodes → waiting ∅ v = length (sh_next s Incoming v).
Proof.
  intros Hv. pose proof (vw_ok (g := g)) as Hok. unfold waiting. rewrite pending_empty.
  rewrite <-(occurrences_total nodes (sh_next s Incoming v)) by
    (first [apply Hok|intros x Hx; by eapply (so_live _ Hok)]).
  assert (Hin : ∀ u, u ∈ nodes → u ∈ nodes) by done. revert Hin.
  generalize nodes at 1 3 4 as l. induction l as [|u l IH]; intros Hl; [done|]. cbn.
  rewrite IH by set_solver. rewrite (so_mirror _ Hok u v); [done|set_solver|done].
Qed.

Definition counted (counts : list nat) (f : Id → nat) : Prop :=
  length counts = bound ∧ ∀ v, v ∈ nodes → counts !! index v = Some (f v).

Lemma counted_set counts f v c :
  counted counts f → v ∈ nodes →
  counted (<[index v := c]> counts) (λ x, if decide (x = v) then c else f x).
Proof.
  intros [Hl Hc] Hv. split; [by rewrite length_insert|]. intros x Hx.
  destruct (decide (x = v)) as [->|Hne].
  - apply list_lookup_insert_eq. rewrite Hl. by eapply nodes_bound.
  - rewrite list_lookup_insert_ne by (unfold index; intros ?%N2Nat.inj; congruence). by apply Hc.
Qed.

(** [Q] is what is emitted or queued while [rest] of [n]'s successors are
    still to be released, [D] being emitted before [n]. *)
Record topo_inv (D : gset Id) (rest Q : list Id) : Prop := mk_topo_inv {
  ti_nodes : ∀ x, x ∈ Q → x ∈ nodes;
  ti_nodup : NoDup Q;
  ti_zero : ∀ v, v ∈ nodes → v ∈ Q ↔ waiting D v + occurrences v rest = 0;
  ti_before : ∀ u v, u ∈ nodes → v ∈ Q → v ∈ nx u → before Q u v;
}.

Lemma waiting_zero D u v : waiting D v = 0 → u ∈ nodes → v ∈ nx u → u ∈ D.
Proof.
  intros Hw Hu Hv. destruct (decide (u ∈ D)) as [|HuD]; [done|]. exfalso.
  apply (proj1 (pending_zero _ _ _) Hw u Hu) in HuD. apply occurrences_elem in Hv. lia.
Qed.

Lemma release_spec D counts pre queue l :
  (∀ x, x ∈ l → x ∈ nodes) → (∀ x, x ∈ D → x ∈ pre) →
  counted counts (λ v, waiting D v + occurrences v l) → topo_inv D l (pre ++ queue) →
  ∃ counts' queue', release l counts queue = Ok (counts', queue') ∧
    counted counts' (waiting D) ∧ topo_inv D [] (pre ++ queue').
Proof.
  intros Hl HD. revert counts queue. induction l as [|x l IH]; intros counts queue Hc Hinv.
  { exists counts, queue. split_and!; [done| |done]. destruct Hc as [Hlen Hc]. split; [done|].
    intros v Hv. rewrite Hc by done. f_equal. cbn. lia. }
  assert (Hx : x ∈ nodes) by (apply Hl; left).
  assert (Hcx : counts !! index x = Some (S (waiting D x + occurrences x l))).
  { rewrite (proj2 Hc x Hx), occurrences_cons, decide_True by done. f_equal. lia. }
  unfold release. cbn [rfold]. rewrite (vget_eq _ _ _ Hcx). rsimpl. rewrite decide_False by lia.
  rewrite vset_lt by (by eapply lookup_lt_Some). rsimpl.
  replace (S (waiting D x + occurrences x l) - 1) with (waiting D x + occurrences x l) by lia.
  fold (release l (<[index x:=waiting D x + occurrences x l]> counts)
          (if decide (waiting D x + occurrences x l = 0) then queue ++ [x] else queue)).
  destruct Hinv as [Hnodes Hnd Hzero Hbefore].
  assert (Hz : ∀ v, waiting D v + occurrences v (x :: l) =
            (if decide (x = v) then 1 else 0) + (waiting D v + occurrences v l)).
  { intros v. rewrite occurrences_cons. lia. }
  assert (Hxq : x ∉ pre ++ queue).
  { rewrite (Hzero x Hx), Hz, decide_True by done. lia. }
  apply IH; [set_solver| |].
  - pose proof (counted_set _ _ x (waiting D x + occurrences x l) Hc Hx) as [Hlen Hc'].
    split; [done|]. intros v Hv. rewrite (Hc' v Hv). f_equal. case_decide as Hvx; [by subst|].
    rewrite occurrences_cons, decide_False by congruence. done.
  - case_decide as Hx0.
    + assert (Hw : waiting D x = 0) by lia. rewrite app_assoc. split.
      * intros y [Hy| ->%list_elem_of_singleton]%elem_of_app; auto.
      * apply NoDup_app. split_and!; [done|set_solver|apply NoDup_singleton].
      * intros v Hv. rewrite elem_of_app, list_elem_of_singleton, (Hzero v Hv), Hz.
        destruct (decide (x = v)) as [<-|Hne]; [lia|]. split; [lia|]. intros ?. left. lia.
      * intros u v Hu [Hv| ->%list_elem_of_singleton]%elem_of_app Huv; [by apply before_app_l, Hbefore|].
        apply before_mid; [|by apply list_elem_of_singleton]. apply elem_of_app. left.
        apply HD. by eapply waiting_zero.
    + split; [done|done| |done]. intros v Hv. rewrite (Hzero v Hv), Hz.
      destruct (decide (x = v)) as [<-|Hne]; lia.
Qed.

Lemma topo_loop_spec fuel counts order queue :
  counted counts (waiting (list_to_set order)) → topo_inv (list_to_set order) [] (order ++ queue) →
  bound < fuel + length order →
  ∃ o, topo_loop fuel g counts order queue = Ok o ∧ topo_inv (list_to_set o) [] o.
Proof.
  revert counts order queue. induction fuel as [|fuel IH]; intros counts order queue Hc Hinv Hf.
  { pose proof (ti_nodup _ _ _ Hinv) as Hnd. apply (NoDup_index_length _ bound) in Hnd.
    - rewrite length_app in Hnd. lia.
    - intros x Hx. by eapply nodes_bound, (ti_nodes _ _ _ Hinv). }
  cbn [topo_loop]. destruct queue as [|n queue].
  { rewrite app_nil_r in Hinv. by exists order. }
  pose proof Hinv as [Hnodes Hnd Hzero Hbefore].
  assert (Hn : n ∈ nodes) by (apply Hnodes; set_solver).
  assert (HnD : n ∉ (list_to_set order : gset Id)).
  { rewrite elem_of_list_to_set. intros Ho. apply NoDup_app in Hnd as (_ & Hdisj & _).
    apply (Hdisj n Ho). left. }
  pose proof (vw_next (g := g) Outgoing n Hn) as Hsucc. cbn in Hsucc. rewrite Hsucc. rsimpl.
  assert (Hw : ∀ v, waiting (list_to_set order) v =
            waiting ({[n]} ∪ list_to_set order) v + occurrences v (nx n)).
  { intros v. unfold waiting.
    rewrite (pending_visit _ _ (list_to_set order) n) by (first [apply (nodes_nodup g s HV)|done]). lia. }
  destruct (release_spec ({[n]} ∪ list_to_set order) counts (order ++ [n]) queue (nx n))
    as (counts' & queue' & -> & Hc' & Hinv').
  - intros x Hx. by eapply nodes_next.
  - set_solver.
  - destruct Hc as [Hlen Hc]. split; [done|]. intros v Hv. by rewrite (Hc v Hv), Hw.
  - rewrite <-app_assoc. split; [done|done| |done]. intros v Hv.
    change ([n] ++ queue) with (n :: queue). rewrite (Hzero v Hv), Hw. cbn. rewrite Nat.add_0_r. done.
  - rsimpl. replace ({[n]} ∪ list_to_set order : gset Id) with (list_to_set (order ++ [n]) : gset Id)
      in Hc', Hinv' by set_solver.
    apply (IH counts' (order ++ [n]) queue'); [done|done|]. rewrite length_app. cbn. lia.
Qed.

Lemma count_incoming_spec :
  ∃ counts, count_incoming g nodes = Ok (counts, length nodes) ∧ counted counts (waiting ∅).
Proof.
  unfold count_incoming. rewrite (vw_bound (g := g) (s := s)).
  destruct (rfold_inv (λ dn '(counts, live), live = length dn ∧ length counts = bound ∧
      ∀ v : Id, v ∈ dn → counts !! index v = Some (waiting ∅ v))
    (λ '(counts, live) node,
      preds ← gv_predecessors g node;
      counts ← vset counts (index node) (length preds);
      mret (counts, S live)) (replicate bound 0, 0) nodes) as ([counts live] & Hrun & -> & Hlen & Hc).
  - split_and!; [done|apply length_replicate|set_solver].
  - intros dn x [counts live] Hpre (-> & Hlen & Hc).
    assert (Hx : x ∈ nodes) by (eapply elem_of_prefix; [|done]; set_solver).
    pose proof (vw_next (g := g) Incoming x Hx) as Hp. cbn in Hp. rewrite Hp. rsimpl.
    rewrite vset_lt by (rewrite Hlen; by eapply nodes_bound). rsimpl.
    eexists. split; [done|]. rewrite length_app, length_insert. split_and!; [cbn; lia|done|].
    intros v Hv. destruct (decide (v = x)) as [->|Hne].
    + rewrite list_lookup_insert_eq by (rewrite Hlen; by eapply nodes_bound).
      by rewrite (waiting_empty x Hx).
    + rewrite list_lookup_insert_ne by (unfold index; intros ?%N2Nat.inj; congruence). apply Hc. set_solver.
  - exists counts. split; [exact Hrun|]. by split.
Qed.

Lemma initial_queue_spec counts :
  counted counts (waiting ∅) →
  initial_queue counts nodes = Ok (filter (λ v, waiting ∅ v = 0) nodes).
Proof.
  intros [Hlen Hc]. unfold initial_queue.
  cut (∀ l acc, (∀ x, x ∈ l → x ∈ nodes) → rfold (λ queue node,
      c ← vget counts (index node);
      mret (if decide (c = 0) then queue ++ [node] else queue)) acc l =
    Ok (acc ++ filter (λ v, waiting ∅ v = 0) l)); [intros Hcut; by apply Hcut|].
  induction l as [|x l IH]; intros acc Hl; cbn [rfold]; [by rewrite app_nil_r|].
  rewrite (vget_eq _ _ _ (Hc x (Hl x ltac:(left)))). rsimpl. rewrite filter_cons.
  rewrite IH by set_solver. case_decide; [by rewrite <-app_assoc|done].
Qed.

Lemma topological_sort_spec :
  ∃ r, topological_sort g = Ok r ∧
    match r with
    | Some o => o ≡ₚ nodes ∧ ∀ u v, u ∈ nodes → v ∈ nx u → before o u v
    | None => ∃ x, x ∈ nodes ∧ tc (edge_to nx) x x
    end.
Proof.
  unfold topological_sort. rewrite (vw_nodes (g := g) (s := s)). rsimpl.
  destruct count_incoming_spec as (counts & -> & Hc). rsimpl.
  rewrite (initial_queue_spec counts Hc). rsimpl. rewrite (vw_bound (g := g) (s := s)).
  destruct (topo_loop_spec (S bound) counts [] (filter (λ v, waiting ∅ v = 0) nodes)) as (o & -> & Hinv).
  - done.
  - split.
    + intros x [_ Hx]%list_elem_of_filter. done.
    + apply NoDup_filter, (nodes_nodup g s HV).
    + intros v Hv. cbn. rewrite list_elem_of_filter, Nat.add_0_r. naive_solver.
    + intros u v Hu [Hw Hv]%list_elem_of_filter Huv.
      apply (waiting_zero _ u) in Hw; [set_solver|done|done].
  - cbn. lia.
  - rsimpl. destruct Hinv as [Hnodes Hnd Hzero Hbefore]. eexists. split; [done|].
    case_decide as Hlen.
    + assert (Hperm : o ≡ₚ nodes).
      { apply submseteq_length_Permutation; [by apply NoDup_submseteq|lia]. }
      split; [done|]. intros u v Hu Hv. apply Hbefore; [done| |done].
      rewrite Hperm. by eapply nodes_next.
    + destruct (predecessors_cycle (edge_to nx) (list_to_set nodes ∖ list_to_set o)) as (x & Hx & Htc).
      * intros Hempty. apply Hlen. apply Permutation_length, NoDup_Permutation; [done|apply (nodes_nodup g s HV)|].
        intros x. split; [by apply Hnodes|]. intros Hx.
        destruct (decide (x ∈ o)); [done|]. exfalso. set_solver.
      * intros x [Hx%elem_of_list_to_set Hxo]%elem_of_difference. rewrite elem_of_list_to_set in Hxo.
        rewrite (Hzero x Hx) in Hxo. cbn in Hxo. rewrite Nat.add_0_r in Hxo.
        destruct (decide (Exists (λ u, u ∉ o ∧ x ∈ nx u) nodes)) as [(u & Hu & Huo & Hxu)%Exists_exists|Hno].
        -- exists u. split; [set_solver|done].
        -- exfalso. apply Hxo. apply pending_zero. intros u Hu Huo.
           destruct (occurrences x (nx u)) eqn:E; [done|]. exfalso. apply Hno, Exists_exists. exists u.
           split_and!; [done|set_solver|]. apply occurrences_elem. lia.
      * exists x. split; [set_solver|done].
Qed.
End Topological_proofs.
