(* ===== verification/TraverseTheorems.v ===== *)
(** * Traversals: what they guarantee

    The walks of [graph/traverse.rs] over any view that keeps the contract,
    and the same walks run on a store. *)

From S2P Require Import Prelude Words Liveness Ids View EdgeViews Chains Runs Store StoreInv StoreSpec StoreView History Samples Traverse Bfs Reach Topo.

(** The exact distance of [x] from [start], within an optional limit. *)
Definition distance (s : shape) (d : TraversalDirection) (limit : option nat) (start x : Id) (k : nat) : Prop :=
  nsteps (edge_to (sh_next s d)) k start x ∧ within limit k ∧
  ∀ j, nsteps (edge_to (sh_next s d)) j start x → k ≤ j.

Section TraverseTheorems.
Context {G : Type} {HG : GraphView G} (g : G) (s : shape) (d : TraversalDirection).
Abbreviation R := (edge_to (sh_next s d)).

(** C8: depth-first preorder terminates without a panic, reports exactly the
    nodes reachable from the start, each once, in the order of the recursive
    depth-first search that visits successors in adjacency order. *)
Theorem preorder_is_depth_first start :
  Views g s → start ∈ sh_nodes s →
  ∃ o, depth_first_preorder g start d = Ok o ∧
    (∃ V, preorder (sh_next s d) ∅ [start] o V) ∧ NoDup o ∧ ∀ x, x ∈ o ↔ rtc R start x.
Proof.
  intros HV Hs. destruct (depth_first_preorder_spec g s HV d start Hs) as (o & V & Ho & Hp).
  pose proof (preorder_facts _ _ _ _ _ Hp) as Hf. exists o. split_and!; [done|by exists V|apply Hf|].
  intros x. rewrite (search_reachable _ _ _ _ x Hf). split.
  - by intros (n & ->%list_elem_of_singleton & ?).
  - intros ?. exists start. split; [left|done].
Qed.

(** C16: reverse postorder terminates without a panic, lists exactly the
    reachable nodes, each once, the start first, and puts the source of every
    edge before its target unless the target leads back to the source: on
    acyclic graphs it is a topological order. *)
Theorem reverse_postorder_is_topological start :
  Views g s → start ∈ sh_nodes s →
  ∃ o, reverse_postorder g start d = Ok o ∧ NoDup o ∧ head o = Some start ∧
    (∀ x, x ∈ o ↔ rtc R start x) ∧
    ∀ u v, u ∈ o → v ∈ sh_next s d u → ¬ rtc R v u → before o u v.
Proof.
  intros HV Hs. destruct (depth_first_postorder_spec g s HV d start Hs) as (o & V & Ho & Hp).
  pose proof (postorder_facts _ _ _ _ _ Hp) as Hf. exists (rev o).
  assert (Hin : ∀ x, x ∈ rev o ↔ x ∈ o) by (intros x; by rewrite <-(Permutation_rev o)).
  split_and!.
  - unfold reverse_postorder. by rewrite Ho.
  - rewrite <-(Permutation_rev o). apply Hf.
  - inversion Hp as [|? ? ? ? ? Hn Hl|? ? ? q1 q2 W1 ? Hn Hx Hl]; subst; [set_solver|].
    inversion Hl; subst. by rewrite rev_app_distr.
  - intros x. rewrite Hin, (search_reachable _ _ _ _ x Hf). split.
    + by intros (n & ->%list_elem_of_singleton & ?).
    + intros ?. exists start. split; [left|done].
  - intros u v Hu Hv Hno. rewrite Hin in Hu.
    destruct (postorder_edges _ _ _ _ _ Hp u v Hu Hv) as [(a & b & c & ->)|[HV'|Hr]]; [|set_solver|done].
    exists (rev c), (rev b), (rev a). rewrite rev_app_distr. cbn. rewrite rev_app_distr. cbn.
    by rewrite <-!app_assoc.
Qed.

Lemma distances_table start limit :
  Views g s → start ∈ sh_nodes s →
  ∃ T o, breadth_first_bounded_with d g start limit = Ok (T, o) ∧ length T = sh_bound s ∧
    (∀ x k, T !! index x = Some (Some k) ↔ distance s d limit start x k) ∧
    NoDup o ∧ (∀ x, x ∈ o ↔ x ∈ sh_nodes s ∧ ∃ k, distance s d limit start x k) ∧
    StronglySorted (λ x y, ∀ i j, distance s d limit start x i → distance s d limit start y j → i ≤ j) o.
Proof.
  intros HV Hs. destruct (bounded_spec g s HV d start limit Hs) as (T & dist & o & Hrun & Hinv & [Hlen HT] & Hn).
  assert (Hd : ∀ x k, dist !! x = Some k ↔ distance s d limit start x k).
  { intros x k. by rewrite (bfs_exact _ _ _ _ _ _ _ Hinv). }
  assert (Hdom : ∀ x, is_Some (dist !! x) ↔ x ∈ o).
  { intros x. by rewrite (bi_dom _ _ _ _ _ _ Hinv), app_nil_r. }
  pose proof (bi_nodup _ _ _ _ _ _ Hinv) as Hnd. pose proof (bi_sorted _ _ _ _ _ _ Hinv) as Hso.
  rewrite app_nil_r in Hnd, Hso. exists T, o. split_and!; [done|done| |done| |].
  - intros x k. rewrite <-Hd. split.
    + intros Hx. pose proof (lookup_lt_Some _ _ _ Hx) as Hlt. rewrite HT in Hx by lia. congruence.
    + intros Hx. rewrite HT; [by rewrite Hx|]. eapply nodes_bound, Hn, Hdom; eauto.
  - intros x. split.
    + intros Hx. split; [by apply Hn|]. apply Hdom in Hx as [k Hk]. exists k. by apply Hd.
    + intros [_ [k Hk%Hd]]. apply Hdom. eauto.
  - eapply StronglySorted_impl_in; [|exact Hso]. intros x y _ _ Hle i j Hi%Hd Hj%Hd.
    unfold dep in Hle. by rewrite Hi, Hj in Hle.
Qed.

(** Bounded breadth-first search assigns every node within the limit its
    exact hop count, no other node, and discovers nodes by ascending distance. *)
Theorem bounded_distances_exact start limit :
  Views g s → start ∈ sh_nodes s →
  ∃ T o, breadth_first_bounded_with d g start limit = Ok (T, o) ∧ length T = sh_bound s ∧
    (∀ x k, T !! index x = Some (Some k) ↔ distance s d limit start x k) ∧
    NoDup o ∧ (∀ x, x ∈ o ↔ ∃ k, distance s d limit start x k) ∧
    StronglySorted (λ x y, ∀ i j, distance s d limit start x i → distance s d limit start y j → i ≤ j) o.
Proof.
  intros HV Hs. destruct (distances_table start limit HV Hs) as (T & o & Hr & Hl & HT & Hnd & Ho & Hso).
  exists T, o. split_and!; [done..| |done]. intros x. rewrite Ho. split; [by intros [_ ?]|].
  intros Hk. split; [|done]. destruct Hk as (k & Hsteps & _). clear -Hsteps Hs HV.
  induction Hsteps as [|n x y z Hxy Hr IH]; [done|]. apply IH. by eapply nodes_next.
Qed.

(** Breadth-first order terminates without a panic and lists exactly the
    reachable nodes, each once, by ascending distance from the start. *)
Theorem breadth_first_by_distance start :
  Views g s → start ∈ sh_nodes s →
  ∃ o, breadth_first g start d = Ok o ∧ NoDup o ∧ (∀ x, x ∈ o ↔ rtc R start x) ∧
    StronglySorted (λ x y, ∀ i j, distance s d None start x i → distance s d None start y j → i ≤ j) o.
Proof.
  intros HV Hs. destruct (breadth_first_spec g s HV d start Hs) as (dist & o & Hrun & Hinv).
  pose proof (bi_nodup _ _ _ _ _ _ Hinv) as Hnd. pose proof (bi_sorted _ _ _ _ _ _ Hinv) as Hso.
  rewrite app_nil_r in Hnd, Hso. exists o. split_and!; [done|done| |].
  - intros x. rewrite <-(app_nil_r o), <-(bi_dom _ _ _ _ _ _ Hinv). split.
    + intros [k Hk]. apply (bi_path _ _ _ _ _ _ Hinv) in Hk as [Hk _]. by eapply rtc_nsteps_2.
    + intros [j Hj]%rtc_nsteps. destruct (bfs_reaches _ _ _ _ _ j x Hinv Hj) as (i & Hi & _); [done|eauto].
  - eapply StronglySorted_impl_in; [|exact Hso]. intros x y _ _ Hle i j Hi Hj.
    apply (bfs_exact _ _ _ _ _ x i Hinv) in Hi. apply (bfs_exact _ _ _ _ _ y j Hinv) in Hj.
    unfold dep in Hle. by rewrite Hi, Hj in Hle.
Qed.

(** [shortest_path] returns a path along edges from the start to the
    goal that no other path is shorter than, or [None] exactly when the goal
    cannot be reached. *)
Theorem shortest_path_is_shortest start goal :
  Views g s → start ∈ sh_nodes s → goal ∈ sh_nodes s →
  ∃ r, shortest_path g start goal d = Ok r ∧
    match r with
    | Some p => head p = Some start ∧ last p = Some goal ∧ chain s d p ∧
        ∀ j, nsteps R j start goal → length p ≤ S j
    | None => ¬ rtc R start goal
    end.
Proof. intros HV. by apply shortest_path_spec. Qed.

(** [reachable_in] marks exactly the seeds and the nodes reached from
    them by edges into the confining set. *)
Theorem reachable_marks_closure seeds inside_set :
  Views g s → (∀ x, x ∈ seeds → x ∈ sh_nodes s) →
  match inside_set with Some w => length w = sh_bound s | None => True end →
  ∃ visited, reachable_in g seeds d inside_set = Ok visited ∧ length visited = sh_bound s ∧
    ∀ x : Id, visited !! index x = Some true ↔
      ∃ n, n ∈ seeds ∧ rtc (λ u v, v ∈ sh_next s d u ∧ inside inside_set v = true) n x.
Proof. intros HV Hs Hw. by apply (reachable_in_spec g s HV d inside_set Hw). Qed.

(** [nearest_common_ancestor] answers a node reached from both ends with
    the smallest combined distance, the smallest identity among equals, and
    [None] exactly when no node is reached from both. *)
Theorem nearest_common_ancestor_is_nearest a b :
  Views g s → a ∈ sh_nodes s → b ∈ sh_nodes s →
  ∃ r, nearest_common_ancestor g a b d = Ok r ∧
    match r with
    | Some n => ∃ x y, distance s d None a n x ∧ distance s d None b n y ∧
        ∀ m x' y', distance s d None a m x' → distance s d None b m y' →
          x + y < x' + y' ∨ (x + y = x' + y' ∧ (n ≤ m)%N)
    | None => ∀ m x' y', distance s d None a m x' → ¬ distance s d None b m y'
    end.
Proof.
  intros HV Ha Hb. unfold nearest_common_ancestor, breadth_first_distances, breadth_first_bounded.
  rewrite !(vw_in_bound g s _ _ HV) by done. rsimpl.
  destruct (distances_table a None HV Ha) as (Ta & oa & -> & Hla & HTa & _ & Hoa & _). rsimpl. cbn [fst].
  destruct (distances_table b None HV Hb) as (Tb & ob & -> & Hlb & HTb & _ & Hob & _). rsimpl. cbn [fst].
  rewrite (vw_nodes (g := g) (s := s)). rsimpl.
  rewrite (meets_fold (λ n x y, (x + y, n)) Ta Tb) by
    (intros n Hn; rewrite Hla, Hlb; split; by eapply nodes_bound).
  rsimpl. eexists. split; [done|]. cbn [app].
  set (l := meets (λ n x y, (x + y, n)) Ta Tb (sh_nodes s)).
  assert (Hl : ∀ m x' y', distance s d None a m x' → distance s d None b m y' → (x' + y', m) ∈ l).
  { intros m x' y' Hx Hy. apply elem_of_meets. exists m, x', y'.
    assert (m ∈ oa) as Hm.
    { apply Hoa. split; [|eauto]. apply HTa in Hx.
      destruct Hy as [Hsteps _]. clear -Hsteps Hb HV.
      induction Hsteps as [|n x y z Hxy Hr IH]; [done|]. apply IH. by eapply nodes_next. }
    apply Hoa in Hm as [Hm _]. split_and!; [done|by apply HTa|by apply HTb|done]. }
  pose proof (min_ranked_spec l) as Hmin. destruct (min_ranked l) as [[c n]|]; cbn.
  - destruct Hmin as [Hin Hle]. apply elem_of_meets in Hin as (m & x & y & _ & Hx & Hy & [= -> ->]).
    exists x, y. split_and!; [by apply HTa|by apply HTb|]. intros m' x' y' Hx' Hy'.
    by apply (Hle (x' + y', m')), Hl.
  - intros m x' y' Hx Hy. specialize (Hl m x' y' Hx Hy). rewrite Hmin in Hl. by apply elem_of_nil in Hl.
Qed.

(** [common_ancestors] lists each node within the limit of both ends
    once, with both exact distances, by ascending distance from [b]. *)
Theorem common_ancestors_exact a b limit :
  Views g s → a ∈ sh_nodes s → b ∈ sh_nodes s →
  ∃ l, common_ancestors g a b d limit = Ok l ∧
    (∀ n x y, mk_CommonAncestor n x y ∈ l ↔ distance s d limit a n x ∧ distance s d limit b n y) ∧
    NoDup l ∧ StronglySorted (λ p q, ca_from_b p ≤ ca_from_b q) l.
Proof.
  intros HV Ha Hb. unfold common_ancestors, breadth_first_bounded.
  rewrite !(vw_in_bound g s _ _ HV) by done. rsimpl.
  destruct (distances_table a limit HV Ha) as (Ta & oa & -> & Hla & HTa & _). rsimpl. cbn [fst].
  destruct (distances_table b limit HV Hb) as (Tb & ob & -> & Hlb & HTb & Hnd & Hob & Hso). rsimpl.
  rewrite (meets_fold mk_CommonAncestor Ta Tb).
  2:{ intros n [Hn _]%Hob. rewrite Hla, Hlb. split; by eapply nodes_bound. }
  eexists. split; [done|]. cbn [app]. split_and!.
  - intros n x y. rewrite elem_of_meets. split.
    + intros (m & x' & y' & _ & Hx & Hy & [= -> -> ->]). split; [by apply HTa|by apply HTb].
    + intros [Hx Hy]. exists n, x, y. split_and!; [|by apply HTa|by apply HTb|done].
      apply Hob. split; [|eauto]. destruct Hy as [Hsteps _]. clear -Hsteps Hb HV.
      induction Hsteps as [|n x y z Hxy Hr IH]; [done|]. apply IH. by eapply nodes_next.
  - clear Hso Hob. induction ob as [|n ob IH]; [constructor|]. apply NoDup_cons in Hnd as [Hn Hnd].
    unfold meets. cbn. destruct (Ta !! index n ≫= _) as [r|] eqn:E; [|by apply IH].
    constructor; [|by apply IH]. fold (meets mk_CommonAncestor Ta Tb ob).
    destruct (Ta !! index n) as [[x|]|], (Tb !! index n) as [[y|]|]; try done. cbn in E. simplify_eq.
    intros (m & x' & y' & Hm & _ & _ & [= -> _ _])%elem_of_meets. done.
  - clear Hob Hnd. induction Hso as [|n ob Hso IH Hn]; [constructor|].
    unfold meets. cbn. destruct (Ta !! index n ≫= _) as [r|] eqn:E; [|by apply IH].
    constructor; [by apply IH|]. apply Forall_forall. fold (meets mk_CommonAncestor Ta Tb ob).
    destruct (Ta !! index n) as [[x|]|] eqn:H1, (Tb !! index n) as [[y|]|] eqn:H2; try done. cbn in E. simplify_eq.
    intros q (m & x' & y' & Hm & _ & Hy' & ->)%elem_of_meets. cbn. rewrite Forall_forall in Hn.
    apply (Hn m Hm); by apply HTb.
Qed.
End TraverseTheorems.

(** [topological_sort] returns an order of all live nodes in which every
    edge goes forward, or [None] exactly when some live node lies on a cycle. *)
Theorem topological_sort_or_cycle {G} {HG : GraphView G} (g : G) (s : shape) :
  Views g s →
  ∃ r, topological_sort g = Ok r ∧
    match r with
    | Some o => o ≡ₚ sh_nodes s ∧ (∀ u v, u ∈ sh_nodes s → v ∈ sh_next s Outgoing u → before o u v) ∧
        ∀ x, x ∈ sh_nodes s → ¬ tc (edge_to (sh_next s Outgoing)) x x
    | None => ∃ x, x ∈ sh_nodes s ∧ tc (edge_to (sh_next s Outgoing)) x x
    end.
Proof.
  intros HV. destruct (topological_sort_spec g s HV) as (r & Hr & Hs). exists r. split; [done|].
  destruct r as [o|]; [|done]. destruct Hs as [Hp Hb]. split_and!; [done|done|].
  assert (Hnd : NoDup o) by (rewrite Hp; apply (nodes_nodup g s HV)).
  assert (Hlt : ∀ x y, x ∈ sh_nodes s → tc (edge_to (sh_next s Outgoing)) x y → before o x y).
  { intros x y Hx Htc. induction Htc as [x y Hxy|x y z Hxy Htc IH]; [by apply Hb|].
    assert (Hy : y ∈ sh_nodes s) by (by eapply nodes_next).
    eapply before_trans; [done|by apply Hb|by apply IH]. }
  intros x Hx Htc. destruct (Hlt x x Hx Htc) as (a & b & c & ->).
  apply NoDup_app in Hnd as (_ & _ & [Hni _]%NoDup_cons). apply Hni. set_solver.
Qed.

(** Collecting predecessors by scanning the successors of every node finds
    exactly the predecessors a view that keeps the contract reports, parallel
    edges once per edge. *)
Theorem scanned_predecessors_agree {G} `{HG : GraphView G} (g : G) (s : shape) (n : Id) :
  Views g s → n ∈ sh_nodes s →
  ∃ scanned reported, scan_predecessors g n = Ok scanned ∧
    neighbors Incoming g n = Ok reported ∧ scanned ≡ₚ reported.
Proof.
  intros HV Hn. destruct (scan_predecessors_perm g s n HV Hn) as (l & Hl & Hp).
  exists l, (sh_next s Incoming n). split; [done|]. split; [by apply vw_next|done].
Qed.

(** ** The walks on the sample store *)

Lemma preorder_is_depth_first_witness :
  ∃ s, Views sample_store s ∧ 3%N ∈ sh_nodes s ∧
    ∃ o, depth_first_preorder sample_store 3%N Outgoing = Ok o ∧ NoDup o.
Proof.
  destruct sample_view as (s & HV & _ & _ & H3 & _). exists s. split; [exact HV|]. split; [exact H3|].
  destruct (preorder_is_depth_first sample_store s Outgoing 3%N HV H3) as (o & Ho & _ & Hnd & _).
  exists o. split; [exact Ho|exact Hnd].
Defined.

Lemma reverse_postorder_is_topological_witness :
  ∃ s, Views sample_store s ∧ 3%N ∈ sh_nodes s ∧
    ∃ o, reverse_postorder sample_store 3%N Outgoing = Ok o ∧ head o = Some 3%N.
Proof.
  destruct sample_view as (s & HV & _ & _ & H3 & _). exists s. split; [exact HV|]. split; [exact H3|].
  destruct (reverse_postorder_is_topological sample_store s Outgoing 3%N HV H3) as (o & Ho & _ & Hh & _).
  exists o. split; [exact Ho|exact Hh].
Defined.

Lemma bounded_distances_exact_witness :
  ∃ s, Views sample_store s ∧ 3%N ∈ sh_nodes s ∧
    ∃ T o, breadth_first_bounded_with Outgoing sample_store 3%N (Some 1) = Ok (T, o) ∧ length T = 4.
Proof.
  destruct sample_view as (s & HV & _ & _ & H3 & Hb). exists s. split; [exact HV|]. split; [exact H3|].
  destruct (bounded_distances_exact sample_store s Outgoing 3%N (Some 1) HV H3) as (T & o & Ho & Hl & _).
  exists T, o. split; [exact Ho|]. rewrite <-Hb. exact Hl.
Defined.

Lemma breadth_first_by_distance_witness :
  ∃ s, Views sample_store s ∧ 3%N ∈ sh_nodes s ∧
    ∃ o, breadth_first sample_store 3%N Outgoing = Ok o ∧ NoDup o.
Proof.
  destruct sample_view as (s & HV & _ & _ & H3 & _). exists s. split; [exact HV|]. split; [exact H3|].
  destruct (breadth_first_by_distance sample_store s Outgoing 3%N HV H3) as (o & Ho & Hnd & _).
  exists o. split; [exact Ho|exact Hnd].
Defined.

Lemma scanned_predecessors_agree_witness :
  ∃ s, Views sample_store s ∧ 2%N ∈ sh_nodes s ∧
    ∃ scanned, scan_predecessors sample_store 2%N = Ok scanned.
Proof.
  destruct sample_view as (s & HV & _ & H2 & _). exists s. split; [exact HV|]. split; [exact H2|].
  destruct (scanned_predecessors_agree sample_store s 2%N HV H2) as (l & _ & Hl & _).
  exists l. exact Hl.
Defined.

Lemma shortest_path_is_shortest_witness :
  ∃ s, Views sample_store s ∧ 3%N ∈ sh_nodes s ∧ 0%N ∈ sh_nodes s ∧
    ∃ r, shortest_path sample_store 3%N 0%N Outgoing = Ok r.
Proof.
  destruct sample_view as (s & HV & H0 & _ & H3 & _). exists s.
  split; [exact HV|]. split; [exact H3|]. split; [exact H0|].
  destruct (shortest_path_is_shortest sample_store s Outgoing 3%N 0%N HV H3 H0) as (r & Hr & _).
  exists r. exact Hr.
Defined.

Lemma reachable_marks_closure_witness :
  ∃ s, Views sample_store s ∧
    ∃ visited, reachable_in sample_store [2%N] Outgoing (Some [true; true; false; false]) = Ok visited ∧
      length visited = sh_bound s.
Proof.
  destruct sample_view as (s & HV & _ & H2 & _ & Hb). exists s. split; [exact HV|].
  destruct (reachable_marks_closure sample_store s Outgoing [2%N] (Some [true; true; false; false]) HV)
    as (v & Hv & Hl & _).
  - intros x Hx. apply list_elem_of_singleton in Hx. rewrite Hx. exact H2.
  - rewrite Hb. reflexivity.
  - exists v. split; [exact Hv|exact Hl].
Defined.

Lemma topological_sort_or_cycle_witness :
  ∃ s, Views sample_store s ∧ ∃ r, topological_sort sample_store = Ok r.
Proof.
  destruct sample_view as (s & HV & _). exists s. split; [exact HV|].
  destruct (topological_sort_or_cycle sample_store s HV) as (r & Hr & _). exists r. exact Hr.
Defined.

Lemma nearest_common_ancestor_is_nearest_witness :
  ∃ s, Views sample_store s ∧ 0%N ∈ sh_nodes s ∧ 3%N ∈ sh_nodes s ∧
    ∃ r, nearest_common_ancestor sample_store 0%N 3%N Incoming = Ok r.
Proof.
  destruct sample_view as (s & HV & H0 & _ & H3 & _). exists s.
  split; [exact HV|]. split; [exact H0|]. split; [exact H3|].
  destruct (nearest_common_ancestor_is_nearest sample_store s Incoming 0%N 3%N HV H0 H3) as (r & Hr & _).
  exists r. exact Hr.
Defined.

Lemma common_ancestors_exact_witness :
  ∃ s, Views sample_store s ∧ 0%N ∈ sh_nodes s ∧ 3%N ∈ sh_nodes s ∧
    ∃ l, common_ancestors sample_store 0%N 3%N Incoming (Some 2) = Ok l ∧ NoDup l.
Proof.
  destruct sample_view as (s & HV & H0 & _ & H3 & _). exists s.
  split; [exact HV|]. split; [exact H0|]. split; [exact H3|].
  destruct (common_ancestors_exact sample_store s Incoming 0%N 3%N (Some 2) HV H0 H3) as (l & Hl & _ & Hnd & _).
  exists l. split; [exact Hl|exact Hnd].
Defined.

(** The walks evaluate on it. *)
Example sample_walks :
  depth_first_preorder sample_store 3%N Outgoing = Ok [3; 2; 0]%N ∧
  reverse_postorder sample_store 3%N Outgoing = Ok [3; 2; 0]%N ∧
  breadth_first sample_store 0%N Incoming = Ok [0; 2; 3]%N ∧
  shortest_path sample_store 3%N 0%N Outgoing = Ok (Some [3; 2; 0]%N) ∧
  reachable_in sample_store [2%N] Outgoing (Some [true; true; false; false]) = Ok [true; false; true; false] ∧
  topological_sort sample_store = Ok None ∧
  nearest_common_ancestor sample_store 0%N 3%N Incoming = Ok (Some 2%N).
Proof. vm_compute. auto 10. Qed.
