(* ===== verification/Events.v ===== *)
(** * Traversal events

    Models [graph/search/events/depth_first.rs] and
    [graph/search/events/breadth_first.rs]: walks that hand every discovery,
    edge classification and finish to a callback, which may keep state and may
    break off. Proofs are in [EventsTheorems]. *)

From S2P Require Import Prelude Ids View Traverse.

(** [DfsEvent] *)
Module DfsEvent.
Inductive t : Type :=
  | Discover (node : Id) (depth : nat)
  | TreeEdge (from to : Id)
  | BackEdge (from to : Id)
  | ForwardOrCross (from to : Id)
  | Finish (node : Id).
End DfsEvent.

(** [DfsFrame] *)
Record DfsFrame : Type := mk_DfsFrame {
  df_node : Id;
  df_depth : nat;
  df_start : nat;
  df_cursor : nat;
}.

(** [Color] *)
Inductive Color : Type := White | Gray | Black.

(** [BfsEvent] *)
Module BfsEvent.
Inductive t : Type :=
  | Discover (node : Id) (depth : nat)
  | TreeEdge (from to : Id)
  | NonTreeEdge (from to : Id).
End BfsEvent.

(** [emit_or_break!]: hand [event] to the callback and go on with [k] unless it
    broke. The callback's own state is threaded through; it may panic. *)
Definition emit_or_break {St B E : Type} (on_event : St → E → res (St * option B)) (st : St) (event : E)
    (k : St → res (St * option B)) : res (St * option B) :=
  '(st, broke) ← on_event st event;
  match broke with
  | Some value => mret (st, Some value)
  | None => k st
  end.

(** ** Depth first *)

Section DepthFirst.
Context {G : Type} {HG : GraphView G} {St B : Type} (on_event : St → DfsEvent.t → res (St * option B)).

(** [descend!] *)
Definition descend (d : TraversalDirection) (g : G) (arena : list Id) (stack : list DfsFrame) (node : Id) (depth : nat)
    : res (list Id * list DfsFrame) :=
  adjacent ← neighbors d g node;
  mret (arena ++ adjacent, mk_DfsFrame node depth (length arena) (length arena) :: stack).

Definition step_cursor (frame : DfsFrame) : DfsFrame :=
  mk_DfsFrame (df_node frame) (df_depth frame) (df_start frame) (df_cursor frame + 1).

(** The loop of [depth_first_events_from]; the head of the list is the top of
    the stack. *)
Fixpoint depth_first_loop (fuel : nat) (d : TraversalDirection) (g : G) (st : St) (color : list Color)
    (arena : list Id) (stack : list DfsFrame) : res (St * option B) :=
  match fuel with
  | 0 => Stuck
  | S fuel =>
      match stack with
      | [] => mret (st, None)
      | frame :: rest =>
          let node := df_node frame in
          if decide (df_cursor frame < length arena) then
            successor ← vget arena (df_cursor frame);
            let stack := step_cursor frame :: rest in
            c ← vget color (index successor);
            match c with
            | White =>
                emit_or_break on_event st (DfsEvent.TreeEdge node successor) (λ st,
                  color ← vset color (index successor) Gray;
                  emit_or_break on_event st (DfsEvent.Discover successor (df_depth frame + 1)) (λ st,
                    '(arena, stack) ← descend d g arena stack successor (df_depth frame + 1);
                    depth_first_loop fuel d g st color arena stack))
            | Gray =>
                emit_or_break on_event st (DfsEvent.BackEdge node successor) (λ st,
                  depth_first_loop fuel d g st color arena stack)
            | Black =>
                emit_or_break on_event st (DfsEvent.ForwardOrCross node successor) (λ st,
                  depth_first_loop fuel d g st color arena stack)
            end
          else
            color ← vset color (index node) Black;
            emit_or_break on_event st (DfsEvent.Finish node) (λ st,
              depth_first_loop fuel d g st color (take (df_start frame) arena) rest)
      end
  end.

(** [depth_first_events], and [depth_first_events_from] at the direction *)
Definition depth_first_events (g : G) (start : Id) (d : TraversalDirection) (st : St) : res (St * option B) :=
  _ ← assert_in_bound g start "start node";
  let color := replicate (gv_node_bound g) White in
  color ← vset color (index start) Gray;
  emit_or_break on_event st (DfsEvent.Discover start 0) (λ st,
    '(arena, stack) ← descend d g [] [] start 0;
    depth_first_loop (2 + adjacency_total d g + gv_node_bound g) d g st color arena stack).
End DepthFirst.

(** ** Breadth first *)

Section BreadthFirst.
Context {G : Type} {HG : GraphView G} {St B : Type} (on_event : St → BfsEvent.t → res (St * option B)).

(** The loop over the successors of [node]: the state it goes on with, or the
    value the callback broke with. *)
Fixpoint breadth_first_edges (st : St) (discovered : list bool) (queue : list (Id * nat)) (node : Id) (depth : nat)
    (adjacent : list Id) : res (St * option B * list bool * list (Id * nat)) :=
  match adjacent with
  | [] => mret (st, None, discovered, queue)
  | successor :: adjacent =>
      seen ← vget discovered (index successor);
      if seen : bool then
        '(st, broke) ← on_event st (BfsEvent.NonTreeEdge node successor);
        match broke with
        | Some value => mret (st, Some value, discovered, queue)
        | None => breadth_first_edges st discovered queue node depth adjacent
        end
      else
        discovered ← vset discovered (index successor) true;
        '(st, broke) ← on_event st (BfsEvent.TreeEdge node successor);
        match broke with
        | Some value => mret (st, Some value, discovered, queue)
        | None =>
            '(st, broke) ← on_event st (BfsEvent.Discover successor (depth + 1));
            match broke with
            | Some value => mret (st, Some value, discovered, queue)
            | None => breadth_first_edges st discovered (queue ++ [(successor, depth + 1)]) node depth adjacent
            end
        end
  end.

(** The loop of [breadth_first_events_from] *)
Fixpoint breadth_first_loop (fuel : nat) (d : TraversalDirection) (g : G) (st : St) (discovered : list bool)
    (queue : list (Id * nat)) : res (St * option B) :=
  match fuel with
  | 0 => Stuck
  | S fuel =>
      match queue with
      | [] => mret (st, None)
      | (node, depth) :: queue =>
          adjacent ← neighbors d g node;
          '(st, broke, discovered, queue) ← breadth_first_edges st discovered queue node depth adjacent;
          match broke with
          | Some value => mret (st, Some value)
          | None => breadth_first_loop fuel d g st discovered queue
          end
      end
  end.

(** [breadth_first_events], and [breadth_first_events_from] at the direction *)
Definition breadth_first_events (g : G) (start : Id) (d : TraversalDirection) (st : St) : res (St * option B) :=
  _ ← assert_in_bound g start "start node";
  discovered ← vset (replicate (gv_node_bound g) false) (index start) true;
  emit_or_break on_event st (BfsEvent.Discover start 0) (λ st,
    breadth_first_loop (1 + gv_node_bound g) d g st discovered [(start, 0)]).
End BreadthFirst.
