(* ===== verification/EventsTheorems.v ===== *)
(** * The event walks

    What [depth_first_events] of [graph/search/events/depth_first.rs] reports,
    as a relation: the walk with its grey path and its finished nodes. The loop
    over frames and arena feeds exactly that list of events to the callback,
    and the discoveries and finishes in it are the orders of [Traverse]. The
    breadth-first walk likewise feeds a list, read off the queue of [Bfs]. *)

From S2P Require Import Prelude Ids View EdgeViews Store StoreInv StoreSpec StoreView History Samples Traverse Bfs Events.
Import DfsEvent.

(** The callback over a list of events, up to the first break or panic. *)
Fixpoint feed {St B E : Type} (on_event : St → E → res (St * option B)) (st : St) (events : list E) : res (St * option B) :=
  match events with
  | [] => mret (st, None)
  | event :: events =>
      '(st, broke) ← on_event st event;
      match broke with
      | Some value => mret (st, Some value)
      | None => feed on_event st events
      end
  end.

Lemma feed_app {St B E} (on_event : St → E → res (St * option B)) st e1 e2 :
  feed on_event st (e1 ++ e2) =
    match feed on_event st e1 with Ok (st, None) => feed on_event st e2 | r => r end.
Proof.
  revert st. induction e1 as [|e e1 IH]; intros st; cbn; [done|].
  destruct (on_event st e) as [[st' [v|]]| |]; rsimpl; [done|apply IH|done|done].
Qed.

(** ** The walk *)

Section Scan.
Context (next : Id → list Id).

(** Going through the successors [l] of the head of the grey path [P], with
    [B] finished: the events, and what is finished afterwards. *)
Inductive scan : list Id → gset Id → list Id → list DfsEvent.t → gset Id → Prop :=
  | scan_nil P B : scan P B [] [] B
  | scan_back u P B v l evs B' : v ∈ u :: P →
      scan (u :: P) B l evs B' → scan (u :: P) B (v :: l) (BackEdge u v :: evs) B'
  | scan_cross u P B v l evs B' : v ∉ u :: P → v ∈ B →
      scan (u :: P) B l evs B' → scan (u :: P) B (v :: l) (ForwardOrCross u v :: evs) B'
  | scan_tree u P B v l e1 B1 e2 B' : v ∉ u :: P → v ∉ B →
      scan (v :: u :: P) B (next v) e1 B1 → scan (u :: P) ({[v]} ∪ B1) l e2 B' →
      scan (u :: P) B (v :: l) (TreeEdge u v :: Discover v (S (length P)) :: e1 ++ Finish v :: e2) B'.

(** The whole walk. *)
Definition walked (start : Id) (evs : list DfsEvent.t) (B' : gset Id) : Prop :=
  ∃ e B, scan [start] ∅ (next start) e B ∧ evs = Discover start 0 :: e ++ [Finish start] ∧ B' = {[start]} ∪ B.

Definition discovered (evs : list DfsEvent.t) : list Id :=
  omap (λ e, match e with Discover x _ => Some x | _ => None end) evs.
Definition finished (evs : list DfsEvent.t) : list Id :=
  omap (λ e, match e with Finish x => Some x | _ => None end) evs.
(** The targets of the edges out of [u] that were classified, in order. *)
Definition classified (u : Id) (evs : list DfsEvent.t) : list Id :=
  omap (λ e, match e with
    | TreeEdge x y | BackEdge x y | ForwardOrCross x y => if decide (x = u) then Some y else None
    | _ => None end) evs.
(** Loop turns the events stand for: a discovery shares its turn. *)
Definition turns (evs : list DfsEvent.t) : nat :=
  sum_list_with (λ e, match e with Discover _ _ => 0 | _ => 1 end) evs.

Lemma discovered_app e1 e2 : discovered (e1 ++ e2) = discovered e1 ++ discovered e2.
Proof. apply omap_app. Qed.
Lemma finished_app e1 e2 : finished (e1 ++ e2) = finished e1 ++ finished e2.
Proof. apply omap_app. Qed.
Lemma classified_app u e1 e2 : classified u (e1 ++ e2) = classified u e1 ++ classified u e2.
Proof. apply omap_app. Qed.

(** The path and the finished nodes of a walk. *)
Fixpoint replay (path : list Id) (done : gset Id) (evs : list DfsEvent.t) : option (list Id * gset Id) :=
  match evs with
  | [] => Some (path, done)
  | Discover v k :: evs => if decide (k = length path ∧ v ∉ path ∧ v ∉ done) then replay (v :: path) done evs else None
  | TreeEdge u v :: evs => if decide (head path = Some u ∧ v ∉ path ∧ v ∉ done) then replay path done evs else None
  | BackEdge u v :: evs => if decide (head path = Some u ∧ v ∈ path) then replay path done evs else None
  | ForwardOrCross u v :: evs => if decide (head path = Some u ∧ v ∉ path ∧ v ∈ done) then replay path done evs else None
  | Finish v :: evs => if decide (head path = Some v) then replay (tail path) ({[v]} ∪ done) evs else None
  end.

Lemma replay_app path don e1 e2 :
  replay path don (e1 ++ e2) = '(path, don) ← replay path don e1; replay path don e2.
Proof.
  revert path don. induction e1 as [|e e1 IH]; intros path don; cbn; [done|].
  destruct e; case_decide; try done; apply IH.
Qed.

Lemma scan_replay P B l evs B' : scan P B l evs B' → replay P B evs = Some (P, B').
Proof.
  induction 1 as [|u P B v l evs B' Hv _ IH|u P B v l evs B' Hv HB _ IH|u P B v l e1 B1 e2 B' Hv HB _ IH1 _ IH2]; cbn.
  - done.
  - by rewrite decide_True.
  - by rewrite decide_True.
  - rewrite decide_True by done. rewrite decide_True by done. rewrite replay_app, IH1. cbn. by rewrite decide_True.
Qed.

(** What a scan finishes is new, off the path, and closed up to the path. *)
Record scan_facts (P : list Id) (B : gset Id) (l : list Id) (B' : gset Id) : Prop := {
  scf_grows : B ⊆ B';
  scf_off : ∀ x, x ∈ B' → x ∈ B ∨ x ∉ P;
  scf_list : ∀ x, x ∈ l → x ∈ P ∨ x ∈ B';
  scf_closed : ∀ x y, x ∈ B' → x ∉ B → y ∈ next x → y ∈ P ∨ y ∈ B';
}.

Lemma scan_facts_hold P B l evs B' : scan P B l evs B' → scan_facts P B l B'.
Proof.
  induction 1 as [|u P B v l evs B' Hv _ [H1 H2 H3 H4]|u P B v l evs B' Hv HB _ [H1 H2 H3 H4]|
    u P B v l e1 B1 e2 B' Hv HB _ [H1 H2 H3 H4] _ [K1 K2 K3 K4]].
  - split; [done|by left|by intros ? ?%elem_of_nil|done].
  - split; [done..| |done]. intros x [->|Hx]%elem_of_cons; [by left|by apply H3].
  - split; [done..| |done]. intros x [->|Hx]%elem_of_cons; [right; by apply H1|by apply H3].
  - split.
    + set_solver.
    + intros x Hx. destruct (K2 x Hx) as [Hx'|]; [|by right].
      apply elem_of_union in Hx' as [->%elem_of_singleton|Hx1]; [by right|].
      destruct (H2 x Hx1) as [|Hn]; [by left|]. right. set_solver.
    + intros x [->|Hx]%elem_of_cons; [right; apply K1; set_solver|by apply K3].
    + intros x y Hx HxB Hy. destruct (decide (x ∈ {[v]} ∪ B1)) as [Hx1|Hx1]; [|by apply (K4 x)].
      assert (Hy' : y ∈ v :: u :: P ∨ y ∈ B1).
      { apply elem_of_union in Hx1 as [->%elem_of_singleton|Hx1]; [by apply H3|by apply (H4 x)]. }
      destruct Hy' as [[->|Hy']%elem_of_cons|Hy']; [right; apply K1; set_solver|by left|right; apply K1; set_solver].
Qed.

(** Discoveries are a preorder and finishes a postorder of the search. *)
Lemma scan_orders P B l evs B' :
  scan P B l evs B' →
  preorder next (list_to_set P ∪ B) l (discovered evs) (list_to_set P ∪ B') ∧
  postorder next (list_to_set P ∪ B) l (finished evs) (list_to_set P ∪ B').
Proof.
  induction 1 as [|u P B v l evs B' Hv _ [IH1 IH2]|u P B v l evs B' Hv HB _ [IH1 IH2]|
    u P B v l e1 B1 e2 B' Hv HB _ [IH1 IH2] _ [K1 K2]]; cbn [discovered finished omap list_omap].
  - split; constructor.
  - split; (constructor; [|done]); apply elem_of_union_l, elem_of_list_to_set, Hv.
  - split; (constructor; [|done]); by apply elem_of_union_r.
  - assert (Hn : v ∉ (list_to_set (u :: P) ∪ B : gset Id)) by (rewrite elem_of_union, elem_of_list_to_set; naive_solver).
    assert (list_to_set (v :: u :: P) ∪ B = ({[v]} ∪ (list_to_set (u :: P) ∪ B) : gset Id)) as E1 by (cbn; set_solver).
    assert (list_to_set (v :: u :: P) ∪ B1 = (list_to_set (u :: P) ∪ ({[v]} ∪ B1) : gset Id)) as E2 by (cbn; set_solver).
    rewrite E1, E2 in *. split.
    + change (omap _ (e1 ++ Finish v :: e2)) with (discovered (e1 ++ Finish v :: e2)). rewrite discovered_app. by econstructor.
    + change (omap _ (e1 ++ Finish v :: e2)) with (finished (e1 ++ Finish v :: e2)). rewrite finished_app. by econstructor.
Qed.

(** Every successor of a finished node is classified, in order. *)
Lemma scan_classified u P B l evs B' :
  scan (u :: P) B l evs B' → classified u evs = l ∧
    (∀ x, x ∉ u :: P → classified x evs = if decide (x ∈ B' ∧ x ∉ B) then next x else []) ∧
    (∀ x, x ∈ P → x ≠ u → classified x evs = []).
Proof.
  remember (u :: P) as Q eqn:HQ. intros H. revert u P HQ.
  induction H as [Q B|w Q B v l evs B' Hv _ IH|w Q B v l evs B' Hv HB _ IH|w Q B v l e1 B1 e2 B' Hv HB H1 IH1 H2 IH2];
    intros u P HQ.
  - split_and!; [done| |done]. intros x _. by rewrite decide_False by naive_solver.
  - injection HQ as -> ->. destruct (IH _ _ eq_refl) as (K1 & K2 & K3). unfold classified in *. cbn. split_and!.
    + by rewrite decide_True, K1.
    + intros x Hx. rewrite decide_False by (intros ->; apply Hx; left). by apply K2.
    + intros x Hx Hne. rewrite decide_False by done. by apply K3.
  - injection HQ as -> ->. destruct (IH _ _ eq_refl) as (K1 & K2 & K3). unfold classified in *. cbn. split_and!.
    + by rewrite decide_True, K1.
    + intros x Hx. rewrite decide_False by (intros ->; apply Hx; left). by apply K2.
    + intros x Hx Hne. rewrite decide_False by done. by apply K3.
  - injection HQ as -> ->. destruct (IH1 _ _ eq_refl) as (I1 & I2 & I3), (IH2 _ _ eq_refl) as (K1 & K2 & K3).
    assert (Hcl : ∀ x, classified x (TreeEdge u v :: Discover v (S (length P)) :: e1 ++ Finish v :: e2) =
      (if decide (u = x) then [v] else []) ++ classified x e1 ++ classified x e2).
    { intros x. unfold classified. cbn. rewrite omap_app. cbn. by case_decide. }
    pose proof (scan_facts_hold _ _ _ _ _ H1) as F1. pose proof (scan_facts_hold _ _ _ _ _ H2) as F2. split_and!.
    + rewrite Hcl, decide_True by done. rewrite I3, K1; [done|left|]. intros ->. apply Hv. left.
    + intros x Hx. rewrite Hcl, decide_False by (intros ->; apply Hx; left). rewrite K2 by done. cbn.
      assert (G1 : x ∈ B → x ∈ B1) by apply (scf_grows _ _ _ _ F1).
      assert (G2 : x ∈ {[v]} ∪ B1 → x ∈ B') by apply (scf_grows _ _ _ _ F2).
      rewrite elem_of_union, elem_of_singleton in G2. destruct (decide (x = v)) as [->|Hxv].
      * rewrite I1, decide_False by (rewrite elem_of_union, elem_of_singleton; tauto).
        rewrite decide_True by tauto. apply app_nil_r.
      * rewrite I2 by (rewrite elem_of_cons; tauto). assert (E : x ∈ {[v]} ∪ B1 ↔ x ∈ B1) by (rewrite elem_of_union, elem_of_singleton; tauto).
        repeat case_decide; rewrite ?app_nil_r; first [done|exfalso; tauto].
    + intros x Hx Hne. rewrite Hcl, decide_False by done. rewrite I3, K3; [done..|by right|]. intros ->. apply Hv. by right.
Qed.

(** *** Termination *)

Context (nodes : list Id) (Hnd : NoDup nodes) (Hclosed : ∀ x y, x ∈ nodes → y ∈ next x → y ∈ nodes).
Notation seen P B := (list_to_set P ∪ B : gset Id).

Lemma seen_push v P B : seen (v :: P) B = {[v]} ∪ seen P B.
Proof using. clear. cbn. set_solver. Qed.
Lemma seen_pop v P B : seen (v :: P) B = seen P ({[v]} ∪ B).
Proof using. clear. cbn. set_solver. Qed.

Lemma unseen u P B v : v ∉ u :: P → v ∉ B → v ∉ seen (u :: P) B.
Proof using. clear. rewrite elem_of_union, elem_of_list_to_set. naive_solver. Qed.

Lemma scan_turns P B l evs B' :
  scan P B l evs B' → l ⊆ nodes →
  pending (λ n, S (length (next n))) nodes (seen P B') + turns evs ≤
    pending (λ n, S (length (next n))) nodes (seen P B) + length l.
Proof using Hnd Hclosed.
  induction 1 as [|u P B v l evs B' Hv _ IH|u P B v l evs B' Hv HB _ IH|u P B v l e1 B1 e2 B' Hv HB _ IH1 _ IH2];
    intros Hl; unfold turns in *; cbn [sum_list_with length]; [lia|specialize (IH ltac:(set_solver)); lia..|].
  assert (Hvn : v ∈ nodes) by (apply Hl; left).
  rewrite (pending_visit _ nodes (seen (u :: P) B) v Hnd Hvn) by by apply unseen.
  rewrite <-seen_push. specialize (IH1 ltac:(intros y; by apply Hclosed)). specialize (IH2 ltac:(set_solver)).
  rewrite sum_list_with_app. cbn [sum_list_with]. rewrite seen_pop in IH1. cbn beta. lia.
Qed.

Lemma scan_total k : ∀ u P B l,
  pending (λ _, 1) nodes (seen (u :: P) B) ≤ k → l ⊆ nodes → ∃ evs B', scan (u :: P) B l evs B'.
Proof using Hnd Hclosed.
  induction k as [|k IHk]; intros u P B l; revert B.
  all: induction l as [|v l IHl]; intros B Hk Hl; [exists [], B; constructor|].
  all: assert (Hl' : l ⊆ nodes) by set_solver; assert (Hvn : v ∈ nodes) by (apply Hl; left).
  all: destruct (decide (v ∈ u :: P)) as [Hv|Hv];
    [destruct (IHl B Hk Hl') as (e & B' & H); eexists _, _; by apply scan_back|].
  all: destruct (decide (v ∈ B)) as [HB|HB];
    [destruct (IHl B Hk Hl') as (e & B' & H); eexists _, _; by apply scan_cross|].
  all: rewrite (pending_visit _ nodes (seen (u :: P) B) v Hnd Hvn), <-seen_push in Hk by by apply unseen.
  - lia.
  - destruct (IHk v (u :: P) B (next v)) as (e1 & B1 & H1); [lia|intros y; by apply Hclosed|].
    destruct (IHl ({[v]} ∪ B1)) as (e2 & B' & H2); [|done|eexists _, _; by eapply scan_tree].
    rewrite <-seen_pop. etrans; [apply pending_shrinks|apply Nat.lt_le_incl; exact Hk].
    pose proof (scf_grows _ _ _ _ (scan_facts_hold _ _ _ _ _ H1)). set_solver.
Qed.
End Scan.

(** ** The loop *)

Section Loop.
Context {G : Type} {HG : GraphView G} (g : G) (s : shape) (HV : Views g s) (d : TraversalDirection).
Context {St B : Type} (on_event : St → DfsEvent.t → res (St * option B)).
Notation n := (sh_bound s).
Notation next := (sh_next s d).
Notation loop := (depth_first_loop on_event).

(** The colours tell the path and the finished nodes. *)
Definition colored (color : list Color) (P : list Id) (F : gset Id) : Prop :=
  length color = n ∧ ∀ x : Id, index x < n →
    color !! index x = Some (if decide (x ∈ P) then Gray else if decide (x ∈ F) then Black else White).

Lemma color_get color P F x :
  colored color P F → index x < n →
  vget color (index x) = Ok (if decide (x ∈ P) then Gray else if decide (x ∈ F) then Black else White).
Proof using. intros [_ H] Hx. by apply vget_eq, H. Qed.

Lemma color_set color P F v P' F' c :
  colored color P F → index v < n →
  c = (if decide (v ∈ P') then Gray else if decide (v ∈ F') then Black else White) →
  (∀ x, x ≠ v → (x ∈ P' ↔ x ∈ P) ∧ (x ∈ F' ↔ x ∈ F)) →
  ∃ color', vset color (index v) c = Ok color' ∧ colored color' P' F'.
Proof using.
  intros [Hl H] Hv Hc Hsame. rewrite vset_lt by lia. eexists. split; [done|]. split; [by rewrite length_insert|].
  intros x Hx. destruct (decide (x = v)) as [->|Hne].
  - rewrite list_lookup_insert_eq by lia. by f_equal.
  - rewrite list_lookup_insert_ne by (intros ?%index_inj; congruence). rewrite H by done. f_equal.
    destruct (Hsame x Hne). repeat case_decide; tauto.
Qed.

(** A frame stands for a node, its depth and the successors left to read. *)
Inductive dframes : list DfsFrame → list Id → list (Id * nat * list Id) → Prop :=
  | df_nil : dframes [] [] []
  | df_cons cs base fs x k l1 l2 : dframes cs base fs →
      dframes (mk_DfsFrame x k (length base) (length base + length l1) :: cs) (base ++ l1 ++ l2) ((x, k, l2) :: fs).

Lemma dframes_read stack arena x k y l fs :
  dframes stack arena ((x, k, y :: l) :: fs) →
  ∃ c cs, stack = c :: cs ∧ df_node c = x ∧ df_depth c = k ∧ df_cursor c < length arena ∧
    vget arena (df_cursor c) = Ok y ∧ dframes (step_cursor c :: cs) arena ((x, k, l) :: fs).
Proof using.
  inversion 1 as [|cs base ? ? ? l1 ? Hr]; subst. do 2 eexists. split_and!; [done..| | |].
  - cbn. rewrite !length_app. cbn. lia.
  - apply vget_eq. cbn. rewrite app_assoc, <-length_app. by apply list_lookup_middle.
  - unfold step_cursor. cbn. pose proof (df_cons cs base fs x k (l1 ++ [y]) l Hr) as H'.
    rewrite length_app, <-app_assoc, Nat.add_assoc in H'. exact H'.
Qed.

Lemma dframes_read_all stack arena x k fs :
  dframes stack arena ((x, k, []) :: fs) →
  ∃ c cs, stack = c :: cs ∧ df_node c = x ∧ ¬ df_cursor c < length arena ∧ dframes cs (take (df_start c) arena) fs.
Proof using.
  inversion 1 as [|cs base ? ? ? l1 ? Hr]; subst. do 2 eexists. split_and!; [done..| |].
  - cbn. rewrite app_nil_r, length_app. lia.
  - cbn. by rewrite take_app_length.
Qed.

Lemma descend_Ok stack arena fs x k :
  x ∈ sh_nodes s → dframes stack arena fs →
  ∃ arena' stack', descend d g arena stack x k = Ok (arena', stack') ∧ dframes stack' arena' ((x, k, next x) :: fs).
Proof using HV.
  intros Hx Hr. unfold descend. rewrite (vw_next (g := g) d x Hx). rsimpl. do 2 eexists. split; [done|].
  pose proof (df_cons stack arena fs x k [] (next x) Hr) as H'. cbn in H'. by rewrite Nat.add_0_r in H'.
Qed.

(** The loop feeds the events of a scan to the callback, and goes on where the
    scan ends. *)
Lemma loop_scan P F l evs F' :
  scan next P F l evs F' → ∀ u P', P = u :: P' → ∀ fuel st color arena stack fs,
  l ⊆ sh_nodes s → colored color P F → dframes stack arena ((u, length P', l) :: fs) → turns evs ≤ fuel →
  match feed on_event st evs with
  | Ok (st', None) => ∃ color' arena' stack',
      loop fuel d g st color arena stack = loop (fuel - turns evs) d g st' color' arena' stack' ∧
      colored color' P F' ∧ dframes stack' arena' ((u, length P', []) :: fs)
  | r => loop fuel d g st color arena stack = r
  end.
Proof using HV.
  assert (Hb : ∀ v, v ∈ sh_nodes s → index v < n) by (intros; by apply (nodes_bound g s HV)).
  induction 1 as [P F|w Q F v l evs F' Hv _ IH|w Q F v l evs F' Hv HF _ IH|w Q F v l e1 F1 e2 F' Hv HF H1 IH1 H2 IH2];
    intros u P' HP fuel st color arena stack fs Hl Hc Hr Hf.
  { subst P. cbn. exists color, arena, stack. by rewrite Nat.sub_0_r. }
  all: injection HP as -> ->; assert (Hl' : l ⊆ sh_nodes s) by set_solver; assert (Hvn : v ∈ sh_nodes s) by (apply Hl; left).
  all: apply dframes_read in Hr as (c & cs & -> & Hnode & Hdepth & Hlt & Hget & Hr).
  all: unfold turns in *; cbn [sum_list_with] in Hf; destruct fuel as [|fuel]; [lia|].
  all: cbn [depth_first_loop feed sum_list_with]; rewrite decide_True, Hget by done; rsimpl.
  all: rewrite (color_get _ _ _ v Hc) by (by apply Hb).
  - rewrite decide_True by done. rsimpl. unfold emit_or_break. rewrite Hnode.
    destruct (on_event st (BackEdge u v)) as [[st1 [value|]]| |]; rsimpl; [done| |done|done].
    by apply IH; [..|lia].
  - rewrite decide_False, decide_True by done. rsimpl. unfold emit_or_break. rewrite Hnode.
    destruct (on_event st (ForwardOrCross u v)) as [[st1 [value|]]| |]; rsimpl; [done| |done|done].
    by apply IH; [..|lia].
  - rewrite !decide_False by done. rsimpl. unfold emit_or_break. rewrite Hnode, Hdepth.
    destruct (on_event st (TreeEdge u v)) as [[st1 [value|]]| |]; rsimpl; [done| |done|done].
    destruct (color_set color (u :: P') F v (v :: u :: P') F Gray Hc) as (color1 & -> & Hc1).
    { by apply Hb. } { by rewrite decide_True by left. } { intros x Hx. split; [|done]. rewrite elem_of_cons. naive_solver. }
    rsimpl. rewrite Nat.add_1_r. destruct (on_event st1 (Discover v (S (length P')))) as [[st2 [value|]]| |]; rsimpl; [done| |done|done].
    destruct (descend_Ok _ _ _ v (S (length P')) Hvn Hr) as (arena1 & stack1 & -> & Hr1). rsimpl. rewrite feed_app.
    rewrite sum_list_with_app in *. cbn [sum_list_with] in *.
    specialize (IH1 v (u :: P') eq_refl fuel st2 color1 arena1 stack1 _ (λ y, nodes_next g s HV d v y Hvn) Hc1 Hr1 ltac:(lia)).
    destruct (feed on_event st2 e1) as [[st3 [value|]]| |]; [exact IH1| |exact IH1|exact IH1].
    destruct IH1 as (color2 & arena2 & stack2 & -> & Hc2 & Hr2).
    apply dframes_read_all in Hr2 as (c2 & cs2 & -> & Hnode2 & Hge2 & Hr2).
    destruct (fuel - sum_list_with (λ e, match e with Discover _ _ => 0 | _ => 1 end) e1) as [|fuel2] eqn:Hfe; [lia|].
    cbn [depth_first_loop]. rewrite decide_False, Hnode2 by done.
    destruct (color_set color2 (v :: u :: P') F1 v (u :: P') ({[v]} ∪ F1) Black Hc2) as (color3 & -> & Hc3).
    { by apply Hb. } { rewrite decide_False, decide_True by (done || set_solver). done. }
    { intros x Hx. rewrite !elem_of_cons, elem_of_union, elem_of_singleton. naive_solver. }
    rsimpl. unfold emit_or_break. cbn [feed]. destruct (on_event st3 (Finish v)) as [[st4 [value|]]| |]; rsimpl; [done| |done|done].
    specialize (IH2 u P' eq_refl fuel2 st4 color3 _ cs2 fs Hl' Hc3 Hr2 ltac:(lia)).
    destruct (feed on_event st4 e2) as [[st5 [value|]]| |]; [exact IH2| |exact IH2|exact IH2].
    destruct IH2 as (color4 & arena4 & stack4 & -> & Hc4 & Hr4). exists color4, arena4, stack4.
    split; [|done]. f_equal. lia.
Qed.
End Loop.

(** ** The walks *)

Section Walks.
Context {G : Type} {HG : GraphView G} (g : G) (s : shape) (HV : Views g s) (d : TraversalDirection).
Notation n := (sh_bound s).
Notation next := (sh_next s d).

Lemma depth_first_events_walk start :
  start ∈ sh_nodes s →
  ∃ evs F, walked next start evs F ∧
    ∀ (St B : Type) (on_event : St → DfsEvent.t → res (St * option B)) st,
      depth_first_events on_event g start d st = feed on_event st evs.
Proof using HV.
  intros Hs. pose proof (nodes_bound g s HV start Hs) as Hb.
  assert (Hcl : ∀ x y, x ∈ sh_nodes s → y ∈ next x → y ∈ sh_nodes s) by (intros x y; apply (nodes_next g s HV)).
  destruct (scan_total next (sh_nodes s) (nodes_nodup g s HV) Hcl _ start [] ∅ (next start) (Nat.le_refl _))
    as (e & F & Hscan); [intros y; by apply Hcl|].
  exists (Discover start 0 :: e ++ [Finish start]), ({[start]} ∪ F). split; [by exists e, F|].
  intros St B on_event st. unfold depth_first_events. rewrite (vw_in_bound g s start _ HV Hs). rsimpl.
  rewrite (vw_bound (g := g) (s := s)).
  assert (Hc0 : colored s (replicate n White) [] ∅).
  { split; [apply length_replicate|]. intros x Hx. rewrite lookup_replicate_2 by done. by rewrite !decide_False by set_solver. }
  destruct (color_set s _ [] ∅ start [start] ∅ Gray Hc0 Hb) as (color & -> & Hc).
  { by rewrite decide_True by left. }
  { intros x Hx. split; [|done]. rewrite list_elem_of_singleton, elem_of_nil. naive_solver. }
  rsimpl. unfold emit_or_break at 1. cbn [feed]. destruct (on_event st (Discover start 0)) as [[st1 [v|]]| |]; rsimpl; [done| |done|done].
  destruct (descend_Ok g s HV d [] [] [] start 0 Hs) as (arena & stack & -> & Hr); [constructor|]. rsimpl. rewrite feed_app.
  pose proof (scan_turns next (sh_nodes s) (nodes_nodup g s HV) Hcl _ _ _ _ _ Hscan ltac:(intros y; by apply Hcl)) as Hturns.
  assert (Hfuel : turns e + 2 ≤ 2 + adjacency_total d g + n).
  { rewrite (adjacency_total_eq g s HV). assert (length (sh_nodes s) ≤ n).
    { apply NoDup_index_length; [apply (nodes_nodup g s HV)|apply (nodes_bound g s HV)]. }
    assert (Hsum : ∀ l, sum_list_with (λ x, S (length (next x))) l = sum_list_with (λ x, length (next x)) l + length l).
    { clear. induction l as [|x l IHl]; [done|]. cbn. rewrite IHl. lia. }
    assert (list_to_set [start] ∪ ∅ = ({[start]} ∪ ∅ : gset Id)) as Hset by set_solver. rewrite Hset in Hturns.
    pose proof (pending_visit (λ x, S (length (next x))) (sh_nodes s) ∅ start (nodes_nodup g s HV) Hs ltac:(set_solver)) as Hp.
    rewrite pending_empty, Hsum in Hp. cbn beta in *. lia. }
  pose proof (loop_scan g s HV d on_event _ _ _ _ _ Hscan start [] eq_refl _ st1 color arena stack [] ltac:(intros y; by apply Hcl) Hc Hr
    ltac:(etrans; [|exact Hfuel]; lia)) as Hloop.
  destruct (feed on_event st1 e) as [[st2 [v|]]| |]; [exact Hloop| |exact Hloop|exact Hloop]. destruct Hloop as (color2 & arena2 & stack2 & -> & Hc2 & Hr2).
  apply dframes_read_all in Hr2 as (c2 & cs2 & -> & Hnode & Hge & Hr2).
  destruct (2 + adjacency_total d g + n - turns e) as [|[|fuel]] eqn:Hfe; [lia..|].
  cbn [depth_first_loop]. rewrite decide_False, Hnode by done.
  destruct (color_set s color2 [start] F start [] ({[start]} ∪ F) Black Hc2 Hb) as (color3 & -> & Hc3).
  { rewrite decide_False, decide_True by set_solver. done. }
  { intros x Hx. rewrite list_elem_of_singleton, elem_of_nil, elem_of_union, elem_of_singleton. naive_solver. }
  rsimpl. unfold emit_or_break. cbn [feed]. destruct (on_event st2 (Finish start)) as [[st3 [v|]]| |]; rsimpl; [done| |done|done].
  by inversion Hr2; subst.
Qed.
End Walks.

(** ** Breadth first *)

(** The nodes discovered with their depths, the edges examined, and the targets
    of the edges that discovered them. *)
Definition bfs_discovered (evs : list BfsEvent.t) : list (Id * nat) :=
  omap (λ e, match e with BfsEvent.Discover x k => Some (x, k) | _ => None end) evs.
Definition bfs_examined (evs : list BfsEvent.t) : list (Id * Id) :=
  omap (λ e, match e with BfsEvent.TreeEdge x y | BfsEvent.NonTreeEdge x y => Some (x, y) | _ => None end) evs.
Definition bfs_tree (evs : list BfsEvent.t) : list Id :=
  omap (λ e, match e with BfsEvent.TreeEdge _ y => Some y | _ => None end) evs.

Section BreadthFirst.
Context {G : Type} {HG : GraphView G} (g : G) (s : shape) (HV : Views g s) (d : TraversalDirection).
Notation n := (sh_bound s).
Notation next := (sh_next s d).

Lemma edges_feed x k l : ∀ V seen,
  marked seen n V → (∀ y, y ∈ l → index y < n) →
  ∃ evs seen', marked seen' n (V ∪ list_to_set (fresh V l)) ∧
    bfs_discovered evs = (λ y, (y, k + 1)) <$> fresh V l ∧ bfs_examined evs = (x,.) <$> l ∧ bfs_tree evs = fresh V l ∧
    ∀ (St B : Type) (on_event : St → BfsEvent.t → res (St * option B)) st queue, ∃ broken,
      breadth_first_edges on_event st seen queue x k l =
        ('(st', broke) ← feed on_event st evs;
         match broke with
         | Some value => mret (st', Some value, fst broken, snd broken)
         | None => mret (st', None, seen', queue ++ ((λ y, (y, k + 1)) <$> fresh V l))
         end).
Proof using.
  clear. induction l as [|y l IH]; intros V seen Hm Hl.
  { exists [], seen. cbn. split_and!; [|done..|].
    - by replace (V ∪ ∅) with V by set_solver.
    - intros St B on_event st queue. exists ([], []). by rewrite app_nil_r. }
  assert (Hy : index y < n) by (apply Hl; left). pose proof (marked_get _ _ _ _ Hm Hy) as Hget. cbn [fresh].
  destruct (decide (y ∈ V)) as [HyV|HyV].
  - destruct (IH V seen Hm) as (evs & seen' & Hm' & H1 & H2 & H3 & H4); [set_solver|].
    exists (BfsEvent.NonTreeEdge x y :: evs), seen'. split_and!; [done|done|cbn; by f_equal|done|].
    intros St B on_event st queue. cbn [breadth_first_edges feed]. rewrite Hget, bool_decide_true by done. rsimpl.
    destruct (on_event st _) as [[st1 [v|]]| |]; rsimpl; [by exists (seen, queue)|apply H4|by exists ([], [])..].
  - destruct (marked_set _ _ _ _ Hm Hy) as [Hset Hm1].
    destruct (IH ({[y]} ∪ V) _ Hm1) as (evs & seen' & Hm' & H1 & H2 & H3 & H4); [set_solver|].
    exists (BfsEvent.TreeEdge x y :: BfsEvent.Discover y (k + 1) :: evs), seen'. split_and!.
    + assert (V ∪ list_to_set (y :: fresh ({[y]} ∪ V) l) = {[y]} ∪ V ∪ list_to_set (fresh ({[y]} ∪ V) l)) as ->; [|done].
      cbn. set_solver.
    + cbn. by f_equal.
    + cbn. by f_equal.
    + cbn. by f_equal.
    + intros St B on_event st queue. cbn [breadth_first_edges feed]. rewrite Hget, bool_decide_false by done. rsimpl.
      rewrite Hset. rsimpl. destruct (on_event st _) as [[st1 [v|]]| |]; rsimpl; [by eexists (_, _)| |by exists ([], [])..].
      destruct (on_event st1 _) as [[st2 [v|]]| |]; rsimpl; [by eexists (_, _)| |by exists ([], [])..].
      destruct (H4 St B on_event st2 (queue ++ [(y, k + 1)])) as (broken & ->). exists broken. rewrite fmap_cons, <-app_assoc. done.
Qed.

(** The events of the walk from the queue, against what is discovered last. *)
Record bfs_events (dist : gmap Id nat) (don queue : list Id) (dist' : gmap Id nat) (o : list Id) (evs : list BfsEvent.t) : Prop := {
  be_discovered : (λ x, (x, dep dist' x)) <$> o = ((λ x, (x, dep dist x)) <$> don ++ queue) ++ bfs_discovered evs;
  be_examined : (o ≫= λ x, (x,.) <$> next x) = (don ≫= λ x, (x,.) <$> next x) ++ bfs_examined evs;
  be_tree : o = (don ++ queue) ++ bfs_tree evs;
}.

Lemma loop_feed start fuel : ∀ dist don queue seen,
  bfs_inv next start None dist don queue → marked seen n (dom dist) →
  (∀ x, x ∈ don ++ queue → x ∈ sh_nodes s) → n < fuel + length don →
  ∃ evs dist' o, bfs_inv next start None dist' o [] ∧ bfs_events dist don queue dist' o evs ∧
    ∀ (St B : Type) (on_event : St → BfsEvent.t → res (St * option B)) st,
      breadth_first_loop on_event fuel d g st seen ((λ x, (x, dep dist x)) <$> queue) = feed on_event st evs.
Proof using HV.
  induction fuel as [|fuel IH]; intros dist don queue seen Hinv Hm Hq Hf.
  { destruct queue as [|x queue]; [|pose proof (bfs_done_bound g s HV d _ _ _ _ _ _ Hinv Hq); lia].
    pose proof (bi_nodup _ _ _ _ _ _ Hinv) as Hnd. rewrite app_nil_r in Hnd, Hq.
    apply (NoDup_index_length _ n) in Hnd; [|intros x Hx; by eapply nodes_bound, Hq]. lia. }
  destruct queue as [|x queue].
  { exists [], dist, don. split_and!; [done| |done]. split; cbn; by rewrite ?app_nil_r. }
  assert (Hx : x ∈ sh_nodes s) by (apply Hq; set_solver).
  destruct (edges_feed x (dep dist x) (next x) (dom dist) seen Hm) as (e1 & seen1 & Hm1 & D1 & E1 & T1 & Hrun1).
  { intros y Hy. eapply nodes_bound, nodes_next; done. }
  set (new := fresh (dom dist) (next x)) in *.
  assert (Hnew : new = if decide (below None (dep dist x)) then fresh (dom dist) (next x) else []) by done.
  pose proof (bfs_step next start None dist don x queue new Hinv Hnew) as Hinv'.
  set (dist1 := assign (S (dep dist x)) new dist) in *.
  destruct (IH dist1 (don ++ [x]) (queue ++ new) seen1 Hinv') as (e2 & dist' & o & Hinv2 & [D2 E2 T2] & Hrun2).
  { unfold dist1. by rewrite dom_assign. }
  { by eapply bfs_nodes. }
  { rewrite length_app. cbn. lia. }
  assert (Hold : ∀ y, y ∈ don ++ x :: queue → dep dist1 y = dep dist y).
  { intros y Hy. apply dep_assign_old. intros [_ Hn]%elem_of_fresh. apply Hn, elem_of_dom.
    by apply (bi_dom _ _ _ _ _ _ Hinv). }
  assert (Hfold : ((λ y, (y, dep dist1 y)) <$> don ++ x :: queue) = ((λ y, (y, dep dist y)) <$> don ++ x :: queue)).
  { apply list_fmap_ext. intros i y Hy. by rewrite (Hold y) by by eapply list_elem_of_lookup_2. }
  assert (Hfnew : ((λ y, (y, dep dist1 y)) <$> new) = ((λ y, (y, dep dist x + 1)) <$> new)).
  { apply list_fmap_ext. intros i y Hy. unfold dist1. rewrite dep_assign_new by by eapply list_elem_of_lookup_2. by rewrite Nat.add_1_r. }
  assert (Happ : (don ++ [x]) ++ queue ++ new = (don ++ x :: queue) ++ new) by (by rewrite <-!app_assoc).
  exists (e1 ++ e2), dist', o. split_and!; [done| |].
  - rewrite Happ in D2, T2. split; unfold bfs_discovered, bfs_examined, bfs_tree in *; rewrite omap_app.
    + rewrite D2, fmap_app, Hfold, Hfnew, D1. by rewrite <-app_assoc.
    + rewrite E2, E1, bind_app, <-app_assoc. cbn. by rewrite app_nil_r.
    + rewrite T2, T1. by rewrite <-app_assoc.
  - intros St B on_event st. cbn [fmap list_fmap breadth_first_loop]. rewrite (vw_next (g := g) d x Hx). rsimpl.
    destruct (Hrun1 St B on_event st ((λ y, (y, dep dist y)) <$> queue)) as (broken & ->). rewrite feed_app.
    destruct (feed on_event st e1) as [[st1 [v|]]| |]; rsimpl; [done| |done|done]. rewrite <-(Hrun2 St B on_event st1). f_equal.
    rewrite fmap_app, Hfnew. f_equal. apply list_fmap_ext. intros i y Hy. rewrite Hold; [done|].
    apply elem_of_app. right. right. by eapply list_elem_of_lookup_2.
Qed.

Lemma breadth_first_events_walk start :
  start ∈ sh_nodes s →
  ∃ evs dist o, bfs_inv next start None dist o [] ∧
    (λ x, (x, dep dist x)) <$> o = bfs_discovered evs ∧ (o ≫= λ x, (x,.) <$> next x) = bfs_examined evs ∧
    o = start :: bfs_tree evs ∧
    ∀ (St B : Type) (on_event : St → BfsEvent.t → res (St * option B)) st,
      breadth_first_events on_event g start d st = feed on_event st evs.
Proof using HV.
  intros Hs. pose proof (nodes_bound g s HV start Hs) as Hb.
  destruct (marked_set _ n ∅ start (marked_empty n) Hb) as [Hset Hm].
  assert (Hdom : dom ({[start := 0]} : gmap Id nat) = {[start]} ∪ ∅) by (rewrite dom_singleton_L; set_solver).
  destruct (loop_feed start (1 + n) {[start := 0]} [] [start] (<[index start := true]> (replicate n false)))
    as (evs & dist & o & Hinv & [D E T] & Hrun); [apply bfs_init|by rewrite Hdom|set_solver|cbn; lia|].
  assert (Hdep : dep {[start := 0]} start = 0) by (unfold dep; by rewrite lookup_singleton_eq).
  exists (BfsEvent.Discover start 0 :: evs), dist, o. split_and!; [done| |exact E|exact T|].
  - rewrite D. cbn. by rewrite Hdep.
  - intros St B on_event st. unfold breadth_first_events. rewrite (vw_in_bound g s start _ HV Hs). rsimpl.
    rewrite (vw_bound (g := g) (s := s)), Hset. rsimpl. unfold emit_or_break. cbn [feed].
    destruct (on_event st _) as [[st1 [v|]]| |]; rsimpl; [done| |done|done]. specialize (Hrun St B on_event st1). cbn in Hrun. by rewrite Hdep in Hrun.
Qed.
End BreadthFirst.

(** * Traversal events: what they guarantee

    The event walks of [graph/search/events/] over any view that keeps the
    contract, for any callback. *)

Import DfsEvent.

Lemma preorder_functional next V l o1 V1 o2 V2 :
  preorder next V l o1 V1 → preorder next V l o2 V2 → o1 = o2 ∧ V1 = V2.
Proof.
  intros H. revert o2 V2. induction H as [V|V x l o V' Hx H IH|V x l p1 p2 W V' Hx H1 IH1 H2 IH2]; intros o2 V2 K.
  - by inversion K.
  - inversion K; subst; [by apply IH|done].
  - inversion K as [| |? ? ? q1 q2 W' ? ? K1 K2]; subst; [done|].
    apply IH1 in K1 as [-> ->]. by apply IH2 in K2 as [-> ->].
Qed.

Lemma postorder_functional next V l o1 V1 o2 V2 :
  postorder next V l o1 V1 → postorder next V l o2 V2 → o1 = o2 ∧ V1 = V2.
Proof.
  intros H. revert o2 V2. induction H as [V|V x l o V' Hx H IH|V x l p1 p2 W V' Hx H1 IH1 H2 IH2]; intros o2 V2 K.
  - by inversion K.
  - inversion K; subst; [by apply IH|done].
  - inversion K as [| |? ? ? q1 q2 W' ? ? K1 K2]; subst; [done|].
    apply IH1 in K1 as [-> ->]. by apply IH2 in K2 as [-> ->].
Qed.

Section Theorems.
Context {G : Type} {HG : GraphView G} (g : G) (s : shape) (d : TraversalDirection).
Notation next := (sh_next s d).
Notation R := (edge_to (sh_next s d)).

(** C27: a depth-first event walk never panics by itself: whatever the callback,
    its state and where it breaks, the walk hands it one and the same list of
    events up to there. In that list discoveries are the depth-first preorder
    and finishes the postorder; every reached node has each of its successors
    classified in adjacency order; and replayed against the path from the start,
    a tree edge leads to an undiscovered node, a back edge to a node on the path
    and any other edge to a finished one. *)
Theorem depth_first_events_are_the_search start :
  Views g s → start ∈ sh_nodes s →
  ∃ evs F, (∀ (St B : Type) (on_event : St → DfsEvent.t → res (St * option B)) st,
      depth_first_events on_event g start d st = feed on_event st evs) ∧
    depth_first_preorder g start d = Ok (discovered evs) ∧ depth_first_postorder g start d = Ok (finished evs) ∧
    replay [] ∅ evs = Some ([], F) ∧ (∀ x, x ∈ F ↔ rtc R start x) ∧
    ∀ x, classified x evs = if decide (x ∈ F) then next x else [].
Proof.
  intros HV Hs. destruct (depth_first_events_walk g s HV d start Hs) as (evs & F & (e & B & Hscan & -> & ->) & Hrun).
  eexists _, _. split; [exact Hrun|].
  destruct (scan_orders _ _ _ _ _ _ Hscan) as [Hpre Hpost].
  assert (Hset : list_to_set [start] ∪ ∅ = ({[start]} ∪ ∅ : gset Id)) by set_solver. rewrite Hset in Hpre, Hpost.
  destruct (depth_first_preorder_spec g s HV d start Hs) as (o1 & V1 & Hrun1 & Ho1).
  destruct (depth_first_postorder_spec g s HV d start Hs) as (o2 & V2 & Hrun2 & Ho2).
  assert (Hn : start ∉ (∅ : gset Id)) by set_solver.
  pose proof (pre_visit next ∅ start [] _ _ _ _ Hn Hpre (pre_nil next _)) as Hp1.
  pose proof (post_visit next ∅ start [] _ _ _ _ Hn Hpost (post_nil next _)) as Hp2.
  destruct (preorder_functional _ _ _ _ _ _ _ Ho1 Hp1) as [-> ->]. destruct (postorder_functional _ _ _ _ _ _ _ Ho2 Hp2) as [-> ->].
  assert (HF : ∀ x, x ∈ {[start]} ∪ B ↔ rtc R start x).
  { intros x. pose proof (preorder_facts _ _ _ _ _ Hp1) as Hf. pose proof (search_reachable _ _ _ _ x Hf) as Hx.
    assert (HV1 : x ∈ list_to_set [start] ∪ B ↔ x ∈ start :: discovered e ++ []).
    { rewrite (sf_set _ _ _ _ _ Hf), elem_of_union, elem_of_list_to_set. set_solver. }
    assert (x ∈ {[start]} ∪ B ↔ x ∈ (list_to_set [start] ∪ B : gset Id)) as -> by (cbn; rewrite union_empty_r_L; done).
    rewrite HV1, Hx. split; [by intros (y & ->%list_elem_of_singleton & ?)|]. intros ?. exists start. split; [left|done]. }
  split_and!; [| | |exact HF|].
  - rewrite Hrun1. f_equal. unfold discovered. cbn. by rewrite omap_app, app_nil_r; cbn; rewrite app_nil_r.
  - rewrite Hrun2. f_equal. unfold finished. cbn. by rewrite omap_app.
  - cbn. rewrite decide_True by set_solver. rewrite replay_app, (scan_replay _ _ _ _ _ _ Hscan). cbn. by rewrite decide_True.
  - intros x. destruct (scan_classified _ _ _ _ _ _ _ Hscan) as (C1 & C2 & _).
    assert (Hc : classified x (Discover start 0 :: e ++ [Finish start]) = classified x e).
    { unfold classified. cbn. by rewrite omap_app, app_nil_r. }
    rewrite Hc. destruct (decide (x = start)) as [->|Hne].
    + by rewrite C1, decide_True by set_solver.
    + rewrite C2 by set_solver. repeat case_decide; try done; set_solver.
Qed.

(** A breadth-first event walk likewise hands every callback one list of
    events: the start and then each node at the edge that discovers it, every
    reached node once and at its distance from the start, nearer ones first; and
    the edges out of the reached nodes, node by node in the order of discovery. *)
Theorem breadth_first_events_are_by_distance start :
  Views g s → start ∈ sh_nodes s →
  ∃ evs o, (∀ (St B : Type) (on_event : St → BfsEvent.t → res (St * option B)) st,
      breadth_first_events on_event g start d st = feed on_event st evs) ∧
    (bfs_discovered evs).*1 = o ∧ o = start :: bfs_tree evs ∧ NoDup o ∧ (∀ x, x ∈ o ↔ rtc R start x) ∧
    (∀ x k, (x, k) ∈ bfs_discovered evs → nsteps R k start x ∧ ∀ j, nsteps R j start x → k ≤ j) ∧
    StronglySorted le (bfs_discovered evs).*2 ∧
    bfs_examined evs = o ≫= λ x, (x,.) <$> next x.
Proof.
  intros HV Hs. destruct (breadth_first_events_walk g s HV d start Hs) as (evs & dist & o & Hinv & D & E & T & Hrun).
  exists evs, o. split; [exact Hrun|]. pose proof (bi_nodup _ _ _ _ _ _ Hinv) as Hnd. pose proof (bi_sorted _ _ _ _ _ _ Hinv) as Hso.
  rewrite app_nil_r in Hnd, Hso. split_and!; [|done|done| | | |done].
  - rewrite <-D, <-list_fmap_compose. apply list_fmap_id.
  - intros x. rewrite <-(app_nil_r o), <-(bi_dom _ _ _ _ _ _ Hinv). split.
    + intros [k Hk]. apply (bi_path _ _ _ _ _ _ Hinv) in Hk as [Hk _]. by eapply rtc_nsteps_2.
    + intros [j Hj]%rtc_nsteps. destruct (bfs_reaches _ _ _ _ _ j x Hinv Hj) as (i & Hi & _); [done|eauto].
  - intros x k Hxk. rewrite <-D in Hxk. apply list_elem_of_fmap in Hxk as (y & [= <- ->] & Hy).
    rewrite <-(app_nil_r o), <-(bi_dom _ _ _ _ _ _ Hinv) in Hy. destruct Hy as [k Hk].
    assert (Hdep : dep dist x = k) by (unfold dep; by rewrite Hk). rewrite Hdep.
    split; [by apply (bi_path _ _ _ _ _ _ Hinv) in Hk as [Hk _]|]. intros j Hj.
    destruct (bfs_reaches _ _ _ _ _ j x Hinv Hj) as (i & Hi & Hle); [done|]. rewrite Hk in Hi. by injection Hi as ->.
  - rewrite <-D, <-list_fmap_compose. clear -Hso. induction Hso as [|x l _ IH Hx]; [constructor|]. cbn. constructor; [done|].
    by apply Forall_fmap.
Qed.
End Theorems.

(** ** Witnesses *)

(** A callback that records every event and breaks at none. *)
Definition record {E} (st : list E) (event : E) : res (list E * option unit) := mret (st ++ [event], None).

(** Counts the events and breaks at the first back edge. *)
Definition first_back (st : nat) (event : DfsEvent.t) : res (nat * option (Id * Id)) :=
  mret (S st, match event with BackEdge x y => Some (x, y) | _ => None end).

Definition sample_events : list DfsEvent.t :=
  [Discover 3 0; BackEdge 3 3; TreeEdge 3 2; Discover 2 1; BackEdge 2 3; TreeEdge 2 0; Discover 0 2; Finish 0; Finish 2; Finish 3]%N.

Lemma sample_recorded : depth_first_events record sample_store 3%N Outgoing [] = Ok (sample_events, None).
Proof. vm_compute. reflexivity. Qed.

Lemma feed_record {E} (evs : list E) st : feed record st evs = Ok (st ++ evs, None).
Proof.
  revert st. induction evs as [|e evs IH]; intros st; cbn; [by rewrite app_nil_r|]. by rewrite IH, <-app_assoc.
Qed.

Lemma depth_first_events_are_the_search_witness :
  ∃ s, Views sample_store s ∧ 3%N ∈ sh_nodes s ∧
    depth_first_events first_back sample_store 3%N Outgoing 0 = feed first_back 0 sample_events ∧
    depth_first_postorder sample_store 3%N Outgoing = Ok (finished sample_events).
Proof.
  destruct sample_view as (s & HV & _ & _ & H3 & _). exists s. split; [exact HV|]. split; [exact H3|].
  destruct (depth_first_events_are_the_search sample_store s Outgoing 3%N HV H3) as (evs & F & Hrun & _ & Hpost & _).
  assert (Hevs : evs = sample_events).
  { pose proof sample_recorded as Hr. rewrite Hrun, feed_record in Hr. by injection Hr. }
  rewrite Hevs in Hrun, Hpost. split; [apply Hrun|exact Hpost].
Defined.

Definition sample_bfs_events : list BfsEvent.t :=
  [BfsEvent.Discover 3 0; BfsEvent.NonTreeEdge 3 3; BfsEvent.TreeEdge 3 2; BfsEvent.Discover 2 1;
   BfsEvent.NonTreeEdge 2 3; BfsEvent.TreeEdge 2 0; BfsEvent.Discover 0 2]%N.

Lemma sample_bfs_recorded : breadth_first_events record sample_store 3%N Outgoing [] = Ok (sample_bfs_events, None).
Proof. vm_compute. reflexivity. Qed.

Lemma breadth_first_events_are_by_distance_witness :
  ∃ s, Views sample_store s ∧ 3%N ∈ sh_nodes s ∧ (0%N, 2) ∈ bfs_discovered sample_bfs_events ∧
    nsteps (edge_to (sh_next s Outgoing)) 2 3%N 0%N.
Proof.
  destruct sample_view as (s & HV & _ & _ & H3 & _). exists s. split; [exact HV|]. split; [exact H3|].
  destruct (breadth_first_events_are_by_distance sample_store s Outgoing 3%N HV H3) as (evs & o & Hrun & _ & _ & _ & _ & Hd & _).
  assert (Hevs : evs = sample_bfs_events).
  { pose proof sample_bfs_recorded as Hr. rewrite Hrun, feed_record in Hr. by injection Hr. }
  rewrite Hevs in Hd. assert (Hin : (0%N, 2) ∈ bfs_discovered sample_bfs_events) by (right; right; left).
  split; [exact Hin|]. by apply Hd.
Defined.
