(* ===== verification/EdgeKinds.v ===== *)
(** * Edge kinds

    Models [edge.rs]: the vocabulary of control-flow edges with its names, and
    the record a control-flow graph keeps per edge. *)

From S2P Require Import Prelude.

(** [EdgeKind] *)
Inductive EdgeKind : Type :=
  | Fallthrough | ConditionalTrue | ConditionalFalse | Unconditional | Back | Call | CallReturn | SwitchCase
  | Jump | IndirectJump | IndirectCall
  | ExceptionHandler | ExceptionUnwind | ExceptionLeave | ExceptionResume | ExceptionContinue.

#[export] Instance EdgeKind_eq_dec : EqDecision EdgeKind.
Proof. solve_decision. Defined.

(** [EdgeKind::ALL] *)
Definition ALL : list EdgeKind :=
  [Fallthrough; ConditionalTrue; ConditionalFalse; Unconditional; Back; Call; CallReturn; SwitchCase;
   Jump; IndirectJump; IndirectCall;
   ExceptionHandler; ExceptionUnwind; ExceptionLeave; ExceptionResume; ExceptionContinue].

(** [EdgeKind::name] *)
Definition kind_name (k : EdgeKind) : string :=
  match k with
  | Fallthrough => "fallthrough" | ConditionalTrue => "true" | ConditionalFalse => "false"
  | Unconditional => "unconditional" | Back => "back" | Call => "call" | CallReturn => "call_return"
  | SwitchCase => "case" | Jump => "jump" | IndirectJump => "indirect_jump" | IndirectCall => "indirect_call"
  | ExceptionHandler => "handler" | ExceptionUnwind => "unwind" | ExceptionLeave => "leave"
  | ExceptionResume => "resume" | ExceptionContinue => "continue_exception"
  end.

(** [EdgeKind::from_name] *)
Definition from_name (name : string) : option EdgeKind :=
  snd <$> list_find (λ k, kind_name k = name) ALL.

(** [EdgeKind::is_exceptional] *)
Definition is_exceptional (k : EdgeKind) : bool :=
  match k with
  | ExceptionHandler | ExceptionUnwind | ExceptionResume | ExceptionContinue => true
  | _ => false
  end.

(** [trait KindedEdge] *)
Class KindedEdge (D : Type) : Type := kind_of : D → EdgeKind.

(** [Edge]; a weight is the bits of its [f64], which is what the code compares *)
Record Edge (E : Type) : Type := mk_Edge { edge_kind : EdgeKind; edge_weight : option N; edge_payload : E }.
Arguments mk_Edge {E} _ _ _.
Arguments edge_kind {E} _.
Arguments edge_weight {E} _.
Arguments edge_payload {E} _.

(** [impl KindedEdge for Edge] *)
#[export] Instance Edge_kinded {E} : KindedEdge (Edge E) := edge_kind.

(** [impl PartialEq for Edge] *)
Definition edge_eqb {E} `{EqDecision E} (a b : Edge E) : bool :=
  bool_decide (edge_kind a = edge_kind b) && bool_decide (edge_weight a = edge_weight b)
    && bool_decide (edge_payload a = edge_payload b).

Lemma ALL_complete k : k ∈ ALL.
Proof. apply (bool_decide_unpack _). by destruct k. Qed.

Lemma kind_name_inj k l : kind_name k = kind_name l → k = l.
Proof. by destruct k, l. Qed.

(** A name reads back as the kind it was written from, and nothing else reads. *)
Lemma from_name_name k name : from_name name = Some k ↔ kind_name k = name.
Proof.
  unfold from_name. split.
  - intros ([i l] & (_ & Hl & _)%list_find_Some & [= ->])%fmap_Some. done.
  - intros Hk. destruct (list_find_elem_of (λ k, kind_name k = name) ALL k (ALL_complete k) Hk) as [[i l] Hf].
    rewrite Hf. apply list_find_Some in Hf as (_ & Hl & _). cbn. f_equal. apply kind_name_inj. congruence.
Qed.
