(* ===== verification/Cfg.v ===== *)
(** * Control-flow graphs

    Models [cfg.rs] with [block.rs], [region.rs], [rewrite.rs] and the modules
    [cfg/view.rs], [cfg/mutation.rs], [cfg/regions.rs], [cfg/cleanup.rs],
    [cfg/anchors.rs] and [cfg/compact.rs]: a store of basic blocks and
    classified edges with an entry block and exception metadata, the calls that
    change it, and the view the analyses read. An edge weight is the bits of its
    [f64]; access by mutable reference is the application of a function. Proofs
    are in [CfgTheorems]. *)

From S2P Require Import Prelude Words Liveness Ids View EdgeViews Chains Runs Store StoreView Compress Renumbering Slots Compact Traverse Reach EdgeKinds.

(** ** Identity mappings *)

(** [Rewrite] *)
Record Rewrite : Type := mk_Rewrite {
  rw_blocks : gmap Id (list Id);
  rw_edges : gmap Id (list Id);
  rw_created_blocks : list Id;
  rw_created_edges : list Id;
}.

(** [Rewrite::new], [Rewrite::is_empty] *)
Definition rewrite_new : Rewrite := mk_Rewrite ∅ ∅ [] [].
Definition rewrite_is_empty (m : Rewrite) : bool :=
  bool_decide (rw_blocks m = ∅) && bool_decide (rw_edges m = ∅) &&
  bool_decide (rw_created_blocks m = []) && bool_decide (rw_created_edges m = []).

(** [push_unique] *)
Definition push_unique (run : list Id) (value : Id) : list Id := if decide (value ∈ run) then run else run ++ [value].

(** [unique] *)
Definition unique (values : list Id) : list Id := foldl push_unique [] values.

(** [Rewrite::record_block], [record_edge], [record_created_block], [record_created_edge] *)
Definition record_block (m : Rewrite) (old : Id) (replacements : list Id) : Rewrite :=
  mk_Rewrite (<[old := unique replacements]> (rw_blocks m)) (rw_edges m) (rw_created_blocks m) (rw_created_edges m).
Definition record_edge (m : Rewrite) (old : Id) (replacements : list Id) : Rewrite :=
  mk_Rewrite (rw_blocks m) (<[old := unique replacements]> (rw_edges m)) (rw_created_blocks m) (rw_created_edges m).
Definition record_created_block (m : Rewrite) (block : Id) : Rewrite :=
  mk_Rewrite (rw_blocks m) (rw_edges m) (push_unique (rw_created_blocks m) block) (rw_created_edges m).
Definition record_created_edge (m : Rewrite) (edge : Id) : Rewrite :=
  mk_Rewrite (rw_blocks m) (rw_edges m) (rw_created_blocks m) (push_unique (rw_created_edges m) edge).

(** [replacements_of] *)
Definition replacements_of (m : gmap Id (list Id)) (identity : Id) : list Id := default [identity] (m !! identity).

(** [compose_axis]; [remap_created] is the same loop over one run *)
Definition remap_created (created : list Id) (mappings : gmap Id (list Id)) : list Id :=
  foldl (λ composed replacement, foldl push_unique composed (replacements_of mappings replacement)) [] created.
Definition compose_axis (current next : gmap Id (list Id)) : gmap Id (list Id) := (λ run, remap_created run next) <$> current.

(** [Rewrite::compose]; [entry(old).or_insert(replacements)] is a left-biased union *)
Definition rewrite_compose (m next : Rewrite) : Rewrite :=
  let blocks := compose_axis (rw_blocks m) (rw_blocks next) ∪ rw_blocks next in
  let edges := compose_axis (rw_edges m) (rw_edges next) ∪ rw_edges next in
  mk_Rewrite blocks edges
    (foldl push_unique (remap_created (rw_created_blocks m) blocks) (rw_created_blocks next))
    (foldl push_unique (remap_created (rw_created_edges m) edges) (rw_created_edges next)).

(** [Rewrite::then_renumbered] *)
Definition then_renumbered (m : Rewrite) (r : Renumbering) : Rewrite :=
  let nodes := λ run : list Id, omap (Renumber.node r) run in
  let edges := λ run : list Id, omap (Renumber.edge r) run in
  mk_Rewrite (nodes <$> rw_blocks m) (edges <$> rw_edges m) (nodes (rw_created_blocks m)) (edges (rw_created_edges m)).

(** ** Blocks and exception metadata *)

(** [BasicBlock] *)
Record BasicBlock (I : Type) : Type := mk_BasicBlock { bb_instructions : list I; bb_label : option string }.
Arguments mk_BasicBlock {I} _ _.
Arguments bb_instructions {I} _.
Arguments bb_label {I} _.

Definition block_new {I} : BasicBlock I := mk_BasicBlock [] None.
Definition block_is_empty {I} (b : BasicBlock I) : bool := bool_decide (length (bb_instructions b) = 0).
Definition set_instructions {I} (l : list I) (b : BasicBlock I) : BasicBlock I := mk_BasicBlock l (bb_label b).
Definition push {I} (inst : I) (b : BasicBlock I) : BasicBlock I := set_instructions (bb_instructions b ++ [inst]) b.
Definition set_label {I} (label : string) (b : BasicBlock I) : BasicBlock I := mk_BasicBlock (bb_instructions b) (Some label).

(** [HandlerBody], [HandlerKind], [Handler], [Region] *)
Inductive HandlerBody : Type := UnknownBody | KnownBody (blocks : gset Id).
Inductive HandlerKind : Type := Catch | CatchAll | Finally | Fault | Filter (filter_block : Id).
Record Handler : Type := mk_Handler { hd_entry : Id; hd_body : HandlerBody; hd_kind : HandlerKind }.
Record Region : Type := mk_Region {
  rg_id : Id;
  rg_protected_blocks : gset Id;
  rg_handlers : list Handler;
  rg_parent : option Id;
}.

(** [HandlerBody::blocks] *)
Definition body_blocks (b : HandlerBody) : option (gset Id) :=
  match b with UnknownBody => None | KnownBody blocks => Some blocks end.

(** [HandlerRef], [CompletionReason], [Continuation], [Cleanup] *)
Record HandlerRef : Type := mk_HandlerRef { hr_region : Id; hr_handler : Id }.
Inductive CompletionReason : Type := Normal | Transfer | Return | Unwind.
Record Continuation : Type := mk_Continuation { ct_reason : CompletionReason; ct_resume : Id }.
Record Cleanup : Type := mk_Cleanup {
  cu_handler : HandlerRef;
  cu_resume_from : option Id;
  cu_continuations : list Continuation;
}.

#[export] Instance HandlerRef_eq_dec : EqDecision HandlerRef.
Proof. solve_decision. Defined.
#[export] Instance CompletionReason_eq_dec : EqDecision CompletionReason.
Proof. solve_decision. Defined.
#[export] Instance Continuation_eq_dec : EqDecision Continuation.
Proof. solve_decision. Defined.

(** [HandlerRef::new], [Cleanup::resumes_for] *)
Definition handler_ref (region : Id) (i : nat) : res HandlerRef :=
  mk_HandlerRef region <$> expect (u32_try_from i) "handler index exceeds u32::MAX".
Definition resumes_for (c : Cleanup) (reason : CompletionReason) : list Id :=
  ct_resume <$> filter (λ continuation, ct_reason continuation = reason) (cu_continuations c).

(** ** The graph *)

(** [Cfg] *)
Record Cfg (I E : Type) : Type := mk_Cfg {
  cfg_graph : Graph (BasicBlock I) (Edge E);
  cfg_entry : Id;
  cfg_regions : list Region;
  cfg_cleanups : list Cleanup;
}.
Arguments mk_Cfg {I E} _ _ _ _.
Arguments cfg_graph {I E} _.
Arguments cfg_entry {I E} _.
Arguments cfg_regions {I E} _.
Arguments cfg_cleanups {I E} _.

(** [trait CfgView]: the instructions of a block and the weight of an edge, over
    a rooted view with classified edges *)
Class CfgView (G I D : Type) `{HG : GraphView G} `{HR : !RootedView G} `{HE : !EdgeView G D} `{HK : KindedEdge D} : Type := {
  cv_instructions : G → Id → res (list I);
  cv_edge_weight : G → Id → res (option N);
}.

Section Cfg.
Context {I E : Type}.
Implicit Types c : Cfg I E.

(** The four fields, one at a time *)
Definition set_graph (g : Graph (BasicBlock I) (Edge E)) c : Cfg I E := mk_Cfg g (cfg_entry c) (cfg_regions c) (cfg_cleanups c).
Definition set_regions (regions : list Region) c : Cfg I E := mk_Cfg (cfg_graph c) (cfg_entry c) regions (cfg_cleanups c).
Definition set_cleanups (cleanups : list Cleanup) c : Cfg I E := mk_Cfg (cfg_graph c) (cfg_entry c) (cfg_regions c) cleanups.

(** [Cfg::with_edge_payload], which [Cfg::new] and [Default] call *)
Definition with_edge_payload : res (Cfg I E) :=
  '(graph, entry) ← add_node tagged block_new;
  mret (mk_Cfg graph entry [] []).

(** [Cfg::set_entry] *)
Definition set_entry c (id : Id) : res (Cfg I E) :=
  live ← contains_node (cfg_graph c) id;
  _ ← rassert live "block is not a live block of this CFG";
  mret (mk_Cfg (cfg_graph c) id (cfg_regions c) (cfg_cleanups c)).

(** [Cfg::block], [block_mut], [block_ids], [blocks], [contains_block] *)
Definition block c (id : Id) : res (BasicBlock I) := node (cfg_graph c) id.
Definition block_mut c (id : Id) (f : BasicBlock I → BasicBlock I) : res (Cfg I E) :=
  g ← node_mut (cfg_graph c) id f; mret (set_graph g c).
Definition block_ids c : res (list Id) := node_ids (cfg_graph c).
Definition blocks c : res (list (BasicBlock I)) := ids ← block_ids c; rmapM (block c) ids.
Definition contains_block c (id : Id) : res bool := contains_node (cfg_graph c) id.

(** [Cfg::edge], [edge_ids], [edges], [contains_edge] *)
Definition cfg_edge c (id : Id) : res (EdgeRef (Edge E)) :=
  live ← contains_edge (cfg_graph c) id;
  _ ← rassert live "edge has been removed";
  record ← edge (cfg_graph c) id;
  mret (mk_EdgeRef id (source record) (target record) (payload record)).
Definition cfg_edge_ids c : res (list Id) := edge_ids (cfg_graph c).
Definition cfg_edges c : res (list (EdgeRef (Edge E))) := ids ← cfg_edge_ids c; rmapM (cfg_edge c) ids.
Definition cfg_contains_edge c (id : Id) : res bool := contains_edge (cfg_graph c) id.

(** [Cfg::outgoing], [incoming], [successors], [predecessors] *)
Definition cfg_outgoing c (id : Id) : res (list Id) := outgoing (cfg_graph c) id.
Definition cfg_incoming c (id : Id) : res (list Id) := incoming (cfg_graph c) id.
Definition cfg_successors c (id : Id) : res (list Id) := successors (cfg_graph c) id.
Definition cfg_predecessors c (id : Id) : res (list Id) := predecessors (cfg_graph c) id.

(** [Cfg::sole_outgoing], [sole_incoming]: the edge when there is no other *)
Definition sole (edges : list Id) : option Id := match edges with [e] => Some e | _ => None end.
Definition sole_outgoing c (id : Id) : res (option Id) := sole <$> cfg_outgoing c id.
Definition sole_incoming c (id : Id) : res (option Id) := sole <$> cfg_incoming c id.

(** [Cfg::block_count], [block_bound], [edge_count], [edge_bound] *)
Definition block_count c : nat := node_count (cfg_graph c).
Definition block_bound c : nat := node_bound (cfg_graph c).
Definition cfg_edge_count c : nat := edge_count (cfg_graph c).
Definition cfg_edge_bound c : nat := edge_bound (cfg_graph c).

(** [Cfg::exit_blocks] *)
Definition exit_blocks c : res (list Id) :=
  ids ← block_ids c;
  rfilter (λ id, outs ← cfg_outgoing c id; mret (bool_decide (outs = []))) ids.

(** ** As a view ([cfg/view.rs]) *)

#[export] Instance Cfg_view : GraphView (Cfg I E) := {|
  gv_node_bound := block_bound;
  gv_node_ids := block_ids;
  gv_successors := cfg_successors;
  gv_predecessors := cfg_predecessors;
|}.
#[export] Instance Cfg_rooted : RootedView (Cfg I E) := cfg_entry.
#[export] Instance Cfg_edge_view : EdgeView (Cfg I E) (Edge E) := {|
  ev_edge_bound := cfg_edge_bound;
  ev_edge_ids := cfg_edge_ids;
  ev_outgoing := cfg_outgoing;
  ev_incoming := cfg_incoming;
  ev_edge := cfg_edge;
|}.

(** [impl CfgView for Cfg] *)
#[export] Instance Cfg_cfg_view : CfgView (Cfg I E) I (Edge E) := {|
  cv_instructions c id := bb_instructions <$> block c id;
  cv_edge_weight c e := r ← cfg_edge c e; mret (edge_weight (er_data r));
|}.

(** ** Structural mutation ([cfg/mutation.rs]) *)

(** [Cfg::new_block] *)
Definition new_block c : res (Cfg I E * Id) :=
  '(g, id) ← add_node (cfg_graph c) block_new; mret (set_graph g c, id).

(** [Cfg::remove_block] *)
Definition remove_block c (id : Id) : res (Cfg I E * bool) :=
  _ ← rassert (bool_decide (id ≠ cfg_entry c)) "the entry block cannot be removed";
  '(g, removed) ← remove_node (cfg_graph c) id; mret (set_graph g c, removed).

(** [Cfg::remove_block_recording], [remove_block_mapped] *)
Definition remove_block_recording c (id : Id) (mapping : Rewrite) : res (Cfg I E * bool * Rewrite) :=
  live ← contains_block c id;
  if negb live then mret (c, false, mapping) else
  outs ← cfg_outgoing c id;
  ins ← cfg_incoming c id;
  let mapping := foldl (λ m e, record_edge m e []) mapping (outs ++ ins) in
  let mapping := record_block mapping id [] in
  '(c, removed) ← remove_block c id;
  mret (c, removed, mapping).
Definition remove_block_mapped c (id : Id) : res (Cfg I E * bool * Rewrite) := remove_block_recording c id rewrite_new.

(** [Cfg::add_edge_with_payload], [add_weighted_edge_with_payload]; [add_edge]
    and [add_weighted_edge] pass the default payload *)
Definition add_edge_with_payload c (source target : Id) (kind : EdgeKind) (p : E) : res (Cfg I E * Id) :=
  '(g, id) ← add_edge (cfg_graph c) source target (mk_Edge kind None p); mret (set_graph g c, id).
Definition add_weighted_edge_with_payload c (source target : Id) (kind : EdgeKind) (weight : N) (p : E)
    : res (Cfg I E * Id) :=
  '(g, id) ← add_edge (cfg_graph c) source target (mk_Edge kind (Some weight) p); mret (set_graph g c, id).

(** [Cfg::remove_edge], [remove_edge_mapped] *)
Definition cfg_remove_edge c (id : Id) : res (Cfg I E * bool) :=
  '(g, removed) ← remove_edge (cfg_graph c) id; mret (set_graph g c, removed).
Definition remove_edge_mapped c (id : Id) : res (Cfg I E * bool * Rewrite) :=
  '(c, removed) ← cfg_remove_edge c id;
  mret (c, removed, if removed : bool then record_edge rewrite_new id [] else rewrite_new).

(** [Cfg::move_outgoing_edges] *)
Definition move_outgoing_edges c (old new_source : Id) : res (Cfg I E) :=
  if decide (old = new_source) then mret c
  else g ← move_adjacency (cfg_graph c) old new_source Outgoing; mret (set_graph g c).

(** [Cfg::extend_exception_metadata_to_tail] *)
Definition join_tail (head tail : Id) (blocks : gset Id) : gset Id :=
  if decide (head ∈ blocks) then {[tail]} ∪ blocks else blocks.
Definition extend_handler (head tail : Id) (h : Handler) : Handler :=
  match hd_body h with
  | KnownBody blocks => mk_Handler (hd_entry h) (KnownBody (join_tail head tail blocks)) (hd_kind h)
  | UnknownBody => h
  end.
Definition extend_region (head tail : Id) (r : Region) : Region :=
  mk_Region (rg_id r) (join_tail head tail (rg_protected_blocks r)) (extend_handler head tail <$> rg_handlers r) (rg_parent r).
Definition extend_cleanup (head tail : Id) (u : Cleanup) : Cleanup :=
  if decide (cu_resume_from u = Some head) then mk_Cleanup (cu_handler u) (Some tail) (cu_continuations u) else u.
Definition extend_exception_metadata_to_tail c (head tail : Id) : Cfg I E :=
  set_cleanups (extend_cleanup head tail <$> cfg_cleanups c) (set_regions (extend_region head tail <$> cfg_regions c) c).

(** [Cfg::split_block_with_payload_inner]; [split_block], [split_block_with_payload]
    and [split_block_with_payload_mapped] call it *)
Definition split_off (at_ : nat) (l : list I) : res (list I * list I) :=
  _ ← rassert (bool_decide (at_ ≤ length l)) "split_off index out of bounds"; mret (take at_ l, drop at_ l).
Definition split_block_inner c (id : Id) (at_ : nat) (fallthrough_payload : E) (mapping : option Rewrite)
    : res (Cfg I E * Id * option Rewrite) :=
  b ← block c id;
  '(kept, tail_instructions) ← split_off at_ (bb_instructions b);
  c ← block_mut c id (set_instructions kept);
  '(c, new_id) ← new_block c;
  c ← block_mut c new_id (set_instructions tail_instructions);
  c ← move_outgoing_edges c id new_id;
  let c := extend_exception_metadata_to_tail c id new_id in
  '(c, fallthrough) ← add_edge_with_payload c id new_id Fallthrough fallthrough_payload;
  match mapping with
  | None => mret (c, new_id, None)
  | Some m =>
      outs ← cfg_outgoing c new_id;
      let m := record_created_block (record_block m id [id; new_id]) new_id in
      let m := foldl (λ m e, record_edge m e [e]) m outs in
      mret (c, new_id, Some (record_created_edge m fallthrough))
  end.
Definition split_block_with_payload c (id : Id) (at_ : nat) (p : E) : res (Cfg I E * Id) :=
  '(c, new_id, _) ← split_block_inner c id at_ p None; mret (c, new_id).
Definition split_block_with_payload_mapped c (id : Id) (at_ : nat) (p : E) : res (Cfg I E * Id * Rewrite) :=
  '(c, new_id, m) ← split_block_inner c id at_ p (Some rewrite_new); mret (c, new_id, default rewrite_new m).

(** [SplitPointError] *)
Inductive SplitPointError : Type :=
  | OutOfBounds (point instruction_count : nat)
  | NotStrictlyIncreasing (previous point : nat).

(** The validation loop of [Cfg::split_block_at_points_with_payloads] *)
Fixpoint check_points (instruction_count : nat) (previous : option nat) (points : list (nat * E)) : option SplitPointError :=
  match points with
  | [] => None
  | (point, _) :: points =>
      if decide (instruction_count < point) then Some (OutOfBounds point instruction_count) else
      match previous with
      | Some previous =>
          if decide (point ≤ previous) then Some (NotStrictlyIncreasing previous point)
          else check_points instruction_count (Some point) points
      | None => check_points instruction_count (Some point) points
      end
  end.

(** [Cfg::split_block_at_points_with_payloads] *)
Definition split_at_point (acc : Cfg I E * list Id * Rewrite * Id * nat) (point : nat * E)
    : res (Cfg I E * list Id * Rewrite * Id * nat) :=
  let '(c, bs, mapping, current, base) := acc in
  let '(at_, p) := point in
  '(c, tail, split) ← split_block_with_payload_mapped c current (at_ - base) p;
  mret (c, bs ++ [tail], rewrite_compose mapping split, tail, at_).
Definition split_block_at_points_with_payloads c (id : Id) (points : list (nat * E))
    : res (Cfg I E * (list Id * Rewrite + SplitPointError)) :=
  b ← block c id;
  match check_points (length (bb_instructions b)) None points with
  | Some error => mret (c, inr error)
  | None =>
      '(c, bs, mapping, _, _) ← rfold split_at_point (c, [id], rewrite_new, id, 0) points;
      mret (c, inl (bs, mapping))
  end.

(** [Cfg::redirect_edges_to_inner]; [redirect_edges_to] and its mapped variant call it *)
Definition redirect_edges_to_inner c (old new_target : Id) (mapping : option Rewrite) : res (Cfg I E * option Rewrite) :=
  if decide (old = new_target) then mret (c, mapping) else
  mapping ← match mapping with
            | None => mret None
            | Some m => ins ← cfg_incoming c old; mret (Some (foldl (λ m e, record_edge m e [e]) m ins))
            end;
  g ← move_adjacency (cfg_graph c) old new_target Incoming;
  mret (set_graph g c, mapping).
Definition redirect_edges_to c (old new_target : Id) : res (Cfg I E) := fst <$> redirect_edges_to_inner c old new_target None.

(** [Cfg::redirect_edge_source], [redirect_edge_target] and their mapped variants *)
Definition cfg_redirect (d : TraversalDirection) c (e n : Id) : res (Cfg I E * Id) :=
  '(g, old) ← redirect (cfg_graph c) e n d; mret (set_graph g c, old).
Definition cfg_redirect_mapped (d : TraversalDirection) c (e n : Id) : res (Cfg I E * Id * Rewrite) :=
  '(c, old) ← cfg_redirect d c e n;
  mret (c, old, if decide (old = n) then rewrite_new else record_edge rewrite_new e [e]).

(** [Cfg::edge_mut] *)
Definition cfg_edge_mut c (e : Id) (f : Edge E → Edge E) : res (Cfg I E) :=
  live ← contains_edge (cfg_graph c) e;
  _ ← rassert live "edge has been removed";
  g ← edge_mut (cfg_graph c) e (payload_mut f); mret (set_graph g c).

(** ** Exception metadata ([cfg/regions.rs], [cfg/cleanup.rs]) *)

(** [Cfg::region], [handler], [region_mut], [handler_mut] *)
Definition region c (id : Id) : option Region := cfg_regions c !! index id.
Definition handler c (h : HandlerRef) : option Handler := r ← region c (hr_region h); rg_handlers r !! index (hr_handler h).
Definition region_mut c (id : Id) (f : Region → Region) : Cfg I E := set_regions (alter f (index id) (cfg_regions c)) c.
Definition handler_mut c (h : HandlerRef) (f : Handler → Handler) : Cfg I E :=
  region_mut c (hr_region h)
    (λ r, mk_Region (rg_id r) (rg_protected_blocks r) (alter f (index (hr_handler h)) (rg_handlers r)) (rg_parent r)).

(** [Cfg::remove_region] *)
Definition remove_region c (id : Id) : Cfg I E * option Region :=
  match cfg_regions c !! index id with
  | None => (c, None)
  | Some removed =>
      let regions := <[index id := mk_Region id ∅ [] None]> (cfg_regions c) in
      (set_cleanups (filter (λ u, hr_region (cu_handler u) ≠ id) (cfg_cleanups c)) (set_regions regions c), Some removed)
  end.

(** [Cfg::remove_unreachable_regions] *)
Definition is_doomed (reached : list bool) (r : Region) : bool :=
  bool_decide (rg_handlers r ≠ []) && forallb (λ h, negb (default false (reached !! index (hd_entry h)))) (rg_handlers r).
Definition remove_unreachable_regions c : res (Cfg I E * nat) :=
  reached ← reachable c [cfg_entry c] Outgoing;
  let doomed := rg_id <$> filter (λ r, is_doomed reached r = true) (cfg_regions c) in
  mret (foldl (λ c id, fst (remove_region c id)) c doomed, length doomed).

(** [Cfg::add_region] *)
Definition add_region c (r : Region) : res (Cfg I E * Id) :=
  id ← expect (u32_try_from (length (cfg_regions c))) "region index exceeds u32::MAX";
  mret (set_regions (cfg_regions c ++ [mk_Region id (rg_protected_blocks r) (rg_handlers r) (rg_parent r)]) c, id).

(** [Cfg::protecting_region] *)
Definition protecting_region c (b : Id) : option Region :=
  snd <$> list_find (λ r, b ∈ rg_protected_blocks r) (reverse (cfg_regions c)).

(** [Cfg::cleanup], [handler_exists], [cleanup_entry] *)
Definition cleanup c (h : HandlerRef) : option Cleanup := snd <$> list_find (λ u, cu_handler u = h) (cfg_cleanups c).
Definition handler_exists c (h : HandlerRef) : bool :=
  match cfg_regions c !! index (hr_region h) with
  | Some r => bool_decide (index (hr_handler h) < length (rg_handlers r))
  | None => false
  end.
Definition cleanup_entry (cleanups : list Cleanup) (h : HandlerRef) (f : Cleanup → Cleanup) : list Cleanup :=
  match list_find (λ u, cu_handler u = h) cleanups with
  | Some (i, _) => alter f i cleanups
  | None => cleanups ++ [f (mk_Cleanup h None [])]
  end.

(** [Cfg::add_continuation], [set_cleanup_resume] *)
Definition push_continuation (continuation : Continuation) (u : Cleanup) : Cleanup :=
  if decide (continuation ∈ cu_continuations u) then u
  else mk_Cleanup (cu_handler u) (cu_resume_from u) (cu_continuations u ++ [continuation]).
Definition add_continuation c (h : HandlerRef) (continuation : Continuation) : res (Cfg I E) :=
  _ ← rassert (handler_exists c h) "handler does not exist in this CFG";
  mret (set_cleanups (cleanup_entry (cfg_cleanups c) h (push_continuation continuation)) c).
Definition set_cleanup_resume c (h : HandlerRef) (resume_from : Id) : res (Cfg I E) :=
  _ ← rassert (handler_exists c h) "handler does not exist in this CFG";
  live ← contains_block c resume_from;
  _ ← rassert live "resume block does not exist in this CFG";
  mret (set_cleanups (cleanup_entry (cfg_cleanups c) h (λ u, mk_Cleanup (cu_handler u) (Some resume_from) (cu_continuations u))) c).

(** ** Anchors and compaction ([cfg/anchors.rs], [cfg/compact.rs]) *)

(** [Cfg::anchors] *)
Definition handler_anchors (h : Handler) : list Id :=
  hd_entry h :: match hd_kind h with Filter filter_block => [filter_block] | _ => [] end.
Definition cleanup_anchors (u : Cleanup) : list Id := option_list (cu_resume_from u) ++ (ct_resume <$> cu_continuations u).
Definition anchors c : list Id :=
  (cfg_regions c ≫= λ r, rg_handlers r ≫= handler_anchors) ++ (cfg_cleanups c ≫= cleanup_anchors).

(** [Cfg::dangling_anchors], [is_anchor], [can_fold_into] *)
Definition dangling_anchors c : res (list Id) := rfilter (λ a, negb <$> contains_block c a) (anchors c).
Definition is_anchor c (b : Id) : bool := bool_decide (b ∈ anchors c).
Definition same_side (x y : Id) (blocks : gset Id) : bool := eqb (bool_decide (x ∈ blocks)) (bool_decide (y ∈ blocks)).
Definition can_fold_into c (source target : Id) : bool :=
  negb (is_anchor c target) &&
  forallb (λ r, same_side source target (rg_protected_blocks r) &&
    forallb (λ h, match body_blocks (hd_body h) with None => true | Some blocks => same_side source target blocks end)
      (rg_handlers r)) (cfg_regions c).

(** [Cfg::is_compact] *)
Definition cfg_is_compact c : bool := (block_count c =? block_bound c) && (cfg_edge_count c =? cfg_edge_bound c).

(** [require], [retain_surviving], [renumber_handler], [renumber_region] *)
Definition require (r : Renumbering) (b : Id) (role : string) : res Id :=
  expect (Renumber.node r b) ("the " +:+ role +:+ " was removed before compaction").
Definition retain_surviving (blocks : gset Id) (r : Renumbering) : gset Id :=
  list_to_set (omap (Renumber.node r) (elements blocks)).
Definition renumber_handler (r : Renumbering) (h : Handler) : res Handler :=
  entry ← require r (hd_entry h) "handler entry block";
  let body := match hd_body h with KnownBody blocks => KnownBody (retain_surviving blocks r) | UnknownBody => UnknownBody end in
  kind ← match hd_kind h with
         | Filter filter_block => Filter <$> require r filter_block "handler filter block"
         | kind => mret kind
         end;
  mret (mk_Handler entry body kind).
Definition renumber_region (r : Renumbering) (rg : Region) : res Region :=
  handlers ← rmapM (renumber_handler r) (rg_handlers rg);
  mret (mk_Region (rg_id rg) (retain_surviving (rg_protected_blocks rg) r) handlers (rg_parent rg)).
Definition renumber_cleanup (r : Renumbering) (u : Cleanup) : res Cleanup :=
  resume_from ← match cu_resume_from u with
                | Some b => Some <$> require r b "cleanup resume block"
                | None => mret None
                end;
  continuations ← rmapM (λ k, mk_Continuation (ct_reason k) <$> require r (ct_resume k) "cleanup continuation") (cu_continuations u);
  mret (mk_Cleanup (cu_handler u) resume_from continuations).

(** [Cfg::compact] *)
Definition cfg_compact c : res (Cfg I E * Renumbering) :=
  '(g, r) ← compact (cfg_graph c);
  entry ← require r (cfg_entry c) "entry block";
  regions ← rmapM (renumber_region r) (cfg_regions c);
  cleanups ← rmapM (renumber_cleanup r) (cfg_cleanups c);
  mret (mk_Cfg g entry regions cleanups, r).
End Cfg.

(** [RegionIndex::compute], [RegionIndex::protecting] *)
Definition region_index {I E} (c : Cfg I E) : list (option Id) :=
  foldl (λ innermost r, foldl (λ innermost b, alter (λ _, Some (rg_id r)) (index b) innermost) innermost
      (merge_sort N.le (elements (rg_protected_blocks r)))) (replicate (block_bound c) None) (cfg_regions c).
Definition protecting (innermost : list (option Id)) (b : Id) : option Id := default None (innermost !! index b).
