(* ===== verification/CfgTraces.v ===== *)
(** * Executions of a control-flow graph

    The executions of a control-flow graph are traces of the instructions run
    and the edges taken, read off the abstract graph of [StoreSpec] its store
    stands for. An edge leaves where [dataflow/unwind.rs] says it does: an unwind
    edge before each instruction of its block that throws, every other edge, and
    the unwind edges of a block that never throws, at the block's end. Splitting
    a block simulates the graph it splits, both ways, unless the split parts an
    instruction that throws from its unwind edges. *)

From S2P Require Import Prelude Words Liveness Ids View EdgeViews Chains Runs Store StoreInv StoreSpec StoreView Compress Renumbering Slots Compact History Traverse Reach EdgeKinds Cfg.

(** ** Reading a represented store *)

Section Reading.
Context {NP EP : Type} (g : Graph NP EP) (a : agraph NP EP) (Hr : repr g a).

Lemma repr_adj d n e :
  e ∈ a_adj a d n ↔ a_elive a e = true ∧ ∃ r, a_edges a !! index e = Some r ∧ endpoint d r = n.
Proof using Hr.
  destruct (rp_inv _ _ Hr) as (L & Hinv & Hadj). rewrite <-Hadj, (elem_of_adj g L Hinv), (rp_elive _ _ Hr), (rp_edges _ _ Hr).
  by setoid_rewrite index_eq_iff.
Qed.

Lemma repr_adj_nodup d n : NoDup (a_adj a d n).
Proof using Hr. destruct (rp_inv _ _ Hr) as (L & Hinv & Hadj). rewrite <-Hadj. apply (adj_nodup _ _ Hinv). Qed.

Lemma repr_edge e : a_elive a e = true →
  ∃ r, a_edges a !! index e = Some r ∧ ∀ d, a_nlive a (endpoint d r) = true.
Proof using Hr.
  destruct (rp_inv _ _ Hr) as (L & Hinv & _). rewrite <-(rp_elive _ _ Hr). intros He.
  destruct (live_edge_record g L Hinv e He) as (r & Hrec & Hends). exists r. rewrite <-(rp_edges _ _ Hr). split; [done|].
  intros d. by rewrite <-(rp_nlive _ _ Hr).
Qed.

Lemma repr_nlive_lt n : a_nlive a n = true → index n < length (a_nodes a).
Proof using Hr.
  destruct (rp_inv _ _ Hr) as (L & Hinv & _). rewrite <-(rp_nlive _ _ Hr), <-(repr_node_bound _ _ Hr). apply (nlive_lt _ _ Hinv).
Qed.

Lemma repr_elive_lt e : a_elive a e = true → index e < length (a_edges a).
Proof using Hr.
  destruct (rp_inv _ _ Hr) as (L & Hinv & _). rewrite <-(rp_elive _ _ Hr), <-(repr_edge_bound _ _ Hr). apply (elive_lt _ _ Hinv).
Qed.

Lemma repr_contains_node n : contains_node g n = Ok (a_nlive a n).
Proof using Hr. destruct (rp_inv _ _ Hr) as (L & Hinv & _). by rewrite (contains_node_Ok g L Hinv), (rp_nlive _ _ Hr). Qed.

Lemma repr_contains_edge e : contains_edge g e = Ok (a_elive a e).
Proof using Hr. destruct (rp_inv _ _ Hr) as (L & Hinv & _). by rewrite (contains_edge_Ok g L Hinv), (rp_elive _ _ Hr). Qed.

Lemma repr_node n p : node g n = Ok p ↔ a_nodes a !! index n = Some p.
Proof using Hr. by rewrite node_lookup, (rp_nodes _ _ Hr). Qed.

Lemma repr_record e r : edge g e = Ok r ↔ a_edges a !! index e = Some r.
Proof using Hr. by rewrite edge_lookup, (rp_edges _ _ Hr). Qed.

Lemma repr_adjacency d n : index n < length (a_nodes a) → adjacency g d n = Ok (a_adj a d n).
Proof using Hr.
  destruct (rp_inv _ _ Hr) as (L & Hinv & Hadj). rewrite <-(repr_node_bound _ _ Hr), <-Hadj. apply (adjacency_Ok g L Hinv).
Qed.

(** A call the abstract graph allows *)
Lemma repr_exec ev a' r : a_step a ev = Some (a', r) → ∃ g', exec g ev = Ok (g', r) ∧ repr g' a'.
Proof using Hr. intros Hs. pose proof (step_refines g a ev Hr) as H. unfold StoreSpec.refines in H. by rewrite Hs in H. Qed.
End Reading.

(** ** Executions *)

(** What an execution shows: the instructions run, and the edges taken of those
    that are watched. *)
Inductive cfg_event (I : Type) : Type := Ran (x : I) | Took (e : Id).
Arguments Ran {I} _.
Arguments Took {I} _.

(** Where an edge leaves a block with the instructions [l]
    ([departs_before_throws]): at the end, or, an unwind edge of a block with
    instructions that throw, before any of those. *)
Section Departures.
Context {I : Type} (throws : I → bool).
Implicit Types (l : list I) (i : nat) (unwinding : bool).

Definition departs l unwinding i : Prop :=
  if unwinding && existsb throws l then ∃ x, l !! i = Some x ∧ throws x = true else i = length l.

Lemma departs_nil unwinding i : departs [] unwinding i ↔ i = 0.
Proof. unfold departs. cbn. by rewrite andb_false_r. Qed.

Lemma existsb_true l : existsb throws l = true ↔ ∃ i x, l !! i = Some x ∧ throws x = true.
Proof.
  rewrite existsb_exists. split.
  - intros (x & Hx%list_elem_of_In & Ht). apply list_elem_of_lookup in Hx as [i Hi]. eauto.
  - intros (i & x & Hi%list_elem_of_lookup_2%list_elem_of_In & Ht). eauto.
Qed.

Lemma existsb_lookup l i x : existsb throws l = false → l !! i = Some x → throws x = false.
Proof.
  intros Hl Hi. destruct (throws x) eqn:Ht; [|done]. assert (existsb throws l = true) as Hl' by (apply existsb_true; eauto). congruence.
Qed.

(** Nothing leaves before instructions in front that do not throw. *)
Lemma departs_app l1 l2 unwinding i : (unwinding = true → existsb throws l1 = false) →
  departs (l1 ++ l2) unwinding i ↔ length l1 ≤ i ∧ departs l2 unwinding (i - length l1).
Proof.
  intros Hl. unfold departs. rewrite existsb_app. destruct unwinding; cbn [andb]; [rewrite Hl by done|rewrite length_app; lia].
  cbn [orb]. destruct (existsb throws l2); [|rewrite length_app; lia]. split.
  - intros (x & Hx & Ht). destruct (decide (length l1 ≤ i)) as [Hi|Hi].
    + split; [done|]. exists x. by rewrite lookup_app_r in Hx.
    + rewrite lookup_app_l in Hx by lia. pose proof (existsb_lookup _ _ _ (Hl eq_refl) Hx). congruence.
  - intros (Hi & x & Hx & Ht). exists x. by rewrite lookup_app_r.
Qed.

Lemma departs_split l at_ unwinding i : (unwinding = true → existsb throws (take at_ l) = false) → at_ ≤ length l →
  departs l unwinding i ↔ at_ ≤ i ∧ departs (drop at_ l) unwinding (i - at_).
Proof.
  intros Hl Hat. rewrite <-(take_drop at_ l) at 1. rewrite departs_app by done. by rewrite length_take, Nat.min_l.
Qed.
End Departures.

Section Executions.
Context {I E : Type} (throws : I → bool) (seen : Id → Prop).
Implicit Types (c : Cfg I E) (p q : Id * nat) (l : list (cfg_event I)).

(** What taking an edge shows *)
Definition shows (e : Id) l : Prop := seen e ∧ l = [Took e] ∨ ¬ seen e ∧ l = [].

Definition unwind_kind (k : EdgeKind) : bool := bool_decide (k = ExceptionUnwind).

(** From a point of a block to the next: run the instruction there, or leave by
    an edge that departs there. *)
Inductive step c : Id * nat → list (cfg_event I) → Id * nat → Prop :=
  | step_run b i blk x :
      block c b = Ok blk → bb_instructions blk !! i = Some x → step c (b, i) [Ran x] (b, S i)
  | step_leave b i blk outs e r l :
      block c b = Ok blk → cfg_outgoing c b = Ok outs → e ∈ outs → cfg_edge c e = Ok r →
      departs throws (bb_instructions blk) (unwind_kind (kind_of (er_data r))) i → shows e l →
      step c (b, i) l (er_target r, 0).

End Executions.

Section Runs.
Context {I : Type}.
Implicit Types (S : Id * nat → list (cfg_event I) → Id * nat → Prop) (p q r : Id * nat) (l : list (cfg_event I)).

Inductive runs S : Id * nat → list (cfg_event I) → Id * nat → Prop :=
  | runs_nil p : runs S p [] p
  | runs_cons p o p' l q : S p o p' → runs S p' l q → runs S p (o ++ l) q.

Lemma runs_trans S p l1 q l2 r : runs S p l1 q → runs S q l2 r → runs S p (l1 ++ l2) r.
Proof. induction 1; [done|]. intros Hr. rewrite <-app_assoc. econstructor; eauto. Qed.

Lemma runs_one S p o q : S p o q → runs S p o q.
Proof. intros Hs. rewrite <-(app_nil_r o). econstructor; [done|constructor]. Qed.

(** First in silence, then as [l] says *)
Lemma runs_after S p q l r : runs S p [] q → runs S q l r → runs S p l r.
Proof. apply runs_trans. Qed.

Lemma runs_before S p l q r : runs S p l q → runs S q [] r → runs S p l r.
Proof. intros H1 H2. rewrite <-(app_nil_r l). by eapply runs_trans. Qed.

Lemma runs_iff S S' p l q : (∀ p o q, S p o q ↔ S' p o q) → runs S p l q ↔ runs S' p l q.
Proof. intros HS. split; induction 1; econstructor; try done; by apply HS. Qed.

(** A simulation that answers every step with a run of the same label *)
Lemma simulation_runs S S' (R : Id * nat → Id * nat → Prop) :
  (∀ p q o p', R p q → S p o p' → ∃ q', runs S' q o q' ∧ R p' q') →
  ∀ p q l p', R p q → runs S p l p' → ∃ q', runs S' q l q' ∧ R p' q'.
Proof.
  intros Hsim p q l p' HR Hrun. revert q HR. induction Hrun as [p|p o p1 l p2 Hs _ IH]; intros q HR; [exists q; split; [constructor|done]|].
  destruct (Hsim _ _ _ _ HR Hs) as (q1 & Hq & HR1). destruct (IH _ HR1) as (q2 & Hq2 & HR2). exists q2. split; [by eapply runs_trans|done].
Qed.
End Runs.

(** [l] can be seen in [c] from [p] on, of the edges in [seen], where the
    instructions in [throws] may. *)
Definition trace {I E} (throws : I → bool) (seen : Id → Prop) (c : Cfg I E) (p : Id * nat) (l : list (cfg_event I)) : Prop :=
  ∃ q, runs (step throws seen c) p l q.

(** An unwind edge leaves the block. *)
Definition unwinds_out {I E} (c : Cfg I E) (b : Id) : Prop :=
  ∃ outs e r, cfg_outgoing c b = Ok outs ∧ e ∈ outs ∧ cfg_edge c e = Ok r ∧ kind_of (er_data r) = ExceptionUnwind.

(** The same steps of the abstract graph *)
Section Abstract.
Context {I E : Type} (throws : I → bool) (seen : Id → Prop).
Implicit Types (c : Cfg I E) (a : agraph (BasicBlock I) (Edge E)).

Definition code a (b : Id) : list I := default [] (bb_instructions <$> a_nodes a !! index b).
Definition goes a (b e t : Id) : Prop := e ∈ a_adj a Outgoing b ∧ ∃ r, a_edges a !! index e = Some r ∧ target r = t.
Definition unwinding a (e : Id) : bool := default false ((λ r, unwind_kind (kind_of (payload r))) <$> a_edges a !! index e).
Definition a_unwinds a (b : Id) : Prop := ∃ e t, goes a b e t ∧ unwinding a e = true.

Inductive astep a : Id * nat → list (cfg_event I) → Id * nat → Prop :=
  | astep_run b i x : code a b !! i = Some x → astep a (b, i) [Ran x] (b, S i)
  | astep_leave b i e t l : goes a b e t → departs throws (code a b) (unwinding a e) i → shows seen e l → astep a (b, i) l (t, 0).

Lemma block_code c a b blk : repr (cfg_graph c) a → block c b = Ok blk → code a b = bb_instructions blk.
Proof. intros Hr Hb. unfold code. apply (repr_node _ _ Hr) in Hb. by rewrite Hb. Qed.

Lemma goes_live c a b e t : repr (cfg_graph c) a → goes a b e t →
  a_nlive a b = true ∧ a_nlive a t = true ∧ a_elive a e = true.
Proof.
  intros Hr [He (r & Hrec & <-)]. apply (repr_adj _ _ Hr) in He as (He & r' & Hrec' & Hb). simplify_eq.
  destruct (repr_edge _ _ Hr e He) as (r2 & Hrec2 & Hends). simplify_eq.
  split_and!; [apply (Hends Outgoing)|apply (Hends Incoming)|done].
Qed.

Lemma goes_reads c a b e : repr (cfg_graph c) a →
  ∀ t u, goes a b e t ∧ unwinding a e = u ↔ ∃ blk outs r, block c b = Ok blk ∧ cfg_outgoing c b = Ok outs ∧ e ∈ outs ∧ cfg_edge c e = Ok r ∧
    er_target r = t ∧ unwind_kind (kind_of (er_data r)) = u.
Proof.
  intros Hr t u. unfold unwinding. split.
  - intros [Hg Hu]. pose proof (goes_live c a b e t Hr Hg) as (Hb & _ & Hlive). destruct Hg as [He (r & Hrec & <-)].
    pose proof (repr_nlive_lt _ _ Hr b Hb) as Hlt. destruct (lookup_lt_is_Some_2 _ _ Hlt) as [blk Hblk]. rewrite Hrec in Hu.
    exists blk, (a_adj a Outgoing b), (mk_EdgeRef e (source r) (target r) (payload r)). split_and!.
    + by apply (repr_node _ _ Hr).
    + by apply (repr_adjacency _ _ Hr).
    + done.
    + unfold cfg_edge. rewrite (repr_contains_edge _ _ Hr), Hlive. rsimpl. apply (repr_record _ _ Hr) in Hrec. by rewrite Hrec.
    + done.
    + exact Hu.
  - intros (blk & outs & r & Hblk & Houts & He & Hedge & <- & <-). apply (repr_node _ _ Hr) in Hblk. apply lookup_lt_Some in Hblk.
    unfold cfg_outgoing, outgoing in Houts. rewrite (repr_adjacency _ _ Hr) in Houts by done. injection Houts as <-.
    unfold cfg_edge in Hedge. rewrite (repr_contains_edge _ _ Hr) in Hedge. destruct (a_elive a e); rsimpl; [|done].
    cbn in Hedge. destruct (edge (cfg_graph c) e) as [rec| |] eqn:Hrec; [|done..]. cbn in Hedge. injection Hedge as <-.
    apply (repr_record _ _ Hr) in Hrec. rewrite Hrec. split; [|done]. split; [done|]. by exists rec.
Qed.

Lemma unwinds_reads c a b : repr (cfg_graph c) a → a_nlive a b = true → a_unwinds a b ↔ unwinds_out c b.
Proof.
  intros Hr Hb. unfold a_unwinds, unwinds_out. split.
  - intros (e & t & Hg). apply (goes_reads c a b e Hr) in Hg as (blk & outs & r & _ & Ho & He & Hr' & _ & Hk).
    exists outs, e, r. by apply bool_decide_eq_true in Hk.
  - intros (outs & e & r & Ho & He & Hr' & Hk). exists e, (er_target r). apply (goes_reads c a b e Hr).
    destruct (lookup_lt_is_Some_2 _ _ (repr_nlive_lt _ _ Hr b Hb)) as [blk Hblk]. exists blk, outs, r.
    split_and!; [by apply (repr_node _ _ Hr)|done..|by apply bool_decide_eq_true].
Qed.

Lemma step_abstract c a : repr (cfg_graph c) a → ∀ p o q, step throws seen c p o q ↔ astep a p o q.
Proof.
  intros Hr p o q. split.
  - intros [b i blk x Hb Hx|b i blk outs e r l Hb Ho He Hr' Hd Hs].
    + constructor. by rewrite (block_code c a b blk).
    + destruct (proj2 (goes_reads c a b e Hr (er_target r) _) ltac:(eauto 10)) as [Hg Hu].
      eapply astep_leave; [exact Hg| |done]. by rewrite (block_code c a b blk), Hu.
  - intros [b i x Hx|b i e t l Hg Hd Hs].
    + unfold code in Hx. destruct (a_nodes a !! index b) as [blk|] eqn:Hb; [|done]. cbn in Hx.
      eapply step_run; [by apply (repr_node _ _ Hr)|done].
    + destruct (proj1 (goes_reads c a b e Hr t _) (conj Hg eq_refl)) as (blk & outs & r & Hb & Ho & He & Hr' & <- & Hu).
      rewrite (block_code c a b blk), <-Hu in Hd by done. by econstructor.
Qed.

Lemma trace_abstract c a p l : repr (cfg_graph c) a → trace throws seen c p l ↔ ∃ q, runs (astep a) p l q.
Proof. intros Hr. unfold trace. by setoid_rewrite (runs_iff _ _ _ _ _ (step_abstract c a Hr)). Qed.

End Abstract.

(** ** Splitting a block *)

Section Split.
Context {I E : Type}.
Implicit Types (c : Cfg I E) (a : agraph (BasicBlock I) (Edge E)).

Lemma fresh_no_edges g a d (n : Id) : repr (NP := BasicBlock I) (EP := Edge E) g a → length (a_nodes a) ≤ index n → a_adj a d n = [].
Proof.
  intros Hr Hn. apply elem_of_nil_inv. intros e (He & r & Hrec & <-)%(repr_adj _ _ Hr).
  destruct (repr_edge _ _ Hr e He) as (r' & Hrec' & Hends). simplify_eq. specialize (Hends d). apply (repr_nlive_lt _ _ Hr) in Hends. lia.
Qed.

Lemma new_block_spec c a : repr (cfg_graph c) a → (N.of_nat (length (a_nodes a)) < MAX_SLOTS)%N →
  ∃ g, new_block c = Ok (set_graph g c, N.of_nat (length (a_nodes a))) ∧ repr g (a_add_node a block_new).
Proof.
  intros Hr Hfree. destruct (repr_exec _ _ Hr (AddNode block_new) _ _ ltac:(cbn; by rewrite decide_True)) as (g & Hrun & Hg).
  exists g. split; [|done]. unfold new_block. cbn in Hrun. destruct (add_node (cfg_graph c) block_new) as [[g' i]| |]; [|done..].
  cbn in Hrun |- *. by injection Hrun as -> ->.
Qed.

Lemma block_mut_spec c a id f : repr (cfg_graph c) a → index id < length (a_nodes a) →
  ∃ g, block_mut c id f = Ok (set_graph g c) ∧
    repr g (mk_agraph (alter f (index id) (a_nodes a)) (a_edges a) (a_nlive a) (a_elive a) (a_adj a)).
Proof.
  intros Hr Hid. destruct (repr_exec _ _ Hr (SetNode id f) _ _ ltac:(cbn; by rewrite decide_True)) as (g & Hrun & Hg).
  exists g. split; [|done]. unfold block_mut. cbn in Hrun. destruct (node_mut (cfg_graph c) id f); [|done..]. cbn in Hrun |- *. by injection Hrun as ->.
Qed.

Lemma cfg_add_edge_spec c a s t k p : repr (cfg_graph c) a → a_nlive a s = true → a_nlive a t = true → (N.of_nat (length (a_edges a)) < MAX_SLOTS)%N →
  ∃ g, add_edge_with_payload c s t k p = Ok (set_graph g c, N.of_nat (length (a_edges a))) ∧ repr g (a_add_edge a s t (mk_Edge k None p)).
Proof.
  intros Hr Hs Ht Hfree. destruct (repr_exec _ _ Hr (AddEdge s t (mk_Edge k None p)) _ _ ltac:(cbn; by rewrite decide_True)) as (g & Hrun & Hg).
  exists g. split; [|done]. unfold add_edge_with_payload. cbn in Hrun. destruct (add_edge _ s t _) as [[g' i]| |]; [|done..].
  cbn in Hrun |- *. by injection Hrun as -> ->.
Qed.

(** Moving no edges changes nothing that can be read. *)
Lemma move_spec c a old new d : repr (cfg_graph c) a → old ≠ new → index old < length (a_nodes a) → a_nlive a new = true →
  ∃ g a', move_adjacency (cfg_graph c) old new d = Ok g ∧ repr g a' ∧
    a_nodes a' = a_nodes a ∧ a_nlive a' = a_nlive a ∧ a_elive a' = a_elive a ∧ length (a_edges a') = length (a_edges a) ∧
    (∀ e, a_edges a' !! index e = (if decide (e ∈ a_adj a d old) then set_endpoint d new else id) <$> a_edges a !! index e) ∧
    ∀ d' m, a_adj a' d' m = if decide (d' = d ∧ m = old) then [] else if decide (d' = d ∧ m = new) then a_adj a d m ++ a_adj a d old else a_adj a d' m.
Proof.
  intros Hr Hne Hold Hnew. set (a' := match a_adj a d old with [] => a | M => a_move a d old new M end).
  destruct (repr_exec _ _ Hr (MoveAdjacency d old new) a' RUnit) as (g & Hrun & Hg).
  { cbn. rewrite decide_True by done. subst a'. destruct (a_adj a d old); [done|]. by rewrite Hnew. }
  exists g, a'. split. { cbn in Hrun. destruct (move_adjacency _ _ _ _); [|done..]. cbn in Hrun. by injection Hrun as ->. }
  split; [done|]. subst a'. destruct (a_adj a d old) as [|e M] eqn:HM.
  - split_and!; try done.
    + intros e. rewrite decide_False by set_solver. by rewrite option_fmap_id.
    + intros d' m. repeat case_decide; try done; destruct_and!; subst; [done|by rewrite app_nil_r].
  - cbn [a_nodes a_edges a_nlive a_elive a_adj a_move]. split_and!; try done.
    + by rewrite length_imap.
    + intros x. rewrite list_lookup_imap. destruct (a_edges a !! index x) as [r|]; [|done]. cbn. unfold index. rewrite N2Nat.id. by case_decide.
    + intros d' m. case_decide as H1; [|done]. destruct H1 as [-> ->]. rewrite HM. apply filter_none. naive_solver.
Qed.

(** What a split leaves behind: the block with its first instructions and one
    fallthrough edge, and a new block with the rest and every exit. *)
Record split_of a a' (id new ft : Id) (at_ : nat) : Prop := mk_split_of {
  sp_code : ∀ b, code a' b = if decide (b = id) then take at_ (code a id) else if decide (b = new) then drop at_ (code a id) else code a b;
  sp_adj : ∀ b, a_adj a' Outgoing b = if decide (b = id) then [ft] else if decide (b = new) then a_adj a Outgoing id else a_adj a Outgoing b;
  sp_target : ∀ e r, a_elive a e = true → a_edges a !! index e = Some r →
    a_edges a' !! index e = Some (if decide (source r = id) then set_endpoint Outgoing new r else r);
  sp_ft : ∃ r, a_edges a' !! index ft = Some r ∧ target r = new ∧ unwind_kind (kind_of (payload r)) = false;
  sp_nlive : ∀ b, a_nlive a' b = a_nlive a b || bool_decide (b = new);
  sp_elive : ∀ e, a_elive a' e = a_elive a e || bool_decide (e = ft);
}.

Lemma set_endpoint_target d n (r : EdgeRecord (Edge E)) : target (set_endpoint d n r) = match d with Outgoing => target r | Incoming => n end.
Proof. by destruct d. Qed.

Lemma split_moved c a a4 id at_ blk p :
  repr (cfg_graph c) a → a_nodes a !! index id = Some blk → at_ ≤ length (bb_instructions blk) →
  let new := N.of_nat (length (a_nodes a)) in
  a_nodes a4 = alter (set_instructions (drop at_ (bb_instructions blk))) (index new)
    (alter (set_instructions (take at_ (bb_instructions blk))) (index id) (a_nodes a) ++ [block_new]) →
  (∀ b, a_nlive a4 b = a_nlive a b || bool_decide (b = new)) → a_elive a4 = a_elive a → length (a_edges a4) = length (a_edges a) →
  (∀ e, a_edges a4 !! index e = (if decide (e ∈ a_adj a Outgoing id) then set_endpoint Outgoing new else λ r, r) <$> a_edges a !! index e) →
  (∀ m, a_adj a4 Outgoing m = if decide (m = id) then [] else if decide (m = new) then a_adj a Outgoing id else a_adj a Outgoing m) →
  split_of a (a_add_edge a4 id new (mk_Edge Fallthrough None p)) id new (N.of_nat (length (a_edges a))) at_.
Proof.
  intros Hr Hblk Hat new Hnd Hnl Hel Hlen Hed Had.
  assert (Hnew : index new = length (a_nodes a)) by (unfold new, index; lia).
  pose proof (lookup_lt_Some _ _ _ Hblk) as Hlt. assert (Hne : id ≠ new) by (intros ->; lia).
  pose proof (repr_elive_lt _ _ Hr) as Hold. split; unfold a_add_edge; cbn [a_nodes a_edges a_nlive a_elive a_adj].
  - intros b. unfold code. cbn [a_nodes]. rewrite Hnd, Hblk. set (first := set_instructions (take at_ _)). set (rest := set_instructions (drop at_ _)).
    assert (Hother : index b ≠ index new → alter rest (index new) (alter first (index id) (a_nodes a) ++ [block_new]) !! index b =
      alter first (index id) (a_nodes a) !! index b).
    { intros Hb. rewrite list_lookup_alter_ne by done. destruct (decide (index b < length (a_nodes a))).
      - rewrite lookup_app_l by by rewrite length_alter. done.
      - rewrite !lookup_ge_None_2; [done|rewrite length_alter; lia|rewrite length_app, length_alter; cbn; lia]. }
    destruct (decide (b = id)) as [->|Hb]; [|destruct (decide (b = new)) as [->|Hb2]].
    + rewrite Hother by (intros ?%index_inj; done). by rewrite list_lookup_alter_eq, Hblk.
    + rewrite list_lookup_alter_eq, lookup_app_r by (rewrite length_alter; lia). rewrite length_alter, Hnew, Nat.sub_diag. done.
    + rewrite Hother by (intros ?%index_inj; done). rewrite list_lookup_alter_ne; [reflexivity|]. intros Hi%index_inj. by apply Hb.
  - intros b. rewrite Had. cbn [endpoint source]. rewrite Hlen. by destruct (decide (b = id)).
  - intros e r Hlive Hrec. rewrite lookup_app_l by (rewrite Hlen; by apply Hold). rewrite Hed, Hrec. cbn. f_equal.
    assert (e ∈ a_adj a Outgoing id ↔ source r = id) as Hiff.
    { rewrite (repr_adj _ _ Hr). split; [intros (_ & r' & Hr' & <-); by simplify_eq|]. intros Hs. split; [done|]. by exists r. }
    destruct (decide (e ∈ _)), (decide (source r = id)); tauto.
  - exists (mk_EdgeRecord id new (mk_Edge Fallthrough None p)). split; [|done].
    rewrite lookup_app_r by (rewrite Hlen; unfold index; lia). unfold index. by rewrite Hlen, Nat2N.id, Nat.sub_diag.
  - done.
  - intros e. by rewrite Hel, Hlen.
Qed.

Lemma split_spec c a id at_ p m :
  repr (cfg_graph c) a → a_nlive a id = true → at_ ≤ length (code a id) →
  (N.of_nat (length (a_nodes a)) < MAX_SLOTS)%N → (N.of_nat (length (a_edges a)) < MAX_SLOTS)%N →
  let new := N.of_nat (length (a_nodes a)) in let ft := N.of_nat (length (a_edges a)) in
  ∃ c' m' a', split_block_inner c id at_ p m = Ok (c', new, m') ∧ repr (cfg_graph c') a' ∧ split_of a a' id new ft at_ ∧
    cfg_entry c' = cfg_entry c ∧ cfg_regions c' = extend_region id new <$> cfg_regions c ∧
    cfg_cleanups c' = extend_cleanup id new <$> cfg_cleanups c ∧
    length (a_nodes a') = S (length (a_nodes a)) ∧ length (a_edges a') = S (length (a_edges a)) ∧ (is_Some m' ↔ is_Some m) ∧
    ∃ r, a_edges a' !! index ft = Some r ∧ edge_kind (payload r) = Fallthrough.
Proof.
  intros Hr Hid Hat Hn He new ft. pose proof (repr_nlive_lt _ _ Hr id Hid) as Hlt.
  assert (Hnew : index new = length (a_nodes a)) by (unfold new, index; lia).
  assert (Hne : id ≠ new) by (intros ->; lia).
  destruct (lookup_lt_is_Some_2 _ _ Hlt) as [blk Hblk]. pose proof (block_code c a id blk Hr (proj2 (repr_node _ _ Hr id blk) Hblk)) as Hcode.
  unfold split_block_inner. assert (block c id = Ok blk) as -> by by apply (repr_node _ _ Hr). rsimpl.
  unfold split_off. rewrite bool_decide_true by by rewrite <-Hcode. rsimpl.
  destruct (block_mut_spec c a id (set_instructions (take at_ (bb_instructions blk))) Hr Hlt) as (g1 & -> & Hr1). rsimpl.
  destruct (new_block_spec (set_graph g1 c) _ Hr1) as (g2 & -> & Hr2); [cbn; by rewrite length_alter|]. rsimpl.
  unfold a_add_node in Hr2. cbn [a_nodes a_edges a_nlive a_elive a_adj] in Hr2 |- *.
  rewrite length_alter in Hr2 |- *. fold new in Hr2 |- *.
  destruct (block_mut_spec (set_graph g2 (set_graph g1 c)) _ new (set_instructions (drop at_ (bb_instructions blk))) Hr2) as (g3 & -> & Hr3).
  { cbn. rewrite length_app, length_alter. cbn. lia. }
  rsimpl. cbn [a_nodes a_edges a_nlive a_elive a_adj] in Hr3.
  assert (Hmove : ∃ g4 a4, move_outgoing_edges (set_graph g3 (set_graph g2 (set_graph g1 c))) id new = Ok (set_graph g4 c) ∧ repr g4 a4 ∧
    a_nodes a4 = alter (set_instructions (drop at_ (bb_instructions blk))) (index new)
      (alter (set_instructions (take at_ (bb_instructions blk))) (index id) (a_nodes a) ++ [block_new]) ∧
    (∀ b, a_nlive a4 b = a_nlive a b || bool_decide (b = new)) ∧ a_elive a4 = a_elive a ∧ length (a_edges a4) = length (a_edges a) ∧
    (∀ e, a_edges a4 !! index e = (if decide (e ∈ a_adj a Outgoing id) then set_endpoint Outgoing new else λ r, r) <$> a_edges a !! index e) ∧
    (∀ m, a_adj a4 Outgoing m = if decide (m = id) then [] else if decide (m = new) then a_adj a Outgoing id else a_adj a Outgoing m)).
  { unfold move_outgoing_edges. rewrite decide_False by done.
    destruct (move_spec (set_graph g3 (set_graph g2 (set_graph g1 c))) _ id new Outgoing Hr3 Hne) as (g4 & a4 & Hrun & Hr4 & Hnd & Hnl & Hel & Hlen & Hed & Had);
      cbn [a_nodes a_edges a_nlive a_elive a_adj] in *.
    - rewrite length_alter, length_app, length_alter. lia.
    - rewrite bool_decide_true by done. by rewrite orb_true_r.
    - exists g4, a4. rewrite Hrun. split_and!; try done.
      + intros b. by rewrite Hnl.
      + intros b. rewrite Had. destruct (decide (b = id)) as [->|Hb]; [by rewrite decide_True|]. rewrite decide_False by (by intros []).
        destruct (decide (b = new)) as [->|Hb2]; [|by rewrite decide_False by (by intros [])].
        rewrite decide_True by done. by rewrite (fresh_no_edges _ a Outgoing new Hr) by lia. }
  destruct Hmove as (g4 & a4 & -> & Hr4 & Hnd & Hnl & Hel & Hlen & Hed & Had). rsimpl.
  destruct (cfg_add_edge_spec (extend_exception_metadata_to_tail (set_graph g4 c) id new) a4 id new Fallthrough p Hr4) as (g5 & -> & Hr5).
  { by rewrite Hnl, Hid. }
  { rewrite Hnl, bool_decide_true by done. apply orb_true_r. }
  { by rewrite Hlen. }
  rsimpl. rewrite Hlen. fold ft.
  set (c' := set_graph g5 _). set (a' := a_add_edge a4 id new (mk_Edge Fallthrough None p)) in *.
  assert (Hsplit : split_of a a' id new ft at_).
  { eapply split_moved; try done. by rewrite <-Hcode. }
  assert (Hlens : length (a_nodes a') = S (length (a_nodes a)) ∧ length (a_edges a') = S (length (a_edges a))).
  { cbn. rewrite Hnd, length_alter, !length_app, length_alter, Hlen. cbn. lia. }
  assert (Hkind : ∃ r, a_edges a' !! index ft = Some r ∧ edge_kind (payload r) = Fallthrough).
  { exists (mk_EdgeRecord id new (mk_Edge Fallthrough None p)). split; [|done]. cbn.
    rewrite lookup_app_r by (rewrite Hlen; unfold ft, index; lia). unfold ft, index. by rewrite Hlen, Nat2N.id, Nat.sub_diag. }
  destruct m as [m|].
  - assert (cfg_outgoing c' new = Ok (a_adj a' Outgoing new)) as ->.
    { apply (repr_adjacency _ _ Hr5). fold a'. destruct Hlens. lia. }
    rsimpl. exists c', (Some (record_created_edge (foldl (λ m e, record_edge m e [e])
      (record_created_block (record_block m id [id; new]) new) (a_adj a' Outgoing new)) ft)), a'. destruct Hlens. split_and!; done.
  - exists c', None, a'. destruct Hlens. split_and!; done.
Qed.
End Split.

Section SplitTraces.
Context {I E : Type} (throws : I → bool) (seen : Id → Prop).
Context (c : Cfg I E) (a a' : agraph (BasicBlock I) (Edge E)) (id new ft : Id) (at_ : nat).
Context (Hr : repr (cfg_graph c) a) (Hs : split_of a a' id new ft at_).
Context (Hnew : a_nlive a new = false) (Hid : a_nlive a id = true) (Hft : ¬ seen ft) (Hat : at_ ≤ length (code a id)).
Context (Hthrow : a_unwinds a id → existsb throws (take at_ (code a id)) = false).

Lemma split_goes b e t : b ≠ new →
  (goes a' b e t ↔ if decide (b = id) then e = ft ∧ t = new else goes a b e t) ∧ (goes a' new e t ↔ goes a id e t).
Proof using Hr Hs Hnew Hid.
  intros Hb. assert (Hsame : ∀ x, e ∈ a_adj a Outgoing x →
    (∃ r, a_edges a' !! index e = Some r ∧ target r = t) ↔ ∃ r, a_edges a !! index e = Some r ∧ target r = t).
  { intros x (He & r & Hrec & _)%(repr_adj _ _ Hr). rewrite (sp_target _ _ _ _ _ _ Hs e r He Hrec), Hrec.
    split; intros (r' & [= <-] & <-); (eexists; split; [reflexivity|]); case_decide; done. }
  unfold goes. rewrite !(sp_adj _ _ _ _ _ _ Hs), (decide_True (P := new = new)) by done.
  rewrite (decide_False (P := new = id)) by congruence. split.
  - case_decide; [|rewrite (decide_False (P := b = new)) by done; by split; intros [He Hx]; (split; [done|]); apply (Hsame b)].
    subst b. rewrite list_elem_of_singleton. destruct (sp_ft _ _ _ _ _ _ Hs) as (r & Hrec & Ht & _). split.
    + intros [-> (r' & Hrec' & <-)]. by simplify_eq.
    + intros [-> ->]. split; [done|]. by exists r.
  - by split; intros [He Hx]; (split; [done|]); apply (Hsame id).
Qed.

Lemma split_unwinding b e t : goes a b e t → unwinding a' e = unwinding a e.
Proof using Hr Hs.
  intros [(He & _)%(repr_adj _ _ Hr) (r & Hrec & _)]. unfold unwinding. rewrite (sp_target _ _ _ _ _ _ Hs e r He Hrec), Hrec. by case_decide.
Qed.

Lemma split_unwinding_ft : unwinding a' ft = false.
Proof using Hs. destruct (sp_ft _ _ _ _ _ _ Hs) as (r & Hrec & _ & Hk). unfold unwinding. by rewrite Hrec. Qed.

Lemma new_not_id : new ≠ id.
Proof using Hnew Hid. congruence. Qed.

Lemma split_fall : runs (astep throws seen a') (id, at_) [] (new, 0).
Proof using Hr Hs Hnew Hid Hft Hat.
  apply runs_one, (astep_leave throws seen a' id at_ ft new []); [| |by right].
  - apply split_goes; [by pose proof new_not_id|]. by rewrite decide_True.
  - rewrite split_unwinding_ft, (sp_code _ _ _ _ _ _ Hs), decide_True by done. unfold departs. cbn. by rewrite length_take, Nat.min_l.
Qed.

(** Where a point of the block is afterwards, and where it was before. *)
Definition place (p : Id * nat) : Id * nat :=
  if decide (p.1 = id) then if decide (p.2 < at_) then p else (new, p.2 - at_) else p.
Definition unplace (q : Id * nat) : Id * nat := if decide (q.1 = new) then (id, at_ + q.2) else q.

Lemma split_arrive t : runs (astep throws seen a') (t, 0) [] (place (t, 0)).
Proof using Hr Hs Hnew Hid Hft Hat Hthrow.
  unfold place. cbn. case_decide as Ht; [|constructor]. case_decide; [constructor|]. subst t.
  replace 0 with at_ at 1 by lia. apply split_fall.
Qed.

Lemma split_forward p q o p' : p.1 ≠ new ∧ q = place p → astep throws seen a p o p' → ∃ q', runs (astep throws seen a') q o q' ∧ p'.1 ≠ new ∧ q' = place p'.
Proof using Hr Hs Hnew Hid Hft Hat Hthrow.
  intros [Hp ->] Hstep. pose proof (sp_code _ _ _ _ _ _ Hs) as Hcode. pose proof new_not_id as Hne.
  assert (Hjump : ∀ b i e t, b ≠ new → goes a b e t → departs throws (code a b) (unwinding a e) i →
    ∃ b' i', place (b, i) = (b', i') ∧ goes a' b' e t ∧ departs throws (code a' b') (unwinding a' e) i' ∧ t ≠ new).
  { intros b i e t Hb Hg Hd. destruct (goes_live _ _ _ _ _ Hr Hg) as (_ & Ht & _). rewrite (split_unwinding b e t Hg). unfold place. cbn [fst snd].
    destruct (decide (b = id)) as [->|Hbi].
    - apply (departs_split throws _ at_) in Hd as [Hi Hd]; [|intros Hu; apply Hthrow; by exists e, t|done].
      rewrite (decide_False (P := i < _)) by lia. exists new, (i - at_). split_and!; [done|by apply (split_goes id)| |congruence].
      by rewrite Hcode, (decide_False (P := new = id)), decide_True by done.
    - exists b, i. split_and!; [done|by apply (split_goes b); [done|]; rewrite decide_False| |congruence]. by rewrite Hcode, !decide_False by done. }
  inversion Hstep as [b i x Hx|b i e t l Hg Hd Hse]; subst; cbn in Hp.
  - unfold place. cbn. destruct (decide (b = id)) as [->|Hb].
    + destruct (decide (i < at_)) as [Hlt|Hge].
      * assert (Hrun : runs (astep throws seen a') (id, i) [Ran x] (id, S i)).
        { apply runs_one. constructor. by rewrite Hcode, decide_True, lookup_take_lt by done. }
        case_decide as Hlt2; [eauto|]. exists (new, S i - at_). split; [|done]. eapply runs_before; [exact Hrun|].
        replace (S i) with at_ by lia. rewrite Nat.sub_diag. apply split_fall.
      * rewrite decide_False by lia. exists (new, S i - at_). split; [|done]. apply runs_one. replace (S i - at_) with (S (i - at_)) by lia.
        constructor. rewrite Hcode, (decide_False (P := new = id)), decide_True, lookup_drop by done. by replace (at_ + (i - at_)) with i by lia.
    + exists (b, S i). split; [|done]. apply runs_one. constructor. by rewrite Hcode, !decide_False.
  - destruct (Hjump b i e t Hp Hg Hd) as (b' & i' & -> & Hg' & Hd' & Ht). exists (place (t, 0)). split; [|done].
    eapply runs_before; [|apply split_arrive]. apply runs_one. by econstructor.
Qed.

Lemma split_backward q p o q' : p = unplace q → astep throws seen a' q o q' → ∃ p', runs (astep throws seen a) p o p' ∧ p' = unplace q'.
Proof using Hr Hs Hnew Hid Hft Hat Hthrow.
  intros -> Hstep. pose proof (sp_code _ _ _ _ _ _ Hs) as Hcode. pose proof new_not_id as Hne.
  assert (Hjump : ∀ b i e t, goes a' b e t → departs throws (code a' b) (unwinding a' e) i →
    b = id ∧ e = ft ∧ t = new ∧ i = at_ ∨ ∃ b' i', unplace (b, i) = (b', i') ∧ goes a b' e t ∧ departs throws (code a b') (unwinding a e) i' ∧ t ≠ new).
  { intros b i e t Hg Hd. assert (Hlive : ∀ b', goes a b' e t → t ≠ new) by (intros b' (_ & Ht & _)%(goes_live _ _ _ _ _ Hr); congruence).
    unfold unplace. cbn [fst snd]. rewrite Hcode in Hd. destruct (decide (b = new)) as [->|Hb].
    - apply (split_goes id) in Hg; [|done]. right. exists id, (at_ + i). split_and!; [done..| |by eapply Hlive].
      rewrite (decide_False (P := new = id)), (split_unwinding id e t Hg) in Hd by done.
      apply (departs_split throws _ at_); [intros Hu; apply Hthrow; by exists e, t|done|]. split; [lia|]. by replace (at_ + i - at_) with i by lia.
    - apply split_goes in Hg; [|done]. destruct (decide (b = id)) as [->|Hbi].
      + left. destruct Hg as [-> ->]. rewrite split_unwinding_ft in Hd. unfold departs in Hd. cbn in Hd. by rewrite length_take, Nat.min_l in Hd.
      + right. exists b, i. split_and!; [done..|by rewrite <-(split_unwinding b e t Hg)|by eapply Hlive]. }
  inversion Hstep as [b i x Hx|b i e t l Hg Hd Hse]; subst.
  - rewrite Hcode in Hx. unfold unplace. cbn. destruct (decide (b = new)) as [->|Hb].
    + rewrite (decide_False (P := new = id)), lookup_drop in Hx by done. exists (id, at_ + S i). split; [|done]. rewrite Nat.add_succ_r.
      apply runs_one. by constructor.
    + exists (b, S i). split; [|done]. apply runs_one. constructor. case_decide; [subst|done]. by apply lookup_take_Some in Hx as [Hx _].
  - destruct (Hjump b i e t Hg Hd) as [(-> & -> & -> & ->)|(b' & i' & -> & Hg' & Hd' & Ht)].
    + destruct Hse as [[Hse _]|[_ ->]]; [done|]. exists (id, at_). split; [|unfold unplace; cbn; by rewrite decide_True, Nat.add_0_r].
      unfold unplace. cbn. rewrite decide_False by done. constructor.
    + exists (t, 0). split; [apply runs_one; by econstructor|]. unfold unplace. by rewrite decide_False.
Qed.

Lemma split_traces c' b l : repr (cfg_graph c') a' → a_nlive a b = true → trace throws seen c (b, 0) l ↔ trace throws seen c' (b, 0) l.
Proof using Hr Hs Hnew Hid Hft Hat Hthrow.
  intros Hr' Hb. assert (Hbn : b ≠ new) by congruence.
  rewrite (trace_abstract throws seen c a _ _ Hr), (trace_abstract throws seen c' a' _ _ Hr'). split; intros [q Hq].
  - destruct (simulation_runs _ _ (λ p q, p.1 ≠ new ∧ q = place p) split_forward (b, 0) (place (b, 0)) l q) as (q' & Hq' & _); [done|done|].
    exists q'. eapply runs_after; [|exact Hq']. apply split_arrive.
  - destruct (simulation_runs _ _ (λ q p, p = unplace q) (λ q p o q', split_backward q p o q') (b, 0) (b, 0) l q) as (q' & Hq' & _);
      [unfold unplace; cbn; by rewrite decide_False|done|]. by exists q'.
Qed.
End SplitTraces.
