(* ===== verification/CfgTheorems.v ===== *)
(** * What the calls of a control-flow graph guarantee

    Every history of calls leaves a graph with a live entry whose views keep
    their contracts; splitting a block changes no execution; compaction succeeds
    exactly when no anchor dangles and renumbers everything that names a block. *)

From S2P Require Import Prelude Words Liveness Ids View EdgeViews Chains Runs Store StoreInv StoreSpec StoreView Compress Renumbering Slots Compact History Traverse Reach EdgeKinds Cfg CfgTraces.

(** ** Histories *)

Section Histories.
Context {I E : Type}.
Implicit Types (c : Cfg I E) (a : agraph (BasicBlock I) (Edge E)).

(** The calls that change a graph *)
Inductive cfg_call : Type :=
  | CNewBlock
  | CRemoveBlock (b : Id)
  | CAddEdge (s t : Id) (k : EdgeKind) (weight : option N) (p : E)
  | CRemoveEdge (e : Id)
  | CRedirect (d : TraversalDirection) (e n : Id)
  | CRedirectTo (old new : Id)
  | CSplit (b : Id) (at_ : nat) (p : E)
  | CSetEntry (b : Id)
  | CBlockMut (b : Id) (f : BasicBlock I → BasicBlock I)
  | CEdgeMut (e : Id) (f : Edge E → Edge E)
  | CAddRegion (r : Region)
  | CRegionMut (r : Id) (f : Region → Region)
  | CRemoveRegion (r : Id)
  | CRemoveUnreachableRegions
  | CAddContinuation (h : HandlerRef) (k : Continuation)
  | CSetCleanupResume (h : HandlerRef) (b : Id)
  | CCompact.

Definition cfg_exec c (call : cfg_call) : res (Cfg I E) :=
  match call with
  | CNewBlock => fst <$> new_block c
  | CRemoveBlock b => fst <$> remove_block c b
  | CAddEdge s t k None p => fst <$> add_edge_with_payload c s t k p
  | CAddEdge s t k (Some weight) p => fst <$> add_weighted_edge_with_payload c s t k weight p
  | CRemoveEdge e => fst <$> cfg_remove_edge c e
  | CRedirect d e n => fst <$> cfg_redirect d c e n
  | CRedirectTo old new => redirect_edges_to c old new
  | CSplit b at_ p => fst <$> split_block_with_payload c b at_ p
  | CSetEntry b => set_entry c b
  | CBlockMut b f => block_mut c b f
  | CEdgeMut e f => cfg_edge_mut c e f
  | CAddRegion r => fst <$> add_region c r
  | CRegionMut r f => mret (region_mut c r f)
  | CRemoveRegion r => mret (fst (remove_region c r))
  | CRemoveUnreachableRegions => fst <$> remove_unreachable_regions c
  | CAddContinuation h k => add_continuation c h k
  | CSetCleanupResume h b => set_cleanup_resume c h b
  | CCompact => fst <$> cfg_compact c
  end.

Definition reachable_cfg c : Prop := ∃ c0 calls, with_edge_payload = Ok c0 ∧ rfold cfg_exec c0 calls = Ok c.

(** A store the calls built, and an entry that is alive in it *)
Definition cfg_ok c : Prop := ∃ a, repr (cfg_graph c) a ∧ a_nlive a (cfg_entry c) = true.

(** *** One store call at a time *)

Lemma exec_Ok (g g' : Graph (BasicBlock I) (Edge E)) a ev r :
  repr g a → exec g ev = Ok (g', r) → ∃ a', a_step a ev = Some (a', r) ∧ repr g' a'.
Proof.
  intros Hr Hrun. pose proof (step_refines g a ev Hr) as H. unfold StoreSpec.refines in H.
  destruct (a_step a ev) as [[a' r']|]; [|destruct H as [why Hw]; congruence].
  destruct H as (g2 & Hg & Hr'). rewrite Hrun in Hg. injection Hg as <- <-. eauto.
Qed.

Lemma a_step_keeps a ev a' r n :
  a_step a ev = Some (a', r) → a_nlive a n = true → (∀ m, ev = RemoveNode m → m ≠ n) → a_nlive a' n = true.
Proof.
  intros Hs Hn Hno. destruct ev; cbn in Hs; repeat case_decide; simplify_eq; try done.
  - cbn. by rewrite Hn.
  - specialize (Hno _ eq_refl). destruct (a_nlive a n0) eqn:E0; [|done]. cbn. rewrite Hn, bool_decide_false; [done|congruence].
  - unfold a_redirect in Hs. destruct (a_edges a !! index e) as [x|]; [|done]. cbn in Hs. injection Hs as <- <-. by case_decide.
  - destruct (a_adj a d old); [by simplify_eq|]. destruct (a_nlive a new); [|done]. by simplify_eq.
Qed.

(** A call of the store that goes through keeps a graph well formed. *)
Lemma exec_keeps c c' g' ev r :
  cfg_ok c → exec (cfg_graph c) ev = Ok (g', r) → (∀ m, ev = RemoveNode m → m ≠ cfg_entry c) →
  cfg_graph c' = g' → cfg_entry c' = cfg_entry c → cfg_ok c'.
Proof.
  intros (a & Hr & He) Hrun Hno <- Hentry. destruct (exec_Ok _ _ _ _ _ Hr Hrun) as (a' & Hs & Hr').
  exists a'. split; [done|]. rewrite Hentry. by eapply a_step_keeps.
Qed.

Lemma same_ok c c' : cfg_graph c' = cfg_graph c → cfg_entry c' = cfg_entry c → cfg_ok c → cfg_ok c'.
Proof. intros Hg He (a & Hr & Hl). exists a. by rewrite Hg, He. Qed.

(** Take a successful call apart, its pairs too. *)
Ltac steps :=
  repeat first [inv_res_step | match goal with
    | H : (let '(_, _) := ?x in _) = Ok _ |- _ => destruct x
    | H : (if ?b then _ else _) = Ok _ |- _ => destruct b eqn:?
    end]; simplify_eq/=.

(** The graph after one call of the store *)
Ltac by_store ev :=
  eapply (exec_keeps _ _ _ ev); [eassumption|cbn; match goal with H : _ = Ok _ |- _ => rewrite H; reflexivity end|done|reflexivity|reflexivity].

Lemma new_block_ok c c' b : cfg_ok c → new_block c = Ok (c', b) → cfg_ok c'.
Proof. intros Hok H. unfold new_block in H. steps. by_store (AddNode (NP := BasicBlock I) (EP := Edge E) block_new). Qed.

Lemma block_mut_ok c c' b f : cfg_ok c → block_mut c b f = Ok c' → cfg_ok c'.
Proof. intros Hok H. unfold block_mut in H. steps. by_store (SetNode (EP := Edge E) b f). Qed.

Lemma add_edge_ok c c' s t k p e : cfg_ok c → add_edge_with_payload c s t k p = Ok (c', e) → cfg_ok c'.
Proof. intros Hok H. unfold add_edge_with_payload in H. steps. by_store (AddEdge (NP := BasicBlock I) s t (mk_Edge k None p)). Qed.

Lemma remove_edge_ok c c' e b : cfg_ok c → cfg_remove_edge c e = Ok (c', b) → cfg_ok c'.
Proof. intros Hok H. unfold cfg_remove_edge in H. steps. by_store (RemoveEdge (NP := BasicBlock I) (EP := Edge E) e). Qed.

Lemma remove_block_ok c c' b r : cfg_ok c → remove_block c b = Ok (c', r) → cfg_ok c'.
Proof.
  intros Hok H. unfold remove_block in H. inv_res. apply bool_decide_eq_true in H0. steps.
  eapply (exec_keeps _ _ _ (RemoveNode b)); [eassumption|cbn; by rewrite H1| |reflexivity|reflexivity]. by intros m [= ->].
Qed.

Lemma redirect_ok d c c' e n i : cfg_ok c → cfg_redirect d c e n = Ok (c', i) → cfg_ok c'.
Proof.
  intros Hok H. unfold cfg_redirect in H. steps.
  eapply (exec_keeps _ _ _ (RedirectEdge d e n)); [eassumption|rewrite exec_redirect, H0; reflexivity|done|reflexivity|reflexivity].
Qed.

Lemma move_ok d c old new g : cfg_ok c → move_adjacency (cfg_graph c) old new d = Ok g → cfg_ok (set_graph g c).
Proof. intros Hok H. by_store (MoveAdjacency (NP := BasicBlock I) (EP := Edge E) d old new). Qed.

Lemma move_outgoing_ok c c' old new : cfg_ok c → move_outgoing_edges c old new = Ok c' → cfg_ok c'.
Proof. intros Hok H. unfold move_outgoing_edges in H. steps; [done|]. by eapply move_ok. Qed.

Lemma edge_mut_ok c c' e f : cfg_ok c → cfg_edge_mut c e f = Ok c' → cfg_ok c'.
Proof. intros Hok H. unfold cfg_edge_mut in H. steps. by_store (SetPayload (NP := BasicBlock I) e f). Qed.

Lemma split_ok c c' b at_ p m new m' : cfg_ok c → split_block_inner c b at_ p m = Ok (c', new, m') → cfg_ok c'.
Proof.
  intros Hok H. unfold split_block_inner, split_off in H. steps.
  assert (Hlast : cfg_ok c1).
  { eapply add_edge_ok; [|exact H6]. eapply (same_ok x3); [done..|]. eapply move_outgoing_ok; [|exact H5].
    eapply block_mut_ok; [|exact H4]. eapply new_block_ok; [|exact H3]. by eapply block_mut_ok. }
  destruct m; steps; done.
Qed.

Lemma redirect_to_ok c c' old new m m' : cfg_ok c → redirect_edges_to_inner c old new m = Ok (c', m') → cfg_ok c'.
Proof. intros Hok H. unfold redirect_edges_to_inner in H. steps; [done|]. by eapply move_ok. Qed.

(** What a compaction renumbers: the live nodes, into the new bound. *)
Lemma renumber_live (g : Graph (BasicBlock I) (Edge E)) a b :
  repr g a → Renumber.node (a_renumbering a) b = if a_nlive a b then Some (renum (a_nf a) b) else None.
Proof.
  intros Hr. destruct (rp_inv _ _ Hr) as (L & Hinv & _). unfold Renumber.node, a_renumbering, translate. cbn [rn_nodes].
  destruct (a_nlive a b) eqn:Hb.
  - pose proof (repr_nlive_lt _ _ Hr _ Hb) as Hlt. rewrite slot_map_lookup by done. cbn.
    assert (a_nf a (index b) = true) as -> by (unfold a_nf, index; by rewrite N2Nat.id).
    rewrite decide_False; [done|]. eapply (rank_NONE _ (length (a_nodes a))); [|done].
    rewrite <-(repr_node_bound _ _ Hr). apply (inv_node_max _ _ Hinv).
  - destruct (decide (index b < length (a_nodes a))) as [Hlt|Hge].
    + rewrite slot_map_lookup by done. cbn. assert (a_nf a (index b) = false) as -> by (unfold a_nf, index; by rewrite N2Nat.id).
      by rewrite decide_True.
    + by rewrite lookup_ge_None_2 by (rewrite length_slot_map; lia).
Qed.

Lemma renumbered_live (g : Graph (BasicBlock I) (Edge E)) a b :
  repr g a → a_nlive a b = true → a_nlive (a_compact a) (renum (a_nf a) b) = true.
Proof.
  intros Hr Hb. cbn. apply bool_decide_eq_true. rewrite length_live_part. unfold renum, index. rewrite Nat2N.id.
  apply rank_lt; [unfold a_nf; by rewrite N2Nat.id|]. by apply (repr_nlive_lt _ _ Hr).
Qed.

Lemma require_live (g : Graph (BasicBlock I) (Edge E)) a b role b' :
  repr g a → require (a_renumbering a) b role = Ok b' ↔ a_nlive a b = true ∧ b' = renum (a_nf a) b.
Proof.
  intros Hr. unfold require. rewrite expect_Ok, (renumber_live g a b Hr). destruct (a_nlive a b); [|by split; [|intros []]].
  split; [by intros [= <-]|by intros [_ ->]].
Qed.

Lemma cfg_compact_ok c c' r : cfg_ok c → cfg_compact c = Ok (c', r) → cfg_ok c'.
Proof.
  intros (a & Hr & He) H. destruct (compact_refines _ a Hr) as (g' & Hc & Hr' & _). unfold cfg_compact in H. rewrite Hc in H. rsimpl. steps.
  exists (a_compact a). split; [done|]. apply (require_live _ a _ _ _ Hr) in H0 as [_ ->]. by eapply renumbered_live.
Qed.

Lemma fold_regions_ok c doomed : cfg_ok c → cfg_ok (foldl (λ c id, fst (remove_region c id)) c doomed).
Proof.
  revert c. induction doomed as [|id doomed IH]; intros c Hok; [done|]. cbn. apply IH. unfold remove_region.
  by destruct (cfg_regions c !! index id).
Qed.

Lemma call_ok c c' call : cfg_ok c → cfg_exec c call = Ok c' → cfg_ok c'.
Proof.
  intros Hok. destruct call as [| |s t k [w|] p| | | | | | | | | | | | | |]; cbn; intros H.
  - apply res_fmap_Ok in H as ([] & H & <-). by eapply new_block_ok.
  - apply res_fmap_Ok in H as ([] & H & <-). by eapply remove_block_ok.
  - apply res_fmap_Ok in H as ([] & H & <-). unfold add_weighted_edge_with_payload in H. steps. by_store (AddEdge (NP := BasicBlock I) s t (mk_Edge k (Some w) p)).
  - apply res_fmap_Ok in H as ([] & H & <-). by eapply add_edge_ok.
  - apply res_fmap_Ok in H as ([] & H & <-). by eapply remove_edge_ok.
  - apply res_fmap_Ok in H as ([] & H & <-). by eapply redirect_ok.
  - unfold redirect_edges_to in H. apply res_fmap_Ok in H as ([] & H & <-). by eapply redirect_to_ok.
  - apply res_fmap_Ok in H as ([] & H & <-). unfold split_block_with_payload in H. steps. by eapply split_ok.
  - unfold set_entry in H. steps. destruct Hok as (a & Hr & _). exists a. split; [done|]. cbn.
    rewrite (repr_contains_node _ _ Hr) in H0. by injection H0.
  - by eapply block_mut_ok.
  - by eapply edge_mut_ok.
  - apply res_fmap_Ok in H as ([] & H & <-). unfold add_region in H. steps. done.
  - steps. done.
  - unfold remove_region in H. by destruct (cfg_regions c !! index r); steps.
  - apply res_fmap_Ok in H as ([c2 k] & H & <-). unfold remove_unreachable_regions in H. apply res_bind_Ok in H as (reached & _ & H).
    injection H as <- <-. by apply fold_regions_ok.
  - unfold add_continuation in H. steps. done.
  - unfold set_cleanup_resume in H. steps. done.
  - apply res_fmap_Ok in H as ([] & H & <-). by eapply cfg_compact_ok.
Qed.

Lemma reachable_ok c : reachable_cfg c → cfg_ok c.
Proof.
  intros (c0 & calls & H0 & Hrun). assert (Hok : cfg_ok c0).
  { unfold with_edge_payload in H0. steps.
    destruct (exec_Ok tagged g a_empty (AddNode block_new) (RId n) tagged_repr ltac:(cbn; by rewrite H1)) as (a' & Hs & Hr').
    exists a'. split; [done|]. cbn [a_step] in Hs. case_decide; [|done]. injection Hs as <- <-. apply bool_decide_true. done. }
  clear H0. revert c0 Hok Hrun. induction calls as [|call calls IH]; intros c0 Hok Hrun; cbn in Hrun; [by simplify_eq|].
  apply res_bind_Ok in Hrun as (c1 & H1 & Hrun). eapply IH; [|exact Hrun]. by eapply call_ok.
Qed.
End Histories.
Arguments cfg_call : clear implicits.

(** ** Carrying references through a compaction *)

(** ** What exception metadata becomes under a renumbering *)

Section Follows.
Context (r : Renumbering).

(** The survivors of a set *)
Definition survivors (X X' : gset Id) : Prop := ∀ b' : Id, b' ∈ X' ↔ ∃ b : Id, b ∈ X ∧ Renumber.node r b = Some b'.
Definition body_follows (x x' : HandlerBody) : Prop :=
  match x, x' with UnknownBody, UnknownBody => True | KnownBody X, KnownBody X' => survivors X X' | _, _ => False end.
Definition kind_follows (k k' : HandlerKind) : Prop :=
  match k with Filter f => ∃ f', Renumber.node r f = Some f' ∧ k' = Filter f' | k => k' = k end.

Record handler_follows (h h' : Handler) : Prop := mk_handler_follows {
  hf_entry : Renumber.node r (hd_entry h) = Some (hd_entry h');
  hf_body : body_follows (hd_body h) (hd_body h');
  hf_kind : kind_follows (hd_kind h) (hd_kind h');
}.
Record region_follows (g g' : Region) : Prop := mk_region_follows {
  rf_id : rg_id g' = rg_id g;
  rf_parent : rg_parent g' = rg_parent g;
  rf_protected : survivors (rg_protected_blocks g) (rg_protected_blocks g');
  rf_handlers : Forall2 handler_follows (rg_handlers g) (rg_handlers g');
}.
Definition continuation_follows (k k' : Continuation) : Prop :=
  ct_reason k' = ct_reason k ∧ Renumber.node r (ct_resume k) = Some (ct_resume k').
Record cleanup_follows (u u' : Cleanup) : Prop := mk_cleanup_follows {
  cf_handler : cu_handler u' = cu_handler u;
  cf_resume_from : option_Forall2 (λ b b', Renumber.node r b = Some b') (cu_resume_from u) (cu_resume_from u');
  cf_continuations : Forall2 continuation_follows (cu_continuations u) (cu_continuations u');
}.

Lemma retain_surviving_spec X : survivors X (retain_surviving X r).
Proof. intros b'. unfold retain_surviving. rewrite elem_of_list_to_set, list_elem_of_omap. by setoid_rewrite elem_of_elements. Qed.
End Follows.

Section Carried.
Context {I E : Type} (g : Graph (BasicBlock I) (Edge E)) (a : agraph (BasicBlock I) (Edge E)) (Hr : repr g a).
Notation live := (λ b, a_nlive a b = true).
Notation moved := (renum (a_nf a)).

(** [f] renumbers the references [refs] reads off a value, and panics exactly
    when one of them is gone; [kept] is what else it promises. *)
Definition carries {A} (refs : A → list Id) (kept : A → A → Prop) (f : A → res A) : Prop :=
  ∀ x, if decide (Forall live (refs x)) then ∃ y, f x = Ok y ∧ refs y = moved <$> refs x ∧ kept x y else panics (f x).

Lemma carries_list {A} (refs : A → list Id) kept f : carries refs kept f → carries (λ l, l ≫= refs) (Forall2 kept) (rmapM f).
Proof using.
  intros Hf l. induction l as [|x l IH]; cbn [rmapM mbind list_bind]; [case_decide as H; [by exists []|by destruct H]|].
  specialize (Hf x). destruct (decide (Forall live (refs x))) as [Hx|Hx].
  - destruct Hf as (y & -> & Hy & Hk). rsimpl. destruct (decide (Forall live (l ≫= refs))) as [Hl|Hl].
    + rewrite decide_True by by apply Forall_app. destruct IH as (ys & -> & Hys & Hks). exists (y :: ys). split; [done|].
      cbn [mbind list_bind]. rewrite fmap_app, Hy. split; [f_equal; exact Hys|by constructor].
    + rewrite decide_False by by intros [_ ?]%Forall_app. by apply panics_bind.
  - rewrite decide_False by by intros [? _]%Forall_app. by apply panics_bind.
Qed.

Lemma require_spec b role :
  if decide (a_nlive a b = true) then require (a_renumbering a) b role = Ok (moved b) else panics (require (a_renumbering a) b role).
Proof using Hr.
  unfold require. rewrite (renumber_live g a b Hr). case_decide as Hb; [by rewrite Hb|]. destruct (a_nlive a b); [done|]. by eexists.
Qed.

Lemma node_moved b : a_nlive a b = true → Renumber.node (a_renumbering a) b = Some (moved b).
Proof using Hr. intros Hb. by rewrite (renumber_live g a b Hr), Hb. Qed.

Lemma carries_continuation role : carries (λ k, [ct_resume k]) (continuation_follows (a_renumbering a)) (λ k, mk_Continuation (ct_reason k) <$> require (a_renumbering a) (ct_resume k) role).
Proof using Hr.
  intros k. pose proof (require_spec (ct_resume k) role) as Hk. destruct (decide (a_nlive a (ct_resume k) = true)) as [Hl|Hl].
  - rewrite decide_True by by apply Forall_singleton. rewrite Hk. eexists. split; [done|]. split; [done|]. split; [done|]. by apply node_moved.
  - rewrite decide_False; [|intros Hx; rewrite Forall_singleton in Hx; exact (Hl Hx)]. destruct Hk as [why Hw]. rewrite Hw. by exists why.
Qed.

Lemma continuation_refs (l : list Continuation) : (l ≫= λ k, [ct_resume k]) = ct_resume <$> l.
Proof using. clear. induction l as [|k l IH]; [done|]. cbn [mbind list_bind fmap list_fmap]. by rewrite IH. Qed.

Lemma carries_cleanup : carries cleanup_anchors (cleanup_follows (a_renumbering a)) (renumber_cleanup (a_renumbering a)).
Proof using Hr.
  intros [h from ks]. unfold cleanup_anchors, renumber_cleanup. cbn [cu_handler cu_resume_from cu_continuations].
  pose proof (carries_list _ _ _ (carries_continuation "cleanup continuation") ks) as Hks. rewrite continuation_refs in Hks.
  assert (Hrest : ∀ from', option_Forall2 (λ b b', Renumber.node (a_renumbering a) b = Some b') from from' → if decide (Forall live (ct_resume <$> ks)) then
    ∃ y, (continuations ← rmapM (λ k, mk_Continuation (ct_reason k) <$> require (a_renumbering a) (ct_resume k) "cleanup continuation") ks;
          mret (mk_Cleanup h from' continuations)) = Ok y ∧ cleanup_anchors y = option_list from' ++ (moved <$> (ct_resume <$> ks)) ∧
        cleanup_follows (a_renumbering a) (mk_Cleanup h from ks) y
    else panics (continuations ← rmapM (λ k, mk_Continuation (ct_reason k) <$> require (a_renumbering a) (ct_resume k) "cleanup continuation") ks;
          mret (mk_Cleanup h from' continuations))).
  { intros from' Hfrom. case_decide; [|by apply panics_bind]. destruct Hks as (ys & -> & Hys & Hfs). rewrite continuation_refs in Hys.
    eexists. split; [done|]. split; [|done]. unfold cleanup_anchors. cbn. by rewrite Hys. }
  destruct from as [b|]; cbn [option_list app].
  - pose proof (require_spec b "cleanup resume block") as Hb. destruct (decide (a_nlive a b = true)) as [Hl|Hl].
    + rewrite Hb. cbn [fmap res_fmap mbind res_bind]. specialize (Hrest (Some (moved b)) ltac:(constructor; by apply node_moved)).
      destruct (decide (Forall live (ct_resume <$> ks))) as [Hall|Hall].
      * rewrite decide_True by by constructor. destruct Hrest as (y & Hy & Ha & Hf). exists y. by rewrite Hy.
      * rewrite decide_False by by intros [_ ?]%Forall_cons. done.
    + rewrite decide_False by by intros [? _]%Forall_cons. destruct Hb as [why Hw]. rewrite Hw. by exists why.
  - specialize (Hrest None ltac:(constructor)). cbn. case_decide; [|done]. destruct Hrest as (y & Hy & Ha & Hf). exists y. by rewrite Hy.
Qed.

Lemma carries_handler : carries handler_anchors (handler_follows (a_renumbering a)) (renumber_handler (a_renumbering a)).
Proof using Hr.
  intros [entry body kind]. unfold handler_anchors, renumber_handler. cbn [hd_entry hd_body hd_kind].
  pose proof (require_spec entry "handler entry block") as He. destruct (decide (a_nlive a entry = true)) as [Hl|Hl].
  2:{ rewrite decide_False by by intros [? _]%Forall_cons. destruct He as [why Hw]. rewrite Hw. by exists why. }
  assert (Hbody : body_follows (a_renumbering a) body match body with KnownBody X => KnownBody (retain_surviving X (a_renumbering a)) | UnknownBody => UnknownBody end).
  { destruct body; cbn; [done|apply retain_surviving_spec]. }
  rewrite He. rsimpl. destruct kind as [| | | |f].
  1-4: rewrite decide_True by (constructor; done); eexists; split; [reflexivity|split; [done|split; [by apply node_moved|exact Hbody|done]]].
  pose proof (require_spec f "handler filter block") as Hf. destruct (decide (a_nlive a f = true)) as [Hlf|Hlf].
  - rewrite decide_True by (repeat constructor; done). rewrite Hf. eexists. split; [reflexivity|]. split; [done|].
    split; [by apply node_moved|exact Hbody|]. exists (moved f). split; [by apply node_moved|done].
  - rewrite decide_False by (by intros [_ [? _]%Forall_cons]%Forall_cons). destruct Hf as [why Hw]. rewrite Hw. by exists why.
Qed.

Lemma carries_region : carries (λ r, rg_handlers r ≫= handler_anchors) (region_follows (a_renumbering a)) (renumber_region (a_renumbering a)).
Proof using Hr.
  intros [id blocks handlers parent]. unfold renumber_region. cbn [rg_id rg_protected_blocks rg_handlers rg_parent].
  pose proof (carries_list _ _ _ carries_handler handlers) as Hh. case_decide; [|by apply panics_bind].
  destruct Hh as (hs & -> & Hhs & Hk). rsimpl. eexists. split; [reflexivity|]. cbn [rg_handlers]. split; [done|].
  split; cbn; [done|done|apply retain_surviving_spec|exact Hk].
Qed.
End Carried.

(** ** Splitting at several points *)

Section Points.
Context {I E : Type}.
Implicit Types (c : Cfg I E) (a : agraph (BasicBlock I) (Edge E)) (points : list (nat * E)).

(** The pieces between the points, the first of which starts at [base]. *)
Fixpoint cut (l : list I) (base : nat) (points : list nat) : list (list I) :=
  match points with
  | [] => [l]
  | p :: points => take (p - base) l :: cut (drop (p - base) l) p points
  end.

Lemma concat_cut (points : list nat) : ∀ (l : list I) base, concat (cut l base points) = l.
Proof. induction points as [|p points IH]; intros l base; cbn; [by rewrite app_nil_r|]. by rewrite IH, take_drop. Qed.

(** Every point at or after the one before it, none after the end *)
Fixpoint ordered (base end_ : nat) (points : list nat) : Prop :=
  match points with [] => True | p :: points => base ≤ p ≤ end_ ∧ ordered p end_ points end.

Lemma ordered_from base end_ (points : list nat) : ordered base end_ points → Forall (λ p, base ≤ p) points.
Proof.
  revert base. induction points as [|p points IH]; intros base; cbn; [constructor|]. intros [Hp Hrest%IH]. constructor; [lia|].
  eapply Forall_impl; [exact Hrest|]. cbn. lia.
Qed.

Lemma existsb_take_drop (throws : I → bool) l m n : existsb throws (take (m + n) l) = false → existsb throws (take n (drop m l)) = false.
Proof. rewrite take_drop_commute. intros H. rewrite <-(take_drop m (take _ l)), existsb_app in H. by apply orb_false_iff in H as [_ H]. Qed.

Lemma check_points_ordered n points : ∀ previous,
  check_points n previous points = None → ordered (default 0 previous) n (fst <$> points).
Proof.
  induction points as [|[p x] points IH]; intros previous; cbn; [done|]. case_decide; [done|].
  destruct previous as [q|]; [case_decide; [done|]|]; intros Hrec%IH; cbn in *; (split; [lia|exact Hrec]).
Qed.

(** A validated list of points is within the block and strictly increasing. *)
Lemma check_points_None n points :
  check_points n None points = None ↔ Forall (λ p, p ≤ n) (fst <$> points) ∧ StronglySorted lt (fst <$> points).
Proof.
  assert (Hgen : ∀ previous, check_points n previous points = None ↔
    Forall (λ p, p ≤ n) (fst <$> points) ∧ StronglySorted lt (fst <$> points) ∧ ∀ q, previous = Some q → Forall (λ p, q < p) (fst <$> points)).
  { induction points as [|[p x] points IH]; intros previous; cbn [check_points fmap list_fmap fst].
    { split; [intros _; split_and!; intros; constructor|done]. }
    rewrite !Forall_cons. case_decide as Hn; [split; [done|intros ((? & _) & _); lia]|].
    assert (Hnext : check_points n (Some p) points = None ↔
      (p ≤ n ∧ Forall (λ p, p ≤ n) (fst <$> points)) ∧ StronglySorted lt (p :: (fst <$> points))).
    { rewrite IH. split; [intros (Hf & Hs & Hp)|intros ((Hp & Hf) & Hs)].
      - split; [split; [lia|done]|]. constructor; [done|]. by apply Hp.
      - apply StronglySorted_inv in Hs as [Hs Hlt]. split_and!; [done|done|]. by intros q [= <-]. }
    destruct previous as [q|]; [case_decide as Hq|].
    - split; [intros [=]|]. intros (_ & _ & Hp). specialize (Hp q eq_refl). apply Forall_cons in Hp as [? _]. lia.
    - rewrite Hnext. split; [intros [Hf Hs]|intros (Hf & Hs & _); split; [exact Hf|exact Hs]]. split; [exact Hf|split; [exact Hs|]]. intros q' [= <-].
      apply StronglySorted_inv in Hs as [_ Hlt]. constructor; [lia|]. eapply Forall_impl; [exact Hlt|]. cbn. lia.
    - rewrite Hnext. split; [intros [Hf Hs]; split; [exact Hf|split; [exact Hs|intros q [=]]]|]. intros (Hf & Hs & _). split; [exact Hf|exact Hs]. }
  rewrite Hgen. split; [by intros (? & ? & _)|]. intros [? ?]. by split_and!.
Qed.

Lemma split_points_spec points : ∀ c a bs m current base,
  repr (cfg_graph c) a → a_nlive a current = true → ordered base (base + length (code a current)) (fst <$> points) →
  (N.of_nat (length (a_nodes a) + length points) ≤ MAX_SLOTS)%N → (N.of_nat (length (a_edges a) + length points) ≤ MAX_SLOTS)%N →
  let news := N.of_nat <$> seq (length (a_nodes a)) (length points) in
  ∃ c' a' m' last at_, rfold split_at_point (c, bs, m, current, base) points = Ok (c', bs ++ news, m', last, at_) ∧
    repr (cfg_graph c') a' ∧ length (a_nodes a') = length (a_nodes a) + length points ∧ code a' <$> current :: news = cut (code a current) base (fst <$> points) ∧
    (∀ b, a_nlive a b = true → b ≠ current → code a' b = code a b) ∧ (∀ b, a_nlive a b = true → a_nlive a' b = true) ∧
    ∀ throws seen b l, (a_unwinds a current → Forall (λ p, existsb throws (take (p - base) (code a current)) = false) (fst <$> points)) →
      (∀ e, seen e → index e < length (a_edges a)) → a_nlive a b = true → trace throws seen c (b, 0) l ↔ trace throws seen c' (b, 0) l.
Proof.
  induction points as [|[p x] points IH]; intros c a bs m current base Hr Hcur Hord Hn He news.
  { exists c, a, m, current, base. cbn. rewrite app_nil_r, Nat.add_0_r. by split_and!. }
  cbn [fmap list_fmap fst ordered length rfold split_at_point] in *. destruct Hord as [Hp Hord].
  assert (Hlen : (N.of_nat (length (a_nodes a)) < MAX_SLOTS)%N) by lia. assert (Hlene : (N.of_nat (length (a_edges a)) < MAX_SLOTS)%N) by lia.
  set (new := N.of_nat (length (a_nodes a))) in *. set (ft := N.of_nat (length (a_edges a))) in *.
  destruct (split_spec c a current (p - base) x (Some rewrite_new) Hr Hcur ltac:(lia) Hlen Hlene)
    as (c1 & m1 & a1 & Hrun & Hr1 & Hs & _ & _ & _ & Hln & Hle & _). fold new ft in Hrun, Hs.
  assert (Hnew : a_nlive a new = false).
  { destruct (a_nlive a new) eqn:Hlive; [|done]. apply (repr_nlive_lt _ _ Hr) in Hlive. unfold new, index in Hlive. lia. }
  assert (Hne : current ≠ new) by congruence.
  assert (Hnew1 : a_nlive a1 new = true) by (rewrite (sp_nlive _ _ _ _ _ _ Hs), bool_decide_true by done; apply orb_true_r).
  assert (Hcode : code a1 new = drop (p - base) (code a current)) by by rewrite (sp_code _ _ _ _ _ _ Hs), decide_False, decide_True.
  assert (Hcurcode : code a1 current = take (p - base) (code a current)) by by rewrite (sp_code _ _ _ _ _ _ Hs), decide_True.
  destruct (IH c1 a1 (bs ++ [new]) (rewrite_compose m (default rewrite_new m1)) new p Hr1 Hnew1)
    as (c2 & a2 & m2 & last & at2 & Hrun2 & Hr2 & Hln2 & Hcut & Hother & Hkeep & Htr).
  { rewrite Hcode, length_drop. replace (p + (length (code a current) - (p - base))) with (base + length (code a current)) by lia. done. }
  { rewrite Hln. lia. }
  { rewrite Hle. lia. }
  rewrite Hln in Hrun2, Hcut. exists c2, a2, m2, last, at2. unfold split_block_with_payload_mapped. rewrite Hrun. rsimpl.
  assert (Hlive1 : ∀ b, a_nlive a b = true → a_nlive a1 b = true) by (intros b Hb; by rewrite (sp_nlive _ _ _ _ _ _ Hs), Hb).
  assert (Hnews : news = new :: (N.of_nat <$> seq (S (length (a_nodes a))) (length points))) by done.
  split_and!.
  - rewrite Hrun2, Hnews. by rewrite <-app_assoc.
  - done.
  - rewrite Hln2, Hln. lia.
  - rewrite Hnews. cbn [fmap list_fmap] in Hcut |- *. rewrite (Hother current) by auto. rewrite Hcurcode, Hcode in *. by rewrite Hcut.
  - intros b Hb Hbc. assert (Hbn : b ≠ new) by congruence. rewrite Hother by auto. by rewrite (sp_code _ _ _ _ _ _ Hs), !decide_False.
  - auto.
  - intros throws seen b l Hthrow Hseen Hb. assert (Hft : ¬ seen ft) by (intros Hx%Hseen; unfold ft, index in Hx; lia).
    rewrite <-(Htr throws seen b l); [| |intros e Hx%Hseen; lia|auto].
    + eapply (split_traces throws seen c a a1 current new ft (p - base)); try done; [lia|]. by intros [? _]%Hthrow%Forall_cons.
    + intros (e & t & Hg & Hu). apply (split_goes c a a1 current new ft (p - base) Hr Hs Hnew Hcur current) in Hg; [|done].
      rewrite (split_unwinding c a a1 current new ft (p - base) Hr Hs current e t Hg) in Hu.
      destruct (proj1 (Forall_cons _ _ _) (Hthrow ltac:(by exists e, t))) as [_ Hlater]. clear -Hlater Hord Hp Hcode. rewrite Hcode.
      apply ordered_from in Hord. rewrite Forall_forall in Hlater, Hord |- *. intros q Hq. specialize (Hlater q Hq). specialize (Hord q Hq). cbn in Hord.
      apply existsb_take_drop. by replace (p - base + (q - p)) with (q - base) by lia.
Qed.
End Points.

(** ** Guarantees *)

Section Guarantees.
Context {I E : Type}.
Implicit Types (c : Cfg I E) (a : agraph (BasicBlock I) (Edge E)).

(** A graph's views are its store's. *)
Lemma cfg_EdgeViews c s : EdgeViews (cfg_graph c) s → EdgeViews c s.
Proof.
  intros H. destruct H as [HV Hb Hi Ha He Hok]. constructor; [|done..]. destruct HV as [Vb Vn Vx Vok]. by constructor.
Qed.

(** C30: Whatever calls built a control-flow graph, compaction included, the
    graph views of it keep their contracts, its entry is one of its blocks, and
    every one of its blocks can be read. *)
Theorem cfg_calls_keep_contract c :
  reachable_cfg c →
  ∃ s, EdgeViews c s ∧ gv_root c ∈ es_nodes s ∧ ∀ b, b ∈ es_nodes s →
    contains_block c b = Ok true ∧ ∃ l, cv_instructions c b = Ok l.
Proof.
  intros (a & Hr & He)%reachable_ok. destruct (rp_inv _ _ Hr) as (L & Hinv & _). exists (store_shape (cfg_graph c) L).
  split; [apply cfg_EdgeViews, (store_EdgeViews _ _ Hinv)|].
  assert (Hlive : ∀ b, b ∈ es_nodes (store_shape (cfg_graph c) L) ↔ a_nlive a b = true).
  { intros b. rewrite (store_node_ids _ _ Hinv), (rp_nlive _ _ Hr). done. }
  split; [by apply Hlive|]. intros b Hb%Hlive. split; [unfold contains_block; by rewrite (repr_contains_node _ _ Hr), Hb|].
  destruct (lookup_lt_is_Some_2 (a_nodes a) (index b)) as [blk Hblk]; [by apply (repr_nlive_lt _ _ Hr)|].
  exists (bb_instructions blk). cbn. unfold block. by rewrite (proj2 (repr_node _ _ Hr b blk) Hblk).
Qed.

(** C31: Splitting a live block at any boundary of its instructions succeeds
    while slots are left. The block keeps the instructions before the boundary
    and one fallthrough edge to the new block, which has the rest and every edge
    that left the block, in the same order. Whichever instructions may throw,
    and whatever edges but that one are watched, the executions from every old
    block are the same ones, as long as the block has no unwind edge or no
    instruction before the boundary throws: the unwind edges of an instruction
    that throws before the boundary are the new block's now. *)
Theorem split_keeps_executions c id at_ p blk :
  reachable_cfg c → contains_block c id = Ok true → block c id = Ok blk → at_ ≤ length (bb_instructions blk) →
  (N.of_nat (block_bound c) < MAX_SLOTS)%N → (N.of_nat (cfg_edge_bound c) < MAX_SLOTS)%N →
  let new := N.of_nat (block_bound c) in let ft := N.of_nat (cfg_edge_bound c) in
  ∃ c' outs r, split_block_with_payload c id at_ p = Ok (c', new) ∧ contains_block c new = Ok false ∧
    cv_instructions c' id = Ok (take at_ (bb_instructions blk)) ∧ cv_instructions c' new = Ok (drop at_ (bb_instructions blk)) ∧
    cfg_outgoing c id = Ok outs ∧ cfg_outgoing c' new = Ok outs ∧ cfg_outgoing c' id = Ok [ft] ∧
    cfg_edge c' ft = Ok r ∧ er_target r = new ∧ edge_kind (er_data r) = Fallthrough ∧
    ∀ throws seen b l, (unwinds_out c id → existsb throws (take at_ (bb_instructions blk)) = false) → ¬ seen ft → contains_block c b = Ok true →
      trace throws seen c (b, 0) l ↔ trace throws seen c' (b, 0) l.
Proof.
  intros (a & Hr & He)%reachable_ok Hid Hblk Hat. unfold contains_block in *.
  rewrite (repr_contains_node _ _ Hr) in Hid. injection Hid as Hid. pose proof (block_code c a id blk Hr Hblk) as Hcode.
  unfold block_bound, cfg_edge_bound. rewrite (repr_node_bound _ _ Hr), (repr_edge_bound _ _ Hr), <-Hcode.
  rewrite <-Hcode in Hat. intros Hn Hm. cbv zeta. set (new := N.of_nat (length (a_nodes a))). set (ft := N.of_nat (length (a_edges a))).
  destruct (split_spec c a id at_ p None Hr Hid Hat Hn Hm) as (c' & m & a' & Hrun & Hr' & Hs & Hentry & _ & _ & Hln & Hle & _ & Hk).
  fold new ft in Hrun, Hs. assert (Hnew : a_nlive a new = false).
  { destruct (a_nlive a new) eqn:Hlive; [|done]. apply (repr_nlive_lt _ _ Hr) in Hlive. unfold new, index in Hlive. lia. }
  assert (Hne : new ≠ id) by congruence. assert (Hlt : ∀ b, a_nlive a b = true → index b < length (a_nodes a)) by apply (repr_nlive_lt _ _ Hr).
  destruct (sp_ft _ _ _ _ _ _ Hs) as (r & Hrec & Htgt & _), Hk as (r' & Hrec' & Hkind). fold ft in Hrec'. assert (r' = r) as -> by congruence.
  exists c', (a_adj a Outgoing id), (mk_EdgeRef ft (source r) (target r) (payload r)).
  assert (Hread : ∀ b, index b < length (a_nodes a') → cv_instructions c' b = Ok (code a' b)).
  { intros b Hb. destruct (lookup_lt_is_Some_2 _ _ Hb) as [x Hx]. cbn. pose proof (proj2 (repr_node _ _ Hr' b x) Hx) as Hnode.
    unfold code, block. by rewrite Hx, Hnode. }
  assert (Hin : index new < length (a_nodes a')) by (unfold new, index; lia). specialize (Hlt id Hid).
  split_and!; try done.
  - unfold split_block_with_payload. by rewrite Hrun.
  - rewrite (repr_contains_node _ _ Hr). by rewrite Hnew.
  - rewrite Hread by lia. by rewrite (sp_code _ _ _ _ _ _ Hs), decide_True.
  - rewrite Hread by done. by rewrite (sp_code _ _ _ _ _ _ Hs), decide_False, decide_True.
  - by apply (repr_adjacency _ _ Hr).
  - unfold cfg_outgoing, outgoing. rewrite (repr_adjacency _ _ Hr') by done. by rewrite (sp_adj _ _ _ _ _ _ Hs), decide_False, decide_True.
  - unfold cfg_outgoing, outgoing. rewrite (repr_adjacency _ _ Hr') by lia. by rewrite (sp_adj _ _ _ _ _ _ Hs), decide_True.
  - unfold cfg_edge. rewrite (repr_contains_edge _ _ Hr'), (sp_elive _ _ _ _ _ _ Hs), bool_decide_true, orb_true_r by done. rsimpl.
    by rewrite (proj2 (repr_record _ _ Hr' ft r) Hrec).
  - intros throws seen b l Hthrow Hft Hb. rewrite (repr_contains_node _ _ Hr) in Hb. injection Hb as Hb.
    rewrite <-(unwinds_reads c a id Hr Hid) in Hthrow. by eapply split_traces.
Qed.

(** C32: Splitting a live block at several points changes nothing unless the
    points lie within the block and strictly increase. Then it leaves the block
    and one new block for each point, whose instructions are the pieces of the
    block between the points in order. Whichever instructions may throw, and
    whatever edges but the new ones are watched, the executions from every block
    of the old graph are the same ones, as long as the block has no unwind edge
    or no instruction before its last point throws. *)
Theorem split_at_points_cuts c id points blk :
  reachable_cfg c → contains_block c id = Ok true → block c id = Ok blk →
  (N.of_nat (block_bound c + length points) ≤ MAX_SLOTS)%N → (N.of_nat (cfg_edge_bound c + length points) ≤ MAX_SLOTS)%N →
  let at_ := fst <$> points in let l := bb_instructions blk in
  let fine := Forall (λ p, p ≤ length l) at_ ∧ StronglySorted lt at_ in
  ∃ c' r, split_block_at_points_with_payloads c id points = Ok (c', r) ∧
    match r with
    | inr _ => ¬ fine ∧ c' = c
    | inl (bs, _) => fine ∧ bs = id :: (N.of_nat <$> seq (block_bound c) (length points)) ∧
        rmapM (cv_instructions c') bs = Ok (cut l 0 at_) ∧ concat (cut l 0 at_) = l ∧
        ∀ throws seen b t, (unwinds_out c id → Forall (λ p, existsb throws (take p l) = false) at_) →
          (∀ e, seen e → index e < cfg_edge_bound c) → contains_block c b = Ok true → trace throws seen c (b, 0) t ↔ trace throws seen c' (b, 0) t
    end.
Proof.
  intros (a & Hr & He)%reachable_ok Hid Hblk. unfold contains_block in *.
  rewrite (repr_contains_node _ _ Hr) in Hid. injection Hid as Hid. pose proof (block_code c a id blk Hr Hblk) as Hcode.
  unfold block_bound, cfg_edge_bound. rewrite (repr_node_bound _ _ Hr), (repr_edge_bound _ _ Hr), <-Hcode.
  intros Hn Hm. cbv zeta. unfold split_block_at_points_with_payloads. rewrite Hblk. rsimpl. rewrite <-Hcode.
  pose proof (check_points_None (length (code a id)) points) as Hfine.
  destruct (check_points _ None points) as [why|] eqn:Hcheck.
  { exists c, (inr why). split; [done|]. split; [|done]. intros Hx. by apply Hfine in Hx. }
  apply check_points_ordered in Hcheck.
  destruct (split_points_spec points c a [id] rewrite_new id 0 Hr Hid Hcheck Hn Hm)
    as (c' & a' & m' & last & at_ & Hrun & Hr' & Hln & Hcut & _ & _ & Htr).
  eexists c', (inl (_, m')). rewrite Hrun. rsimpl. split; [reflexivity|]. split_and!.
  - by apply Hfine.
  - by apply Hfine.
  - done.
  - rewrite <-Hcut. apply rmapM_pure. intros b Hb. pose proof (repr_nlive_lt _ _ Hr id Hid) as Hlt.
    assert (index b < length (a_nodes a')) as Hb'.
    { rewrite Hln. apply elem_of_cons in Hb as [->|Hb]; [lia|]. apply list_elem_of_fmap in Hb as (i & -> & Hi%elem_of_seq). unfold index. lia. }
    destruct (lookup_lt_is_Some_2 _ _ Hb') as [x Hx]. cbn. unfold block, code. by rewrite (proj2 (repr_node _ _ Hr' b x) Hx), Hx.
  - apply concat_cut.
  - intros throws seen b t Hthrow Hseen Hb. rewrite (repr_contains_node _ _ Hr) in Hb. injection Hb as Hb.
    rewrite <-(unwinds_reads c a id Hr Hid) in Hthrow. apply Htr; [|done|done]. intros Hu%Hthrow.
    eapply Forall_impl; [exact Hu|]. intros p Hp. by rewrite Nat.sub_0_r.
Qed.

(** C33: Compacting a control-flow graph panics exactly when exception metadata
    names a removed block by a single reference. Otherwise it leaves no hole in
    the numbering, and every reference to a block follows the block it named to
    its new number: the entry's, and those of the handlers, the filters, the
    cleanups and their continuations. A set of blocks, the ones a region
    protects or the known body of a handler, becomes the survivors of the set,
    and nothing else of a region, a handler or a cleanup changes. *)
Theorem cfg_compact_follows_references c :
  reachable_cfg c →
  ∃ dangling, dangling_anchors c = Ok dangling ∧
    match dangling with
    | [] => ∃ c' r, cfg_compact c = Ok (c', r) ∧ reachable_cfg c' ∧ cfg_is_compact c' = true ∧
        Renumber.node r (cfg_entry c) = Some (cfg_entry c') ∧ Some <$> anchors c' = Renumber.node r <$> anchors c ∧
        Forall2 (region_follows r) (cfg_regions c) (cfg_regions c') ∧ Forall2 (cleanup_follows r) (cfg_cleanups c) (cfg_cleanups c')
    | _ => panics (cfg_compact c)
    end.
Proof.
  intros Hreach. pose proof (reachable_ok c Hreach) as (a & Hr & He). destruct (compact_refines _ a Hr) as (g' & Hc & Hr' & Hcomp).
  exists (filter (λ b, negb (a_nlive a b) = true) (anchors c)). split.
  { apply rfilter_pure. intros b _. unfold contains_block. by rewrite (repr_contains_node _ _ Hr). }
  pose proof (carries_list a _ _ _ (carries_region _ a Hr) (cfg_regions c)) as Hregions.
  pose proof (carries_list a _ _ _ (carries_cleanup _ a Hr) (cfg_cleanups c)) as Hcleanups.
  assert (Hcompact : ∀ m, m = cfg_compact c → m = (regions ← rmapM (renumber_region (a_renumbering a)) (cfg_regions c);
    cleanups ← rmapM (renumber_cleanup (a_renumbering a)) (cfg_cleanups c);
    mret (mk_Cfg g' (renum (a_nf a) (cfg_entry c)) regions cleanups, a_renumbering a))).
  { intros m ->. unfold cfg_compact. rewrite Hc. rsimpl. pose proof (require_spec _ a Hr (cfg_entry c) "entry block") as Hreq.
    rewrite decide_True in Hreq by done. by rewrite Hreq. }
  specialize (Hcompact _ eq_refl).
  destruct (decide (Forall (λ b, a_nlive a b = true) (anchors c))) as [Hall|Hnot].
  - rewrite filter_none by (intros b Hb; rewrite Forall_forall in Hall; by rewrite (Hall b Hb)).
    pose proof Hall as [Hrg Hcu]%Forall_app. rewrite decide_True in Hregions by exact Hrg. rewrite decide_True in Hcleanups by exact Hcu.
    destruct Hregions as (regions & Hmr & Har & Hkept), Hcleanups as (cleanups & Hmc & Hac & Hkept'). rewrite Hmr, Hmc in Hcompact. cbn in Hcompact.
    eexists _, _. split; [exact Hcompact|]. split_and!.
    + destruct Hreach as (c0 & calls & H0 & Hcalls). exists c0, (calls ++ [CCompact]). split; [done|].
      rewrite rfold_app, Hcalls. cbn. by rewrite Hcompact.
    + unfold is_compact in Hcomp. rewrite !andb_true_iff, !bool_decide_eq_true in Hcomp. destruct Hcomp as [[[[Hdn Hde] Hcn] Hce] _].
      unfold cfg_is_compact, block_count, block_bound, cfg_edge_count, cfg_edge_bound, node_count, edge_count, node_bound, edge_bound. cbn [cfg_graph].
      rewrite Hdn, Hde, Hcn, Hce. cbn. by rewrite !Nat.add_0_r, !Nat.eqb_refl.
    + cbn. by rewrite (renumber_live _ a _ Hr), He.
    + unfold anchors. cbn [cfg_regions cfg_cleanups]. rewrite Har, Hac, <-fmap_app, <-list_fmap_compose. apply list_fmap_ext.
      intros i b Hb%list_elem_of_lookup_2. cbn. rewrite Forall_forall in Hall. by rewrite (renumber_live _ a _ Hr), (Hall b Hb).
    + exact Hkept.
    + exact Hkept'.
  - destruct (filter _ (anchors c)) as [|b l] eqn:Hf.
    + exfalso. apply Hnot, Forall_forall. intros b Hb. destruct (a_nlive a b) eqn:Hl; [done|].
      assert (b ∈ filter (λ b, negb (a_nlive a b) = true) (anchors c)) as Hin by (apply list_elem_of_filter; by rewrite Hl).
      rewrite Hf in Hin. by apply elem_of_nil in Hin.
    + rewrite Hcompact. destruct (decide (Forall (λ b, a_nlive a b = true) (cfg_regions c ≫= λ r, rg_handlers r ≫= handler_anchors))) as [Hrg|Hrg].
      * rewrite (decide_True _ _ Hrg) in Hregions. destruct Hregions as (regions & Hmr & _). rewrite Hmr. rsimpl. rewrite decide_False in Hcleanups; [by apply panics_bind|].
        intros Hcu. apply Hnot. by apply Forall_app.
      * rewrite (decide_False _ _ Hrg) in Hregions. by apply panics_bind.
Qed.
End Guarantees.

(** ** A sample graph *)

(** The graph some calls build, where they succeed *)
Section Built.
Context {I E : Type}.
Implicit Types (calls : list (cfg_call I E)).

Definition run_calls calls : res (Cfg I E) := c0 ← with_edge_payload; rfold cfg_exec c0 calls.
Definition built calls : Cfg I E := match run_calls calls with Ok c => c | _ => mk_Cfg tagged 0%N [] [] end.
Definition builds calls : bool := match run_calls calls with Ok _ => true | _ => false end.

Lemma built_reachable calls : builds calls = true → reachable_cfg (built calls).
Proof.
  unfold builds, built, reachable_cfg, run_calls. destruct with_edge_payload as [c0| |]; rsimpl; [|done..].
  destruct (rfold cfg_exec c0 calls) as [c| |] eqn:Hrun; [|done..]. intros _. by exists c0, calls.
Qed.
End Built.

(** Blocks 0, 1 and 3, after the removal of block 2; block 3 handles the
    exceptions of block 0. *)
Definition sample_cfg_calls : list (cfg_call N ()) :=
  [CBlockMut 0%N (set_instructions [10; 11; 12]%N); CNewBlock; CNewBlock; CNewBlock;
   CAddEdge 0%N 1%N ConditionalTrue None tt; CAddEdge 0%N 2%N ConditionalFalse (Some 5%N) tt; CAddEdge 1%N 3%N Unconditional None tt;
   CRemoveBlock 2%N; CAddRegion (mk_Region 0%N {[0%N; 2%N]} [mk_Handler 3%N UnknownBody Catch] None)].

Definition sample_cfg : Cfg N () := built sample_cfg_calls.

Lemma sample_cfg_reachable : reachable_cfg sample_cfg.
Proof. apply built_reachable. vm_compute. reflexivity. Qed.

Definition sample_block : BasicBlock N := mk_BasicBlock [10; 11; 12]%N None.

Lemma cfg_calls_keep_contract_witness : ∃ s, EdgeViews sample_cfg s ∧ gv_root sample_cfg ∈ es_nodes s.
Proof.
  destruct (cfg_calls_keep_contract sample_cfg sample_cfg_reachable) as (s & HV & He & _). exact (ex_intro _ s (conj HV He)).
Defined.

(** The sample graph, where block 0 may also unwind to block 3 *)
Definition sample_unwind : Cfg N () := built (sample_cfg_calls ++ [CAddEdge 0%N 3%N ExceptionUnwind None tt]).

Lemma sample_unwind_reachable : reachable_cfg sample_unwind.
Proof. apply built_reachable. vm_compute. reflexivity. Qed.

Lemma split_keeps_executions_witness :
  ∃ c', split_block_with_payload sample_unwind 0%N 1 tt = Ok (c', 4%N) ∧ cv_instructions c' 4%N = Ok [11; 12]%N ∧
    ∀ l, trace (N.eqb 11) (λ e, (e < 4)%N) sample_unwind (0%N, 0) l ↔ trace (N.eqb 11) (λ e, (e < 4)%N) c' (0%N, 0) l.
Proof.
  assert (Hlive : contains_block sample_unwind 0%N = Ok true) by (vm_compute; reflexivity).
  assert (Hblk : block sample_unwind 0%N = Ok sample_block) by (vm_compute; reflexivity).
  assert (Hn : block_bound sample_unwind = 4) by (vm_compute; reflexivity).
  assert (Hm : cfg_edge_bound sample_unwind = 4) by (vm_compute; reflexivity).
  pose proof (split_keeps_executions sample_unwind 0%N 1 tt sample_block sample_unwind_reachable Hlive Hblk) as H.
  rewrite Hn, Hm in H. specialize (H ltac:(vm_compute; repeat constructor) ltac:(vm_compute; reflexivity) ltac:(vm_compute; reflexivity)).
  destruct H as (c' & outs & r & Hrun & _ & _ & Htail & _ & _ & _ & _ & _ & _ & Htr).
  exists c'. split; [exact Hrun|]. split; [exact Htail|]. intros l. apply Htr; [intros _; vm_compute; reflexivity|vm_compute; discriminate|exact Hlive].
Defined.

(** A block with instructions and one exit, not an unwind edge, runs one first. *)
Lemma runs_before_leaving {I E} throws seen (c : Cfg I E) b blk e r x :
  block c b = Ok blk → cfg_outgoing c b = Ok [e] → cfg_edge c e = Ok r → kind_of (er_data r) ≠ ExceptionUnwind → bb_instructions blk ≠ [] →
  ¬ trace throws seen c (b, 0) [Took x].
Proof.
  intros Hblk Hout Hr Hk Hne [q Hq]. remember [Took x] as l eqn:Hl. remember (b, 0) as p eqn:Hp.
  destruct Hq as [|p o p' l q Hs _]; [done|]. subst p. inversion Hs as [|b' i blk' outs e' r' o' Hb Ho He Hr' Hd _]; subst; [done|].
  rewrite Hblk in Hb. injection Hb as <-. rewrite Hout in Ho. injection Ho as <-. apply list_elem_of_singleton in He as ->.
  rewrite Hr in Hr'. injection Hr' as <-. unfold departs, unwind_kind in Hd. rewrite bool_decide_false in Hd by done.
  cbn in Hd. by destruct (bb_instructions blk).
Qed.

(** Where an instruction before the boundary throws, its unwind is lost: the
    instruction 10 of block 0 throws, and the first half has no unwind edge. *)
Lemma split_parts_unwinds :
  ∃ c', split_block_with_payload sample_unwind 0%N 1 tt = Ok (c', 4%N) ∧
    trace (N.eqb 10) (λ e, (e < 4)%N) sample_unwind (0%N, 0) [Took 3%N] ∧ ¬ trace (N.eqb 10) (λ e, (e < 4)%N) c' (0%N, 0) [Took 3%N].
Proof.
  set (c' := match split_block_with_payload sample_unwind 0%N 1 tt with Ok (c', _) => c' | _ => sample_unwind end).
  assert (Hrun : split_block_with_payload sample_unwind 0%N 1 tt = Ok (c', 4%N)) by (vm_compute; reflexivity).
  assert (Hblk : block c' 0%N = Ok (mk_BasicBlock [10]%N None)) by (vm_compute; reflexivity).
  assert (Hout : cfg_outgoing c' 0%N = Ok [4]%N) by (vm_compute; reflexivity).
  assert (Hft : cfg_edge c' 4%N = Ok (mk_EdgeRef 4%N 0%N 4%N (mk_Edge Fallthrough None tt))) by (vm_compute; reflexivity).
  clearbody c'. exists c'. split; [exact Hrun|]. clear Hrun. split.
  - assert (Hblk' : block sample_unwind 0%N = Ok sample_block) by (vm_compute; reflexivity).
    assert (Hout' : cfg_outgoing sample_unwind 0%N = Ok [0; 3]%N) by (vm_compute; reflexivity).
    assert (He : cfg_edge sample_unwind 3%N = Ok (mk_EdgeRef 3%N 0%N 3%N (mk_Edge ExceptionUnwind None tt))) by (vm_compute; reflexivity).
    exists (3%N, 0). apply runs_one. generalize dependent sample_unwind. intros c Hblk' Hout' He.
    apply (step_leave (N.eqb 10) (λ e, (e < 4)%N) c 0%N 0 sample_block [0; 3]%N 3%N _ [Took 3%N] Hblk' Hout' (list_elem_of_further _ _ _ (list_elem_of_here _ _)) He);
      [by exists 10%N|by left].
  - exact (runs_before_leaving _ _ c' 0%N _ 4%N _ 3%N Hblk Hout Hft ltac:(discriminate) ltac:(discriminate)).
Qed.

Lemma split_at_points_cuts_witness :
  ∃ c' m, split_block_at_points_with_payloads sample_cfg 0%N [(1, tt); (3, tt)] = Ok (c', inl ([0; 4; 5]%N, m)) ∧
    rmapM (cv_instructions c') [0; 4; 5]%N = Ok [[10]; [11; 12]; []]%N.
Proof.
  assert (Hlive : contains_block sample_cfg 0%N = Ok true) by (vm_compute; reflexivity).
  assert (Hblk : block sample_cfg 0%N = Ok sample_block) by (vm_compute; reflexivity).
  assert (Hn : block_bound sample_cfg = 4) by (vm_compute; reflexivity).
  assert (Hm : cfg_edge_bound sample_cfg = 3) by (vm_compute; reflexivity).
  pose proof (split_at_points_cuts sample_cfg 0%N [(1, tt); (3, tt)] sample_block sample_cfg_reachable Hlive Hblk) as H.
  rewrite Hn, Hm in H. specialize (H ltac:(vm_compute; discriminate) ltac:(vm_compute; discriminate)).
  destruct H as (c' & [[bs m]|why] & Hrun & H).
  - destruct H as (_ & Hbs & Hcut & _). change (bs = [0; 4; 5]%N) in Hbs. subst bs. exists c', m. split; [exact Hrun|exact Hcut].
  - destruct H as [Hno _]. destruct Hno. cbn. split; repeat constructor.
Defined.

(** The sample graph with a second region, whose handler's body was the removed
    block 2 and block 3 *)
Definition sample_handled : Cfg N () := built (sample_cfg_calls ++
  [CAddRegion (mk_Region 1%N {[0%N]} [mk_Handler 3%N (KnownBody {[2%N; 3%N]}) (Filter 1%N)] (Some 0%N))]).

Lemma sample_handled_reachable : reachable_cfg sample_handled.
Proof. apply built_reachable. vm_compute. reflexivity. Qed.

Lemma cfg_compact_follows_references_witness :
  dangling_anchors sample_handled = Ok [] ∧ ∃ c' r, cfg_compact sample_handled = Ok (c', r) ∧ cfg_is_compact c' = true ∧
    Renumber.node r (cfg_entry sample_handled) = Some (cfg_entry c') ∧ Forall2 (region_follows r) (cfg_regions sample_handled) (cfg_regions c').
Proof.
  assert (Hd : dangling_anchors sample_handled = Ok []) by (vm_compute; reflexivity). split; [exact Hd|].
  destruct (cfg_compact_follows_references sample_handled sample_handled_reachable) as (dangling & Hd' & H).
  assert (dangling = []) as -> by exact (Ok_inj _ _ (eq_trans (eq_sym Hd') Hd)).
  destruct H as (c' & r & Hc & _ & Hcomp & He & _ & Hrg & _). exact (ex_intro _ c' (ex_intro _ r (conj Hc (conj Hcomp (conj He Hrg))))).
Defined.
