(* ===== verification/Cleanup.v ===== *)
(** * Cleanup transforms of a control-flow graph

    Models [transform/contract.rs], [transform/cleanup.rs] and
    [transform/critical.rs]: folding a block into its only predecessor, removing
    unreachable blocks, bypassing empty ones, the loop that repeats the three
    until nothing changes, and the splitting of critical edges. An optional
    rewrite record is threaded where the code takes [Option<&mut Rewrite>].
    Proofs are in [CleanupTheorems]. *)

From S2P Require Import Prelude Words Liveness Ids View EdgeViews Store StoreView Renumbering Compact Traverse Reach EdgeKinds Cfg.

Section Cleanup.
Context {I E : Type}.
Implicit Types (c : Cfg I E) (mapping : option Rewrite).

(** ** Contraction ([transform/contract.rs]) *)

(** The label moves to a block that has none. *)
Definition absorb_label c (source : Id) (target_label : option string) : res (Cfg I E) :=
  b ← block c source;
  match bb_label b, target_label with
  | None, Some label => block_mut c source (set_label label)
  | _, _ => mret c
  end.

(** [contract_edge_inner] *)
Definition contract_edge_inner c (source target : Id) mapping : res (Cfg I E * bool * option Rewrite) :=
  if decide (source = target ∨ target = cfg_entry c) then mret (c, false, mapping) else
  outgoing ← sole_outgoing c source;
  match outgoing with
  | None => mret (c, false, mapping)
  | Some connecting =>
      incoming ← sole_incoming c target;
      if decide (incoming ≠ Some connecting) then mret (c, false, mapping) else
      r ← cfg_edge c connecting;
      if negb (bool_decide (er_target r = target)) || is_exceptional (kind_of (er_data r)) || negb (can_fold_into c source target)
      then mret (c, false, mapping) else
      b ← block c target;
      c ← block_mut c target (set_instructions []);
      c ← block_mut c source (λ s, set_instructions (bb_instructions s ++ bb_instructions b) s);
      c ← absorb_label c source (bb_label b);
      '(c, _) ← cfg_remove_edge c connecting;
      let mapping := (λ m, record_edge m connecting []) <$> mapping in
      c ← move_outgoing_edges c target source;
      moved ← cfg_outgoing c source;
      '(c, _) ← remove_block c target;
      mret (c, true, (λ m, record_block (foldl (λ m e, record_edge m e [e]) m moved) target [source]) <$> mapping)
  end.

(** [contract_edge], [contract_edge_mapped] *)
Definition contract_edge c (source target : Id) : res (Cfg I E * bool) := fst <$> contract_edge_inner c source target None.
Definition contract_edge_mapped c (source target : Id) : res (Cfg I E * option Rewrite) :=
  '(c, folded, mapping) ← contract_edge_inner c source target (Some rewrite_new);
  mret (c, if (folded : bool) then mapping else None).

(** ** Unreachable blocks ([transform/cleanup.rs]) *)

(** [remove_unreachable_mapped]; [remove_unreachable] drops the mapping *)
Definition remove_unreachable_mapped c : res (Cfg I E * nat * Rewrite) :=
  live_anchors ← rfilter (contains_block c) (anchors c);
  reached ← reachable c (cfg_entry c :: live_anchors) Outgoing;
  ids ← block_ids c;
  doomed ← rfilter (λ b, negb <$> vget reached (index b)) ids;
  '(c, mapping) ← rfold (λ '(c, m) b, '(c, _, m) ← remove_block_recording c b m; mret (c, m)) (c, rewrite_new) doomed;
  mret (c, length doomed, mapping).

(** ** Merging *)

(** The [while let] of [merge_blocks_inner] *)
Fixpoint merge_from (fuel : nat) c (source : Id) (merged : nat) mapping : res (Cfg I E * nat * option Rewrite) :=
  match fuel with
  | 0 => Stuck
  | S fuel =>
      outgoing ← sole_outgoing c source;
      match outgoing with
      | None => mret (c, merged, mapping)
      | Some connecting =>
          r ← cfg_edge c connecting;
          '(c, folded, mapping) ← contract_edge_inner c source (er_target r) mapping;
          if (folded : bool) then merge_from fuel c source (S merged) mapping else mret (c, merged, mapping)
      end
  end.

(** [merge_blocks_inner]; [merge_blocks] and [merge_blocks_mapped] call it *)
Definition merge_at (acc : Cfg I E * nat * option Rewrite) (source : Id) : res (Cfg I E * nat * option Rewrite) :=
  let '(c, merged, mapping) := acc in
  live ← contains_block c source;
  if negb live then mret acc else merge_from (S (block_count c)) c source merged mapping.
Definition merge_blocks_inner c mapping : res (Cfg I E * nat * option Rewrite) :=
  order ← depth_first_preorder c (cfg_entry c) Outgoing;
  rfold merge_at (c, 0, mapping) order.
Definition merge_blocks c : res (Cfg I E * nat) := fst <$> merge_blocks_inner c None.
Definition merge_blocks_mapped c : res (Cfg I E * nat * Rewrite) :=
  '(c, merged, mapping) ← merge_blocks_inner c (Some rewrite_new); mret (c, merged, default rewrite_new mapping).

(** ** Empty blocks *)

(** One turn of the loop of [remove_empty_blocks_inner] *)
Definition bypass (acc : Cfg I E * nat * option Rewrite) (id : Id) : res (Cfg I E * nat * option Rewrite) :=
  let '(c, removed, mapping) := acc in
  if decide (id = cfg_entry c) then mret acc else
  live ← contains_block c id;
  if negb live then mret acc else
  b ← block c id;
  if negb (block_is_empty b) || is_anchor c id then mret acc else
  outgoing ← sole_outgoing c id;
  match outgoing with
  | None => mret acc
  | Some outgoing =>
      r ← cfg_edge c outgoing;
      if negb (bool_decide (kind_of (er_data r) ∈ [Fallthrough; Unconditional])) then mret acc else
      let target := er_target r in
      if decide (target = id) then mret acc else
      bypassed ← cfg_incoming c id;
      c ← redirect_edges_to c id target;
      '(c, _) ← cfg_remove_edge c outgoing;
      '(c, _) ← remove_block c id;
      mret (c, S removed,
        (λ m, record_block (record_edge (foldl (λ m e, record_edge m e [e]) m bypassed) outgoing []) id []) <$> mapping)
  end.

(** [remove_empty_blocks_inner]; [remove_empty_blocks] and [remove_empty_blocks_mapped] call it *)
Definition remove_empty_blocks_inner c mapping : res (Cfg I E * nat * option Rewrite) :=
  order ← depth_first_preorder c (cfg_entry c) Outgoing;
  rfold bypass (c, 0, mapping) order.
Definition remove_empty_blocks c : res (Cfg I E * nat) := fst <$> remove_empty_blocks_inner c None.
Definition remove_empty_blocks_mapped c : res (Cfg I E * nat * Rewrite) :=
  '(c, removed, mapping) ← remove_empty_blocks_inner c (Some rewrite_new); mret (c, removed, default rewrite_new mapping).

(** ** Until nothing changes *)

(** The [loop] of [simplify_mapped]; [simplify] drops the mapping *)
Fixpoint simplify_loop (fuel : nat) c (total : nat) (mapping : Rewrite) : res (Cfg I E * nat * Rewrite) :=
  match fuel with
  | 0 => Stuck
  | S fuel =>
      '(c, unreachable, unreachable_map) ← remove_unreachable_mapped c;
      let mapping := rewrite_compose mapping unreachable_map in
      '(c, empty, empty_map) ← remove_empty_blocks_mapped c;
      let mapping := rewrite_compose mapping empty_map in
      '(c, merged, merged_map) ← merge_blocks_mapped c;
      let mapping := rewrite_compose mapping merged_map in
      let round := unreachable + empty + merged in
      if decide (round = 0) then mret (c, total, mapping) else simplify_loop fuel c (total + round) mapping
  end.
Definition simplify_mapped c : res (Cfg I E * nat * Rewrite) := simplify_loop (S (block_count c)) c 0 rewrite_new.
Definition simplify c : res (Cfg I E * nat) := fst <$> simplify_mapped c.

(** ** Critical edges ([transform/critical.rs]) *)

(** The first loop of [split_critical_edges_with] *)
Definition note_critical c (critical : list Id) (e : Id) : res (list Id) :=
  r ← cfg_edge c e;
  ins ← cfg_incoming c (er_target r);
  mret (if decide (2 ≤ length ins) then critical ++ [e] else critical).
Definition critical_edges c : res (list Id) :=
  ids ← block_ids c;
  rfold (λ critical source,
    outs ← cfg_outgoing c source;
    if decide (length outs < 2) then mret critical else rfold (note_critical c) critical outs) [] ids.

(** [Edge::set_kind] *)
Definition set_kind (kind : EdgeKind) (e : Edge E) : Edge E := mk_Edge kind (edge_weight e) (edge_payload e).

(** The body of the second loop *)
Definition split_critical_edge (payload_for : Id → Edge E → E) (acc : Cfg I E * Rewrite) (e : Id) : res (Cfg I E * Rewrite) :=
  let '(c, mapping) := acc in
  original ← cfg_edge c e;
  let payload := payload_for e (er_data original) in
  '(c, middle) ← new_block c;
  '(c, _) ← cfg_redirect Incoming c e middle;
  '(c, second_kind) ← (if decide (kind_of (er_data original) = Back)
                       then c ← cfg_edge_mut c e (set_kind Unconditional); mret (c, Back)
                       else mret (c, Fallthrough));
  '(c, second) ← add_edge_with_payload c middle (er_target original) second_kind payload;
  mret (c, record_created_edge (record_created_block (record_edge mapping e [e; second]) middle) second).

(** [split_critical_edges_with]; [split_critical_edges] and
    [split_critical_edges_mapped] pass the default payload *)
Definition split_critical_edges_with c (payload_for : Id → Edge E → E) : res (Cfg I E * nat * Rewrite) :=
  critical ← critical_edges c;
  '(c, mapping) ← rfold (split_critical_edge payload_for) (c, rewrite_new) critical;
  mret (c, length critical, mapping).
End Cleanup.
