(* ===== verification/CleanupTheorems.v ===== *)
(** * What the cleanup transforms keep

    Contraction is a split read backwards, so [CfgTraces] gives its executions;
    bypassing an empty block is a simulation of its own, and so is a split of a
    critical edge read backwards; removing unreachable blocks restricts the graph
    to a closed set. Every pass is a sequence of those steps. *)

From S2P Require Import Prelude Words Liveness Ids View EdgeViews Chains Runs Store StoreInv StoreSpec StoreView Compress Renumbering Slots Compact History Traverse Reach EdgeKinds Cfg CfgTraces CfgTheorems TraverseTheorems Cleanup.

(** ** More calls of the abstract graph *)

Section Calls.
Context {I E : Type}.
Implicit Types (c : Cfg I E) (a : agraph (BasicBlock I) (Edge E)).

Lemma cfg_remove_edge_spec c a e : repr (cfg_graph c) a →
  ∃ g, cfg_remove_edge c e = Ok (set_graph g c, a_elive a e) ∧ repr g (a_remove_edges a (λ x, bool_decide (x = e))).
Proof.
  intros Hr. destruct (repr_exec _ _ Hr (RemoveEdge e) _ _ eq_refl) as (g & Hrun & Hg). exists g. split; [|done].
  unfold cfg_remove_edge. cbn in Hrun. destruct (remove_edge (cfg_graph c) e) as [[g' b]| |]; [|done..]. cbn in Hrun |- *. by injection Hrun as -> ->.
Qed.

Lemma remove_block_spec c a b : repr (cfg_graph c) a → b ≠ cfg_entry c → a_nlive a b = true →
  ∃ g, remove_block c b = Ok (set_graph g c, true) ∧ repr g (a_remove_node a b).
Proof.
  intros Hr Hne Hb. destruct (repr_exec _ _ Hr (RemoveNode b) _ _ eq_refl) as (g & Hrun & Hg). rewrite Hb in Hrun, Hg. exists g. split; [|done].
  unfold remove_block. rewrite bool_decide_true by done. rsimpl. cbn in Hrun.
  destruct (remove_node (cfg_graph c) b) as [[g' x]| |]; [|done..]. cbn in Hrun |- *. by injection Hrun as -> ->.
Qed.

Lemma cfg_redirect_spec d c a e n r : repr (cfg_graph c) a → a_elive a e = true → a_nlive a n = true →
  a_edges a !! index e = Some r → endpoint d r ≠ n →
  ∃ g, cfg_redirect d c e n = Ok (set_graph g c, endpoint d r) ∧ repr g (a_move a d (endpoint d r) n [e]).
Proof.
  intros Hr He Hn Hrec Hne. destruct (repr_exec _ _ Hr (RedirectEdge d e n) (a_move a d (endpoint d r) n [e]) (RId (endpoint d r))) as (g & Hrun & Hg).
  { cbn. rewrite decide_True by done. unfold a_redirect. rewrite Hrec. cbn. by rewrite decide_False. }
  exists g. split; [|done]. unfold cfg_redirect. rewrite exec_redirect in Hrun.
  destruct (redirect (cfg_graph c) e n d) as [[g' i]| |]; [|done..]. cbn in Hrun |- *. by injection Hrun as -> ->.
Qed.

Lemma cfg_edge_spec c a e r : repr (cfg_graph c) a → a_elive a e = true → a_edges a !! index e = Some r →
  cfg_edge c e = Ok (mk_EdgeRef e (source r) (target r) (payload r)).
Proof.
  intros Hr He Hrec. unfold cfg_edge. rewrite (repr_contains_edge _ _ Hr), He. rsimpl. by rewrite (proj2 (repr_record _ _ Hr e r) Hrec).
Qed.

Lemma block_spec c a b : repr (cfg_graph c) a → a_nlive a b = true →
  ∃ blk, block c b = Ok blk ∧ a_nodes a !! index b = Some blk ∧ code a b = bb_instructions blk.
Proof.
  intros Hr Hb. destruct (lookup_lt_is_Some_2 _ _ (repr_nlive_lt _ _ Hr b Hb)) as [blk Hblk]. exists blk.
  assert (block c b = Ok blk) as Hrun by by apply (repr_node _ _ Hr). split_and!; [done|done|]. by eapply block_code.
Qed.

Lemma sole_spec c a d b : repr (cfg_graph c) a → a_nlive a b = true →
  match d with Outgoing => sole_outgoing c b | Incoming => sole_incoming c b end = Ok (sole (a_adj a d b)).
Proof.
  intros Hr Hb%(repr_nlive_lt _ _ Hr). pose proof (repr_adjacency _ _ Hr d b Hb) as H.
  destruct d; unfold sole_outgoing, sole_incoming, cfg_outgoing, cfg_incoming, outgoing, incoming; by rewrite H.
Qed.

Lemma sole_Some l e : sole l = Some e ↔ l = [e].
Proof. destruct l as [|x [|y l]]; cbn; naive_solver. Qed.

(** An adjacency entry of a live edge *)
Lemma repr_out c a e b : repr (cfg_graph c) a → e ∈ a_adj a Outgoing b → ∃ t, goes a b e t ∧ a_elive a e = true ∧ a_nlive a t = true ∧ a_nlive a b = true.
Proof.
  intros Hr He. pose proof (proj1 (repr_adj _ _ Hr Outgoing b e) He) as (Hlive & r & Hrec & _).
  assert (Hg : goes a b e (target r)) by (split; [done|by exists r]). exists (target r). pose proof (goes_live _ _ _ _ _ Hr Hg). naive_solver.
Qed.
End Calls.

(** ** Bypassing an empty block *)

(** [a] has an empty block [id] with one exit, to [t]; [a'] goes straight to [t]. *)
Record bypass_of {I E} (a a' : agraph (BasicBlock I) (Edge E)) (id out t : Id) : Prop := mk_bypass_of {
  by_empty : code a id = [];
  by_exit : a_adj a Outgoing id = [out];
  by_target : goes a id out t;
  by_other : t ≠ id;
  by_code : ∀ b, b ≠ id → code a' b = code a b;
  by_goes : ∀ b e x, b ≠ id → goes a' b e x ↔ ∃ y, goes a b e y ∧ x = if decide (y = id) then t else y;
  by_unwinding : ∀ b e x, b ≠ id → goes a b e x → unwinding a' e = unwinding a e;
  by_nlive : ∀ b, a_nlive a' b = a_nlive a b && negb (bool_decide (b = id));
  by_elive : ∀ e, a_elive a' e = a_elive a e && negb (bool_decide (e = out));
}.

Section Bypass.
Context {I E : Type} (throws : I → bool) (seen : Id → Prop) (a a' : agraph (BasicBlock I) (Edge E)) (id out t : Id).
Context (Hb : bypass_of a a' id out t) (Hout : ¬ seen out).

Lemma bypass_target x : goes a id out x → x = t.
Proof using Hb. destruct (by_target _ _ _ _ _ Hb) as [_ (r & Hr & <-)]. intros [_ (r' & Hr' & <-)]. congruence. Qed.

Lemma bypass_through : runs (astep throws seen a) (id, 0) [] (t, 0).
Proof using Hb Hout.
  apply runs_one, (astep_leave throws seen a id 0 out t []); [apply (by_target _ _ _ _ _ Hb)|rewrite (by_empty _ _ _ _ _ Hb); by apply departs_nil|by right].
Qed.

(** The same point, or before and after the empty block *)
Definition skipped (p q : Id * nat) : Prop := p.1 ≠ id ∧ q = p ∨ p = (id, 0) ∧ q = (t, 0).

Lemma skipped_at y : skipped (y, 0) (if decide (y = id) then t else y, 0).
Proof. destruct (decide (y = id)) as [->|Hy]; [by right|by left]. Qed.

Lemma bypass_forward p q o p' : skipped p q → astep throws seen a p o p' → ∃ q', runs (astep throws seen a') q o q' ∧ skipped p' q'.
Proof using Hb Hout.
  intros [[Hp ->]|[-> ->]] Hs.
  - inversion Hs as [b i x Hx|b i e y l Hg Hd Hse]; subst; cbn in Hp.
    + exists (b, S i). split; [apply runs_one; constructor; by rewrite (by_code _ _ _ _ _ Hb)|by left].
    + exists (if decide (y = id) then t else y, 0). split; [|apply skipped_at].
      rewrite <-(by_code _ _ _ _ _ Hb b Hp), <-(by_unwinding _ _ _ _ _ Hb b e y Hp Hg) in Hd.
      apply runs_one. eapply astep_leave; [|exact Hd|exact Hse]. apply (by_goes _ _ _ _ _ Hb); eauto.
  - exists (t, 0). inversion Hs as [b i x Hx|b i e y l Hg Hd Hse]; subst.
    + by rewrite (by_empty _ _ _ _ _ Hb) in Hx.
    + pose proof (proj1 Hg) as He. rewrite (by_exit _ _ _ _ _ Hb) in He. apply list_elem_of_singleton in He as ->.
      rewrite (bypass_target y Hg). destruct Hse as [[? _]|[_ ->]]; [done|]. split; [constructor|left]. split; [exact (by_other _ _ _ _ _ Hb)|done].
Qed.

Lemma bypass_backward q p o q' : q.1 ≠ id ∧ p = q → astep throws seen a' q o q' → ∃ p', runs (astep throws seen a) p o p' ∧ q'.1 ≠ id ∧ p' = q'.
Proof using Hb Hout.
  intros [Hq ->] Hs.
  assert (Hland : ∀ y, (if decide (y = id) then t else y) ≠ id ∧ runs (astep throws seen a) (y, 0) [] (if decide (y = id) then t else y, 0)).
  { intros y. destruct (decide (y = id)) as [->|Hy]; split; [exact (by_other _ _ _ _ _ Hb)|apply bypass_through|done|constructor]. }
  inversion Hs as [b i x Hx|b i e y l Hg Hd Hse]; subst; cbn in Hq; rewrite (by_code _ _ _ _ _ Hb b Hq) in *.
  - exists (b, S i). split; [by apply runs_one, astep_run|done].
  - apply (by_goes _ _ _ _ _ Hb) in Hg as (z & Hg & ->); [|done]. destruct (Hland z) as [Hne Hrun]. rewrite (by_unwinding _ _ _ _ _ Hb b e z Hq Hg) in Hd.
    eexists. split; [|by split]. eapply runs_before; [|exact Hrun]. apply runs_one. by eapply astep_leave.
Qed.

Lemma bypass_traces c c' b l : repr (cfg_graph c) a → repr (cfg_graph c') a' → b ≠ id → trace throws seen c (b, 0) l ↔ trace throws seen c' (b, 0) l.
Proof using Hb Hout.
  intros Hr Hr' Hne. rewrite (trace_abstract throws seen c a _ _ Hr), (trace_abstract throws seen c' a' _ _ Hr'). split; intros [q Hq].
  - destruct (simulation_runs _ _ skipped bypass_forward (b, 0) (b, 0) l q) as (q' & Hq' & _); [by left|done|]. by exists q'.
  - destruct (simulation_runs _ _ (λ q p, q.1 ≠ id ∧ p = q) bypass_backward (b, 0) (b, 0) l q) as (q' & Hq' & _); [done|done|]. by exists q'.
Qed.
End Bypass.

(** ** Dropping what cannot be reached *)

(** The same code and exits on the blocks in [R] *)
Definition agree {I E} (R : Id → Prop) (a a' : agraph (BasicBlock I) (Edge E)) : Prop :=
  ∀ b, R b → code a' b = code a b ∧ ∀ e t u, goes a' b e t ∧ unwinding a' e = u ↔ goes a b e t ∧ unwinding a e = u.

Section Agree.
Context {I E : Type} (R : Id → Prop).
Implicit Types a : agraph (BasicBlock I) (Edge E).

Lemma agree_refl a : agree R a a.
Proof. done. Qed.

Lemma agree_goes a a' b e t : agree R a a' → R b → goes a' b e t ↔ goes a b e t.
Proof.
  intros H Hb. destruct (H b Hb) as [_ Hg]. split; intros Hx; [apply (Hg e t (unwinding a' e))|apply (Hg e t (unwinding a e))]; done.
Qed.

Lemma agree_sym a a' : agree R a a' → agree R a' a.
Proof. intros H b Hb. destruct (H b Hb) as [Hc Hg]. split; [done|]. intros. by rewrite Hg. Qed.

Lemma agree_after a a' a'' : agree R a a' → agree R a' a'' → agree R a a''.
Proof. intros H1 H2 b Hb. destruct (H1 b Hb) as [C1 G1], (H2 b Hb) as [C2 G2]. split; [by rewrite C2|]. intros. by rewrite G2. Qed.

Definition closed a : Prop := ∀ b e t, R b → goes a b e t → R t.

Lemma agree_sim throws seen a a' p q o p' : closed a → agree R a a' → R p.1 ∧ q = p → astep throws seen a p o p' →
  ∃ q', runs (astep throws seen a') q o q' ∧ R p'.1 ∧ q' = p'.
Proof.
  intros Hc Ha [Hp ->] Hs. inversion Hs as [b i x Hx|b i e t l Hg Hd Hse]; subst; cbn in Hp; destruct (Ha b Hp) as [Hcode Hgo];
    (eexists; split; [apply runs_one|split; [|reflexivity]]).
  - constructor. by rewrite Hcode.
  - done.
  - destruct (proj2 (Hgo e t _) (conj Hg eq_refl)) as [Hg' Hu]. rewrite <-Hcode, <-Hu in Hd. by eapply astep_leave.
  - by eapply Hc.
Qed.

Lemma agree_traces throws seen c c' a a' b l : repr (cfg_graph c) a → repr (cfg_graph c') a' → closed a → agree R a a' → R b →
  trace throws seen c (b, 0) l ↔ trace throws seen c' (b, 0) l.
Proof.
  intros Hr Hr' Hc Ha Hb. assert (Hc' : closed a') by (intros x e t Hx Hg; eapply (Hc x e); [done|]; by apply (agree_goes a a')).
  rewrite (trace_abstract throws seen c a _ _ Hr), (trace_abstract throws seen c' a' _ _ Hr'). split; intros [q Hq].
  - destruct (simulation_runs _ _ (λ p q, R p.1 ∧ q = p) (λ p q o p', agree_sim throws seen a a' p q o p' Hc Ha) (b, 0) (b, 0) l q) as (q' & Hq' & _); [done|done|]. by exists q'.
  - destruct (simulation_runs _ _ (λ p q, R p.1 ∧ q = p) (λ p q o p', agree_sim throws seen a' a p q o p' Hc' (agree_sym _ _ Ha)) (b, 0) (b, 0) l q) as (q' & Hq' & _); [done|done|]. by exists q'.
Qed.
End Agree.

(** ** Exceptions that leave the graph *)

Section Shielded.
Context {I E : Type} (throws : I → bool).
Implicit Types (c : Cfg I E) (a : agraph (BasicBlock I) (Edge E)).

(** The blocks whose exceptions no unwind edge takes, and those that folding one
    of them along its only exits would join to it *)
Inductive escapes c : Id → Prop :=
  | escapes_throws b blk :
      contains_block c b = Ok true → block c b = Ok blk → existsb throws (bb_instructions blk) = true → ¬ unwinds_out c b → escapes c b
  | escapes_exit b e r : escapes c b → sole_outgoing c b = Ok (Some e) → cfg_edge c e = Ok r → escapes c (er_target r).

(** No block of the set [Z], which holds them all, has an unwind edge. *)
Record shields a (Z : Id → Prop) : Prop := mk_shields {
  sd_throws : ∀ b, a_nlive a b = true → existsb throws (code a b) = true → ¬ a_unwinds a b → Z b;
  sd_exit : ∀ b e t, Z b → goes a b e t → (∀ e' t', goes a b e' t' → e' = e) → Z t;
  sd_unwinds : ∀ b, Z b → ¬ a_unwinds a b;
}.
Definition shielded a : Prop := ∃ Z, shields a Z.

Lemma only_exit c a b e t : repr (cfg_graph c) a → goes a b e t → (∀ e' t', goes a b e' t' → e' = e) → a_adj a Outgoing b = [e].
Proof.
  intros Hr [He _] Honly. assert (Hall : ∀ x, x ∈ a_adj a Outgoing b → x = e).
  { intros x Hx. destruct (repr_out c a x b Hr Hx) as (t' & Hg & _). by eapply Honly. }
  pose proof (repr_adj_nodup _ _ Hr Outgoing b) as Hnd. destruct (a_adj a Outgoing b) as [|x l]; [by apply elem_of_nil in He|].
  assert (x = e) as -> by (apply Hall; by left). f_equal. apply elem_of_nil_inv. intros y Hy. apply NoDup_cons in Hnd as [Hno _].
  apply Hno. by rewrite <-(Hall y) by by right.
Qed.

Lemma shielded_reads c a : repr (cfg_graph c) a → (∀ b, escapes c b → ¬ unwinds_out c b) → shielded a.
Proof.
  intros Hr Hesc. exists (λ b, escapes c b ∧ a_nlive a b = true). split.
  - intros b Hb Ht Hu. split; [|done]. destruct (block_spec c a b Hr Hb) as (blk & Hblk & _ & Hcode).
    apply (escapes_throws c b blk); [unfold contains_block; by rewrite (repr_contains_node _ _ Hr), Hb|done|by rewrite <-Hcode|].
    by rewrite <-(unwinds_reads c a b Hr Hb).
  - intros b e t [Hz Hb] Hg Honly. pose proof (goes_live c a b e t Hr Hg) as (_ & Ht & He). split; [|done].
    pose proof (only_exit c a b e t Hr Hg Honly) as Hadj. destruct Hg as [_ (r & Hrec & <-)].
    apply (escapes_exit c b e (mk_EdgeRef e (source r) (target r) (payload r)) Hz); [|by apply (cfg_edge_spec c a)].
    pose proof (sole_spec c a Outgoing b Hr Hb) as Hs. cbn beta iota in Hs. by rewrite Hs, Hadj.
  - intros b [Hz Hb]. rewrite (unwinds_reads c a b Hr Hb). by apply Hesc.
Qed.

(** Bypassing an empty block, dropping what nothing reaches and undoing a split
    keep such a set. *)
Lemma bypass_shielded a a' id out t : bypass_of a a' id out t → shielded a → shielded a'.
Proof.
  intros Hb [Z HZ]. assert (Hu : ∀ b, b ≠ id → a_unwinds a' b ↔ a_unwinds a b).
  { intros b Hne. split; intros (e & x & Hg & Hk).
    - apply (by_goes _ _ _ _ _ Hb) in Hg as (y & Hg & _); [|done]. exists e, y. split; [done|]. by rewrite <-(by_unwinding _ _ _ _ _ Hb b e y Hne Hg).
    - exists e, (if decide (x = id) then t else x). split; [apply (by_goes _ _ _ _ _ Hb); eauto|]. by rewrite (by_unwinding _ _ _ _ _ Hb b e x Hne Hg). }
  exists (λ b, Z b ∧ b ≠ id). split.
  - intros b Hl Ht Hno. rewrite (by_nlive _ _ _ _ _ Hb) in Hl. apply andb_true_iff in Hl as [Hl Hne%negb_true_iff%bool_decide_eq_false]. split; [|done].
    apply (sd_throws _ _ HZ); [done|by rewrite <-(by_code _ _ _ _ _ Hb)|by rewrite <-Hu].
  - intros b e x [Hz Hne] Hg Honly. apply (by_goes _ _ _ _ _ Hb) in Hg as (y & Hg & ->); [|done].
    assert (Hy : Z y).
    { apply (sd_exit _ _ HZ b e y Hz Hg). intros e' t' Hg'. eapply Honly, (by_goes _ _ _ _ _ Hb); eauto. }
    destruct (decide (y = id)) as [->|Hyid]; [|done]. split; [|exact (by_other _ _ _ _ _ Hb)].
    apply (sd_exit _ _ HZ id out t Hy (by_target _ _ _ _ _ Hb)). intros e' t' [He' _]. rewrite (by_exit _ _ _ _ _ Hb) in He'. by apply list_elem_of_singleton in He'.
  - intros b [Hz Hne]. rewrite (Hu b Hne). by apply (sd_unwinds _ _ HZ).
Qed.

Lemma agree_shielded (R : Id → Prop) a a' : closed R a → agree R a a' → (∀ b, a_nlive a' b = true → a_nlive a b = true ∧ R b) → shielded a → shielded a'.
Proof.
  intros Hc Ha Hl [Z HZ]. assert (Hu : ∀ b, R b → a_unwinds a' b ↔ a_unwinds a b).
  { intros b Hb. destruct (Ha b Hb) as [_ Hg]. unfold a_unwinds. by setoid_rewrite Hg. }
  exists (λ b, Z b ∧ R b). split.
  - intros b Hb Ht Hno. destruct (Hl b Hb) as [Hlive HR]. split; [|done]. rewrite (proj1 (Ha b HR)) in Ht. apply (sd_throws _ _ HZ); [done..|]. by rewrite <-Hu.
  - intros b e t [Hz HR] Hg Honly. apply (agree_goes R a a' b e t Ha HR) in Hg. split; [|by eapply Hc].
    apply (sd_exit _ _ HZ b e t Hz Hg). intros e' t' Hg'. by eapply Honly, (agree_goes R a a').
  - intros b [Hz HR]. rewrite (Hu b HR). by apply (sd_unwinds _ _ HZ).
Qed.

(** [a] is [a'], whose block [id] has no exit but to [new], with the two joined. *)
Section Join.
Context (c : Cfg I E) (a a' : agraph (BasicBlock I) (Edge E)) (id new ft : Id) (at_ : nat).
Context (Hr : repr (cfg_graph c) a) (Hs : split_of a a' id new ft at_).
Context (Hnew : a_nlive a new = false) (Hid : a_nlive a id = true).

Lemma join_exit e t : goes a' id e t ↔ e = ft ∧ t = new.
Proof using Hr Hs Hnew Hid.
  assert (id ≠ new) as Hne by congruence. rewrite (proj1 (split_goes c a a' id new ft at_ Hr Hs Hnew Hid id e t Hne)). by rewrite decide_True.
Qed.

Lemma join_unwinds : a_unwinds a' new ↔ a_unwinds a id.
Proof using Hr Hs Hnew Hid.
  assert (id ≠ new) as Hne by congruence. split; intros (e & t & Hg & Hu); exists e, t.
  - apply (split_goes c a a' id new ft at_ Hr Hs Hnew Hid id) in Hg; [|done]. split; [done|]. by rewrite <-(split_unwinding c a a' id new ft at_ Hr Hs id e t Hg).
  - split; [by apply (split_goes c a a' id new ft at_ Hr Hs Hnew Hid id)|]. by rewrite (split_unwinding c a a' id new ft at_ Hr Hs id e t Hg).
Qed.

Lemma join_throws : shielded a' → a_unwinds a id → existsb throws (take at_ (code a id)) = false.
Proof using Hr Hs Hnew Hid.
  intros [Z HZ] Hu%join_unwinds. destruct (existsb throws _) eqn:Ht; [exfalso|done].
  assert (Z id) as Hz.
  { apply (sd_throws _ _ HZ); [by rewrite (sp_nlive _ _ _ _ _ _ Hs), Hid|by rewrite (sp_code _ _ _ _ _ _ Hs), decide_True|].
    intros (e & t & [-> _]%join_exit & Hk). by rewrite (split_unwinding_ft a a' id new ft at_ Hs) in Hk. }
  apply (sd_unwinds _ _ HZ new); [|done]. apply (sd_exit _ _ HZ id ft new Hz); [by apply join_exit|]. by intros e' t' [-> _]%join_exit.
Qed.

Lemma join_shielded : shielded a' → shielded a.
Proof using Hr Hs Hnew Hid.
  intros HS. pose proof (join_throws HS) as Hthrow. destruct HS as [Z HZ]. pose proof (sp_code _ _ _ _ _ _ Hs) as Hcode.
  assert (Hne : id ≠ new) by congruence.
  assert (Hstep : Z id → Z new) by (intros Hz; apply (sd_exit _ _ HZ id ft new Hz); [by apply join_exit|by intros e' t' [-> _]%join_exit]).
  assert (Hgo : ∀ b, b ≠ id → b ≠ new → (∀ e t, goes a' b e t ↔ goes a b e t)).
  { intros b Hb Hbn e t. rewrite (proj1 (split_goes c a a' id new ft at_ Hr Hs Hnew Hid b e t Hbn)). by rewrite decide_False. }
  assert (Hgo' : ∀ e t, goes a' new e t ↔ goes a id e t) by (intros e t; by apply (split_goes c a a' id new ft at_ Hr Hs Hnew Hid id)).
  assert (Hdead : ∀ e t, ¬ goes a new e t) by (intros e t (Hx & _)%(goes_live c a new e t Hr); congruence).
  assert (Hu : ∀ b, b ≠ id → b ≠ new → a_unwinds a' b ↔ a_unwinds a b).
  { intros b Hb Hbn. split; intros (e & t & Hg & Hk); exists e, t.
    - apply Hgo in Hg; [|done..]. split; [done|]. by rewrite <-(split_unwinding c a a' id new ft at_ Hr Hs b e t Hg).
    - split; [by apply Hgo|]. by rewrite (split_unwinding c a a' id new ft at_ Hr Hs b e t Hg). }
  assert (Hland : ∀ t, Z t → if decide (t = id) then Z new else Z t) by (intros t Hz; destruct (decide (t = id)) as [->|]; auto).
  exists (λ b, if decide (b = id) then Z new else Z b). split.
  - intros b Hb Ht Hno. destruct (decide (b = id)) as [->|Hbid].
    + rewrite <-(take_drop at_ (code a id)), existsb_app in Ht. apply orb_true_iff in Ht as [Ht|Ht].
      * apply Hstep, (sd_throws _ _ HZ); [by rewrite (sp_nlive _ _ _ _ _ _ Hs), Hb|by rewrite Hcode, decide_True|].
        intros (e & t & [-> _]%join_exit & Hk). by rewrite (split_unwinding_ft a a' id new ft at_ Hs) in Hk.
      * apply (sd_throws _ _ HZ); [by rewrite (sp_nlive _ _ _ _ _ _ Hs), bool_decide_true, orb_true_r| |by rewrite join_unwinds].
        by rewrite Hcode, (decide_False (P := new = id)), decide_True.
    + assert (b ≠ new) as Hbn by congruence. apply (sd_throws _ _ HZ); [by rewrite (sp_nlive _ _ _ _ _ _ Hs), Hb|by rewrite Hcode, !decide_False|by rewrite Hu].
  - intros b e t Hz Hg Honly. destruct (decide (b = id)) as [->|Hbid]; apply Hland.
    + apply (sd_exit _ _ HZ new e t Hz); [by apply Hgo'|]. intros e' t' Hg'%Hgo'. by eapply Honly.
    + assert (b ≠ new) as Hbn by (intros ->; by apply Hdead in Hg).
      apply (sd_exit _ _ HZ b e t Hz); [by apply Hgo|]. intros e' t' Hg'%Hgo; [|done..]. by eapply Honly.
  - intros b Hz. destruct (decide (b = id)) as [->|Hbid]; [rewrite <-join_unwinds; by apply (sd_unwinds _ _ HZ)|].
    destruct (decide (b = new)) as [->|Hbn]; [intros (e & t & Hg & _); by apply Hdead in Hg|]. rewrite <-(Hu b Hbid Hbn). by apply (sd_unwinds _ _ HZ).
Qed.
End Join.
End Shielded.

(** ** What a pass may change *)

Section Cleans.
Context {I E : Type}.
Implicit Types (c : Cfg I E) (a : agraph (BasicBlock I) (Edge E)).

Definition live_count a : nat := length (filter (λ i, a_nlive a (N.of_nat i) = true) (seq 0 (length (a_nodes a)))).

Lemma block_count_live c a : repr (cfg_graph c) a → block_count c = live_count a.
Proof.
  intros Hr. destruct (rp_inv _ _ Hr) as (L & Hinv & _). unfold block_count.
  rewrite (node_count_ids _ L _ Hinv (node_ids_spec _ L Hinv)), length_fmap. unfold live_count. rewrite <-(repr_node_bound _ _ Hr).
  f_equal. apply list_filter_iff. intros i. rewrite <-(rp_nlive _ _ Hr). unfold index. by rewrite Nat2N.id.
Qed.

Lemma live_count_drop a a' b :
  length (a_nodes a') = length (a_nodes a) → index b < length (a_nodes a) → a_nlive a b = true →
  (∀ x, a_nlive a' x = a_nlive a x && negb (bool_decide (x = b))) → live_count a = S (live_count a').
Proof.
  intros Hlen Hlt Hb Hl. unfold live_count. rewrite Hlen. set (n := length (a_nodes a)) in *.
  change (length (filter (λ i, a_nlive a (N.of_nat i) = true) (seq 0 n)) = length (index b :: filter (λ i, a_nlive a' (N.of_nat i) = true) (seq 0 n))).
  assert (Hi : N.of_nat (index b) = b) by (unfold index; apply N2Nat.id).
  apply Permutation_length, NoDup_Permutation; [apply NoDup_filter, NoDup_seq| |].
  - constructor; [|apply NoDup_filter, NoDup_seq]. rewrite list_elem_of_filter. intros [H _].
    rewrite Hl, Hi, bool_decide_true, andb_false_r in H by done. done.
  - intros i. rewrite elem_of_cons, !list_elem_of_filter, Hl. rewrite !elem_of_seq. split.
    + intros [H Hin]. destruct (decide (i = index b)) as [->|Hne]; [by left|right]. rewrite H, bool_decide_false; [done|].
      intros Hx. apply Hne. rewrite <-Hx. unfold index. by rewrite Nat2N.id.
    + intros [->|[H Hin]]; [split; [by rewrite Hi|lia]|]. apply andb_true_iff in H as [H _]. done.
Qed.

Definition same_meta c c' : Prop := cfg_entry c' = cfg_entry c ∧ cfg_regions c' = cfg_regions c ∧ cfg_cleanups c' = cfg_cleanups c.

(** A block executions may start in from outside: the entry, and what exception metadata names *)
Definition is_root c (b : Id) : Prop := b = cfg_entry c ∨ b ∈ anchors c.

Lemma same_meta_root c c' b : same_meta c c' → is_root c' b ↔ is_root c b.
Proof. intros (He & Hr & Hc). unfold is_root, anchors. by rewrite He, Hr, Hc. Qed.

(** [c'] is [c] with [n] blocks fewer and the same executions from its roots,
    of the edges that are left, where the exceptions that leave are shielded. *)
Record cleans (n : nat) c a c' a' : Prop := mk_cleans {
  cl_repr : repr (cfg_graph c') a';
  cl_meta : same_meta c c';
  cl_count : live_count a = live_count a' + n;
  cl_nodes : ∀ b, a_nlive a' b = true → a_nlive a b = true;
  cl_edges : ∀ e, a_elive a' e = true → a_elive a e = true;
  cl_roots : ∀ b, is_root c b → a_nlive a b = true → a_nlive a' b = true;
  cl_shielded : ∀ throws, shielded throws a → shielded throws a';
  cl_traces : ∀ throws seen b l, shielded throws a → (∀ e, seen e → a_elive a' e = true) → is_root c b → a_nlive a b = true →
    trace throws seen c (b, 0) l ↔ trace throws seen c' (b, 0) l;
}.

Lemma cleans_refl c a : repr (cfg_graph c) a → cleans 0 c a c a.
Proof. intros Hr. split; try done. Qed.

Lemma cleans_trans n1 n2 c a c1 a1 c2 a2 : cleans n1 c a c1 a1 → cleans n2 c1 a1 c2 a2 → cleans (n1 + n2) c a c2 a2.
Proof.
  intros H1 H2. pose proof (cl_meta _ _ _ _ _ H1) as M1. pose proof (cl_meta _ _ _ _ _ H2) as M2. split.
  - apply (cl_repr _ _ _ _ _ H2).
  - destruct M1 as (? & ? & ?), M2 as (? & ? & ?). split_and!; congruence.
  - rewrite (cl_count _ _ _ _ _ H1), (cl_count _ _ _ _ _ H2). lia.
  - intros b Hb. by apply (cl_nodes _ _ _ _ _ H1), (cl_nodes _ _ _ _ _ H2).
  - intros e He. by apply (cl_edges _ _ _ _ _ H1), (cl_edges _ _ _ _ _ H2).
  - intros b Hb Hl. apply (cl_roots _ _ _ _ _ H2); [by apply (same_meta_root _ _ _ M1)|]. by apply (cl_roots _ _ _ _ _ H1).
  - intros throws Hsh. by apply (cl_shielded _ _ _ _ _ H2), (cl_shielded _ _ _ _ _ H1).
  - intros throws seen b l Hsh Hseen Hb Hl. rewrite (cl_traces _ _ _ _ _ H1 throws seen b l); [|done| |done|done].
    + apply (cl_traces _ _ _ _ _ H2); [by apply (cl_shielded _ _ _ _ _ H1)|done|by apply (same_meta_root _ _ _ M1)|]. by apply (cl_roots _ _ _ _ _ H1).
    + intros e He. by apply (cl_edges _ _ _ _ _ H2), Hseen.
Qed.

(** ** Rewriting instructions *)

Definition with_nodes a nodes : agraph (BasicBlock I) (Edge E) := mk_agraph nodes (a_edges a) (a_nlive a) (a_elive a) (a_adj a).

Lemma block_mut_code c a id f blk : repr (cfg_graph c) a → a_nodes a !! index id = Some blk →
  ∃ c' nodes, block_mut c id f = Ok c' ∧ same_meta c c' ∧ repr (cfg_graph c') (with_nodes a nodes) ∧ length nodes = length (a_nodes a) ∧
    nodes !! index id = Some (f blk) ∧
    ∀ b, code (with_nodes a nodes) b = if decide (b = id) then bb_instructions (f blk) else code a b.
Proof.
  intros Hr Hblk. destruct (block_mut_spec c a id f Hr (lookup_lt_Some _ _ _ Hblk)) as (g & Hrun & Hg).
  exists (set_graph g c), (alter f (index id) (a_nodes a)). split_and!; try done.
  - by rewrite length_alter.
  - by rewrite list_lookup_alter_eq, Hblk.
  - intros b. unfold code. cbn [a_nodes with_nodes]. destruct (decide (b = id)) as [->|Hne].
    + by rewrite list_lookup_alter_eq, Hblk.
    + rewrite list_lookup_alter_ne; [done|]. intros Hi%index_inj. by apply Hne.
Qed.

Lemma absorb_label_code c a id label : repr (cfg_graph c) a → a_nlive a id = true →
  ∃ c' nodes, absorb_label c id label = Ok c' ∧ same_meta c c' ∧ repr (cfg_graph c') (with_nodes a nodes) ∧ length nodes = length (a_nodes a) ∧
    ∀ b, code (with_nodes a nodes) b = code a b.
Proof.
  intros Hr Hid. destruct (block_spec c a id Hr Hid) as (blk & Hrun & Hblk & Hcode). unfold absorb_label. rewrite Hrun. rsimpl.
  assert (Hsame : ∃ c' nodes, mret c = Ok c' ∧ same_meta c c' ∧ repr (cfg_graph c') (with_nodes a nodes) ∧ length nodes = length (a_nodes a) ∧
    ∀ b, code (with_nodes a nodes) b = code a b) by (exists c, (a_nodes a); by destruct a).
  destruct (bb_label blk); [done|]. destruct label as [label|]; [|done].
  destruct (block_mut_code c a id (set_label label) blk Hr Hblk) as (c' & nodes & H & Hm & Hr' & Hlen & _ & Hc).
  exists c', nodes. split_and!; try done. intros b. rewrite Hc. case_decide; [by subst|done].
Qed.
End Cleans.

(** ** Contraction *)

Section Contract.
Context {I E : Type}.
Implicit Types (c : Cfg I E) (a : agraph (BasicBlock I) (Edge E)).

(** The graph after the instructions are moved, the connecting edge is gone and
    the exits are moved, and what is left when the block goes too: the graph
    before is a split of it. *)
Lemma contract_split c a nodes a3 s t e r :
  repr (cfg_graph c) a → s ≠ t → a_nlive a s = true → a_nlive a t = true →
  a_adj a Outgoing s = [e] → a_edges a !! index e = Some r → target r = t → unwind_kind (kind_of (payload r)) = false →
  a_nodes a3 = nodes → length nodes = length (a_nodes a) →
  (∀ b, code (with_nodes a nodes) b = if decide (b = s) then code a s ++ code a t else if decide (b = t) then [] else code a b) →
  a_nlive a3 = a_nlive a → (∀ x, a_elive a3 x = a_elive a x && negb (bool_decide (x = e))) →
  (∀ x, a_edges a3 !! index x = (if decide (x ∈ a_adj a Outgoing t) then set_endpoint Outgoing s else λ r, r) <$> a_edges a !! index x) →
  (∀ m, a_adj a3 Outgoing m = if decide (m = t) then [] else if decide (m = s) then a_adj a Outgoing t else a_adj a Outgoing m) →
  a_adj a3 Incoming t = [] →
  split_of (a_remove_node a3 t) a s t e (length (code a s)).
Proof.
  intros Hr Hst Hs Ht Hout Hrec Htgt Hkind Hn Hlen Hcode Hnl Hel Hed Hadj Hin.
  assert (He : a_elive a e = true).
  { assert (e ∈ a_adj a Outgoing s) as Hx by (rewrite Hout; by left). by apply (repr_adj _ _ Hr) in Hx as [? _]. }
  assert (Hno : ∀ x, a_incident a3 t x = false).
  { intros x. apply bool_decide_false. rewrite Hadj, decide_True, Hin by done. intros [?%elem_of_nil|?%elem_of_nil]; done. }
  assert (Hcode' : ∀ b, code (a_remove_node a3 t) b = if decide (b = s) then code a s ++ code a t else if decide (b = t) then [] else code a b).
  { intros b. rewrite <-Hcode. unfold code. cbn. by rewrite Hn. }
  split.
  - intros b. rewrite !Hcode'. destruct (decide (b = s)) as [->|Hb]; [by rewrite decide_True, take_app_length|].
    rewrite (decide_True (P := s = s)), drop_app_length by done. destruct (decide (b = t)) as [->|Hbt]; done.
  - intros b. cbn. rewrite !filter_all by (intros; apply Hno). rewrite !Hadj.
    destruct (decide (b = s)) as [->|Hb]; [done|]. destruct (decide (b = t)) as [->|Hb2]; [|done].
    by rewrite (decide_False (P := s = t)), (decide_True (P := s = s)).
  - intros x r3 Hx Hr3. cbn in Hx, Hr3. rewrite Hel in Hx. apply andb_true_iff in Hx as [[Hx Hxe]%andb_true_iff _].
    apply negb_true_iff, bool_decide_eq_false in Hxe. rewrite Hed in Hr3. destruct (a_edges a !! index x) as [r0|] eqn:Hr0; [|done].
    cbn in Hr3. injection Hr3 as <-. destruct (decide (x ∈ a_adj a Outgoing t)) as [Hxt|Hxt].
    + apply (repr_adj _ _ Hr) in Hxt as (_ & r' & Hr' & Hend). cbn in Hend. assert (r' = r0) as -> by congruence.
      cbn [set_endpoint source]. rewrite decide_True by done. f_equal. destruct r0. cbn in *. by subst.
    + rewrite decide_False; [done|]. intros Hsrc. apply Hxe. assert (x ∈ a_adj a Outgoing s) as Hxs by (apply (repr_adj _ _ Hr); eauto).
      rewrite Hout in Hxs. by apply list_elem_of_singleton in Hxs.
  - by exists r.
  - intros b. cbn. rewrite Hnl. destruct (decide (b = t)) as [->|Hb].
    + rewrite Ht, bool_decide_true by done. done.
    + rewrite bool_decide_false by done. by rewrite andb_true_r, orb_false_r.
  - intros x. cbn. rewrite Hno, Hel. cbn. rewrite andb_true_r. destruct (decide (x = e)) as [->|Hx].
    + rewrite He, bool_decide_true by done. done.
    + rewrite bool_decide_false by done. by rewrite andb_true_r, orb_false_r.
Qed.

Lemma unwind_unexceptional k : is_exceptional k = false → unwind_kind k = false.
Proof. by destruct k. Qed.

Lemma contract_live c a s t e : repr (cfg_graph c) a → a_adj a Outgoing s = [e] → a_adj a Incoming t = [e] →
  ∃ r, a_elive a e = true ∧ a_edges a !! index e = Some r ∧ source r = s ∧ target r = t.
Proof.
  intros Hr Hout Hin. assert (e ∈ a_adj a Outgoing s) as (He & r & Hrec & Hs)%(repr_adj _ _ Hr) by (rewrite Hout; by left).
  assert (e ∈ a_adj a Incoming t) as (_ & r' & Hrec' & Ht)%(repr_adj _ _ Hr) by (rewrite Hin; by left).
  assert (r' = r) as -> by congruence. by exists r.
Qed.

(** Moving the exits of [t] to [s], once the edge between them is gone *)
Lemma contract_moves c c4 a nodes s t e : repr (cfg_graph c) a → repr (cfg_graph c4) (a_remove_edges (with_nodes a nodes) (λ x, bool_decide (x = e))) →
  s ≠ t → a_nlive a s = true → a_nlive a t = true → length nodes = length (a_nodes a) → a_adj a Outgoing s = [e] → a_adj a Incoming t = [e] →
  ∃ c5 a5, move_outgoing_edges c4 t s = Ok c5 ∧ same_meta c4 c5 ∧ repr (cfg_graph c5) a5 ∧
    a_nodes a5 = nodes ∧ a_nlive a5 = a_nlive a ∧ (∀ x, a_elive a5 x = a_elive a x && negb (bool_decide (x = e))) ∧
    (∀ x, a_edges a5 !! index x = (if decide (x ∈ a_adj a Outgoing t) then set_endpoint Outgoing s else λ r, r) <$> a_edges a !! index x) ∧
    (∀ m, a_adj a5 Outgoing m = if decide (m = t) then [] else if decide (m = s) then a_adj a Outgoing t else a_adj a Outgoing m) ∧
    a_adj a5 Incoming t = [].
Proof.
  intros Hr R4 Hst Hs Ht Hlen Hout Hin. pose proof (repr_nlive_lt _ _ Hr t Ht) as Hlt.
  destruct (contract_live c a s t e Hr Hout Hin) as (r & He & Hrec & Hsrc & Htgt).
  assert (Hkeep : ∀ b, b ≠ s → filter (λ x, bool_decide (x = e) = false) (a_adj a Outgoing b) = a_adj a Outgoing b).
  { intros b Hb. apply filter_all. intros x Hx. apply bool_decide_false. intros ->. apply (repr_adj _ _ Hr) in Hx as (_ & r' & Hr' & Hb').
    cbn in Hb'. congruence. }
  assert (Hgone : filter (λ x, bool_decide (x = e) = false) [e] = []).
  { rewrite filter_none; [done|]. intros x ->%list_elem_of_singleton. by rewrite bool_decide_true. }
  unfold move_outgoing_edges. rewrite decide_False by (intros ->; by apply Hst).
  destruct (move_spec c4 _ t s Outgoing R4 ltac:(intros ->; by apply Hst) ltac:(cbn; lia) Hs) as (g5 & a5 & Hrun & R5 & Hnd & Hnl & Hel & _ & Hed & Had).
  rewrite Hrun. exists (set_graph g5 c4), a5. cbn [a_nodes a_edges a_nlive a_elive a_adj a_remove_edges with_nodes] in Hnd, Hnl, Hel, Hed, Had.
  rewrite (Hkeep t) in Hed, Had by (intros ->; by apply Hst). split_and!; try done.
  - intros x. by rewrite Hel.
  - intros m. rewrite Had. destruct (decide (m = t)) as [->|Hm]; [by rewrite decide_True|]. rewrite decide_False by (by intros []).
    destruct (decide (m = s)) as [->|Hms]; [rewrite decide_True by done; by rewrite Hout, Hgone|]. rewrite decide_False by (by intros []). by apply Hkeep.
  - rewrite Had, !decide_False by (by intros []). by rewrite Hin.
Qed.

Lemma contract_spec c a s t m : repr (cfg_graph c) a → a_nlive a s = true → a_nlive a t = true →
  ∃ c' folded m', contract_edge_inner c s t m = Ok (c', folded, m') ∧
    if folded : bool then ∃ a', cleans 1 c a c' a' ∧ a_nlive a' s = true else c' = c.
Proof.
  intros Hr Hs Ht. unfold contract_edge_inner. assert (Hno : ∃ c' folded m', mret (c, false, m) = Ok (c', folded, m') ∧
    if folded : bool then ∃ a', cleans 1 c a c' a' ∧ a_nlive a' s = true else c' = c) by by exists c, false, m.
  case_decide as Hst; [exact Hno|]. apply Decidable.not_or in Hst as [Hst Hentry].
  rewrite (sole_spec c a Outgoing s Hr Hs). rsimpl. destruct (sole (a_adj a Outgoing s)) as [e|] eqn:Hout; [|exact Hno]. apply sole_Some in Hout.
  rewrite (sole_spec c a Incoming t Hr Ht). rsimpl. case_decide as Hin; [exact Hno|].
  assert (a_adj a Incoming t = [e]) as Hinc by (apply sole_Some; by destruct (decide (sole (a_adj a Incoming t) = Some e))). clear Hin.
  destruct (contract_live c a s t e Hr Hout Hinc) as (r & He & Hrec & Hsrc & Htgt).
  rewrite (cfg_edge_spec c a e r Hr He Hrec). rsimpl. cbn [er_target er_data]. destruct (negb (bool_decide (target r = t)) || _ || _) eqn:Hfold; [exact Hno|].
  apply orb_false_iff in Hfold as [[_ Hkind]%orb_false_iff Hfold]. apply negb_false_iff, andb_true_iff in Hfold as [Hanchor _]. apply negb_true_iff, bool_decide_eq_false in Hanchor. clear Hno.
  destruct (block_spec c a t Hr Ht) as (bt & Hbt & Hnt & Hct). rewrite Hbt. rsimpl.
  destruct (block_mut_code c a t (set_instructions []) bt Hr Hnt) as (c1 & n1 & H1 & M1 & R1 & L1 & _ & C1). rewrite H1. rsimpl.
  destruct (block_spec c1 _ s R1 Hs) as (bs & _ & Hns & Hcs).
  destruct (block_mut_code c1 _ s (λ x, set_instructions (bb_instructions x ++ bb_instructions bt) x) bs R1 Hns) as (c2 & n2 & H2 & M2 & R2 & L2 & _ & C2).
  rewrite H2. rsimpl. destruct (absorb_label_code c2 _ s (bb_label bt) R2 Hs) as (c3 & n3 & H3 & M3 & R3 & L3 & C3). rewrite H3. rsimpl.
  change (repr (cfg_graph c3) (with_nodes a n3)) in R3. assert (length n3 = length (a_nodes a)) as Hlen by (cbn in *; congruence).
  assert (Hcode : ∀ b, code (with_nodes a n3) b = if decide (b = s) then code a s ++ code a t else if decide (b = t) then [] else code a b).
  { intros b. rewrite C3, C2. cbn [bb_instructions set_instructions]. rewrite <-Hcs, Hct, !C1, (decide_False (P := s = t)) by done. done. }
  destruct (cfg_remove_edge_spec c3 _ e R3) as (g4 & H4 & R4). rewrite H4. rsimpl.
  destruct (contract_moves c (set_graph g4 c3) a n3 s t e Hr R4 Hst Hs Ht Hlen Hout Hinc)
    as (c5 & a5 & H5 & M5 & R5 & Hnd & Hnl & Hel & Hed & Had & Hai). rewrite H5. rsimpl.
  assert (cfg_outgoing c5 s = Ok (a_adj a5 Outgoing s)) as -> by (apply (repr_adjacency _ _ R5); rewrite Hnd, Hlen; by apply (repr_nlive_lt _ _ Hr)). rsimpl.
  assert (Hmeta : same_meta c c5).
  { destruct M1 as (? & ? & ?), M2 as (? & ? & ?), M3 as (? & ? & ?), M5 as (? & ? & ?). cbn in *. split_and!; congruence. }
  destruct (remove_block_spec c5 a5 t R5) as (g6 & H6 & R6); [by rewrite (proj1 Hmeta)|by rewrite Hnl|]. rewrite H6. rsimpl.
  pose proof (contract_split c a n3 a5 s t e r Hr Hst Hs Ht Hout Hrec Htgt (unwind_unexceptional _ Hkind) Hnd Hlen Hcode Hnl Hel Hed Had Hai) as Hsplit.
  eexists _, true, _. split; [reflexivity|]. exists (a_remove_node a5 t).
  assert (Hlive : ∀ x, a_nlive (a_remove_node a5 t) x = a_nlive a x && negb (bool_decide (x = t))) by (intros x; cbn; by rewrite Hnl).
  assert (Hdead : a_nlive (a_remove_node a5 t) t = false) by by rewrite Hlive, bool_decide_true, andb_false_r.
  assert (Hkept : a_nlive (a_remove_node a5 t) s = true) by (rewrite Hlive, Hs, bool_decide_false; done).
  split; [|exact Hkept]. split.
  - done.
  - done.
  - rewrite (live_count_drop a (a_remove_node a5 t) t), Nat.add_1_r; [done|cbn; by rewrite Hnd|by apply (repr_nlive_lt _ _ Hr)|done|done].
  - intros b. rewrite Hlive. by intros [? _]%andb_true_iff.
  - intros x. cbn. rewrite Hel. by intros [[? _]%andb_true_iff _]%andb_true_iff.
  - intros b Hb Hl. rewrite Hlive, Hl, bool_decide_false; [done|]. intros ->. by destruct Hb.
  - intros throws. by apply (join_shielded throws (set_graph g6 c5) (a_remove_node a5 t) a s t e (length (code a s)) R6 Hsplit).
  - intros throws seen b l Hsh Hseen Hb Hl. symmetry. assert (b ≠ t) as Hbne by (intros ->; by destruct Hb).
    apply (split_traces throws seen (set_graph g6 c5) (a_remove_node a5 t) a s t e (length (code a s)) R6 Hsplit Hdead Hkept); [| | |done|].
    + intros Hx%Hseen. cbn in Hx. rewrite Hel, bool_decide_true, andb_false_r in Hx by done. done.
    + pose proof (Hcode s) as Hcs'. rewrite decide_True in Hcs' by done. unfold code at 2. cbn [a_nodes a_remove_node a_remove_edges].
      rewrite Hnd. change (length (code a s) ≤ length (code (with_nodes a n3) s)). rewrite Hcs', length_app. lia.
    + by apply (join_throws throws (set_graph g6 c5) (a_remove_node a5 t) a s t e (length (code a s)) R6 Hsplit).
    + rewrite Hlive, Hl, bool_decide_false; done.
Qed.
End Contract.

(** ** Passes *)

Section Passes.
Context {I E : Type}.
Implicit Types (c : Cfg I E) (a : agraph (BasicBlock I) (Edge E)) (m : option Rewrite).

(** A turn of a pass: some blocks fewer, or nothing at all *)
Definition cleaned c a (turn : res (Cfg I E * nat * option Rewrite)) (n : nat) : Prop :=
  ∃ c' k m' a', turn = Ok (c', n + k, m') ∧ cleans k c a c' a' ∧ (k = 0 → c' = c).

Lemma cleaned_nothing c a n m : repr (cfg_graph c) a → cleaned c a (mret (c, n, m)) n.
Proof. intros Hr. exists c, 0, m, a. rewrite Nat.add_0_r. split_and!; [done|by apply cleans_refl|done]. Qed.

Lemma cleaned_then (k : nat) c a c1 a1 turn n : cleans k c a c1 a1 → (k = 0 → c1 = c) → cleaned c1 a1 turn (n + k) → cleaned c a turn n.
Proof.
  intros H1 H0 (c' & k' & m' & a' & -> & H2 & H0'). exists c', (k + k'), m', a'.
  split_and!; [by rewrite Nat.add_assoc|by eapply cleans_trans|]. intros Hk. rewrite H0', H0 by lia. done.
Qed.

Lemma cleaned_fold (f : Cfg I E * nat * option Rewrite → Id → res (Cfg I E * nat * option Rewrite)) (l : list Id) :
  (∀ c a n m x, repr (cfg_graph c) a → cleaned c a (f (c, n, m) x) n) →
  ∀ c a n m, repr (cfg_graph c) a → cleaned c a (rfold f (c, n, m) l) n.
Proof.
  intros Hf. induction l as [|x l IH]; intros c a n m Hr; cbn; [by apply cleaned_nothing|].
  destruct (Hf c a n m x Hr) as (c1 & k & m1 & a1 & -> & H1 & H0). rsimpl.
  eapply cleaned_then; [exact H1|exact H0|]. apply IH. apply (cl_repr _ _ _ _ _ H1).
Qed.

Lemma merge_from_spec s : ∀ fuel c a n m, repr (cfg_graph c) a → a_nlive a s = true → live_count a < fuel → cleaned c a (merge_from fuel c s n m) n.
Proof.
  induction fuel as [|fuel IH]; intros c a n m Hr Hs Hlt; [lia|]. cbn [merge_from].
  rewrite (sole_spec c a Outgoing s Hr Hs). rsimpl. destruct (sole _) as [e|] eqn:Hout; [|by apply cleaned_nothing]. apply sole_Some in Hout.
  assert (e ∈ a_adj a Outgoing s) as He by (rewrite Hout; by left). destruct (repr_out c a e s Hr He) as (t & [_ (r & Hrec & Htgt)] & Hlive & Ht & _).
  rewrite (cfg_edge_spec c a e r Hr Hlive Hrec). rsimpl. cbn [er_target]. rewrite Htgt.
  destruct (contract_spec c a s t m Hr Hs Ht) as (c1 & folded & m1 & -> & H1). rsimpl. destruct folded.
  - destruct H1 as (a1 & H1 & Hs1). eapply cleaned_then; [exact H1|done|]. rewrite Nat.add_1_r.
    apply IH; [apply (cl_repr _ _ _ _ _ H1)|done|]. rewrite (cl_count _ _ _ _ _ H1) in Hlt. lia.
  - subst c1. by apply cleaned_nothing.
Qed.

Lemma merge_at_spec c a n m s : repr (cfg_graph c) a → cleaned c a (merge_at (c, n, m) s) n.
Proof.
  intros Hr. unfold merge_at, contains_block. rewrite (repr_contains_node _ _ Hr). rsimpl. destruct (a_nlive a s) eqn:Hs; cbn [negb]; [|by apply cleaned_nothing].
  apply merge_from_spec; [done|done|]. rewrite (block_count_live _ _ Hr). lia.
Qed.

(** *** Empty blocks *)

Lemma bypass_graphs c a a1 id out t :
  repr (cfg_graph c) a → a_nlive a id = true → code a id = [] → a_adj a Outgoing id = [out] → goes a id out t → t ≠ id →
  a_nodes a1 = a_nodes a → a_nlive a1 = a_nlive a → a_elive a1 = a_elive a →
  (∀ e, a_edges a1 !! index e = (if decide (e ∈ a_adj a Incoming id) then set_endpoint Incoming t else λ r, r) <$> a_edges a !! index e) →
  (∀ d b, a_adj a1 d b = if decide (d = Incoming ∧ b = id) then [] else if decide (d = Incoming ∧ b = t) then a_adj a d b ++ a_adj a d id else a_adj a d b) →
  bypass_of a (a_remove_node (a_remove_edges a1 (λ x, bool_decide (x = out))) id) id out t.
Proof.
  intros Hr Hid Hempty Hout Hgo Hti Hnd Hnl Hel Hed Had. set (a2 := a_remove_edges a1 _).
  assert (Hadj : ∀ b, b ≠ id → filter (λ x, bool_decide (x = out) = false) (a_adj a Outgoing b) = a_adj a Outgoing b).
  { intros b Hb. apply filter_all. intros x Hx. apply bool_decide_false. intros ->.
    apply (repr_adj _ _ Hr) in Hx as (_ & r & Hrec & Hs). assert (out ∈ a_adj a Outgoing id) as Hx by (rewrite Hout; by left).
    apply (repr_adj _ _ Hr) in Hx as (_ & r' & Hrec' & Hs'). cbn in *. congruence. }
  assert (Hno : ∀ x, a_incident a2 id x = false).
  { intros x. apply bool_decide_false. unfold a2. cbn. rewrite !Had, (decide_False (P := Outgoing = Incoming ∧ _)) by (by intros []).
    rewrite (decide_False (P := Outgoing = Incoming ∧ _)) by (by intros []). rewrite decide_True by done.
    rewrite Hout, filter_none; [by intros [?%elem_of_nil|?%elem_of_nil]|]. intros y ->%list_elem_of_singleton. by rewrite bool_decide_true. }
  split; try done.
  - intros b _. unfold code. cbn. by rewrite Hnd.
  - intros b e x Hb. unfold goes at 1. cbn [a_adj a_edges a_remove_node a_remove_edges].
    rewrite (filter_all (λ e0, a_incident a2 id e0 = false)) by (intros; apply Hno). unfold a2. cbn [a_adj a_edges a_remove_edges].
    rewrite Had, !decide_False by (by intros []). rewrite (Hadj b Hb), Hed. split.
    + intros [He (r' & Hr' & Hx)]. destruct (a_edges a !! index e) as [r|] eqn:Hrec; [|done]. cbn in Hr'. injection Hr' as <-.
      exists (target r). split; [split; [done|by exists r]|]. rewrite <-Hx. apply (repr_adj _ _ Hr) in He as (He & _).
      assert (e ∈ a_adj a Incoming id ↔ target r = id) as Hiff.
      { rewrite (repr_adj _ _ Hr). split; [intros (_ & r2 & Hr2 & <-); cbn; congruence|]. intros. split; [done|by exists r]. }
      destruct (decide (e ∈ _)), (decide (target r = id)); tauto || done.
    + intros (y & [He (r & Hrec & <-)] & ->). split; [done|]. rewrite Hrec. eexists. split; [reflexivity|]. apply (repr_adj _ _ Hr) in He as (He & _).
      assert (e ∈ a_adj a Incoming id ↔ target r = id) as Hiff.
      { rewrite (repr_adj _ _ Hr). split; [intros (_ & r2 & Hr2 & <-); cbn; congruence|]. intros. split; [done|by exists r]. }
      destruct (decide (e ∈ _)), (decide (target r = id)); tauto || done.
  - intros b e x _ [_ (r & Hrec & _)]. unfold unwinding. cbn [a_edges a_remove_node a_remove_edges a2]. rewrite Hed, Hrec. cbn. by case_decide.
  - intros b. cbn. by rewrite Hnl.
  - intros e. cbn. fold a2. by rewrite Hno, andb_true_r, Hel.
Qed.

Lemma redirect_to_spec c a old new : repr (cfg_graph c) a → old ≠ new → a_nlive a old = true → a_nlive a new = true →
  ∃ g a', redirect_edges_to c old new = Ok (set_graph g c) ∧ repr g a' ∧
    a_nodes a' = a_nodes a ∧ a_nlive a' = a_nlive a ∧ a_elive a' = a_elive a ∧
    (∀ e, a_edges a' !! index e = (if decide (e ∈ a_adj a Incoming old) then set_endpoint Incoming new else λ r, r) <$> a_edges a !! index e) ∧
    ∀ d b, a_adj a' d b = if decide (d = Incoming ∧ b = old) then [] else if decide (d = Incoming ∧ b = new) then a_adj a d b ++ a_adj a d old else a_adj a d b.
Proof.
  intros Hr Hne Hold Hnew. unfold redirect_edges_to, redirect_edges_to_inner. rewrite decide_False by done. rsimpl.
  destruct (move_spec c a old new Incoming Hr Hne (repr_nlive_lt _ _ Hr old Hold) Hnew) as (g & a' & -> & Hg & Hnd & Hnl & Hel & _ & Hed & Had).
  exists g, a'. split_and!; try done. intros d b. rewrite Had. destruct (decide (d = Incoming ∧ b = old)) as [|Hd]; [done|].
  destruct (decide (d = Incoming ∧ b = new)) as [[-> ->]|]; done.
Qed.

Lemma bypass_cleans c a c' a' id out t : repr (cfg_graph c) a → repr (cfg_graph c') a' → same_meta c c' → bypass_of a a' id out t →
  a_nlive a id = true → ¬ is_root c id → length (a_nodes a') = length (a_nodes a) → cleans 1 c a c' a'.
Proof.
  intros Hr Hr' Hm Hb Hid Hroot Hlen. pose proof (by_nlive _ _ _ _ _ Hb) as Hnl. pose proof (by_elive _ _ _ _ _ Hb) as Hel. split.
  - done.
  - done.
  - rewrite (live_count_drop a a' id), Nat.add_1_r; [done|done|by apply (repr_nlive_lt _ _ Hr)|done|done].
  - intros b. rewrite Hnl. by intros [? _]%andb_true_iff.
  - intros e. rewrite Hel. by intros [? _]%andb_true_iff.
  - intros b Hb' Hl. rewrite Hnl, Hl, bool_decide_false; [done|]. by intros ->.
  - intros throws. by apply (bypass_shielded throws a a' id out t).
  - intros throws seen b l _ Hseen Hb' Hl. apply (bypass_traces throws seen a a' id out t Hb); [|done|done|by intros ->].
    intros Hx%Hseen. rewrite Hel, bool_decide_true, andb_false_r in Hx by done. done.
Qed.

Lemma bypass_spec c a n m id : repr (cfg_graph c) a → cleaned c a (bypass (c, n, m) id) n.
Proof.
  intros Hr. unfold bypass. pose proof (cleaned_nothing c a n m Hr) as Hno. case_decide as Hentry; [exact Hno|].
  unfold contains_block. rewrite (repr_contains_node _ _ Hr). rsimpl. destruct (a_nlive a id) eqn:Hid; cbn [negb]; [|exact Hno].
  destruct (block_spec c a id Hr Hid) as (blk & -> & _ & Hcode). rsimpl.
  destruct (negb (block_is_empty blk) || is_anchor c id) eqn:Hskip; [exact Hno|].
  apply orb_false_iff in Hskip as [Hempty%negb_false_iff%bool_decide_eq_true Hanchor%bool_decide_eq_false].
  apply nil_length_inv in Hempty. rewrite Hempty in Hcode.
  rewrite (sole_spec c a Outgoing id Hr Hid). rsimpl. destruct (sole _) as [out|] eqn:Hout; [|exact Hno]. apply sole_Some in Hout.
  assert (out ∈ a_adj a Outgoing id) as Hin by (rewrite Hout; by left).
  destruct (repr_out c a out id Hr Hin) as (t & Hgo & Hlive & Ht & _). pose proof Hgo as [_ (r & Hrec & Htgt)].
  rewrite (cfg_edge_spec c a out r Hr Hlive Hrec). rsimpl. cbn [er_target er_data]. rewrite Htgt.
  destruct (negb _); [exact Hno|]. case_decide as Hti; [exact Hno|]. clear Hno.
  assert (cfg_incoming c id = Ok (a_adj a Incoming id)) as -> by (apply (repr_adjacency _ _ Hr); by apply (repr_nlive_lt _ _ Hr)). rsimpl.
  destruct (redirect_to_spec c a id t Hr (not_eq_sym Hti) Hid Ht) as (g1 & a1 & -> & R1 & Hnd & Hnl & Hel & Hed & Had). rsimpl.
  destruct (cfg_remove_edge_spec (set_graph g1 c) a1 out R1) as (g2 & -> & R2). rsimpl.
  destruct (remove_block_spec (set_graph g2 (set_graph g1 c)) _ id R2) as (g3 & -> & R3); [done|cbn; by rewrite Hnl|]. rsimpl.
  pose proof (bypass_graphs c a a1 id out t Hr Hid Hcode Hout Hgo Hti Hnd Hnl Hel Hed Had) as Hb.
  eexists _, 1, _, _. rewrite Nat.add_1_r. split; [reflexivity|]. split; [|done].
  apply (bypass_cleans c a (set_graph g3 (set_graph g2 (set_graph g1 c))) _ id out t Hr R3); [done|exact Hb|done| |cbn; by rewrite Hnd]. by intros [|].
Qed.
End Passes.

(** ** Unreachable blocks *)

Section Unreachable.
Context {I E : Type}.
Implicit Types (c : Cfg I E) (a : agraph (BasicBlock I) (Edge E)).

(** A graph as the traversals see it *)
Lemma cfg_shape c a : repr (cfg_graph c) a →
  ∃ s, Views c s ∧ (∀ b, b ∈ sh_nodes s ↔ a_nlive a b = true) ∧
    ∀ u v, v ∈ sh_next s Outgoing u ↔ ∃ e, goes a u e v.
Proof.
  intros Hr. destruct (rp_inv _ _ Hr) as (L & Hinv & Hadj). exists (es_shape (store_shape (cfg_graph c) L)). split_and!.
  - apply (ew_views (EdgeViews := cfg_EdgeViews c _ (store_EdgeViews _ _ Hinv))).
  - intros b. change (b ∈ es_nodes (store_shape (cfg_graph c) L) ↔ a_nlive a b = true). by rewrite (store_node_ids _ _ Hinv), (rp_nlive _ _ Hr).
  - intros u v. cbn [sh_next es_shape store_shape es_adj es_ref]. rewrite list_elem_of_omap, Hadj, (rp_edges _ _ Hr). unfold goes.
    split; intros (e & He & H); exists e; (split; [done|]).
    + destruct (a_edges a !! index e) as [r|]; [|done]. exists r. by injection H.
    + destruct H as (r & -> & <-). done.
Qed.

Lemma cfg_order c a : repr (cfg_graph c) a → a_nlive a (cfg_entry c) = true → ∃ order, depth_first_preorder c (cfg_entry c) Outgoing = Ok order.
Proof.
  intros Hr He. destruct (cfg_shape c a Hr) as (s & HV & Hn & _).
  destruct (depth_first_preorder_spec c s HV Outgoing (cfg_entry c)) as (o & _ & Ho & _); [by apply Hn|]. by exists o.
Qed.

(** Removing a block that nothing kept leads to *)
Lemma remove_recording_spec c a R b m : repr (cfg_graph c) a → closed R a → ¬ R b → b ≠ cfg_entry c → a_nlive a b = true →
  ∃ c' m', remove_block_recording c b m = Ok (c', true, m') ∧ same_meta c c' ∧ repr (cfg_graph c') (a_remove_node a b) ∧ agree R a (a_remove_node a b).
Proof.
  intros Hr Hc Hb He Hl. pose proof (repr_nlive_lt _ _ Hr b Hl) as Hlt.
  unfold remove_block_recording, contains_block. rewrite (repr_contains_node _ _ Hr), Hl. rsimpl.
  unfold cfg_outgoing, cfg_incoming, outgoing, incoming. rewrite !(repr_adjacency _ _ Hr) by done. rsimpl.
  destruct (remove_block_spec c a b Hr He Hl) as (g & -> & Hg). rsimpl. eexists _, _. split_and!; [reflexivity|done..|].
  intros x Hx. split; [done|]. intros e t u. unfold goes, unwinding. cbn [a_adj a_edges a_remove_node a_remove_edges]. rewrite filter_all; [done|].
  intros y Hy. apply bool_decide_false. destruct (repr_out c a y x Hr Hy) as (t' & Hg' & _). intros [Hy'|Hy'].
  - apply (repr_adj _ _ Hr) in Hy as (_ & r & Hrec & Hs). apply (repr_adj _ _ Hr) in Hy' as (_ & r' & Hrec' & Hs'). apply Hb. congruence.
  - destruct Hg' as [_ (r & Hrec & Ht)]. apply (repr_adj _ _ Hr) in Hy' as (_ & r' & Hrec' & Hs'). cbn in Hs'. assert (r' = r) as -> by congruence.
    apply Hb. rewrite <-Hs'. apply (Hc x y); [done|]. split; [done|by exists r].
Qed.

Definition remove_turn : Cfg I E * Rewrite → Id → res (Cfg I E * Rewrite) :=
  λ '(c, m) b, '(c, _, m) ← remove_block_recording c b m; mret (c, m).

Lemma remove_all_spec R (doomed : list Id) : ∀ c a m, repr (cfg_graph c) a → closed R a → NoDup doomed → R (cfg_entry c) →
  (∀ b, b ∈ doomed → ¬ R b ∧ a_nlive a b = true) →
  ∃ c' a' m', rfold remove_turn (c, m) doomed = Ok (c', m') ∧ same_meta c c' ∧ repr (cfg_graph c') a' ∧ agree R a a' ∧
    live_count a = live_count a' + length doomed ∧ (∀ b, a_nlive a' b = a_nlive a b && bool_decide (b ∉ doomed)) ∧
    ∀ e, a_elive a' e = true → a_elive a e = true.
Proof.
  induction doomed as [|b doomed IH]; intros c a m Hr Hc Hnd He Hd.
  { exists c, a, m. split_and!; try done. intros b. rewrite bool_decide_true; [by rewrite andb_true_r|]. by apply not_elem_of_nil. }
  apply NoDup_cons in Hnd as [Hnew Hnd]. destruct (Hd b) as [Hb Hl]; [by left|].
  destruct (remove_recording_spec c a R b m Hr Hc Hb ltac:(by intros ->) Hl) as (c1 & m1 & Hrun & M1 & R1 & A1).
  destruct (IH c1 (a_remove_node a b) m1 R1) as (c2 & a2 & m2 & H2 & M2 & R2 & A2 & Hcount & Hn2 & He2).
  { intros x e t Hx Hg. eapply (Hc x e); [done|]. by apply (agree_goes R a _ x e t A1 Hx). }
  { done. }
  { by rewrite (proj1 M1). }
  { intros x Hx. destruct (Hd x) as [HR Hlx]; [by right|]. split; [done|]. cbn. rewrite Hlx, bool_decide_false; [done|]. by intros ->. }
  exists c2, a2, m2. cbn [rfold]. unfold remove_turn at 2. rewrite Hrun. rsimpl. split_and!; [done| |done|by eapply agree_after| | |].
  - destruct M1 as (? & ? & ?), M2 as (? & ? & ?). split_and!; congruence.
  - rewrite (live_count_drop a (a_remove_node a b) b), Hcount; [cbn [length]; lia|done|by apply (repr_nlive_lt _ _ Hr)|done|done].
  - intros x. rewrite Hn2. cbn. rewrite <-andb_assoc. f_equal. rewrite <-bool_decide_not, <-bool_decide_and. apply bool_decide_ext. rewrite not_elem_of_cons. done.
  - intros e Hx%He2. cbn in Hx. by apply andb_true_iff in Hx as [? _].
Qed.

(** What the roots reach *)
Definition reached_from_roots c a (x : Id) : Prop :=
  ∃ n, is_root c n ∧ a_nlive a n = true ∧ rtc (λ u v, ∃ e, goes a u e v) n x.

Lemma remove_unreachable_spec c a : repr (cfg_graph c) a → a_nlive a (cfg_entry c) = true →
  ∃ c' k m' a', remove_unreachable_mapped c = Ok (c', k, m') ∧ cleans k c a c' a' ∧ (k = 0 → c' = c ∧ ∀ b, a_nlive a b = true → reached_from_roots c a b).
Proof.
  intros Hr He. destruct (cfg_shape c a Hr) as (s & HV & Hn & Hnext). set (R := reached_from_roots c a).
  assert (HR : closed R a).
  { intros b e t (n & Hroot & Hl & Hrt) Hg. exists n. split_and!; [done|done|]. eapply rtc_r; [exact Hrt|by exists e]. }
  assert (Hentry : R (cfg_entry c)) by (exists (cfg_entry c); split_and!; [by left|done|done]).
  unfold remove_unreachable_mapped. rewrite (rfilter_pure _ (a_nlive a)) by (intros; apply (repr_contains_node _ _ Hr)). rsimpl.
  set (roots := cfg_entry c :: filter (λ x, a_nlive a x = true) (anchors c)).
  assert (Hroots : ∀ b, b ∈ roots ↔ is_root c b ∧ a_nlive a b = true).
  { intros b. unfold roots. rewrite elem_of_cons, list_elem_of_filter. unfold is_root. naive_solver. }
  destruct (reachable_in_spec c s HV Outgoing None ltac:(done) roots) as (visited & Hrun & Hlen & Hvis).
  { intros x [_ Hx]%Hroots. by apply Hn. }
  unfold reachable. rewrite Hrun. rsimpl.
  assert (Hids : block_ids c = Ok (sh_nodes s)) by exact (vw_nodes (Views := HV)). rewrite Hids. rsimpl.
  assert (HRv : ∀ x, visited !! index x = Some true ↔ R x).
  { intros x. rewrite Hvis. unfold R, reached_from_roots. split; intros (n & Hroot & H).
    - apply Hroots in Hroot as [Hroot Hl]. exists n. split_and!; [done|done|]. eapply rtc_subrel; [|exact H]. intros u v [Huv _]. by apply Hnext.
    - destruct H as [Hl H]. exists n. split; [by apply Hroots|]. eapply rtc_subrel; [|exact H]. intros u v Huv. split; [by apply Hnext|done]. }
  set (gone := λ b : Id, negb (default false (visited !! index b))).
  assert (Hgone : ∀ b, gone b = true ↔ ¬ R b).
  { intros b. unfold gone. rewrite <-HRv. destruct (visited !! index b) as [[]|]; cbn; naive_solver. }
  rewrite (rfilter_pure _ gone).
  2:{ intros b Hb. assert (index b < length visited) as Hlt by (rewrite Hlen; by apply (so_bound _ (vw_ok (Views := HV)))).
      destruct (lookup_lt_is_Some_2 _ _ Hlt) as [v Hv]. rewrite (vget_eq _ _ _ Hv). unfold gone. by rewrite Hv. }
  rsimpl. set (doomed := filter (λ x, gone x = true) (sh_nodes s)).
  destruct (remove_all_spec R doomed c a rewrite_new Hr HR) as (c' & a' & m' & H & M & R' & A & Hcount & Hn' & He').
  { apply NoDup_filter, (so_nodup _ (vw_ok (Views := HV))). }
  { done. }
  { intros b [Hb Hl]%list_elem_of_filter. split; [by apply Hgone|by apply Hn]. }
  fold remove_turn. rewrite H. rsimpl. exists c', (length doomed), m', a'. split; [done|]. split.
  - split; try done.
    + intros b. rewrite Hn'. by intros [? _]%andb_true_iff.
    + intros b Hb Hl. rewrite Hn', Hl, bool_decide_true; [done|]. intros [Hx%Hgone _]%list_elem_of_filter. apply Hx. exists b. by split_and!.
    + intros throws. apply (agree_shielded throws R a a' HR A). intros b Hb. rewrite Hn' in Hb. apply andb_true_iff in Hb as [Hb Hx%bool_decide_eq_true].
      split; [done|]. destruct (visited !! index b) as [[]|] eqn:Hv; [by apply HRv|exfalso..];
        apply Hx, list_elem_of_filter; (split; [unfold gone; by rewrite Hv|by apply Hn]).
    + intros throws seen b l _ _ Hb Hl. apply (agree_traces R throws seen c c' a a' b l Hr R' HR A). exists b. by split_and!.
  - intros Hk. apply nil_length_inv in Hk. split.
    + revert H. rewrite Hk. cbn. by intros [= <- _].
    + intros b Hb. destruct (visited !! index b) as [[]|] eqn:Hv; [by apply HRv|exfalso..];
        (assert (b ∈ doomed) as Hx by (apply list_elem_of_filter; split; [unfold gone; by rewrite Hv|by apply Hn])); rewrite Hk in Hx; by apply elem_of_nil in Hx.
Qed.
End Unreachable.

(** ** Until nothing changes *)

Section Simplify.
Context {I E : Type}.
Implicit Types (c : Cfg I E) (a : agraph (BasicBlock I) (Edge E)) (m : option Rewrite).

Lemma pass_spec (f : Cfg I E * nat * option Rewrite → Id → res (Cfg I E * nat * option Rewrite)) c a m :
  (∀ c a n m x, repr (cfg_graph c) a → cleaned c a (f (c, n, m) x) n) → repr (cfg_graph c) a → a_nlive a (cfg_entry c) = true →
  cleaned c a (order ← depth_first_preorder c (cfg_entry c) Outgoing; rfold f (c, 0, m) order) 0.
Proof.
  intros Hf Hr He. destruct (cfg_order c a Hr He) as (order & ->). rsimpl. by apply cleaned_fold.
Qed.

Lemma merge_blocks_spec c a m : repr (cfg_graph c) a → a_nlive a (cfg_entry c) = true → cleaned c a (merge_blocks_inner c m) 0.
Proof. apply pass_spec. intros. by apply merge_at_spec. Qed.

Lemma remove_empty_spec c a m : repr (cfg_graph c) a → a_nlive a (cfg_entry c) = true → cleaned c a (remove_empty_blocks_inner c m) 0.
Proof. apply pass_spec. intros. by apply bypass_spec. Qed.

Lemma cleans_entry n c a c' a' : cleans n c a c' a' → a_nlive a (cfg_entry c) = true → a_nlive a' (cfg_entry c') = true.
Proof. intros H He. rewrite (proj1 (cl_meta _ _ _ _ _ H)). apply (cl_roots _ _ _ _ _ H); [by left|done]. Qed.

(** No pass finds anything to do. *)
Definition settled c : Prop :=
  (∃ m : Rewrite, remove_unreachable_mapped c = Ok (c, 0, m)) ∧ (∃ m : Rewrite, remove_empty_blocks_mapped c = Ok (c, 0, m)) ∧ ∃ m : Rewrite, merge_blocks_mapped c = Ok (c, 0, m).

Lemma simplify_settled c : settled c → simplify c = Ok (c, 0).
Proof.
  intros ((m1 & H1) & (m2 & H2) & m3 & H3). unfold simplify, simplify_mapped. cbn [simplify_loop]. rewrite H1. rsimpl. rewrite H2. rsimpl. rewrite H3. rsimpl. done.
Qed.

Lemma simplify_loop_spec : ∀ fuel c a total (m : Rewrite), repr (cfg_graph c) a → a_nlive a (cfg_entry c) = true → live_count a < fuel →
  ∃ c' n (m' : Rewrite) a', simplify_loop fuel c total m = Ok (c', total + n, m') ∧ cleans n c a c' a' ∧ settled c' ∧
    ∀ b, a_nlive a' b = true → reached_from_roots c' a' b.
Proof.
  induction fuel as [|fuel IH]; intros c a total m Hr He Hlt; [lia|]. cbn [simplify_loop].
  destruct (remove_unreachable_spec c a Hr He) as (c1 & k1 & m1 & a1 & H1 & C1 & Z1). rewrite H1. rsimpl.
  pose proof (cleans_entry _ _ _ _ _ C1 He) as He1.
  destruct (remove_empty_spec c1 a1 (Some rewrite_new) (cl_repr _ _ _ _ _ C1) He1) as (c2 & k2 & m2 & a2 & H2 & C2 & Z2).
  pose proof (cleans_entry _ _ _ _ _ C2 He1) as He2.
  destruct (merge_blocks_spec c2 a2 (Some rewrite_new) (cl_repr _ _ _ _ _ C2) He2) as (c3 & k3 & m3 & a3 & H3 & C3 & Z3).
  pose proof (cleans_entry _ _ _ _ _ C3 He2) as He3.
  unfold remove_empty_blocks_mapped, merge_blocks_mapped. rewrite H2. rsimpl. rewrite H3. rsimpl. cbn [Nat.add].
  pose proof (cleans_trans _ _ _ _ _ _ _ _ C1 (cleans_trans _ _ _ _ _ _ _ _ C2 C3)) as C. case_decide as Hk.
  - assert (k1 = 0 ∧ k2 = 0 ∧ k3 = 0) as (-> & -> & ->) by lia. destruct (Z1 eq_refl) as [-> Hreach]. rewrite (Z2 eq_refl) in *. rewrite (Z3 eq_refl) in *.
    exists c, 0, (rewrite_compose (rewrite_compose (rewrite_compose m m1) (default rewrite_new m2)) (default rewrite_new m3)), a. split_and!.
    + by rewrite Nat.add_0_r.
    + by apply cleans_refl.
    + split_and!; [by exists m1|exists (default rewrite_new m2)|exists (default rewrite_new m3)].
      * unfold remove_empty_blocks_mapped. by rewrite H2.
      * unfold merge_blocks_mapped. by rewrite H3.
    + done.
  - destruct (IH c3 a3 (total + (k1 + k2 + k3)) (rewrite_compose (rewrite_compose (rewrite_compose m m1) (default rewrite_new m2)) (default rewrite_new m3))
      (cl_repr _ _ _ _ _ C3) He3) as (c4 & n & m4 & a4 & H4 & C4 & S4 & R4).
    { rewrite (cl_count _ _ _ _ _ C) in Hlt. lia. }
    exists c4, (k1 + (k2 + k3) + n), m4, a4. split_and!; [by rewrite H4, !Nat.add_assoc|by eapply cleans_trans|done|done].
Qed.
End Simplify.

(** ** Critical edges *)

Section Critical.
Context {I E : Type}.
Implicit Types (c : Cfg I E) (a : agraph (BasicBlock I) (Edge E)).

(** The edge leaves a block with other exits and enters one with other entries. *)
Definition is_critical a (e : Id) : Prop :=
  a_elive a e = true ∧ ∃ r, a_edges a !! index e = Some r ∧ 2 ≤ length (a_adj a Outgoing (source r)) ∧ 2 ≤ length (a_adj a Incoming (target r)).

#[local] Instance is_critical_dec a e : Decision (is_critical a e).
Proof.
  unfold is_critical. destruct (a_elive a e); [|by right; intros []]. destruct (a_edges a !! index e) as [r|]; [|by right; intros (_ & ? & [=] & _)].
  destruct (decide (2 ≤ length (a_adj a Outgoing (source r)) ∧ 2 ≤ length (a_adj a Incoming (target r)))) as [H|H].
  - left. split; [done|]. by exists r.
  - right. intros (_ & r' & [= <-] & H'). by apply H.
Defined.

Lemma note_critical_spec c a u critical : repr (cfg_graph c) a → 2 ≤ length (a_adj a Outgoing u) →
  rfold (note_critical c) critical (a_adj a Outgoing u) = Ok (critical ++ filter (is_critical a) (a_adj a Outgoing u)).
Proof.
  intros Hr Hu. assert (Hsub : ∀ e, e ∈ a_adj a Outgoing u → e ∈ a_adj a Outgoing u) by done. revert Hsub critical.
  generalize (a_adj a Outgoing u) at 1 3 4 as l. induction l as [|e l IH]; intros Hsub critical; cbn [rfold]; [by rewrite app_nil_r|].
  destruct (repr_out c a e u Hr (Hsub e (list_elem_of_here _ _))) as (t & [Hin (r & Hrec & Htgt)] & Hlive & Ht & _).
  assert (Hsrc : source r = u).
  { apply (repr_adj _ _ Hr) in Hin as (_ & r' & Hr' & Hs). cbn in Hs. congruence. }
  assert (Hnote : note_critical c critical e = Ok (critical ++ filter (is_critical a) [e])).
  { unfold note_critical. rewrite (cfg_edge_spec c a e r Hr Hlive Hrec). rsimpl. cbn [er_target]. rewrite Htgt. unfold cfg_incoming, incoming.
    rewrite (repr_adjacency _ _ Hr) by by apply (repr_nlive_lt _ _ Hr). rsimpl. f_equal. rewrite filter_cons, filter_nil.
    assert (is_critical a e ↔ 2 ≤ length (a_adj a Incoming t)) as Hiff.
    { split; [intros (_ & r' & Hr' & _ & H); congruence|]. intros H. split; [done|]. exists r. by rewrite Hsrc, Htgt. }
    destruct (decide (2 ≤ _)), (decide (is_critical a e)); [done|tauto|tauto|by rewrite app_nil_r]. }
  rewrite Hnote. rsimpl. rewrite IH by (intros x Hx; apply Hsub; by right). f_equal. rewrite <-app_assoc. f_equal. rewrite (filter_app _ [e] l) at 1. done.
Qed.

Lemma critical_edges_spec c a : repr (cfg_graph c) a →
  ∃ l, critical_edges c = Ok l ∧ NoDup l ∧ ∀ e, e ∈ l ↔ is_critical a e.
Proof.
  intros Hr. destruct (cfg_shape c a Hr) as (s & HV & Hn & _). unfold critical_edges.
  assert (block_ids c = Ok (sh_nodes s)) as -> by exact (vw_nodes (Views := HV)). rsimpl.
  assert (Hgen : ∀ ids critical, (∀ u, u ∈ ids → a_nlive a u = true) → rfold (λ critical u, outs ← cfg_outgoing c u;
    if decide (length outs < 2) then mret critical else rfold (note_critical c) critical outs) critical ids =
    Ok (critical ++ (ids ≫= λ u, filter (is_critical a) (a_adj a Outgoing u)))).
  { induction ids as [|u ids IH]; intros critical Hids; cbn [rfold mbind list_bind]; [by rewrite app_nil_r|].
    assert (cfg_outgoing c u = Ok (a_adj a Outgoing u)) as -> by (apply (repr_adjacency _ _ Hr), (repr_nlive_lt _ _ Hr), Hids; by left). rsimpl.
    assert (Hrest : ∀ u, u ∈ ids → a_nlive a u = true) by (intros x Hx; apply Hids; by right). case_decide as Hlen.
    - rsimpl. rewrite IH by done. f_equal. f_equal. rewrite filter_none; [done|]. intros e He (_ & r & Hrec & H & _).
      apply (repr_adj _ _ Hr) in He as (_ & r' & Hrec' & Hs). assert (r' = r) as -> by congruence. cbn in Hs. rewrite Hs in H. lia.
    - rewrite (note_critical_spec c a u critical Hr) by lia. rsimpl. rewrite IH by done. by rewrite app_assoc. }
  rewrite Hgen by (intros u Hu; by apply Hn). cbn [app]. eexists. split; [reflexivity|].
  assert (Hsrc : ∀ u e, e ∈ a_adj a Outgoing u → ∃ r, a_edges a !! index e = Some r ∧ source r = u).
  { intros u e (_ & r & Hrec & Hs)%(repr_adj _ _ Hr). by exists r. }
  split.
  - pose proof (so_nodup _ (vw_ok (Views := HV))) as Hnd. revert Hnd. generalize (sh_nodes s). induction l as [|u l IH]; intros Hnd; cbn [mbind list_bind]; [constructor|].
    apply NoDup_cons in Hnd as [Hu Hnd]. apply NoDup_app. split_and!; [apply NoDup_filter, (repr_adj_nodup _ _ Hr)| |by apply IH].
    intros e [_ He]%list_elem_of_filter (v & [_ He']%list_elem_of_filter & Hv)%list_elem_of_bind.
    destruct (Hsrc u e He) as (r & Hrec & <-), (Hsrc v e He') as (r' & Hrec' & Hs). apply Hu. assert (r' = r) as -> by congruence. by rewrite Hs.
  - intros e. rewrite list_elem_of_bind. split; [by intros (u & [? _]%list_elem_of_filter & _)|]. intros Hc. pose proof Hc as (Hlive & r & Hrec & _).
    exists (source r). rewrite list_elem_of_filter, Hn. split_and!; [done|apply (repr_adj _ _ Hr); split; [done|by exists r]|].
    destruct (repr_edge _ _ Hr e Hlive) as (r' & Hrec' & Hends). assert (r' = r) as -> by congruence. apply (Hends Outgoing).
Qed.

(** *** Splitting one *)

Lemma cfg_edge_mut_spec c a e f : repr (cfg_graph c) a → a_elive a e = true →
  ∃ g, cfg_edge_mut c e f = Ok (set_graph g c) ∧
    repr g (mk_agraph (a_nodes a) (alter (payload_mut f) (index e) (a_edges a)) (a_nlive a) (a_elive a) (a_adj a)).
Proof.
  intros Hr He. destruct (repr_exec _ _ Hr (SetPayload e f) _ _ ltac:(cbn; rewrite decide_True; [done|by apply (repr_elive_lt _ _ Hr)])) as (g & Hrun & Hg).
  exists g. split; [|done]. unfold cfg_edge_mut. rewrite (repr_contains_edge _ _ Hr), He. rsimpl. cbn in Hrun.
  destruct (edge_mut (cfg_graph c) e (payload_mut f)) as [g'| |]; [|done..]. cbn in Hrun |- *. by injection Hrun as ->.
Qed.

(** Between the redirection and the second half: only [e] has moved, to [mid]. *)
Record half_split a a3 (e mid t : Id) : Prop := mk_half_split {
  hs_nodes : a_nodes a3 = a_nodes a ++ [block_new];
  hs_nlive : ∀ b, a_nlive a3 b = a_nlive a b || bool_decide (b = mid);
  hs_elive : a_elive a3 = a_elive a;
  hs_count : length (a_edges a3) = length (a_edges a);
  hs_out : ∀ b, a_adj a3 Outgoing b = a_adj a Outgoing b;
  hs_in : ∀ b, a_adj a3 Incoming b = if decide (b = t) then filter (λ x, x ∉ [e]) (a_adj a Incoming b) else if decide (b = mid) then [e] else a_adj a Incoming b;
  hs_moved : ∃ r r', a_edges a !! index e = Some r ∧ a_edges a3 !! index e = Some r' ∧ source r' = source r ∧ target r = t ∧ target r' = mid ∧
    unwind_kind (kind_of (payload r')) = unwind_kind (kind_of (payload r));
  hs_rest : ∀ x, x ≠ e → a_edges a3 !! index x = a_edges a !! index x;
}.

Lemma half_split_payload a a3 e mid t f : (∀ r, a_edges a !! index e = Some r → unwind_kind (kind_of (f (payload r))) = unwind_kind (kind_of (payload r))) →
  (∀ r r', a_edges a !! index e = Some r → a_edges a3 !! index e = Some r' → payload r' = payload r) → half_split a a3 e mid t →
  half_split a (mk_agraph (a_nodes a3) (alter (payload_mut f) (index e) (a_edges a3)) (a_nlive a3) (a_elive a3) (a_adj a3)) e mid t.
Proof.
  intros Hf Hsame [Hn Hnl Hel Hc Ho Hi (r & r' & H1 & H2 & H3 & H4 & H5 & _) Hrest]. split; cbn; try done.
  - by rewrite length_alter.
  - exists r, (payload_mut f r'). rewrite list_lookup_alter_eq, H2. pose proof (Hf r H1) as Hk. rewrite <-(Hsame r r' H1 H2) in Hk at 1. destruct r'. by split_and!.
  - intros x Hx. rewrite list_lookup_alter_ne by (intros Hi'%index_inj; by apply Hx). by apply Hrest.
Qed.

Lemma half_split_spec c a e r : repr (cfg_graph c) a → a_elive a e = true → a_edges a !! index e = Some r → (N.of_nat (length (a_nodes a)) < MAX_SLOTS)%N →
  let mid := N.of_nat (length (a_nodes a)) in
  ∃ c1 g2 a3 t, new_block c = Ok (c1, mid) ∧ cfg_redirect Incoming c1 e mid = Ok (set_graph g2 c1, t) ∧ same_meta c c1 ∧ repr g2 a3 ∧
    half_split a a3 e mid (target r) ∧ ∀ r', a_edges a3 !! index e = Some r' → payload r' = payload r.
Proof.
  intros Hr He Hrec Hn mid. destruct (new_block_spec c a Hr Hn) as (g1 & H1 & R1).
  assert (Hmid : index mid = length (a_nodes a)) by (unfold mid, index; lia).
  destruct (repr_edge _ _ Hr e He) as (r0 & Hr0 & Hends). assert (r0 = r) as -> by congruence.
  assert (Ht : target r ≠ mid). { intros Hx. specialize (Hends Incoming). cbn in Hends. apply (repr_nlive_lt _ _ Hr) in Hends. rewrite Hx in Hends. lia. }
  destruct (cfg_redirect_spec Incoming (set_graph g1 c) _ e mid r R1 He) as (g2 & H2 & R2).
  { cbn. rewrite bool_decide_true by done. apply orb_true_r. }
  { done. }
  { done. }
  exists (set_graph g1 c), g2, (a_move (a_add_node a block_new) Incoming (target r) mid [e]), (target r). 
  assert (Hmoved : a_edges (a_move (a_add_node a block_new) Incoming (target r) mid [e]) !! index e = Some (set_endpoint Incoming mid r)).
  { cbn. rewrite list_lookup_imap, Hrec. cbn. unfold index. rewrite N2Nat.id. by rewrite decide_True by by left. }
  split_and!; try done; [|intros r'; rewrite Hmoved; by intros [= <-]].
  split; [..|exists r, (set_endpoint Incoming mid r); split; [done|split; [exact Hmoved|by destruct r]]|];
    cbn [a_move a_add_node a_nodes a_edges a_nlive a_elive a_adj]; try done.
  - by rewrite length_imap.
  - intros b. destruct (decide (b = target r)) as [->|Hb]; [by rewrite decide_True|]. rewrite decide_False by (by intros []).
    destruct (decide (b = mid)) as [->|Hb2]; [|by rewrite decide_False by (by intros [])]. rewrite decide_True by done.
    by rewrite (fresh_no_edges _ a Incoming mid Hr) by lia.
  - intros x Hx. rewrite list_lookup_imap. destruct (a_edges a !! index x) as [rx|]; [|done]. cbn. unfold index. rewrite N2Nat.id.
    rewrite decide_False; [done|]. by intros ->%list_elem_of_singleton.
Qed.

Lemma length_without (l : list Id) e : NoDup l → e ∈ l → length l = S (length (filter (λ x, x ∉ [e]) l)).
Proof.
  intros Hnd He. change (length l = length (e :: filter (λ x, x ∉ [e]) l)). apply Permutation_length, NoDup_Permutation; [done| |].
  - constructor; [|by apply NoDup_filter]. intros [Hx _]%list_elem_of_filter. apply Hx. by left.
  - intros x. rewrite elem_of_cons, list_elem_of_filter, list_elem_of_singleton. destruct (decide (x = e)); naive_solver.
Qed.

Section Halves.
Context (c : Cfg I E) (a a3 : agraph (BasicBlock I) (Edge E)) (e t : Id) (w : Edge E).
Notation mid := (N.of_nat (length (a_nodes a))).
Notation second := (N.of_nat (length (a_edges a))).
Notation a4 := (a_add_edge a3 mid t w).
Context (Hr : repr (cfg_graph c) a) (Hlive : a_elive a e = true) (Hh : half_split a a3 e mid t).

Lemma halves_old : t ≠ mid ∧ a_nlive a mid = false ∧ a_elive a second = false ∧ e ∈ a_adj a Incoming t ∧ a_adj a Outgoing mid = [].
Proof using Hr Hlive Hh.
  destruct (hs_moved _ _ _ _ _ Hh) as (r & r' & Hrec & _ & _ & Ht & _ & _). assert (Hn : a_nlive a mid = false).
  { destruct (a_nlive a mid) eqn:Hx; [|done]. apply (repr_nlive_lt _ _ Hr) in Hx. unfold index in Hx. lia. }
  split_and!.
  - intros Hx. destruct (repr_edge _ _ Hr e Hlive) as (r0 & Hr0 & Hends). specialize (Hends Incoming). cbn in Hends. congruence.
  - done.
  - destruct (a_elive a second) eqn:Hx; [|done]. apply (repr_elive_lt _ _ Hr) in Hx. unfold index in Hx. lia.
  - apply (repr_adj _ _ Hr). split; [done|by exists r].
  - apply (fresh_no_edges _ a Outgoing _ Hr). unfold index. lia.
Qed.

Lemma halves_out b : a_adj a4 Outgoing b = if decide (b = mid) then [second] else a_adj a Outgoing b.
Proof using Hr Hlive Hh.
  unfold a_add_edge. cbn [a_adj endpoint source]. rewrite (hs_out _ _ _ _ _ Hh), (hs_count _ _ _ _ _ Hh). case_decide as Hb; [|done].
  subst b. by rewrite (proj2 (proj2 (proj2 (proj2 halves_old)))).
Qed.

Lemma halves_record x : a_edges a4 !! index x = if decide (x = second) then Some (mk_EdgeRecord mid t w) else a_edges a3 !! index x.
Proof using Hr Hlive Hh.
  cbn [a_edges a_add_edge]. pose proof (hs_count _ _ _ _ _ Hh) as Hc. case_decide as Hx.
  - subst x. rewrite lookup_app_r by (rewrite Hc; unfold index; lia). unfold index. by rewrite Hc, Nat2N.id, Nat.sub_diag.
  - destruct (decide (index x < length (a_edges a3))) as [Hlt|Hge]; [by rewrite lookup_app_l|].
    rewrite !lookup_ge_None_2; [done|lia|]. rewrite length_app. cbn. assert (index x ≠ length (a_edges a3)); [|lia].
    rewrite Hc. intros Hx'. apply Hx. rewrite <-Hx'. unfold index. by rewrite N2Nat.id.
Qed.

Lemma halves_in b : length (a_adj a4 Incoming b) = if decide (b = mid) then 1 else length (a_adj a Incoming b).
Proof using Hr Hlive Hh.
  destruct halves_old as (Ht & _ & _ & Hin & _). unfold a_add_edge. cbn [a_adj endpoint target]. rewrite (hs_in _ _ _ _ _ Hh).
  destruct (decide (b = t)) as [->|Hb].
  - rewrite decide_False by done. rewrite length_app. rewrite (length_without (a_adj a Incoming t) e (repr_adj_nodup _ _ Hr Incoming t) Hin). cbn. lia.
  - by destruct (decide (b = mid)).
Qed.

Lemma halves_bypass : bypass_of a4 a mid second t.
Proof using Hr Hlive Hh.
  destruct halves_old as (Ht & Hmid & Hsec & Hin & Hfresh). destruct (hs_moved _ _ _ _ _ Hh) as (r & r' & Hrec & Hrec' & _ & Htgt & Htgt' & Hkind).
  assert (Hne : e ≠ second) by (intros ->; congruence).
  assert (Hnodes : a_nodes a4 = a_nodes a ++ [block_new]) by apply (hs_nodes _ _ _ _ _ Hh).
  assert (Hrecs : ∀ x, a_elive a x = true → x ≠ e → a_edges a4 !! index x = a_edges a !! index x).
  { intros x Hx Hxe. rewrite halves_record, decide_False by (intros ->; congruence). by apply (hs_rest _ _ _ _ _ Hh). }
  assert (He4 : a_edges a4 !! index e = Some r') by by rewrite halves_record, decide_False.
  split.
  - unfold code. rewrite Hnodes, lookup_app_r by (unfold index; lia). unfold index. by rewrite Nat2N.id, Nat.sub_diag.
  - by rewrite halves_out, decide_True.
  - split; [rewrite halves_out, decide_True by done; by left|]. exists (mk_EdgeRecord mid t w). split; [by rewrite halves_record, decide_True|done].
  - done.
  - intros b Hb. unfold code. rewrite Hnodes. destruct (decide (index b < length (a_nodes a))) as [Hlt|Hge]; [by rewrite lookup_app_l|].
    rewrite !lookup_ge_None_2; [done| |lia]. rewrite length_app. cbn. assert (index b ≠ length (a_nodes a)); [|lia].
    intros Hx. apply Hb. rewrite <-Hx. unfold index. by rewrite N2Nat.id.
  - intros b x y Hb. unfold goes at 2. rewrite halves_out, decide_False by done. split.
    + intros [Hx (rx & Hrx & <-)]. pose proof Hx as [Hxl _]%(repr_adj _ _ Hr). destruct (decide (x = e)) as [->|Hxe].
      * exists mid. rewrite decide_True by done. assert (rx = r) as -> by congruence. split; [split; [done|by exists r']|done].
      * exists (target rx). split; [split; [done|exists rx; by rewrite Hrecs]|]. rewrite decide_False; [done|]. intros Hm.
        destruct (repr_edge _ _ Hr x Hxl) as (r0 & Hr0 & Hends). specialize (Hends Incoming). cbn in Hends. congruence.
    + intros (z & [Hx (rx & Hrx & Hz)] & ->). split; [done|]. pose proof Hx as [Hxl _]%(repr_adj _ _ Hr). destruct (decide (x = e)) as [->|Hxe].
      * assert (rx = r') as -> by congruence. rewrite decide_True by congruence. by exists r.
      * rewrite Hrecs in Hrx by done. exists rx. split; [done|]. rewrite decide_False; [done|]. intros Hm.
        destruct (repr_edge _ _ Hr x Hxl) as (r0 & Hr0 & Hends). specialize (Hends Incoming). cbn in Hends. congruence.
  - intros b x y Hb [Hx _]. unfold unwinding. destruct (decide (x = e)) as [->|Hxe]; [by rewrite He4, Hrec; cbn; rewrite Hkind|].
    rewrite halves_out, decide_False in Hx by done. apply (repr_adj _ _ Hr) in Hx as [Hx _]. by rewrite (Hrecs x Hx Hxe).
  - intros b. cbn [a_nlive a_add_edge]. rewrite (hs_nlive _ _ _ _ _ Hh). destruct (decide (b = mid)) as [->|Hb].
    + by rewrite Hmid, bool_decide_true.
    + rewrite bool_decide_false by done. by rewrite orb_false_r, andb_true_r.
  - intros x. cbn [a_elive a_add_edge]. rewrite (hs_elive _ _ _ _ _ Hh), (hs_count _ _ _ _ _ Hh). destruct (decide (x = second)) as [->|Hx].
    + by rewrite Hsec, bool_decide_true.
    + rewrite bool_decide_false by done. by rewrite orb_false_r, andb_true_r.
Qed.

Lemma halves_critical x : is_critical a4 x ↔ is_critical a x ∧ x ≠ e.
Proof using Hr Hlive Hh.
  destruct halves_old as (Ht & Hmid & Hsec & Hin & Hfresh). destruct (hs_moved _ _ _ _ _ Hh) as (r & r' & Hrec & Hrec' & _ & Htgt & Htgt' & _).
  assert (Hne : e ≠ second) by (intros ->; congruence). unfold is_critical at 1.
  assert (Hel : a_elive a4 x = a_elive a x || bool_decide (x = second)) by (cbn; by rewrite (hs_elive _ _ _ _ _ Hh), (hs_count _ _ _ _ _ Hh)).
  rewrite Hel, halves_record. destruct (decide (x = second)) as [->|Hx].
  { split; [|intros [[? _] _]; congruence]. intros (_ & r0 & [= <-] & Hout & _). cbn [source] in Hout.
    rewrite halves_out, decide_True in Hout by done. cbn in Hout. lia. }
  rewrite bool_decide_false, orb_false_r by done. destruct (decide (x = e)) as [->|Hxe].
  { split; [|by intros [_ ?]]. intros (_ & r0 & Hr0 & _ & Hi). assert (r0 = r') as -> by congruence.
    rewrite Htgt', halves_in, decide_True in Hi by done. lia. }
  rewrite (hs_rest _ _ _ _ _ Hh x Hxe). unfold is_critical.
  assert (Hdeg : ∀ r0, a_elive a x = true → a_edges a !! index x = Some r0 →
    a_adj a4 Outgoing (source r0) = a_adj a Outgoing (source r0) ∧ length (a_adj a4 Incoming (target r0)) = length (a_adj a Incoming (target r0))).
  { intros r0 Hl Hr0. destruct (repr_edge _ _ Hr x Hl) as (r1 & Hr1 & Hends). assert (r1 = r0) as -> by congruence.
    pose proof (Hends Outgoing) as Ho. pose proof (Hends Incoming) as Hi. cbn in Ho, Hi.
    rewrite halves_out, halves_in, !decide_False by congruence. done. }
  split.
  - intros (Hl & r0 & Hr0 & H1 & H2). split; [|done]. split; [done|]. exists r0. destruct (Hdeg r0 Hl Hr0) as [D1 D2]. rewrite <-D1, <-D2. done.
  - intros [(Hl & r0 & Hr0 & H1 & H2) _]. split; [done|]. exists r0. destruct (Hdeg r0 Hl Hr0) as [D1 D2]. rewrite D1, D2. done.
Qed.
End Halves.

Lemma split_critical_spec pf c a (m : Rewrite) e r : repr (cfg_graph c) a → a_elive a e = true → a_edges a !! index e = Some r →
  (N.of_nat (length (a_nodes a)) < MAX_SLOTS)%N → (N.of_nat (length (a_edges a)) < MAX_SLOTS)%N →
  ∃ c' a' (m' : Rewrite), split_critical_edge pf (c, m) e = Ok (c', m') ∧ same_meta c c' ∧ repr (cfg_graph c') a' ∧
    bypass_of a' a (N.of_nat (length (a_nodes a))) (N.of_nat (length (a_edges a))) (target r) ∧
    length (a_nodes a') = S (length (a_nodes a)) ∧ length (a_edges a') = S (length (a_edges a)) ∧ ∀ x, is_critical a' x ↔ is_critical a x ∧ x ≠ e.
Proof.
  intros Hr He Hrec Hn Hm. unfold split_critical_edge. rewrite (cfg_edge_spec c a e r Hr He Hrec). rsimpl. cbn [er_data er_target].
  destruct (half_split_spec c a e r Hr He Hrec Hn) as (c1 & g2 & a2 & t & H1 & H2 & M1 & R2 & Hh & Hpay). rewrite H1. rsimpl. rewrite H2. rsimpl.
  assert (Hkind : ∃ g3 a3 k, (if decide (kind_of (payload r) = Back) then c ← cfg_edge_mut (set_graph g2 c1) e (set_kind Unconditional); mret (c, Back)
      else mret (set_graph g2 c1, Fallthrough)) = Ok (set_graph g3 c1, k) ∧ repr g3 a3 ∧ half_split a a3 e (N.of_nat (length (a_nodes a))) (target r)).
  { case_decide as Hk; [|exists g2, a2, Fallthrough; done].
    destruct (cfg_edge_mut_spec (set_graph g2 c1) a2 e (set_kind Unconditional) R2) as (g3 & -> & R3); [by rewrite (hs_elive _ _ _ _ _ Hh)|].
    rsimpl. eexists g3, _, Back. split_and!; [done|exact R3|]. apply half_split_payload; [|intros r0 r1 Hr0; assert (r0 = r) as -> by congruence; apply Hpay|exact Hh].
    intros r0 Hr0. assert (r0 = r) as -> by congruence. rewrite Hk. done. }
  destruct Hkind as (g3 & a3 & k & H3 & R3 & Hh3). rewrite H3. rsimpl.
  pose proof (repr_edge _ _ Hr e He) as (r0 & Hr0 & Hends). assert (r0 = r) as -> by congruence. specialize (Hends Incoming). cbn in Hends.
  destruct (cfg_add_edge_spec (set_graph g3 c1) a3 (N.of_nat (length (a_nodes a))) (target r) k (pf e (payload r)) R3) as (g4 & H4 & R4).
  { rewrite (hs_nlive _ _ _ _ _ Hh3), bool_decide_true by done. apply orb_true_r. }
  { by rewrite (hs_nlive _ _ _ _ _ Hh3), Hends. }
  { by rewrite (hs_count _ _ _ _ _ Hh3). }
  rewrite H4. rsimpl. eexists _, _, _. split; [reflexivity|]. split_and!; [apply M1..|exact R4| | | |].
  - by apply (halves_bypass c a a3 e (target r) (mk_Edge k None (pf e (payload r))) Hr He Hh3).
  - cbn. rewrite (hs_nodes _ _ _ _ _ Hh3), length_app. cbn. lia.
  - cbn. rewrite length_app, (hs_count _ _ _ _ _ Hh3). cbn. lia.
  - intros x. by apply (halves_critical c a a3 e (target r) (mk_Edge k None (pf e (payload r))) Hr He Hh3).
Qed.

Lemma split_all_critical pf (l : list Id) : ∀ c a (m : Rewrite), repr (cfg_graph c) a → NoDup l → (∀ e, e ∈ l → is_critical a e) →
  (N.of_nat (length (a_nodes a) + length l) ≤ MAX_SLOTS)%N → (N.of_nat (length (a_edges a) + length l) ≤ MAX_SLOTS)%N →
  ∃ c' a' (m' : Rewrite), rfold (split_critical_edge pf) (c, m) l = Ok (c', m') ∧ same_meta c c' ∧ repr (cfg_graph c') a' ∧
    length (a_nodes a') = length (a_nodes a) + length l ∧ length (a_edges a') = length (a_edges a) + length l ∧
    (∀ x, is_critical a' x ↔ is_critical a x ∧ x ∉ l) ∧ (∀ b, a_nlive a b = true → a_nlive a' b = true) ∧
    ∀ throws seen b t, (∀ e, seen e → index e < length (a_edges a)) → a_nlive a b = true → trace throws seen c (b, 0) t ↔ trace throws seen c' (b, 0) t.
Proof.
  induction l as [|e l IH]; intros c a m Hr Hnd Hcrit Hn Hm; cbn [rfold length] in *.
  { exists c, a, m. rewrite !Nat.add_0_r. split_and!; try done. intros x. split; [|by intros [? _]]. intros Hx. split; [done|apply not_elem_of_nil]. }
  apply NoDup_cons in Hnd as [Hnew Hnd]. pose proof (Hcrit e ltac:(by left)) as (Hlive & r & Hrec & _).
  destruct (split_critical_spec pf c a m e r Hr Hlive Hrec) as (c1 & a1 & m1 & H1 & M1 & R1 & Hb & Ln & Le & Hc1); [lia|lia|]. rewrite H1. rsimpl.
  destruct (IH c1 a1 m1 R1 Hnd) as (c2 & a2 & m2 & H2 & M2 & R2 & Ln2 & Le2 & Hc2 & Hl2 & Ht2); [|lia|lia|].
  { intros x Hx. apply Hc1. split; [apply Hcrit; by right|]. by intros ->. }
  assert (Hup : ∀ b, a_nlive a b = true → a_nlive a1 b = true ∧ b ≠ N.of_nat (length (a_nodes a))).
  { intros b Hx. rewrite (by_nlive _ _ _ _ _ Hb) in Hx. apply andb_true_iff in Hx as [Hx Hne]. by apply negb_true_iff, bool_decide_eq_false in Hne. }
  exists c2, a2, m2. split_and!; [done| |done|lia|lia| | |].
  - destruct M1 as (? & ? & ?), M2 as (? & ? & ?). split_and!; congruence.
  - intros x. rewrite Hc2, Hc1, not_elem_of_cons. tauto.
  - intros b Hx. by apply Hl2, Hup.
  - intros throws seen b t Hseen Hx. destruct (Hup b Hx) as [Hx1 Hne]. rewrite <-(Ht2 throws seen b t); [|intros x Hs%Hseen; lia|done].
    symmetry. apply (bypass_traces throws seen a1 a _ _ _ Hb); [|done|done|done]. intros Hs%Hseen. unfold index in Hs. lia.
Qed.

Lemma critical_reads c a e : repr (cfg_graph c) a →
  is_critical a e ↔ ∃ r outs ins, cfg_edge c e = Ok r ∧ cfg_outgoing c (er_source r) = Ok outs ∧ cfg_incoming c (er_target r) = Ok ins ∧
    2 ≤ length outs ∧ 2 ≤ length ins.
Proof.
  intros Hr. assert (Hadj : ∀ r d, a_elive a e = true → a_edges a !! index e = Some r → adjacency (cfg_graph c) d (endpoint d r) = Ok (a_adj a d (endpoint d r))).
  { intros r d He Hrec. destruct (repr_edge _ _ Hr e He) as (r0 & Hr0 & Hends). assert (r0 = r) as -> by congruence.
    by apply (repr_adjacency _ _ Hr), (repr_nlive_lt _ _ Hr). }
  split.
  - intros (He & r & Hrec & Ho & Hi). exists (mk_EdgeRef e (source r) (target r) (payload r)), (a_adj a Outgoing (source r)), (a_adj a Incoming (target r)).
    split_and!; [by apply (cfg_edge_spec c a)|by apply (Hadj r Outgoing)|by apply (Hadj r Incoming)|done|done].
  - intros (r & outs & ins & He & Ho & Hi & H1 & H2). unfold cfg_edge in He. rewrite (repr_contains_edge _ _ Hr) in He.
    destruct (a_elive a e) eqn:Hl; rsimpl; [|done]. cbn in He. destruct (edge (cfg_graph c) e) as [rec| |] eqn:Hrec; [|done..]. cbn in He. injection He as <-.
    apply (repr_record _ _ Hr) in Hrec. cbn in Ho, Hi. split; [done|]. exists rec. split; [done|].
    pose proof (Hadj rec Outgoing eq_refl Hrec) as Eo. pose proof (Hadj rec Incoming eq_refl Hrec) as Ei. cbn in Eo, Ei.
    unfold cfg_outgoing, cfg_incoming, outgoing, incoming in Ho, Hi. rewrite Eo in Ho. rewrite Ei in Hi. simplify_eq. done.
Qed.
End Critical.

(** ** Guarantees *)

Section Guarantees.
Context {I E : Type}.
Implicit Types (c : Cfg I E) (a : agraph (BasicBlock I) (Edge E)).

(** From one block to a successor *)
Definition leads c (u v : Id) : Prop := ∃ l, cfg_successors c u = Ok l ∧ v ∈ l.

Lemma goes_leads c a u e v : repr (cfg_graph c) a → goes a u e v → leads c u v.
Proof.
  intros Hr Hg. destruct (cfg_shape c a Hr) as (s & HV & Hn & Hnext). exists (sh_next s Outgoing u). split; [|apply Hnext; by exists e].
  apply (vw_next (Views := HV) Outgoing). apply Hn. by destruct (goes_live _ _ _ _ _ Hr Hg).
Qed.

(** C34: Simplifying a well-formed control-flow graph ends. It removes as many
    blocks as it reports, and keeps the entry, the exception metadata and every
    block that metadata names. No execution from one of those changes, whichever
    instructions may throw and whatever surviving edges are watched, as long as
    no exception that leaves the function comes to share a block with an unwind
    edge: neither a block that throws and has no unwind edge, nor one that such
    a block leads to by only exits, has one. What is left is reachable from the
    entry or from a block exception metadata names, and simplifying it again
    does nothing. *)
Theorem simplify_keeps_executions c :
  cfg_ok c →
  ∃ c' n, simplify c = Ok (c', n) ∧ cfg_ok c' ∧ block_count c = block_count c' + n ∧ simplify c' = Ok (c', 0) ∧ same_meta c c' ∧
    (∀ b, is_root c b → contains_block c b = Ok true → contains_block c' b = Ok true ∧
      ∀ throws seen l, (∀ x, escapes throws c x → ¬ unwinds_out c x) → (∀ e, seen e → cfg_contains_edge c' e = Ok true) →
        trace throws seen c (b, 0) l ↔ trace throws seen c' (b, 0) l) ∧
    ∀ b, contains_block c' b = Ok true → ∃ root, is_root c' root ∧ contains_block c' root = Ok true ∧ rtc (leads c') root b.
Proof.
  intros (a & Hr & He). destruct (simplify_loop_spec (S (block_count c)) c a 0 rewrite_new Hr He) as (c' & n & m & a' & Hrun & C & Hs & Hreach).
  { rewrite (block_count_live _ _ Hr). lia. }
  pose proof (cl_repr _ _ _ _ _ C) as Hr'. exists c', n. unfold simplify, simplify_mapped. rewrite Hrun. rsimpl. split_and!.
  - done.
  - exists a'. split; [done|by eapply cleans_entry].
  - rewrite (block_count_live _ _ Hr), (block_count_live _ _ Hr'). apply (cl_count _ _ _ _ _ C).
  - by apply simplify_settled.
  - apply (cl_meta _ _ _ _ _ C).
  - unfold contains_block, cfg_contains_edge. setoid_rewrite (repr_contains_edge _ _ Hr'). intros b Hb Hl.
    rewrite (repr_contains_node _ _ Hr) in Hl. injection Hl as Hl. split; [rewrite (repr_contains_node _ _ Hr'); by rewrite (cl_roots _ _ _ _ _ C)|].
    intros throws seen l Hesc Hseen. apply (cl_traces _ _ _ _ _ C); [by apply (shielded_reads throws c a Hr)| |done|done]. intros e Hx%Hseen. by injection Hx.
  - unfold contains_block. intros b Hb. rewrite (repr_contains_node _ _ Hr') in Hb. injection Hb as Hb.
    destruct (Hreach b Hb) as (root & Hroot & Hl & Hrt). exists root. split_and!; [done|by rewrite (repr_contains_node _ _ Hr'), Hl|].
    eapply rtc_subrel; [|exact Hrt]. intros u v (e & Hg). by eapply goes_leads.
Qed.
(** C35: Splitting the critical edges of a well-formed control-flow graph succeeds
    while slots are left for as many blocks and edges as it has edges. It splits
    each edge that leaves a block with other exits and enters one with other
    entries, no such edge is left, the entry, the exception metadata and every
    block stay, and no execution from an old block changes, whichever instructions
    may throw and whatever old edges are watched. *)
Theorem critical_edges_are_split c (payload_for : Id → Edge E → E) :
  cfg_ok c → (N.of_nat (block_bound c + cfg_edge_bound c) ≤ MAX_SLOTS)%N → (N.of_nat (cfg_edge_bound c + cfg_edge_bound c) ≤ MAX_SLOTS)%N →
  let critical c e := ∃ r outs ins, cfg_edge c e = Ok r ∧ cfg_outgoing c (er_source r) = Ok outs ∧ cfg_incoming c (er_target r) = Ok ins ∧
    2 ≤ length outs ∧ 2 ≤ length ins in
  ∃ (l : list Id) c' m, split_critical_edges_with c payload_for = Ok (c', length l, m) ∧ NoDup l ∧ (∀ e, e ∈ l ↔ critical c e) ∧ (∀ e, ¬ critical c' e) ∧
    cfg_ok c' ∧ same_meta c c' ∧ block_bound c' = block_bound c + length l ∧ cfg_edge_bound c' = cfg_edge_bound c + length l ∧
    ∀ b, contains_block c b = Ok true → contains_block c' b = Ok true ∧
      ∀ throws seen t, (∀ e, seen e → index e < cfg_edge_bound c) → trace throws seen c (b, 0) t ↔ trace throws seen c' (b, 0) t.
Proof.
  intros (a & Hr & He) Hn Hm critical. unfold block_bound, cfg_edge_bound in *. rewrite (repr_node_bound _ _ Hr), (repr_edge_bound _ _ Hr) in *.
  destruct (critical_edges_spec c a Hr) as (l & Hl & Hnd & Hin). unfold split_critical_edges_with. rewrite Hl. rsimpl.
  assert (Hlen : length l ≤ length (a_edges a)).
  { rewrite <-(length_seq (length (a_edges a)) 0), <-(length_fmap index l). apply submseteq_length, NoDup_submseteq.
    - apply NoDup_fmap_2_strong; [|done]. intros x y _ _. apply index_inj.
    - intros i (e & -> & [Hx _]%Hin)%list_elem_of_fmap. apply elem_of_seq. pose proof (repr_elive_lt _ _ Hr e Hx). lia. }
  destruct (split_all_critical payload_for l c a rewrite_new Hr Hnd) as (c' & a' & m' & H & M & R & Ln & Le & Hc & Hup & Ht); [by intros e He'%Hin|lia|lia|].
  rewrite H. rsimpl. exists l, c', m'. rewrite (repr_node_bound _ _ R), (repr_edge_bound _ _ R). split_and!; try done.
  - intros e. by rewrite Hin, (critical_reads c a e Hr).
  - intros e Hx. apply (critical_reads c' a' e R), Hc in Hx as [Hx Hno]. by apply Hno, Hin.
  - exists a'. split; [done|]. rewrite (proj1 M). by apply Hup.
  - unfold contains_block. intros b Hb. rewrite (repr_contains_node _ _ Hr) in Hb. injection Hb as Hb.
    split; [rewrite (repr_contains_node _ _ R); by rewrite Hup|]. intros throws seen t Hseen. by apply Ht.
Qed.
End Guarantees.

(** Instruction 11 of block 0 may throw, and block 0 has an unwind edge: no
    exception leaves the sample graph. *)
Lemma sample_unwind_caught x : ¬ escapes (N.eqb 11) sample_unwind x.
Proof.
  intros Hx. induction Hx as [b blk _ Hblk Ht Hno|b e r _ IH _ _]; [|exact IH]. apply Hno. clear Hno. assert (b = 0%N) as ->.
  { apply node_lookup in Hblk. assert (Hall : all_nodes (cfg_graph sample_unwind) = [sample_block; block_new; block_new; block_new]) by (vm_compute; reflexivity).
    rewrite Hall in Hblk. clear -Hblk Ht. apply (index_inj b 0%N). destruct (index b) as [|[|[|[|i]]]]; [reflexivity| | | |discriminate];
      injection Hblk as <-; discriminate. }
  assert (Hout : cfg_outgoing sample_unwind 0%N = Ok [0; 3]%N) by (vm_compute; reflexivity).
  assert (He : cfg_edge sample_unwind 3%N = Ok (mk_EdgeRef 3%N 0%N 3%N (mk_Edge ExceptionUnwind None tt))) by (vm_compute; reflexivity).
  exists [0; 3]%N, 3%N. eexists. split_and!; [exact Hout|apply list_elem_of_further, list_elem_of_here|exact He|reflexivity].
Qed.

Lemma simplify_keeps_executions_witness :
  ∃ c' n, simplify sample_unwind = Ok (c', n) ∧ block_count sample_unwind = block_count c' + n ∧ simplify c' = Ok (c', 0) ∧
    ∀ l, trace (N.eqb 11) (λ e, cfg_contains_edge c' e = Ok true) sample_unwind (0%N, 0) l ↔
      trace (N.eqb 11) (λ e, cfg_contains_edge c' e = Ok true) c' (0%N, 0) l.
Proof.
  destruct (simplify_keeps_executions sample_unwind (reachable_ok _ sample_unwind_reachable)) as (c' & n & Hrun & _ & Hcount & Hsame & _ & Hroots & _).
  assert (He : 0%N = cfg_entry sample_unwind) by (vm_compute; reflexivity).
  assert (Hlive : contains_block sample_unwind 0%N = Ok true) by (vm_compute; reflexivity).
  destruct (Hroots 0%N (or_introl He) Hlive) as [_ Htr].
  exists c', n. split; [exact Hrun|]. split; [exact Hcount|]. split; [exact Hsame|].
  intros l. apply Htr; [|exact (λ e H, H)]. intros x Hx. destruct (sample_unwind_caught x Hx).
Defined.

(** Where exceptions of a block that only leads to a block with unwind edges
    leave the function, merging the two gives them the unwind edge: instruction
    10 of block 0 throws, and only block 1 unwinds to block 2. *)
Definition sample_escape : Cfg N () := built
  [CBlockMut 0%N (set_instructions [10]%N); CNewBlock; CNewBlock; CBlockMut 1%N (set_instructions [11]%N);
   CAddEdge 0%N 1%N Fallthrough None tt; CAddEdge 1%N 2%N ExceptionUnwind None tt].

Lemma merge_joins_unwinds :
  ∃ c', contract_edge sample_escape 0%N 1%N = Ok (c', true) ∧
    ¬ trace (N.eqb 10) (λ e, e = 1%N) sample_escape (0%N, 0) [Took 1%N] ∧ trace (N.eqb 10) (λ e, e = 1%N) c' (0%N, 0) [Took 1%N].
Proof.
  set (c' := match contract_edge sample_escape 0%N 1%N with Ok (c', _) => c' | _ => sample_escape end).
  assert (Hrun : contract_edge sample_escape 0%N 1%N = Ok (c', true)) by (vm_compute; reflexivity).
  assert (Hblk : block sample_escape 0%N = Ok (mk_BasicBlock [10]%N None)) by (vm_compute; reflexivity).
  assert (Hout : cfg_outgoing sample_escape 0%N = Ok [0]%N) by (vm_compute; reflexivity).
  assert (He : cfg_edge sample_escape 0%N = Ok (mk_EdgeRef 0%N 0%N 1%N (mk_Edge Fallthrough None tt))) by (vm_compute; reflexivity).
  assert (Hblk' : block c' 0%N = Ok (mk_BasicBlock [10; 11]%N None)) by (vm_compute; reflexivity).
  assert (Hout' : cfg_outgoing c' 0%N = Ok [1]%N) by (vm_compute; reflexivity).
  assert (He' : cfg_edge c' 1%N = Ok (mk_EdgeRef 1%N 0%N 2%N (mk_Edge ExceptionUnwind None tt))) by (vm_compute; reflexivity).
  clearbody c'. exists c'. split; [exact Hrun|]. clear Hrun. split.
  - exact (runs_before_leaving _ _ sample_escape 0%N _ 0%N _ 1%N Hblk Hout He ltac:(discriminate) ltac:(discriminate)).
  - clear Hblk Hout He. exists (2%N, 0). apply runs_one.
    apply (step_leave (N.eqb 10) (λ e, e = 1%N) c' 0%N 0 _ [1]%N 1%N _ [Took 1%N] Hblk' Hout' (list_elem_of_here _ _) He'); [by exists 10%N|by left].
Qed.

(** The sample graph with two more edges into block 3, one of them from a block
    with another exit. *)
Definition sample_critical_calls : list (cfg_call N ()) :=
  sample_cfg_calls ++ [CAddEdge 0%N 3%N Back None tt].
Definition sample_critical : Cfg N () := built sample_critical_calls.

Lemma sample_critical_reachable : reachable_cfg sample_critical.
Proof. apply built_reachable. vm_compute. reflexivity. Qed.

Lemma critical_edges_are_split_witness :
  ∃ l c' m, split_critical_edges_with sample_critical (λ _ _, tt) = Ok (c', length l, m) ∧ 3%N ∈ l ∧ block_bound c' = 4 + length l.
Proof.
  assert (Hn : block_bound sample_critical = 4) by (vm_compute; reflexivity).
  assert (Hm : cfg_edge_bound sample_critical = 4) by (vm_compute; reflexivity).
  assert (He : cfg_edge sample_critical 3%N = Ok (mk_EdgeRef 3%N 0%N 3%N (mk_Edge Back None tt))) by (vm_compute; reflexivity).
  assert (Ho : cfg_outgoing sample_critical 0%N = Ok [0; 3]%N) by (vm_compute; reflexivity).
  assert (Hi : cfg_incoming sample_critical 3%N = Ok [2; 3]%N) by (vm_compute; reflexivity).
  pose proof (critical_edges_are_split sample_critical (λ _ _, tt) (reachable_ok _ sample_critical_reachable)) as H.
  rewrite Hn, Hm in H. destruct (H ltac:(vm_compute; discriminate) ltac:(vm_compute; discriminate)) as (l & c' & m & Hrun & _ & Hl & _ & _ & _ & Hb & _).
  exists l, c', m. split; [exact Hrun|]. split; [|exact Hb]. apply Hl.
  exists (mk_EdgeRef 3%N 0%N 3%N (mk_Edge Back None tt)), [0; 3]%N, [2; 3]%N. exact (conj He (conj Ho (conj Hi (conj (le_n 2) (le_n 2))))).
Defined.
