(* ===== verification/Scc.v ===== *)
(** * Strongly connected components

    Models [graph/scc.rs]: the decomposition's three arrays, Tarjan's and
    Kosaraju's loops over an explicit stack of frames that share one successor
    arena, and the condensations built from a decomposition. A table entry
    that the code sets to [usize::MAX] is [None]. *)

From S2P Require Import Prelude Ids View Chains Runs Store.

(** [slice\[a..b\]] *)
Definition vslice {A} (v : list A) (a b : nat) : res (list A) :=
  if decide (a ≤ b ∧ b ≤ length v) then Ok (take (b - a) (drop a v))
  else Panic "range out of bounds".

(** ** The decomposition *)

(** [SccDecomposition] *)
Record SccDecomposition : Type := mk_Scc {
  scc_nodes : list Id;
  scc_offsets : list nat;
  component_of : list (option nat);
}.

(** [NO_COMPONENT] *)
Definition NO_COMPONENT : option nat := None.

(** [SccDecomposition::with_node_bound] *)
Definition with_node_bound (node_bound : nat) : SccDecomposition :=
  mk_Scc [] [0] (replicate node_bound NO_COMPONENT).

(** [nodes\[start..\].sort_unstable()] on distinct identities *)
Definition sort_from (start : nat) (l : list Id) : list Id :=
  take start l ++ merge_sort N.le (drop start l).

(** [SccDecomposition::close_component] *)
Definition close_component (dec : SccDecomposition) : res SccDecomposition :=
  start ← expect (last (scc_offsets dec)) "offsets always hold the leading zero";
  let sorted := if decide (1 < length (scc_nodes dec) - start) then sort_from start (scc_nodes dec)
                else scc_nodes dec in
  mret (mk_Scc sorted (scc_offsets dec ++ [length sorted]) (component_of dec)).

(** [SccDecomposition::component_index] *)
Definition component_index (dec : SccDecomposition) (node : Id) : res nat :=
  entry ← vget (component_of dec) (index node);
  expect entry "node is not a node of the decomposed graph".

(** [SccDecomposition::component] *)
Definition component (dec : SccDecomposition) (node : Id) : res (list Id) :=
  index ← component_index dec node;
  a ← vget (scc_offsets dec) index;
  b ← vget (scc_offsets dec) (index + 1);
  vslice (scc_nodes dec) a b.

(** [slice::windows(2)] *)
Definition windows2 {A} (l : list A) : list (A * A) := zip l (tail l).

(** [SccDecomposition::components], collected *)
Definition components (dec : SccDecomposition) : res (list (list Id)) :=
  rmapM (λ run, vslice (scc_nodes dec) (fst run) (snd run)) (windows2 (scc_offsets dec)).

(** [SccDecomposition::len] and [is_empty] *)
Definition len (dec : SccDecomposition) : nat := length (scc_offsets dec) - 1.
Definition is_empty (dec : SccDecomposition) : bool := bool_decide (len dec = 0).

(** [self.component_of\[node\] = index] *)
Definition set_component (dec : SccDecomposition) (node : Id) (index : nat) : res SccDecomposition :=
  table ← vset (component_of dec) (Ids.index node) (Some index);
  mret (mk_Scc (scc_nodes dec) (scc_offsets dec) table).

(** [self.nodes.push(node)] *)
Definition push_node (dec : SccDecomposition) (node : Id) : SccDecomposition :=
  mk_Scc (scc_nodes dec ++ [node]) (scc_offsets dec) (component_of dec).

(** ** One component *)

(** [Scc::is_singleton], on the component's slice *)
Definition is_singleton (nodes : list Id) : bool := bool_decide (length nodes = 1).

(** The halving loop of [slice::binary_search]. *)
Fixpoint search_base (fuel : nat) (v : list Id) (x : Id) (base size : nat) : res nat :=
  match fuel with
  | 0 => Stuck
  | S fuel =>
      if decide (1 < size) then
        let half := Nat.div2 size in
        y ← vget v (base + half);
        search_base fuel v x (if decide (x < y)%N then base else base + half) (size - half)
      else mret base
  end.

(** [slice::binary_search(&x).is_ok()] *)
Definition binary_search (v : list Id) (x : Id) : res bool :=
  match v with
  | [] => mret false
  | _ => base ← search_base (length v) v x 0 (length v); y ← vget v base; mret (bool_decide (y = x))
  end.

(** [Scc::contains] *)
Definition contains (nodes : list Id) (node : Id) : res bool := binary_search nodes node.

(** ** The explicit call stack *)

(** [SccFrame] *)
Record SccFrame : Type := mk_SccFrame { frame_node : Id; frame_start : nat; frame_cursor : nat }.

Section Components.
Context {G : Type} {HG : GraphView G}.

(** [is_cyclic_component], which [Scc::is_cyclic] calls *)
Definition is_cyclic_component (g : G) (nodes : list Id) : res bool :=
  match nodes with
  | [node] => succ ← gv_successors g node; mret (bool_decide (node ∈ succ))
  | _ => mret true
  end.

(** The short-circuiting [all] of [is_dag] *)
Fixpoint all_acyclic (g : G) (cs : list (list Id)) : res bool :=
  match cs with
  | [] => mret true
  | c :: cs => cyclic ← is_cyclic_component g c;
               if (cyclic : bool) then mret false else all_acyclic g cs
  end.

(** [SccDecomposition::is_dag] *)
Definition is_dag (dec : SccDecomposition) (g : G) : res bool :=
  cs ← components dec; all_acyclic g cs.

(** [enter]; the head of [calls] is the innermost frame. *)
Definition enter (g : G) (node : Id) (arena : list Id) (calls : list SccFrame)
    : res (list Id * list SccFrame) :=
  succ ← gv_successors g node;
  mret (arena ++ succ, mk_SccFrame node (length arena) (length arena) :: calls).

(** [frame.cursor += 1] on the innermost frame *)
Definition advance_frame (frame : SccFrame) : SccFrame :=
  mk_SccFrame (frame_node frame) (frame_start frame) (frame_cursor frame + 1).

(** ** Tarjan *)

(** The locals of [tarjan_scc]. *)
Record Tarjan : Type := mk_Tarjan {
  next_index : nat;
  tj_stack : list Id;
  on_stack : list bool;
  indices : list (option nat);
  lowlinks : list nat;
  tj_result : SccDecomposition;
  tj_arena : list Id;
  tj_calls : list SccFrame;
}.

(** Numbering an unvisited node, pushing it and entering it *)
Definition discover (g : G) (t : Tarjan) (node : Id) : res Tarjan :=
  indices' ← vset (indices t) (index node) (Some (next_index t));
  lowlinks' ← vset (lowlinks t) (index node) (next_index t);
  on_stack' ← vset (on_stack t) (index node) true;
  '(arena', calls') ← enter g node (tj_arena t) (tj_calls t);
  mret (mk_Tarjan (S (next_index t)) (node :: tj_stack t) on_stack' indices' lowlinks' (tj_result t) arena' calls').

(** [lowlinks\[node\] = lowlinks\[node\].min(value)] *)
Definition lower (lowlinks : list nat) (node : Id) (value : nat) : res (list nat) :=
  old ← vget lowlinks (index node); vset lowlinks (index node) (Nat.min old value).

(** [while let Some(member) = stack.pop()]: the members down to [root] *)
Fixpoint pop_component (stack : list Id) (on_stack : list bool) (result : SccDecomposition)
    (component_index : nat) (root : Id) : res (list Id * list bool * SccDecomposition) :=
  match stack with
  | [] => mret ([], on_stack, result)
  | member :: stack =>
      on_stack' ← vset on_stack (index member) false;
      result' ← set_component result member component_index;
      let result'' := push_node result' member in
      if decide (member = root) then mret (stack, on_stack', result'')
      else pop_component stack on_stack' result'' component_index root
  end.

(** One more successor of the innermost frame *)
Definition tarjan_edge (g : G) (t : Tarjan) (frame : SccFrame) (rest : list SccFrame) : res Tarjan :=
  successor ← vget (tj_arena t) (frame_cursor frame);
  let t := mk_Tarjan (next_index t) (tj_stack t) (on_stack t) (indices t) (lowlinks t) (tj_result t)
             (tj_arena t) (advance_frame frame :: rest) in
  entry ← vget (indices t) (index successor);
  match entry with
  | None => discover g t successor
  | Some i =>
      on ← vget (on_stack t) (index successor);
      if (on : bool) then
        lowlinks' ← lower (lowlinks t) (frame_node frame) i;
        mret (mk_Tarjan (next_index t) (tj_stack t) (on_stack t) (indices t) lowlinks' (tj_result t)
                (tj_arena t) (tj_calls t))
      else mret t
  end.

(** The innermost frame has no successor left *)
Definition tarjan_finish (t : Tarjan) (frame : SccFrame) (rest : list SccFrame) : res Tarjan :=
  low ← vget (lowlinks t) (index (frame_node frame));
  entry ← vget (indices t) (index (frame_node frame));
  '(stack', on_stack', result') ←
    (if decide (Some low = entry) then
       '(st, on, dec) ← pop_component (tj_stack t) (on_stack t) (tj_result t) (len (tj_result t)) (frame_node frame);
       dec' ← close_component dec;
       mret (st, on, dec')
     else mret (tj_stack t, on_stack t, tj_result t));
  lowlinks' ←
    match rest with
    | parent :: _ => lower (lowlinks t) (frame_node parent) low
    | [] => mret (lowlinks t)
    end;
  mret (mk_Tarjan (next_index t) stack' on_stack' (indices t) lowlinks' result'
          (take (frame_start frame) (tj_arena t)) rest).

(** [while let Some(frame) = calls.last_mut()] *)
Fixpoint tarjan_loop (fuel : nat) (g : G) (t : Tarjan) : res Tarjan :=
  match fuel with
  | 0 => Stuck
  | S fuel =>
      match tj_calls t with
      | [] => mret t
      | frame :: rest =>
          t' ← (if decide (frame_cursor frame < length (tj_arena t)) then tarjan_edge g t frame rest
                else tarjan_finish t frame rest);
          tarjan_loop fuel g t'
      end
  end.

(** The successors of all nodes, and the nodes: the steps all frames take. *)
Definition frame_steps (g : G) : nat :=
  match gv_node_ids g with
  | Ok ns => sum_list_with (λ n, S (match gv_successors g n with Ok l => length l | _ => 0 end)) ns
  | _ => 0
  end.

(** One start of the outer loop *)
Definition tarjan_from (g : G) (t : Tarjan) (start : Id) : res Tarjan :=
  entry ← vget (indices t) (index start);
  match entry with
  | Some _ => mret t
  | None => t' ← discover g t start; tarjan_loop (S (frame_steps g)) g t'
  end.

(** [tarjan_scc] *)
Definition tarjan_scc (g : G) : res SccDecomposition :=
  let node_count := gv_node_bound g in
  starts ← gv_node_ids g;
  t ← rfold (tarjan_from g)
        (mk_Tarjan 0 [] (replicate node_count false) (replicate node_count None)
           (replicate node_count 0) (with_node_bound node_count) [] []) starts;
  mret (tj_result t).

(** ** Kosaraju *)

(** The first pass: finish order of a depth-first walk of every node *)
Fixpoint finish_loop (fuel : nat) (g : G) (visited : list bool) (finish_order arena : list Id)
    (calls : list SccFrame) : res (list bool * list Id * list Id) :=
  match fuel with
  | 0 => Stuck
  | S fuel =>
      match calls with
      | [] => mret (visited, finish_order, arena)
      | frame :: rest =>
          if decide (frame_cursor frame < length arena) then
            successor ← vget arena (frame_cursor frame);
            v ← vget visited (index successor);
            if (v : bool) then finish_loop fuel g visited finish_order arena (advance_frame frame :: rest)
            else
              visited' ← vset visited (index successor) true;
              '(arena', calls') ← enter g successor arena (advance_frame frame :: rest);
              finish_loop fuel g visited' finish_order arena' calls'
          else finish_loop fuel g visited (finish_order ++ [frame_node frame]) (take (frame_start frame) arena) rest
      end
  end.

Definition finish_from (g : G) (st : list bool * list Id * list Id) (start : Id)
    : res (list bool * list Id * list Id) :=
  let '(visited, finish_order, arena) := st in
  v ← vget visited (index start);
  if (v : bool) then mret (visited, finish_order, arena)
  else
    visited' ← vset visited (index start) true;
    '(arena', calls') ← enter g start arena [];
    finish_loop (S (frame_steps g)) g visited' finish_order arena' calls'.

Definition finish_walk (g : G) (starts : list Id) : res (list Id) :=
  '(_, finish_order, _) ← rfold (finish_from g) (replicate (gv_node_bound g) false, [], []) starts;
  mret finish_order.

(** Assigning an unassigned predecessor to the component and pushing it *)
Definition claim (component : nat) (st : SccDecomposition * list Id) (predecessor : Id)
    : res (SccDecomposition * list Id) :=
  let '(dec, stack) := st in
  entry ← vget (component_of dec) (index predecessor);
  match entry with
  | None => dec' ← set_component dec predecessor component; mret (dec', predecessor :: stack)
  | Some _ => mret (dec, stack)
  end.

(** Flooding the predecessors of the stack that are in no component yet *)
Fixpoint flood_loop (fuel : nat) (g : G) (component : nat) (dec : SccDecomposition) (stack : list Id)
    : res SccDecomposition :=
  match fuel with
  | 0 => Stuck
  | S fuel =>
      match stack with
      | [] => mret dec
      | node :: stack =>
          predecessors ← gv_predecessors g node;
          '(dec', stack') ← rfold (claim component) (push_node dec node, stack) predecessors;
          flood_loop fuel g component dec' stack'
      end
  end.

(** The second pass, one root *)
Definition gather (g : G) (dec : SccDecomposition) (root : Id) : res SccDecomposition :=
  entry ← vget (component_of dec) (index root);
  match entry with
  | Some _ => mret dec
  | None =>
      let index := len dec in
      dec1 ← set_component dec root index;
      dec2 ← flood_loop (S (gv_node_bound g)) g index dec1 [root];
      close_component dec2
  end.

(** [kosaraju_scc] *)
Definition kosaraju_scc (g : G) : res SccDecomposition :=
  starts ← gv_node_ids g;
  finish_order ← finish_walk g starts;
  rfold (gather g) (with_node_bound (gv_node_bound g)) (rev finish_order).

(** ** Condensation *)

(** [for_each_component_edge]; [wired] is the set of pairs reported, [on_edge]
    the callback, which threads the state [A]. *)
Definition for_each_component_edge {A} (g : G) (dec : SccDecomposition)
    (on_edge : A → nat → nat → res A) (a : A) : res A :=
  ns ← gv_node_ids g;
  '(_, a) ← rfold (λ '(wired, a) node,
      from ← component_index dec node;
      succ ← gv_successors g node;
      rfold (λ '(wired, a) successor,
          to ← component_index dec successor;
          if decide (from ≠ to ∧ (from, to) ∉ (wired : gset (nat * nat)))
          then a ← on_edge a from to; mret ({[(from, to)]} ∪ wired, a)
          else mret (wired, a)) (wired, a) succ)
    (∅, a) ns;
  mret a.

(** The nodes of a condensation, in component order, and their identities *)
Definition add_nodes {NP} (payloads : list NP) : res (Graph NP unit * list Id) :=
  rfold (λ '(h, ids) p, '(h', i) ← add_node h p; mret (h', ids ++ [i])) (tagged, []) payloads.

(** [condensation] *)
Definition condensation (g : G) : res (Graph (list Id) unit) :=
  dec ← tarjan_scc g;
  cs ← components dec;
  '(condensed, ids) ← add_nodes cs;
  for_each_component_edge g dec (λ h from to,
    s ← vget ids from; t ← vget ids to; '(h', _) ← add_edge h s t (); mret h') condensed.

(** [condensation_of] *)
Definition condensation_of (g : G) (dec : SccDecomposition) : res (Graph unit unit) :=
  _ ← rassert (bool_decide (length (component_of dec) = gv_node_bound g))
        "condensation_of takes the decomposition OF this graph";
  '(condensed, _) ← add_nodes (replicate (len dec) ());
  for_each_component_edge g dec (λ h from to,
    s ← from_index from; t ← from_index to; '(h', _) ← add_edge h s t (); mret h') condensed.

End Components.
