(* ===== verification/SccKosaraju.v ===== *)
(** * The component arrays and one decomposition

    What the arrays of [SccDecomposition] represent: a list of closed
    components, the nodes of the one being collected, and the component each
    node was given. The stack of frames over the shared arena represents a
    list of nodes with the successors each has read and has still to read. The
    two passes of [kosaraju_scc] are proved over them. *)

From S2P Require Import Prelude Ids View Chains Runs Store Traverse Scc.

(** ** The arrays *)

(** Where each component ends, from [a]. *)
Fixpoint ends (a : nat) (cs : list (list Id)) : list nat :=
  match cs with
  | [] => [a]
  | c :: cs => a :: ends (a + length c) cs
  end.

(** The components [cs] are closed, [cur] is pushed and the nodes of [claimed]
    are assigned to the component being collected. *)
Record dec_rep (bound : nat) (dec : SccDecomposition) (cs : list (list Id)) (cur claimed : list Id)
    : Prop := mk_dec_rep {
  dr_nodes : scc_nodes dec = concat cs ++ cur;
  dr_offsets : scc_offsets dec = ends 0 cs;
  dr_length : length (component_of dec) = bound;
  dr_entry : ∀ n i, index n < bound → component_of dec !! index n = Some (Some i) ↔
    (∃ C, cs !! i = Some C ∧ n ∈ C) ∨ (n ∈ claimed ∧ i = length cs);
}.

Lemma length_ends a cs : length (ends a cs) = S (length cs).
Proof. revert a. induction cs as [|c cs IH]; intros a; cbn; [done|]. by rewrite IH. Qed.

Lemma last_ends a cs : last (ends a cs) = Some (a + length (concat cs)).
Proof.
  revert a. induction cs as [|c cs IH]; intros a; cbn; [f_equal; lia|].
  rewrite last_cons, IH, length_app. f_equal. lia.
Qed.

Lemma ends_snoc a cs c :
  ends a (cs ++ [c]) = ends a cs ++ [a + length (concat cs) + length c].
Proof.
  revert a. induction cs as [|b cs IH]; intros a; cbn.
  - do 2 f_equal. lia.
  - rewrite IH, length_app. do 3 f_equal. lia.
Qed.

Lemma ends_lookup a cs i C :
  cs !! i = Some C →
  ∃ e, ends a cs !! i = Some (a + e) ∧ ends a cs !! S i = Some (a + e + length C) ∧
    e + length C ≤ length (concat cs) ∧ take (length C) (drop e (concat cs)) = C.
Proof.
  revert a i. induction cs as [|c cs IH]; intros a i Hi; [done|]. destruct i as [|i]; cbn in *.
  - injection Hi as ->. exists 0. split_and!.
    + f_equal; lia.
    + destruct cs; cbn; f_equal; lia.
    + rewrite length_app. lia.
    + by rewrite drop_0, take_app_length.
  - destruct (IH (a + length c) i Hi) as (e & H1 & H2 & H3 & H4). exists (length c + e).
    rewrite !(Nat.add_assoc a). split_and!; [exact H1|exact H2|rewrite length_app; lia|].
    by rewrite drop_app_add.
Qed.

Lemma concat_elem (cs : list (list Id)) n : n ∈ concat cs ↔ ∃ i C, cs !! i = Some C ∧ n ∈ C.
Proof.
  induction cs as [|c cs IH]; cbn.
  - split; [by intros ?%elem_of_nil|by intros (? & ? & ? & _)].
  - rewrite elem_of_app, IH. split.
    + intros [H|(i & C & H)]; [by exists 0, c|by exists (S i), C].
    + intros ([|i] & C & H & Hn); cbn in H; [injection H as ->; by left|right; eauto].
Qed.

Lemma vslice_component a cs i C pre :
  cs !! i = Some C → a = 0 →
  ∃ x y, ends a cs !! i = Some x ∧ ends a cs !! S i = Some y ∧ vslice (concat cs ++ pre) x y = Ok C.
Proof.
  intros Hi ->. destruct (ends_lookup 0 cs i C Hi) as (e & H1 & H2 & H3 & H4). cbn in H1, H2.
  exists e, (e + length C). split_and!; [done..|]. unfold vslice.
  rewrite decide_True by (rewrite length_app; lia). f_equal.
  rewrite <-H4 at 2. replace (e + length C - e) with (length C) by lia.
  rewrite drop_app_le by lia. rewrite take_app_le; [done|]. rewrite length_drop. lia.
Qed.

Section Rep.
Context (bound : nat).

Lemma dr_init : dec_rep bound (with_node_bound bound) [] [] [].
Proof.
  split; cbn; [done..|by rewrite length_replicate|]. intros n i Hn. rewrite lookup_replicate_2 by done.
  split; [done|]. intros [(C & ? & _)|[?%elem_of_nil _]]; done.
Qed.

Lemma dr_len dec cs cur cl : dec_rep bound dec cs cur cl → len dec = length cs.
Proof. intros H. unfold len. rewrite (dr_offsets _ _ _ _ _ H), length_ends. lia. Qed.

Lemma dr_set dec cs cur cl n :
  dec_rep bound dec cs cur cl → index n < bound → n ∉ concat cs →
  ∃ dec', set_component dec n (length cs) = Ok dec' ∧ dec_rep bound dec' cs cur (n :: cl).
Proof.
  intros [H1 H2 H3 H4] Hb Hn. unfold set_component. rewrite vset_lt by lia. rsimpl.
  eexists. split; [done|]. split; cbn; [done..|by rewrite length_insert|].
  intros m i Hm. destruct (decide (m = n)) as [->|Hne].
  - rewrite list_lookup_insert_eq by lia. split.
    + intros [= <-]. right. split; [left|done].
    + intros [(C & HC & Hin)|[_ ->]]; [|done]. destruct Hn. apply concat_elem. eauto.
  - rewrite list_lookup_insert_ne by (unfold index; intros ?%N2Nat.inj; congruence).
    rewrite H4 by done. rewrite elem_of_cons. naive_solver.
Qed.

Lemma dr_push dec cs cur cl n :
  dec_rep bound dec cs cur cl → dec_rep bound (push_node dec n) cs (cur ++ [n]) cl.
Proof. intros [H1 H2 H3 H4]. split; cbn; [|done..]. by rewrite H1, app_assoc. Qed.

Lemma dr_close dec cs cur cl :
  dec_rep bound dec cs cur cl → (∀ n, n ∈ cl ↔ n ∈ cur) →
  ∃ dec', close_component dec = Ok dec' ∧ dec_rep bound dec' (cs ++ [merge_sort N.le cur]) [] [].
Proof.
  intros [H1 H2 H3 H4] Hcl. unfold close_component. rewrite H2, last_ends. cbn [expect]. rsimpl.
  assert (Hs : (if decide (1 < length (scc_nodes dec) - (0 + length (concat cs)))
           then sort_from (0 + length (concat cs)) (scc_nodes dec) else scc_nodes dec)
          = concat cs ++ merge_sort N.le cur).
  { rewrite H1, length_app. case_decide as Hd.
    - unfold sort_from. cbn [Nat.add]. by rewrite take_app_length, drop_app_length.
    - destruct cur as [|x [|y cur]]; [done..|]. cbn in Hd. lia. }
  rewrite Hs. eexists. split; [done|]. split; cbn.
  - rewrite concat_app. cbn. by rewrite !app_nil_r.
  - rewrite ends_snoc. by rewrite length_app.
  - done.
  - intros n i Hn. rewrite H4, Hcl by done. rewrite elem_of_nil. split.
    + intros [(C & HC & Hin)|[Hin ->]]; left.
      * exists C. split; [by apply lookup_app_l_Some|done].
      * exists (merge_sort N.le cur). split; [by apply list_lookup_middle|].
        by rewrite merge_sort_Permutation.
    + intros [(C & HC & Hin)|[]]; [|done]. apply lookup_app_Some in HC as [HC|[Hi HC]]; [by left; eauto|].
      apply list_lookup_singleton_Some in HC as [Hi' <-]. rewrite merge_sort_Permutation in Hin.
      right. split; [done|lia].
Qed.

Lemma dr_unassigned dec cs cur cl n :
  dec_rep bound dec cs cur cl → index n < bound → n ∉ concat cs → n ∉ cl →
  vget (component_of dec) (index n) = Ok None.
Proof.
  intros [H1 H2 H3 H4] Hb Hn Hcl. apply vget_Ok.
  destruct (lookup_lt_is_Some_2 (component_of dec) (index n)) as [[i|] Hi]; [lia| |done].
  pose proof Hi as Hi'. apply H4 in Hi' as [(C & HC & Hin)|[? _]]; [|done|done].
  destruct Hn. apply concat_elem. eauto.
Qed.

Lemma dr_assigned dec cs cur cl n :
  dec_rep bound dec cs cur cl → index n < bound → n ∈ concat cs ∨ n ∈ cl →
  ∃ i, vget (component_of dec) (index n) = Ok (Some i).
Proof.
  intros [H1 H2 H3 H4] Hb [(i & C & H)%concat_elem|Hn].
  - exists i. apply vget_Ok, H4; [done|]. left. eauto.
  - exists (length cs). apply vget_Ok, H4; [done|]. by right.
Qed.

(** ** What the finished decomposition answers *)
Context (dec : SccDecomposition) (cs : list (list Id)) (Hrep : dec_rep bound dec cs [] []).

Lemma component_index_Ok n i :
  index n < bound → component_index dec n = Ok i ↔ ∃ C, cs !! i = Some C ∧ n ∈ C.
Proof using Hrep.
  intros Hb. unfold component_index. rewrite res_bind_Ok. setoid_rewrite vget_Ok. setoid_rewrite expect_Ok.
  split.
  - intros (? & Ha & ->). apply (dr_entry _ _ _ _ _ Hrep) in Ha as [?|[?%elem_of_nil _]]; done.
  - intros H. exists (Some i). split; [|done]. apply (dr_entry _ _ _ _ _ Hrep); [done|by left].
Qed.

Lemma component_Ok n i C :
  index n < bound → cs !! i = Some C → n ∈ C → component dec n = Ok C.
Proof using Hrep.
  intros Hb HC Hn. unfold component.
  rewrite (proj2 (component_index_Ok n i Hb)) by eauto. rsimpl.
  destruct (vslice_component 0 cs i C [] HC eq_refl) as (x & y & Hx & Hy & Hs).
  rewrite (dr_offsets _ _ _ _ _ Hrep), (vget_eq _ _ _ Hx). rsimpl.
  replace (i + 1) with (S i) by lia. rewrite (vget_eq _ _ _ Hy). rsimpl.
  by rewrite (dr_nodes _ _ _ _ _ Hrep).
Qed.

Lemma components_Ok : components dec = Ok cs.
Proof using Hrep.
  unfold components, windows2. rewrite (dr_offsets _ _ _ _ _ Hrep).
  assert (Htl : length (tail (ends 0 cs)) = length cs).
  { pose proof (length_ends 0 cs) as Hl. destruct (ends 0 cs); cbn in *; lia. }
  apply rmapM_eq.
  { rewrite length_zip_with, Htl, length_ends. lia. }
  intros i [a b] C Hi HC. apply lookup_zip_Some in Hi as [Ha Hb]. rewrite lookup_tail in Hb. cbn.
  destruct (vslice_component 0 cs i C [] HC eq_refl) as (x & y & Hx & Hy & Hs).
  rewrite (dr_nodes _ _ _ _ _ Hrep). congruence.
Qed.
End Rep.

(** ** Frames *)

(** A node with the successors read and still to read. *)
Record frame : Type := mk_frame { f_node : Id; f_read : list Id; f_rest : list Id }.

(** The frames and the arena represent a list of nodes being expanded. *)
Inductive frames_rep : list SccFrame → list Id → list frame → Prop :=
  | fr_nil : frames_rep [] [] []
  | fr_cons cs base fs n l1 l2 : frames_rep cs base fs →
      frames_rep (mk_SccFrame n (length base) (length base + length l1) :: cs) (base ++ l1 ++ l2)
        (mk_frame n l1 l2 :: fs).

Lemma enter_Ok {G} `{GraphView G} (g : G) s n arena calls fs :
  Views g s → n ∈ sh_nodes s → frames_rep calls arena fs →
  ∃ arena' calls', enter g n arena calls = Ok (arena', calls') ∧
    frames_rep calls' arena' (mk_frame n [] (sh_next s Outgoing n) :: fs).
Proof.
  intros HV Hn Hf. unfold enter. pose proof (vw_next (g := g) Outgoing n Hn) as Hs. cbn in Hs.
  rewrite Hs. rsimpl. do 2 eexists. split; [done|].
  pose proof (fr_cons _ _ _ n [] (sh_next s Outgoing n) Hf) as H'. cbn in H'.
  by rewrite Nat.add_0_r in H'.
Qed.

(** The innermost frame either has a successor at its cursor or has read all. *)
Lemma frames_rep_cons c cs arena fs :
  frames_rep (c :: cs) arena fs →
  ∃ n l1 l2 tl, fs = mk_frame n l1 l2 :: tl ∧ frame_node c = n ∧
    frames_rep cs (take (frame_start c) arena) tl ∧
    match l2 with
    | [] => ¬ frame_cursor c < length arena
    | x :: l2 => frame_cursor c < length arena ∧ vget arena (frame_cursor c) = Ok x ∧
        frames_rep (advance_frame c :: cs) arena (mk_frame n (l1 ++ [x]) l2 :: tl)
    end.
Proof.
  intros H. inversion H as [|? base ? n l1 l2 Hr]; subst. exists n, l1, l2, fs0. cbn.
  split_and!; [done|done|by rewrite take_app_length|].
  rewrite !length_app. destruct l2 as [|x l2]; [cbn; lia|]. split_and!; [cbn; lia| |].
  - apply vget_Ok. rewrite app_assoc. replace (length base + length l1) with (length (base ++ l1)) by apply length_app.
    by apply list_lookup_middle.
  - replace (base ++ l1 ++ x :: l2) with (base ++ (l1 ++ [x]) ++ l2) by (by rewrite <-!app_assoc).
    replace (advance_frame _) with (mk_SccFrame n (length base) (length base + length (l1 ++ [x])));
      [by constructor|]. unfold advance_frame. cbn. f_equal. rewrite length_app. cbn. lia.
Qed.

(** * Kosaraju's decomposition

    The first pass reports the postorder of a depth-first search of all nodes;
    in such an order a path that stays at or before its end can be walked
    back. The second pass floods predecessors from the latest-finished node
    left, and what it gathers is one strongly connected component. *)


(** ** Strongly connected components of a relation *)

Definition mutual {A} (R : A → A → Prop) (x y : A) : Prop := rtc R x y ∧ rtc R y x.

#[export] Instance mutual_equivalence {A} (R : A → A → Prop) : Equivalence (mutual R).
Proof.
  split.
  - by intros x.
  - intros x y []. by split.
  - intros x y z [] []. split; by etrans.
Qed.

(** The lists [cs] are components of [R], each sorted, and every initial run
    of them is closed under [R']. *)
Record sccs (R R' : Id → Id → Prop) (cs : list (list Id)) : Prop := mk_sccs {
  sc_class : ∀ C x y, C ∈ cs → x ∈ C → y ∈ C ↔ mutual R x y;
  sc_inhabited : ∀ C, C ∈ cs → C ≠ [];
  sc_nodup : NoDup (concat cs);
  sc_sorted : ∀ C, C ∈ cs → StronglySorted N.lt C;
  sc_closed : ∀ k x y, x ∈ concat (take k cs) → R' x y → y ∈ concat (take k cs);
}.

Lemma sorted_lt (l : list Id) : StronglySorted N.le l → NoDup l → StronglySorted N.lt l.
Proof.
  induction 1 as [|x l Hs IH Hx]; intros Hnd; [constructor|]. apply NoDup_cons in Hnd as [Hn Hnd].
  constructor; [auto|]. apply Forall_forall. intros y Hy. rewrite Forall_forall in Hx.
  pose proof (Hx y Hy). assert (x ≠ y) by (intros ->; done). lia.
Qed.

Lemma sccs_nil R R' : sccs R R' [].
Proof.
  split; [by intros ??? ?%elem_of_nil|by intros ? ?%elem_of_nil|constructor|by intros ? ?%elem_of_nil|].
  intros k x y. rewrite take_nil. by intros ?%elem_of_nil.
Qed.

Lemma sccs_all_closed R R' cs x y : sccs R R' cs → x ∈ concat cs → R' x y → y ∈ concat cs.
Proof. intros H. rewrite <-(firstn_all cs). apply (sc_closed _ _ _ H). Qed.

(** One more component. *)
Lemma sccs_snoc R R' cs cur :
  sccs R R' cs → cur ≠ [] → NoDup cur → (∀ x, x ∈ cur → x ∉ concat cs) →
  (∀ x y, x ∈ cur → y ∈ cur ↔ mutual R x y) →
  (∀ x y, x ∈ cur → R' x y → y ∈ concat cs ∨ y ∈ cur) →
  sccs R R' (cs ++ [merge_sort N.le cur]).
Proof.
  intros Hcs Hne Hnd Hnew Hclass Hout. pose proof (merge_sort_Permutation N.le cur) as Hp.
  split.
  - intros C x y [HC| ->%list_elem_of_singleton]%elem_of_app; [by apply (sc_class _ _ _ Hcs)|].
    rewrite Hp. apply Hclass.
  - intros C [HC| ->%list_elem_of_singleton]%elem_of_app; [by apply (sc_inhabited _ _ _ Hcs)|].
    intros He. rewrite He in Hp. by apply Permutation_nil_l in Hp.
  - rewrite concat_app. cbn. rewrite app_nil_r, Hp. apply NoDup_app.
    split_and!; [apply Hcs| |done]. intros x Hx Hc. by apply (Hnew x).
  - intros C [HC| ->%list_elem_of_singleton]%elem_of_app; [by apply (sc_sorted _ _ _ Hcs)|].
    apply sorted_lt; [|by rewrite Hp]. apply StronglySorted_merge_sort; [typeclasses eauto|].
    intros ??. lia.
  - intros k x y. destruct (decide (k ≤ length cs)) as [Hk|Hk].
    + rewrite take_app_le by lia. apply (sc_closed _ _ _ Hcs).
    + rewrite !take_ge by (rewrite length_app; cbn; lia). rewrite concat_app. cbn.
      rewrite app_nil_r, !elem_of_app, !Hp. intros [Hx|Hx] HR; [left; by eapply sccs_all_closed|].
      by apply (Hout x).
Qed.

(** ** Postorder *)

Section Postorder.
Context (next : Id → list Id).
Abbreviation R := (edge_to next).

(** A path that ends in [K] never was in [A] when no edge leads from [A] to [K]. *)
Lemma path_avoids (A K : list Id) x y :
  (∀ u v, u ∈ A → R u v → v ∉ K) → y ∈ K → x ∈ A ∨ x ∈ K →
  rtc (λ u v, (v ∈ A ∨ v ∈ K) ∧ R u v) x y → x ∈ K ∧ rtc (λ u v, v ∈ K ∧ R u v) x y.
Proof.
  intros HA Hy Hx Hp. induction Hp as [y|x z y [Hz Hxz] Hp IH]; [by destruct Hx|].
  destruct (IH Hy Hz) as [Hz' Hp']. destruct Hx as [Hx|Hx]; [by destruct (HA x z)|].
  split; [done|by eapply rtc_l].
Qed.

(** In postorder, a path whose nodes all come at or before its end leads back
    to its start. *)
Lemma postorder_inside V l o V' :
  postorder next V l o V' → ∀ a y b x, o = a ++ y :: b → x ∈ a ++ [y] →
  rtc (λ u v, v ∈ a ++ [y] ∧ R u v) x y → rtc R y x.
Proof.
  induction 1 as [V|V n l o V' Hn H IH|V n l o1 o2 V1 V' Hn H1 IH1 H2 IH2]; intros a y b x Ho Hx Hp.
  - by destruct a.
  - by eapply IH.
  - destruct (postorder_facts _ _ _ _ _ H1) as [Hs1 _ Hnew1 Hfrom1 Hstart1 Hclosed1].
    destruct (postorder_facts _ _ _ _ _ H2) as [_ _ Hnew2 _ _ _].
    apply app_eq_inv in Ho as [(k & Ho1 & Hk)|(k & Ha & Hk)].
    + destruct k as [|w k]; cbn in Hk; injection Hk as -> ->; [|by apply (IH1 a w k x)].
      rewrite app_nil_r in Ho1. subst a.
      apply elem_of_app in Hx as [Hx| ->%list_elem_of_singleton]; [|done].
      destruct (Hfrom1 x Hx) as (m & Hm & Hr). by eapply rtc_l.
    + destruct k as [|w k]; cbn in Hk; injection Hk as <- Hb; subst.
      { rewrite app_nil_r in Hx. apply elem_of_app in Hx as [Hx| ->%list_elem_of_singleton]; [|done].
        destruct (Hfrom1 x Hx) as (m & Hm & Hr). by eapply rtc_l. }
      destruct (path_avoids (o1 ++ [n]) (k ++ [y]) x y) as [Hx' Hp'];
        [| set_solver | set_solver | | by apply (IH2 k y b x)].
      * intros u v Hu Huv Hv. assert (Hv2 : v ∈ k ++ y :: b) by set_solver.
        apply (Hnew2 v Hv2). apply elem_of_app in Hu as [Hu| ->%list_elem_of_singleton]; [|by apply Hstart1].
        by apply (Hclosed1 u).
      * eapply rtc_subrel; [|exact Hp]. intros u v [Hv Huv]. split; [set_solver|done].
Qed.

(** Frames still to be finished. *)
Inductive fstack : gset Id → list frame → list Id → gset Id → Prop :=
  | fs_nil V : fstack V [] [] V
  | fs_cons V n l1 l2 fs o1 o2 V1 V' : postorder next V l2 o1 V1 → fstack V1 fs o2 V' →
      fstack V (mk_frame n l1 l2 :: fs) (o1 ++ n :: o2) V'.

End Postorder.

(** ** The loops over a view *)

Section Kosaraju.
Context {G : Type} {HG : GraphView G} (g : G) (s : shape) (HV : Views g s).
Abbreviation succs := (sh_next s Outgoing).
Abbreviation preds := (sh_next s Incoming).
Abbreviation weight := (λ n, S (length (succs n))).

(** The steps the frames still have to take. *)
Definition frames_left (fs : list frame) : nat := sum_list_with (λ f, S (length (f_rest f))) fs.

(** The frames expand nodes of the view. *)
Definition frames_live (fs : list frame) : Prop :=
  ∀ f, f ∈ fs → f_node f ∈ sh_nodes s ∧ ∀ m, m ∈ f_rest f → m ∈ sh_nodes s.

Lemma frames_live_enter n fs :
  n ∈ sh_nodes s → frames_live fs → frames_live (mk_frame n [] (succs n) :: fs).
Proof.
  intros Hn Hl f [->|Hf]%elem_of_cons; [|by apply Hl]. split; [done|]. intros m. cbn.
  by apply (nodes_next g s HV).
Qed.

Lemma frames_live_read n l1 l1' x l2 fs :
  frames_live (mk_frame n l1 (x :: l2) :: fs) →
  n ∈ sh_nodes s ∧ x ∈ sh_nodes s ∧ frames_live (mk_frame n l1' l2 :: fs) ∧ frames_live fs.
Proof.
  intros Hl. destruct (Hl _ (list_elem_of_here _ _)) as [Hn Hx]. cbn in Hn, Hx.
  split_and!; [done|set_solver| |intros f Hf; apply Hl; by right].
  intros f [->|Hf]%elem_of_cons; [|apply Hl; by right]. cbn. split; [done|set_solver].
Qed.

Lemma frame_steps_eq : frame_steps g = sum_list_with weight (sh_nodes s).
Proof.
  unfold frame_steps. rewrite (vw_nodes (g := g) (s := s)).
  assert (Hin : sh_nodes s ⊆ sh_nodes s) by done. revert Hin. generalize (sh_nodes s) at 1 3 4 as l.
  induction l as [|n l IH]; intros Hl; [done|]. cbn. rewrite IH by set_solver.
  pose proof (vw_next (g := g) Outgoing n) as Hn. cbn in Hn. by rewrite Hn by set_solver.
Qed.

Lemma finish_loop_spec fuel visited order arena calls fs V :
  marked visited (sh_bound s) V → frames_rep calls arena fs → frames_live fs →
  pending weight (sh_nodes s) V + frames_left fs < fuel →
  ∃ visited' o V', finish_loop fuel g visited order arena calls = Ok (visited', order ++ o, []) ∧
    marked visited' (sh_bound s) V' ∧ fstack succs V fs o V'.
Proof.
  revert visited order arena calls fs V.
  induction fuel as [|fuel IH]; intros visited order arena calls fs V Hm Hf Hl Hfuel; [lia|].
  cbn [finish_loop]. destruct calls as [|c calls].
  { inversion Hf; subst. exists visited, [], V. rewrite app_nil_r. split_and!; [done..|constructor]. }
  apply frames_rep_cons in Hf as (n & l1 & l2 & tl & -> & Hc & Htl & Hf). destruct l2 as [|x l2].
  - rewrite decide_False by done. rewrite Hc.
    destruct (IH visited (order ++ [n]) (take (frame_start c) arena) calls tl V)
      as (v' & o & V' & -> & Hm' & Hs); [done..| |unfold frames_left in *; cbn in *; lia|].
    { intros f Hin. apply Hl. by right. }
    exists v', (n :: o), V'. split_and!; [by rewrite <-app_assoc|done|].
    apply (fs_cons _ _ _ _ _ _ [] _ V); [constructor|done].
  - destruct Hf as (Hlt & -> & Hf). rewrite decide_True by done. rsimpl.
    destruct (frames_live_read _ _ (l1 ++ [x]) _ _ _ Hl) as (Hn & Hx & Hl' & _).
    pose proof (nodes_bound g s HV x Hx) as Hb.
    rewrite (marked_get _ _ _ _ Hm Hb). rsimpl. destruct (bool_decide_reflect (x ∈ V)) as [HxV|HxV].
    + destruct (IH visited order arena (advance_frame c :: calls) (mk_frame n (l1 ++ [x]) l2 :: tl) V)
        as (v' & o & V' & -> & Hm' & Hs); [done..|cbn in *; lia|].
      exists v', o, V'. split_and!; [done..|]. inversion Hs; subst.
      econstructor; [|done]. by apply post_skip.
    + destruct (marked_set _ _ _ _ Hm Hb) as [-> Hm']. rsimpl.
      destruct (enter_Ok g s x _ _ _ HV Hx Hf) as (arena' & calls' & -> & Hf'). rsimpl.
      destruct (IH (<[index x:=true]> visited) order arena' calls'
        (mk_frame x [] (succs x) :: mk_frame n (l1 ++ [x]) l2 :: tl) ({[x]} ∪ V))
        as (v' & o & V' & -> & Hm'' & Hs); [done|done|by apply frames_live_enter| |].
      { rewrite (pending_visit _ _ V x (nodes_nodup g s HV) Hx HxV) in Hfuel. unfold frames_left in *. cbn in *. lia. }
      exists v', o, V'. split_and!; [done..|]. inversion Hs as [|? ? ? ? ? o1 o2 W ? Hp1 Hs2]; subst.
      inversion Hs2 as [|? ? ? ? ? p1 p2 W2 ? Hp2 Hs3]; subst.
      rewrite app_comm_cons, app_assoc. econstructor; [|done]. by econstructor.
Qed.

Lemma finish_walk_spec starts :
  (∀ n, n ∈ starts → n ∈ sh_nodes s) →
  ∃ o V, finish_walk g starts = Ok o ∧ postorder succs ∅ starts o V.
Proof.
  intros Hst. unfold finish_walk. rewrite (vw_bound (g := g) (s := s)).
  cut (∀ l visited order V, (∀ n, n ∈ l → n ∈ sh_nodes s) → marked visited (sh_bound s) V →
    ∃ v' o V', rfold (finish_from g) (visited, order, []) l
      = Ok (v', order ++ o, []) ∧ postorder succs V l o V').
  { intros H. destruct (H starts (replicate (sh_bound s) false) [] ∅) as (v' & o & V' & -> & Hp);
      [done|apply marked_empty|]. by exists o, V'. }
  clear Hst. induction l as [|n l IH]; intros visited order V Hl Hm.
  { exists visited, [], V. rewrite app_nil_r. split; [done|constructor]. }
  cbn [rfold finish_from]. assert (Hn : n ∈ sh_nodes s) by (apply Hl; left). pose proof (nodes_bound g s HV n Hn) as Hb.
  rewrite (marked_get _ _ _ _ Hm Hb). rsimpl. destruct (bool_decide_reflect (n ∈ V)) as [HnV|HnV].
  { rsimpl. destruct (IH visited order V) as (v' & o & V' & -> & Hp); [set_solver|done|].
    exists v', o, V'. split; [done|]. by constructor. }
  destruct (marked_set _ _ _ _ Hm Hb) as [-> Hm']. rsimpl.
  destruct (enter_Ok g s n [] [] [] HV Hn fr_nil) as (arena' & calls' & -> & Hf). rsimpl.
  destruct (finish_loop_spec (S (frame_steps g)) (<[index n:=true]> visited) order arena' calls'
    [mk_frame n [] (succs n)] ({[n]} ∪ V)) as (v' & o & V' & -> & Hm'' & Hs); [done|done| | |].
  { apply frames_live_enter; [done|]. by intros f ?%elem_of_nil. }
  { rewrite frame_steps_eq, <-(pending_empty weight).
    pose proof (pending_le weight (sh_nodes s) V) as Hle.
    rewrite (pending_visit _ _ V n (nodes_nodup g s HV) Hn HnV) in Hle. unfold frames_left. cbn in *. lia. }
  rsimpl. destruct (IH v' (order ++ o) V') as (v'' & o2 & V'' & -> & Hp); [set_solver|done|].
  inversion Hs as [|? ? ? ? ? o1 q W ? Hp1 Hs2]; subst. inversion Hs2; subst.
  exists v'', (o1 ++ n :: o2), V''. split; [by rewrite <-!app_assoc|]. by econstructor.
Qed.

(** ** Flooding *)

Lemma claim_fold cs cur l dec st cl :
  dec_rep (sh_bound s) dec cs cur cl → (∀ y, y ∈ l → index y < sh_bound s) →
  ∃ dec' new, rfold (claim (length cs)) (dec, st) l = Ok (dec', new ++ st) ∧
    dec_rep (sh_bound s) dec' cs cur (new ++ cl) ∧ NoDup new ∧
    (∀ x, x ∈ new → x ∈ l ∧ x ∉ concat cs ∧ x ∉ cl) ∧
    ∀ y, y ∈ l → y ∈ concat cs ∨ y ∈ new ++ cl.
Proof.
  revert dec st cl. induction l as [|y l IH]; intros dec st cl Hd Hl; cbn [rfold].
  { exists dec, []. split_and!; [done|done|constructor|by intros ? ?%elem_of_nil|by intros ? ?%elem_of_nil]. }
  assert (Hb : index y < sh_bound s) by (apply Hl; left). cbn [claim].
  destruct (decide (y ∈ concat cs ∨ y ∈ cl)) as [Hy|Hy].
  - destruct (dr_assigned _ _ _ _ _ _ Hd Hb Hy) as [i ->]. rsimpl.
    destruct (IH dec st cl) as (dec' & new & -> & Hd' & Hnd & Hnew & Hcov); [done|set_solver|].
    exists dec', new. split_and!; [done..| |]; [set_solver|].
    intros z [->|Hz]%elem_of_cons; [set_solver|by apply Hcov].
  - rewrite (dr_unassigned _ _ _ _ _ _ Hd Hb) by tauto. rsimpl.
    destruct (dr_set _ _ _ _ _ y Hd Hb) as (dec1 & -> & Hd1); [tauto|]. rsimpl.
    destruct (IH dec1 (y :: st) (y :: cl)) as (dec' & new & -> & Hd' & Hnd & Hnew & Hcov); [done|set_solver|].
    exists dec', (new ++ [y]). rewrite <-!app_assoc. cbn. split_and!; [done|done| |set_solver|set_solver].
    apply NoDup_app. split_and!; [done| |apply NoDup_singleton].
    intros x Hx ->%list_elem_of_singleton. set_solver.
Qed.

(** The state of a flood from [r]. *)
Record flooding (cs : list (list Id)) (r : Id) (cur st cl : list Id) : Prop := mk_flooding {
  fl_claimed : ∀ x, x ∈ cl ↔ x ∈ cur ++ st;
  fl_nodup : NoDup (cur ++ st);
  fl_live : ∀ x, x ∈ cl → x ∈ sh_nodes s;
  fl_new : ∀ x, x ∈ cl → x ∉ concat cs;
  fl_reach : ∀ x, x ∈ cl → rtc (edge_to succs) x r;
  fl_closed : ∀ x y, x ∈ cur → y ∈ preds x → y ∈ concat cs ∨ y ∈ cl;
}.

Lemma pred_edge x y : x ∈ sh_nodes s → y ∈ preds x → y ∈ sh_nodes s ∧ edge_to succs y x.
Proof.
  intros Hx Hy. assert (Hyn : y ∈ sh_nodes s) by by apply (nodes_next g s HV Incoming x).
  split; [done|]. apply (mirror_elem s Incoming x y (vw_ok (g := g))); done.
Qed.

Lemma flood_loop_spec fuel cs r cur st cl dec :
  dec_rep (sh_bound s) dec cs cur cl → flooding cs r cur st cl → sh_bound s - length cur < fuel →
  ∃ dec' cur' cl', flood_loop fuel g (length cs) dec st = Ok dec' ∧
    dec_rep (sh_bound s) dec' cs cur' cl' ∧ flooding cs r cur' [] cl' ∧ (∀ x, x ∈ cl → x ∈ cl').
Proof.
  revert cur st cl dec. induction fuel as [|fuel IH]; intros cur st cl dec Hd Hf Hfuel; [lia|].
  cbn [flood_loop]. destruct st as [|n st]; [by exists dec, cur, cl|]. destruct Hf as [Hcl Hnd Hlive Hnew Hreach Hclosed].
  assert (Hncl : n ∈ cl) by (apply Hcl; set_solver). pose proof (Hlive n Hncl) as Hn.
  pose proof (vw_next (g := g) Incoming n Hn) as Hp. cbn in Hp. rewrite Hp. rsimpl.
  assert (Hlt : length (cur ++ n :: st) ≤ sh_bound s).
  { apply NoDup_index_length; [done|]. intros x Hx. apply (nodes_bound g s HV), Hlive, Hcl, Hx. }
  destruct (claim_fold cs (cur ++ [n]) (preds n) (push_node dec n) st cl)
    as (dec' & new & -> & Hd' & Hndn & Hfresh & Hcov); [by apply dr_push| |].
  { intros y [Hy _]%(pred_edge n y Hn). by apply (nodes_bound g s HV). }
  rsimpl. destruct (IH (cur ++ [n]) (new ++ st) (new ++ cl) dec' Hd') as (d & c & cl' & -> & Hd2 & Hf2 & Hsub).
  - split.
    + intros x. rewrite !elem_of_app, Hcl, elem_of_app, elem_of_cons, list_elem_of_singleton. tauto.
    + rewrite <-app_assoc. cbn. rewrite (Permutation_app_comm new st).
      replace (cur ++ n :: st ++ new) with ((cur ++ n :: st) ++ new) by (by rewrite <-app_assoc).
      apply NoDup_app. split_and!; [done| |done]. intros x Hx%Hcl Hxn. by apply Hfresh in Hxn as (_ & _ & ?).
    + intros x [Hx|Hx]%elem_of_app; [|by apply Hlive]. apply Hfresh in Hx as (Hx & _).
      by apply (pred_edge n x Hn).
    + intros x [Hx|Hx]%elem_of_app; [by apply Hfresh in Hx as (_ & ? & _)|by apply Hnew].
    + intros x [Hx|Hx]%elem_of_app; [|by apply Hreach]. apply Hfresh in Hx as (Hx & _).
      apply rtc_l with n; [by apply (pred_edge n x Hn)|by apply Hreach].
    + intros x y [Hx| ->%list_elem_of_singleton]%elem_of_app Hy; [|by apply Hcov].
      destruct (Hclosed x y Hx Hy); [by left|right; set_solver].
  - rewrite length_app in *. cbn in *. lia.
  - exists d, c, cl'. split_and!; [done..|]. set_solver.
Qed.

(** ** Both passes *)

Lemma postorder_all V starts o V' x :
  postorder succs V starts o V' → x ∈ starts → x ∈ V ∪ list_to_set o.
Proof. intros Hp Hx. destruct (postorder_facts _ _ _ _ _ Hp) as [<- _ _ _ Hs _]. by apply Hs. Qed.

Lemma reach_live d x y : rtc (edge_to (sh_next s d)) x y → x ∈ sh_nodes s → y ∈ sh_nodes s.
Proof. induction 1 as [|x y z Hxy Hr IH]; [done|]. intros Hx. by eapply IH, (nodes_next g s HV d x). Qed.

(** What reaches the root of a flood from outside the closed components is
    gathered, along a path of nodes that finished no later than the root. *)
Lemma walks_back cs (cur : list Id) r (F : list Id) x :
  (∀ y, y ∈ sh_nodes s → y ∉ concat cs → y ∈ F) → sccs (edge_to succs) (edge_to preds) cs →
  (∀ x y, x ∈ cur → y ∈ preds x → y ∈ concat cs ∨ y ∈ cur) →
  r ∈ sh_nodes s → r ∉ concat cs → r ∈ cur →
  x ∈ sh_nodes s → x ∉ concat cs → rtc (edge_to succs) x r →
  x ∈ cur ∧ rtc (λ u v, v ∈ F ∧ edge_to succs u v) x r.
Proof.
  intros HF Hcs Hclosed Hr Hrc Hrcur Hx Hxc Hxr. revert Hx Hxc.
  induction Hxr as [r|x y r Hxy Hyr IH]; intros Hx Hxc; [done|].
  assert (Hy : y ∈ sh_nodes s) by by apply (nodes_next g s HV Outgoing x).
  assert (Hpred : x ∈ preds y) by by apply (mirror_elem s Outgoing x y (vw_ok (g := g)) Hx Hy).
  assert (Hyc : y ∉ concat cs) by (intros Hyc; apply Hxc; by eapply sccs_all_closed).
  destruct (IH Hr Hrc Hrcur Hy Hyc) as [Hycur Hp]. split.
  - by destruct (Hclosed y x Hycur Hpred).
  - eapply rtc_l; [|exact Hp]. split; [by apply HF|done].
Qed.

Lemma gather_spec o V todo r don dec cs :
  postorder succs ∅ (sh_nodes s) o V → o = todo ++ r :: don → (∀ x, x ∈ o → x ∈ sh_nodes s) →
  (∀ x, x ∈ don → x ∈ concat cs) → (∀ x, x ∈ concat cs → x ∈ sh_nodes s) →
  dec_rep (sh_bound s) dec cs [] [] → sccs (edge_to succs) (edge_to preds) cs →
  ∃ dec' cs', gather g dec r = Ok dec' ∧ dec_rep (sh_bound s) dec' cs' [] [] ∧
    sccs (edge_to succs) (edge_to preds) cs' ∧ (∀ x, x ∈ concat cs' → x ∈ sh_nodes s) ∧
    ∀ x, x ∈ r :: don → x ∈ concat cs'.
Proof.
  intros Hp -> Ho Hdon Hlive Hd Hcs. assert (Hr : r ∈ sh_nodes s) by (apply Ho; set_solver).
  pose proof (nodes_bound g s HV r Hr) as Hb. unfold gather.
  destruct (decide (r ∈ concat cs)) as [Hin|Hin].
  { destruct (dr_assigned _ _ _ _ _ r Hd Hb) as [i ->]; [by left|]. rsimpl.
    exists dec, cs. split_and!; [done..|]. intros x [->|Hx]%elem_of_cons; auto. }
  rewrite (dr_unassigned _ _ _ _ _ r Hd Hb) by (done || by intros ?%elem_of_nil). rsimpl.
  rewrite (dr_len _ _ _ _ _ Hd).
  destruct (dr_set _ _ _ _ _ r Hd Hb Hin) as (dec1 & -> & Hd1). rsimpl.
  destruct (flood_loop_spec (S (gv_node_bound g)) cs r [] [r] [r] dec1 Hd1)
    as (dec2 & cur & cl & -> & Hd2 & [Hcl Hnd Hl Hnew Hreach Hclosed] & Hrcl).
  { split; [done|apply NoDup_singleton|set_solver|set_solver|set_solver|set_solver]. }
  { rewrite (vw_bound (g := g) (s := s)). lia. }
  rewrite app_nil_r in Hnd, Hcl. rsimpl.
  destruct (dr_close _ _ _ _ _ Hd2 Hcl) as (dec3 & -> & Hd3).
  exists dec3, (cs ++ [merge_sort N.le cur]). assert (Hr1 : r ∈ cur) by (apply Hcl, Hrcl; left).
  assert (HF : ∀ y, y ∈ sh_nodes s → y ∉ concat cs → y ∈ todo ++ [r]).
  { intros y Hy Hyc. pose proof (postorder_all _ _ _ _ y Hp Hy) as Hyo. specialize (Hdon y). set_solver. }
  pose proof (walks_back cs cur r (todo ++ [r])) as Hback.
  assert (Hout : ∀ x y, x ∈ cur → y ∈ preds x → y ∈ concat cs ∨ y ∈ cur).
  { intros x y Hx Hy. rewrite <-Hcl. by apply (Hclosed x). }
  assert (Hmut : ∀ x, x ∈ cur → mutual (edge_to succs) x r).
  { intros x Hx%Hcl. split; [by apply Hreach|].
    destruct (Hback x HF Hcs Hout Hr Hin Hr1 (Hl x Hx) (Hnew x Hx) (Hreach x Hx)) as [_ Hpath].
    eapply (postorder_inside succs); [exact Hp|done|by apply HF; auto|done]. }
  assert (Hcs' : sccs (edge_to succs) (edge_to preds) (cs ++ [merge_sort N.le cur])).
  { apply sccs_snoc; [done|by intros ->; set_solver|done| | |done].
    - intros x Hx. by apply Hnew, Hcl.
    - intros x y Hx. split; [intros Hy; etrans; [by apply Hmut|symmetry; by apply Hmut]|].
      intros Hxy. assert (Hyn : y ∈ sh_nodes s) by (eapply reach_live; [apply Hxy|]; by apply Hl, Hcl).
      apply (Hback y HF Hcs Hout Hr Hin Hr1 Hyn); [|etrans; [apply Hxy|by apply Hmut]].
      intros (j & C & HC & HyC)%concat_elem. apply (Hnew x); [by apply Hcl|].
      apply concat_elem. exists j, C. split; [done|].
      apply (sc_class _ _ _ Hcs C y x); [by eapply list_elem_of_lookup_2|done|by symmetry]. }
  split_and!; [done|done|done| |]; intros x; rewrite concat_app; cbn;
    rewrite app_nil_r, elem_of_app, merge_sort_Permutation.
  - intros [Hx|Hx]; [by apply Hlive|by apply Hl, Hcl].
  - intros [->|Hx]%elem_of_cons; [by right|left; by apply Hdon].
Qed.

(** [kosaraju_scc] finds the components, sources first. *)
Lemma kosaraju_spec :
  ∃ dec cs, kosaraju_scc g = Ok dec ∧ dec_rep (sh_bound s) dec cs [] [] ∧
    sccs (edge_to succs) (edge_to preds) cs ∧ ∀ x, x ∈ concat cs ↔ x ∈ sh_nodes s.
Proof.
  unfold kosaraju_scc. rewrite (vw_nodes (g := g) (s := s)). rsimpl.
  destruct (finish_walk_spec (sh_nodes s)) as (o & V & -> & Hp); [done|]. rsimpl.
  rewrite (vw_bound (g := g) (s := s)).
  assert (Ho : ∀ x, x ∈ o → x ∈ sh_nodes s).
  { intros x Hx. destruct (sf_from _ _ _ _ _ (postorder_facts _ _ _ _ _ Hp) x Hx) as (n & Hn & Hr).
    by eapply reach_live. }
  destruct (rfold_inv (λ don dec, ∃ cs, dec_rep (sh_bound s) dec cs [] [] ∧
      sccs (edge_to succs) (edge_to preds) cs ∧ (∀ x, x ∈ concat cs → x ∈ sh_nodes s) ∧
      ∀ x, x ∈ don → x ∈ concat cs) (gather g) (with_node_bound (sh_bound s)) (rev o))
    as (dec & Hrun & cs & Hd & Hcs & Hlive & Hcov).
  - exists []. split_and!; [apply dr_init|apply sccs_nil|by intros x ?%elem_of_nil|by intros x ?%elem_of_nil].
  - intros don r dec [rest Hrev] (cs & Hd & Hcs & Hlive & Hcov).
    assert (Hsplit : o = rev rest ++ r :: rev don).
    { rewrite <-(rev_involutive o), Hrev, !rev_app_distr. cbn. done. }
    destruct (gather_spec o V (rev rest) r (rev don) dec cs) as (dec' & cs' & Hg & Hd' & Hcs' & Hl' & Hc');
      [done..| |done|done|done|].
    { intros x Hx. apply Hcov. by rewrite <-(Permutation_rev don) in Hx. }
    exists dec'. split; [done|]. exists cs'. split_and!; [done..|]. intros x Hx. apply Hc'.
    rewrite (Permutation_rev don) in Hx. set_solver.
  - exists dec, cs. split_and!; [done..|]. intros x. split; [apply Hlive|]. intros Hx.
    pose proof (postorder_all _ _ _ _ x Hp Hx) as Hxo. apply Hcov. rewrite <-(Permutation_rev o). set_solver.
Qed.

End Kosaraju.
