(* ===== verification/SccTarjan.v ===== *)
(** * Tarjan's search, as a state machine

    The states and steps behind the loop of [tarjan_scc], without its tables,
    and the invariant that makes a popped run of the stack one strongly
    connected component. *)

From stdpp Require Import functions.
From S2P Require Import Prelude Ids View Chains Runs Store Traverse Scc SccKosaraju.

Section Machine.
Context (succs : Id → list Id) (live : list Id).
Abbreviation R := (edge_to succs).

(** What the tables say: the nodes numbered so far with their indices and
    low-links, the stack, the frames and the closed components. *)
Record machine : Type := mk_machine {
  m_next : nat;
  m_seen : gset Id;
  m_idx : Id → nat;
  m_low : Id → nat;
  m_stack : list Id;
  m_frames : list frame;
  m_comps : list (list Id);
}.

(** The nodes being expanded, innermost first. *)
Definition gray (M : machine) : list Id := f_node <$> m_frames M.

(** [M] with [c] numbered, pushed and entered, the frames below being [fs]. *)
Definition discovered (M : machine) (c : Id) (fs : list frame) : machine :=
  mk_machine (S (m_next M)) ({[c]} ∪ m_seen M) (<[c := m_next M]> (m_idx M)) (<[c := m_next M]> (m_low M))
    (c :: m_stack M) (mk_frame c [] (succs c) :: fs) (m_comps M).

Definition lowered (low : Id → nat) (n : Id) (v : nat) : Id → nat := <[n := Nat.min (low n) v]> low.

Definition lowered_parent (low : Id → nat) (fs : list frame) (v : nat) : Id → nat :=
  match fs with [] => low | p :: _ => lowered low (f_node p) v end.

Inductive tstep : machine → machine → Prop :=
  | ts_start M c : m_frames M = [] → c ∈ live → c ∉ m_seen M → tstep M (discovered M c [])
  | ts_discover M n l1 c l2 fs : m_frames M = mk_frame n l1 (c :: l2) :: fs → c ∉ m_seen M →
      tstep M (discovered M c (mk_frame n (l1 ++ [c]) l2 :: fs))
  | ts_revisit M n l1 c l2 fs : m_frames M = mk_frame n l1 (c :: l2) :: fs → c ∈ m_seen M →
      tstep M (mk_machine (m_next M) (m_seen M) (m_idx M)
        (if decide (c ∈ m_stack M) then lowered (m_low M) n (m_idx M c) else m_low M)
        (m_stack M) (mk_frame n (l1 ++ [c]) l2 :: fs) (m_comps M))
  | ts_retreat M n l1 fs : m_frames M = mk_frame n l1 [] :: fs → m_low M n ≠ m_idx M n →
      tstep M (mk_machine (m_next M) (m_seen M) (m_idx M) (lowered_parent (m_low M) fs (m_low M n))
        (m_stack M) fs (m_comps M))
  | ts_close M n l1 fs top st : m_frames M = mk_frame n l1 [] :: fs → m_low M n = m_idx M n →
      m_stack M = top ++ n :: st → n ∉ top →
      tstep M (mk_machine (m_next M) (m_seen M) (m_idx M) (lowered_parent (m_low M) fs (m_low M n))
        st fs (m_comps M ++ [merge_sort N.le (top ++ [n])])).

(** The edges the search has looked at. *)
Definition explored (M : machine) (x y : Id) : Prop :=
  x ∈ m_seen M ∧ y ∈ succs x ∧ ∀ f, f ∈ m_frames M → f_node f = x → y ∈ f_read f.

(** [g] is the innermost expanded node not numbered after [x]. *)
Definition owner (M : machine) (g x : Id) : Prop :=
  g ∈ gray M ∧ m_idx M g ≤ m_idx M x ∧ ∀ h, h ∈ gray M → m_idx M h ≤ m_idx M x → m_idx M h ≤ m_idx M g.

Record tinv (M : machine) : Prop := mk_tinv {
  ti_seen : ∀ x, x ∈ m_seen M ↔ x ∈ m_stack M ∨ x ∈ concat (m_comps M);
  ti_live : ∀ x, x ∈ m_seen M → x ∈ live;
  ti_idx : ∀ x, x ∈ m_seen M → m_idx M x < m_next M;
  ti_stack : StronglySorted (λ x y, m_idx M y < m_idx M x) (m_stack M);
  ti_frames : StronglySorted (λ x y, m_idx M y < m_idx M x) (gray M);
  ti_gray : ∀ g, g ∈ gray M → g ∈ m_stack M;
  ti_succs : ∀ f, f ∈ m_frames M → succs (f_node f) = f_read f ++ f_rest f;
  ti_explored : ∀ x y, explored M x y → y ∈ m_seen M;
  ti_disj : ∀ x, x ∈ m_stack M → x ∉ concat (m_comps M);
  ti_down : ∀ x, x ∈ m_stack M → ∃ g, g ∈ gray M ∧ m_idx M g ≤ m_idx M x ∧ rtc R x g;
  ti_up : ∀ g x, g ∈ gray M → x ∈ m_stack M → m_idx M g ≤ m_idx M x → rtc R g x;
  ti_low : ∀ g, g ∈ gray M → m_low M g ≤ m_idx M g ∧
    ∃ z, z ∈ m_stack M ∧ rtc R g z ∧ m_idx M z = m_low M g;
  ti_bound : ∀ g x y, owner M g x → x ∈ m_stack M → y ∈ m_stack M → explored M x y →
    m_low M g ≤ m_idx M y;
  ti_sccs : sccs R R (m_comps M);
}.

(** ** Numbering *)

Lemma sorted_desc_inj (f : Id → nat) (l : list Id) x y :
  StronglySorted (λ x y, f y < f x) l → x ∈ l → y ∈ l → f x = f y → x = y.
Proof.
  induction 1 as [|z l Hs IH Hz]; [by intros ?%elem_of_nil|]. rewrite Forall_forall in Hz.
  rewrite !elem_of_cons. intros [->|Hx] [->|Hy] He; [done| | |auto].
  - specialize (Hz y Hy). lia.
  - specialize (Hz x Hx). lia.
Qed.

Lemma sorted_desc_nodup (f : Id → nat) (l : list Id) : StronglySorted (λ x y, f y < f x) l → NoDup l.
Proof.
  induction 1 as [|x l Hs IH Hx]; constructor; [|done].
  rewrite Forall_forall in Hx. intros Hin%Hx. lia.
Qed.

Lemma sorted_desc_head (f : Id → nat) z (l : list Id) x :
  StronglySorted (λ x y, f y < f x) (z :: l) → x ∈ z :: l → f x ≤ f z.
Proof.
  intros [_ H]%StronglySorted_inv. rewrite Forall_forall in H.
  intros [->|Hx%H]%elem_of_cons; lia.
Qed.

Section Steps.
Context (M : machine) (HM : tinv M).

Lemma stack_seen x : x ∈ m_stack M → x ∈ m_seen M.
Proof. intros. apply (ti_seen _ HM). by left. Qed.

Lemma gray_seen x : x ∈ gray M → x ∈ m_seen M.
Proof. intros. by apply stack_seen, (ti_gray _ HM). Qed.

Lemma stack_inj x y : x ∈ m_stack M → y ∈ m_stack M → m_idx M x = m_idx M y → x = y.
Proof. apply sorted_desc_inj, (ti_stack _ HM). Qed.

(** Reading one successor: every frame but the innermost stays. *)
Lemma explored_read f' n l1 c l2 fs x y :
  m_frames M = mk_frame n l1 (c :: l2) :: fs → f' = mk_frame n (l1 ++ [c]) l2 →
  x ∈ m_seen M → y ∈ succs x → (∀ f, f ∈ f' :: fs → f_node f = x → y ∈ f_read f) →
  explored M x y ∨ x = n ∧ y = c.
Proof.
  intros Hfr -> Hx Hy Hf. destruct (decide (x = n ∧ y = c)) as [?|Hne]; [by right|]. left.
  split_and!; [done..|]. rewrite Hfr. intros f [->|Hin]%elem_of_cons Hn; [|apply Hf; [by right|done]].
  cbn in *. specialize (Hf _ (list_elem_of_here _ _) Hn). cbn in Hf. set_solver.
Qed.

Lemma top_gray n l1 l2 fs : m_frames M = mk_frame n l1 l2 :: fs → n ∈ gray M.
Proof. intros H. unfold gray. rewrite H. left. Qed.

Lemma top_max n l1 l2 fs g : m_frames M = mk_frame n l1 l2 :: fs → g ∈ gray M → m_idx M g ≤ m_idx M n.
Proof.
  intros H. pose proof (ti_frames _ HM) as Hs. unfold gray in *. rewrite H in *. cbn in *.
  by apply sorted_desc_head.
Qed.

Lemma owner_top n l1 l2 fs g x :
  m_frames M = mk_frame n l1 l2 :: fs → m_idx M n ≤ m_idx M x → owner M g x ↔ g = n.
Proof.
  intros H Hx. pose proof (top_gray _ _ _ _ H) as Hn. split.
  - intros (Hg & Hgx & Hmax). apply stack_inj; [by apply (ti_gray _ HM)..|].
    specialize (Hmax n Hn Hx). pose proof (top_max _ _ _ _ g H Hg). lia.
  - intros ->. split_and!; [done..|]. intros h Hh _. by eapply top_max.
Qed.

(** ** Steps keep the invariant *)

(** [fs0] before and [fs] after [c] is read by the innermost frame, if any. *)
Definition reads (fs0 fs : list frame) (c : Id) : Prop :=
  fs0 = [] ∧ fs = [] ∨ ∃ n l1 l2 tl, fs0 = mk_frame n l1 (c :: l2) :: tl ∧ fs = mk_frame n (l1 ++ [c]) l2 :: tl.

Lemma reads_nodes fs0 fs c : reads fs0 fs c → f_node <$> fs = f_node <$> fs0.
Proof. intros [[-> ->]|(n & l1 & l2 & tl & -> & ->)]; done. Qed.

Lemma reads_succs fs0 fs c :
  reads fs0 fs c → (∀ f, f ∈ fs0 → succs (f_node f) = f_read f ++ f_rest f) →
  ∀ f, f ∈ fs → succs (f_node f) = f_read f ++ f_rest f.
Proof.
  intros [[-> ->]|(n & l1 & l2 & tl & -> & ->)] H f; [by intros ?%elem_of_nil|].
  intros [->|Hf]%elem_of_cons; [|apply H; by right]. specialize (H _ (list_elem_of_here _ _)). cbn in *.
  by rewrite <-app_assoc.
Qed.

Lemma discovered_inv c fs :
  reads (m_frames M) fs c → c ∈ live → c ∉ m_seen M → tinv (discovered M c fs).
Proof.
  intros Hr Hc Hnew. pose proof (reads_nodes _ _ _ Hr) as Hnodes. set (M' := discovered M c fs).
  assert (Hgray : ∀ g, g ∈ gray M' ↔ g = c ∨ g ∈ gray M).
  { intros g. unfold gray, M'. cbn. by rewrite Hnodes, elem_of_cons. }
  assert (Hix : ∀ x, x ∈ m_seen M → m_idx M' x = m_idx M x ∧ m_low M' x = m_low M x).
  { intros x Hx. assert (c ≠ x) by (intros ->; done). cbn. by rewrite !fn_lookup_insert_ne. }
  assert (Hic : m_idx M' c = m_next M ∧ m_low M' c = m_next M) by (cbn; by rewrite !fn_lookup_insert).
  destruct Hic as [Hic Hlc].
  assert (Hst : ∀ x, x ∈ m_stack M' ↔ x = c ∨ x ∈ m_stack M) by (intros x; cbn; by rewrite elem_of_cons).
  assert (Hexp : ∀ x y, explored M' x y → x ∈ m_seen M ∧ (explored M x y ∨ y = c)).
  { intros x y (Hx & Hy & Hf). cbn in Hx, Hf. assert (x ≠ c).
    { intros ->. specialize (Hf _ (list_elem_of_here _ _) eq_refl). cbn in Hf. by apply elem_of_nil in Hf. }
    split; [set_solver|]. destruct (decide (y = c)) as [->|Hyc]; [by right|]. left.
    split_and!; [set_solver|done|]. destruct Hr as [[-> ->]|(n & l1 & l2 & tl & -> & ->)].
    - by intros f ?%elem_of_nil.
    - intros f [->|Hin]%elem_of_cons Hn; [|apply Hf; [by do 2 right|done]].
      specialize (Hf _ (list_elem_of_further _ _ _ (list_elem_of_here _ _)) Hn). cbn in *. set_solver. }
  assert (Hto : ∀ g, g ∈ gray M → rtc R g c).
  { intros g Hg. destruct Hr as [[H0 _]|(n & l1 & l2 & tl & H0 & _)].
    { unfold gray in Hg. rewrite H0 in Hg. by apply elem_of_nil in Hg. }
    pose proof (ti_succs _ HM (mk_frame n l1 (c :: l2))) as Hs. rewrite H0 in Hs. cbn in Hs.
    apply rtc_r with n; [|unfold edge_to; rewrite Hs; set_solver].
    apply (ti_up _ HM); [done|by eapply (ti_gray _ HM), top_gray|by eapply top_max]. }
  assert (Hsame : ∀ l, (∀ x, x ∈ l → x ∈ m_seen M) → StronglySorted (λ x y, m_idx M y < m_idx M x) l →
            StronglySorted (λ x y, m_idx M' y < m_idx M' x) (c :: l)).
  { intros l Hl Hs. constructor.
    - eapply StronglySorted_impl_in; [|exact Hs]. intros x y Hx Hy. by rewrite (proj1 (Hix x (Hl x Hx))), (proj1 (Hix y (Hl y Hy))).
    - apply Forall_forall. intros x Hx. rewrite Hic, (proj1 (Hix x (Hl x Hx))). by apply (ti_idx _ HM), Hl. }
  split.
  - intros x. rewrite Hst. cbn. pose proof (ti_seen _ HM x). set_solver.
  - intros x [->%elem_of_singleton|Hx]%elem_of_union; [done|by apply (ti_live _ HM)].
  - intros x [->%elem_of_singleton|Hx]%elem_of_union; [rewrite Hic; cbn; lia|].
    rewrite (proj1 (Hix x Hx)). cbn. apply (ti_idx _ HM) in Hx. lia.
  - apply Hsame; [apply stack_seen|apply (ti_stack _ HM)].
  - unfold gray, M'. cbn. rewrite Hnodes. apply Hsame; [apply gray_seen|apply (ti_frames _ HM)].
  - intros g. rewrite Hgray, Hst. intros [->|Hg]; [by left|right; by apply (ti_gray _ HM)].
  - intros f [->|Hf]%elem_of_cons; [done|]. eapply reads_succs; [done|apply (ti_succs _ HM)|done].
  - intros x y [_ [Hxy| ->]]%Hexp; cbn; [|set_solver]. apply (ti_explored _ HM) in Hxy. set_solver.
  - intros x [->|Hx]%Hst; cbn; [|by apply (ti_disj _ HM)]. intros Hx. apply Hnew, (ti_seen _ HM). by right.
  - intros x [->|Hx]%Hst; [exists c; split_and!; [apply Hgray; by left|done|done]|].
    destruct (ti_down _ HM x Hx) as (g & Hg & Hle & Hp). exists g.
    rewrite (proj1 (Hix g (gray_seen g Hg))), (proj1 (Hix x (stack_seen x Hx))).
    split_and!; [apply Hgray; by right|done|done].
  - intros g x [->|Hg]%Hgray [->|Hx]%Hst Hle; [done| |by apply Hto|].
    + rewrite Hic, (proj1 (Hix x (stack_seen x Hx))) in Hle. pose proof (ti_idx _ HM x (stack_seen x Hx)). lia.
    + rewrite (proj1 (Hix g (gray_seen g Hg))), (proj1 (Hix x (stack_seen x Hx))) in Hle. by apply (ti_up _ HM).
  - intros g [->|Hg]%Hgray.
    + rewrite Hic, Hlc. split; [done|]. exists c. split_and!; [apply Hst; by left|done|done].
    + destruct (Hix g (gray_seen g Hg)) as [-> ->]. destruct (ti_low _ HM g Hg) as (Hle & z & Hz & Hp & Hzi).
      split; [done|]. exists z. split_and!; [apply Hst; by right|done|]. by rewrite (proj1 (Hix z (stack_seen z Hz))).
  - intros g x y (Hg & Hgx & Hmax) Hx Hy [Hxs Hxy]%Hexp. rewrite (proj1 (Hix x Hxs)) in *.
    pose proof (ti_idx _ HM x Hxs). apply Hgray in Hg as [->|Hg]; [lia|].
    destruct (Hix g (gray_seen g Hg)) as [Hig Hlg]. rewrite Hlg.
    assert (Hown : owner M g x).
    { split_and!; [done|lia|]. intros h Hh Hhx. specialize (Hmax h).
      rewrite Hgray, Hig, (proj1 (Hix h (gray_seen h Hh))) in Hmax. auto. }
    apply Hst in Hy as [->|Hy].
    + rewrite Hic. destruct (ti_low _ HM g Hg) as [Hle _]. pose proof (ti_idx _ HM g (gray_seen g Hg)). lia.
    + rewrite (proj1 (Hix y (stack_seen y Hy))). destruct Hxy as [Hxy| ->]; [|by destruct Hnew; apply stack_seen].
      apply (ti_bound _ HM g x y); [done| |done|done].
      apply Hst in Hx as [->|Hx]; [done|done].
  - apply (ti_sccs _ HM).
Qed.

Lemma lowered_eq low n v : lowered low n v n = Nat.min (low n) v.
Proof. unfold lowered. by rewrite fn_lookup_insert. Qed.

Lemma lowered_ne low n v x : n ≠ x → lowered low n v x = low x.
Proof. intros. unfold lowered. by rewrite fn_lookup_insert_ne. Qed.

Lemma lowered_le low n v x : lowered low n v x ≤ low x.
Proof. destruct (decide (n = x)) as [->|Hne]; [rewrite lowered_eq; lia|by rewrite lowered_ne]. Qed.

(** A low-link may drop to the index of a stacked node its node reaches. *)
Lemma lowered_low n z g :
  g ∈ gray M → z ∈ m_stack M → (g = n → rtc R n z) →
  lowered (m_low M) n (m_idx M z) g ≤ m_idx M g ∧
  ∃ z', z' ∈ m_stack M ∧ rtc R g z' ∧ m_idx M z' = lowered (m_low M) n (m_idx M z) g.
Proof.
  intros Hg Hz Hr. destruct (ti_low _ HM g Hg) as (Hle & w & Hw & Hp & Hwi).
  pose proof (lowered_le (m_low M) n (m_idx M z) g). split; [lia|].
  destruct (decide (n = g)) as [->|Hne]; [|rewrite lowered_ne by done; eauto].
  rewrite lowered_eq. destruct (Nat.min_spec (m_low M g) (m_idx M z)) as [[_ ->]|[_ ->]]; eauto.
Qed.

Lemma revisit_inv n l1 c l2 fs :
  m_frames M = mk_frame n l1 (c :: l2) :: fs → c ∈ m_seen M →
  tinv (mk_machine (m_next M) (m_seen M) (m_idx M)
    (if decide (c ∈ m_stack M) then lowered (m_low M) n (m_idx M c) else m_low M)
    (m_stack M) (mk_frame n (l1 ++ [c]) l2 :: fs) (m_comps M)).
Proof.
  intros Hfr Hc. set (M' := mk_machine _ _ _ _ _ _ _).
  assert (Hgray : gray M' = gray M) by (unfold gray, M'; cbn; by rewrite Hfr).
  assert (Hexp : ∀ x y, explored M' x y → explored M x y ∨ x = n ∧ y = c).
  { intros x y (Hx & Hy & Hf). by eapply explored_read. }
  assert (Hedge : R n c).
  { pose proof (ti_succs _ HM (mk_frame n l1 (c :: l2))) as Hs. rewrite Hfr in Hs. cbn in Hs.
    unfold edge_to. rewrite Hs; set_solver. }
  pose proof HM as [H1 H2 H3 H4 H5 H6 H7 H8 H9 H10 H11 H12 H13 H14].
  split; try rewrite Hgray; cbn; try done.
  - eapply reads_succs; [|done]. right. by exists n, l1, l2, fs.
  - intros x y [Hxy|[_ ->]]%Hexp; [by apply (H8 x)|done].
  - intros g Hg. case_decide as Hcs; [|by apply H12]. apply lowered_low; [done..|]. intros _. by apply rtc_once.
  - intros g x y Hown Hx Hy Hxy. unfold owner in Hown. rewrite Hgray in Hown. cbn in Hown.
    apply Hexp in Hxy as [Hxy|[-> ->]].
    + transitivity (m_low M g); [|by apply (H13 g x)]. case_decide; [apply lowered_le|done].
    + rewrite decide_True by done. apply (owner_top _ _ _ fs g n Hfr) in Hown as ->; [|done].
      rewrite lowered_eq. lia.
Qed.

(** ** Finishing a node *)
Section Finish.
Context (n : Id) (l1 : list Id) (fs : list frame) (Hfr : m_frames M = mk_frame n l1 [] :: fs).

Lemma n_gray : n ∈ gray M.
Proof. by eapply top_gray. Qed.

Lemma n_stack : n ∈ m_stack M.
Proof. apply (ti_gray _ HM), n_gray. Qed.

Lemma n_succs : succs n = l1.
Proof.
  pose proof (ti_succs _ HM (mk_frame n l1 [])) as Hs. rewrite Hfr in Hs. cbn in Hs.
  rewrite Hs, app_nil_r by left. done.
Qed.

Lemma rest_gray g : g ∈ f_node <$> fs → g ∈ gray M ∧ m_idx M g < m_idx M n.
Proof.
  intros Hg. pose proof (ti_frames _ HM) as Hs. unfold gray in *. rewrite Hfr in *. cbn in *.
  split; [by right|]. apply StronglySorted_inv in Hs as [_ Hs]. rewrite Forall_forall in Hs. by apply Hs.
Qed.

Lemma gray_cases g : g ∈ gray M → g = n ∨ g ∈ f_node <$> fs.
Proof. unfold gray. rewrite Hfr. cbn. apply elem_of_cons. Qed.

(** Every edge of the finished node has been looked at. *)
Lemma finished_explored x y :
  x ∈ m_seen M → y ∈ succs x → (∀ f, f ∈ fs → f_node f = x → y ∈ f_read f) → explored M x y.
Proof.
  intros Hx Hy Hf. split_and!; [done..|]. rewrite Hfr.
  intros f [->|Hin]%elem_of_cons Hn; [|by apply Hf]. cbn in *. subst x. by rewrite n_succs in Hy.
Qed.

Lemma lowered_parent_le g : lowered_parent (m_low M) fs (m_low M n) g ≤ m_low M g.
Proof. destruct fs as [|p tl]; [done|]. apply lowered_le. Qed.

Lemma lowered_parent_low g :
  g ∈ f_node <$> fs →
  lowered_parent (m_low M) fs (m_low M n) g ≤ m_idx M g ∧
  ∃ z, z ∈ m_stack M ∧ rtc R g z ∧ m_idx M z = lowered_parent (m_low M) fs (m_low M n) g.
Proof.
  intros Hg. destruct (rest_gray g Hg) as [Hgg Hlt].
  destruct (ti_low _ HM n n_gray) as (_ & z & Hz & Hp & Hzn).
  assert (Hgz : rtc R g z).
  { etrans; [|exact Hp]. apply (ti_up _ HM); [done|apply n_stack|lia]. }
  destruct fs as [|p tl]; [by apply elem_of_nil in Hg|]. cbn [lowered_parent]. rewrite <-Hzn.
  apply lowered_low; [done..|]. by intros <-.
Qed.

Lemma rest_sorted : StronglySorted (λ x y, m_idx M y < m_idx M x) (f_node <$> fs).
Proof.
  pose proof (ti_frames _ HM) as Hs. unfold gray in Hs. rewrite Hfr in Hs. by apply StronglySorted_inv in Hs as [].
Qed.

Lemma rest_succs f : f ∈ fs → succs (f_node f) = f_read f ++ f_rest f.
Proof. intros Hf. apply (ti_succs _ HM). rewrite Hfr. by right. Qed.

Lemma retreat_inv :
  m_low M n ≠ m_idx M n →
  tinv (mk_machine (m_next M) (m_seen M) (m_idx M) (lowered_parent (m_low M) fs (m_low M n))
    (m_stack M) fs (m_comps M)).
Proof.
  intros Hne. set (M' := mk_machine _ _ _ _ _ _ _).
  assert (Hexp : ∀ x y, explored M' x y → explored M x y).
  { intros x y (Hx & Hy & Hf). by apply finished_explored. }
  pose proof HM as [H1 H2 H3 H4 H5 H6 H7 H8 H9 H10 H11 H12 H13 H14].
  split; cbn; try done.
  - apply rest_sorted.
  - intros g [Hg _]%rest_gray. by apply H6.
  - apply rest_succs.
  - intros x y Hxy%Hexp. by apply (H8 x).
  - intros x Hx. destruct (H10 x Hx) as (g & Hg & Hle & Hp).
    destruct (gray_cases g Hg) as [->|Hg']; [|by exists g].
    destruct (H12 n Hg) as (Hlow & z & Hz & Hnz & Hzi). destruct (H10 z Hz) as (h & Hh & Hhz & Hzh).
    destruct (gray_cases h Hh) as [->|Hh']; [lia|]. exists h. split_and!; [done|lia|].
    etrans; [exact Hp|]. by etrans.
  - intros g x [Hg _]%rest_gray. by apply H11.
  - intros g Hg. by apply lowered_parent_low.
  - intros g x y (Hg & Hgx & Hmax) Hx Hy Hxy%Hexp. cbn in Hg, Hgx, Hmax. unfold gray in Hg, Hmax. cbn in Hg, Hmax.
    destruct (rest_gray g Hg) as [Hgg Hlt]. destruct (decide (m_idx M n ≤ m_idx M x)) as [Hnx|Hnx].
    + assert (Hb : m_low M n ≤ m_idx M y) by (apply (H13 n x); [by eapply owner_top|done..]).
      pose proof rest_sorted as Hs. pose proof rest_gray as Hrest.
      destruct fs as [|p tl]; [by apply elem_of_nil in Hg|]. cbn in *.
      destruct (Hrest (f_node p)) as [Hpg Hpn]; [left|].
      assert (m_idx M (f_node p) ≤ m_idx M g) by (apply Hmax; [left|lia]).
      assert (m_idx M g ≤ m_idx M (f_node p)) by by eapply sorted_desc_head.
      assert (g = f_node p) as ->; [|rewrite lowered_eq; lia].
      apply stack_inj; [by apply H6..|lia].
    + transitivity (m_low M g); [apply lowered_parent_le|]. apply (H13 g x); [|done..].
      split_and!; [done..|]. intros h Hh Hhx. destruct (gray_cases h Hh) as [->|Hh']; [lia|by apply Hmax].
Qed.

(** ** Closing a component *)
Section Close.
Context (top st : list Id) (Hroot : m_low M n = m_idx M n) (Hst : m_stack M = top ++ n :: st).

Lemma below x : x ∈ st → x ∈ m_stack M ∧ m_idx M x < m_idx M n.
Proof.
  intros Hx. split; [rewrite Hst; set_solver|].
  pose proof (ti_stack _ HM) as Hs. rewrite Hst in Hs. apply StronglySorted_app_r in Hs.
  apply StronglySorted_inv in Hs as [_ Hs]. rewrite Forall_forall in Hs. by apply Hs.
Qed.

Lemma popped x : x ∈ top ++ [n] ↔ x ∈ m_stack M ∧ m_idx M n ≤ m_idx M x.
Proof.
  split.
  - intros Hx. split; [rewrite Hst; set_solver|]. apply elem_of_app in Hx as [Hx| ->%list_elem_of_singleton]; [|done].
    pose proof (ti_stack _ HM) as Hs. rewrite Hst in Hs.
    pose proof (StronglySorted_app_1_elem_of _ _ _ x n Hs Hx ltac:(left)) as Hlt. cbn in Hlt. lia.
  - intros [Hx Hle]. rewrite Hst in Hx. destruct (decide (x ∈ st)) as [Hin|Hin]; [|set_solver].
    apply below in Hin. lia.
Qed.

Lemma popped_mutual x : x ∈ top ++ [n] → mutual R x n.
Proof.
  intros [Hx Hle]%popped. split; [|by apply (ti_up _ HM); [apply n_gray|..]].
  destruct (ti_down _ HM x Hx) as (g & Hg & Hgx & Hp). etrans; [exact Hp|].
  apply (ti_up _ HM); [done|apply n_stack|by eapply top_max].
Qed.

Lemma popped_out x y : x ∈ top ++ [n] → y ∈ succs x → y ∈ concat (m_comps M) ∨ y ∈ top ++ [n].
Proof.
  intros [Hx Hle]%popped Hy.
  assert (Hxy : explored M x y).
  { apply finished_explored; [by apply stack_seen|done|]. intros f Hf <-.
    destruct (rest_gray (f_node f)) as [_ ?]; [by apply list_elem_of_fmap_2|lia]. }
  pose proof (ti_explored _ HM x y Hxy) as Hys. apply (ti_seen _ HM) in Hys as [Hys|Hys]; [right|by left].
  apply popped. split; [done|]. rewrite <-Hroot. apply (ti_bound _ HM n x); [|done..].
  by apply (owner_top n l1 [] fs).
Qed.

Lemma popped_reach x y :
  rtc R x y → x ∈ concat (m_comps M) ∨ x ∈ top ++ [n] → y ∈ concat (m_comps M) ∨ y ∈ top ++ [n].
Proof.
  induction 1 as [x|x z y Hxz Hzy IH]; [done|]. intros [Hx|Hx]; apply IH.
  - left. by eapply (sccs_all_closed R R), Hxz; [apply (ti_sccs _ HM)|].
  - by apply (popped_out x).
Qed.

Lemma stack_nodup : NoDup (m_stack M).
Proof. eapply sorted_desc_nodup, (ti_stack _ HM). Qed.

Lemma closed_sccs : sccs R R (m_comps M ++ [merge_sort N.le (top ++ [n])]).
Proof.
  pose proof stack_nodup as Hnd. rewrite Hst in Hnd.
  apply sccs_snoc; [apply (ti_sccs _ HM)|by destruct top| | |..].
  - apply NoDup_app in Hnd as (Ht & Hd & _). apply NoDup_app. split_and!; [done| |apply NoDup_singleton].
    intros x Hx ->%list_elem_of_singleton. apply (Hd n Hx). left.
  - intros x [Hx _]%popped. by apply (ti_disj _ HM).
  - intros x y Hx. split.
    + intros Hy. etrans; [by apply popped_mutual|]. symmetry. by apply popped_mutual.
    + intros [Hxy Hyx]. destruct (popped_reach x y Hxy) as [Hy|Hy]; [by right| |done].
      exfalso. apply (ti_disj _ HM x); [by apply popped in Hx as []|].
      clear -Hyx Hy HM. induction Hyx as [|y z x Hyz _ IH]; [done|]. apply IH.
      by eapply (sccs_all_closed R R), Hyz; [apply (ti_sccs _ HM)|].
  - apply popped_out.
Qed.

Lemma close_inv :
  tinv (mk_machine (m_next M) (m_seen M) (m_idx M) (lowered_parent (m_low M) fs (m_low M n))
    st fs (m_comps M ++ [merge_sort N.le (top ++ [n])])).
Proof.
  set (M' := mk_machine _ _ _ _ _ _ _).
  assert (Hexp : ∀ x y, explored M' x y → explored M x y).
  { intros x y (Hx & Hy & Hf). by apply finished_explored. }
  assert (Hst' : ∀ x, x ∈ m_stack M → m_idx M x < m_idx M n → x ∈ st).
  { intros x Hx Hlt. destruct (decide (x ∈ st)) as [|Hno]; [done|].
    assert (x ∈ top ++ [n]) as [_ ?]%popped; [|lia]. rewrite Hst in Hx. set_solver. }
  assert (Hcat : ∀ x, x ∈ concat (m_comps M') ↔ x ∈ concat (m_comps M) ∨ x ∈ top ++ [n]).
  { intros x. cbn. rewrite concat_app. cbn. by rewrite app_nil_r, elem_of_app, merge_sort_Permutation. }
  pose proof HM as [H1 H2 H3 H4 H5 H6 H7 H8 H9 H10 H11 H12 H13 H14].
  split; cbn [m_seen m_idx m_next m_stack m_frames m_comps m_low M']; try done.
  - intros x. pose proof (Hcat x) as Hx. cbn in Hx. rewrite H1, Hx, Hst. set_solver.
  - rewrite Hst in H4. apply StronglySorted_app_r in H4. by apply StronglySorted_inv in H4 as [].
  - apply rest_sorted.
  - intros g [Hg Hlt]%rest_gray. by apply Hst'; [apply H6|].
  - apply rest_succs.
  - intros x y Hxy%Hexp. by apply (H8 x).
  - intros x [Hx Hlt]%below. pose proof (Hcat x) as Hc. cbn in Hc. rewrite Hc.
    intros [Hin|[_ Hin]%popped]; [by apply (H9 x)|lia].
  - intros x [Hx Hlt]%below. destruct (H10 x Hx) as (g & Hg & Hle & Hp).
    destruct (gray_cases g Hg) as [->|Hg']; [lia|]. by exists g.
  - intros g x [Hg _]%rest_gray [Hx _]%below. by apply H11.
  - intros g Hg. destruct (rest_gray g Hg) as [_ Hlt].
    destruct (lowered_parent_low g Hg) as (Hle & z & Hz & Hp & Hzi). split; [done|].
    exists z. split_and!; [apply Hst'; [done|lia]|done..].
  - intros g x y (Hg & Hgx & Hmax) [Hx Hlt]%below [Hy _]%below Hxy%Hexp. unfold gray in Hg, Hmax. cbn in Hg, Hgx, Hmax.
    transitivity (m_low M g); [apply lowered_parent_le|]. apply (H13 g x); [|done..].
    split_and!; [by apply rest_gray|done|]. intros h Hh Hhx.
    destruct (gray_cases h Hh) as [->|Hh']; [lia|by apply Hmax].
  - apply closed_sccs.
Qed.

End Close.
End Finish.
End Steps.

(** Every step keeps the invariant. *)
Lemma tstep_inv M M' :
  (∀ x y, x ∈ live → y ∈ succs x → y ∈ live) → tinv M → tstep M M' → tinv M'.
Proof.
  intros Hclosed HM. destruct 1 as [M c Hfr Hc Hn|M n l1 c l2 fs Hfr Hc|M n l1 c l2 fs Hfr Hc|
    M n l1 fs Hfr Hne|M n l1 fs top st Hfr Hroot Hst Htop].
  - apply discovered_inv; [done|by left|done|done].
  - apply discovered_inv; [done|right; by exists n, l1, l2, fs| |done].
    apply (Hclosed n); [apply (ti_live _ HM), gray_seen; [done|by eapply top_gray]|].
    pose proof (ti_succs _ HM (mk_frame n l1 (c :: l2))) as Hs. rewrite Hfr in Hs. cbn in Hs.
    rewrite Hs by left. set_solver.
  - by eapply revisit_inv.
  - by eapply retreat_inv.
  - by eapply close_inv.
Qed.

Definition tarjan_init : machine := mk_machine 0 ∅ (λ _, 0) (λ _, 0) [] [] [].

Lemma tarjan_init_inv : tinv tarjan_init.
Proof.
  split; cbn; try (by intros ? ?%elem_of_nil); try (by intros ? []%not_elem_of_empty).
  - set_solver.
  - constructor.
  - constructor.
  - intros x y (Hx & _). set_solver.
  - by intros g x ?%elem_of_nil.
  - by intros g x y (?%elem_of_nil & _).
  - apply sccs_nil.
Qed.

End Machine.
