(* ===== verification/SccTheorems.v ===== *)
(** * Strongly connected components

    The loop of [tarjan_scc] performs the steps of the machine of [SccTarjan]:
    each iteration is one step, and the steps left are the frames' and the
    undiscovered nodes' successors. Both decompositions find the classes of
    mutually reachable nodes. *)

From stdpp Require Import functions.
From S2P Require Import Prelude Words Liveness Ids View EdgeViews Chains Runs Store StoreInv StoreEdits StoreSpec StoreView History Samples Traverse Scc SccKosaraju SccTarjan.

Lemma marked_unset visited bound V n :
  marked visited bound V → index n < bound →
  vset visited (index n) false = Ok (<[index n := false]> visited) ∧
  marked (<[index n := false]> visited) bound (V ∖ {[n]}).
Proof.
  intros [Hl H] Hn. split; [apply vset_lt; lia|]. split; [by rewrite length_insert|].
  intros m Hm. destruct (decide (m = n)) as [->|Hne].
  - rewrite list_lookup_insert_eq by lia. rewrite bool_decide_false by set_solver. done.
  - rewrite list_lookup_insert_ne by (unfold index; intros ?%N2Nat.inj; congruence).
    rewrite H by done. f_equal. apply bool_decide_ext. set_solver.
Qed.

Lemma marked_proper visited bound V W : V ≡ W → marked visited bound V → marked visited bound W.
Proof. intros ->%leibniz_equiv. done. Qed.

Section Tables.
Context {G : Type} {HG : GraphView G} (g : G) (s : shape) (HV : Views g s).
Abbreviation succs := (sh_next s Outgoing).
Abbreviation bound := (sh_bound s).
Abbreviation weight := (λ n, S (length (succs n))).

(** The tables [t] show the machine [M], whose frames are [fs] for now. *)
Record trep (t : Tarjan) (M : machine) (fs : list frame) : Prop := mk_trep {
  tr_next : next_index t = m_next M;
  tr_stack : tj_stack t = m_stack M;
  tr_on : marked (on_stack t) bound (list_to_set (m_stack M));
  tr_length : length (indices t) = bound;
  tr_indices : ∀ n, index n < bound →
    indices t !! index n = Some (if decide (n ∈ m_seen M) then Some (m_idx M n) else None);
  tr_lowlength : length (lowlinks t) = bound;
  tr_low : ∀ n, n ∈ m_seen M → index n < bound → lowlinks t !! index n = Some (m_low M n);
  tr_result : dec_rep bound (tj_result t) (m_comps M) [] [];
  tr_frames : frames_rep (tj_calls t) (tj_arena t) fs;
}.

Lemma index_ne (m n : Id) : m ≠ n → index n ≠ index m.
Proof. intros Hne He. apply Hne. symmetry. by apply N2Nat.inj. Qed.

Lemma discover_Ok t M fs c :
  trep t M fs → c ∈ sh_nodes s →
  ∃ t', discover g t c = Ok t' ∧ trep t' (discovered succs M c fs) (m_frames (discovered succs M c fs)).
Proof.
  intros [H1 H2 H3 H4 H5 H6 H7 H8 H9] Hc. pose proof (nodes_bound g s HV c Hc) as Hb. unfold discover.
  rewrite (vset_lt (indices t)), (vset_lt (lowlinks t)) by lia. rsimpl. destruct (marked_set _ _ _ c H3 Hb) as [-> Hm]. rsimpl.
  destruct (enter_Ok g s c _ _ _ HV Hc H9) as (arena' & calls' & -> & Hf). rsimpl.
  eexists. split; [done|]. split; cbn; rewrite ?length_insert; try done.
  - by rewrite H1.
  - by rewrite H2.
  - intros m Hm'. rewrite H1. destruct (decide (m = c)) as [->|Hne].
    + rewrite list_lookup_insert_eq by lia. by rewrite decide_True, fn_lookup_insert by set_solver.
    + rewrite list_lookup_insert_ne, H5, fn_lookup_insert_ne by (done || by apply index_ne).
      do 2 f_equal. repeat case_decide; set_solver.
  - intros m Hm' Hmb. rewrite H1. destruct (decide (m = c)) as [->|Hne].
    + by rewrite list_lookup_insert_eq, fn_lookup_insert by lia.
    + rewrite list_lookup_insert_ne, fn_lookup_insert_ne by (done || by apply index_ne).
      apply H7; [set_solver|done].
Qed.

Lemma lower_Ok t M fs n v :
  trep t M fs → n ∈ m_seen M → index n < bound →
  ∃ low', lower (lowlinks t) n v = Ok low' ∧ length low' = bound ∧
    ∀ m, m ∈ m_seen M → index m < bound → low' !! index m = Some (lowered (m_low M) n v m).
Proof.
  intros Ht Hn Hb. unfold lower. rewrite (vget_eq _ _ _ (tr_low _ _ _ Ht n Hn Hb)). rsimpl.
  rewrite vset_lt by (rewrite (tr_lowlength _ _ _ Ht); lia). eexists. split; [done|].
  split; [by rewrite length_insert, (tr_lowlength _ _ _ Ht)|].
  intros m Hm Hmb. destruct (decide (m = n)) as [->|Hne].
  - by rewrite list_lookup_insert_eq, lowered_eq by (rewrite (tr_lowlength _ _ _ Ht); lia).
  - rewrite list_lookup_insert_ne, lowered_ne by (done || by apply index_ne). by apply (tr_low _ _ _ Ht).
Qed.

(** ** One iteration *)

Section Step.
Context (t : Tarjan) (M : machine) (HM : tinv succs (sh_nodes s) M) (Ht : trep t M (m_frames M)).

Lemma seen_bound x : x ∈ m_seen M → index x < bound.
Proof. intros Hx. by apply (nodes_bound g s HV), (ti_live _ _ _ HM). Qed.

Lemma tarjan_edge_step c rest n l1 x l2 fs :
  tj_calls t = c :: rest → m_frames M = mk_frame n l1 (x :: l2) :: fs → frame_node c = n →
  vget (tj_arena t) (frame_cursor c) = Ok x →
  frames_rep (advance_frame c :: rest) (tj_arena t) (mk_frame n (l1 ++ [x]) l2 :: fs) →
  ∃ t' M', tarjan_edge g t c rest = Ok t' ∧ tstep succs (sh_nodes s) M M' ∧ trep t' M' (m_frames M').
Proof.
  intros Hcalls Hfr Hc Hx Hf. unfold tarjan_edge. rewrite Hx. rsimpl. cbn [indices on_stack lowlinks].
  assert (Hn : n ∈ gray M) by by eapply top_gray.
  assert (Hnn : n ∈ sh_nodes s) by by eapply (ti_live _ _ _ HM), gray_seen.
  assert (Hxn : x ∈ sh_nodes s).
  { apply (nodes_next g s HV Outgoing n); [done|].
    pose proof (ti_succs _ _ _ HM (mk_frame n l1 (x :: l2))) as Hs. rewrite Hfr in Hs. cbn in Hs.
    rewrite Hs by left. set_solver. }
  pose proof (nodes_bound g s HV x Hxn) as Hb.
  rewrite (vget_eq _ _ _ (tr_indices _ _ _ Ht x Hb)). rsimpl. case_decide as Hseen.
  - destruct Ht as [H1 H2 H3 H4 H5 H6 H7 H8 H9].
    rewrite (marked_get _ _ _ _ H3 Hb). rsimpl.
    destruct (lower_Ok t M (m_frames M) n (m_idx M x) Ht) as (low' & Hlow & Hll & Hlv);
      [by eapply gray_seen|by apply (nodes_bound g s HV)|].
    pose proof (ts_revisit succs (sh_nodes s) M n l1 x l2 fs Hfr Hseen) as Hstep.
    rewrite Hc, Hlow. rewrite bool_decide_decide. destruct (decide (x ∈ (list_to_set (m_stack M) : gset Id))) as [Hon|Hon].
    + rewrite decide_True in Hstep by set_solver. do 2 eexists. split; [done|]. split; [exact Hstep|]. by split.
    + rewrite decide_False in Hstep by set_solver. do 2 eexists. split; [done|]. split; [exact Hstep|]. by split.
  - destruct (discover_Ok (mk_Tarjan (next_index t) (tj_stack t) (on_stack t) (indices t) (lowlinks t)
      (tj_result t) (tj_arena t) (advance_frame c :: rest)) M (mk_frame n (l1 ++ [x]) l2 :: fs) x)
      as (t' & Hd & Ht'); [|done|].
    { destruct Ht. by split. }
    do 2 eexists. split; [exact Hd|]. split; [|exact Ht']. by apply ts_discover.
Qed.

Lemma pop_component_spec cs n st top on dec cur cl :
  (∀ x, x ∈ top ++ n :: st → index x < bound ∧ x ∉ concat cs) → NoDup (top ++ n :: st) →
  marked on bound (list_to_set (top ++ n :: st)) → dec_rep bound dec cs cur cl → (∀ x, x ∈ cl ↔ x ∈ cur) →
  ∃ on' dec' cl', pop_component (top ++ n :: st) on dec (length cs) n = Ok (st, on', dec') ∧
    marked on' bound (list_to_set st) ∧ dec_rep bound dec' cs (cur ++ top ++ [n]) cl' ∧
    ∀ x, x ∈ cl' ↔ x ∈ cur ++ top ++ [n].
Proof.
  clear HM Ht M t. revert on dec cur cl. induction top as [|y top IH]; intros on dec cur cl Hin Hnd Hm Hd Hcl;
    cbn [app pop_component].
  - destruct (Hin n) as [Hb Hn]; [left|]. destruct (marked_unset _ _ _ n Hm Hb) as [-> Hm']. rsimpl.
    destruct (dr_set _ _ _ _ _ n Hd Hb Hn) as (dec' & -> & Hd'). rsimpl. rewrite decide_True by done.
    do 2 eexists. exists (n :: cl). split; [done|]. split_and!; [|by apply dr_push|set_solver].
    apply NoDup_cons in Hnd as [Hni _]. eapply marked_proper; [|exact Hm']. cbn. set_solver.
  - destruct (Hin y) as [Hb Hy]; [left|]. destruct (marked_unset _ _ _ y Hm Hb) as [-> Hm']. rsimpl.
    destruct (dr_set _ _ _ _ _ y Hd Hb Hy) as (dec' & -> & Hd'). rsimpl.
    apply NoDup_cons in Hnd as [Hni Hnd]. rewrite decide_False by set_solver.
    destruct (IH (<[index y:=false]> on) (push_node dec' y) (cur ++ [y]) (y :: cl))
      as (on' & dec2 & cl' & -> & Hm2 & Hd2 & Hcl2);
      [by intros x Hx; apply Hin; right|done| |by apply dr_push|clear -Hcl; set_solver|].
    { eapply marked_proper; [|exact Hm']. clear -Hni. set_solver. }
    rewrite <-app_assoc in Hd2, Hcl2. by exists on', dec2, cl'.
Qed.

Lemma lower_parent_Ok n l1 fs rest :
  m_frames M = mk_frame n l1 [] :: fs →
  (f_node <$> fs) = (frame_node <$> rest) →
  ∃ low', (match rest with
           | parent :: _ => lower (lowlinks t) (frame_node parent) (m_low M n)
           | [] => mret (lowlinks t)
           end) = Ok low' ∧ length low' = bound ∧
    ∀ m, m ∈ m_seen M → index m < bound → low' !! index m = Some (lowered_parent (m_low M) fs (m_low M n) m).
Proof.
  intros Hfr Hnodes. destruct fs as [|p fs], rest as [|c rest]; try done; cbn in Hnodes.
  - exists (lowlinks t). split_and!; [done|apply (tr_lowlength _ _ _ Ht)|apply (tr_low _ _ _ Ht)].
  - injection Hnodes as Hp _. rewrite <-Hp. assert (Hs : f_node p ∈ m_seen M).
    { eapply gray_seen; [done|]. unfold gray. rewrite Hfr. cbn. set_solver. }
    by apply (lower_Ok t M (m_frames M)), seen_bound.
Qed.

Lemma frames_rep_nodes cs arena fs : frames_rep cs arena fs → f_node <$> fs = frame_node <$> cs.
Proof. induction 1 as [|cs base fs n l1 l2 H IH]; [done|]. cbn. by rewrite IH. Qed.

Lemma tarjan_finish_step c rest n l1 fs :
  tj_calls t = c :: rest → m_frames M = mk_frame n l1 [] :: fs → frame_node c = n →
  frames_rep rest (take (frame_start c) (tj_arena t)) fs →
  ∃ t' M', tarjan_finish t c rest = Ok t' ∧ tstep succs (sh_nodes s) M M' ∧ trep t' M' (m_frames M').
Proof.
  intros Hcalls Hfr Hc Hf. unfold tarjan_finish. rewrite Hc.
  assert (Hg : n ∈ gray M) by by eapply top_gray.
  assert (Hs : n ∈ m_seen M) by by eapply gray_seen.
  pose proof (seen_bound n Hs) as Hb.
  rewrite (vget_eq _ _ _ (tr_low _ _ _ Ht n Hs Hb)). rsimpl.
  rewrite (vget_eq _ _ _ (tr_indices _ _ _ Ht n Hb)). rsimpl. rewrite (decide_True (P := n ∈ m_seen M)) by done.
  destruct (lower_parent_Ok n l1 fs rest Hfr) as (low' & Hlow & Hll & Hlv);
    [by eapply frames_rep_nodes|]. pose proof Ht as [H1 H2 H3 H4 H5 H6 H7 H8 H9].
  destruct (decide (Some (m_low M n) = Some (m_idx M n))) as [Heq|Hne].
  - injection Heq as Heq. rewrite H2.
    pose proof (ti_gray _ _ _ HM n Hg) as Hst. apply list_elem_of_split in Hst as (top & st & Hst).
    pose proof (stack_nodup _ _ M HM) as Hnd. rewrite Hst in Hnd.
    assert (Htop : n ∉ top) by (intros Hin; apply NoDup_app in Hnd as (_ & Hd & _); apply (Hd n Hin); left).
    destruct (pop_component_spec (m_comps M) n st top (on_stack t) (tj_result t) [] [])
      as (on' & dec' & cl' & Hpop & Hm' & Hd' & Hcl'); [|done|by rewrite <-Hst|done|done|].
    { intros x Hx. rewrite <-Hst in Hx. split; [by eapply seen_bound, stack_seen|by apply (ti_disj _ _ _ HM)]. }
    rewrite Hst, (dr_len _ _ _ _ _ H8), Hpop. rsimpl.
    destruct (dr_close _ _ _ _ _ Hd' Hcl') as (dec2 & -> & Hd2). rsimpl. rewrite Hlow. rsimpl.
    do 2 eexists. split; [done|]. split; [by eapply ts_close|]. by split.
  - rewrite Hlow. rsimpl. do 2 eexists. split; [done|]. split; [eapply ts_retreat; [done|congruence]|]. by split.
Qed.

End Step.

(** ** The loops *)

(** Steps left once a node is entered. *)
Definition steps_left (M : machine) : nat := pending weight (sh_nodes s) (m_seen M) + frames_left (m_frames M).

Lemma tstep_left M M' :
  tinv succs (sh_nodes s) M → m_frames M ≠ [] → tstep succs (sh_nodes s) M M' →
  steps_left M = S (steps_left M') ∧ ∀ x, x ∈ m_seen M → x ∈ m_seen M'.
Proof.
  intros HM Hne. unfold steps_left, frames_left.
  destruct 1 as [M c Hfr Hc Hn|M n l1 c l2 fs Hfr Hn|M n l1 c l2 fs Hfr Hc|
    M n l1 fs Hfr Hl|M n l1 fs top st Hfr Hroot Hst Htop]; [done|..]; rewrite Hfr; cbn; try (split; [lia|done]).
  split; [|set_solver]. rewrite (pending_visit weight _ (m_seen M) c (nodes_nodup g s HV)); [lia| |done].
  apply (nodes_next g s HV Outgoing n); [by eapply (ti_live _ _ _ HM), gray_seen, top_gray|].
  pose proof (ti_succs _ _ _ HM (mk_frame n l1 (c :: l2))) as Hs. rewrite Hfr in Hs. cbn in Hs.
  rewrite Hs by left. set_solver.
Qed.

Lemma tarjan_loop_spec fuel t M :
  tinv succs (sh_nodes s) M → trep t M (m_frames M) → steps_left M < fuel →
  ∃ t' M', tarjan_loop fuel g t = Ok t' ∧ tinv succs (sh_nodes s) M' ∧ trep t' M' [] ∧ m_frames M' = [] ∧
    ∀ x, x ∈ m_seen M → x ∈ m_seen M'.
Proof.
  revert t M. induction fuel as [|fuel IH]; intros t M HM Ht Hfuel; [lia|]. cbn [tarjan_loop].
  pose proof (tr_frames _ _ _ Ht) as Hf. destruct (tj_calls t) as [|c rest] eqn:Hcalls.
  { inversion Hf as [Hc Ha Hfr|]. exists t, M. rewrite <-Hfr in *. split_and!; [done..|]. auto. }
  apply frames_rep_cons in Hf as (n & l1 & l2 & fs & Hfr & Hc & Htl & Hf).
  assert (Hnext : ∃ t' M', (if decide (frame_cursor c < length (tj_arena t)) then tarjan_edge g t c rest
      else tarjan_finish t c rest) = Ok t' ∧ tstep succs (sh_nodes s) M M' ∧ trep t' M' (m_frames M')).
  { destruct l2 as [|x l2].
    - rewrite decide_False by done. by eapply tarjan_finish_step.
    - destruct Hf as (Hlt & Hx & Hf). rewrite decide_True by done. by eapply tarjan_edge_step. }
  destruct Hnext as (t1 & M1 & -> & Hstep & Ht1). rsimpl.
  destruct (tstep_left M M1 HM) as [Hleft Hsub]; [by rewrite Hfr|done|].
  destruct (IH t1 M1) as (t' & M' & -> & HM' & Ht' & Hfr' & Hsub'); [|done|lia|].
  { eapply tstep_inv; [|done|done]. by apply (nodes_next g s HV Outgoing). }
  exists t', M'. split_and!; [done..|]. auto.
Qed.

Lemma tarjan_from_spec t M start :
  tinv succs (sh_nodes s) M → trep t M [] → m_frames M = [] → start ∈ sh_nodes s →
  ∃ t' M', tarjan_from g t start = Ok t' ∧ tinv succs (sh_nodes s) M' ∧ trep t' M' [] ∧ m_frames M' = [] ∧
    ∀ x, x ∈ m_seen M ∨ x = start → x ∈ m_seen M'.
Proof.
  intros HM Ht Hfr Hs. unfold tarjan_from. pose proof (nodes_bound g s HV start Hs) as Hb.
  rewrite (vget_eq _ _ _ (tr_indices _ _ _ Ht start Hb)). rsimpl. case_decide as Hseen.
  { exists t, M. split_and!; [done..|]. by intros x [?| ->]. }
  destruct (discover_Ok t M [] start Ht Hs) as (t1 & -> & Ht1). rsimpl.
  assert (HM1 : tinv succs (sh_nodes s) (discovered succs M start [])).
  { eapply tstep_inv; [|done|by apply ts_start]. by apply (nodes_next g s HV Outgoing). }
  destruct (tarjan_loop_spec (S (frame_steps g)) t1 _ HM1 Ht1) as (t' & M' & -> & HM' & Ht' & Hfr' & Hsub).
  - rewrite (frame_steps_eq g s HV), <-(pending_empty weight). unfold steps_left, frames_left. cbn.
    pose proof (pending_visit weight _ (m_seen M) start (nodes_nodup g s HV) Hs Hseen) as Hv. cbn in Hv.
    pose proof (pending_le weight (sh_nodes s) (m_seen M)) as Hle. lia.
  - exists t', M'. split_and!; [done..|]. intros x Hx. apply Hsub. cbn. set_solver.
Qed.

(** [tarjan_scc] finds the components, sinks first. *)
Lemma tarjan_spec :
  ∃ dec cs, tarjan_scc g = Ok dec ∧ dec_rep bound dec cs [] [] ∧
    sccs (edge_to succs) (edge_to succs) cs ∧ ∀ x, x ∈ concat cs ↔ x ∈ sh_nodes s.
Proof.
  unfold tarjan_scc. rewrite (vw_nodes (g := g) (s := s)). rsimpl. rewrite (vw_bound (g := g) (s := s)).
  destruct (rfold_inv (λ don t, ∃ M, tinv succs (sh_nodes s) M ∧ trep t M [] ∧ m_frames M = [] ∧
      ∀ x, x ∈ don → x ∈ m_seen M) (tarjan_from g)
    (mk_Tarjan 0 [] (replicate bound false) (replicate bound None) (replicate bound 0)
       (with_node_bound bound) [] []) (sh_nodes s)) as (t & Hrun & M & HM & Ht & Hfr & Hcov).
  - exists tarjan_init. split_and!; [apply tarjan_init_inv| |done|by intros x ?%elem_of_nil].
    split; cbn; rewrite ?length_replicate; try done.
    + apply marked_empty.
    + intros n Hn. rewrite lookup_replicate_2 by done. by rewrite decide_False by set_solver.
    + apply dr_init.
    + constructor.
  - intros don n t Hpre (M & HM & Ht & Hfr & Hcov).
    assert (Hn : n ∈ sh_nodes s) by (destruct Hpre as [l ->]; set_solver).
    destruct (tarjan_from_spec t M n HM Ht Hfr Hn) as (t' & M' & -> & HM' & Ht' & Hfr' & Hsub).
    exists t'. split; [done|]. exists M'. split_and!; [done..|]. intros x Hx. apply Hsub. set_solver.
  - rewrite Hrun. rsimpl. exists (tj_result t), (m_comps M).
    split_and!; [done|apply (tr_result _ _ _ Ht)|apply (ti_sccs _ _ _ HM)|].
    intros x. split; intros Hx.
    + apply (ti_live _ _ _ HM), (ti_seen _ _ _ HM). by right.
    + apply Hcov, (ti_seen _ _ _ HM) in Hx as [Hx|Hx]; [|done].
      destruct (ti_down _ _ _ HM x Hx) as (g' & Hg & _). unfold gray in Hg. rewrite Hfr in Hg.
      by apply elem_of_nil in Hg.
Qed.

End Tables.

(** * Strongly connected components: what they guarantee

    Both decompositions of [graph/scc.rs], the queries on them and the
    condensation, over any view that keeps the contract. *)


(** ** Binary search *)

Lemma search_base_spec fuel (v : list Id) x base size :
  StronglySorted N.lt v → base + size ≤ length v → 0 < size → size ≤ fuel →
  (∀ k, v !! k = Some x → base ≤ k < base + size) →
  ∃ b, search_base fuel v x base size = Ok b ∧ b < length v ∧ ∀ k, v !! k = Some x → k = b.
Proof.
  intros Hs. revert base size. induction fuel as [|fuel IH]; intros base size Hlen Hpos Hfuel Hk; [lia|].
  cbn [search_base]. case_decide as Hsz.
  2:{ exists base. split_and!; [done|lia|]. intros k Hx. apply Hk in Hx. lia. }
  assert (Hhalf : 0 < Nat.div2 size < size).
  { rewrite Nat.div2_div. split; [apply Nat.div_str_pos; lia|apply Nat.div_lt; lia]. }
  assert (Hhalf2 : 2 * Nat.div2 size ≤ size) by (rewrite Nat.div2_div; apply Nat.Div0.mul_div_le).
  destruct (lookup_lt_is_Some_2 v (base + Nat.div2 size)) as [y Hy]; [lia|].
  rewrite (vget_eq _ _ _ Hy). rsimpl.
  assert (Hord : ∀ i j a b, v !! i = Some a → v !! j = Some b → i < j → (a < b)%N).
  { clear -Hs. intros i j a b. revert i j. induction Hs as [|z l Hs IH Hz]; [done|].
    intros [|i] [|j] Ha Hb Hij; try lia; cbn in *.
    - injection Ha as ->. rewrite Forall_forall in Hz. by eapply Hz, list_elem_of_lookup_2.
    - apply (IH i j); [done|done|lia]. }
  case_decide as Hxy; apply IH; try lia; intros k Hx; pose proof (Hk k Hx).
  - destruct (decide (k < base + Nat.div2 size)); [lia|]. exfalso.
    destruct (decide (k = base + Nat.div2 size)) as [->|]; [simplify_eq; lia|].
    specialize (Hord _ k y x Hy Hx ltac:(lia)). lia.
  - destruct (decide (k < base + Nat.div2 size)); [|lia]. exfalso.
    specialize (Hord k _ x y Hx Hy ltac:(lia)). lia.
Qed.

Lemma contains_Ok (C : list Id) x : StronglySorted N.lt C → contains C x = Ok (bool_decide (x ∈ C)).
Proof.
  intros Hs. unfold contains, binary_search. destruct C as [|c C]; [by rewrite bool_decide_false by set_solver|].
  destruct (search_base_spec (length (c :: C)) (c :: C) x 0 (length (c :: C)) Hs)
    as (b & -> & Hb & Huniq); [cbn; lia..| |].
  { intros k ?%lookup_lt_Some. lia. }
  rsimpl. destruct (lookup_lt_is_Some_2 _ _ Hb) as [y Hy]. rewrite (vget_eq _ _ _ Hy). rsimpl. f_equal.
  apply bool_decide_ext. split.
  - intros ->. by eapply list_elem_of_lookup_2.
  - intros [k Hk]%list_elem_of_lookup. pose proof (Huniq k Hk) as ->. congruence.
Qed.

(** ** What a decomposition answers *)

(** [dec] decomposes the graph of [s]: its components partition the nodes into
    the classes of mutual reachability, each sorted, and its queries agree. *)
Definition decomposes (s : shape) (dec : SccDecomposition) : Prop :=
  let R := edge_to (sh_next s Outgoing) in
  ∃ cs, components dec = Ok cs ∧ len dec = length cs ∧
    concat cs ≡ₚ sh_nodes s ∧
    (∀ C, C ∈ cs → C ≠ [] ∧ StronglySorted N.lt C) ∧
    ∀ n, n ∈ sh_nodes s → ∃ i C, component_index dec n = Ok i ∧ cs !! i = Some C ∧
      component dec n = Ok C ∧ (∀ m, m ∈ C ↔ mutual R n m) ∧
      ∀ m, ∃ b, contains C m = Ok b ∧ (b = true ↔ mutual R n m).

Section SccTheorems.
Context {G : Type} {HG : GraphView G} (g : G) (s : shape).
Abbreviation R := (edge_to (sh_next s Outgoing)).

Lemma decomposes_rep R' dec cs :
  Views g s → dec_rep (sh_bound s) dec cs [] [] → sccs R R' cs → (∀ x, x ∈ concat cs ↔ x ∈ sh_nodes s) →
  decomposes s dec.
Proof.
  intros HV Hd Hcs Hall. exists cs. split_and!.
  - by eapply components_Ok.
  - by eapply dr_len.
  - apply NoDup_Permutation; [apply Hcs|apply (nodes_nodup g s HV)|done].
  - intros C HC. split; [by apply (sc_inhabited _ _ _ Hcs)|by apply (sc_sorted _ _ _ Hcs)].
  - intros n Hn. pose proof (nodes_bound g s HV n Hn) as Hb.
    pose proof (proj2 (Hall n) Hn) as (i & C & HC & HnC)%concat_elem.
    assert (HCc : C ∈ cs) by by eapply list_elem_of_lookup_2.
    assert (Hm : ∀ m, m ∈ C ↔ mutual R n m) by (intros m; by apply (sc_class _ _ _ Hcs)).
    exists i, C. split_and!; [by eapply component_index_Ok; eauto|done|by eapply component_Ok|done|].
    intros m. rewrite contains_Ok by by apply (sc_sorted _ _ _ Hcs). eexists. split; [done|].
    by rewrite bool_decide_eq_true.
Qed.

(** Along an edge of [R'] the component index does not grow. *)
Lemma index_descends R' dec cs u v i j :
  Views g s → dec_rep (sh_bound s) dec cs [] [] → sccs R R' cs →
  u ∈ sh_nodes s → v ∈ sh_nodes s → R' u v →
  component_index dec u = Ok i → component_index dec v = Ok j → j ≤ i.
Proof.
  intros HV Hd Hcs Hu Hv Huv Hi Hj.
  apply (component_index_Ok _ _ _ Hd) in Hi as (C & HC & HuC); [|by apply (nodes_bound g s HV)].
  apply (component_index_Ok _ _ _ Hd) in Hj as (D & HD & HvD); [|by apply (nodes_bound g s HV)].
  assert (Hin : v ∈ concat (take (S i) cs)).
  { apply (sc_closed _ _ _ Hcs (S i) u); [|done]. apply concat_elem. exists i, C.
    rewrite lookup_take_lt by lia. done. }
  apply concat_elem in Hin as (k & E & HE & HvE). apply lookup_take_Some in HE as [HE Hk].
  enough (j = k) by lia.
  assert (HjD : component_index dec v = Ok j) by (eapply component_index_Ok; [done|by apply (nodes_bound g s HV)|eauto]).
  assert (HkE : component_index dec v = Ok k) by (eapply component_index_Ok; [done|by apply (nodes_bound g s HV)|eauto]).
  congruence.
Qed.

(** C9: Tarjan's decomposition terminates without a panic and its components
    are exactly the classes of mutually reachable nodes, with the queries on
    them; an edge never leads to a component of larger index: the components
    come in reverse topological order of the condensation. *)
Theorem tarjan_finds_components :
  Views g s →
  ∃ dec, tarjan_scc g = Ok dec ∧ decomposes s dec ∧
    ∀ u v i j, u ∈ sh_nodes s → v ∈ sh_next s Outgoing u →
      component_index dec u = Ok i → component_index dec v = Ok j → j ≤ i.
Proof.
  intros HV. destruct (tarjan_spec g s HV) as (dec & cs & Hrun & Hd & Hcs & Hall).
  exists dec. split_and!; [done|by eapply decomposes_rep|].
  intros u v i j Hu Huv Hi Hj. assert (Hv : v ∈ sh_nodes s) by by apply (nodes_next g s HV Outgoing u).
  by apply (index_descends R dec cs u v i j).
Qed.

(** Kosaraju's decomposition terminates without a panic and finds the same
    classes, numbered the other way: an edge never leads to a component of
    smaller index. *)
Theorem kosaraju_finds_components :
  Views g s →
  ∃ dec, kosaraju_scc g = Ok dec ∧ decomposes s dec ∧
    ∀ u v i j, u ∈ sh_nodes s → v ∈ sh_next s Outgoing u →
      component_index dec u = Ok i → component_index dec v = Ok j → i ≤ j.
Proof.
  intros HV. destruct (kosaraju_spec g s HV) as (dec & cs & Hrun & Hd & Hcs & Hall).
  exists dec. split_and!; [done|by eapply decomposes_rep|].
  intros u v i j Hu Huv Hi Hj. assert (Hv : v ∈ sh_nodes s) by by apply (nodes_next g s HV Outgoing u).
  apply (index_descends _ dec cs v u j i HV Hd Hcs Hv Hu); [|done|done].
  by apply (mirror_elem s Outgoing u v (vw_ok (g := g)) Hu Hv).
Qed.

Lemma sorted_same (C D : list Id) :
  StronglySorted N.lt C → StronglySorted N.lt D → (∀ x, x ∈ C ↔ x ∈ D) → C = D.
Proof.
  assert (Hnd : ∀ l : list Id, StronglySorted N.lt l → NoDup l).
  { induction 1 as [|x l Hs IH Hx]; constructor; [|done]. rewrite Forall_forall in Hx.
    intros Hin%Hx. lia. }
  intros HC HD Heq. apply (StronglySorted_unique_strong N.lt); [intros; lia|done|done|].
  apply NoDup_Permutation; [by apply Hnd..|done].
Qed.

Lemma concat_nodup (cs : list (list Id)) :
  NoDup (concat cs) → (∀ C, C ∈ cs → C ≠ []) → NoDup cs.
Proof.
  induction cs as [|c cs IH]; intros Hnd Hne; [constructor|]. cbn in Hnd.
  apply NoDup_app in Hnd as (_ & Hd & Hnd). constructor; [|apply IH; [done|intros C HC; apply Hne; by right]].
  intros Hc. destruct c as [|x c]; [by apply (Hne [] ltac:(left))|]. apply (Hd x); [left|].
  apply list_elem_of_lookup in Hc as [i Hi]. apply concat_elem. exists i, (x :: c). split; [done|left].
Qed.

Lemma sccs_unique R1 R2 cs1 cs2 :
  sccs R R1 cs1 → sccs R R2 cs2 → (∀ x, x ∈ concat cs1 → x ∈ concat cs2) → ∀ C, C ∈ cs1 → C ∈ cs2.
Proof.
  intros H1 H2 Hin C HC. destruct C as [|x C]; [by apply (sc_inhabited _ _ _ H1) in HC|].
  apply list_elem_of_lookup in HC as [i Hi]. pose proof (list_elem_of_lookup_2 _ _ _ Hi) as HC.
  assert (Hx : x ∈ concat cs2) by (apply Hin, concat_elem; exists i, (x :: C); split; [done|left]).
  apply concat_elem in Hx as (j & D & Hj & HxD). pose proof (list_elem_of_lookup_2 _ _ _ Hj) as HD.
  replace (x :: C) with D; [done|].
  apply sorted_same; [by apply (sc_sorted _ _ _ H2)|by apply (sc_sorted _ _ _ H1)|].
  intros y. rewrite (sc_class _ _ _ H2 D x y HD HxD). symmetry. apply (sc_class _ _ _ H1); [done|left].
Qed.

(** The two algorithms find the same components, in possibly different
    order, and give every node the same one. *)
Theorem tarjan_agrees_with_kosaraju :
  Views g s →
  ∃ d1 d2 cs1 cs2, tarjan_scc g = Ok d1 ∧ kosaraju_scc g = Ok d2 ∧
    components d1 = Ok cs1 ∧ components d2 = Ok cs2 ∧ cs1 ≡ₚ cs2 ∧
    ∀ n, n ∈ sh_nodes s → ∃ C, component d1 n = Ok C ∧ component d2 n = Ok C.
Proof.
  intros HV. destruct (tarjan_spec g s HV) as (d1 & cs1 & Hrun1 & Hd1 & Hcs1 & Hall1).
  destruct (kosaraju_spec g s HV) as (d2 & cs2 & Hrun2 & Hd2 & Hcs2 & Hall2).
  assert (H12 : ∀ C, C ∈ cs1 → C ∈ cs2) by (eapply sccs_unique; [done..|]; intros x; by rewrite Hall1, Hall2).
  assert (H21 : ∀ C, C ∈ cs2 → C ∈ cs1) by (eapply sccs_unique; [done..|]; intros x; by rewrite Hall1, Hall2).
  exists d1, d2, cs1, cs2. split_and!; [done..|by eapply components_Ok|by eapply components_Ok| |].
  - apply NoDup_Permutation; [by apply concat_nodup; [apply Hcs1|apply (sc_inhabited _ _ _ Hcs1)]| |].
    + apply concat_nodup; [apply Hcs2|apply (sc_inhabited _ _ _ Hcs2)].
    + intros C. split; auto.
  - intros n Hn. pose proof (nodes_bound g s HV n Hn) as Hb.
    apply Hall1, concat_elem in Hn as (i & C & Hi & HnC). exists C. split; [by eapply component_Ok|].
    pose proof (H12 C (list_elem_of_lookup_2 _ _ _ Hi)) as [j Hj]%list_elem_of_lookup.
    by eapply component_Ok.
Qed.

(** A component is cyclic exactly when one of its nodes lies on a cycle. *)
Lemma is_cyclic_component_Ok R' cs C :
  Views g s → sccs R R' cs → C ∈ cs → (∀ n, n ∈ C → n ∈ sh_nodes s) →
  ∃ b, is_cyclic_component g C = Ok b ∧ (b = true ↔ ∃ n, n ∈ C ∧ tc R n n).
Proof.
  intros HV Hcs HC Hcn. pose proof (sc_inhabited _ _ _ Hcs C HC) as Hne.
  destruct C as [|x [|y C]]; [done| |]; cbn.
  - pose proof (vw_next (g := g) Outgoing x (Hcn x ltac:(left))) as Hx. cbn in Hx. rewrite Hx. rsimpl.
    eexists. split; [done|]. rewrite bool_decide_eq_true. split.
    + intros Hxx. exists x. split; [left|]. by apply tc_once.
    + intros (n & ->%list_elem_of_singleton & Hnn). inversion Hnn as [? ? Hxx|? z ? Hxz Hzx]; subst; [done|].
      assert (z ∈ [x]) as ->%list_elem_of_singleton; [|done].
      apply (sc_class _ _ _ Hcs [x] x z HC); [left|]. split; [by apply rtc_once|by apply tc_rtc].
  - eexists. split; [done|]. split; [|done]. intros _. exists x. split; [left|].
    assert (Hxy : mutual R x y) by (apply (sc_class _ _ _ Hcs (x :: y :: C)); [done|left|right; left]).
    pose proof (sc_sorted _ _ _ Hcs _ HC) as Hs. apply StronglySorted_inv in Hs as [_ Hs%Forall_inv].
    destruct Hxy as [[->|Hxy]%rtc_tc Hyx]; [lia|]. by eapply tc_rtc_r.
Qed.

Lemma all_acyclic_Ok cs (P : list Id → Prop) :
  (∀ C, C ∈ cs → ∃ b, is_cyclic_component g C = Ok b ∧ (b = true ↔ P C)) →
  ∃ b, all_acyclic g cs = Ok b ∧ (b = true ↔ ∀ C, C ∈ cs → ¬ P C).
Proof.
  induction cs as [|C cs IH]; intros Hcyc; cbn.
  { exists true. split; [done|]. split; [|done]. by intros _ C ?%elem_of_nil. }
  destruct (Hcyc C ltac:(left)) as (b & -> & Hb). rsimpl. destruct b.
  - exists false. split; [done|]. split; [done|]. intros H. exfalso. apply (H C); [left|]. by apply Hb.
  - destruct IH as (b & Hrun & Hb2); [intros D HD; apply Hcyc; by right|]. exists b. split; [done|].
    rewrite Hb2. split; intros H D; [|intros HD; apply H; by right].
    intros [->|HD]%elem_of_cons; [|by apply H]. intros HP. by apply Hb in HP.
Qed.

(** [is_dag] holds of the graph's decomposition exactly when no node lies
    on a cycle, self-loops included. *)
Theorem is_dag_means_acyclic :
  Views g s →
  ∃ dec b, tarjan_scc g = Ok dec ∧ is_dag dec g = Ok b ∧
    (b = true ↔ ∀ n, n ∈ sh_nodes s → ¬ tc R n n).
Proof.
  intros HV. destruct (tarjan_spec g s HV) as (dec & cs & Hrun & Hd & Hcs & Hall).
  destruct (all_acyclic_Ok cs (λ C, ∃ n, n ∈ C ∧ tc R n n)) as (b & Hb & Hiff).
  { intros C HC. eapply is_cyclic_component_Ok; [done..|]. intros n Hn.
    apply Hall. apply list_elem_of_lookup in HC as [i Hi]. apply concat_elem. eauto. }
  exists dec, b. split_and!; [done|unfold is_dag; by rewrite (components_Ok _ _ _ Hd)|].
  rewrite Hiff. split.
  - intros H n Hn Hnn. apply Hall, concat_elem in Hn as (i & C & Hi & HnC).
    apply (H C); [by eapply list_elem_of_lookup_2|]. by exists n.
  - intros H C HC (n & HnC & Hnn). apply (H n); [|done].
    apply Hall. apply list_elem_of_lookup in HC as [i Hi]. apply concat_elem. eauto.
Qed.

End SccTheorems.

(** ** Witnesses *)

Lemma tarjan_finds_components_witness :
  ∃ s dec, Views sample_store s ∧ tarjan_scc sample_store = Ok dec ∧ decomposes s dec ∧
    component_index dec 2%N = Ok 1 ∧ component dec 2%N = Ok [2; 3]%N.
Proof.
  destruct sample_view as (s & HV & _). exists s.
  destruct (tarjan_finds_components sample_store s HV) as (dec & Hrun & Hdec & _).
  exists dec. assert (H := Hrun). vm_compute in H. injection H as <-.
  split; [exact HV|]. split; [exact Hrun|]. split; [exact Hdec|]. split; vm_compute; reflexivity.
Defined.

Lemma kosaraju_finds_components_witness :
  ∃ s dec, Views sample_store s ∧ kosaraju_scc sample_store = Ok dec ∧ decomposes s dec ∧
    component_index dec 2%N = Ok 0 ∧ component dec 2%N = Ok [2; 3]%N.
Proof.
  destruct sample_view as (s & HV & _). exists s.
  destruct (kosaraju_finds_components sample_store s HV) as (dec & Hrun & Hdec & _).
  exists dec. assert (H := Hrun). vm_compute in H. injection H as <-.
  split; [exact HV|]. split; [exact Hrun|]. split; [exact Hdec|]. split; vm_compute; reflexivity.
Defined.

Lemma tarjan_agrees_with_kosaraju_witness :
  ∃ s d1 d2 cs1 cs2, Views sample_store s ∧ tarjan_scc sample_store = Ok d1 ∧
    kosaraju_scc sample_store = Ok d2 ∧ components d1 = Ok cs1 ∧ components d2 = Ok cs2 ∧ cs1 ≡ₚ cs2 ∧ cs1 ≠ cs2.
Proof.
  destruct sample_view as (s & HV & _). exists s.
  destruct (tarjan_agrees_with_kosaraju sample_store s HV) as (d1 & d2 & cs1 & cs2 & H1 & H2 & H3 & H4 & H5 & _).
  exists d1, d2, cs1, cs2. split_and!; [exact HV|exact H1|exact H2|exact H3|exact H4|exact H5|].
  vm_compute in H1. injection H1 as <-. vm_compute in H2. injection H2 as <-.
  vm_compute in H3. injection H3 as <-. vm_compute in H4. injection H4 as <-. discriminate.
Defined.

Lemma is_dag_means_acyclic_witness :
  ∃ s, Views sample_store s ∧ ¬ ∀ n, n ∈ sh_nodes s → ¬ tc (edge_to (sh_next s Outgoing)) n n.
Proof.
  destruct sample_view as (s & HV & _). exists s. split; [exact HV|].
  destruct (is_dag_means_acyclic sample_store s HV) as (dec & b & Hdec & Hb & Hiff).
  vm_compute in Hdec. injection Hdec as <-. vm_compute in Hb. injection Hb as <-.
  intros H. apply Hiff in H. discriminate H.
Defined.
