(* ===== verification/SccCondense.v ===== *)
(** * Condensations

    [condensation] and [condensation_of] build a store with one node per
    component and one edge per pair of components joined by an edge. *)

From S2P Require Import Prelude Words Liveness Ids View EdgeViews Chains Runs Store StoreInv StoreEdits StoreSpec StoreView History Samples Traverse Scc SccKosaraju SccTarjan SccTheorems.

(** ** Reporting component edges *)

Section Report.
Context {G : Type} {HG : GraphView G} (g : G) (s : shape) (dec : SccDecomposition) (ci : Id → nat).
Context (HV : Views g s).
Context (Hci : ∀ n, n ∈ sh_nodes s → component_index dec n = Ok (ci n)).

(** The pairs reported for [succ], the successors of [node], given the pairs
    already [wired]. *)
Fixpoint fresh_pairs (wired : gset (nat * nat)) (pairs : list (nat * nat)) : list (nat * nat) :=
  match pairs with
  | [] => []
  | (i, j) :: pairs =>
      if decide (i ≠ j ∧ (i, j) ∉ wired) then (i, j) :: fresh_pairs ({[(i, j)]} ∪ wired) pairs
      else fresh_pairs wired pairs
  end.

Lemma fresh_pairs_app wired p1 p2 :
  fresh_pairs wired (p1 ++ p2) =
    fresh_pairs wired p1 ++ fresh_pairs (wired ∪ list_to_set (fresh_pairs wired p1)) p2.
Proof.
  clear. revert wired. induction p1 as [|[i j] p1 IH]; intros wired; cbn.
  - f_equal. set_solver.
  - case_decide as Hd; [|apply IH]. cbn. rewrite IH. do 3 f_equal. set_solver.
Qed.

Lemma fresh_pairs_elem wired ps i j :
  (i, j) ∈ fresh_pairs wired ps ↔ (i, j) ∈ ps ∧ i ≠ j ∧ (i, j) ∉ wired.
Proof.
  clear. revert wired. induction ps as [|[a b] ps IH]; intros wired; cbn; [set_solver|].
  case_decide as Hd; rewrite ?elem_of_cons, IH; [|destruct (decide ((i, j) = (a, b))); naive_solver].
  rewrite not_elem_of_union, not_elem_of_singleton. destruct (decide ((i, j) = (a, b))) as [[= -> ->]|]; naive_solver.
Qed.

Lemma fresh_pairs_nodup wired ps : NoDup (fresh_pairs wired ps).
Proof.
  clear. revert wired. induction ps as [|[a b] ps IH]; intros wired; cbn; [constructor|].
  case_decide; [|done]. constructor; [|done]. rewrite fresh_pairs_elem. set_solver.
Qed.

Lemma fresh_pairs_length wired ps : length (fresh_pairs wired ps) ≤ length ps.
Proof. clear. revert wired. induction ps as [|[a b] ps IH]; intros wired; cbn; [done|]. case_decide; cbn; [specialize (IH ({[(a, b)]} ∪ wired)); lia|specialize (IH wired); lia]. Qed.

Definition node_pairs (n : Id) : list (nat * nat) := (λ m, (ci n, ci m)) <$> sh_next s Outgoing n.

Definition all_pairs (l : list Id) : list (nat * nat) := l ≫= node_pairs.

Lemma all_pairs_cons n l : all_pairs (n :: l) = node_pairs n ++ all_pairs l.
Proof. done. Qed.

(** The edges the callback sees, in order. *)
Definition condensed_edges : list (nat * nat) := fresh_pairs ∅ (all_pairs (sh_nodes s)).

Lemma inner_report {A} (on_edge : A → nat → nat → res A) wired a n l :
  n ∈ sh_nodes s → (∀ m, m ∈ l → m ∈ sh_nodes s) →
  rfold (λ '(wired, a) successor,
      to ← component_index dec successor;
      if decide (ci n ≠ to ∧ (ci n, to) ∉ (wired : gset (nat * nat)))
      then a ← on_edge a (ci n) to; mret ({[(ci n, to)]} ∪ wired, a)
      else mret (wired, a)) (wired, a) l
  = (a ← rfold (λ a '(i, j), on_edge a i j) a (fresh_pairs wired ((λ m, (ci n, ci m)) <$> l));
     mret (wired ∪ list_to_set (fresh_pairs wired ((λ m, (ci n, ci m)) <$> l)), a)).
Proof.
  intros Hn. revert wired a. induction l as [|m l IH]; intros wired a Hl; cbn [rfold fmap list_fmap fresh_pairs].
  { cbn. by rewrite union_empty_r_L. }
  rewrite Hci by (apply Hl; left). rsimpl. case_decide as Hd; cbn [rfold].
  - destruct (on_edge a (ci n) (ci m)) as [a'| |]; rsimpl; [|done..].
    rewrite IH by (intros; apply Hl; by right). destruct (rfold _ a' _); rsimpl; [|done..].
    do 2 f_equal. cbn. set_solver.
  - rsimpl. by rewrite IH by (intros; apply Hl; by right).
Qed.

(** The loop is a fold of the callback over the distinct pairs. *)
Lemma for_each_fold {A} (on_edge : A → nat → nat → res A) a :
  for_each_component_edge g dec on_edge a = rfold (λ a '(i, j), on_edge a i j) a condensed_edges.
Proof.
  unfold for_each_component_edge, condensed_edges. rewrite (vw_nodes (g := g) (s := s)). rsimpl.
  match goal with |- context [rfold ?f (∅, a) _] => set (step := f) end.
  cut (∀ l wired a, l ⊆ sh_nodes s → rfold step (wired, a) l =
    (a ← rfold (λ a '(i, j), on_edge a i j) a (fresh_pairs wired (all_pairs l));
     mret (wired ∪ list_to_set (fresh_pairs wired (all_pairs l)), a))).
  { intros H. rewrite H by done. by destruct (rfold _ a _). }
  clear a. induction l as [|n l IH]; intros wired a Hl; cbn [rfold].
  { cbn. by rewrite union_empty_r_L. }
  assert (Hn : n ∈ sh_nodes s) by set_solver. unfold step at 2. cbn beta iota. rewrite Hci by done. rsimpl.
  pose proof (vw_next (g := g) Outgoing n Hn) as Hs. cbn in Hs. rewrite Hs. rsimpl.
  rewrite inner_report; [|done|intros m; by apply (nodes_next g s HV Outgoing n)].
  rewrite all_pairs_cons, fresh_pairs_app, rfold_app. change ((λ m, (ci n, ci m)) <$> sh_next s Outgoing n) with (node_pairs n).
  destruct (rfold _ a (fresh_pairs wired (node_pairs n))) as [a'| |]; rsimpl; [|done..].
  rewrite IH by set_solver. destruct (rfold _ a' _); rsimpl; [|done..]. do 2 f_equal.
  rewrite list_to_set_app_L. by rewrite (assoc_L (∪)).
Qed.

Lemma condensed_edges_elem i j :
  (i, j) ∈ condensed_edges ↔
  i ≠ j ∧ ∃ u v, u ∈ sh_nodes s ∧ v ∈ sh_next s Outgoing u ∧ ci u = i ∧ ci v = j.
Proof using.
  unfold condensed_edges. rewrite fresh_pairs_elem. unfold all_pairs. rewrite list_elem_of_bind. unfold node_pairs.
  setoid_rewrite list_elem_of_fmap. split.
  - intros ((u & (v & [= -> ->] & Hv) & Hu) & Hne & _). split; [done|]. by exists u, v.
  - intros (Hne & u & v & Hu & Hv & <- & <-). split_and!; [|done|apply not_elem_of_empty]. exists u. split; [|done]. by exists v.
Qed.

Lemma condensed_edges_length : length condensed_edges ≤ adjacency_total Outgoing g.
Proof.
  rewrite (adjacency_total_eq g s HV). etrans; [apply fresh_pairs_length|]. clear.
  induction (sh_nodes s) as [|n l IH]; [done|].
  rewrite all_pairs_cons, length_app. unfold node_pairs at 1. rewrite length_fmap. cbn. lia.
Qed.
End Report.

(** ** Building the store *)

Section Build.
Context {NP : Type}.

Definition edge_record (p : nat * nat) : EdgeRecord unit := mk_EdgeRecord (N.of_nat (fst p)) (N.of_nat (snd p)) ().

(** A store built from nothing: payloads [ps], edges [es]. *)
Definition built (h : Graph NP unit) (ps : list NP) (es : list (nat * nat)) : Prop :=
  ∃ L, inv h L ∧ all_nodes h = ps ∧ all_edges h = edge_record <$> es ∧
    (∀ n, nlive h n = bool_decide (n < length ps)) ∧ ∀ e, elive h e = bool_decide (index e < length es).

Lemma built_empty : built tagged [] [].
Proof.
  destruct (tagged_repr (NP := NP) (EP := unit)) as [Hn He Hnl Hel (L & Hinv & _)].
  exists L. split_and!; [done|exact Hn|exact He| |].
  - intros n. rewrite bool_decide_false by (cbn; lia). specialize (Hnl (N.of_nat n)).
    unfold index in Hnl. by rewrite Nat2N.id in Hnl.
  - intros e. rewrite bool_decide_false by (cbn; lia). apply Hel.
Qed.

Lemma built_node h ps es p :
  built h ps es → (N.of_nat (length ps) < MAX_SLOTS)%N →
  ∃ h', add_node h p = Ok (h', N.of_nat (length ps)) ∧ built h' (ps ++ [p]) es.
Proof.
  intros (L & Hinv & Hn & He & Hnl & Hel) Hmax.
  assert (Hb : node_bound h = length ps) by by rewrite <-length_all_nodes, Hn.
  destruct (add_node_spec h L p Hinv) as (h' & Hadd & Hinv' & Hn' & He' & Hnl' & Hel' & _); [by rewrite Hb|].
  exists h'. rewrite Hb in Hadd. split; [done|]. exists L. split_and!; [done|by rewrite Hn', Hn|by rewrite He'| |].
  - intros n. rewrite Hnl', Hnl, Hb, length_app. cbn. repeat case_bool_decide; cbn; lia || done.
  - intros e. by rewrite Hel'.
Qed.

Lemma built_edge h ps es i j :
  built h ps es → i < length ps → j < length ps → (N.of_nat (length es) < MAX_SLOTS)%N →
  ∃ h' e, add_edge h (N.of_nat i) (N.of_nat j) () = Ok (h', e) ∧ built h' ps (es ++ [(i, j)]).
Proof.
  intros (L & Hinv & Hn & He & Hnl & Hel) Hi Hj Hmax.
  assert (Hb : edge_bound h = length es) by by rewrite <-length_all_edges, He, length_fmap.
  destruct (add_edge_spec h L (N.of_nat i) (N.of_nat j) () Hinv)
    as (h' & L' & Hadd & Hinv' & Hn' & He' & Hnl' & Hel' & _).
  - rewrite Hnl. unfold index. rewrite Nat2N.id. by apply bool_decide_true.
  - rewrite Hnl. unfold index. rewrite Nat2N.id. by apply bool_decide_true.
  - by rewrite Hb.
  - exists h', (N.of_nat (length es)). rewrite Hb in Hadd. split; [done|].
    exists L'. split_and!; [done|by rewrite Hn'|by rewrite He', He, fmap_app| |].
    + intros n. by rewrite Hnl'.
    + intros e. rewrite Hel', Hel, Hb, length_app. cbn. unfold index. repeat case_bool_decide; cbn; lia || done.
Qed.

Lemma add_nodes_spec (ps : list NP) :
  (N.of_nat (length ps) ≤ MAX_SLOTS)%N →
  ∃ h, add_nodes ps = Ok (h, N.of_nat <$> seq 0 (length ps)) ∧ built h ps [].
Proof.
  intros Hmax. unfold add_nodes.
  destruct (rfold_inv (λ don '(h, ids), built h don [] ∧ ids = N.of_nat <$> seq 0 (length don))
    (λ '(h, ids) p, '(h', i) ← add_node h p; mret (h', ids ++ [i])) (tagged, []) ps)
    as ([h ids] & Hrun & Hbuilt & Hids).
  - split; [apply built_empty|done].
  - intros don p [h ids] [l ->] [Hbuilt ->]. rewrite !length_app in Hmax. cbn in Hmax.
    destruct (built_node h don [] p Hbuilt) as (h' & -> & Hb'); [lia|]. rsimpl. eexists. split; [done|].
    split; [done|]. rewrite length_app. cbn. rewrite Nat.add_1_r, seq_S, fmap_app. done.
  - exists h. by rewrite Hrun, Hids.
Qed.

Lemma add_edges_spec (f : Graph NP unit → nat → nat → res (Graph NP unit)) h ps es0 es :
  built h ps es0 → (∀ i j, (i, j) ∈ es → i < length ps ∧ j < length ps) →
  (N.of_nat (length es0 + length es) ≤ MAX_SLOTS)%N →
  (∀ h i j, i < length ps → j < length ps →
     f h i j = ('(h', _) ← add_edge h (N.of_nat i) (N.of_nat j) (); mret h')) →
  ∃ h', rfold (λ h '(i, j), f h i j) h es = Ok h' ∧ built h' ps (es0 ++ es).
Proof.
  revert h es0. induction es as [|[i j] es IH]; intros h es0 Hb Hes Hmax Hf; cbn [rfold].
  { exists h. by rewrite app_nil_r. }
  destruct (Hes i j) as [Hi Hj]; [left|]. rewrite Hf by done. cbn in Hmax.
  destruct (built_edge h ps es0 i j Hb Hi Hj) as (h' & e & -> & Hb'); [lia|]. rsimpl.
  destruct (IH h' (es0 ++ [(i, j)])) as (h2 & -> & Hb2); [done|intros; apply Hes; by right| |done|].
  { rewrite length_app. cbn. lia. }
  exists h2. by rewrite <-app_assoc in Hb2.
Qed.

(** What a built store answers. *)
Lemma built_nodes h ps es :
  built h ps es → node_ids h = Ok (N.of_nat <$> seq 0 (length ps)) ∧
    ∀ i p, ps !! i = Some p → Store.node h (N.of_nat i) = Ok p.
Proof.
  intros (L & Hinv & Hn & He & Hnl & Hel). split.
  - rewrite (node_ids_spec h L Hinv). rewrite filter_all; [by rewrite <-length_all_nodes, Hn|].
    intros i Hi%elem_of_seq. rewrite Hnl. apply bool_decide_true. rewrite <-Hn, length_all_nodes. lia.
  - intros i p Hp. apply node_lookup. unfold index. by rewrite Nat2N.id, Hn.
Qed.
End Build.

Lemma NoDup_omap_inj {A B} (f : A → option B) (l : list A) :
  (∀ x y z, x ∈ l → y ∈ l → f x = Some z → f y = Some z → x = y) → NoDup l → NoDup (omap f l).
Proof.
  intros Hf. induction 1 as [|x l Hx Hnd IH]; [constructor|]. cbn.
  assert (IH' : NoDup (omap f l)) by (apply IH; intros y y' z Hy Hy'; apply Hf; by right).
  destruct (f x) as [z|] eqn:E; [|done]. constructor; [|done].
  intros (y & Hy & Hyz)%list_elem_of_omap. apply Hx.
  by rewrite (Hf x y z ltac:(left) ltac:(by right) E Hyz).
Qed.

Lemma built_successors {NP} (h : Graph NP unit) ps es i :
  built h ps es → NoDup es → (∀ i j, (i, j) ∈ es → i < length ps ∧ j < length ps) → i < length ps →
  ∃ l, successors h (N.of_nat i) = Ok l ∧ NoDup l ∧ ∀ m, m ∈ l ↔ (i, index m) ∈ es.
Proof.
  intros (L & Hinv & Hn & He & Hnl & Hel) Hnd Hes Hi.
  assert (Hii : index (N.of_nat i) = i) by (unfold index; apply Nat2N.id).
  assert (Hb : i < node_bound h) by by rewrite <-length_all_nodes, Hn.
  rewrite (successors_Ok h L) by (done || by rewrite Hii). rewrite Hii. eexists. split; [done|].
  assert (Hedge : ∀ e r, all_edges h !! index e = Some r ↔ ∃ p, es !! index e = Some p ∧ r = edge_record p).
  { intros e r. rewrite He, list_lookup_fmap_Some. naive_solver. }
  assert (Hadj : ∀ e, e ∈ adj h L Outgoing i ↔ ∃ j, es !! index e = Some (i, j)).
  { intros e. rewrite (elem_of_adj h L Hinv), Hel, bool_decide_eq_true. setoid_rewrite Hedge. split.
    - intros (_ & r & ([a b] & Hp & ->) & Hend). cbn in Hend. unfold index in Hend.
      rewrite Nat2N.id in Hend. subst a. by exists b.
    - intros (j & Hj). split; [by eapply lookup_lt_Some|]. exists (edge_record (i, j)).
      split; [by exists (i, j)|]. cbn. unfold index. apply Nat2N.id. }
  unfold far_ends. cbn [flip endpoint]. split.
  - apply NoDup_omap_inj; [|apply (adj_nodup _ _ Hinv)].
    intros e e' m He1%Hadj He2%Hadj. destruct He1 as (j & Hj), He2 as (j' & Hj').
    cbn beta. rewrite He, !list_lookup_fmap, Hj, Hj'. cbn. intros [= <-] [= Hjj]. apply N2Nat.inj.
    assert (j' = j) as -> by lia. by apply (NoDup_lookup es (index e) (index e') (i, j)).
  - intros m. rewrite list_elem_of_omap. split.
    + intros (e & He1 & He2). apply Hadj in He1 as (j & Hj). rewrite He, list_lookup_fmap, Hj in He2. cbn in He2.
      injection He2 as <-. unfold index. rewrite Nat2N.id. by eapply list_elem_of_lookup_2.
    + intros [k Hk]%list_elem_of_lookup. exists (N.of_nat k). split.
      * apply Hadj. exists (index m). unfold index at 1. by rewrite Nat2N.id.
      * rewrite He, list_lookup_fmap. unfold index at 1. rewrite Nat2N.id, Hk. cbn. f_equal.
        unfold index. by rewrite N2Nat.id.
Qed.

(** ** The condensations *)

(** [h] is the condensation of the graph of [s] along [dec]: one node per
    component, and a single edge from one component to another exactly when an
    edge of the graph leads from a node of the first to a node of the second. *)
Definition condenses {NP} (s : shape) (dec : SccDecomposition) (payloads : list NP) (h : Graph NP unit) : Prop :=
  node_ids h = Ok (N.of_nat <$> seq 0 (len dec)) ∧
  (∀ i p, payloads !! i = Some p → Store.node h (N.of_nat i) = Ok p) ∧
  ∀ i, i < len dec → ∃ l, successors h (N.of_nat i) = Ok l ∧ NoDup l ∧
    ∀ m, m ∈ l ↔ index m ≠ i ∧ ∃ u v, u ∈ sh_nodes s ∧ v ∈ sh_next s Outgoing u ∧
      component_index dec u = Ok i ∧ component_index dec v = Ok (index m).

Section Condense.
Context {G : Type} {HG : GraphView G} (g : G) (s : shape).
Abbreviation R := (edge_to (sh_next s Outgoing)).

(** The table of component indices of a finished decomposition. *)
Lemma index_table dec cs :
  Views g s → dec_rep (sh_bound s) dec cs [] [] → (∀ x, x ∈ concat cs ↔ x ∈ sh_nodes s) →
  ∃ ci, ∀ n, n ∈ sh_nodes s → component_index dec n = Ok (ci n) ∧ ci n < length cs.
Proof.
  intros HV Hd Hall. exists (λ n, match component_index dec n with Ok i => i | _ => 0 end).
  intros n Hn. pose proof (nodes_bound g s HV n Hn) as Hb.
  apply Hall, concat_elem in Hn as (i & C & HC & HnC).
  assert (component_index dec n = Ok i) as -> by (eapply component_index_Ok; eauto).
  split; [done|by eapply lookup_lt_Some].
Qed.

Lemma condense_spec {NP} (dec : SccDecomposition) cs (ps : list NP) on_edge :
  Views g s → dec_rep (sh_bound s) dec cs [] [] → (∀ x, x ∈ concat cs ↔ x ∈ sh_nodes s) →
  length ps = length cs →
  (N.of_nat (length cs) ≤ MAX_SLOTS)%N → (N.of_nat (adjacency_total Outgoing g) ≤ MAX_SLOTS)%N →
  (∀ h i j, i < length cs → j < length cs →
     on_edge h i j = ('(h', _) ← add_edge h (N.of_nat i) (N.of_nat j) (); mret h')) →
  ∃ h h', add_nodes ps = Ok (h, N.of_nat <$> seq 0 (length cs)) ∧
    for_each_component_edge g dec on_edge h = Ok h' ∧ condenses s dec ps h'.
Proof.
  intros HV Hd Hall Hps Hmax Hmax2 Hon. destruct (index_table dec cs HV Hd Hall) as (ci & Hci).
  destruct (add_nodes_spec ps) as (h & Hh & Hb); [by rewrite Hps|].
  set (es := condensed_edges s ci).
  assert (Helem : ∀ i j, (i, j) ∈ es ↔ i ≠ j ∧ ∃ u v, u ∈ sh_nodes s ∧ v ∈ sh_next s Outgoing u ∧
            ci u = i ∧ ci v = j) by apply condensed_edges_elem.
  assert (Hrange : ∀ i j, (i, j) ∈ es → i < length ps ∧ j < length ps).
  { intros i j (_ & u & v & Hu & Hv & <- & <-)%Helem. rewrite Hps.
    split; apply Hci; [done|]. by apply (nodes_next g s HV Outgoing u). }
  assert (Hlen : length es ≤ adjacency_total Outgoing g) by by apply condensed_edges_length.
  destruct (add_edges_spec on_edge h ps [] es Hb Hrange) as (h' & Hrun & Hb').
  { cbn. lia. }
  { rewrite Hps. apply Hon. }
  cbn in Hb'. exists h, h'. rewrite <-Hps. split_and!; [done| |].
  - rewrite (for_each_fold g s dec ci HV) by (intros; by apply Hci). exact Hrun.
  - destruct (built_nodes h' ps es Hb') as [Hids Hnode]. unfold condenses.
    rewrite (dr_len _ _ _ _ _ Hd), <-Hps. split_and!; [done..|].
    intros i Hi. destruct (built_successors h' ps es i Hb') as (l & Hl & Hnd & Hin);
      [apply fresh_pairs_nodup|done|done|].
    exists l. split_and!; [done..|]. intros m. rewrite Hin, Helem. split.
    + intros (Hne & u & v & Hu & Hv & Hui & Hvj). split; [by apply not_eq_sym|]. exists u, v. rewrite <-Hui, <-Hvj.
      split_and!; [done|done|by apply Hci|by apply Hci, (nodes_next g s HV Outgoing u)].
    + intros (Hne & u & v & Hu & Hv & Hi' & Hj'). split; [by apply not_eq_sym|]. exists u, v.
      pose proof (proj1 (Hci u Hu)). pose proof (proj1 (Hci v (nodes_next g s HV Outgoing u v Hu Hv))).
      split_and!; [done|done|congruence|congruence].
Qed.

Lemma vget_ids n i : i < n → vget (N.of_nat <$> seq 0 n) i = Ok (N.of_nat i).
Proof. intros Hi. apply vget_eq. rewrite list_lookup_fmap, lookup_seq_lt by done. done. Qed.

Lemma components_count R' cs :
  Views g s → sccs R R' cs → (∀ x, x ∈ concat cs ↔ x ∈ sh_nodes s) → length cs ≤ length (sh_nodes s).
Proof.
  intros HV Hcs Hall.
  assert (Hp : concat cs ≡ₚ sh_nodes s) by (apply NoDup_Permutation; [apply Hcs|apply (nodes_nodup g s HV)|done]).
  rewrite <-Hp. pose proof (sc_inhabited _ _ _ Hcs) as Hne. clear -Hne. induction cs as [|C cs IH]; [done|].
  cbn. rewrite length_app. assert (C ≠ []) by (apply Hne; left). destruct C; [done|].
  cbn. assert (length cs ≤ length (concat cs)) by (apply IH; intros D HD; apply Hne; by right). lia.
Qed.

(** [condensation] builds the component graph: the component slices as
    nodes, in the order of Tarjan's decomposition, one edge per pair of
    components joined by an edge, and every edge leading to a smaller index, so
    that the result is acyclic. *)
Theorem condensation_is_component_dag :
  Views g s → (N.of_nat (length (sh_nodes s)) ≤ MAX_SLOTS)%N →
  (N.of_nat (adjacency_total Outgoing g) ≤ MAX_SLOTS)%N →
  ∃ dec cs h, tarjan_scc g = Ok dec ∧ components dec = Ok cs ∧ condensation g = Ok h ∧
    condenses s dec cs h ∧
    ∀ i l m, i < len dec → successors h (N.of_nat i) = Ok l → m ∈ l → index m < i.
Proof.
  intros HV Hmax Hmax2. destruct (tarjan_spec g s HV) as (dec & cs & Hrun & Hd & Hcs & Hall).
  pose proof (components_count R cs HV Hcs Hall) as Hle.
  set (on_edge := λ (h : Graph (list Id) unit) from to,
    s ← vget (N.of_nat <$> seq 0 (length cs)) from; t ← vget (N.of_nat <$> seq 0 (length cs)) to;
    '(h', _) ← add_edge h s t (); mret h').
  destruct (condense_spec dec cs cs on_edge HV Hd Hall) as (h & h' & Hadd & Hfor & Hcond); [done|lia|done| |].
  { intros h i j Hi Hj. unfold on_edge. by rewrite !vget_ids. }
  exists dec, cs, h'. split_and!; [done|by eapply components_Ok| |done|].
  - unfold condensation. rewrite Hrun. rsimpl. rewrite (components_Ok _ _ _ Hd). rsimpl.
    rewrite Hadd. exact Hfor.
  - intros i l m Hi Hl Hm. destruct Hcond as (_ & _ & Hsucc). destruct (Hsucc i Hi) as (l' & Hl' & _ & Hin).
    rewrite Hl in Hl'. injection Hl' as <-. apply Hin in Hm as (Hne & u & v & Hu & Hv & Hi' & Hj').
    assert (index m ≤ i); [|lia].
    apply (index_descends g s R dec cs u v i (index m)); [done..| |done|done|done].
    by apply (nodes_next g s HV Outgoing u).
Qed.

(** [condensation_of] builds the same graph, without payloads, from either
    decomposition of the graph, and panics on one of another node bound. *)
Theorem condensation_of_decomposition dec :
  Views g s → (N.of_nat (length (sh_nodes s)) ≤ MAX_SLOTS)%N →
  (N.of_nat (adjacency_total Outgoing g) ≤ MAX_SLOTS)%N →
  (tarjan_scc g = Ok dec ∨ kosaraju_scc g = Ok dec →
    ∃ h, condensation_of g dec = Ok h ∧ condenses s dec (replicate (len dec) ()) h) ∧
  (length (component_of dec) ≠ sh_bound s →
    condensation_of g dec = Panic "condensation_of takes the decomposition OF this graph").
Proof.
  intros HV Hmax Hmax2. unfold condensation_of. rewrite (vw_bound (g := g) (s := s)). split.
  2:{ intros Hne. by rewrite bool_decide_false. }
  intros Hrun. assert (Hrep : ∃ cs R', dec_rep (sh_bound s) dec cs [] [] ∧ sccs R R' cs ∧
    ∀ x, x ∈ concat cs ↔ x ∈ sh_nodes s).
  { destruct Hrun as [Hrun|Hrun].
    - destruct (tarjan_spec g s HV) as (d & cs & Hr & H). assert (d = dec) as -> by congruence. eauto.
    - destruct (kosaraju_spec g s HV) as (d & cs & Hr & H). assert (d = dec) as -> by congruence. eauto. }
  destruct Hrep as (cs & R' & Hd & Hcs & Hall). pose proof (components_count R' cs HV Hcs Hall) as Hle.
  rewrite (dr_length _ _ _ _ _ Hd), bool_decide_true by done. rsimpl. rewrite (dr_len _ _ _ _ _ Hd).
  match goal with |- context [for_each_component_edge g dec ?f _] => set (on_edge := f) end.
  destruct (condense_spec dec cs (replicate (length cs) ()) on_edge HV Hd Hall) as (h & h' & Hadd & Hfor & Hcond);
    [apply length_replicate|lia|done| |].
  { intros h i j Hi Hj. unfold on_edge. unfold MAX_SLOTS, NONE in *. by rewrite !from_index_eq by lia. }
  rewrite Hadd. rsimpl. exists h'. split; [exact Hfor|done].
Qed.
End Condense.

(** ** Witnesses *)

Lemma condensation_is_component_dag_witness :
  ∃ s dec cs h, Views sample_store s ∧ tarjan_scc sample_store = Ok dec ∧ components dec = Ok cs ∧
    condensation sample_store = Ok h ∧ condenses s dec cs h ∧ successors h 1%N = Ok [0%N].
Proof.
  destruct sample_nodes as (s & HV & Hn & _). exists s.
  destruct (condensation_is_component_dag sample_store s HV) as (dec & cs & h & H1 & H2 & H3 & H4 & _);
    [rewrite Hn; vm_compute; discriminate|vm_compute; discriminate|].
  exists dec, cs, h. split_and!; [exact HV|exact H1|exact H2|exact H3|exact H4|].
  vm_compute in H3. injection H3 as <-. vm_compute. reflexivity.
Defined.

Lemma condensation_of_decomposition_witness :
  ∃ s dec h, Views sample_store s ∧ kosaraju_scc sample_store = Ok dec ∧
    condensation_of sample_store dec = Ok h ∧ condenses s dec (replicate (len dec) ()) h ∧
    successors h 0%N = Ok [1%N].
Proof.
  destruct sample_nodes as (s & HV & Hn & _). exists s.
  destruct (kosaraju_scc sample_store) as [dec| |] eqn:Hk; [|vm_compute in Hk; discriminate Hk..].
  destruct (condensation_of_decomposition sample_store s dec HV) as [H _];
    [rewrite Hn; vm_compute; discriminate|vm_compute; discriminate|].
  destruct (H (or_intror Hk)) as (h & Hh & Hc). exists dec, h.
  split_and!; [exact HV|reflexivity|exact Hh|exact Hc|].
  vm_compute in Hk. injection Hk as <-. vm_compute in Hh. injection Hh as <-. vm_compute. reflexivity.
Defined.
