(* ===== verification/Relax.v ===== *)
(** * Minimum-label relaxation

    Models [graph/relax.rs]. The loop runs until its worklist is empty, however
    long that takes, so the model takes the fuel as an argument; labels that
    cannot descend for ever make some fuel enough, and a transfer that
    preserves improvements makes the result the least label every node can be
    reached with. *)

From S2P Require Import Prelude Words Liveness Ids View EdgeViews Chains Runs Store StoreInv StoreSpec StoreView History Samples.

(** ** The loop *)

Section Relax.
Context {NP EP L : Type} (le : L → L → Prop) `{!TotalOrder le, !RelDecision le}.
Implicit Types (g : Graph NP EP) (labels : list (option L)) (worklist : list (Id * L)).

(** The endpoint an edge is followed to *)
Definition far_end (d : TraversalDirection) (r : EdgeRecord EP) : Id :=
  match d with Outgoing => target r | Incoming => source r end.

(** [labels\[node\].as_ref().is_some_and(|known| known <= &candidate)] *)
Definition known_le (known : option L) (candidate : L) : bool :=
  match known with Some k => bool_decide (le k candidate) | None => false end.

(** [for edge_id in adjacency]; the head of the list is the top of the stack. *)
Definition push_candidates g (d : TraversalDirection) (relax : EdgeRecord EP → L → option L) (label : L)
    (worklist : list (Id * L)) (es : list Id) : res (list (Id * L)) :=
  rfold (λ worklist e,
    r ← edge g e;
    mret match relax r label with
         | Some candidate => (far_end d r, candidate) :: worklist
         | None => worklist
         end) worklist es.

(** [while let Some((node, candidate)) = worklist.pop()] *)
Fixpoint relax_loop (fuel : nat) g d (relax : EdgeRecord EP → L → option L) labels worklist
    : res (list (option L)) :=
  match fuel with
  | 0 => Stuck
  | S fuel =>
      match worklist with
      | [] => mret labels
      | (node, candidate) :: worklist =>
          _ ← rassert (bool_decide (index node < length labels)) "seed node is out of range";
          known ← vget labels (index node);
          if known_le known candidate then relax_loop fuel g d relax labels worklist
          else
            labels' ← vset labels (index node) (Some candidate);
            es ← adjacency g d node;
            worklist' ← push_candidates g d relax candidate worklist es;
            relax_loop fuel g d relax labels' worklist'
      end
  end.

(** [min_label_relaxation] *)
Definition min_label_relaxation (fuel : nat) g (seeds : list (Id * L)) d relax : res (list (option L)) :=
  relax_loop fuel g d relax (replicate (node_bound g) None) (rev seeds).

(** ** What labels reach a node *)

Inductive reached g d relax (seeds : list (Id * L)) : Id → L → Prop :=
  | reached_seed n l : (n, l) ∈ seeds → reached g d relax seeds n l
  | reached_edge n l es e r l' : reached g d relax seeds n l →
      adjacency g d n = Ok es → e ∈ es → edge g e = Ok r → relax r l = Some l' →
      reached g d relax seeds (far_end d r) l'.

(** One reached label below another. *)
Definition descends g d relax seeds (a b : L) : Prop := (∃ n, reached g d relax seeds n a) ∧ strict le a b.

(** A smaller label loses no candidate and produces no larger one. *)
Definition preserves_improvements (relax : EdgeRecord EP → L → option L) : Prop :=
  ∀ r a b y, le a b → relax r b = Some y → ∃ x, relax r a = Some x ∧ le x y.

(** [l] is the least label that reaches [n]. *)
Definition least_reached g d relax seeds (n : Id) (o : option L) : Prop :=
  match o with
  | Some l => reached g d relax seeds n l ∧ ∀ l', reached g d relax seeds n l' → le l l'
  | None => ∀ l, ¬ reached g d relax seeds n l
  end.

(** ** More fuel changes nothing *)

Lemma relax_loop_mono fuel fuel' g d relax labels worklist r :
  fuel ≤ fuel' → relax_loop fuel g d relax labels worklist = r → r ≠ Stuck →
  relax_loop fuel' g d relax labels worklist = r.
Proof.
  revert fuel' labels worklist. induction fuel as [|fuel IH]; intros fuel' labels worklist Hle Hr Hns; [done|].
  destruct fuel' as [|fuel']; [lia|]. cbn [relax_loop] in *. destruct worklist as [|[n c] w]; [done|].
  destruct (rassert _ _); rsimpl; [|done..]. destruct (vget labels _) as [known| |]; rsimpl; [|done..].
  cbn [mbind res_bind] in Hr. destruct (known_le known c); [apply IH; [lia|done|done]|].
  destruct (vset labels _ _) as [labels'| |]; cbn [mbind res_bind] in *; [|done..].
  destruct (adjacency g d n) as [es| |]; cbn [mbind res_bind] in *; [|done..].
  destruct (push_candidates g d relax c w es) as [w'| |]; cbn [mbind res_bind] in *; [|done..].
  apply IH; [lia|done|done].
Qed.

(** ** Lowering one label at a time ends *)

(** [v] is [w] with one entry lowered along [R]. *)
Inductive one_lower {A} (R : A → A → Prop) : list A → list A → Prop :=
  | ol_here x y v : R x y → one_lower R (x :: v) (y :: v)
  | ol_there x v w : one_lower R v w → one_lower R (x :: v) (x :: w).

Lemma one_lower_wf {A} (R : A → A → Prop) (v : list A) : well_founded R → Acc (one_lower R) v.
Proof.
  intros Hwf. induction v as [|x v IH].
  { constructor. intros w Hw. inversion Hw. }
  revert v IH. induction (Hwf x) as [x _ IHx]. intros v Hv.
  induction Hv as [v Hv IHv]. constructor. intros w Hw.
  inversion Hw as [y ? ? Hxy|? v' ? Hvv]; subst; [|by apply IHv].
  apply IHx; [done|]. constructor. exact Hv.
Qed.

Lemma one_lower_insert {A} (R : A → A → Prop) (v : list A) i x y :
  v !! i = Some y → R x y → one_lower R (<[i := x]> v) v.
Proof.
  revert i. induction v as [|z v IH]; intros [|i] Hi HR; cbn in *; [done|done| |].
  - injection Hi as ->. by constructor.
  - constructor. by apply IH.
Qed.

(** [None] is above every label. *)
Definition lowers (D : L → L → Prop) (a b : option L) : Prop :=
  match a, b with
  | Some x, Some y => D x y
  | Some _, None => True
  | None, _ => False
  end.

Lemma lowers_wf (D : L → L → Prop) : well_founded D → well_founded (lowers D).
Proof.
  intros Hwf. assert (HS : ∀ x, Acc (lowers D) (Some x)).
  { intros x. induction (Hwf x) as [x _ IH]. constructor. intros [y|] Hy; [by apply IH|done]. }
  intros [x|]; [done|]. constructor. intros [y|] Hy; [done|done].
Qed.

(** ** The loop on a store *)
Section Run.
Context (g : Graph NP EP) (Lc : TraversalDirection → nat → list N) (Hinv : inv g Lc).
Context (d : TraversalDirection) (relax : EdgeRecord EP → L → option L) (seeds : list (Id * L)).
Abbreviation got := (reached g d relax seeds).

Lemma adjacent_records n :
  index n < node_bound g →
  ∃ es, adjacency g d n = Ok es ∧
    ∀ e, e ∈ es → ∃ r, edge g e = Ok r ∧ index (far_end d r) < node_bound g.
Proof.
  intros Hn. exists (adj g Lc d (index n)). split; [by apply adjacency_Ok|].
  intros e (He & _)%(elem_of_adj g Lc Hinv). destruct (live_edge_record g Lc Hinv e He) as (r & Hr & Hends).
  exists r. split; [by apply edge_lookup|]. apply (nlive_lt _ _ Hinv).
  destruct d; [apply (Hends Incoming)|apply (Hends Outgoing)].
Qed.

(** The stack after an expansion: what it held, and a candidate per accepted edge. *)
Lemma push_candidates_spec c w es :
  (∀ e, e ∈ es → ∃ r, edge g e = Ok r ∧ index (far_end d r) < node_bound g) →
  ∃ w', push_candidates g d relax c w es = Ok w' ∧
    (∀ p, p ∈ w' ↔ p ∈ w ∨ ∃ e r, e ∈ es ∧ edge g e = Ok r ∧ fst p = far_end d r ∧ relax r c = Some (snd p)) ∧
    (Forall (λ p, index (fst p) < node_bound g) w' ↔ Forall (λ p, index (fst p) < node_bound g) w).
Proof.
  unfold push_candidates. revert w. induction es as [|e es IH]; intros w Hes; cbn [rfold].
  { exists w. split_and!; [done| |done]. intros p. split; [by left|].
    intros [?|(e & r & ?%elem_of_nil & _)]; done. }
  destruct (Hes e ltac:(left)) as (r & Hr & Hfar). rewrite Hr. rsimpl.
  destruct (IH (match relax r c with Some l' => (far_end d r, l') :: w | None => w end))
    as (w' & Hrun & Hin & Hall); [intros e' He'; apply Hes; by right|]. exists w'. split_and!; [exact Hrun| |].
  - intros p. rewrite Hin. setoid_rewrite elem_of_cons. destruct (relax r c) as [l'|] eqn:Hrel.
    + rewrite elem_of_cons. split.
      * intros [[->|Hp]|(e' & r' & He' & Hrest)]; [|by left|].
        -- right. exists e, r. by split_and!; [left|..].
        -- right. exists e', r'. by split; [right|].
      * intros [Hp|(e' & r' & [->|He'] & Hr' & Hp1 & Hp2)]; [by left; right| |right; by exists e', r'].
        left; left. destruct p. cbn in *. congruence.
    + split; (intros [Hp|(e' & r' & He' & Hr' & Hp1 & Hp2)]; [by left|right]).
      * exists e', r'. by split_and!; [right|..].
      * destruct He' as [->|He']; [congruence|]. by exists e', r'.
  - rewrite Hall. destruct (relax r c) as [l'|]; [|done]. rewrite Forall_cons. cbn. tauto.
Qed.

(** A label no larger than [l] is known at [n], or [l] is waiting there. *)
Definition covered labels worklist (n : Id) (l : L) : Prop :=
  (∃ k, labels !! index n = Some (Some k) ∧ le k l) ∨ (n, l) ∈ worklist.

Record rinv labels worklist : Prop := mk_rinv {
  ri_length : length labels = node_bound g;
  ri_reached : ∀ n l, labels !! index n = Some (Some l) → got n l;
  ri_work : ∀ n l, (n, l) ∈ worklist → got n l;
  ri_seeds : ∀ n l, (n, l) ∈ seeds → covered labels worklist n l;
  ri_edges : ∀ n l es e r l', labels !! index n = Some (Some l) → adjacency g d n = Ok es → e ∈ es →
    edge g e = Ok r → relax r l = Some l' → covered labels worklist (far_end d r) l';
}.

Lemma rinv_init : rinv (replicate (node_bound g) None) (rev seeds).
Proof.
  split.
  - apply length_replicate.
  - intros n l Hl. by apply lookup_replicate in Hl as [? _].
  - intros n l Hl. constructor. by rewrite (Permutation_rev seeds).
  - intros n l Hl. right. by rewrite <-(Permutation_rev seeds).
  - intros n l es e r l' Hl. by apply lookup_replicate in Hl as [? _].
Qed.

Lemma not_le_lower k c : ¬ le k c → strict le c k.
Proof. intros Hn. split; [|done]. destruct (total le k c); done. Qed.

(** Dropping a candidate that is no improvement. *)
Lemma rinv_drop labels n c w k :
  rinv labels ((n, c) :: w) → labels !! index n = Some (Some k) → le k c → rinv labels w.
Proof.
  intros [H1 H2 H3 H4 H5] Hk Hle.
  assert (Hc : ∀ m l, covered labels ((n, c) :: w) m l → covered labels w m l).
  { intros m l [?|[[= -> ->]|Hin]%elem_of_cons]; [by left|left; by exists k|by right]. }
  split; eauto. intros m l Hm. apply H3. by right.
Qed.

(** Storing an improvement and pushing what it reaches. *)
Lemma rinv_store labels n c w w' known es :
  rinv labels ((n, c) :: w) → labels !! index n = Some known → known_le known c = false →
  adjacency g d n = Ok es →
  (∀ p, p ∈ w' ↔ p ∈ w ∨ ∃ e r, e ∈ es ∧ edge g e = Ok r ∧ fst p = far_end d r ∧ relax r c = Some (snd p)) →
  rinv (<[index n := Some c]> labels) w'.
Proof.
  intros [H1 H2 H3 H4 H5] Hk Hle Hes Hw. pose proof (lookup_lt_Some _ _ _ Hk) as Hlt.
  assert (Hgot : got n c) by (apply H3; left).
  assert (Hcov : ∀ m l, covered labels ((n, c) :: w) m l → covered (<[index n := Some c]> labels) w' m l).
  { intros m l [(k & Hm & Hkl)|[[= -> ->]|Hin]%elem_of_cons].
    - left. destruct (decide (m = n)) as [->|Hne].
      + exists c. rewrite list_lookup_insert_eq by done. split; [done|].
        assert (known = Some k) as -> by congruence. cbn in Hle. apply bool_decide_eq_false in Hle.
        etrans; [|exact Hkl]. by apply not_le_lower.
      + exists k. rewrite list_lookup_insert_ne; [done|]. by intros ?%N2Nat.inj.
    - left. exists c. by rewrite list_lookup_insert_eq.
    - right. apply Hw. by left. }
  split.
  - by rewrite length_insert.
  - intros m l Hm. destruct (decide (m = n)) as [->|Hne].
    + rewrite list_lookup_insert_eq in Hm by done. by injection Hm as <-.
    + rewrite list_lookup_insert_ne in Hm by (by intros ?%N2Nat.inj). by apply H2.
  - intros m l [Hin|(e & r & He & Hr & Hm & Hl)]%Hw; [apply H3; by right|]. cbn in Hm, Hl. subst m.
    by eapply reached_edge.
  - auto.
  - intros m l es' e r l' Hm Hes' He Hr Hl. destruct (decide (m = n)) as [->|Hne].
    + rewrite list_lookup_insert_eq in Hm by done. injection Hm as <-. right. apply Hw. right.
      exists e, r. assert (es' = es) as -> by congruence. done.
    + rewrite list_lookup_insert_ne in Hm by (by intros ?%N2Nat.inj). apply Hcov. by eapply H5.
Qed.

(** Whatever the transfer, labels that cannot descend for ever end the loop;
    it panics exactly when a node of the stack is out of range. *)
Lemma relax_loop_ends labels w :
  well_founded (descends g d relax seeds) → rinv labels w →
  ∃ fuel, if decide (Forall (λ p, index (fst p) < node_bound g) w)
          then ∃ labels', relax_loop fuel g d relax labels w = Ok labels' ∧ rinv labels' []
          else relax_loop fuel g d relax labels w = Panic "seed node is out of range".
Proof.
  intros Hwf. revert w. induction (one_lower_wf _ labels (lowers_wf _ Hwf)) as [labels _ IH].
  intros w. induction w as [|[n c] w IHw]; intros HI.
  { exists 1. rewrite decide_True by done. by exists labels. }
  destruct (decide (index n < node_bound g)) as [Hn|Hn].
  2:{ exists 1. rewrite decide_False by (intros Hf; by apply Forall_inv in Hf). cbn.
      by rewrite (ri_length _ _ HI), bool_decide_false. }
  destruct (lookup_lt_is_Some_2 labels (index n)) as [known Hk]; [by rewrite (ri_length _ _ HI)|].
  assert (Hone : ∀ fuel, relax_loop (S fuel) g d relax labels ((n, c) :: w) =
    if known_le known c then relax_loop fuel g d relax labels w
    else es ← adjacency g d n; worklist' ← push_candidates g d relax c w es;
      relax_loop fuel g d relax (<[index n := Some c]> labels) worklist').
  { intros fuel. cbn [relax_loop]. rewrite (ri_length _ _ HI), bool_decide_true by done. rsimpl.
    rewrite (vget_eq _ _ _ Hk), vset_lt by (by rewrite (ri_length _ _ HI)). done. }
  destruct (known_le known c) eqn:Hle.
  - destruct known as [k|]; [|done]. cbn in Hle. apply bool_decide_eq_true in Hle.
    destruct (IHw (rinv_drop _ _ _ _ _ HI Hk Hle)) as [fuel Hrun]. exists (S fuel). rewrite Hone.
    rewrite (decide_ext _ (Forall (λ p, index (fst p) < node_bound g) w)); [done|].
    rewrite Forall_cons. cbn. tauto.
  - destruct (adjacent_records n Hn) as (es & Hes & Hrec).
    destruct (push_candidates_spec c w es Hrec) as (w' & Hpush & Hw & Hall).
    pose proof (rinv_store _ _ _ _ _ _ _ HI Hk Hle Hes Hw) as HI'.
    destruct (IH (<[index n := Some c]> labels)) with (w := w') as [fuel Hrun]; [|done|].
    { eapply one_lower_insert; [exact Hk|]. destruct known as [k|]; [|done]. cbn in Hle |- *.
      apply bool_decide_eq_false in Hle. split; [|by apply not_le_lower].
      exists n. apply (ri_work _ _ HI). left. }
    exists (S fuel). rewrite Hone, Hes. rsimpl. rewrite Hpush. rsimpl.
    rewrite (decide_ext _ (Forall (λ p, index (fst p) < node_bound g) w')); [done|].
    rewrite Hall, Forall_cons. cbn. tauto.
Qed.

(** What the finished labels are. *)
Lemma finished_least labels n o :
  preserves_improvements relax → rinv labels [] → labels !! index n = Some o →
  least_reached g d relax seeds n o.
Proof.
  intros Hmono [H1 H2 H3 H4 H5] Ho.
  assert (Hcov : ∀ m l, got m l → ∃ k, labels !! index m = Some (Some k) ∧ le k l).
  { induction 1 as [m l Hs|m l es e r l' Hm (k & Hk & Hle) Hes He Hr Hl].
    - by destruct (H4 m l Hs) as [?|?%elem_of_nil].
    - destruct (Hmono r k l l' Hle Hl) as (x & Hx & Hxl).
      destruct (H5 m k es e r x Hk Hes He Hr Hx) as [(j & Hj & Hjx)|?%elem_of_nil]; [|done].
      exists j. split; [done|]. by etrans. }
  destruct o as [k|]; cbn.
  - split; [by apply H2|]. intros l' (k' & Hk' & Hle)%Hcov. by simplify_eq.
  - intros l (k & Hk & _)%Hcov. congruence.
Qed.
End Run.
End Relax.

(** ** Theorems *)

Section Theorems.
Context {NP EP L : Type} (le : L → L → Prop) `{!TotalOrder le, !RelDecision le}.
Context (g : Graph NP EP) (d : TraversalDirection) (relax : EdgeRecord EP → L → option L) (seeds : list (Id * L)).

(** C10: on any store, when the labels that can be reached do not descend for
    ever, the relaxation ends after finitely many steps, whatever the transfer
    does; it panics exactly when a seed lies outside the node bound. *)
Theorem relaxation_terminates :
  reachable_store g → well_founded (descends le g d relax seeds) →
  ∃ fuel0 r, r ≠ Stuck ∧ (∀ fuel, fuel0 ≤ fuel → min_label_relaxation le fuel g seeds d relax = r) ∧
    (r = Panic "seed node is out of range" ↔ ∃ n l, (n, l) ∈ seeds ∧ node_bound g ≤ index n) ∧
    ((∃ why, r = Panic why) → r = Panic "seed node is out of range").
Proof.
  intros [Lc Hinv]%reachable_inv Hwf.
  destruct (relax_loop_ends le g Lc Hinv d relax seeds _ _ Hwf (rinv_init le g d relax seeds)) as [fuel Hrun].
  assert (Hmono : ∀ r, relax_loop le fuel g d relax (replicate (node_bound g) None) (rev seeds) = r → r ≠ Stuck →
    ∀ fuel', fuel ≤ fuel' → min_label_relaxation le fuel' g seeds d relax = r).
  { intros r Hr Hns fuel' Hle. by eapply relax_loop_mono. }
  destruct (decide _) as [Hall|Hno].
  - destruct Hrun as (labels & Hrun & _). exists fuel, (Ok labels). split_and!; [done|by apply Hmono| |by intros [why ?]].
    split; [done|]. intros (n & l & Hin & Hge). rewrite Forall_forall in Hall.
    specialize (Hall (n, l)). cbn in Hall. rewrite <-(Permutation_rev seeds) in Hall. specialize (Hall Hin). lia.
  - exists fuel, (Panic "seed node is out of range"). split_and!; [done|by apply Hmono| |done].
    split; [|done]. intros _. apply not_Forall_Exists in Hno; [|typeclasses eauto].
    apply Exists_exists in Hno as ([n l] & Hin & Hge). rewrite <-(Permutation_rev seeds) in Hin.
    exists n, l. split; [done|]. cbn in Hge. lia.
Qed.

(** C21: when moreover the transfer preserves improvements and the seeds are in
    range, the label of every node is the least one of all that reach it along
    edges from a seed, and a node no label reaches has none: the order of the
    seeds and of the adjacency makes no difference. *)
Theorem relaxation_is_least :
  reachable_store g → well_founded (descends le g d relax seeds) → preserves_improvements le relax →
  (∀ n l, (n, l) ∈ seeds → index n < node_bound g) →
  ∃ fuel0 labels, (∀ fuel, fuel0 ≤ fuel → min_label_relaxation le fuel g seeds d relax = Ok labels) ∧
    length labels = node_bound g ∧
    ∀ n, index n < node_bound g → ∃ o, labels !! index n = Some o ∧ least_reached le g d relax seeds n o.
Proof.
  intros [Lc Hinv]%reachable_inv Hwf Hmono Hin.
  destruct (relax_loop_ends le g Lc Hinv d relax seeds _ _ Hwf (rinv_init le g d relax seeds)) as [fuel Hrun].
  rewrite decide_True in Hrun.
  2:{ apply Forall_forall. intros [n l] Hp. rewrite <-(Permutation_rev seeds) in Hp. by eapply Hin. }
  destruct Hrun as (labels & Hrun & HI). exists fuel, labels. split_and!.
  - intros fuel' Hle. by eapply relax_loop_mono.
  - apply (ri_length _ _ _ _ _ _ _ HI).
  - intros n Hn. destruct (lookup_lt_is_Some_2 labels (index n)) as [o Ho].
    { by rewrite (ri_length _ _ _ _ _ _ _ HI). }
    exists o. split; [done|]. by eapply (finished_least le).
Qed.
End Theorems.

(** ** Witnesses: distances by edge payload on the sample store *)

#[local] Instance N_le_total : TotalOrder N.le.
Proof. split; [typeclasses eauto|]. intros x y. destruct (N.lt_trichotomy x y) as [?|[?|?]]; [left; split; lia|by right; left|right; right; split; lia]. Qed.

Definition add_payload (r : EdgeRecord N) (l : N) : option N := Some (l + payload r)%N.

Lemma add_payload_wf {NP} (g : Graph NP N) d seeds : well_founded (descends N.le g d add_payload seeds).
Proof.
  intros l. induction (N.lt_wf_0 l) as [l _ IH]. constructor. intros k [_ [Hle Hlt]]. apply IH. lia.
Qed.

Lemma relaxation_terminates_witness :
  ∃ fuel0 r, r ≠ Stuck ∧
    (∀ fuel, fuel0 ≤ fuel → min_label_relaxation N.le fuel sample_store [(2%N, 0%N); (9%N, 0%N)] Outgoing add_payload = r) ∧
    r = Panic "seed node is out of range".
Proof.
  destruct (relaxation_terminates N.le sample_store Outgoing add_payload [(2%N, 0%N); (9%N, 0%N)]
    sample_reachable (add_payload_wf _ _ _)) as (fuel0 & r & Hns & Hrun & Hp & _).
  exists fuel0, r. split_and!; [exact Hns|exact Hrun|]. apply Hp. exists 9%N, 0%N.
  split; [right; left|]. vm_compute. lia.
Defined.

Lemma relaxation_is_least_witness :
  ∃ labels, min_label_relaxation N.le 20 sample_store [(2%N, 0%N)] Outgoing add_payload = Ok labels ∧
    least_reached N.le sample_store Outgoing add_payload [(2%N, 0%N)] 0%N (Some 105%N).
Proof.
  destruct (relaxation_is_least N.le sample_store Outgoing add_payload [(2%N, 0%N)]
    sample_reachable (add_payload_wf _ _ _)) as (fuel0 & labels & Hrun & _ & Hleast).
  - intros r a b y Hab Hy. exists (a + payload r)%N. split; [reflexivity|]. injection Hy as <-. lia.
  - intros n l [= -> ->]%list_elem_of_singleton. vm_compute. lia.
  - assert (Hok : ∃ l, min_label_relaxation N.le 20 sample_store [(2%N, 0%N)] Outgoing add_payload = Ok l ∧ l !! 0 = Some (Some 105%N)).
    { eexists. split; [vm_compute; reflexivity|reflexivity]. }
    destruct Hok as (l & Hl & Hl0). exists l. split; [exact Hl|].
    assert (Heq : labels = l).
    { specialize (Hrun (fuel0 + 20) ltac:(lia)).
      assert (Hm := relax_loop_mono N.le 20 (fuel0 + 20) sample_store Outgoing add_payload
        (replicate (node_bound sample_store) None) (rev [(2%N, 0%N)]) (Ok l) ltac:(lia) Hl ltac:(discriminate)).
      unfold min_label_relaxation in Hrun. congruence. }
    destruct (Hleast 0%N ltac:(vm_compute; lia)) as (o & Ho & Hlo). subst l.
    change (labels !! 0 = Some o) in Ho. rewrite Hl0 in Ho. injection Ho as <-. exact Hlo.
Defined.

(** A removed node is a seed like any other: it gets its label, although
    [contains_node] denies it. *)
Example removed_seed_gets_a_label :
  contains_node sample_store 1%N = Ok false ∧
  ∃ labels, min_label_relaxation N.le 20 sample_store [(1%N, 7%N)] Outgoing add_payload = Ok labels ∧
    labels !! 1 = Some (Some 7%N).
Proof. split; [vm_compute; reflexivity|]. eexists. split; [vm_compute; reflexivity|reflexivity]. Qed.
