(* ===== verification/DomTheory.v ===== *)
(** * Dominators over a depth-first numbering

    The mathematics behind [graph/dominator/construction.rs], free of any
    table: nodes are the numbers of a depth-first search, [edge] joins them,
    and [par] is the search tree. Semidominators are walks through larger
    numbers; the two theorems at the end find a semidominator from the edges
    into a node, and the immediate dominator from the semidominators on the
    tree path above it. *)

From S2P Require Import Prelude.

(** ** Walks and the search tree *)

(** A walk of one edge or more from [x] to [y] whose nodes strictly between
    the ends satisfy [P]. *)
Inductive via (edge : nat → nat → Prop) (P : nat → Prop) : nat → nat → Prop :=
  | via_edge x y : edge x y → via edge P x y
  | via_step x z y : edge x z → P z → via edge P z y → via edge P x y.

(** [x] is [y] or above it in the tree of [par], whose root is 0. *)
Inductive anc (par : nat → nat) (x : nat) : nat → Prop :=
  | anc_refl : anc par x x
  | anc_up y : 0 < y → anc par x (par y) → anc par x y.

(** The tree of a depth-first search of [n] nodes numbered in preorder: a
    subtree is an interval, and an edge to a larger number goes down the tree. *)
Record dfs (edge : nat → nat → Prop) (n : nat) (par : nat → nat) : Prop := mk_dfs {
  df_bound : ∀ x y, edge x y → x < n ∧ y < n;
  df_par : ∀ i, 0 < i < n → par i < i ∧ edge (par i) i;
  df_forward : ∀ x y, edge x y → x < y → anc par x y;
  df_interval : ∀ x y z, x ≤ y → y ≤ z → z < n → anc par x z → anc par x y;
}.

Section Walks.
Context {edge : nat → nat → Prop}.
Notation via := (via edge).

Lemma via_mono (P Q : nat → Prop) x y : (∀ z, P z → Q z) → via P x y → via Q x y.
Proof. intros HPQ. induction 1; [by apply via_edge|by eapply via_step; eauto]. Qed.

Lemma via_app (P : nat → Prop) x z y : via P x z → P z → via P z y → via P x y.
Proof. induction 1; intros; [by eapply via_step|by eapply via_step; eauto]. Qed.

Lemma via_snoc (P : nat → Prop) x y :
  via P x y → edge x y ∨ ∃ z, P z ∧ via P x z ∧ edge z y.
Proof.
  induction 1 as [x y He|x z y He Hz _ [IH|(v & Hv & Hw & IH)]]; [by left|right; exists z|right; exists v].
  - split; [done|]. split; [by apply via_edge|done].
  - split; [done|]. split; [by eapply via_step|done].
Qed.

(** The first node of a walk in [Q]. *)
Lemma via_first (P Q : nat → Prop) x y :
  (∀ z, Q z ∨ ¬ Q z) → via P x y → Q y → ∃ y', Q y' ∧ (y' = y ∨ P y') ∧ via (λ z, P z ∧ ¬ Q z) x y'.
Proof.
  intros Qd. induction 1 as [x y He|x z y He Hz _ IH]; intros Hy.
  - exists y. split_and!; [done|by left|by apply via_edge].
  - destruct (Qd z) as [Hq|Hq].
    + exists z. split_and!; [done|by right|by apply via_edge].
    + destruct (IH Hy) as (y' & ? & ? & ?). exists y'. split_and!; [done..|by eapply via_step].
Qed.

(** The last node of a walk in [R], which its start is. *)
Lemma via_last (P R : nat → Prop) `{∀ z, Decision (R z)} x y :
  via P x y → R x → ∃ x', R x' ∧ via (λ z, P z ∧ ¬ R z) x' y.
Proof.
  intros Hw Hx. cut ((∃ x', R x' ∧ via (λ z, P z ∧ ¬ R z) x' y) ∨ (¬ R x ∧ via (λ z, P z ∧ ¬ R z) x y));
    [by intros [?|[]]|]. clear Hx.
  induction Hw as [x y He|x z y He Hz _ [IH|[Hnz IH]]].
  - destruct (decide (R x)); [left; exists x|right]; (split; [done|by apply via_edge]).
  - by left.
  - destruct (decide (R x)); [left; exists x|right]; (split; [done|by eapply via_step]).
Qed.
End Walks.

Section Tree.
Context {edge : nat → nat → Prop} {n : nat} {par : nat → nat} (T : dfs edge n par).
Notation via := (via edge).
Notation anc := (anc par).

Lemma anc_trans x y z : anc x y → anc y z → anc x z.
Proof. intros Hxy. induction 1; [done|by apply anc_up]. Qed.

Lemma anc_le x y : y < n → anc x y → x ≤ y.
Proof.
  intros Hy. induction 1 as [|y Hp _ IH]; [lia|]. destruct (df_par _ _ _ T y) as [? _]; [lia|].
  specialize (IH ltac:(lia)). lia.
Qed.

Lemma anc_par x y : anc x y → x = y ∨ (0 < y ∧ anc x (par y)).
Proof. destruct 1; auto. Qed.

Lemma anc_strict x y : anc x y → x < y → anc x (par y).
Proof. intros Ha Hlt. apply anc_par in Ha as [->|[_ ?]]; [lia|done]. Qed.

(** The ancestors of a node form a chain. *)
Lemma anc_chain x y z : z < n → anc x z → anc y z → x ≤ y → anc x y.
Proof.
  intros Hz Hx Hy Hle. apply (df_interval _ _ _ T x y z); [done|by apply anc_le|done|done].
Qed.

Lemma anc_root y : y < n → anc 0 y.
Proof.
  induction y as [y IH] using lt_wf_ind. intros Hy. destruct (decide (y = 0)) as [->|Hne]; [constructor|].
  destruct (df_par _ _ _ T y) as [Hlt _]; [lia|]. apply anc_up; [lia|]. apply IH; lia.
Qed.

Lemma anc_dec x y : y < n → anc x y ∨ ¬ anc x y.
Proof.
  induction y as [y IH] using lt_wf_ind. intros Hy. destruct (decide (x = y)) as [->|Hne]; [left; constructor|].
  destruct (decide (y = 0)) as [->|Hy0].
  - right. intros Ha%anc_par. destruct Ha as [|[? _]]; [done|lia].
  - destruct (df_par _ _ _ T y) as [Hlt _]; [lia|]. destruct (IH (par y)) as [Ha|Hn]; [lia..| |].
    + left. apply anc_up; [lia|done].
    + right. intros Ha%anc_par. destruct Ha as [|[_ ?]]; done.
Qed.

(** The last node of a walk that is no larger than its end is above its end. *)
Lemma via_low (P : nat → Prop) x y :
  via P x y → ∃ m, m ≤ x ∧ m ≤ y ∧ anc m y ∧ (m = x ∨ m = y ∨ P m).
Proof.
  induction 1 as [x y He|x z y He Hz Hw (m & Hmz & Hmy & Ha & Hm)].
  - destruct (decide (x < y)) as [Hlt|Hge].
    + exists x. split_and!; [lia..|by apply (df_forward _ _ _ T)|auto].
    + exists y. split_and!; [lia..|constructor|auto].
  - destruct (decide (m ≤ x)) as [Hle|Hgt].
    + exists m. split_and!; [done..|]. destruct Hm as [->|[->|?]]; auto.
    + pose proof (df_bound _ _ _ T x z He) as [_ Hzn]. exists x. split_and!; [lia..| |auto].
      apply anc_trans with m; [|done]. apply (df_interval _ _ _ T x m z); [lia..|].
      apply (df_forward _ _ _ T); [done|lia].
Qed.

(** A walk that meets no ancestor of its end stays above its end's number. *)
Lemma via_above (Q : nat → Prop) x y :
  (∀ z, Q z → ¬ anc z y) → via Q x y → via (λ z, y < z) x y.
Proof.
  intros HQ. induction 1 as [x y He|x z y He Hz Hw IH]; [by apply via_edge|].
  apply via_step with z; [done| |by apply IH].
  destruct (decide (y < z)) as [|Hge]; [done|]. exfalso.
  destruct (via_low Q z y Hw) as (m & Hmz & Hmy & Ha & [->|[->|Hm]]).
  - by eapply HQ.
  - assert (z = y) as -> by lia. eapply HQ; [done|constructor].
  - by eapply HQ.
Qed.

(** Down the tree from [x] through nodes larger than [x]. *)
Lemma via_down x y : y < n → anc x y → x = y ∨ via (λ z, x < z) x y.
Proof.
  intros Hy. induction 1 as [|y Hp Ha IH]; [by left|]. right.
  destruct (df_par _ _ _ T y) as [Hlt He]; [lia|].
  destruct (IH ltac:(lia)) as [->|Hw]; [by apply via_edge|].
  destruct (decide (x < par y)) as [Hx|Hx].
  - apply via_app with (par y); [done..|by apply via_edge].
  - apply anc_le in Ha; [|lia]. assert (x = par y) as -> by lia. by apply via_edge.
Qed.

(** ** Dominance *)

(** A walk from the root to [w] that keeps off [d]. *)
Definition dodge (d w : nat) : Prop := rtc (λ a b, edge a b ∧ b ≠ d) 0 w.
Definition dom (d w : nat) : Prop := d = 0 ∨ ¬ dodge d w.

Definition is_idom (d w : nat) : Prop := dom d w ∧ d ≠ w ∧ ∀ e, dom e w → e ≠ w → dom e d.

Lemma dodge_via_end d (P : nat → Prop) x y :
  (∀ z, P z → z ≠ d) → y ≠ d → via P x y → dodge d x → dodge d y.
Proof.
  intros HP. induction 2 as [x y He|x z y He Hz _ IH]; intros Hd.
  - by eapply rtc_r.
  - apply IH; [done|]. eapply rtc_r; [done|]. eauto.
Qed.

Lemma dodge_via d w : dodge d w → w = 0 ∨ (w ≠ d ∧ via (λ z, z ≠ d) 0 w).
Proof.
  revert w. apply rtc_ind_r; [by left|]. intros x y _ [He Hy] IH. right. split; [done|].
  destruct IH as [->|[Hx Hw]]; [by apply via_edge|]. eapply via_app; [done..|by apply via_edge].
Qed.

Lemma dodge_down d x y : y < n → anc x y → d ≤ x → dodge d x → dodge d y.
Proof.
  intros Hy Ha Hle Hd. destruct (via_down x y Hy Ha) as [->|Hw]; [done|].
  destruct (decide (x = y)) as [->|Hne]; [done|]. apply anc_le in Ha; [|done].
  eapply dodge_via_end; [|lia|done|done]. cbn. intros; lia.
Qed.

Lemma dodge_tree d y : y < n → ¬ anc d y → dodge d y.
Proof.
  induction y as [y IH] using lt_wf_ind. intros Hy Hn.
  destruct (decide (y = 0)) as [->|Hne]; [constructor|].
  destruct (df_par _ _ _ T y) as [Hlt He]; [lia|]. eapply rtc_r; [apply IH; [done|lia|]|].
  - intros Ha. apply Hn. apply anc_up; [lia|done].
  - split; [done|]. intros ->. apply Hn. constructor.
Qed.

Lemma dom_anc d w : w < n → dom d w → anc d w.
Proof.
  intros Hw [->|Hd]; [by apply anc_root|]. destruct (anc_dec d w Hw) as [|Hn]; [done|].
  by destruct (Hd (dodge_tree d w Hw Hn)).
Qed.

Lemma dom_refl w : dom w w.
Proof.
  destruct (decide (w = 0)) as [->|Hw]; [by left|]. right. by intros [|[]]%dodge_via.
Qed.

(** A dominator of a node dominates the nodes on the tree path down to it. *)
Lemma dom_between e x w : w < n → dom e w → anc e x → anc x w → dom e x.
Proof.
  intros Hw [->|Hd] Hex Hxw; [by left|]. right. intros Hx. apply Hd.
  pose proof (anc_le _ _ Hw Hxw). assert (e ≤ x) by (apply anc_le; [lia|done]).
  by apply (dodge_down e x w).
Qed.

(** ** Semidominators *)

Definition semi_path (x w : nat) : Prop := via (λ z, w < z) x w.
Definition is_semi (s w : nat) : Prop := semi_path s w ∧ ∀ x, semi_path x w → s ≤ x.

Lemma semi_lt s w : 0 < w < n → is_semi s w → s ≤ par w ∧ s < w.
Proof.
  intros Hw [_ Hmin]. destruct (df_par _ _ _ T w Hw) as [Hlt He].
  specialize (Hmin (par w) ltac:(by apply via_edge)). lia.
Qed.

Lemma semi_anc s w : 0 < w < n → is_semi s w → anc s w.
Proof.
  intros Hw Hs. pose proof (semi_lt s w Hw Hs) as [_ Hlt]. destruct Hs as [Hp _].
  destruct (via_low _ _ _ Hp) as (m & Hms & Hmw & Ha & [->|[->|?]]); [done|lia|lia].
Qed.

(** A strict dominator is above the semidominator. *)
Lemma dom_above_semi e s w : 0 < w < n → is_semi s w → dom e w → e ≠ w → anc e s.
Proof.
  intros Hw Hs He Hne. pose proof (semi_lt s w Hw Hs) as [_ Hlt].
  destruct (anc_dec e s ltac:(lia)) as [|Hn]; [done|]. exfalso.
  pose proof (dom_anc e w ltac:(lia) He) as Hew. apply anc_le in Hew; [|lia].
  destruct He as [->|He]; [apply Hn, anc_root; lia|]. apply He.
  destruct Hs as [Hp _]. eapply dodge_via_end; [|by apply not_eq_sym|exact Hp|].
  - cbn. intros z Hz. lia.
  - apply dodge_tree; [lia|done].
Qed.

(** The walk that would keep off [s] enters the tree path below [s] from a
    node smaller than [s]. *)
Lemma dodge_enters s w :
  w < n → anc s w → s ≠ w → 0 < s → dodge s w →
  ∃ x y, x < s ∧ s < y ∧ anc y w ∧ semi_path x y.
Proof.
  intros Hw Hs Hne H0 Hd. pose proof (anc_le _ _ Hw Hs).
  destruct (dodge_via s w Hd) as [->|[_ Hwalk]]; [lia|].
  assert (Hdec : ∀ z, (s < z ∧ anc z w) ∨ ¬ (s < z ∧ anc z w)).
  { intros z. destruct (decide (s < z)); [|right; lia]. destruct (anc_dec z w Hw); [by left|right; tauto]. }
  destruct (via_first _ (λ z, s < z ∧ anc z w) _ _ Hdec Hwalk) as (y & [Hsy Hy] & _ & Hwalk').
  { split; [lia|constructor]. }
  destruct (via_last _ (λ z, z < s) _ _ Hwalk' H0) as (x & Hx & Hxy).
  exists x, y. split_and!; [done..|]. eapply via_above; [|exact Hxy].
  cbn. intros z [[Hzs HA] Hge] Ha. apply HA. split; [lia|]. by apply anc_trans with y.
Qed.

Context (sd : nat → nat) (semis : ∀ w, 0 < w < n → is_semi (sd w) w).

(** When no node on the tree path below the semidominator of [w] has a smaller
    one, it is the immediate dominator. *)
Lemma semi_is_idom w :
  0 < w < n → (∀ u, sd w < u → anc u w → sd w ≤ sd u) → is_idom (sd w) w.
Proof.
  intros Hw Hmin. pose proof (semis w Hw) as Hs. pose proof (semi_lt _ _ Hw Hs) as [_ Hlt].
  pose proof (semi_anc _ _ Hw Hs) as Ha. split; [|split; [lia|]].
  - destruct (decide (sd w = 0)) as [->|H0]; [by left|]. right. intros Hd.
    destruct (dodge_enters (sd w) w) as (x & y & Hx & Hy & Hyw & Hp); [lia|done|lia|lia|done|].
    pose proof (anc_le y w ltac:(lia) Hyw). destruct (semis y ltac:(lia)) as [_ Hle].
    specialize (Hle x Hp). specialize (Hmin y Hy Hyw). lia.
  - intros e He Hne. apply (dom_between e (sd w) w); [lia|done| |done].
    by apply (dom_above_semi e (sd w) w).
Qed.

(** Otherwise a node of least semidominator on that path has the same
    immediate dominator. *)
Lemma idom_of_least u w d :
  0 < w < n → sd w < u → anc u w → (∀ v, sd w < v → anc v w → sd u ≤ sd v) →
  is_idom d u → is_idom d w.
Proof.
  intros Hw Hu Huw Hmin (Hdu & Hne & Hid). pose proof (anc_le u w ltac:(lia) Huw) as Hule.
  pose proof (semis w Hw) as Hs. pose proof (semi_anc _ _ Hw Hs) as Hsw.
  pose proof (semis u ltac:(lia)) as Hsu. pose proof (semi_lt (sd u) u ltac:(lia) Hsu) as [_ Hlt].
  assert (Hdsu : anc d (sd u)) by (apply (dom_above_semi d (sd u) u); [lia|done|done|done]).
  pose proof (anc_le d (sd u) ltac:(lia) Hdsu) as Hdle.
  assert (Hdw : anc d w) by (apply anc_trans with u; [apply dom_anc; [lia|done]|done]).
  split; [|split; [lia|]].
  - destruct (decide (d = 0)) as [->|H0]; [by left|]. right. intros Hd.
    destruct (dodge_enters d w) as (x & y & Hx & Hy & Hyw & Hp); [lia|done|lia|lia|done|].
    pose proof (anc_le y w ltac:(lia) Hyw). destruct (semis y ltac:(lia)) as [_ Hle].
    specialize (Hle x Hp). destruct (decide (sd w < y)) as [Hlow|Hhigh].
    { specialize (Hmin y Hlow Hyw). lia. }
    destruct Hdu as [->|Hdu]; [lia|]. apply Hdu. apply (dodge_down d y u); [lia| |lia|].
    + by apply (anc_chain y u w); [lia|done|done|lia].
    + eapply dodge_via_end; [|by apply Nat.neq_sym, Nat.lt_neq|exact Hp|].
      * cbn. intros; lia.
      * apply dodge_tree; [lia|]. intros ?%anc_le; lia.
  - intros e He Hnew. apply Hid.
    + apply (dom_between e u w); [lia|done| |done]. apply anc_trans with (sd w).
      * by apply (dom_above_semi e (sd w) w).
      * apply (anc_chain _ _ w); [lia|done|done|lia].
    + intros ->. pose proof (dom_above_semi u (sd w) w Hw Hs He ltac:(done)) as Ha.
      apply anc_le in Ha; [lia|]. pose proof (semi_lt _ _ Hw Hs). lia.
Qed.
End Tree.

(** ** Semidominators from edges *)

Section Semi.
Context {edge : nat → nat → Prop} {n : nat} {par : nat → nat} (T : dfs edge n par).
Context (f : nat → nat) (w : nat) (Hw : 0 < w < n) (above : ∀ u, w < u < n → is_semi (edge:=edge) (f u) u).

(** A candidate from an edge into [w]: its tail, when smaller, or the
    semidominator of a node above the tail and larger than [w]. *)
Definition semi_candidate (c : nat) : Prop :=
  ∃ v, edge v w ∧ ((c = v ∧ v < w) ∨ ∃ u, w < u ∧ anc par u v ∧ c = f u).

Lemma least_candidate_is_semi c :
  semi_candidate c → (∀ c', semi_candidate c' → c ≤ c') → is_semi (edge:=edge) c w.
Proof using T Hw above.
  intros Hc Hmin. split.
  - destruct Hc as (v & He & [[-> Hv]|(u & Hu & Ha & ->)]); [by apply via_edge|].
    pose proof (df_bound _ _ _ T _ _ He) as [Hv _]. pose proof (anc_le T _ _ Hv Ha).
    destruct (above u ltac:(lia)) as [Hp _].
    apply via_app with u; [by eapply via_mono; [|exact Hp]; cbn; intros; lia|done|].
    destruct (via_down T u v Hv Ha) as [->|Hd]; [by apply via_edge|].
    apply via_app with v; [|lia|by apply via_edge]. eapply via_mono; [|exact Hd]. cbn. intros; lia.
  - intros x Hx. destruct (via_snoc _ _ _ Hx) as [He|(v & Hv & Hxv & He)].
    + destruct (decide (x < w)) as [Hlt|Hge].
      * apply Hmin. exists x. split; [done|]. by left.
      * destruct (df_par _ _ _ T w Hw) as [Hp Hpe].
        specialize (Hmin (par w)). ospecialize (Hmin _); [|lia]. exists (par w). split; [done|]. by left.
    + pose proof (df_bound _ _ _ T _ _ He) as [Hvn _].
      destruct (via_first _ (λ z, anc par z v) _ _ (λ z, anc_dec T z v Hvn) Hxv) as (u & Hu & Hor & Hxu);
        [constructor|].
      assert (w < u) by (destruct Hor as [->|]; done).
      pose proof (anc_le T _ _ Hvn Hu). destruct (above u ltac:(lia)) as [_ Hle].
      transitivity (f u).
      * apply Hmin. exists v. split; [done|]. right. by exists u.
      * apply Hle. eapply (via_above T); [|exact Hxu]. cbn. intros z [_ Hz] Ha. apply Hz.
        by apply anc_trans with u.
Qed.
End Semi.
