(* ===== verification/Epoch.v ===== *)
(** * Epoch-stamped marks

    Models [graph/epoch.rs]: marking over a dense index space where a node
    holds the epoch it was last touched in, so that clearing is a bump of the
    current epoch, and a pass over the stamps only when the epoch would wrap.
    Both types refine finite sets, [EpochSet] one that remembers the order of
    insertion. *)

From S2P Require Import Prelude.

Module EpochMarks.

(** [EpochMarks] *)
Record t : Type := mk { stamps : list N; epoch : N }.

(** [EpochMarks::new], and [Default] *)
Definition new (node_count : nat) : t := mk (replicate node_count 0%N) 1.
Definition default : t := new 0.

(** [EpochMarks::capacity] *)
Definition capacity (m : t) : nat := length (stamps m).

(** [EpochMarks::reset] *)
Definition reset (m : t) : t :=
  if decide (epoch m = U32_MAX) then mk (replicate (length (stamps m)) 0%N) 1
  else mk (stamps m) (epoch m + 1).

(** [EpochMarks::grow_to] *)
Definition grow_to (m : t) (node_count : nat) : t :=
  if decide (length (stamps m) < node_count) then
    mk (stamps m ++ replicate (node_count - length (stamps m)) 0%N) (epoch m)
  else m.

(** [EpochMarks::is_marked] *)
Definition is_marked (m : t) (index : nat) : res bool :=
  stamp ← vget (stamps m) index; mret (bool_decide (stamp = epoch m)).

(** [EpochMarks::mark] *)
Definition mark (m : t) (index : nat) : res t :=
  stamps ← vset (stamps m) index (epoch m); mret (mk stamps (epoch m)).

(** [EpochMarks::unmark] *)
Definition unmark (m : t) (index : nat) : res t :=
  stamps ← vset (stamps m) index 0%N; mret (mk stamps (epoch m)).

End EpochMarks.

Module EpochSet.

(** [EpochSet] *)
Record t : Type := mk { marks : EpochMarks.t; members : list nat }.

(** [EpochSet::new] *)
Definition new (len : nat) : t := mk (EpochMarks.new len) [].

(** [EpochSet::capacity] *)
Definition capacity (s : t) : nat := EpochMarks.capacity (marks s).

(** [EpochSet::clear] *)
Definition clear (s : t) : t := mk (EpochMarks.reset (marks s)) [].

(** [EpochSet::insert] *)
Definition insert (s : t) (index : nat) : res (t * bool) :=
  rassert (bool_decide (index < capacity s)) "index outside universe";;
  seen ← EpochMarks.is_marked (marks s) index;
  if (seen : bool) then mret (s, false)
  else
    marks ← EpochMarks.mark (marks s) index;
    mret (mk marks (members s ++ [index]), true).

(** [EpochSet::contains] *)
Definition contains (s : t) (index : nat) : res bool :=
  rassert (bool_decide (index < capacity s)) "index outside universe";;
  EpochMarks.is_marked (marks s) index.

(** [EpochSet::ones] *)
Definition ones (s : t) : list nat := members s.

End EpochSet.

(** ** Marks denote a set *)

(** [m] marks exactly the members of [X] among [cap] indices. No stamp is ahead
    of the epoch, so the next one is fresh. *)
Record marks_denote (m : EpochMarks.t) (cap : nat) (X : gset nat) : Prop := {
  md_cap : EpochMarks.capacity m = cap;
  md_epoch : (1 ≤ EpochMarks.epoch m ≤ U32_MAX)%N;
  md_stamps : ∀ i stamp, EpochMarks.stamps m !! i = Some stamp → (stamp ≤ EpochMarks.epoch m)%N;
  md_marked : ∀ i, i ∈ X ↔ EpochMarks.stamps m !! i = Some (EpochMarks.epoch m);
}.

Section Marks.
Context (m : EpochMarks.t) (cap : nat) (X : gset nat) (H : marks_denote m cap X).

Lemma marked_below i : i ∈ X → i < cap.
Proof using H. intros Hi%(md_marked _ _ _ H)%lookup_lt_Some. by rewrite <-(md_cap _ _ _ H). Qed.

Lemma marks_reset : marks_denote (EpochMarks.reset m) cap ∅.
Proof using H.
  destruct H as [Hc He Hs _]. unfold EpochMarks.reset. case_decide as Hw.
  - split; cbn.
    + unfold EpochMarks.capacity. cbn. by rewrite length_replicate.
    + done.
    + intros i stamp [-> _]%lookup_replicate. lia.
    + intros i. split; [set_solver|]. by intros [? _]%lookup_replicate.
  - split; cbn.
    + done.
    + lia.
    + intros i stamp Hi%Hs. lia.
    + intros i. split; [set_solver|]. intros Hi%Hs. lia.
Qed.

Lemma marks_grow k : marks_denote (EpochMarks.grow_to m k) (cap `max` k) X.
Proof using H.
  destruct H as [Hc He Hs Hm]. unfold EpochMarks.grow_to, EpochMarks.capacity in *. case_decide as Hw.
  - split; cbn.
    + unfold EpochMarks.capacity. cbn. rewrite length_app, length_replicate. lia.
    + done.
    + intros i stamp [Hi|[_ [-> _]%lookup_replicate]]%lookup_app_Some; [by apply Hs in Hi|lia].
    + intros i. rewrite Hm. split; [intros Hi; by apply lookup_app_l_Some|].
      intros [Hi|[_ [Hi _]%lookup_replicate]]%lookup_app_Some; [done|lia].
  - split; [unfold EpochMarks.capacity; lia|done..].
Qed.

Lemma is_marked_spec i : i < cap → EpochMarks.is_marked m i = Ok (bool_decide (i ∈ X)).
Proof using H.
  destruct H as [Hc _ _ Hm]. intros Hi. unfold EpochMarks.capacity in Hc. unfold EpochMarks.is_marked.
  destruct (lookup_lt_is_Some_2 (EpochMarks.stamps m) i ltac:(lia)) as [stamp Hs]. rewrite (vget_eq _ _ _ Hs). rsimpl.
  f_equal. apply bool_decide_ext. rewrite Hm, Hs. naive_solver.
Qed.

Lemma mark_spec i : i < cap → ∃ m', EpochMarks.mark m i = Ok m' ∧ marks_denote m' cap ({[i]} ∪ X).
Proof using H.
  destruct H as [Hc He Hs Hm]. intros Hi. unfold EpochMarks.capacity in Hc. unfold EpochMarks.mark.
  rewrite vset_lt by lia. rsimpl. eexists. split; [done|]. split; cbn.
  - unfold EpochMarks.capacity. cbn. by rewrite length_insert.
  - done.
  - intros j stamp [(-> & <- & _)|[_ Hj]]%list_lookup_insert_Some; [lia|by apply Hs in Hj].
  - intros j. rewrite elem_of_union, elem_of_singleton, Hm, list_lookup_insert_Some.
    destruct (decide (j = i)) as [->|]; [|naive_solver]. split; [|by left]. intros _. left. split_and!; [done..|lia].
Qed.

Lemma unmark_spec i : i < cap → ∃ m', EpochMarks.unmark m i = Ok m' ∧ marks_denote m' cap (X ∖ {[i]}).
Proof using H.
  destruct H as [Hc He Hs Hm]. intros Hi. unfold EpochMarks.capacity in Hc. unfold EpochMarks.unmark.
  rewrite vset_lt by lia. rsimpl. eexists. split; [done|]. split; cbn.
  - unfold EpochMarks.capacity. cbn. by rewrite length_insert.
  - done.
  - intros j stamp [(-> & <- & _)|[_ Hj]]%list_lookup_insert_Some; [lia|by apply Hs in Hj].
  - intros j. rewrite elem_of_difference, elem_of_singleton, Hm, list_lookup_insert_Some.
    split; [intros [? ?]; by right|]. intros [(_ & ? & _)|[? ?]]; [lia|done].
Qed.
End Marks.

Lemma marks_new cap : marks_denote (EpochMarks.new cap) cap ∅.
Proof.
  split; cbn.
  - unfold EpochMarks.capacity. cbn. by rewrite length_replicate.
  - done.
  - intros i stamp [-> _]%lookup_replicate. lia.
  - intros i. split; [set_solver|]. by intros [? _]%lookup_replicate.
Qed.

(** ** The set refines its listing *)

(** One call on an epoch set: what it leaves and what it reports. *)
Inductive epoch_call := EpochClear | EpochInsert (i : nat) | EpochContains (i : nat).

Definition epoch_step (s : EpochSet.t) (c : epoch_call) : res (EpochSet.t * list bool) :=
  match c with
  | EpochClear => mret (EpochSet.clear s, [])
  | EpochInsert i => '(s, fresh) ← EpochSet.insert s i; mret (s, [fresh])
  | EpochContains i => seen ← EpochSet.contains s i; mret (s, [seen])
  end.

(** The same call on a universe and a list of distinct members. *)
Definition listing_step (a : nat * list nat) (c : epoch_call) : res (nat * list nat * list bool) :=
  let '(n, l) := a in
  match c with
  | EpochClear => mret (n, [], [])
  | EpochInsert i =>
      if decide (i < n) then
        mret (if decide (i ∈ l) then (n, l, [false]) else (n, l ++ [i], [true]))
      else Panic "index outside universe"
  | EpochContains i =>
      if decide (i < n) then mret (n, l, [bool_decide (i ∈ l)]) else Panic "index outside universe"
  end.

Record epoch_listing (s : EpochSet.t) (a : nat * list nat) : Prop := {
  el_marks : marks_denote (EpochSet.marks s) a.1 (list_to_set a.2);
  el_ones : EpochSet.ones s = a.2;
  el_nodup : NoDup a.2;
}.

Lemma epoch_step_refines s a c : epoch_listing s a → refines epoch_listing (epoch_step s c) (listing_step a c).
Proof.
  intros [Hm Ho Hd]. destruct a as [n l]. cbn in Hm, Ho, Hd.
  pose proof (md_cap _ _ _ Hm) as Hcap.
  destruct c as [|i|i]; cbn [epoch_step listing_step].
  - eexists. split; [done|]. split; [by eapply marks_reset|done|constructor].
  - unfold EpochSet.insert, EpochSet.capacity. rewrite Hcap. destruct (decide (i < n)) as [Hi|Hi].
    2:{ by rewrite (bool_decide_false (i < n)). }
    rewrite (bool_decide_true (i < n)) by done. rsimpl. rewrite (is_marked_spec _ _ _ Hm i Hi). rsimpl.
    destruct (decide (i ∈ l)) as [Hin|Hout].
    + rewrite bool_decide_true by by apply elem_of_list_to_set. rsimpl. eexists. split; [done|by split].
    + rewrite bool_decide_false by by rewrite elem_of_list_to_set. destruct (mark_spec _ _ _ Hm i Hi) as (m' & -> & Hm').
      rsimpl. eexists. split; [done|]. split; cbn.
      * by replace (list_to_set (l ++ [i]) : gset nat) with ({[i]} ∪ list_to_set l : gset nat) by set_solver.
      * unfold EpochSet.ones in *. cbn. by rewrite Ho.
      * apply NoDup_app. split_and!; [done|set_solver|apply NoDup_singleton].
  - unfold EpochSet.contains, EpochSet.capacity. rewrite Hcap. destruct (decide (i < n)) as [Hi|Hi].
    2:{ by rewrite (bool_decide_false (i < n)). }
    rewrite (bool_decide_true (i < n)) by done. rsimpl. rewrite (is_marked_spec _ _ _ Hm i Hi). rsimpl.
    eexists. split; [|by split]. do 3 f_equal. apply bool_decide_ext. set_solver.
Qed.

(** C24: every history of calls on an epoch set, however often its epoch wraps,
    reports what a list of distinct members reports, panics outside the universe
    as it does, and afterwards reads back exactly those members in the order
    they were inserted. *)
Theorem epoch_set_is_its_listing n (cs : list epoch_call) :
  refines (λ s a, EpochSet.ones s = a.2 ∧ NoDup a.2 ∧ EpochSet.capacity s = n ∧ a.1 = n ∧
      ∀ i, i < n → EpochSet.contains s i = Ok (bool_decide (i ∈ a.2)))
    (run_calls epoch_step (EpochSet.new n) cs) (run_calls listing_step (n, []) cs).
Proof.
  eapply refines_mono; cycle 1.
  { apply (calls_refine (λ s a, epoch_listing s a ∧ a.1 = n)).
    - split; [|done]. split; [apply marks_new|done|constructor].
    - intros s a c _ [Hs Ha]. pose proof (epoch_step_refines s a c Hs) as Hr. unfold refines in *.
      destruct (listing_step a c) as [[a' o]| |] eqn:Hl; [|done..]. destruct Hr as (s' & -> & Hs').
      exists s'. split; [done|]. split; [done|]. destruct a as [k l]. cbn in Ha. subst k. clear Hs Hs'.
      destruct c as [|i|i]; unfold listing_step, mret, res_ret in Hl; repeat case_decide; by simplify_eq. }
  intros s [k l] [[Hm Ho Hd] Hk]. cbn in *. subst k.
  split_and!; [done|done|by apply Hm|done|]. intros i Hi. unfold EpochSet.contains, EpochSet.capacity.
  rewrite (md_cap _ _ _ Hm), (bool_decide_true (i < n)) by done. rsimpl. rewrite (is_marked_spec _ _ _ Hm i Hi).
  f_equal. apply bool_decide_ext. set_solver.
Qed.

(** A clear at the last epoch restarts the stamps. *)
Lemma epoch_wrap_sample :
  epoch_step (EpochSet.mk (EpochMarks.mk [U32_MAX; 3; 0]%N U32_MAX) [0]) EpochClear =
    Ok (EpochSet.mk (EpochMarks.mk [0; 0; 0]%N 1) [], []).
Proof. reflexivity. Qed.
