(* ===== verification/Search.v ===== *)
(** * Configurable search

    Models [graph/search.rs]: searches with a choice of frontier, of marks per
    walk or per path, of direction and of depth bound, driven by a visitor that
    may keep state, prune and break off. The marks are the caller's
    [EpochMarks]; the other buffers are emptied on entry and start fresh here.
    The loops take their fuel as an argument, since the walk over all paths has
    no bound short of their number. Proofs are in [SearchTheorems]. *)

From S2P Require Import Prelude Ids View Traverse Epoch.

(** [SearchOrder], [VisitedPolicy], [Visit] *)
Inductive SearchOrder : Type := DepthFirst | BreadthFirst.
Inductive VisitedPolicy : Type := Global | Path.
Inductive Visit : Type := Descend | Skip.

(** [ControlFlow<B, Visit>] *)
Inductive ControlFlow (B : Type) : Type := Break (value : B) | Continue (visit : Visit).
Arguments Break {B} _.
Arguments Continue {B} _.

(** [SearchConfig] *)
Record SearchConfig : Type := mk_SearchConfig {
  sc_order : SearchOrder;
  sc_visited : VisitedPolicy;
  sc_direction : TraversalDirection;
  sc_max_depth : option nat;
}.

(** [SearchConfig::new] and its setters *)
Definition search_config_new (order : SearchOrder) (direction : TraversalDirection) : SearchConfig :=
  mk_SearchConfig order Global direction None.
Definition with_visited (c : SearchConfig) (visited : VisitedPolicy) : SearchConfig :=
  mk_SearchConfig (sc_order c) visited (sc_direction c) (sc_max_depth c).
Definition with_max_depth (c : SearchConfig) (max_depth : nat) : SearchConfig :=
  mk_SearchConfig (sc_order c) (sc_visited c) (sc_direction c) (Some max_depth).

(** [PathStep] *)
Inductive PathStep : Type := Enter (node depth : nat) | Leave (node : nat).

(** [may_expand] *)
Definition may_expand (max_depth : option nat) (depth : nat) : bool :=
  match max_depth with None => true | Some limit => bool_decide (depth < limit) end.

Section Search.
Context {G : Type} {HG : GraphView G} {St B : Type} (visitor : St → Id → nat → res (St * ControlFlow B)).

(** [for &successor in adjacent.iter().rev() { if !marked { push } }] *)
Definition push_unmarked (visited : EpochMarks.t) (depth : nat) (adjacent : list Id) (stack : list (nat * nat))
    : res (list (nat * nat)) :=
  rfold (λ stack successor,
    marked ← EpochMarks.is_marked visited (index successor);
    mret (if marked : bool then stack else (index successor, depth) :: stack)) stack (rev adjacent).

(** The loop of [depth_first_global]; the head of the list is the top of the
    stack. *)
Fixpoint depth_first_global (fuel : nat) (c : SearchConfig) (g : G) (st : St) (visited : EpochMarks.t)
    (stack : list (nat * nat)) : res (St * option B * EpochMarks.t) :=
  match fuel with
  | 0 => Stuck
  | S fuel =>
      match stack with
      | [] => mret (st, None, visited)
      | (node, depth) :: stack =>
          marked ← EpochMarks.is_marked visited node;
          if marked : bool then depth_first_global fuel c g st visited stack
          else
            visited ← EpochMarks.mark visited node;
            id ← from_index node;
            '(st, flow) ← visitor st id depth;
            match flow with
            | Break value => mret (st, Some value, visited)
            | Continue Skip => depth_first_global fuel c g st visited stack
            | Continue Descend =>
                if negb (may_expand (sc_max_depth c) depth) then depth_first_global fuel c g st visited stack
                else
                  adjacent ← neighbors (sc_direction c) g id;
                  stack ← push_unmarked visited (depth + 1) adjacent stack;
                  depth_first_global fuel c g st visited stack
            end
      end
  end.

(** The loop of [depth_first_path] *)
Fixpoint depth_first_path (fuel : nat) (c : SearchConfig) (g : G) (st : St) (on_path : EpochMarks.t)
    (stack : list PathStep) : res (St * option B * EpochMarks.t) :=
  match fuel with
  | 0 => Stuck
  | S fuel =>
      match stack with
      | [] => mret (st, None, on_path)
      | Leave node :: stack =>
          on_path ← EpochMarks.unmark on_path node;
          depth_first_path fuel c g st on_path stack
      | Enter node depth :: stack =>
          marked ← EpochMarks.is_marked on_path node;
          if marked : bool then depth_first_path fuel c g st on_path stack
          else
            on_path ← EpochMarks.mark on_path node;
            let stack := Leave node :: stack in
            id ← from_index node;
            '(st, flow) ← visitor st id depth;
            match flow with
            | Break value => mret (st, Some value, on_path)
            | Continue Skip => depth_first_path fuel c g st on_path stack
            | Continue Descend =>
                if negb (may_expand (sc_max_depth c) depth) then depth_first_path fuel c g st on_path stack
                else
                  adjacent ← neighbors (sc_direction c) g id;
                  let stack := foldl (λ stack successor, Enter (index successor) (depth + 1) :: stack) stack (rev adjacent) in
                  depth_first_path fuel c g st on_path stack
            end
      end
  end.

(** Marking what is not marked, and queueing it. *)
Definition enqueue_unmarked (depth : nat) (acc : EpochMarks.t * list (nat * nat)) (next : nat)
    : res (EpochMarks.t * list (nat * nat)) :=
  let '(visited, queue) := acc in
  marked ← EpochMarks.is_marked visited next;
  if marked : bool then mret (visited, queue)
  else visited ← EpochMarks.mark visited next; mret (visited, queue ++ [(next, depth)]).

(** The loop of [breadth_first_global]; the list is the queue from its head
    cursor on. *)
Fixpoint breadth_first_global (fuel : nat) (c : SearchConfig) (g : G) (st : St) (visited : EpochMarks.t)
    (queue : list (nat * nat)) : res (St * option B * EpochMarks.t) :=
  match fuel with
  | 0 => Stuck
  | S fuel =>
      match queue with
      | [] => mret (st, None, visited)
      | (node, depth) :: queue =>
          id ← from_index node;
          '(st, flow) ← visitor st id depth;
          match flow with
          | Break value => mret (st, Some value, visited)
          | Continue Skip => breadth_first_global fuel c g st visited queue
          | Continue Descend =>
              if negb (may_expand (sc_max_depth c) depth) then breadth_first_global fuel c g st visited queue
              else
                adjacent ← neighbors (sc_direction c) g id;
                '(visited, queue) ← rfold (enqueue_unmarked (depth + 1)) (visited, queue) (index <$> adjacent);
                breadth_first_global fuel c g st visited queue
          end
      end
  end.

(** [search_in]; [search_with_marks] and [search_with_scratch] are this
    function with the caller's marks. *)
Definition search_in (fuel : nat) (g : G) (seeds : list Id) (c : SearchConfig) (marks : EpochMarks.t) (st : St)
    : res (St * option B * EpochMarks.t) :=
  let seeds := index <$> seeds in
  _ ← rassert (bool_decide (Forall (λ seed, seed < gv_node_bound g) seeds)) "seed node is out of range";
  _ ← rassert (bool_decide (gv_node_bound g ≤ EpochMarks.capacity marks)) "visited marks cover too few nodes";
  let marks := EpochMarks.reset marks in
  match sc_order c, sc_visited c with
  | DepthFirst, Global => depth_first_global fuel c g st marks ((λ seed, (seed, 0)) <$> seeds)
  | DepthFirst, Path => depth_first_path fuel c g st marks ((λ seed, Enter seed 0) <$> seeds)
  | BreadthFirst, Global =>
      '(marks, queue) ← rfold (enqueue_unmarked 0) (marks, []) seeds;
      breadth_first_global fuel c g st marks queue
  | BreadthFirst, Path =>
      Panic "VisitedPolicy::Path requires SearchOrder::DepthFirst: a breadth-first frontier never unwinds, so a path mark could never be removed"
  end.

(** [search] *)
Definition search (fuel : nat) (g : G) (seeds : list Id) (c : SearchConfig) (st : St) : res (St * option B) :=
  '(st, broke, _) ← search_in fuel g seeds c (EpochMarks.new (gv_node_bound g)) st;
  mret (st, broke).
End Search.
