(* ===== verification/SearchTheorems.v ===== *)
(** * What a configurable search does

    The stack and queue loops of [graph/search.rs] against recursive reference
    searches: depth first, visiting a node and then its successors before the
    next sibling, with marks kept or taken back on the way out; and breadth
    first, level by level. The references recurse no deeper than the graph has
    nodes. *)

From S2P Require Import Prelude Ids View EdgeViews Store StoreInv StoreSpec StoreView History Samples Traverse Bfs Epoch Search.

(** ** The references *)

Section Reference.
Context (next : Id → list Id) {St B : Type} (visitor : St → Id → nat → res (St * ControlFlow B)) (limit : option nat).

(** The marks after a subtree: kept, or as they were before it. *)
Definition leave (policy : VisitedPolicy) (before after : gset Id) : gset Id :=
  match policy with Global => after | Path => before end.

Fixpoint explore_list (descend : gset Id → St → Id → res (St * option B * gset Id)) (policy : VisitedPolicy) (k : nat)
    (V : gset Id) (st : St) (l : list Id) : res (St * option B * gset Id) :=
  match l with
  | [] => mret (st, None, V)
  | x :: l =>
      if decide (x ∈ V) then explore_list descend policy k V st l
      else
        '(st, flow) ← visitor st x k;
        match flow with
        | Break value => mret (st, Some value, {[x]} ∪ V)
        | Continue Skip => explore_list descend policy k (leave policy V ({[x]} ∪ V)) st l
        | Continue Descend =>
            if may_expand limit k then
              '(st, broke, V1) ← descend ({[x]} ∪ V) st x;
              match broke with
              | Some value => mret (st, Some value, V1)
              | None => explore_list descend policy k (leave policy V V1) st l
              end
            else explore_list descend policy k (leave policy V ({[x]} ∪ V)) st l
        end
  end.

(** Visit the nodes of [l] at depth [k] in order, each with all below it. *)
Fixpoint explore (nesting : nat) (policy : VisitedPolicy) (k : nat) (V : gset Id) (st : St) (l : list Id)
    : res (St * option B * gset Id) :=
  match nesting with
  | 0 => Stuck
  | S nesting => explore_list (λ V st x, explore nesting policy (S k) V st (next x)) policy k V st l
  end.

(** Visit one level, collecting the next. *)
Fixpoint visit_level (k : nat) (V : gset Id) (st : St) (level found : list Id) : res (St * option B * gset Id * list Id) :=
  match level with
  | [] => mret (st, None, V, found)
  | x :: level =>
      '(st, flow) ← visitor st x k;
      match flow with
      | Break value => mret (st, Some value, V, found)
      | Continue Skip => visit_level k V st level found
      | Continue Descend =>
          if may_expand limit k then
            let new := fresh V (next x) in visit_level k (V ∪ list_to_set new) st level (found ++ new)
          else visit_level k V st level found
      end
  end.

Fixpoint visit_levels (levels : nat) (k : nat) (V : gset Id) (st : St) (level : list Id) : res (St * option B) :=
  match levels with
  | 0 => Stuck
  | S levels =>
      match level with
      | [] => mret (st, None)
      | _ =>
          '(st, broke, V, found) ← visit_level k V st level [];
          match broke with
          | Some value => mret (st, Some value)
          | None => visit_levels levels (S k) V st found
          end
      end
  end.

(** *** The references are total *)

Context (total : ∀ st x k, visitor st x k ≠ Stuck).
Context (nodes : list Id) (Hnd : NoDup nodes) (Hclosed : ∀ x y, x ∈ nodes → y ∈ next x → y ∈ nodes).
Notation unseen V := (pending (λ _, 1) nodes V).

Lemma explore_list_grows descend k l : ∀ V st st' V',
  (∀ V st x st' V', descend V st x = Ok (st', None, V') → V ⊆ V') →
  explore_list descend Global k V st l = Ok (st', None, V') → V ⊆ V'.
Proof using.
  clear. induction l as [|x l IH]; intros V st st' V' Hd; cbn [explore_list]; [by intros [= <- <-]|].
  case_decide; [by apply IH|]. destruct (visitor st x k) as [[st1 flow]| |]; rsimpl; [|done..].
  assert (Hmore : ∀ W st2, V ⊆ W → explore_list descend Global k W st2 l = Ok (st', None, V') → V ⊆ V').
  { intros W st2 HW HWV. etrans; [exact HW|]. by eapply IH. }
  destruct flow as [v|[|]]; [done| |by apply Hmore; set_solver]. destruct (may_expand limit k); [|by apply Hmore; set_solver].
  destruct (descend ({[x]} ∪ V) st1 x) as [[[st2 [v|]] V1]| |] eqn:E; rsimpl; [done| |done..].
  apply Hmore. apply Hd in E. set_solver.
Qed.

Lemma explore_grows f : ∀ k V st l st' V', explore f Global k V st l = Ok (st', None, V') → V ⊆ V'.
Proof using.
  clear. induction f as [|f IH]; intros k V st l st' V'; cbn [explore]; [done|].
  apply explore_list_grows. intros W st1 x st2 W'. apply IH.
Qed.

(** Nodes already marked may be left out of the list. *)
Lemma explore_filter f k l : ∀ V (W : gset Id) st,
  W ⊆ V → explore f Global k V st (filter (λ x, x ∉ W) l) = explore f Global k V st l.
Proof using.
  clear. destruct f as [|f]; [done|]. cbn [explore]. induction l as [|x l IH]; intros V W st HW; [done|].
  rewrite filter_cons. case_decide as Hx.
  - cbn [explore_list]. case_decide; [by apply IH|]. destruct (visitor st x k) as [[st1 flow]| |]; rsimpl; [|done..].
    destruct flow as [v|[|]]; [done| |apply IH; set_solver]. destruct (may_expand limit k); [|apply IH; set_solver].
    destruct (explore f Global (S k) ({[x]} ∪ V) st1 (next x)) as [[[st2 [v|]] V1]| |] eqn:E; rsimpl; [done| |done..].
    apply IH. apply explore_grows in E. set_solver.
  - cbn [explore_list]. rewrite (decide_True (P := x ∈ V)) by set_solver. by apply IH.
Qed.

(** Along a path the marks are taken back. *)
Lemma explore_path f k l : ∀ V st st' V', explore f Path k V st l = Ok (st', None, V') → V' = V.
Proof using.
  clear. destruct f as [|f]; [done|]. cbn [explore]. induction l as [|x l IH]; intros V st st' V'; cbn [explore_list]; [by intros [= <- <-]|].
  case_decide; [by apply IH|]. destruct (visitor st x k) as [[st1 flow]| |]; rsimpl; [|done..].
  destruct flow as [v|[|]]; [done| |apply IH]. destruct (may_expand limit k); [|apply IH].
  destruct (explore f Path (S k) ({[x]} ∪ V) st1 (next x)) as [[[st2 [v|]] V1]| |]; rsimpl; [done|apply IH|done..].
Qed.

Lemma explore_total f : ∀ policy k V st l, l ⊆ nodes → unseen V < f → explore f policy k V st l ≠ Stuck.
Proof using total Hnd Hclosed.
  induction f as [|f IHf]; intros policy k V st l; [lia|]. cbn [explore]. revert V st.
  induction l as [|x l IHl]; intros V st Hl Hf; cbn [explore_list]; [done|].
  assert (Hl' : l ⊆ nodes) by set_solver. assert (Hx : x ∈ nodes) by (apply Hl; left).
  case_decide as HxV; [by apply IHl|]. rewrite (pending_visit _ nodes V x Hnd Hx HxV) in Hf.
  destruct (visitor st x k) as [[st1 flow]| |] eqn:Hv; rsimpl; [|done|by apply total in Hv].
  assert (Hmore : ∀ W st2, V ⊆ W → explore_list (λ V st x, explore f policy (S k) V st (next x)) policy k W st2 l ≠ Stuck).
  { intros W st2 HW. apply IHl; [done|]. pose proof (pending_shrinks (λ _, 1) nodes V W HW).
    rewrite (pending_visit _ nodes V x Hnd Hx HxV) in *. lia. }
  assert (Hleave : ∀ W, V ⊆ W → V ⊆ leave policy V W) by (intros W HW; by destruct policy).
  destruct flow as [v|[|]]; [done| |by apply Hmore, Hleave; set_solver]. destruct (may_expand limit k); [|by apply Hmore, Hleave; set_solver].
  pose proof (IHf policy (S k) ({[x]} ∪ V) st1 (next x) ltac:(intros y; by apply Hclosed) ltac:(lia)) as Hsub.
  destruct (explore f policy (S k) ({[x]} ∪ V) st1 (next x)) as [[[st2 [v|]] V1]| |] eqn:E; rsimpl; [done| |done..].
  apply Hmore, Hleave. destruct policy.
  - apply explore_grows in E. set_solver.
  - apply explore_path in E as ->. set_solver.
Qed.

Lemma visit_level_total k level : ∀ V st found, visit_level k V st level found ≠ Stuck.
Proof using total.
  clear Hnd Hclosed nodes. induction level as [|x level IH]; intros V st found; cbn [visit_level]; [done|].
  destruct (visitor st x k) as [[st1 flow]| |] eqn:Hv; rsimpl; [|done|by apply total in Hv].
  destruct flow as [v|[|]]; [done| |apply IH]. destruct (may_expand limit k); apply IH.
Qed.

(** What a level marks it queues, once each. *)
Lemma visit_level_found k level : ∀ V st found st' V' found',
  level ⊆ nodes → visit_level k V st level found = Ok (st', None, V', found') →
  unseen V' + length found' = unseen V + length found ∧ (found ⊆ nodes → found' ⊆ nodes).
Proof using Hnd Hclosed.
  clear total. induction level as [|x level IH]; intros V st found st' V' found' Hl; cbn [visit_level]; [by intros [= <- <- <-]|].
  assert (Hl' : level ⊆ nodes) by set_solver. assert (Hx : x ∈ nodes) by (apply Hl; left).
  destruct (visitor st x k) as [[st1 flow]| |]; rsimpl; [|done..]. destruct flow as [v|[|]]; [done| |by apply IH].
  destruct (may_expand limit k); [|by apply IH]. intros Hrun.
  assert (Hnew : ∀ l U, l ⊆ nodes → unseen (U ∪ list_to_set (fresh U l)) + length (fresh U l) = unseen U).
  { clear -Hnd. induction l as [|y l IHl]; intros U Hl; cbn [fresh]; [cbn [list_to_set length]; by rewrite union_empty_r_L, Nat.add_0_r|].
    case_decide as Hy; [apply IHl; set_solver|]. rewrite (pending_visit _ nodes U y Hnd) by (done || apply Hl; left).
    assert (U ∪ list_to_set (y :: fresh ({[y]} ∪ U) l) = {[y]} ∪ U ∪ list_to_set (fresh ({[y]} ∪ U) l)) as ->.
    { cbn. set_solver. }
    specialize (IHl ({[y]} ∪ U) ltac:(set_solver)). cbn [length]. lia. }
  destruct (IH _ _ _ _ _ _ Hl' Hrun) as [Hcount Hsub]. specialize (Hnew (next x) V ltac:(intros y; by apply Hclosed)).
  rewrite length_app in Hcount. split; [lia|]. intros Hf. apply Hsub. intros y [Hy|Hy]%elem_of_app; [by apply Hf|].
  apply elem_of_fresh in Hy as [Hy _]. by apply (Hclosed x).
Qed.

Lemma visit_levels_total f : ∀ k V st level, level ⊆ nodes → unseen V + 1 < f → visit_levels f k V st level ≠ Stuck.
Proof using total Hnd Hclosed.
  induction f as [|f IH]; intros k V st level Hl Hf; [lia|]. cbn [visit_levels]. destruct level as [|x level]; [done|].
  pose proof (visit_level_total k (x :: level) V st []) as Ht.
  destruct (visit_level k V st (x :: level) []) as [[[[st1 [v|]] V1] found]| |] eqn:E; rsimpl; [done| |done..].
  apply visit_level_found in E as [Hcount Hsub]; [|done]. destruct found as [|y found].
  - destruct f as [|f]; [lia|]. done.
  - apply IH; [apply Hsub; set_solver|]. cbn in Hcount. lia.
Qed.
End Reference.

(** ** The loops *)

Section Loops.
Context {G : Type} {HG : GraphView G} (g : G) (s : shape) (HV : Views g s).
Context (dense : ∀ x, x ∈ sh_nodes s → from_index (index x) = Ok x).
Context {St B : Type} (visitor : St → Id → nat → res (St * ControlFlow B)) (c : SearchConfig) (cap : nat) (Hcap : sh_bound s ≤ cap).
Notation next := (sh_next s (sc_direction c)).
Notation limit := (sc_max_depth c).
Notation exploring := (explore (sh_next s (sc_direction c)) visitor (sc_max_depth c)).

Definition marking (m : EpochMarks.t) (V : gset Id) : Prop := marks_denote m cap (set_map index V).

Lemma index_in (V : gset Id) x : index x ∈ (set_map index V : gset nat) ↔ x ∈ V.
Proof using. rewrite elem_of_map. split; [by intros (y & ->%index_inj & ?)|by exists x]. Qed.

Lemma node_cap x : x ∈ sh_nodes s → index x < cap.
Proof using HV Hcap. intros Hx. pose proof (nodes_bound g s HV x Hx). lia. Qed.

Lemma marked_at m V x : marking m V → x ∈ sh_nodes s → EpochMarks.is_marked m (index x) = Ok (bool_decide (x ∈ V)).
Proof using HV Hcap.
  intros Hm Hx. rewrite (is_marked_spec _ _ _ Hm) by by apply node_cap. f_equal. apply bool_decide_ext, index_in.
Qed.

Lemma marking_ext m (V W : gset Id) : V = W → marking m V → marking m W.
Proof using. by intros ->. Qed.

Lemma mark_at m V x :
  marking m V → x ∈ sh_nodes s → ∃ m', EpochMarks.mark m (index x) = Ok m' ∧ marking m' ({[x]} ∪ V).
Proof using HV Hcap.
  intros Hm Hx. destruct (mark_spec _ _ _ Hm (index x) (node_cap x Hx)) as (m' & Hrun & Hm'). exists m'. split; [done|].
  unfold marking. by rewrite set_map_union_L, set_map_singleton_L.
Qed.

Lemma unmark_at m V x :
  marking m ({[x]} ∪ V) → x ∉ V → x ∈ sh_nodes s → ∃ m', EpochMarks.unmark m (index x) = Ok m' ∧ marking m' V.
Proof using HV Hcap.
  intros Hm HxV Hx. destruct (unmark_spec _ _ _ Hm (index x) (node_cap x Hx)) as (m' & Hrun & Hm'). exists m'. split; [done|].
  unfold marking. rewrite set_map_union_L, set_map_singleton_L in Hm'.
  assert (({[index x]} ∪ set_map index V) ∖ {[index x]} = (set_map index V : gset nat)) as E; [|by rewrite E in Hm'].
  apply set_eq. intros i. rewrite elem_of_difference, elem_of_union, elem_of_singleton. split; [naive_solver|].
  intros Hi. split; [by right|]. intros ->. by apply index_in in Hi.
Qed.

(** Running a loop: after [j] turns it has done what the reference did. *)
Definition simulates {A} (loop : nat → St → EpochMarks.t → A → res (St * option B * EpochMarks.t)) (j : nat)
    (st : St) (m : EpochMarks.t) (stack rest : A) (r : res (St * option B * gset Id)) : Prop :=
  match r with
  | Ok (st', None, V') => ∃ m', marking m' V' ∧ ∀ fuel, loop (j + fuel) st m stack = loop fuel st' m' rest
  | Ok (st', Some v, V') => ∃ m', marking m' V' ∧ ∀ fuel, loop (j + fuel) st m stack = Ok (st', Some v, m')
  | Panic why => ∀ fuel, loop (j + fuel) st m stack = Panic why
  | Stuck => True
  end.

Lemma simulates_step {A} loop j st m stack st1 m1 (stack1 rest : A) r :
  (∀ fuel, loop (S fuel) st m stack = loop fuel st1 m1 stack1) →
  simulates loop j st1 m1 stack1 rest r → simulates loop (S j) st m stack rest r.
Proof using.
  clear. intros Hstep Hr. unfold simulates in *. destruct r as [[[st' [v|]] V']| |]; [|..|done].
  - destruct Hr as (m' & Hm & Hrun). exists m'. split; [done|]. intros fuel. cbn. by rewrite Hstep, Hrun.
  - destruct Hr as (m' & Hm & Hrun). exists m'. split; [done|]. intros fuel. cbn. by rewrite Hstep, Hrun.
  - intros fuel. cbn. by rewrite Hstep, Hr.
Qed.

Lemma simulates_trans {A} loop i j st m stack st1 m1 V1 (mid rest : A) r :
  (∀ fuel, loop (i + fuel) st m stack = loop fuel st1 m1 mid) →
  marking m1 V1 → simulates loop j st1 m1 mid rest r → simulates loop (i + j) st m stack rest r.
Proof using.
  clear. intros Hstep _ Hr. unfold simulates in *. destruct r as [[[st' [v|]] V']| |]; [|..|done].
  - destruct Hr as (m' & Hm & Hrun). exists m'. split; [done|]. intros fuel. by rewrite <-Nat.add_assoc, Hstep, Hrun.
  - destruct Hr as (m' & Hm & Hrun). exists m'. split; [done|]. intros fuel. by rewrite <-Nat.add_assoc, Hstep, Hrun.
  - intros fuel. by rewrite <-Nat.add_assoc, Hstep, Hr.
Qed.

(** *** Along a path *)

Notation path_loop := (λ fuel st m stack, depth_first_path visitor fuel c g st m stack).
Notation enters k l := ((λ x, Enter (index x) k) <$> l).

Lemma push_enters k l stack :
  foldl (λ stack successor, Enter (index successor) k :: stack) stack (rev l) = enters k l ++ stack.
Proof using. clear. induction l as [|x l IH]; [done|]. cbn [rev]. rewrite foldl_app, IH. done. Qed.

Lemma path_simulates f : ∀ k V st l m rest,
  l ⊆ sh_nodes s → marking m V →
  ∃ j, simulates path_loop j st m (enters k l ++ rest) rest (exploring f Path k V st l).
Proof using HV dense Hcap.
  induction f as [|f IHf]; intros k V st l m rest; [by exists 0|]. cbn [explore]. revert V st m.
  induction l as [|x l IHl]; intros V st m Hl Hm; cbn [explore_list].
  { exists 0, m. split; [done|]. done. }
  assert (Hl' : l ⊆ sh_nodes s) by set_solver. assert (Hx : x ∈ sh_nodes s) by (apply Hl; left).
  pose proof (marked_at m V x Hm Hx) as Hmark. case_decide as HxV.
  { destruct (IHl V st m Hl' Hm) as (j & Hj). exists (S j). eapply simulates_step; [|exact Hj].
    intros fuel. cbn. rewrite Hmark, bool_decide_true by done. done. }
  destruct (mark_at m V x Hm Hx) as (m1 & Hset & Hm1).
  assert (Hleave : ∀ m' st', marking m' ({[x]} ∪ V) → ∃ m2, marking m2 V ∧
    ∀ fuel, path_loop (S fuel) st' m' (Leave (index x) :: enters k l ++ rest) = path_loop fuel st' m2 (enters k l ++ rest)).
  { intros m' st' Hm'. destruct (unmark_at m' V x Hm' HxV Hx) as (m2 & Hun & Hm2). exists m2. split; [done|].
    intros fuel. cbn. by rewrite Hun. }
  destruct (visitor st x k) as [[st1 flow]| |] eqn:Hv; rsimpl; [| |by exists 0].
  2:{ exists 1. intros fuel. cbn. rewrite Hmark, bool_decide_false, Hset by done. rsimpl. rewrite dense by done. rsimpl. by rewrite Hv. }
  assert (Hprune : flow = Continue Skip ∨ flow = Continue Descend ∧ may_expand limit k = false →
    ∃ j, simulates path_loop j st m (enters k (x :: l) ++ rest) rest
      (explore_list visitor limit (λ V st x, exploring f Path (S k) V st (next x)) Path k V st1 l)).
  { intros Hflow. destruct (Hleave m1 st1 Hm1) as (m2 & Hm2 & Hstep). destruct (IHl V st1 m2 Hl' Hm2) as (j & Hj).
    exists (S (S j)). eapply simulates_step; [|eapply simulates_step; [exact Hstep|exact Hj]].
    intros fuel. cbn. rewrite Hmark, bool_decide_false, Hset by done. rsimpl. rewrite dense by done. rsimpl. rewrite Hv. rsimpl.
    destruct Hflow as [->|[-> Hno]]; [done|]. by rewrite Hno. }
  destruct flow as [v|[|]]; [| |apply Hprune; by left].
  - exists 1, m1. split; [done|]. intros fuel. cbn. rewrite Hmark, bool_decide_false, Hset by done. rsimpl. rewrite dense by done. rsimpl. by rewrite Hv.
  - destruct (may_expand limit k) eqn:Hexp; [|apply Hprune; by right].
    destruct (IHf (S k) ({[x]} ∪ V) st1 (next x) m1 (Leave (index x) :: enters k l ++ rest)) as (j1 & Hj1);
      [intros y; by apply (nodes_next g s HV)|done|].
    assert (Hstep : ∀ fuel, path_loop (S fuel) st m (enters k (x :: l) ++ rest) =
      path_loop fuel st1 m1 (enters (S k) (next x) ++ Leave (index x) :: enters k l ++ rest)).
    { intros fuel. cbn. rewrite Hmark, bool_decide_false, Hset by done. rsimpl. rewrite dense by done. rsimpl. rewrite Hv. rsimpl.
      rewrite Hexp. cbn [negb]. rewrite (vw_next (g := g) (sc_direction c) x Hx). rsimpl. by rewrite push_enters, Nat.add_1_r. }
    destruct (exploring f Path (S k) ({[x]} ∪ V) st1 (next x)) as [[[st2 [v|]] V1]| |] eqn:E; rsimpl.
    + exists (S j1). eapply simulates_step; [exact Hstep|exact Hj1].
    + apply explore_path in E as ->. destruct Hj1 as (m' & Hm' & Hrun1). destruct (Hleave m' st2 Hm') as (m2 & Hm2 & Hstep2).
      destruct (IHl V st2 m2 Hl' Hm2) as (j & Hj). exists (S (j1 + S j)). eapply simulates_step; [exact Hstep|].
      eapply simulates_trans; [exact Hrun1|exact Hm'|]. eapply simulates_step; [exact Hstep2|exact Hj].
    + exists (S j1). eapply simulates_step; [exact Hstep|exact Hj1].
    + by exists 0.
Qed.

(** *** With marks for the whole walk *)

Notation global_loop := (λ fuel st m stack, depth_first_global visitor fuel c g st m stack).
Notation at_depth k l := ((λ x, (index x, k)) <$> l).
Notation entries V := (pending (λ x, length (next x)) (sh_nodes s) V).

Lemma push_unmarked_Ok m V k l stack :
  marking m V → l ⊆ sh_nodes s →
  push_unmarked m k l stack = Ok (at_depth k (filter (λ x, x ∉ V) l) ++ stack).
Proof using HV Hcap.
  clear dense. intros Hm. unfold push_unmarked. revert stack. induction l as [|x l IH] using rev_ind; intros stack Hl; [done|].
  rewrite rev_app_distr. cbn [rev app rfold]. rewrite (marked_at m V x Hm) by set_solver. rsimpl.
  rewrite IH by set_solver. rewrite filter_app, fmap_app, <-app_assoc. do 2 f_equal.
  rewrite filter_cons, filter_nil. destruct (bool_decide_reflect (x ∈ V)); by case_decide.
Qed.

Definition left_over (r : res (St * option B * gset Id)) : nat :=
  match r with Ok (_, None, V) => entries V | _ => 0 end.

Lemma global_simulates f : ∀ k V st l m rest,
  l ⊆ sh_nodes s → marking m V →
  ∃ j, simulates global_loop j st m (at_depth k l ++ rest) rest (exploring f Global k V st l) ∧
    j + left_over (exploring f Global k V st l) ≤ entries V + length l.
Proof using HV dense Hcap.
  induction f as [|f IHf]; intros k V st l m rest; [exists 0; split; [done|apply Nat.le_0_l]|]. cbn [explore]. revert V st m.
  induction l as [|x l IHl]; intros V st m Hl Hm; cbn [explore_list length].
  { exists 0. split; [by exists m|]. cbn. lia. }
  assert (Hl' : l ⊆ sh_nodes s) by set_solver. assert (Hx : x ∈ sh_nodes s) by (apply Hl; left).
  pose proof (marked_at m V x Hm Hx) as Hmark. destruct (decide (x ∈ V)) as [HxV|HxV].
  { destruct (IHl V st m Hl' Hm) as (j & Hj & Hb). exists (S j). split; [|lia]. eapply simulates_step; [|exact Hj].
    intros fuel. cbn. rewrite Hmark, bool_decide_true by done. done. }
  destruct (mark_at m V x Hm Hx) as (m1 & Hset & Hm1).
  pose proof (pending_visit (λ x, length (next x)) _ V x (nodes_nodup g s HV) Hx HxV) as Hpend. cbn beta in Hpend.
  destruct (visitor st x k) as [[st1 flow]| |] eqn:Hv; rsimpl; [| |exists 0; split; [done|cbn; lia]].
  2:{ exists 1. split; [|cbn; lia]. intros fuel. cbn. rewrite Hmark, bool_decide_false, Hset by done. rsimpl. rewrite dense by done. rsimpl. by rewrite Hv. }
  assert (Hprune : flow = Continue Skip ∨ flow = Continue Descend ∧ may_expand limit k = false →
    ∃ j, simulates global_loop j st m (at_depth k (x :: l) ++ rest) rest
      (explore_list visitor limit (λ V st x, exploring f Global (S k) V st (next x)) Global k ({[x]} ∪ V) st1 l) ∧
      j + left_over (explore_list visitor limit (λ V st x, exploring f Global (S k) V st (next x)) Global k ({[x]} ∪ V) st1 l)
        ≤ entries V + S (length l)).
  { intros Hflow. destruct (IHl ({[x]} ∪ V) st1 m1 Hl' Hm1) as (j & Hj & Hb). exists (S j). split; [|lia].
    eapply simulates_step; [|exact Hj]. intros fuel. cbn. rewrite Hmark, bool_decide_false, Hset by done. rsimpl.
    rewrite dense by done. rsimpl. rewrite Hv. rsimpl. destruct Hflow as [->|[-> Hno]]; [done|]. by rewrite Hno. }
  destruct flow as [v|[|]]; [| |apply Hprune; by left].
  - exists 1. split; [|cbn; lia]. exists m1. split; [done|]. intros fuel. cbn. rewrite Hmark, bool_decide_false, Hset by done. rsimpl.
    rewrite dense by done. rsimpl. by rewrite Hv.
  - destruct (may_expand limit k) eqn:Hexp; [|apply Hprune; by right].
    set (fresh := filter (λ y, y ∉ {[x]} ∪ V) (next x)).
    assert (Hfresh : length fresh ≤ length (next x)) by apply length_filter.
    destruct (IHf (S k) ({[x]} ∪ V) st1 fresh m1 (at_depth k l ++ rest)) as (j1 & Hj1 & Hb1);
      [intros y [_ Hy]%list_elem_of_filter; exact (nodes_next g s HV (sc_direction c) x y Hx Hy)|exact Hm1|].
    unfold fresh in Hj1, Hb1 at 1. rewrite explore_filter in Hj1, Hb1 by done.
    assert (Hstep : ∀ fuel, global_loop (S fuel) st m (at_depth k (x :: l) ++ rest) =
      global_loop fuel st1 m1 (at_depth (S k) fresh ++ at_depth k l ++ rest)).
    { intros fuel. cbn. rewrite Hmark, bool_decide_false, Hset by done. rsimpl. rewrite dense by done. rsimpl. rewrite Hv. rsimpl.
      rewrite Hexp. cbn [negb]. rewrite (vw_next (g := g) (sc_direction c) x Hx). rsimpl.
      rewrite (push_unmarked_Ok m1 ({[x]} ∪ V)), Nat.add_1_r by (done || intros y; by apply (nodes_next g s HV)). done. }
    destruct (exploring f Global (S k) ({[x]} ∪ V) st1 (next x)) as [[[st2 [v|]] V1]| |] eqn:E; rsimpl; cbn [left_over] in Hb1.
    + exists (S j1). split; [eapply simulates_step; [exact Hstep|exact Hj1]|cbn; lia].
    + destruct Hj1 as (m' & Hm' & Hrun1). destruct (IHl V1 st2 m' Hl' Hm') as (j & Hj & Hb). exists (S (j1 + j)).
      split; [|cbn; lia]. eapply simulates_step; [exact Hstep|]. eapply simulates_trans; [exact Hrun1|exact Hm'|exact Hj].
    + exists (S j1). split; [eapply simulates_step; [exact Hstep|exact Hj1]|cbn; lia].
    + exists 0. split; [done|cbn; lia].
Qed.

(** *** Breadth first *)

Notation queue_loop := (λ fuel st m queue, breadth_first_global visitor fuel c g st m queue).
Notation unseen V := (pending (λ _, 1) (sh_nodes s) V).

Lemma enqueue_all k l : ∀ V m queue,
  marking m V → l ⊆ sh_nodes s →
  ∃ m', rfold (enqueue_unmarked k) (m, queue) (index <$> l) = Ok (m', queue ++ at_depth k (fresh V l)) ∧
    marking m' (V ∪ list_to_set (fresh V l)).
Proof using HV Hcap.
  clear dense. induction l as [|x l IH]; intros V m queue Hm Hl; cbn [fmap list_fmap rfold fresh].
  { exists m. split; [cbn; by rewrite app_nil_r|]. eapply marking_ext; [|exact Hm]. cbn. by rewrite union_empty_r_L. }
  assert (Hl' : l ⊆ sh_nodes s) by set_solver. assert (Hx : x ∈ sh_nodes s) by (apply Hl; left).
  pose proof (marked_at m V x Hm Hx) as Hmark. destruct (decide (x ∈ V)) as [HxV|HxV].
  - assert (enqueue_unmarked k (m, queue) (index x) = Ok (m, queue)) as ->.
    { unfold enqueue_unmarked. by rewrite Hmark, bool_decide_true. }
    rsimpl. by apply IH.
  - destruct (mark_at m V x Hm Hx) as (m1 & Hset & Hm1).
    assert (enqueue_unmarked k (m, queue) (index x) = Ok (m1, queue ++ [(index x, k)])) as ->.
    { unfold enqueue_unmarked. rewrite Hmark, bool_decide_false by done. rsimpl. by rewrite Hset. }
    rsimpl. destruct (IH ({[x]} ∪ V) m1 (queue ++ [(index x, k)]) Hm1 Hl') as (m' & -> & Hm'). exists m'. split.
    + by rewrite <-app_assoc.
    + eapply marking_ext; [|exact Hm']. cbn. set_solver.
Qed.

Lemma level_simulates k level : ∀ V st m found,
  level ⊆ sh_nodes s → marking m V →
  match visit_level next visitor limit k V st level found with
  | Ok (st', None, V', found') => ∃ m', marking m' V' ∧ ∀ fuel,
      queue_loop (length level + fuel) st m (at_depth k level ++ at_depth (S k) found) = queue_loop fuel st' m' (at_depth (S k) found')
  | Ok (st', Some v, V', _) => ∃ m', marking m' V' ∧ ∀ fuel,
      queue_loop (length level + fuel) st m (at_depth k level ++ at_depth (S k) found) = Ok (st', Some v, m')
  | Panic why => ∀ fuel, queue_loop (length level + fuel) st m (at_depth k level ++ at_depth (S k) found) = Panic why
  | Stuck => True
  end.
Proof using HV dense Hcap.
  induction level as [|x level IH]; intros V st m found Hl Hm; cbn [visit_level]; [by exists m|].
  assert (Hl' : level ⊆ sh_nodes s) by set_solver. assert (Hx : x ∈ sh_nodes s) by (apply Hl; left).
  cbn [length fmap list_fmap app Nat.add breadth_first_global]. rewrite dense by done. rsimpl.
  destruct (visitor st x k) as [[st1 flow]| |]; rsimpl; [|done..].
  destruct flow as [v|[|]]; [by exists m| |by apply IH]. destruct (may_expand limit k); cbn [negb]; [|by apply IH].
  rewrite (vw_next (g := g) (sc_direction c) x Hx). rsimpl.
  destruct (enqueue_all (k + 1) (next x) V m (at_depth k level ++ at_depth (S k) found) Hm) as (m' & Hrun & Hm').
  { intros y. by apply (nodes_next g s HV). }
  pose proof (IH _ st1 m' (found ++ fresh V (next x)) Hl' Hm') as HIH. rewrite Hrun. rsimpl.
  assert (at_depth k level ++ at_depth (S k) (found ++ fresh V (next x)) =
    (at_depth k level ++ at_depth (S k) found) ++ at_depth (k + 1) (fresh V (next x))) as E.
  { rewrite fmap_app, Nat.add_1_r. by rewrite app_assoc. }
  by rewrite E in HIH.
Qed.

Lemma levels_simulate f : ∀ k V st level m fuel,
  level ⊆ sh_nodes s → marking m V → length level + unseen V < fuel →
  match visit_levels next visitor limit f k V st level with
  | Ok (st', r) => ∃ m' V', marking m' V' ∧ queue_loop fuel st m (at_depth k level) = Ok (st', r, m')
  | Panic why => queue_loop fuel st m (at_depth k level) = Panic why
  | Stuck => True
  end.
Proof using HV dense Hcap.
  induction f as [|f IH]; intros k V st level m fuel Hl Hm Hf; cbn [visit_levels]; [done|].
  destruct level as [|x level]; [destruct fuel as [|fuel]; [lia|]; by exists m, V|].
  pose proof (level_simulates k (x :: level) V st m [] Hl Hm) as Hlevel. cbn [fmap list_fmap] in Hlevel. rewrite !app_nil_r in Hlevel.
  replace fuel with (length (x :: level) + (fuel - length (x :: level))) by lia.
  destruct (visit_level next visitor limit k V st (x :: level) []) as [[[[st1 [v|]] V1] found]| |] eqn:E; rsimpl; [| |apply Hlevel|done].
  - destruct Hlevel as (m' & Hm' & Hrun). exists m', V1. split; [done|]. apply Hrun.
  - destruct Hlevel as (m' & Hm' & Hrun). cbn [fmap list_fmap] in *. rewrite Hrun.
    apply (visit_level_found next visitor limit (sh_nodes s) (nodes_nodup g s HV)) in E as [Hcount Hsub];
      [|intros a b Ha Hb; by apply (nodes_next g s HV (sc_direction c) a)|done].
    apply IH; [apply Hsub; set_solver|done|]. cbn in Hcount, Hf |- *. lia.
Qed.
End Loops.

(** * What a search visits

    [search] is its recursive reference, for either frontier and either way of
    marking; searches over the whole graph end within a bound linear in its
    edges. *)


(** The reference search a configuration asks for. *)
Definition search_reference {St B} (next : Id → list Id) (visitor : St → Id → nat → res (St * ControlFlow B))
    (c : SearchConfig) (nodes : nat) (st : St) (seeds : list Id) : res (St * option B) :=
  match sc_order c, sc_visited c with
  | DepthFirst, policy =>
      '(st, broke, _) ← explore next visitor (sc_max_depth c) (S nodes) policy 0 ∅ st seeds; mret (st, broke)
  | BreadthFirst, Global =>
      let level := fresh ∅ seeds in
      visit_levels next visitor (sc_max_depth c) (2 + nodes) 0 (list_to_set level) st level
  | BreadthFirst, Path =>
      Panic "VisitedPolicy::Path requires SearchOrder::DepthFirst: a breadth-first frontier never unwinds, so a path mark could never be removed"
  end.

Section Theorems.
Context {G : Type} {HG : GraphView G} (g : G) (s : shape) (HV : Views g s).
Context {St B : Type} (visitor : St → Id → nat → res (St * ControlFlow B)).

(** Before anything is visited. *)
Lemma search_in_refuses fuel seeds c marks st :
  (∃ seed, seed ∈ seeds ∧ sh_bound s ≤ index seed) ∨ EpochMarks.capacity marks < sh_bound s →
  ∃ why, search_in visitor fuel g seeds c marks st = Panic why.
Proof using HV.
  intros Hbad. unfold search_in. rewrite (vw_bound (g := g) (s := s)).
  destruct (bool_decide_reflect (Forall (λ seed, seed < sh_bound s) (index <$> seeds))) as [Hall|]; [|by eexists].
  rsimpl. destruct Hbad as [(seed & Hin & Hle)|Hcap]; [|rewrite bool_decide_false by lia; by eexists].
  rewrite Forall_fmap, Forall_forall in Hall. specialize (Hall seed Hin). cbn in Hall. lia.
Qed.

Context (c : SearchConfig) (seeds : list Id) (Hseeds : seeds ⊆ sh_nodes s).
Notation next := (sh_next s (sc_direction c)).

Lemma pending_ones : pending (λ _, 1) (sh_nodes s) ∅ = length (sh_nodes s).
Proof using. clear. rewrite pending_empty. induction (sh_nodes s) as [|x l IH]; [done|]. cbn. by rewrite IH. Qed.

Lemma nodes_few : length (sh_nodes s) ≤ sh_bound s.
Proof using HV.
  rewrite <-(length_fmap index). rewrite <-(length_seq (sh_bound s) 0). apply submseteq_length, NoDup_submseteq.
  - apply NoDup_fmap_2; [|by apply (nodes_nodup g s HV)]. intros x y. apply index_inj.
  - intros i (x & -> & Hx)%list_elem_of_fmap. apply elem_of_seq. pose proof (nodes_bound g s HV x Hx). lia.
Qed.

Lemma search_reference_total st :
  (∀ st x k, visitor st x k ≠ Stuck) → search_reference next visitor c (length (sh_nodes s)) st seeds ≠ Stuck.
Proof using HV Hseeds.
  intros Ht. unfold search_reference. pose proof (nodes_nodup g s HV) as Hnd.
  assert (Hclosed : ∀ x y, x ∈ sh_nodes s → y ∈ next x → y ∈ sh_nodes s) by (intros x y; apply (nodes_next g s HV)).
  destruct (sc_order c), (sc_visited c); [| | |done].
  1,2: match goal with |- context [explore ?n ?v ?l ?f ?p 0 ∅ ?st ?seeds] =>
         pose proof (explore_total n v l Ht _ Hnd Hclosed f p 0 ∅ st seeds Hseeds) as He;
         rewrite pending_ones in He; specialize (He ltac:(lia));
         destruct (explore n v l f p 0 ∅ st seeds) as [[[? ?] ?]| |]; done end.
  apply (visit_levels_total _ _ _ Ht _ Hnd Hclosed).
  - intros x [Hx _]%elem_of_fresh. by apply Hseeds.
  - pose proof (pending_le (λ _, 1) (sh_nodes s) (list_to_set (fresh ∅ seeds))). rewrite pending_ones in *. lia.
Qed.

(** C29: A search that is given nodes of the graph, enough marks and a visitor
    that returns ends, and does exactly what its reference does: the visitor
    sees the nodes the reference search visits, in that order and at those
    depths, the search breaks off or panics where the reference does and returns
    the visitor's value, and the marks are left usable. Depth first visits a
    node and all below it before its next sibling, with the marks kept or, along
    a path, taken back on leaving; breadth first goes level by level; a node the
    visitor skips or at the depth limit is visited and not expanded; breadth
    first along a path is refused. With marks for the whole walk the number of
    steps is linear in the edges. *)
Theorem search_is_its_reference st marks cap X :
  (∀ x, x ∈ sh_nodes s → from_index (index x) = Ok x) → (∀ st x k, visitor st x k ≠ Stuck) →
  marks_denote marks cap X → sh_bound s ≤ cap →
  ∃ enough, (sc_visited c = Global → enough ≤ 2 + length seeds + adjacency_total (sc_direction c) g + sh_bound s) ∧
    ∀ fuel, enough ≤ fuel →
    match search_reference next visitor c (length (sh_nodes s)) st seeds with
    | Ok (st', broke) => ∃ marks' Y, marks_denote marks' cap Y ∧
        search_in visitor fuel g seeds c marks st = Ok (st', broke, marks')
    | Panic why => search_in visitor fuel g seeds c marks st = Panic why
    | Stuck => False
    end.
Proof using HV Hseeds.
  intros dense Ht Hmarks Hcap. pose proof (search_reference_total st Ht) as Hns. revert Hns.
  assert (Hm0 : marking cap (EpochMarks.reset marks) ∅).
  { unfold marking. rewrite set_map_empty. by eapply marks_reset. }
  assert (Hin : Forall (λ seed, seed < sh_bound s) (index <$> seeds)).
  { rewrite Forall_fmap, Forall_forall. intros x Hx. apply (nodes_bound g s HV). by apply Hseeds. }
  assert (Hmany : sh_bound s ≤ EpochMarks.capacity marks) by by rewrite (md_cap _ _ _ Hmarks).
  unfold search_in. rewrite (vw_bound (g := g) (s := s)), (bool_decide_true _ Hin), (bool_decide_true _ Hmany). rsimpl.
  rewrite (adjacency_total_eq g s HV), <-(pending_empty (λ n, length (next n))). unfold search_reference.
  destruct (sc_order c), (sc_visited c).
  - destruct (global_simulates g s HV dense visitor c cap Hcap (S (length (sh_nodes s))) 0 ∅ st seeds (EpochMarks.reset marks) [] Hseeds Hm0)
      as (j & Hj & Hb). rewrite app_nil_r, <-list_fmap_compose in *.
    intros Hns. exists (S j). split; [intros _; lia|]. intros fuel Hf. replace fuel with (j + (fuel - j)) by lia. revert Hns Hj.
    destruct (explore _ _ _ _ _ _ _ _ _) as [[[st' [v|]] V]| |]; rsimpl; intros Hns Hj; [| |apply Hj|done].
    + destruct Hj as (m & Hm & Hrun). exists m, (set_map index V). split; [exact Hm|]. apply Hrun.
    + destruct Hj as (m & Hm & Hrun). exists m, (set_map index V). split; [exact Hm|]. rewrite Hrun.
      by destruct (fuel - j) eqn:?; [lia|].
  - destruct (path_simulates g s HV dense visitor c cap Hcap (S (length (sh_nodes s))) 0 ∅ st seeds (EpochMarks.reset marks) [] Hseeds Hm0)
      as (j & Hj). rewrite app_nil_r, <-list_fmap_compose in *.
    intros Hns. exists (S j). split; [done|]. intros fuel Hf. replace fuel with (j + (fuel - j)) by lia. revert Hns Hj.
    destruct (explore _ _ _ _ _ _ _ _ _) as [[[st' [v|]] V]| |]; rsimpl; intros Hns Hj; [| |apply Hj|done].
    + destruct Hj as (m & Hm & Hrun). exists m, (set_map index V). split; [exact Hm|]. apply Hrun.
    + destruct Hj as (m & Hm & Hrun). exists m, (set_map index V). split; [exact Hm|]. rewrite Hrun.
      by destruct (fuel - j) eqn:?; [lia|].
  - destruct (enqueue_all g s HV cap Hcap 0 seeds ∅ (EpochMarks.reset marks) [] Hm0 Hseeds) as (m & Hrun & Hm).
    rewrite union_empty_l_L in Hm. rewrite Hrun. rsimpl. intros Hns. set (level := fresh ∅ seeds) in *.
    assert (Hlen : length level ≤ length seeds).
    { apply submseteq_length, NoDup_submseteq; [apply fresh_nodup|]. by intros x [Hx _]%elem_of_fresh. }
    pose proof (pending_le (λ _, 1) (sh_nodes s) (list_to_set level)) as Hle. rewrite pending_ones in Hle. pose proof nodes_few.
    exists (S (length level + length (sh_nodes s))). split; [intros _; lia|]. intros fuel Hf.
    pose proof (levels_simulate g s HV dense visitor c cap Hcap (2 + length (sh_nodes s)) 0 (list_to_set level) st level m fuel) as Hlv.
    specialize (Hlv ltac:(intros x [Hx _]%elem_of_fresh; by apply Hseeds) Hm ltac:(lia)). revert Hns Hlv. cbn [app].
    destruct (visit_levels _ _ _ _ _ _ _ _) as [[st' r]| |]; intros Hns Hlv; [|apply Hlv|done].
    destruct Hlv as (m' & V & Hm' & Hend). exists m', (set_map index V). split; [exact Hm'|exact Hend].
  - intros _. exists 0. split; [lia|]. done.
Qed.
End Theorems.

(** ** Witness *)

(** Records the visits and stops below node 2. *)
Definition note_visits (st : list (Id * nat)) (x : Id) (k : nat) : res (list (Id * nat) * ControlFlow unit) :=
  mret (st ++ [(x, k)], Continue (if decide (x = 2%N) then Skip else Descend)).

Definition sample_search : SearchConfig := search_config_new BreadthFirst Outgoing.

Definition sample_fuel : nat := 2 + length [3%N] + adjacency_total (sc_direction sample_search) sample_store + 4.

Lemma sample_searched :
  ∃ marks, search_in note_visits sample_fuel sample_store [3%N] sample_search (EpochMarks.new 4) [] = Ok ([(3%N, 0); (2%N, 1)], None, marks).
Proof. eexists. vm_compute. reflexivity. Qed.

(** A run that returned is what its reference returns. *)
Lemma returned {St B M} (r : res (St * option B)) (run : res (St * option B * M)) (good : M → gset nat → Prop) st broke m :
  match r with
  | Ok (st', broke) => ∃ m' Y, good m' Y ∧ run = Ok (st', broke, m')
  | Panic why => run = Panic why
  | Stuck => False
  end → run = Ok (st, broke, m) → r = Ok (st, broke).
Proof. intros Hr ->. destruct r as [[st' b]| |]; [|done..]. by destruct Hr as (? & ? & _ & [= <- <- _]). Qed.

Lemma search_is_its_reference_witness :
  ∃ s, Views sample_store s ∧ [3%N] ⊆ sh_nodes s ∧
    search_reference (sh_next s Outgoing) note_visits sample_search (length (sh_nodes s)) [] [3%N] =
    Ok ([(3%N, 0); (2%N, 1)], None).
Proof.
  destruct sample_nodes as (s & HV & Hnodes & Hb & Hdense). exists s.
  assert (Hseeds : [3%N] ⊆ sh_nodes s) by (rewrite Hnodes; set_solver).
  split; [exact HV|]. split; [exact Hseeds|].
  destruct (search_is_its_reference sample_store s HV note_visits sample_search [3%N] Hseeds [] (EpochMarks.new 4) 4 ∅ Hdense)
    as (enough & Hle & Hrun).
  - intros st x k. unfold note_visits. by case_decide.
  - apply marks_new.
  - by rewrite Hb.
  - specialize (Hle eq_refl). rewrite Hb in Hle. destruct sample_searched as (marks & Hsample).
    exact (returned _ _ _ _ _ _ (Hrun sample_fuel Hle) Hsample).
Defined.
