(* ===== verification/Dominator.v ===== *)
(** * Dominator trees

    Models [graph/dominator.rs], [graph/dominator/construction.rs] and
    [graph/dominator/numbering.rs]: the depth-first numbering, the link-eval
    forest with path compression and the buckets of the simple
    Lengauer-Tarjan algorithm, the preorder numbering of the finished forest,
    and the queries. The tables hold raw [u32] words, with [ABSENT] the largest
    one. The two stacks of the construction are empty between calls and are
    arguments of the loops that use them. A debug assertion is checked like any
    other. *)

From S2P Require Import Prelude Ids View Traverse Scc.

(** [ABSENT], [slot], [word] and [check_bound] *)
Definition ABSENT : N := U32_MAX.
Definition slot (stored : N) : nat := N.to_nat stored.
Definition word (index : nat) : res N :=
  expect (u32_try_from index) "a dense index below the checked node bound fits in u32".
Definition check_bound (bound : nat) : res () :=
  rassert (bool_decide (is_Some (u32_try_from bound))) "node bound exceeds the dense u32 range of a dominator tree".

(** ** Construction *)

(** [Pending] *)
Record Pending : Type := mk_Pending { pd_node : N; pd_parent : N }.

(** [ConstructionBuffers], less its two stacks *)
Record ConstructionBuffers : Type := mk_Construction {
  cb_number : list N;
  cb_vertex : list N;
  cb_parent : list N;
  cb_semi : list N;
  cb_label : list N;
  cb_ancestor : list N;
  cb_dominator : list N;
  cb_bucket_head : list N;
  cb_bucket_next : list N;
}.

(** [ConstructionBuffers::reached] *)
Definition reached (b : ConstructionBuffers) : nat := length (cb_vertex b).

(** The climbing loop of [compress] *)
Fixpoint compress_up (fuel : nat) (ancestor : list N) (node : N) (path : list N) : res (list N) :=
  match fuel with
  | 0 => Stuck
  | S fuel =>
      above ← vget ancestor (slot node);
      next ← vget ancestor (slot above);
      if decide (next = ABSENT) then mret path
      else compress_up fuel ancestor above (node :: path)
  end.

(** The flattening loop of [compress]; the head of the list is the top of the stack. *)
Fixpoint compress_down (semi label ancestor : list N) (path : list N) : res (list N * list N) :=
  match path with
  | [] => mret (label, ancestor)
  | node :: path =>
      up ← vget ancestor (slot node);
      above ← vget label (slot up);
      own ← vget label (slot node);
      semi_above ← vget semi (slot above);
      semi_own ← vget semi (slot own);
      label ← (if decide (semi_above < semi_own)%N then vset label (slot node) above else mret label);
      upper ← vget ancestor (slot up);
      ancestor ← vset ancestor (slot node) upper;
      compress_down semi label ancestor path
  end.

(** [ConstructionBuffers::compress] *)
Definition compress (semi label ancestor : list N) (start : N) : res (list N * list N) :=
  path ← compress_up (S (length ancestor)) ancestor start [];
  compress_down semi label ancestor path.

(** [ConstructionBuffers::evaluate] *)
Definition evaluate (semi label ancestor : list N) (node : N) : res (list N * list N * N) :=
  up ← vget ancestor (slot node);
  if decide (up = ABSENT) then mret (label, ancestor, node)
  else
    '(label, ancestor) ← compress semi label ancestor node;
    least ← vget label (slot node);
    mret (label, ancestor, least).

(** The loop of [process] over the bucket of the parent *)
Fixpoint settle_bucket (fuel : nat) (parent : N) (semi next : list N) (label ancestor dominator : list N)
    (waiting : N) : res (list N * list N * list N) :=
  match fuel with
  | 0 => Stuck
  | S fuel =>
      if decide (waiting = ABSENT) then mret (label, ancestor, dominator)
      else
        '(label, ancestor, least) ← evaluate semi label ancestor waiting;
        semi_least ← vget semi (slot least);
        semi_waiting ← vget semi (slot waiting);
        dominator ← vset dominator (slot waiting)
                      (if decide (semi_least < semi_waiting)%N then least else parent);
        waiting ← vget next (slot waiting);
        settle_bucket fuel parent semi next label ancestor dominator waiting
  end.

Section Construction.
Context {G : Type} {HG : GraphView G}.

(** The loop of [search] over the successors of a numbered node *)
Definition push_pending (tbl : list N) (number : N) (successors : list Id) (pending : list Pending)
    : res (list Pending) :=
  rfold (λ pending successor,
    entry ← vget tbl (index successor);
    if decide (entry = ABSENT) then
      node ← word (index successor); mret (mk_Pending node number :: pending)
    else mret pending) pending successors.

(** The loop of [search] *)
Fixpoint search_loop (fuel : nat) (g : G) (number vertex parent : list N) (pending : list Pending)
    : res (list N * list N * list N) :=
  match fuel with
  | 0 => Stuck
  | S fuel =>
      match pending with
      | [] => mret (number, vertex, parent)
      | mk_Pending node up :: pending =>
          entry ← vget number (slot node);
          if decide (entry = ABSENT) then
            count ← word (length vertex);
            number ← vset number (slot node) count;
            let vertex := vertex ++ [node] in
            let parent := parent ++ [up] in
            id ← from_index (slot node);
            successors ← gv_successors g id;
            pending ← push_pending number count successors pending;
            search_loop fuel g number vertex parent pending
          else search_loop fuel g number vertex parent pending
      end
  end.

(** [ConstructionBuffers::search] *)
Definition search (g : G) (root : nat) : res (list N * list N * list N) :=
  node ← word root;
  search_loop (2 + adjacency_total Outgoing g) g (replicate (gv_node_bound g) ABSENT) [] []
    [mk_Pending node ABSENT].

(** [ConstructionBuffers::prepare] *)
Definition prepare (number vertex parent : list N) (reached : nat) : res ConstructionBuffers :=
  count ← word reached;
  dominator ← vset parent 0 0%N;
  mret (mk_Construction number vertex parent (N.of_nat <$> seq 0 (N.to_nat count))
    (N.of_nat <$> seq 0 (N.to_nat count)) (replicate reached ABSENT) dominator
    (replicate reached ABSENT) (replicate reached ABSENT)).

(** The loop of [process] over the predecessors *)
Definition least_semi (number semi : list N) (predecessors : list Id) (label ancestor : list N) (start : N)
    : res (list N * list N * N) :=
  rfold (λ '(label, ancestor, least_so_far) predecessor,
    entry ← vget number (index predecessor);
    if decide (entry = ABSENT) then mret (label, ancestor, least_so_far)
    else
      '(label, ancestor, least) ← evaluate semi label ancestor entry;
      value ← vget semi (slot least);
      mret (label, ancestor, N.min least_so_far value)) (label, ancestor, start) predecessors.

(** [ConstructionBuffers::process] *)
Definition process (g : G) (b : ConstructionBuffers) (node : nat) : res ConstructionBuffers :=
  start ← vget (cb_semi b) node;
  here ← vget (cb_vertex b) node;
  id ← from_index (slot here);
  predecessors ← gv_predecessors g id;
  '(label, ancestor, least) ← least_semi (cb_number b) (cb_semi b) predecessors (cb_label b) (cb_ancestor b) start;
  semi ← vset (cb_semi b) node least;
  parent ← vget (cb_parent b) node;
  '(head, next) ←
    (if decide (least ≠ parent) then
       first ← vget (cb_bucket_head b) (slot least);
       next ← vset (cb_bucket_next b) node first;
       stored ← word node;
       head ← vset (cb_bucket_head b) (slot least) stored;
       mret (head, next)
     else mret (cb_bucket_head b, cb_bucket_next b));
  ancestor ← vset ancestor node parent;
  waiting ← vget head (slot parent);
  head ← vset head (slot parent) ABSENT;
  '(label, ancestor, dominator) ←
    settle_bucket (S (length next)) parent semi next label ancestor (cb_dominator b) waiting;
  mret (mk_Construction (cb_number b) (cb_vertex b) (cb_parent b) semi label ancestor dominator head next).

(** The last loop of [immediate_dominators] *)
Definition finish_node (b : ConstructionBuffers) (acc : list N * list N) (node : nat)
    : res (list N * list N) :=
  let '(dominator, idom) := acc in
  relative ← vget dominator node;
  semi ← vget (cb_semi b) node;
  dominator ←
    (if decide (relative ≠ semi) then
       settled ← vget dominator (slot relative); vset dominator node settled
     else mret dominator);
  here ← vget (cb_vertex b) node;
  up ← vget dominator node;
  above ← vget (cb_vertex b) (slot up);
  idom ← vset idom (slot here) above;
  mret (dominator, idom).

(** [ConstructionBuffers::immediate_dominators] *)
Definition immediate_dominators (g : G) (root : nat) : res (ConstructionBuffers * list N) :=
  '(number, vertex, parent) ← search g root;
  let reached := length vertex in
  b ← prepare number vertex parent reached;
  b ← rfold (process g) b (rev (seq 1 (reached - 1)));
  '(dominator, idom) ←
    rfold (finish_node b) (cb_dominator b, replicate (gv_node_bound g) ABSENT) (seq 1 (reached - 1));
  mret (mk_Construction (cb_number b) (cb_vertex b) (cb_parent b) (cb_semi b) (cb_label b) (cb_ancestor b)
          dominator (cb_bucket_head b) (cb_bucket_next b), idom).
End Construction.

(** ** Preorder numbering *)

(** [Numbered] *)
Record Numbered : Type := mk_Numbered {
  nb_pre : list N;
  nb_last : list N;
  nb_level : list N;
  nb_order : list Id;
}.

(** [NumberingBuffers] *)
Record NumberingBuffers : Type := mk_Chains { first_child : list N; next_sibling : list N }.

(** The loop of [number] that chains siblings *)
Definition chain_child (parent : list N) (c : NumberingBuffers) (node : nat) : res NumberingBuffers :=
  up ← vget parent node;
  if decide (up = ABSENT) then mret c
  else
    first ← vget (first_child c) (slot up);
    next ← vset (next_sibling c) node first;
    stored ← word node;
    first ← vset (first_child c) (slot up) stored;
    mret (mk_Chains first next).

Definition chain_children (parent : list N) : res NumberingBuffers :=
  let empty := replicate (length parent) ABSENT in
  rfold (chain_child parent) (mk_Chains empty empty) (rev (seq 0 (length parent))).

(** The inner loop of [walk]: close finished subtrees until a sibling waits *)
Fixpoint climb (fuel : nat) (c : NumberingBuffers) (parent : list N) (root : nat) (count : nat)
    (last level : list N) (node : nat) : res (list N * list N * option nat) :=
  match fuel with
  | 0 => Stuck
  | S fuel =>
      final ← word (count - 1);
      last ← vset last node final;
      if decide (node = root) then mret (last, level, None)
      else
        sibling ← vget (next_sibling c) node;
        if decide (sibling = ABSENT) then
          up ← vget parent node;
          climb fuel c parent root count last level (slot up)
        else
          height ← vget level node;
          level ← vset level (slot sibling) height;
          mret (last, level, Some (slot sibling))
  end.

(** The outer loop of [walk] *)
Fixpoint walk_loop (fuel : nat) (c : NumberingBuffers) (parent : list N) (root : nat) (numbered : Numbered)
    (node : nat) : res Numbered :=
  match fuel with
  | 0 => Stuck
  | S fuel =>
      position ← word (length (nb_order numbered));
      pre ← vset (nb_pre numbered) node position;
      id ← from_index node;
      let order := nb_order numbered ++ [id] in
      child ← vget (first_child c) node;
      if decide (child = ABSENT) then
        '(last, level, next) ←
          climb (S (length parent)) c parent root (length order) (nb_last numbered) (nb_level numbered) node;
        match next with
        | None => mret (mk_Numbered pre last level order)
        | Some node => walk_loop fuel c parent root (mk_Numbered pre last level order) node
        end
      else
        height ← vget (nb_level numbered) node;
        deeper ← u32_add height 1;
        level ← vset (nb_level numbered) (slot child) deeper;
        walk_loop fuel c parent root (mk_Numbered pre (nb_last numbered) level order) (slot child)
  end.

(** [NumberingBuffers::walk] *)
Definition walk (c : NumberingBuffers) (parent : list N) (numbered : Numbered) (root : N) : res Numbered :=
  level ← vset (nb_level numbered) (slot root) 0%N;
  walk_loop (S (length parent)) c parent (slot root)
    (mk_Numbered (nb_pre numbered) (nb_last numbered) level (nb_order numbered)) (slot root).

(** [NumberingBuffers::number] *)
Definition number_forest (parent roots : list N) (reachable : nat) : res (NumberingBuffers * Numbered) :=
  c ← chain_children parent;
  let absent := replicate (length parent) ABSENT in
  numbered ← rfold (walk c parent) (mk_Numbered absent absent absent []) roots;
  _ ← rassert (bool_decide (length (nb_order numbered) = reachable))
        "every reachable node must hang below a root";
  mret (c, numbered).

(** ** The tree *)

(** [DominatorTree] *)
Record DominatorTree : Type := mk_Tree {
  dt_idom : list N;
  dt_pre : list N;
  dt_last : list N;
  dt_level : list N;
  dt_order : list Id;
}.

(** [DominatorScratch] *)
Record DominatorScratch : Type := mk_Scratch {
  sc_construction : ConstructionBuffers;
  sc_numbering : NumberingBuffers;
}.

(** [DominatorScratch::new] *)
Definition scratch_new : DominatorScratch :=
  mk_Scratch (mk_Construction [] [] [] [] [] [] [] [] []) (mk_Chains [] []).

(** [DominatorTree::from_numbered] *)
Definition from_numbered (idom : list N) (n : Numbered) : DominatorTree :=
  mk_Tree idom (nb_pre n) (nb_last n) (nb_level n) (nb_order n).

(** [parent.map_or(ABSENT, |parent| word(parent.index()))] *)
Definition parent_word (parent : option Id) : res N :=
  match parent with None => mret ABSENT | Some p => word (index p) end.

(** The assertion of [from_forest_parts] on one node *)
Definition no_stray_parent (row : N * bool) : bool := snd row || bool_decide (fst row = ABSENT).

(** A root of the forest: reachable and without a parent *)
Definition is_forest_root (parents : list N) (reachable : list bool) (node : nat) : res bool :=
  live ← vget reachable node;
  if (live : bool) then up ← vget parents node; mret (bool_decide (up = ABSENT)) else mret false.

(** [DominatorTree::from_forest_parts] *)
Definition from_forest_parts (idom : list (option Id)) (reachable : list bool) : res DominatorTree :=
  _ ← rassert (bool_decide (length idom = length reachable)) "tables of different lengths";
  _ ← check_bound (length idom);
  parents ← rmapM parent_word idom;
  _ ← rassert (forallb no_stray_parent (zip parents reachable))
        "an unreachable node has no immediate dominator";
  roots ← rfold (λ roots node,
    root ← is_forest_root parents reachable node;
    if (root : bool) then stored ← word node; mret (roots ++ [stored]) else mret roots)
    [] (seq 0 (length parents));
  '(_, numbered) ← number_forest parents roots (length (filter (λ b : bool, b = true) reachable));
  mret (from_numbered parents numbered).

(** [DominatorTree::idom] *)
Definition idom (t : DominatorTree) (node : Id) : res (option Id) :=
  parent ← vget (dt_idom t) (index node);
  if decide (parent = ABSENT) then mret None else id ← from_index (slot parent); mret (Some id).

(** [DominatorTree::is_reachable] *)
Definition is_reachable (t : DominatorTree) (node : Id) : res bool :=
  pre ← vget (dt_pre t) (index node); mret (bool_decide (pre ≠ ABSENT)).

(** [DominatorTree::dominates] *)
Definition dominates (t : DominatorTree) (dominator node : Id) : res bool :=
  if decide (dominator = node) then mret true
  else
    start ← vget (dt_pre t) (index dominator);
    position ← vget (dt_pre t) (index node);
    if decide (start ≠ ABSENT ∧ position ≠ ABSENT ∧ (start ≤ position)%N) then
      last ← vget (dt_last t) (index dominator); mret (bool_decide (position ≤ last)%N)
    else mret false.

(** [DominatorTree::strictly_dominates] *)
Definition strictly_dominates (t : DominatorTree) (dominator node : Id) : res bool :=
  if decide (dominator ≠ node) then dominates t dominator node else mret false.

(** [DominatorTree::level] *)
Definition level (t : DominatorTree) (node : Id) : res (option N) :=
  pre ← vget (dt_pre t) (index node);
  if decide (pre ≠ ABSENT) then l ← vget (dt_level t) (index node); mret (Some l) else mret None.

(** The climbing loop of [nearest_common_dominator] *)
Fixpoint meet_climb (fuel : nat) (t : DominatorTree) (first second : nat) : res (option Id) :=
  match fuel with
  | 0 => Stuck
  | S fuel =>
      if decide (first = second) then id ← from_index first; mret (Some id)
      else
        l1 ← vget (dt_level t) first;
        l2 ← vget (dt_level t) second;
        match (l1 ?= l2)%N with
        | Gt => up ← vget (dt_idom t) first; meet_climb fuel t (slot up) second
        | Lt => up ← vget (dt_idom t) second; meet_climb fuel t first (slot up)
        | Eq =>
            up1 ← vget (dt_idom t) first;
            if decide (up1 = ABSENT) then mret None
            else up2 ← vget (dt_idom t) second; meet_climb fuel t (slot up1) (slot up2)
        end
  end.

(** [DominatorTree::nearest_common_dominator] *)
Definition nearest_common_dominator (t : DominatorTree) (first second : Id) : res (option Id) :=
  p1 ← vget (dt_pre t) (index first);
  if decide (p1 = ABSENT) then mret None
  else
    p2 ← vget (dt_pre t) (index second);
    if decide (p2 = ABSENT) then mret None
    else meet_climb (S (2 * length (dt_idom t))) t (index first) (index second).

(** The loop of [nearest_common_dominator_of]; [None] as the answer returns at once *)
Fixpoint common_of (t : DominatorTree) (common : option Id) (nodes : list Id) : res (option Id) :=
  match nodes with
  | [] => mret common
  | node :: nodes =>
      live ← is_reachable t node;
      if (live : bool) then
        match common with
        | None => common_of t (Some node) nodes
        | Some c =>
            met ← nearest_common_dominator t c node;
            match met with None => mret None | Some m => common_of t (Some m) nodes end
        end
      else common_of t common nodes
  end.

(** [DominatorTree::nearest_common_dominator_of] *)
Definition nearest_common_dominator_of (t : DominatorTree) (nodes : list Id) : res (option Id) :=
  common_of t None nodes.

(** [DominatorTree::preorder] *)
Definition preorder (t : DominatorTree) : list Id := dt_order t.

(** [DominatorTree::span] *)
Definition span (t : DominatorTree) (node : Id) : res (nat * nat) :=
  pre ← vget (dt_pre t) (index node);
  if decide (pre = ABSENT) then mret (0, 0)
  else last ← vget (dt_last t) (index node); mret (slot pre, slot last + 1).

(** [DominatorTree::subtree] *)
Definition subtree (t : DominatorTree) (node : Id) : res (list Id) :=
  '(a, b) ← span t node; vslice (dt_order t) a b.

(** The successor walk of [DominatorTree::children], collected *)
Fixpoint children_from (fuel : nat) (t : DominatorTree) (position stop : nat) : res (list Id) :=
  match fuel with
  | 0 => Stuck
  | S fuel =>
      if decide (position < stop) then
        child ← vget (dt_order t) position;
        last ← vget (dt_last t) (index child);
        rest ← children_from fuel t (slot last + 1) stop;
        mret (child :: rest)
      else mret []
  end.

(** [DominatorTree::children], collected *)
Definition children (t : DominatorTree) (node : Id) : res (list Id) :=
  '(start, stop) ← span t node; children_from (S (length (dt_order t))) t (start + 1) stop.

(** ** Scoped walks *)

Section Scoped.
Context {S T : Type} (enter : S → Id → S * T) (exit : S → Id → T → S).

(** Closing the scopes the preorder has left, before [position] *)
Fixpoint close_scopes (t : DominatorTree) (position : nat) (state : S) (scopes : list (Id * T))
    : res (S * list (Id * T)) :=
  match scopes with
  | [] => mret (state, [])
  | (top, scope) :: below =>
      last ← vget (dt_last t) (index top);
      if decide (slot last < position) then close_scopes t position (exit state top scope) below
      else mret (state, scopes)
  end.

(** One position of [scoped_walk] *)
Definition scoped_step (t : DominatorTree) (acc : S * list (Id * T)) (position : nat)
    : res (S * list (Id * T)) :=
  '(state, scopes) ← close_scopes t position (fst acc) (snd acc);
  node ← vget (dt_order t) position;
  let '(state, scope) := enter state node in
  mret (state, (node, scope) :: scopes).

(** [DominatorTree::scoped_walk] *)
Definition scoped_walk (t : DominatorTree) (roots : list Id) (state : S) : res S :=
  rfold (λ state root,
    '(a, b) ← span t root;
    '(state, scopes) ← rfold (scoped_step t) (state, []) (seq a (b - a));
    mret (foldl (λ state '(node, scope), exit state node scope) state scopes)) state roots.
End Scoped.

(** ** Computing the tree *)

Section Compute.
Context {G : Type} {HG : GraphView G}.

(** [DominatorTree::satisfies_parent_property] *)
Definition satisfies_parent_property (t : DominatorTree) (g : G) : res bool :=
  rall (λ tail,
    heads ← gv_successors g tail;
    rall (λ head,
      live ← is_reachable t head;
      if (live : bool) then
        up ← idom t head;
        match up with None => mret true | Some parent => dominates t parent tail end
      else mret false) heads) (dt_order t).

(** [DominatorTree::compute_from_in]; every buffer of the scratch is overwritten *)
Definition compute_from_in (scratch : DominatorScratch) (g : G) (root : Id)
    : res (DominatorScratch * DominatorTree) :=
  _ ← check_bound (gv_node_bound g);
  _ ← rassert (bool_decide (index root < gv_node_bound g)) "dominator root is not a node of the graph";
  '(construction, idom) ← immediate_dominators g (index root);
  stored ← word (index root);
  '(numbering, numbered) ← number_forest idom [stored] (reached construction);
  let tree := from_numbered idom numbered in
  ok ← satisfies_parent_property tree g;
  _ ← rassert ok "an edge ends at a node whose immediate dominator is not an ancestor of its tail";
  mret (mk_Scratch construction numbering, tree).

(** [DominatorTree::compute_from] *)
Definition compute_from (g : G) (root : Id) : res DominatorTree :=
  snd <$> compute_from_in scratch_new g root.

(** [DominatorTree::compute_in] and [compute] *)
Definition compute_in `{HR : !RootedView G} (scratch : DominatorScratch) (g : G)
    : res (DominatorScratch * DominatorTree) :=
  compute_from_in scratch g (gv_root g).
Definition compute `{HR : !RootedView G} (g : G) : res DominatorTree :=
  snd <$> compute_in scratch_new g.

(** [DominatorTree::compute_with_diff] *)
Definition compute_with_diff `{HR : !RootedView G} (g : G) (previous : DominatorTree)
    : res (DominatorTree * list Id) :=
  next ← compute g;
  changed ← rfold (λ changed i,
    node ← from_index i;
    old ← idom previous node;
    new ← idom next node;
    mret (if decide (old = new) then changed else changed ++ [node])) [] (seq 0 (gv_node_bound g));
  mret (next, changed).
End Compute.
