(* ===== verification/DomSearch.v ===== *)
(** * Intrusive lists and the depth-first pass

    The buckets of the dominator construction and the sibling chains of its
    preorder numbering are singly linked lists threaded through two tables: a
    head per list and a next link per element. The search of
    [graph/dominator/construction.rs] numbers the reached nodes depth first. *)

From S2P Require Import Prelude Ids View Traverse DomTheory Dominator.

Lemma slot_of_nat i : slot (N.of_nat i) = i.
Proof. unfold slot. lia. Qed.

Lemma word_eq i : (N.of_nat i ≤ U32_MAX)%N → word i = Ok (N.of_nat i).
Proof. intros Hi. unfold word. by apply expect_Ok, u32_try_from_Some. Qed.

Lemma small_not_absent i b : (N.of_nat b ≤ U32_MAX)%N → i < b → N.of_nat i ≠ ABSENT.
Proof. unfold ABSENT. lia. Qed.

#[export] Hint Rewrite slot_of_nat : rust.

(** The links of [next] from [start] run through [l]. *)
Fixpoint chained (n : nat) (next : list N) (start : N) (l : list nat) : Prop :=
  match l with
  | [] => start = ABSENT
  | v :: l => start = N.of_nat v ∧ v < n ∧ ∃ after, next !! v = Some after ∧ chained n next after l
  end.

(** Every head leads through its list. *)
Definition buckets (n : nat) (head next : list N) (bk : nat → list nat) : Prop :=
  length head = n ∧ length next = n ∧
  ∀ p, p < n → ∃ start, head !! p = Some start ∧ chained n next start (bk p).

Lemma chained_insert n next start l w b :
  w ∉ l → chained n next start l → chained n (<[w := b]> next) start l.
Proof.
  revert start. induction l as [|v l IH]; intros start Hw; [done|]. intros (-> & Hv & after & Ha & Hc).
  split_and!; [done..|]. exists after. rewrite list_lookup_insert_ne by set_solver. split; [done|].
  apply IH; [set_solver|done].
Qed.

(** Pushing [w] on the list of [c], and dropping the list of [p]. *)
Lemma buckets_push n head next bk w c :
  buckets n head next bk → w < n → c < n → (∀ p, w ∉ bk p) →
  ∃ first, head !! c = Some first ∧
    buckets n (<[c := N.of_nat w]> head) (<[w := first]> next) (λ p, if decide (p = c) then w :: bk c else bk p).
Proof.
  intros (Hh & Hn & Hb) Hw Hc Hout. destruct (Hb c Hc) as (first & Hf & Hch). exists first. split; [done|].
  split_and!; [by rewrite length_insert..|]. intros p Hp. case_decide as Heq.
  - subst p. exists (N.of_nat w). split; [by rewrite list_lookup_insert_eq by lia|].
    split_and!; [done|lia|]. exists first. split; [by rewrite list_lookup_insert_eq by lia|].
    by apply chained_insert.
  - destruct (Hb p Hp) as (start & Hs & Hcp). exists start.
    split; [by rewrite list_lookup_insert_ne by lia|]. by apply chained_insert.
Qed.

Lemma buckets_drain n head next bk p :
  buckets n head next bk → p < n →
  buckets n (<[p := ABSENT]> head) next (λ q, if decide (q = p) then [] else bk q).
Proof.
  intros (Hh & Hn & Hb) Hp. split_and!; [by rewrite length_insert|done|]. intros q Hq. case_decide as Heq.
  - subst q. exists ABSENT. split; [by rewrite list_lookup_insert_eq by lia|done].
  - destruct (Hb q Hq) as (start & Hs & Hc). exists start. by rewrite list_lookup_insert_ne by lia.
Qed.

Lemma buckets_ext n head next bk bk' :
  (∀ p, p < n → bk p = bk' p) → buckets n head next bk → buckets n head next bk'.
Proof. intros Heq (? & ? & Hb). split_and!; [done..|]. intros p Hp. rewrite <-Heq by done. auto. Qed.

Lemma buckets_empty n : buckets n (replicate n ABSENT) (replicate n ABSENT) (λ _, []).
Proof.
  split_and!; [by rewrite length_replicate..|]. intros p Hp. exists ABSENT.
  split; [by apply lookup_replicate_2|done].
Qed.

(** * The depth-first numbering of the dominator construction

    [ConstructionBuffers::search] numbers the nodes its root reaches in
    preorder, and the parents it records make the search tree [DomTheory]
    works on. A node waits on the stack once per edge that found it
    unnumbered; the waiting parents lie on the path to the node numbered last,
    deepest on top. *)


Lemma word_index (x : Id) : (x ≤ U32_MAX)%N → word (index x) = Ok x.
Proof. intros Hx. unfold index. rewrite word_eq; by rewrite N2Nat.id. Qed.

Lemma from_slot (x : Id) : (x ≤ U32_MAX)%N → from_index (slot x) = Ok x.
Proof. intros Hx. apply from_index_Ok. unfold slot. by rewrite N2Nat.id. Qed.

(** The tree depends on the parents up to the node only. *)
Lemma anc_ext par par' x y :
  (∀ i, 0 < i ≤ y → par i < i ∧ par' i = par i) → anc par x y → anc par' x y.
Proof.
  intros Hp. induction 1 as [|y Hy _ IH]; [constructor|]. destruct (Hp y) as [Hlt Heq]; [lia|].
  apply anc_up; [done|]. rewrite Heq. apply IH. intros i Hi. apply Hp. lia.
Qed.

(** The parent of a number, from the table. *)
Definition parf (parent : list N) (i : nat) : nat := slot (parent !!! i).

Lemma parf_at parent i k : parent !! i = Some (N.of_nat k) → parf parent i = k.
Proof. intros Hi. unfold parf. by rewrite (list_lookup_total_correct _ _ _ Hi), slot_of_nat. Qed.

Lemma parf_app parent q i : i < length parent → parf (parent ++ [q]) i = parf parent i.
Proof. intros Hi. unfold parf. by rewrite lookup_total_app_l. Qed.

Section Search.
Context {G : Type} {HG : GraphView G} (g : G) (s : shape) (HV : Views g s).
Context (small : (N.of_nat (sh_bound s) ≤ U32_MAX)%N) (root : Id) (Hroot : root ∈ sh_nodes s).
Notation next := (sh_next s Outgoing).

(** An edge of the graph, by the numbers of its ends. *)
Definition nedge (vertex : list Id) (i j : nat) : Prop :=
  ∃ x y, vertex !! i = Some x ∧ vertex !! j = Some y ∧ y ∈ next x.

(** [number] is the inverse of [vertex]. *)
Record numbering (number : list N) (vertex : list Id) : Prop := {
  nu_length : length number = sh_bound s;
  nu_at : ∀ i x, vertex !! i = Some x → number !! index x = Some (N.of_nat i);
  nu_absent : ∀ x, index x < sh_bound s → x ∉ vertex → number !! index x = Some ABSENT;
  nu_nodup : NoDup vertex;
  nu_nodes : vertex ⊆ sh_nodes s;
}.

Record searching (number : list N) (vertex : list Id) (parent : list N) (pend : list Pending) : Prop := {
  se_number : numbering number vertex;
  se_root : vertex !! 0 = Some root;
  se_length : length parent = length vertex;
  se_par : ∀ i, 0 < i < length vertex →
    ∃ k, parent !! i = Some (N.of_nat k) ∧ k < i ∧ nedge vertex k i;
  se_interval : ∀ x y z, x ≤ y → y ≤ z → z < length vertex → anc (parf parent) x z → anc (parf parent) x y;
  se_done : ∀ i x y, vertex !! i = Some x → y ∈ next x →
    (∃ j, vertex !! j = Some y ∧ (i < j → anc (parf parent) i j)) ∨ (y ∉ vertex ∧ mk_Pending y (N.of_nat i) ∈ pend);
  se_pend : ∀ e, e ∈ pend → ∃ k x, pd_parent e = N.of_nat k ∧ vertex !! k = Some x ∧ pd_node e ∈ next x ∧
    anc (parf parent) k (length vertex - 1);
  se_sorted : StronglySorted (λ a b, (pd_parent b ≤ pd_parent a)%N) pend;
}.

Lemma node_small x : x ∈ sh_nodes s → index x < sh_bound s ∧ (x ≤ U32_MAX)%N.
Proof. intros Hx%(nodes_bound g s HV). unfold index in *. split; [done|lia]. Qed.

Lemma numbered_length number vertex : numbering number vertex → length vertex ≤ sh_bound s.
Proof.
  intros [_ _ _ Hnd Hsub]. apply (NoDup_index_length vertex); [done|]. intros x Hx. apply node_small. auto.
Qed.

Lemma number_fresh number vertex x :
  numbering number vertex → x ∈ sh_nodes s →
  ∃ e, number !! index x = Some e ∧ (e = ABSENT ↔ x ∉ vertex).
Proof.
  intros Hn Hx. destruct (decide (x ∈ vertex)) as [Hin|Hout].
  - pose proof Hin as [i Hi]%list_elem_of_lookup. exists (N.of_nat i). split; [by apply (nu_at _ _ Hn)|].
    apply lookup_lt_Some in Hi as Hlt. pose proof (numbered_length _ _ Hn).
    pose proof (small_not_absent i (sh_bound s) small ltac:(lia)). tauto.
  - exists ABSENT. split; [|tauto]. apply (nu_absent _ _ Hn); [by apply node_small|done].
Qed.

Lemma numbering_snoc number vertex x :
  numbering number vertex → x ∈ sh_nodes s → x ∉ vertex →
  numbering (<[index x := N.of_nat (length vertex)]> number) (vertex ++ [x]).
Proof.
  intros [Hl Hat Habs Hnd Hsub] Hx Hout. destruct (node_small x Hx) as [Hb _]. split.
  - by rewrite length_insert.
  - intros i y [Hi|[Hi Hy]]%lookup_app_Some.
    + rewrite list_lookup_insert_ne; [by apply Hat|]. intros ->%index_inj.
      apply Hout. by eapply list_elem_of_lookup_2.
    + apply list_lookup_singleton_Some in Hy as [Hi0 <-]. rewrite list_lookup_insert_eq by lia.
      do 2 f_equal. lia.
  - intros y Hyb Hy. rewrite list_lookup_insert_ne by (intros ->%index_inj; set_solver).
    apply Habs; set_solver.
  - apply NoDup_app. split_and!; [done|set_solver|apply NoDup_singleton].
  - set_solver.
Qed.

(** The successors of a node just numbered that wait for a number. *)
Definition waiting (vertex : list Id) (count : N) (x : Id) : list Pending :=
  rev ((λ y, mk_Pending y count) <$> filter (λ y, y ∉ vertex) (next x)).

Lemma elem_of_waiting vertex count x e :
  e ∈ waiting vertex count x ↔ ∃ y, y ∈ next x ∧ y ∉ vertex ∧ e = mk_Pending y count.
Proof.
  unfold waiting. rewrite list_elem_of_In, <-in_rev, <-list_elem_of_In, list_elem_of_fmap. setoid_rewrite list_elem_of_filter. naive_solver.
Qed.

Lemma waiting_sorted vertex count x :
  StronglySorted (λ a b, (pd_parent b ≤ pd_parent a)%N) (waiting vertex count x).
Proof.
  assert (Hc : ∀ e, e ∈ waiting vertex count x → pd_parent e = count).
  { intros e (y & _ & _ & ->)%elem_of_waiting. done. }
  revert Hc. induction (waiting vertex count x) as [|e l IH]; intros Hc; constructor; [apply IH; set_solver|].
  apply Forall_forall. intros e' He'. rewrite !Hc; [done|by left|by right].
Qed.

Lemma push_pending_spec number vertex count x pend :
  numbering number vertex → x ∈ sh_nodes s →
  push_pending number count (next x) pend = Ok (waiting vertex count x ++ pend).
Proof.
  intros Hn Hx. unfold push_pending, waiting.
  assert (Hsub : next x ⊆ sh_nodes s) by (intros y; by apply (nodes_next g s HV)).
  revert pend Hsub. generalize (next x) as l. induction l as [|y l IH]; intros pend Hsub; [done|]. cbn [rfold].
  destruct (number_fresh number vertex y Hn) as (e & He & Hiff); [set_solver|].
  rewrite (vget_eq _ _ _ He). rsimpl. case_decide as Hab.
  - destruct (node_small y) as [_ Hy]; [set_solver|]. rewrite word_index by done. rsimpl.
    rewrite IH by set_solver. rewrite filter_cons_True by tauto. cbn. by rewrite <-app_assoc.
  - rsimpl. rewrite IH by set_solver. rewrite filter_cons_False by tauto. done.
Qed.

Lemma nedge_app vertex vertex' i j : nedge vertex i j → nedge (vertex ++ vertex') i j.
Proof. intros (x & y & ? & ? & ?). exists x, y. split_and!; [by apply lookup_app_l_Some..|done]. Qed.

Lemma parf_lt number vertex parent pend i :
  searching number vertex parent pend → 0 < i < length vertex → parf parent i < i.
Proof. intros Hse Hi. destruct (se_par _ _ _ _ Hse i Hi) as (k & Hk & ? & _). by rewrite (parf_at _ _ _ Hk). Qed.

(** The search with one more node numbered, below [k]. *)
Lemma searching_number number vertex parent pend x k m :
  searching number vertex parent (mk_Pending x (N.of_nat k) :: pend) → x ∉ vertex → m = length vertex →
  searching (<[index x := N.of_nat m]> number) (vertex ++ [x]) (parent ++ [N.of_nat k])
    (waiting (vertex ++ [x]) (N.of_nat m) x ++ pend).
Proof.
  intros Hse Hx Hm. pose proof Hse as [Hnu Hrt Hlen Hpar Hint Hdone Hpend Hsort].
  destruct (Hpend (mk_Pending x (N.of_nat k)) ltac:(left)) as (k' & xk & Hk' & Hxk & Hnext & Hanc).
  cbn in Hk', Hnext. apply Nat2N.inj in Hk' as <-.
  assert (Hxs : x ∈ sh_nodes s).
  { apply (nodes_next g s HV Outgoing xk); [|done]. apply (nu_nodes _ _ Hnu). by eapply list_elem_of_lookup_2. }
  pose proof (lookup_lt_Some _ _ _ Hxk) as Hk. rewrite <-Hm in *.
  assert (Hold : ∀ i, i < m → parf (parent ++ [N.of_nat k]) i = parf parent i).
  { intros i Hi. apply parf_app. lia. }
  assert (Hnew : parf (parent ++ [N.of_nat k]) m = k).
  { apply parf_at. rewrite lookup_app_r by lia. replace (m - length parent) with 0 by lia. done. }
  assert (Hup : ∀ i j, j < m → anc (parf parent) i j → anc (parf (parent ++ [N.of_nat k])) i j).
  { intros i j Hj. apply anc_ext. intros l Hl. split; [|apply Hold; lia].
    eapply parf_lt; [exact Hse|]. lia. }
  assert (Hdown : ∀ i j, j < m → anc (parf (parent ++ [N.of_nat k])) i j → anc (parf parent) i j).
  { intros i j Hj. apply anc_ext. intros l Hl. rewrite Hold by lia. split; [|done].
    eapply parf_lt; [exact Hse|]. lia. }
  assert (Hlast : anc (parf (parent ++ [N.of_nat k])) k m) by (apply anc_up; [lia|]; rewrite Hnew; constructor).
  assert (Hthrough : ∀ i, i ≤ k → anc (parf parent) i (m - 1) → anc (parf (parent ++ [N.of_nat k])) i m).
  { intros i Hi Ha. apply anc_up; [lia|]. rewrite Hnew. apply Hup; [lia|]. apply (Hint i k (m - 1)); lia || done. }
  assert (Hsorted : ∀ e i, e ∈ pend → pd_parent e = N.of_nat i → i ≤ k).
  { intros e i He Hi. apply StronglySorted_inv in Hsort as [_ Hall]. rewrite Forall_forall in Hall.
    specialize (Hall e He). cbn in Hall. rewrite Hi in Hall. lia. }
  split.
  - rewrite Hm. by apply numbering_snoc.
  - by apply lookup_app_l_Some.
  - rewrite !length_app. cbn. lia.
  - rewrite length_app. cbn. intros i Hi. destruct (decide (i < m)) as [Hlt|Hge].
    + destruct (Hpar i) as (k0 & Hk0 & ? & ?); [lia|]. exists k0.
      split_and!; [by apply lookup_app_l_Some|done|by apply nedge_app].
    + assert (i = m) as -> by lia. exists k. split_and!; [|lia|].
      * rewrite lookup_app_r by lia. by replace (m - length parent) with 0 by lia.
      * exists xk, x. split_and!; [by apply lookup_app_l_Some| |done].
        rewrite lookup_app_r, Hm by lia. by rewrite Nat.sub_diag.
  - rewrite length_app. cbn. intros a b c Hab Hbc Hc Ha. destruct (decide (c < m)) as [Hlt|Hge].
    + apply Hup; [lia|]. apply (Hint a b c); [done|done|lia|]. by apply Hdown.
    + assert (c = m) as -> by lia. destruct (decide (b = m)) as [->|Hbm]; [done|].
      inversion Ha as [|c' Hpos Ha' Hc']; [lia|]. rewrite Hnew in Ha'. apply Hdown in Ha'; [|lia].
      apply Hup; [lia|]. destruct (decide (b ≤ k)) as [Hbk|Hbk].
      * apply (Hint a b k); [done|done|lia|done].
      * apply (Hint a b (m - 1)); [lia..|lia|].
        clear -Ha' Hanc. induction Hanc; [done|by apply anc_up].
  - intros i u y [Hi|[Hi Hu]]%lookup_app_Some Hy.
    + destruct (Hdone i u y Hi Hy) as [(j & Hj & Hij)|Hin].
      * left. exists j. split; [by apply lookup_app_l_Some|]. intros Hlt. apply Hup; [|auto].
        apply lookup_lt_Some in Hj. lia.
      * destruct Hin as [Hyv Hin]. destruct (decide (y = x)) as [->|Hyx].
        -- left. exists m. split; [rewrite lookup_app_r, Hm by lia; by rewrite Nat.sub_diag|]. intros _.
           destruct (Hpend _ Hin) as (i' & _ & Hi' & _ & _ & Ha). cbn in Hi'. apply Nat2N.inj in Hi' as <-.
           apply Hthrough; [|done]. apply elem_of_cons in Hin as [[= Hik]|Hin]; [lia|].
           by apply Hsorted with (mk_Pending x (N.of_nat i)).
        -- right. split; [set_solver|]. apply elem_of_cons in Hin as [[= ->]|Hin]; [done|]. apply elem_of_app. by right.
    + apply list_lookup_singleton_Some in Hu as [Hi0 <-]. assert (i = m) as -> by (lia).
      destruct (decide (y ∈ vertex ++ [x])) as [[j Hj]%list_elem_of_lookup|Hout].
      * left. exists j. split; [done|]. apply lookup_lt_Some in Hj. rewrite length_app in Hj. cbn in Hj. lia.
      * right. split; [done|]. apply elem_of_app. left. apply elem_of_waiting. eauto.
  - rewrite length_app. cbn. replace (length vertex + 1 - 1) with m by (lia).
    intros e [(y & Hy & _ & ->)%elem_of_waiting|He]%elem_of_app.
    + exists m, x. cbn. split_and!; [done| |done|constructor]. rewrite lookup_app_r, Hm by lia. by rewrite Nat.sub_diag.
    + destruct (Hpend e ltac:(by right)) as (i & u & Hi & Hu & Hn & Ha). exists i, u.
      split_and!; [done|by apply lookup_app_l_Some|done|]. apply Hthrough; [|done]. by apply Hsorted with e.
  - apply StronglySorted_inv in Hsort as [Hsort _].
    apply StronglySorted_app_2; [|apply waiting_sorted|done].
    intros a b (y & _ & _ & ->)%elem_of_waiting Hb. cbn.
    destruct (Hpend b ltac:(by right)) as (i & u & -> & Hu%lookup_lt_Some & _). lia.
Qed.

(** The stack shrinks when its top has been numbered meanwhile. *)
Lemma searching_skip number vertex parent e pend :
  searching number vertex parent (e :: pend) → pd_node e ∈ vertex → searching number vertex parent pend.
Proof.
  intros [Hnu Hrt Hlen Hpar Hint Hdone Hpend Hsort] Hx. split; [done..| | |].
  - intros i u y Hu Hy. destruct (Hdone i u y Hu Hy) as [?|[Hyv [<-|?]%elem_of_cons]]; [by left|done|by right].
  - intros e' He'. apply Hpend. by right.
  - by apply StronglySorted_inv in Hsort as [? _].
Qed.

(** Numbering the root starts the search. *)
Lemma searching_start :
  searching (<[index root := 0%N]> (replicate (sh_bound s) ABSENT)) [root] [ABSENT] (waiting [root] 0%N root).
Proof.
  assert (Hempty : numbering (replicate (sh_bound s) ABSENT) []).
  { split; [apply length_replicate|done| |constructor|set_solver]. intros x Hx _. by apply lookup_replicate_2. }
  split; [|done..| | | | |apply waiting_sorted]; cbn.
  - apply (numbering_snoc _ [] root Hempty Hroot). by intros ?%elem_of_nil.
  - lia.
  - intros x y z Hxy Hyz Hz Ha. assert (y = z) as -> by lia. done.
  - intros i u y [-> <-]%list_lookup_singleton_Some Hy. destruct (decide (y = root)) as [->|Hne].
    + left. exists 0. split; [done|lia].
    + right. split; [set_solver|]. apply elem_of_waiting. exists y. split_and!; [done|set_solver|done].
  - intros e (y & Hy & _ & ->)%elem_of_waiting. exists 0, root. split_and!; [done..|constructor].
Qed.

(** What the search leaves: a depth-first tree of everything the root reaches. *)
Record search_tree (number : list N) (vertex : list Id) (parent : list N) : Prop := {
  st_number : numbering number vertex;
  st_root : vertex !! 0 = Some root;
  st_length : length parent = length vertex;
  st_parent : ∀ i, 0 < i < length vertex → parent !! i = Some (N.of_nat (parf parent i));
  st_dfs : dfs (nedge vertex) (length vertex) (parf parent);
  st_closed : ∀ x y, x ∈ vertex → y ∈ next x → y ∈ vertex;
}.

Lemma searching_end number vertex parent :
  searching number vertex parent [] → search_tree number vertex parent.
Proof.
  intros Hse. pose proof Hse as [Hnu Hrt Hlen Hpar Hint Hdone Hpend Hsort].
  assert (Hfound : ∀ i u y, vertex !! i = Some u → y ∈ next u →
    ∃ j, vertex !! j = Some y ∧ (i < j → anc (parf parent) i j)).
  { intros i u y Hu Hy. destruct (Hdone i u y Hu Hy) as [?|[_ ?%elem_of_nil]]; done. }
  split; [done..| | |].
  - intros i Hi. destruct (Hpar i Hi) as (k & Hk & _). by rewrite (parf_at _ _ _ Hk).
  - split.
    + intros x y (u & v & Hu%lookup_lt_Some & Hv%lookup_lt_Some & _). done.
    + intros i Hi. destruct (Hpar i Hi) as (k & Hk & Hlt & He). by rewrite (parf_at _ _ _ Hk).
    + intros x y (u & v & Hu & Hv & Hn) Hlt. destruct (Hfound x u v Hu Hn) as (j & Hj & Ha).
      assert (j = y) as ->; [|auto]. by apply (NoDup_lookup vertex _ _ v (nu_nodup _ _ Hnu)).
    + done.
  - intros x y [i Hi]%list_elem_of_lookup Hy. destruct (Hfound i x y Hi Hy) as (j & Hj & _).
    by eapply list_elem_of_lookup_2.
Qed.

Abbreviation left_over := (pending (λ n, length (next n)) (sh_nodes s)).

Lemma length_waiting vertex count x : length (waiting vertex count x) ≤ length (next x).
Proof. unfold waiting. rewrite length_rev, length_fmap. apply length_filter. Qed.

Lemma search_loop_spec fuel number vertex parent pend :
  searching number vertex parent pend → length pend + left_over (list_to_set vertex) < fuel →
  ∃ number' vertex' parent', search_loop fuel g number vertex parent pend = Ok (number', vertex', parent') ∧
    search_tree number' vertex' parent'.
Proof.
  revert number vertex parent pend. induction fuel as [|fuel IH]; intros number vertex parent pend Hse Hf; [lia|].
  cbn [search_loop]. destruct pend as [|[x q] pend].
  { exists number, vertex, parent. split; [done|by apply searching_end]. }
  pose proof (se_number _ _ _ _ Hse) as Hnu.
  destruct (se_pend _ _ _ _ Hse (mk_Pending x q) ltac:(left)) as (k & xk & Hk & Hxk & Hnext & _). cbn in Hk, Hnext. subst q.
  assert (Hxs : x ∈ sh_nodes s).
  { apply (nodes_next g s HV Outgoing xk); [|done]. apply (nu_nodes _ _ Hnu). by eapply list_elem_of_lookup_2. }
  destruct (node_small x Hxs) as [Hxb Hxu]. destruct (number_fresh _ _ x Hnu Hxs) as (e & He & Hiff).
  change (slot x) with (index x). rewrite (vget_eq _ _ _ He). rsimpl. case_decide as Hab.
  - assert (Hx : x ∉ vertex) by tauto. pose proof (numbered_length _ _ Hnu).
    assert (length vertex < sh_bound s).
    { pose proof (numbered_length _ _ (numbering_snoc _ _ _ Hnu Hxs Hx)) as Hl. rewrite length_app in Hl. cbn in Hl. lia. }
    rewrite word_eq by lia. rsimpl. rewrite vset_lt by (rewrite (nu_length _ _ Hnu); done). rsimpl.
    change (from_index (index x)) with (from_index (slot x)). rewrite from_slot by done. rsimpl.
    change (gv_successors g x) with (neighbors Outgoing g x). rewrite (vw_next (g := g) Outgoing x) by done. rsimpl.
    pose proof (searching_number _ _ _ _ _ _ _ Hse Hx eq_refl) as Hse'.
    rewrite (push_pending_spec _ (vertex ++ [x]) _ x _ (se_number _ _ _ _ Hse') Hxs). rsimpl.
    apply IH; [done|]. rewrite length_app. pose proof (length_waiting (vertex ++ [x]) (N.of_nat (length vertex)) x).
    rewrite (pending_visit _ _ _ x (nodes_nodup g s HV) Hxs) in Hf by set_solver.
    replace (list_to_set (vertex ++ [x])) with ({[x]} ∪ list_to_set vertex : gset Id) by set_solver. cbn in Hf. lia.
  - apply IH; [apply (searching_skip _ _ _ _ _ Hse); cbn; destruct (decide (x ∈ vertex)); tauto|]. cbn in Hf. lia.
Qed.

Lemma search_spec :
  ∃ number vertex parent, search g (index root) = Ok (number, vertex, parent) ∧ search_tree number vertex parent.
Proof.
  destruct (node_small root Hroot) as [Hb Hu]. unfold search. rewrite word_index by done. rsimpl.
  rewrite (vw_bound (g := g) (s := s)), (adjacency_total_eq g s HV).
  cbn [Nat.add]. remember (S (sum_list_with _ _)) as fuel eqn:Hfuel. cbn [search_loop].
  change (slot root) with (index root). rewrite (vget_eq _ _ ABSENT) by by apply lookup_replicate_2. rsimpl.
  rewrite decide_True by done. rewrite word_eq by (cbn; lia). rsimpl. cbn [length N.of_nat app].
  rewrite vset_lt by by rewrite length_replicate. rsimpl.
  change (from_index (index root)) with (from_index (slot root)). rewrite from_slot by done. rsimpl.
  change (gv_successors g root) with (neighbors Outgoing g root). rewrite (vw_next (g := g) Outgoing root) by done. rsimpl.
  pose proof searching_start as Hse.
  rewrite (push_pending_spec _ [root] _ root _ (se_number _ _ _ _ Hse) Hroot). rsimpl. rewrite app_nil_r.
  apply search_loop_spec; [done|]. pose proof (length_waiting [root] 0%N root).
  pose proof (pending_visit (λ n, length (next n)) _ ∅ root (nodes_nodup g s HV) Hroot ltac:(set_solver)) as Hv.
  rewrite pending_empty in Hv. replace (list_to_set [root] : gset Id) with ({[root]} ∪ ∅ : gset Id) by set_solver.
  change (N.of_nat 0) with 0%N. lia.
Qed.
End Search.
