(* ===== verification/DomLink.v ===== *)
(** * The link-eval forest

    [evaluate] and [compress] of [graph/dominator/construction.rs]: after the
    numbers from [k] up have been linked below their search parents, a
    compressed pointer leads to an ancestor and the label beside it is a node
    of least semidominator strictly below that ancestor. *)

From S2P Require Import Prelude Ids View Dominator DomSearch DomTheory.

Section Link.
Context {edge : nat → nat → Prop} {n : nat} {par : nat → nat} (T : dfs edge n par).
Context (small : (N.of_nat n ≤ U32_MAX)%N).
Notation anc := (anc par).

(** A table of numbers, by the function it stores. *)
Definition stores (tbl : list N) (f : nat → nat) : Prop :=
  length tbl = n ∧ ∀ i, i < n → tbl !! i = Some (N.of_nat (f i)).

(** [l] is a node of least [sem] on the tree path strictly below [a] down to [i]. *)
Definition least_below (sem : nat → nat) (a i l : nat) : Prop :=
  a < l ∧ anc l i ∧ ∀ c, a < c → anc c i → sem l ≤ sem c.

Record linked_at (k : nat) (sem : nat → nat) (label ancestor : list N) (i a l : nat) : Prop := {
  la_ancestor : ancestor !! i = Some (N.of_nat a);
  la_label : label !! i = Some (N.of_nat l);
  la_above : a < i ∧ anc a i;
  la_linked : ∀ c, a < c → anc c i → k ≤ c;
  la_least : least_below sem a i l;
}.

Record links (k : nat) (sem : nat → nat) (label ancestor : list N) : Prop := {
  lk_lengths : length label = n ∧ length ancestor = n;
  lk_free : ∀ i, i < k → i < n → ancestor !! i = Some ABSENT ∧ label !! i = Some (N.of_nat i);
  lk_linked : ∀ i, k ≤ i → i < n → ∃ a l, linked_at k sem label ancestor i a l;
}.

Lemma number_present i : i < n → N.of_nat i ≠ ABSENT.
Proof using small. intros Hi. by apply (small_not_absent i n). Qed.

(** What [evaluate] answers at [v]. *)
Definition evaluates (k : nat) (sem : nat → nat) (v u : nat) : Prop :=
  (v < k ∧ u = v) ∨ (k ≤ v ∧ k ≤ u ∧ anc u v ∧ ∀ c, k ≤ c → anc c v → sem u ≤ sem c).

(** The pointer of [z] leads to a node that is not linked. *)
Definition ready (k : nat) (ancestor : list N) (z : nat) : Prop :=
  k ≤ z < n ∧ ∃ a, ancestor !! z = Some (N.of_nat a) ∧ a < k.

(** The path of [compress]: each node's pointer leads to the one before it. *)
Fixpoint climbs (k : nat) (ancestor : list N) (z : nat) (path : list N) : Prop :=
  match path with
  | [] => True
  | x :: path => ∃ i, x = N.of_nat i ∧ k ≤ i < n ∧ z < i ∧ ancestor !! i = Some (N.of_nat z) ∧ climbs k ancestor i path
  end.

Lemma climbs_insert k ancestor z x b path :
  x ≤ z → climbs k ancestor z path → climbs k (<[x := b]> ancestor) z path.
Proof.
  revert z. induction path as [|p path IH]; intros z Hx; [done|]. intros (i & -> & Hi & Hz & Ha & Hc).
  exists i. split_and!; [done..|lia|lia|lia| |apply IH; [lia|done]].
  rewrite list_lookup_insert_ne; [done|lia].
Qed.

(** One step of the flattening: the node takes its ancestor's pointer and the
    better of the two labels. *)
Lemma links_flatten k sem label ancestor x z a lx lz :
  links k sem label ancestor → x < n → k ≤ x → z < n → k ≤ z →
  linked_at k sem label ancestor x z lx → linked_at k sem label ancestor z a lz →
  let l := if decide (sem lz < sem lx) then lz else lx in
  links k sem (<[x := N.of_nat l]> label) (<[x := N.of_nat a]> ancestor).
Proof.
  intros [[Hl1 Hl2] Hfree Hlk] Hx Hkx Hz Hkz [Hax Hlx [Hzx Hancz] Hcx (Hlx1 & Hlx2 & Hlx3)]
    [Haz Hlz [Hazl Hanca] Hcz (Hlz1 & Hlz2 & Hlz3)] l. split.
  - by rewrite !length_insert.
  - intros i Hi Hin. rewrite !list_lookup_insert_ne by lia. by apply Hfree.
  - intros i Hi Hin. destruct (decide (i = x)) as [->|Hne].
    2:{ destruct (Hlk i Hi Hin) as (b & m & [? ? ? ? ?]). exists b, m.
        split; [by rewrite list_lookup_insert_ne..|done|done|done]. }
    exists a, l.
    assert (Hsplit : ∀ c, a < c → anc c x → (z < c) ∨ anc c z).
    { intros c _ Hc. destruct (decide (z < c)) as [|Hle]; [by left|right]. apply (anc_chain T c z x); [done..|lia]. }
    split.
    + by rewrite list_lookup_insert_eq by lia.
    + by rewrite list_lookup_insert_eq by lia.
    + split; [lia|]. by apply anc_trans with z.
    + intros c Hac Hc. destruct (Hsplit c Hac Hc); auto.
    + assert (a < l ∧ anc l x ∧ sem l ≤ sem lx ∧ sem l ≤ sem lz) as (? & ? & ? & ?).
      { subst l. case_decide; split_and!; [lia|by apply anc_trans with z|lia|lia|lia|done|lia|lia]. }
      split_and!; [done..|]. intros c Hac Hc. destruct (Hsplit c Hac Hc) as [Hzc|Hcz'].
      * specialize (Hlx3 c Hzc Hc). lia.
      * specialize (Hlz3 c Hac Hcz'). lia.
Qed.

Lemma compress_down_spec semi k sem label ancestor z path :
  stores semi sem → links k sem label ancestor → ready k ancestor z → climbs k ancestor z path →
  ∃ label' ancestor', compress_down semi label ancestor path = Ok (label', ancestor') ∧
    links k sem label' ancestor' ∧ ready k ancestor' (default z (slot <$> last path)).
Proof.
  intros [Hsl Hsem]. revert z label ancestor.
  induction path as [|x path IH]; intros z label ancestor Hlk Hz Hc.
  { exists label, ancestor. done. }
  destruct Hc as (i & -> & Hi & Hzi & Hanc & Hc). cbn [compress_down]. rewrite slot_of_nat.
  destruct Hz as (Hzn & a & Ha & Hak).
  destruct (lk_linked _ _ _ _ Hlk i) as (z' & li & Hati); [lia..|].
  destruct (lk_linked _ _ _ _ Hlk z) as (a' & lz & Hatz); [lia..|].
  pose proof (la_ancestor _ _ _ _ _ _ _ Hati) as Hz'. pose proof (la_ancestor _ _ _ _ _ _ _ Hatz) as Ha'.
  assert (z' = z) as -> by (rewrite Hanc in Hz'; injection Hz' as ?%Nat2N.inj; done).
  assert (a' = a) as -> by (rewrite Ha in Ha'; injection Ha' as ?%Nat2N.inj; done).
  pose proof (la_least _ _ _ _ _ _ _ Hati) as (_ & Hli%(anc_le T) & _); [|lia].
  pose proof (la_least _ _ _ _ _ _ _ Hatz) as (_ & Hlz%(anc_le T) & _); [|lia].
  destruct (lk_lengths _ _ _ _ Hlk) as [Hll Hla].
  rewrite (vget_eq _ _ _ Hanc). rsimpl. rewrite slot_of_nat.
  rewrite (vget_eq _ _ _ (la_label _ _ _ _ _ _ _ Hatz)). rsimpl.
  rewrite (vget_eq _ _ _ (la_label _ _ _ _ _ _ _ Hati)). rsimpl. rewrite !slot_of_nat.
  rewrite (vget_eq _ _ _ (Hsem lz ltac:(lia))). rsimpl.
  rewrite (vget_eq _ _ _ (Hsem li ltac:(lia))). rsimpl.
  pose proof (links_flatten k sem label ancestor i z a li lz Hlk ltac:(lia) ltac:(lia) ltac:(lia) ltac:(lia) Hati Hatz) as Hlk'.
  cbn zeta in Hlk'.
  set (l := if decide (sem lz < sem li) then lz else li) in *.
  assert ((if decide (N.of_nat (sem lz) < N.of_nat (sem li))%N then vset label i (N.of_nat lz) else mret label)
    = Ok (<[i := N.of_nat l]> label)) as ->.
  { subst l. repeat case_decide; try lia.
    - by rewrite vset_lt by lia.
    - rewrite list_insert_id; [done|]. apply (la_label _ _ _ _ _ _ _ Hati). }
  rsimpl. rewrite (vget_eq _ _ _ Ha). rsimpl. rewrite vset_lt by lia. rsimpl.
  destruct (IH i _ _ Hlk') as (label' & ancestor' & -> & ? & Hr).
  - split; [lia|]. exists a. split; [|done]. by rewrite list_lookup_insert_eq by lia.
  - by apply climbs_insert.
  - exists label', ancestor'. split_and!; [done..|]. rewrite last_cons.
    destruct (last path); [done|]. cbn in *. by rewrite slot_of_nat.
Qed.

Lemma compress_up_spec fuel k sem label ancestor i path start :
  links k sem label ancestor → 0 < k → k ≤ i < n → climbs k ancestor i path →
  default i (slot <$> last path) = start → i < fuel →
  ∃ z path', compress_up fuel ancestor (N.of_nat i) path = Ok path' ∧
    ready k ancestor z ∧ climbs k ancestor z path' ∧ default z (slot <$> last path') = start.
Proof.
  intros Hlk Hk. revert i path. induction fuel as [|fuel IH]; intros i path Hi Hc Hs Hf; [lia|].
  cbn [compress_up]. rewrite slot_of_nat. destruct (lk_linked _ _ _ _ Hlk i) as (a & l & Hat); [lia..|].
  pose proof (la_above _ _ _ _ _ _ _ Hat) as [Hai _]. pose proof (la_ancestor _ _ _ _ _ _ _ Hat) as Ha.
  rewrite (vget_eq _ _ _ Ha). rsimpl. rewrite slot_of_nat. destruct (decide (a < k)) as [Hak|Hak].
  - destruct (lk_free _ _ _ _ Hlk a Hak ltac:(lia)) as [Hab _]. rewrite (vget_eq _ _ _ Hab). rsimpl.
    rewrite decide_True by done. exists i, path. split_and!; [done| |done..]. split; [done|]. eauto.
  - destruct (lk_linked _ _ _ _ Hlk a) as (b & m & Hat'); [lia..|].
    pose proof (la_above _ _ _ _ _ _ _ Hat') as [Hba _].
    rewrite (vget_eq _ _ _ (la_ancestor _ _ _ _ _ _ _ Hat')). rsimpl.
    rewrite decide_False by (apply number_present; lia). apply IH; [lia| | |lia].
    + exists i. split_and!; [done|lia|lia|lia|done|done].
    + rewrite last_cons. destruct (last path); [done|]. cbn in *. by rewrite slot_of_nat.
Qed.

(** [evaluate] answers with a node of least [sem] among the linked nodes above
    [v], or with [v] when it is not linked. *)
Lemma evaluate_spec semi k sem label ancestor v :
  stores semi sem → links k sem label ancestor → 0 < k → v < n →
  ∃ label' ancestor' u, evaluate semi label ancestor (N.of_nat v) = Ok (label', ancestor', N.of_nat u) ∧
    links k sem label' ancestor' ∧ evaluates k sem v u.
Proof.
  intros Hsem Hlk Hk Hv. unfold evaluate. rewrite slot_of_nat. destruct (decide (v < k)) as [Hvk|Hvk].
  { destruct (lk_free _ _ _ _ Hlk v Hvk Hv) as [Ha _]. rewrite (vget_eq _ _ _ Ha). rsimpl.
    rewrite decide_True by done. exists label, ancestor, v. split_and!; [done..|by left]. }
  destruct (lk_linked _ _ _ _ Hlk v) as (a & l & Hat); [lia..|].
  pose proof (la_above _ _ _ _ _ _ _ Hat) as [Hav _].
  rewrite (vget_eq _ _ _ (la_ancestor _ _ _ _ _ _ _ Hat)). rsimpl.
  rewrite decide_False by (apply number_present; lia). unfold compress.
  destruct (compress_up_spec (S (length ancestor)) k sem label ancestor v [] v) as (z & path & -> & Hz & Hc & Hs);
    [done..|lia|done|done|rewrite (proj2 (lk_lengths _ _ _ _ Hlk)); lia|].
  rsimpl. destruct (compress_down_spec semi k sem label ancestor z path Hsem Hlk Hz Hc)
    as (label' & ancestor' & -> & Hlk' & Hr). rsimpl. rewrite Hs in Hr. destruct Hr as (_ & a' & Ha' & Hak').
  destruct (lk_linked _ _ _ _ Hlk' v) as (a'' & u & Hat'); [lia..|].
  pose proof (la_ancestor _ _ _ _ _ _ _ Hat') as Ha''.
  assert (a'' = a') as -> by (rewrite Ha' in Ha''; injection Ha'' as ?%Nat2N.inj; done).
  rewrite (vget_eq _ _ _ (la_label _ _ _ _ _ _ _ Hat')). rsimpl. exists label', ancestor', u.
  split_and!; [done..|]. right. destruct (la_least _ _ _ _ _ _ _ Hat') as (Hau & Hu & Hmin).
  split_and!; [lia|by apply (la_linked _ _ _ _ _ _ _ Hat')|done|]. intros c Hkc Hc'. apply Hmin; [lia|done].
Qed.

(** Linking [w], whose semidominator has just been stored. *)
Lemma links_link sem sem' label ancestor w :
  links (S w) sem label ancestor → 0 < w < n → (∀ i, w < i → i < n → sem' i = sem i) →
  links w sem' label (<[w := N.of_nat (par w)]> ancestor).
Proof.
  intros [[Hl1 Hl2] Hfree Hlk] Hw Hsem. destruct (df_par _ _ _ T w Hw) as [Hp _]. split.
  - by rewrite length_insert.
  - intros i Hi Hin. rewrite list_lookup_insert_ne by lia. apply Hfree; lia.
  - intros i Hi Hin. destruct (decide (i = w)) as [->|Hne].
    + exists (par w), w. split.
      * by rewrite list_lookup_insert_eq by lia.
      * apply Hfree; lia.
      * split; [lia|]. apply anc_up; [lia|constructor].
      * intros c Hc [->|[_ Ha]]%anc_par; [lia|]. apply (anc_le T) in Ha; lia.
      * split_and!; [lia|constructor|]. intros c Hc [->|[_ Ha]]%anc_par; [lia|].
        apply (anc_le T) in Ha; lia.
    + destruct (Hlk i) as (a & l & [? ? Hab Hcl (Hl & Hli & Hmin)]); [lia..|]. exists a, l.
      pose proof (anc_le T _ _ Hin Hli). pose proof (Hcl l Hl Hli). split.
      * by rewrite list_lookup_insert_ne by lia.
      * done.
      * done.
      * intros c Hc Ha. specialize (Hcl c Hc Ha). lia.
      * split_and!; [done..|]. intros c Hc Ha. pose proof (Hcl c Hc Ha). pose proof (anc_le T _ _ Hin Ha).
        rewrite !Hsem by lia. by apply Hmin.
Qed.
End Link.
