(* ===== verification/DomIdom.v ===== *)
(** * The Lengauer-Tarjan passes

    [process] and [immediate_dominators] of
    [graph/dominator/construction.rs]. Numbers are processed from the largest
    down; [processed k] is the state once every number from [k] up has its
    semidominator. A processed number waits in the bucket of its semidominator
    until the path between them is linked, and then has its relative
    dominator, which the last pass turns into the immediate one. *)

From S2P Require Import Prelude Ids View Traverse Bfs DomTheory Dominator DomSearch DomLink.

Section Process.
Context {G : Type} {HG : GraphView G} (g : G) (s : shape) (HV : Views g s).
Context (small : (N.of_nat (sh_bound s) ≤ U32_MAX)%N) (root : Id).
Context (number : list N) (vertex : list Id) (parent : list N).
Context (HT : search_tree s root number vertex parent).

Notation n := (length vertex).
Notation par := (parf parent).
Notation anc := (anc (parf parent)).
Notation edge := (nedge s vertex).
Notation is_semi := (is_semi (edge := nedge s vertex)).
Notation is_idom := (is_idom (edge := nedge s vertex)).
Notation stores := (stores (n := length vertex)).
Notation links := (links (n := length vertex) (par := parf parent)).

Local Definition tree : dfs edge n par := st_dfs _ _ _ _ _ HT.

Lemma count_small : (N.of_nat n ≤ U32_MAX)%N.
Proof using HV HT small.
  pose proof (numbered_length g s HV small _ _ (st_number _ _ _ _ _ HT)). lia.
Qed.

Lemma count_pos : 0 < n.
Proof using HT. exact (lookup_lt_Some _ _ _ (st_root _ _ _ _ _ HT)). Qed.

(** ** The semidominator of one node *)

(** What the loop over the predecessors has found. *)
Record least_found (w : nat) (sem : nat → nat) (seen : list Id) (c : nat) : Prop := {
  lf_le : c ≤ w;
  lf_from : c = w ∨ semi_candidate (edge := edge) (par := par) sem w c;
  lf_least : ∀ v y, y ∈ seen → vertex !! v = Some y →
    (v < w → c ≤ v) ∧ ∀ u, w < u → anc u v → c ≤ sem u;
}.

Lemma least_semi_spec semi sem label ancestor w x :
  stores semi sem → links (S w) sem label ancestor → 0 < w < n → vertex !! w = Some x →
  (∀ i, i ≤ w → sem i = i) → (∀ u, w < u < n → is_semi (sem u) u) →
  ∃ label' ancestor' c,
    least_semi number semi (sh_next s Incoming x) label ancestor (N.of_nat w) = Ok (label', ancestor', N.of_nat c) ∧
    links (S w) sem label' ancestor' ∧ is_semi c w.
Proof using HV HT small.
  intros Hsem Hlk Hw Hx Hlow Hsemis. pose proof (st_number _ _ _ _ _ HT) as Hnu.
  assert (Hxs : x ∈ sh_nodes s) by (apply (nu_nodes _ _ _ Hnu); by eapply list_elem_of_lookup_2).
  assert (Hpred : ∀ v y, vertex !! v = Some y → y ∈ sh_next s Incoming x ↔ edge v w).
  { intros v y Hv. assert (y ∈ sh_nodes s) by (apply (nu_nodes _ _ _ Hnu); by eapply list_elem_of_lookup_2).
    rewrite (mirror_elem s Incoming x y) by (try apply HV; done). cbn. split.
    - intros Hn. by exists y, x.
    - intros (y' & x' & Hy' & Hx' & Hn). by simplify_eq. }
  unfold least_semi.
  destruct (rfold_inv (λ seen st, ∃ label' ancestor' c, st = (label', ancestor', N.of_nat c) ∧
      links (S w) sem label' ancestor' ∧ least_found w sem seen c)
    (λ '(label, ancestor, least_so_far) predecessor, entry ← vget number (index predecessor);
      if decide (entry = ABSENT) then mret (label, ancestor, least_so_far)
      else '(label, ancestor, least) ← evaluate semi label ancestor entry;
        value ← vget semi (slot least); mret (label, ancestor, N.min least_so_far value))
    (label, ancestor, N.of_nat w) (sh_next s Incoming x)) as (st & Hrun & label' & ancestor' & c & -> & Hlk' & Hc).
  - exists label, ancestor, w. split_and!; [done..|]. split; [lia|by left|]. by intros v y ?%elem_of_nil.
  - intros seen y st Hpre (la & an & c & -> & Hlk' & [Hle Hfrom Hleast]).
    assert (Hy : y ∈ sh_next s Incoming x) by (destruct Hpre as [l ->]; set_solver).
    assert (Hys : y ∈ sh_nodes s) by (apply (nodes_next g s HV Incoming x); done).
    destruct (number_fresh g s HV small _ _ y Hnu Hys) as (e & He & Hiff).
    rewrite (vget_eq _ _ _ He). rsimpl. case_decide as Hab.
    + eexists. split; [done|]. exists la, an, c. split_and!; [done..|]. split; [done..|].
      intros v z [Hz|Hz%list_elem_of_singleton]%elem_of_app Hv; [by apply (Hleast v z)|]. subst z.
      exfalso. apply Hiff in Hab. apply Hab. by eapply list_elem_of_lookup_2.
    + assert (y ∈ vertex) as [v Hv]%list_elem_of_lookup by (destruct (decide (y ∈ vertex)); tauto).
      assert (e = N.of_nat v) as ->.
      { pose proof (nu_at _ _ _ Hnu v y Hv). congruence. }
      pose proof (lookup_lt_Some _ _ _ Hv) as Hvn. apply (Hpred v y Hv) in Hy.
      destruct (evaluate_spec tree count_small semi (S w) sem la an v Hsem Hlk' ltac:(lia) Hvn)
        as (la' & an' & u & -> & Hlk'' & Hu). rsimpl. rewrite slot_of_nat.
      assert (Hun : u < n).
      { destruct Hu as [[_ ->]|(_ & _ & Ha & _)]; [done|]. apply (anc_le tree) in Ha; [lia|done]. }
      rewrite (vget_eq _ _ _ (proj2 Hsem u Hun)). rsimpl. eexists. split; [done|].
      exists la', an', (c `min` sem u). rewrite Nat2N.inj_min. split_and!; [done..|].
      assert (Hstep : (sem u = w ∨ semi_candidate (edge := edge) (par := par) sem w (sem u)) ∧
        (v < w → sem u ≤ v) ∧ ∀ u', w < u' → anc u' v → sem u ≤ sem u').
      { destruct Hu as [[Hvw ->]|(Hvw & Huw & Ha & Hmin)].
        - rewrite (Hlow v) by lia. split_and!; [|lia|].
          + destruct (decide (v = w)) as [->|]; [by left|right]. exists v. split; [done|]. left. lia.
          + intros u' Hu' Ha%(anc_le tree); lia.
        - split_and!; [|lia|intros; apply Hmin; lia || done].
          right. exists v. split; [done|]. right. exists u. split_and!; [lia|done..]. }
      destruct Hstep as (Hf & Hv1 & Hv2). split; [lia| |].
      * destruct (Nat.min_spec c (sem u)) as [[_ ->]|[_ ->]]; done.
      * intros v' z [Hz|Hz%list_elem_of_singleton]%elem_of_app Hv'.
        -- destruct (Hleast v' z Hz Hv') as [H1 H2]. split; [lia|]. intros u' Hu' Ha. specialize (H2 u' Hu' Ha). lia.
        -- subst z. assert (v' = v) as -> by by apply (NoDup_lookup vertex _ _ y (nu_nodup _ _ _ Hnu)).
           split; [lia|]. intros u' Hu' Ha. specialize (Hv2 u' Hu' Ha). lia.
  - exists label', ancestor', c. split_and!; [done..|]. destruct Hc as [Hle Hfrom Hleast].
    assert (Hmin : ∀ c', semi_candidate (edge := edge) (par := par) sem w c' → c ≤ c').
    { intros c' (v & He & Hc'). pose proof He as (y & _ & Hv & _ & _).
      destruct (Hleast v y) as [H1 H2]; [by apply (Hpred v y Hv)|done|].
      destruct Hc' as [[-> ?]|(u & ? & ? & ->)]; auto. }
    apply (least_candidate_is_semi tree sem w Hw Hsemis); [|done].
    destruct Hfrom as [->|]; [|done]. exfalso. destruct (df_par _ _ _ tree w Hw) as [Hp He].
    specialize (Hmin (par w)). ospecialize (Hmin _); [|lia]. exists (par w). split; [done|]. by left.
Qed.

(** ** Buckets *)

(** The relative dominator of [v]: its semidominator, when no node between has
    a smaller one, and otherwise a node of least semidominator. The path
    between is linked. *)
Definition relative (k : nat) (sem : nat → nat) (v u : nat) : Prop :=
  (∀ c, sem v < c → anc c v → k ≤ c) ∧
  ((u = sem v ∧ ∀ c, sem v < c → anc c v → sem v ≤ sem c) ∨
   (sem v < u < v ∧ anc u v ∧ ∀ c, sem v < c → anc c v → sem u ≤ sem c)).

Definition settled (k : nat) (sem : nat → nat) (dominator : list N) (v : nat) : Prop :=
  ∃ u, dominator !! v = Some (N.of_nat u) ∧ relative k sem v u.

(** Once [w] is linked, the nodes from [w] up on the path to a larger node are
    those below the parent of [w]. *)
Lemma below_parent w v c : 0 < w < n → w ≤ v < n → anc c v → par w < c ↔ w ≤ c.
Proof using HV HT small.
  intros Hw Hv Hc. destruct (df_par _ _ _ tree w Hw) as [Hp _]. split; [|lia]. intros Hpc.
  destruct (decide (w ≤ c)) as [|Hcw]; [done|]. exfalso.
  pose proof (df_interval _ _ _ tree c w v ltac:(lia) ltac:(lia) ltac:(lia) Hc) as Ha.
  apply anc_strict in Ha; [|lia]. apply (anc_le tree) in Ha; lia.
Qed.

(** Draining the bucket of the parent of [w] settles the nodes in it. *)
Lemma settle_bucket_spec fuel w semi sem next label ancestor dominator waiting l :
  0 < w < n → stores semi sem → links w sem label ancestor → length dominator = n →
  chained n next waiting l → (∀ v, v ∈ l → w ≤ v < n ∧ sem v = par w) → length l < fuel →
  ∃ label' ancestor' dominator',
    settle_bucket fuel (N.of_nat (par w)) semi next label ancestor dominator waiting = Ok (label', ancestor', dominator') ∧
    links w sem label' ancestor' ∧ length dominator' = n ∧
    (∀ v, v ∈ l → settled w sem dominator' v) ∧ ∀ v, v ∉ l → dominator' !! v = dominator !! v.
Proof using HV HT small.
  intros Hw Hsem. revert waiting label ancestor dominator fuel.
  induction l as [|v l IH]; intros waiting label ancestor dominator fuel Hlk Hlen Hc Hl Hf;
    (destruct fuel as [|fuel]; [cbn in Hf; lia|]); cbn [settle_bucket].
  { cbn in Hc. subst waiting. rewrite decide_True by done. exists label, ancestor, dominator.
    split_and!; [done..|by intros v ?%elem_of_nil|done]. }
  destruct Hc as (-> & Hv & after & Ha & Hc). destruct (Hl v ltac:(left)) as [Hwv Hsv].
  rewrite decide_False by by apply (small_not_absent v n count_small).
  destruct (evaluate_spec tree count_small semi w sem label ancestor v Hsem Hlk ltac:(lia) Hv)
    as (label1 & ancestor1 & u & -> & Hlk1 & Hu). rsimpl. rewrite !slot_of_nat.
  destruct Hu as [[? _]|(_ & Hwu & Huv & Hmin)]; [lia|]. pose proof (anc_le tree _ _ Hv Huv) as Hle.
  rewrite (vget_eq _ _ _ (proj2 Hsem u ltac:(lia))). rsimpl.
  rewrite (vget_eq _ _ _ (proj2 Hsem v Hv)). rsimpl. rewrite vset_lt by lia. rsimpl.
  rewrite (vget_eq _ _ _ Ha). rsimpl.
  set (d := if decide (N.of_nat (sem u) < N.of_nat (sem v))%N then N.of_nat u else N.of_nat (par w)).
  destruct (IH after label1 ancestor1 (<[v := d]> dominator) fuel Hlk1) as (label2 & ancestor2 & dominator2 & -> & ? & ? & Hs & Hk);
    [by rewrite length_insert|done|set_solver|cbn in Hf; lia|].
  exists label2, ancestor2, dominator2. split_and!; [done..| |].
  - intros v' Hv'. destruct (decide (v' ∈ l)) as [|Hnl]; [auto|]. apply elem_of_cons in Hv' as [->|]; [|done].
    assert (Hrange : ∀ c, sem v < c → anc c v → w ≤ c).
    { intros c Hcp Hca. rewrite Hsv in Hcp. by apply (below_parent w v c). }
    exists (if decide (sem u < sem v) then u else par w). split.
    + rewrite Hk by done. rewrite list_lookup_insert_eq by lia. subst d. repeat case_decide; lia || done.
    + split; [done|]. case_decide as Hlt.
      * right. rewrite Hsv in *. pose proof (df_par _ _ _ tree w Hw) as [Hpw _].
        assert (u ≠ v) by (intros ->; lia). split_and!; [lia|lia|done|]. intros c Hcp Hca. apply Hmin; [auto|done].
      * left. split; [done|]. intros c Hcp Hca. specialize (Hmin c (Hrange c Hcp Hca) Hca). lia.
  - intros v' Hv'. rewrite Hk by set_solver. rewrite list_lookup_insert_ne by set_solver. done.
Qed.

(** ** The pass *)

Record processed (k : nat) (b : ConstructionBuffers) (sem : nat → nat) (bk : nat → list nat) : Prop := {
  pr_number : cb_number b = number;
  pr_vertex : cb_vertex b = vertex;
  pr_parent : cb_parent b = parent;
  pr_semi : stores (cb_semi b) sem;
  pr_low : ∀ i, i < k → sem i = i;
  pr_high : ∀ i, k ≤ i < n → is_semi (sem i) i;
  pr_links : links k sem (cb_label b) (cb_ancestor b);
  pr_buckets : buckets n (cb_bucket_head b) (cb_bucket_next b) bk;
  pr_waiting : ∀ p v, v ∈ bk p → k ≤ v < n ∧ sem v = p ∧ p + 1 < k;
  pr_nodup : ∀ p, NoDup (bk p);
  pr_dominator : length (cb_dominator b) = n;
  pr_settled : ∀ v, k ≤ v < n → v ∈ bk (sem v) ∨ settled k sem (cb_dominator b) v;
  pr_initial : ∀ v, 0 < v < k → v < n → cb_dominator b !! v = Some (N.of_nat (par v));
}.

Lemma relative_mono k k' sem v u : k' ≤ k → relative k sem v u → relative k' sem v u.
Proof using. clear. intros Hk [Hr H]. split; [|done]. intros c Hc Ha. specialize (Hr c Hc Ha). lia. Qed.

(** A change of [sem] below the linked numbers leaves the relative dominators. *)
Lemma relative_ext k sem sem' v u :
  k ≤ v < n → (∀ i, k ≤ i → i < n → sem' i = sem i) → relative k sem v u → relative k sem' v u.
Proof using HV HT small.
  intros Hv Heq [Hr H]. unfold relative. rewrite (Heq v) by lia. split; [done|].
  assert (Hc : ∀ c, sem v < c → anc c v → sem' c = sem c).
  { intros c Hc Ha. apply Heq; [by apply Hr|]. apply (anc_le tree) in Ha; lia. }
  destruct H as [[-> H]|(Hu & Ha & H)]; [left|right].
  - split; [done|]. intros c Hlt Hca. rewrite (Hc c) by done. by apply H.
  - rewrite (Hc u) by (done || lia). split_and!; [lia|lia|done|]. intros c Hlt Hca.
    rewrite (Hc c) by done. by apply H.
Qed.

(** A number above the bucket [p] of [v] that is the next to link is the
    child of [p] on the path to [v]. *)
Lemma bucket_child w v p : 0 < w < n → w < v < n → is_semi p v → p + 1 = w → p = par w.
Proof using HV HT small.
  intros Hw Hv Hs Hp. pose proof (semi_anc tree p v ltac:(lia) Hs) as Ha.
  pose proof (df_interval _ _ _ tree p w v ltac:(lia) ltac:(lia) ltac:(lia) Ha) as Haw.
  apply anc_strict in Haw; [|lia]. destruct (df_par _ _ _ tree w Hw) as [Hlt _].
  apply (anc_le tree) in Haw; lia.
Qed.

Lemma par_word w : 0 < w < n → parent !! w = Some (N.of_nat (par w)).
Proof using HT. apply (st_parent _ _ _ _ _ HT). Qed.

(** The bucket step of [process], before the link. *)
Lemma process_bucket w c head next bk :
  0 < w < n → c < n → buckets n head next bk → (∀ p, w ∉ bk p) →
  ∃ head' next', 
    (if decide (N.of_nat c ≠ N.of_nat (par w)) then
       first ← vget head (slot (N.of_nat c));
       next ← vset next w first;
       stored ← word w;
       head ← vset head (slot (N.of_nat c)) stored;
       mret (head, next)
     else mret (head, next)) = Ok (head', next') ∧
    buckets n head' next' (λ p, if decide (p = c ∧ c ≠ par w) then w :: bk c else bk p).
Proof using HV HT small.
  intros Hw Hc Hb Hout. pose proof count_small as Hcs. case_decide as Hne.
  - destruct (buckets_push n head next bk w c Hb ltac:(lia) Hc Hout) as (first & Hf & Hb').
    rewrite slot_of_nat, (vget_eq _ _ _ Hf). rsimpl. destruct Hb as (Hh & Hn & _).
    rewrite vset_lt by lia. rsimpl. rewrite word_eq by lia. rsimpl. rewrite vset_lt by lia. rsimpl.
    eexists _, _. split; [done|]. destruct Hb' as (H1 & H2 & H3). split_and!; [done..|]. intros p Hp.
    destruct (H3 p Hp) as (start & ? & Hch). exists start. split; [done|]. repeat case_decide; lia || done.
  - exists head, next. split; [done|]. destruct Hb as (H1 & H2 & H3). split_and!; [done..|]. intros p Hp.
    rewrite decide_False by lia. auto.
Qed.

Lemma process_spec w b sem bk :
  0 < w < n → processed (S w) b sem bk →
  ∃ b' sem' bk', process g b w = Ok b' ∧ processed w b' sem' bk'.
Proof using HV HT small.
  intros Hw [Hnum Hver Hpa Hsemi Hlow Hhigh Hlk Hbk Hwait Hnd Hdl Hset Hini].
  destruct (lookup_lt_is_Some_2 vertex w ltac:(lia)) as [x Hx].
  pose proof (st_number _ _ _ _ _ HT) as Hnu.
  assert (Hxs : x ∈ sh_nodes s) by (apply (nu_nodes _ _ _ Hnu); by eapply list_elem_of_lookup_2).
  destruct (node_small g s HV small x Hxs) as [_ Hxu].
  unfold process. rewrite (vget_eq _ _ _ (proj2 Hsemi w ltac:(lia))). rsimpl. rewrite (Hlow w) by lia.
  rewrite Hver, (vget_eq _ _ _ Hx). rsimpl. rewrite from_slot by done. rsimpl.
  change (gv_predecessors g x) with (neighbors Incoming g x). rewrite (vw_next (g := g) Incoming x) by done. rsimpl.
  rewrite Hnum, Hpa.
  destruct (least_semi_spec (cb_semi b) sem (cb_label b) (cb_ancestor b) w x Hsemi Hlk Hw Hx)
    as (label1 & ancestor1 & c & -> & Hlk1 & Hc); [intros; apply Hlow; lia|intros; apply Hhigh; lia|].
  rsimpl. destruct (semi_lt tree c w Hw Hc) as [Hcp Hcw].
  rewrite vset_lt by (rewrite (proj1 Hsemi); lia). rsimpl. rewrite (vget_eq _ _ _ (par_word w Hw)). rsimpl.
  destruct (process_bucket w c _ _ bk Hw ltac:(lia) Hbk) as (head1 & next1 & -> & Hbk1).
  { intros p Hin. apply Hwait in Hin. lia. }
  rsimpl. destruct (lk_lengths _ _ _ _ Hlk1) as [_ Hla]. rewrite (vset_lt ancestor1) by lia. rsimpl. rewrite slot_of_nat.
  pose proof (df_par _ _ _ tree w Hw) as [Hpw _].
  destruct Hbk1 as (Hh1 & Hn1 & Hch1). destruct (Hch1 (par w) ltac:(lia)) as (waiting & Hwt & Hchain).
  rewrite (vget_eq _ _ _ Hwt). rsimpl. rewrite (vset_lt head1) by lia. rsimpl.
  set (sem' i := if decide (i = w) then c else sem i).
  assert (Hsem' : stores (<[w := N.of_nat c]> (cb_semi b)) sem').
  { destruct Hsemi as [Hsl Hs]. split; [by rewrite length_insert|]. intros i Hi. unfold sem'.
    destruct (decide (i = w)) as [->|]; [by rewrite list_lookup_insert_eq by lia|].
    rewrite list_lookup_insert_ne by lia. auto. }
  assert (Hsame : ∀ i, w < i → i < n → sem' i = sem i) by (intros i ??; unfold sem'; by rewrite decide_False by lia).
  assert (Hw' : sem' w = c) by (unfold sem'; by rewrite decide_True).
  pose proof (links_link tree count_small sem sem' label1 ancestor1 w Hlk1 Hw Hsame) as Hlk2.
  assert (Hpar1 : (if decide (par w = c ∧ c ≠ par w) then w :: bk c else bk (par w)) = bk (par w)).
  { rewrite decide_False; [done|]. intros [? ?]. lia. }
  rewrite Hpar1 in Hchain. clear Hpar1.
  assert (Hin : ∀ p v, v ∈ bk p → w < v < n ∧ sem' v = p ∧ p + 1 < w ∨ p = par w).
  { intros p v Hv. destruct (Hwait p v Hv) as (Hvn & Hsv & Hp). rewrite Hsame by lia.
    destruct (decide (p + 1 = w)) as [Heq|]; [|left; lia]. right. apply (bucket_child w v p); [done|lia| |done].
    rewrite <-Hsv. apply Hhigh. lia. }
  destruct (settle_bucket_spec (S (length next1)) w _ sem' next1 label1 _ (cb_dominator b) waiting (bk (par w))
    Hw Hsem' Hlk2 Hdl Hchain) as (label2 & ancestor2 & dominator2 & -> & Hlk3 & Hdl2 & Hst2 & Hk2).
  { intros v Hv. destruct (Hwait _ v Hv) as (? & <- & _). rewrite Hsame by lia. lia. }
  { rewrite Hn1. apply Nat.lt_succ_r, NoDup_length_below; [done|]. intros v Hv. by apply Hwait in Hv as [[_ ?] _]. }
  rsimpl. pose proof (buckets_drain n head1 next1 _ (par w) (conj Hh1 (conj Hn1 Hch1)) ltac:(lia)) as Hbk2. cbn beta in Hbk2.
  set (bk2 q := if decide (q = par w) then [] else if decide (q = c ∧ c ≠ par w) then w :: bk c else bk q) in *.
  assert (Hkeep : ∀ p v, v ∈ bk p → p ≠ par w → v ∈ bk2 p).
  { intros p v Hv Hp. unfold bk2. rewrite decide_False by done.
    destruct (decide (p = c ∧ c ≠ par w)) as [[-> _]|]; [by right|done]. }
  assert (Hbk2in : ∀ p v, v ∈ bk2 p → p ≠ par w ∧ (v ∈ bk p ∨ (v = w ∧ p = c))).
  { intros p v. unfold bk2. destruct (decide (p = par w)) as [|Hp]; [by intros ?%elem_of_nil|]. intros Hv. split; [done|].
    destruct (decide (p = c ∧ c ≠ par w)) as [[-> _]|]; [|by left]. apply elem_of_cons in Hv as [->|]; auto. }
  eexists _, sem', bk2. split; [done|]. split; cbn; [done..|exact Hsem'| | |exact Hlk3|exact Hbk2| | |exact Hdl2| |].
  - intros i Hi. unfold sem'. rewrite decide_False by lia. apply Hlow. lia.
  - intros i Hi. destruct (decide (i = w)) as [->|]; [by rewrite Hw'|]. rewrite Hsame by lia. apply Hhigh. lia.
  - intros p v [Hp [Hv|[-> ->]]]%Hbk2in; [|lia]. destruct (Hin p v Hv) as [|]; [lia|done].
  - intros p. unfold bk2. destruct (decide (p = par w)); [constructor|].
    destruct (decide (p = c ∧ c ≠ par w)); [|done]. constructor; [|done].
    intros Hv%Hwait. lia.
  - intros v Hv. destruct (decide (v ∈ bk (par w))) as [Hvp|Hvp]; [right; auto|].
    destruct (decide (v = w)) as [->|Hvw].
    + destruct (decide (c = par w)) as [Hcpw|Hcpw].
      * right. exists (par w). split; [rewrite Hk2 by done; apply Hini; lia|]. unfold relative. rewrite Hw'.
        assert (Honly : ∀ c', c < c' → anc c' w → c' = w).
        { intros c' Hc' [->|[_ Ha]]%anc_par; [done|]. apply (anc_le tree) in Ha; lia. }
        split; [intros c' ? Ha; by rewrite (Honly c')|]. left. split; [done|].
        intros c' ? Ha. rewrite (Honly c') by done. lia.
      * left. rewrite Hw'. unfold bk2. rewrite decide_False by done. rewrite decide_True by done. left.
    + rewrite Hsame by lia. destruct (Hset v ltac:(lia)) as [Hvb|(u & Hu & Hr)].
      * left. apply Hkeep; [done|]. intros Heq. by rewrite Heq in Hvb.
      * right. exists u. rewrite Hk2 by done. split; [done|]. apply (relative_mono (S w)); [lia|].
        apply (relative_ext _ sem); [lia| |done]. intros i ??. apply Hsame; lia.
  - intros v Hv Hvn. rewrite Hk2; [apply Hini; lia|]. intros Hvb%Hwait. lia.
Qed.

(** Processing every number below [k], from the largest down. *)
Lemma process_all k b sem bk :
  k < n → processed (S k) b sem bk →
  ∃ b' sem' bk', rfold (process g) b (rev (seq 1 k)) = Ok b' ∧ processed 1 b' sem' bk'.
Proof using HV HT small.
  revert b sem bk. induction k as [|k IH]; intros b sem bk Hk Hp.
  { by exists b, sem, bk. }
  rewrite seq_S, rev_app_distr. cbn [rev app rfold]. replace (1 + k) with (S k) by lia.
  destruct (process_spec (S k) b sem bk ltac:(lia) Hp) as (b1 & sem1 & bk1 & -> & Hp1). rsimpl.
  apply (IH b1 sem1 bk1); [lia|done].
Qed.

Lemma prepare_spec :
  ∃ b, prepare number vertex parent n = Ok b ∧ processed n b id (λ _, []).
Proof using HV HT small.
  pose proof count_small as Hcs. pose proof count_pos. unfold prepare. rewrite word_eq by done. rsimpl.
  rewrite vset_lt by (rewrite (st_length _ _ _ _ _ HT); lia). rsimpl. eexists. split; [done|].
  assert (Hid : ∀ i, i < n → (N.of_nat <$> seq 0 n) !! i = Some (N.of_nat i)).
  { intros i Hi. rewrite list_lookup_fmap, lookup_seq_lt by done. done. }
  rewrite Nat2N.id. split; cbn; [done..| |done| | | | | | | |].
  - split; [by rewrite length_fmap, length_seq|done].
  - lia.
  - split.
    + by rewrite length_fmap, length_seq, length_replicate.
    + intros i _ Hi. split; [by apply lookup_replicate_2|auto].
    + lia.
  - apply buckets_empty.
  - by intros p v ?%elem_of_nil.
  - constructor.
  - rewrite length_insert. apply (st_length _ _ _ _ _ HT).
  - lia.
  - intros v Hv Hvn. rewrite list_lookup_insert_ne by lia. apply par_word. lia.
Qed.

(** ** From relative to immediate dominators *)

(** The tables while the last pass has settled the numbers below [j]. *)
Record finishing (sem : nat → nat) (j : nat) (dominator idom : list N) : Prop := {
  fi_length : length dominator = n;
  fi_done : ∀ v, 0 < v < j → ∃ d, d < v ∧ dominator !! v = Some (N.of_nat d) ∧ is_idom d v;
  fi_rest : ∀ v, j ≤ v < n → ∃ u, dominator !! v = Some (N.of_nat u) ∧ relative 1 sem v u;
  fi_size : length idom = sh_bound s;
  fi_idom : ∀ v x, 0 < v < j → vertex !! v = Some x →
    ∃ d y, is_idom d v ∧ vertex !! d = Some y ∧ idom !! index x = Some y;
  fi_absent : ∀ x, index x < sh_bound s → (∀ v, vertex !! v = Some x → v = 0 ∨ j ≤ v) → idom !! index x = Some ABSENT;
}.

Lemma finish_node_spec b sem bk j dominator idom :
  processed 1 b sem bk → 0 < j < n → finishing sem j dominator idom →
  ∃ dominator' idom', finish_node b (dominator, idom) j = Ok (dominator', idom') ∧
    finishing sem (S j) dominator' idom'.
Proof using HV HT small.
  intros Hpr Hj [Hlen Hdone Hrest Hsize Hid Habs]. unfold finish_node.
  destruct (Hrest j ltac:(lia)) as (u & Hu & Hrel). rewrite (vget_eq _ _ _ Hu). rsimpl.
  rewrite (vget_eq _ _ _ (proj2 (pr_semi _ _ _ _ Hpr) j ltac:(lia))). rsimpl.
  rewrite (pr_vertex _ _ _ _ Hpr). rewrite slot_of_nat.
  pose proof (pr_high _ _ _ _ Hpr) as Hhigh.
  assert (Hsemis : ∀ w, 0 < w < n → is_semi (sem w) w) by (intros; apply Hhigh; lia).
  pose proof (semi_lt tree (sem j) j ltac:(lia) (Hsemis j ltac:(lia))) as [_ Hsj].
  assert (Hd : ∃ d dominator', d < j ∧ is_idom d j ∧
    (if decide (N.of_nat u ≠ N.of_nat (sem j)) then settled ← vget dominator u; vset dominator j settled else mret dominator)
      = Ok dominator' ∧ length dominator' = n ∧ dominator' !! j = Some (N.of_nat d) ∧
    ∀ v, v ≠ j → dominator' !! v = dominator !! v).
  { destruct Hrel as [Hlinked [[-> Hmin]|(Hlt & Ha & Hmin)]].
    - exists (sem j), dominator. rewrite decide_False by tauto. split_and!; [done| |done..].
      apply (semi_is_idom tree sem Hsemis j ltac:(lia)). intros c Hc Hca. by apply Hmin.
    - destruct (Hdone u ltac:(lia)) as (d & Hdu & Hd & Hidom).
      rewrite decide_True by lia. rewrite (vget_eq _ _ _ Hd). rsimpl. rewrite vset_lt by lia.
      exists d, (<[j := N.of_nat d]> dominator). split_and!; [lia| |done|by rewrite length_insert| |].
      + apply (idom_of_least tree sem Hsemis u j d); [lia|lia|done| |done]. intros v Hv Hva. by apply Hmin.
      + by rewrite list_lookup_insert_eq by lia.
      + intros v Hv. by rewrite list_lookup_insert_ne by done. }
  destruct Hd as (d & dominator' & Hdj & Hidom & -> & Hlen' & Hdat & Hkeep). rsimpl.
  destruct (lookup_lt_is_Some_2 vertex j ltac:(lia)) as [x Hx].
  destruct (lookup_lt_is_Some_2 vertex d ltac:(lia)) as [y Hy].
  pose proof (st_number _ _ _ _ _ HT) as Hnu.
  assert (Hxs : x ∈ sh_nodes s) by (apply (nu_nodes _ _ _ Hnu); by eapply list_elem_of_lookup_2).
  destruct (node_small g s HV small x Hxs) as [Hxb _].
  rewrite (vget_eq _ _ _ Hx). rsimpl. rewrite (vget_eq _ _ _ Hdat). rsimpl. rewrite slot_of_nat.
  rewrite (vget_eq _ _ _ Hy). rsimpl. change (slot x) with (index x). rewrite vset_lt by lia. rsimpl.
  eexists _, _. split; [done|]. split.
  - done.
  - intros v Hv. destruct (decide (v = j)) as [->|Hne]; [by exists d|]. rewrite Hkeep by done. apply Hdone. lia.
  - intros v Hv. rewrite Hkeep by lia. apply Hrest. lia.
  - by rewrite length_insert.
  - intros v z Hv Hz. destruct (decide (v = j)) as [->|Hne].
    + exists d, y. assert (z = x) as -> by congruence. split_and!; [done..|]. by rewrite list_lookup_insert_eq by lia.
    + destruct (Hid v z ltac:(lia) Hz) as (d' & y' & ? & ? & ?). exists d', y'. split_and!; [done..|].
      rewrite list_lookup_insert_ne; [done|]. intros ->%index_inj. apply Hne.
      by apply (NoDup_lookup vertex _ _ z (nu_nodup _ _ _ Hnu)).
  - intros z Hz Hv. rewrite list_lookup_insert_ne.
    + apply Habs; [done|]. intros v Hvz. destruct (Hv v Hvz); lia.
    + intros ->%index_inj. destruct (Hv j Hx); lia.
Qed.
Lemma finish_all b sem bk :
  processed 1 b sem bk →
  ∃ dominator idom,
    rfold (finish_node b) (cb_dominator b, replicate (sh_bound s) ABSENT) (seq 1 (n - 1)) = Ok (dominator, idom) ∧
    finishing sem n dominator idom.
Proof using HV HT small.
  intros Hp. pose proof count_pos.
  destruct (rfold_inv (λ done st, finishing sem (S (length done)) st.1 st.2) (finish_node b)
    (cb_dominator b, replicate (sh_bound s) ABSENT) (seq 1 (n - 1))) as ([dominator idom] & Hrun & Hf).
  - cbn. split; [by apply (pr_dominator _ _ _ _ Hp)|lia| |by rewrite length_replicate|lia|].
    + intros v Hv. destruct (pr_settled _ _ _ _ Hp v ltac:(lia)) as [Hw|Hset]; [|done].
      apply (pr_waiting _ _ _ _ Hp) in Hw. lia.
    + intros x Hx _. by apply lookup_replicate_2.
  - intros dn j [dominator idom] [rest Hpre] Hf. cbn in Hf.
    assert (j = S (length dn) ∧ length dn < n - 1) as [-> Hlt].
    { assert (seq 1 (n - 1) !! length dn = Some j) as Hj.
      { rewrite Hpre, <-app_assoc, lookup_app_r, Nat.sub_diag by done. done. }
      apply lookup_seq in Hj. lia. }
    destruct (finish_node_spec b sem bk (S (length dn)) dominator idom Hp ltac:(lia) Hf) as (d' & i' & -> & Hf').
    eexists. split; [done|]. cbn. rewrite length_app. cbn. by replace (S (length dn + 1)) with (S (S (length dn))) by lia.
  - exists dominator, idom. split; [done|]. cbn in Hf. rewrite length_seq in Hf.
    by replace (S (n - 1)) with n in Hf by lia.
Qed.
End Process.

(** * Immediate dominators of a graph

    What [immediate_dominators] of [graph/dominator/construction.rs] returns,
    said of the graph's own nodes and paths instead of depth-first numbers. *)


Section Idom.
Context {G : Type} {HG : GraphView G} (g : G) (s : shape) (HV : Views g s).
Context (small : (N.of_nat (sh_bound s) ≤ U32_MAX)%N) (root : Id) (Hroot : root ∈ sh_nodes s).
Notation next := (sh_next s Outgoing).
Notation R := (edge_to (sh_next s Outgoing)).

(** A path from the root to [x]. *)
Definition root_path (p : list Id) (x : Id) : Prop :=
  head p = Some root ∧ last p = Some x ∧ chain s Outgoing p.

(** [d] dominates [x]: [x] is reached, and only through [d]. *)
Definition dominator (d x : Id) : Prop := rtc R root x ∧ ∀ p, root_path p x → d ∈ p.

Lemma dominator_root x : rtc R root x → dominator root x.
Proof. intros Hx. split; [done|]. intros p (Hp & _). destruct p as [|y p]; [done|]. injection Hp as ->. left. Qed.

Lemma dominator_self x : rtc R root x → dominator x x.
Proof. intros Hx. split; [done|]. intros p (_ & Hp & _). by apply last_Some_elem_of. Qed.

(** Paths off [d] are chains of steps off [d]. *)
Lemma path_steps d a x :
  a ≠ d → (∃ p, head p = Some a ∧ last p = Some x ∧ chain s Outgoing p ∧ d ∉ p) ↔
  rtc (λ u v, R u v ∧ v ≠ d) a x.
Proof.
  intros Had. split.
  - intros (p & Hh & Hl & Hc & Hout). revert a Had Hh. induction p as [|b p IH]; intros a Had Hh; [done|].
    injection Hh as ->. destruct p as [|y p].
    { injection Hl as ->. constructor. }
    destruct Hc as [Hy Hc]. assert (y ≠ d) by set_solver. apply rtc_l with y; [done|].
    apply IH; [done|done|set_solver|done|done].
  - intros Hax. induction Hax as [a|a y x [Hay Hyd] _ IH].
    + exists [a]. split_and!; [done..|set_solver].
    + destruct (IH Hyd) as (p & Hh & Hl & Hc & Hout). exists (a :: p). destruct p as [|z p]; [done|].
      injection Hh as ->. split_and!; [done..|set_solver].
Qed.

Lemma path_exists x : rtc R root x → ∃ p, root_path p x.
Proof.
  unfold root_path. clear. generalize root. induction 1 as [a|a y x Hay _ (p & Hh & Hl & Hc)].
  - by exists [a].
  - exists (a :: p). destruct p as [|z p]; [done|]. injection Hh as ->. done.
Qed.

(** The nodes of a path are reached. *)
Lemma path_reached p x y : root_path p x → y ∈ p → rtc R root y.
Proof.
  intros (Hh & _ & Hc). clear -Hh Hc. revert Hh. generalize root.
  induction p as [|b p IH]; intros a Hh Hy; [done|]. injection Hh as ->.
  apply elem_of_cons in Hy as [->|Hy]; [constructor|]. destruct p as [|z p]; [by apply elem_of_nil in Hy|].
  destruct Hc as [Hz Hc]. apply rtc_l with z; [done|]. by apply IH.
Qed.

Lemma dominator_reached d x : dominator d x → rtc R root d.
Proof. intros [Hx Hd]. destruct (path_exists x Hx) as [p Hp]. by apply (path_reached p x); [|apply Hd]. Qed.

Section Numbered.
Context (number : list N) (vertex : list Id) (parent : list N).
Context (HT : search_tree s root number vertex parent).
Notation n := (length vertex).
Notation par := (parf parent).
Notation edge := (nedge s vertex).

Lemma vertex_reached x : x ∈ vertex ↔ rtc R root x.
Proof.
  split.
  - intros [i Hi]%list_elem_of_lookup. revert x Hi. induction i as [i IH] using lt_wf_ind. intros x Hi.
    pose proof (lookup_lt_Some _ _ _ Hi) as Hlt. destruct (decide (i = 0)) as [->|Hne].
    { rewrite (st_root _ _ _ _ _ HT) in Hi. by injection Hi as <-. }
    destruct (df_par _ _ _ (st_dfs _ _ _ _ _ HT) i ltac:(lia)) as [Hp (u & v & Hu & Hv & Huv)].
    assert (v = x) as -> by congruence. eapply rtc_r; [by apply (IH (par i))|done].
  - assert (Hc : ∀ a b, rtc R a b → a ∈ vertex → b ∈ vertex).
    { induction 1 as [|a y z Hay _ IH]; [done|]. intros Ha. apply IH. by apply (st_closed _ _ _ _ _ HT a). }
    intros Hx. apply (Hc root); [done|]. eapply list_elem_of_lookup_2, (st_root _ _ _ _ _ HT).
Qed.

Lemma vertex_at i j x : vertex !! i = Some x → vertex !! j = Some x → i = j.
Proof. apply NoDup_lookup, (nu_nodup _ _ _ (st_number _ _ _ _ _ HT)). Qed.

(** Steps that keep off [d], between numbers and between nodes. *)
Lemma steps_number d i a x k :
  vertex !! i = Some d → vertex !! k = Some a → rtc (λ u v, R u v ∧ v ≠ d) a x →
  ∃ j, vertex !! j = Some x ∧ rtc (λ u v, edge u v ∧ v ≠ i) k j.
Proof.
  intros Hd Hk Hax. revert k Hk. induction Hax as [a|a y x [Hay Hyd] _ IH]; intros k Hk; [by exists k|].
  assert (y ∈ vertex) as [m Hm]%list_elem_of_lookup.
  { apply (st_closed _ _ _ _ _ HT a); [by eapply list_elem_of_lookup_2|done]. }
  destruct (IH m Hm) as (j & Hj & Hmj). exists j. split; [done|]. apply rtc_l with m; [|done].
  split; [by exists a, y|]. intros ->. congruence.
Qed.

Lemma number_steps d i a x k j :
  vertex !! i = Some d → vertex !! k = Some a → vertex !! j = Some x →
  rtc (λ u v, edge u v ∧ v ≠ i) k j → rtc (λ u v, R u v ∧ v ≠ d) a x.
Proof.
  intros Hd Hk Hj Hkj. revert a Hk. induction Hkj as [k|k m j [(a' & y & Ha & Hy & Hn) Hne] _ IH]; intros a Hk.
  - assert (a = x) as -> by congruence. constructor.
  - assert (a' = a) as -> by congruence. apply rtc_l with y; [|by apply IH]. split; [done|].
    intros ->. apply Hne. by apply (vertex_at _ _ d).
Qed.

(** Dominance by numbers is dominance by paths. *)
Lemma dom_dominator i j d x :
  vertex !! i = Some d → vertex !! j = Some x → dom (edge := edge) i j ↔ dominator d x.
Proof.
  intros Hd Hx. pose proof (st_root _ _ _ _ _ HT) as Hr0.
  assert (Hxr : rtc R root x) by (apply vertex_reached; by eapply list_elem_of_lookup_2).
  split.
  - intros [->|Hn].
    + assert (d = root) as -> by congruence. by apply dominator_root.
    + split; [done|]. intros p Hp. destruct (decide (d ∈ p)) as [|Hout]; [done|]. exfalso. apply Hn.
      destruct (steps_number d i root x 0 Hd Hr0) as (j' & Hj' & Hs).
      * apply (path_steps d root x); [|destruct Hp as (? & ? & ?); by exists p].
        intros Heq. destruct Hp as (Hh & _). destruct p as [|? p]; [done|]. injection Hh as ->. set_solver.
      * by rewrite (vertex_at j j' x).
  - intros [_ Hp]. destruct (decide (i = 0)) as [|Hne]; [by left|right]. intros Hs.
    pose proof (number_steps d i root x 0 j Hd Hr0 Hx Hs) as Hs'.
    apply (path_steps d root x) in Hs' as (p & Hh & Hl & Hc & Hout).
    + by apply Hout, Hp.
    + intros Heq. apply Hne, (vertex_at i 0 d); [done|by rewrite <-Heq].
Qed.
End Numbered.

(** The parent table of the dominator tree. *)
Record idom_table (tbl : list N) : Prop := {
  it_length : length tbl = sh_bound s;
  it_absent : ∀ x, index x < sh_bound s → ¬ rtc R root x ∨ x = root → tbl !! index x = Some ABSENT;
  it_idom : ∀ x, rtc R root x → x ≠ root → ∃ d, tbl !! index x = Some d ∧
    dominator d x ∧ d ≠ x ∧ ∀ e, dominator e x → e ≠ x → dominator e d;
  it_dec : ∀ x, rtc R root x ∨ ¬ rtc R root x;
  it_rank : ∃ rank : Id → nat, ∀ x d, rtc R root x → x ≠ root → tbl !! index x = Some d → rank d < rank x;
}.

Lemma immediate_dominators_spec :
  ∃ b tbl, immediate_dominators g (index root) = Ok (b, tbl) ∧ idom_table tbl ∧
    NoDup (cb_vertex b) ∧ ∀ x, x ∈ cb_vertex b ↔ rtc R root x.
Proof.
  destruct (search_spec g s HV small root Hroot) as (number & vertex & parent & Hs & HT).
  unfold immediate_dominators. rewrite Hs. rsimpl.
  destruct (prepare_spec g s HV small root number vertex parent HT) as (b0 & Hb0 & Hp0). rewrite Hb0. rsimpl.
  pose proof (lookup_lt_Some _ _ _ (st_root _ _ _ _ _ HT)) as Hpos.
  destruct (process_all g s HV small root number vertex parent HT (length vertex - 1) b0 id (λ _, []))
    as (b & sem & bk & Hb & Hp); [lia|by replace (S (length vertex - 1)) with (length vertex) by lia|].
  rewrite Hb. rsimpl. rewrite (vw_bound (g := g) (s := s)).
  destruct (finish_all g s HV small root number vertex parent HT b sem bk Hp) as (dom' & tbl & Hf & Hfin).
  rewrite Hf. rsimpl. eexists _, tbl. split; [done|]. cbn. rewrite (pr_vertex _ _ _ _ _ _ _ _ Hp).
  pose proof (st_number _ _ _ _ _ HT) as Hnu. pose proof Hfin as [_ _ _ Hsize Hid Habs].
  split_and!; [|apply (nu_nodup _ _ _ Hnu)|intros x; by apply (vertex_reached number _ parent)].
  assert (Hat : ∀ x, rtc R root x → x ≠ root → ∃ v d y, 0 < v < length vertex ∧ vertex !! v = Some x ∧
    is_idom (edge := nedge s vertex) d v ∧ vertex !! d = Some y ∧ tbl !! index x = Some y ∧ d < v).
  { intros x Hx Hne. apply (vertex_reached number _ parent HT) in Hx as [v Hv]%list_elem_of_lookup.
    pose proof (lookup_lt_Some _ _ _ Hv). assert (v ≠ 0).
    { intros ->. rewrite (st_root _ _ _ _ _ HT) in Hv. by injection Hv as ->. }
    destruct (Hid v x ltac:(lia) Hv) as (d & y & Hd & Hy & Ht). exists v, d, y. split_and!; [lia|lia|done..|].
    destruct Hd as (Hd & Hdv & _). apply (dom_anc (st_dfs _ _ _ _ _ HT)) in Hd; [|done].
    apply (anc_le (st_dfs _ _ _ _ _ HT)) in Hd; [lia|done]. }
  split.
  - done.
  - intros x Hx Hor. apply Habs; [done|]. intros v Hv. destruct Hor as [Hn| ->].
    + destruct Hn. apply (vertex_reached number _ parent HT). by eapply list_elem_of_lookup_2.
    + left. apply (vertex_at number _ parent HT _ _ root); [done|apply (st_root _ _ _ _ _ HT)].
  - intros x Hx Hne. destruct (Hat x Hx Hne) as (v & d & y & Hvn & Hv & (Hd & Hdv & Hmin) & Hy & Ht & Hlt).
    pose proof (dom_dominator number vertex parent HT) as Hiff. exists y. split_and!; [done| | |].
    + by apply (Hiff d v y x).
    + intros ->. apply Hdv. by apply (vertex_at number _ parent HT _ _ x).
    + intros e He Hex.
      assert (e ∈ vertex) as [i Hi]%list_elem_of_lookup by (apply (vertex_reached number _ parent HT); by apply (dominator_reached e x)).
      apply (Hiff i d e y Hi Hy). apply Hmin; [by apply (Hiff i v e x)|]. intros ->. congruence.
  - intros x. destruct (decide (x ∈ vertex)) as [Hin|Hout].
    + left. by apply (vertex_reached number _ parent HT).
    + right. by rewrite <-(vertex_reached number _ parent HT).
  - exists (λ x, slot (number !!! index x)). intros x d Hx Hne Ht.
    destruct (Hat x Hx Hne) as (v & i & y & Hvn & Hv & _ & Hy & Ht' & Hlt). assert (y = d) as -> by congruence.
    rewrite (list_lookup_total_correct _ _ _ (nu_at _ _ _ Hnu v x Hv)).
    rewrite (list_lookup_total_correct _ _ _ (nu_at _ _ _ Hnu i d Hy)). by rewrite !slot_of_nat.
Qed.
End Idom.
