(* ===== verification/DomNumber.v ===== *)
(** * Forests behind a parent table and their numbering

    The preorder numbering of [graph/dominator/numbering.rs] walks the forest
    a parent table describes. Here that forest is a list of trees whose
    children are the entries of the table in ascending order; the walk numbers
    it in preorder. *)

From S2P Require Import Prelude Ids Dominator DomSearch.

(** A tree of indices. *)
Inductive rtree : Type := rnode (i : nat) (ts : list rtree).

Definition label (t : rtree) : nat := match t with rnode i _ => i end.
Definition subtrees (t : rtree) : list rtree := match t with rnode _ ts => ts end.

(** The nodes of a tree in preorder. *)
Fixpoint flatten (t : rtree) : list nat :=
  match t with rnode i ts => i :: concat (map flatten ts) end.
Definition flattens (ts : list rtree) : list nat := concat (map flatten ts).

Lemma rtree_ind' (P : rtree → Prop) :
  (∀ i ts, Forall P ts → P (rnode i ts)) → ∀ t, P t.
Proof.
  intros H. fix IH 1. intros [i ts]. apply H. induction ts as [|t ts IHts]; constructor; [apply IH|apply IHts].
Qed.

Lemma flatten_cons t : flatten t = label t :: flattens (subtrees t).
Proof. by destruct t. Qed.

Lemma elem_of_flattens x ts : x ∈ flattens ts ↔ ∃ t, t ∈ ts ∧ x ∈ flatten t.
Proof.
  unfold flattens. induction ts as [|t ts IH]; cbn.
  - split; [by intros ?%elem_of_nil|]. by intros (? & ?%elem_of_nil & _).
  - rewrite elem_of_app, IH. setoid_rewrite elem_of_cons. naive_solver.
Qed.

Lemma flattens_cons t ts : flattens (t :: ts) = flatten t ++ flattens ts.
Proof. done. Qed.

Lemma NoDup_flattens ts :
  NoDup (map label ts) → Forall (λ t, NoDup (flatten t)) ts →
  (∀ t1 t2 y, t1 ∈ ts → t2 ∈ ts → y ∈ flatten t1 → y ∈ flatten t2 → label t1 = label t2) →
  NoDup (flattens ts).
Proof.
  induction ts as [|t ts IH]; intros Hl Hn Hd; [constructor|].
  apply Forall_cons in Hn as [Ht Hn]. cbn in Hl. apply NoDup_cons in Hl as [Hout Hl].
  rewrite flattens_cons. apply NoDup_app. split_and!; [done| |apply IH; [done..|set_solver]].
  intros y Hy (t' & Ht' & Hy')%elem_of_flattens. apply Hout.
  rewrite (Hd t t' y) by (done || set_solver). apply list_elem_of_In, in_map, list_elem_of_In. done.
Qed.

Section Forest.
Context (n : nat) (small : (N.of_nat n ≤ U32_MAX)%N) (par : list N) (Hlen : length par = n).
Context (rank : nat → nat).
Context (Hpar : ∀ i p, par !! i = Some p → p = ABSENT ∨ ∃ j, p = N.of_nat j ∧ j < n ∧ rank j < rank i).

(** [a] is the parent of [b]. *)
Definition parent_of (a b : nat) : Prop := a < n ∧ par !! b = Some (N.of_nat a).
Definition above : nat → nat → Prop := rtc parent_of.

(** The children of [i], ascending. *)
Definition kids_from (k i : nat) : list nat := filter (λ j, par !! j = Some (N.of_nat i)) (seq k (n - k)).
Definition kids (i : nat) : list nat := kids_from 0 i.

Lemma elem_of_kids i j : i < n → j ∈ kids i ↔ parent_of i j.
Proof using small Hlen Hpar.
  intros Hi. unfold kids, kids_from, parent_of. rewrite list_elem_of_filter, elem_of_seq. split; [tauto|].
  intros [_ H]. split; [done|]. apply lookup_lt_Some in H. lia.
Qed.

Lemma NoDup_kids i : NoDup (kids i).
Proof. apply NoDup_filter, NoDup_seq. Qed.

Lemma parent_rank a b : parent_of a b → rank a < rank b.
Proof using small Hlen Hpar.
  intros [Ha Hp]. destruct (Hpar b (N.of_nat a) Hp) as [He|(j & Hj & _ & Hr)].
  - by destruct (small_not_absent a n small Ha).
  - by apply Nat2N.inj in Hj as ->.
Qed.

Lemma parent_inj a a' b : parent_of a b → parent_of a' b → a = a'.
Proof. intros [_ H] [_ H']. rewrite H in H'. injection H' as ?. lia. Qed.

Lemma parent_lt a b : parent_of a b → b < n.
Proof using small Hlen Hpar. intros [_ H%lookup_lt_Some]. lia. Qed.

Lemma above_lt a b : a < n → above a b → b < n.
Proof using small Hlen Hpar.
  intros Ha. induction 1 as [|a b c Hab _ IH]; [done|]. apply IH. by eapply parent_lt.
Qed.

Lemma above_rank a b : a < n → above a b → rank a ≤ rank b.
Proof using small Hlen Hpar.
  intros Ha. induction 1 as [|a b c Hab _ IH]; [done|].
  pose proof (parent_rank a b Hab). specialize (IH (parent_lt a b Hab)). lia.
Qed.

Lemma above_last a b : above a b → a = b ∨ ∃ p, above a p ∧ parent_of p b.
Proof. intros H. apply rtc_inv_r in H as [->|(p & ? & ?)]; [by left|right; by exists p]. Qed.

(** The ancestors of a node form a chain. *)
Lemma above_chain a b c : above a c → above b c → above a b ∨ above b a.
Proof.
  intros Ha. revert b. induction Ha as [a|a d c Had Hdc IH]; intros b Hb; [by right|].
  destruct (IH b Hb) as [H|H].
  - left. by eapply rtc_l.
  - apply above_last in H as [->|(p & Hbp & Hpd)].
    + left. by apply rtc_once.
    + assert (p = a) as -> by (by apply (parent_inj _ _ d)). by right.
Qed.

(** [t] is the tree of the table below its label. *)
Inductive hangs : rtree → Prop :=
  | hangs_node i ts : i < n → map label ts = kids i → Forall hangs ts → hangs (rnode i ts).

Lemma hangs_label t : hangs t → label t < n.
Proof. by destruct 1. Qed.

(** There is one such tree per label. *)
Lemma hangs_unique t t' : hangs t → hangs t' → label t = label t' → t = t'.
Proof.
  revert t'. induction t as [i ts IH] using rtree_ind'. intros t' Ht Ht' Hl.
  inversion Ht as [? ? _ Hkids Hts]; inversion Ht' as [i' ts' _ Hkids' Hts']; subst. cbn in Hl. subst i'. f_equal.
  rewrite <-Hkids' in Hkids. clear -IH Hts Hts' Hkids. revert ts' Hts' Hkids.
  induction IH as [|t ts Ht _ IH]; intros [|t' ts'] Hts' Hkids; try done.
  apply Forall_cons in Hts as [Hh Hts], Hts' as [Hh' Hts']. injection Hkids as Hl Hkids.
  f_equal; [by apply Ht|by apply IH].
Qed.

Lemma rank_bounded : ∃ M, ∀ i, i < n → rank i ≤ M.
Proof.
  clear. induction n as [|m [M HM]]; [exists 0; lia|]. exists (max M (rank m)). intros i Hi.
  destruct (decide (i = m)) as [->|]; [lia|]. specialize (HM i ltac:(lia)). lia.
Qed.

Lemma hangs_exists i : i < n → ∃ t, hangs t ∧ label t = i.
Proof using small Hlen Hpar.
  destruct rank_bounded as [M HM]. cut (∀ m i, i < n → M - rank i < m → ∃ t, hangs t ∧ label t = i).
  { intros H Hi. apply (H (S (M - rank i))); [done|lia]. }
  clear i. induction m as [|m IH]; intros i Hi Hm; [lia|].
  assert (H : ∀ l, (∀ j, j ∈ l → parent_of i j) → ∃ ts, map label ts = l ∧ Forall hangs ts).
  { induction l as [|j l IHl]; intros Hl; [by exists []|].
    destruct IHl as (ts & Hts & Hf); [set_solver|]. pose proof (Hl j ltac:(left)) as Hj.
    pose proof (parent_lt i j Hj) as Hjn. pose proof (parent_rank i j Hj). pose proof (HM j Hjn).
    destruct (IH j Hjn ltac:(lia)) as (t & Ht & Hlt).
    exists (t :: ts). cbn. rewrite Hts, Hlt. split; [done|by constructor]. }
  destruct (H (kids i)) as (ts & Hts & Hf); [intros j; by apply elem_of_kids|].
  exists (rnode i ts). split; [by constructor|done].
Qed.

(** The trees that hang at given labels. *)
Lemma hang_all l : (∀ i, i ∈ l → i < n) → ∃ ts, map label ts = l ∧ Forall hangs ts.
Proof using small Hlen Hpar.
  induction l as [|i l IH]; intros Hl; [by exists []|]. destruct IH as (ts & Hts & Hf); [set_solver|].
  destruct (hangs_exists i) as (t & Ht & Hlt); [set_solver|]. exists (t :: ts). cbn. rewrite Hts, Hlt.
  split; [done|by constructor].
Qed.

Lemma elem_of_flatten t x : hangs t → x ∈ flatten t ↔ above (label t) x.
Proof using small Hlen Hpar.
  revert x. induction t as [i ts IH] using rtree_ind'. intros x Ht. inversion Ht as [? ? Hi Hkids Hts]; subst.
  rewrite flatten_cons, elem_of_cons, elem_of_flattens. cbn. rewrite Forall_forall in IH, Hts. split.
  - intros [->|(t & Hin & Hx)]; [constructor|]. apply IH in Hx; [|by auto..]. apply rtc_l with (label t); [|done].
    apply elem_of_kids; [done|]. rewrite <-Hkids. apply list_elem_of_In, in_map, list_elem_of_In. done.
  - intros Hx. inversion Hx as [|? c ? Hc Hcx]; subst; [by left|]. right.
    apply elem_of_kids in Hc; [|done]. rewrite <-Hkids in Hc. apply list_elem_of_In, in_map_iff in Hc as (t & <- & Hin%list_elem_of_In).
    exists t. split; [done|]. by apply IH; [|auto|].
Qed.

Lemma NoDup_forest ts :
  Forall hangs ts → NoDup (map label ts) → Forall (λ t, NoDup (flatten t)) ts →
  (∀ c c', c ∈ map label ts → c' ∈ map label ts → above c c' → c = c') → NoDup (flattens ts).
Proof using small Hlen Hpar.
  intros Hts Hl Hn Hsep. apply NoDup_flattens; [done..|]. rewrite Forall_forall in Hts.
  assert (Hin : ∀ t, t ∈ ts → label t ∈ map label ts).
  { intros t Ht. apply list_elem_of_In, in_map, list_elem_of_In. done. }
  intros t1 t2 y H1 H2 Hy1%elem_of_flatten Hy2%elem_of_flatten; [|by auto..].
  destruct (above_chain _ _ _ Hy1 Hy2) as [H|H]; [by apply Hsep; auto|symmetry; by apply Hsep; auto].
Qed.

Lemma NoDup_flatten t : hangs t → NoDup (flatten t).
Proof using small Hlen Hpar.
  induction t as [i ts IH] using rtree_ind'. intros Ht. inversion Ht as [? ? Hi Hkids Hts]; subst.
  assert (Hrank : ∀ c y, parent_of i c → above c y → rank i < rank y).
  { intros c y Hc Hy. pose proof (parent_rank i c Hc). pose proof (above_rank c y (parent_lt i c Hc) Hy). lia. }
  assert (Hk : ∀ c, c ∈ map label ts → parent_of i c) by (intros c; rewrite Hkids; by apply elem_of_kids).
  rewrite flatten_cons. cbn. constructor.
  - intros (t & Hin & Hx)%elem_of_flattens. rewrite Forall_forall in Hts. apply elem_of_flatten in Hx; [|auto].
    assert (Hc : parent_of i (label t)) by (apply Hk, list_elem_of_In, in_map, list_elem_of_In; done).
    specialize (Hrank _ _ Hc Hx). lia.
  - apply NoDup_forest; [done|rewrite Hkids; apply NoDup_kids| |].
    + rewrite Forall_forall in *. auto.
    + intros c c' Hc%Hk Hc'%Hk Hcc. apply above_last in Hcc as [|(p & Hcp & Hp)]; [done|].
      rewrite (parent_inj p i c') in Hcp by done. specialize (Hrank c i Hc Hcp). lia.
Qed.

(** ** The sibling chains *)

Lemma kids_from_S k i :
  k < n → kids_from k i = if decide (par !! k = Some (N.of_nat i)) then k :: kids_from (S k) i else kids_from (S k) i.
Proof.
  intros Hk. unfold kids_from. replace (n - k) with (S (n - S k)) by lia. cbn [seq]. by rewrite filter_cons.
Qed.

Lemma chain_child_spec k c :
  k < n → buckets n (first_child c) (next_sibling c) (kids_from (S k)) →
  ∃ c', chain_child par c k = Ok c' ∧ buckets n (first_child c') (next_sibling c') (kids_from k).
Proof using small Hlen Hpar.
  intros Hk Hb. unfold chain_child.
  destruct (lookup_lt_is_Some_2 par k ltac:(lia)) as [p Hp]. rewrite (vget_eq _ _ _ Hp). rsimpl.
  destruct (Hpar k p Hp) as [->|(j & -> & Hj & _)].
  - rewrite decide_True by done. exists c. split; [done|]. eapply buckets_ext; [|exact Hb]. intros q Hq.
    rewrite (kids_from_S k) by lia. rewrite decide_False; [done|].
    rewrite Hp. intros [= He]. by apply (small_not_absent q n small Hq).
  - rewrite decide_False by by apply (small_not_absent j n small). rewrite slot_of_nat.
    destruct (buckets_push n _ _ _ k j Hb ltac:(lia) Hj) as (first & Hf & Hb').
    { intros q [_ ?%elem_of_seq]%list_elem_of_filter. lia. }
    rewrite (vget_eq _ _ _ Hf). rsimpl. destruct Hb as (Hl1 & Hl2 & _).
    rewrite (vset_lt (next_sibling c)) by lia. rsimpl. rewrite word_eq by lia. rsimpl.
    rewrite (vset_lt (first_child c)) by lia. rsimpl. eexists. split; [done|]. cbn.
    eapply buckets_ext; [|exact Hb']. intros q Hq. cbn. rewrite (kids_from_S k) by lia. rewrite Hp.
    destruct (decide (q = j)) as [->|Hne]; [by rewrite decide_True|].
    rewrite decide_False; [done|]. intros [= He]. lia.
Qed.

Lemma chain_children_spec :
  ∃ c, chain_children par = Ok c ∧ buckets n (first_child c) (next_sibling c) kids.
Proof using small Hlen Hpar.
  unfold chain_children. rewrite Hlen.
  cut (∀ k c, k ≤ n → buckets n (first_child c) (next_sibling c) (kids_from k) →
    ∃ c', rfold (chain_child par) c (rev (seq 0 k)) = Ok c' ∧ buckets n (first_child c') (next_sibling c') kids).
  { intros H. apply H; [done|]. cbn. eapply buckets_ext; [|apply buckets_empty].
    intros p _. unfold kids_from. by rewrite Nat.sub_diag. }
  induction k as [|k IH]; intros c Hk Hb; [by exists c|].
  rewrite seq_S, rev_app_distr. cbn [rev app rfold Nat.add].
  destruct (chain_child_spec k c ltac:(lia) Hb) as (c1 & -> & Hb1). rsimpl. apply IH; [lia|done].
Qed.
End Forest.

(** * The preorder numbering

    [walk] and [number] of [graph/dominator/numbering.rs]: entering a node
    numbers its whole subtree and comes back to close it, by induction on the
    tree behind the table, so the numbers of a subtree are an interval. *)


Section Number.
Context (n : nat) (small : (N.of_nat n ≤ U32_MAX)%N) (par : list N) (Hlen : length par = n).
Context (rank : nat → nat).
Context (Hpar : ∀ i p, par !! i = Some p → p = ABSENT ∨ ∃ j, p = N.of_nat j ∧ j < n ∧ rank j < rank i).
Context (c : NumberingBuffers) (Hc : buckets n (first_child c) (next_sibling c) (kids n par)).
Notation hangs := (hangs n par).
Notation parent_of := (parent_of n par).

(** The three tables have an entry per node. *)
Definition sized (nb : Numbered) : Prop :=
  length (nb_pre nb) = n ∧ length (nb_last nb) = n ∧ length (nb_level nb) = n.

(** The tables agree at [y]. *)
Definition agree (nb nb' : Numbered) (y : nat) : Prop :=
  nb_pre nb' !! y = nb_pre nb !! y ∧ nb_last nb' !! y = nb_last nb !! y ∧ nb_level nb' !! y = nb_level nb !! y.

(** The numbers of the trees [ts] from position [off] at depth [dpt]. *)
Section Trees.
Context (P : nat → nat → rtree → Prop).
Fixpoint laid (off dpt : nat) (ts : list rtree) : Prop :=
  match ts with [] => True | t :: ts => P off dpt t ∧ laid (off + length (flatten t)) dpt ts end.
End Trees.

Fixpoint placed (nb : Numbered) (off dpt : nat) (t : rtree) : Prop :=
  match t with rnode i ts =>
    nb_pre nb !! i = Some (N.of_nat off) ∧
    nb_last nb !! i = Some (N.of_nat (off + length (flatten (rnode i ts)) - 1)) ∧
    nb_level nb !! i = Some (N.of_nat dpt) ∧
    laid (placed nb) (S off) (S dpt) ts
  end.
Definition placed_all (nb : Numbered) : nat → nat → list rtree → Prop := laid (placed nb).

(** The same before the root of the tree is closed. *)
Definition opened (nb : Numbered) (off dpt : nat) (t : rtree) : Prop :=
  nb_pre nb !! label t = Some (N.of_nat off) ∧ nb_level nb !! label t = Some (N.of_nat dpt) ∧
  placed_all nb (S off) (S dpt) (subtrees t).

Lemma placed_agree nb nb' t off dpt :
  (∀ y, y ∈ flatten t → agree nb nb' y) → placed nb off dpt t → placed nb' off dpt t.
Proof using.
  clear. revert off dpt. induction t as [i ts IH] using rtree_ind'. intros off dpt Hag. cbn.
  destruct (Hag i) as (-> & -> & ->); [rewrite flatten_cons; left|]. intros (? & ? & ? & Hts).
  split_and!; [done..|]. assert (Hag' : ∀ y, y ∈ flattens ts → agree nb nb' y).
  { intros y Hy. apply Hag. rewrite flatten_cons. by right. }
  clear -IH Hts Hag'. revert Hts Hag'. generalize (S off) as o. induction IH as [|t ts Ht _ IHts]; intros o Hts Hag; [done|].
  destruct Hts as [Hp Hts].
  rewrite flattens_cons in Hag. split.
  - apply Ht; [|done]. intros y Hy. apply Hag, elem_of_app. by left.
  - apply IHts; [done|]. intros y Hy. apply Hag, elem_of_app. by right.
Qed.

Lemma placed_all_agree nb nb' ts off dpt :
  (∀ y, y ∈ flattens ts → agree nb nb' y) → placed_all nb off dpt ts → placed_all nb' off dpt ts.
Proof using.
  clear. unfold placed_all. revert off. induction ts as [|t ts IH]; intros off Hag; [done|].
  rewrite flattens_cons in Hag. intros [Hp Hts]. split.
  - eapply placed_agree; [|done]. intros y Hy. apply Hag, elem_of_app. by left.
  - apply IH; [|done]. intros y Hy. apply Hag, elem_of_app. by right.
Qed.

Lemma agree_trans nb1 nb2 nb3 y : agree nb1 nb2 y → agree nb2 nb3 y → agree nb1 nb3 y.
Proof using. clear. intros (? & ? & ?) (? & ? & ?). split_and!; congruence. Qed.

(** Closing [x]: the climb from it, and the rest of the walk. *)
Definition resume (root fuel climbing : nat) (nb : Numbered) (x : nat) : res Numbered :=
  '(last, level, next) ← climb climbing c par root (length (nb_order nb)) (nb_last nb) (nb_level nb) x;
  match next with
  | None => mret (mk_Numbered (nb_pre nb) last level (nb_order nb))
  | Some node => walk_loop fuel c par root (mk_Numbered (nb_pre nb) last level (nb_order nb)) node
  end.

(** What numbering the trees [ts] adds. *)
Record extends (nb nb' : Numbered) (l : list nat) : Prop := {
  ex_order : nb_order nb' = nb_order nb ++ (N.of_nat <$> l);
  ex_sized : sized nb';
  ex_frame : ∀ y, y ∉ l → agree nb nb' y;
}.

(** The walk enters the root of [t], numbers the tree and is back at its root. *)
Definition walks (t : rtree) : Prop :=
  ∀ root fuel nb dpt,
    sized nb → nb_level nb !! label t = Some (N.of_nat dpt) → dpt ≤ length (nb_order nb) →
    length (nb_order nb) + length (flatten t) ≤ n → (∀ y, y ∈ flattens (subtrees t) → y ≠ root) →
    ∃ nb' climbing, dpt < climbing ∧
      walk_loop (length (flatten t) + fuel) c par root nb (label t) = resume root fuel climbing nb' (label t) ∧
      extends nb nb' (flatten t) ∧ opened nb' (length (nb_order nb)) dpt t.

(** The chain at [start] runs through [l]. *)
Notation links_to := (chained n (next_sibling c)).

(** Closing a node that is not the root: it gets its last descendant, and the
    walk turns to its sibling or goes on closing the parent. *)
Lemma close_last root fuel climbing nb x y :
  sized nb → 0 < length (nb_order nb) ≤ n → y ≠ root → y < n →
  next_sibling c !! y = Some ABSENT → parent_of x y →
  resume root fuel (S climbing) nb y =
  resume root fuel climbing (mk_Numbered (nb_pre nb) (<[y := N.of_nat (length (nb_order nb) - 1)]> (nb_last nb))
    (nb_level nb) (nb_order nb)) x.
Proof using small Hlen.
  intros (_ & Hl & _) Ho Hroot Hy Hn Hx. unfold resume. cbn [climb nb_order nb_last nb_level nb_pre].
  rewrite word_eq by lia. rsimpl. rewrite vset_lt by lia. rsimpl. rewrite decide_False by done.
  rewrite (vget_eq _ _ _ Hn). rsimpl. rewrite decide_True by done. rewrite (vget_eq _ _ _ (proj2 Hx)). rsimpl.
  by rewrite slot_of_nat.
Qed.

Lemma close_next root fuel climbing nb y z h :
  sized nb → 0 < length (nb_order nb) ≤ n → y ≠ root → y < n → z < n →
  next_sibling c !! y = Some (N.of_nat z) → nb_level nb !! y = Some h →
  resume root fuel (S climbing) nb y =
  walk_loop fuel c par root (mk_Numbered (nb_pre nb) (<[y := N.of_nat (length (nb_order nb) - 1)]> (nb_last nb))
    (<[z := h]> (nb_level nb)) (nb_order nb)) z.
Proof using small Hlen.
  intros (_ & Hl & Hv) Ho Hroot Hy Hz Hn Hh. unfold resume. cbn [climb nb_order nb_last nb_level nb_pre].
  rewrite word_eq by lia. rsimpl. rewrite vset_lt by lia. rsimpl. rewrite decide_False by done.
  rewrite (vget_eq _ _ _ Hn). rsimpl. rewrite decide_False by by apply (small_not_absent z n small).
  rewrite (vget_eq _ _ _ Hh). rsimpl. rewrite slot_of_nat, vset_lt by lia. done.
Qed.

(** A node just closed is placed. *)
Lemma closed_placed nb t off dpt final order :
  opened nb off dpt t → label t ∉ flattens (subtrees t) → sized nb → label t < n →
  final = off + length (flatten t) - 1 →
  placed (mk_Numbered (nb_pre nb) (<[label t := N.of_nat final]> (nb_last nb)) (nb_level nb) order) off dpt t.
Proof using.
  clear. destruct t as [i ts]. intros (Hp & Hv & Hts) Hout (_ & Hl & _) Hi ->. cbn [label subtrees] in *. cbn.
  split_and!; [done| |done|].
  - by rewrite list_lookup_insert_eq by lia.
  - eapply placed_all_agree; [|exact Hts]. intros y Hy. split_and!; cbn; [done| |done].
    rewrite list_lookup_insert_ne by (intros ->; done). done.
Qed.
(** Numbering the children of [x] in turn comes back to [x]. *)
Lemma walks_all x t ts :
  Forall walks (t :: ts) → ∀ root fuel nb dpt start,
  (∀ t', t' ∈ t :: ts → parent_of x (label t')) → links_to start (map label (t :: ts)) →
  sized nb → nb_level nb !! label t = Some (N.of_nat (S dpt)) → S dpt ≤ length (nb_order nb) →
  length (nb_order nb) + length (flattens (t :: ts)) ≤ n →
  (∀ y, y ∈ flattens (t :: ts) → y ≠ root) → NoDup (flattens (t :: ts)) →
  ∃ nb' climbing, dpt < climbing ∧
    walk_loop (length (flattens (t :: ts)) + fuel) c par root nb (label t) = resume root fuel climbing nb' x ∧
    extends nb nb' (flattens (t :: ts)) ∧ placed_all nb' (length (nb_order nb)) (S dpt) (t :: ts).
Proof using small Hlen.
  revert t. induction ts as [|t2 ts IH]; intros t Hw root fuel nb dpt start Hx Hch Hsz Hlev Hd Hfit Hroot Hnd;
    apply Forall_cons in Hw as [Ht Hw]; destruct Hch as (-> & Hln & after & Hafter & Hch);
    rewrite flattens_cons in *; rewrite length_app in Hfit |- *.
  - change (flattens []) with (@nil nat) in *. rewrite app_nil_r in *. cbn in Hfit |- *. rewrite Nat.add_0_r.
    destruct (Ht root fuel nb (S dpt) Hsz Hlev Hd ltac:(lia)) as (nb1 & cl & Hcl & -> & [Ho Hs1 Hfr] & Hop).
    { intros y Hy. apply Hroot. rewrite flatten_cons. by right. }
    destruct cl as [|cl]; [lia|]. cbn in Hch. subst after.
    assert (Hpos : 0 < length (flatten t)) by (rewrite flatten_cons; cbn; lia).
    rewrite (close_last root fuel cl nb1 x (label t) Hs1); [| |apply Hroot; rewrite flatten_cons; left|done|done|by apply Hx; left].
    2:{ rewrite Ho, length_app, length_fmap. lia. }
    eexists _, cl. split; [lia|]. split; [done|]. split.
    + split; [done| |].
      * destruct Hs1 as (? & ? & ?). split_and!; cbn; [done|by rewrite length_insert|done].
      * intros y Hy. apply agree_trans with nb1; [by apply Hfr|]. split_and!; cbn; [done| |done].
        rewrite list_lookup_insert_ne; [done|]. intros <-. apply Hy. rewrite flatten_cons. left.
    + split; [|done].
      apply (closed_placed nb1 t (length (nb_order nb)) (S dpt) _ _ Hop); [|done|done|by rewrite Ho, length_app, length_fmap].
      rewrite flatten_cons in Hnd. by apply NoDup_cons in Hnd as [? _].
  - pose proof Hnd as (Hnt & Hdis & Hnts)%NoDup_app.
    destruct (Ht root (length (flattens (t2 :: ts)) + fuel) nb (S dpt) Hsz Hlev Hd ltac:(lia))
      as (nb1 & cl & Hcl & Hrun & [Ho Hs1 Hfr] & Hop).
    { intros y Hy. apply Hroot, elem_of_app. left. rewrite flatten_cons. by right. }
    destruct cl as [|cl]; [lia|]. cbn [map] in Hch. pose proof Hch as (-> & Hl2 & _).
    assert (Hin1 : label t ∈ flatten t) by (rewrite flatten_cons; left).
    assert (Hin2 : label t2 ∈ flattens (t2 :: ts)) by (rewrite flattens_cons, flatten_cons; left).
    assert (Hpos : 0 < length (flatten t)) by (rewrite flatten_cons; cbn; lia).
    assert (Hne : label t ≠ label t2) by (intros Heq; apply (Hdis (label t)); [done|by rewrite Heq]).
    pose proof Hop as (_ & Hlv1 & _).
    rewrite <-Nat.add_assoc, Hrun.
    rewrite (close_next root _ cl nb1 (label t) (label t2) (N.of_nat (S dpt)) Hs1); [| | |done..].
    2:{ rewrite Ho, length_app, length_fmap. lia. }
    2:{ apply Hroot, elem_of_app. by left. }
    set (nb2 := mk_Numbered _ _ _ _).
    assert (Hlen2 : length (nb_order nb2) = length (nb_order nb) + length (flatten t)).
    { subst nb2. cbn. by rewrite Ho, length_app, length_fmap. }
    assert (Hfr2 : ∀ y, y ≠ label t → y ≠ label t2 → agree nb1 nb2 y).
    { intros y H1 H2. split_and!; cbn; [done|by rewrite list_lookup_insert_ne|by rewrite list_lookup_insert_ne]. }
    destruct (IH t2 Hw root fuel nb2 dpt (N.of_nat (label t2))) as (nb3 & cl3 & Hcl3 & Hrun3 & [Ho3 Hs3 Hfr3] & Hp3).
    { intros t' Ht'. apply Hx. by right. }
    { exact Hch. }
    { destruct Hs1 as (? & ? & ?). split_and!; cbn; [done|by rewrite length_insert..]. }
    { cbn. apply list_lookup_insert_eq. destruct Hs1 as (_ & _ & ?). lia. }
    { lia. }
    { lia. }
    { intros y Hy. apply Hroot, elem_of_app. by right. }
    { done. }
    exists nb3, cl3. split; [done|]. split; [exact Hrun3|]. split.
    + split; [|done|].
      * rewrite Ho3, fmap_app, app_assoc. f_equal. exact Ho.
      * intros y Hy. rewrite not_elem_of_app in Hy. destruct Hy as [Hy1 Hy2].
        apply agree_trans with nb1; [by apply Hfr|]. apply agree_trans with nb2; [|by apply Hfr3].
        apply Hfr2; [by intros ->|by intros ->].
    + split; [|by rewrite <-Hlen2].
      eapply placed_agree; [|apply (closed_placed nb1 t (length (nb_order nb)) (S dpt)
          (length (nb_order nb1) - 1) [] Hop); [|done|done|by rewrite Ho, length_app, length_fmap]].
      * intros y Hy. apply agree_trans with nb2; [|apply Hfr3; intros Hy'; by apply (Hdis y)].
        split_and!; cbn; [done|done|].
        rewrite list_lookup_insert_ne; [done|]. intros <-. by apply (Hdis (label t2)).
      * rewrite flatten_cons in Hnt. by apply NoDup_cons in Hnt as [? _].
Qed.

(** Every tree of the table is walked. *)
Lemma walks_tree t : hangs t → walks t.
Proof using small Hlen Hpar Hc.
  induction t as [i ts IH] using rtree_ind'. intros Ht root fuel nb dpt Hsz Hlev Hd Hfit Hroot.
  pose proof (NoDup_flatten n small par Hlen rank Hpar _ Ht) as Hnd.
  inversion Ht as [? ? Hi Hkids Hts]; subst.
  destruct Hsz as (Hs1 & Hs2 & Hs3). cbn [label subtrees] in *. rewrite flatten_cons in Hfit |- *. cbn [length] in Hfit |- *.
  cbn [Nat.add walk_loop label subtrees]. rewrite word_eq by lia. rsimpl. rewrite vset_lt by lia. rsimpl.
  rewrite from_index_eq by lia. rsimpl.
  destruct Hc as (Hc1 & Hc2 & Hchains). destruct (Hchains i Hi) as (start & Hstart & Hch).
  rewrite (vget_eq _ _ _ Hstart). rsimpl. rewrite <-Hkids in Hch.
  assert (Hni : i ∉ flattens ts) by (rewrite flatten_cons in Hnd; by apply NoDup_cons in Hnd as [? _]).
  set (pre' := <[i := N.of_nat (length (nb_order nb))]> (nb_pre nb)).
  assert (Hpre : pre' !! i = Some (N.of_nat (length (nb_order nb)))) by by apply list_lookup_insert_eq; lia.
  destruct ts as [|t ts].
  - cbn in Hch. subst start. rewrite decide_True by done.
    exists (mk_Numbered pre' (nb_last nb) (nb_level nb) (nb_order nb ++ [N.of_nat i])), (S (length par)).
    split; [lia|]. split; [done|]. split; [|done]. split; cbn; [done| |].
    + split_and!; cbn; [unfold pre'; by rewrite length_insert|done|done].
    + intros y Hy. split_and!; cbn; [|done..]. apply list_lookup_insert_ne. set_solver.
  - pose proof Hch as (-> & Hl & _). rewrite decide_False by by apply (small_not_absent _ n small).
    rewrite slot_of_nat, (vget_eq _ _ _ Hlev). rsimpl. rewrite u32_add_eq by lia. rsimpl. rewrite vset_lt by lia. rsimpl.
    set (nb1 := mk_Numbered _ _ _ _).
    assert (Hlen1 : length (nb_order nb1) = S (length (nb_order nb))) by (cbn; rewrite length_app; cbn; lia).
    assert (Hne : label t ≠ i).
    { intros Heq. apply Hni. rewrite flattens_cons, flatten_cons, Heq. left. }
    destruct (walks_all i t ts) with (root := root) (fuel := fuel) (nb := nb1) (dpt := dpt) (start := N.of_nat (label t))
      as (nb' & cl & Hcl & Hrun & [Ho Hs Hfr] & Hp).
    { apply Forall_forall. intros t' Ht'. rewrite Forall_forall in IH, Hts. auto. }
    { intros t' Ht'. apply (elem_of_kids n small par Hlen rank Hpar); [done|]. rewrite <-Hkids.
      apply list_elem_of_In, in_map, list_elem_of_In. done. }
    { exact Hch. }
    { split_and!; cbn; [unfold pre'|..]; by rewrite ?length_insert. }
    { cbn. rewrite list_lookup_insert_eq by lia. f_equal. lia. }
    { lia. }
    { cbn [subtrees] in Hfit. lia. }
    { done. }
    { rewrite flatten_cons in Hnd. by apply NoDup_cons in Hnd as [_ ?]. }
    exists nb', cl. split; [done|]. split; [exact Hrun|].
    destruct (Hfr i Hni) as (Hfp & Hfl & Hfv). split.
    + split; [|done|].
      * rewrite Ho. cbn. by rewrite <-app_assoc.
      * intros y [Hyi Hy]%not_elem_of_cons. apply agree_trans with nb1; [|by apply Hfr].
        split_and!; cbn; [by apply list_lookup_insert_ne|done|]. apply list_lookup_insert_ne.
        intros <-. apply Hy. rewrite flattens_cons, flatten_cons. left.
    + split_and!; cbn [label subtrees].
      * rewrite Hfp. exact Hpre.
      * rewrite Hfv. cbn. by rewrite list_lookup_insert_ne.
      * by rewrite <-Hlen1.
Qed.

(** Walking a whole tree of the forest. *)
Lemma walk_spec t nb :
  hangs t → sized nb → length (nb_order nb) + length (flatten t) ≤ n →
  ∃ nb', walk c par nb (N.of_nat (label t)) = Ok nb' ∧ extends nb nb' (flatten t) ∧
    placed nb' (length (nb_order nb)) 0 t.
Proof using small Hlen Hpar Hc.
  intros Ht Hsz Hfit. pose proof (hangs_label _ _ _ Ht) as Hl.
  pose proof (NoDup_flatten n small par Hlen rank Hpar _ Ht) as Hnd. rewrite flatten_cons in Hnd.
  apply NoDup_cons in Hnd as [Hout _]. destruct Hsz as (Hs1 & Hs2 & Hs3).
  unfold walk. rewrite slot_of_nat, vset_lt by lia. rsimpl. set (nb0 := mk_Numbered _ _ _ _).
  destruct (walks_tree t Ht (label t) (S (length par) - length (flatten t)) nb0 0)
    as (nb1 & cl & Hcl & Hrun & [Ho Hs Hfr] & Hop).
  { by split_and!; cbn; rewrite ?length_insert. }
  { cbn. by rewrite list_lookup_insert_eq by lia. }
  { lia. }
  { done. }
  { intros y Hy ->. done. }
  replace (length (flatten t) + (S (length par) - length (flatten t))) with (S (length par)) in Hrun by lia.
  rewrite Hrun. unfold resume. destruct cl as [|cl]; [lia|]. cbn [climb].
  assert (Hpos : 0 < length (flatten t)) by (rewrite flatten_cons; cbn; lia).
  assert (Hl1 : length (nb_order nb1) = length (nb_order nb) + length (flatten t)).
  { by rewrite Ho, length_app, length_fmap. }
  destruct Hs as (Hp1 & Hp2 & Hp3). rewrite word_eq by lia. rsimpl. rewrite vset_lt by lia. rsimpl.
  rewrite decide_True by done. rsimpl. eexists. split; [done|]. split.
  - split; [done|by split_and!; cbn; rewrite ?length_insert|]. intros y Hy.
    assert (Hne : label t ≠ y) by (intros <-; apply Hy; rewrite flatten_cons; left).
    apply agree_trans with nb0; [split_and!; cbn; [done|done|by apply list_lookup_insert_ne]|].
    apply agree_trans with nb1; [by apply Hfr|]. split_and!; cbn; [done|by apply list_lookup_insert_ne|done].
  - apply closed_placed; [done|done|done|done|lia].
Qed.

(** Walking the trees [ts] in turn. *)
Lemma walk_all ts nb :
  Forall hangs ts → NoDup (flattens ts) → sized nb → length (nb_order nb) + length (flattens ts) ≤ n →
  ∃ nb', rfold (walk c par) nb (N.of_nat <$> map label ts) = Ok nb' ∧ extends nb nb' (flattens ts) ∧
    placed_all nb' (length (nb_order nb)) 0 ts.
Proof using small Hlen Hpar Hc.
  revert nb. induction ts as [|t ts IH]; intros nb Hts Hnd Hsz Hfit.
  { exists nb. split; [done|]. split; [|done]. split; [cbn; by rewrite app_nil_r|done|done]. }
  apply Forall_cons in Hts as [Ht Hts]. rewrite flattens_cons in *. rewrite length_app in Hfit.
  apply NoDup_app in Hnd as (Hn1 & Hdis & Hn2). cbn [map fmap list_fmap rfold].
  destruct (walk_spec t nb Ht Hsz ltac:(lia)) as (nb1 & -> & [Ho Hs Hfr] & Hp). rsimpl.
  assert (Hl1 : length (nb_order nb1) = length (nb_order nb) + length (flatten t)).
  { by rewrite Ho, length_app, length_fmap. }
  destruct (IH nb1 Hts Hn2 Hs ltac:(lia)) as (nb2 & -> & [Ho2 Hs2 Hfr2] & Hp2).
  exists nb2. split; [done|]. split.
  - split; [by rewrite Ho2, Ho, fmap_app, app_assoc|done|]. intros y [Hy1 Hy2]%not_elem_of_app.
    apply agree_trans with nb1; auto.
  - split; [|by rewrite <-Hl1]. eapply placed_agree; [|exact Hp]. intros y Hy. apply Hfr2. by apply Hdis.
Qed.

(** [number] lays the trees of its roots out one after the other. *)
Lemma number_forest_spec ts :
  chain_children par = Ok c → Forall hangs ts → NoDup (flattens ts) →
  ∃ nb, number_forest par (N.of_nat <$> map label ts) (length (flattens ts)) = Ok (c, nb) ∧
    nb_order nb = N.of_nat <$> flattens ts ∧ sized nb ∧ placed_all nb 0 0 ts ∧
    ∀ y, y < n → y ∉ flattens ts → nb_pre nb !! y = Some ABSENT.
Proof using small Hlen Hpar Hc.
  intros Hchain Hts Hnd. unfold number_forest. rewrite Hchain. rsimpl.
  assert (Hfit : length (flattens ts) ≤ n).
  { apply NoDup_length_below; [done|]. intros y (t & Ht & Hy)%elem_of_flattens.
    rewrite Forall_forall in Hts. apply (elem_of_flatten n small par Hlen rank Hpar) in Hy; [|auto].
    apply (above_lt n small par Hlen rank Hpar) in Hy; [done|]. by apply (hangs_label n par), Hts. }
  set (nb0 := mk_Numbered _ _ _ _).
  destruct (walk_all ts nb0 Hts Hnd) as (nb & -> & [Ho Hs Hfr] & Hp).
  { by split_and!; cbn; rewrite length_replicate. }
  { done. }
  rsimpl. exists nb. rewrite Ho. cbn. rewrite length_fmap, bool_decide_true by done. rsimpl.
  split_and!; [done|done|apply Hs..|exact Hp|]. intros y Hy Hout. destruct (Hfr y Hout) as (-> & _).
  cbn. by apply lookup_replicate_2; lia.
Qed.
End Number.
