(* ===== verification/DomTree.v ===== *)
(** * Queries on a numbered forest

    The queries of [graph/dominator.rs] over a tree whose tables number the
    forest of its parent table: reachability is membership, dominance is the
    ancestor relation, and subtrees and children are read off the preorder. *)

From S2P Require Import Prelude Ids Scc Dominator DomSearch DomNumber.

Section Tree.
Context (n : nat) (small : (N.of_nat n ≤ U32_MAX)%N) (t : DominatorTree) (ts : list rtree).
Notation par := (dt_idom t).
Context (Hlen : length par = n) (rank : nat → nat).
Context (Hpar : ∀ i p, par !! i = Some p → p = ABSENT ∨ ∃ j, p = N.of_nat j ∧ j < n ∧ rank j < rank i).
Notation above := (above n par).
Notation parent_of := (parent_of n par).
Notation nb := (mk_Numbered (dt_pre t) (dt_last t) (dt_level t) (dt_order t)).

(** [t] numbers the forest [ts] of its parent table, whose roots have no
    parent. *)
Record numbers : Prop := {
  nf_hangs : Forall (hangs n par) ts;
  nf_nodup : NoDup (flattens ts);
  nf_order : dt_order t = N.of_nat <$> flattens ts;
  nf_sized : sized n nb;
  nf_placed : placed_all nb 0 0 ts;
  nf_absent : ∀ y, y < n → y ∉ flattens ts → dt_pre t !! y = Some ABSENT;
  nf_roots : ∀ t', t' ∈ ts → par !! label t' = Some ABSENT;
}.
Context (HN : numbers).

(** In some tree of the forest. *)
Definition within (x : nat) : Prop := x ∈ flattens ts.

Lemma within_lt x : within x → x < n.
Proof using small Hlen Hpar HN.
  intros (t' & Ht & Hx)%elem_of_flattens. pose proof (nf_hangs HN) as Hh. rewrite Forall_forall in Hh.
  apply (elem_of_flatten n small par Hlen rank Hpar) in Hx; [|auto].
  apply (above_lt n small par Hlen rank Hpar) in Hx; [done|]. by apply (hangs_label n par), Hh.
Qed.

Lemma within_above a x : above a x → a < n → within a → within x.
Proof using small Hlen Hpar HN.
  intros Hax Ha (t' & Ht & Ha')%elem_of_flattens. apply elem_of_flattens. exists t'. split; [done|].
  pose proof (nf_hangs HN) as Hh. rewrite Forall_forall in Hh.
  apply (elem_of_flatten n small par Hlen rank Hpar) in Ha'; [|auto].
  apply (elem_of_flatten n small par Hlen rank Hpar); [auto|]. by etrans.
Qed.

(** An ancestor of a node of the forest is one too. *)
Lemma above_within a x : above a x → within x → within a.
Proof using small Hlen Hpar HN.
  intros Hax (t' & Ht & Hx)%elem_of_flattens. apply elem_of_flattens. exists t'. split; [done|].
  pose proof (nf_hangs HN) as Hh. rewrite Forall_forall in Hh.
  apply (elem_of_flatten n small par Hlen rank Hpar) in Hx; [|auto].
  apply (elem_of_flatten n small par Hlen rank Hpar); [auto|].
  destruct (above_chain n small par Hlen a (label t') x Hax Hx) as [H|H]; [|done].
  apply above_last in H as [->|(p & _ & Hp & Hl)]; [constructor|].
  rewrite (nf_roots HN t' Ht) in Hl. injection Hl as Hl. by destruct (small_not_absent p n small Hp).
Qed.

(** The tree at a node of the forest, and where its numbers start. *)
Lemma placed_sub (u : rtree) off dpt y :
  hangs n par u → placed nb off dpt u → y ∈ flatten u →
  ∃ l1 t' l2 d, flatten u = l1 ++ flatten t' ++ l2 ∧ label t' = y ∧ hangs n par t' ∧ placed nb (off + length l1) d t' ∧ d ≤ dpt + length l1.
Proof using.
  clear. revert off dpt. induction u as [i us IH] using rtree_ind'. intros off dpt Hh Hp Hy.
  rewrite flatten_cons in Hy. apply elem_of_cons in Hy as [->|Hy].
  { exists [], (rnode i us), [], dpt. rewrite app_nil_r. cbn [app length label].
    split_and!; [done..|by rewrite Nat.add_0_r|lia]. }
  rewrite flatten_cons. cbn [label subtrees] in *.
  inversion Hh as [? ? _ _ Hus]; subst. destruct Hp as (_ & _ & _ & Hp).
  cut (∃ l1 t' l2 d, flattens us = l1 ++ flatten t' ++ l2 ∧ label t' = y ∧ hangs n par t' ∧ placed nb (S off + length l1) d t' ∧
    d ≤ S dpt + length l1).
  { intros (l1 & t' & l2 & d & -> & ? & ? & ? & ?). exists (i :: l1), t', l2, d. split_and!; [done..| |cbn; lia]. cbn [length].
    by rewrite Nat.add_succ_r. }
  clear Hh. revert Hp Hy. generalize (S off) as o. induction us as [|u us IHus]; intros o Hp Hy; [by apply elem_of_nil in Hy|].
  apply Forall_cons in IH as [Hu IH]. apply Forall_cons in Hus as [Hhu Hus]. destruct Hp as [Hpu Hp].
  rewrite flattens_cons in *. apply elem_of_app in Hy as [Hy|Hy].
  - destruct (Hu o (S dpt) Hhu Hpu Hy) as (l1 & t' & l2 & d & -> & ? & ? & ? & ?).
    exists l1, t', (l2 ++ flattens us), d. rewrite <-!app_assoc. done.
  - destruct (IHus IH Hus _ Hp Hy) as (l1 & t' & l2 & d & -> & ? & ? & ? & ?).
    exists (flatten u ++ l1), t', l2, d. rewrite length_app, <-app_assoc, !Nat.add_assoc. split_and!; [done..|lia].
Qed.

Lemma placed_all_sub us off dpt y :
  Forall (hangs n par) us → placed_all nb off dpt us → y ∈ flattens us →
  ∃ l1 t' l2 d, flattens us = l1 ++ flatten t' ++ l2 ∧ label t' = y ∧ hangs n par t' ∧ placed nb (off + length l1) d t' ∧ d ≤ dpt + length l1.
Proof using.
  clear. revert off. induction us as [|u us IH]; intros off Hh Hp Hy; [by apply elem_of_nil in Hy|].
  apply Forall_cons in Hh as [Hhu Hh]. destruct Hp as [Hpu Hp]. rewrite flattens_cons in *.
  apply elem_of_app in Hy as [Hy|Hy].
  - destruct (placed_sub u off dpt y Hhu Hpu Hy) as (l1 & t' & l2 & d & -> & ? & ? & ? & ?).
    exists l1, t', (l2 ++ flattens us), d. rewrite <-!app_assoc. done.
  - destruct (IH _ Hh Hp Hy) as (l1 & t' & l2 & d & -> & ? & ? & ? & ?).
    exists (flatten u ++ l1), t', l2, d. rewrite length_app, <-app_assoc, !Nat.add_assoc. split_and!; [done..|lia].
Qed.

(** The tree at [y]: the preorder is [l1], then its nodes, then [l2]. *)
Record tree_at (y : nat) (l1 : list nat) (t' : rtree) (l2 : list nat) (d : nat) : Prop := {
  ta_split : flattens ts = l1 ++ flatten t' ++ l2;
  ta_label : label t' = y;
  ta_hangs : hangs n par t';
  ta_pre : dt_pre t !! y = Some (N.of_nat (length l1));
  ta_last : dt_last t !! y = Some (N.of_nat (length l1 + length (flatten t') - 1));
  ta_level : dt_level t !! y = Some (N.of_nat d);
  ta_depth : d ≤ length l1;
  ta_kids : placed_all nb (S (length l1)) (S d) (subtrees t');
}.

Lemma within_tree y : within y → ∃ l1 t' l2 d, tree_at y l1 t' l2 d.
Proof using HN.
  intros Hy. destruct (placed_all_sub ts 0 0 y (nf_hangs HN) (nf_placed HN) Hy) as (l1 & t' & l2 & d & Hs & Hl & Hh & Hp & Hd).
  exists l1, t', l2, d. destruct t' as [i us]. cbn [label] in Hl. subst i. destruct Hp as (H1 & H2 & H3 & H4). by split.
Qed.

Lemma order_below : length (flattens ts) ≤ n.
Proof using small Hlen Hpar HN. apply NoDup_length_below; [apply (nf_nodup HN)|]. apply within_lt. Qed.

(** A node's position is its number. *)
Lemma pre_position y : within y → ∃ k, flattens ts !! k = Some y ∧ dt_pre t !! y = Some (N.of_nat k) ∧ k < n.
Proof using small Hlen Hpar HN.
  intros Hy. destruct (within_tree y Hy) as (l1 & t' & l2 & d & [Hs Hl _ Hp _ _ _ _]). exists (length l1).
  assert (Hat : flattens ts !! length l1 = Some y).
  { rewrite Hs, lookup_app_r, Nat.sub_diag, flatten_cons, Hl by done. done. }
  split_and!; [done..|]. apply lookup_lt_Some in Hat. pose proof order_below. lia.
Qed.

Lemma is_reachable_spec y : y < n → ∃ b, is_reachable t (N.of_nat y) = Ok b ∧ (b = true ↔ within y).
Proof using small Hlen Hpar HN.
  intros Hy. unfold is_reachable, index. rewrite Nat2N.id. destruct (decide (y ∈ flattens ts)) as [Hin|Hout].
  - destruct (pre_position y Hin) as (k & _ & Hk & Hkn). rewrite (vget_eq _ _ _ Hk). rsimpl.
    eexists. split; [done|]. rewrite bool_decide_true by by apply (small_not_absent k n small). done.
  - rewrite (vget_eq _ _ _ (nf_absent HN y Hy Hout)). rsimpl. eexists. split; [done|].
    rewrite bool_decide_false by tauto. done.
Qed.

(** The positions of a subtree are those from its root's number to its last. *)
Lemma span_above y l1 t' l2 d x k :
  tree_at y l1 t' l2 d → flattens ts !! k = Some x →
  above y x ↔ length l1 ≤ k ≤ length l1 + length (flatten t') - 1.
Proof using small Hlen Hpar HN.
  intros [Hs Hl Hh _ _ _ _ _] Hk. rewrite <-Hl, <-(elem_of_flatten n small par Hlen rank Hpar t' x Hh).
  assert (Hpos : 0 < length (flatten t')) by (rewrite flatten_cons; cbn; lia). split.
  - intros [j Hj]%list_elem_of_lookup. pose proof (lookup_lt_Some _ _ _ Hj).
    assert (k = length l1 + j) as ->; [|lia]. apply (NoDup_lookup _ _ _ x (nf_nodup HN)); [done|].
    rewrite Hs, lookup_app_r by lia. replace (length l1 + j - length l1) with j by lia. by apply lookup_app_l_Some.
  - intros Hr. apply (list_elem_of_lookup_2 _ (k - length l1)). rewrite Hs, lookup_app_r in Hk by lia.
    by rewrite lookup_app_l in Hk by lia.
Qed.

(** [dominates] is the ancestor relation, and equality outside the forest. *)
Lemma dominates_spec a x :
  a < n → x < n → ∃ b, dominates t (N.of_nat a) (N.of_nat x) = Ok b ∧ (b = true ↔ a = x ∨ (within x ∧ above a x)).
Proof using small Hlen Hpar HN.
  intros Ha Hx. unfold dominates. case_decide as Heq.
  { exists true. split; [done|]. split; [|done]. left. lia. }
  assert (Hne : a ≠ x) by (intros ->; done). unfold index. rewrite !Nat2N.id.
  destruct (decide (a ∈ flattens ts)) as [Hain|Haout].
  2:{ rewrite (vget_eq _ _ _ (nf_absent HN a Ha Haout)). rsimpl.
      assert (Hp : ∃ p, dt_pre t !! x = Some p).
      { apply lookup_lt_is_Some_2. destruct (nf_sized HN) as (Hl & _). cbn in Hl. lia. }
      destruct Hp as [p Hp]. rewrite (vget_eq _ _ _ Hp). rsimpl. rewrite decide_False by tauto.
      exists false. split; [done|]. split; [done|]. intros [|[Hxin Hax]]; [done|]. by apply (above_within a x) in Hxin. }
  destruct (within_tree a Hain) as (l1 & t' & l2 & d & Hta). rewrite (vget_eq _ _ _ (ta_pre _ _ _ _ _ Hta)). rsimpl.
  assert (Hapos : length l1 < n).
  { destruct (pre_position a Hain) as (k & _ & Hk & Hkn). rewrite (ta_pre _ _ _ _ _ Hta) in Hk. injection Hk as Hk. lia. }
  destruct (decide (x ∈ flattens ts)) as [Hxin|Hxout].
  2:{ rewrite (vget_eq _ _ _ (nf_absent HN x Hx Hxout)). rsimpl. rewrite decide_False by tauto.
      exists false. split; [done|]. split; [done|]. intros [|[Hin _]]; done. }
  destruct (pre_position x Hxin) as (k & Hk & Hkp & Hkn). rewrite (vget_eq _ _ _ Hkp). rsimpl.
  pose proof (span_above a l1 t' l2 d x k Hta Hk) as Hiff.
  pose proof (small_not_absent k n small Hkn). pose proof (small_not_absent _ n small Hapos).
  assert (Hab : above a x → within x ∧ above a x) by done.
  case_decide as Hcond.
  - rewrite (vget_eq _ _ _ (ta_last _ _ _ _ _ Hta)). rsimpl. eexists. split; [done|].
    rewrite bool_decide_eq_true. split.
    + intros Hle. right. apply Hab, Hiff. lia.
    + intros [|[_ Hax]]; [done|]. apply Hiff in Hax. lia.
  - exists false. split; [done|]. split; [done|]. intros [|[_ Hax]]; [done|]. apply Hiff in Hax.
    destruct Hcond. split_and!; [done..|lia].
Qed.

Lemma idom_spec x :
  x < n → ∃ r, idom t (N.of_nat x) = Ok r ∧ ∀ d, r = Some d ↔ index d < n ∧ parent_of (index d) x.
Proof using small Hlen Hpar.
  intros Hx. unfold idom, index. rewrite Nat2N.id.
  destruct (lookup_lt_is_Some_2 par x ltac:(lia)) as [p Hp]. rewrite (vget_eq _ _ _ Hp). rsimpl.
  destruct (Hpar x p Hp) as [->|(j & -> & Hj & _)].
  - rewrite decide_True by done. exists None. split; [done|]. intros d. split; [done|]. intros [Hd [_ Hpd]].
    rewrite Hp in Hpd. injection Hpd as Hpd. by destruct (small_not_absent _ n small Hd).
  - rewrite decide_False by by apply (small_not_absent j n small). rewrite slot_of_nat, from_index_eq by lia. rsimpl.
    eexists. split; [done|]. intros d. unfold DomNumber.parent_of. rewrite Hp. split.
    + intros [= <-]. rewrite Nat2N.id. done.
    + intros (_ & _ & [= Hpd]). f_equal. lia.
Qed.
(** ** Levels *)

Lemma laid_elem P off dpt us u : laid P off dpt us → u ∈ us → ∃ o, P o dpt u.
Proof using.
  clear. revert off. induction us as [|v us IH]; intros off Hp Hu; [by apply elem_of_nil in Hu|].
  destruct Hp as [Hv Hp]. apply elem_of_cons in Hu as [->|Hu]; [by exists off|by apply (IH _ Hp)].
Qed.

Lemma placed_level off dpt u : placed nb off dpt u → dt_level t !! label u = Some (N.of_nat dpt).
Proof using. clear. destruct u. by intros (_ & _ & ? & _). Qed.

Lemma level_parent a b :
  parent_of a b → within b → ∃ d, dt_level t !! a = Some (N.of_nat d) ∧ dt_level t !! b = Some (N.of_nat (S d)).
Proof using small Hlen Hpar HN.
  intros Hab Hb. assert (Ha : within a) by (apply (above_within a b); [by apply rtc_once|done]).
  destruct (within_tree a Ha) as (l1 & t' & l2 & d & [_ Hl Hh _ _ Hlv _ Hk]). exists d. split; [done|].
  assert (Hin : b ∈ map label (subtrees t')).
  { destruct Hh as [i us Hi Hkids _]. cbn in Hl |- *. subst i. rewrite Hkids.
    by apply (elem_of_kids n small par Hlen rank Hpar). }
  apply list_elem_of_In, in_map_iff in Hin as (u & <- & Hu%list_elem_of_In).
  destruct (laid_elem _ _ _ _ _ Hk Hu) as [o Ho]. by apply placed_level in Ho.
Qed.

Lemma level_root b : par !! b = Some ABSENT → within b → dt_level t !! b = Some (N.of_nat 0).
Proof using small Hlen Hpar HN.
  intros Hb (t' & Ht & Hx)%elem_of_flattens. pose proof (nf_hangs HN) as Hh. rewrite Forall_forall in Hh.
  apply (elem_of_flatten n small par Hlen rank Hpar) in Hx; [|auto].
  apply above_last in Hx as [<-|(p & _ & Hp & He)].
  - destruct (laid_elem _ _ _ _ _ (nf_placed HN) Ht) as [o Ho]. by apply placed_level in Ho.
  - rewrite Hb in He. injection He as He. by destruct (small_not_absent p n small Hp).
Qed.

(** Every node of the forest has a level, below the node count. *)
Lemma level_bound y : within y → ∃ d, dt_level t !! y = Some (N.of_nat d) ∧ d < n.
Proof using small Hlen Hpar HN.
  intros Hy. destruct (within_tree y Hy) as (l1 & t' & l2 & d & Ht). exists d.
  split; [apply Ht|]. pose proof (ta_depth _ _ _ _ _ Ht). pose proof order_below as Hb.
  rewrite (ta_split _ _ _ _ _ Ht), !length_app, flatten_cons in Hb. cbn in Hb. lia.
Qed.

Lemma above_level a b da db :
  above a b → within b → dt_level t !! a = Some (N.of_nat da) → dt_level t !! b = Some (N.of_nat db) →
  a = b ∨ da < db.
Proof using small Hlen Hpar HN.
  intros Hab. revert da. induction Hab as [a|a c b Hac Hcb IH]; intros da Hb Ha Hlb; [by left|right].
  assert (Hc : within c) by by apply (above_within c b).
  destruct (level_parent a c Hac Hc) as (d & Hd & Hc'). rewrite Ha in Hd. injection Hd as Hd.
  destruct (IH (S d) Hb Hc' Hlb) as [->|]; [|lia]. rewrite Hc' in Hlb. injection Hlb as Hlb. lia.
Qed.

(** ** Nearest common dominators *)

(** [r] is the deepest common ancestor of [x] and [y], if there is one. *)
Definition nearest_common (x y : nat) (r : option Id) : Prop :=
  match r with
  | Some m => above (index m) x ∧ above (index m) y ∧ ∀ a, above a x → above a y → above a (index m)
  | None => ∀ a, above a x → ¬ above a y
  end.

Lemma nearest_common_eq x y x' y' r :
  (∀ a, above a x ∧ above a y ↔ above a x' ∧ above a y') → nearest_common x y r → nearest_common x' y' r.
Proof using.
  clear. intros Heq. destruct r as [m|]; cbn.
  - intros (H1 & H2 & H3). destruct (proj1 (Heq (index m)) (conj H1 H2)). split_and!; [done..|].
    intros a H4 H5. destruct (proj2 (Heq a) (conj H4 H5)). auto.
  - intros H a H4 H5. destruct (proj2 (Heq a) (conj H4 H5)). by apply (H a).
Qed.

(** A node below the root level has its parent in the table. *)
Lemma level_up x d :
  within x → dt_level t !! x = Some (N.of_nat (S d)) →
  ∃ p, par !! x = Some (N.of_nat p) ∧ parent_of p x ∧ within p ∧ dt_level t !! p = Some (N.of_nat d) ∧
    ∀ a, above a p ↔ above a x ∧ a ≠ x.
Proof using small Hlen Hpar HN.
  intros Hx Hl. pose proof (within_lt x Hx). destruct (lookup_lt_is_Some_2 par x ltac:(lia)) as [w Hw].
  destruct (Hpar x w Hw) as [->|(p & -> & Hp & _)].
  { rewrite (level_root x Hw Hx) in Hl. injection Hl as Hl. lia. }
  assert (Hpx : parent_of p x) by done. destruct (level_parent p x Hpx Hx) as (d' & Hd' & Hx').
  rewrite Hl in Hx'. injection Hx' as Hx'. assert (d' = d) as -> by lia.
  exists p. split_and!; [done..| |done|].
  - apply (above_within p x); [by apply rtc_once|done].
  - intros a. split.
    + intros Hap. split; [by eapply rtc_r|]. intros ->. pose proof (parent_rank n small par Hlen rank Hpar p x Hpx).
      pose proof (above_rank n small par Hlen rank Hpar x p ltac:(done) Hap). lia.
    + intros [[->|(q & Haq & Hq)]%above_last Hne]; [done|]. by rewrite <-(parent_inj n small par Hlen q p x Hq Hpx).
Qed.

Lemma meet_climb_spec fuel x y dx dy :
  within x → within y → dt_level t !! x = Some (N.of_nat dx) → dt_level t !! y = Some (N.of_nat dy) →
  dx + dy < fuel → ∃ r, meet_climb fuel t x y = Ok r ∧ nearest_common x y r.
Proof using small Hlen Hpar HN.
  revert x y dx dy. induction fuel as [|fuel IH]; intros x y dx dy Hx Hy Hlx Hly Hf; [lia|].
  cbn [meet_climb]. case_decide as Heq.
  { subst y. pose proof (within_lt x Hx). rewrite from_index_eq by lia. rsimpl. eexists. split; [done|].
    cbn. unfold index. rewrite Nat2N.id. split_and!; [constructor|constructor|done]. }
  rewrite (vget_eq _ _ _ Hlx). rsimpl. rewrite (vget_eq _ _ _ Hly). rsimpl.
  assert (Hcommon : ∀ a, above a x → above a y → (dy ≤ dx → a ≠ x) ∧ (dx ≤ dy → a ≠ y)).
  { intros a Hax Hay. split; intros Hle ->.
    - destruct (above_level x y dx dy Hay Hy Hlx Hly) as [|]; [done|lia].
    - destruct (above_level y x dy dx Hax Hx Hly Hlx) as [|]; [done|lia]. }
  destruct (N.compare_spec (N.of_nat dx) (N.of_nat dy)) as [Hc|Hc|Hc].
  - assert (dx = dy) as <- by lia. destruct dx as [|dx].
    + pose proof (within_lt x Hx). destruct (lookup_lt_is_Some_2 par x ltac:(lia)) as [w Hw].
      assert (w = ABSENT) as ->.
      { destruct (Hpar x w Hw) as [|(p & -> & Hp & _)]; [done|].
        destruct (level_parent p x) as (d & _ & Hd); [done|done|]. rewrite Hlx in Hd. injection Hd as Hd. lia. }
      rewrite (vget_eq _ _ _ Hw). rsimpl. rewrite decide_True by done. eexists. split; [done|].
      intros a Hax Hay. destruct (Hcommon a Hax Hay) as [Hne _]. specialize (Hne ltac:(lia)).
      apply above_last in Hax as [|(p & _ & Hp & He)]; [done|]. rewrite Hw in He. injection He as He.
      by destruct (small_not_absent p n small Hp).
    + destruct (level_up x dx Hx Hlx) as (p & Hpx & [Hpn _] & Hpw & Hpl & Hpa).
      destruct (level_up y dx Hy Hly) as (q & Hqy & _ & Hqw & Hql & Hqa).
      rewrite (vget_eq _ _ _ Hpx). rsimpl. rewrite decide_False by by apply (small_not_absent p n small).
      rewrite (vget_eq _ _ _ Hqy). rsimpl. rewrite !slot_of_nat.
      destruct (IH p q dx dx Hpw Hqw Hpl Hql ltac:(lia)) as (r & -> & Hr). exists r. split; [done|].
      eapply nearest_common_eq; [|exact Hr]. intros a. rewrite Hpa, Hqa. split; [tauto|].
      intros [Hax Hay]. destruct (Hcommon a Hax Hay) as [H1 H2]. specialize (H1 ltac:(lia)). specialize (H2 ltac:(lia)). tauto.
  - destruct dy as [|dy]; [lia|]. destruct (level_up y dy Hy Hly) as (q & Hqy & _ & Hqw & Hql & Hqa).
    rewrite (vget_eq _ _ _ Hqy). rsimpl. rewrite slot_of_nat.
    destruct (IH x q dx dy Hx Hqw Hlx Hql ltac:(lia)) as (r & -> & Hr). exists r. split; [done|].
    eapply nearest_common_eq; [|exact Hr]. intros a. rewrite Hqa. split; [tauto|].
    intros [Hax Hay]. destruct (Hcommon a Hax Hay) as [_ H2]. specialize (H2 ltac:(lia)). tauto.
  - destruct dx as [|dx]; [lia|]. destruct (level_up x dx Hx Hlx) as (p & Hpx & _ & Hpw & Hpl & Hpa).
    rewrite (vget_eq _ _ _ Hpx). rsimpl. rewrite slot_of_nat.
    destruct (IH p y dx dy Hpw Hy Hpl Hly ltac:(lia)) as (r & -> & Hr). exists r. split; [done|].
    eapply nearest_common_eq; [|exact Hr]. intros a. rewrite Hpa. split; [tauto|].
    intros [Hax Hay]. destruct (Hcommon a Hax Hay) as [H1 _]. specialize (H1 ltac:(lia)). tauto.
Qed.

Lemma nearest_common_dominator_spec x y :
  x < n → y < n → ∃ r, nearest_common_dominator t (N.of_nat x) (N.of_nat y) = Ok r ∧
    (within x → within y → nearest_common x y r) ∧ (¬ (within x ∧ within y) → r = None).
Proof using small Hlen Hpar HN.
  intros Hx Hy. unfold nearest_common_dominator, index. rewrite !Nat2N.id.
  assert (Hpre : ∀ z, z < n → ∃ p, dt_pre t !! z = Some p ∧ (p = ABSENT ↔ ¬ within z)).
  { intros z Hz. destruct (decide (z ∈ flattens ts)) as [Hin|Hout].
    - destruct (pre_position z Hin) as (k & _ & Hk & Hkn). exists (N.of_nat k). split; [done|].
      pose proof (small_not_absent k n small Hkn). tauto.
    - exists ABSENT. split; [by apply (nf_absent HN)|]. tauto. }
  destruct (Hpre x Hx) as (p & Hp & Hpw). rewrite (vget_eq _ _ _ Hp). rsimpl. case_decide as H1.
  { exists None. split; [done|]. tauto. }
  destruct (Hpre y Hy) as (q & Hq & Hqw). rewrite (vget_eq _ _ _ Hq). rsimpl. case_decide as H2.
  { exists None. split; [done|]. tauto. }
  assert (Hxw : within x) by (destruct (decide (x ∈ flattens ts)); tauto).
  assert (Hyw : within y) by (destruct (decide (y ∈ flattens ts)); tauto).
  destruct (level_bound x Hxw) as (dx & Hdx & ?). destruct (level_bound y Hyw) as (dy & Hdy & ?).
  destruct (meet_climb_spec (S (2 * length par)) x y dx dy Hxw Hyw Hdx Hdy ltac:(lia)) as (r & -> & Hr).
  exists r. split; [done|]. split; [done|tauto].
Qed.
(** ** Subtrees and children *)

Lemma subtree_spec y : y < n → ∃ l, subtree t (N.of_nat y) = Ok l ∧
  (within y → ∃ l1 t' l2 d, tree_at y l1 t' l2 d ∧ l = N.of_nat <$> flatten t') ∧ (¬ within y → l = []).
Proof using small Hlen Hpar HN.
  intros Hy. unfold subtree, span, index. rewrite Nat2N.id. destruct (decide (y ∈ flattens ts)) as [Hin|Hout].
  - destruct (within_tree y Hin) as (l1 & t' & l2 & d & Ht).
    destruct (pre_position y Hin) as (k & _ & Hk & Hkn). rewrite (vget_eq _ _ _ Hk). rsimpl.
    rewrite decide_False by by apply (small_not_absent k n small).
    rewrite (ta_pre _ _ _ _ _ Ht) in Hk. injection Hk as Hk. assert (k = length l1) as -> by lia.
    rewrite (vget_eq _ _ _ (ta_last _ _ _ _ _ Ht)). rsimpl. rewrite !slot_of_nat.
    assert (Hpos : 0 < length (flatten t')) by (rewrite flatten_cons; cbn; lia).
    unfold vslice. rewrite (nf_order HN), (ta_split _ _ _ _ _ Ht), length_fmap, !length_app.
    rewrite decide_True by lia. eexists. split; [done|]. split; [|done]. intros _. exists l1, t', l2, d. split; [done|].
    rewrite !fmap_app, drop_app_length', take_app_length' by (rewrite length_fmap; lia). done.
  - rewrite (vget_eq _ _ _ (nf_absent HN y Hy Hout)). rsimpl. rewrite decide_True by done. rsimpl.
    exists []. split; [|tauto]. unfold vslice. rewrite decide_True by lia. by rewrite take_0.
Qed.

(** The walk over consecutive trees meets their roots. *)
Lemma children_from_spec us l1 l2 dpt fuel :
  flattens ts = l1 ++ flattens us ++ l2 → laid (placed nb) (length l1) dpt us → length us < fuel →
  children_from fuel t (length l1) (length l1 + length (flattens us)) = Ok (N.of_nat <$> map label us).
Proof using small Hlen HN.
  revert l1 fuel. induction us as [|u us IH]; intros l1 fuel Hs Hp Hf; (destruct fuel as [|fuel]; [cbn in Hf; lia|]);
    cbn [children_from].
  { cbn. rewrite decide_False by lia. done. }
  destruct Hp as [Hu Hp]. rewrite flattens_cons in *. pose proof (flatten_cons u) as Hfu.
  rewrite decide_True by (rewrite length_app, Hfu; cbn; lia).
  assert (Hat : dt_order t !! length l1 = Some (N.of_nat (label u))).
  { rewrite (nf_order HN), Hs, list_lookup_fmap, lookup_app_r, Nat.sub_diag, Hfu by done. done. }
  rewrite (vget_eq _ _ _ Hat). rsimpl. unfold index. rewrite Nat2N.id.
  assert (Hlast : dt_last t !! label u = Some (N.of_nat (length l1 + length (flatten u) - 1))).
  { destruct u. by destruct Hu as (_ & ? & _). }
  rewrite (vget_eq _ _ _ Hlast). rsimpl. rewrite slot_of_nat.
  replace (length l1 + length (flatten u) - 1 + 1) with (length (l1 ++ flatten u)) by (rewrite length_app, Hfu; cbn; lia).
  replace (length l1 + length (flatten u ++ flattens us)) with (length (l1 ++ flatten u) + length (flattens us))
    by (rewrite !length_app; lia).
  rewrite IH; [done| | |cbn in Hf; lia].
  - by rewrite Hs, <-!app_assoc.
  - by rewrite length_app.
Qed.

Lemma length_trees us : length us ≤ length (flattens us).
Proof using. clear. induction us as [|u us IH]; [done|]. rewrite flattens_cons, length_app, flatten_cons. cbn. lia. Qed.

(** [children] lists the nodes whose parent is [y], ascending. *)
Lemma children_spec y : y < n → ∃ l, children t (N.of_nat y) = Ok l ∧
  (within y → l = N.of_nat <$> kids n par y) ∧ (¬ within y → l = []).
Proof using small Hlen Hpar HN.
  intros Hy. unfold children, span, index. rewrite Nat2N.id. destruct (decide (y ∈ flattens ts)) as [Hin|Hout].
  - destruct (within_tree y Hin) as (l1 & t' & l2 & d & Ht). pose proof Ht as [Hs Hl Hh Hp Hla _ _ Hk].
    destruct (pre_position y Hin) as (k & _ & Hkp & Hkn). rewrite (vget_eq _ _ _ Hkp). rsimpl.
    rewrite decide_False by by apply (small_not_absent k n small).
    rewrite Hp in Hkp. injection Hkp as Hkp. assert (k = length l1) as -> by lia.
    rewrite (vget_eq _ _ _ Hla). rsimpl. rewrite !slot_of_nat.
    destruct t' as [i us]. cbn [label subtrees] in *. subst i. rewrite flatten_cons in Hs |- *. cbn [label subtrees] in *.
    replace (length l1 + length (y :: flattens us) - 1 + 1) with (length (l1 ++ [y]) + length (flattens us))
      by (rewrite length_app; cbn; lia).
    replace (length l1 + 1) with (length (l1 ++ [y])) by by rewrite length_app.
    rewrite (children_from_spec us (l1 ++ [y]) l2 (S d)).
    + eexists. split; [done|]. split; [|done]. intros _. inversion Hh as [? ? _ Hkids _]; subst. by rewrite Hkids.
    + by rewrite Hs, <-!app_assoc.
    + rewrite length_app, Nat.add_comm. exact Hk.
    + rewrite (nf_order HN), length_fmap, Hs, !length_app. cbn. pose proof (length_trees us). lia.
  - rewrite (vget_eq _ _ _ (nf_absent HN y Hy Hout)). rsimpl. rewrite decide_True by done. rsimpl.
    exists []. split; [|tauto]. cbn. done.
Qed.
End Tree.
