(* ===== verification/DomCompute.v ===== *)
(** * Computing and walking a dominator tree

    [scoped_walk] of [graph/dominator.rs] goes over preorder positions with a
    stack of open scopes; over a numbered tree it is the recursive walk that
    enters a node, walks its children and exits the node. The construction and
    the numbering together compute the dominator tree of a view. *)

From S2P Require Import Prelude Ids View Traverse Bfs Scc DomTheory Dominator DomSearch DomIdom DomNumber DomTree.

Section Scoped.
Context {S T : Type} (enter : S → Id → S * T) (exit : S → Id → T → S).

(** The recursive walk. *)
Fixpoint scoped (u : rtree) (state : S) : S :=
  match u with rnode i us =>
    let '(state, scope) := enter state (N.of_nat i) in
    exit (foldl (λ state u, scoped u state) state us) (N.of_nat i) scope
  end.

(** Closing scopes from the top. *)
Definition closing (state : S) (scopes : list (Id * T)) : S :=
  foldl (λ state '(node, scope), exit state node scope) state scopes.

Section Walk.
Context (n : nat) (t : DominatorTree) (ts : list rtree) (HN : numbers n t ts).
Notation nb := (mk_Numbered (dt_pre t) (dt_last t) (dt_level t) (dt_order t)).

(** The scope's node ends before [position]. *)
Definition left_behind (position : nat) (o : Id * T) : Prop :=
  ∃ m, dt_last t !! index (fst o) = Some (N.of_nat m) ∧ m < position.

(** The scope on top, if any, reaches [position]. *)
Definition still_open (position : nat) (scopes : list (Id * T)) : Prop :=
  match scopes with
  | [] => True
  | o :: _ => ∃ m, dt_last t !! index (fst o) = Some (N.of_nat m) ∧ position ≤ m
  end.

Lemma close_scopes_spec position state old scopes :
  Forall (left_behind position) old → still_open position scopes →
  close_scopes exit t position state (old ++ scopes) = Ok (closing state old, scopes).
Proof using.
  clear. intros Hold Hopen. revert state. induction Hold as [|[x sc] old (m & Hm & Hlt) _ IH]; intros state; cbn.
  - destruct scopes as [|[x sc] scopes]; [done|]. destruct Hopen as (m & Hm & Hle). cbn in Hm. cbn [close_scopes].
    rewrite (vget_eq _ _ _ Hm). rsimpl. rewrite slot_of_nat, decide_False by lia. done.
  - cbn in Hm. rewrite (vget_eq _ _ _ Hm). rsimpl. rewrite slot_of_nat, decide_True by lia. apply IH.
Qed.

Lemma scoped_step_spec position state old scopes i s1 sc :
  Forall (left_behind position) old → still_open position scopes → dt_order t !! position = Some (N.of_nat i) →
  enter (closing state old) (N.of_nat i) = (s1, sc) →
  scoped_step enter exit t (state, old ++ scopes) position = Ok (s1, (N.of_nat i, sc) :: scopes).
Proof using.
  clear. intros Hold Hopen Hat Hs. unfold scoped_step. cbn [fst snd]. rewrite close_scopes_spec by done. rsimpl.
  rewrite (vget_eq _ _ _ Hat). rsimpl. by rewrite Hs.
Qed.

(** The positions of [u] are walked over from [old ++ scopes]. *)
Definition runs_over (l : list nat) (off : nat) (f : S → S) : Prop :=
  ∀ state old scopes, Forall (left_behind off) old → still_open (off + length l - 1) scopes →
  ∃ state' new, rfold (scoped_step enter exit t) (state, old ++ scopes) (seq off (length l)) = Ok (state', new ++ scopes) ∧
    closing state' new = f (closing state old) ∧ Forall (left_behind (off + length l)) new.

Lemma run_forest us off dpt l1 l2 :
  Forall (λ u, ∀ off dpt l1 l2, dt_order t = (N.of_nat <$> l1 ++ flatten u ++ l2) → length l1 = off →
    placed nb off dpt u → runs_over (flatten u) off (scoped u)) us →
  dt_order t = (N.of_nat <$> l1 ++ flattens us ++ l2) → length l1 = off →
  placed_all nb off dpt us → runs_over (flattens us) off (λ state, foldl (λ state u, scoped u state) state us).
Proof using.
  clear. revert off l1. induction us as [|u us IH]; intros off l1 Hus Ho Hl Hp.
  { intros state old scopes Hold _. exists state, old. cbn. rewrite Nat.add_0_r. done. }
  apply Forall_cons in Hus as [Hu Hus]. destruct Hp as [Hpu Hp]. rewrite flattens_cons in *.
  intros state old scopes Hold Hopen. rewrite length_app in *. rewrite seq_app, rfold_app.
  destruct (Hu off dpt l1 (flattens us ++ l2)) with (state := state) (old := old) (scopes := scopes)
    as (s1 & new1 & -> & Hc1 & Hn1); [by rewrite Ho, <-!app_assoc|done|done|done| |].
  { destruct scopes as [|o scopes]; [done|]. destruct Hopen as (m & ? & ?). exists m. split; [done|lia]. }
  cbn [mbind res_bind].
  destruct (IH (off + length (flatten u)) (l1 ++ flatten u)) with (state := s1) (old := new1) (scopes := scopes)
    as (s2 & new2 & -> & Hc2 & Hn2); [done|by rewrite Ho, <-!app_assoc|by rewrite length_app, Hl|done|done| |].
  { destruct scopes as [|o scopes]; [done|]. destruct Hopen as (m & ? & ?). exists m. split; [done|lia]. }
  exists s2, new2. split; [done|]. rewrite Hc2, Hc1, Nat.add_assoc. done.
Qed.

Lemma run_tree u off dpt l1 l2 :
  dt_order t = (N.of_nat <$> l1 ++ flatten u ++ l2) → length l1 = off → placed nb off dpt u →
  runs_over (flatten u) off (scoped u).
Proof using.
  clear. revert off dpt l1 l2. induction u as [i us IH] using rtree_ind'. intros off dpt l1 l2 Ho Hl Hp.
  intros state old scopes Hold Hopen. rewrite flatten_cons in *. cbn [label subtrees] in *.
  destruct Hp as (_ & Hlast & _ & Hp). rewrite flatten_cons in Hlast. cbn [label subtrees length] in *. cbn [seq rfold].
  assert (Hat : dt_order t !! off = Some (N.of_nat i)).
  { rewrite Ho, list_lookup_fmap, lookup_app_r, Hl, Nat.sub_diag by lia. done. }
  destruct (enter (closing state old) (N.of_nat i)) as [s1 sc] eqn:Henter.
  rewrite (scoped_step_spec off state old scopes i s1 sc Hold); [|..|done|done].
  2:{ destruct scopes as [|o scopes]; [done|]. destruct Hopen as (m & ? & ?). exists m. split; [done|lia]. }
  rsimpl.
  destruct (run_forest us (Datatypes.S off) (Datatypes.S dpt) (l1 ++ [i]) l2) with (state := s1) (old := @nil (Id * T))
    (scopes := (N.of_nat i, sc) :: scopes) as (s2 & new & Hrun & Hc & Hn); [done| | |exact Hp|constructor| |].
  { by rewrite Ho, <-!app_assoc. }
  { rewrite length_app. cbn. lia. }
  { eexists. cbn [fst]. unfold index. rewrite Nat2N.id. split; [exact Hlast|]. lia. }
  cbn [app] in Hrun. rewrite Hrun. exists s2, (new ++ [(N.of_nat i, sc)]). split; [by rewrite <-app_assoc|]. split.
  - unfold closing in *. rewrite foldl_app. cbn [foldl]. rewrite Hc. cbn. unfold closing in Henter. by rewrite Henter.
  - apply Forall_app. split.
    + eapply Forall_impl; [exact Hn|]. intros o (m & ? & ?). exists m. split; [done|lia].
    + constructor; [|constructor]. eexists. cbn [fst]. unfold index. rewrite Nat2N.id. split; [exact Hlast|lia].
Qed.

(** Walking from one node. *)
Lemma scoped_walk_one (small : (N.of_nat n ≤ U32_MAX)%N) y l1 u l2 d state :
  tree_at n t ts y l1 u l2 d → length l1 < n →
  scoped_walk enter exit t [N.of_nat y] state = Ok (scoped u state).
Proof using HN.
  intros Ht Hpos. unfold scoped_walk. cbn [rfold]. unfold span, index. rewrite Nat2N.id.
  rewrite (vget_eq _ _ _ (ta_pre _ _ _ _ _ _ _ _ Ht)). rsimpl.
  rewrite decide_False by by apply (small_not_absent _ n small).
  rewrite (vget_eq _ _ _ (ta_last _ _ _ _ _ _ _ _ Ht)). rsimpl. rewrite !slot_of_nat.
  assert (Hlen : 0 < length (flatten u)) by (rewrite flatten_cons; cbn; lia).
  replace (length l1 + length (flatten u) - 1 + 1 - length l1) with (length (flatten u)) by lia.
  destruct (run_tree u (length l1) d l1 l2) with (state := state) (old := @nil (Id * T)) (scopes := @nil (Id * T))
    as (s' & new & Hrun & Hc & _); [|done| |constructor|done|].
  - by rewrite (nf_order _ _ _ HN), (ta_split _ _ _ _ _ _ _ _ Ht).
  - destruct Ht as [_ <- _ ? ? ? _ ?]. by destruct u.
  - cbn [app] in Hrun. rewrite Hrun. rsimpl. rewrite app_nil_r. by f_equal.
Qed.
End Walk.
End Scoped.

(** * Computing a dominator tree

    [compute_from_in] of [graph/dominator.rs] on a view that keeps the
    contract: the parent table of the construction, numbered by [number], is a
    tree whose ancestor relation is dominance, so the checked parent property
    holds. *)


Section Compute.
Context {G : Type} {HG : GraphView G} (g : G) (s : shape) (HV : Views g s).
Context (small : (N.of_nat (sh_bound s) ≤ U32_MAX)%N) (root : Id) (Hroot : root ∈ sh_nodes s).
Notation n := (sh_bound s).
Notation next := (sh_next s Outgoing).
Notation R := (edge_to (sh_next s Outgoing)).
Notation dominator := (dominator s root).

Lemma reached_node x : rtc R root x → x ∈ sh_nodes s.
Proof using HV Hroot.
  intros Hx. revert Hroot. induction Hx as [|a b c Hab _ IH]; [done|]. intros Ha. apply IH.
  by apply (nodes_next g s HV Outgoing a).
Qed.

Lemma reached_lt x : rtc R root x → index x < n.
Proof using HV Hroot. intros Hx%reached_node. by apply (nodes_bound g s HV). Qed.

(** A path extended by an edge, and a path cut at one of its nodes. *)
Lemma root_path_snoc p x y : root_path s root p x → y ∈ next x → root_path s root (p ++ [y]) y.
Proof using.
  clear. unfold root_path. intros (Hh & Hl & Hc) Hy. split_and!.
  - by destruct p.
  - by rewrite last_snoc.
  - revert Hl Hc. clear Hh. induction p as [|a p IH]; [done|]. destruct p as [|b p]; cbn.
    + by intros [= ->].
    + intros Hl [Hb Hc]. split; [done|]. by apply IH.
Qed.

Lemma root_path_prefix p x y : root_path s root p x → y ∈ p → ∃ q, root_path s root q y ∧ q ⊆ p.
Proof using.
  clear. unfold root_path. intros (Hh & _ & Hc) Hy.
  cut (∀ p a, head p = Some a → chain s Outgoing p → y ∈ p →
    ∃ q, head q = Some a ∧ last q = Some y ∧ chain s Outgoing q ∧ q ⊆ p).
  { intros H. destruct (H p root Hh Hc Hy) as (q & ? & ? & ? & ?). by exists q. }
  clear. induction p as [|b p IH]; [done|]. intros a [= ->] Hc Hy. destruct (decide (y = a)) as [->|Hne].
  { exists [a]. split_and!; [done..|set_solver]. }
  assert (Hyp : y ∈ p) by set_solver. destruct p as [|z p]; [by apply elem_of_nil in Hyp|]. destruct Hc as [Hz Hc].
  destruct (IH z eq_refl Hc Hyp) as (q & Hqh & Hql & Hqc & Hqs). exists (a :: q). destruct q as [|z' q]; [done|].
  injection Hqh as ->. split_and!; [done..|set_solver].
Qed.

Lemma dominator_trans a b c : dominator a b → dominator b c → dominator a c.
Proof using.
  clear. intros [_ Hab] [Hc Hbc]. split; [done|]. intros p Hp.
  destruct (root_path_prefix p c b Hp (Hbc p Hp)) as (q & Hq & Hsub). by apply Hsub, Hab.
Qed.

(** Tables that hold the immediate dominators. *)
Section Table.
Context (tbl : list N) (HI : idom_table s root tbl).

Lemma table_rank : ∃ rank : nat → nat, ∀ i p, tbl !! i = Some p → p = ABSENT ∨ ∃ j, p = N.of_nat j ∧ j < n ∧ rank j < rank i.
Proof using HV small Hroot HI.
  destruct (it_rank _ _ _ HI) as [rank Hrank]. exists (λ i, rank (N.of_nat i)). intros i p Hi.
  pose proof (lookup_lt_Some _ _ _ Hi) as Hlt. rewrite (it_length _ _ _ HI) in Hlt.
  destruct (decide (p = ABSENT)) as [|Hne]; [by left|right].
  assert (Hix : index (N.of_nat i) = i) by (unfold index; lia).
  destruct (decide (N.of_nat i = root)) as [Heq|Hnr].
  { pose proof (it_absent _ _ _ HI (N.of_nat i) ltac:(lia) (or_intror Heq)) as Ha. rewrite Hix, Hi in Ha. by injection Ha. }
  destruct (it_dec _ _ _ HI (N.of_nat i)) as [Hin|Hout].
  2:{ pose proof (it_absent _ _ _ HI (N.of_nat i) ltac:(lia) (or_introl Hout)) as Ha. rewrite Hix, Hi in Ha.
      by injection Ha. }
  destruct (it_idom _ _ _ HI _ Hin Hnr) as (d & Hd & Hdom & _). rewrite Hix, Hi in Hd. injection Hd as ->.
  exists (index d). unfold index at 1. rewrite N2Nat.id. split; [done|].
  assert (Hdr : rtc R root d) by by apply (dominator_reached s root d (N.of_nat i)).
  split; [by apply reached_lt|]. unfold index. rewrite N2Nat.id. apply (Hrank (N.of_nat i)); [done..|]. by rewrite Hix.
Qed.

Lemma dominator_of_root d : dominator d root → d = root.
Proof using.
  clear. intros [_ Hp]. specialize (Hp [root]). ospecialize (Hp _); [by split_and!|]. set_solver.
Qed.

(** Dominators come before what they dominate in the rank of the table. *)
Lemma dominator_rank rank :
  (∀ x d, rtc R root x → x ≠ root → tbl !! index x = Some d → rank d < rank x) →
  ∀ a b, dominator a b → a = b ∨ rank a < rank b.
Proof using small HI.
  intros Hrank a b. remember (rank b) as r eqn:Hr. revert a b Hr.
  induction r as [r IH] using lt_wf_ind. intros a b -> Hab. destruct (decide (a = b)) as [|Hne]; [by left|right].
  assert (Hb : rtc R root b) by apply Hab. destruct (decide (b = root)) as [->|Hbr]; [by apply dominator_of_root in Hab|].
  destruct (it_idom _ _ _ HI b Hb Hbr) as (i & Hi & _ & _ & Hmin). pose proof (Hrank b i Hb Hbr Hi) as Hlt.
  destruct (IH (rank i) Hlt a i eq_refl (Hmin a Hab Hne)) as [->|]; lia.
Qed.

Lemma dominator_antisym a b : dominator a b → dominator b a → a = b.
Proof using small HI.
  intros Hab Hba. destruct (it_rank _ _ _ HI) as [rank Hrank].
  destruct (dominator_rank rank Hrank a b Hab) as [|H1]; [done|].
  destruct (dominator_rank rank Hrank b a Hba) as [|H2]; [done|lia].
Qed.

(** [d] is the immediate dominator of [x]. *)
Definition immediate (d x : Id) : Prop :=
  dominator d x ∧ d ≠ x ∧ ∀ e, dominator e x → e ≠ x → dominator e d.

Lemma table_parent d x :
  rtc R root d → parent_of n tbl (index d) (index x) ↔ rtc R root x ∧ x ≠ root ∧ immediate d x.
Proof using HV small Hroot HI.
  intros Hd. pose proof (reached_lt d Hd) as Hdn. pose proof (small_not_absent _ n small Hdn) as Hab.
  assert (Hword : N.of_nat (index d) = d) by (unfold index; lia). rewrite Hword in Hab.
  unfold parent_of. rewrite Hword. split.
  - intros [_ Ht]. pose proof (lookup_lt_Some _ _ _ Ht) as Hlt. rewrite (it_length _ _ _ HI) in Hlt.
    destruct (decide (x = root)) as [->|Hne].
    { rewrite (it_absent _ _ _ HI root Hlt (or_intror eq_refl)) in Ht. by injection Ht as Ht. }
    destruct (it_dec _ _ _ HI x) as [Hx|Hx].
    2:{ rewrite (it_absent _ _ _ HI x Hlt (or_introl Hx)) in Ht. by injection Ht as Ht. }
    destruct (it_idom _ _ _ HI x Hx Hne) as (d' & Ht' & ?). rewrite Ht in Ht'. injection Ht' as <-. done.
  - intros (Hx & Hne & Hdom & Hdx & Hmin). split; [done|].
    destruct (it_idom _ _ _ HI x Hx Hne) as (d' & Ht & Hdom' & Hd'x & Hmin'). rewrite Ht. f_equal.
    apply dominator_antisym; auto.
Qed.

(** A parent is a reached node. *)
Lemma parent_reached i x :
  parent_of n tbl i (index x) → ∃ d, i = index d ∧ rtc R root d ∧ rtc R root x ∧ x ≠ root ∧ immediate d x.
Proof using HV small Hroot HI.
  intros [Hi Ht]. pose proof (lookup_lt_Some _ _ _ Ht) as Hlt. rewrite (it_length _ _ _ HI) in Hlt.
  pose proof (small_not_absent _ n small Hi) as Hab. exists (N.of_nat i). unfold index at 1. rewrite Nat2N.id.
  split; [done|]. destruct (decide (x = root)) as [->|Hne].
  { rewrite (it_absent _ _ _ HI root Hlt (or_intror eq_refl)) in Ht. injection Ht as Ht. congruence. }
  destruct (it_dec _ _ _ HI x) as [Hx|Hx].
  2:{ rewrite (it_absent _ _ _ HI x Hlt (or_introl Hx)) in Ht. injection Ht as Ht. congruence. }
  destruct (it_idom _ _ _ HI x Hx Hne) as (d' & Ht' & Hd). rewrite Ht in Ht'. injection Ht' as <-.
  split; [|done]. by apply (dominator_reached s root _ x), Hd.
Qed.

(** The ancestors of a reached node are its dominators. *)
Lemma above_dominator d x : rtc R root x → above n tbl (index d) (index x) ↔ dominator d x.
Proof using HV small Hroot HI.
  destruct (it_rank _ _ _ HI) as [rank Hrank]. remember (rank x) as r eqn:Hr. revert x Hr.
  induction r as [r IH] using lt_wf_ind. intros x -> Hx. split.
  - intros [Heq%index_inj|(p & Hdp & Hpx)]%above_last; [subst d; by apply dominator_self|].
    destruct (parent_reached p x Hpx) as (e & -> & He & _ & Hne & Hid).
    apply dominator_trans with e; [|apply Hid]. apply (IH (rank e)); [|done..].
    apply (Hrank x e Hx Hne). destruct Hpx as [_ Ht]. by replace (N.of_nat (index e)) with e in Ht by (unfold index; lia).
  - intros Hd. destruct (decide (d = x)) as [->|Hdx]; [constructor|].
    destruct (decide (x = root)) as [->|Hne]; [by apply dominator_of_root in Hd|].
    destruct (it_idom _ _ _ HI x Hx Hne) as (i & Hi & Hid). assert (Hir : rtc R root i) by (by apply (dominator_reached s root i x), Hid).
    eapply rtc_r; [|by apply (table_parent i x Hir)]. apply (IH (rank i)); [by apply (Hrank x i)|done..|]. by apply Hid.
Qed.

Lemma above_reached j x : above n tbl (index root) j → j = index x → rtc R root x.
Proof using HV small Hroot HI.
  intros Ha ->. apply above_last in Ha as [Heq%index_inj|(p & _ & Hp)]; [by rewrite <-Heq|].
  by destruct (parent_reached p x Hp) as (e & _ & _ & ? & _).
Qed.
End Table.

(** ** The finished tree *)

(** [t] is the dominator tree of the graph from the root. *)
Record dominator_tree (t : DominatorTree) (ts : list rtree) : Prop := {
  dt_table : idom_table s root (dt_idom t);
  dt_numbers : numbers n t ts;
  dt_within : ∀ x, within ts (index x) ↔ rtc R root x;
}.

Lemma tree_above t ts d x : dominator_tree t ts → rtc R root x → above n (dt_idom t) (index d) (index x) ↔ dominator d x.
Proof using HV small Hroot. intros HT. apply above_dominator, HT. Qed.

(** The rank and shape of the table, as the queries ask for them. *)
Lemma tree_facts t ts : dominator_tree t ts →
  length (dt_idom t) = n ∧ ∃ rank : nat → nat,
    ∀ i p, dt_idom t !! i = Some p → p = ABSENT ∨ ∃ j, p = N.of_nat j ∧ j < n ∧ rank j < rank i.
Proof using HV small Hroot.
  intros [HI _ _]. split; [apply HI|]. by apply table_rank.
Qed.

Lemma tree_dominates t ts a x :
  dominator_tree t ts → index a < n → index x < n →
  ∃ b, dominates t a x = Ok b ∧ (b = true ↔ a = x ∨ dominator a x).
Proof using HV small Hroot.
  intros HT Ha Hx. destruct (tree_facts t ts HT) as (Hlen & rank & Hpar).
  destruct (dominates_spec n small t ts Hlen rank Hpar (dt_numbers _ _ HT) (index a) (index x) Ha Hx) as (b & Hb & Hiff).
  exists b. replace (N.of_nat (index a)) with a in Hb by (unfold index; lia).
  replace (N.of_nat (index x)) with x in Hb by (unfold index; lia). split; [done|]. rewrite Hiff.
  rewrite (dt_within _ _ HT). split.
  - intros [Heq%index_inj|[Hr Hax]]; [by left|right]. by apply (tree_above t ts).
  - intros [->|Hd]; [by left|right]. split; [apply Hd|]. apply (tree_above t ts); [done|apply Hd|done].
Qed.

Lemma tree_is_reachable t ts x :
  dominator_tree t ts → index x < n → ∃ b, is_reachable t x = Ok b ∧ (b = true ↔ rtc R root x).
Proof using HV small Hroot.
  intros HT Hx. destruct (tree_facts t ts HT) as (Hlen & rank & Hpar).
  destruct (is_reachable_spec n small t ts Hlen rank Hpar (dt_numbers _ _ HT) (index x) Hx) as (b & Hb & Hiff).
  exists b. replace (N.of_nat (index x)) with x in Hb by (unfold index; lia). split; [done|].
  by rewrite Hiff, (dt_within _ _ HT).
Qed.

Lemma tree_idom t ts x :
  dominator_tree t ts → index x < n →
  ∃ r, idom t x = Ok r ∧ ∀ d, r = Some d ↔ immediate d x.
Proof using HV small Hroot.
  intros HT Hx. destruct (tree_facts t ts HT) as (Hlen & rank & Hpar).
  destruct (idom_spec n small t Hlen rank Hpar (index x) Hx) as (r & Hr & Hiff).
  exists r. replace (N.of_nat (index x)) with x in Hr by (unfold index; lia). split; [done|].
  intros d. rewrite Hiff. split.
  - intros [Hd Hp]. apply (parent_reached _ (dt_table _ _ HT)) in Hp as (e & ->%index_inj & _ & _ & _ & Hi). done.
  - intros Hi. assert (Hd : rtc R root d) by by apply (dominator_reached s root d x), Hi. split; [by apply reached_lt|].
    apply (table_parent _ (dt_table _ _ HT) d x Hd). split_and!; [apply Hi| |done].
    intros ->. destruct Hi as (Hd' & Hne & _). by apply dominator_of_root in Hd'.
Qed.

(** The parent property the construction asserts. *)
Lemma parent_property t ts :
  dominator_tree t ts → satisfies_parent_property t g = Ok true.
Proof using HV small Hroot.
  intros HT. unfold satisfies_parent_property.
  assert (Hall : ∀ {A} (p : A → res bool) l, (∀ x, x ∈ l → p x = Ok true) → rall p l = Ok true).
  { intros A p l. induction l as [|x l IH]; intros Hl; [done|]. cbn [rall]. rewrite Hl by left. rsimpl.
    apply IH. intros y Hy. apply Hl. by right. }
  apply Hall. intros tail Htail. rewrite (nf_order _ _ _ (dt_numbers _ _ HT)) in Htail.
  apply list_elem_of_fmap in Htail as (i & -> & Hi).
  assert (Htr : rtc R root (N.of_nat i)).
  { apply (dt_within _ _ HT). unfold within, index. by rewrite Nat2N.id. }
  change (gv_successors g (N.of_nat i)) with (neighbors Outgoing g (N.of_nat i)).
  rewrite (vw_next (g := g) Outgoing) by by apply reached_node. rsimpl. apply Hall. intros head Hhead.
  assert (Hhr : rtc R root head) by by eapply rtc_r.
  destruct (tree_is_reachable t ts head HT (reached_lt _ Hhr)) as (b & -> & Hb). rsimpl.
  destruct b; [|by apply Hb in Hhr].
  destruct (tree_idom t ts head HT (reached_lt _ Hhr)) as ([d|] & -> & Hd); rsimpl; [|done].
  assert (immediate d head) as (Hdom & Hne & _) by by apply Hd.
  assert (Hdt : dominator d (N.of_nat i)).
  { split; [done|]. intros p Hp. destruct Hdom as [_ Hdom].
    specialize (Hdom _ (root_path_snoc p _ head Hp Hhead)). apply elem_of_app in Hdom as [|Hin%list_elem_of_singleton]; done. }
  destruct (tree_dominates t ts d (N.of_nat i) HT) as (b & -> & Hb').
  - apply reached_lt. by apply (dominator_reached s root d head).
  - by apply reached_lt.
  - f_equal. apply Hb'. by right.
Qed.

Lemma compute_from_spec scratch :
  ∃ scratch' t ts, compute_from_in scratch g root = Ok (scratch', t) ∧ dominator_tree t ts.
Proof using HV small Hroot.
  unfold compute_from_in, check_bound. rewrite (vw_bound (g := g) (s := s)).
  pose proof (nodes_bound g s HV root Hroot) as Hb.
  rewrite (bool_decide_true (is_Some _)) by (exists (N.of_nat n); by apply u32_try_from_Some). rsimpl.
  rewrite bool_decide_true by done. rsimpl.
  destruct (immediate_dominators_spec g s HV small root Hroot) as (b & tbl & -> & HI & Hnd & Hver). rsimpl.
  rewrite word_index by (unfold index in Hb; lia). rsimpl.
  destruct (table_rank tbl HI) as (rank & Hpar). pose proof (it_length _ _ _ HI) as Hlen.
  destruct (hangs_exists n small tbl Hlen rank Hpar (index root) Hb) as (u & Hu & Hlu).
  destruct (chain_children_spec n small tbl Hlen rank Hpar) as (c & Hc & Hbk).
  pose proof (NoDup_flatten n small tbl Hlen rank Hpar u Hu) as Hndu.
  assert (Hin : ∀ x, index x ∈ flatten u ↔ rtc R root x).
  { intros x. rewrite (elem_of_flatten n small tbl Hlen rank Hpar u _ Hu), Hlu. split.
    - intros Ha. by apply (above_reached tbl HI _ x Ha).
    - intros Hx. apply (above_dominator tbl HI root x Hx). by apply dominator_root. }
  assert (Hcount : reached b = length (flattens [u])).
  { unfold reached, flattens. cbn. rewrite app_nil_r, <-(length_fmap index (cb_vertex b)).
    apply Permutation_length, NoDup_Permutation; [|done|].
    - apply NoDup_fmap_2; [|done]. intros ??. apply index_inj.
    - intros j. rewrite list_elem_of_fmap. split.
      + intros (x & -> & Hx). by apply Hin, Hver.
      + intros Hj. exists (N.of_nat j). unfold index. rewrite Nat2N.id. split; [done|]. apply Hver, Hin.
        unfold index. by rewrite Nat2N.id. }
  rewrite Hcount. assert (Hndf : NoDup (flattens [u])) by (rewrite flattens_cons; by rewrite app_nil_r).
  destruct (number_forest_spec n small tbl Hlen rank Hpar c Hbk [u] Hc) as (nb & Hn & Ho & Hs & Hp & Ha).
  { by constructor. }
  { done. }
  change (N.of_nat <$> map label [u]) with [N.of_nat (label u)] in Hn. rewrite Hlu in Hn.
  replace (N.of_nat (index root)) with root in Hn by (unfold index; lia). rewrite Hn. rsimpl.
  assert (HT : dominator_tree (from_numbered tbl nb) [u]).
  { split; cbn; [done| |].
    - split; cbn.
      + by constructor.
      + done.
      + done.
      + by destruct nb.
      + by destruct nb.
      + done.
      + intros t' ->%list_elem_of_singleton. rewrite Hlu. by apply (it_absent _ _ _ HI); [|right].
    - intros x. unfold within. rewrite flattens_cons, app_nil_r. apply Hin. }
  rewrite (parent_property _ _ HT). rsimpl. by eexists _, _, _.
Qed.
End Compute.
