(* ===== verification/DomVirtual.v ===== *)
(** * Forests under a virtual root

    The dominator construction on a graph behind a virtual root whose index is
    one past the nodes: without the virtual root the table is the forest of the
    remaining nodes, whose ancestor relation is still dominance. The
    post-dominator tree and the completed dominator forest are both cut from
    such a table. *)

From S2P Require Import Prelude Ids View Traverse Scc Dominator DomSearch DomTheory DomIdom DomNumber DomTree DomCompute.

Section Virtual.
Context {G : Type} {HG : GraphView G} (g : G) (s : shape) (HV : Views g s).
Context (n : nat) (Hbound : sh_bound s = S n) (small : (N.of_nat (sh_bound s) ≤ U32_MAX)%N).
Notation root := (N.of_nat n).
Context (Hroot : root ∈ sh_nodes s).
Notation R := (edge_to (sh_next s Outgoing)).
Notation dominator := (dominator s root).
Context (tbl : list N) (HI : idom_table s root tbl).

(** The table without the virtual root: its children have no parent. *)
Definition unrooted (w : N) : N := if decide (w = N.of_nat n) then ABSENT else w.
Definition table : list N := unrooted <$> take n tbl.

(** The nodes that hang from the virtual root. *)
Definition tops : list nat := filter (λ i, tbl !! i = Some root) (seq 0 n).

Lemma small_nodes : (N.of_nat n ≤ U32_MAX)%N.
Proof using Hbound small. clear -Hbound small. lia. Qed.

Lemma table_length : length table = n.
Proof using HI Hbound.
  unfold table. rewrite length_fmap, length_take, (it_length _ _ _ HI). clear -Hbound. lia.
Qed.

Lemma unrooted_lookup i : i < n → table !! i = unrooted <$> (tbl !! i).
Proof using. clear. intros Hi. unfold table. by rewrite list_lookup_fmap, lookup_take_lt. Qed.

Lemma table_ranked : ∃ rank : nat → nat,
  (∀ i p, tbl !! i = Some p → p = ABSENT ∨ ∃ j, p = N.of_nat j ∧ j < S n ∧ rank j < rank i) ∧
  ∀ i p, table !! i = Some p → p = ABSENT ∨ ∃ j, p = N.of_nat j ∧ j < n ∧ rank j < rank i.
Proof using HV small Hroot HI Hbound.
  destruct (table_rank g s HV small root Hroot tbl HI) as (rank & Hpar). rewrite Hbound in Hpar. exists rank.
  split; [done|]. intros i p Hi. pose proof (lookup_lt_Some _ _ _ Hi) as Hlt. rewrite table_length in Hlt.
  rewrite unrooted_lookup in Hi by done. apply fmap_Some in Hi as (w & Hw & ->). unfold unrooted. case_decide; [by left|].
  destruct (Hpar i w Hw) as [->|(j & -> & Hj & Hr)]; [by left|right]. exists j. split_and!; [done|lia|done].
Qed.

(** Both tables have the same parents among the nodes. *)
Lemma table_parent_of a x : parent_of n table a x ↔ a < n ∧ x < n ∧ parent_of (S n) tbl a x.
Proof using HI Hbound small.
  unfold parent_of. split.
  - intros [Ha Hx]. pose proof (lookup_lt_Some _ _ _ Hx) as Hlt. rewrite table_length in Hlt.
    rewrite unrooted_lookup in Hx by done. apply fmap_Some in Hx as (w & Hw & Heq). unfold unrooted in Heq. case_decide.
    + symmetry in Heq. clear -Heq small Hbound Ha. exfalso. unfold ABSENT in Heq. lia.
    + subst w. split_and!; [done|done|lia|done].
  - intros (Ha & Hx & _ & Ht). split; [done|]. rewrite unrooted_lookup, Ht by done. cbn. unfold unrooted.
    rewrite decide_False by lia. done.
Qed.

(** An index of a node as an identity of the view behind the virtual root. *)
Lemma id_index i : index (N.of_nat i) = i.
Proof using. clear. unfold index. lia. Qed.

Lemma parent_not_root a x : parent_of (S n) tbl a x → x ≠ n.
Proof using HV small Hroot HI Hbound.
  rewrite <-Hbound. intros Hp Hx. rewrite <-(id_index x) in Hp.
  apply (parent_reached g s HV small root Hroot tbl HI) in Hp as (d & _ & _ & _ & Hne & _). apply Hne. by rewrite Hx.
Qed.

(** The ancestors of a reached node other than the virtual root are its
    dominators. *)
Lemma table_above a x :
  a < n → x < n → rtc R root (N.of_nat x) → above n table a x ↔ dominator (N.of_nat a) (N.of_nat x).
Proof using HV small Hroot HI Hbound.
  intros Ha Hx Hr. rewrite <-(above_dominator g s HV small root Hroot tbl HI (N.of_nat a) (N.of_nat x) Hr), !id_index, Hbound.
  split.
  - apply rtc_subrel. intros b c Hbc. by apply table_parent_of in Hbc as (_ & _ & ?).
  - intros Hax. revert Ha Hx. clear Hr. induction Hax as [a|a b x Hab Hbx IH]; [constructor|]. intros Ha Hx.
    assert (Hb : b < n).
    { pose proof (lookup_lt_Some _ _ _ (proj2 Hab)) as Hlt. rewrite (it_length _ _ _ HI) in Hlt.
      pose proof (parent_not_root a b Hab). lia. }
    apply rtc_l with b; [|by apply IH]. by apply table_parent_of.
Qed.

Lemma reached_below x : rtc R root x → x ≠ root → index x < n.
Proof using HV small Hroot HI Hbound.
  intros Hx Hne. pose proof (reached_lt g s HV root Hroot x Hx) as Hlt. rewrite Hbound in Hlt.
  assert (index x ≠ n); [|lia]. intros Heq. apply Hne. unfold index in Heq. lia.
Qed.

Lemma elem_of_tops i : i ∈ tops ↔ i < n ∧ tbl !! i = Some root.
Proof using. clear. unfold tops. rewrite list_elem_of_filter, elem_of_seq. naive_solver lia. Qed.

Lemma tops_above c x : c ∈ tops → above n table c x → rtc R root (N.of_nat x).
Proof using HV small Hroot HI Hbound.
  intros [Hc Ht]%elem_of_tops [->|(p & _ & Hp)]%above_last.
  - assert (Hp : parent_of (sh_bound s) tbl n (index (N.of_nat x))).
    { rewrite id_index. split; [lia|done]. }
    by apply (parent_reached g s HV small root Hroot tbl HI) in Hp as (d & _ & _ & ? & _).
  - apply table_parent_of in Hp as (_ & _ & Hp). rewrite <-Hbound, <-(id_index x) in Hp.
    by apply (parent_reached g s HV small root Hroot tbl HI) in Hp as (d & _ & _ & ? & _).
Qed.

Lemma tops_cover x : rtc R root (N.of_nat x) → x < n → ∃ c, c ∈ tops ∧ above n table c x.
Proof using HV small Hroot HI Hbound.
  destruct (it_rank _ _ _ HI) as [rank Hrank]. remember (rank (N.of_nat x)) as r eqn:Hr. revert x Hr.
  induction r as [r IH] using lt_wf_ind. intros x -> Hx Hlt.
  assert (Hne : N.of_nat x ≠ root) by (intros Heq; clear -Heq Hlt; lia).
  destruct (it_idom _ _ _ HI _ Hx Hne) as (d & Hd & Hdom & Hdx & _). rewrite id_index in Hd.
  destruct (decide (d = root)) as [->|Hdr]; [exists x; split; [by apply elem_of_tops|constructor]|].
  assert (Hdr' : rtc R root d) by by apply (dominator_reached s root d (N.of_nat x)).
  pose proof (reached_below d Hdr' Hdr) as Hdn.
  destruct (IH (rank d)) with (index d) as (c & Hc & Ha).
  - apply (Hrank (N.of_nat x)); [done..|by rewrite id_index].
  - by rewrite word_of_index.
  - by rewrite word_of_index.
  - done.
  - exists c. split; [done|]. eapply rtc_r; [exact Ha|]. apply table_parent_of. split_and!; [done..|].
    split; [lia|]. by rewrite word_of_index.
Qed.

(** The forest of the table holds every reached node but the virtual root. *)
Lemma virtual_forest : ∃ ts, map label ts = tops ∧ Forall (hangs n table) ts ∧ NoDup (flattens ts) ∧
  ∀ x, x ∈ flattens ts ↔ x < n ∧ rtc R root (N.of_nat x).
Proof using HV small Hroot HI Hbound.
  destruct table_ranked as (rank & _ & Hpar). pose proof small_nodes as Hs. pose proof table_length as Hlen.
  destruct (hang_all n Hs table Hlen rank Hpar tops) as (ts & Hts & Hh); [by intros i [? _]%elem_of_tops|].
  exists ts. rewrite Forall_forall in Hh.
  assert (Htop : ∀ u, u ∈ ts → label u ∈ tops) by (intros u Hu; rewrite <-Hts; by apply list_elem_of_In, in_map, list_elem_of_In).
  split_and!; [done|by apply Forall_forall| |].
  - apply (NoDup_forest n Hs table Hlen rank Hpar); [by apply Forall_forall| | |].
    + rewrite Hts. unfold tops. apply NoDup_filter, NoDup_seq.
    + apply Forall_forall. intros u Hu. by apply (NoDup_flatten n Hs table Hlen rank Hpar), Hh.
    + rewrite Hts. intros c c' _ [Hc' Ht']%elem_of_tops Hcc. apply above_last in Hcc as [|(p & _ & Hp)]; [done|].
      apply table_parent_of in Hp as (Hpn & _ & _ & Ht). rewrite Ht' in Ht. injection Ht as Ht. lia.
  - intros x. rewrite elem_of_flattens. split.
    + intros (u & Hu & Hx). apply (elem_of_flatten n Hs table Hlen rank Hpar) in Hx; [|by apply Hh].
      split; [|by apply (tops_above (label u)); [apply Htop|]].
      apply (above_lt n Hs table Hlen rank Hpar) in Hx; [done|]. by apply (hangs_label n table), Hh.
    + intros [Hx Hr]. destruct (tops_cover x Hr Hx) as (c & Hc & Ha). rewrite <-Hts in Hc.
      apply list_elem_of_In, in_map_iff in Hc as (u & <- & Hu%list_elem_of_In). exists u. split; [done|].
      by apply (elem_of_flatten n Hs table Hlen rank Hpar); [apply Hh|].
Qed.

(** The numbering of that forest. *)
Record virtual_tree (t : DominatorTree) (ts : list rtree) : Prop := {
  vt_table : dt_idom t = table;
  vt_numbers : numbers n t ts;
  vt_within : ∀ x, within ts x ↔ x < n ∧ rtc R root (N.of_nat x);
}.

Lemma number_virtual reached :
  NoDup reached → (∀ x, x ∈ reached ↔ x < n ∧ rtc R root (N.of_nat x)) →
  ∃ ts c nb, number_forest table (N.of_nat <$> tops) (length reached) = Ok (c, nb) ∧
    virtual_tree (from_numbered table nb) ts.
Proof using HV small Hroot HI Hbound.
  intros Hnd Hre. destruct virtual_forest as (ts & Hts & Hh & Hnf & Hin).
  destruct table_ranked as (rank & _ & Hpar). pose proof small_nodes as Hs. pose proof table_length as Hlen.
  destruct (chain_children_spec n Hs table Hlen rank Hpar) as (c & Hc & Hbk).
  destruct (number_forest_spec n Hs table Hlen rank Hpar c Hbk ts Hc Hh Hnf) as (nb & Hn & Ho & Hsz & Hp & Ha).
  rewrite Hts in Hn.
  assert (Hcount : length (flattens ts) = length reached).
  { apply Permutation_length, NoDup_Permutation; [done..|]. intros x. by rewrite Hin, Hre. }
  rewrite Hcount in Hn. exists ts, c, nb. split; [done|]. split; cbn; [done| |done].
  split; cbn; [done|done|done|by destruct nb|by destruct nb|done|].
  intros u Hu. assert (Hl : label u ∈ tops) by (rewrite <-Hts; by apply list_elem_of_In, in_map, list_elem_of_In).
  apply elem_of_tops in Hl as [Hl Ht]. rewrite unrooted_lookup, Ht by done. cbn. unfold unrooted. by rewrite decide_True.
Qed.

(** The parent of a node of the forest is above its predecessors. *)
Lemma virtual_up t ts p y a :
  virtual_tree t ts → within ts p → N.of_nat y ∈ sh_next s Outgoing (N.of_nat p) → parent_of n (dt_idom t) a y →
  above n (dt_idom t) a p.
Proof using HV small Hroot HI Hbound.
  intros HT Hp Hf Ha. apply (vt_within _ _ HT) in Hp as [Hpn Hpr]. rewrite (vt_table _ _ HT) in Ha |- *.
  apply table_parent_of in Ha as (Han & Hyn & Ha). rewrite <-Hbound, <-(id_index y) in Ha.
  destruct (parent_reached g s HV small root Hroot tbl HI a _ Ha) as (d & -> & _ & _ & _ & Hd & Hne & _).
  apply table_above; [done..|]. rewrite word_of_index. split; [done|]. intros q Hq. destruct Hd as [_ Hd].
  specialize (Hd _ (root_path_snoc s root q _ _ Hq Hf)). set_solver.
Qed.
End Virtual.
