(* ===== verification/DominatorTheorems.v ===== *)
(** * Dominator trees: what they guarantee

    The tree [graph/dominator.rs] computes, its queries and its walks, over any
    view that keeps the contract and fits in [u32], with witnesses on the
    sample store. *)

From S2P Require Import Prelude Ids View Store StoreInv StoreSpec StoreView History Samples Traverse Bfs Scc Dominator DomSearch DomTheory DomIdom DomNumber DomTree DomCompute.

Section Queries.
Context {G : Type} {HG : GraphView G} (g : G) (s : shape) (HV : Views g s).
Context (small : (N.of_nat (sh_bound s) ≤ U32_MAX)%N) (root : Id) (Hroot : root ∈ sh_nodes s).
Context (t : DominatorTree) (ts : list rtree) (HT : dominator_tree s root t ts).
Notation n := (sh_bound s).
Notation R := (edge_to (sh_next s Outgoing)).
Notation dominator := (dominator s root).

(** The strict dominators of a node, and its level. *)
Lemma tree_level x :
  index x < n → ∃ r, level t x = Ok r ∧
    (¬ rtc R root x → r = None) ∧
    (rtc R root x → ∃ ds, r = Some (N.of_nat (length ds)) ∧ NoDup ds ∧ ∀ d, d ∈ ds ↔ dominator d x ∧ d ≠ x).
Proof using HV small Hroot HT.
  intros Hx. destruct (tree_facts g s HV small root Hroot t ts HT) as (Hlen & rank & Hpar).
  pose proof (dt_numbers _ _ _ _ HT) as HN. unfold level.
  destruct (it_dec _ _ _ (dt_table _ _ _ _ HT) x) as [Hr|Hr].
  2:{ assert (Hout : index x ∉ flattens ts) by (intros Hin; apply Hr; by apply (dt_within _ _ _ _ HT)).
      rewrite (vget_eq _ _ _ (nf_absent _ _ _ HN (index x) Hx Hout)). rsimpl. rewrite decide_False by tauto. by exists None. }
  assert (Hw : within ts (index x)) by by apply (dt_within _ _ _ _ HT).
  destruct (pre_position n small t ts Hlen rank Hpar HN (index x) Hw) as (k & _ & Hk & Hkn).
  rewrite (vget_eq _ _ _ Hk). rsimpl. rewrite decide_True by by apply (small_not_absent k n small).
  destruct (level_bound n small t ts Hlen rank Hpar HN (index x) Hw) as (d & Hd & _). rewrite (vget_eq _ _ _ Hd). rsimpl.
  eexists. split; [done|]. split; [done|]. intros _.
  cut (∃ ds, length ds = d ∧ NoDup ds ∧ ∀ e, e ∈ ds ↔ dominator e x ∧ e ≠ x).
  { intros (ds & <- & ?). by exists ds. }
  clear k Hk Hkn Hx. revert x Hr Hw Hd. induction d as [|d IH]; intros x Hr Hw Hd.
  - exists []. split_and!; [done|constructor|]. intros e. split; [by intros ?%elem_of_nil|]. intros [He Hne].
    apply (tree_above g s HV small root Hroot t ts e x HT Hr) in He.
    assert (Hwe : within ts (index e)) by (by apply (above_within n small t ts Hlen rank Hpar HN _ (index x))).
    destruct (level_bound n small t ts Hlen rank Hpar HN (index e) Hwe) as (de & Hde & _).
    destruct (above_level n small t ts Hlen rank Hpar HN _ _ de 0 He Hw Hde Hd) as [Heq%index_inj|]; [done|lia].
  - destruct (level_up n small t ts Hlen rank Hpar HN (index x) d Hw Hd) as (p & _ & Hp & Hpw & Hpl & Hpa).
    apply (parent_reached g s HV small root Hroot _ (dt_table _ _ _ _ HT)) in Hp as (i & -> & Hi & _ & Hxr & Hid).
    destruct (IH i Hi Hpw Hpl) as (ds & Hlen' & Hnd & Hds). exists (i :: ds). split_and!; [by cbn; rewrite Hlen'| |].
    + constructor; [|done]. by intros [_ ?]%Hds.
    + intros e. rewrite elem_of_cons, Hds. split.
      * intros [->|[He Hne]]; [by split; apply Hid|]. split.
        -- apply (dominator_trans s root e i x He). apply Hid.
        -- intros ->. apply Hne. apply (dominator_antisym s small root _ (dt_table _ _ _ _ HT)); [done|apply Hid].
      * intros [He Hne]. destruct (decide (e = i)) as [|Hei]; [by left|right]. split; [|done]. by apply Hid.
Qed.

Lemma in_preorder x : x ∈ preorder t ↔ rtc R root x.
Proof using HT.
  rewrite <-(dt_within _ _ _ _ HT). unfold preorder. rewrite (nf_order _ _ _ (dt_numbers _ _ _ _ HT)), list_elem_of_fmap. split.
  - intros (i & -> & Hi). unfold within, index. by rewrite Nat2N.id.
  - intros Hi. exists (index x). by rewrite word_of_index.
Qed.

Lemma tree_preorder :
  NoDup (preorder t) ∧ (∀ x, x ∈ preorder t ↔ rtc R root x) ∧
  ∀ d x, dominator d x → d ≠ x → before (preorder t) d x.
Proof using HV small Hroot HT.
  destruct (tree_facts g s HV small root Hroot t ts HT) as (Hlen & rank & Hpar). pose proof (dt_numbers _ _ _ _ HT) as HN.
  pose proof (λ d z, tree_above g s HV small root Hroot t ts d z HT) as Habove.
  split_and!; [|apply in_preorder|].
  + unfold preorder. rewrite (nf_order _ _ _ HN). apply NoDup_fmap_2; [intros ???; lia|apply (nf_nodup _ _ _ HN)].
  + intros d x Hd Hne. assert (Hx : rtc R root x) by apply Hd. assert (Hdr : rtc R root d) by by apply (dominator_reached s root d x).
    apply Habove in Hd; [|done]. apply (dt_within _ _ _ _ HT) in Hx as Hxw. apply (dt_within _ _ _ _ HT) in Hdr as Hdw.
    destruct (within_tree n t ts HN (index d) Hdw) as (l1 & u & l2 & lv & Ht).
    destruct (pre_position n small t ts Hlen rank Hpar HN (index x) Hxw) as (k & Hk & _ & _).
    assert (Hd' : flattens ts !! length l1 = Some (index d)).
    { rewrite (ta_split _ _ _ _ _ _ _ _ Ht), lookup_app_r, Nat.sub_diag, flatten_cons, (ta_label _ _ _ _ _ _ _ _ Ht) by done. done. }
    apply (span_above n small t ts Hlen rank Hpar HN _ _ _ _ _ _ k Ht Hk) in Hd as Hkr.
    assert (Hlk : length l1 < k).
    { destruct (decide (k = length l1)) as [->|]; [|lia]. rewrite Hk in Hd'. injection Hd' as ?%index_inj. congruence. }
    unfold preorder. rewrite (nf_order _ _ _ HN). apply before_lookup with (length l1) k; [done| |];
      rewrite list_lookup_fmap, ?Hk, ?Hd'; cbn; by rewrite word_of_index.
Qed.

(** The nodes [x] dominates. *)
Lemma tree_subtree x :
  index x < n → ∃ l, subtree t x = Ok l ∧ (∀ y, y ∈ l ↔ dominator x y) ∧
    (rtc R root x → head l = Some x ∧ ∃ before after, preorder t = before ++ l ++ after).
Proof using HV small Hroot HT.
  intros Hx.
  destruct (tree_facts g s HV small root Hroot t ts HT) as (Hlen & rank & Hpar). pose proof (dt_numbers _ _ _ _ HT) as HN.
  pose proof (λ d z, tree_above g s HV small root Hroot t ts d z HT) as Habove.
  destruct (subtree_spec n small t ts Hlen rank Hpar HN (index x) Hx) as (l & Hl & Hw & Hnw). rewrite word_of_index in Hl.
  exists l. split; [done|]. destruct (it_dec _ _ _ (dt_table _ _ _ _ HT) x) as [Hxr|Hxr].
  * apply (dt_within _ _ _ _ HT) in Hxr as Hxw. destruct (Hw Hxw) as (l1 & u & l2 & lv & Ht & ->). split.
    -- intros y. rewrite list_elem_of_fmap. split.
       ++ intros (i & -> & Hiu). replace i with (index (N.of_nat i)) in Hiu by (unfold index; lia).
          apply (elem_of_flatten n small (dt_idom t) Hlen rank Hpar) in Hiu; [|apply (ta_hangs _ _ _ _ _ _ _ _ Ht)].
          rewrite (ta_label _ _ _ _ _ _ _ _ Ht) in Hiu. apply Habove; [|done].
          apply (dt_within _ _ _ _ HT). apply (within_above n small t ts Hlen rank Hpar HN (index x)); done.
       ++ intros Hd. exists (index y). split; [by rewrite word_of_index|].
          apply (elem_of_flatten n small (dt_idom t) Hlen rank Hpar); [apply (ta_hangs _ _ _ _ _ _ _ _ Ht)|].
          rewrite (ta_label _ _ _ _ _ _ _ _ Ht). apply Habove; [apply Hd|done].
    -- intros _. split.
       ++ rewrite flatten_cons, (ta_label _ _ _ _ _ _ _ _ Ht). cbn. by rewrite word_of_index.
       ++ exists (N.of_nat <$> l1), (N.of_nat <$> l2). unfold preorder.
          by rewrite (nf_order _ _ _ HN), (ta_split _ _ _ _ _ _ _ _ Ht), !fmap_app.
  * rewrite Hnw by by rewrite (dt_within _ _ _ _ HT). split; [|done]. intros y. split; [by intros ?%elem_of_nil|].
    intros Hd. by apply (dominator_reached s root x y) in Hd.
Qed.

(** The nodes [x] immediately dominates. *)
Lemma tree_children x :
  index x < n → ∃ l, children t x = Ok l ∧ StronglySorted N.lt l ∧ ∀ y, y ∈ l ↔ immediate s root x y.
Proof using HV small Hroot HT.
  intros Hx.
  destruct (tree_facts g s HV small root Hroot t ts HT) as (Hlen & rank & Hpar). pose proof (dt_numbers _ _ _ _ HT) as HN.
  destruct (children_spec n small t ts Hlen rank Hpar HN (index x) Hx) as (l & Hl & Hw & Hnw). rewrite word_of_index in Hl.
  exists l. split; [done|]. destruct (it_dec _ _ _ (dt_table _ _ _ _ HT) x) as [Hxr|Hxr].
  * rewrite Hw by by apply (dt_within _ _ _ _ HT). split.
    -- apply (StronglySorted_fmap lt); [intros; lia|]. apply StronglySorted_filter, seq_ascending.
    -- intros y. rewrite list_elem_of_fmap. split.
       ++ intros (i & -> & Hi). apply (elem_of_kids n small (dt_idom t) Hlen rank Hpar) in Hi; [|done].
          replace i with (index (N.of_nat i)) in Hi by (unfold index; lia).
          by apply (table_parent g s HV small root Hroot _ (dt_table _ _ _ _ HT) x _ Hxr) in Hi as (_ & _ & ?).
       ++ intros Hi. exists (index y). split; [by rewrite word_of_index|].
          apply (elem_of_kids n small (dt_idom t) Hlen rank Hpar); [done|].
          apply (table_parent g s HV small root Hroot _ (dt_table _ _ _ _ HT) x _ Hxr). split_and!; [apply Hi| |done].
          intros ->. destruct Hi as (Hd & Hne & _). by apply dominator_of_root in Hd.
  * rewrite Hnw by by rewrite (dt_within _ _ _ _ HT). split; [constructor|]. intros y. split; [by intros ?%elem_of_nil|].
    intros (Hd & _). by apply (dominator_reached s root x y) in Hd.
Qed.

(** The deepest common dominator. *)
Lemma tree_nearest x y :
  rtc R root x → rtc R root y →
  ∃ m, nearest_common_dominator t x y = Ok (Some m) ∧ rtc R root m ∧
    ∀ e, dominator e m ↔ dominator e x ∧ dominator e y.
Proof using HV small Hroot HT.
  intros Hx Hy. destruct (tree_facts g s HV small root Hroot t ts HT) as (Hlen & rank & Hpar).
  pose proof (dt_numbers _ _ _ _ HT) as HN. pose proof (reached_lt g s HV root Hroot) as Hlt.
  destruct (nearest_common_dominator_spec n small t ts Hlen rank Hpar HN (index x) (index y) (Hlt x Hx) (Hlt y Hy))
    as (r & Hr & Hnear & _). rewrite !word_of_index in Hr. rewrite Hr.
  specialize (Hnear ltac:(by apply (dt_within _ _ _ _ HT)) ltac:(by apply (dt_within _ _ _ _ HT))).
  pose proof (λ d z, tree_above g s HV small root Hroot t ts d z HT) as Habove.
  destruct r as [m|].
  - destruct Hnear as (Hmx & Hmy & Hmax). rewrite Habove in Hmx, Hmy by done.
    assert (Hm : rtc R root m) by by apply (dominator_reached s root m x).
    exists m. split_and!; [done..|]. intros e. split.
    + intros He. split; by apply (dominator_trans s root e m).
    + intros [Hex Hey]. rewrite <-Habove in Hex, Hey |- * by done. by apply Hmax.
  - exfalso. apply (Hnear (index root)); rewrite Habove by done; by apply dominator_root.
Qed.

(** [common_of] meets the reachable nodes one after the other. *)
Lemma tree_common_of common nodes :
  (∀ x, x ∈ nodes → index x < n) → (∀ c, common = Some c → rtc R root c) →
  ∃ r, common_of t common nodes = Ok r ∧
    match r with
    | None => common = None ∧ ∀ x, x ∈ nodes → ¬ rtc R root x
    | Some m => rtc R root m ∧
        ∀ e, dominator e m ↔ (∀ c, common = Some c → dominator e c) ∧ (∀ x, x ∈ nodes → rtc R root x → dominator e x)
    end.
Proof using HV small Hroot HT.
  revert common. induction nodes as [|x nodes IH]; intros common Hb Hc; cbn [common_of].
  { exists common. split; [done|]. destruct common as [c|].
    - split; [by apply Hc|]. intros e. split; [|by intros [? _]; auto]. intros He. split; [by intros ? [= <-]|set_solver].
    - split; [done|set_solver]. }
  destruct (tree_is_reachable g s HV small root Hroot t ts x HT) as (b & -> & Hbx); [apply Hb; left|]. rsimpl.
  assert (Hb' : ∀ y, y ∈ nodes → index y < n) by (intros; apply Hb; by right).
  destruct b.
  - assert (Hx : rtc R root x) by by apply Hbx. destruct common as [c|].
    + destruct (tree_nearest c x ltac:(by apply Hc) Hx) as (m & -> & Hm & Hmd). rsimpl.
      destruct (IH (Some m) Hb') as (r & -> & Hr); [by intros ? [= <-]|]. exists r. split; [done|].
      destruct r as [r|]; [|by destruct Hr]. destruct Hr as [Hrr Hrd]. split; [done|]. intros e. rewrite Hrd. split.
      * intros [H1 H2]. specialize (H1 m eq_refl). apply Hmd in H1 as [H3 H4]. split; [by intros ? [= <-]|].
        intros y [->|Hy]%elem_of_cons; auto.
      * intros [H1 H2]. split; [|intros y Hy; apply H2; by right]. intros ? [= <-]. apply Hmd. split; [by apply H1|].
        apply H2; [left|done].
    + destruct (IH (Some x) Hb') as (r & -> & Hr); [by intros ? [= <-]|]. exists r. split; [done|].
      destruct r as [r|]; [|by destruct Hr]. destruct Hr as [Hrr Hrd]. split; [done|]. intros e. rewrite Hrd. split.
      * intros [H1 H2]. split; [done|]. intros y [->|Hy]%elem_of_cons; auto.
      * intros [_ H2]. split; [|intros y Hy; apply H2; by right]. intros ? [= <-]. apply H2; [left|done].
  - assert (Hx : ¬ rtc R root x) by (intros Hx; by apply Hbx in Hx).
    destruct (IH common Hb' Hc) as (r & -> & Hr). exists r. split; [done|]. destruct r as [r|].
    + destruct Hr as [Hrr Hrd]. split; [done|]. intros e. rewrite Hrd. split; intros [H1 H2]; (split; [done|]).
      * intros y [->|Hy]%elem_of_cons Hyr; [done|auto].
      * intros y Hy. apply H2. by right.
    + destruct Hr as [-> Hr]. split; [done|]. intros y [->|Hy]%elem_of_cons; auto.
Qed.
End Queries.

(** ** The main theorems *)

Section Theorems.
Context {G : Type} {HG : GraphView G} (g : G) (s : shape) (root : Id).
Notation n := (sh_bound s).
Notation R := (edge_to (sh_next s Outgoing)).
Notation dominator := (dominator s root).
Notation immediate := (immediate s root).

(** A view the construction accepts: it keeps the contract, fits in [u32] and
    has the root. *)
Record rooted_at : Prop := {
  ra_views : Views g s;
  ra_small : (N.of_nat (sh_bound s) ≤ U32_MAX)%N;
  ra_root : root ∈ sh_nodes s;
}.

Lemma computed_tree t : rooted_at → compute_from g root = Ok t → ∃ ts, dominator_tree s root t ts.
Proof.
  intros [HV Hs Hr] Hc. destruct (compute_from_spec g s HV Hs root Hr scratch_new) as (sc & t' & ts & Hrun & HT).
  unfold compute_from in Hc. rewrite Hrun in Hc. injection Hc as <-. by exists ts.
Qed.

(** C11: the construction panics on a node bound beyond [u32] and on a root out
    of range. On a rooted view it never panics, whatever the scratch holds: its
    parent property holds, a node is reachable when the root reaches it,
    [dominates] answers whether every path from the root to a reached node
    passes through the other, and [idom] is the dominator that every other
    strict dominator dominates. *)
Theorem dominator_tree_is_dominance scratch :
  ((U32_MAX < N.of_nat (gv_node_bound g))%N →
    compute_from_in scratch g root = Panic "node bound exceeds the dense u32 range of a dominator tree") ∧
  ((N.of_nat (gv_node_bound g) ≤ U32_MAX)%N → gv_node_bound g ≤ index root →
    compute_from_in scratch g root = Panic "dominator root is not a node of the graph") ∧
  (rooted_at → ∃ scratch' t, compute_from_in scratch g root = Ok (scratch', t) ∧ compute_from g root = Ok t ∧
    ∀ x, index x < n →
      (∃ b, is_reachable t x = Ok b ∧ (b = true ↔ rtc R root x)) ∧
      (∃ r, idom t x = Ok r ∧ ∀ d, r = Some d ↔ immediate d x) ∧
      ∀ d, index d < n →
        (∃ b, dominates t d x = Ok b ∧ (b = true ↔ d = x ∨ dominator d x)) ∧
        (∃ b, strictly_dominates t d x = Ok b ∧ (b = true ↔ d ≠ x ∧ dominator d x))).
Proof.
  split_and!.
  - intros Hbig. unfold compute_from_in, check_bound. rewrite (bool_decide_false (is_Some _)); [done|].
    intros [r [_ Hr]%u32_try_from_Some]. lia.
  - intros Hfit Hout. unfold compute_from_in, check_bound.
    rewrite (bool_decide_true (is_Some _)) by (exists (N.of_nat (gv_node_bound g)); by apply u32_try_from_Some). rsimpl.
    by rewrite (bool_decide_false (index root < _)) by lia.
  - intros [HV Hs Hr]. destruct (compute_from_spec g s HV Hs root Hr scratch) as (sc & t & ts & Hrun & HT).
    exists sc, t. split; [done|]. split.
    { unfold compute_from. assert (compute_from_in scratch_new g root = Ok (sc, t)) as -> by exact Hrun. done. }
    intros x Hx. split_and!; [by apply (tree_is_reachable g s HV Hs root Hr t ts)|by apply (tree_idom g s HV Hs root Hr t ts)|].
    intros d Hd. destruct (tree_dominates g s HV Hs root Hr t ts d x HT Hd Hx) as (b & Hb & Hiff).
    split; [by exists b|]. unfold strictly_dominates. case_decide as Hne.
    + exists b. split; [done|]. rewrite Hiff. naive_solver.
    + exists false. split; [done|]. split; [done|]. by intros [? _].
Qed.

(** On a computed tree [level] counts the strict dominators of a reached
    node; the preorder lists the reached nodes once, dominators before what they
    dominate; a subtree is the run of the preorder that its root dominates;
    [children] lists in ascending order the nodes it immediately dominates. *)
Theorem dominator_queries_agree t :
  rooted_at → compute_from g root = Ok t →
  (NoDup (preorder t) ∧ (∀ x, x ∈ preorder t ↔ rtc R root x) ∧
    ∀ d x, dominator d x → d ≠ x → before (preorder t) d x) ∧
  ∀ x, index x < n →
    (∃ r, level t x = Ok r ∧ (¬ rtc R root x → r = None) ∧
      (rtc R root x → ∃ ds, r = Some (N.of_nat (length ds)) ∧ NoDup ds ∧ ∀ d, d ∈ ds ↔ dominator d x ∧ d ≠ x)) ∧
    (∃ l, subtree t x = Ok l ∧ (∀ y, y ∈ l ↔ dominator x y) ∧
      (rtc R root x → head l = Some x ∧ ∃ before after, preorder t = before ++ l ++ after)) ∧
    (∃ l, children t x = Ok l ∧ StronglySorted N.lt l ∧ ∀ y, y ∈ l ↔ immediate x y).
Proof.
  intros Hra Hc. pose proof Hra as [HV Hs Hr]. destruct (computed_tree t Hra Hc) as [ts HT].
  split; [by apply (tree_preorder g s HV Hs root Hr t ts)|]. intros x Hx.
  split_and!; [by apply (tree_level g s HV Hs root Hr t ts)|
    by apply (tree_subtree g s HV Hs root Hr t ts)|by apply (tree_children g s HV Hs root Hr t ts)].
Qed.

(** On a computed tree the nearest common dominator of two reached nodes is
    the deepest node dominating both, and there is none when one of them is not
    reached. The one of several nodes skips those the root does not reach,
    dominates all the others, and is none only when no node is left. *)
Theorem nearest_common_dominator_is_deepest t :
  rooted_at → compute_from g root = Ok t →
  (∀ x y, index x < n → index y < n → ∃ r, nearest_common_dominator t x y = Ok r ∧
    match r with
    | None => ¬ (rtc R root x ∧ rtc R root y)
    | Some m => ∀ e, dominator e m ↔ dominator e x ∧ dominator e y
    end) ∧
  ∀ nodes, (∀ x, x ∈ nodes → index x < n) → ∃ r, nearest_common_dominator_of t nodes = Ok r ∧
    match r with
    | None => ∀ x, x ∈ nodes → ¬ rtc R root x
    | Some m => ∀ e, dominator e m ↔ rtc R root e ∧ ∀ x, x ∈ nodes → rtc R root x → dominator e x
    end.
Proof.
  intros Hra Hc. pose proof Hra as [HV Hs Hr]. destruct (computed_tree t Hra Hc) as [ts HT]. split.
  - intros x y Hx Hy. destruct (tree_facts g s HV Hs root Hr t ts HT) as (Hlen & rank & Hpar).
    destruct (nearest_common_dominator_spec n Hs t ts Hlen rank Hpar (dt_numbers _ _ _ _ HT) (index x) (index y) Hx Hy)
      as (r & Hrun & _ & Hnone). rewrite !word_of_index in Hrun. rewrite !(dt_within _ _ _ _ HT) in Hnone.
    destruct (it_dec _ _ _ (dt_table _ _ _ _ HT) x) as [Hxr|Hxr]; [|exists r; split; [done|]; rewrite Hnone; tauto].
    destruct (it_dec _ _ _ (dt_table _ _ _ _ HT) y) as [Hyr|Hyr]; [|exists r; split; [done|]; rewrite Hnone; tauto].
    destruct (tree_nearest g s HV Hs root Hr t ts HT x y Hxr Hyr) as (m & Hm & _ & Hd). by exists (Some m).
  - intros nodes Hb.
    destruct (tree_common_of g s HV Hs root Hr t ts HT None nodes Hb ltac:(done)) as (r & Hrun & Hspec).
    exists r. split; [done|]. destruct r as [m|]; [|by destruct Hspec].
    destruct Hspec as [Hm Hd]. intros e. rewrite Hd. split.
    + intros [_ H]. split; [|done]. apply (dominator_reached s root e m). by apply Hd.
    + intros [_ H]. done.
Qed.
End Theorems.

(** ** Differences and scoped walks *)

Section Diff.
Context {G : Type} {HG : GraphView G} {HR : RootedView G} (g : G) (s : shape).

(** Recomputing after an edit reports, in ascending order, exactly the
    nodes whose immediate dominator is not the one in the earlier tree. *)
Theorem compute_with_diff_reports_changes {G' : Type} {HG' : GraphView G'} (g' : G') (s' : shape) root' previous :
  rooted_at g s (gv_root g) → rooted_at g' s' root' → compute_from g' root' = Ok previous →
  sh_bound s ≤ sh_bound s' →
  ∃ t changed, compute_with_diff g previous = Ok (t, changed) ∧ compute g = Ok t ∧ StronglySorted N.lt changed ∧
    ∀ x, x ∈ changed ↔ index x < sh_bound s ∧ ¬ ∀ d, immediate s (gv_root g) d x ↔ immediate s' root' d x.
Proof.
  intros Hra Hra' Hc' Hle. pose proof Hra as [HV Hs Hr]. pose proof Hra' as [HV' Hs' Hr'].
  destruct (compute_from_spec g s HV Hs (gv_root g) Hr scratch_new) as (sc & t & ts & Hrun & HT).
  destruct (computed_tree g' s' root' previous Hra' Hc') as [ts' HT'].
  assert (Hc : compute g = Ok t) by (unfold compute, compute_in; by rewrite Hrun).
  unfold compute_with_diff. rewrite Hc. rsimpl. rewrite (vw_bound (g := g) (s := s)).
  set (differs x := ¬ ∀ d, immediate s (gv_root g) d x ↔ immediate s' root' d x).
  destruct (rfold_inv (λ done changed, StronglySorted N.lt changed ∧
      ∀ x, x ∈ changed ↔ index x ∈ done ∧ differs x)
    (λ changed i, node ← from_index i; old ← idom previous node; new ← idom t node;
      mret (if decide (old = new) then changed else changed ++ [node])) [] (seq 0 (sh_bound s)))
    as (changed & -> & Hsort & Hin).
  - split; [constructor|]. intros x. split; [by intros ?%elem_of_nil|]. by intros [?%elem_of_nil _].
  - intros dn i changed [rest Hpre] [Hsort Hin].
    assert (Hi : i = length dn ∧ i < sh_bound s).
    { assert (seq 0 (sh_bound s) !! length dn = Some i) as Hl.
      { rewrite Hpre, <-app_assoc, lookup_app_r, Nat.sub_diag by done. done. }
      apply lookup_seq in Hl. lia. }
    assert (Hdn : ∀ j, j ∈ dn → j < i).
    { intros j [k Hk]%list_elem_of_lookup. pose proof (lookup_lt_Some _ _ _ Hk).
      assert (seq 0 (sh_bound s) !! k = Some j) as Hl by (rewrite Hpre, <-app_assoc; by apply lookup_app_l_Some).
      apply lookup_seq in Hl. lia. }
    rewrite from_index_eq by lia. rsimpl.
    assert (Hix : index (N.of_nat i) = i) by (unfold index; lia).
    destruct (tree_idom g' s' HV' Hs' root' Hr' previous ts' (N.of_nat i) HT') as (old & -> & Hold); [lia|]. rsimpl.
    destruct (tree_idom g s HV Hs (gv_root g) Hr t ts (N.of_nat i) HT) as (new & -> & Hnew); [lia|]. rsimpl.
    assert (Hdiff : old = new ↔ ¬ differs (N.of_nat i)).
    { unfold differs. split.
      - intros <- Hd. apply Hd. intros d. by rewrite <-Hnew, <-Hold.
      - intros Hd. destruct (decide (old = new)) as [|Hne]; [done|]. destruct Hd. intros Hd. apply Hne.
        destruct old as [d|]; [symmetry; apply Hnew, Hd, Hold; done|].
        destruct new as [d|]; [|done]. apply Hold, Hd, Hnew. done. }
    eexists. split; [done|]. case_decide as Heq.
    + split; [done|]. intros x. rewrite Hin, elem_of_app, list_elem_of_singleton. split; [tauto|].
      intros [[?|Hx] Hd]; [done|]. exfalso. apply Hdiff in Heq. apply Heq. by rewrite <-Hx, word_of_index.
    + split.
      * apply StronglySorted_app_2; [|done|repeat constructor]. intros x y [Hx%Hdn _]%Hin ->%list_elem_of_singleton.
        unfold index in Hx. lia.
      * intros x. rewrite !elem_of_app, !list_elem_of_singleton, Hin. split.
        -- intros [?| ->]; [tauto|]. split; [by right|]. unfold differs. intros Hd. apply Heq, Hdiff. auto.
        -- intros [[?|Hx] Hd]; [by left|right]. by rewrite <-Hx, word_of_index.
  - rsimpl. exists t, changed. split_and!; [done..|]. intros x. rewrite Hin, elem_of_seq. split; intros [? ?]; (split; [lia|done]).
Qed.
End Diff.

Section Walks.
Context {G : Type} {HG : GraphView G} (g : G) (s : shape) (root : Id).
Context {S T : Type} (enter : S → Id → S * T) (exit : S → Id → T → S).

(** A scoped walk of a computed tree is the recursive one: from a reached
    node it enters the node, walks the nodes it immediately dominates in
    ascending order and exits the node; a root that is not reached is skipped;
    the roots are walked in the order given. *)
Theorem scoped_walk_nests t :
  rooted_at g s root → compute_from g root = Ok t →
  (∀ r roots state, scoped_walk enter exit t (r :: roots) state =
    (state ← scoped_walk enter exit t [r] state; scoped_walk enter exit t roots state)) ∧
  (∀ state, scoped_walk enter exit t [] state = Ok state) ∧
  ∀ x, index x < sh_bound s →
    (¬ rtc (edge_to (sh_next s Outgoing)) root x → ∀ state, scoped_walk enter exit t [x] state = Ok state) ∧
    (rtc (edge_to (sh_next s Outgoing)) root x → ∃ cs, children t x = Ok cs ∧ ∀ state,
      scoped_walk enter exit t [x] state =
        (let '(state, scope) := enter state x in
         state ← scoped_walk enter exit t cs state; mret (exit state x scope)) ∧
      ∃ state', scoped_walk enter exit t [x] state = Ok state').
Proof.
  intros Hra Hc. pose proof Hra as [HV Hs Hr]. destruct (computed_tree g s root t Hra Hc) as [ts HT].
  destruct (tree_facts g s HV Hs root Hr t ts HT) as (Hlen & rank & Hpar). pose proof (dt_numbers _ _ _ _ HT) as HN.
  assert (Hsplit : ∀ r roots state, scoped_walk enter exit t (r :: roots) state =
    (state ← scoped_walk enter exit t [r] state; scoped_walk enter exit t roots state)).
  { intros r roots state. unfold scoped_walk. change (r :: roots) with ([r] ++ roots). by rewrite rfold_app. }
  assert (Hone : ∀ y l1 u l2 d state, tree_at (sh_bound s) t ts y l1 u l2 d →
    scoped_walk enter exit t [N.of_nat y] state = Ok (scoped enter exit u state)).
  { intros y l1 u l2 d state Ht. apply (scoped_walk_one enter exit _ t ts HN Hs y l1 u l2 d state Ht).
    pose proof (order_below _ Hs t ts Hlen rank Hpar HN) as Hb. rewrite (ta_split _ _ _ _ _ _ _ _ Ht), !length_app, flatten_cons in Hb.
    cbn in Hb. lia. }
  split_and!; [done|done|]. intros x Hx. split.
  - intros Hxr state. unfold scoped_walk. cbn [rfold]. unfold span.
    rewrite (vget_eq _ _ _ (nf_absent _ _ _ HN (index x) Hx ltac:(intros Hin; apply Hxr; by apply (dt_within _ _ _ _ HT)))).
    rsimpl. by rewrite decide_True.
  - intros Hxr. apply (dt_within _ _ _ _ HT) in Hxr as Hxw.
    destruct (within_tree _ t ts HN (index x) Hxw) as (l1 & u & l2 & d & Ht).
    destruct (children_spec _ Hs t ts Hlen rank Hpar HN (index x) Hx) as (cs & Hcs & Hw & _). rewrite word_of_index in Hcs.
    exists cs. split; [done|]. intros state. rewrite (Hw Hxw).
    pose proof (Hone _ _ _ _ _ state Ht) as Hrun. rewrite word_of_index in Hrun. split; [|by eexists].
    rewrite Hrun. destruct u as [i us]. pose proof (ta_label _ _ _ _ _ _ _ _ Ht) as Hl. cbn in Hl. subst i.
    cbn [scoped]. rewrite word_of_index. destruct (enter state x) as [s1 sc].
    assert (Hus : ∀ v, v ∈ us → ∀ state, scoped_walk enter exit t [N.of_nat (label v)] state = Ok (scoped enter exit v state)).
    { intros v Hv st. pose proof (ta_hangs _ _ _ _ _ _ _ _ Ht) as Hh. inversion Hh as [? ? Hi Hkids Hvs]; subst.
      rewrite Forall_forall in Hvs. assert (Hk : label v ∈ kids (sh_bound s) (dt_idom t) (index x)).
      { rewrite <-Hkids. apply list_elem_of_In, in_map, list_elem_of_In. done. }
      apply (elem_of_kids _ Hs (dt_idom t) Hlen rank Hpar) in Hk; [|done].
      assert (Hvw : within ts (label v)).
      { apply (within_above _ Hs t ts Hlen rank Hpar HN (index x)); [by apply rtc_once|done|done]. }
      destruct (within_tree _ t ts HN (label v) Hvw) as (l1' & v' & l2' & d' & Ht'). 
      assert (v' = v) as ->; [|by apply (Hone _ _ _ _ _ _ Ht')].
      apply (hangs_unique (sh_bound s) (dt_idom t)); [apply Ht'|by apply Hvs|apply (ta_label _ _ _ _ _ _ _ _ Ht')]. }
    pose proof (ta_hangs _ _ _ _ _ _ _ _ Ht) as Hh. inversion Hh as [? ? _ Hkids _]; subst. rewrite <-Hkids.
    cut (scoped_walk enter exit t (N.of_nat <$> map label us) s1 = Ok (foldl (λ st u, scoped enter exit u st) s1 us)).
    { intros ->. done. }
    clear -Hus Hsplit. revert s1. induction us as [|v us IH]; intros s1; [done|]. cbn [map fmap list_fmap].
    rewrite Hsplit, (Hus v) by left. rsimpl. apply IH. intros v' Hv'. apply Hus. by right.
Qed.
End Walks.

(** ** Witnesses *)

(** The sample store from its node 3, which reaches nodes 2 and 0. *)
Lemma sample_rooted : ∃ s, rooted_at sample_store s 3%N ∧ sh_bound s = 4 ∧ sh_nodes s = [0; 2; 3]%N.
Proof.
  destruct sample_nodes as (s & HV & Hns & Hb & _). exists s. split; [|done].
  split; [done|rewrite Hb; vm_compute; discriminate|rewrite Hns; right; right; left].
Qed.

Definition sample_tree : DominatorTree :=
  match compute_from sample_store 3%N with Ok t => t | _ => mk_Tree [] [] [] [] [] end.

Lemma sample_computed : compute_from sample_store 3%N = Ok sample_tree.
Proof. vm_compute. reflexivity. Qed.

Lemma dominator_tree_is_dominance_witness :
  ∃ s, rooted_at sample_store s 3%N ∧ ∃ t, compute_from sample_store 3%N = Ok t ∧
    dominates t 2%N 0%N = Ok true ∧ dominator s 3%N 2%N 0%N.
Proof.
  destruct sample_rooted as (s & Hra & Hb & _). exists s. split; [exact Hra|].
  destruct (dominator_tree_is_dominance sample_store s 3%N scratch_new) as (_ & _ & H).
  destruct (H Hra) as (sc & t & _ & Hc & Hx). exists t. split; [exact Hc|].
  destruct (Hx 0%N) as (_ & _ & Hd); [rewrite Hb; vm_compute; lia|].
  destruct (Hd 2%N) as [(b & Hrun & Hiff) _]; [rewrite Hb; vm_compute; lia|].
  vm_compute in Hc. injection Hc as <-. split; [vm_compute; reflexivity|].
  vm_compute in Hrun. injection Hrun as <-. destruct Hiff as [Hiff _]. destruct (Hiff eq_refl) as [?|?]; [discriminate|done].
Defined.

Lemma dominator_queries_agree_witness :
  ∃ s, rooted_at sample_store s 3%N ∧ children sample_tree 3%N = Ok [2%N] ∧ immediate s 3%N 3%N 2%N.
Proof.
  destruct sample_rooted as (s & Hra & Hb & _). exists s. split; [exact Hra|].
  destruct (dominator_queries_agree sample_store s 3%N sample_tree Hra sample_computed) as [_ H].
  destruct (H 3%N) as (_ & _ & l & Hl & _ & Hin); [rewrite Hb; vm_compute; lia|].
  assert (l = [2%N]) as -> by (vm_compute in Hl; by injection Hl as <-).
  split; [exact Hl|]. apply Hin. left.
Defined.

Lemma nearest_common_dominator_is_deepest_witness :
  ∃ s, rooted_at sample_store s 3%N ∧ nearest_common_dominator sample_tree 0%N 2%N = Ok (Some 2%N) ∧
    ∀ e, dominator s 3%N e 2%N ↔ dominator s 3%N e 0%N ∧ dominator s 3%N e 2%N.
Proof.
  destruct sample_rooted as (s & Hra & Hb & _). exists s. split; [exact Hra|].
  destruct (nearest_common_dominator_is_deepest sample_store s 3%N sample_tree Hra sample_computed) as [H _].
  destruct (H 0%N 2%N) as (r & Hr & Hspec); [rewrite Hb; vm_compute; lia..|].
  assert (r = Some 2%N) as -> by (vm_compute in Hr; by injection Hr as <-). split; [exact Hr|exact Hspec].
Defined.

Lemma compute_with_diff_reports_changes_witness :
  let g := mk_Rooted sample_store 0%N in
  ∃ s, rooted_at g s 0%N ∧ rooted_at sample_store s 3%N ∧
    ∃ t, compute_with_diff g sample_tree = Ok (t, [0; 2]%N).
Proof.
  intros g. destruct sample_rooted as (s & Hra & Hb & Hns). exists s.
  assert (Hra' : rooted_at g s 0%N).
  { destruct Hra as [HV Hs _]. split; [by apply (Rooted_Views sample_store 0%N s)|done|rewrite Hns; left]. }
  split; [exact Hra'|]. split; [exact Hra|].
  destruct (compute_with_diff_reports_changes g s sample_store s 3%N sample_tree Hra' Hra sample_computed ltac:(done))
    as (t & changed & Hrun & _). exists t.
  assert (changed = [0; 2]%N) as -> by (vm_compute in Hrun; by injection Hrun as <- <-). exact Hrun.
Defined.

(** A walk that records when nodes are entered and exited. *)
Definition trace_enter (log : list (bool * Id)) (node : Id) : list (bool * Id) * () := (log ++ [(true, node)], tt).
Definition trace_exit (log : list (bool * Id)) (node : Id) (_ : ()) : list (bool * Id) := log ++ [(false, node)].

Lemma scoped_walk_nests_witness :
  ∃ s, rooted_at sample_store s 3%N ∧ scoped_walk trace_enter trace_exit sample_tree [1%N] [] = Ok [] ∧
    scoped_walk trace_enter trace_exit sample_tree [3%N] [] =
      Ok [(true, 3); (true, 2); (true, 0); (false, 0); (false, 2); (false, 3)]%N ∧
    ∀ roots state, scoped_walk trace_enter trace_exit sample_tree (3%N :: roots) state =
      (state ← scoped_walk trace_enter trace_exit sample_tree [3%N] state;
       scoped_walk trace_enter trace_exit sample_tree roots state).
Proof.
  destruct sample_rooted as (s & Hra & Hb & _). exists s. split; [exact Hra|].
  split; [vm_compute; reflexivity|]. split; [vm_compute; reflexivity|].
  destruct (scoped_walk_nests sample_store s 3%N trace_enter trace_exit sample_tree Hra sample_computed) as [H _].
  intros roots state. apply H.
Defined.
