(* ===== verification/Structure.v ===== *)
(** * Back edges and reducibility

    Models the detectors of [graph/structure.rs] that read dominance: back
    edges with and without the builder's tags, reducibility, and the exits of a
    loop body. *)

From S2P Require Import Prelude Ids View EdgeViews EdgeKinds Scc Dominator Events.

(** [BackEdge], ordered by tail and then by header *)
Record BackEdge : Type := mk_BackEdge { be_tail : Id; be_header : Id }.

#[export] Instance BackEdge_eq_dec : EqDecision BackEdge.
Proof. solve_decision. Defined.

Definition back_le : relation BackEdge := λ a b,
  (be_tail a < be_tail b)%N ∨ be_tail a = be_tail b ∧ (be_header a ≤ be_header b)%N.
#[export] Instance back_le_dec : RelDecision back_le.
Proof. intros a b. unfold back_le. apply _. Defined.

(** [sort] and [dedup] *)
Definition sort_dedup (backs : list BackEdge) : list BackEdge := dedup (merge_sort back_le backs).

Section Detectors.
Context {G : Type} {HG : GraphView G}.

(** The loops of [find_back_edges] *)
Definition back_edge_to (dom : DominatorTree) (node : Id) (backs : list BackEdge) (successor : Id)
    : res (list BackEdge) :=
  back ← dominates dom successor node;
  mret (if back : bool then backs ++ [mk_BackEdge node successor] else backs).

Definition back_edges_from (g : G) (dom : DominatorTree) (backs : list BackEdge) (node : Id) : res (list BackEdge) :=
  live ← is_reachable dom node;
  if negb live then mret backs else
  successors ← gv_successors g node;
  rfold (back_edge_to dom node) backs successors.

Definition find_back_edges (g : G) (dom : DominatorTree) : res (list BackEdge) :=
  ids ← gv_node_ids g;
  backs ← rfold (back_edges_from g dom) [] ids;
  mret (sort_dedup backs).

(** The loop of [find_back_edges_tagged]; the components are computed the first
    time a tag needs them. *)
Definition tagged_edge {D} `{HE : !EdgeView G D} `{HK : KindedEdge D} (g : G) (dom : DominatorTree) (dominance : list BackEdge)
    (acc : list BackEdge * option SccDecomposition) (e : Id) : res (list BackEdge * option SccDecomposition) :=
  let '(backs, components) := acc in
  edge ← ev_edge g e;
  if decide (kind_of (er_data edge) ≠ Back) then mret (backs, components) else
  live ← is_reachable dom (er_source edge);
  if negb live then mret (backs, components) else
  let tagged := mk_BackEdge (er_source edge) (er_target edge) in
  if decide (tagged ∈ dominance) then mret (backs ++ [tagged], components) else
  dec ← match components with Some dec => mret dec | None => tarjan_scc g end;
  tail ← component_index dec (be_tail tagged);
  header ← component_index dec (be_header tagged);
  mret (if decide (tail = header) then backs ++ [tagged] else backs, Some dec).

Definition find_back_edges_tagged {D} `{HE : !EdgeView G D} `{HK : KindedEdge D} (g : G) (dom : DominatorTree)
    : res (list BackEdge) :=
  dominance ← find_back_edges g dom;
  ids ← ev_edge_ids g;
  '(backs, _) ← rfold (tagged_edge g dom dominance) (dominance, None) ids;
  mret (sort_dedup backs).

(** The callback of [find_irreducible_entry] *)
Definition on_irreducible (dom : DominatorTree) (st : unit) (event : DfsEvent.t) : res (unit * option Id) :=
  match event with
  | DfsEvent.BackEdge tail header => back ← dominates dom header tail; mret (st, if back : bool then None else Some header)
  | _ => mret (st, None)
  end.

Definition find_irreducible_entry `{HR : !RootedView G} (g : G) (dom : DominatorTree) : res (option Id) :=
  if decide (gv_node_bound g = 0) then mret None
  else snd <$> depth_first_events (on_irreducible dom) g (gv_root g) Outgoing ().

Definition is_reducible `{HR : !RootedView G} (g : G) (dom : DominatorTree) : res bool :=
  entry ← find_irreducible_entry g dom;
  mret (bool_decide (entry = None)).

(** [loop_exit_blocks] of a body *)
Definition loop_exit_blocks (g : G) (body : gset Id) : res (gset Id) :=
  rfold (λ exits b,
    successors ← gv_successors g b;
    mret (foldl (λ exits s, if decide (s ∈ body) then exits else {[s]} ∪ exits) exits successors))
    ∅ (merge_sort N.le (elements body)).
End Detectors.
