(* ===== verification/StructureTheorems.v ===== *)
(** * Back edges and reducibility: what they guarantee

    The detectors of [graph/structure.rs] on a computed dominator tree: back
    edges are the edges to a dominator, a tag adds the tagged edges on a cycle,
    and a graph is reducible exactly when every cycle has a node that dominates
    the whole of it. *)

From S2P Require Import Prelude Ids View EdgeViews EdgeKinds Store StoreInv StoreSpec StoreView History Samples Traverse Bfs Events EventsTheorems Scc SccKosaraju SccTarjan SccTheorems Dominator DomSearch DomTheory DomIdom DomNumber DomTree DomCompute DominatorTheorems Structure.

(** ** Cycles in an event walk *)

Section Cycles.
Context (next : Id → list Id).
Notation scan := (scan next).

(** An edge from a node finished during a scan to its path is a back edge. *)
Lemma scan_back_edges Q B l evs B' :
  scan Q B l evs B' →
  (∀ w h, w ∈ B' → w ∉ B → h ∈ Q → h ∈ next w → DfsEvent.BackEdge w h ∈ evs) ∧
  (∀ u P h, Q = u :: P → h ∈ Q → h ∈ l → DfsEvent.BackEdge u h ∈ evs).
Proof.
  induction 1 as [Q B|u P B v l evs B' Hv _ [I1 I2]|u P B v l evs B' Hv HB _ [I1 I2]|
    u P B v l e1 B1 e2 B' Hv HB H1 [I1 I2] H2 [K1 K2]].
  - split; [done|]. by intros u P h _ _ ?%elem_of_nil.
  - split; [intros; right; by apply I1|]. intros u' P' h [= <- <-] Hh [->|Hhl]%elem_of_cons; [left|right; by apply (I2 u P)].
  - split; [intros; right; by apply I1|]. intros u' P' h [= <- <-] Hh [->|Hhl]%elem_of_cons; [done|right; by apply (I2 u P)].
  - assert (Hin : ∀ e, e ∈ e1 ∨ e ∈ e2 → e ∈ DfsEvent.TreeEdge u v :: DfsEvent.Discover v (S (length P)) :: e1 ++ DfsEvent.Finish v :: e2).
    { intros e He. right. right. apply elem_of_app. destruct He; [by left|right; by right]. }
    split.
    + intros w h Hw HwB Hh Hwh. destruct (decide (w ∈ {[v]} ∪ B1)) as [Hw1|Hw1]; [|apply Hin; right; by apply K1].
      apply Hin. left. apply elem_of_union in Hw1 as [->%elem_of_singleton|Hw1].
      * apply (I2 v (u :: P)); [done|by right|done].
      * apply I1; [done..|by right|done].
    + intros u' P' h [= <- <-] Hh [->|Hhl]%elem_of_cons; [done|]. apply Hin. right. by apply (K2 u P).
Qed.

Context (C : list Id).

(** One step inside [C]. *)
Definition inside (x y : Id) : Prop := x ∈ C ∧ y ∈ C ∧ y ∈ next x.

Context (Hconn : ∀ x y, x ∈ C → y ∈ C → rtc inside x y).

(** The node of a connected set that the walk discovers first is the head of
    a back edge from each of its predecessors in the set. *)
Lemma scan_first Q B l evs B' :
  scan Q B l evs B' → (∀ x, x ∈ C → x ∉ Q ∧ x ∉ B) → (∃ x, x ∈ C ∧ x ∈ B') →
  ∃ h, h ∈ C ∧ ∀ w, w ∈ C → h ∈ next w → DfsEvent.BackEdge w h ∈ evs.
Proof using Hconn.
  induction 1 as [Q B|u P B v l evs B' Hv _ IH|u P B v l evs B' Hv HB _ IH|u P B v l e1 B1 e2 B' Hv HB H1 IH1 H2 IH2];
    intros Hfree (x & HxC & HxB).
  - by destruct (Hfree x HxC).
  - destruct IH as (h & Hh & Hb); [done|by exists x|]. exists h. split; [done|]. intros w Hw Hwh. right. by apply Hb.
  - destruct IH as (h & Hh & Hb); [done|by exists x|]. exists h. split; [done|]. intros w Hw Hwh. right. by apply Hb.
  - assert (Hin : ∀ e, e ∈ e1 ∨ e ∈ e2 → e ∈ DfsEvent.TreeEdge u v :: DfsEvent.Discover v (S (length P)) :: e1 ++ DfsEvent.Finish v :: e2).
    { intros e He. right. right. apply elem_of_app. destruct He; [by left|right; by right]. }
    destruct (decide (v ∈ C)) as [HvC|HvC].
    + exists v. split; [done|]. pose proof (scan_facts_hold _ _ _ _ _ _ H1) as F1.
      assert (Hall : ∀ y, rtc inside v y → y = v ∨ y ∈ B1 ∧ y ∉ B).
      { refine (rtc_ind_r (λ y, y = v ∨ y ∈ B1 ∧ y ∉ B) v _ _); [by left|]. intros y z _ Hyz IHy. destruct Hyz as (_ & Hz & Hyz).
        destruct (Hfree z Hz) as [HzQ HzB]. assert (Hz' : z ∈ v :: u :: P ∨ z ∈ B1).
        { destruct IHy as [->|[Hy1 Hy2]]; [by apply (scf_list _ _ _ _ _ F1)|by apply (scf_closed _ _ _ _ _ F1 y)]. }
        rewrite elem_of_cons in Hz'. destruct Hz' as [[?|?]|?]; [by left|done|by right]. }
      destruct (scan_back_edges _ _ _ _ _ H1) as [E1 E2]. intros w Hw Hwv. apply Hin. left.
      destruct (Hall w (Hconn v w HvC Hw)) as [->|[Hw1 Hw2]].
      * apply (E2 v (u :: P)); [done|left|done].
      * apply E1; [done..|left|done].
    + destruct (decide (Exists (λ y, y ∈ B1) C)) as [[y [HyC Hy]]%Exists_exists|Hnone].
      * destruct IH1 as (h & Hh & Hb); [|by exists y|].
        { intros z Hz. destruct (Hfree z Hz). split; [|done]. rewrite elem_of_cons. intros [->|?]; done. }
        exists h. split; [done|]. intros w Hw Hwh. apply Hin. left. by apply Hb.
      * destruct IH2 as (h & Hh & Hb); [|by exists x|].
        { intros z Hz. destruct (Hfree z Hz). split; [done|]. rewrite elem_of_union, elem_of_singleton.
          intros [->|Hz1]; [done|]. apply Hnone, Exists_exists. by exists z. }
        exists h. split; [done|]. intros w Hw Hwh. apply Hin. right. by apply Hb.
Qed.
End Cycles.

(** ** Reducibility *)

(** A closed walk along edges, listed once round. *)
Definition cycle (s : shape) (c : list Id) : Prop := ∃ h p, c = h :: p ∧ chain s Outgoing (c ++ [h]).

Section Reducible.
Context {G : Type} {HG : GraphView G} (g : G) (s : shape) (HV : Views g s).
Context (small : (N.of_nat (sh_bound s) ≤ U32_MAX)%N) (root : Id) (Hroot : root ∈ sh_nodes s).
Notation n := (sh_bound s).
Notation next := (sh_next s Outgoing).
Notation R := (edge_to (sh_next s Outgoing)).
Notation dominator := (dominator s root).

Lemma chain_app l1 x l2 :
  chain s Outgoing (l1 ++ x :: l2) ↔ chain s Outgoing (l1 ++ [x]) ∧ chain s Outgoing (x :: l2).
Proof using.
  clear.
  induction l1 as [|y l1 IH]; [cbn; naive_solver|]. destruct l1 as [|z l1]; [cbn; naive_solver|].
  change (z ∈ next y ∧ chain s Outgoing ((z :: l1) ++ x :: l2) ↔
    (z ∈ next y ∧ chain s Outgoing ((z :: l1) ++ [x])) ∧ chain s Outgoing (x :: l2)). rewrite IH. tauto.
Qed.

(** Every entry of a chain leads to every later one, inside the chain. *)
Lemma chain_leads c l1 x l2 y l3 :
  (∀ z, z ∈ l1 ++ x :: l2 ++ y :: l3 → z ∈ c) → chain s Outgoing (l1 ++ x :: l2 ++ y :: l3) → rtc (inside next c) x y.
Proof using.
  clear.
  intros Hin [_ Hc]%chain_app. assert (Hin' : ∀ z, z ∈ x :: l2 ++ y :: l3 → z ∈ c) by (intros z Hz; apply Hin, elem_of_app; by right).
  clear Hin. revert x Hc Hin'. induction l2 as [|z l2 IH]; intros x Hc Hin'.
  - destruct Hc as [Hy _]. apply rtc_once. split_and!; [apply Hin'; left|apply Hin'; right; left|done].
  - destruct Hc as [Hz Hc]. apply rtc_l with z.
    + split_and!; [apply Hin'; left|apply Hin'; right; left|done].
    + apply IH; [done|]. intros w Hw. apply Hin'. by right.
Qed.

Lemma cycle_connected c : cycle s c → ∀ x y, x ∈ c → y ∈ c → rtc (inside next c) x y.
Proof using.
  clear.
  intros (h & p & Heq & Hc). assert (Hh : h ∈ c) by (rewrite Heq; left).
  assert (Hin : ∀ z, z ∈ c ++ [h] → z ∈ c) by (intros z; rewrite elem_of_app, list_elem_of_singleton; by intros [| ->]).
  assert (Hto : ∀ x, x ∈ c → rtc (inside next c) x h).
  { intros x (l1 & l2 & Hp)%list_elem_of_split. apply (chain_leads c l1 x l2 h []).
    - intros z Hz. apply Hin. by rewrite Hp, <-app_assoc.
    - by rewrite Hp, <-app_assoc in Hc. }
  assert (Hfrom : ∀ y, y ∈ c → rtc (inside next c) h y).
  { intros y Hy. rewrite Heq in Hy. apply elem_of_cons in Hy as [->|(l1 & l2 & Hp)%list_elem_of_split]; [constructor|].
    apply (chain_leads c [] h l1 y (l2 ++ [h])); cbn.
    - intros z Hz. apply Hin. by rewrite Heq, Hp, <-app_comm_cons, <-app_assoc.
    - by rewrite Heq, Hp, <-app_comm_cons, <-app_assoc in Hc. }
  intros x y Hx Hy. etrans; [by apply Hto|by apply Hfrom].
Qed.

(** A node all of whose predecessors in a connected set it dominates dominates
    the set. *)
Lemma head_dominates c h w :
  (∀ x y, x ∈ c → y ∈ c → rtc (inside next c) x y) → h ∈ c → w ∈ c → rtc R root w →
  (∀ u, u ∈ c → h ∈ next u → dominator h u) → dominator h w.
Proof.
  intros Hconn Hh Hw Hrw Hpred. split; [done|]. intros p Hp. destruct (decide (h ∈ p)) as [|Hout]; [done|]. exfalso.
  destruct (decide (root = h)) as [<-|Hrh].
  { destruct Hp as (Hp & _). destruct p as [|y p]; [done|]. injection Hp as ->. apply Hout. left. }
  assert (Hwh : w ≠ h). { intros ->. apply Hout. by apply last_Some_elem_of, Hp. }
  assert (Hoff : rtc (λ u v, R u v ∧ v ≠ h) root w).
  { apply (path_steps g s HV small root Hroot h root w Hrh). destruct Hp as (Hp1 & Hp2 & Hp3). by exists p. }
  assert (Hlast : ∃ u, u ∈ c ∧ h ∈ next u ∧ rtc (λ u v, R u v ∧ v ≠ h) w u).
  { generalize (Hconn w h Hw Hh). clear -Hwh. induction 1 as [w|w y h' (Hw & Hy & Hwy) _ IH]; [done|].
    destruct (decide (y = h')) as [->|Hne]; [by exists w|]. destruct (IH Hne) as (u & Hu & Huh & Hyu).
    exists u. split_and!; [done..|]. by apply rtc_l with y. }
  destruct Hlast as (u & Hu & Huh & Hwu). destruct (Hpred u Hu Huh) as [_ Hd].
  assert (Hru : rtc (λ u v, R u v ∧ v ≠ h) root u) by (by etrans).
  apply (path_steps g s HV small root Hroot h root u Hrh) in Hru as (q & Hq1 & Hq2 & Hq3 & Hq4). apply Hq4, Hd. split_and!; done.
Qed.

(** A back edge closes a cycle with the path it was found on, and that path
    meets no node twice. *)
Lemma back_edge_path Q B l evs B' :
  scan next Q B l evs B' → ∀ u P, Q = u :: P → root_path s root (rev Q) u → NoDup Q → l ⊆ next u →
  ∀ a b, DfsEvent.BackEdge a b ∈ evs → ∃ p, root_path s root p a ∧ NoDup p ∧ b ∈ p ∧ b ∈ next a.
Proof using HV small Hroot.
  induction 1 as [Q B|w Q B v l evs B' Hv _ IH|w Q B v l evs B' Hv HB _ IH|w Q B v l e1 B1 e2 B' Hv HB H1 IH1 H2 IH2];
    intros u P HQ Hp Hnd Hl a b Hab.
  - by apply elem_of_nil in Hab.
  - injection HQ as -> ->. apply elem_of_cons in Hab as [[= -> ->]|Hab]; [|eapply IH; [done..|set_solver|done]].
    exists (rev (u :: P)). split_and!; [done| | |apply Hl; left].
    + assert (rev (u :: P) = reverse (u :: P)) as -> by apply rev_alt. by rewrite reverse_Permutation.
    + by rewrite list_elem_of_In, <-in_rev, <-list_elem_of_In.
  - injection HQ as -> ->. apply elem_of_cons in Hab as [?|Hab]; [done|eapply IH; [done..|set_solver|done]].
  - injection HQ as -> ->. rewrite !elem_of_cons, elem_of_app, elem_of_cons in Hab.
    destruct Hab as [?|[?|[Hab|[?|Hab]]]]; [done|done| |done|eapply IH2; [done..|set_solver|done]].
    eapply IH1; [done| |by constructor|done|done]. cbn [rev]. apply (root_path_snoc _ _ _ u); [done|apply Hl; left].
Qed.

Lemma chain_rtc l : ∀ x y, chain s Outgoing (x :: l) → last (x :: l) = Some y → rtc R x y.
Proof using.
  clear. induction l as [|z l IH]; intros x y Hc Hl; [by injection Hl as ->|]. destruct Hc as [Hz Hc].
  apply rtc_l with z; [done|by apply IH].
Qed.

Lemma path_split q1 b q2 a :
  root_path s root (q1 ++ b :: q2) a →
  root_path s root (q1 ++ [b]) b ∧ chain s Outgoing (b :: q2) ∧ last (b :: q2) = Some a.
Proof using.
  clear -s. intros (Hh & Hl & Hc). apply chain_app in Hc as [Hc1 Hc2]. rewrite last_app_cons in Hl. split; [|done].
  split_and!; [by destruct q1|by rewrite last_snoc|done].
Qed.

(** The path beyond the head of a back edge, and the edge. *)
Lemma path_cycle b q2 a :
  chain s Outgoing (b :: q2) → last (b :: q2) = Some a → b ∈ next a → cycle s (b :: q2).
Proof using.
  clear -s. intros Hc Hl Hb. exists b, q2. split; [done|]. apply last_Some in Hl as (l & Hl). rewrite Hl in Hc |- *.
  rewrite <-app_assoc. apply (chain_app l a [b]). split; [done|]. by split.
Qed.

Context (t : DominatorTree) (ts : list rtree) (HT : dominator_tree s root t ts).

(** The callback reports the first back edge whose head does not dominate. *)
Lemma feed_irreducible evs :
  (∀ a b, DfsEvent.BackEdge a b ∈ evs → rtc R root a ∧ rtc R root b) →
  ∃ r, feed (on_irreducible t) () evs = Ok ((), r) ∧
    match r with
    | None => ∀ a b, DfsEvent.BackEdge a b ∈ evs → dominator b a
    | Some h => ∃ a, DfsEvent.BackEdge a h ∈ evs ∧ ¬ dominator h a
    end.
Proof using HV small Hroot HT.
  induction evs as [|e evs IH]; intros Hr.
  { exists None. split; [done|]. by intros a b ?%elem_of_nil. }
  destruct IH as (r & Hrun & Hspec); [intros a b Hab; apply Hr; by right|].
  assert (Hskip : on_irreducible t () e = Ok ((), None) → (∀ a b, e = DfsEvent.BackEdge a b → dominator b a) →
    ∃ r, feed (on_irreducible t) () (e :: evs) = Ok ((), r) ∧
      match r with
      | None => ∀ a b, DfsEvent.BackEdge a b ∈ e :: evs → dominator b a
      | Some h => ∃ a, DfsEvent.BackEdge a h ∈ e :: evs ∧ ¬ dominator h a
      end).
  { intros He Hdom. exists r. cbn [feed]. rewrite He. rsimpl. split; [done|]. destruct r as [h|].
    - destruct Hspec as (a & Ha & Hn). exists a. split; [by right|done].
    - intros a b [Hab|Hab]%elem_of_cons; [by apply Hdom|by apply Hspec]. }
  destruct e as [| |a b| |]; try (by apply Hskip).
  destruct (Hr a b) as [Ha Hb]; [left|].
  assert (Hlt : ∀ x, rtc R root x → index x < n) by (intros x; apply (reached_lt g s HV root Hroot)).
  destruct (tree_dominates g s HV small root Hroot t ts b a HT) as (d & Hd & Hiff); [by apply Hlt..|].
  assert (Hdom : d = true ↔ dominator b a).
  { rewrite Hiff. split; [|by right]. intros [->|]; [by apply dominator_self|done]. }
  destruct d.
  - apply Hskip; [cbn; by rewrite Hd|]. intros a' b' [= <- <-]. by apply Hdom.
  - exists (Some b). cbn [feed on_irreducible]. rewrite Hd. rsimpl. split; [done|]. exists a. split; [left|].
    intros Hba. by apply Hdom in Hba.
Qed.

(** What the whole walk shows about cycles. *)
Lemma walked_cycles evs F :
  walked next root evs F →
  (∀ a b, DfsEvent.BackEdge a b ∈ evs → ∃ p, root_path s root p a ∧ NoDup p ∧ b ∈ p ∧ b ∈ next a) ∧
  ∀ c, cycle s c → (∀ x, x ∈ c → rtc R root x) → ∃ h, h ∈ c ∧ ∀ w, w ∈ c → h ∈ next w → DfsEvent.BackEdge w h ∈ evs.
Proof using HV small Hroot.
  clear HT ts t. intros (e & B & Hscan & -> & _).
  assert (Hin : ∀ ev, ev ∈ e → ev ∈ DfsEvent.Discover root 0 :: e ++ [DfsEvent.Finish root]).
  { intros ev Hev. right. apply elem_of_app. by left. }
  split.
  - intros a b Hab. eapply (back_edge_path _ _ _ _ _ Hscan root []); [done| |apply NoDup_singleton|done|].
    + split_and!; done.
    + apply elem_of_cons in Hab as [?|[Hab|Hab%list_elem_of_singleton]%elem_of_app]; done.
  - intros c Hc Hreach. pose proof (cycle_connected c Hc) as Hconn.
    destruct (scan_back_edges _ _ _ _ _ _ Hscan) as [E1 E2]. pose proof (scan_facts_hold _ _ _ _ _ _ Hscan) as F1.
    assert (Hall : ∀ x, rtc R root x → x = root ∨ x ∈ B).
    { refine (rtc_ind_r (λ x, x = root ∨ x ∈ B) root _ _); [by left|]. intros y z _ Hyz IHy.
      assert (Hz : z ∈ [root] ∨ z ∈ B).
      { destruct IHy as [->|Hy]; [by apply (scf_list _ _ _ _ _ F1)|]. apply (scf_closed _ _ _ _ _ F1 y); [done|set_solver|done]. }
      destruct Hz as [->%list_elem_of_singleton|]; [by left|by right]. }
    destruct (decide (root ∈ c)) as [Hrc|Hrc].
    + exists root. split; [done|]. intros w Hw Hwr. apply Hin. destruct (Hall w (Hreach w Hw)) as [->|Hwb].
      * by apply (E2 root []); [|left|].
      * apply E1; [done|set_solver|left|done].
    + destruct (scan_first next c Hconn _ _ _ _ _ Hscan) as (h & Hh & Hb).
      * intros x Hx. split; [|set_solver]. intros ->%list_elem_of_singleton. done.
      * destruct Hc as (x & p & -> & _). exists x. split; [left|].
        destruct (Hall x (Hreach x ltac:(left))) as [->|]; [destruct Hrc; left|done].
      * exists h. split; [done|]. intros w Hw Hwh. by apply Hin, Hb.
Qed.
End Reducible.

(** C28: on a computed dominator tree [is_reducible] never panics and answers
    whether every cycle of reached nodes has a node that dominates every node of
    it. Otherwise the entry [find_irreducible_entry] reports ends an edge of a
    cycle whose tail it does not dominate. *)
Theorem is_reducible_means_headed_cycles {G : Type} `{HG : GraphView G} `{HR : !RootedView G} (g : G) s t :
  rooted_at g s (gv_root g) → compute_from g (gv_root g) = Ok t →
  ∃ r, find_irreducible_entry g t = Ok r ∧ is_reducible g t = Ok (bool_decide (r = None)) ∧
    (r = None ↔ ∀ c, cycle s c → (∀ x, x ∈ c → rtc (edge_to (sh_next s Outgoing)) (gv_root g) x) →
      ∃ h, h ∈ c ∧ ∀ w, w ∈ c → dominator s (gv_root g) h w) ∧
    ∀ h, r = Some h → ∃ tail, rtc (edge_to (sh_next s Outgoing)) (gv_root g) tail ∧ h ∈ sh_next s Outgoing tail ∧
      rtc (edge_to (sh_next s Outgoing)) h tail ∧ ¬ dominator s (gv_root g) h tail.
Proof.
  intros Hra Ht. destruct (computed_tree g s (gv_root g) t Hra Ht) as [ts HT]. destruct Hra as [HV Hs Hr].
  set (root := gv_root g) in *. destruct (depth_first_events_walk g s HV Outgoing root Hr) as (evs & F & Hwalk & Hrun).
  destruct (walked_cycles g s HV Hs root Hr evs F Hwalk) as [Hpaths Hcycles].
  assert (Hback : ∀ a b, DfsEvent.BackEdge a b ∈ evs →
    rtc (edge_to (sh_next s Outgoing)) root a ∧ rtc (edge_to (sh_next s Outgoing)) root b).
  { intros a b (p & Hp & _ & Hb & _)%Hpaths. split; eapply path_reached; try done. by apply last_Some_elem_of, Hp. }
  destruct (feed_irreducible g s HV Hs root Hr t ts HT evs Hback) as (r & Hfeed & Hspec).
  assert (Hentry : find_irreducible_entry g t = Ok r).
  { unfold find_irreducible_entry. rewrite decide_False.
    - rewrite Hrun, Hfeed. done.
    - rewrite (vw_bound (g := g) (s := s)). pose proof (nodes_bound g s HV root Hr). lia. }
  exists r. unfold is_reducible. rewrite Hentry. rsimpl. split_and!; [done..| |].
  - split.
    + intros -> c Hc Hreach. destruct (Hcycles c Hc Hreach) as (h & Hh & Hb). exists h. split; [done|]. intros w Hw.
      apply (head_dominates g s HV Hs root Hr c); [by apply cycle_connected|done|done|by apply Hreach|].
      intros u Hu Huh. by apply Hspec, Hb.
    + intros Hall. destruct r as [h|]; [exfalso|done]. destruct Hspec as (a & Hab & Hno).
      destruct (Hpaths a h Hab) as (p & Hp & Hnd & (q1 & q2 & ->)%list_elem_of_split & Hha).
      destruct (path_split s root q1 h q2 a Hp) as (Hp1 & Hc & Hl).
      destruct (Hall (h :: q2)) as (d & Hd & Hdom).
      * by apply (path_cycle s h q2 a).
      * intros x Hx. eapply path_reached; [done..| |]; [exact Hp|]. apply elem_of_app. by right.
      * apply elem_of_cons in Hd as [->|Hd]; [apply Hno, Hdom; by apply last_Some_elem_of|].
        destruct (Hdom h ltac:(left)) as [_ Hin]. apply Hin in Hp1.
        apply NoDup_app in Hnd as (_ & Hdis & Hnd). apply NoDup_cons in Hnd as [Hhq _].
        apply elem_of_app in Hp1 as [Hd1| ->%list_elem_of_singleton]; [|done]. apply (Hdis d Hd1). by right.
  - intros h ->. destruct Hspec as (a & Hab & Hno). exists a. destruct (Hback a h Hab) as [Ha _].
    destruct (Hpaths a h Hab) as (p & Hp & _ & (q1 & q2 & ->)%list_elem_of_split & Hha).
    destruct (path_split s root q1 h q2 a Hp) as (_ & Hc & Hl). split_and!; [done..| |done]. by apply (chain_rtc s q2).
Qed.

(** ** Back edges *)

(** Ascending by tail and then by header, without repetitions. *)
Definition back_lt : relation BackEdge := λ a b, back_le a b ∧ a ≠ b.

#[export] Instance back_le_total : Total back_le.
Proof. intros a b. unfold back_le. lia. Qed.
#[export] Instance back_le_trans : Transitive back_le.
Proof. intros a b c. unfold back_le. lia. Qed.
Lemma back_le_antisym a b : back_le a b → back_le b a → a = b.
Proof. destruct a, b. unfold back_le. cbn. intros. f_equal; lia. Qed.

Lemma sort_dedup_spec l : StronglySorted back_lt (sort_dedup l) ∧ ∀ x, x ∈ sort_dedup l ↔ x ∈ l.
Proof.
  unfold sort_dedup. split.
  - apply (dedup_strict back_le); [intros; by apply back_le_antisym|]. apply (StronglySorted_merge_sort back_le).
  - intros x. by rewrite elem_of_dedup, merge_sort_Permutation.
Qed.

Section BackEdges.
Context {G : Type} {HG : GraphView G} (g : G) (s : shape) (HV : Views g s).
Context (small : (N.of_nat (sh_bound s) ≤ U32_MAX)%N) (root : Id) (Hroot : root ∈ sh_nodes s).
Context (t : DominatorTree) (ts : list rtree) (HT : dominator_tree s root t ts).
Notation n := (sh_bound s).
Notation next := (sh_next s Outgoing).
Notation R := (edge_to (sh_next s Outgoing)).
Notation dominator := (dominator s root).

(** The edges dominance makes back edges. *)
Definition back_edge (x : BackEdge) : Prop :=
  rtc R root (be_tail x) ∧ be_header x ∈ next (be_tail x) ∧ dominator (be_header x) (be_tail x).

Lemma reaches_tail h a : rtc R root a → dominator h a → rtc R h a.
Proof using.
  clear -s. intros Ha [_ Hd]. destruct (path_exists s root a Ha) as (p & Hp).
  destruct (list_elem_of_split _ _ (Hd p Hp)) as (q1 & q2 & ->).
  destruct (path_split s root q1 h q2 a Hp) as (_ & Hc & Hl). by apply (chain_rtc s q2).
Qed.

Lemma back_edges_of_node a l acc :
  rtc R root a → l ⊆ next a →
  ∃ acc', rfold (back_edge_to t a) acc l = Ok acc' ∧
    ∀ x, x ∈ acc' ↔ x ∈ acc ∨ be_tail x = a ∧ be_header x ∈ l ∧ dominator (be_header x) a.
Proof using HV small Hroot HT.
  intros Ha. revert acc. induction l as [|h l IH]; intros acc Hl; cbn [rfold].
  { exists acc. split; [done|]. intros x. rewrite elem_of_nil. tauto. }
  assert (Hh : rtc R root h) by (eapply rtc_r; [exact Ha|]; apply Hl; left).
  assert (Hlt : ∀ x, rtc R root x → index x < n) by (intros x; apply (reached_lt g s HV root Hroot)).
  destruct (tree_dominates g s HV small root Hroot t ts h a HT (Hlt h Hh) (Hlt a Ha)) as (b & Hb & Hiff).
  assert (Hdom : b = true ↔ dominator h a).
  { rewrite Hiff. split; [|by right]. intros [->|]; [by apply dominator_self|done]. }
  assert (back_edge_to t a acc h = Ok (if b then acc ++ [mk_BackEdge a h] else acc)) as -> by (unfold back_edge_to; by rewrite Hb).
  rsimpl.
  destruct (IH (if b then acc ++ [mk_BackEdge a h] else acc)) as (acc' & -> & Hin); [set_solver|].
  exists acc'. split; [done|]. intros x. rewrite Hin, elem_of_cons. destruct x as [a' h']. cbn. destruct b.
  - rewrite elem_of_app, list_elem_of_singleton. assert (dominator h a) by by apply Hdom. split; [|naive_solver].
    intros [[?|[= -> ->]]|?]; naive_solver.
  - assert (¬ dominator h a) by (intros Hha; by apply Hdom in Hha). naive_solver.
Qed.

Lemma find_back_edges_spec :
  ∃ l, find_back_edges g t = Ok l ∧ StronglySorted back_lt l ∧ ∀ x, x ∈ l ↔ back_edge x.
Proof using HV small Hroot HT.
  unfold find_back_edges. rewrite (vw_nodes (g := g) (s := s)). rsimpl.
  destruct (rfold_inv (λ don acc, ∀ x, x ∈ acc ↔ be_tail x ∈ don ∧ back_edge x) (back_edges_from g t) [] (sh_nodes s))
    as (acc & -> & Hacc).
  - intros x. rewrite !elem_of_nil. tauto.
  - intros don a acc Hpre Hacc. assert (Ha : a ∈ sh_nodes s) by (eapply elem_of_prefix; [|done]; set_solver).
    unfold back_edges_from. pose proof (nodes_bound g s HV a Ha) as Hab.
    destruct (tree_is_reachable g s HV small root Hroot t ts a HT Hab) as (b & -> & Hb). rsimpl. destruct b; cbn [negb].
    + assert (Hra : rtc R root a) by by apply Hb. pose proof (vw_next (g := g) Outgoing a Ha) as Hn. cbn in Hn. rewrite Hn. rsimpl.
      destruct (back_edges_of_node a (next a) acc Hra ltac:(done)) as (acc' & -> & Hin). exists acc'. split; [done|].
      intros x. rewrite Hin, Hacc, elem_of_app, list_elem_of_singleton. unfold back_edge. naive_solver.
    + exists acc. split; [done|]. intros x. rewrite Hacc, elem_of_app, list_elem_of_singleton. split; [naive_solver|].
      intros [[?|Hxa] Hx]; [done|]. destruct Hx as [Hx _]. rewrite Hxa in Hx. by apply Hb in Hx.
  - rsimpl. destruct (sort_dedup_spec acc) as [Hs Hin]. exists (sort_dedup acc). split_and!; [done..|]. intros x.
    rewrite Hin, Hacc. split; [tauto|]. intros Hx. split; [|done]. destruct Hx as [Hx _].
    clear -Hx Hroot HV. induction Hx as [|a b c Hab _ IH]; [done|]. apply IH. by apply (nodes_next g s HV Outgoing a).
Qed.
End BackEdges.

(** ** Tagged back edges *)

Section Tagged.
Context {G D : Type} {HG : GraphView G} {HE : EdgeView G D} {HK : KindedEdge D} (g : G) (s : eshape D) (HV : EdgeViews g s).
Context (small : (N.of_nat (sh_bound (es_shape s)) ≤ U32_MAX)%N) (root : Id) (Hroot : root ∈ sh_nodes (es_shape s)).
Context (t : DominatorTree) (ts : list rtree) (HT : dominator_tree (es_shape s) root t ts).
Notation next := (sh_next (es_shape s) Outgoing).
Notation R := (edge_to (sh_next (es_shape s) Outgoing)).
Notation back_edge := (back_edge (es_shape s) root).

(** Some live edge between the two ends is tagged. *)
Definition carries_tag (x : BackEdge) : Prop :=
  ∃ e r, e ∈ es_ids s ∧ es_ref s e = Some r ∧ kind_of (er_data r) = Back ∧ er_source r = be_tail x ∧ er_target r = be_header x.

(** The components, once computed, are the graph's. *)
Definition tarjan_cache (components : option SccDecomposition) : Prop :=
  match components with Some dec => tarjan_scc g = Ok dec | None => True end.

Lemma same_component dec a b :
  tarjan_scc g = Ok dec → a ∈ es_nodes s → b ∈ es_nodes s →
  ∃ i j, component_index dec a = Ok i ∧ component_index dec b = Ok j ∧ (i = j ↔ mutual R a b).
Proof using HV.
  intros Hdec Ha Hb. pose proof (ew_views (g := g) (s := s)) as HV'.
  destruct (tarjan_spec g (es_shape s) HV') as (dec' & cs & Hrun & Hd & Hcs & Hall). rewrite Hdec in Hrun. injection Hrun as <-.
  pose proof (proj2 (Hall a) Ha) as (i & C & HC & HaC)%concat_elem. pose proof (proj2 (Hall b) Hb) as (j & C' & HC' & HbC)%concat_elem.
  assert (Hi : component_index dec a = Ok i) by (eapply component_index_Ok; [done|by apply (nodes_bound g _ HV')|by exists C]).
  assert (Hj : component_index dec b = Ok j) by (eapply component_index_Ok; [done|by apply (nodes_bound g _ HV')|by exists C']).
  exists i, j. split_and!; [done..|]. assert (HCin : C ∈ cs) by by eapply list_elem_of_lookup_2. split.
  - intros ->. rewrite HC in HC'. injection HC' as <-. by apply (sc_class _ _ _ Hcs C).
  - intros Hm. apply (sc_class _ _ _ Hcs C a b HCin HaC) in Hm.
    assert (Hi' : component_index dec b = Ok i) by (eapply component_index_Ok; [done|by apply (nodes_bound g _ HV')|by exists C]).
    rewrite Hj in Hi'. by injection Hi'.
Qed.

Lemma edge_step e r : e ∈ es_ids s → es_ref s e = Some r → er_target r ∈ next (er_source r).
Proof using HV.
  intros He Hr. pose proof (ew_ok (g := g) (s := s)) as Hok. destruct (eo_ref _ Hok e He) as (r' & Hr' & _ & Hends).
  rewrite Hr in Hr'. injection Hr' as <-. apply list_elem_of_omap. exists e. split; [|by rewrite Hr].
  apply (eo_adj _ Hok Outgoing); [apply (Hends Outgoing)|]. split; [done|by exists r].
Qed.

Lemma tagged_edge_spec dominance e backs components :
  (∀ x : BackEdge, x ∈ dominance ↔ back_edge x) → tarjan_cache components → e ∈ es_ids s →
  ∃ backs' components' r, es_ref s e = Some r ∧
    tagged_edge g t dominance (backs, components) e = Ok (backs', components') ∧ tarjan_cache components' ∧
    ∀ x, x ∈ backs' ↔ x ∈ backs ∨ x = mk_BackEdge (er_source r) (er_target r) ∧ kind_of (er_data r) = Back ∧
      rtc R root (er_source r) ∧ rtc R (er_target r) (er_source r).
Proof using HV small Hroot HT.
  intros Hdom Hcache He. pose proof (ew_ok (g := g) (s := s)) as Hok. pose proof (ew_views (g := g) (s := s)) as HV'.
  destruct (eo_ref _ Hok e He) as (r & Hr & Hid & Hends).
  pose proof (Hends Outgoing) as Hsrc. pose proof (Hends Incoming) as Htgt. cbn in Hsrc, Htgt.
  pose proof (edge_step e r He Hr) as Hstep. unfold tagged_edge. rewrite (ew_edge (g := g) (s := s) e r He Hr). rsimpl.
  assert (Hsame : ∀ c, tarjan_cache c → ¬ (kind_of (er_data r) = Back ∧ rtc R root (er_source r) ∧ rtc R (er_target r) (er_source r)) →
    ∃ backs' components' r', es_ref s e = Some r' ∧ Ok (backs, c) = Ok (backs', components') ∧ tarjan_cache components' ∧
      ∀ x, x ∈ backs' ↔ x ∈ backs ∨ x = mk_BackEdge (er_source r') (er_target r') ∧ kind_of (er_data r') = Back ∧
        rtc R root (er_source r') ∧ rtc R (er_target r') (er_source r')).
  { intros c Hc Hno. exists backs, c, r. split_and!; [done..|]. intros x. tauto. }
  assert (Hpush : ∀ c, tarjan_cache c → kind_of (er_data r) = Back → rtc R root (er_source r) → rtc R (er_target r) (er_source r) →
    ∃ backs' components' r', es_ref s e = Some r' ∧ Ok (backs ++ [mk_BackEdge (er_source r) (er_target r)], c) = Ok (backs', components') ∧
      tarjan_cache components' ∧
      ∀ x, x ∈ backs' ↔ x ∈ backs ∨ x = mk_BackEdge (er_source r') (er_target r') ∧ kind_of (er_data r') = Back ∧
        rtc R root (er_source r') ∧ rtc R (er_target r') (er_source r')).
  { intros c Hc Hk Hr1 Hr2. exists (backs ++ [mk_BackEdge (er_source r) (er_target r)]), c, r. split_and!; [done..|].
    intros x. rewrite elem_of_app, list_elem_of_singleton. tauto. }
  destruct (decide (kind_of (er_data r) ≠ Back)) as [Hk|Hk]; [by apply Hsame; [|naive_solver]|]. apply dec_stable in Hk.
  assert (Hb : index (er_source r) < sh_bound (es_shape s)) by by apply (nodes_bound g _ HV').
  destruct (tree_is_reachable g _ HV' small root Hroot t ts _ HT Hb) as (b & -> & Hlive). rsimpl.
  destruct b; cbn [negb]; [|apply Hsame; [done|]; intros (_ & Hlv & _); by apply Hlive in Hlv].
  assert (Hra : rtc R root (er_source r)) by by apply Hlive.
  case_decide as Hdm.
  { apply Hpush; [done..|]. apply Hdom in Hdm as (_ & _ & Hdm).
    apply (reaches_tail (es_shape s) root _ _ Hra Hdm). }
  assert (Hdec : ∃ dec, tarjan_scc g = Ok dec ∧ match components with Some dec => mret dec | None => tarjan_scc g end = Ok dec).
  { destruct components as [dec|]; [by exists dec|]. destruct (tarjan_spec g _ HV') as (dec & _ & Hrun & _). by exists dec. }
  destruct Hdec as (dec & Hdec & ->). rsimpl.
  destruct (same_component dec (er_source r) (er_target r) Hdec Hsrc Htgt) as (i & j & Hi & Hj & Hij).
  cbn [be_tail be_header]. rewrite Hi, Hj. rsimpl.
  case_decide as Heq.
  - apply Hpush; [done..|]. by apply Hij in Heq as [_ ?].
  - apply Hsame; [done|]. intros (_ & _ & Hback). apply Heq, Hij. split; [by apply rtc_once|done].
Qed.
End Tagged.

(** On a computed dominator tree [find_back_edges] lists, in ascending order
    without repetitions, exactly the edges from a reached node to one of its
    dominators. [find_back_edges_tagged] adds the live edges out of reached
    nodes that carry the tag and lie on a cycle, and no others. *)
Theorem back_edges_are_exact {G D : Type} `{HG : GraphView G} `{HE : !EdgeView G D} `{HK : KindedEdge D}
    (g : G) (s : eshape D) root t :
  EdgeViews g s → rooted_at g (es_shape s) root → compute_from g root = Ok t →
  (∃ l, find_back_edges g t = Ok l ∧ StronglySorted back_lt l ∧ ∀ x, x ∈ l ↔ back_edge (es_shape s) root x) ∧
  ∃ l, find_back_edges_tagged g t = Ok l ∧ StronglySorted back_lt l ∧
    ∀ x, x ∈ l ↔ back_edge (es_shape s) root x ∨
      carries_tag s x ∧ rtc (edge_to (sh_next (es_shape s) Outgoing)) root (be_tail x) ∧
      rtc (edge_to (sh_next (es_shape s) Outgoing)) (be_header x) (be_tail x).
Proof.
  intros HV Hra Ht. destruct (computed_tree g (es_shape s) root t Hra Ht) as [ts HT]. destruct Hra as [HV' Hs Hr].
  destruct (find_back_edges_spec g _ HV' Hs root Hr t ts HT) as (l & Hl & Hsort & Hin). split; [by exists l|].
  unfold find_back_edges_tagged. rewrite Hl. rsimpl. rewrite (ew_ids (g := g) (s := s)). rsimpl.
  destruct (rfold_inv (λ don '(backs, components), tarjan_cache g components ∧
      ∀ x, x ∈ backs ↔ x ∈ l ∨ ∃ e r, e ∈ don ∧ es_ref s e = Some r ∧ x = mk_BackEdge (er_source r) (er_target r) ∧
        kind_of (er_data r) = Back ∧ rtc (edge_to (sh_next (es_shape s) Outgoing)) root (er_source r) ∧
        rtc (edge_to (sh_next (es_shape s) Outgoing)) (er_target r) (er_source r))
    (tagged_edge g t l) (l, None) (es_ids s)) as ([backs components] & -> & _ & Hb).
  - split; [done|]. intros x. split; [by left|]. intros [?|(e & r & He & _)]; [done|by apply elem_of_nil in He].
  - intros don e [backs components] Hpre [Hc Hb]. assert (He : e ∈ es_ids s) by (eapply elem_of_prefix; [|done]; set_solver).
    destruct (tagged_edge_spec g s HV Hs root Hr t ts HT l e backs components Hin Hc He) as (backs' & c' & r & Hr' & Hrun & Hc' & Hb').
    exists (backs', c'). split_and!; [done..|]. intros x. rewrite Hb', Hb. setoid_rewrite elem_of_app.
    setoid_rewrite list_elem_of_singleton. split.
    + intros [[?|(e' & r' & He' & Hx)]|Hx]; [by left|right; exists e', r'; naive_solver|right; exists e, r; naive_solver].
    + intros [?|(e' & r' & [He'| ->] & Hx)]; [by left; left|left; right; by exists e', r'|right; naive_solver].
  - rsimpl. destruct (sort_dedup_spec backs) as [Hs' Hin']. exists (sort_dedup backs). split_and!; [done..|].
    intros x. rewrite Hin', Hb, Hin. unfold carries_tag. split.
    + intros [?|(e & r & He & Hr' & -> & Hk & H1 & H2)]; [by left|right]. split; [by exists e, r|done].
    + intros [?|((e & r & He & Hr' & Hk & H1 & H2) & H3 & H4)]; [by left|right]. exists e, r.
      destruct x as [a h]. cbn in *. subst a h. done.
Qed.

(** ** Witnesses *)

Lemma sample_reducible : compute_from sample_rooted_at 3%N = Ok sample_tree.
Proof. vm_compute. reflexivity. Qed.

Lemma is_reducible_means_headed_cycles_witness :
  ∃ s, rooted_at sample_rooted_at s 3%N ∧ is_reducible sample_rooted_at sample_tree = Ok true ∧
    ∀ c, cycle s c → (∀ x, x ∈ c → rtc (edge_to (sh_next s Outgoing)) 3%N x) →
      ∃ h, h ∈ c ∧ ∀ w, w ∈ c → dominator s 3%N h w.
Proof.
  destruct sample_rooted as (s & [HV Hsm Hr] & _). exists s.
  assert (Hra : rooted_at sample_rooted_at s 3%N) by (split; [by apply Rooted_Views|exact Hsm|exact Hr]). split; [exact Hra|].
  destruct (is_reducible_means_headed_cycles sample_rooted_at s sample_tree Hra sample_reducible) as (r & Hr1 & Hr2 & Hiff & _).
  assert (Hv : find_irreducible_entry sample_rooted_at sample_tree = Ok None) by (vm_compute; reflexivity).
  pose proof (Ok_inj _ _ (eq_trans (eq_sym Hr1) Hv)) as He. rewrite He in Hr2, Hiff. split; [exact Hr2|by apply Hiff].
Defined.

(** The smallest irreducible graph: a cycle entered at both of its nodes. *)
Definition crossed_store : Graph N N :=
  match run tagged [Mutate (AddNode 0%N); Mutate (AddNode 0%N); Mutate (AddNode 0%N);
    Mutate (AddEdge 0%N 1%N 0%N); Mutate (AddEdge 0%N 2%N 0%N); Mutate (AddEdge 1%N 2%N 0%N); Mutate (AddEdge 2%N 1%N 0%N)]
  with Ok (g, _) => g | _ => tagged end.
Lemma crossed_entry :
  (t ← compute_from crossed_store 0%N; find_irreducible_entry (mk_Rooted crossed_store 0%N) t) = Ok (Some 1%N).
Proof. vm_compute. reflexivity. Qed.

(** An edge payload of 104 or more is a tag. *)
Definition sample_kinded : KindedEdge N := λ d, if decide (104 ≤ d)%N then Back else Fallthrough.

Lemma back_edges_are_exact_witness :
  ∃ s : eshape N, EdgeViews sample_store s ∧ rooted_at sample_store (es_shape s) 3%N ∧
    find_back_edges sample_store sample_tree = Ok [mk_BackEdge 2 3; mk_BackEdge 3 3]%N ∧
    find_back_edges_tagged (HK := sample_kinded) sample_store sample_tree = Ok [mk_BackEdge 2 3; mk_BackEdge 3 3]%N ∧
    ∀ x, x ∈ [mk_BackEdge 2 3; mk_BackEdge 3 3]%N ↔ back_edge (es_shape s) 3%N x.
Proof.
  destruct sample_edges as (s & HV & Hns & _ & _). exists s. split; [exact HV|].
  assert (HV' : Views sample_store (es_shape s)) by apply (ew_views (EdgeViews := HV)).
  assert (Hb : sh_bound (es_shape s) = 4).
  { assert (gv_node_bound sample_store = 4) as H by (vm_compute; reflexivity). by rewrite (vw_bound (Views := HV')) in H. }
  assert (Hra : rooted_at sample_store (es_shape s) 3%N).
  { split; [exact HV'|rewrite Hb; vm_compute; discriminate|]. change (3%N ∈ es_nodes s). rewrite Hns. right; right; left. }
  split; [exact Hra|].
  destruct (back_edges_are_exact (HK := sample_kinded) sample_store s 3%N sample_tree HV Hra sample_computed) as [(l & Hl & _ & Hin) _].
  assert (Hv : find_back_edges sample_store sample_tree = Ok [mk_BackEdge 2 3; mk_BackEdge 3 3]%N) by (vm_compute; reflexivity).
  split; [exact Hv|]. split; [vm_compute; reflexivity|].
  rewrite (Ok_inj _ _ (eq_trans (eq_sym Hl) Hv)) in Hin. exact Hin.
Defined.
