(* ===== verification/Frontier.v ===== *)
(** * Dominance frontiers

    Models [graph/dominator/frontier.rs]: the frontier of one node, read off its
    subtree, and the iterated frontier of a set of definitions, a search that
    takes its roots deepest level first from buckets threaded through two
    tables. *)

From S2P Require Import Prelude Ids View Scc Epoch Dominator DomSearch.

(** [FrontierScratch] *)
Record FrontierScratch : Type := mk_Frontier {
  queued : EpochMarks.t;
  judged : EpochMarks.t;
  bucket_head : list N;
  bucket_next : list N;
}.

(** [FrontierScratch::new] *)
Definition frontier_scratch_new : FrontierScratch := mk_Frontier EpochMarks.default EpochMarks.default [] [].

(** [v.resize(len, x)] on a shorter [v] *)
Definition extend_to {A} (v : list A) (len : nat) (x : A) : list A :=
  if decide (length v < len) then v ++ replicate (len - length v) x else v.

(** [FrontierScratch::begin] *)
Definition begin (f : FrontierScratch) (node_bound : nat) : FrontierScratch :=
  mk_Frontier (EpochMarks.reset (EpochMarks.grow_to (queued f) node_bound))
    (EpochMarks.reset (EpochMarks.grow_to (judged f) node_bound))
    [] (extend_to (bucket_next f) node_bound ABSENT).

(** [FrontierScratch::enqueue] *)
Definition enqueue (f : FrontierScratch) (node level : nat) : res FrontierScratch :=
  seen ← EpochMarks.is_marked (queued f) node;
  if (seen : bool) then mret f
  else
    marks ← EpochMarks.mark (queued f) node;
    let head := extend_to (bucket_head f) (level + 1) ABSENT in
    first ← vget head level;
    next ← vset (bucket_next f) node first;
    stored ← word node;
    head ← vset head level stored;
    mret (mk_Frontier marks (judged f) head next).

(** [FrontierScratch::dequeue] *)
Definition dequeue (f : FrontierScratch) (level : nat) : res (FrontierScratch * option nat) :=
  head ← vget (bucket_head f) level;
  if decide (head = ABSENT) then mret (f, None)
  else
    let node := slot head in
    next ← vget (bucket_next f) node;
    heads ← vset (bucket_head f) level next;
    mret (mk_Frontier (queued f) (judged f) heads (bucket_next f), Some node).

(** [out.sort_unstable_by_key(|member| pre\[member.index()\])]: members with one
    key are one node *)
Definition by_key : relation (N * Id) := λ a b, (a.1 ≤ b.1)%N.
#[export] Instance by_key_dec : RelDecision by_key := λ a b, decide (a.1 ≤ b.1)%N.
Definition sort_by_pre (t : DominatorTree) (out : list Id) : res (list Id) :=
  keyed ← rmapM (λ m, k ← vget (dt_pre t) (index m); mret (k, m)) out;
  mret (snd <$> merge_sort by_key keyed).

Section Frontier.
Context {G : Type} {HG : GraphView G}.

(** The inner loop of [frontier], over the successors of one member *)
Definition leave_region (t : DominatorTree) (inside : nat * nat) (out : list Id) (successors : list Id)
    : res (list Id) :=
  rfold (λ out successor,
    position ← vget (dt_pre t) (index successor);
    if decide (position ≠ ABSENT ∧ ¬ (inside.1 ≤ slot position < inside.2)) then mret (out ++ [successor])
    else mret out) out successors.

(** [DominatorTree::frontier] *)
Definition frontier (t : DominatorTree) (g : G) (node : Id) : res (list Id) :=
  '(start, stop) ← span t node;
  members ← vslice (dt_order t) start stop;
  out ← rfold (λ out member,
    successors ← gv_successors g member; leave_region t (start + 1, stop) out successors) [] members;
  sorted ← sort_by_pre t out;
  mret (dedup sorted).

(** The loop body of [walk_root] on one successor *)
Definition judge (t : DominatorTree) (live_in : option (Id → bool)) (root_level : N)
    (acc : FrontierScratch * list Id) (successor : Id) : res (FrontierScratch * list Id) :=
  let '(f, out) := acc in
  let i := index successor in
  position ← vget (dt_pre t) i;
  skip ← (if decide (position = ABSENT) then mret true
          else
            lvl ← vget (dt_level t) i;
            if decide (root_level < lvl)%N then mret true else EpochMarks.is_marked (judged f) i);
  if (skip : bool) then mret (f, out)
  else
    marks ← EpochMarks.mark (judged f) i;
    let f := mk_Frontier (queued f) marks (bucket_head f) (bucket_next f) in
    if match live_in with Some accepts => negb (accepts successor) | None => false end then mret (f, out)
    else
      lvl ← vget (dt_level t) i;
      f ← enqueue f i (slot lvl);
      mret (f, out ++ [successor]).

(** The loop of [walk_root] *)
Fixpoint walk_root_loop (fuel : nat) (t : DominatorTree) (g : G) (live_in : option (Id → bool)) (root_level : N)
    (start stop position : nat) (acc : FrontierScratch * list Id) : res (FrontierScratch * list Id) :=
  match fuel with
  | 0 => Stuck
  | S fuel =>
      if decide (position < stop) then
        node ← vget (dt_order t) position;
        skip ← (if decide (position ≠ start) then EpochMarks.is_marked (queued acc.1) (index node) else mret false);
        if (skip : bool) then
          last ← vget (dt_last t) (index node);
          walk_root_loop fuel t g live_in root_level start stop (slot last + 1) acc
        else
          successors ← gv_successors g node;
          acc ← rfold (judge t live_in root_level) acc successors;
          walk_root_loop fuel t g live_in root_level start stop (position + 1) acc
      else mret acc
  end.

(** [DominatorTree::walk_root] *)
Definition walk_root (t : DominatorTree) (g : G) (live_in : option (Id → bool)) (root : nat)
    (acc : FrontierScratch * list Id) : res (FrontierScratch * list Id) :=
  root_level ← vget (dt_level t) root;
  pre ← vget (dt_pre t) root;
  last ← vget (dt_last t) root;
  let start := slot pre in
  let stop := slot last + 1 in
  walk_root_loop (S (stop - start)) t g live_in root_level start stop start acc.

(** [while let Some(root) = scratch.dequeue(level)] *)
Fixpoint drain_level (fuel : nat) (t : DominatorTree) (g : G) (live_in : option (Id → bool)) (lvl : nat)
    (acc : FrontierScratch * list Id) : res (FrontierScratch * list Id) :=
  match fuel with
  | 0 => Stuck
  | S fuel =>
      '(f, next) ← dequeue acc.1 lvl;
      match next with
      | None => mret (f, acc.2)
      | Some root =>
          acc ← walk_root t g live_in root (f, acc.2);
          drain_level fuel t g live_in lvl acc
      end
  end.

(** [for level in (0..levels).rev()] *)
Fixpoint drain_levels (t : DominatorTree) (g : G) (live_in : option (Id → bool)) (levels : nat)
    (acc : FrontierScratch * list Id) : res (FrontierScratch * list Id) :=
  match levels with
  | 0 => mret acc
  | S lvl =>
      acc ← drain_level (S (length (dt_pre t))) t g live_in lvl acc;
      drain_levels t g live_in lvl acc
  end.

(** The first loop of [iterated_frontier] on one definition *)
Definition enqueue_def (t : DominatorTree) (f : FrontierScratch) (def : Id) : res FrontierScratch :=
  let i := index def in
  position ← vget (dt_pre t) i;
  if decide (position ≠ ABSENT) then lvl ← vget (dt_level t) i; enqueue f i (slot lvl)
  else mret f.

(** [DominatorTree::iterated_frontier] *)
Definition iterated_frontier (t : DominatorTree) (g : G) (scratch : FrontierScratch) (defs : list Id)
    (live_in : option (Id → bool)) : res (FrontierScratch * list Id) :=
  let f := begin scratch (length (dt_pre t)) in
  f ← rfold (enqueue_def t) f defs;
  '(f, out) ← drain_levels t g live_in (length (bucket_head f)) (f, []);
  out ← sort_by_pre t out;
  mret (f, out).

End Frontier.

(** * The queue of the frontier search

    [FrontierScratch] of [graph/dominator/frontier.rs] as a finite set of queued
    nodes, a finite set of judged nodes and a list of waiting nodes per level. *)


Lemma extend_to_length {A} (v : list A) len x : length (extend_to v len x) = length v `max` len.
Proof. unfold extend_to. case_decide; [rewrite length_app, length_replicate; lia|lia]. Qed.

Lemma extend_to_lookup {A} (v : list A) len x i y :
  extend_to v len x !! i = Some y ↔ v !! i = Some y ∨ (length v ≤ i < len ∧ y = x).
Proof.
  unfold extend_to. case_decide.
  - rewrite lookup_app_Some, lookup_replicate. split; [intros [|(? & ? & ?)]; [by left|right; split; [lia|done]]|].
    intros [|[? ->]]; [by left|right; split_and!; [lia|done|lia]].
  - split; [by left|]. intros [|[? _]]; [done|lia].
Qed.

Section Queue.
Context (n : nat) (small : (N.of_nat n ≤ U32_MAX)%N) (levels : list N).
Notation at_level i d := (levels !! i = Some (N.of_nat d)).

(** A scratch whose marks are in order; nothing is asked of its buckets. *)
Record scratch_ok (f : FrontierScratch) : Prop := {
  so_queued : ∃ c X, marks_denote (queued f) c X;
  so_judged : ∃ c X, marks_denote (judged f) c X;
}.

(** [f] holds the queued nodes [Q], the judged nodes [J] and in the bucket of
    each level the waiting nodes [bk]. *)
Record queue (f : FrontierScratch) (Q J : gset nat) (bk : nat → list nat) : Prop := {
  qu_queued : ∃ c, n ≤ c ∧ marks_denote (queued f) c Q;
  qu_judged : ∃ c, n ≤ c ∧ marks_denote (judged f) c J;
  qu_next : n ≤ length (bucket_next f);
  qu_heads : ∀ l, l < length (bucket_head f) →
    ∃ start, bucket_head f !! l = Some start ∧ chained n (bucket_next f) start (bk l);
  qu_waiting : ∀ l i, i ∈ bk l → l < length (bucket_head f) ∧ i ∈ Q ∧ at_level i l;
  qu_nodup : ∀ l, NoDup (bk l);
}.

Lemma queue_scratch f Q J bk : queue f Q J bk → scratch_ok f.
Proof using. clear. intros [(c & _ & Hq) (c' & _ & Hj) _ _ _ _]. split; eauto. Qed.

Lemma scratch_new_ok : scratch_ok frontier_scratch_new.
Proof using. clear. split; exists 0, ∅; apply marks_new. Qed.

Lemma begin_spec f : scratch_ok f → queue (begin f n) ∅ ∅ (λ _, []).
Proof using.
  clear. intros [(c & X & Hq) (c' & X' & Hj)]. split; cbn.
  - exists (c `max` n). split; [lia|]. eapply marks_reset. by apply marks_grow.
  - exists (c' `max` n). split; [lia|]. eapply marks_reset. by apply marks_grow.
  - rewrite extend_to_length. lia.
  - lia.
  - intros l i Hi. by apply elem_of_nil in Hi.
  - constructor.
Qed.

(** What queueing [i] at level [d] does to the queue. *)
Definition pushed (Q : gset nat) (bk : nat → list nat) (i d : nat) : nat → list nat :=
  if decide (i ∈ Q) then bk else λ l, if decide (l = d) then i :: bk d else bk l.

Lemma elem_of_pushed Q bk i d l j : j ∈ pushed Q bk i d l ↔ j ∈ bk l ∨ (i ∉ Q ∧ l = d ∧ j = i).
Proof using.
  clear. unfold pushed. destruct (decide (i ∈ Q)); [naive_solver|].
  destruct (decide (l = d)) as [->|]; [rewrite elem_of_cons|]; naive_solver.
Qed.

Lemma pushed_other Q bk i d l : l ≠ d → pushed Q bk i d l = bk l.
Proof using. clear. intros Hl. unfold pushed. destruct (decide (i ∈ Q)); [done|]. by rewrite decide_False. Qed.

Lemma enqueue_spec f Q J bk i d :
  queue f Q J bk → i < n → at_level i d →
  ∃ f', enqueue f i d = Ok f' ∧ queue f' ({[i]} ∪ Q) J (pushed Q bk i d) ∧
    length (bucket_head f) ≤ length (bucket_head f').
Proof using small.
  intros [(c & Hc & Hq) Hj Hn Hh Hw Hd] Hi Hl. unfold enqueue, pushed. rewrite (is_marked_spec _ _ _ Hq i) by lia. rsimpl.
  destruct (decide (i ∈ Q)) as [Hin|Hout].
  { rewrite bool_decide_true by done. rsimpl. eexists. split; [done|].
    replace ({[i]} ∪ Q) with Q by set_solver. split; [|done]. split; [by exists c|done..]. }
  rewrite bool_decide_false by done. destruct (mark_spec _ _ _ Hq i ltac:(lia)) as (m' & -> & Hm'). rsimpl.
  assert (Hout' : ∀ l, i ∉ bk l) by (intros l (_ & ? & _)%Hw; done).
  set (head := extend_to (bucket_head f) (d + 1) ABSENT).
  assert (Hlh : length head = length (bucket_head f) `max` (d + 1)) by apply extend_to_length.
  assert (Hch : ∀ l, l < length head → ∃ start, head !! l = Some start ∧ chained n (bucket_next f) start (bk l)).
  { intros l Hll. destruct (decide (l < length (bucket_head f))) as [Hlt|Hge].
    - destruct (Hh l Hlt) as (start & Hs & Hch). exists start. split; [|done]. apply extend_to_lookup. by left.
    - exists ABSENT. split; [apply extend_to_lookup; right; split; [lia|done]|].
      destruct (bk l) as [|j r] eqn:Hb; [done|]. destruct (Hw l j) as [? _]; [rewrite Hb; left|lia]. }
  destruct (Hch d ltac:(lia)) as (first & Hf & Hfc). rewrite (vget_eq _ _ _ Hf). rsimpl.
  rewrite (vset_lt (bucket_next f)) by lia. rsimpl. rewrite word_eq by lia. rsimpl.
  rewrite (vset_lt head) by lia. rsimpl. eexists. split; [done|]. split; cbn; [|rewrite length_insert; lia].
  split; cbn.
  - by exists c.
  - done.
  - by rewrite length_insert.
  - rewrite length_insert. intros l Hll. case_decide as Heq.
    + subst l. exists (N.of_nat i). rewrite list_lookup_insert_eq by lia. split; [done|].
      split_and!; [done..|]. exists first. rewrite list_lookup_insert_eq by lia. split; [done|]. by apply chained_insert.
    + destruct (Hch l Hll) as (start & Hs & Hc'). exists start. rewrite list_lookup_insert_ne by done.
      split; [done|]. by apply chained_insert.
  - rewrite length_insert. intros l j Hj'. case_decide as Heq.
    + subst l. apply elem_of_cons in Hj' as [->|Hj']; [split_and!; [lia|set_solver|done]|].
      destruct (Hw d j Hj') as (? & ? & ?). split_and!; [lia|set_solver|done].
    + destruct (Hw l j Hj') as (? & ? & ?). split_and!; [lia|set_solver|done].
  - intros l. case_decide; [|done]. by constructor.
Qed.

Lemma dequeue_spec f Q J bk l :
  queue f Q J bk → l < length (bucket_head f) →
  ∃ f', dequeue f l = Ok (f', head (bk l)) ∧ queue f' Q J (λ k, if decide (k = l) then tail (bk l) else bk k) ∧
    length (bucket_head f') = length (bucket_head f).
Proof using small.
  intros [Hq Hj Hn Hh Hw Hd] Hl. unfold dequeue. destruct (Hh l Hl) as (start & Hs & Hc).
  rewrite (vget_eq _ _ _ Hs). rsimpl. destruct (bk l) as [|i r] eqn:Hb.
  { cbn in Hc. subst start. rewrite decide_True by done. eexists. split; [done|]. split; [|done].
    split; [done..| | |].
    - intros k Hk. case_decide; [subst k|by apply Hh]. exists ABSENT. by split.
    - intros k i. case_decide; [intros Hi; by apply elem_of_nil in Hi|apply Hw].
    - intros k. case_decide; [constructor|done]. }
  destruct Hc as (-> & Hi & after & Ha & Hc). rewrite decide_False by by apply (small_not_absent i n small).
  rewrite slot_of_nat, (vget_eq _ _ _ Ha). rsimpl. rewrite vset_lt by done. rsimpl.
  eexists. split; [done|]. split; cbn; [|by rewrite length_insert]. split; cbn; [done..| | |].
  - rewrite length_insert. intros k Hk. case_decide as Heq.
    + subst k. exists after. by rewrite list_lookup_insert_eq by done.
    + rewrite list_lookup_insert_ne by done. by apply Hh.
  - rewrite length_insert. intros k j. case_decide as Heq; [|apply Hw]. subst k. intros Hj'. apply Hw. rewrite Hb. by right.
  - intros k. case_decide; [|done]. specialize (Hd l). rewrite Hb in Hd. by apply NoDup_cons in Hd as [_ ?].
Qed.

(** Judging a node. *)
Lemma judged_spec f Q J bk i :
  queue f Q J bk → i < n → EpochMarks.is_marked (judged f) i = Ok (bool_decide (i ∈ J)) ∧
    ∃ m, EpochMarks.mark (judged f) i = Ok m ∧
      queue (mk_Frontier (queued f) m (bucket_head f) (bucket_next f)) Q ({[i]} ∪ J) bk.
Proof using.
  clear. intros [Hq (c & Hc & Hj) Hn Hh Hw Hd] Hi. split; [apply (is_marked_spec _ _ _ Hj); lia|].
  destruct (mark_spec _ _ _ Hj i ltac:(lia)) as (m & -> & Hm). exists m. split; [done|]. split; cbn; [done| |done..].
  by exists c.
Qed.
End Queue.
