(* ===== verification/FrontierTheorems.v ===== *)
(** * The frontier search

    The frontier of a node and the level-guided search of
    [graph/dominator/frontier.rs] over a numbered forest whose parents are above
    every predecessor of their children, as immediate dominators are. *)

From S2P Require Import Prelude Ids View Store StoreInv StoreSpec StoreView History Samples Traverse Bfs Scc DomTheory Epoch Dominator DomSearch DomIdom DomNumber DomTree DomCompute DominatorTheorems Frontier.

(** The least set that holds the accepted members of the frontier [F] of every
    definition and of every member. *)
Inductive frontier_closure (F : Id → Id → Prop) (defs : list Id) (accepts : Id → Prop) : Id → Prop :=
  | fc_def d y : d ∈ defs → F d y → accepts y → frontier_closure F defs accepts y
  | fc_next x y : frontier_closure F defs accepts x → F x y → accepts y → frontier_closure F defs accepts y.

(** What the optional live-in test accepts. *)
Definition live_accepts (live_in : option (Id → bool)) (y : Id) : Prop :=
  match live_in with Some accepts => accepts y = true | None => True end.

Section Search.
Context {G : Type} {HG : GraphView G} (g : G) (s : shape) (HV : Views g s).
Notation n := (sh_bound s).
Context (small : (N.of_nat (sh_bound s) ≤ U32_MAX)%N) (t : DominatorTree) (ts : list rtree).
Notation par := (dt_idom t).
Context (Hlen : length par = n) (rank : nat → nat).
Context (Hpar : ∀ i p, par !! i = Some p → p = ABSENT ∨ ∃ j, p = N.of_nat j ∧ j < n ∧ rank j < rank i).
Context (HN : numbers n t ts).
Notation above := (above n par).
Notation parent_of := (parent_of n par).
Notation within := (within ts).
Notation at_level i d := (dt_level t !! i = Some (N.of_nat d)).

(** An edge of the graph between slots. *)
Definition flows (p y : nat) : Prop := N.of_nat y ∈ sh_next s Outgoing (N.of_nat p).

Context (Hnode : ∀ p, within p → N.of_nat p ∈ sh_nodes s).
Context (Hup : ∀ p y a, within p → flows p y → parent_of a y → above a p).

(** [y] is in the frontier of [r]: [r] is above a predecessor of [y], and not
    strictly above [y]. *)
Definition in_frontier (r y : nat) : Prop :=
  within y ∧ (∃ p, above r p ∧ within p ∧ flows p y) ∧ ¬ (above r y ∧ r ≠ y).

(** A node's frontier is not deeper than the node. *)
Lemma frontier_level r y d e : in_frontier r y → at_level r d → at_level y e → e ≤ d.
Proof using small Hlen Hpar HN Hup.
  intros (Hy & (p & Hrp & Hp & Hf) & Hns) Hr He. destruct e as [|e]; [lia|].
  destruct (level_up n small t ts Hlen rank Hpar HN y e Hy He) as (a & _ & Ha & Haw & Hal & Hab).
  pose proof (Hup p y a Hp Hf Ha) as Hap.
  destruct (above_chain n small par Hlen a r p Hap Hrp) as [Har|Hra].
  - assert (Hrw : within r) by by apply (above_within n small t ts Hlen rank Hpar HN r p).
    destruct (above_level n small t ts Hlen rank Hpar HN a r e d Har Hrw Hal Hr) as [->|]; [|lia].
    destruct Hns. apply Hab. constructor.
  - destruct Hns. by apply Hab.
Qed.

Lemma level_frontier r p y d e :
  above r p → within p → flows p y → within y → at_level r d → at_level y e → e ≤ d → in_frontier r y.
Proof using small Hlen Hpar HN.
  intros Hrp Hp Hf Hy Hr He Hle. split_and!; [done|by exists p|]. intros [Hry Hne].
  by destruct (above_level n small t ts Hlen rank Hpar HN r y d e Hry Hy Hr He); [|lia].
Qed.

Lemma flows_lt p y : within p → flows p y → y < n.
Proof using HV Hnode.
  intros Hp Hf. pose proof (nodes_bound g s HV (N.of_nat y)) as Hb. unfold index in Hb. rewrite Nat2N.id in Hb.
  apply Hb, (nodes_next g s HV Outgoing (N.of_nat p)); [by apply Hnode|done].
Qed.

(** Reading the preorder position of a node. *)
Lemma pre_read y : y < n → ∃ w, dt_pre t !! y = Some w ∧ (w ≠ ABSENT ↔ within y).
Proof using small Hlen Hpar HN.
  intros Hy. destruct (decide (y ∈ flattens ts)) as [Hin|Hout].
  - destruct (pre_position n small t ts Hlen rank Hpar HN y Hin) as (k & _ & Hk & Hkn). exists (N.of_nat k).
    split; [done|]. split; [done|]. intros _. by apply (small_not_absent k n small).
  - exists ABSENT. split; [by apply (nf_absent _ _ _ HN)|]. tauto.
Qed.

(** ** The answer in preorder *)

(** The preorder position of a node. *)
Definition pos (m : Id) : N := default 0%N (dt_pre t !! index m).

Lemma pos_inj a b : within (index a) → within (index b) → pos a = pos b → a = b.
Proof using small Hlen Hpar HN.
  intros Ha Hb. unfold pos.
  destruct (pre_position n small t ts Hlen rank Hpar HN _ Ha) as (i & Hi & -> & _).
  destruct (pre_position n small t ts Hlen rank Hpar HN _ Hb) as (j & Hj & -> & _). cbn. intros Heq.
  assert (i = j) as -> by lia. rewrite Hi in Hj. injection Hj as Hj. by apply index_inj.
Qed.

Lemma sort_by_pre_spec (out : list Id) :
  (∀ m, m ∈ out → within (index m)) →
  ∃ l, sort_by_pre t out = Ok l ∧ l ≡ₚ out ∧ StronglySorted (λ a b, (pos a ≤ pos b)%N) l.
Proof using small Hlen Hpar HN.
  intros Hw. unfold sort_by_pre.
  assert (Hk : rmapM (λ m, k ← vget (dt_pre t) (index m); mret (k, m)) out = Ok ((λ m, (pos m, m)) <$> out)).
  { clear -Hw small Hlen Hpar HN. induction out as [|m out IH]; [done|]. cbn [rmapM].
    destruct (pre_position n small t ts Hlen rank Hpar HN (index m) (Hw m ltac:(left))) as (k & _ & Hk & _).
    rewrite (vget_eq _ _ _ Hk). rsimpl. rewrite IH by (intros m' Hm'; apply Hw; by right). rsimpl.
    assert (pos m = N.of_nat k) as <- by (unfold pos; by rewrite Hk). done. }
  rewrite Hk. rsimpl. eexists. split; [done|]. pose proof (merge_sort_Permutation by_key ((λ m, (pos m, m)) <$> out)) as Hp.
  split.
  - etrans; [by apply fmap_Permutation, Hp|]. rewrite <-list_fmap_compose. cbn. by rewrite list_fmap_id.
  - assert (Htr : Transitive by_key) by (unfold by_key; intros ???; lia).
    assert (Hto : Total by_key) by (unfold by_key; intros ??; lia).
    pose proof (StronglySorted_merge_sort by_key ((λ m, (pos m, m)) <$> out)) as Hs.
    apply (StronglySorted_fmap by_key); [|by apply Hs]. intros a b Ha Hb Hab.
    rewrite Hp in Ha, Hb. apply list_elem_of_fmap in Ha as (x & -> & _), Hb as (y & -> & _). done.
Qed.

(** Sorted and without repetition. *)
Lemma sorted_preorder (l : list Id) :
  (∀ m, m ∈ l → within (index m)) → StronglySorted (λ a b, (pos a < pos b)%N) l →
  StronglySorted (before (preorder t)) l.
Proof using small Hlen Hpar HN.
  intros Hw. apply StronglySorted_impl_in. intros a b Ha%Hw Hb%Hw. unfold pos.
  destruct (pre_position n small t ts Hlen rank Hpar HN _ Ha) as (i & Hi & -> & _).
  destruct (pre_position n small t ts Hlen rank Hpar HN _ Hb) as (j & Hj & -> & _). cbn. intros Hlt.
  unfold preorder. rewrite (nf_order _ _ _ HN). apply (before_lookup _ i j); [lia| |];
    rewrite list_lookup_fmap, ?Hi, ?Hj; cbn; by rewrite word_of_index.
Qed.

Lemma dedup_spec (l : list Id) :
  (∀ m, m ∈ l → within (index m)) → StronglySorted (λ a b, (pos a ≤ pos b)%N) l →
  StronglySorted (λ a b, (pos a < pos b)%N) (dedup l) ∧ ∀ m, m ∈ dedup l ↔ m ∈ l.
Proof using small Hlen Hpar HN.
  intros Hw Hs. split; [|intros m; apply elem_of_dedup].
  assert (Hd : StronglySorted (λ a b, (pos a ≤ pos b)%N ∧ a ≠ b) (dedup l)).
  { apply (dedup_strict (λ a b, (pos a ≤ pos b)%N)); [|done]. intros a b Ha Hb Hab Hba. apply pos_inj; [by apply Hw..|lia]. }
  eapply StronglySorted_impl_in; [|exact Hd]. intros a b Ha Hb [Hle Hne]. rewrite elem_of_dedup in Ha, Hb. cbn.
  assert (pos a ≠ pos b); [|lia]. intros He. by apply Hne, pos_inj; [apply Hw..|].
Qed.

(** ** The frontier of one node *)

Lemma span_spec y l1 t' l2 d :
  tree_at n t ts y l1 t' l2 d → span t (N.of_nat y) = Ok (length l1, length l1 + length (flatten t')) ∧
    vslice (dt_order t) (length l1) (length l1 + length (flatten t')) = Ok (N.of_nat <$> flatten t').
Proof using small Hlen Hpar HN.
  clear HV Hnode Hup. intros Ht. unfold span, index. rewrite Nat2N.id.
  assert (Hpos : 0 < length (flatten t')) by (rewrite flatten_cons; cbn; lia).
  assert (Hy : within y).
  { rewrite <-(ta_label _ _ _ _ _ _ _ _ Ht). unfold DomTree.within. rewrite (ta_split _ _ _ _ _ _ _ _ Ht), flatten_cons. set_solver. }
  destruct (pre_position n small t ts Hlen rank Hpar HN y Hy) as (k & _ & Hk & Hkn).
  rewrite (ta_pre _ _ _ _ _ _ _ _ Ht) in Hk. injection Hk as Hk. assert (k = length l1) as -> by lia.
  rewrite (vget_eq _ _ _ (ta_pre _ _ _ _ _ _ _ _ Ht)). rsimpl.
  rewrite decide_False by by apply (small_not_absent (length l1) n small).
  rewrite (vget_eq _ _ _ (ta_last _ _ _ _ _ _ _ _ Ht)). rsimpl. rewrite !slot_of_nat. split; [do 2 f_equal; lia|].
  unfold vslice. rewrite (nf_order _ _ _ HN), (ta_split _ _ _ _ _ _ _ _ Ht), length_fmap, !length_app.
  rewrite decide_True by lia. rewrite !fmap_app, drop_app_length', take_app_length' by (rewrite length_fmap; lia). done.
Qed.

(** What one member of the region contributes. *)
Lemma leave_region_spec y l1 t' l2 d out succ :
  tree_at n t ts y l1 t' l2 d → (∀ m, m ∈ succ → index m < n) →
  ∃ out', leave_region t (length l1 + 1, length l1 + length (flatten t')) out succ = Ok out' ∧
    ∀ m, m ∈ out' ↔ m ∈ out ∨ (m ∈ succ ∧ within (index m) ∧ ¬ (above y (index m) ∧ y ≠ index m)).
Proof using small Hlen Hpar HN.
  clear HV Hnode Hup. intros Ht. unfold leave_region. revert out. induction succ as [|m succ IH]; intros out Hb; cbn [rfold].
  { exists out. split; [done|]. set_solver. }
  assert (Hm : index m < n) by (apply Hb; left).
  assert (Hy : within y).
  { rewrite <-(ta_label _ _ _ _ _ _ _ _ Ht). unfold DomTree.within. rewrite (ta_split _ _ _ _ _ _ _ _ Ht), flatten_cons. set_solver. }
  assert (Hstep : ∃ out1, (position ← vget (dt_pre t) (index m);
      if decide (position ≠ ABSENT ∧ ¬ ((length l1 + 1, length l1 + length (flatten t')).1 ≤ slot position < (length l1 + 1, length l1 + length (flatten t')).2))
      then mret (out ++ [m]) else mret out) = Ok out1 ∧
      ∀ x, x ∈ out1 ↔ x ∈ out ∨ (x = m ∧ within (index m) ∧ ¬ (above y (index m) ∧ y ≠ index m))).
  { cbn [fst snd]. destruct (decide (index m ∈ flattens ts)) as [Hin|Hout].
    - destruct (pre_position n small t ts Hlen rank Hpar HN _ Hin) as (k & Hk & Hkp & Hkn).
      rewrite (vget_eq _ _ _ Hkp). rsimpl. rewrite slot_of_nat.
      pose proof (span_above n small t ts Hlen rank Hpar HN y l1 t' l2 d _ k Ht Hk) as Hsp.
      destruct (pre_position n small t ts Hlen rank Hpar HN y Hy) as (k' & Hk' & Hkp' & _).
      rewrite (ta_pre _ _ _ _ _ _ _ _ Ht) in Hkp'. injection Hkp' as Hkp'. assert (k' = length l1) as -> by lia.
      assert (Heq : y = index m ↔ k = length l1).
      { split; [intros ->; by apply (NoDup_lookup _ _ _ _ (nf_nodup _ _ _ HN) Hk)|intros ->; rewrite Hk in Hk'; congruence]. }
      case_decide as Hc.
      + eexists. split; [done|]. intros x. rewrite elem_of_app, list_elem_of_singleton.
        assert (¬ (above y (index m) ∧ y ≠ index m)); [|naive_solver].
        rewrite Hsp, Heq. intros [? ?]. destruct Hc as [_ Hc]. lia.
      + eexists. split; [done|]. intros x. split; [by left|]. intros [|(_ & _ & Hn)]; [done|].
        destruct Hc. split; [by apply (small_not_absent k n small)|]. intros Hr. apply Hn. rewrite Hsp, Heq. lia.
    - rewrite (vget_eq _ _ _ (nf_absent _ _ _ HN _ Hm Hout)). rsimpl. rewrite decide_False by tauto.
      eexists. split; [done|]. intros x. split; [by left|]. by intros [|(_ & ? & _)]. }
  destruct Hstep as (out1 & -> & H1). rsimpl.
  destruct (IH out1) as (out2 & -> & H2); [intros x Hx; apply Hb; by right|]. exists out2. split; [done|].
  intros x. rewrite H2, H1, elem_of_cons. naive_solver.
Qed.

Lemma frontier_spec y :
  y < n → ∃ l, frontier t g (N.of_nat y) = Ok l ∧ StronglySorted (before (preorder t)) l ∧
    ∀ m, m ∈ l ↔ in_frontier y (index m).
Proof using HV small Hlen Hpar HN Hnode.
  clear Hup. intros Hy. unfold frontier. destruct (decide (y ∈ flattens ts)) as [Hin|Hout].
  2:{ assert (Hsp : span t (N.of_nat y) = Ok (0, 0)).
      { unfold span, index. rewrite Nat2N.id, (vget_eq _ _ _ (nf_absent _ _ _ HN y Hy Hout)). rsimpl. by rewrite decide_True. }
      rewrite Hsp. rsimpl. unfold vslice. rewrite decide_True by lia. rsimpl. rewrite take_0. cbn [rfold]. rsimpl.
      exists []. split; [done|]. split; [constructor|]. intros m. split; [by intros ?%elem_of_nil|].
      intros (_ & (p & Hp & Hpw & _) & _). destruct Hout. by apply (above_within n small t ts Hlen rank Hpar HN y p). }
  destruct (within_tree n t ts HN y Hin) as (l1 & t' & l2 & d & Ht).
  destruct (span_spec y l1 t' l2 d Ht) as [-> Hsl]. rsimpl. rewrite Hsl. rsimpl.
  assert (Hreg : ∀ p, p ∈ flatten t' → above y p ∧ within p).
  { intros p Hp. assert (Hpw : within p) by (unfold DomTree.within; rewrite (ta_split _ _ _ _ _ _ _ _ Ht); set_solver).
    split; [|done]. apply (elem_of_flatten n small par Hlen rank Hpar) in Hp; [|apply (ta_hangs _ _ _ _ _ _ _ _ Ht)].
    by rewrite (ta_label _ _ _ _ _ _ _ _ Ht) in Hp. }
  assert (Hgo : ∀ l, (∀ p, p ∈ l → p ∈ flatten t') → ∀ out, ∃ out',
    rfold (λ out member, successors ← gv_successors g member;
      leave_region t (length l1 + 1, length l1 + length (flatten t')) out successors) out (N.of_nat <$> l) = Ok out' ∧
    ∀ m, m ∈ out' ↔ m ∈ out ∨ ((∃ p, p ∈ l ∧ flows p (index m)) ∧ within (index m) ∧ ¬ (above y (index m) ∧ y ≠ index m))).
  { induction l as [|p l IH]; intros Hl out; [exists out; split; [done|]; set_solver|].
    rewrite fmap_cons. cbn [rfold]. destruct (Hreg p (Hl p ltac:(left))) as [_ Hpw].
    pose proof (vw_next (g := g) (s := s) Outgoing _ (Hnode p Hpw)) as Hnx. cbn in Hnx. rewrite Hnx. rsimpl.
    destruct (leave_region_spec y l1 t' l2 d out (sh_next s Outgoing (N.of_nat p)) Ht) as (out1 & -> & H1).
    { intros m Hm. replace (index m) with (index (N.of_nat (index m))) by by rewrite word_of_index.
      rewrite word_of_index. replace (index m) with (N.to_nat m) by done. apply (flows_lt p); [done|].
      unfold flows. by rewrite (word_of_index m : N.of_nat (N.to_nat m) = m). }
    rsimpl. destruct (IH ltac:(set_solver) out1) as (out2 & -> & H2). exists out2. split; [done|].
    intros m. rewrite H2, H1. unfold flows. rewrite word_of_index. set_solver. }
  destruct (Hgo (flatten t') ltac:(done) []) as (out & -> & Ho). rsimpl.
  assert (How : ∀ m, m ∈ out → within (index m)) by (intros m [Hm%elem_of_nil|(_ & ? & _)]%Ho; done).
  destruct (sort_by_pre_spec out How) as (l & -> & Hp & Hs). rsimpl.
  destruct (dedup_spec l) as [Hds Hdm]; [intros m Hm; apply How; by rewrite <-Hp|done|].
  eexists. split; [done|]. split.
  { apply sorted_preorder; [|done]. intros m Hm%Hdm. apply How. by rewrite <-Hp. }
  intros m. rewrite Hdm, Hp, Ho. unfold in_frontier. split.
  - intros [Hm%elem_of_nil|((p & Hpt & Hf) & Hw & Hns)]; [done|]. destruct (Hreg p Hpt). split_and!; [done|by exists p|done].
  - intros (Hw & (p & Hyp & Hpw & Hf) & Hns). right. split_and!; [|done..]. exists p. split; [|done].
    apply (elem_of_flatten n small par Hlen rank Hpar); [apply (ta_hangs _ _ _ _ _ _ _ _ Ht)|].
    by rewrite (ta_label _ _ _ _ _ _ _ _ Ht).
Qed.

(** ** The iterated search *)

Section Iterated.
Context (defs : list Id) (live_in : option (Id → bool)).

(** The live-in test takes [y]. *)
Definition accepted (y : nat) : Prop := live_accepts live_in (N.of_nat y).

(** The frontier of the definitions, closed under the frontiers of its accepted
    members. *)
Inductive iterated : nat → Prop :=
  | it_def d y : d ∈ defs → in_frontier (index d) y → accepted y → iterated y
  | it_next x y : iterated x → in_frontier x y → accepted y → iterated y.

Lemma iterated_closure (F : Id → Id → Prop) y :
  (∀ a b, in_frontier a b ↔ F (N.of_nat a) (N.of_nat b)) →
  iterated y ↔ frontier_closure F defs (live_accepts live_in) (N.of_nat y).
Proof using.
  clear. intros HF. split.
  - induction 1 as [d y Hd Hfr Ha|x y _ IH Hfr Ha]; apply HF in Hfr.
    + rewrite word_of_index in Hfr. by apply (fc_def _ _ _ d).
    + by apply (fc_next _ _ _ (N.of_nat x)).
  - intros H. remember (N.of_nat y) as m eqn:Hm. revert y Hm. induction H as [d m Hd Hfr Ha|x m _ IH Hfr Ha]; intros y ->.
    + apply (it_def d); [done| |done]. apply HF. by rewrite word_of_index.
    + apply (it_next (index x)); [|apply HF; by rewrite word_of_index|done]. apply IH. by rewrite word_of_index.
Qed.

(** A node the search walks from. *)
Definition origin (i : nat) : Prop := N.of_nat i ∈ defs ∨ iterated i.

(** What the search has queued and judged, who waits at each level, and how many
    levels there are. *)
Record ghost : Type := mk_ghost {
  gh_queued : gset nat;
  gh_judged : gset nat;
  gh_waiting : nat → list nat;
  gh_levels : nat;
}.

(** The state of the search once the roots of [gone] were taken. *)
Record search (f : FrontierScratch) (out : list Id) (c : ghost) (gone : list nat) : Prop := {
  se_queue : queue n (dt_level t) f (gh_queued c) (gh_judged c) (gh_waiting c);
  se_levels : gh_levels c = length (bucket_head f);
  se_nodup : NoDup out;
  se_out : ∀ y, y ∈ out ↔ index y ∈ gh_judged c ∧ accepted (index y);
  se_sound : ∀ i, i ∈ gh_judged c → accepted i → iterated i;
  se_queued : ∀ i, i ∈ gh_queued c ↔ within i ∧ (N.of_nat i ∈ defs ∨ N.of_nat i ∈ out);
  se_gone : NoDup gone;
  se_taken : ∀ i, i ∈ gone → i ∈ gh_queued c ∧ ∀ l, i ∉ gh_waiting c l;
  se_waiting : ∀ i d, i ∈ gh_queued c → at_level i d → i ∈ gh_waiting c d ∨ i ∈ gone;
}.

(** The search moved on without touching what waits deeper than [L]. *)
Record advance (L : nat) (c c' : ghost) : Prop := {
  ad_judged : gh_judged c ⊆ gh_judged c';
  ad_deeper : ∀ l, L < l → gh_waiting c' l = gh_waiting c l;
  ad_queued : ∀ i d, i ∈ gh_queued c' → at_level i d → L < d → i ∈ gh_queued c;
  ad_levels : gh_levels c ≤ gh_levels c';
}.

#[local] Instance advance_preorder L : PreOrder (advance L).
Proof using.
  clear. split.
  - intros c. by split.
  - intros a b c [H1 H2 H3 H4] [H1' H2' H3' H4']. split; [set_solver| | |lia].
    + intros l Hl. by rewrite H2', H2.
    + intros i d Hi Hd Hl. apply (H3 i d); [by apply (H3' i d)|done..].
Qed.

(** Every edge out of [p] to a node no deeper than [L] was judged. *)
Definition covers (p L : nat) (J : gset nat) : Prop :=
  ∀ y e, flows p y → within y → at_level y e → e ≤ L → y ∈ J.

(** Everything the walk from [q] is to judge was judged. *)
Definition closed (q : nat) (J : gset nat) : Prop :=
  ∀ p d, above q p → within p → at_level q d → covers p d J.

Lemma covers_mono p L J J' : J ⊆ J' → covers p L J → covers p L J'.
Proof using. clear. intros Hs Hc y e Hf Hy He Hl. by apply Hs, (Hc y e). Qed.

Lemma closed_mono q J J' : J ⊆ J' → closed q J → closed q J'.
Proof using. clear. intros Hs Hc p d Ha Hp Hd. by eapply covers_mono, Hc. Qed.

(** The test on the live-in predicate. *)
Lemma accepted_test (m : Id) :
  match live_in with Some accepts => negb (accepts m) | None => false end = false ↔ accepted (index m).
Proof using.
  clear. unfold accepted, live_accepts. rewrite word_of_index. destruct live_in as [a|]; [|done].
  by rewrite negb_false_iff.
Qed.

(** Judging the target of an edge below the root [r] at level [L]. *)
Lemma judge_spec f out c gone r p m L :
  search f out c gone → origin r → at_level r L → above r p → within p → flows p (index m) →
  ∃ f' out' c', judge t live_in (N.of_nat L) (f, out) m = Ok (f', out') ∧ search f' out' c' gone ∧ advance L c c' ∧
    ∀ e, within (index m) → at_level (index m) e → e ≤ L → index m ∈ gh_judged c'.
Proof using HV small Hlen Hpar HN Hnode.
  clear Hup. intros HS Hr HrL Hrp Hp Hf. pose proof (flows_lt p _ Hp Hf) as Hm. unfold judge.
  destruct (pre_read (index m) Hm) as (w & Hw & Hin). rewrite (vget_eq _ _ _ Hw). rsimpl.
  destruct (decide (w = ABSENT)) as [Habs|Hpres].
  { rsimpl. exists f, out, c. split_and!; [done..|]. intros e Hy. by apply Hin in Hy. }
  apply Hin in Hpres. destruct (level_bound n small t ts Hlen rank Hpar HN _ Hpres) as (e & He & Hen).
  rewrite (vget_eq _ _ _ He). rsimpl. pose proof (se_queue _ _ _ _ HS) as HQ.
  destruct (judged_spec n (dt_level t) f _ _ _ (index m) HQ Hm) as (Hjm & mk & Hmk & HQ').
  destruct (decide (N.of_nat L < N.of_nat e)%N) as [Hdeep|Hle].
  { rsimpl. exists f, out, c. split_and!; [done..|]. intros e' _ He' Hl. rewrite He in He'. injection He' as He'. lia. }
  rewrite Hjm. rsimpl. destruct (decide (index m ∈ gh_judged c)) as [Hj|Hj].
  { rewrite bool_decide_true by done. exists f, out, c. by split_and!. }
  rewrite bool_decide_false by done. rewrite Hmk. rsimpl.
  assert (Hfr : in_frontier r (index m)) by (apply (level_frontier r p (index m) L e); [done..|lia]).
  assert (Hsound : ∀ i, i ∈ {[index m]} ∪ gh_judged c → accepted i → iterated i).
  { intros i [->%elem_of_singleton|Hi]%elem_of_union Ha; [|by apply (se_sound _ _ _ _ HS)].
    destruct Hr as [Hr|Hr]; [|by apply (it_next r)]. apply (it_def (N.of_nat r)); [done| |done].
    by replace (index (N.of_nat r)) with r by (unfold index; lia). }
  destruct (match live_in with Some accepts => negb (accepts m) | None => false end) eqn:Hacc.
  - (* rejected *)
    assert (Hrej : ¬ accepted (index m)) by (rewrite <-accepted_test; congruence).
    eexists _, out, (mk_ghost (gh_queued c) ({[index m]} ∪ gh_judged c) (gh_waiting c) (gh_levels c)).
    split_and!; [done| | |cbn; set_solver].
    + destruct HS as [_ H2 H3 H4 H5 H6 H7 H8 H9]. split; cbn; try done.
      intros y. rewrite H4. split; [intros []; set_solver|].
      intros [[Hy%elem_of_singleton|?]%elem_of_union Ha]; [|done]. rewrite Hy in Ha. done.
    + split; cbn; [set_solver|done..].
  - (* accepted *)
    apply accepted_test in Hacc. rewrite slot_of_nat.
    destruct (enqueue_spec n small (dt_level t) _ _ _ _ (index m) e HQ' Hm He) as (f' & Hq & HQ'' & Hlv).
    rewrite Hq. rsimpl.
    assert (Hnew : m ∉ out) by (intros [? _]%(se_out _ _ _ _ HS); done).
    eexists f', (out ++ [m]), (mk_ghost _ _ _ _). split_and!; [done| | |].
    + destruct HS as [_ H2 H3 H4 H5 H6 H7 H8 H9]. split; cbn; [exact HQ''|reflexivity| |..].
      * apply NoDup_app. split_and!; [done|set_solver|apply NoDup_singleton].
      * intros y. rewrite elem_of_app, list_elem_of_singleton, H4, elem_of_union, elem_of_singleton. split.
        -- intros [[]| ->]; [by split; [right|]|by split; [left|]].
        -- intros [[Hy%index_inj|?] ?]; [by right|by left].
      * done.
      * intros i. rewrite elem_of_union, elem_of_singleton, H6, elem_of_app, list_elem_of_singleton. split.
        -- intros [->|[? [?|?]]]; [|tauto..]. split; [done|]. right. right. by rewrite word_of_index.
        -- intros [? [?|[?|Hi]]]; [tauto..|]. left. rewrite <-Hi. unfold index. lia.
      * done.
      * intros i Hi. destruct (H8 i Hi) as [Hiq Hiw]. split; [set_solver|].
        intros l [Hil|(Hiq' & _ & ->)]%elem_of_pushed; [by apply Hiw in Hil|done].
      * intros i d [->%elem_of_singleton|Hi]%elem_of_union Hd; rewrite elem_of_pushed.
        -- rewrite He in Hd. injection Hd as Hd. assert (d = e) as -> by lia.
           destruct (decide (index m ∈ gh_queued c)) as [Hq'|]; [|by left; right]. destruct (H9 _ _ Hq' He); [left; by left|by right].
        -- destruct (H9 i d Hi Hd) as [Hi'|]; [left; by left|by right].
    + split; cbn.
      * set_solver.
      * intros l Hl. apply pushed_other. lia.
      * intros i d [->%elem_of_singleton|Hi]%elem_of_union Hd Hl; [|done]. rewrite He in Hd. injection Hd as Hd. lia.
      * rewrite (se_levels _ _ _ _ HS). exact Hlv.
    + cbn. set_solver.
Qed.

Lemma judge_all f out c gone r p L succ :
  search f out c gone → origin r → at_level r L → above r p → within p → (∀ m, m ∈ succ → flows p (index m)) →
  ∃ f' out' c', rfold (judge t live_in (N.of_nat L)) (f, out) succ = Ok (f', out') ∧ search f' out' c' gone ∧ advance L c c' ∧
    ∀ m e, m ∈ succ → within (index m) → at_level (index m) e → e ≤ L → index m ∈ gh_judged c'.
Proof using HV small Hlen Hpar HN Hnode.
  clear Hup. intros HS Hr HrL Hrp Hp. revert f out c HS. induction succ as [|m succ IH]; intros f out c HS Hf.
  { exists f, out, c. split_and!; [done..|]. intros m e Hm. by apply elem_of_nil in Hm. }
  cbn [rfold]. destruct (judge_spec f out c gone r p m L) as (f1 & out1 & c1 & -> & HS1 & HA1 & Hm1); [try done..|].
  { apply Hf. left. }
  rsimpl. destruct (IH f1 out1 c1 HS1) as (f2 & out2 & c2 & -> & HS2 & HA2 & Hm2); [intros; apply Hf; by right|].
  exists f2, out2, c2. split_and!; [done..|by etrans|]. intros m' e [->|Hm']%elem_of_cons Hw He Hl; [|by apply (Hm2 m' e)].
  apply (ad_judged _ _ _ HA2). by apply (Hm1 e).
Qed.

(** The walk from the root [r] at level [L] covers its whole subtree: what it
    skips lies below a root that is deeper and was taken before. *)
Lemma walk_root_loop_spec r l1 t' l2 L gone :
  tree_at n t ts r l1 t' l2 L → origin r →
  let stop := length l1 + length (flatten t') in
  ∀ fuel position f out c,
    stop - position < fuel → length l1 ≤ position → search f out c (r :: gone) →
    (∀ q, q ∈ gone → closed q (gh_judged c)) →
    (∀ q d, q ∈ gh_queued c → at_level q d → L < d → q ∈ gone) →
    (∀ k p, length l1 ≤ k < position → flattens ts !! k = Some p → above r p → covers p L (gh_judged c)) →
    ∃ f' out' c', walk_root_loop fuel t g live_in (N.of_nat L) (length l1) stop position (f, out) = Ok (f', out') ∧
      search f' out' c' (r :: gone) ∧ advance L c c' ∧
      ∀ k p, length l1 ≤ k < stop → flattens ts !! k = Some p → above r p → covers p L (gh_judged c').
Proof using HV small Hlen Hpar HN Hnode.
  clear Hup. intros Ht Hr stop. pose proof (ta_level _ _ _ _ _ _ _ _ Ht) as HrL.
  induction fuel as [|fuel IH]; intros position f out c Hf Hpos HS Hcl Hdeep Hcov; [lia|].
  cbn [walk_root_loop]. destruct (decide (position < stop)) as [Hlt|Hge].
  2:{ exists f, out, c. split_and!; [done..|]. intros k p Hk. apply Hcov. lia. }
  assert (Hstop : stop ≤ length (flattens ts)) by (rewrite (ta_split _ _ _ _ _ _ _ _ Ht), !length_app; lia).
  destruct (lookup_lt_is_Some_2 (flattens ts) position) as [p Hp]; [lia|].
  assert (Hpw : within p) by by eapply list_elem_of_lookup_2.
  assert (Hrp : above r p) by (apply (span_above n small t ts Hlen rank Hpar HN r l1 t' l2 L p position Ht Hp); lia).
  assert (Hord : dt_order t !! position = Some (N.of_nat p)) by by rewrite (nf_order _ _ _ HN), list_lookup_fmap, Hp.
  rewrite (vget_eq _ _ _ Hord). rsimpl.
  destruct (qu_queued _ _ _ _ _ _ (se_queue _ _ _ _ HS)) as (cap & Hcap & Hmq).
  assert (Hpn : p < n) by by apply (within_lt n small t ts Hlen rank Hpar HN).
  replace (index (N.of_nat p)) with p by (unfold index; lia). cbn [fst].
  set (skip := if decide (position ≠ length l1) then EpochMarks.is_marked (queued f) p else mret false).
  assert (Hskip : skip = Ok (bool_decide (position ≠ length l1 ∧ p ∈ gh_queued c))).
  { unfold skip. case_decide as Hne.
    - rewrite (is_marked_spec _ _ _ Hmq p) by lia. f_equal. apply bool_decide_ext. tauto.
    - rewrite bool_decide_false by tauto. done. }
  rewrite Hskip. rsimpl. case_bool_decide as Hsk.
  - destruct Hsk as [Hne Hpq].
    destruct (within_tree n t ts HN p Hpw) as (m1 & u & m2 & d & Hu).
    assert (Hpos' : length m1 = position).
    { destruct (pre_position n small t ts Hlen rank Hpar HN p Hpw) as (k & Hk & Hkp & _).
      rewrite (ta_pre _ _ _ _ _ _ _ _ Hu) in Hkp. injection Hkp as Hkp.
      assert (length m1 = k) as -> by lia. by apply (NoDup_lookup _ _ _ _ (nf_nodup _ _ _ HN) Hk). }
    rewrite (vget_eq _ _ _ (ta_last _ _ _ _ _ _ _ _ Hu)). rsimpl. rewrite slot_of_nat.
    assert (Hlen_u : 0 < length (flatten u)) by (rewrite flatten_cons; cbn; lia).
    assert (HLd : L < d).
    { destruct (above_level n small t ts Hlen rank Hpar HN r p L d Hrp Hpw HrL (ta_level _ _ _ _ _ _ _ _ Hu)) as [<-|]; [|done].
      destruct (pre_position n small t ts Hlen rank Hpar HN r Hpw) as (k & Hk & Hkp & _).
      rewrite (ta_pre _ _ _ _ _ _ _ _ Ht) in Hkp. injection Hkp as Hkp. destruct Hne.
      transitivity k; [|lia]. by apply (NoDup_lookup _ _ _ _ (nf_nodup _ _ _ HN) Hp). }
    assert (Hpg : p ∈ gone) by (by apply (Hdeep p d Hpq (ta_level _ _ _ _ _ _ _ _ Hu))).
    apply IH; [lia|lia|done|done|done|]. intros k q Hk Hq Hrq. destruct (decide (k < position)) as [Hkl|Hkl].
    { apply (Hcov k); [lia|done..]. }
    assert (Hpq' : above p q) by (apply (span_above n small t ts Hlen rank Hpar HN p m1 u m2 d q k Hu Hq); lia).
    assert (Hqw : within q) by by eapply list_elem_of_lookup_2.
    intros y e Hfy Hy He Hle. apply (Hcl p Hpg q d Hpq' Hqw (ta_level _ _ _ _ _ _ _ _ Hu) y e); [done..|lia].
  - pose proof (vw_next (g := g) (s := s) Outgoing _ (Hnode p Hpw)) as Hnx. cbn in Hnx. rewrite Hnx. rsimpl.
    destruct (judge_all f out c (r :: gone) r p L (sh_next s Outgoing (N.of_nat p)) HS Hr HrL Hrp Hpw)
      as (f1 & out1 & c1 & -> & HS1 & HA1 & Hj1).
    { intros m Hm. unfold flows. by rewrite word_of_index. }
    rsimpl. destruct (IH (position + 1) f1 out1 c1) as (f2 & out2 & c2 & Hrun & HS2 & HA2 & Hc2); [lia|lia|done| | | |].
    + intros q Hq. eapply closed_mono; [apply HA1|by apply Hcl].
    + intros q d Hq Hd Hl. apply (Hdeep q d); [|done..]. by apply (ad_queued _ _ _ HA1 q d).
    + intros k q Hk Hq Hrq. destruct (decide (k = position)) as [->|Hne].
      * rewrite Hp in Hq. injection Hq as <-. intros y e Hfy Hy He Hle. specialize (Hj1 (N.of_nat y) e).
        replace (index (N.of_nat y)) with y in Hj1 by (unfold index; lia). by apply Hj1.
      * eapply covers_mono; [apply HA1|]. apply (Hcov k); [lia|done..].
    + exists f2, out2, c2. split_and!; [done..|by etrans|done].
Qed.

Lemma walk_root_spec r L gone f out c :
  within r → at_level r L → origin r → search f out c (r :: gone) →
  (∀ q, q ∈ gone → closed q (gh_judged c)) →
  (∀ q d, q ∈ gh_queued c → at_level q d → L < d → q ∈ gone) →
  ∃ f' out' c', walk_root t g live_in r (f, out) = Ok (f', out') ∧ search f' out' c' (r :: gone) ∧ advance L c c' ∧
    ∀ q, q ∈ r :: gone → closed q (gh_judged c').
Proof using HV small Hlen Hpar HN Hnode.
  clear Hup. intros Hw HrL Hr HS Hcl Hdeep. destruct (within_tree n t ts HN r Hw) as (l1 & t' & l2 & d & Ht).
  assert (d = L) as ->.
  { pose proof (ta_level _ _ _ _ _ _ _ _ Ht) as Hd. rewrite HrL in Hd. injection Hd as Hd. lia. }
  assert (Hpos : 0 < length (flatten t')) by (rewrite flatten_cons; cbn; lia).
  unfold walk_root. rewrite (vget_eq _ _ _ HrL), (vget_eq _ _ _ (ta_pre _ _ _ _ _ _ _ _ Ht)),
    (vget_eq _ _ _ (ta_last _ _ _ _ _ _ _ _ Ht)). rsimpl. rewrite !slot_of_nat.
  replace (length l1 + length (flatten t') - 1 + 1) with (length l1 + length (flatten t')) by lia.
  destruct (walk_root_loop_spec r l1 t' l2 L gone Ht Hr (S (length l1 + length (flatten t') - length l1)) (length l1) f out c)
    as (f' & out' & c' & Hrun & HS' & HA & Hcov); [lia|done..|intros; lia|].
  exists f', out', c'. split_and!; [done..|]. intros q [->|Hq]%elem_of_cons.
  - intros p d Hp Hpw Hd. rewrite HrL in Hd. injection Hd as Hd. assert (d = L) as -> by lia.
    destruct (pre_position n small t ts Hlen rank Hpar HN p Hpw) as (k & Hk & _ & _).
    pose proof (proj1 (span_above n small t ts Hlen rank Hpar HN r l1 t' l2 L p k Ht Hk) Hp) as Hr'.
    apply (Hcov k); [lia|done..].
  - eapply closed_mono; [apply HA|by apply Hcl].
Qed.

(** Taking the next root of level [L] from its bucket. *)
Lemma take_root f out c gone L :
  search f out c gone → L < gh_levels c →
  ∃ f', dequeue f L = Ok (f', head (gh_waiting c L)) ∧
    match gh_waiting c L with
    | [] => search f' out c gone
    | r :: rest =>
        within r ∧ at_level r L ∧ origin r ∧
        search f' out (mk_ghost (gh_queued c) (gh_judged c)
          (λ l, if decide (l = L) then rest else gh_waiting c l) (gh_levels c)) (r :: gone)
    end.
Proof using small.
  clear Hup Hnode HN Hpar Hlen HV. intros HS HL. pose proof (se_queue _ _ _ _ HS) as HQ. rewrite (se_levels _ _ _ _ HS) in HL.
  destruct (dequeue_spec n small (dt_level t) f _ _ _ L HQ HL) as (f' & Hrun & HQ' & Hlv). exists f'. split; [done|].
  destruct HS as [_ H2 H3 H4 H5 H6 H7 H8 H9]. destruct (gh_waiting c L) as [|r rest] eqn:Hb.
  - split; [|by rewrite Hlv|done..]. destruct HQ' as [Q1 Q2 Q3 Q4 Q5 Q6]. split; [done..| | |].
    + intros l Hl. destruct (Q4 l Hl) as (start & Hs & Hc). exists start. split; [done|].
      cbn beta in Hc. case_decide; [subst l; by rewrite Hb|done].
    + intros l i Hi. apply (Q5 l i). cbn beta. case_decide; [subst l; by rewrite Hb in Hi|done].
    + apply (qu_nodup _ _ _ _ _ _ HQ).
  - assert (Hr : r ∈ gh_waiting c L) by (rewrite Hb; left).
    destruct (qu_waiting _ _ _ _ _ _ HQ L r Hr) as (_ & Hrq & HrL). pose proof (proj1 (H6 r) Hrq) as [Hrw Hro].
    split_and!; [done|done| |].
    + destruct Hro as [Hd|Ho]; [by left|right]. apply H4 in Ho as [Hj Ha].
      replace (index (N.of_nat r)) with r in Hj, Ha by (unfold index; lia). by apply H5.
    + split; cbn; [done|congruence|done..| | |].
      * constructor; [|done]. intros [_ Hno]%H8. by apply (Hno L).
      * intros i [->|Hi]%elem_of_cons.
        -- split; [done|]. intros l. case_decide as Hl.
           ++ subst l. pose proof (qu_nodup _ _ _ _ _ _ HQ L) as Hnd. rewrite Hb in Hnd. by apply NoDup_cons in Hnd as [? _].
           ++ intros Hrl. destruct (qu_waiting _ _ _ _ _ _ HQ l r Hrl) as (_ & _ & Hrl'). rewrite HrL in Hrl'.
              injection Hrl' as Hrl'. lia.
        -- destruct (H8 i Hi) as [Hiq Hno]. split; [done|]. intros l. case_decide as Hl; [|apply Hno].
           subst l. intros Hir. apply (Hno L). rewrite Hb. by right.
      * intros i d Hi Hd. destruct (H9 i d Hi Hd) as [Hw|Hg]; [|right; by right].
        case_decide as Hl; [|by left]. subst d. rewrite Hb in Hw. apply elem_of_cons in Hw as [->|]; [right; left|by left].
Qed.

(** A level is drained: each root is taken once, so the nodes bound the rounds. *)
Lemma drain_level_spec L : ∀ fuel f out c gone,
  n < fuel + length gone → search f out c gone → L < gh_levels c →
  (∀ q, q ∈ gone → closed q (gh_judged c)) → (∀ l, L < l → gh_waiting c l = []) →
  ∃ f' out' c' gone', drain_level fuel t g live_in L (f, out) = Ok (f', out') ∧ search f' out' c' gone' ∧
    L < gh_levels c' ∧
    (∀ q, q ∈ gone' → closed q (gh_judged c')) ∧ ∀ l, L ≤ l → gh_waiting c' l = [].
Proof using HV small Hlen Hpar HN Hnode.
  clear Hup. induction fuel as [|fuel IH]; intros f out c gone Hf HS HL Hcl Hdeep.
  { exfalso. enough (length gone ≤ n) by lia. apply NoDup_length_below; [apply HS|].
    intros v [Hv _]%(se_taken _ _ _ _ HS). apply (within_lt n small t ts Hlen rank Hpar HN). by apply (se_queued _ _ _ _ HS). }
  cbn [drain_level fst snd]. destruct (take_root f out c gone L HS HL) as (f1 & Hd & H1). rewrite Hd. rsimpl.
  destruct (gh_waiting c L) as [|r rest] eqn:Hb; cbn [head].
  { exists f1, out, c, gone. split_and!; [done..|]. intros l Hl. destruct (decide (l = L)) as [->|]; [done|]. apply Hdeep. lia. }
  destruct H1 as (Hw & HrL & Ho & HS1).
  destruct (walk_root_spec r L gone f1 out _ Hw HrL Ho HS1) as (f2 & out2 & c2 & -> & HS2 & HA2 & Hcl2).
  { exact Hcl. }
  { cbn. intros q d Hq Hqd HLd. destruct (se_waiting _ _ _ _ HS q d Hq Hqd) as [Hq'|]; [|done].
    rewrite Hdeep in Hq' by done. by apply elem_of_nil in Hq'. }
  rsimpl. destruct (IH f2 out2 c2 (r :: gone)) as (f3 & out3 & c3 & gone3 & Hrun & HS3 & HL3 & Hcl3 & Hw3).
  - cbn. lia.
  - done.
  - pose proof (ad_levels _ _ _ HA2) as Hlv. cbn in Hlv. lia.
  - done.
  - intros l Hl. rewrite (ad_deeper _ _ _ HA2) by done. cbn. rewrite decide_False by lia. by apply Hdeep.
  - exists f3, out3, c3, gone3. split_and!; try done.
Qed.

Lemma drain_levels_spec : ∀ levels f out c gone,
  search f out c gone → levels ≤ gh_levels c → length (dt_pre t) = n →
  (∀ q, q ∈ gone → closed q (gh_judged c)) → (∀ l, levels ≤ l → gh_waiting c l = []) →
  ∃ f' out' c' gone', drain_levels t g live_in levels (f, out) = Ok (f', out') ∧ search f' out' c' gone' ∧
    (∀ q, q ∈ gone' → closed q (gh_judged c')) ∧ ∀ l, gh_waiting c' l = [].
Proof using HV small Hlen Hpar HN Hnode.
  clear Hup. induction levels as [|L IH]; intros f out c gone HS HL Hpre Hcl Hw; cbn [drain_levels].
  { exists f, out, c, gone. split_and!; [done..|]. intros l. apply Hw. lia. }
  destruct (drain_level_spec L (S (length (dt_pre t))) f out c gone) as (f1 & out1 & c1 & gone1 & -> & HS1 & HL1 & Hcl1 & Hw1);
    [lia|done|lia|done|intros; apply Hw; lia|].
  rsimpl. apply (IH f1 out1 c1 gone1); [done|lia|done..].
Qed.

(** Queueing the definitions. *)
Lemma enqueue_defs_spec scratch :
  scratch_ok scratch → (∀ d, d ∈ defs → index d < n) →
  ∃ f c, rfold (enqueue_def t) (begin scratch n) defs = Ok f ∧ search f [] c [] ∧ gh_levels c = length (bucket_head f).
Proof using small Hlen Hpar HN.
  clear HV Hnode Hup. intros Hok Hdefs.
  destruct (rfold_inv (λ done f, ∃ Q bk, queue n (dt_level t) f Q ∅ bk ∧
      (∀ i, i ∈ Q ↔ within i ∧ N.of_nat i ∈ done) ∧ ∀ i d, i ∈ Q → at_level i d → i ∈ bk d)
    (enqueue_def t) (begin scratch n) defs) as (f & Hrun & Q & bk & HQ & Hin & Hw).
  - exists ∅, (λ _, []). split; [by apply begin_spec|]. split; [|set_solver].
    intros i. split; [set_solver|]. by intros [_ ?%elem_of_nil].
  - intros done d f Hpref (Q & bk & HQ & Hin & Hw).
    assert (Hd : index d < n) by (apply Hdefs; eapply elem_of_prefix; [|exact Hpref]; set_solver).
    assert (Hof : ∀ i, N.of_nat i = d ↔ i = index d) by (unfold index; lia).
    unfold enqueue_def. destruct (pre_read (index d) Hd) as (w & Hpw & Hpin). rewrite (vget_eq _ _ _ Hpw). rsimpl.
    destruct (decide (w ≠ ABSENT)) as [Hpres|Habs].
    + apply Hpin in Hpres. destruct (level_bound n small t ts Hlen rank Hpar HN _ Hpres) as (e & He & Hen).
      rewrite (vget_eq _ _ _ He). rsimpl. rewrite slot_of_nat.
      destruct (enqueue_spec n small (dt_level t) f Q ∅ bk (index d) e HQ Hd He) as (f' & -> & HQ' & _).
      exists f'. split; [done|]. eexists _, _. split; [exact HQ'|]. split.
      * intros i. rewrite elem_of_union, elem_of_singleton, Hin, elem_of_app, list_elem_of_singleton, Hof. naive_solver.
      * intros i d' [->%elem_of_singleton|Hi]%elem_of_union Hd'; rewrite elem_of_pushed; [|left; by apply Hw].
        rewrite He in Hd'. injection Hd' as Hd'. assert (d' = e) as -> by lia.
        destruct (decide (index d ∈ Q)) as [Hq|]; [left; by apply Hw|by right].
    + exists f. split; [done|]. exists Q, bk. split; [done|]. split; [|done].
      intros i. rewrite Hin, elem_of_app, list_elem_of_singleton, Hof. split; [tauto|].
      intros [Hi [?| ->]]; [done|]. tauto.
  - exists f, (mk_ghost Q ∅ bk (length (bucket_head f))). split; [done|]. split; [|done]. split; cbn; try done.
    + constructor.
    + intros y. rewrite elem_of_nil. set_solver.
    + intros i. rewrite Hin, elem_of_nil. tauto.
    + constructor.
    + intros i Hi. by apply elem_of_nil in Hi.
    + intros i d Hi Hd. left. by apply Hw.
Qed.

Lemma iterated_within y : iterated y → within y.
Proof using. clear. by destruct 1 as [d y _ [? _] _|x y _ [? _] _]. Qed.

(** The search answers the iterated frontier. *)
Lemma iterated_frontier_spec scratch :
  scratch_ok scratch → (∀ d, d ∈ defs → index d < n) →
  ∃ f out, iterated_frontier t g scratch defs live_in = Ok (f, out) ∧ scratch_ok f ∧
    StronglySorted (before (preorder t)) out ∧ ∀ m, m ∈ out ↔ iterated (index m).
Proof using HV small Hlen Hpar HN Hnode Hup.
  intros Hok Hdefs. unfold iterated_frontier.
  assert (Hpre : length (dt_pre t) = n) by apply (nf_sized _ _ _ HN). rewrite Hpre.
  destruct (enqueue_defs_spec scratch Hok Hdefs) as (f0 & c0 & -> & HS0 & Hl0). rsimpl.
  destruct (drain_levels_spec (length (bucket_head f0)) f0 [] c0 []) as (f & out & c & gone & -> & HS & Hcl & Hw);
    [done|lia|done|by intros q Hq%elem_of_nil| |].
  { intros l Hl. destruct (gh_waiting c0 l) as [|i r] eqn:Hb; [done|].
    destruct (qu_waiting _ _ _ _ _ _ (se_queue _ _ _ _ HS0) l i) as [? _]; [rewrite Hb; left|lia]. }
  rsimpl. assert (How : ∀ m, m ∈ out → iterated (index m)).
  { intros m [Hj Ha]%(se_out _ _ _ _ HS). by apply (se_sound _ _ _ _ HS). }
  destruct (sort_by_pre_spec out) as (l & -> & Hp & Hs); [intros m Hm; by apply iterated_within, How|]. rsimpl.
  assert (Hlw : ∀ m, m ∈ l → within (index m)) by (intros m Hm; rewrite Hp in Hm; by apply iterated_within, How).
  exists f, l. split; [done|]. split; [by eapply queue_scratch, HS|]. split.
  { apply sorted_preorder; [done|].
    assert (Hnd : NoDup l) by (rewrite Hp; apply HS). clear -Hnd Hs Hlw small Hlen Hpar HN.
    induction Hs as [|a l Hs IH Ha]; [constructor|]. apply NoDup_cons in Hnd as [Hout Hnd].
    constructor; [apply IH; [intros m Hm; apply Hlw; by right|done]|]. rewrite Forall_forall in Ha |- *. intros b Hb.
    assert (pos a ≠ pos b); [|specialize (Ha b Hb); lia].
    intros Heq. apply Hout. rewrite (pos_inj a b); [done|apply Hlw; left|apply Hlw; by right|done]. }
  assert (Hstep : ∀ r y, within r → (N.of_nat r ∈ defs ∨ N.of_nat r ∈ out) → in_frontier r y → accepted y → N.of_nat y ∈ out).
  { intros r y Hr Hro Hfr Ha. apply (se_out _ _ _ _ HS).
    replace (index (N.of_nat y)) with y by (unfold index; lia). split; [|done].
    destruct (level_bound n small t ts Hlen rank Hpar HN r Hr) as (d & Hd & _).
    pose proof Hfr as (Hy & (p & Hrp & Hpw & Hf) & _).
    destruct (level_bound n small t ts Hlen rank Hpar HN y Hy) as (e & He & _).
    pose proof (frontier_level r y d e Hfr Hd He) as Hle.
    assert (Hrq : r ∈ gh_queued c) by by apply (se_queued _ _ _ _ HS).
    destruct (se_waiting _ _ _ _ HS r d Hrq Hd) as [Hwt|Hg]; [rewrite Hw in Hwt; by apply elem_of_nil in Hwt|].
    by apply (Hcl r Hg p d Hrp Hpw Hd y e). }
  intros m. rewrite Hp. split; [apply How|]. rewrite <-(word_of_index m) at 2. generalize (index m) as y. clear m.
  induction 1 as [d y Hd Hfr Ha|x y Hx IH Hfr Ha].
  - apply (Hstep (index d)); [|left; by rewrite word_of_index|done..].
    destruct Hfr as (_ & (p & Hrp & Hpw & _) & _). by apply (above_within n small t ts Hlen rank Hpar HN _ p).
  - apply (Hstep x); [by apply iterated_within|by right|done..].
Qed.
End Iterated.
End Search.

(** * Dominance frontiers: the theorems

    [frontier] and [iterated_frontier] of [graph/dominator/frontier.rs] on a
    computed tree, against the frontier of the dominance relation. *)


Lemma before_sorted_nodup (o l : list Id) : NoDup o → StronglySorted (before o) l → NoDup l.
Proof.
  intros Ho. induction 1 as [|x l _ IH Hx]; constructor; [|done]. intros Hin. rewrite Forall_forall in Hx.
  destruct (Hx x Hin) as (o1 & o2 & o3 & ->). apply NoDup_app in Ho as (_ & _ & Ho). apply NoDup_cons in Ho as [Ho _]. set_solver.
Qed.

Section Theorems.
Context {G : Type} {HG : GraphView G} (g : G) (s : shape) (root : Id).
Notation n := (sh_bound s).
Notation next := (sh_next s Outgoing).
Notation dominator := (dominator s root).

(** [y] is in the dominance frontier of [x]: [x] dominates a predecessor of [y]
    and does not strictly dominate [y]. *)
Definition dominance_frontier (x y : Id) : Prop :=
  (∃ p, dominator x p ∧ y ∈ next p) ∧ ¬ (dominator x y ∧ x ≠ y).

(** The least set that holds the accepted frontier of every definition and of
    every member. *)
Definition iterated_dominance : list Id → (Id → Prop) → Id → Prop := frontier_closure dominance_frontier.

Section Tree.
Context (t : DominatorTree) (ts : list rtree).
Context (HV : Views g s) (small : (N.of_nat n ≤ U32_MAX)%N) (Hroot : root ∈ sh_nodes s).
Context (HT : dominator_tree s root t ts).

Lemma reached_at p : within ts p ↔ rtc (edge_to next) root (N.of_nat p).
Proof using HT. rewrite <-(dt_within _ _ _ _ HT). unfold index. by rewrite Nat2N.id. Qed.

Lemma above_at d p : within ts p → above n (dt_idom t) d p ↔ dominator (N.of_nat d) (N.of_nat p).
Proof using HT HV small Hroot.
  intros Hp%reached_at. rewrite <-(tree_above g s HV small root Hroot t ts _ _ HT Hp). unfold index. by rewrite !Nat2N.id.
Qed.

(** A node's immediate dominator dominates its predecessors. *)
Lemma parents_above p y a : within ts p → flows s p y → parent_of n (dt_idom t) a y → above n (dt_idom t) a p.
Proof using HT HV small Hroot.
  intros Hp Hf Ha. replace y with (index (N.of_nat y)) in Ha by (unfold index; lia).
  destruct (parent_reached g s HV small root Hroot _ (dt_table _ _ _ _ HT) a (N.of_nat y) Ha) as (d & -> & _ & _ & _ & Hd & Hne & _).
  apply above_at; [done|]. rewrite word_of_index. apply reached_at in Hp. split; [done|]. intros q Hq.
  destruct Hd as [_ Hd]. specialize (Hd _ (root_path_snoc s root q _ _ Hq Hf)). set_solver.
Qed.

Lemma frontier_at x y : in_frontier s t ts x y ↔ dominance_frontier (N.of_nat x) (N.of_nat y).
Proof using HT HV small Hroot.
  unfold in_frontier, dominance_frontier. split.
  - intros (Hy & (p & Hxp & Hp & Hf) & Hns). split.
    + exists (N.of_nat p). by rewrite <-above_at.
    + rewrite <-above_at by done. intros [? Hne]. apply Hns. split; [done|]. by intros ->.
  - intros [(p & Hxp & Hy) Hns]. assert (Hp : rtc (edge_to next) root p) by apply Hxp.
    assert (Hyr : rtc (edge_to next) root (N.of_nat y)) by by eapply rtc_r.
    apply reached_at in Hyr as Hyw. split_and!; [done| |].
    + exists (index p). assert (Hpw : within ts (index p)) by (apply reached_at; by rewrite word_of_index).
      split_and!; [|done|unfold flows; by rewrite word_of_index]. apply above_at; [done|]. by rewrite word_of_index.
    + rewrite above_at by done. intros [? Hne]. apply Hns. split; [done|]. intros ?. apply Hne. lia.
Qed.

End Tree.

(** On a computed tree [frontier] never panics below the node bound and
    lists, once each and in preorder, exactly the nodes of the dominance
    frontier: those with a predecessor the node dominates that it does not
    strictly dominate. *)
Theorem frontier_is_dominance_frontier t x :
  rooted_at g s root → compute_from g root = Ok t → index x < n →
  ∃ l, frontier t g x = Ok l ∧ StronglySorted (before (preorder t)) l ∧ NoDup l ∧
    ∀ y, y ∈ l ↔ dominance_frontier x y.
Proof.
  intros Hra Hc Hx. pose proof Hra as [HV Hs Hr]. destruct (computed_tree g s root t Hra Hc) as [ts HT].
  destruct (tree_facts g s HV Hs root Hr t ts HT) as (Hlen & rank & Hpar).
  destruct (frontier_spec g s HV Hs t ts Hlen rank Hpar (dt_numbers _ _ _ _ HT)) with (y := index x) as (l & Hrun & Hsort & Hin).
  { intros p Hp. apply (reached_node g s HV root Hr). by apply (reached_at t ts HT). }
  { done. }
  rewrite word_of_index in Hrun. exists l. split_and!; [done..| |].
  - by apply (before_sorted_nodup _ _ (proj1 (tree_preorder g s HV Hs root Hr t ts HT))).
  - intros y. rewrite Hin, (frontier_at t ts HV Hs Hr HT). by rewrite !word_of_index.
Qed.

(** C12: on a computed tree and with any scratch an earlier query left,
    [iterated_frontier] never panics and lists, once each and in preorder,
    exactly the least set of accepted nodes that holds the dominance frontier of
    every definition and of every member; the scratch serves the next query. *)
Theorem iterated_frontier_is_closure t scratch defs live_in :
  rooted_at g s root → compute_from g root = Ok t → scratch_ok scratch → (∀ d, d ∈ defs → index d < n) →
  ∃ scratch' l, iterated_frontier t g scratch defs live_in = Ok (scratch', l) ∧ scratch_ok scratch' ∧
    StronglySorted (before (preorder t)) l ∧ NoDup l ∧ ∀ y, y ∈ l ↔ iterated_dominance defs (live_accepts live_in) y.
Proof.
  intros Hra Hc Hok Hdefs. pose proof Hra as [HV Hs Hr]. destruct (computed_tree g s root t Hra Hc) as [ts HT].
  destruct (tree_facts g s HV Hs root Hr t ts HT) as (Hlen & rank & Hpar).
  destruct (iterated_frontier_spec g s HV Hs t ts Hlen rank Hpar (dt_numbers _ _ _ _ HT)) with defs live_in scratch
    as (f & l & Hrun & Hf & Hsort & Hin); [|by apply (parents_above t ts HV Hs Hr HT)|done..|].
  { intros p Hp. apply (reached_node g s HV root Hr). by apply (reached_at t ts HT). }
  exists f, l. split_and!; [done..| |].
  - by apply (before_sorted_nodup _ _ (proj1 (tree_preorder g s HV Hs root Hr t ts HT))).
  - intros y. rewrite Hin, (iterated_closure s t ts defs live_in dominance_frontier) by (intros a b; by apply (frontier_at t ts HV Hs Hr HT)).
    by rewrite word_of_index.
Qed.
End Theorems.

(** ** Witnesses *)

Lemma frontier_is_dominance_frontier_witness :
  ∃ s, rooted_at sample_store s 3%N ∧ frontier sample_tree sample_store 2%N = Ok [3%N] ∧ dominance_frontier s 3%N 2%N 3%N.
Proof.
  destruct sample_rooted as (s & Hra & Hb & _). exists s. split; [exact Hra|].
  destruct (frontier_is_dominance_frontier sample_store s 3%N sample_tree 2%N Hra sample_computed) as (l & Hl & _ & _ & Hin).
  { rewrite Hb. vm_compute. lia. }
  assert (l = [3%N]) as -> by (vm_compute in Hl; by injection Hl as <-). split; [exact Hl|]. apply Hin. left.
Defined.

Lemma iterated_frontier_is_closure_witness :
  ∃ s, rooted_at sample_store s 3%N ∧
    ∃ f, iterated_frontier sample_tree sample_store frontier_scratch_new [2%N] None = Ok (f, [3%N]) ∧
      iterated_dominance s 3%N [2%N] (live_accepts None) 3%N.
Proof.
  destruct sample_rooted as (s & Hra & Hb & _). exists s. split; [exact Hra|].
  destruct (iterated_frontier_is_closure sample_store s 3%N sample_tree frontier_scratch_new [2%N] None Hra sample_computed scratch_new_ok)
    as (f & l & Hl & _ & _ & _ & Hin).
  { intros d ->%list_elem_of_singleton. rewrite Hb. vm_compute. lia. }
  exists f. assert (l = [3%N]) as -> by (vm_compute in Hl; by injection Hl as _ <-). split; [exact Hl|]. apply Hin. left.
Defined.

(** A live-in test that takes nothing leaves nothing. *)
Lemma pruned_sample :
  snd <$> iterated_frontier sample_tree sample_store frontier_scratch_new [2%N] (Some (λ _, false)) = Ok [].
Proof. vm_compute. reflexivity. Qed.
