(* ===== verification/VirtualRoot.v ===== *)
(** * A graph behind a virtual root

    Models [graph/virtual_root.rs] and [graph/dominator/forest.rs]: one more
    node, with only outgoing edges, in front of a list of roots, and the
    dominator forest that also covers the code the graph's own root misses.
    The roots the construction picks are shown to reach every node. *)

From S2P Require Import Prelude Ids View Store StoreInv StoreSpec StoreView History Samples Traverse Bfs Reach Scc SccKosaraju SccTheorems DomTheory Epoch Dominator DomSearch DomIdom DomNumber DomTree DomCompute DomVirtual DominatorTheorems Frontier.

(** [VirtualRoot] *)
Record VirtualRoot (G : Type) : Type := mk_VirtualRoot { vr_graph : G; vr_roots : list Id }.
Arguments mk_VirtualRoot {G} _ _.
Arguments vr_graph {G} _.
Arguments vr_roots {G} _.

(** [roots.windows(2).all(|pair| pair\[0\] < pair\[1\])] *)
Fixpoint ascending (l : list Id) : bool :=
  match l with
  | x :: (y :: _) as l' => bool_decide (x < y)%N && ascending l'
  | _ => true
  end.

Section Virtual.
Context {G : Type} {HG : GraphView G}.

(** [VirtualRoot::new] *)
Definition virtual_root_new (g : G) (roots : list Id) : res (VirtualRoot G) :=
  _ ← rassert (ascending roots) "the roots of a virtual root must be strictly ascending";
  mret (mk_VirtualRoot g roots).

(** [VirtualRoot::virtual_root] *)
Definition virtual_root (v : VirtualRoot G) : nat := gv_node_bound (vr_graph v).

(** [(node < original_bound).then(|| G::NodeId::from_index(node))] *)
Definition original (v : VirtualRoot G) (node : nat) : res (option Id) :=
  if decide (node < virtual_root v) then id ← from_index node; mret (Some id) else mret None.

(** [impl GraphView for VirtualRoot], whose identities are indices *)
#[export] Instance VirtualRoot_view : GraphView (VirtualRoot G) := {|
  gv_node_bound v := virtual_root v + 1;
  gv_node_ids v := (ids ← gv_node_ids (vr_graph v); mret (ids ++ [N.of_nat (virtual_root v)]));
  gv_successors v node :=
    (o ← original v (index node);
     next ← match o with Some block => gv_successors (vr_graph v) block | None => mret [] end;
     mret ((if decide (index node = virtual_root v) then vr_roots v else []) ++ next));
  gv_predecessors v node :=
    (o ← original v (index node);
     match o with
     | Some block =>
         named ← binary_search (vr_roots v) block;
         before ← gv_predecessors (vr_graph v) block;
         mret ((if (named : bool) then [N.of_nat (virtual_root v)] else []) ++ before)
     | None => mret []
     end);
|}.

(** [impl RootedView for VirtualRoot] *)
#[export] Instance VirtualRoot_rooted : RootedView (VirtualRoot G) := λ v, N.of_nat (virtual_root v).

(** The loop body of [complete_dominator_forest] on one component *)
Definition source_root (g : G) (dominators : DominatorTree) (dec : SccDecomposition)
    (roots : list Id) (row : nat * list Id) : res (list Id) :=
  let '(component_index, component) := row in
  match head component with
  | None => mret roots
  | Some first =>
      live ← is_reachable dominators first;
      if (live : bool) then mret roots
      else
        external ← rany (λ block,
          before ← gv_predecessors g block;
          rany (λ p, i ← Scc.component_index dec p; mret (bool_decide (i ≠ component_index))) before) component;
        mret (if (external : bool) then roots else roots ++ [first])
  end.

(** The roots of the forest, before they are sorted *)
Definition source_roots `{HR : !RootedView G} (g : G) (dominators : DominatorTree) : res (list Id) :=
  dec ← kosaraju_scc g;
  cs ← components dec;
  rfold (source_root g dominators dec) [gv_root g] (zip (seq 0 (length cs)) cs).

(** [complete_dominator_forest] *)
Definition complete_dominator_forest `{HR : !RootedView G} (scratch : DominatorScratch) (roots : list Id) (g : G)
    (dominators : DominatorTree) : res (DominatorScratch * list Id * option DominatorTree) :=
  ids ← gv_node_ids g;
  full ← rall (is_reachable dominators) ids;
  if (full : bool) then mret (scratch, roots, None)
  else
    found ← source_roots g dominators;
    let roots := dedup (merge_sort N.le found) in
    view ← virtual_root_new g roots;
    '(scratch, complete) ← compute_in scratch view;
    let original_bound := gv_node_bound g in
    idoms ← rmapM (λ node,
      up ← idom complete (N.of_nat node);
      match up with
      | Some parent => if decide (index parent < original_bound) then id ← from_index (index parent); mret (Some id) else mret None
      | None => mret None
      end) (seq 0 original_bound);
    reachable ← rmapM (λ node, is_reachable complete (N.of_nat node)) (seq 0 original_bound);
    forest ← from_forest_parts idoms reachable;
    mret (scratch, roots, Some forest).
End Virtual.

(** * The completed dominator forest

    The view behind a virtual root keeps the contract, the roots
    [complete_dominator_forest] of [graph/dominator/forest.rs] picks reach every
    node, and the forest it numbers is dominance over all ways in. *)


Lemma ascending_sorted (l : list Id) : ascending l = true ↔ StronglySorted N.lt l.
Proof.
  induction l as [|x l IH]; [by split; [constructor|]|]. destruct l as [|y l]; [by split; [repeat constructor|]|].
  cbn [ascending]. rewrite andb_true_iff, bool_decide_eq_true, IH. split.
  - intros [Hxy Hs]. constructor; [done|]. apply StronglySorted_inv in Hs as Hs'. destruct Hs' as [_ Hy].
    constructor; [done|]. rewrite Forall_forall in Hy |- *. intros z Hz%Hy. lia.
  - intros Hs. apply StronglySorted_inv in Hs as [Hs Hx]. split; [|done]. by inversion Hx.
Qed.

Lemma dedup_sorted (l : list Id) : StronglySorted N.le l → StronglySorted N.lt (dedup l) ∧ ∀ x, x ∈ dedup l ↔ x ∈ l.
Proof.
  intros Hs. split; [|intros x; apply elem_of_dedup]. eapply StronglySorted_impl_in; [|apply (dedup_strict N.le); [intros; lia|done]].
  intros x y _ _ [Hle Hne]. lia.
Qed.

Section View.
Context {G : Type} {HG : GraphView G} (g : G) (s : shape) (HV : Views g s).
Context (small : (N.of_nat (S (sh_bound s)) ≤ U32_MAX)%N) (roots : list Id).
Context (Hs : StronglySorted N.lt roots) (Hin : ∀ r, r ∈ roots → r ∈ sh_nodes s).
Notation n := (sh_bound s).
Notation next := (sh_next s Outgoing).
Notation prev := (sh_next s Incoming).
Notation R := (edge_to (sh_next s Outgoing)).
Notation top := (N.of_nat (sh_bound s)).

(** What the view behind the virtual root shows. *)
Definition virtual_shape : shape :=
  mk_shape (S n) (sh_nodes s ++ [top]) (λ d x,
    if decide (x = top) then match d with Outgoing => roots | Incoming => [] end
    else match d with
         | Outgoing => next x
         | Incoming => (if decide (x ∈ roots) then [top] else []) ++ prev x
         end).

Lemma node_not_top x : x ∈ sh_nodes s → x ≠ top.
Proof using HV small. intros Hx ->. apply (nodes_bound g s HV) in Hx. rewrite index_of_nat in Hx. lia. Qed.

Lemma virtual_node x : x ∈ sh_nodes virtual_shape ↔ x ∈ sh_nodes s ∨ x = top.
Proof using. cbn. by rewrite elem_of_app, list_elem_of_singleton. Qed.

Lemma virtual_next x : x ∈ sh_nodes s → sh_next virtual_shape Outgoing x = next x.
Proof using HV small. intros Hx. cbn. by rewrite decide_False by by apply node_not_top. Qed.

Lemma virtual_first : sh_next virtual_shape Outgoing top = roots.
Proof using. cbn. by rewrite decide_True. Qed.

#[local] Instance Virtual_Views : Views (mk_VirtualRoot g roots) virtual_shape.
Proof using HV small Hs Hin.
  assert (Horig : ∀ x, x ∈ sh_nodes s → original (mk_VirtualRoot g roots) (index x) = Ok (Some x)).
  { intros x Hx. pose proof (nodes_bound g s HV x Hx) as Hb. unfold original, virtual_root. cbn [vr_graph].
    rewrite (vw_bound (g := g) (s := s)), decide_True by done. rewrite from_index_eq by lia. rsimpl. by rewrite word_of_index. }
  assert (Htop : original (mk_VirtualRoot g roots) n = Ok None).
  { unfold original, virtual_root. cbn [vr_graph]. rewrite (vw_bound (g := g) (s := s)), decide_False by lia. done. }
  assert (Hix : ∀ x, x ∈ sh_nodes s → index x ≠ n) by (intros x Hx; apply (nodes_bound g s HV) in Hx; lia).
  split.
  - cbn. unfold virtual_root. cbn. rewrite (vw_bound (g := g) (s := s)). lia.
  - cbn. unfold virtual_root. cbn. rewrite (vw_nodes (g := g) (s := s)), (vw_bound (g := g) (s := s)). done.
  - intros d x [Hx| ->]%virtual_node.
    + pose proof (node_not_top x Hx) as Hne. pose proof (Hix x Hx) as Hxn.
      pose proof (vw_next (g := g) (s := s) d x Hx) as Hn.
      destruct d; cbn; unfold virtual_root; cbn [vr_graph vr_roots]; rewrite (Horig x Hx), ?(vw_bound (g := g) (s := s)); rsimpl; cbn in Hn.
      * rewrite Hn. rsimpl. by rewrite (decide_False (P := index x = n)), (decide_False (P := x = top)) by done.
      * change (binary_search roots x) with (Scc.contains roots x). rewrite contains_Ok by done. rsimpl. rewrite Hn. rsimpl.
        rewrite (decide_False (P := x = top)) by done. by case_bool_decide; case_decide.
    + destruct d; cbn; unfold virtual_root; cbn [vr_graph vr_roots]; rewrite index_of_nat, Htop, ?(vw_bound (g := g) (s := s)); rsimpl.
      * rewrite !decide_True by done. by rewrite app_nil_r.
      * by rewrite decide_True.
  - split.
    + intros x [Hx| ->]%virtual_node; cbn; [apply (nodes_bound g s HV) in Hx; lia|rewrite index_of_nat; lia].
    + cbn. apply NoDup_app. split_and!; [apply (nodes_nodup g s HV)| |apply NoDup_singleton].
      intros x Hx ->%list_elem_of_singleton. by apply node_not_top in Hx.
    + intros d x y [Hx| ->]%virtual_node Hy; apply virtual_node.
      * cbn in Hy. rewrite decide_False in Hy by by apply node_not_top. destruct d; [left; by apply (nodes_next g s HV Outgoing x)|].
        apply elem_of_app in Hy as [Hy|Hy]; [|left; by apply (nodes_next g s HV Incoming x)].
        destruct (decide (x ∈ roots)); [|by apply elem_of_nil in Hy]. right. by apply list_elem_of_singleton in Hy.
      * cbn in Hy. rewrite decide_True in Hy by done. destruct d; [left; by apply Hin|by apply elem_of_nil in Hy].
    + assert (Hnone : ∀ x d, x ∈ sh_nodes s → occurrences top (sh_next s d x) = 0).
      { intros x d Hx. destruct (occurrences top (sh_next s d x)) eqn:Ho; [done|].
        assert (top ∈ sh_next s d x) as Ht by (apply occurrences_elem; lia).
        apply (nodes_next g s HV) in Ht; [|done]. by apply node_not_top in Ht. }
      assert (Hnr : occurrences top roots = 0).
      { destruct (occurrences top roots) eqn:Ho; [done|]. assert (top ∈ roots) as Ht by (apply occurrences_elem; lia).
        by apply Hin, node_not_top in Ht. }
      intros x y [Hx| ->]%virtual_node [Hy| ->]%virtual_node; cbn [sh_next virtual_shape].
      * pose proof (node_not_top x Hx) as Hxt. pose proof (node_not_top y Hy) as Hyt. rewrite !decide_False by done.
        rewrite occurrences_app. assert (Ht : occurrences x (if decide (y ∈ roots) then [top] else []) = 0).
        { destruct (decide (y ∈ roots)); [|done]. unfold occurrences. by rewrite filter_cons, decide_False. }
        rewrite Ht. by apply (so_mirror _ (vw_ok (g := g) (s := s))).
      * rewrite (decide_False (P := x = top)), (decide_True (P := top = top)) by (done || by apply node_not_top). by rewrite Hnone.
      * rewrite (decide_True (P := top = top)), (decide_False (P := y = top)) by (done || by apply node_not_top).
        rewrite occurrences_app, (Hnone y Incoming Hy), Nat.add_0_r.
        assert (Hnd : NoDup roots).
        { by apply ascending_nodup. }
        rewrite (occurrences_nodup y roots Hnd). destruct (decide (y ∈ roots)); [|done].
        unfold occurrences. by rewrite filter_cons, decide_True.
      * by rewrite !decide_True, Hnr by done.
Qed.
End View.

(** ** A forest from its parts *)

Section Parts.
Context {G : Type} {HG : GraphView G} (g : G) (s : shape) (HV : Views g s) (n : nat) (Hbound : sh_bound s = S n).
Context (small : (N.of_nat (sh_bound s) ≤ U32_MAX)%N) (Hroot : N.of_nat n ∈ sh_nodes s).
Context (tbl : list N) (HI : idom_table s (N.of_nat n) tbl).
Notation R := (edge_to (sh_next s Outgoing)).
Notation top := (N.of_nat n).

(** The parent of a node in the table, without the virtual root. *)
Definition part (w : N) : option Id := if decide (w = ABSENT ∨ w = top) then None else Some w.

Lemma count_true (l : list bool) k :
  length (filter (λ b : bool, b = true) l) = length (filter (λ i, default false (l !! (i - k)) = true) (seq k (length l))).
Proof using.
  clear. revert k. induction l as [|b l IH]; intros k; [done|]. cbn [length seq]. rewrite !filter_cons, Nat.sub_diag. cbn [lookup list_lookup default].
  assert (Hext : filter (λ i, default false ((b :: l) !! (i - k)) = true) (seq (S k) (length l))
               = filter (λ i, default false (l !! (i - S k)) = true) (seq (S k) (length l))).
  { apply filter_ext_in. intros i [Hi _]%elem_of_seq. replace (i - k) with (S (i - S k)) by lia. done. }
  rewrite Hext. specialize (IH (S k)). destruct b; [|exact IH]. exact (f_equal S IH).
Qed.

Lemma rfold_filter {A B} (step : list B → A → res (list B)) (q : A → bool) (h : A → B) l acc :
  (∀ acc x, x ∈ l → step acc x = Ok (if q x then acc ++ [h x] else acc)) →
  rfold step acc l = Ok (acc ++ (h <$> filter (λ x, q x = true) l)).
Proof using.
  clear. revert acc. induction l as [|x l IH]; intros acc Hst; [by rewrite app_nil_r|]. cbn [rfold]. rewrite Hst by left. rsimpl.
  rewrite IH by (intros; apply Hst; by right). rewrite filter_cons. destruct (q x) eqn:Hq.
  - rewrite decide_True by done. rewrite fmap_cons, <-app_assoc. done.
  - by rewrite decide_False by done.
Qed.

Lemma from_forest_parts_spec (idoms : list (option Id)) (reach : list bool) :
  length idoms = n → length reach = n →
  (∀ i w, i < n → tbl !! i = Some w → idoms !! i = Some (part w)) →
  (∀ i, i < n → default false (reach !! i) = true ↔ rtc R top (N.of_nat i)) →
  ∃ t ts, from_forest_parts idoms reach = Ok t ∧ virtual_tree s n tbl t ts.
Proof using HV small Hroot HI Hbound.
  intros Hli Hlr Hi Hr. assert (Hsm : (N.of_nat n ≤ U32_MAX)%N) by (clear -small Hbound; lia).
  assert (Hlt : length tbl = S n) by (rewrite (it_length _ _ _ HI); done).
  unfold from_forest_parts. rewrite Hli, Hlr, bool_decide_true by done. rsimpl. unfold check_bound.
  rewrite (bool_decide_true (is_Some _)) by (exists (N.of_nat n); by apply u32_try_from_Some). rsimpl.
  assert (Htb : ∀ i w, i < n → tbl !! i = Some w → w = ABSENT ∨ (w ≤ U32_MAX)%N).
  { intros i w Hin Hw. destruct (table_ranked g s HV n Hbound small Hroot tbl HI) as (rank & Hp & _).
    destruct (Hp i w Hw) as [|(j & -> & Hj & _)]; [by left|right]. clear -small Hbound Hj. lia. }
  assert (Hpar : rmapM parent_word idoms = Ok (table n tbl)).
  { rewrite (rmapM_pure _ (λ o, match o with Some p => p | None => ABSENT end)).
    - f_equal. apply list_eq. intros i. destruct (decide (i < n)) as [Hin|Hin].
      + destruct (lookup_lt_is_Some_2 tbl i ltac:(lia)) as [w Hw]. rewrite list_lookup_fmap, (Hi i w Hin Hw), unrooted_lookup, Hw by done.
        cbn. unfold part, unrooted. destruct (decide (w = top)) as [->|Hne]; [by rewrite decide_True by tauto|].
        destruct (decide (w = ABSENT)) as [->|Hna]; [by rewrite decide_True by tauto|]. by rewrite decide_False by tauto.
      + rewrite !lookup_ge_None_2; [done| |rewrite length_fmap; lia]. unfold table. rewrite length_fmap, length_take. lia.
    - intros o [i Ho]%list_elem_of_lookup. pose proof (lookup_lt_Some _ _ _ Ho) as Hin. rewrite Hli in Hin.
      destruct (lookup_lt_is_Some_2 tbl i ltac:(lia)) as [w Hw]. rewrite (Hi i w Hin Hw) in Ho. injection Ho as <-.
      unfold part. case_decide as Hd; [done|]. cbn. destruct (Htb i w Hin Hw) as [|Hwb]; [tauto|].
      rewrite word_eq; by rewrite word_of_index. }
  rewrite Hpar. rsimpl. pose proof (table_length s n Hbound tbl HI) as Htl.
  assert (Hstray : forallb no_stray_parent (zip (table n tbl) reach) = true).
  { apply forallb_elem. intros [p b] [i Hz]%list_elem_of_lookup. apply lookup_zip_with_Some in Hz as (p' & b' & [= <- <-] & Hp & Hb).
    unfold no_stray_parent. cbn. destruct b; [done|]. cbn. apply bool_decide_eq_true.
    pose proof (lookup_lt_Some _ _ _ Hb) as Hin. rewrite Hlr in Hin. rewrite unrooted_lookup in Hp by done.
    apply fmap_Some in Hp as (w & Hw & ->).
    pose proof (it_absent _ _ _ HI (N.of_nat i)) as Ha. rewrite index_of_nat, Hbound in Ha.
    rewrite Ha in Hw; [|lia|left; rewrite <-Hr, Hb by done; done]. injection Hw as <-. unfold unrooted. by case_decide. }
  rewrite Hstray. rsimpl. rewrite Htl.
  rewrite (rfold_filter _ (λ i, bool_decide (tbl !! i = Some top)) N.of_nat).
  2:{ intros acc i [_ Hin]%elem_of_seq. cbn in Hin. unfold is_forest_root.
      destruct (lookup_lt_is_Some_2 reach i ltac:(lia)) as [b Hb]. rewrite (vget_eq _ _ _ Hb). rsimpl.
      destruct (lookup_lt_is_Some_2 tbl i ltac:(lia)) as [w Hw]. specialize (Hr i Hin). rewrite Hb in Hr. cbn in Hr.
      assert (Htab : table n tbl !! i = Some (unrooted n w)) by by rewrite unrooted_lookup, Hw.
      pose proof (it_absent _ _ _ HI (N.of_nat i)) as Ha. rewrite index_of_nat, Hbound in Ha. rewrite Hw.
      destruct b.
      - rewrite (vget_eq _ _ _ Htab). rsimpl. assert (Hir : rtc R top (N.of_nat i)) by by apply Hr.
        assert (Hne : N.of_nat i ≠ top) by lia.
        destruct (it_idom _ _ _ HI (N.of_nat i) Hir Hne) as (d & Hd & Hdom & _). rewrite index_of_nat, Hw in Hd. injection Hd as ->.
        assert (Hda : d ≠ ABSENT).
        { assert (Hdr : rtc R top d) by by apply (dominator_reached s top d (N.of_nat i)).
          pose proof (reached_lt g s HV top Hroot d Hdr) as Hdb. rewrite Hbound in Hdb. clear -Hdb small Hbound. unfold ABSENT, index in *. lia. }
        unfold unrooted. destruct (decide (d = top)) as [->|Hdt].
        + rewrite (bool_decide_true (ABSENT = ABSENT)), (bool_decide_true (Some top = Some top)) by done.
          by rewrite word_eq by lia.
        + rewrite (bool_decide_false (d = ABSENT)), (bool_decide_false (Some d = Some top)) by congruence. done.
      - rsimpl. assert (Hno : ¬ rtc R top (N.of_nat i)) by (rewrite <-Hr; done).
        rewrite Ha in Hw; [|lia|by left]. injection Hw as <-. rewrite bool_decide_false; [done|].
        intros [= Heq]. clear -Heq small Hbound. unfold ABSENT in Heq. lia. }
  rsimpl. cbn [app].
  assert (Htops : filter (λ i, bool_decide (tbl !! i = Some top) = true) (seq 0 n) = tops n tbl).
  { unfold tops. apply filter_ext_in. intros i _. by rewrite bool_decide_eq_true. }
  rewrite Htops, (count_true reach 0), Hlr.
  destruct (number_virtual g s HV n Hbound small Hroot tbl HI (filter (λ i, default false (reach !! (i - 0)) = true) (seq 0 n)))
    as (ts & c & nb & Hnum & Hvt).
  - apply NoDup_filter, NoDup_seq.
  - intros x. rewrite list_elem_of_filter, elem_of_seq, Nat.sub_0_r. split.
    + intros [Hx [_ Hxn]]. cbn in Hxn. split; [done|]. by apply Hr.
    + intros [Hxn Hx]. split; [by apply Hr|split; [apply Nat.le_0_l|done]].
  - rewrite Hnum. rsimpl. by exists (from_numbered (table n tbl) nb), ts.
Qed.
End Parts.

(** ** The roots of the forest *)

Section Sources.
Context {G : Type} {HG : GraphView G} {HR : RootedView G} (g : G) (s : shape) (HV : Views g s).
Notation root := (gv_root g).
Context (Hroot : gv_root g ∈ sh_nodes s).
Notation n := (sh_bound s).
Notation prev := (sh_next s Incoming).
Notation R := (edge_to (sh_next s Outgoing)).
Notation P := (edge_to (sh_next s Incoming)).
Context (dominators : DominatorTree).
Context (Hdom : ∀ x, x ∈ sh_nodes s → ∃ b, is_reachable dominators x = Ok b ∧ (b = true ↔ rtc R root x)).

(** The least node of a component the root does not reach and no edge enters. *)
Definition source (r : Id) : Prop :=
  r ∈ sh_nodes s ∧ ¬ rtc R root r ∧ ∀ p, p ∈ sh_nodes s → rtc R p r → rtc R r p ∧ (r ≤ p)%N.

Section Components.
Context (dec : SccDecomposition) (cs : list (list Id)) (Hd : dec_rep n dec cs [] []).
Context (Hcs : sccs R P cs) (Hall : ∀ x, x ∈ concat cs ↔ x ∈ sh_nodes s).

Lemma class_at i C x : cs !! i = Some C → x ∈ C → x ∈ sh_nodes s.
Proof using Hall. intros HC Hx. apply Hall, concat_elem. by exists i, C. Qed.

Lemma class_iff i C x y : cs !! i = Some C → x ∈ C → y ∈ C ↔ rtc R x y ∧ rtc R y x.
Proof using Hcs. intros HC Hx. apply (sc_class _ _ _ Hcs C x y); [by eapply list_elem_of_lookup_2|done]. Qed.

Lemma class_index i C x : cs !! i = Some C → x ∈ C → component_index dec x = Ok i.
Proof using Hd Hall HV.
  intros HC Hx. apply (component_index_Ok _ _ _ Hd); [|by exists C]. apply (nodes_bound g s HV). by eapply class_at.
Qed.

(** Whether an edge enters the component from outside. *)
Definition entered (C : list Id) : bool := existsb (λ b, existsb (λ p, negb (bool_decide (p ∈ C))) (prev b)) C.

Lemma entered_eq i C : cs !! i = Some C →
  rany (λ block, before ← gv_predecessors g block;
    rany (λ p, j ← component_index dec p; mret (bool_decide (j ≠ i))) before) C = Ok (entered C).
Proof using HV Hd Hall.
  intros HC. apply rany_pure. intros b Hb. assert (Hbn : b ∈ sh_nodes s) by by eapply class_at.
  pose proof (vw_next (g := g) (s := s) Incoming b Hbn) as Hp. cbn in Hp. rewrite Hp. rsimpl. apply rany_pure. intros p Hpb.
  assert (Hpn : p ∈ sh_nodes s) by by apply (nodes_next g s HV Incoming b).
  pose proof (proj2 (Hall p) Hpn) as (j & D & HD & HpD)%concat_elem. rewrite (class_index j D p HD HpD). rsimpl. f_equal.
  destruct (decide (j = i)) as [->|Hne].
  - rewrite HC in HD. injection HD as <-. by rewrite bool_decide_false, bool_decide_true by tauto.
  - rewrite bool_decide_true, bool_decide_false; [done| |done]. intros HpC. apply Hne.
    pose proof (class_index i C p HC HpC) as H1. pose proof (class_index j D p HD HpD) as H2. congruence.
Qed.

Lemma entered_true i C : cs !! i = Some C →
  entered C = true ↔ ∃ b p, b ∈ C ∧ p ∈ prev b ∧ p ∉ C.
Proof using.
  clear. intros _. unfold entered. rewrite existsb_elem. setoid_rewrite existsb_elem. setoid_rewrite negb_true_iff.
  setoid_rewrite bool_decide_eq_false. naive_solver.
Qed.

Lemma prev_iff x y : x ∈ sh_nodes s → y ∈ sh_nodes s → y ∈ prev x ↔ x ∈ sh_next s Outgoing y.
Proof using HV. intros Hx Hy. symmetry. by apply (mirror_elem s Outgoing y x (vw_ok (g := g))). Qed.

(** A component no edge enters holds whatever reaches it. *)
Lemma unentered_closed i C x p : cs !! i = Some C → entered C = false → x ∈ C → p ∈ sh_nodes s → rtc R p x → p ∈ C.
Proof using HV Hall.
  intros HC He Hx Hp Hpx. revert Hp. induction Hpx as [x|p q x Hpq _ IH]; [done|]. intros Hp.
  assert (Hq : q ∈ sh_nodes s) by by apply (nodes_next g s HV Outgoing p). specialize (IH Hx Hq).
  destruct (decide (p ∈ C)) as [|Hno]; [done|]. exfalso. assert (entered C = true) as Ht; [|congruence].
  apply (entered_true i C HC). exists q, p. split_and!; [done| |done]. by apply prev_iff.
Qed.

Lemma source_at i C r : cs !! i = Some C → head C = Some r →
  (¬ rtc R root r ∧ entered C = false) ↔ source r.
Proof using HV Hall Hcs.
  intros HC Hh. assert (Hr : r ∈ C) by (destruct C; [done|injection Hh as ->; left]).
  assert (HCs : StronglySorted N.lt C) by (apply (sc_sorted _ _ _ Hcs); by eapply list_elem_of_lookup_2).
  assert (Hleast : ∀ p, p ∈ C → (r ≤ p)%N).
  { destruct C as [|c C]; [done|]. injection Hh as ->. apply StronglySorted_inv in HCs as [_ Hc]. rewrite Forall_forall in Hc.
    intros p [->|Hp%Hc]%elem_of_cons; lia. }
  split.
  - intros [Hno He]. split_and!; [by eapply class_at|done|]. intros p Hp Hpr.
    assert (HpC : p ∈ C) by by apply (unentered_closed i C r). split; [by apply (class_iff i C r p)|by apply Hleast].
  - intros (_ & Hno & Hsrc). split; [done|]. apply not_true_iff_false. rewrite (entered_true i C HC).
    intros (b & p & Hb & Hp & HpC). assert (Hbn : b ∈ sh_nodes s) by by eapply class_at.
    assert (Hpn : p ∈ sh_nodes s) by by apply (nodes_next g s HV Incoming b).
    apply HpC, (class_iff i C r p); [done..|]. assert (Hpr : rtc R p r).
    { apply rtc_l with b; [by apply prev_iff|]. by apply (class_iff i C r b). }
    split; [|done]. by apply Hsrc.
Qed.

Lemma gather_sources :
  ∃ found, rfold (source_root g dominators dec) [root] (zip (seq 0 (length cs)) cs) = Ok found ∧
    ∀ r, r ∈ found ↔ r = root ∨ source r.
Proof using HV Hroot Hdom Hd Hcs Hall.
  destruct (rfold_inv (λ (dn : list (nat * list Id)) (found : list Id),
      ∀ r, r ∈ found ↔ r = root ∨ ∃ i C, (i, C) ∈ dn ∧ head C = Some r ∧ source r)
    (source_root g dominators dec) [root] (zip (seq 0 (length cs)) cs)) as (found & Hrun & Hf).
  - intros r. rewrite list_elem_of_singleton. split; [by left|].
    intros [|(i & C & Hin & _)]; [done|by apply elem_of_nil in Hin].
  - intros dn [i C] acc Hpref Hacc.
    assert (HC : cs !! i = Some C).
    { assert (Hin : (i, C) ∈ zip (seq 0 (length cs)) cs) by (eapply elem_of_prefix; [|exact Hpref]; set_solver).
      apply list_elem_of_lookup in Hin as [k Hk]. apply lookup_zip_with_Some in Hk as (i' & C' & [= <- <-] & Hi & HC).
      apply lookup_seq in Hi as [-> _]. done. }
    assert (Hne : C ≠ []) by (apply (sc_inhabited _ _ _ Hcs); by eapply list_elem_of_lookup_2).
    unfold source_root. destruct (head C) as [f|] eqn:Hh; [|by destruct C].
    assert (Hf : f ∈ C) by (destruct C; [done|injection Hh as ->; left]).
    destruct (Hdom f) as (b & -> & Hb); [by eapply class_at|]. rsimpl.
    pose proof (source_at i C f HC Hh) as Hsrc.
    assert (Hgoal : ∀ acc' : list Id, (∀ r : Id, r ∈ acc' ↔ r ∈ acc ∨ (r = f ∧ source f)) →
      ∀ r : Id, r ∈ acc' ↔ r = root ∨ ∃ (i0 : nat) (C0 : list Id), (i0, C0) ∈ dn ++ [(i, C)] ∧ head C0 = Some r ∧ source r).
    { intros acc' Ha r. rewrite Ha, Hacc. split.
      - intros [[|(i0 & C0 & Hin & ? & ?)]|[-> Hs]]; [by left|right; exists i0, C0; split_and!; [set_solver|done..]|].
        right. exists i, C. split_and!; [set_solver|done..].
      - intros [|(i0 & C0 & [Hin|[= -> ->]%list_elem_of_singleton]%elem_of_app & Hh0 & Hs)]; [by do 2 left| |].
        + left. right. by exists i0, C0.
        + right. rewrite Hh in Hh0. injection Hh0 as ->. done. }
    destruct b.
    + exists acc. split; [done|]. apply Hgoal. intros r. split; [by left|]. intros [|[_ Hs]]; [done|].
      apply Hsrc in Hs as [Hno _]. by destruct Hno; apply Hb.
    + rewrite (entered_eq i C HC). rsimpl. eexists. split; [done|]. apply Hgoal. intros r.
      assert (Hno : ¬ rtc R root f) by (rewrite <-Hb; done). destruct (entered C) eqn:He.
      * split; [by left|]. intros [|[_ Hs]]; [done|]. apply Hsrc in Hs as [_ Hs]. congruence.
      * rewrite elem_of_app, list_elem_of_singleton. assert (source f) by by apply Hsrc. naive_solver.
  - exists found. split; [done|]. intros r. rewrite Hf. split; [intros [|(? & ? & _ & _ & ?)]; tauto|].
    intros [|Hs]; [by left|right]. pose proof (proj2 (Hall r) (proj1 Hs)) as (i & C & HC & Hr)%concat_elem.
    exists i, C. assert (Hl : i < length cs) by by eapply lookup_lt_Some. split_and!; [| |done].
    + apply list_elem_of_lookup. exists i. apply lookup_zip_with_Some. exists i, C. split_and!; [done| |done].
      by rewrite lookup_seq_lt.
    + assert (HCs : StronglySorted N.lt C) by (apply (sc_sorted _ _ _ Hcs); by eapply list_elem_of_lookup_2).
      destruct C as [|c C]; [by apply elem_of_nil in Hr|]. cbn. f_equal.
      assert (Hcr : rtc R c r) by (apply (class_iff i (c :: C) r c); [done..|left]).
      assert (Hcn : c ∈ sh_nodes s) by (eapply class_at; [done|left]).
      destruct Hs as (_ & _ & Hs). destruct (Hs c Hcn Hcr) as [_ Hle].
      apply StronglySorted_inv in HCs as [_ Hc]. rewrite Forall_forall in Hc.
      apply elem_of_cons in Hr as [->|Hr%Hc]; [done|lia].
Qed.

(** Every node is reached from the root or from a source. *)
Lemma sources_cover x : x ∈ sh_nodes s → ∃ r, (r = root ∨ source r) ∧ rtc R r x.
Proof using HV Hdom Hd Hcs Hall.
  intros Hx. pose proof (proj2 (Hall x) Hx) as (i & C & HC & HxC)%concat_elem. revert x C Hx HC HxC.
  induction i as [i IH] using lt_wf_ind. intros x C Hx HC HxC.
  assert (Hne : C ≠ []) by (apply (sc_inhabited _ _ _ Hcs); by eapply list_elem_of_lookup_2).
  destruct (head C) as [f|] eqn:Hh; [|by destruct C].
  assert (Hf : f ∈ C) by (destruct C; [done|injection Hh as ->; left]).
  assert (Hfx : rtc R f x) by by apply (class_iff i C f x).
  destruct (Hdom f) as (b & _ & Hb); [by eapply class_at|].
  destruct b; [exists root; split; [by left|]; etrans; [by apply Hb|done]|].
  destruct (entered C) eqn:He.
  2:{ exists f. split; [right|done]. apply (source_at i C f HC Hh). split; [by rewrite <-Hb|done]. }
  apply (entered_true i C HC) in He as (b & p & HbC & Hp & HpC).
  assert (Hbn : b ∈ sh_nodes s) by by eapply class_at.
  assert (Hpn : p ∈ sh_nodes s) by by apply (nodes_next g s HV Incoming b).
  pose proof (proj2 (Hall p) Hpn) as (j & D & HD & HpD)%concat_elem.
  assert (Hji : j ≤ i).
  { apply (index_descends g s P dec cs b p i j HV Hd Hcs Hbn Hpn Hp); [by eapply class_index|by eapply class_index]. }
  assert (j ≠ i) by (intros ->; rewrite HC in HD; by injection HD as <-).
  destruct (IH j ltac:(lia) p D Hpn HD HpD) as (r & Hr & Hrp). exists r. split; [done|].
  etrans; [exact Hrp|]. apply rtc_l with b; [by apply prev_iff|]. by apply (class_iff i C b x).
Qed.
End Components.

Lemma source_roots_spec :
  ∃ found, source_roots g dominators = Ok found ∧ (∀ r, r ∈ found ↔ r = root ∨ source r) ∧
    ∀ x, x ∈ sh_nodes s → ∃ r, r ∈ found ∧ rtc R r x.
Proof using HV Hroot Hdom.
  destruct (kosaraju_spec g s HV) as (dec & cs & Hrun & Hd & Hcs & Hall). unfold source_roots. rewrite Hrun. rsimpl.
  rewrite (components_Ok _ _ _ Hd). rsimpl. destruct (gather_sources dec cs Hd Hcs Hall) as (found & -> & Hf).
  exists found. split_and!; [done..|]. intros x Hx. destruct (sources_cover dec cs Hd Hcs Hall x Hx) as (r & Hr & Hrx).
  exists r. split; [by apply Hf|done].
Qed.
End Sources.
