(* ===== verification/CompletedForest.v ===== *)
(** * What the completed dominator forest guarantees

    The forest [complete_dominator_forest] of [graph/dominator/forest.rs]
    returns, said of the graph's own nodes and paths: dominance over every way
    into the graph, and over no node that is not one of the graph's. *)

From S2P Require Import Prelude Ids View Store StoreInv StoreSpec StoreView History Samples Traverse Bfs Reach Scc SccKosaraju SccTheorems Epoch Dominator DomSearch DomTheory DomIdom DomNumber DomTree DomCompute DomVirtual DominatorTheorems Frontier VirtualRoot.

(** ** Ways into a graph *)

Section Ways.
Context (s : shape) (roots : list Id).
Notation n := (sh_bound s).
Notation R := (edge_to (sh_next s Outgoing)).

(** A path from one of the roots to [x]. *)
Definition way_in (p : list Id) (x : Id) : Prop := ∃ r, r ∈ roots ∧ root_path s r p x.

(** Every way in to [x] passes through [d]. *)
Definition forest_dominator (d x : Id) : Prop := (∃ p, way_in p x) ∧ ∀ p, way_in p x → d ∈ p.

(** The strict dominator every other one dominates. *)
Definition forest_immediate (d x : Id) : Prop :=
  forest_dominator d x ∧ d ≠ x ∧ ∀ e, forest_dominator e x → e ≠ x → forest_dominator e d.
End Ways.

Section Forest.
Context {G : Type} {HG : GraphView G} (g : G) (s : shape) (HV : Views g s).
Context (small : (N.of_nat (S (sh_bound s)) ≤ U32_MAX)%N) (roots : list Id).
Context (Hs : StronglySorted N.lt roots) (Hin : ∀ r, r ∈ roots → r ∈ sh_nodes s).
Context (Hcover : ∀ x, x ∈ sh_nodes s → ∃ r, r ∈ roots ∧ rtc (edge_to (sh_next s Outgoing)) r x).
Notation n := (sh_bound s).
Notation R := (edge_to (sh_next s Outgoing)).
Notation top := (N.of_nat (sh_bound s)).
Notation vs := (virtual_shape s roots).
Notation RV := (edge_to (sh_next (virtual_shape s roots) Outgoing)).
Notation dominated := (forest_dominator s roots).

Lemma chain_virtual p r : r ∈ sh_nodes s → head p = Some r → chain vs Outgoing p ↔ chain s Outgoing p.
Proof using HV small.
  revert r. induction p as [|x p IH]; intros r Hr Hh; [done|]. injection Hh as ->. destruct p as [|y p]; [done|].
  change (y ∈ sh_next vs Outgoing r ∧ chain vs Outgoing (y :: p) ↔ y ∈ sh_next s Outgoing r ∧ chain s Outgoing (y :: p)).
  rewrite (virtual_next g s HV small roots r Hr). split; intros [Hy Hc]; (split; [done|]);
    (apply (IH y); [by apply (nodes_next g s HV Outgoing r)|done..]).
Qed.

(** The paths behind the virtual root are the ways in. *)
Lemma virtual_path q x : x ≠ top → root_path vs top q x ↔ ∃ p, q = top :: p ∧ way_in s roots p x.
Proof using HV small Hin.
  intros Hx. split.
  - intros (Hh & Hl & Hc). destruct q as [|z p]; [done|]. injection Hh as ->. destruct p as [|r p]; [by injection Hl|].
    destruct Hc as [Hr Hc]. rewrite virtual_first in Hr. exists (r :: p). split; [done|]. exists r. split; [done|].
    split_and!; [done..|]. by apply (chain_virtual _ r); [apply Hin|..].
  - intros (p & -> & r & Hr & Hh & Hl & Hc). destruct p as [|y p]; [done|]. injection Hh as ->. split_and!; [done..|].
    split; [by rewrite virtual_first|]. by apply (chain_virtual (r :: p) r); [apply Hin|..].
Qed.

Lemma virtual_reached x : rtc RV top x ↔ x ∈ sh_nodes s ∨ x = top.
Proof using HV small Hin Hcover.
  split.
  - intros Hx. apply rtc_ind_r with (P := λ x, x ∈ sh_nodes s ∨ x = top) in Hx; [done|by right|].
    intros y z _ Hyz [Hy| ->].
    + unfold edge_to in Hyz. rewrite (virtual_next g s HV small roots y Hy) in Hyz. left. by apply (nodes_next g s HV Outgoing y).
    + unfold edge_to in Hyz. rewrite virtual_first in Hyz. left. by apply Hin.
  - intros [Hx| ->]; [|constructor]. destruct (Hcover x Hx) as (r & Hr & Hrx).
    apply rtc_l with r; [unfold edge_to; by rewrite virtual_first|]. apply Hin in Hr. clear Hx. revert Hr.
    induction Hrx as [x|r y x Hry _ IH]; intros Hr; [constructor|]. apply rtc_l with y.
    + unfold edge_to. by rewrite (virtual_next g s HV small roots r Hr).
    + apply IH. by apply (nodes_next g s HV Outgoing r).
Qed.

Lemma virtual_dominator d x : d ≠ top → x ≠ top → dominator vs top d x ↔ dominated d x.
Proof using HV small Hin.
  intros Hd Hx. split.
  - intros [Hr Hp]. split.
    + destruct (path_exists vs top x Hr) as (q & Hq). apply (virtual_path q x Hx) in Hq as (p & _ & Hw). by exists p.
    + intros p Hw. assert (Hq : root_path vs top (top :: p) x) by (apply virtual_path; [done|by exists p]).
      apply Hp in Hq. by apply elem_of_cons in Hq as [|].
  - intros [(p & Hw) Hp]. split.
    + assert (Hq : root_path vs top (top :: p) x) by (apply virtual_path; [done|by exists p]).
      apply (path_reached vs top _ x x Hq). by apply last_Some_elem_of, Hq.
    + intros q Hq. apply virtual_path in Hq as (p' & -> & Hw'); [|done]. right. by apply Hp.
Qed.

Lemma dominated_node d x : dominated d x → d ∈ sh_nodes s ∧ x ∈ sh_nodes s.
Proof using HV Hin.
  intros [(p & Hw) Hp]. specialize (Hp p Hw). destruct Hw as (r & Hr & Hq). pose proof (Hin r Hr) as Hrn.
  split; (apply (reach_live g s HV Outgoing r); [|done]); [by apply (path_reached s r p x)|].
  apply (path_reached s r p x x Hq). by apply last_Some_elem_of, Hq.
Qed.

(** The forest cut from the tree behind the virtual root. *)
Definition completed_parts (complete : DominatorTree) : res DominatorTree :=
  idoms ← rmapM (λ node,
    up ← idom complete (N.of_nat node);
    match up with
    | Some parent => if decide (index parent < n) then id ← from_index (index parent); mret (Some id) else mret None
    | None => mret None
    end) (seq 0 n);
  reachable ← rmapM (λ node, is_reachable complete (N.of_nat node)) (seq 0 n);
  from_forest_parts idoms reachable.

Notation HVV := (Virtual_Views g s HV small roots Hs Hin).

Lemma top_node : top ∈ sh_nodes vs.
Proof using. apply virtual_node. by right. Qed.

Lemma completed_parts_spec complete ts : dominator_tree vs top complete ts →
  ∃ t ts', completed_parts complete = Ok t ∧ virtual_tree vs n (dt_idom complete) t ts'.
Proof using HV small Hs Hin.
  intros HT. pose proof (dt_table _ _ _ _ HT) as HI.
  assert (Hlen : length (dt_idom complete) = S n) by apply (it_length _ _ _ HI).
  destruct (table_rank _ vs HVV small top top_node _ HI) as (rank & Hrank). change (sh_bound vs) with (S n) in Hrank.
  unfold completed_parts.
  rewrite (rmapM_pure _ (λ i, part n (default ABSENT (dt_idom complete !! i)))).
  2:{ intros i [_ Hi]%elem_of_seq. cbn in Hi. unfold idom. rewrite index_of_nat.
      destruct (lookup_lt_is_Some_2 (dt_idom complete) i ltac:(lia)) as [w Hw]. rewrite (vget_eq _ _ _ Hw), Hw. rsimpl. cbn [default id].
      unfold part. destruct (Hrank i w Hw) as [->|(j & -> & Hj & _)]; [by rewrite !decide_True by tauto|].
      assert (Hja : N.of_nat j ≠ ABSENT) by (clear -Hj small; unfold ABSENT; lia).
      rewrite decide_False, slot_of_nat, from_index_eq by (done || lia). rsimpl. rewrite index_of_nat.
      destruct (decide (j = n)) as [->|Hjn]; [by rewrite decide_False, decide_True by (lia || tauto)|].
      rewrite decide_True, from_index_eq by lia. rsimpl. rewrite decide_False by (intros [|]; [done|lia]). done. }
  rsimpl.
  assert (Hlive : ∀ i, i < n → ∃ b, is_reachable complete (N.of_nat i) = Ok b ∧ (b = true ↔ rtc RV top (N.of_nat i))).
  { intros i Hi. apply (tree_is_reachable _ vs HVV small top top_node complete ts _ HT). rewrite index_of_nat. cbn. lia. }
  rewrite (rmapM_pure _ (λ i, match is_reachable complete (N.of_nat i) with Ok b => b | _ => false end)).
  2:{ intros i [_ Hi]%elem_of_seq. destruct (Hlive i Hi) as (b & -> & _). done. }
  rsimpl. apply (from_forest_parts_spec _ vs HVV n eq_refl small top_node (dt_idom complete) HI).
  - by rewrite length_fmap, length_seq.
  - by rewrite length_fmap, length_seq.
  - intros i w Hi Hw. by rewrite list_lookup_fmap, lookup_seq_lt by done; cbn; rewrite Hw.
  - intros i Hi. rewrite list_lookup_fmap, lookup_seq_lt by done. cbn. destruct (Hlive i Hi) as (b & -> & Hb). done.
Qed.

(** What the forest answers. *)
Lemma forest_answers tbl t ts : idom_table vs top tbl → virtual_tree vs n tbl t ts → ∀ x, index x < n →
  (∃ b, is_reachable t x = Ok b ∧ (b = true ↔ x ∈ sh_nodes s)) ∧
  (∃ r, idom t x = Ok r ∧ ∀ d, r = Some d ↔ forest_immediate s roots d x) ∧
  ∀ d, index d < n → ∃ b, dominates t d x = Ok b ∧ (b = true ↔ d = x ∨ dominated d x).
Proof using HV small Hs Hin Hcover.
  intros HI HT x Hx. assert (Hsm : (N.of_nat n ≤ U32_MAX)%N) by (clear -small; lia).
  assert (Hnt : ∀ y, index y < n → y ≠ top) by (intros y Hy ->; rewrite index_of_nat in Hy; lia).
  assert (Hreal : ∀ y, y ∈ sh_nodes s → index y < n) by apply (nodes_bound g s HV).
  destruct (table_ranked _ vs HVV n eq_refl small top_node tbl HI) as (rank & _ & Hpar). rewrite <-(vt_table _ _ _ _ _ HT) in Hpar.
  assert (Hlen : length (dt_idom t) = n) by (rewrite (vt_table _ _ _ _ _ HT); apply (table_length vs n eq_refl tbl HI)).
  pose proof (vt_numbers _ _ _ _ _ HT) as HN.
  assert (Hwithin : ∀ y, index y < n → within ts (index y) ↔ y ∈ sh_nodes s).
  { intros y Hy. rewrite (vt_within _ _ _ _ _ HT), word_of_index, virtual_reached. specialize (Hnt y Hy). tauto. }
  assert (Habove : ∀ a y, index a < n → y ∈ sh_nodes s → above n (dt_idom t) (index a) (index y) ↔ dominated a y).
  { intros a y Ha Hy. rewrite (vt_table _ _ _ _ _ HT), (table_above _ vs HVV n eq_refl small top_node tbl HI) by
      (rewrite ?word_of_index; auto; apply virtual_reached; by left). rewrite !word_of_index. apply virtual_dominator; auto. }
  split_and!.
  - destruct (is_reachable_spec n Hsm t ts Hlen rank Hpar HN (index x) Hx) as (b & Hb & Hiff). rewrite word_of_index in Hb.
    exists b. by rewrite Hiff, Hwithin.
  - destruct (idom_spec n Hsm t Hlen rank Hpar (index x) Hx) as (r & Hr & Hiff). rewrite word_of_index in Hr. exists r.
    split; [done|]. intros d. rewrite Hiff. unfold forest_immediate. split.
    + intros [Hd Hp]. rewrite (vt_table _ _ _ _ _ HT), (table_parent_of vs n eq_refl small tbl HI) in Hp. destruct Hp as (_ & _ & Hp).
      apply (parent_reached _ vs HVV small top top_node tbl HI) in Hp as (d' & ->%index_inj & _ & Hxr & _ & Hid & Hne & Hmin).
      apply virtual_dominator in Hid; [|auto..]. split_and!; [done..|]. intros e He Hex.
      destruct (dominated_node _ _ He) as [He' _]. apply virtual_dominator; [auto..|]. apply Hmin; [|done]. apply virtual_dominator; auto.
    + intros (Hd & Hne & Hmin). destruct (dominated_node _ _ Hd) as [Hdn Hxn]. split; [auto|].
      rewrite (vt_table _ _ _ _ _ HT), (table_parent_of vs n eq_refl small tbl HI). split_and!; [auto..|].
      apply (table_parent _ vs HVV small top top_node tbl HI d x); [apply virtual_reached; by left|].
      unfold immediate. split_and!; [apply virtual_reached; by left|auto|by apply virtual_dominator; auto|done|].
      intros e He Hex. destruct (decide (e = top)) as [->|Het].
      * apply dominator_root, virtual_reached. by left.
      * apply virtual_dominator; [auto..|]. apply Hmin; [|done]. by apply virtual_dominator; auto.
  - intros d Hd. destruct (dominates_spec n Hsm t ts Hlen rank Hpar HN (index d) (index x) Hd Hx) as (b & Hb & Hiff).
    rewrite !word_of_index in Hb. exists b. split; [done|]. rewrite Hiff, (Hwithin x Hx). split.
    + intros [?%index_inj|[Hxn Ha]]; [by left|right]. by apply Habove.
    + intros [->|Hdx]; [by left|right]. split; [by apply (dominated_node d)|]. apply Habove; [done|by apply (dominated_node d)|done].
Qed.
End Forest.

(** ** The main theorem *)

Section Theorems.
Context {G : Type} {HG : GraphView G} {HR : RootedView G} (g : G) (s : shape).
Notation n := (sh_bound s).
Notation root := (gv_root g).
Notation R := (edge_to (sh_next s Outgoing)).

(** C25: given the dominator tree of a rooted view that leaves room for the
    virtual root, the construction never panics, whatever the scratch and the
    list of roots hold. It answers that no forest is needed and leaves the list
    exactly when the root reaches every node. Otherwise the list holds, in
    ascending order, the root and the least node of each component that neither
    the root nor any other component leads to, and in the forest every node is
    reachable, [dominates] answers whether every path from any of the roots to
    a node passes through the other, and [idom] is the nearest such node. *)
Theorem completed_forest_is_dominance scratch roots t :
  rooted_at g s root → (N.of_nat (S n) ≤ U32_MAX)%N → compute g = Ok t →
  ∃ scratch' roots' r, complete_dominator_forest scratch roots g t = Ok (scratch', roots', r) ∧
  match r with
  | None => roots' = roots ∧ ∀ x, x ∈ sh_nodes s → rtc R root x
  | Some f =>
      (∃ x, x ∈ sh_nodes s ∧ ¬ rtc R root x) ∧
      StronglySorted N.lt roots' ∧ (∀ x, x ∈ roots' ↔ x = root ∨ source g s x) ∧
      ∀ x, index x < n →
        (∃ b, is_reachable f x = Ok b ∧ (b = true ↔ x ∈ sh_nodes s)) ∧
        (∃ up, idom f x = Ok up ∧ ∀ d, up = Some d ↔ forest_immediate s roots' d x) ∧
        ∀ d, index d < n → ∃ b, dominates f d x = Ok b ∧ (b = true ↔ d = x ∨ forest_dominator s roots' d x)
  end.
Proof.
  intros Hra small Hc. destruct (computed_tree g s root t Hra) as (ts & HT); [done|]. destruct Hra as [HV Hsm Hroot].
  assert (Hdom : ∀ x, x ∈ sh_nodes s → ∃ b, is_reachable t x = Ok b ∧ (b = true ↔ rtc R root x)).
  { intros x Hx. apply (tree_is_reachable g s HV Hsm root Hroot t ts x HT). by apply (nodes_bound g s HV). }
  unfold complete_dominator_forest. rewrite (vw_nodes (g := g) (s := s)). rsimpl.
  rewrite (rall_pure _ (λ x, match is_reachable t x with Ok b => b | _ => false end)) by (intros x (b & -> & _)%Hdom; done).
  rsimpl. destruct (forallb _ _) eqn:Hall.
  - eexists _, _, _. split; [done|]. split; [done|]. intros x Hx. rewrite forallb_elem in Hall. specialize (Hall x Hx).
    destruct (Hdom x Hx) as (b & Hb & Hiff). rewrite Hb in Hall. by apply Hiff.
  - destruct (source_roots_spec g s HV Hroot t Hdom) as (found & -> & Hf & Hcover). rsimpl.
    set (roots' := dedup (merge_sort N.le found)).
    destruct (dedup_sorted (merge_sort N.le found)) as [Hs Hin]; [apply StronglySorted_merge_sort; typeclasses eauto|]. fold roots' in Hs, Hin.
    assert (Hmem : ∀ x, x ∈ roots' ↔ x = root ∨ source g s x) by (intros x; by rewrite Hin, merge_sort_Permutation).
    unfold virtual_root_new. rewrite (proj2 (ascending_sorted roots') Hs). rsimpl.
    assert (Hnodes : ∀ r, r ∈ roots' → r ∈ sh_nodes s) by (intros r [->|Hr]%Hmem; [done|apply Hr]).
    assert (Hcover' : ∀ x, x ∈ sh_nodes s → ∃ r, r ∈ roots' ∧ rtc R r x).
    { intros x (r & Hr & Hrx)%Hcover. exists r. by rewrite Hmem, <-Hf. }
    pose proof (Virtual_Views g s HV small roots' Hs Hnodes) as HVV.
    destruct (compute_from_spec (mk_VirtualRoot g roots') (virtual_shape s roots') HVV small _ (top_node s roots') scratch)
      as (scratch' & complete & ts1 & Hrun & HT1).
    unfold compute_in. assert (Htop : gv_root (mk_VirtualRoot g roots') = N.of_nat n).
    { change (N.of_nat (gv_node_bound g) = N.of_nat n). by rewrite (vw_bound (g := g) (s := s)). }
    rewrite Htop, Hrun. rsimpl. rewrite (vw_bound (g := g) (s := s)).
    destruct (completed_parts_spec g s HV small roots' Hs Hnodes complete ts1 HT1) as (f & ts2 & Hparts & HT2).
    exists scratch', roots', (Some f). split.
    { apply res_bind_Ok in Hparts as (idoms & -> & Hparts). rsimpl. apply res_bind_Ok in Hparts as (live & -> & Hparts). rsimpl.
      by rewrite Hparts. }
    split_and!; [|done..|].
    + apply forallb_false in Hall as (x & Hx & Hlive). exists x. split; [done|]. destruct (Hdom x Hx) as (b & Hb & Hiff).
      rewrite Hb in Hlive. rewrite <-Hiff. by rewrite Hlive.
    + apply (forest_answers g s HV small roots' Hs Hnodes Hcover' (dt_idom complete) f ts2 (dt_table _ _ _ _ HT1) HT2).
Qed.
End Theorems.

(** ** Witness *)

(** The sample store from its node 0, which reaches no other node. *)
Definition sample_from : Rooted (Graph N N) := mk_Rooted sample_store 0%N.

Definition sample_from_tree : DominatorTree :=
  match compute sample_from with Ok t => t | _ => mk_Tree [] [] [] [] [] end.

Lemma sample_from_computed : compute sample_from = Ok sample_from_tree.
Proof. vm_compute. reflexivity. Qed.

Definition sample_forest : list Id * option DominatorTree :=
  match complete_dominator_forest scratch_new [] sample_from sample_from_tree with Ok (_, r, f) => (r, f) | _ => ([], None) end.

Lemma triple_parts {A B C} (a a' : A) (b b' : B) (c c' : C) : Ok (a, b, c) = Ok (a', b', c') → b = b' ∧ c = c'.
Proof. by intros [= _ -> ->]. Qed.

Lemma sample_completed : ∃ sc, complete_dominator_forest scratch_new [] sample_from sample_from_tree = Ok (sc, sample_forest.1, sample_forest.2).
Proof. eexists. vm_compute. reflexivity. Qed.

Lemma completed_forest_is_dominance_witness :
  ∃ s, rooted_at sample_from s 0%N ∧ sample_forest.1 = [0; 2]%N ∧ source sample_from s 2%N ∧
    ∃ f, sample_forest.2 = Some f ∧ idom f 3%N = Ok (Some 2%N) ∧ forest_immediate s [0; 2]%N 2%N 3%N.
Proof.
  destruct sample_rooted as (s & [HV Hs _] & Hb & Hns). exists s.
  assert (Hra : rooted_at sample_from s 0%N).
  { split; [by apply (Rooted_Views sample_store 0%N s)|exact Hs|rewrite Hns; left]. }
  split; [exact Hra|].
  destruct (completed_forest_is_dominance sample_from s scratch_new [] sample_from_tree Hra) as (sc & roots & r & Hrun & H).
  - rewrite Hb. vm_compute. discriminate.
  - exact sample_from_computed.
  - destruct sample_completed as (sc' & Hrun'). rewrite Hrun in Hrun'. apply triple_parts in Hrun' as [Hroots Hr].
    assert (Hv : sample_forest.1 = [0; 2]%N) by (vm_compute; reflexivity).
    assert (Hf : match sample_forest.2 with Some f => idom f 3%N | None => Stuck end = Ok (Some 2%N)) by (vm_compute; reflexivity).
    rewrite Hroots, Hv in H. rewrite Hr in H. split; [exact Hv|]. clear Hrun. revert Hf H. generalize (sample_forest.2). intros [f|] Hf H; [|discriminate].
    destruct H as (_ & _ & Hsrc & Hx). split.
    { destruct (proj1 (Hsrc 2%N)) as [|Hsrc2]; [right; left|discriminate|exact Hsrc2]. }
    exists f. split; [reflexivity|]. split; [exact Hf|].
    destruct (Hx 3%N) as (_ & (up & Hup & Hiff) & _); [rewrite Hb; vm_compute; lia|].
    rewrite Hf in Hup. injection Hup as <-. by apply Hiff.
Defined.
