(* ===== verification/PostDominator.v ===== *)
(** * Post-dominator trees

    Models [graph/dominator/post.rs], [graph/dominator/post/cut.rs] and
    [graph/dominator/post/augmented.rs]: the exits and the cuts of the exit-free
    regions, the reversed graph behind a virtual exit, the tree over it, and the
    queries. *)

From S2P Require Import Prelude Ids View Traverse Reach Scc Dominator Frontier.

(** ** Exits and cuts *)

(** [CutBuffers], less its stack, which is empty between calls *)
Record CutBuffers : Type := mk_Cut {
  cut_reachable : list bool;
  cut_exit_edge : list bool;
  cut_entry : list bool;
}.

(** [ExitStructure] *)
Record ExitStructure : Type := mk_Exits {
  es_reaches_exit : list bool;
  es_exits : list Id;
  es_cut_roots : list Id;
}.

(** [Trapped] *)
Record Trapped (G : Type) : Type := mk_Trapped {
  tr_graph : G;
  tr_reachable : list bool;
  tr_reaches_exit : list bool;
}.
Arguments mk_Trapped {G} _ _ _.
Arguments tr_graph {G} _.
Arguments tr_reachable {G} _.
Arguments tr_reaches_exit {G} _.

Section Cut.
Context {G : Type} {HG : GraphView G}.

(** [Trapped::holds] *)
Definition holds (t : Trapped G) (i : nat) : res bool :=
  live ← vget (tr_reachable t) i;
  if (live : bool) then out ← vget (tr_reaches_exit t) i; mret (negb out) else mret false.

(** [impl GraphView for Trapped] *)
#[export] Instance Trapped_view : GraphView (Trapped G) := {|
  gv_node_bound t := gv_node_bound (tr_graph t);
  gv_node_ids t := rfilter (holds t) (seq 0 (length (tr_reachable t))) ≫= rmapM from_index;
  gv_successors t node :=
    (inside ← holds t (index node); if (inside : bool) then gv_successors (tr_graph t) node else mret []);
  gv_predecessors t node :=
    (inside ← holds t (index node);
     if (inside : bool) then
       before ← gv_predecessors (tr_graph t) node; rfilter (λ b, holds t (index b)) before
     else mret []);
|}.

(** [CutBuffers::mark_reachable] and [CutBuffers::mark_reaching] *)
Definition mark_reachable (g : G) (root : Id) : res (list bool) := reachable_in g [root] Outgoing None.
Definition mark_reaching (g : G) (reachable : list bool) (exits : list Id) : res (list bool) :=
  reachable_in g exits Incoming (Some reachable).

(** The [is_sink] test of [cut_roots] *)
Definition is_sink (g : G) (component : list Id) : res bool :=
  rall (λ block, next ← gv_successors g block; rall (binary_search component) next) component.

(** The loop of [cut_roots] that marks the entries of a sink component *)
Definition mark_entries (g : G) (root : Id) (reachable : list bool) (component : list Id) (entry : list bool)
    : res (list bool) :=
  rfold (λ entry block,
    into ← (if decide (block = root) then mret true
            else
              before ← gv_predecessors g block;
              rany (λ b, live ← vget reachable (index b);
                         if (live : bool) then inside ← binary_search component b; mret (negb inside) else mret false) before);
    vset entry (index block) into) entry component.

(** The loop body of [cut_roots] on one component *)
Definition cut_component (g : G) (root : Id) (reachable : list bool) (acc : list bool * list Id) (component : list Id)
    : res (list bool * list Id) :=
  let '(entry, roots) := acc in
  sink ← is_sink g component;
  if (sink : bool) then
    entry ← mark_entries g root reachable component entry;
    more ← rfilter (λ block, next ← gv_successors g block; rany (λ m, vget entry (index m)) next) component;
    mret (entry, roots ++ more)
  else mret (entry, roots).

(** [CutBuffers::cut_roots]; the buffer is left as it was when nothing is
    trapped *)
Definition cut_roots_of (entry0 : list bool) (g : G) (root : Id) (reachable reaches_exit : list bool)
    : res (list bool * list Id) :=
  let trapped := mk_Trapped g reachable reaches_exit in
  inside ← gv_node_ids trapped;
  match inside with
  | [] => mret (entry0, [])
  | _ =>
      dec ← tarjan_scc trapped;
      cs ← components dec;
      '(entry, roots) ← rfold (cut_component g root reachable) (replicate (length reachable) false, []) cs;
      mret (entry, merge_sort N.le roots)
  end.

(** [CutBuffers::analyze] *)
Definition analyze (c : CutBuffers) (g : G) (root : Id) : res (CutBuffers * ExitStructure) :=
  reachable ← mark_reachable g root;
  blocks ← rfilter (vget reachable) (seq 0 (length reachable));
  ids ← rmapM from_index blocks;
  exits ← rfilter (λ block, next ← gv_successors g block; mret (bool_decide (next = []))) ids;
  reaches_exit ← mark_reaching g reachable exits;
  '(entry, cuts) ← cut_roots_of (cut_entry c) g root reachable reaches_exit;
  exit_edge ← rfold (λ marks block, vset marks (index block) true)
                (replicate (length reachable) false) (exits ++ cuts);
  mret (mk_Cut reachable exit_edge entry, mk_Exits reaches_exit exits cuts).
End Cut.

(** ** The reversed graph behind the virtual exit *)

(** [AugmentedReverse] *)
Record AugmentedReverse (G : Type) : Type := mk_Augmented {
  ar_graph : G;
  ar_cut : CutBuffers;
  ar_structure : ExitStructure;
}.
Arguments mk_Augmented {G} _ _ _.
Arguments ar_graph {G} _.
Arguments ar_cut {G} _.
Arguments ar_structure {G} _.

Section Augmented.
Context {G : Type} {HG : GraphView G}.

(** [AugmentedReverse::exit] and [AugmentedReverse::block] *)
Definition virtual_exit (a : AugmentedReverse G) : nat := gv_node_bound (ar_graph a).
Definition block (a : AugmentedReverse G) (node : nat) : res (option Id) :=
  if decide (node < virtual_exit a) then
    live ← vget (cut_reachable (ar_cut a)) node;
    if (live : bool) then id ← from_index node; mret (Some id) else mret None
  else mret None.

(** [impl GraphView for AugmentedReverse], whose identities are indices *)
#[export] Instance Augmented_view : GraphView (AugmentedReverse G) := {|
  gv_node_bound a := virtual_exit a + 1;
  gv_node_ids a :=
    (blocks ← rfilter (vget (cut_reachable (ar_cut a))) (seq 0 (virtual_exit a));
     mret ((N.of_nat <$> blocks) ++ [N.of_nat (virtual_exit a)]));
  gv_successors a node :=
    (b ← block a (index node);
     before ← match b with
              | Some b =>
                  before ← gv_predecessors (ar_graph a) b;
                  rfilter (λ m, vget (cut_reachable (ar_cut a)) (index m)) before
              | None => mret []
              end;
     mret ((if decide (index node = virtual_exit a)
            then es_exits (ar_structure a) ++ es_cut_roots (ar_structure a) else []) ++ before));
  gv_predecessors a node :=
    (b ← block a (index node);
     match b with
     | Some b =>
         next ← gv_successors (ar_graph a) b;
         out ← vget (cut_exit_edge (ar_cut a)) (index b);
         mret (next ++ if (out : bool) then [N.of_nat (virtual_exit a)] else [])
     | None => mret []
     end);
|}.
End Augmented.

(** ** The tree *)

(** [PostNode] *)
Inductive PostNode : Type := Node (n : Id) | Exit.
#[export] Instance post_node_eq_dec : EqDecision PostNode.
Proof. solve_decision. Defined.

(** [PostDominatorTree] *)
Record PostDominatorTree : Type := mk_Post {
  pt_tree : DominatorTree;
  pt_reaches_exit : list bool;
  pt_exits : list Id;
  pt_cut_roots : list Id;
}.

(** [PostDominatorScratch] *)
Record PostDominatorScratch : Type := mk_PostScratch {
  ps_dominators : DominatorScratch;
  ps_cut : CutBuffers;
}.
(** [PostDominatorScratch::new] *)
Definition post_scratch_new : PostDominatorScratch := mk_PostScratch scratch_new (mk_Cut [] [] []).

(** [lift] *)
Definition lift (parent : option Id) : PostNode :=
  match parent with Some p => Node p | None => Exit end.

(** [PostDominatorTree::contains], [ipdom], [post_dominates] and
    [strictly_post_dominates] *)
Definition contains (t : PostDominatorTree) (b : Id) : res bool := is_reachable (pt_tree t) b.
Definition ipdom (t : PostDominatorTree) (b : Id) : res (option PostNode) :=
  live ← contains t b;
  if (live : bool) then up ← idom (pt_tree t) b; mret (Some (lift up)) else mret None.
Definition post_dominates (t : PostDominatorTree) (post_dominator b : Id) : res bool :=
  dominates (pt_tree t) post_dominator b.
Definition strictly_post_dominates (t : PostDominatorTree) (post_dominator b : Id) : res bool :=
  strictly_dominates (pt_tree t) post_dominator b.

(** [PostDominatorTree::nearest_common_post_dominator] *)
Definition nearest_common_post_dominator (t : PostDominatorTree) (first second : Id) : res (option PostNode) :=
  one ← contains t first;
  both ← (if (one : bool) then contains t second else mret false);
  if (both : bool) then meet ← nearest_common_dominator (pt_tree t) first second; mret (Some (lift meet))
  else mret None.

(** The loop of [nearest_common_post_dominator_of] *)
Fixpoint common_post_of (t : PostDominatorTree) (meet : option PostNode) (blocks : list Id) : res (option PostNode) :=
  match blocks with
  | [] => mret meet
  | b :: blocks =>
      live ← contains t b;
      if (live : bool) then
        match meet with
        | None => common_post_of t (Some (Node b)) blocks
        | Some (Node previous) =>
            up ← nearest_common_dominator (pt_tree t) previous b; common_post_of t (Some (lift up)) blocks
        | Some Exit => mret (Some Exit)
        end
      else common_post_of t meet blocks
  end.
(** [PostDominatorTree::nearest_common_post_dominator_of] *)
Definition nearest_common_post_dominator_of (t : PostDominatorTree) (blocks : list Id) : res (option PostNode) :=
  common_post_of t None blocks.

(** [PostDominatorTree::reaches_exit], [exits], [cut_roots], [preorder] and
    [subtree] *)
Definition reaches_exit (t : PostDominatorTree) (b : Id) : res bool := vget (pt_reaches_exit t) (index b).
Definition exits (t : PostDominatorTree) : list Id := pt_exits t.
Definition cut_roots (t : PostDominatorTree) : list Id := pt_cut_roots t.
Definition post_preorder (t : PostDominatorTree) : list Id := preorder (pt_tree t).
Definition post_subtree (t : PostDominatorTree) (b : Id) : res (list Id) := subtree (pt_tree t) b.

(** [PostDominatorTree::children], collected *)
Definition post_children (t : PostDominatorTree) (node : PostNode) : res (list Id) :=
  '(first, stop) ← match node with
                   | Node b => '(start, stop) ← span (pt_tree t) b; mret (start + 1, stop)
                   | Exit => mret (0, length (dt_order (pt_tree t)))
                   end;
  children_from (S (length (dt_order (pt_tree t)))) (pt_tree t) first stop.

(** The successor walk of [control_dependents], collected *)
Fixpoint climb_to (fuel : nat) (t : PostDominatorTree) (stop : option PostNode) (b : Id) : res (list Id) :=
  match fuel with
  | 0 => Stuck
  | S fuel =>
      up ← ipdom t b;
      match up with
      | Some (Node parent) =>
          if decide (stop = Some (Node parent)) then mret [b]
          else rest ← climb_to fuel t stop parent; mret (b :: rest)
      | _ => mret [b]
      end
  end.
(** [PostDominatorTree::control_dependents], collected *)
Definition control_dependents (t : PostDominatorTree) (from to : Id) : res (list Id) :=
  stop ← ipdom t from;
  live ← contains t to;
  below_stop ← (if (live : bool) then
                  match stop with
                  | None => mret false
                  | Some Exit => mret true
                  | Some (Node top) => strictly_post_dominates t top to
                  end
                else mret false);
  if (below_stop : bool) then climb_to (S (length (dt_idom (pt_tree t)))) t stop to else mret [].

Section Compute.
Context {G : Type} {HG : GraphView G}.

(** [PostDominatorTree::satisfies_parent_property] *)
Definition post_satisfies_parent_property (t : PostDominatorTree) (g : G) : res bool :=
  rall (λ tail,
    up ← ipdom t tail;
    match up with
    | Some (Node parent) => heads ← gv_successors g tail; rall (post_dominates t parent) heads
    | _ => mret true
    end) (post_preorder t).

(** The table without the virtual exit, and the blocks that hang from it *)
Definition drop_exit (bound : nat) (parent : list N) : res (list N * list N) :=
  exit ← word bound;
  rfold (λ '(parent, roots) i,
    up ← vget parent i;
    if decide (up = exit) then
      parent ← vset parent i ABSENT; here ← word i; mret (parent, roots ++ [here])
    else mret (parent, roots)) (take bound parent, []) (seq 0 (length (take bound parent))).

(** [PostDominatorTree::compute_in] *)
Definition post_compute_in `{HR : !RootedView G} (scratch : PostDominatorScratch) (g : G)
    : res (PostDominatorScratch * PostDominatorTree) :=
  let bound := gv_node_bound g in
  _ ← rassert (bool_decide (N.of_nat bound < ABSENT)%N)
        "node bound plus the virtual exit exceeds the dense u32 range of a post-dominator tree";
  let root := gv_root g in
  _ ← rassert (bool_decide (index root < bound)) "post-dominator root is not a node of the graph";
  '(cut, structure) ← analyze (ps_cut scratch) g root;
  let augmented := mk_Augmented g cut structure in
  '(construction, parent) ← immediate_dominators augmented bound;
  let reached := reached construction - 1 in
  '(parent, roots) ← drop_exit bound parent;
  _ ← rassert (bool_decide (reached = length (filter (λ b : bool, b = true) (cut_reachable cut))))
        "the cut leaves a reachable block without a path to the virtual exit";
  '(numbering, numbered) ← number_forest parent roots reached;
  let t := mk_Post (from_numbered parent numbered) (es_reaches_exit structure) (es_exits structure)
             (es_cut_roots structure) in
  ok ← post_satisfies_parent_property t g;
  _ ← rassert ok "an edge ends at a block that its tail's immediate post-dominator does not post-dominate";
  mret (mk_PostScratch (mk_Scratch construction numbering) cut, t).

(** [PostDominatorTree::compute] *)
Definition post_compute `{HR : !RootedView G} (g : G) : res PostDominatorTree :=
  snd <$> post_compute_in post_scratch_new g.

(** [PostDominatorTree::frontier] and [iterated_frontier] *)
Definition post_frontier (t : PostDominatorTree) (g : G) (b : Id) : res (list Id) :=
  frontier (pt_tree t) (mk_Reversed g) b.
Definition post_iterated_frontier (t : PostDominatorTree) (g : G) (scratch : FrontierScratch) (blocks : list Id)
    (accepts : option (Id → bool)) : res (FrontierScratch * list Id) :=
  iterated_frontier (pt_tree t) (mk_Reversed g) scratch blocks accepts.
End Compute.
