(* ===== verification/PostCut.v ===== *)
(** * Exits and cuts

    [CutBuffers::analyze] of [graph/dominator/post/cut.rs]: the exits, the
    blocks that reach one, and one cut set per exit-free region no edge leaves,
    so that every block the root reaches has a path to the virtual exit. *)

From S2P Require Import Prelude Ids View Traverse Bfs Reach Scc SccKosaraju SccTarjan SccTheorems Dominator DomSearch Frontier PostDominator.

(** The entry of a marking at an identity. *)
Definition gets (v : list bool) (x : Id) : bool := default false (v !! index x).

Lemma vget_gets v x : index x < length v → vget v (index x) = Ok (gets v x).
Proof. intros [b Hb]%lookup_lt_is_Some_2. unfold gets. by rewrite (vget_eq _ _ _ Hb), Hb. Qed.

Lemma gets_true v x : gets v x = true ↔ v !! index x = Some true.
Proof. unfold gets. destruct (v !! index x) as [[]|]; naive_solver. Qed.

Lemma gets_insert v i x b : i < length v → gets (<[i := b]> v) x = if decide (index x = i) then b else gets v x.
Proof.
  intros Hi. unfold gets. case_decide as Heq.
  - subst i. by rewrite list_lookup_insert_eq.
  - by rewrite list_lookup_insert_ne.
Qed.

Section Cut.
Context {G : Type} {HG : GraphView G} (g : G) (s : shape) (HV : Views g s).
Context (small : (N.of_nat (sh_bound s) ≤ U32_MAX)%N) (root : Id) (Hroot : root ∈ sh_nodes s).
Notation n := (sh_bound s).
Notation next := (sh_next s Outgoing).
Notation prev := (sh_next s Incoming).
Notation R := (edge_to (sh_next s Outgoing)).

(** A reached block without successors, a block that reaches one, and a block
    that is reached and does not. *)
Definition is_exit (x : Id) : Prop := rtc R root x ∧ next x = [].
Definition escapes (x : Id) : Prop := rtc R root x ∧ ∃ e, rtc R x e ∧ next e = [].
Definition trapped (x : Id) : Prop := rtc R root x ∧ ¬ escapes x.

(** A block of a region that no path leaves, with an edge to a block where the
    region is entered. *)
Definition cut_root (b : Id) : Prop :=
  trapped b ∧ (∀ y, rtc R b y → rtc R y b) ∧
  ∃ m, m ∈ next b ∧ (m = root ∨ ∃ p, rtc R root p ∧ m ∈ next p ∧ ¬ rtc R b p).

Lemma reached_in x : rtc R root x → x ∈ sh_nodes s.
Proof using HV Hroot.
  intros Hx. revert Hroot. induction Hx as [|a b c Hab _ IH]; [done|]. intros Ha. apply IH.
  by apply (nodes_next g s HV Outgoing a).
Qed.

Lemma reached_index x : rtc R root x → index x < n.
Proof using HV Hroot. intros Hx%reached_in. by apply (nodes_bound g s HV). Qed.

Lemma prev_next x y : x ∈ sh_nodes s → y ∈ sh_nodes s → y ∈ prev x ↔ x ∈ next y.
Proof using HV. intros Hx Hy. symmetry. by apply (mirror_elem s Outgoing y x (vw_ok (g := g))). Qed.

Lemma next_read x : x ∈ sh_nodes s → gv_successors g x = Ok (next x).
Proof using HV. intros Hx. by apply (vw_next (g := g) (s := s) Outgoing). Qed.

Lemma prev_read x : x ∈ sh_nodes s → gv_predecessors g x = Ok (prev x).
Proof using HV. intros Hx. by apply (vw_next (g := g) (s := s) Incoming). Qed.

(** A marking of the nodes that satisfy a property. *)
Definition marking (v : list bool) (P : Id → Prop) : Prop := length v = n ∧ ∀ x, gets v x = true ↔ P x.

Lemma mark_reachable_spec : ∃ L, mark_reachable g root = Ok L ∧ marking L (rtc R root).
Proof using HV Hroot.
  destruct (reachable_in_spec g s HV Outgoing None I [root]) as (L & HL & Hlen & Hin).
  { by intros x ->%list_elem_of_singleton. }
  exists L. split; [done|]. split; [done|]. intros x. rewrite gets_true, Hin. split.
  - intros (m & ->%list_elem_of_singleton & Hr). eapply rtc_subrel; [|exact Hr]. by intros a b [? _].
  - intros Hr. exists root. split; [left|]. eapply rtc_subrel; [|exact Hr]. by intros a b ?.
Qed.

Lemma mark_reaching_spec L exits :
  marking L (rtc R root) → (∀ x, x ∈ exits ↔ is_exit x) →
  ∃ E, mark_reaching g L exits = Ok E ∧ marking E escapes.
Proof using HV Hroot.
  intros [HLn HL] Hex.
  destruct (reachable_in_spec g s HV Incoming (Some L) HLn exits) as (E & HE & Hlen & Hin).
  { intros x [Hx _]%Hex. by apply reached_in. }
  exists E. split; [done|]. split; [done|]. intros x. rewrite gets_true, Hin. split.
  - intros (e & [Her He]%Hex & Hr). clear Hin HE.
    cut (rtc R root x ∧ rtc R x e); [intros [? ?]; split; [done|by exists e]|].
    clear He. induction Hr as [e|e y x [Hy Hin] _ IH]; [done|]. change (gets L y = true) in Hin. apply HL in Hin.
    assert (Hye : e ∈ next y) by (apply prev_next; [by apply reached_in..|done]).
    destruct (IH Hin) as [? Hx]. split; [done|]. by eapply rtc_r.
  - intros (Hx & e & Hxe & He). exists e. assert (Her : rtc R root e) by by etrans.
    split; [by apply Hex|]. clear He Her. induction Hxe as [e|x y e Hxy _ IH]; [constructor|].
    assert (Hy : rtc R root y) by by eapply rtc_r.
    eapply rtc_r; [by apply IH|]. split; [apply prev_next; [by apply reached_in..|done]|].
    change (gets L x = true). by apply HL.
Qed.

(** ** The trapped subgraph *)

Section Tables.
Context (L E : list bool) (HL : marking L (rtc R root)) (HE : marking E escapes).

Definition trap (x : Id) : bool := gets L x && negb (gets E x).

Lemma trap_true x : trap x = true ↔ trapped x.
Proof using HV small Hroot HL HE.
  unfold trap, trapped. rewrite andb_true_iff, negb_true_iff, <-not_true_iff_false.
  by rewrite (proj2 HL x), (proj2 HE x).
Qed.

Lemma trapped_next x y : trapped x → y ∈ next x → trapped y.
Proof using.
  clear. intros [Hx Hn] Hy. assert (Hyr : rtc R root y) by by eapply rtc_r. split; [done|].
  intros (_ & e & Hye & He). apply Hn. split; [done|]. exists e. split; [|done]. by eapply rtc_l.
Qed.

Definition trapped_nodes : list Id := N.of_nat <$> filter (λ i, trap (N.of_nat i) = true) (seq 0 n).

(** What the view of the trapped blocks shows. *)
Definition trapped_shape : shape :=
  mk_shape n trapped_nodes (λ d x,
    if trap x then
      match d with Outgoing => next x | Incoming => filter (λ y, trap y = true) (prev x) end
    else []).

Lemma elem_of_trapped x : x ∈ trapped_nodes ↔ trapped x.
Proof using HV small Hroot HL HE.
  unfold trapped_nodes. rewrite list_elem_of_fmap. setoid_rewrite list_elem_of_filter. setoid_rewrite elem_of_seq. split.
  - intros (i & -> & Hi & _). by apply trap_true.
  - intros Hx. exists (index x). rewrite word_of_index. split; [done|]. split; [by apply trap_true|].
    pose proof (reached_index x (proj1 Hx)). lia.
Qed.

Lemma holds_eq i : i < n → holds (mk_Trapped g L E) i = Ok (trap (N.of_nat i)).
Proof using HV small Hroot HL HE.
  intros Hi. unfold holds, trap. cbn. destruct HL as [HLn _], HE as [HEn _].
  pose proof (vget_gets L (N.of_nat i)) as H1. pose proof (vget_gets E (N.of_nat i)) as H2. rewrite index_of_nat in H1, H2.
  rewrite H1 by lia. rsimpl. destruct (gets L (N.of_nat i)); [|done]. by rewrite H2 by lia.
Qed.

#[local] Instance Trapped_Views : Views (mk_Trapped g L E) trapped_shape.
Proof using HV small Hroot HL HE.
  assert (Hh : ∀ x, index x < n → holds (mk_Trapped g L E) (index x) = Ok (trap x)).
  { intros x Hx. rewrite holds_eq by done. by rewrite word_of_index. }
  split.
  - apply (vw_bound (g := g) (s := s)).
  - cbn. rewrite (proj1 HL), (rfilter_pure _ (λ i, trap (N.of_nat i))).
    2:{ intros i [_ Hi]%elem_of_seq. by apply holds_eq. }
    rsimpl. apply rmapM_pure. intros i [_ [_ Hi]%elem_of_seq]%list_elem_of_filter. apply from_index_eq. lia.
  - intros d x Hx. apply elem_of_trapped in Hx as Ht. pose proof (reached_in x (proj1 Ht)) as Hn.
    apply trap_true in Ht. destruct d; cbn; rewrite (Hh x) by (by apply (nodes_bound g s HV)); rsimpl; rewrite Ht.
    + by apply next_read.
    + rewrite (prev_read x Hn). rsimpl. apply rfilter_pure. intros y Hy. apply Hh.
      apply (nodes_bound g s HV), (nodes_next g s HV Incoming x); done.
  - split; cbn.
    + intros x Hx%elem_of_trapped. by apply reached_index, Hx.
    + unfold trapped_nodes. apply NoDup_fmap_2; [intros ???; lia|]. apply NoDup_filter, NoDup_seq.
    + intros d x y Hx%elem_of_trapped Hy. apply elem_of_trapped. apply trap_true in Hx as Ht. rewrite Ht in Hy.
      destruct d; [by apply (trapped_next x)|]. apply list_elem_of_filter in Hy as [Hy _]. by apply trap_true.
    + intros x y Hx%elem_of_trapped Hy%elem_of_trapped. apply trap_true in Hx as Hxt, Hy as Hyt. rewrite Hxt, Hyt.
      pose proof (so_mirror _ (vw_ok (g := g) (s := s)) x y) as Hm. unfold occurrences in *. change (length (filter (λ z, z = y) (next x)) = length (filter (λ z, z = x) (filter (λ z, trap z = true) (prev y)))).
      rewrite Hm by (by apply reached_in; first [apply Hx|apply Hy]).
      f_equal. rewrite list_filter_filter. apply filter_ext_in. naive_solver.
Qed.

(** From a trapped block both graphs reach the same blocks. *)
Lemma trapped_reach x y : trapped x → rtc (edge_to (sh_next trapped_shape Outgoing)) x y ↔ rtc R x y.
Proof using HV small Hroot HL HE.
  intros Hx. split.
  - apply rtc_subrel. unfold edge_to. cbn. intros a b. destruct (trap a); [done|]. by intros ?%elem_of_nil.
  - intros Hr. induction Hr as [|a b c Hab _ IH]; [constructor|]. eapply rtc_l; [|apply IH; by eapply trapped_next].
    unfold edge_to. cbn. by rewrite (proj2 (trap_true a) Hx).
Qed.

Lemma trapped_mutual x y : trapped x → mutual (edge_to (sh_next trapped_shape Outgoing)) x y ↔ rtc R x y ∧ rtc R y x.
Proof using HV small Hroot HL HE.
  intros Hx. unfold mutual. rewrite trapped_reach by done. split; intros [Hxy Hyx]; (split; [done|]).
  - apply trapped_reach; [|done]. clear Hyx. induction Hxy as [|a b c Hab _ IH]; [done|]. apply IH. by eapply trapped_next.
  - apply trapped_reach; [|done]. clear Hyx. induction Hxy as [|a b c Hab _ IH]; [done|]. apply IH. by eapply trapped_next.
Qed.

(** ** Sinks and their entries *)

Section Component.
Context (C : list Id) (HC : ∀ x y, x ∈ C → y ∈ C ↔ rtc R x y ∧ rtc R y x).
Context (HCt : ∀ x, x ∈ C → trapped x) (HCs : StronglySorted N.lt C).

Definition sinkb : bool := forallb (λ b, forallb (λ m, bool_decide (m ∈ C)) (next b)) C.
Definition entryb (b : Id) : bool :=
  bool_decide (b = root) || existsb (λ p, gets L p && negb (bool_decide (p ∈ C))) (prev b).
Definition cutb (b : Id) : bool := existsb entryb (next b).

Lemma is_sink_eq : is_sink g C = Ok sinkb.
Proof using HV small Hroot HL HE HC HCt HCs.
  unfold is_sink, sinkb. apply rall_pure. intros b Hb. rewrite next_read by by apply reached_in, HCt. rsimpl.
  apply rall_pure. intros m _. by apply contains_Ok.
Qed.

Lemma sinkb_true b : b ∈ C → sinkb = true ↔ ∀ y, rtc R b y → rtc R y b.
Proof using HC HV.
  intros Hb. unfold sinkb. rewrite forallb_elem. setoid_rewrite forallb_elem. setoid_rewrite bool_decide_eq_true. split.
  - intros H y Hy. enough (y ∈ C) as Hyc by by apply (HC b y Hb) in Hyc as [_ ?].
    induction Hy as [|a c y Hac _ IH]; [done|]. apply IH. by apply (H a Hb).
  - intros H x Hx m Hm. apply (HC b x Hb) in Hx as [Hbx Hxb]. apply (HC b m Hb).
    assert (Hbm : rtc R b m) by by eapply rtc_r. split; [done|by apply H].
Qed.

Lemma entryb_true b : b ∈ C → entryb b = true ↔ b = root ∨ ∃ p, rtc R root p ∧ b ∈ next p ∧ ¬ rtc R b p.
Proof using HV small Hroot HL HE HC HCt HCs.
  intros Hb. unfold entryb. rewrite orb_true_iff, bool_decide_eq_true, existsb_elem. pose proof (HCt b Hb) as [Hbr _].
  assert (Heq : ∀ p, (p ∈ prev b ∧ gets L p && negb (bool_decide (p ∈ C)) = true) ↔ rtc R root p ∧ b ∈ next p ∧ ¬ rtc R b p).
  { intros p. rewrite andb_true_iff, negb_true_iff, bool_decide_eq_false, (proj2 HL p), (HC b p Hb). split.
    - intros (Hp & Hpr & Hno). apply prev_next in Hp; [|by apply reached_in..]. split_and!; [done..|].
      intros Hbp. apply Hno. split; [done|]. by apply rtc_once.
    - intros (Hpr & Hp & Hno). split_and!; [apply prev_next; [by apply reached_in..|done]|done|tauto]. }
  by setoid_rewrite Heq.
Qed.

Lemma mark_entries_eq entry :
  length entry = n → ∃ entry', mark_entries g root L C entry = Ok entry' ∧ length entry' = n ∧
    ∀ b, b ∈ C → gets entry' b = entryb b.
Proof using HV small Hroot HL HE HC HCt HCs.
  intros Hlen. unfold mark_entries.
  destruct (rfold_inv (λ done entry, length entry = n ∧ ∀ b, b ∈ done → gets entry b = entryb b)
    (λ entry block,
      into ← (if decide (block = root) then mret true
            else
              before ← gv_predecessors g block;
              rany (λ b, live ← vget L (index b);
                         if (live : bool) then inside ← binary_search C b; mret (negb inside) else mret false) before);
      vset entry (index block) into) entry C) as (e' & He & Hl & Hb).
  - split; [done|]. by intros b ?%elem_of_nil.
  - intros dn x e0 Hpref [Hl Hb]. assert (Hx : x ∈ C) by (eapply elem_of_prefix; [|exact Hpref]; set_solver).
    pose proof (reached_in x (proj1 (HCt x Hx))) as Hxn. pose proof (nodes_bound g s HV x Hxn) as Hxb.
    assert (Hinto : (if decide (x = root) then mret true
            else
              before ← gv_predecessors g x;
              rany (λ b, live ← vget L (index b);
                         if (live : bool) then inside ← binary_search C b; mret (negb inside) else mret false) before)
              = Ok (entryb x)).
    { unfold entryb. destruct (decide (x = root)) as [Heq|Hne]; [by rewrite bool_decide_true|].
      rewrite bool_decide_false by done. rewrite (prev_read x Hxn). rsimpl. apply rany_pure. intros p Hp.
      assert (Hpn : p ∈ sh_nodes s) by by apply (nodes_next g s HV Incoming x).
      rewrite vget_gets by (rewrite (proj1 HL); by apply (nodes_bound g s HV)). rsimpl.
      destruct (gets L p); [|done]. change (binary_search C p) with (Scc.contains C p). by rewrite contains_Ok. }
    rewrite Hinto. rsimpl. rewrite vset_lt by lia. eexists. split; [done|]. split; [by rewrite length_insert|].
    intros b Hbd. rewrite gets_insert by lia. clear Hinto.
    destruct (decide (index b = index x)) as [Heq|Hne]; [by apply index_inj in Heq as ->|].
    apply Hb. apply elem_of_app in Hbd as [|Hbd%list_elem_of_singleton]; [done|]. by subst b.
  - exists e'. by split_and!.
Qed.

Lemma cut_component_eq entry roots :
  length entry = n → ∃ entry', cut_component g root L (entry, roots) C =
    Ok (entry', roots ++ if sinkb then filter (λ b, cutb b = true) C else []) ∧ length entry' = n.
Proof using HV small Hroot HL HE HC HCt HCs.
  intros Hlen. unfold cut_component. rewrite is_sink_eq. rsimpl. destruct sinkb eqn:Hs.
  2:{ exists entry. by rewrite app_nil_r. }
  destruct (mark_entries_eq entry Hlen) as (e' & -> & Hl' & He'). rsimpl.
  rewrite (rfilter_pure _ cutb); [rsimpl; by exists e'|]. intros b Hb.
  rewrite next_read by by apply reached_in, HCt. rsimpl. unfold cutb. apply rany_pure. intros m Hm.
  assert (Hmc : m ∈ C).
  { apply (HC b m Hb). assert (Hbm : rtc R b m) by by apply rtc_once. split; [done|]. by apply (sinkb_true b Hb). }
  rewrite vget_gets by (rewrite Hl'; apply reached_index, HCt, Hmc). by rewrite He'.
Qed.

(** A member of the region is cut exactly when it is a cut root. *)
Lemma cut_member b : b ∈ C → (sinkb = true ∧ cutb b = true) ↔ cut_root b.
Proof using HV small Hroot HL HE HC HCt HCs.
  intros Hb. unfold cut_root, cutb. rewrite (sinkb_true b Hb), existsb_elem.
  assert (Hm : (∀ y, rtc R b y → rtc R y b) → ∀ m, m ∈ next b →
    entryb m = true ↔ m = root ∨ ∃ p, rtc R root p ∧ m ∈ next p ∧ ¬ rtc R b p).
  { intros Hsink m Hm. assert (Hbm : rtc R b m) by by apply rtc_once. pose proof (Hsink m Hbm) as Hmb.
    rewrite entryb_true by by apply (HC b m Hb). split.
    - intros [|(p & ? & ? & Hno)]; [by left|right]. exists p. split_and!; [done..|]. intros ?. apply Hno. by etrans.
    - intros [|(p & ? & ? & Hno)]; [by left|right]. exists p. split_and!; [done..|]. intros ?. apply Hno. by etrans. }
  split.
  - intros (Hsink & m & Hmn & He). split_and!; [by apply HCt|done|]. exists m. split; [done|]. by apply Hm.
  - intros (_ & Hsink & m & Hmn & He). split; [done|]. exists m. split; [done|]. by apply Hm.
Qed.
End Component.

(** ** All cut roots *)

Section Components.
Context (cs : list (list Id)).
Notation RT := (edge_to (sh_next trapped_shape Outgoing)).
Context (Hcs : sccs RT RT cs) (Hall : ∀ x, x ∈ concat cs ↔ x ∈ trapped_nodes).

Lemma member_trapped C x : C ∈ cs → x ∈ C → trapped x.
Proof using HV small Hroot HL HE Hall. intros HC Hx. apply elem_of_trapped, Hall, concat_elem. apply list_elem_of_lookup in HC as [i Hi]. by exists i, C. Qed.

Lemma member_class C x y : C ∈ cs → x ∈ C → y ∈ C ↔ rtc R x y ∧ rtc R y x.
Proof using HV small Hroot HL HE Hall Hcs.
  intros HC Hx. rewrite (sc_class _ _ _ Hcs C x y HC Hx). by apply trapped_mutual, (member_trapped C).
Qed.

(** Every trapped block leads into a region that no path leaves. *)
Lemma reaches_sink x : trapped x → ∃ C y, C ∈ cs ∧ y ∈ C ∧ rtc R x y ∧ ∀ z, rtc R y z → rtc R z y.
Proof using HV small Hroot HL HE Hall Hcs.
  intros Hx. apply elem_of_trapped, Hall, concat_elem in Hx as (i & C & HC & HxC).
  revert x C HC HxC. induction i as [i IH] using lt_wf_ind. intros x C HC HxC.
  assert (HCc : C ∈ cs) by by eapply list_elem_of_lookup_2.
  destruct (sinkb C) eqn:Hs.
  { exists C, x. split_and!; [done|done|constructor|]. apply (sinkb_true C); [|done|done]. intros a b. by apply member_class. }
  apply forallb_false in Hs as (b & Hb & (m & Hm & HmC%bool_decide_eq_false)%forallb_false).
  assert (Hbt : trapped b) by by apply (member_trapped C).
  assert (Hmin : m ∈ concat (take (S i) cs)).
  { apply (sc_closed _ _ _ Hcs (S i) b).
    - apply concat_elem. exists i, C. rewrite lookup_take_lt by lia. done.
    - unfold edge_to. cbn. by rewrite (proj2 (trap_true b) Hbt). }
  apply concat_elem in Hmin as (j & D & HD & HmD). apply lookup_take_Some in HD as [HD Hj].
  assert (Hji : j < i).
  { destruct (decide (j = i)) as [->|]; [|lia]. rewrite HC in HD. by injection HD as <-. }
  destruct (IH j Hji m D HD HmD) as (D' & y & HD' & HyD & Hmy & Hsink). exists D', y. split_and!; [done|done| |done].
  assert (Hxb : rtc R x b) by (by apply (member_class C x b HCc HxC)).
  etrans; [exact Hxb|]. by eapply rtc_l.
Qed.

(** A region no path leaves is entered somewhere, and has an edge to there. *)
Lemma sink_cut C y : C ∈ cs → y ∈ C → (∀ z, rtc R y z → rtc R z y) → ∃ b, rtc R y b ∧ cut_root b.
Proof using HV small Hroot HL HE Hall Hcs.
  intros HC Hy Hsink. pose proof (member_trapped C y HC Hy) as [Hyr Hyn].
  assert (Hent : ∃ m, rtc R y m ∧ (m = root ∨ ∃ p, rtc R root p ∧ m ∈ next p ∧ ¬ rtc R m p)).
  { cut (∀ z, rtc R root z → rtc R y z → ∃ m, rtc R y m ∧ (m = root ∨ ∃ p, rtc R root p ∧ m ∈ next p ∧ ¬ rtc R m p)).
    { intros H. apply (H y Hyr). constructor. }
    apply (rtc_ind_r (λ z, rtc R y z → ∃ m, rtc R y m ∧ (m = root ∨ ∃ p, rtc R root p ∧ m ∈ next p ∧ ¬ rtc R m p)) root).
    - intros Hz. exists root. split; [done|by left].
    - intros p z Hp Hpz IH Hz. destruct (decide (p ∈ C)) as [HpC|HpC].
      + apply IH. by apply (member_class C y p HC Hy).
      + exists z. split; [done|]. right. exists p. split_and!; [done..|]. intros Hzp. apply HpC.
        assert (Hyp : rtc R y p) by by etrans. apply (member_class C y p HC Hy). split; [done|by apply Hsink]. }
  destruct Hent as (m & Hym & Hm). pose proof (Hsink m Hym) as Hmy.
  assert (Hmt : trapped m).
  { apply (member_trapped C); [done|]. by apply (member_class C y m HC Hy). }
  destruct (next m) as [|m' ms] eqn:Hnx.
  { destruct Hmt as [Hmr Hmn]. destruct Hmn. split; [done|]. exists m. by split. }
  assert (Hmm' : rtc R m m') by (apply rtc_once; unfold edge_to; rewrite Hnx; left).
  assert (Hym' : rtc R y m') by by etrans.
  assert (Hm'm : rtc R m' m) by (etrans; [by apply Hsink|done]).
  assert (Hb : ∃ b, rtc R y b ∧ m ∈ next b).
  { apply rtc_inv_r in Hm'm as [Heq|(b & Hm'b & Hbm)].
    - exists m. subst m'. split; [done|]. rewrite Hnx. left.
    - exists b. split; [by etrans|done]. }
  destruct Hb as (b & Hyb & Hbm). exists b. split; [done|]. pose proof (Hsink b Hyb) as Hby. split_and!.
  - apply (member_trapped C); [done|]. by apply (member_class C y b HC Hy).
  - intros z Hz. assert (Hyz : rtc R y z) by by etrans. etrans; [by apply Hsink|done].
  - exists m. split; [done|]. destruct Hm as [|(p & Hp & Hmp & Hno)]; [by left|right]. exists p. split_and!; [done..|].
    intros Hbp. apply Hno. transitivity b; [by transitivity y|done].
Qed.

(** The cuts gathered over the components. *)
Definition cuts_of (C : list Id) : list Id := if sinkb C then filter (λ b, cutb C b = true) C else [].

Lemma cuts_spec entry :
  length entry = n → ∃ entry' roots, rfold (cut_component g root L) (entry, []) cs = Ok (entry', roots) ∧
    StronglySorted N.lt (merge_sort N.le roots) ∧ ∀ b, b ∈ merge_sort N.le roots ↔ cut_root b.
Proof using HV small Hroot HL HE Hall Hcs.
  intros Hlen.
  destruct (rfold_inv (λ done acc, length acc.1 = n ∧ acc.2 = concat (cuts_of <$> done)) (cut_component g root L)
    (entry, []) cs) as ([entry' roots] & Hrun & _ & Hr); [done| |].
  { intros dn C [e0 r0] Hpref [Hl Hr0]. cbn in Hl, Hr0. subst r0.
    assert (HC : C ∈ cs) by (eapply elem_of_prefix; [|exact Hpref]; set_solver).
    destruct (cut_component_eq C) with e0 (concat (cuts_of <$> dn)) as (e1 & He1 & Hl1).
    - intros x y. by apply member_class.
    - intros x. by apply member_trapped.
    - by apply (sc_sorted _ _ _ Hcs).
    - done.
    - eexists. split; [exact He1|]. split; [done|]. cbn. by rewrite fmap_app, concat_app; cbn; rewrite app_nil_r. }
  cbn in Hr. exists entry', roots. split; [done|].
  assert (Hnd : NoDup roots).
  { subst roots. eapply sublist_NoDup; [apply (sc_nodup _ _ _ Hcs)|]. clear. induction cs as [|C l IH]; [done|].
    rewrite fmap_cons. cbn [concat]. apply sublist_app; [|done]. unfold cuts_of.
    destruct (sinkb C); [apply sublist_filter|apply sublist_nil_l]. }
  pose proof (merge_sort_Permutation N.le roots) as Hp. split.
  - apply sorted_lt; [apply StronglySorted_merge_sort; typeclasses eauto|by rewrite Hp].
  - intros b. rewrite Hp, Hr, list_elem_of_In, in_concat. split.
    + intros (l & Hl & Hb). apply list_elem_of_In, list_elem_of_fmap in Hl as (C & -> & HC). unfold cuts_of in Hb.
      destruct (sinkb C) eqn:Hs; [|done]. apply list_elem_of_In, list_elem_of_filter in Hb as [Hcb HbC].
      apply (cut_member C); [intros x y; by apply member_class|intros x; by apply member_trapped|by apply (sc_sorted _ _ _ Hcs)|done..].
    + intros Hb. pose proof (proj1 Hb) as Hbt. apply elem_of_trapped, Hall, concat_elem in Hbt as (i & C & HC & HbC).
      assert (HCc : C ∈ cs) by by eapply list_elem_of_lookup_2.
      apply (cut_member C) in Hb as [Hs Hcb]; [|intros x y; by apply member_class|intros x; by apply member_trapped|by apply (sc_sorted _ _ _ Hcs)|done].
      exists (cuts_of C). split; [apply list_elem_of_In, list_elem_of_fmap; by exists C|].
      unfold cuts_of. rewrite Hs. apply list_elem_of_In, list_elem_of_filter. done.
Qed.
End Components.

Lemma cut_roots_spec entry :
  ∃ entry' cuts, cut_roots_of entry g root L E = Ok (entry', cuts) ∧ StronglySorted N.lt cuts ∧
    (∀ b, b ∈ cuts ↔ cut_root b) ∧ ∀ x, trapped x → ∃ b, rtc R x b ∧ cut_root b.
Proof using HV small Hroot HL HE.
  destruct (tarjan_spec (mk_Trapped g L E) trapped_shape Trapped_Views) as (dec & cs & Hrun & Hd & Hcs & Hall).
  assert (Hsinks : ∀ x, trapped x → ∃ b, rtc R x b ∧ cut_root b).
  { intros x Hx. destruct (reaches_sink cs Hcs Hall x Hx) as (C & y & HC & Hy & Hxy & Hs).
    destruct (sink_cut cs Hcs Hall C y HC Hy Hs) as (b & Hyb & Hb). exists b. split; [by etrans|done]. }
  unfold cut_roots_of. rewrite (vw_nodes (g := mk_Trapped g L E) (s := trapped_shape)). rsimpl. cbn [sh_nodes trapped_shape].
  destruct trapped_nodes as [|x0 xs] eqn:Hn.
  - exists entry, []. split_and!; [done|constructor| |done]. intros b. split; [by intros ?%elem_of_nil|].
    intros [Hb _]. apply elem_of_trapped in Hb. by rewrite Hn in Hb.
  - rewrite Hrun. rsimpl. rewrite (components_Ok _ _ _ Hd). rsimpl. rewrite (proj1 HL).
    assert (Hall' : ∀ x, x ∈ concat cs ↔ x ∈ trapped_nodes) by (intros x; by rewrite Hall).
    destruct (cuts_spec cs Hcs Hall' (replicate n false)) as (e & r & -> & Hs & Hr); [by rewrite length_replicate|].
    rsimpl. by eexists _, _.
Qed.
End Tables.

(** ** The analysis *)

(** What [analyze] finds. *)
Record analyzed (c : CutBuffers) (es : ExitStructure) : Prop := {
  an_reachable : marking (cut_reachable c) (rtc R root);
  an_reaches : marking (es_reaches_exit es) escapes;
  an_edge : marking (cut_exit_edge c) (λ x, is_exit x ∨ cut_root x);
  an_exits_sorted : StronglySorted N.lt (es_exits es);
  an_exits : ∀ x, x ∈ es_exits es ↔ is_exit x;
  an_cuts_sorted : StronglySorted N.lt (es_cut_roots es);
  an_cuts : ∀ x, x ∈ es_cut_roots es ↔ cut_root x;
  an_leads : ∀ x, rtc R root x → ∃ e, rtc R x e ∧ (is_exit e ∨ cut_root e);
}.

Lemma live_blocks L : marking L (rtc R root) → rfilter (vget L) (seq 0 n) = Ok (filter (λ i, gets L (N.of_nat i) = true) (seq 0 n)).
Proof using.
  clear. intros [HLn _]. apply (rfilter_pure _ (λ i, gets L (N.of_nat i))). intros i [_ Hi]%elem_of_seq.
  pose proof (vget_gets L (N.of_nat i)) as H. rewrite index_of_nat in H. apply H. lia.
Qed.

Lemma sorted_ids (P : nat → Prop) `{∀ i, Decision (P i)} m : StronglySorted N.lt (N.of_nat <$> filter P (seq 0 m)).
Proof using.
  clear. apply (StronglySorted_fmap lt); [intros; lia|]. apply StronglySorted_filter, seq_ascending.
Qed.

Lemma analyze_spec c0 : ∃ c es, analyze c0 g root = Ok (c, es) ∧ analyzed c es.
Proof using HV small Hroot.
  destruct mark_reachable_spec as (L & HLrun & HL). unfold analyze. rewrite HLrun. rsimpl.
  rewrite (proj1 HL), (live_blocks L HL). rsimpl.
  set (ids := N.of_nat <$> filter (λ i, gets L (N.of_nat i) = true) (seq 0 n)).
  assert (Hids : ∀ x, x ∈ ids ↔ rtc R root x).
  { intros x. unfold ids. rewrite list_elem_of_fmap. setoid_rewrite list_elem_of_filter. setoid_rewrite elem_of_seq. split.
    - intros (i & -> & Hi & _). by apply HL.
    - intros Hx. exists (index x). rewrite word_of_index. pose proof (reached_index x Hx).
      split_and!; [done|by apply HL|lia|lia]. }
  rewrite (rmapM_pure from_index N.of_nat).
  2:{ intros i [_ [_ Hi]%elem_of_seq]%list_elem_of_filter. apply from_index_eq. lia. }
  rsimpl. change (N.of_nat <$> filter (λ i, gets L (N.of_nat i) = true) (seq 0 n)) with ids.
  rewrite (rfilter_pure _ (λ b, bool_decide (next b = []))).
  2:{ intros b Hb%Hids. rewrite next_read by by apply reached_in. done. }
  rsimpl. set (exits := filter (λ b, bool_decide (next b = []) = true) ids).
  assert (Hex : ∀ x, x ∈ exits ↔ is_exit x).
  { intros x. unfold exits, is_exit. rewrite list_elem_of_filter, bool_decide_eq_true, Hids. tauto. }
  destruct (mark_reaching_spec L exits HL Hex) as (E & -> & HE). rsimpl.
  destruct (cut_roots_spec L E HL HE (cut_entry c0)) as (entry & cuts & -> & Hcs & Hcuts & Hsinks). rsimpl.
  destruct (rfold_inv (λ done marks, length marks = n ∧ ∀ x, gets marks x = true ↔ x ∈ done)
    (λ marks block, vset marks (index block) true) (replicate n false) (exits ++ cuts)) as (marks & -> & Hml & Hm).
  - split; [by rewrite length_replicate|]. intros x. rewrite gets_true, lookup_replicate. split; [by intros [? _]|].
    by intros ?%elem_of_nil.
  - intros dn x m0 Hpref [Hl Hin].
    assert (Hx : rtc R root x).
    { assert (Hx : x ∈ exits ++ cuts) by (eapply elem_of_prefix; [|exact Hpref]; set_solver).
      apply elem_of_app in Hx as [[Hx _]%Hex|[[Hx _] _]%Hcuts]; done. }
    pose proof (reached_index x Hx) as Hxn. rewrite vset_lt by lia. eexists. split; [done|].
    split; [by rewrite length_insert|]. intros y. rewrite gets_insert by lia. rewrite elem_of_app, list_elem_of_singleton.
    case_decide as Heq; [apply index_inj in Heq; naive_solver|]. rewrite Hin.
    split; [tauto|]. intros [|Hyx]; [done|]. by subst y.
  - rsimpl. eexists _, _. split; [done|]. split; cbn.
    + done.
    + done.
    + split; [done|]. intros x. rewrite Hm, elem_of_app, Hex, Hcuts. done.
    + unfold exits. apply StronglySorted_filter. apply sorted_ids.
    + done.
    + done.
    + done.
    + intros x Hx. destruct (gets E x) eqn:Hxe.
      * apply HE in Hxe as (_ & e & Hxe & He). exists e. split; [done|]. left. split; [by etrans|done].
      * destruct (Hsinks x) as (b & Hxb & Hb); [|exists b; split; [done|by right]].
        split; [done|]. rewrite <-(proj2 HE x), Hxe. done.
Qed.
End Cut.
