(* ===== verification/PostTree.v ===== *)
(** * The reversed graph and its post-dominator tree

    [AugmentedReverse] of [graph/dominator/post/augmented.rs] keeps the view
    contract, reaches every block the root reaches, and its paths from the
    virtual exit are the paths that leave the graph, backwards. The tree of
    [graph/dominator/post.rs] is its dominator tree without the exit. *)

From S2P Require Import Prelude Ids View Traverse Bfs Reach Scc DomTheory Dominator DomSearch DomIdom DomNumber DomTree DomCompute DomVirtual Frontier VirtualRoot PostDominator PostCut.

Lemma chain_reverse (s1 s2 : shape) (d1 d2 : TraversalDirection) (q : list Id) :
  (∀ a b, a ∈ q → b ∈ q → b ∈ sh_next s1 d1 a → a ∈ sh_next s2 d2 b) → chain s1 d1 q → chain s2 d2 (reverse q).
Proof.
  assert (Hsnoc : ∀ l x, chain s2 d2 l → (∀ y, last l = Some y → x ∈ sh_next s2 d2 y) → chain s2 d2 (l ++ [x])).
  { induction l as [|a l IH]; intros x Hc Hl; [done|]. destruct l as [|b l]; cbn in *; [split; [by apply Hl|done]|].
    destruct Hc as [Hb Hc]. split; [done|]. by apply IH. }
  intros Hab. induction q as [|a q IH]; [done|]. intros Hc. rewrite reverse_cons.
  destruct q as [|b q]; [done|]. destruct Hc as [Hb Hc]. apply Hsnoc.
  - apply IH; [intros x y Hx Hy; apply Hab; by right|done].
  - intros y Hy. rewrite reverse_cons, last_snoc in Hy. injection Hy as <-. apply Hab; [left|right; left|done].
Qed.

Section Augmented.
Context {G : Type} {HG : GraphView G} (g : G) (s : shape) (HV : Views g s).
Context (small : (N.of_nat (S (sh_bound s)) ≤ U32_MAX)%N) (root : Id) (Hroot : root ∈ sh_nodes s).
Context (c : CutBuffers) (es : ExitStructure) (HA : analyzed s root c es).
Notation n := (sh_bound s).
Notation next := (sh_next s Outgoing).
Notation prev := (sh_next s Incoming).
Notation R := (edge_to (sh_next s Outgoing)).
Notation exit := (N.of_nat (sh_bound s)).
Notation aug := (mk_Augmented g c es).

Definition live (x : Id) : bool := gets (cut_reachable c) x.
Definition live_nodes : list nat := filter (λ i, live (N.of_nat i) = true) (seq 0 n).

Lemma live_true x : live x = true ↔ rtc R root x.
Proof using HA HV small Hroot. apply (an_reachable _ _ _ _ HA). Qed.

Lemma elem_of_live i : i ∈ live_nodes ↔ i < n ∧ rtc R root (N.of_nat i).
Proof using HA HV small Hroot. unfold live_nodes. rewrite list_elem_of_filter, elem_of_seq, live_true. split; [intros [? [_ ?]]|intros [? ?]]; split; done || (split; [apply Nat.le_0_l|done]). Qed.

Lemma block_index x : rtc R root x → index x < n ∧ x ≠ exit.
Proof using HA HV small Hroot.
  intros Hx. pose proof (reached_index g s HV root Hroot x Hx) as Hb. split; [done|]. intros ->. rewrite index_of_nat in Hb. lia.
Qed.

(** What the view shows: the reached blocks and the virtual exit, edges
    reversed, the exit leading to every exit and every cut. *)
Definition aug_shape : shape :=
  mk_shape (S n) ((N.of_nat <$> live_nodes) ++ [exit]) (λ d x,
    if decide (x = exit) then
      match d with Outgoing => es_exits es ++ es_cut_roots es | Incoming => [] end
    else if live x then
      match d with
      | Outgoing => filter (λ y, live y = true) (prev x)
      | Incoming => next x ++ if gets (cut_exit_edge c) x then [exit] else []
      end
    else []).

Lemma aug_node x : x ∈ sh_nodes aug_shape ↔ rtc R root x ∨ x = exit.
Proof using HA HV small Hroot.
  cbn. rewrite elem_of_app, list_elem_of_singleton, list_elem_of_fmap. setoid_rewrite elem_of_live. split.
  - intros [(i & -> & _ & Hi)|]; [by left|by right].
  - intros [Hx|]; [left|by right]. exists (index x). rewrite word_of_index. split; [done|]. split; [by apply block_index|done].
Qed.

Lemma leaves_nodup : NoDup (es_exits es ++ es_cut_roots es).
Proof using HA HV small Hroot.
  apply NoDup_app. split_and!; [apply ascending_nodup, (an_exits_sorted _ _ _ _ HA)| |apply ascending_nodup, (an_cuts_sorted _ _ _ _ HA)].
  intros x [Hx He]%(an_exits _ _ _ _ HA) [[_ Hn] _]%(an_cuts _ _ _ _ HA). apply Hn. split; [done|]. exists x. split; [constructor|done].
Qed.

Lemma elem_of_leaves x : x ∈ es_exits es ++ es_cut_roots es ↔ gets (cut_exit_edge c) x = true.
Proof using HA HV small Hroot. rewrite elem_of_app, (an_exits _ _ _ _ HA), (an_cuts _ _ _ _ HA), (proj2 (an_edge _ _ _ _ HA) x). done. Qed.

Lemma leaves_live x : x ∈ es_exits es ++ es_cut_roots es → rtc R root x.
Proof using HA HV small Hroot. intros [[? _]%(an_exits _ _ _ _ HA)|[[? _] _]%(an_cuts _ _ _ _ HA)]%elem_of_app; done. Qed.

(** The edges among the blocks are those of the graph, reversed. *)
Lemma aug_edge x y : rtc R root x → y ∈ sh_next aug_shape Outgoing x ↔ rtc R root y ∧ x ∈ next y.
Proof using HA HV small Hroot.
  intros Hx. destruct (block_index x Hx) as [_ Hne]. cbn. rewrite decide_False by done. apply live_true in Hx as Hl. rewrite Hl.
  rewrite list_elem_of_filter, live_true. split.
  - intros [Hy Hyx]. split; [done|]. apply (prev_next g s HV); [by apply (reached_in g s HV root Hroot)..|done].
  - intros [Hy Hyx]. split; [done|]. apply (prev_next g s HV); [by apply (reached_in g s HV root Hroot)..|done].
Qed.

Lemma aug_first y : y ∈ sh_next aug_shape Outgoing exit ↔ is_exit s root y ∨ cut_root s root y.
Proof using HA HV small Hroot. cbn. rewrite decide_True by done. by rewrite elem_of_app, (an_exits _ _ _ _ HA), (an_cuts _ _ _ _ HA). Qed.

#[local] Instance Aug_Views : Views aug aug_shape.
Proof using HA HV small Hroot.
  destruct (an_reachable _ _ _ _ HA) as [HLn _]. destruct (an_edge _ _ _ _ HA) as [HEn _].
  assert (Hblock : ∀ x, rtc R root x → block aug (index x) = Ok (Some x)).
  { intros x Hx. destruct (block_index x Hx) as [Hb _]. unfold block, virtual_exit. cbn [ar_graph ar_cut].
    rewrite (vw_bound (g := g) (s := s)), decide_True by done. rewrite vget_gets by lia. rsimpl.
    apply live_true in Hx. unfold live in Hx. rewrite Hx, from_index_eq by lia. rsimpl. by rewrite word_of_index. }
  assert (Hexit : block aug n = Ok None).
  { unfold block, virtual_exit. cbn [ar_graph]. rewrite (vw_bound (g := g) (s := s)), decide_False by lia. done. }
  assert (Hixe : index exit = n) by apply index_of_nat.
  split.
  - cbn. unfold virtual_exit. cbn. rewrite (vw_bound (g := g) (s := s)). lia.
  - cbn. unfold virtual_exit. cbn. rewrite (vw_bound (g := g) (s := s)).
    rewrite (live_blocks s root _ (an_reachable _ _ _ _ HA)). done.
  - intros d x Hx%aug_node. destruct d; cbn; unfold virtual_exit; cbn [ar_graph ar_cut ar_structure]; rewrite ?(vw_bound (g := g) (s := s)).
    + destruct Hx as [Hx| ->].
      * destruct (block_index x Hx) as [Hb Hne]. rewrite (Hblock x Hx). rsimpl.
        rewrite (prev_read g s HV x) by by apply (reached_in g s HV root Hroot). rsimpl.
        rewrite (rfilter_pure _ live).
        2:{ intros y Hy. apply vget_gets. rewrite HLn. apply (nodes_bound g s HV), (nodes_next g s HV Incoming x); [|done].
            by apply (reached_in g s HV root Hroot). }
        rsimpl. rewrite (decide_False (P := index x = n)) by lia. rewrite (decide_False (P := x = exit)) by done.
        apply live_true in Hx. by rewrite Hx.
      * rewrite Hixe, Hexit. rsimpl. rewrite !decide_True by done. by rewrite app_nil_r.
    + destruct Hx as [Hx| ->].
      * destruct (block_index x Hx) as [Hb Hne]. rewrite (Hblock x Hx). rsimpl.
        rewrite (next_read g s HV x) by by apply (reached_in g s HV root Hroot). rsimpl.
        rewrite vget_gets by lia. rsimpl. rewrite decide_False by done. apply live_true in Hx. by rewrite Hx.
      * rewrite Hixe, Hexit. rsimpl. by rewrite decide_True.
  - split.
    + intros x [Hx| ->]%aug_node; cbn; [apply block_index in Hx; lia|lia].
    + cbn. apply NoDup_app. split_and!; [|intros x (i & -> & Hi%elem_of_live)%list_elem_of_fmap ?%list_elem_of_singleton; lia|apply NoDup_singleton].
      apply NoDup_fmap_2; [intros ???; lia|]. apply NoDup_filter, NoDup_seq.
    + intros d x y [Hx| ->]%aug_node Hy; apply aug_node.
      * destruct d; [left; by apply (aug_edge x) in Hy as [? _]|]. destruct (block_index x Hx) as [_ Hne].
        cbn in Hy. rewrite decide_False in Hy by done. apply live_true in Hx as Hl. rewrite Hl in Hy.
        apply elem_of_app in Hy as [Hy|Hy]; [left; by eapply rtc_r|]. destruct (gets _ _); [|by apply elem_of_nil in Hy].
        apply list_elem_of_singleton in Hy. by right.
      * cbn in Hy. rewrite decide_True in Hy by done. destruct d; [left; by apply leaves_live|by apply elem_of_nil in Hy].
    + assert (Hnone : ∀ l : list Id, exit ∉ l → occurrences exit l = 0).
      { intros l Hl. pose proof (proj1 (occurrences_elem exit l)). destruct (occurrences exit l); [done|]. destruct Hl. apply H. lia. }
      assert (Hnx : ∀ x, rtc R root x → exit ∉ next x).
      { intros x Hx Hin. assert (rtc R root exit) as Hr by by eapply rtc_r. by apply block_index in Hr as [_ ?]. }
      intros x y [Hx| ->]%aug_node [Hy| ->]%aug_node.
      * destruct (block_index x Hx) as [_ Hxn], (block_index y Hy) as [_ Hyn].
        cbn [sh_next aug_shape]. rewrite !decide_False by done. apply live_true in Hx as Hxl, Hy as Hyl. rewrite Hxl, Hyl.
        rewrite occurrences_app. assert (Ht : occurrences x (if gets (cut_exit_edge c) y then [exit] else []) = 0).
        { destruct (gets _ _); [|done]. unfold occurrences. by rewrite filter_cons, decide_False. }
        rewrite Ht, Nat.add_0_r.
        pose proof (so_mirror _ (vw_ok (g := g) (s := s)) y x) as Hm.
        rewrite Hm by by apply (reached_in g s HV root Hroot).
        unfold occurrences. f_equal. rewrite list_filter_filter. apply filter_ext_in. naive_solver.
      * destruct (block_index x Hx) as [_ Hxn]. cbn [sh_next aug_shape]. rewrite (decide_False (P := x = exit)), (decide_True (P := exit = exit)) by done.
        apply live_true in Hx as Hxl. rewrite Hxl. rewrite Hnone; [done|]. intros [Hl%live_true _]%list_elem_of_filter.
        by apply block_index in Hl as [_ ?].
      * destruct (block_index y Hy) as [_ Hyn]. cbn [sh_next aug_shape]. rewrite (decide_True (P := exit = exit)), (decide_False (P := y = exit)) by done.
        apply live_true in Hy as Hyl. rewrite Hyl.
        rewrite (occurrences_nodup y _ leaves_nodup), occurrences_app, (Hnone (next y)) by by apply Hnx.
        destruct (gets (cut_exit_edge c) y) eqn:He.
        -- rewrite decide_True by by apply elem_of_leaves. unfold occurrences. by rewrite filter_cons, decide_True.
        -- rewrite decide_False; [done|]. rewrite elem_of_leaves. congruence.
      * cbn [sh_next aug_shape]. rewrite !decide_True by done. rewrite Hnone; [done|]. intros Hl%leaves_live.
        by apply block_index in Hl as [_ ?].
Qed.

(** ** Paths to the exit *)

Notation RX := (edge_to (sh_next aug_shape Outgoing)).

Lemma aug_reached x : rtc RX exit x ↔ rtc R root x ∨ x = exit.
Proof using HA HV small Hroot.
  split.
  - apply (rtc_ind_r (λ x, rtc R root x ∨ x = exit) exit); [by right|]. intros y z _ Hyz IH.
    assert (Hy : y ∈ sh_nodes aug_shape) by by apply aug_node.
    apply aug_node. by apply (so_live _ (vw_ok (g := aug) (s := aug_shape)) Outgoing y).
  - intros [Hx| ->]; [|constructor]. destruct (an_leads _ _ _ _ HA x Hx) as (e & Hxe & He).
    eapply rtc_l; [by apply (aug_first e)|]. clear He. induction Hxe as [x|x y e Hxy Hye IH]; [constructor|].
    assert (Hy : rtc R root y) by by eapply rtc_r. eapply rtc_r; [by apply IH|]. by apply (aug_edge y).
Qed.

(** A path of the graph from a block to an exit or a cut. *)
Definition leaving (p : list Id) (x : Id) : Prop :=
  head p = Some x ∧ chain s Outgoing p ∧ ∃ e, last p = Some e ∧ (is_exit s root e ∨ cut_root s root e).

(** [d] is on every path that leaves the graph from the reached block [x]. *)
Definition post_dominator (d x : Id) : Prop := rtc R root x ∧ ∀ p, leaving p x → d ∈ p.

Lemma chain_reached (p : list Id) x y : head p = Some x → chain s Outgoing p → rtc R root x → y ∈ p → rtc R root y.
Proof using.
  clear. revert x. induction p as [|a p IH]; intros x Hh Hc Hx Hy; [done|]. injection Hh as ->.
  apply elem_of_cons in Hy as [->|Hy]; [done|]. destruct p as [|b p]; [by apply elem_of_nil in Hy|].
  destruct Hc as [Hb Hc]. apply (IH b); [done|done|by eapply rtc_r|done].
Qed.

Lemma aug_chain_live (q : list Id) x : head q = Some x → chain aug_shape Outgoing q → rtc R root x →
  ∀ y, y ∈ q → rtc R root y.
Proof using HA HV small Hroot.
  revert x. induction q as [|a q IH]; intros x Hh Hc Hx y Hy; [done|]. injection Hh as ->.
  apply elem_of_cons in Hy as [->|Hy]; [done|]. destruct q as [|b q]; [by apply elem_of_nil in Hy|].
  destruct Hc as [Hb Hc]. apply (IH b); [done|done| |done]. by apply (aug_edge x) in Hb as [? _].
Qed.

Lemma head_reverse (l : list Id) : head (reverse l) = last l.
Proof using. clear. induction l as [|x l IH]; [done|]. rewrite reverse_cons. destruct l as [|y l]; [done|]. rewrite head_app, IH. cbn. by destruct (last (y :: l)) eqn:E; [|apply last_None in E]. Qed.

(** Dominance from the virtual exit is post-dominance. *)
Lemma aug_dominator d x : rtc R root x → d ≠ exit → dominator aug_shape exit d x ↔ post_dominator d x.
Proof using HA HV small Hroot.
  intros Hx Hd. split.
  - intros [_ Hdom]. split; [done|]. intros p (Hh & Hc & e & Hl & He).
    assert (Hp : ∀ y, y ∈ p → rtc R root y) by (intros y; by apply (chain_reached p x)).
    cut (d ∈ exit :: reverse p); [intros [->|Hin]%elem_of_cons; [done|by apply elem_of_reverse]|].
    apply Hdom. split_and!; [done| |].
    + destruct p as [|a p]; [done|]. injection Hh as ->. by rewrite reverse_cons, app_comm_cons, last_snoc.
    + assert (Hrc : chain aug_shape Outgoing (reverse p)).
      { apply (chain_reverse s aug_shape Outgoing Outgoing p); [|done]. intros a b Ha Hb Hab. apply (aug_edge b); auto. }
      rewrite <-head_reverse in Hl. destruct (reverse p) as [|b q]; [done|]. injection Hl as ->.
      split; [by apply aug_first|done].
  - intros [_ Hpost]. split; [apply aug_reached; by left|]. intros q (Hh & Hl & Hc).
    destruct q as [|a q]; [done|]. injection Hh as ->. destruct q as [|b q]; [injection Hl as <-; by apply block_index in Hx as [_ ?]|].
    destruct Hc as [Hb Hc]. assert (Hbr : rtc R root b).
    { apply aug_first in Hb as [[? _]|[[? _] _]]; done. }
    assert (Hlive : ∀ y, y ∈ b :: q → rtc R root y) by by apply (aug_chain_live (b :: q) b).
    right. apply elem_of_reverse, Hpost. split_and!.
    + rewrite head_reverse. exact Hl.
    + apply (chain_reverse aug_shape s Outgoing Outgoing (b :: q)); [|exact Hc]. intros y z Hy Hz Hyz.
      by apply (aug_edge y) in Hyz as [_ ?]; [|apply Hlive].
    + exists b. split; [|by apply aug_first]. by rewrite <-head_reverse, reverse_involutive.
Qed.
End Augmented.

(** * The post-dominator tree

    [PostDominatorTree::compute_in] of [graph/dominator/post.rs]: the forest cut
    from the dominator table of the reversed graph, the parent property it
    asserts, and its queries. *)


(** Dropping the virtual exit leaves the table of the forest and its roots. *)
Lemma drop_exit_spec n tbl :
  (N.of_nat n ≤ U32_MAX)%N → length tbl = S n → drop_exit n tbl = Ok (table n tbl, N.of_nat <$> tops n tbl).
Proof.
  intros Hs Hlen. unfold drop_exit. rewrite word_eq by done. rsimpl. rewrite length_take, Nat.min_l by lia.
  assert (Hseq : ∀ dn x, dn ++ [x] `prefix_of` seq 0 n → dn = seq 0 x ∧ x < n).
  { intros dn x [k Hk]. assert (Hx : seq 0 n !! length dn = Some x).
    { rewrite Hk, <-app_assoc, lookup_app_r, Nat.sub_diag by lia. done. }
    apply lookup_seq in Hx as [Hx Hl]. cbn in Hx. subst x. split; [|done].
    pose proof (f_equal (take (length dn)) Hk) as Ht. rewrite <-app_assoc, take_app_length, take_seq in Ht.
    rewrite <-Ht at 1. f_equal. lia. }
  destruct (rfold_inv (λ dn '(parent, roots), length parent = n ∧
      (∀ i, i ∈ dn → parent !! i = unrooted n <$> (tbl !! i)) ∧ (∀ i, i ∉ dn → i < n → parent !! i = tbl !! i) ∧
      roots = N.of_nat <$> filter (λ i, tbl !! i = Some (N.of_nat n)) dn)
    (λ '(parent, roots) i,
      up ← vget parent i;
      if decide (up = N.of_nat n) then
        parent ← vset parent i ABSENT; here ← word i; mret (parent, roots ++ [here])
      else mret (parent, roots)) (take n tbl, []) (seq 0 n)) as ([parent roots] & Hrun & Hl & Hin & _ & Hr).
  - split_and!; [rewrite length_take; lia|by intros i ?%elem_of_nil| |done]. intros i _ Hi. by apply lookup_take_lt.
  - intros dn x [parent roots] Hpref (Hl & Hin & Hout & Hr). apply Hseq in Hpref as [Hdn Hx].
    assert (Hxn : x ∉ dn) by (rewrite Hdn, elem_of_seq; lia).
    destruct (lookup_lt_is_Some_2 tbl x ltac:(lia)) as [w Hw].
    rewrite (vget_eq _ _ w) by by rewrite Hout. rsimpl. rewrite filter_app, filter_cons, Hw.
    destruct (decide (w = N.of_nat n)) as [->|Hne].
    + rewrite vset_lt by lia. rsimpl. rewrite word_eq by lia. rsimpl. eexists (_, _). split; [done|].
      split_and!; [by rewrite length_insert| | |].
      * intros i [Hi| ->%list_elem_of_singleton]%elem_of_app.
        -- rewrite list_lookup_insert_ne by (intros ->; done). by apply Hin.
        -- rewrite list_lookup_insert_eq by lia. rewrite Hw. cbn. unfold unrooted. by rewrite decide_True.
      * intros i Hi Hin'. rewrite list_lookup_insert_ne by (intros ->; apply Hi; set_solver). apply Hout; [set_solver|done].
      * rewrite decide_True by done. by rewrite fmap_app, Hr.
    + eexists (_, _). split; [done|]. split_and!; [done| | |].
      * intros i [Hi| ->%list_elem_of_singleton]%elem_of_app; [by apply Hin|]. rewrite Hout, Hw by done. cbn.
        unfold unrooted. by rewrite decide_False.
      * intros i Hi Hin'. apply Hout; [set_solver|done].
      * rewrite decide_False by congruence. by rewrite app_nil_r.
  - rewrite Hrun. f_equal. f_equal; [|done]. apply list_eq. intros i. destruct (decide (i < n)) as [Hi|Hi].
    + rewrite Hin by (rewrite elem_of_seq; lia). unfold table. by rewrite list_lookup_fmap, lookup_take_lt.
    + rewrite !lookup_ge_None_2; [done| |lia]. unfold table. rewrite length_fmap, length_take. lia.
Qed.

Section Post.
Context {G : Type} {HG : GraphView G} (g : G) (s : shape) (HV : Views g s).
Context (small : (N.of_nat (S (sh_bound s)) ≤ U32_MAX)%N) (root : Id) (Hroot : root ∈ sh_nodes s).
Notation n := (sh_bound s).
Notation next := (sh_next s Outgoing).
Notation R := (edge_to (sh_next s Outgoing)).
Notation exit := (N.of_nat (sh_bound s)).

(** [t] is the post-dominator tree of the blocks [root] reaches. *)
Record post_tree (t : PostDominatorTree) (c : CutBuffers) (es : ExitStructure) (tbl : list N) (ts : list rtree) : Prop := {
  po_analyzed : analyzed s root c es;
  po_table : idom_table (aug_shape s c es) exit tbl;
  po_tree : virtual_tree (aug_shape s c es) n tbl (pt_tree t) ts;
  po_reaches : pt_reaches_exit t = es_reaches_exit es;
  po_exits : pt_exits t = es_exits es;
  po_cuts : pt_cut_roots t = es_cut_roots es;
}.

Section Tree.
Context (t : PostDominatorTree) (c : CutBuffers) (es : ExitStructure) (tbl : list N) (ts : list rtree).
Context (HT : post_tree t c es tbl ts).
Notation HA := (po_analyzed _ _ _ _ _ HT).
Notation HI := (po_table _ _ _ _ _ HT).
Notation HVT := (po_tree _ _ _ _ _ HT).
Notation post_dominator := (post_dominator s root).
Notation aug := (mk_Augmented g c es).
Notation sx := (aug_shape s c es).

Lemma exit_node : exit ∈ sh_nodes sx.
Proof using HV small Hroot HT. apply (aug_node g s HV small root Hroot c es HA). by right. Qed.

Lemma post_within x : index x < n → within ts (index x) ↔ rtc R root x.
Proof using HV small Hroot HT.
  intros Hx. rewrite (vt_within _ _ _ _ _ HVT), word_of_index, (aug_reached g s HV small root Hroot c es HA).
  split; [|by intros ?; split; [|left]]. intros [_ [|Heq]]; [done|]. rewrite Heq, index_of_nat in Hx. lia.
Qed.

Lemma post_above a x : rtc R root a → rtc R root x →
  above n (dt_idom (pt_tree t)) (index a) (index x) ↔ post_dominator a x.
Proof using HV small Hroot HT.
  intros Ha Hx. destruct (block_index g s HV small root Hroot c es HA a Ha) as [Hab Han], (block_index g s HV small root Hroot c es HA x Hx) as [Hxb Hxn].
  rewrite (vt_table _ _ _ _ _ HVT), <-(aug_dominator g s HV small root Hroot c es HA a x Hx Han).
  rewrite (table_above aug sx (Aug_Views g s HV small root Hroot c es HA) n eq_refl small exit_node tbl HI (index a) (index x) Hab Hxb).
  - by rewrite !word_of_index.
  - rewrite word_of_index. apply (aug_reached g s HV small root Hroot c es HA). by left.
Qed.

Lemma post_dominator_reached d x : post_dominator d x → rtc R root d.
Proof using HV small Hroot HT.
  intros [Hx Hp]. destruct (an_leads _ _ _ _ HA x Hx) as (e & Hxe & He).
  assert (∃ p, head p = Some x ∧ chain s Outgoing p ∧ last p = Some e) as (p & Hh & Hc & Hl).
  { clear -Hxe. induction Hxe as [x|x y e Hxy _ (p & Hh & Hc & Hl)]; [by exists [x]|]. exists (x :: p).
    destruct p as [|z p]; [done|]. injection Hh as ->. done. }
  apply (chain_reached s root p x); [done..|]. apply Hp. split_and!; [done..|by exists e].
Qed.

Lemma post_trans a b x : post_dominator a b → post_dominator b x → post_dominator a x.
Proof using HV small Hroot HT.
  intros Hab Hbx. assert (Ha := post_dominator_reached _ _ Hab). assert (Hb := post_dominator_reached _ _ Hbx).
  assert (Hx : rtc R root x) by apply Hbx. apply (post_above a x Ha Hx).
  transitivity (index b); [by apply post_above|by apply post_above].
Qed.

Lemma post_self x : rtc R root x → post_dominator x x.
Proof using HV small Hroot HT. intros Hx. apply post_above; [done..|constructor]. Qed.

(** The facts the queries ask for. *)
Lemma post_facts : length (dt_idom (pt_tree t)) = n ∧ ∃ rank : nat → nat,
  ∀ i p, dt_idom (pt_tree t) !! i = Some p → p = ABSENT ∨ ∃ j, p = N.of_nat j ∧ j < n ∧ rank j < rank i.
Proof using HV small Hroot HT.
  rewrite (vt_table _ _ _ _ _ HVT).
  destruct (table_ranked aug sx (Aug_Views g s HV small root Hroot c es HA) n eq_refl small exit_node tbl HI) as (rank & _ & Hpar).
  split; [by apply (table_length sx n eq_refl tbl HI)|by exists rank].
Qed.

Lemma small_blocks : (N.of_nat n ≤ U32_MAX)%N.
Proof using small. clear -small. lia. Qed.

Lemma post_dominates_spec d x : index d < n → index x < n →
  ∃ b, post_dominates t d x = Ok b ∧ (b = true ↔ d = x ∨ post_dominator d x).
Proof using HV small Hroot HT.
  intros Hd Hx. destruct post_facts as (Hlen & rank & Hpar). unfold post_dominates.
  destruct (dominates_spec n small_blocks (pt_tree t) ts Hlen rank Hpar (vt_numbers _ _ _ _ _ HVT) (index d) (index x) Hd Hx) as (b & Hb & Hiff).
  rewrite !word_of_index in Hb. exists b. split; [done|]. rewrite Hiff, (post_within x Hx). split.
  - intros [?%index_inj|[Hr Ha]]; [by left|right]. apply post_above; [|done..]. apply (post_within d Hd).
    apply (above_within n small_blocks (pt_tree t) ts Hlen rank Hpar (vt_numbers _ _ _ _ _ HVT) _ (index x)); [done|by apply post_within].
  - intros [->|Hp]; [by left|right]. split; [apply Hp|]. apply post_above; [by apply (post_dominator_reached d x)|apply Hp|done].
Qed.

Lemma contains_spec x : index x < n → ∃ b, contains t x = Ok b ∧ (b = true ↔ rtc R root x).
Proof using HV small Hroot HT.
  intros Hx. destruct post_facts as (Hlen & rank & Hpar). unfold contains.
  destruct (is_reachable_spec n small_blocks (pt_tree t) ts Hlen rank Hpar (vt_numbers _ _ _ _ _ HVT) (index x) Hx) as (b & Hb & Hiff).
  rewrite word_of_index in Hb. exists b. split; [done|]. by rewrite Hiff, (post_within x Hx).
Qed.

(** [d] is the immediate post-dominator of [x]. *)
Definition post_immediate (d x : Id) : Prop :=
  post_dominator d x ∧ d ≠ x ∧ ∀ e, post_dominator e x → e ≠ x → post_dominator e d.

(** The parent in the tree is the immediate post-dominator. *)
Lemma post_parent d x : rtc R root d → rtc R root x →
  parent_of n (dt_idom (pt_tree t)) (index d) (index x) ↔ post_immediate d x.
Proof using HV small Hroot HT.
  intros Hd Hx. destruct (block_index g s HV small root Hroot c es HA d Hd) as [Hdb Hdn], (block_index g s HV small root Hroot c es HA x Hx) as [Hxb Hxn].
  pose proof (Aug_Views g s HV small root Hroot c es HA) as HVX.
  assert (Hdx : rtc (edge_to (sh_next sx Outgoing)) exit d) by (apply (aug_reached g s HV small root Hroot c es HA); by left).
  assert (Hxx : rtc (edge_to (sh_next sx Outgoing)) exit x) by (apply (aug_reached g s HV small root Hroot c es HA); by left).
  rewrite (vt_table _ _ _ _ _ HVT), (table_parent_of sx n eq_refl small tbl HI).
  rewrite (table_parent aug sx HVX small exit exit_node tbl HI d x Hdx).
  unfold immediate, post_immediate.
  assert (Heq : ∀ e y, rtc R root y → e ≠ exit → dominator sx exit e y ↔ post_dominator e y).
  { intros e y Hy He. by apply (aug_dominator g s HV small root Hroot c es HA). }
  split.
  - intros (_ & _ & _ & _ & Hdom & Hne & Hmin). split_and!; [by apply Heq|done|]. intros e He Hex.
    assert (Her : rtc R root e) by by apply (post_dominator_reached e x).
    destruct (block_index g s HV small root Hroot c es HA e Her) as [_ Hen]. apply Heq; [done..|]. apply Hmin; [by apply Heq|done].
  - intros (Hdom & Hne & Hmin). split_and!; [done..|by apply Heq|done|]. intros e He Hex.
    destruct (decide (e = exit)) as [->|Hen]; [by apply dominator_root|]. apply Heq; [done..|]. apply Hmin; [by apply Heq|done].
Qed.

Lemma ipdom_spec x : index x < n → ∃ r, ipdom t x = Ok r ∧
  match r with
  | None => ¬ rtc R root x
  | Some Exit => rtc R root x ∧ ∀ e, post_dominator e x → e = x
  | Some (Node d) => post_immediate d x
  end.
Proof using HV small Hroot HT.
  intros Hx. destruct (contains_spec x Hx) as (b & Hb & Hiff). unfold ipdom. rewrite Hb. rsimpl.
  destruct b; [|exists None; split; [done|]; by rewrite <-Hiff].
  assert (Hr : rtc R root x) by by apply Hiff. destruct post_facts as (Hlen & rank & Hpar).
  destruct (idom_spec n small_blocks (pt_tree t) Hlen rank Hpar (index x) Hx) as (r & Hrun & Hd). rewrite word_of_index in Hrun.
  rewrite Hrun. rsimpl. eexists. split; [done|].
  assert (Hpr : ∀ d, index d < n → parent_of n (dt_idom (pt_tree t)) (index d) (index x) → rtc R root d).
  { intros d Hdb Hp. apply (post_within d Hdb).
    apply (above_within n small_blocks (pt_tree t) ts Hlen rank Hpar (vt_numbers _ _ _ _ _ HVT) _ (index x)); [by apply rtc_once|by apply post_within]. }
  destruct r as [d|]; cbn.
  - destruct (proj1 (Hd d) eq_refl) as [Hdb Hp]. by apply post_parent; [apply (Hpr d)|done|].
  - split; [done|]. intros e He. destruct (decide (e = x)) as [|Hne]; [done|].
    assert (Her : rtc R root e) by by apply (post_dominator_reached e x).
    apply (post_above e x Her Hr) in He as [Heq|(p & _ & Hpx)]%above_last; [by apply index_inj in Heq|].
    assert (Hpn : p < n) by apply Hpx. specialize (proj2 (Hd (N.of_nat p))) as Hno. rewrite index_of_nat in Hno.
    by specialize (Hno (conj Hpn Hpx)).
Qed.

(** The parent property the construction asserts. *)
Lemma post_property : post_satisfies_parent_property t g = Ok true.
Proof using HV small Hroot HT.
  unfold post_satisfies_parent_property. rewrite (rall_pure _ (λ _, true)).
  { f_equal. by apply forallb_elem. }
  intros tail Htail. unfold post_preorder, preorder in Htail. rewrite (nf_order _ _ _ (vt_numbers _ _ _ _ _ HVT)) in Htail.
  apply list_elem_of_fmap in Htail as (i & -> & Hi).
  assert (rtc R root (N.of_nat i) ∧ i < n) as [Hir Hin].
  { apply (vt_within _ _ _ _ _ HVT) in Hi as [Hin Hr]. split; [|done].
    apply (aug_reached g s HV small root Hroot c es HA) in Hr as [|Heq]; [done|lia]. }
  destruct (ipdom_spec (N.of_nat i)) as (r & -> & Hr); [by rewrite index_of_nat|]. rsimpl.
  destruct r as [[d|]|]; [|done|done].
  rewrite (next_read g s HV) by by apply (reached_in g s HV root Hroot). rsimpl.
  rewrite (rall_pure _ (λ _, true)); [f_equal; by apply forallb_elem|]. intros head Hhead.
  assert (Hhr : rtc R root head) by by eapply rtc_r. destruct Hr as (Hd & Hne & _).
  assert (Hdr : rtc R root d) by by apply (post_dominator_reached d (N.of_nat i)).
  assert (Hix : ∀ y, rtc R root y → index y < n) by (intros y; apply (reached_index g s HV root Hroot)).
  destruct (post_dominates_spec d head) as (b & -> & Hb); [by apply Hix..|]. f_equal. apply Hb. right.
  split; [done|]. intros p (Hh & Hc & Hl). destruct Hd as [_ Hd]. destruct p as [|a p]; [done|]. injection Hh as ->.
  assert (Hin' : d ∈ N.of_nat i :: head :: p) by (apply Hd; split_and!; [done|by split|done]).
  apply elem_of_cons in Hin' as [|]; done.
Qed.
End Tree.
End Post.
