(* ===== verification/PostTheorems.v ===== *)
(** * Post-dominance: the theorems

    [PostDominatorTree] of [graph/dominator/post.rs]: the tree answers
    post-dominance over the exits and the cuts, its climbs answer control
    dependence, and its frontiers are those of the reversed graph. *)

From S2P Require Import Prelude Ids View Store StoreInv StoreSpec StoreView History Samples Traverse Bfs Reach Scc Epoch Dominator DomSearch DomTheory DomIdom DomNumber DomTree DomCompute DomVirtual DominatorTheorems Frontier FrontierTheorems VirtualRoot PostDominator PostCut PostTree.

Section Climb.
Context {G : Type} {HG : GraphView G} (g : G) (s : shape) (HV : Views g s).
Context (small : (N.of_nat (S (sh_bound s)) ≤ U32_MAX)%N) (root : Id) (Hroot : root ∈ sh_nodes s).
Notation n := (sh_bound s).
Notation next := (sh_next s Outgoing).
Notation R := (edge_to (sh_next s Outgoing)).
Notation post_dominator := (post_dominator s root).
Notation post_immediate := (post_immediate s root).
Context (t : PostDominatorTree) (c : CutBuffers) (es : ExitStructure) (tbl : list N) (ts : list rtree).
Context (HT : post_tree s root t c es tbl ts).
Notation numbered := (vt_numbers _ _ _ _ _ (po_tree _ _ _ _ _ _ _ HT)).
Notation at_level x d := (dt_level (pt_tree t) !! index x = Some (N.of_nat d)).

Lemma post_antisym a b : post_dominator a b → post_dominator b a → a = b.
Proof using HV small Hroot HT.
  intros Hab Hba. destruct (post_facts g s HV small root Hroot t c es tbl ts HT) as (Hlen & rank & Hpar).
  pose proof (small_blocks s small) as Hs.
  assert (Ha : rtc R root a) by apply Hba. assert (Hb : rtc R root b) by apply Hab.
  assert (Hw : ∀ x, rtc R root x → within ts (index x)).
  { intros x Hx. apply (post_within g s HV small root Hroot t c es tbl ts HT); [|done]. by apply (reached_index g s HV root Hroot). }
  apply (post_above g s HV small root Hroot t c es tbl ts HT) in Hab, Hba; [|done..].
  destruct (level_bound n Hs (pt_tree t) ts Hlen rank Hpar numbered (index a) (Hw a Ha)) as (da & Hda & _).
  destruct (level_bound n Hs (pt_tree t) ts Hlen rank Hpar numbered (index b) (Hw b Hb)) as (db & Hdb & _).
  destruct (above_level n Hs (pt_tree t) ts Hlen rank Hpar numbered _ _ da db Hab (Hw b Hb) Hda Hdb) as [|H1]; [by apply index_inj|].
  destruct (above_level n Hs (pt_tree t) ts Hlen rank Hpar numbered _ _ db da Hba (Hw a Ha) Hdb Hda) as [|H2]; [by apply index_inj|lia].
Qed.

(** What the climb from [b] is to list. *)
Definition up_to (stop : PostNode) (b y : Id) : Prop :=
  post_dominator y b ∧ match stop with Node top => ¬ post_dominator y top | Exit => True end.

Lemma climb_to_spec stop : ∀ fuel b d,
  rtc R root b → at_level b d → d < fuel →
  match stop with Node top => post_dominator top b ∧ top ≠ b | Exit => True end →
  ∃ l, climb_to fuel t (Some stop) b = Ok l ∧ NoDup l ∧ ∀ y, y ∈ l ↔ up_to stop b y.
Proof using HV small Hroot HT.
  destruct (post_facts g s HV small root Hroot t c es tbl ts HT) as (Hlen & rank & Hpar).
  pose proof (small_blocks s small) as Hs.
  induction fuel as [|fuel IH]; intros b d Hb Hd Hf Hstop; [lia|]. cbn [climb_to].
  pose proof (reached_index g s HV root Hroot b Hb) as Hbb.
  destruct (ipdom_spec g s HV small root Hroot t c es tbl ts HT b Hbb) as (r & Hrun & Hr). rewrite Hrun. rsimpl.
  pose proof (post_self g s HV small root Hroot t c es tbl ts HT b Hb) as Hself.
  destruct r as [[p|]|]; [| |done].
  - pose proof Hr as (Hpb & Hne & Hmin).
    assert (Hp : rtc R root p) by by apply (post_dominator_reached g s HV small root Hroot t c es tbl ts HT p b).
    destruct (decide (Some stop = Some (Node p))) as [Heq|Hneq].
    + injection Heq as ->. exists [b]. split; [done|]. split; [apply NoDup_singleton|]. intros y. rewrite list_elem_of_singleton. unfold up_to. split.
      * intros ->. split; [done|]. intros Hbp. by apply Hne, post_antisym.
      * intros [Hy Hyp]. destruct (decide (y = b)) as [|Hyb]; [done|]. by destruct Hyp; apply Hmin.
    + assert (Hpar' : parent_of n (dt_idom (pt_tree t)) (index p) (index b)).
      { by apply (post_parent g s HV small root Hroot t c es tbl ts HT). }
      assert (Hbw : within ts (index b)) by by apply (post_within g s HV small root Hroot t c es tbl ts HT).
      destruct (level_parent n Hs (pt_tree t) ts Hlen rank Hpar numbered _ _ Hpar' Hbw) as (e & He & Hbe).
      rewrite Hd in Hbe. injection Hbe as Hbe. assert (d = S e) as -> by lia.
      destruct (IH p e Hp He) as (l & -> & Hnd & Hl); [lia| |].
      { destruct stop as [top|]; [|done]. destruct Hstop as [Htb Htn]. split; [by apply Hmin|]. intros ->. by apply Hneq. }
      rsimpl. exists (b :: l). split; [done|]. split.
      { constructor; [|done]. intros [Hbp _]%Hl. by apply Hne, post_antisym. }
      intros y. rewrite elem_of_cons, Hl. unfold up_to. split.
      * intros [->|[Hy Hns]].
        -- split; [done|]. destruct stop as [top|]; [|done]. destruct Hstop as [Htb Htn]. intros Hbt. by apply Htn, post_antisym.
        -- split; [|done]. by apply (post_trans g s HV small root Hroot t c es tbl ts HT y p b).
      * intros [Hy Hns]. destruct (decide (y = b)) as [|Hyb]; [by left|right]. split; [by apply Hmin|done].
  - destruct Hr as [_ Honly]. exists [b]. split; [done|]. split; [apply NoDup_singleton|]. intros y. rewrite list_elem_of_singleton. unfold up_to. split.
    + intros ->. split; [done|]. destruct stop as [top|]; [|done]. destruct Hstop as [Htb Htn]. by apply Honly in Htb.
    + intros [Hy _]. by apply Honly.
Qed.

Lemma control_dependents_spec from to :
  rtc R root from → to ∈ next from →
  ∃ l, control_dependents t from to = Ok l ∧ NoDup l ∧
    ∀ y, y ∈ l ↔ post_dominator y to ∧ ¬ (post_dominator y from ∧ y ≠ from).
Proof using HV small Hroot HT.
  intros Hf Hto. assert (Ht : rtc R root to) by by eapply rtc_r.
  destruct (post_facts g s HV small root Hroot t c es tbl ts HT) as (Hlen & rank & Hpar).
  pose proof (small_blocks s small) as Hs.
  pose proof (reached_index g s HV root Hroot from Hf) as Hfb. pose proof (reached_index g s HV root Hroot to Ht) as Htb.
  (* a strict post-dominator of the tail post-dominates the head *)
  assert (Hhead : ∀ d, post_dominator d from → d ≠ from → post_dominator d to).
  { intros d [_ Hd] Hne. split; [done|]. intros p (Hh & Hc & Hl). destruct p as [|a p]; [done|]. injection Hh as ->.
    assert (Hin : d ∈ from :: to :: p) by (apply Hd; split_and!; [done|by split|done]). by apply elem_of_cons in Hin as [|]. }
  unfold control_dependents. destruct (ipdom_spec g s HV small root Hroot t c es tbl ts HT from Hfb) as (r & -> & Hr). rsimpl.
  destruct (contains_spec g s HV small root Hroot t c es tbl ts HT to Htb) as (b & -> & Hb). rsimpl.
  destruct b; [|by apply Hb in Ht]. assert (Hw : within ts (index to)) by by apply (post_within g s HV small root Hroot t c es tbl ts HT).
  destruct (level_bound n Hs (pt_tree t) ts Hlen rank Hpar numbered (index to) Hw) as (d & Hd & Hdn).
  destruct r as [[top|]|]; [| |done].
  - destruct Hr as (Htop & Hne & Hmin). pose proof (Hhead top Htop Hne) as Htt.
    assert (Htopr : rtc R root top) by by apply (post_dominator_reached g s HV small root Hroot t c es tbl ts HT top from).
    unfold strictly_post_dominates, strictly_dominates.
    assert (Hiff : ∀ y, post_dominator y to → ¬ post_dominator y top ↔ ¬ (post_dominator y from ∧ y ≠ from)).
    { intros y Hy. split; intros Hno; [intros [Hyf Hyn]; by apply Hno, Hmin|]. intros Hyt. apply Hno. split.
      - by apply (post_trans g s HV small root Hroot t c es tbl ts HT y top from).
      - intros ->. by apply Hne, post_antisym. }
    destruct (decide (top ≠ to)) as [Htn|Htn].
    + destruct (post_dominates_spec g s HV small root Hroot t c es tbl ts HT top to) as (b & Hrun & Hb').
      { by apply (reached_index g s HV root Hroot). }
      { done. }
      unfold post_dominates in Hrun. rewrite Hrun. rsimpl. assert (b = true) as -> by (apply Hb'; by right).
      destruct (climb_to_spec (Node top) (S (length (dt_idom (pt_tree t)))) to d) as (l & Hl & Hnd & Hin); [done..|lia|done|].
      exists l. split; [done|]. split; [done|]. intros y. rewrite Hin. unfold up_to. split; intros [Hy Hno]; (split; [done|]); by apply Hiff.
    + rsimpl. assert (top = to) as -> by (destruct (decide (top = to)); [done|by destruct Htn]).
      exists []. split; [done|]. split; [constructor|]. intros y. split; [by intros ?%elem_of_nil|]. intros [Hy Hno]. by apply Hiff in Hno.
  - destruct Hr as [_ Honly].
    destruct (climb_to_spec Exit (S (length (dt_idom (pt_tree t)))) to d) as (l & Hl & Hnd & Hin); [done..|lia|done|].
    exists l. split; [done|]. split; [done|]. intros y. rewrite Hin. unfold up_to. split; intros [Hy Hno]; (split; [done|]); [|done].
    intros [Hyf Hyn]. by apply Hyn, Honly.
Qed.

(** The frontier over the reversed edges. *)
Definition post_frontier_of (x y : Id) : Prop :=
  rtc R root y ∧ (∃ p, post_dominator x p ∧ p ∈ next y) ∧ ¬ (post_dominator x y ∧ x ≠ y).

Lemma post_node p : within ts p → N.of_nat p ∈ sh_nodes s.
Proof using HV small Hroot HT.
  intros Hp. pose proof Hp as [Hpn _]%(vt_within _ _ _ _ _ (po_tree _ _ _ _ _ _ _ HT)).
  apply (reached_in g s HV root Hroot). apply (post_within g s HV small root Hroot t c es tbl ts HT); by rewrite index_of_nat.
Qed.

Lemma post_frontier_at x y :
  in_frontier (sh_reverse s) (pt_tree t) ts x y ↔ post_frontier_of (N.of_nat x) (N.of_nat y).
Proof using HV small Hroot HT.
  assert (Hw : ∀ p, p < n → within ts p ↔ rtc R root (N.of_nat p)).
  { intros p Hp. rewrite <-(index_of_nat p) at 1. apply (post_within g s HV small root Hroot t c es tbl ts HT). by rewrite index_of_nat. }
  assert (Hwn : ∀ p, within ts p → p < n ∧ rtc R root (N.of_nat p)).
  { intros p Hp. pose proof Hp as [Hpn _]%(vt_within _ _ _ _ _ (po_tree _ _ _ _ _ _ _ HT)). split; [done|by apply Hw]. }
  destruct (post_facts g s HV small root Hroot t c es tbl ts HT) as (Hlen & rank & Hpar).
  pose proof (small_blocks s small) as Hs.
  assert (Hab : ∀ a b, a < n → within ts b → above n (dt_idom (pt_tree t)) a b ↔ post_dominator (N.of_nat a) (N.of_nat b)).
  { intros a b Ha Hb. destruct (Hwn b Hb) as [_ Hbr]. split.
    - intros Hx. assert (Haw : within ts a) by by apply (above_within n Hs (pt_tree t) ts Hlen rank Hpar numbered a b).
      rewrite <-(index_of_nat a), <-(index_of_nat b) in Hx.
      by apply (post_above g s HV small root Hroot t c es tbl ts HT) in Hx; [|apply Hwn|].
    - intros Hx. rewrite <-(index_of_nat a), <-(index_of_nat b).
      apply (post_above g s HV small root Hroot t c es tbl ts HT); [|done..].
      by apply (post_dominator_reached g s HV small root Hroot t c es tbl ts HT _ (N.of_nat b)). }
  unfold in_frontier, post_frontier_of, flows. cbn [sh_bound sh_next sh_reverse against]. split.
  - intros (Hy & (p & Hxp & Hp & Hf) & Hns). destruct (Hwn y Hy) as [Hyn Hyr], (Hwn p Hp) as [Hpn Hpr].
    assert (Hx : within ts x) by by apply (above_within n Hs (pt_tree t) ts Hlen rank Hpar numbered x p).
    destruct (Hwn x Hx) as [Hxn _]. split_and!; [done| |].
    + exists (N.of_nat p). split; [by apply Hab|]. apply (prev_next g s HV); [by apply post_node..|done].
    + intros [Hd Hne]. apply Hns. split; [by apply Hab|]. by intros ->.
  - intros (Hyr & (p & Hxp & Hf) & Hns). assert (Hpr : rtc R root p) by apply Hxp.
    pose proof (reached_index g s HV root Hroot _ Hyr) as Hyn. rewrite index_of_nat in Hyn.
    pose proof (reached_index g s HV root Hroot p Hpr) as Hpn. apply Hw in Hyr as Hyw; [|done].
    assert (Hpw : within ts (index p)) by (apply Hw; [done|by rewrite word_of_index]).
    assert (Hxr : rtc R root (N.of_nat x)) by by apply (post_dominator_reached g s HV small root Hroot t c es tbl ts HT _ p).
    pose proof (reached_index g s HV root Hroot _ Hxr) as Hxn. rewrite index_of_nat in Hxn. split_and!; [done| |].
    + exists (index p). split_and!; [apply Hab; [done..|by rewrite word_of_index]|done|]. rewrite word_of_index.
      apply (prev_next g s HV); [by apply (reached_in g s HV root Hroot)..|done].
    + intros [Hd Hne]. apply Hns. split; [by apply Hab|]. intros ?. apply Hne. lia.
Qed.

Lemma post_up p y a : within ts p → flows (sh_reverse s) p y → parent_of n (dt_idom (pt_tree t)) a y → above n (dt_idom (pt_tree t)) a p.
Proof using HV small Hroot HT.
  intros Hp Hf Ha. pose proof (po_analyzed _ _ _ _ _ _ _ HT) as HA.
  apply (virtual_up (mk_Augmented g c es) (aug_shape s c es) (Aug_Views g s HV small root Hroot c es HA) n eq_refl small
    (exit_node g s HV small root Hroot t c es tbl ts HT) tbl (po_table _ _ _ _ _ _ _ HT) (pt_tree t) ts p y a); [apply HT|done| |done].
  assert (Hpr : rtc R root (N.of_nat p)).
  { pose proof Hp as [Hpn _]%(vt_within _ _ _ _ _ (po_tree _ _ _ _ _ _ _ HT)).
    apply (post_within g s HV small root Hroot t c es tbl ts HT); by rewrite index_of_nat. }
  assert (Hyr : rtc R root (N.of_nat y)).
  { rewrite (vt_table _ _ _ _ _ (po_tree _ _ _ _ _ _ _ HT)) in Ha.
    apply (table_parent_of (aug_shape s c es) n eq_refl small tbl (po_table _ _ _ _ _ _ _ HT)) in Ha as (_ & Hyn & Ha).
    rewrite <-(index_of_nat y) in Ha.
    apply (parent_reached (mk_Augmented g c es) (aug_shape s c es) (Aug_Views g s HV small root Hroot c es HA) small (N.of_nat n)
      (exit_node g s HV small root Hroot t c es tbl ts HT) tbl (po_table _ _ _ _ _ _ _ HT)) in Ha as (_ & _ & _ & Hy & _).
    apply (aug_reached g s HV small root Hroot c es HA) in Hy as [|]; [done|lia]. }
  apply (aug_edge g s HV small root Hroot c es HA); [done|]. split; [done|].
  apply (prev_next g s HV); [by apply (reached_in g s HV root Hroot)..|done].
Qed.
End Climb.

(** ** Computing the tree *)

Section Compute.
Context {G : Type} {HG : GraphView G} {HR : RootedView G} (g : G) (s : shape) (HV : Views g s).
Context (small : (N.of_nat (S (sh_bound s)) ≤ U32_MAX)%N) (Hroot : gv_root g ∈ sh_nodes s).
Notation n := (sh_bound s).
Notation root := (gv_root g).
Notation R := (edge_to (sh_next s Outgoing)).

Lemma count_live (c : CutBuffers) :
  length (cut_reachable c) = n → length (filter (λ b : bool, b = true) (cut_reachable c)) = length (live_nodes s c).
Proof using.
  clear. intros Hl. rewrite (count_true _ 0), Hl. unfold live_nodes, live. f_equal. apply filter_ext_in.
  intros i _. unfold gets. by rewrite index_of_nat, Nat.sub_0_r.
Qed.

Lemma post_compute_spec scratch :
  ∃ scratch' t c es tbl ts, post_compute_in scratch g = Ok (scratch', t) ∧ post_tree s root t c es tbl ts.
Proof using HV small Hroot.
  pose proof (small_blocks s small) as Hs. unfold post_compute_in. rewrite (vw_bound (g := g) (s := s)).
  rewrite (bool_decide_true (_ < ABSENT)%N) by (clear -small; unfold ABSENT; lia). rsimpl.
  rewrite bool_decide_true by by apply (nodes_bound g s HV). rsimpl.
  destruct (analyze_spec g s HV Hs root Hroot (ps_cut scratch)) as (c & es & -> & HA). rsimpl.
  pose proof (Aug_Views g s HV small root Hroot c es HA) as HVX.
  assert (Hex : N.of_nat n ∈ sh_nodes (aug_shape s c es)) by (apply (aug_node g s HV small root Hroot c es HA); by right).
  destruct (immediate_dominators_spec (mk_Augmented g c es) (aug_shape s c es) HVX small (N.of_nat n) Hex)
    as (b & tbl & Hrun & HI & Hnd & Hver). rewrite index_of_nat in Hrun. rewrite Hrun. rsimpl.
  rewrite (drop_exit_spec n tbl Hs) by by rewrite (it_length _ _ _ HI). rsimpl.
  assert (Hlive : ∀ x, x ∈ live_nodes s c ↔ x < n ∧ rtc (edge_to (sh_next (aug_shape s c es) Outgoing)) (N.of_nat n) (N.of_nat x)).
  { intros x. rewrite (elem_of_live g s HV small root Hroot c es HA), (aug_reached g s HV small root Hroot c es HA).
    split; [intros [? ?]; split; [done|by left]|]. intros [Hx [?|?]]; [done|lia]. }
  assert (Hlnd : NoDup (live_nodes s c)) by apply NoDup_filter, NoDup_seq.
  assert (Hcount : reached b - 1 = length (live_nodes s c)).
  { unfold reached. enough (length (cb_vertex b) = length (N.of_nat n :: (N.of_nat <$> live_nodes s c))) as ->.
    { cbn. rewrite length_fmap. lia. }
    apply Permutation_length, NoDup_Permutation; [done| |].
    - constructor; [|apply NoDup_fmap_2; [intros ???; lia|done]].
      intros (i & Heq & [Hi _]%Hlive)%list_elem_of_fmap. lia.
    - intros x. rewrite Hver, elem_of_cons, list_elem_of_fmap, (aug_reached g s HV small root Hroot c es HA). split.
      + intros [Hx| ->]; [right|by left]. exists (index x). rewrite word_of_index. split; [done|]. apply Hlive.
        rewrite word_of_index. split; [by apply (reached_index g s HV root Hroot)|]. apply (aug_reached g s HV small root Hroot c es HA). by left.
      + intros [->|(i & -> & [_ Hi]%Hlive)]; [by right|]. by apply (aug_reached g s HV small root Hroot c es HA) in Hi. }
  rewrite bool_decide_true by (rewrite Hcount; symmetry; apply count_live, (an_reachable _ _ _ _ HA)). rsimpl. rewrite Hcount.
  destruct (number_virtual (mk_Augmented g c es) (aug_shape s c es) HVX n eq_refl small Hex tbl HI (live_nodes s c) Hlnd Hlive)
    as (ts & cb & nb & Hnum & Hvt). rewrite Hnum. rsimpl.
  assert (HT : post_tree s root (mk_Post (from_numbered (table n tbl) nb) (es_reaches_exit es) (es_exits es) (es_cut_roots es)) c es tbl ts).
  { split; done. }
  rewrite (post_property g s HV small root Hroot _ c es tbl ts HT). rsimpl. eexists _, _, _, _, _, _. split; [done|exact HT].
Qed.

(** A rooted view whose blocks and virtual exit fit in [u32]. *)
Record post_rooted : Prop := {
  pr_views : Views g s;
  pr_small : (N.of_nat (S n) ≤ U32_MAX)%N;
  pr_root : root ∈ sh_nodes s;
}.
End Compute.

Section Theorems.
Context {G : Type} {HG : GraphView G} {HR : RootedView G} (g : G) (s : shape).
Notation n := (sh_bound s).
Notation root := (gv_root g).
Notation next := (sh_next s Outgoing).
Notation R := (edge_to (sh_next s Outgoing)).
Notation post_dominator := (post_dominator s root).
Notation post_immediate := (post_immediate s root).

Lemma computed_post t : post_rooted g s → post_compute g = Ok t → ∃ c es tbl ts, post_tree s root t c es tbl ts.
Proof.
  intros [HV Hs Hr] Hc. destruct (post_compute_spec g s HV Hs Hr post_scratch_new) as (sc & t' & c & es & tbl & ts & Hrun & HT).
  unfold post_compute in Hc. rewrite Hrun in Hc. injection Hc as <-. by exists c, es, tbl, ts.
Qed.

(** C13: the construction panics on a node bound that leaves no room for the
    virtual exit and on a root out of range. On a rooted view it never panics,
    whatever the scratch holds. Its exits are the reached blocks without
    successors, its cuts the blocks of exit-free regions that lead back to
    where the region is entered, and every reached block leads to one of them.
    [post_dominates] answers whether every path from a block to an exit or a
    cut passes through the other, and [ipdom] is the post-dominator that every
    other strict one post-dominates, or the virtual exit when there is none. *)
Theorem post_dominator_tree_is_post_dominance scratch :
  ((ABSENT ≤ N.of_nat (gv_node_bound g))%N →
    post_compute_in scratch g = Panic "node bound plus the virtual exit exceeds the dense u32 range of a post-dominator tree") ∧
  ((N.of_nat (gv_node_bound g) < ABSENT)%N → gv_node_bound g ≤ index root →
    post_compute_in scratch g = Panic "post-dominator root is not a node of the graph") ∧
  (post_rooted g s → ∃ scratch' t, post_compute_in scratch g = Ok (scratch', t) ∧
    (∀ x, x ∈ exits t ↔ is_exit s root x) ∧ (∀ x, x ∈ cut_roots t ↔ cut_root s root x) ∧
    (∀ x, rtc R root x → ∃ e, rtc R x e ∧ (e ∈ exits t ∨ e ∈ cut_roots t)) ∧
    ∀ x, index x < n →
      (∃ b, contains t x = Ok b ∧ (b = true ↔ rtc R root x)) ∧
      (∃ b, reaches_exit t x = Ok b ∧ (b = true ↔ escapes s root x)) ∧
      (∃ r, ipdom t x = Ok r ∧
        match r with
        | None => ¬ rtc R root x
        | Some Exit => rtc R root x ∧ ∀ e, post_dominator e x → e = x
        | Some (Node d) => post_immediate d x
        end) ∧
      ∀ d, index d < n → ∃ b, post_dominates t d x = Ok b ∧ (b = true ↔ d = x ∨ post_dominator d x)).
Proof.
  split_and!.
  - intros Hbig. unfold post_compute_in. by rewrite (bool_decide_false (_ < ABSENT)%N) by lia.
  - intros Hfit Hout. unfold post_compute_in. rewrite (bool_decide_true (_ < ABSENT)%N) by done. rsimpl.
    by rewrite bool_decide_false by lia.
  - intros [HV Hs Hr]. destruct (post_compute_spec g s HV Hs Hr scratch) as (sc & t & c & es & tbl & ts & Hrun & HT).
    pose proof (po_analyzed _ _ _ _ _ _ _ HT) as HA. exists sc, t. split; [done|].
    unfold exits, cut_roots, reaches_exit. rewrite (po_exits _ _ _ _ _ _ _ HT), (po_cuts _ _ _ _ _ _ _ HT), (po_reaches _ _ _ _ _ _ _ HT).
    split_and!; [apply HA|apply HA| |].
    { intros x Hx. destruct (an_leads _ _ _ _ HA x Hx) as (e & Hxe & He). exists e. split; [done|].
      by rewrite (an_exits _ _ _ _ HA), (an_cuts _ _ _ _ HA). }
    intros x Hx. split_and!.
    + by apply (contains_spec g s HV Hs root Hr t c es tbl ts HT).
    + destruct (an_reaches _ _ _ _ HA) as [Hl Hin]. exists (gets (es_reaches_exit es) x). split; [apply vget_gets; lia|apply Hin].
    + by apply (ipdom_spec g s HV Hs root Hr t c es tbl ts HT).
    + intros d Hd. by apply (post_dominates_spec g s HV Hs root Hr t c es tbl ts HT).
Qed.

(** On a computed tree, for an edge of the graph from a reached block,
    [control_dependents] lists once each exactly the blocks the edge controls:
    those that post-dominate its head and do not strictly post-dominate its
    tail. *)
Theorem control_dependents_are_exact t from to :
  post_rooted g s → post_compute g = Ok t → rtc R root from → to ∈ next from →
  ∃ l, control_dependents t from to = Ok l ∧ NoDup l ∧
    ∀ y, y ∈ l ↔ post_dominator y to ∧ ¬ (post_dominator y from ∧ y ≠ from).
Proof.
  intros Hpr Hc Hf Hto. pose proof Hpr as [HV Hs Hr]. destruct (computed_post t Hpr Hc) as (c & es & tbl & ts & HT).
  by apply (control_dependents_spec g s HV Hs root Hr t c es tbl ts HT).
Qed.

(** On a computed tree [frontier] lists the blocks with a successor the
    block post-dominates that it does not strictly post-dominate, which are the
    blocks it is control dependent on, and [iterated_frontier] the least set
    that holds the accepted frontiers of the given blocks and of its members. *)
Theorem post_frontiers_are_exact t :
  post_rooted g s → post_compute g = Ok t →
  (∀ x, index x < n → ∃ l, post_frontier t g x = Ok l ∧ ∀ y, y ∈ l ↔ post_frontier_of s root x y) ∧
  ∀ scratch blocks accepts, scratch_ok scratch → (∀ b, b ∈ blocks → index b < n) →
    ∃ scratch' l, post_iterated_frontier t g scratch blocks accepts = Ok (scratch', l) ∧ scratch_ok scratch' ∧
      ∀ y, y ∈ l ↔ frontier_closure (post_frontier_of s root) blocks (live_accepts accepts) y.
Proof.
  intros Hpr Hc. pose proof Hpr as [HV Hs Hr]. destruct (computed_post t Hpr Hc) as (c & es & tbl & ts & HT).
  destruct (post_facts g s HV Hs root Hr t c es tbl ts HT) as (Hlen & rank & Hpar).
  pose proof (vt_numbers _ _ _ _ _ (po_tree _ _ _ _ _ _ _ HT)) as HN. pose proof (small_blocks s Hs) as Hsm.
  pose proof (Reversed_Views g s HV) as HVr.
  assert (Hat : ∀ a b, in_frontier (sh_reverse s) (pt_tree t) ts a b ↔ post_frontier_of s root (N.of_nat a) (N.of_nat b)).
  { intros a b. by apply (post_frontier_at g s HV Hs root Hr t c es tbl ts HT). }
  assert (Hnode : ∀ p, within ts p → N.of_nat p ∈ sh_nodes (sh_reverse s)) by (intros p; apply (post_node g s HV Hs root Hr t c es tbl ts HT)).
  split.
  - intros x Hx. destruct (frontier_spec (mk_Reversed g) (sh_reverse s) HVr Hsm (pt_tree t) ts Hlen rank Hpar HN Hnode (index x) Hx)
      as (l & Hrun & _ & Hin). rewrite word_of_index in Hrun. exists l. split; [done|]. intros y. by rewrite Hin, Hat, !word_of_index.
  - intros scratch blocks accepts Hok Hb.
    destruct (iterated_frontier_spec (mk_Reversed g) (sh_reverse s) HVr Hsm (pt_tree t) ts Hlen rank Hpar HN Hnode) with blocks accepts scratch
      as (f & l & Hrun & Hf & _ & Hin); [|done..|].
    { intros p y a. by apply (post_up g s HV Hs root Hr t c es tbl ts HT). }
    exists f, l. split_and!; [done..|]. intros y.
    rewrite Hin, (iterated_closure (sh_reverse s) (pt_tree t) ts blocks accepts (post_frontier_of s root)) by done. by rewrite word_of_index.
Qed.
End Theorems.

(** ** Witnesses *)

Lemma successors_next {G} `{GraphView G} (g : G) s (HV : Views g s) x l :
  x ∈ sh_nodes s → gv_successors g x = Ok l → l = sh_next s Outgoing x.
Proof. intros Hx Hl. rewrite (next_read g s HV x Hx) in Hl. by injection Hl. Qed.

Lemma sample_post_rooted : ∃ s, post_rooted sample_rooted_at s ∧ sh_bound s = 4.
Proof.
  destruct sample_nodes as (s & HV & Hns & Hb & _). exists s. split; [|done].
  split; [by apply Rooted_Views|rewrite Hb; vm_compute; discriminate|rewrite Hns; right; right; left].
Qed.

Definition sample_post : PostDominatorTree :=
  match post_compute sample_rooted_at with Ok t => t | _ => mk_Post (mk_Tree [] [] [] [] []) [] [] [] end.

Lemma sample_post_computed : post_compute sample_rooted_at = Ok sample_post.
Proof. vm_compute. reflexivity. Qed.

Lemma post_dominator_tree_is_post_dominance_witness :
  ∃ s, post_rooted sample_rooted_at s ∧ ∃ sc t, post_compute_in post_scratch_new sample_rooted_at = Ok (sc, t) ∧
    is_exit s 3%N 0%N ∧ ipdom t 3%N = Ok (Some (Node 2%N)) ∧ PostTree.post_immediate s 3%N 2%N 3%N.
Proof.
  destruct sample_post_rooted as (s & Hpr & Hb). exists s. split; [exact Hpr|].
  destruct (post_dominator_tree_is_post_dominance sample_rooted_at s post_scratch_new) as (_ & _ & H).
  destruct (H Hpr) as (sc & t & Hrun & Hex & _ & _ & Hx). exists sc, t. split; [exact Hrun|].
  assert (Ht : ∀ p, post_compute sample_rooted_at = Ok p → t = p).
  { intros p Hc. unfold post_compute in Hc. rewrite Hrun in Hc. by injection Hc. }
  specialize (Ht _ sample_post_computed).
  destruct (Hx 3%N) as (_ & _ & (r & Hr & Hspec) & _); [rewrite Hb; vm_compute; lia|]. rewrite Ht in *.
  assert (Hv : ipdom sample_post 3%N = Ok (Some (Node 2%N))) by (vm_compute; reflexivity).
  split.
  - apply Hex. assert (He : exits sample_post = [0%N]) by (vm_compute; reflexivity). rewrite He. left.
  - rewrite Hv in Hr. injection Hr as <-. split; [exact Hv|exact Hspec].
Defined.

Lemma control_dependents_are_exact_witness :
  ∃ s, post_rooted sample_rooted_at s ∧ 3%N ∈ sh_next s Outgoing 2%N ∧
    control_dependents sample_post 2%N 3%N = Ok [3; 2]%N ∧
    ∀ y, y ∈ [3; 2]%N ↔ PostTree.post_dominator s 3%N y 3%N ∧ ¬ (PostTree.post_dominator s 3%N y 2%N ∧ y ≠ 2%N).
Proof.
  destruct sample_post_rooted as (s & Hpr & Hb). exists s. split; [exact Hpr|]. pose proof Hpr as [HV _ Hr].
  pose proof (successors_next sample_rooted_at s HV) as Hnext.
  assert (H3 : [3; 2]%N = sh_next s Outgoing 3%N) by (apply Hnext; [exact Hr|vm_compute; reflexivity]).
  assert (H2n : 2%N ∈ sh_nodes s).
  { apply (nodes_next sample_rooted_at s HV Outgoing 3%N); [exact Hr|]. rewrite <-H3. right; left. }
  assert (H2 : [3; 0]%N = sh_next s Outgoing 2%N) by (apply Hnext; [exact H2n|vm_compute; reflexivity]).
  assert (Hto : 3%N ∈ sh_next s Outgoing 2%N) by (rewrite <-H2; left). split; [exact Hto|].
  destruct (control_dependents_are_exact sample_rooted_at s sample_post 2%N 3%N Hpr sample_post_computed) as (l & Hl & _ & Hin).
  - apply rtc_once. change (2%N ∈ sh_next s Outgoing 3%N). rewrite <-H3. right; left.
  - exact Hto.
  - assert (Hv : control_dependents sample_post 2%N 3%N = Ok [3; 2]%N) by (vm_compute; reflexivity).
    rewrite Hv in Hl. injection Hl as <-. split; [exact Hv|exact Hin].
Defined.

Lemma post_frontiers_are_exact_witness :
  ∃ s, post_rooted sample_rooted_at s ∧ post_frontier sample_post sample_rooted_at 2%N = Ok [2%N] ∧
    ∀ y, y ∈ [2%N] ↔ post_frontier_of s 3%N 2%N y.
Proof.
  destruct sample_post_rooted as (s & Hpr & Hb). exists s. split; [exact Hpr|].
  destruct (post_frontiers_are_exact sample_rooted_at s sample_post Hpr sample_post_computed) as [H _].
  destruct (H 2%N) as (l & Hl & Hin); [rewrite Hb; vm_compute; lia|].
  assert (Hv : post_frontier sample_post sample_rooted_at 2%N = Ok [2%N]) by (vm_compute; reflexivity).
  rewrite Hv in Hl. injection Hl as <-. split; [exact Hv|exact Hin].
Defined.

(** A loop nothing leaves is cut at the blocks that lead to its entry. *)
Definition looping_store : Graph N N :=
  match run tagged [Mutate (AddNode 0%N); Mutate (AddNode 0%N); Mutate (AddNode 0%N);
    Mutate (AddEdge 0%N 1%N 0%N); Mutate (AddEdge 1%N 2%N 0%N); Mutate (AddEdge 2%N 1%N 0%N)]
  with Ok (g, _) => g | _ => tagged end.
Lemma looping_cut :
  (λ t, (exits t, cut_roots t, ipdom t 0%N)) <$> post_compute (mk_Rooted looping_store 0%N) =
    Ok ([], [2%N], Ok (Some (Node 1%N))).
Proof. vm_compute. reflexivity. Qed.
