(* ===== verification/Cdg.v ===== *)
(** * Control dependence graphs

    Models [graph/cdg.rs]: a store with one node per node slot of the source
    and one edge per control dependence, read off a post-dominator tree. Its
    edges are exactly the control dependences, once each, in ascending order. *)

From S2P Require Import Prelude Ids View Store StoreInv StoreSpec StoreView History Samples Traverse Scc SccTheorems SccCondense Epoch Dominator DominatorTheorems PostDominator PostCut PostTree PostTheorems.

(** ** Building the graph *)

Section Cdg.
Context {G : Type} {HG : GraphView G}.

(** One step of the iterator that allocates the nodes. *)
Definition allocate_node (acc : Graph Id unit * list Id) (i : nat) : res (Graph Id unit * list Id) :=
  let '(graph, nodes) := acc in
  node ← from_index i;
  '(graph, id) ← add_node graph node;
  mret (graph, nodes ++ [id]).

Definition gather_dependent (acc : EpochMarks.t * list Id) (dependent : Id) : res (EpochMarks.t * list Id) :=
  let '(seen, dependents) := acc in
  marked ← EpochMarks.is_marked seen (index dependent);
  if marked : bool then mret (seen, dependents)
  else seen ← EpochMarks.mark seen (index dependent); mret (seen, dependents ++ [dependent]).

Definition gather_arm (post : PostDominatorTree) (controller : Id) (acc : EpochMarks.t * list Id) (target : Id)
    : res (EpochMarks.t * list Id) :=
  controlled ← control_dependents post controller target;
  rfold gather_dependent acc controlled.

Definition emit_edge (nodes : list Id) (controller : Id) (graph : Graph Id unit) (dependent : Id) : res (Graph Id unit) :=
  from ← vget nodes (index controller);
  to ← vget nodes (index dependent);
  '(graph, _) ← add_edge graph from to ();
  mret graph.

Definition emit_controller (source : G) (post : PostDominatorTree) (nodes : list Id)
    (acc : Graph Id unit * EpochMarks.t) (controller : Id) : res (Graph Id unit * EpochMarks.t) :=
  let '(graph, seen) := acc in
  live ← contains post controller;
  if negb live then mret (graph, seen) else
  targets ← gv_successors source controller;
  '(seen, dependents) ← rfold (gather_arm post controller) (EpochMarks.reset seen, []) targets;
  graph ← rfold (emit_edge nodes controller) graph (merge_sort N.le dependents);
  mret (graph, seen).

Definition control_dependence_graph (source : G) (post : PostDominatorTree) : res (Graph Id unit) :=
  let bound := gv_node_bound source in
  '(graph, nodes) ← rfold allocate_node (tagged, []) (seq 0 bound);
  controllers ← gv_node_ids source;
  '(graph, _) ← rfold (emit_controller source post nodes) (graph, EpochMarks.new bound) (merge_sort N.le controllers);
  mret graph.
End Cdg.

(** ** Gathering the dependents of one controller *)

(** The edges of the graph, by controller and then by dependent. *)
Definition pair_lt (p q : nat * nat) : Prop := fst p < fst q ∨ fst p = fst q ∧ snd p < snd q.

Lemma pair_ascending_nodup (es : list (nat * nat)) : StronglySorted pair_lt es → NoDup es.
Proof.
  induction 1 as [|p es _ IH Hp]; constructor; [|done]. intros Hin. eapply Forall_forall in Hp; [|done]. unfold pair_lt in Hp. lia.
Qed.

Lemma pairs_fit (es : list (nat * nat)) n :
  NoDup es → (∀ i j, (i, j) ∈ es → i < n ∧ j < n) → length es ≤ n * n.
Proof.
  intros Hnd Hin. assert (Hsub : es ⊆+ (seq 0 n ≫= λ i, (λ j, (i, j)) <$> seq 0 n)).
  { apply NoDup_submseteq; [done|]. intros [i j] [Hi Hj]%Hin. apply list_elem_of_bind. exists i.
    split; [|apply elem_of_seq; lia]. apply list_elem_of_fmap. exists j. split; [done|apply elem_of_seq; lia]. }
  apply submseteq_length in Hsub. etrans; [exact Hsub|]. clear.
  cut (∀ (l : list nat) m k, length (seq k m ≫= λ i, (λ j, (i, j)) <$> l) = m * length l).
  { intros H. by rewrite H, length_seq. }
  intros l. induction m as [|m IH]; intros k; cbn; [done|]. by rewrite length_app, length_fmap, IH.
Qed.

Lemma merge_sort_ascending (l : list N) : NoDup l → StronglySorted N.lt (merge_sort N.le l).
Proof.
  intros Hnd. assert (Hs : StronglySorted N.le (merge_sort N.le l)) by apply (StronglySorted_merge_sort N.le).
  rewrite <-(merge_sort_Permutation N.le) in Hnd. induction Hs as [|x l' _ IH Hx]; [constructor|].
  apply NoDup_cons in Hnd as [Hxl Hnd]. constructor; [by apply IH|]. apply Forall_forall. intros y Hy.
  rewrite Forall_forall in Hx. specialize (Hx y Hy). assert (x ≠ y) by by intros ->. lia.
Qed.

Lemma ascending_before (l don : list N) x y : StronglySorted N.lt l → don ++ [x] `prefix_of` l → y ∈ don → (y < x)%N.
Proof.
  intros Hs [k ->] Hy. rewrite <-app_assoc in Hs. apply StronglySorted_app in Hs as (Hlt & _). apply Hlt; [done|left].
Qed.

(** The marks and the list of a gathering hold the same blocks. *)
Record gathered (bound : nat) (acc : EpochMarks.t * list Id) (P : Id → Prop) : Prop := {
  ga_marks : marks_denote (fst acc) bound (list_to_set (index <$> snd acc));
  ga_nodup : NoDup (snd acc);
  ga_elem : ∀ x, x ∈ snd acc ↔ P x;
}.

Lemma gathered_iff bound acc P Q : (∀ x, P x ↔ Q x) → gathered bound acc P → gathered bound acc Q.
Proof. intros HPQ [Hm Hnd Hin]. split; [done..|]. intros x. specialize (HPQ x). specialize (Hin x). tauto. Qed.

Lemma gather_one bound acc P x :
  gathered bound acc P → index x < bound →
  ∃ acc', gather_dependent acc x = Ok acc' ∧ gathered bound acc' (λ y, P y ∨ y = x).
Proof.
  destruct acc as [seen ds]. intros [Hm Hnd Hin] Hx. cbn in *.
  rewrite (is_marked_spec _ _ _ Hm) by done. rsimpl. case_bool_decide as Hs.
  - eexists. split; [done|]. split; cbn; [done..|]. intros y. rewrite Hin.
    assert (P x); [|naive_solver]. apply Hin. apply elem_of_list_to_set, list_elem_of_fmap in Hs as (z & Hz & Hzin).
    by apply index_inj in Hz as ->.
  - destruct (mark_spec _ _ _ Hm (index x) Hx) as (m' & -> & Hm'). rsimpl. eexists. split; [done|].
    assert (Hxd : x ∉ ds) by (intros Hxd; apply Hs, elem_of_list_to_set, list_elem_of_fmap; by exists x).
    split; cbn.
    + assert (list_to_set (index <$> ds ++ [x]) = ({[index x]} ∪ list_to_set (index <$> ds) : gset nat)) as ->; [|done].
      rewrite fmap_app, list_to_set_app_L. cbn. set_solver.
    + apply NoDup_app. split_and!; [done| |apply NoDup_singleton]. intros y Hy ->%list_elem_of_singleton. done.
    + intros y. by rewrite elem_of_app, Hin, list_elem_of_singleton.
Qed.

Lemma gather_all bound acc P l :
  gathered bound acc P → (∀ x, x ∈ l → index x < bound) →
  ∃ acc', rfold gather_dependent acc l = Ok acc' ∧ gathered bound acc' (λ y, P y ∨ y ∈ l).
Proof.
  revert acc P. induction l as [|x l IH]; intros acc P Hga Hl; cbn [rfold].
  { exists acc. split; [done|]. eapply gathered_iff; [|done]. intros y. rewrite elem_of_nil. naive_solver. }
  destruct (gather_one bound acc P x Hga) as (acc1 & -> & H1); [apply Hl; left|]. rsimpl.
  destruct (IH acc1 _ H1) as (acc2 & -> & H2); [intros y Hy; apply Hl; by right|].
  exists acc2. split; [done|]. eapply gathered_iff; [|done]. intros y. rewrite elem_of_cons. naive_solver.
Qed.

(** ** The control dependences of a graph *)

(** [a] controls [b]: one of its arms leads to a block that [b] post-dominates
    while [b] does not strictly post-dominate [a]. *)
Definition controls (s : shape) (root a b : Id) : Prop :=
  rtc (edge_to (sh_next s Outgoing)) root a ∧
  ∃ target, target ∈ sh_next s Outgoing a ∧ post_dominator s root b target ∧ ¬ (post_dominator s root b a ∧ b ≠ a).

Section Proofs.
Context {G : Type} {HG : GraphView G} {HR : RootedView G} (g : G) (s : shape) (Hpr : post_rooted g s).
Context (t : PostDominatorTree) (Ht : post_compute g = Ok t).
Notation n := (sh_bound s).
Notation root := (gv_root g).
Notation next := (sh_next s Outgoing).
Notation R := (edge_to (sh_next s Outgoing)).
Notation governs := (controls s (gv_root g)).
Notation slots := (N.of_nat <$> seq 0 n).

Lemma post_dominator_bound b x : post_dominator s root b x → rtc R root x → index b < n.
Proof using Hpr Ht.
  intros Hb Hx. destruct (computed_post g s t Hpr Ht) as (c & es & tbl & ts & HT). pose proof Hpr as [HV Hs Hr].
  apply (reached_index g s HV root Hr). by apply (post_dominator_reached g s HV Hs root Hr t c es tbl ts HT b x).
Qed.

Lemma controls_bound a b : governs a b → index a < n ∧ index b < n.
Proof using Hpr Ht.
  intros (Ha & x & Hx & Hb & _). pose proof Hpr as [HV Hs Hr]. split; [by apply (reached_index g s HV root Hr)|].
  apply (post_dominator_bound b x Hb). by eapply rtc_r.
Qed.

Lemma gather_arms a acc P l :
  rtc R root a → l ⊆ next a → gathered n acc P →
  ∃ acc', rfold (gather_arm t a) acc l = Ok acc' ∧
    gathered n acc' (λ b, P b ∨ ∃ x, x ∈ l ∧ post_dominator s root b x ∧ ¬ (post_dominator s root b a ∧ b ≠ a)).
Proof using Hpr Ht.
  intros Ha. revert acc P. induction l as [|x l IH]; intros acc P Hl Hga; cbn [rfold].
  { exists acc. split; [done|]. eapply gathered_iff; [|done]. set_solver. }
  destruct (control_dependents_are_exact g s t a x Hpr Ht Ha) as (ds & Hds & _ & Hin); [set_solver|].
  assert (gather_arm t a acc x = rfold gather_dependent acc ds) as -> by (unfold gather_arm; by rewrite Hds).
  destruct (gather_all n acc P ds Hga) as (acc1 & -> & H1).
  { intros b [Hb _]%Hin. apply (post_dominator_bound b x Hb). eapply rtc_r; [done|]. apply Hl. left. }
  rsimpl. destruct (IH acc1 _ ltac:(set_solver) H1) as (acc2 & -> & H2). exists acc2. split; [done|].
  eapply gathered_iff; [|done]. intros b. cbn. rewrite Hin. setoid_rewrite elem_of_cons. naive_solver.
Qed.

Lemma emit_edges a ds : ∀ (h : Graph Id unit) (ps : list Id) es,
  built h ps es → n = length ps → index a < n → (∀ b, b ∈ ds → index b < n) →
  (N.of_nat (length es + length ds) ≤ MAX_SLOTS)%N →
  ∃ h', rfold (emit_edge slots a) h ds = Ok h' ∧
    built h' ps (es ++ ((λ b, (index a, index b)) <$> ds)).
Proof using.
  clear. induction ds as [|b ds IH]; intros h ps es Hb Hn Ha Hds Hmax; cbn [rfold].
  { exists h. by rewrite app_nil_r. }
  pose proof (Hds b ltac:(left)) as Hbn. cbn in Hmax.
  destruct (built_edge h ps es (index a) (index b) Hb) as (h1 & e & Hadd & H1); [lia..|].
  assert (emit_edge slots a h b = Ok h1) as ->.
  { unfold emit_edge. rewrite !vget_ids by done. rsimpl. by rewrite Hadd. }
  rsimpl.
  destruct (IH h1 ps (es ++ [(index a, index b)]) H1) as (h2 & -> & H2); [done|done|intros; apply Hds; by right| |].
  { rewrite length_app. cbn. lia. }
  exists h2. split; [done|]. by rewrite <-app_assoc in H2.
Qed.

(** The edges for the controllers [done], the marks clean up to an epoch. *)
Definition emitted (done : list Id) (acc : Graph Id unit * EpochMarks.t) : Prop :=
  ∃ es, built (fst acc) slots es ∧ StronglySorted pair_lt es ∧
    (∀ i j, (i, j) ∈ es ↔ N.of_nat i ∈ done ∧ governs (N.of_nat i) (N.of_nat j)) ∧
    ∃ X, marks_denote (snd acc) n X.

Lemma emit_spec done a acc :
  (N.of_nat (n * n) ≤ MAX_SLOTS)%N → emitted done acc → a ∈ sh_nodes s → (∀ x, x ∈ done → (x < a)%N) →
  ∃ acc', emit_controller g t slots acc a = Ok acc' ∧ emitted (done ++ [a]) acc'.
Proof using Hpr Ht.
  intros Hmax (es & Hb & Hsort & Hin & X & Hm) Ha Hlt. destruct acc as [h seen]. cbn in Hb, Hm.
  pose proof Hpr as [HV Hs Hr]. pose proof (nodes_bound g s HV a Ha) as Hab.
  destruct (computed_post g s t Hpr Ht) as (c & es' & tbl & ts & HT). unfold emit_controller.
  destruct (contains_spec g s HV Hs root Hr t c es' tbl ts HT a Hab) as (b & -> & Hlive). rsimpl.
  destruct b; cbn [negb].
  2:{ exists (h, seen). split; [done|]. exists es. split_and!; [done..| |by exists X].
    intros i j. rewrite Hin, elem_of_app, list_elem_of_singleton. split; [naive_solver|].
    intros [[Hi| ->] Hc]; [done|]. destruct Hc as [Hra _]. by apply Hlive in Hra. }
  assert (Hra : rtc R root a) by by apply Hlive. rewrite (next_read g s HV a Ha). rsimpl.
  destruct (gather_arms a (EpochMarks.reset seen, []) (λ _, False) (next a) Hra) as ([seen' ds] & -> & [Hm' Hnd Hds]); [done| |].
  { split; cbn; [by apply (marks_reset _ _ _ Hm)|constructor|]. intros x. by rewrite elem_of_nil. }
  cbn in Hm', Hnd, Hds. rsimpl.
  assert (Hdc : ∀ b, b ∈ merge_sort N.le ds ↔ governs a b).
  { intros b. rewrite merge_sort_Permutation, Hds. unfold controls. naive_solver. }
  assert (Hord : StronglySorted pair_lt (es ++ ((λ b, (index a, index b)) <$> merge_sort N.le ds))).
  { apply StronglySorted_app. split_and!; [|done|].
    - intros [i j] q [Hi _]%Hin (b & -> & _)%list_elem_of_fmap. left. cbn. apply Hlt in Hi. unfold index. lia.
    - pose proof (merge_sort_ascending ds Hnd) as Hsd. clear -Hsd. induction Hsd as [|b l _ IH Hb]; [constructor|]. cbn.
      constructor; [done|]. apply Forall_fmap, Forall_forall. intros d Hd. right. split; [done|]. cbn.
      rewrite Forall_forall in Hb. specialize (Hb d Hd). unfold index. lia. }
  assert (Hin' : ∀ i j, (i, j) ∈ es ++ ((λ b, (index a, index b)) <$> merge_sort N.le ds) ↔
            N.of_nat i ∈ done ++ [a] ∧ governs (N.of_nat i) (N.of_nat j)).
  { intros i j. rewrite !elem_of_app, Hin, list_elem_of_fmap, list_elem_of_singleton. split.
    - intros [[]|(b & [= -> ->] & Hb'%Hdc)]; [naive_solver|]. rewrite !word_of_index. naive_solver.
    - intros [[Hi|Hi] Hc]; [by left|right]. exists (N.of_nat j). rewrite index_of_nat, Hdc, <-Hi, index_of_nat. done. }
  destruct (emit_edges a (merge_sort N.le ds) h slots es Hb) as (h' & -> & Hb').
  - by rewrite length_fmap, length_seq.
  - done.
  - intros b Hb'%Hdc. by apply controls_bound in Hb' as [_ ?].
  - pose proof (pairs_fit _ n (pair_ascending_nodup _ Hord)) as Hfit. rewrite length_app, length_fmap in Hfit.
    enough (length es + length (merge_sort N.le ds) ≤ n * n) by lia. apply Hfit.
    intros i j [_ Hc%controls_bound]%Hin'. by rewrite !index_of_nat in Hc.
  - rsimpl. eexists. split; [done|]. eexists. split_and!; [exact Hb'|exact Hord|exact Hin'|]. by eexists.
Qed.
End Proofs.

Lemma allocate_nodes k :
  (N.of_nat k ≤ MAX_SLOTS)%N →
  ∃ h, rfold allocate_node (tagged, []) (seq 0 k) = Ok (h, N.of_nat <$> seq 0 k) ∧ built h (N.of_nat <$> seq 0 k) [].
Proof.
  induction k as [|k IH]; intros Hk; [exists tagged; split; [done|apply built_empty]|].
  destruct IH as (h & Hrun & Hb); [lia|]. rewrite seq_S, rfold_app, Hrun. cbn. unfold MAX_SLOTS, NONE in *.
  rewrite from_index_eq by lia. rsimpl.
  destruct (built_node h _ [] (N.of_nat k) Hb) as (h' & Hadd & Hb').
  { rewrite length_fmap, length_seq. unfold MAX_SLOTS, NONE. lia. }
  rewrite Hadd, length_fmap, length_seq. rsimpl. exists h'. by rewrite fmap_app.
Qed.

(** ** The theorem *)

(** C26: on a computed post-dominator tree, and when every pair of nodes could
    have an edge identity, the control dependence graph has one node per node
    slot with that slot's identity as its payload, and an edge from one node to
    another exactly when the one controls the other, once each; the edge
    identities ascend by controller and then by dependent. *)
Theorem cdg_is_control_dependence {G : Type} `{HG : GraphView G} `{HR : !RootedView G} (g : G) s t :
  post_rooted g s → post_compute g = Ok t → (N.of_nat (sh_bound s * sh_bound s) ≤ MAX_SLOTS)%N →
  ∃ h es, control_dependence_graph g t = Ok h ∧
    node_ids h = Ok (N.of_nat <$> seq 0 (sh_bound s)) ∧
    all_edges h = edge_record <$> es ∧ StronglySorted pair_lt es ∧
    ∀ a, index a < sh_bound s → Store.node h a = Ok a ∧
      ∃ l, successors h a = Ok l ∧ NoDup l ∧ ∀ b, b ∈ l ↔ controls s (gv_root g) a b.
Proof.
  intros Hpr Ht Hmax. pose proof Hpr as [HV Hs Hr]. set (n := sh_bound s) in *.
  unfold control_dependence_graph. rewrite (vw_bound (g := g) (s := s)). fold n.
  destruct (allocate_nodes n) as (h & -> & Hb0); [unfold MAX_SLOTS, NONE; lia|].
  rsimpl. rewrite (vw_nodes (g := g) (s := s)). rsimpl.
  destruct (rfold_inv (emitted g s) (emit_controller g t (N.of_nat <$> seq 0 n)) (h, EpochMarks.new n) (merge_sort N.le (sh_nodes s)))
    as ([h' seen] & -> & es & Hb & Hsort & Hin & _).
  { exists []. split_and!; [done|constructor| |].
    - intros i j. rewrite !elem_of_nil. naive_solver.
    - exists ∅. apply marks_new. }
  { intros don a acc Hpre Hem. apply (emit_spec g s Hpr t Ht don a acc Hmax Hem).
    - rewrite <-(merge_sort_Permutation N.le). eapply elem_of_prefix; [|done]. set_solver.
    - intros x. by eapply ascending_before, Hpre; apply merge_sort_ascending, (nodes_nodup g s HV). }
  cbn in Hb, Hin. rsimpl. destruct (built_nodes h' _ es Hb) as [Hids Hnode]. rewrite length_fmap, length_seq in Hids.
  assert (Hin' : ∀ i j, (i, j) ∈ es ↔ controls s (gv_root g) (N.of_nat i) (N.of_nat j)).
  { intros i j. rewrite Hin, merge_sort_Permutation. split; [naive_solver|]. intros Hc. split; [|done].
    apply (reached_in g s HV (gv_root g) Hr), Hc. }
  pose proof Hb as (_ & _ & _ & Hes & _). exists h', es. split_and!; [done..|]. intros a Ha. split.
  { pose proof (Hnode (index a) a) as Hn. rewrite word_of_index in Hn. apply Hn.
    rewrite list_lookup_fmap, lookup_seq_lt by done. cbn. by rewrite word_of_index. }
  destruct (built_successors h' _ es (index a) Hb) as (l & Hl & Hnd & Hm).
  - by apply pair_ascending_nodup.
  - intros i j Hij%Hin'. rewrite length_fmap, length_seq.
    apply (controls_bound g s Hpr t Ht) in Hij. by rewrite !index_of_nat in Hij.
  - by rewrite length_fmap, length_seq.
  - rewrite word_of_index in Hl. exists l. split_and!; [done..|]. intros b. by rewrite Hm, Hin', !word_of_index.
Qed.

(** ** Witness *)

Definition sample_cdg : Graph Id unit :=
  match control_dependence_graph sample_rooted_at sample_post with Ok h => h | _ => tagged end.

Lemma cdg_is_control_dependence_witness :
  ∃ s, post_rooted sample_rooted_at s ∧ control_dependence_graph sample_rooted_at sample_post = Ok sample_cdg ∧
    successors sample_cdg 2%N = Ok [2; 3]%N ∧ ∀ b, b ∈ [2; 3]%N ↔ controls s 3%N 2%N b.
Proof.
  destruct sample_post_rooted as (s & Hpr & Hb). exists s. split; [exact Hpr|].
  destruct (cdg_is_control_dependence sample_rooted_at s sample_post Hpr sample_post_computed) as (h & es & Hrun & _ & _ & _ & Hall).
  { rewrite Hb. vm_compute. discriminate. }
  assert (Hv : control_dependence_graph sample_rooted_at sample_post = Ok sample_cdg) by (vm_compute; reflexivity).
  split; [exact Hv|]. assert (Hh : h = sample_cdg) by exact (Ok_inj _ _ (eq_trans (eq_sym Hrun) Hv)).
  destruct (Hall 2%N) as (_ & l & Hl & _ & Hin); [rewrite Hb; vm_compute; lia|]. rewrite Hh in Hl.
  assert (Hs : successors sample_cdg 2%N = Ok [2; 3]%N) by (vm_compute; reflexivity).
  rewrite (Ok_inj _ _ (eq_trans (eq_sym Hl) Hs)) in Hin. split; [exact Hs|exact Hin].
Defined.
