(* ===== verification/DisjointSet.v ===== *)
(** * Disjoint-set forest

    Models [union_find.rs]: the parent and rank arrays of [DisjointSet], the
    path-halving [find], the read-only [root], and the two union strategies.
    The forest is related to the partition it stands for through the rule
    [rooted], which counts the steps of a climb; the loops run on one more
    unit of fuel than there are elements, which [rooted_depth] shows to be
    more than any climb takes. *)

From S2P Require Import Prelude.

(** Reads equations between returned values. *)
Ltac ok_inv := cbn in *; unfold mret, res_ret in *; simplify_eq.

(** [DisjointSet] *)
Record DisjointSet := mk_ds { parent : list nat; rank : list nat }.

(** [DisjointSet::new] *)
Definition ds_new (len : nat) : DisjointSet :=
  {| parent := seq 0 len; rank := replicate len 0 |}.

(** [DisjointSet::reset]: both arrays are cleared, then refilled. *)
Definition ds_reset (s : DisjointSet) (len : nat) : DisjointSet :=
  let s := {| parent := []; rank := rank s |} in
  let s := {| parent := parent s ++ seq 0 len; rank := rank s |} in
  let s := {| parent := parent s; rank := [] |} in
  {| parent := parent s; rank := rank s ++ replicate (len - length (rank s)) 0 |}.

(** [DisjointSet::push] *)
Definition ds_push (s : DisjointSet) : DisjointSet * nat :=
  let index := length (parent s) in
  ({| parent := parent s ++ [index]; rank := rank s ++ [0] |}, index).

(** [DisjointSet::len] and [DisjointSet::is_empty] *)
Definition ds_len (s : DisjointSet) : nat := length (parent s).
Definition ds_is_empty (s : DisjointSet) : bool :=
  match parent s with [] => true | _ => false end.

(** The loop of [DisjointSet::find]: path halving. *)
Fixpoint find_loop (fuel : nat) (p : list nat) (index : nat) : res (list nat * nat) :=
  match fuel with
  | 0 => Stuck
  | S fuel =>
      up ← vget p index;
      if decide (up = index) then mret (p, index)
      else
        inner ← vget p index;
        grand ← vget p inner;
        p ← vset p index grand;
        next ← vget p index;
        find_loop fuel p next
  end.

(** [DisjointSet::find] *)
Definition ds_find (s : DisjointSet) (index : nat) : res (DisjointSet * nat) :=
  '(p, r) ← find_loop (S (length (parent s))) (parent s) index;
  mret ({| parent := p; rank := rank s |}, r).

(** The loop of [DisjointSet::root]. *)
Fixpoint root_loop (fuel : nat) (p : list nat) (index : nat) : res nat :=
  match fuel with
  | 0 => Stuck
  | S fuel =>
      up ← vget p index;
      if decide (up = index) then mret index else root_loop fuel p up
  end.

(** [DisjointSet::root] *)
Definition ds_root (s : DisjointSet) (index : nat) : res nat :=
  root_loop (S (length (parent s))) (parent s) index.

(** [DisjointSet::union] *)
Definition ds_union (s : DisjointSet) (left right : nat) : res (DisjointSet * bool) :=
  '(s, left_root) ← ds_find s left;
  '(s, right_root) ← ds_find s right;
  if decide (left_root = right_root) then mret (s, false)
  else
    lr ← vget (rank s) left_root;
    rr ← vget (rank s) right_root;
    match Nat.compare lr rr with
    | Lt =>
        p ← vset (parent s) left_root right_root;
        mret ({| parent := p; rank := rank s |}, true)
    | Gt =>
        p ← vset (parent s) right_root left_root;
        mret ({| parent := p; rank := rank s |}, true)
    | Eq =>
        p ← vset (parent s) right_root left_root;
        old ← vget (rank s) left_root;
        k ← vset (rank s) left_root (old + 1);
        mret ({| parent := p; rank := k |}, true)
    end.

(** [DisjointSet::union_toward_min] *)
Definition ds_union_toward_min (s : DisjointSet) (left right : nat)
    : res (DisjointSet * bool) :=
  '(s, left_root) ← ds_find s left;
  '(s, right_root) ← ds_find s right;
  if decide (left_root = right_root) then mret (s, false)
  else
    let '(root, merged) :=
      if decide (left_root < right_root) then (left_root, right_root)
      else (right_root, left_root) in
    p ← vset (parent s) merged root;
    mret ({| parent := p; rank := rank s |}, true).

#[global] Arguments ds_find : simpl never.
#[global] Arguments ds_root : simpl never.

(** ** Climbs

    [rooted p k i r]: following [p] from [i] reaches the root [r] after [k]
    steps. *)
Inductive rooted (p : list nat) : nat → nat → nat → Prop :=
  | rooted_here i : p !! i = Some i → rooted p 0 i i
  | rooted_up k i j r :
      p !! i = Some j → j ≠ i → rooted p k j r → rooted p (S k) i r.

(** Every element climbs to a root. *)
Definition forest (p : list nat) : Prop := ∀ i, i < length p → ∃ k r, rooted p k i r.

(** Two parent arrays over the same elements with the same roots. *)
Definition same_roots (p q : list nat) : Prop :=
  length p = length q ∧ ∀ i r, (∃ k, rooted p k i r) ↔ (∃ k, rooted q k i r).

(** Every step towards a root goes up in [R]. *)
Definition ascends (R : nat → nat → Prop) (p : list nat) : Prop :=
  ∀ i j, p !! i = Some j → j ≠ i → R i j.

Lemma rooted_det p k i r k' r' : rooted p k i r → rooted p k' i r' → k = k' ∧ r = r'.
Proof.
  intros H. revert k' r'. induction H as [i Hi|k i j r Hi Hne H IH]; intros k' r' H'.
  - inversion H'; simplify_eq. done.
  - inversion H'; simplify_eq. by destruct (IH _ _ H2) as [-> ->].
Qed.

Lemma rooted_root p k i r : rooted p k i r → p !! r = Some r.
Proof. induction 1; done. Qed.

Lemma rooted_lt p k i r : rooted p k i r → i < length p ∧ r < length p.
Proof. induction 1; split; try (by eapply lookup_lt_Some); naive_solver. Qed.

(** The climb passes through an element of every smaller depth. *)
Lemma rooted_suffixes p k i r :
  rooted p k i r → ∃ l, length l = S k ∧ NoDup l ∧
    ∀ x, x ∈ l → ∃ d, d ≤ k ∧ rooted p d x r.
Proof.
  induction 1 as [i Hi|k i j r Hi Hne H (l & Hlen & Hnd & Hl)].
  - exists [i]. split; [done|]. split; [apply NoDup_singleton|].
    intros x ->%list_elem_of_singleton. exists 0. split; [done|by constructor].
  - exists (i :: l). split; [cbn; by rewrite Hlen|]. split.
    + constructor; [|done]. intros (d & Hd & Hx)%Hl.
      assert (rooted p (S k) i r) as Hi' by by econstructor.
      destruct (rooted_det _ _ _ _ _ _ Hx Hi'). lia.
    + intros x [->|Hx]%elem_of_cons.
      * exists (S k). split; [done|]. by econstructor.
      * destruct (Hl x Hx) as (d & ? & ?). exists d. split; [lia|done].
Qed.

(** No climb takes as many steps as there are elements. *)
Lemma rooted_depth p k i r : rooted p k i r → k < length p.
Proof.
  intros (l & Hlen & Hnd & Hl)%rooted_suffixes.
  assert (S k ≤ length (seq 0 (length p))) as H.
  { rewrite <-Hlen. apply submseteq_length, NoDup_submseteq; [done|].
    intros x (d & _ & Hx)%Hl. apply elem_of_seq.
    apply rooted_lt in Hx. lia. }
  rewrite length_seq in H. lia.
Qed.

Lemma ascends_rooted R p k i r :
  Transitive R → ascends R p → rooted p k i r → i = r ∨ R i r.
Proof.
  intros HR Hp. induction 1 as [|k i j r Hi Hne H IH]; [by left|].
  right. destruct IH as [<-|IH]; [by apply Hp|].
  etrans; [by apply Hp|done].
Qed.

Lemma same_roots_forest p q : same_roots p q → forest p → forest q.
Proof.
  intros [Hlen H] Hp i Hi. rewrite <-Hlen in Hi.
  destruct (Hp i Hi) as (k & r & Hr). destruct (proj1 (H i r)) as [k' ?]; eauto.
Qed.

#[export] Instance same_roots_equiv : Equivalence same_roots.
Proof.
  split.
  - intros p. split; [done|]. done.
  - intros p q [Hl H]. split; [done|]. intros i r. by rewrite H.
  - intros p q o [Hl H] [Hl' H']. split; [congruence|]. intros i r. by rewrite H.
Qed.

(** ** Path halving *)

(** One halving step never lengthens a climb or changes where it ends. *)
Lemma halve_rooted p i j g k x r :
  p !! i = Some j → j ≠ i → p !! j = Some g →
  rooted p k x r → ∃ k', k' ≤ k ∧ rooted (<[i := g]> p) k' x r.
Proof.
  intros Hi Hne Hj. revert x. induction k as [k IH] using lt_wf_ind. intros x Hx.
  pose proof (lookup_lt_Some _ _ _ Hi) as Hlt.
  destruct (decide (x = i)) as [->|Hxi].
  - inversion Hx as [|k1 ? j' ? Hi' _ Hj1]; simplify_eq.
    inversion Hj1 as [? Hj'|k2 ? g' ? Hj' Hgj Hg]; simplify_eq.
    + exists 1. split; [done|]. eapply rooted_up; [by apply list_lookup_insert_eq|done|].
      constructor. by rewrite list_lookup_insert_ne.
    + destruct (IH k2 ltac:(lia) g Hg) as (k' & ? & ?).
      assert (g ≠ i) as Hgi.
      { intros ->. destruct (rooted_det _ _ _ _ _ _ Hg Hx). lia. }
      exists (S k'). split; [lia|]. by apply (rooted_up _ _ _ g);
        [apply list_lookup_insert_eq|..].
  - inversion Hx as [? Hx'|k1 ? y ? Hx' Hy Hr]; simplify_eq.
    + exists 0. split; [done|]. constructor. by rewrite list_lookup_insert_ne.
    + destruct (IH k1 ltac:(lia) y Hr) as (k' & ? & ?).
      exists (S k'). split; [lia|]. apply (rooted_up _ _ _ y); [|done..].
      by rewrite list_lookup_insert_ne.
Qed.

(** A change that keeps every climb's end keeps the roots. *)
Lemma same_roots_intro p q :
  length p = length q → forest p →
  (∀ k i r, rooted p k i r → ∃ k', rooted q k' i r) → same_roots p q.
Proof.
  intros Hlen Hp H. split; [done|]. intros i r. split; intros [k Hk]; [by eapply H|].
  destruct (Hp i) as (k' & r' & Hr'); [apply rooted_lt in Hk; lia|].
  destruct (H _ _ _ Hr') as [k'' Hr'']. destruct (rooted_det _ _ _ _ _ _ Hk Hr'') as [_ ->].
  by exists k'.
Qed.

Lemma halve_same_roots p i j g :
  forest p → p !! i = Some j → j ≠ i → p !! j = Some g → same_roots p (<[i := g]> p).
Proof.
  intros Hp Hi Hne Hj. apply same_roots_intro; [by rewrite length_insert|done|].
  intros k x r Hx. destruct (halve_rooted _ _ _ _ _ _ _ Hi Hne Hj Hx) as (k' & _ & ?). eauto.
Qed.

Lemma halve_ascends R p i j g :
  Transitive R → ascends R p → p !! i = Some j → j ≠ i → p !! j = Some g →
  ascends R (<[i := g]> p).
Proof.
  intros HR Hp Hi Hne Hj x y Hx Hxy. destruct (decide (x = i)) as [->|].
  - rewrite list_lookup_insert_eq in Hx by (by eapply lookup_lt_Some). simplify_eq.
    destruct (decide (y = j)) as [->|]; [by apply Hp|].
    etrans; [by apply Hp|by apply Hp].
  - rewrite list_lookup_insert_ne in Hx by done. by apply Hp.
Qed.

(** [find] returns the root, and only shortens climbs. *)
Lemma find_loop_spec fuel p k i r :
  forest p → rooted p k i r → k < fuel →
  ∃ q, find_loop fuel p i = Ok (q, r) ∧ same_roots p q ∧
    (∀ R, Transitive R → ascends R p → ascends R q).
Proof.
  revert p k i. induction fuel as [|fuel IH]; intros p k i Hp Hi Hk; [lia|]. cbn [find_loop].
  inversion Hi as [? Hr|k1 ? j ? Hj Hne Hr]; simplify_eq.
  - rewrite (vget_eq _ _ _ Hr). cbn. rewrite decide_True by done. exists p.
    split; [done|]. split; [reflexivity|done].
  - rewrite (vget_eq _ _ _ Hj). cbn. rewrite decide_False by done.
    destruct (lookup_lt_is_Some_2 p j) as [g Hg]; [apply rooted_lt in Hr; lia|].
    rewrite (vget_eq _ _ _ Hg). cbn.
    pose proof (lookup_lt_Some _ _ _ Hj) as Hlt.
    rewrite vset_lt by done. cbn. rewrite (vget_eq _ _ g) by (by apply list_lookup_insert_eq).
    cbn. assert (∃ k2, k2 ≤ k1 ∧ rooted p k2 g r) as (k2 & Hk2 & Hgr).
    { inversion Hr; simplify_eq; [by exists 0|]. eexists; split; [|done]. lia. }
    destruct (halve_rooted _ _ _ _ _ _ _ Hj Hne Hg Hgr) as (k3 & Hk3 & Hr3).
    pose proof (halve_same_roots _ _ _ _ Hp Hj Hne Hg) as Hsame.
    destruct (IH _ k3 g (same_roots_forest _ _ Hsame Hp) Hr3 ltac:(lia))
      as (q & -> & Hq & HR).
    exists q. split; [done|]. split; [by etrans|].
    intros R HT HA. apply HR; [done|]. by eapply halve_ascends.
Qed.

Lemma root_loop_spec fuel p k i r :
  rooted p k i r → k < fuel → root_loop fuel p i = Ok r.
Proof.
  intros H. revert fuel. induction H as [i Hi|k i j r Hi Hne H IH]; intros fuel Hk;
    (destruct fuel as [|fuel]; [lia|]); cbn [root_loop]; rewrite (vget_eq _ _ _ Hi); cbn.
  - by rewrite decide_True.
  - rewrite decide_False by done. apply IH. lia.
Qed.

(** [root] is total on a forest and is the relation [rooted]. *)
Lemma ds_root_Ok s i r :
  forest (parent s) → ds_root s i = Ok r ↔ ∃ k, rooted (parent s) k i r.
Proof.
  intros Hp. unfold ds_root. split.
  - intros Hr. destruct (decide (i < length (parent s))) as [Hi|Hi].
    + destruct (Hp i Hi) as (k & r' & Hr'). pose proof (rooted_depth _ _ _ _ Hr').
      rewrite (root_loop_spec _ _ _ _ _ Hr') in Hr by lia. simplify_eq. eauto.
    + exfalso. cbn in Hr. unfold vget in Hr.
      rewrite lookup_ge_None_2 in Hr by lia. done.
  - intros [k Hr]. apply (root_loop_spec _ _ k); [done|].
    apply rooted_depth in Hr. lia.
Qed.

Lemma ds_find_spec s i :
  forest (parent s) → i < length (parent s) →
  ∃ q r, ds_find s i = Ok ({| parent := q; rank := rank s |}, r) ∧
    (∃ k, rooted (parent s) k i r) ∧ same_roots (parent s) q ∧
    (∀ R, Transitive R → ascends R (parent s) → ascends R q).
Proof.
  intros Hp Hi. destruct (Hp i Hi) as (k & r & Hr). unfold ds_find.
  pose proof (rooted_depth _ _ _ _ Hr).
  destruct (find_loop_spec (S (length (parent s))) _ _ _ _ Hp Hr ltac:(lia)) as (q & -> & ? & ?).
  exists q, r. cbn. eauto 6.
Qed.

(** ** Linking two roots *)

Lemma link_rooted p a b k i r :
  p !! a = Some a → p !! b = Some b → a ≠ b → rooted p k i r →
  ∃ k', rooted (<[a := b]> p) k' i (if decide (r = a) then b else r).
Proof.
  intros Ha Hb Hab. pose proof (lookup_lt_Some _ _ _ Ha).
  induction 1 as [i Hi|k i j r Hi Hne H' (k' & IH)].
  - destruct (decide (i = a)) as [->|].
    + exists 1. apply (rooted_up _ _ _ b); [by apply list_lookup_insert_eq|done|].
      constructor. by rewrite list_lookup_insert_ne.
    + exists 0. constructor. by rewrite list_lookup_insert_ne.
  - exists (S k'). apply (rooted_up _ _ _ j); [|done..].
    rewrite list_lookup_insert_ne; [done|]. intros ->. congruence.
Qed.

Lemma link_forest p a b :
  forest p → p !! a = Some a → p !! b = Some b → a ≠ b → forest (<[a := b]> p).
Proof.
  intros Hp Ha Hb Hab i Hi. rewrite length_insert in Hi. destruct (Hp i Hi) as (k & r & Hr).
  destruct (link_rooted _ _ _ _ _ _ Ha Hb Hab Hr). eauto.
Qed.

Lemma link_ascends R p a b : R a b → ascends R p → ascends R (<[a := b]> p).
Proof.
  intros HR Hp i j Hi Hij. destruct (decide (i = a)) as [->|].
  - destruct (decide (a < length p)).
    + rewrite list_lookup_insert_eq in Hi by done. by simplify_eq.
    + rewrite list_insert_ge, lookup_ge_None_2 in Hi by lia. done.
  - rewrite list_lookup_insert_ne in Hi by done. by apply Hp.
Qed.

(** ** The partition a forest stands for

    The reference is the labelling the source's own tests compare against: two
    elements are in one set when they carry the same label, and a union
    relabels one side. *)

Definition relabel (from into : nat) (label : list nat) : list nat :=
  (λ slot, if decide (slot = from) then into else slot) <$> label.

Definition naive_union (label : list nat) (left right : nat) : res (list nat * bool) :=
  into ← vget label left;
  from ← vget label right;
  mret (relabel from into label, bool_decide (into ≠ from)).

(** The calls a client can make; [find] changes the forest, not the partition. *)
Inductive ds_call :=
  | CallPush
  | CallReset (len : nat)
  | CallFind (index : nat)
  | CallUnion (left right : nat)
  | CallUnionTowardMin (left right : nat).

(** A call on the forest, with the report of a union. *)
Definition ds_step (s : DisjointSet) (c : ds_call) : res (DisjointSet * list bool) :=
  match c with
  | CallPush => mret ((ds_push s).1, [])
  | CallReset len => mret (ds_reset s len, [])
  | CallFind i => '(s, _) ← ds_find s i; mret (s, [])
  | CallUnion l r => '(s, b) ← ds_union s l r; mret (s, [b])
  | CallUnionTowardMin l r => '(s, b) ← ds_union_toward_min s l r; mret (s, [b])
  end.

(** The same call on the labels. *)
Definition naive_step (label : list nat) (c : ds_call) : res (list nat * list bool) :=
  match c with
  | CallPush => mret (label ++ [length label], [])
  | CallReset len => mret (seq 0 len, [])
  | CallFind i => _ ← vget label i; mret (label, [])
  | CallUnion l r | CallUnionTowardMin l r =>
      '(label, b) ← naive_union label l r; mret (label, [b])
  end.

(** A sequence of calls, collecting the reports. *)
Definition ds_run : DisjointSet → list ds_call → res (DisjointSet * list bool) :=
  run_calls ds_step.
Definition naive_run : list nat → list ds_call → res (list nat * list bool) :=
  run_calls naive_step.

(** [i]'s climb ends at [r]. *)
Definition top (p : list nat) (i r : nat) : Prop := ∃ k, rooted p k i r.

(** The forest [s] stands for the partition [label]. *)
Record partition (s : DisjointSet) (label : list nat) : Prop := {
  pt_forest : forest (parent s);
  pt_rank : length (rank s) = length (parent s);
  pt_len : length label = length (parent s);
  pt_fresh : ∀ i x, label !! i = Some x → x < length label;
  pt_same : ∀ i j r q, top (parent s) i r → top (parent s) j q →
    r = q ↔ label !! i = label !! j;
}.

Lemma top_det p i r q : top p i r → top p i q → r = q.
Proof. intros [k H] [k' H']. by destruct (rooted_det _ _ _ _ _ _ H H'). Qed.

Lemma top_self p r : p !! r = Some r → top p r r.
Proof. exists 0. by constructor. Qed.

Lemma top_root p i r : top p i r → p !! r = Some r.
Proof. intros [k H]. by eapply rooted_root. Qed.

Lemma top_lt p i r : top p i r → i < length p ∧ r < length p.
Proof. intros [k H]. by eapply rooted_lt. Qed.

(** Equality of roots carries over between parent arrays with the same roots. *)
Lemma partition_same_roots s label q :
  partition s label → same_roots (parent s) q →
  partition {| parent := q; rank := rank s |} label.
Proof.
  intros [H1 H2 H3 H4 H5] Hq. destruct (Hq) as [Hlen Hsame]. split; cbn.
  - by eapply same_roots_forest.
  - congruence.
  - congruence.
  - done.
  - intros i j r r' Hi Hj. apply H5; by apply Hsame.
Qed.

Lemma partition_new n : partition (ds_new n) (seq 0 n).
Proof.
  assert (∀ i r, top (seq 0 n) i r → i = r ∧ i < n) as Htop.
  { intros i r [k Hk]. destruct Hk as [i Hi|k i j r Hi Hne]; apply lookup_seq in Hi; naive_solver lia. }
  split; cbn.
  - intros i Hi. rewrite length_seq in Hi. exists 0, i. constructor. by apply lookup_seq.
  - by rewrite length_replicate, length_seq.
  - done.
  - intros i x [-> ?]%lookup_seq. by rewrite length_seq.
  - intros i j r q [-> ?]%Htop [-> ?]%Htop.
    rewrite (proj2 (lookup_seq 0 n r r)), (proj2 (lookup_seq 0 n q q)) by done.
    naive_solver.
Qed.

Lemma ds_reset_new s n : ds_reset s n = ds_new n.
Proof. unfold ds_reset, ds_new. cbn. by rewrite Nat.sub_0_r. Qed.

(** The labels of two elements agree exactly when their roots do. *)
Lemma partition_labels s label i j r q x y :
  partition s label → top (parent s) i r → top (parent s) j q →
  label !! i = Some x → label !! j = Some y → r = q ↔ x = y.
Proof. intros H Hi Hj Hx Hy. rewrite (pt_same _ _ H _ _ _ _ Hi Hj), Hx, Hy. naive_solver. Qed.

Lemma partition_top s label i x :
  partition s label → label !! i = Some x → ∃ r, top (parent s) i r.
Proof.
  intros H Hx. apply lookup_lt_Some in Hx. rewrite (pt_len _ _ H) in Hx.
  destruct (pt_forest _ _ H i Hx) as (k & r & ?). by exists r, k.
Qed.

Lemma link_top p a b i r q :
  p !! a = Some a → p !! b = Some b → a ≠ b → top p i r → top (<[a := b]> p) i q →
  q = if decide (r = a) then b else r.
Proof.
  intros Ha Hb Hab [k Hr] Hq.
  eapply top_det; [done|]. eapply link_rooted; done.
Qed.

Lemma relabel_lookup from into label i y :
  relabel from into label !! i = Some y →
  ∃ x, label !! i = Some x ∧ y = if decide (x = from) then into else x.
Proof.
  unfold relabel. rewrite list_lookup_fmap. intros (x & -> & ?)%fmap_Some. eauto.
Qed.

(** Merging: two elements share a root afterwards when they did before, or
    when each was in one of the two merged sets. *)
Lemma partition_link s label l r a b k into from :
  partition s label → top (parent s) l a ∧ top (parent s) r b ∨
    top (parent s) r a ∧ top (parent s) l b → a ≠ b →
  label !! l = Some into → label !! r = Some from →
  length k = length (rank s) →
  partition {| parent := <[a := b]> (parent s); rank := k |} (relabel from into label).
Proof.
  intros H Hab Hne Hl Hr Hk.
  assert (parent s !! a = Some a ∧ parent s !! b = Some b) as [Ha Hb].
  { destruct Hab as [[]|[]]; split; by eapply top_root. }
  destruct (H) as [H1 H2 H3 H4 H5]. split; cbn.
  - by apply link_forest.
  - by rewrite length_insert, Hk.
  - unfold relabel. by rewrite length_fmap, length_insert.
  - intros i y (x & Hx & ->)%relabel_lookup. unfold relabel. rewrite length_fmap.
    case_decide; eauto.
  - intros i j r' q' Hi Hj.
    destruct (lookup_lt_is_Some_2 label i) as [xi Hxi].
    { rewrite H3. apply top_lt in Hi. rewrite length_insert in Hi. tauto. }
    destruct (lookup_lt_is_Some_2 label j) as [xj Hxj].
    { rewrite H3. apply top_lt in Hj. rewrite length_insert in Hj. tauto. }
    destruct (partition_top _ _ _ _ H Hxi) as [ri Hri].
    destruct (partition_top _ _ _ _ H Hxj) as [rj Hrj].
    rewrite (link_top _ _ _ _ _ _ Ha Hb Hne Hri Hi), (link_top _ _ _ _ _ _ Ha Hb Hne Hrj Hj).
    unfold relabel. rewrite !list_lookup_fmap, Hxi, Hxj. cbn.
    pose proof (partition_labels _ _ _ _ _ _ _ _ H Hri Hrj Hxi Hxj).
    destruct Hab as [[Hla Hrb]|[Hra Hlb]].
    + pose proof (partition_labels _ _ _ _ _ _ _ _ H Hri Hla Hxi Hl).
      pose proof (partition_labels _ _ _ _ _ _ _ _ H Hri Hrb Hxi Hr).
      pose proof (partition_labels _ _ _ _ _ _ _ _ H Hrj Hla Hxj Hl).
      pose proof (partition_labels _ _ _ _ _ _ _ _ H Hrj Hrb Hxj Hr).
      repeat case_decide; naive_solver.
    + pose proof (partition_labels _ _ _ _ _ _ _ _ H Hri Hra Hxi Hr).
      pose proof (partition_labels _ _ _ _ _ _ _ _ H Hri Hlb Hxi Hl).
      pose proof (partition_labels _ _ _ _ _ _ _ _ H Hrj Hra Hxj Hr).
      pose proof (partition_labels _ _ _ _ _ _ _ _ H Hrj Hlb Hxj Hl).
      repeat case_decide; naive_solver.
Qed.

Lemma partition_push s label :
  partition s label → partition (ds_push s).1 (label ++ [length label]).
Proof.
  intros H. destruct (H) as [H1 H2 H3 H4 H5]. set (n := length (parent s)) in *.
  assert (∀ k i r, rooted (parent s) k i r → rooted (parent s ++ [n]) k i r) as Hup.
  { induction 1; econstructor; eauto using lookup_app_l_Some. }
  assert ((parent s ++ [n]) !! n = Some n) as Hn by (by apply list_lookup_middle).
  assert (∀ i r, top (parent s ++ [n]) i r →
    (i = n ∧ r = n) ∨ (i < n ∧ top (parent s) i r)) as Htop.
  { intros i r Hi. pose proof (top_lt _ _ _ Hi) as [Hlt _].
    rewrite length_app in Hlt. cbn in Hlt. fold n in Hlt.
    destruct (decide (i = n)) as [->|].
    - left. split; [done|]. eapply top_det; [done|]. by apply top_self.
    - right. split; [lia|]. destruct (H1 i) as (k & q & Hq); [fold n; lia|].
      replace r with q; [by exists k|]. symmetry. eapply top_det; [done|]. exists k; eauto. }
  split; cbn; fold n.
  - intros i Hi. rewrite length_app in Hi. cbn in Hi. fold n in Hi.
    destruct (decide (i = n)) as [->|]; [exists 0, n; by constructor|].
    destruct (H1 i) as (k & q & Hq); [fold n; lia|]. eauto.
  - rewrite !length_app. cbn. lia.
  - rewrite !length_app. cbn. fold n. lia.
  - intros i x Hi. rewrite length_app. cbn. apply lookup_app_Some in Hi as [Hi|[_ Hi]].
    + apply H4 in Hi. lia.
    + apply list_lookup_singleton_Some in Hi as [_ <-]. lia.
  - assert (∀ i, i < n → ∃ x, (label ++ [length label]) !! i = Some x ∧
      label !! i = Some x ∧ x < n) as Hlow.
    { intros i Hi. destruct (lookup_lt_is_Some_2 label i) as [x Hx]; [lia|].
      exists x. rewrite lookup_app_l by lia. split; [done|]. split; [done|].
      apply H4 in Hx. lia. }
    assert ((label ++ [length label]) !! n = Some n) as Hln.
    { rewrite list_lookup_middle by done. by rewrite H3. }
    intros i j r q Hi Hj. apply Htop in Hi as [[-> ->]|[Hi Hri]];
      apply Htop in Hj as [[-> ->]|[Hj Hrj]].
    + done.
    + destruct (Hlow j Hj) as (x & -> & _ & ?). rewrite Hln.
      apply top_lt in Hrj. split; intros; simplify_eq; lia.
    + destruct (Hlow i Hi) as (x & -> & _ & ?). rewrite Hln.
      apply top_lt in Hri. split; intros; simplify_eq; lia.
    + destruct (Hlow i Hi) as (x & -> & Hx & _). destruct (Hlow j Hj) as (y & -> & Hy & _).
      rewrite <-Hx, <-Hy. by apply H5.
Qed.

(** ** Each call refines the labelling *)

Lemma ds_find_out s i : length (parent s) ≤ i → ds_find s i = Panic "index out of bounds".
Proof. intros Hi. unfold ds_find. cbn. unfold vget. by rewrite lookup_ge_None_2. Qed.

(** The two finds that open both unions. *)
Lemma find_both_spec s label l r into from :
  partition s label → label !! l = Some into → label !! r = Some from →
  ∃ s1 q a b, ds_find s l = Ok (s1, a) ∧
    ds_find s1 r = Ok ({| parent := q; rank := rank s |}, b) ∧
    top q l a ∧ top q r b ∧ (a = b ↔ into = from) ∧
    partition {| parent := q; rank := rank s |} label ∧
    (∀ R, Transitive R → ascends R (parent s) → ascends R q).
Proof.
  intros H Hl Hr. pose proof (lookup_lt_Some _ _ _ Hl) as Hll.
  pose proof (lookup_lt_Some _ _ _ Hr) as Hrl. rewrite (pt_len _ _ H) in Hll, Hrl.
  destruct (ds_find_spec s l (pt_forest _ _ H) Hll) as (q1 & a & E1 & Ha & S1 & R1).
  pose proof (partition_same_roots _ _ _ H S1) as H1.
  destruct (ds_find_spec {| parent := q1; rank := rank s |} r (pt_forest _ _ H1))
    as (q2 & b & E2 & Hb & S2 & R2).
  { cbn. destruct S1 as [<- _]. done. }
  cbn in E2, S2, R2, Hb. pose proof (partition_same_roots _ _ _ H1 S2) as H2. cbn in H2.
  exists {| parent := q1; rank := rank s |}, q2, a, b.
  assert (top q2 l a) by (apply S2, S1, Ha). assert (top q2 r b) by (apply S2, Hb).
  do 4 (split; [done|]). split; [|split; [done|eauto]].
  by apply (partition_labels _ _ l r _ _ _ _ H2).
Qed.

(** A union that finds the two elements together already changes no label. *)
Lemma relabel_id from label : relabel from from label = label.
Proof.
  unfold relabel. rewrite <-(list_fmap_id label) at 2. apply list_fmap_ext.
  intros i x _. cbn. case_decide; by subst.
Qed.

Lemma ds_union_spec s label l r into from :
  partition s label → label !! l = Some into → label !! r = Some from →
  ∃ s', ds_union s l r = Ok (s', bool_decide (into ≠ from)) ∧
    partition s' (relabel from into label).
Proof.
  intros H Hl Hr. destruct (find_both_spec _ _ _ _ _ _ H Hl Hr)
    as (s1 & q & a & b & E1 & E2 & Ha & Hb & Hab & Hq & _).
  unfold ds_union. rewrite E1. cbn. rewrite E2. cbn. destruct (decide (a = b)) as [->|Hne].
  - assert (into = from) as -> by naive_solver. rewrite bool_decide_false, relabel_id by tauto.
    eauto.
  - rewrite bool_decide_true by naive_solver.
    pose proof (pt_rank _ _ Hq) as Hrk. cbn in Hrk.
    pose proof (top_lt _ _ _ Ha) as [_ Hal]. pose proof (top_lt _ _ _ Hb) as [_ Hbl].
    destruct (lookup_lt_is_Some_2 (rank s) a) as [ra Hra]; [lia|].
    destruct (lookup_lt_is_Some_2 (rank s) b) as [rb Hrb]; [lia|].
    rewrite (vget_eq _ _ _ Hra), (vget_eq _ _ _ Hrb). cbn.
    destruct (Nat.compare ra rb); rewrite !vset_lt by lia; cbn; eexists; (split; [done|]).
    + eapply (partition_link _ _ l r b a _ _ _ Hq); eauto. by rewrite length_insert.
    + eapply (partition_link _ _ l r a b _ _ _ Hq); eauto.
    + eapply (partition_link _ _ l r b a _ _ _ Hq); eauto.
Qed.

Lemma ds_union_toward_min_spec s label l r into from :
  partition s label → label !! l = Some into → label !! r = Some from →
  ∃ s', ds_union_toward_min s l r = Ok (s', bool_decide (into ≠ from)) ∧
    partition s' (relabel from into label) ∧
    (ascends (λ i j, j < i) (parent s) → ascends (λ i j, j < i) (parent s')).
Proof.
  intros H Hl Hr. destruct (find_both_spec _ _ _ _ _ _ H Hl Hr)
    as (s1 & q & a & b & E1 & E2 & Ha & Hb & Hab & Hq & HR).
  specialize (HR (λ i j, j < i) ltac:(intros ???; lia)).
  unfold ds_union_toward_min. rewrite E1. cbn. rewrite E2. cbn. destruct (decide (a = b)) as [->|Hne].
  - assert (into = from) as -> by naive_solver. rewrite bool_decide_false, relabel_id by tauto.
    eauto.
  - rewrite bool_decide_true by naive_solver.
    pose proof (top_lt _ _ _ Ha) as [_ Hal]. pose proof (top_lt _ _ _ Hb) as [_ Hbl].
    destruct (decide (a < b)); rewrite !vset_lt by lia; cbn; eexists; (split; [done|]); split.
    + eapply (partition_link _ _ l r b a _ _ _ Hq); eauto.
    + intros ?. apply link_ascends; [done|]. auto.
    + eapply (partition_link _ _ l r a b _ _ _ Hq); eauto.
    + intros ?. apply link_ascends; [lia|]. auto.
Qed.

Lemma union_out s label l r {B} (k : DisjointSet → nat → nat → res B) :
  partition s label → (label !! l = None ∨ label !! r = None) →
  ('(s1, a) ← ds_find s l; '(s2, b) ← ds_find s1 r; k s2 a b) =
    Panic "index out of bounds" ∧
  naive_union label l r = Panic "index out of bounds".
Proof.
  intros H Hout. unfold naive_union, vget.
  destruct (label !! l) as [x|] eqn:Hl; cbn.
  - destruct Hout as [?|Hr]; [done|]. rewrite Hr. split; [|done].
    apply lookup_ge_None in Hr. rewrite (pt_len _ _ H) in Hr.
    apply lookup_lt_Some in Hl. rewrite (pt_len _ _ H) in Hl.
    destruct (ds_find_spec s l (pt_forest _ _ H) Hl) as (q1 & a & -> & Ha & [S1 _] & _). cbn.
    rewrite ds_find_out; [done|]. cbn. lia.
  - split; [|done]. apply lookup_ge_None in Hl. rewrite (pt_len _ _ H) in Hl.
    by rewrite ds_find_out.
Qed.

(** Both unions refine the relabelling, given what they do in range and that
    they open with the two finds. *)
Lemma union_refines (u : DisjointSet → nat → nat → res (DisjointSet * bool)) k s label l r :
  (∀ s l r, u s l r = ('(s1, a) ← ds_find s l; '(s2, b) ← ds_find s1 r; k s2 a b)) →
  (∀ into from, label !! l = Some into → label !! r = Some from →
    ∃ s', u s l r = Ok (s', bool_decide (into ≠ from)) ∧ partition s' (relabel from into label)) →
  partition s label →
  refines partition ('(s, b) ← u s l r; mret (s, [b]))
    ('(label, b) ← naive_union label l r; mret (label, [b])).
Proof.
  intros Hu Hin H.
  destruct (decide (label !! l = None ∨ label !! r = None)) as [Hout|Hboth].
  - rewrite Hu. destruct (union_out s label l r k H Hout) as [-> ->]. done.
  - destruct (label !! l) as [x|] eqn:Hl; [|tauto].
    destruct (label !! r) as [y|] eqn:Hr; [|tauto].
    destruct (Hin x y eq_refl eq_refl) as (s' & -> & Hs').
    unfold naive_union. rewrite (vget_eq _ _ _ Hl), (vget_eq _ _ _ Hr). cbn. eauto.
Qed.

Lemma ds_step_refines s label c :
  partition s label → refines partition (ds_step s c) (naive_step label c).
Proof.
  intros H. destruct c as [|len|i|l r|l r]; cbn [ds_step naive_step].
  - eexists. split; [done|]. by apply partition_push.
  - eexists. split; [done|]. rewrite ds_reset_new. apply partition_new.
  - destruct (label !! i) as [x|] eqn:Hi.
    + rewrite (vget_eq _ _ _ Hi). cbn. apply lookup_lt_Some in Hi.
      rewrite (pt_len _ _ H) in Hi.
      destruct (ds_find_spec s i (pt_forest _ _ H) Hi) as (q & a & -> & _ & S1 & _). cbn.
      eexists. split; [done|]. by apply partition_same_roots.
    + unfold vget. rewrite Hi. cbn. apply lookup_ge_None in Hi. rewrite (pt_len _ _ H) in Hi.
      by rewrite ds_find_out.
  - eapply union_refines; [done| |done]. intros ????. by apply ds_union_spec.
  - eapply union_refines; [done| |done]. intros x y Hx Hy.
    destruct (ds_union_toward_min_spec _ _ _ _ _ _ H Hx Hy) as (s' & ? & ? & _). eauto.
Qed.

(** ** Ranks

    Under [union] alone, a root of rank [k] has at least [2 ^ k] elements in
    its set, and ranks grow along every climb. *)

Definition rk (s : DisjointSet) (i : nat) : nat := default 0 (rank s !! i).
Definition set_size (label : list nat) (x : nat) : nat := length (filter (λ y, y = x) label).

Record ranked (s : DisjointSet) (label : list nat) : Prop := {
  rk_part : partition s label;
  rk_up : ascends (λ i j, rk s i < rk s j) (parent s);
  rk_size : ∀ r x, parent s !! r = Some r → label !! r = Some x →
    2 ^ rk s r ≤ set_size label x;
}.

Lemma set_size_fmap (f : nat → nat) label x :
  set_size label x ≤ set_size (f <$> label) (f x).
Proof.
  unfold set_size. induction label as [|y label IH]; [done|].
  rewrite fmap_cons, !filter_cons. repeat case_decide; cbn; subst; try congruence; lia.
Qed.

Lemma set_size_merge label from into :
  into ≠ from →
  set_size (relabel from into label) into = set_size label into + set_size label from.
Proof.
  intros Hne. unfold set_size, relabel. induction label as [|y label IH]; [done|].
  rewrite fmap_cons, !filter_cons. repeat case_decide; cbn; subst; try congruence; lia.
Qed.

Lemma set_size_len label x : set_size label x ≤ length label.
Proof. apply length_filter. Qed.

Lemma ranked_new n : ranked (ds_new n) (seq 0 n).
Proof.
  split; [apply partition_new| |]; cbn.
  - intros i j [-> ?]%lookup_seq ?. lia.
  - intros r x _ Hx. unfold rk. cbn. apply lookup_seq in Hx as [-> Hx].
    rewrite lookup_replicate_2 by done. cbn. unfold set_size.
    destruct (filter (λ y, y = r) (seq 0 n)) eqn:E; cbn; [|lia].
    assert (r ∈ filter (λ y, y = r) (seq 0 n)) as Hin.
    { apply list_elem_of_filter. split; [done|]. apply elem_of_seq. lia. }
    rewrite E in Hin. set_solver.
Qed.

Lemma rk_push s i : length (rank s) = length (parent s) → rk (ds_push s).1 i = rk s i.
Proof.
  intros H. unfold rk. cbn. destruct (decide (i < length (rank s))).
  - by rewrite lookup_app_l.
  - rewrite lookup_app_r, (lookup_ge_None_2 (rank s)) by lia.
    destruct (i - length (rank s)) as [|[]]; done.
Qed.

Lemma ranked_push s label : ranked s label → ranked (ds_push s).1 (label ++ [length label]).
Proof.
  intros [Hp Hup Hsz]. pose proof (pt_rank _ _ Hp) as Hrk. pose proof (pt_len _ _ Hp) as Hlen.
  split; [by apply partition_push| |].
  - intros i j Hi Hne. rewrite !rk_push by done. cbn in Hi.
    apply lookup_app_Some in Hi as [Hi|[Hge Hi]]; [by apply Hup|].
    apply list_lookup_singleton_Some in Hi as [? ?]. lia.
  - intros r x Hr Hx. rewrite rk_push by done. unfold set_size.
    rewrite filter_app, length_app. cbn in Hr.
    apply lookup_app_Some in Hr as [Hr|[Hge Hr]].
    + rewrite lookup_app_l in Hx by (rewrite Hlen; by eapply lookup_lt_Some).
      specialize (Hsz r x Hr Hx). unfold set_size in Hsz. lia.
    + apply list_lookup_singleton_Some in Hr as [? ?]. assert (r = length label) as -> by lia.
      rewrite list_lookup_middle in Hx by done. simplify_eq. unfold rk.
      rewrite lookup_ge_None_2 by lia. rewrite filter_cons_True by done. cbn. lia.
Qed.

Lemma ranked_find s label i q r :
  ranked s label → i < length (parent s) →
  ds_find s i = Ok (q, r) → ranked q label.
Proof.
  intros [Hp Hup Hsz] Hi E. destruct (ds_find_spec s i (pt_forest _ _ Hp) Hi)
    as (p & r' & E' & _ & Hsame & HR). rewrite E in E'. simplify_eq.
  split; [by apply partition_same_roots| |]; unfold rk; cbn.
  - apply HR; [intros ???; lia|]. apply Hup.
  - intros a x Ha. apply Hsz. apply top_self in Ha. apply Hsame in Ha. by apply top_root in Ha.
Qed.

(** Attaching [a] under [b] keeps the ranks when [b] ranks higher, and when
    they tie and [b]'s rank is raised. *)
Lemma ranked_link s label l r a b into from (tie : bool) :
  ranked s label → top (parent s) l a ∧ top (parent s) r b ∨
    top (parent s) r a ∧ top (parent s) l b → a ≠ b →
  label !! l = Some into → label !! r = Some from →
  (if tie then rk s a = rk s b ∧ top (parent s) l b else rk s a < rk s b) →
  ranked {| parent := <[a := b]> (parent s);
            rank := if tie then <[b := rk s b + 1]> (rank s) else rank s |}
    (relabel from into label).
Proof.
  intros [Hp Hup Hsz] Hab Hne Hl Hr Hcmp. pose proof (pt_rank _ _ Hp) as Hrk.
  assert (parent s !! a = Some a ∧ parent s !! b = Some b) as [Ha Hb].
  { destruct Hab as [[]|[]]; split; by eapply top_root. }
  pose proof (lookup_lt_Some _ _ _ Hb) as Hbl.
  set (s' := {| parent := _; rank := _ |}).
  assert (∀ i, rk s' i = if decide (i = b) then (if tie then rk s b + 1 else rk s b) else rk s i)
    as Hrk'.
  { intros i. unfold rk, s'. cbn. destruct tie, (decide (i = b)) as [->|]; try done.
    - rewrite list_lookup_insert_eq by lia. done.
    - by rewrite list_lookup_insert_ne. }
  split.
  - eapply partition_link; eauto. destruct tie; [by rewrite length_insert|done].
  - apply link_ascends.
    + rewrite !Hrk'. destruct tie; repeat case_decide; try congruence; try lia.
    + intros i j Hi Hij. specialize (Hup i j Hi Hij). rewrite !Hrk'.
      destruct tie; repeat case_decide; subst; try congruence; lia.
  - intros c x Hc Hx. cbn in Hc. destruct (decide (c = a)) as [->|Hca].
    { rewrite list_lookup_insert_eq in Hc by (by eapply lookup_lt_Some). congruence. }
    rewrite list_lookup_insert_ne in Hc by done.
    apply relabel_lookup in Hx as (y & Hy & ->). specialize (Hsz c y Hc Hy) as Hcy.
    pose proof (set_size_fmap (λ z, if decide (z = from) then into else z) label y) as Hmap.
    fold (relabel from into label) in Hmap. cbn beta in Hmap. rewrite Hrk'.
    destruct (decide (c = b)) as [->|]; [|lia]. destruct tie; [|lia].
    destruct Hcmp as [Heq Hlb].
    assert (y = into) as ->.
    { apply (partition_labels _ _ b l b b _ _ Hp); auto. by apply top_self. }
    assert (top (parent s) r a) as Hra.
    { destruct Hab as [[Hla _]|[? _]]; [|done]. by destruct Hne; eapply top_det. }
    destruct (partition_labels _ _ _ _ _ _ _ _ Hp Hlb Hra Hl Hr) as [_ Hinv].
    rewrite decide_False by naive_solver. rewrite set_size_merge by naive_solver.
    destruct (lookup_lt_is_Some_2 label a) as [z Hz].
    { rewrite (pt_len _ _ Hp). by eapply lookup_lt_Some. }
    assert (z = from) as ->.
    { apply (partition_labels _ _ a r a a _ _ Hp); auto. by apply top_self. }
    specialize (Hsz a from Ha Hz). rewrite Heq in Hsz.
    rewrite Nat.add_1_r. cbn [Nat.pow]. lia.
Qed.

Lemma ranked_union s label l r into from :
  ranked s label → label !! l = Some into → label !! r = Some from →
  ∃ s', ds_union s l r = Ok (s', bool_decide (into ≠ from)) ∧
    ranked s' (relabel from into label).
Proof.
  intros H Hl Hr. destruct (find_both_spec _ _ _ _ _ _ (rk_part _ _ H) Hl Hr)
    as (s1 & q & a & b & E1 & E2 & Ha & Hb & Hab & Hq & _).
  assert (ranked {| parent := q; rank := rank s |} label) as Hrq.
  { apply lookup_lt_Some in Hl, Hr. assert (ranked s1 label) as H1.
    { eapply ranked_find; [done| |done]. by rewrite <-(pt_len _ _ (rk_part _ _ H)). }
    eapply ranked_find; [done| |done]. by rewrite <-(pt_len _ _ (rk_part _ _ H1)). }
  unfold ds_union. rewrite E1. cbn. rewrite E2. cbn. destruct (decide (a = b)) as [->|Hne].
  - assert (into = from) as -> by naive_solver. rewrite bool_decide_false, relabel_id by tauto.
    eauto.
  - rewrite bool_decide_true by naive_solver.
    pose proof (pt_rank _ _ Hq) as Hrk. cbn in Hrk.
    pose proof (top_lt _ _ _ Ha) as [_ Hal]. pose proof (top_lt _ _ _ Hb) as [_ Hbl].
    destruct (lookup_lt_is_Some_2 (rank s) a) as [ra Hra]; [lia|].
    destruct (lookup_lt_is_Some_2 (rank s) b) as [rb Hrb]; [lia|].
    rewrite (vget_eq _ _ _ Hra), (vget_eq _ _ _ Hrb). cbn.
    assert (∀ i k, rank s !! i = Some k → rk {| parent := q; rank := rank s |} i = k) as Hk.
    { intros i k Hi. unfold rk. cbn. by rewrite Hi. }
    destruct (Nat.compare_spec ra rb) as [->|Hlt|Hgt]; rewrite !vset_lt by lia; cbn;
      eexists; (split; [done|]).
    + rewrite <-(Hk _ _ Hra). apply (ranked_link _ _ l r b a _ _ true Hrq); auto.
      split; [|done]. by rewrite (Hk _ _ Hra), (Hk _ _ Hrb).
    + apply (ranked_link _ _ l r a b _ _ false Hrq); auto.
      by rewrite (Hk _ _ Hra), (Hk _ _ Hrb).
    + apply (ranked_link _ _ l r b a _ _ false Hrq); auto.
      by rewrite (Hk _ _ Hra), (Hk _ _ Hrb).
Qed.

(** Calls that never merge toward the minimum, and calls that never balance. *)
Definition balanced (c : ds_call) : Prop :=
  match c with CallUnionTowardMin _ _ => False | _ => True end.
Definition toward_min (c : ds_call) : Prop :=
  match c with CallUnion _ _ => False | _ => True end.
#[export] Instance balanced_dec c : Decision (balanced c).
Proof. destruct c; apply _. Defined.
#[export] Instance toward_min_dec c : Decision (toward_min c).
Proof. destruct c; apply _. Defined.

(** A forest call keeps a property stronger than [partition] when its
    successful cases do. *)
Lemma refines_strengthen (P : DisjointSet → list nat → Prop) s label c :
  partition s label →
  (∀ s' label' bs, ds_step s c = Ok (s', bs) → naive_step label c = Ok (label', bs) →
    partition s' label' → P s' label') →
  refines P (ds_step s c) (naive_step label c).
Proof.
  intros H HP. pose proof (ds_step_refines s label c H) as Href. unfold refines in *.
  destruct (naive_step label c) as [[label' bs]| |]; [|done..].
  destruct Href as (s' & E & Hs'). eauto.
Qed.

(** What a naive union did when it succeeded. *)
Lemma naive_union_Ok label l r label' b :
  naive_union label l r = Ok (label', b) → ∃ into from,
    label !! l = Some into ∧ label !! r = Some from ∧
    label' = relabel from into label ∧ b = bool_decide (into ≠ from).
Proof.
  unfold naive_union. intros (into & Hl%vget_Ok & E)%res_bind_Ok.
  apply res_bind_Ok in E as (from & Hr%vget_Ok & E). cbn in E. injection E as <- <-. by exists into, from.
Qed.

Lemma ranked_step s label c :
  ranked s label → balanced c → refines ranked (ds_step s c) (naive_step label c).
Proof.
  intros H Hc. apply refines_strengthen; [apply H|]. intros s' label' bs E1 E2 Hp.
  destruct c as [|len|i|l r|l r]; cbn [ds_step naive_step] in *; cbn in Hc.
  - ok_inv. by apply ranked_push.
  - ok_inv. rewrite ds_reset_new. apply ranked_new.
  - apply res_bind_Ok in E1 as ([s1 r] & E1 & ?). apply res_bind_Ok in E2 as (x & Hx%vget_Ok & ?).
    ok_inv. eapply ranked_find; [done| |done].
    rewrite <-(pt_len _ _ (rk_part _ _ H)). by eapply lookup_lt_Some.
  - apply res_bind_Ok in E1 as ([s1 b] & E1 & ?). apply res_bind_Ok in E2 as ([l1 b1] & E2 & ?).
    ok_inv. apply naive_union_Ok in E2 as (into & from & Hl & Hr & -> & ->).
    destruct (ranked_union _ _ _ _ _ _ H Hl Hr) as (s2 & E & ?). congruence.
  - done.
Qed.

(** A forest whose climbs descend: every root is the least of its set. *)
Definition least_first (s : DisjointSet) (label : list nat) : Prop :=
  partition s label ∧ ascends (λ i j, j < i) (parent s).

Lemma least_first_step s label c :
  least_first s label → toward_min c → refines least_first (ds_step s c) (naive_step label c).
Proof.
  intros [H Hd] Hc. apply refines_strengthen; [apply H|]. intros s' label' bs E1 E2 Hp.
  split; [done|]. destruct c as [|len|i|l r|l r]; cbn [ds_step naive_step] in *; cbn in Hc.
  - ok_inv. cbn. intros i j Hi Hij. apply lookup_app_Some in Hi as [Hi|[? Hi]];
      [by apply Hd|]. apply list_lookup_singleton_Some in Hi as [? ?]. lia.
  - ok_inv. rewrite ds_reset_new. cbn. intros i j [-> ?]%lookup_seq. lia.
  - apply res_bind_Ok in E1 as ([s1 r] & E1 & ?). apply res_bind_Ok in E2 as (x & Hx%vget_Ok & ?).
    ok_inv. apply lookup_lt_Some in Hx. rewrite (pt_len _ _ H) in Hx.
    destruct (ds_find_spec s i (pt_forest _ _ H) Hx) as (p & r' & E' & _ & _ & HR).
    rewrite E1 in E'. simplify_eq. apply HR; [intros ???; lia|done].
  - done.
  - apply res_bind_Ok in E1 as ([s1 b] & E1 & ?). apply res_bind_Ok in E2 as ([l1 b1] & E2 & ?).
    ok_inv. apply naive_union_Ok in E2 as (into & from & Hl & Hr & -> & ->).
    destruct (ds_union_toward_min_spec _ _ _ _ _ _ H Hl Hr) as (s2 & E & _ & Hd').
    rewrite E1 in E. simplify_eq. auto.
Qed.

(** ** What a client sees *)

(** The queries answer by one representative per set, itself a member. *)
Definition represents (s : DisjointSet) (label : list nat) : Prop :=
  ds_len s = length label ∧
  ∀ i x, label !! i = Some x → ∃ r,
    ds_root s i = Ok r ∧ (∃ s', ds_find s i = Ok (s', r)) ∧
    ∀ j, ds_root s j = Ok r ↔ label !! j = Some x.

Lemma partition_represents s label : partition s label → represents s label.
Proof.
  intros H. pose proof (pt_len _ _ H) as Hlen. split; [done|]. intros i x Hx.
  pose proof (lookup_lt_Some _ _ _ Hx) as Hi. rewrite Hlen in Hi.
  destruct (ds_find_spec s i (pt_forest _ _ H) Hi) as (q & r & E & Hr & _).
  exists r. rewrite ds_root_Ok by apply H. split; [done|]. split; [eauto|].
  intros j. rewrite ds_root_Ok by apply H. split.
  - intros Hj. rewrite <-Hx. symmetry. by apply (pt_same _ _ H _ _ _ _ Hr Hj).
  - intros Hj. destruct (partition_top _ _ _ _ H Hj) as [q' Hq'].
    replace r with q'; [done|]. apply (pt_same _ _ H _ _ _ _ Hq' Hr). congruence.
Qed.

(** C17: a sequence of pushes, resets, finds and unions of both kinds panics
    exactly when the naive labelling goes out of range; otherwise every union
    reports whether it merged two sets, and afterwards [root] and [find] agree
    on one representative per class of the labelling. *)
Theorem forest_is_the_partition (n : nat) (cs : list ds_call) :
  refines represents (ds_run (ds_new n) cs) (naive_run (seq 0 n) cs).
Proof.
  eapply refines_mono; [apply partition_represents|].
  apply calls_refine; [apply partition_new|]. intros. by apply ds_step_refines.
Qed.

(** When no call balances by rank, the representative of every set is its
    least member. *)
Theorem toward_min_keeps_least (n : nat) (cs : list ds_call) :
  Forall toward_min cs →
  refines (λ s label, ∀ i x, label !! i = Some x → ∃ r, ds_root s i = Ok r ∧
      label !! r = Some x ∧ ∀ j, label !! j = Some x → r ≤ j)
    (ds_run (ds_new n) cs) (naive_run (seq 0 n) cs).
Proof.
  intros Hcs. rewrite Forall_forall in Hcs. eapply refines_mono; cycle 1.
  { apply (calls_refine least_first).
    - split; [apply partition_new|]. cbn. intros i j [-> ?]%lookup_seq. lia.
    - intros. apply least_first_step; auto. }
  intros s label [H Hd] i x Hx. destruct (partition_represents _ _ H) as [_ Hrep].
  destruct (Hrep i x Hx) as (r & Hr & _ & Hcls). exists r. split; [done|].
  pose proof Hr as [k Hk]%ds_root_Ok; [|apply H]. split.
  - apply Hcls. apply ds_root_Ok; [apply H|]. exists 0. constructor. by eapply rooted_root.
  - intros j Hj%Hcls. apply ds_root_Ok in Hj as [k' Hj]; [|apply H].
    destruct (ascends_rooted (λ i j, j < i) _ _ _ _ ltac:(intros ???; lia) Hd Hj); lia.
Qed.

(** Along a climb the rank grows by at least one per step. *)
Lemma climb_rank s k i r :
  ascends (λ i j, rk s i < rk s j) (parent s) → rooted (parent s) k i r → rk s i + k ≤ rk s r.
Proof.
  intros Hup. induction 1 as [|k i j r Hi Hne H IH]; [lia|].
  specialize (Hup i j Hi Hne). cbn in Hup. lia.
Qed.

Lemma filter_positions (label : list nat) x :
  length (filter (λ y, y = x) label) =
  length (filter (λ j, label !! j = Some x) (seq 0 (length label))).
Proof.
  induction label as [|y label IH] using rev_ind; [done|].
  rewrite length_app, seq_app, !filter_app, !length_app, IH. cbn [length seq Nat.add].
  f_equal.
  - f_equal. apply filter_ext_in. intros j Hj%elem_of_seq. rewrite lookup_app_l by lia. done.
  - rewrite !filter_cons, !filter_nil.
    rewrite (list_lookup_middle label [] y) by done.
    destruct (decide (y = x)) as [->|]; destruct (decide _); naive_solver.
Qed.

Lemma set_size_members s label r x :
  partition s label → parent s !! r = Some r → label !! r = Some x →
  set_size label x = length (filter (λ j, ds_root s j = Ok r) (seq 0 (ds_len s))).
Proof.
  intros H Hr Hx. unfold set_size, ds_len. rewrite filter_positions, (pt_len _ _ H). f_equal.
  apply list_filter_iff. intros j.
  destruct (partition_represents _ _ H) as [_ Hrep].
  destruct (Hrep r x Hx) as (r' & Hr' & _ & <-).
  rewrite ds_root_Ok in Hr' by apply H. by rewrite (top_det _ _ _ _ Hr' (top_self _ _ Hr)).
Qed.

(** C18: When no call merges toward the minimum, every climb is at most
    logarithmic: from an element [k] steps below its root, the set holds at
    least [2 ^ k] elements. *)
Theorem balanced_climbs_are_logarithmic (n : nat) (cs : list ds_call) :
  Forall balanced cs →
  refines (λ s label, ∀ k i r, rooted (parent s) k i r →
      2 ^ k ≤ length (filter (λ j, ds_root s j = Ok r) (seq 0 (ds_len s))))
    (ds_run (ds_new n) cs) (naive_run (seq 0 n) cs).
Proof.
  intros Hcs. rewrite Forall_forall in Hcs. eapply refines_mono; cycle 1.
  { apply (calls_refine ranked); [apply ranked_new|].
    intros. apply ranked_step; auto. }
  intros s label H k i r Hk. destruct (H) as [Hp Hup Hsz].
  destruct (lookup_lt_is_Some_2 label r) as [x Hx].
  { rewrite (pt_len _ _ Hp). apply rooted_lt in Hk. lia. }
  pose proof (climb_rank _ _ _ _ Hup Hk). specialize (Hsz r x (rooted_root _ _ _ _ Hk) Hx).
  rewrite (set_size_members _ _ _ _ Hp (rooted_root _ _ _ _ Hk) Hx) in Hsz.
  etrans; [|exact Hsz]. apply Nat.pow_le_mono_r; lia.
Qed.

(** A forest of six elements that sees every kind of call. *)
Definition sample_mixed : list ds_call :=
  [CallUnion 0 1; CallUnionTowardMin 3 2; CallUnion 1 3; CallFind 3; CallUnion 2 0; CallPush;
   CallUnionTowardMin 6 5].
Definition sample_min : list ds_call :=
  [CallUnionTowardMin 5 3; CallUnionTowardMin 3 4; CallFind 5; CallUnionTowardMin 4 1].
Definition sample_balanced : list ds_call :=
  [CallUnion 0 1; CallUnion 2 3; CallUnion 1 3; CallFind 3; CallUnion 4 5].

Lemma sample_mixed_runs :
  ds_run (ds_new 6) sample_mixed =
    Ok ({| parent := [0; 0; 0; 0; 4; 5; 5]; rank := [1; 0; 0; 0; 0; 0; 0] |},
        [true; true; true; false; true]).
Proof. vm_compute. reflexivity. Qed.

Lemma toward_min_keeps_least_witness :
  Forall toward_min sample_min ∧
  ∃ s reports, ds_run (ds_new 6) sample_min = Ok (s, reports) ∧
    reports = [true; true; true] ∧ ∃ r, ds_root s 5 = Ok r ∧ r = 1.
Proof.
  assert (Forall toward_min sample_min) as H by (repeat constructor).
  split; [exact H|].
  destruct (toward_min_keeps_least 6 sample_min H) as (s & E & Hs). exists s, [true; true; true].
  split; [exact E|]. split; [reflexivity|].
  destruct (Hs 5 5 eq_refl) as (r & Hr & Hrx & Hmin). exists r. split; [exact Hr|].
  specialize (Hmin 1 eq_refl). destruct r as [|[|r]]; [discriminate Hrx|reflexivity|lia].
Defined.

Lemma balanced_climbs_are_logarithmic_witness :
  Forall balanced sample_balanced ∧
  ∃ s reports, ds_run (ds_new 6) sample_balanced = Ok (s, reports) ∧
    ∀ k i r, rooted (parent s) k i r →
      2 ^ k ≤ length (filter (λ j, ds_root s j = Ok r) (seq 0 (ds_len s))).
Proof.
  assert (Forall balanced sample_balanced) as H by (repeat constructor).
  split; [exact H|].
  destruct (balanced_climbs_are_logarithmic 6 sample_balanced H) as (s & E & Hs).
  exists s, [true; true; true; true]. split; [exact E|exact Hs].
Defined.
