(* ===== verification/Bits.v ===== *)
(** * Dense bit rows

    Models [dataflow/bits.rs]: [DenseBits], a fixed universe of indices packed
    64 per word, and [WordOnes], the iterator over the set indices of a word
    sequence. The abstract state of a row is its universe and a finite set;
    every operation is shown to be the set operation it stands for. Draining
    the iterator runs on one more step than the row has bits. *)

From S2P Require Import Prelude Words.

(** [bit_slot] *)
Definition bit_slot (index : nat) : nat * N := (index `div` 64, bit_of (index `mod` 64)).

(** [WordOnes]: the words not read yet with the position of the first of them,
    the bits of the word in hand not yielded yet, and its base index. *)
Record WordOnes := mk_ones { wo_pos : nat; wo_words : list N; wo_remaining : N; wo_base : nat }.

(** [WordOnes::new] *)
Definition wo_new (ws : list N) : WordOnes :=
  {| wo_pos := 0; wo_words := ws; wo_remaining := 0; wo_base := 0 |}.

(** The loop of [WordOnes::next] *)
Fixpoint wo_next_loop (pos : nat) (ws : list N) (remaining : N) (base : nat)
    : option nat * WordOnes :=
  if decide (remaining ≠ 0%N) then
    let bit := trailing_zeros remaining in
    (Some (base + bit), mk_ones pos ws (N.land remaining (remaining - 1)) base)
  else
    match ws with
    | [] => (None, mk_ones pos [] remaining base)
    | word :: ws => wo_next_loop (S pos) ws word (pos * 64)
    end.

(** [WordOnes::next] *)
Definition wo_next (it : WordOnes) : option nat * WordOnes :=
  wo_next_loop (wo_pos it) (wo_words it) (wo_remaining it) (wo_base it).

(** Draining the iterator *)
Fixpoint wo_drain (fuel : nat) (it : WordOnes) : res (list nat) :=
  match fuel with
  | 0 => Stuck
  | S fuel =>
      match wo_next it with
      | (None, _) => Ok []
      | (Some i, it) => l ← wo_drain fuel it; mret (i :: l)
      end
  end.
Definition wo_collect (ws : list N) : res (list nat) :=
  wo_drain (S (64 * length ws)) (wo_new ws).

(** [ones_of] *)
Definition ones_of (ws : list N) : res (list nat) := wo_collect ws.

Module DenseBits.

Record t := mk { words : list N; len : nat }.

#[export] Instance t_eq_dec : EqDecision t.
Proof. solve_decision. Defined.

(** [DenseBits::new] *)
Definition new (len : nat) : t := mk (replicate (div_ceil len 64) 0%N) len.

(** [DenseBits::is_empty] *)
Definition is_empty (s : t) : bool := bool_decide (len s = 0).

(** [DenseBits::slot] *)
Definition slot (s : t) (index : nat) : res (nat * N) :=
  _ ← rassert (bool_decide (index < len s)) "index outside universe";
  mret (bit_slot index).

(** [DenseBits::get] *)
Definition get (s : t) (index : nat) : res bool :=
  '(word, bit) ← slot s index;
  w ← vget (words s) word;
  mret (negb (N.land w bit =? 0)%N).

(** [DenseBits::insert] *)
Definition insert (s : t) (index : nat) : res (t * bool) :=
  '(word, bit) ← slot s index;
  w ← vget (words s) word;
  let newly := (N.land w bit =? 0)%N in
  ws ← vset (words s) word (N.lor w bit);
  mret (mk ws (len s), newly).

(** [DenseBits::remove] *)
Definition remove (s : t) (index : nat) : res (t * bool) :=
  '(word, bit) ← slot s index;
  w ← vget (words s) word;
  let was_set := negb (N.land w bit =? 0)%N in
  ws ← vset (words s) word (N.land w (not64 bit));
  mret (mk ws (len s), was_set).

(** The zipped loop of [DenseBits::union_with]: it stops with the shorter row. *)
Fixpoint union_words (ws others : list N) (changed : bool) : list N * bool :=
  match ws, others with
  | word :: ws, other_word :: others =>
      let merged := N.lor word other_word in
      let '(ws, changed) := union_words ws others (changed || bool_decide (merged ≠ word)) in
      (merged :: ws, changed)
  | _, _ => (ws, changed)
  end.

(** [DenseBits::union_with] *)
Definition union_with (s other : t) : res (t * bool) :=
  _ ← rassert (bool_decide (len s = len other)) "unioned sets must share one universe";
  let '(ws, changed) := union_words (words s) (words other) false in
  mret (mk ws (len s), changed).

(** [DenseBits::clear] *)
Definition clear (s : t) : t := mk (replicate (length (words s)) 0%N) (len s).

(** [DenseBits::count_ones] *)
Definition count_ones (s : t) : nat := sum_list (Words.count_ones <$> words s).

(** [DenseBits::ones] *)
Definition ones (s : t) : res (list nat) := ones_of (words s).

(** [DenseBits::intersection] *)
Definition intersection (s other : t) : res (list nat) :=
  _ ← rassert (bool_decide (len s = len other)) "intersected sets must share one universe";
  wo_collect (zip_with N.land (words s) (words other)).

End DenseBits.

(** ** The iterator yields the row in ascending order *)

(** What an iterator has left to yield. *)
Definition wo_rest (it : WordOnes) : list nat :=
  (Nat.add (wo_base it) <$> word_ones (wo_remaining it)) ++
  (Nat.add (64 * wo_pos it) <$> row_ones (wo_words it)).

Definition wo_ok (it : WordOnes) : Prop :=
  is_u64 (wo_remaining it) ∧ Forall is_u64 (wo_words it).

Local Opaque word_ones row_ones.

(** A word in hand with bits left yields the lowest of them. *)
Lemma wo_yield pos ws remaining base :
  is_u64 remaining → Forall is_u64 ws → remaining ≠ 0%N →
  ∃ l, wo_rest (mk_ones pos ws remaining base) = (base + trailing_zeros remaining) :: l ∧
    wo_rest (mk_ones pos ws (N.land remaining (remaining - 1)) base) = l ∧
    wo_ok (mk_ones pos ws (N.land remaining (remaining - 1)) base).
Proof.
  intros Hr Hws Hnz. unfold wo_rest, wo_ok. cbn [wo_base wo_remaining wo_pos wo_words].
  destruct (word_ones remaining) as [|k l] eqn:Hones; [by apply word_ones_nil in Hones|].
  destruct (word_ones_cons _ _ _ Hr Hones) as [-> ->].
  eexists. split; [reflexivity|]. split; [reflexivity|]. split; [by apply is_u64_land|done].
Qed.

(** An exhausted word hands over to the next one. *)
Lemma wo_rest_skip pos w ws base :
  wo_rest (mk_ones pos (w :: ws) 0 base) = wo_rest (mk_ones (S pos) ws w (pos * 64)).
Proof.
  unfold wo_rest. cbn [wo_base wo_remaining wo_pos wo_words].
  rewrite (proj2 (word_ones_nil 0%N ltac:(done))) by done. cbn [fmap list_fmap app].
  rewrite row_ones_cons, fmap_app, <-list_fmap_compose. f_equal.
  - apply list_fmap_ext. intros. lia.
  - apply list_fmap_ext. intros. cbn. lia.
Qed.

Lemma wo_rest_end pos base : wo_rest (mk_ones pos [] 0 base) = [].
Proof.
  unfold wo_rest. cbn [wo_base wo_remaining wo_pos wo_words].
  rewrite (proj2 (word_ones_nil 0%N ltac:(done))), row_ones_nil by done. done.
Qed.

Lemma wo_next_loop_spec pos ws remaining base :
  is_u64 remaining → Forall is_u64 ws →
  match wo_rest (mk_ones pos ws remaining base) with
  | [] => (wo_next_loop pos ws remaining base).1 = None
  | i :: l => ∃ it, wo_next_loop pos ws remaining base = (Some i, it) ∧
      wo_rest it = l ∧ wo_ok it
  end.
Proof.
  revert pos remaining base. induction ws as [|w ws IH]; intros pos remaining base Hr Hws;
    cbn [wo_next_loop]; destruct (decide (remaining ≠ 0%N)) as [Hnz|Hz].
  1, 3: destruct (wo_yield pos _ _ base Hr Hws Hnz) as (l & -> & ? & ?); by eexists.
  all: apply dec_stable in Hz; subst.
  - by rewrite wo_rest_end.
  - inversion Hws; subst. rewrite wo_rest_skip. by apply IH.
Qed.

Lemma wo_next_spec it :
  wo_ok it →
  match wo_rest it with
  | [] => (wo_next it).1 = None
  | i :: l => ∃ it', wo_next it = (Some i, it') ∧ wo_rest it' = l ∧ wo_ok it'
  end.
Proof.
  destruct it as [pos ws remaining base]. intros [Hr Hws]. by apply wo_next_loop_spec.
Qed.

Lemma wo_drain_spec fuel it :
  wo_ok it → length (wo_rest it) < fuel → wo_drain fuel it = Ok (wo_rest it).
Proof.
  revert it. induction fuel as [|fuel IH]; intros it Hok Hf; [lia|]. cbn [wo_drain].
  pose proof (wo_next_spec it Hok) as Hn. destruct (wo_rest it) as [|i l].
  - destruct (wo_next it) as [o it']. cbn in Hn. by subst.
  - destruct Hn as (it' & -> & <- & Hok'). cbn in Hf. rewrite IH by (auto with lia). done.
Qed.

Lemma wo_collect_spec ws : Forall is_u64 ws → wo_collect ws = Ok (row_ones ws).
Proof.
  intros Hws. unfold wo_collect.
  assert (wo_rest (wo_new ws) = row_ones ws) as Hrest.
  { unfold wo_rest, wo_new. cbn [wo_base wo_remaining wo_pos wo_words].
    rewrite (proj2 (word_ones_nil 0%N ltac:(done))) by done. cbn [fmap list_fmap app].
    by apply list_fmap_id. }
  rewrite wo_drain_spec, Hrest; [done|split; done|].
  rewrite Hrest. pose proof (length_row_ones_le ws). lia.
Qed.

#[local] Arguments Nat.div : simpl never.
#[local] Arguments Nat.modulo : simpl never.

(** ** Rows as finite sets *)

Record denotes (s : DenseBits.t) (n : nat) (X : gset nat) : Prop := {
  dn_len : DenseBits.len s = n;
  dn_words : length (DenseBits.words s) = div_ceil n 64;
  dn_u64 : Forall is_u64 (DenseBits.words s);
  dn_mem : ∀ i, i ∈ X ↔ row_mem (DenseBits.words s) i = true;
  dn_bound : ∀ i, i ∈ X → i < n;
}.

Lemma row_mem_zeros k i : row_mem (replicate k 0%N) i = false.
Proof.
  unfold row_mem. destruct (replicate k 0%N !! (i `div` 64)) as [w|] eqn:E; [|done].
  apply lookup_replicate in E as [-> _]. apply N.bits_0.
Qed.

Lemma zeros_u64 k : Forall is_u64 (replicate k 0%N).
Proof. by apply Forall_replicate. Qed.

Lemma denotes_new n : denotes (DenseBits.new n) n ∅.
Proof.
  split; cbn; [done|by rewrite length_replicate|apply zeros_u64| |set_solver].
  intros i. rewrite row_mem_zeros. set_solver.
Qed.

Lemma denotes_clear s n X : denotes s n X → denotes (DenseBits.clear s) n ∅.
Proof.
  intros H. split; cbn; [apply H|rewrite length_replicate; apply H|apply zeros_u64| |set_solver].
  intros i. rewrite row_mem_zeros. set_solver.
Qed.

(** The word an index in the universe falls in. *)
Lemma denotes_word s n X i :
  denotes s n X → i < n →
  ∃ w, DenseBits.words s !! (i `div` 64) = Some w ∧ is_u64 w ∧
    DenseBits.slot s i = Ok (i `div` 64, bit_of (i `mod` 64)).
Proof.
  intros H Hi. destruct (lookup_lt_is_Some_2 (DenseBits.words s) (i `div` 64)) as [w Hw].
  { rewrite (dn_words _ _ _ H). by apply div_ceil_lt. }
  exists w. split; [done|]. split; [by eapply Forall_lookup_1; [apply H|]|].
  unfold DenseBits.slot. rewrite (dn_len _ _ _ H), bool_decide_true by done. done.
Qed.

Lemma slot_out s n X i :
  denotes s n X → ¬ i < n → DenseBits.slot s i = Panic "index outside universe".
Proof.
  intros H Hi. unfold DenseBits.slot. by rewrite (dn_len _ _ _ H), bool_decide_false.
Qed.

Lemma denotes_probe s n X i w :
  denotes s n X → DenseBits.words s !! (i `div` 64) = Some w →
  negb (N.land w (bit_of (i `mod` 64)) =? 0)%N = bool_decide (i ∈ X).
Proof.
  intros H Hw. rewrite (row_mem_probe _ _ _ Hw). apply eq_bool_prop_intro.
  rewrite bool_decide_spec, (dn_mem _ _ _ H). by rewrite Is_true_true.
Qed.

Lemma get_spec s n X i :
  denotes s n X → i < n → DenseBits.get s i = Ok (bool_decide (i ∈ X)).
Proof.
  intros H Hi. destruct (denotes_word _ _ _ _ H Hi) as (w & Hw & _ & Hs).
  unfold DenseBits.get. rewrite Hs. cbn. rewrite (vget_eq _ _ _ Hw). cbn.
  by rewrite (denotes_probe _ _ _ _ _ H Hw).
Qed.

Lemma bits_insert_spec s n X i :
  denotes s n X → i < n →
  ∃ s', DenseBits.insert s i = Ok (s', bool_decide (i ∉ X)) ∧ denotes s' n ({[i]} ∪ X).
Proof.
  intros H Hi. destruct (denotes_word _ _ _ _ H Hi) as (w & Hw & Hw64 & Hs).
  unfold DenseBits.insert. rewrite Hs. cbn. rewrite (vget_eq _ _ _ Hw). cbn.
  rewrite vset_lt by (by eapply lookup_lt_Some). cbn. eexists. split.
  - do 2 f_equal. rewrite <-negb_involutive at 1.
    rewrite (denotes_probe _ _ _ _ _ H Hw). by rewrite bool_decide_not.
  - split; cbn; [apply H|rewrite length_insert; apply H| | |].
    + apply Forall_insert; [apply H|]. apply is_u64_lor; [done|].
      apply is_u64_bit_of, mod64_lt.
    + intros j. rewrite (row_mem_set _ _ _ _ Hw), elem_of_union, elem_of_singleton.
      rewrite (dn_mem _ _ _ H), orb_true_iff, bool_decide_eq_true. naive_solver.
    + intros j [->%elem_of_singleton|Hj]%elem_of_union; [done|]. by eapply dn_bound.
Qed.

Lemma remove_spec s n X i :
  denotes s n X → i < n →
  ∃ s', DenseBits.remove s i = Ok (s', bool_decide (i ∈ X)) ∧ denotes s' n (X ∖ {[i]}).
Proof.
  intros H Hi. destruct (denotes_word _ _ _ _ H Hi) as (w & Hw & Hw64 & Hs).
  unfold DenseBits.remove. rewrite Hs. cbn. rewrite (vget_eq _ _ _ Hw). cbn.
  rewrite vset_lt by (by eapply lookup_lt_Some). cbn. eexists. split.
  - do 2 f_equal. by rewrite (denotes_probe _ _ _ _ _ H Hw).
  - split; cbn; [apply H|rewrite length_insert; apply H| | |].
    + apply Forall_insert; [apply H|]. by apply is_u64_land.
    + intros j. rewrite (row_mem_clear _ _ _ _ Hw), elem_of_difference, elem_of_singleton.
      rewrite (dn_mem _ _ _ H), andb_true_iff, negb_true_iff, bool_decide_eq_false. naive_solver.
    + intros j [Hj _]%elem_of_difference. by eapply dn_bound.
Qed.

(** ** Unions *)

Lemma union_words_spec ws others c :
  length ws = length others →
  DenseBits.union_words ws others c =
    (zip_with N.lor ws others, c || bool_decide (zip_with N.lor ws others ≠ ws)).
Proof.
  revert others c. induction ws as [|w ws IH]; intros [|o others] c Hlen;
    try discriminate; cbn [DenseBits.union_words].
  - cbn. by rewrite orb_false_r.
  - rewrite IH by (cbn in Hlen; lia). cbn [zip_with]. f_equal.
    rewrite <-orb_assoc. f_equal. apply eq_bool_prop_intro.
    rewrite orb_True, !bool_decide_spec.
    split; [intros [?|?] [= ??]; done|]. intros Hne.
    destruct (decide (N.lor w o = w)); [right|by left]. congruence.
Qed.

Lemma row_mem_zip (f : N → N → N) (g : bool → bool → bool) ws others i :
  length ws = length others → g false false = false →
  (∀ a b j, N.testbit (f a b) j = g (N.testbit a j) (N.testbit b j)) →
  row_mem (zip_with f ws others) i = g (row_mem ws i) (row_mem others i).
Proof.
  intros Hlen Hg Hf. unfold row_mem. rewrite lookup_zip_with.
  destruct (ws !! (i `div` 64)) as [w|] eqn:Ew; cbn.
  - destruct (lookup_lt_is_Some_2 others (i `div` 64)) as [o ->].
    { rewrite <-Hlen. by eapply lookup_lt_Some. }
    cbn. apply Hf.
  - rewrite lookup_ge_None_2; [done|]. rewrite <-Hlen. by apply lookup_ge_None.
Qed.

Lemma zip_u64 (f : N → N → N) ws others :
  (∀ a b, is_u64 a → is_u64 b → is_u64 (f a b)) →
  Forall is_u64 ws → Forall is_u64 others → Forall is_u64 (zip_with f ws others).
Proof.
  intros Hf. revert others. induction ws as [|w ws IH]; intros [|o others] Hw Ho; cbn;
    constructor; inversion Hw; inversion Ho; auto.
Qed.

Lemma denotes_inj s s' n X Y :
  denotes s n X → denotes s' n Y → s = s' ↔ X = Y.
Proof.
  intros H H'. split.
  - intros <-. apply set_eq. intros i. by rewrite (dn_mem _ _ _ H), (dn_mem _ _ _ H').
  - intros <-. destruct s as [ws l], s' as [ws' l'].
    pose proof (dn_len _ _ _ H). pose proof (dn_len _ _ _ H'). cbn in *. subst. f_equal.
    apply row_ext; [|apply H|apply H'|].
    + pose proof (dn_words _ _ _ H). pose proof (dn_words _ _ _ H'). cbn in *. congruence.
    + intros i. apply eq_bool_prop_intro. rewrite !Is_true_true.
      rewrite <-(dn_mem _ _ _ H i), <-(dn_mem _ _ _ H' i). done.
Qed.

Lemma union_with_spec s o n X Y :
  denotes s n X → denotes o n Y →
  ∃ s', DenseBits.union_with s o = Ok (s', bool_decide (¬ Y ⊆ X)) ∧ denotes s' n (X ∪ Y).
Proof.
  intros H H'. unfold DenseBits.union_with.
  rewrite (dn_len _ _ _ H), (dn_len _ _ _ H'), bool_decide_true by done. cbn.
  assert (length (DenseBits.words s) = length (DenseBits.words o)) as Hlen.
  { rewrite (dn_words _ _ _ H), (dn_words _ _ _ H'). done. }
  rewrite union_words_spec by done. cbn.
  assert (denotes (DenseBits.mk (zip_with N.lor (DenseBits.words s) (DenseBits.words o)) n)
    n (X ∪ Y)) as HU.
  { split; cbn; [done| | | |].
    - rewrite length_zip_with, <-Hlen, (dn_words _ _ _ H). lia.
    - apply zip_u64; [apply is_u64_lor|apply H|apply H'].
    - intros i. rewrite (row_mem_zip _ orb) by (done || (intros; apply N.lor_spec)).
      rewrite elem_of_union, (dn_mem _ _ _ H), (dn_mem _ _ _ H'), orb_true_iff. done.
    - intros i [?|?]%elem_of_union; by eauto using dn_bound. }
  eexists. split; [|done]. do 2 f_equal. apply bool_decide_ext.
  pose proof (denotes_inj _ _ _ _ _ HU H) as Heq.
  assert (DenseBits.mk (zip_with N.lor (DenseBits.words s) (DenseBits.words o)) n = s ↔
    zip_with N.lor (DenseBits.words s) (DenseBits.words o) = DenseBits.words s) as Hrow.
  { pose proof (dn_len _ _ _ H). destruct s as [ws l]. cbn in *. subst. split; congruence. }
  rewrite <-Hrow, Heq. set_solver.
Qed.

(** ** Queries *)

(** An ascending list of the members of a set. *)
Definition ascending_of (l : list nat) (X : gset nat) : Prop :=
  StronglySorted lt l ∧ ∀ i, i ∈ l ↔ i ∈ X.

Lemma row_ones_ascending ws X :
  (∀ i, i ∈ X ↔ row_mem ws i = true) → ascending_of (row_ones ws) X.
Proof.
  intros H. split; [|intros i; by rewrite elem_of_row_ones, H].
  Local Transparent row_ones. apply StronglySorted_filter, seq_ascending.
  Local Opaque row_ones.
Qed.

Lemma ones_spec s n X :
  denotes s n X → ∃ l, DenseBits.ones s = Ok l ∧ ascending_of l X ∧
    DenseBits.count_ones s = length l.
Proof.
  intros H. exists (row_ones (DenseBits.words s)). unfold DenseBits.ones, ones_of.
  rewrite wo_collect_spec by apply H. split; [done|]. split; [apply row_ones_ascending, H|].
  unfold DenseBits.count_ones. by rewrite length_row_ones.
Qed.

Lemma intersection_spec s o n X Y :
  denotes s n X → denotes o n Y →
  ∃ l, DenseBits.intersection s o = Ok l ∧ ascending_of l (X ∩ Y).
Proof.
  intros H H'. unfold DenseBits.intersection.
  rewrite (dn_len _ _ _ H), (dn_len _ _ _ H'), bool_decide_true by done.
  cbn [rassert mbind res_bind]. rewrite wo_collect_spec.
  - eexists. split; [done|]. apply row_ones_ascending. intros i.
    rewrite (row_mem_zip _ andb); [|by rewrite (dn_words _ _ _ H), (dn_words _ _ _ H')|done|].
    + rewrite elem_of_intersection, (dn_mem _ _ _ H), (dn_mem _ _ _ H'), andb_true_iff. done.
    + intros. apply N.land_spec.
  - apply zip_u64; [|apply H|apply H']. intros. by apply is_u64_land.
Qed.

(** ** Histories of rows

    A client owns several rows and names them by position; [new] adds one. *)
Inductive row_call :=
  | CallNew (len : nat)
  | CallInsert (row index : nat)
  | CallRemove (row index : nat)
  | CallUnionWith (row other : nat)
  | CallClear (row : nat).

Definition row_step (rows : list DenseBits.t) (c : row_call) : res (list DenseBits.t * list bool) :=
  match c with
  | CallNew len => mret (rows ++ [DenseBits.new len], [])
  | CallInsert row i =>
      s ← vget rows row; '(s, b) ← DenseBits.insert s i; mret (<[row := s]> rows, [b])
  | CallRemove row i =>
      s ← vget rows row; '(s, b) ← DenseBits.remove s i; mret (<[row := s]> rows, [b])
  | CallUnionWith row other =>
      s ← vget rows row; o ← vget rows other;
      '(s, b) ← DenseBits.union_with s o; mret (<[row := s]> rows, [b])
  | CallClear row => s ← vget rows row; mret (<[row := DenseBits.clear s]> rows, [])
  end.

(** The same calls on universes and finite sets. *)
Definition set_step (sets : list (nat * gset nat)) (c : row_call)
    : res (list (nat * gset nat) * list bool) :=
  match c with
  | CallNew len => mret (sets ++ [(len, ∅)], [])
  | CallInsert row i =>
      '(n, X) ← vget sets row;
      if decide (i < n) then mret (<[row := (n, {[i]} ∪ X)]> sets, [bool_decide (i ∉ X)])
      else Panic "index outside universe"
  | CallRemove row i =>
      '(n, X) ← vget sets row;
      if decide (i < n) then mret (<[row := (n, X ∖ {[i]})]> sets, [bool_decide (i ∈ X)])
      else Panic "index outside universe"
  | CallUnionWith row other =>
      '(n, X) ← vget sets row; '(m, Y) ← vget sets other;
      if decide (n = m) then mret (<[row := (n, X ∪ Y)]> sets, [bool_decide (¬ Y ⊆ X)])
      else Panic "unioned sets must share one universe"
  | CallClear row => '(n, X) ← vget sets row; mret (<[row := (n, ∅)]> sets, [])
  end.

Definition row_run : list row_call → res (list DenseBits.t * list bool) :=
  run_calls row_step [].
Definition set_run : list row_call → res (list (nat * gset nat) * list bool) :=
  run_calls set_step [].

Definition row_is (s : DenseBits.t) (nX : nat * gset nat) : Prop := denotes s nX.1 nX.2.

Lemma row_get rows sets k :
  Forall2 row_is rows sets →
  (∃ s n X, vget rows k = Ok s ∧ vget sets k = Ok (n, X) ∧ denotes s n X) ∨
  (vget rows k = Panic "index out of bounds" ∧ vget sets k = Panic "index out of bounds").
Proof.
  intros H. unfold vget. destruct (rows !! k) as [s|] eqn:E.
  - destruct (Forall2_lookup_l _ _ _ _ _ H E) as ([n X] & -> & Hs). left. by exists s, n, X.
  - right. apply lookup_ge_None in E. rewrite (Forall2_length _ _ _ H) in E.
    rewrite (proj2 (lookup_ge_None sets k) E). done.
Qed.

Lemma row_step_refines rows sets c :
  Forall2 row_is rows sets →
  refines (Forall2 row_is) (row_step rows c) (set_step sets c).
Proof.
  intros H. destruct c as [len|k i|k i|k o|k]; cbn [row_step set_step].
  - cbn. eexists. split; [done|]. apply Forall2_app; [done|]. repeat constructor; apply denotes_new.
  - destruct (row_get _ _ k H) as [(s & n & X & -> & -> & Hs)|[-> ->]]; [|done]. cbn.
    destruct (decide (i < n)) as [Hi|Hi].
    + destruct (bits_insert_spec _ _ _ _ Hs Hi) as (s' & -> & ?). cbn.
      eexists. split; [done|]. by apply Forall2_insert.
    + unfold DenseBits.insert. by rewrite (slot_out _ _ _ _ Hs Hi).
  - destruct (row_get _ _ k H) as [(s & n & X & -> & -> & Hs)|[-> ->]]; [|done]. cbn.
    destruct (decide (i < n)) as [Hi|Hi].
    + destruct (remove_spec _ _ _ _ Hs Hi) as (s' & -> & ?). cbn.
      eexists. split; [done|]. by apply Forall2_insert.
    + unfold DenseBits.remove. by rewrite (slot_out _ _ _ _ Hs Hi).
  - destruct (row_get _ _ k H) as [(s & n & X & -> & -> & Hs)|[-> ->]]; [|done]. cbn.
    destruct (row_get _ _ o H) as [(s2 & n2 & Y & -> & -> & Ho)|[-> ->]]; [|done]. cbn.
    destruct (decide (n = n2)) as [<-|Hne].
    + destruct (union_with_spec _ _ _ _ _ Hs Ho) as (s' & -> & ?). cbn.
      eexists. split; [done|]. by apply Forall2_insert.
    + unfold DenseBits.union_with.
      by rewrite (dn_len _ _ _ Hs), (dn_len _ _ _ Ho), bool_decide_false.
  - destruct (row_get _ _ k H) as [(s & n & X & -> & -> & Hs)|[-> ->]]; [|done]. cbn.
    eexists. split; [done|]. apply Forall2_insert; [done|]. by eapply denotes_clear.
Qed.

(** What a client reads of two rows over one universe: membership, the
    population, the ascending listings, and equality as sets. *)
Record row_answers (s : DenseBits.t) (n : nat) (X : gset nat) : Prop := {
  ra_len : DenseBits.len s = n;
  ra_get : ∀ i, DenseBits.get s i =
    if decide (i < n) then Ok (bool_decide (i ∈ X)) else Panic "index outside universe";
  ra_ones : ∃ l, DenseBits.ones s = Ok l ∧ ascending_of l X ∧ DenseBits.count_ones s = length l;
}.

Lemma denotes_answers s n X : denotes s n X → row_answers s n X.
Proof.
  intros H. split; [apply H| |by eapply ones_spec]. intros i.
  destruct (decide (i < n)) as [Hi|Hi]; [by eapply get_spec|].
  unfold DenseBits.get. by rewrite (slot_out _ _ _ _ H Hi).
Qed.

(** C40: every history of calls on bit rows reports and panics as the finite
    sets over the same universes do; afterwards membership, population and the
    ascending listing of each row are those of its set, the intersection of
    two rows over one universe lists the intersection, and two such rows are
    equal exactly when their sets are. *)
Theorem rows_are_sets (cs : list row_call) :
  refines (λ rows sets,
      Forall2 (λ s nX, row_answers s nX.1 nX.2) rows sets ∧
      ∀ j k s o n X Y, rows !! j = Some s → sets !! j = Some (n, X) →
        rows !! k = Some o → sets !! k = Some (n, Y) →
        (s = o ↔ X = Y) ∧ ∃ l, DenseBits.intersection s o = Ok l ∧ ascending_of l (X ∩ Y))
    (row_run cs) (set_run cs).
Proof.
  eapply refines_mono; cycle 1.
  { apply (calls_refine (Forall2 row_is)); [constructor|]. intros. by apply row_step_refines. }
  intros rows sets H. split.
  - eapply Forall2_impl; [exact H|]. intros s [n X]. apply denotes_answers.
  - intros j k s o n X Y Hs HX Ho HY.
    pose proof (Forall2_lookup_lr _ _ _ _ _ _ H Hs HX) as Hd.
    pose proof (Forall2_lookup_lr _ _ _ _ _ _ H Ho HY) as Hd'. unfold row_is in *. cbn in *.
    split; [by apply (denotes_inj _ _ n)|by eapply intersection_spec].
Qed.

(** Two rows of 130 indices; the second union changes nothing. *)
Definition sample_rows : list row_call :=
  [CallNew 130; CallInsert 0 0; CallInsert 0 129; CallNew 130; CallUnionWith 1 0;
   CallUnionWith 1 0; CallRemove 0 0; CallInsert 0 64].
Lemma sample_rows_run :
  ∃ s o reports, row_run sample_rows = Ok ([s; o], reports) ∧
    reports = [true; true; true; false; true; true] ∧
    DenseBits.ones o = Ok [0; 129] ∧ DenseBits.intersection s o = Ok [129].
Proof. do 3 eexists. split; [vm_compute; reflexivity|]. vm_compute. done. Qed.
