(* ===== verification/Worklist.v ===== *)
(** * The solvers' worklist

    Models [dataflow/worklist.rs]: a deduplicating queue of dense node indices
    kept as a bit row with a cursor below which no word holds a queued index.
    The abstract state is the finite set of queued indices, and popping takes
    its least element. The cursor's scan runs on one more step than the row
    has words. *)

From S2P Require Import Prelude Words Ids View Bits.

Module Worklist.

Record t := mk { queued : DenseBits.t; cursor : nat }.

(** [Worklist::new] *)
Definition new (bound : nat) : t := mk (DenseBits.new bound) 0.

(** [Worklist::insert] *)
Definition insert (w : t) (index : nat) : res t :=
  let w := mk (queued w) (cursor w `min` (bit_slot index).1) in
  '(q, _) ← DenseBits.insert (queued w) index;
  mret (mk q (cursor w)).

(** [Worklist::of] *)
Definition of_indices (bound : nat) (indices : list nat) : res t :=
  rfold insert (new bound) indices.

(** The scan of [Worklist::pop_first] *)
Fixpoint pop_loop (fuel : nat) (w : t) : res (t * option nat) :=
  match fuel with
  | 0 => Stuck
  | S fuel =>
      match DenseBits.words (queued w) !! cursor w with
      | None => mret (w, None)
      | Some word =>
          if decide (word ≠ 0%N) then
            let index := cursor w * 64 + trailing_zeros word in
            '(q, _) ← DenseBits.remove (queued w) index;
            mret (mk q (cursor w), Some index)
          else pop_loop fuel (mk (queued w) (cursor w + 1))
      end
  end.

(** [Worklist::pop_first] *)
Definition pop_first (w : t) : res (t * option nat) :=
  pop_loop (S (length (DenseBits.words (queued w)))) w.

Section OverViews.
Context {G : Type} {HG : GraphView G}.

(** [Worklist::live] *)
Definition live (g : G) : res t :=
  ids ← gv_node_ids g; of_indices (gv_node_bound g) (index <$> ids).

(** The lazily mapped seeds of [Worklist::seeded]: each is checked, then
    queued, before the next is looked at. *)
Definition seed_step (bound : nat) (live : t) (w : t) (seed : Id) : res t :=
  let i := index seed in
  inside ← (if decide (i < bound) then DenseBits.get (queued live) i else mret false);
  _ ← rassert inside "seed node is out of range";
  insert w i.

(** [Worklist::seeded] *)
Definition seeded (g : G) (seeds : list Id) : res t :=
  let bound := gv_node_bound g in
  match seeds with
  | [] => mret (new bound)
  | _ => live ← live g; rfold (seed_step bound live) (new bound) seeds
  end.

End OverViews.
End Worklist.

(** ** Queues as finite sets *)

(** The queue holds [X], and no word below the cursor holds any of it. *)
Record queue_is (w : Worklist.t) (n : nat) (X : gset nat) : Prop := {
  qi_row : denotes (Worklist.queued w) n X;
  qi_cursor : ∀ i, i ∈ X → Worklist.cursor w ≤ i `div` 64;
}.

Lemma queue_new n : queue_is (Worklist.new n) n ∅.
Proof. split; [apply denotes_new|set_solver]. Qed.

Lemma queue_insert w n X i :
  queue_is w n X → i < n → ∃ w', Worklist.insert w i = Ok w' ∧ queue_is w' n ({[i]} ∪ X).
Proof.
  intros [Hr Hc] Hi. destruct (bits_insert_spec _ _ _ _ Hr Hi) as (q & E & Hq).
  unfold Worklist.insert. cbn [Worklist.queued Worklist.cursor]. rewrite E.
  eexists. split; [reflexivity|]. split; [done|]. cbn [Worklist.cursor bit_slot fst].
  intros j [->%elem_of_singleton|Hj]%elem_of_union; [lia|]. specialize (Hc j Hj). lia.
Qed.

Lemma queue_insert_out w n X i :
  queue_is w n X → ¬ i < n → Worklist.insert w i = Panic "index outside universe".
Proof.
  intros [Hr Hc] Hi. unfold Worklist.insert, DenseBits.insert. cbn [Worklist.queued].
  by rewrite (slot_out _ _ _ _ Hr Hi).
Qed.

Lemma queue_of n l :
  Forall (λ i, i < n) l →
  ∃ w, Worklist.of_indices n l = Ok w ∧ queue_is w n (list_to_set l).
Proof.
  intros Hl. unfold Worklist.of_indices.
  destruct (rfold_inv (λ dn w, queue_is w n (list_to_set dn)) Worklist.insert
    (Worklist.new n) l) as (w & E & H).
  - apply queue_new.
  - intros dn i w [rest ->] Hw. rewrite !Forall_app, Forall_singleton in Hl.
    destruct (queue_insert w n (list_to_set dn) i Hw) as (w' & E & H'); [naive_solver|].
    exists w'. split; [done|]. rewrite list_to_set_app_L. cbn.
    by replace (list_to_set dn ∪ ({[i]} ∪ ∅)) with ({[i]} ∪ list_to_set dn :> gset nat)
      by set_solver.
  - eauto.
Qed.

(** The least element of a set, when there is one. *)
Definition least (X : gset nat) (o : option nat) : Prop :=
  match o with
  | None => X = ∅
  | Some i => i ∈ X ∧ ∀ j, j ∈ X → i ≤ j
  end.

(** What the set loses when its least element is popped. *)
Definition without (X : gset nat) (o : option nat) : gset nat :=
  match o with None => X | Some i => X ∖ {[i]} end.

Lemma word_least w k l j :
  word_ones w = k :: l → j < 64 → N.testbit w (N.of_nat j) = true → k ≤ j.
Proof.
  unfold word_ones. intros (_ & _ & Hlow & _)%filter_seq_cons Hj Hb.
  destruct (decide (k ≤ j)); [done|]. destruct (Hlow j); [lia|done].
Qed.

(** The lowest bit of the first non-zero word is the least element. *)
Lemma queue_least w n X word :
  queue_is w n X → DenseBits.words (Worklist.queued w) !! Worklist.cursor w = Some word →
  word ≠ 0%N → least X (Some (Worklist.cursor w * 64 + trailing_zeros word)).
Proof.
  intros [Hr Hc] Hw Hnz.
  assert (is_u64 word) as H64 by (eapply Forall_lookup_1; [apply Hr|done]).
  destruct (word_ones word) as [|k l] eqn:Hones; [by apply word_ones_nil in Hones|].
  destruct (word_ones_cons _ _ _ H64 Hones) as [-> _].
  assert (k ∈ word_ones word) as [Hk Hbit]%elem_of_word_ones by (rewrite Hones; left).
  set (c := Worklist.cursor w) in *.
  assert ((c * 64 + k) `div` 64 = c ∧ (c * 64 + k) `mod` 64 = k) as [Hd Hm].
  { rewrite Nat.div_add_l, Nat.div_small by lia. split; [lia|].
    rewrite Nat.add_comm, Nat.Div0.mod_add, Nat.mod_small by lia. done. }
  split.
  - apply (dn_mem _ _ _ Hr). unfold row_mem. by rewrite Hd, Hm, Hw.
  - intros j Hj. specialize (Hc j Hj). pose proof (Nat.div_mod_eq j 64) as Hjd.
    destruct (decide (j `div` 64 = c)) as [He|He]; [|lia].
    apply (dn_mem _ _ _ Hr) in Hj. unfold row_mem in Hj. rewrite He, Hw in Hj.
    pose proof (word_least _ _ _ _ Hones (mod64_lt j) Hj). lia.
Qed.

Lemma pop_loop_spec fuel w n X :
  queue_is w n X →
  length (DenseBits.words (Worklist.queued w)) < fuel + Worklist.cursor w →
  fuel ≠ 0 →
  ∃ w' o, Worklist.pop_loop fuel w = Ok (w', o) ∧ least X o ∧ queue_is w' n (without X o).
Proof.
  revert w. induction fuel as [|fuel IH]; intros w Hq Hf Hnz; [done|]. clear Hnz.
  destruct (Hq) as [Hr Hc]. cbn [Worklist.pop_loop].
  destruct (DenseBits.words (Worklist.queued w) !! Worklist.cursor w) as [word|] eqn:Hw.
  - destruct (decide (word ≠ 0%N)) as [Hne|Hz].
    + pose proof (queue_least _ _ _ _ Hq Hw Hne) as Hleast. destruct (Hleast) as [Hin _].
      destruct (remove_spec _ _ _ _ Hr (dn_bound _ _ _ Hr _ Hin)) as (q & E & Hq').
      rewrite E. eexists _, _. split; [reflexivity|]. split; [done|]. split; [done|].
      cbn [Worklist.cursor without]. intros j [Hj _]%elem_of_difference. by apply Hc.
    + apply dec_stable in Hz. subst. pose proof (lookup_lt_Some _ _ _ Hw).
      apply IH; cbn [Worklist.queued Worklist.cursor]; [|lia..]. split; [done|].
      cbn [Worklist.cursor]. intros j Hj. specialize (Hc j Hj).
      destruct (decide (j `div` 64 = Worklist.cursor w)) as [He|]; [|lia].
      apply (dn_mem _ _ _ Hr) in Hj. unfold row_mem in Hj. rewrite He, Hw, N.bits_0 in Hj. done.
  - exists w, None. split; [done|]. split; [|done]. cbn. apply set_eq. intros i.
    split; [|set_solver]. intros Hi. exfalso. specialize (Hc i Hi).
    apply (dn_bound _ _ _ Hr), div_ceil_lt in Hi.
    rewrite <-(dn_words _ _ _ Hr) in Hi. apply lookup_ge_None in Hw. lia.
Qed.

(** [pop_first] always returns: the least queued index, or [None] from an
    empty queue. *)
Lemma pop_first_spec w n X :
  queue_is w n X →
  ∃ w' o, Worklist.pop_first w = Ok (w', o) ∧ least X o ∧ queue_is w' n (without X o).
Proof. intros Hq. apply pop_loop_spec; [done|lia|done]. Qed.

(** ** Histories *)

Inductive queue_call := CallInsertIndex (index : nat) | CallPopFirst.

Definition wl_step (w : Worklist.t) (c : queue_call) : res (Worklist.t * list (option nat)) :=
  match c with
  | CallInsertIndex i => w ← Worklist.insert w i; mret (w, [])
  | CallPopFirst => '(w, o) ← Worklist.pop_first w; mret (w, [o])
  end.

(** The same calls on a universe and a finite set. *)
Definition least_of (n : nat) (X : gset nat) : option nat :=
  head (filter (λ i, i ∈ X) (seq 0 n)).
Definition queue_step (q : nat * gset nat) (c : queue_call)
    : res (nat * gset nat * list (option nat)) :=
  let '(n, X) := q in
  match c with
  | CallInsertIndex i =>
      if decide (i < n) then mret (n, {[i]} ∪ X, []) else Panic "index outside universe"
  | CallPopFirst => let o := least_of n X in mret (n, without X o, [o])
  end.

Lemma least_unique X o1 o2 : least X o1 → least X o2 → o1 = o2.
Proof.
  destruct o1 as [i|], o2 as [j|]; cbn; try set_solver.
  intros [Hi Hil] [Hj Hjl]. f_equal. specialize (Hil j Hj). specialize (Hjl i Hi). lia.
Qed.

Lemma least_of_least n X : (∀ i, i ∈ X → i < n) → least X (least_of n X).
Proof.
  intros Hb. unfold least_of. destruct (filter _ (seq 0 n)) as [|k l] eqn:E; cbn.
  - apply set_eq. intros i. split; [|set_solver]. intros Hi.
    assert (i ∈ filter (λ i, i ∈ X) (seq 0 n)) as H; [|rewrite E in H; set_solver].
    apply list_elem_of_filter. split; [done|]. apply elem_of_seq. specialize (Hb i Hi). lia.
  - apply filter_seq_cons in E as (_ & Hk & Hlow & _). split; [done|]. intros j Hj.
    destruct (decide (k ≤ j)); [done|]. destruct (Hlow j); [lia|done].
Qed.

Lemma wl_step_refines w q c :
  queue_is w q.1 q.2 →
  refines (λ w q, queue_is w q.1 q.2) (wl_step w c) (queue_step q c).
Proof.
  destruct q as [n X]. cbn [fst snd]. intros Hq.
  destruct c as [i|]; cbn [wl_step queue_step].
  - destruct (decide (i < n)) as [Hi|Hi].
    + destruct (queue_insert _ _ _ _ Hq Hi) as (w' & -> & Hw'). cbn. eauto.
    + by rewrite (queue_insert_out _ _ _ _ Hq Hi).
  - destruct (pop_first_spec _ _ _ Hq) as (w' & o & -> & Hl & Hw').
    rewrite (least_unique _ _ _ (least_of_least n X (dn_bound _ _ _ (qi_row _ _ _ Hq))) Hl).
    cbn. eauto.
Qed.

(** A worklist over [0..n] behaves as a set of indices served least first:
    after any sequence of insertions and pops, every pop returned the least
    queued index, or [None] when nothing was queued, and an insertion panics
    exactly when its index is outside the universe. *)
Theorem worklist_serves_least (n : nat) (cs : list queue_call) :
  refines (λ w q, ∃ w', Worklist.pop_first w = Ok (w', least_of q.1 q.2))
    (run_calls wl_step (Worklist.new n) cs) (run_calls queue_step (n, ∅) cs).
Proof.
  eapply refines_mono; cycle 1.
  { apply (calls_refine (λ w q, queue_is w q.1 q.2)); [apply queue_new|].
    intros. by apply wl_step_refines. }
  intros w q Hq. destruct (pop_first_spec _ _ _ Hq) as (w' & o & -> & Hl & _). exists w'.
  by rewrite (least_unique _ _ _ (least_of_least _ _ (dn_bound _ _ _ (qi_row _ _ _ Hq))) Hl).
Qed.

(** ** Worklists over a view *)

(** Popping until the queue is empty. *)
Fixpoint wl_drain (fuel : nat) (w : Worklist.t) : res (list nat) :=
  match fuel with
  | 0 => Stuck
  | S fuel =>
      '(w, o) ← Worklist.pop_first w;
      match o with
      | None => Ok []
      | Some i => l ← wl_drain fuel w; mret (i :: l)
      end
  end.

Lemma wl_drain_spec fuel w n X :
  queue_is w n X → size X < fuel → ∃ l, wl_drain fuel w = Ok l ∧ ascending_of l X.
Proof.
  revert w X. induction fuel as [|fuel IH]; intros w X Hq Hf; [lia|]. cbn [wl_drain].
  destruct (pop_first_spec _ _ _ Hq) as (w' & o & -> & Hl & Hw').
  cbn [mbind res_bind]. destruct o as [i|]; cbn [least without] in *.
  - destruct Hl as [Hi Hleast].
    destruct (IH w' (X ∖ {[i]}) Hw') as (l & -> & Hs & Hmem).
    { rewrite size_difference by set_solver. rewrite size_singleton.
      assert (size X ≠ 0) by (intros ?%size_empty_inv; set_solver). lia. }
    eexists. split; [reflexivity|]. split.
    + constructor; [done|]. apply Forall_forall. intros j [Hj Hji]%Hmem%elem_of_difference.
      specialize (Hleast j Hj). assert (i ≠ j) by set_solver. lia.
    + intros j. rewrite elem_of_cons, Hmem. destruct (decide (j = i)); set_solver.
  - subst. exists []. split; [done|]. split; [constructor|set_solver].
Qed.

Lemma queue_size w n X : queue_is w n X → size X ≤ n.
Proof.
  intros [Hr _]. replace n with (size (set_seq 0 n : gset nat)) by apply size_set_seq.
  apply subseteq_size. intros i Hi. apply elem_of_set_seq. apply (dn_bound _ _ _ Hr) in Hi. lia.
Qed.

Lemma StronglySorted_lt_NoDup (l : list nat) : StronglySorted lt l → NoDup l.
Proof.
  induction 1 as [|x l Hl IH Hx]; constructor; [|done]. intros Hin.
  rewrite Forall_forall in Hx. specialize (Hx x Hin). lia.
Qed.

Section Seeds.
Context {G : Type} {HG : GraphView G} (g : G) (s : shape) (HV : Views g s).

Lemma node_indices_bound : Forall (λ i, i < sh_bound s) (index <$> sh_nodes s).
Proof.
  apply Forall_fmap, Forall_forall. intros n Hn. by apply (so_bound _ (vw_ok (g := g))).
Qed.

Lemma live_spec :
  ∃ w, Worklist.live g = Ok w ∧ queue_is w (sh_bound s) (list_to_set (index <$> sh_nodes s)).
Proof.
  unfold Worklist.live. rewrite vw_nodes. cbn [mbind res_bind]. rewrite vw_bound.
  apply queue_of, node_indices_bound.
Qed.


Lemma live_index n :
  index n ∈ (list_to_set (index <$> sh_nodes s) : gset nat) ↔ n ∈ sh_nodes s.
Proof.
  rewrite elem_of_list_to_set, list_elem_of_fmap. split.
  - by intros (m & ->%index_inj & ?).
  - intros ?. by exists n.
Qed.

Lemma seed_step_spec live w seed X :
  queue_is live (sh_bound s) (list_to_set (index <$> sh_nodes s)) →
  queue_is w (sh_bound s) X →
  (seed ∈ sh_nodes s → ∃ w', Worklist.seed_step (sh_bound s) live w seed = Ok w' ∧
    queue_is w' (sh_bound s) ({[index seed]} ∪ X)) ∧
  (seed ∉ sh_nodes s →
    Worklist.seed_step (sh_bound s) live w seed = Panic "seed node is out of range").
Proof.
  intros Hlive Hw. unfold Worklist.seed_step. split; intros Hseed.
  - assert (index seed < sh_bound s) as Hlt by (by apply (so_bound _ (vw_ok (g := g)))).
    rewrite decide_True, (get_spec _ _ _ _ (qi_row _ _ _ Hlive)) by done.
    rewrite bool_decide_true by (by apply live_index). by apply queue_insert.
  - destruct (decide (index seed < sh_bound s)) as [Hlt|]; [|done].
    rewrite (get_spec _ _ _ _ (qi_row _ _ _ Hlive)) by done.
    rewrite bool_decide_false by (by rewrite live_index). done.
Qed.

Lemma seeds_fold live seeds w X :
  queue_is live (sh_bound s) (list_to_set (index <$> sh_nodes s)) →
  queue_is w (sh_bound s) X →
  (seeds ⊆ sh_nodes s → ∃ w',
    rfold (Worklist.seed_step (sh_bound s) live) w seeds = Ok w' ∧
    queue_is w' (sh_bound s) (list_to_set (index <$> seeds) ∪ X)) ∧
  (¬ seeds ⊆ sh_nodes s →
    rfold (Worklist.seed_step (sh_bound s) live) w seeds = Panic "seed node is out of range").
Proof.
  intros Hlive. revert w X. induction seeds as [|x seeds IH]; intros w X Hw; cbn [rfold].
  - split; [|set_solver]. intros _. exists w. split; [done|]. cbn.
    by replace (∅ ∪ X) with X by set_solver.
  - destruct (seed_step_spec live w x X Hlive Hw) as [Hin Hout]. split.
    + intros Hsub. destruct Hin as (w1 & -> & Hw1); [set_solver|]. cbn [mbind res_bind].
      destruct (IH w1 _ Hw1) as [(w2 & -> & Hw2) _]; [set_solver|]. eexists. split; [done|].
      rewrite fmap_cons. cbn [list_to_set].
      by replace ({[index x]} ∪ list_to_set (index <$> seeds) ∪ X : gset nat)
        with (list_to_set (index <$> seeds) ∪ ({[index x]} ∪ X) : gset nat) by set_solver.
    + intros Hsub. destruct (decide (x ∈ sh_nodes s)) as [Hx|Hx]; [|by rewrite Hout].
      destruct Hin as (w1 & -> & Hw1); [done|]. cbn [mbind res_bind].
      destruct (IH w1 _ Hw1) as [_ Hbad]. apply Hbad. set_solver.
Qed.

Lemma seeded_spec seeds :
  (seeds ⊆ sh_nodes s → ∃ w, Worklist.seeded g seeds = Ok w ∧
    queue_is w (sh_bound s) (list_to_set (index <$> seeds))) ∧
  (¬ seeds ⊆ sh_nodes s → Worklist.seeded g seeds = Panic "seed node is out of range").
Proof.
  unfold Worklist.seeded. rewrite vw_bound. destruct seeds as [|x seeds].
  - split; [|set_solver]. intros _. eexists. split; [done|]. apply queue_new.
  - destruct live_spec as (w & -> & Hw). cbn [mbind res_bind].
    destruct (seeds_fold w (x :: seeds) _ _ Hw (queue_new _)) as [Hin Hout]. split; [|done].
    intros Hsub. destruct (Hin Hsub) as (w' & E & Hw'). exists w'. split; [done|].
    by rewrite (right_id_L ∅ (∪)) in Hw'.
Qed.

End Seeds.

(** A queue built from a new one keeps its cursor at zero, so two queues built
    from the same indices are the same queue. *)
Lemma insert_cursor w i w' :
  Worklist.insert w i = Ok w' → Worklist.cursor w = 0 → Worklist.cursor w' = 0.
Proof.
  unfold Worklist.insert. cbn [Worklist.queued Worklist.cursor].
  intros ([q b] & _ & E)%res_bind_Ok Hw. rewrite Hw in E. by injection E as <-.
Qed.

Lemma queue_inj w w' n X :
  queue_is w n X → queue_is w' n X → Worklist.cursor w = 0 → Worklist.cursor w' = 0 → w = w'.
Proof.
  intros [Hr _] [Hr' _] Hc Hc'. destruct w as [q c], w' as [q' c']. cbn in *. subst. f_equal.
  by apply (denotes_inj _ _ n X X Hr Hr').
Qed.

Lemma rfold_cursor {A} (f : Worklist.t → A → res Worklist.t) w l w' :
  (∀ w x w', f w x = Ok w' → Worklist.cursor w = 0 → Worklist.cursor w' = 0) →
  rfold f w l = Ok w' → Worklist.cursor w = 0 → Worklist.cursor w' = 0.
Proof.
  intros Hf. revert w. induction l as [|x l IH]; intros w; cbn [rfold].
  - intros [= <-]. done.
  - intros (w1 & E & Hr)%res_bind_Ok Hw. eapply IH; [done|]. by eapply Hf.
Qed.

Lemma seeded_all {G} `{HG : GraphView G} (g : G) (s : shape) (seeds : list Id) :
  Views g s → (∀ n, n ∈ seeds ↔ n ∈ sh_nodes s) → Worklist.seeded g seeds = Worklist.live g.
Proof.
  intros HV Heq. destruct (live_spec g s HV) as (w & Hw & Hq).
  destruct (seeded_spec g s HV seeds) as [(w' & Hw' & Hq') _]; [intros n; apply Heq|].
  rewrite Hw, Hw'. f_equal. eapply queue_inj; [exact Hq'| | |].
  - replace (list_to_set (index <$> seeds) : gset nat)
      with (list_to_set (index <$> sh_nodes s) : gset nat); [done|].
    apply set_eq. intros k. rewrite !elem_of_list_to_set, !list_elem_of_fmap. naive_solver.
  - unfold Worklist.seeded in Hw'. destruct seeds as [|x seeds]; [by injection Hw' as <-|].
    apply res_bind_Ok in Hw' as (l & _ & Hf). eapply rfold_cursor; [|exact Hf|done].
    intros w0 y w1. unfold Worklist.seed_step.
    intros (b & _ & E)%res_bind_Ok. apply res_bind_Ok in E as (u & _ & E). by eapply insert_cursor.
  - unfold Worklist.live in Hw. apply res_bind_Ok in Hw as (ids & _ & Hf).
    eapply rfold_cursor; [|exact Hf|done]. intros ???. apply insert_cursor.
Qed.

(** A worklist seeded from live nodes of a view queues each of them once
    and serves them in ascending order, and the unseeded [live] worklist serves
    every live node; a seed that is not a live node panics. *)
Theorem worklist_seeds {G} `{HG : GraphView G} (g : G) (s : shape) (seeds : list Id) :
  Views g s →
  (∃ w l, Worklist.live g = Ok w ∧ wl_drain (S (sh_bound s)) w = Ok l ∧
    StronglySorted lt l ∧ l ≡ₚ index <$> sh_nodes s) ∧
  (seeds ⊆ sh_nodes s → ∃ w l, Worklist.seeded g seeds = Ok w ∧
    wl_drain (S (sh_bound s)) w = Ok l ∧ StronglySorted lt l ∧
    ∀ i, i ∈ l ↔ i ∈ index <$> seeds) ∧
  (¬ seeds ⊆ sh_nodes s → Worklist.seeded g seeds = Panic "seed node is out of range").
Proof.
  intros HV. destruct (seeded_spec g s HV seeds) as [Hin Hout]. split_and!; [| |done].
  - destruct (live_spec g s HV) as (w & Hw & Hq). exists w.
    destruct (wl_drain_spec (S (sh_bound s)) w _ _ Hq) as (l & Hl & Hs & Hmem).
    { by apply Nat.lt_succ_r, (queue_size w). }
    exists l. split_and!; [done|done|done|]. apply NoDup_Permutation.
    + by apply StronglySorted_lt_NoDup.
    + apply NoDup_fmap_2_strong; [|apply (vw_ok (g := g))]. intros ????. apply index_inj.
    + intros i. rewrite Hmem. apply elem_of_list_to_set.
  - intros (w & Hw & Hq)%Hin. exists w.
    destruct (wl_drain_spec (S (sh_bound s)) w _ _ Hq) as (l & Hl & Hs & Hmem).
    { by apply Nat.lt_succ_r, (queue_size w). }
    exists l. split_and!; [done|done|done|]. intros i. rewrite Hmem. apply elem_of_list_to_set.
Qed.

