(* ===== verification/Horn.v ===== *)
(** * Horn clauses

    Models [graph/horn.rs]: the clause tables of [HornClauses], [add_clause],
    the counter-based saturation [derivable], and the acceptance check of
    stored tables. The abstract state is a list of clauses, and derivability
    is the inductive least fixpoint [derives]. The saturation runs on one more
    unit of fuel than there are facts: a fact is queued at most once. *)

From S2P Require Import Prelude.

(** [HornClauses] *)
Record HornClauses := mk_horn {
  fact_count : nat;
  heads : list nat;
  body_lens : list nat;
  dependents : list (list nat);
}.

(** [HornClauses::new] *)
Definition horn_new (fact_count : nat) : HornClauses :=
  mk_horn fact_count [] [] (replicate fact_count []).

(** [for &fact in body { dependents\[fact\].push(clause) }] *)
Definition push_dependents (dependents : list (list nat)) (clause : nat) (body : list nat)
    : res (list (list nat)) :=
  rfold (λ deps fact, row ← vget deps fact; vset deps fact (row ++ [clause])) dependents body.

(** [HornClauses::add_clause] *)
Definition add_clause (h : HornClauses) (head : nat) (body : list nat) : res HornClauses :=
  _ ← rassert (bool_decide (head < fact_count h)) "head fact is out of range";
  _ ← rassert (forallb (λ fact, bool_decide (fact < fact_count h)) body)
        "body fact is out of range";
  let clause := length (heads h) in
  deps ← push_dependents (dependents h) clause body;
  mret (mk_horn (fact_count h) (heads h ++ [head]) (body_lens h ++ [length body]) deps).

(** [derive]; the head of the list is the top of the worklist. *)
Definition derive (fact : nat) (derived : list bool) (worklist : list nat)
    : res (list bool * list nat) :=
  d ← vget derived fact;
  if (d : bool) then mret (derived, worklist)
  else derived ← vset derived fact true; mret (derived, fact :: worklist).

(** The seeding loop over [remaining.iter().enumerate()] *)
Definition seed_axioms (h : HornClauses) (derived : list bool) : res (list bool * list nat) :=
  rfold (λ '(derived, worklist) '(clause, count),
    if decide (count = 0) then
      head ← vget (heads h) clause; derive head derived worklist
    else mret (derived, worklist)) (derived, []) (imap pair (body_lens h)).

(** One occurrence of the popped fact in a clause body *)
Definition discharge (h : HornClauses) (st : list nat * (list bool * list nat)) (clause : nat)
    : res (list nat * (list bool * list nat)) :=
  let '(remaining, (derived, worklist)) := st in
  count ← vget remaining clause;
  match count with
  | 0 => Panic "attempt to subtract with overflow"
  | S count =>
      remaining ← vset remaining clause count;
      if decide (count = 0) then
        head ← vget (heads h) clause;
        dw ← derive head derived worklist;
        mret (remaining, dw)
      else mret (remaining, (derived, worklist))
  end.

(** The saturation loop of [derivable] *)
Fixpoint saturate (fuel : nat) (h : HornClauses) (remaining : list nat) (derived : list bool)
    (worklist : list nat) : res (list bool) :=
  match fuel with
  | 0 => Stuck
  | S fuel =>
      match worklist with
      | [] => mret derived
      | fact :: worklist =>
          deps ← vget (dependents h) fact;
          '(remaining, (derived, worklist)) ←
            rfold (discharge h) (remaining, (derived, worklist)) deps;
          saturate fuel h remaining derived worklist
      end
  end.

(** [HornClauses::derivable] *)
Definition derivable (h : HornClauses) : res (list bool) :=
  let derived := replicate (fact_count h) false in
  let remaining := body_lens h in
  '(derived, worklist) ← seed_axioms h derived;
  saturate (S (fact_count h)) h remaining derived worklist.

(** The mention counts of [stored::try_from]; [None] is the missing clause. *)
Definition count_mentions (clauses : nat) (deps : list (list nat)) : option (list nat) :=
  foldl (λ acc clause,
    mentions ← acc; m ← mentions !! clause; mret (<[clause := m + 1]> mentions))
    (Some (replicate clauses 0)) (concat deps).

(** [TryFrom<Stored> for HornClauses]; the stored tables have the same fields. *)
Definition try_from (stored : HornClauses) : string + HornClauses :=
  if decide (length (heads stored) ≠ length (body_lens stored)) then
    inl "the clause tables hold different numbers of clauses"
  else if decide (length (dependents stored) ≠ fact_count stored) then
    inl "the dependents table does not have one row per fact"
  else if existsb (λ head, bool_decide (fact_count stored ≤ head)) (heads stored) then
    inl "a clause head is not a fact"
  else match count_mentions (length (heads stored)) (dependents stored) with
  | None => inl "a dependents row names a clause that does not exist"
  | Some mentions =>
      if decide (mentions ≠ body_lens stored) then
        inl "a clause body disagrees with the facts that list it"
      else inr stored
  end.

(** ** The clauses the tables stand for *)

Notation clause := (nat * list nat)%type.

(** How often [x] occurs in [l]. *)
Definition occurs (x : nat) (l : list nat) : nat := length (filter (λ y, y = x) l).

Record tables (h : HornClauses) (cls : list clause) : Prop := {
  tb_heads : heads h = cls.*1;
  tb_lens : body_lens h = length <$> cls.*2;
  tb_rows : length (dependents h) = fact_count h;
  tb_range : ∀ c hd b, cls !! c = Some (hd, b) →
    hd < fact_count h ∧ ∀ f, f ∈ b → f < fact_count h;
  tb_occurs : ∀ f ds c, dependents h !! f = Some ds →
    occurs c ds = match cls !! c with Some (_, b) => occurs f b | None => 0 end;
}.

(** The least fixpoint: some clause with every body fact derivable. *)
Inductive derives (cls : list clause) : nat → Prop :=
  | derives_by c head body :
      cls !! c = Some (head, body) → (∀ f, f ∈ body → derives cls f) → derives cls head.

Lemma occurs_cons x y l : occurs x (y :: l) = (if decide (y = x) then 1 else 0) + occurs x l.
Proof. unfold occurs. rewrite filter_cons. by case_decide. Qed.

Lemma occurs_app x l1 l2 : occurs x (l1 ++ l2) = occurs x l1 + occurs x l2.
Proof. unfold occurs. by rewrite filter_app, length_app. Qed.

Lemma occurs_nil x : occurs x [] = 0.
Proof. done. Qed.

Lemma occurs_in x l : 0 < occurs x l ↔ x ∈ l.
Proof.
  induction l as [|y l IH]; [rewrite occurs_nil; split; [lia|set_solver]|].
  rewrite occurs_cons, elem_of_cons. case_decide; naive_solver lia.
Qed.

(** The body occurrences still waiting for a fact outside [P]. *)
Definition waiting (P : gset nat) (b : list nat) : nat := length (filter (λ f, f ∉ P) b).

Lemma waiting_cons P f b :
  waiting P (f :: b) = (if decide (f ∉ P) then 1 else 0) + waiting P b.
Proof. unfold waiting. rewrite filter_cons. by case_decide. Qed.

Lemma waiting_all b : waiting ∅ b = length b.
Proof. unfold waiting. by rewrite filter_all by set_solver. Qed.

Lemma waiting_none P b : waiting P b = 0 ↔ ∀ f, f ∈ b → f ∈ P.
Proof.
  induction b as [|f b IH]; [split; [set_solver|done]|]. rewrite waiting_cons.
  destruct (decide (f ∉ P)) as [Hf|Hf]; [set_solver|].
  apply dec_stable in Hf. cbn. rewrite IH. set_solver.
Qed.

Lemma waiting_add P f b :
  f ∉ P → waiting P b = waiting ({[f]} ∪ P) b + occurs f b.
Proof.
  intros Hf. induction b as [|x b IH]; [done|]. rewrite !waiting_cons, occurs_cons, IH.
  destruct (decide (x ∉ P)), (decide (x ∉ {[f]} ∪ P)), (decide (x = f)); try lia; set_solver.
Qed.

(** ** Building the tables *)

Lemma push_dependents_spec deps c body :
  (∀ f, f ∈ body → f < length deps) →
  ∃ deps', push_dependents deps c body = Ok deps' ∧ length deps' = length deps ∧
    ∀ f ds, deps !! f = Some ds → deps' !! f = Some (ds ++ replicate (occurs f body) c).
Proof.
  revert deps. induction body as [|x body IH]; intros deps Hb.
  - exists deps. split; [done|]. split; [done|]. intros. by rewrite app_nil_r.
  - unfold push_dependents. cbn [rfold].
    destruct (lookup_lt_is_Some_2 deps x) as [row Hrow]; [apply Hb; set_solver|].
    rewrite (vget_eq _ _ _ Hrow). cbn [mbind res_bind].
    rewrite vset_lt by (apply Hb; set_solver). cbn [mbind res_bind].
    destruct (IH (<[x := row ++ [c]]> deps)) as (deps' & E & Hlen & H).
    { intros f Hf. rewrite length_insert. apply Hb. set_solver. }
    exists deps'. split; [exact E|]. rewrite length_insert in Hlen. split; [done|].
    intros f ds Hf. rewrite occurs_cons. destruct (decide (x = f)) as [->|].
    + simplify_eq. rewrite (H f (row ++ [c])).
      * by rewrite <-app_assoc.
      * apply list_lookup_insert_eq. by eapply lookup_lt_Some.
    + apply H. by rewrite list_lookup_insert_ne.
Qed.

Lemma occurs_replicate x k c : occurs x (replicate k c) = if decide (c = x) then k else 0.
Proof.
  induction k as [|k IH]; cbn [replicate]; [by case_decide|].
  rewrite occurs_cons, IH. by case_decide.
Qed.

Lemma tables_new n : tables (horn_new n) [].
Proof.
  split; cbn; try done; [by rewrite length_replicate|].
  intros f ds c [-> _]%lookup_replicate. done.
Qed.

Lemma tables_clause_len h cls : tables h cls → length (heads h) = length cls.
Proof. intros H. by rewrite (tb_heads _ _ H), length_fmap. Qed.

Lemma add_clause_spec h cls head body :
  tables h cls →
  head < fact_count h → (∀ f, f ∈ body → f < fact_count h) →
  ∃ h', add_clause h head body = Ok h' ∧ fact_count h' = fact_count h ∧
    tables h' (cls ++ [(head, body)]).
Proof.
  intros H Hh Hb. unfold add_clause. rewrite bool_decide_true by done. cbn [rassert mbind res_bind].
  replace (forallb _ body) with true; cycle 1.
  { symmetry. apply forallb_forall. intros f Hf%list_elem_of_In. apply bool_decide_true; auto. }
  cbn [rassert mbind res_bind].
  destruct (push_dependents_spec (dependents h) (length (heads h)) body)
    as (deps & -> & Hlen & Hrow).
  { intros f Hf. rewrite (tb_rows _ _ H). auto. }
  cbn [mbind res_bind]. eexists. split; [reflexivity|]. split; [done|].
  rewrite (tables_clause_len _ _ H) in Hrow. split; cbn.
  - by rewrite (tb_heads _ _ H), fmap_app.
  - by rewrite (tb_lens _ _ H), !fmap_app.
  - by rewrite Hlen, (tb_rows _ _ H).
  - intros c hd b [Hc|[_ Hc]]%lookup_app_Some; [by eapply tb_range|].
    apply list_lookup_singleton_Some in Hc as [_ [= <- <-]]. done.
  - intros f ds c Hds.
    destruct (lookup_lt_is_Some_2 (dependents h) f) as [old Hold].
    { rewrite <-Hlen. by eapply lookup_lt_Some. }
    rewrite (Hrow f old Hold) in Hds. simplify_eq.
    rewrite occurs_app, occurs_replicate, (tb_occurs _ _ H _ _ _ Hold).
    destruct (decide (length cls = c)) as [<-|Hne].
    + by rewrite list_lookup_middle, lookup_ge_None_2.
    + destruct (decide (c < length cls)) as [Hlt|].
      * rewrite lookup_app_l by done. by rewrite Nat.add_0_r.
      * rewrite (lookup_ge_None_2 cls), (lookup_ge_None_2 (cls ++ _))
          by (rewrite ?length_app; cbn; lia). done.
Qed.

(** [add_clause] panics, head first, when a fact is out of range. *)
Lemma add_clause_out h head body :
  (¬ head < fact_count h → add_clause h head body = Panic "head fact is out of range") ∧
  (head < fact_count h → (∃ f, f ∈ body ∧ ¬ f < fact_count h) →
    add_clause h head body = Panic "body fact is out of range").
Proof.
  unfold add_clause. split.
  - intros Hh. by rewrite bool_decide_false.
  - intros Hh (f & Hf & Hout). rewrite bool_decide_true by done. cbn [rassert mbind res_bind].
    replace (forallb _ body) with false; [done|]. symmetry. apply not_true_iff_false.
    intros Hall. rewrite forallb_forall in Hall.
    specialize (Hall f (proj1 (list_elem_of_In _ _) Hf)). by apply bool_decide_eq_true in Hall.
Qed.

(** ** Saturation *)

Section Saturation.
Context (h : HornClauses) (cls : list clause) (Htb : tables h cls).

(** The state between two facts: [P] has been propagated, the worklist has
    been derived and not propagated. *)
Record sat (P : gset nat) (remaining : list nat) (derived : list bool) (wl : list nat) : Prop := {
  sa_len : length derived = fact_count h;
  sa_derived : ∀ f, derived !! f = Some true ↔ f ∈ P ∨ f ∈ wl;
  sa_nodup : NoDup wl;
  sa_apart : ∀ f, f ∈ wl → f ∉ P;
  sa_sound : ∀ f, derived !! f = Some true → derives cls f;
  sa_clauses : length remaining = length cls;
}.

(** What is left to discharge, and that a clause left with nothing fired. *)
Definition pending (left_of : nat → list nat → nat) (remaining : list nat) (derived : list bool)
    : Prop :=
  ∀ c hd b, cls !! c = Some (hd, b) →
    remaining !! c = Some (left_of c b) ∧ (left_of c b = 0 → derived !! hd = Some true).

Lemma derive_spec P remaining derived wl f :
  sat P remaining derived wl → f < fact_count h → derives cls f →
  ∃ derived' wl', derive f derived wl = Ok (derived', wl') ∧
    sat P remaining derived' wl' ∧ derived' !! f = Some true ∧
    (∀ x, derived !! x = Some true → derived' !! x = Some true).
Proof.
  intros H Hf Hd. destruct (H) as [H1 H2 H3 H4 H5 H6]. unfold derive.
  destruct (lookup_lt_is_Some_2 derived f) as [d Hdf]; [lia|].
  rewrite (vget_eq _ _ _ Hdf). cbn [mbind res_bind]. destruct d.
  - exists derived, wl. done.
  - rewrite vset_lt by lia. cbn [mbind res_bind]. eexists _, _. split; [reflexivity|].
    assert (∀ x, <[f:=true]> derived !! x = Some true ↔ x = f ∨ derived !! x = Some true) as Hx.
    { intros x. destruct (decide (x = f)) as [->|].
      - rewrite list_lookup_insert_eq by lia. naive_solver.
      - rewrite list_lookup_insert_ne by done. naive_solver. }
    assert (¬ (f ∈ P ∨ f ∈ wl)) as Hnew by (rewrite <-H2; congruence).
    split; [|split; [apply Hx; by left|intros x ?; apply Hx; by right]]. split.
    + by rewrite length_insert.
    + intros x. rewrite Hx, H2. set_solver.
    + constructor; [naive_solver|done].
    + intros x [->|?]%elem_of_cons; [naive_solver|auto].
    + intros x [->|?]%Hx; auto.
    + done.
Qed.

Lemma pending_mono left_of remaining derived derived' :
  pending left_of remaining derived →
  (∀ x, derived !! x = Some true → derived' !! x = Some true) →
  pending left_of remaining derived'.
Proof. intros H Hm c hd b Hc. destruct (H c hd b Hc). auto. Qed.

(** While [f] is propagated, after the occurrences [dn]. *)
Definition left_in (P : gset nat) (f : nat) (dn : list nat) (c : nat) (b : list nat) : nat :=
  waiting P b + (occurs f b - occurs c dn).

Lemma discharge_spec P f ds dn c remaining derived wl :
  dependents h !! f = Some ds → dn ++ [c] `prefix_of` ds →
  sat P remaining derived wl → pending (left_in P f dn) remaining derived →
  ∃ remaining' derived' wl', discharge h (remaining, (derived, wl)) c =
      Ok (remaining', (derived', wl')) ∧
    sat P remaining' derived' wl' ∧ pending (left_in P f (dn ++ [c])) remaining' derived'.
Proof.
  intros Hds [rest Hpre] Hsat Hpend.
  pose proof (tb_occurs _ _ Htb f ds c Hds) as Hocc. rewrite Hpre in Hocc.
  rewrite !occurs_app, occurs_cons, decide_True in Hocc by done.
  destruct (cls !! c) as [[hd b]|] eqn:Hc; [|lia].
  destruct (Hpend c hd b Hc) as [Hrem _]. unfold discharge. rewrite (vget_eq _ _ _ Hrem).
  cbn [mbind res_bind].
  set (k := left_in P f (dn ++ [c]) c b).
  assert (left_in P f dn c b = S k) as ->.
  { unfold k, left_in. rewrite occurs_app, occurs_cons, decide_True by done.
    rewrite occurs_nil in *. lia. }
  rewrite vset_lt by (by eapply lookup_lt_Some). cbn [mbind res_bind].
  assert (sat P (<[c := k]> remaining) derived wl) as Hsat'.
  { destruct Hsat. split; auto. by rewrite length_insert. }
  assert (∀ derived', (∀ x, derived !! x = Some true → derived' !! x = Some true) →
    (k = 0 → derived' !! hd = Some true) →
    pending (left_in P f (dn ++ [c])) (<[c := k]> remaining) derived') as Hnext.
  { intros derived' Hm Hz c' hd' b' Hc'. destruct (decide (c' = c)) as [->|Hne].
    - simplify_eq. split; [|done]. apply list_lookup_insert_eq. by eapply lookup_lt_Some.
    - destruct (Hpend c' hd' b' Hc') as [Hr' Hz'].
      assert (left_in P f (dn ++ [c]) c' b' = left_in P f dn c' b') as ->.
      { unfold left_in. rewrite occurs_app, occurs_cons, decide_False by done.
        by rewrite occurs_nil, !Nat.add_0_r. }
      rewrite list_lookup_insert_ne by done. auto. }
  destruct (decide (k = 0)) as [Hk|Hk].
  - assert (derives cls hd) as Hd.
    { apply (derives_by _ c hd b Hc). intros x Hx. apply (sa_sound _ _ _ _ Hsat).
      apply (sa_derived _ _ _ _ Hsat). left. apply (waiting_none P b); [|done].
      unfold k, left_in in Hk. lia. }
    assert (heads h !! c = Some hd) as Hhead by (rewrite (tb_heads _ _ Htb); apply list_lookup_fmap_Some; by exists (hd, b)).
    rewrite (vget_eq _ _ _ Hhead).
    cbn [mbind res_bind].
    destruct (derive_spec _ _ _ _ hd Hsat' (proj1 (tb_range _ _ Htb _ _ _ Hc)) Hd)
      as (derived' & wl' & -> & Hs' & Hhd & Hm). cbn [mbind res_bind].
    eexists _, _, _. split; [reflexivity|]. split; [done|]. by apply Hnext.
  - eexists _, _, _. split; [reflexivity|]. split; [done|]. by apply Hnext.
Qed.

(** Propagating one fact through every clause that mentions it. *)
Lemma propagate_spec P f wl remaining derived :
  sat P remaining derived (f :: wl) → pending (λ _, waiting P) remaining derived →
  ∃ ds remaining' derived' wl', dependents h !! f = Some ds ∧
    rfold (discharge h) (remaining, (derived, wl)) ds = Ok (remaining', (derived', wl')) ∧
    sat ({[f]} ∪ P) remaining' derived' wl' ∧
    pending (λ _, waiting ({[f]} ∪ P)) remaining' derived'.
Proof.
  intros Hsat Hpend. destruct (Hsat) as [H1 H2 H3 H4 H5 H6].
  apply NoDup_cons in H3 as [Hfw H3]. assert (f ∉ P) as HfP by (apply H4; left).
  assert (derived !! f = Some true) as Hdf by (apply H2; right; left).
  destruct (lookup_lt_is_Some_2 (dependents h) f) as [ds Hds].
  { rewrite (tb_rows _ _ Htb), <-H1. by eapply lookup_lt_Some. }
  destruct (rfold_inv (λ dn '(remaining, (derived, wl)),
      sat ({[f]} ∪ P) remaining derived wl ∧
      pending (left_in ({[f]} ∪ P) f dn) remaining derived)
    (discharge h) (remaining, (derived, wl)) ds) as ([remaining' [derived' wl']] & E & Hs & Hp).
  - split.
    + split; [done| |done| |done|done].
      * intros x. rewrite H2. set_solver.
      * intros x Hx. assert (x ≠ f) by set_solver. specialize (H4 x). set_solver.
    + intros c hd b Hc. destruct (Hpend c hd b Hc) as [Hr Hz]. unfold left_in.
      rewrite occurs_nil, Nat.sub_0_r, <-waiting_add by done. done.
  - intros dn c [r [d w]] Hpre [Hs Hp].
    destruct (discharge_spec _ _ _ _ _ _ _ _ Hds Hpre Hs Hp) as (r' & d' & w' & E & ? & ?).
    exists (r', (d', w')). done.
  - exists ds, remaining', derived', wl'. split; [done|]. split; [done|]. split; [done|].
    intros c hd b Hc. destruct (Hp c hd b Hc) as [Hr Hz].
    pose proof (tb_occurs _ _ Htb f ds c Hds) as Hocc. rewrite Hc in Hocc.
    unfold left_in in *. rewrite Hocc, Nat.sub_diag, Nat.add_0_r in *. done.
Qed.

(** At the end every derivable fact has been derived. *)
Lemma sat_complete P remaining derived f :
  sat P remaining derived [] → pending (λ _, waiting P) remaining derived →
  derived !! f = Some true ↔ derives cls f.
Proof.
  intros Hsat Hpend. split; [apply Hsat|].
  induction 1 as [c hd b Hc _ IH]. apply (Hpend c hd b Hc). apply waiting_none.
  intros x Hx%IH. apply (sa_derived _ _ _ _ Hsat) in Hx. set_solver.
Qed.

Lemma sat_size P remaining derived wl :
  sat P remaining derived wl → size P + length wl ≤ fact_count h.
Proof.
  intros [H1 H2 H3 H4 H5 H6].
  assert (size (list_to_set wl : gset nat) = length wl) as <- by (by apply size_list_to_set).
  rewrite <-size_union by set_solver.
  replace (fact_count h) with (size (set_seq 0 (fact_count h) : gset nat)) by apply size_set_seq.
  apply subseteq_size. intros x Hx. apply elem_of_set_seq. split; [lia|].
  rewrite <-H1. eapply lookup_lt_Some, H2. set_solver.
Qed.

Lemma saturate_spec fuel P remaining derived wl :
  sat P remaining derived wl → pending (λ _, waiting P) remaining derived →
  fact_count h < fuel + size P →
  ∃ out, saturate fuel h remaining derived wl = Ok out ∧ length out = fact_count h ∧
    ∀ f, out !! f = Some true ↔ derives cls f.
Proof.
  revert P remaining derived wl. induction fuel as [|fuel IH]; intros P remaining derived wl
    Hsat Hpend Hf.
  { apply sat_size in Hsat. lia. }
  cbn [saturate]. destruct wl as [|f wl].
  - exists derived. split; [done|]. split; [apply Hsat|]. intros f. by eapply sat_complete.
  - destruct (propagate_spec _ _ _ _ _ Hsat Hpend)
      as (ds & remaining' & derived' & wl' & Hds & E & Hs & Hp).
    rewrite (vget_eq _ _ _ Hds). cbn [mbind res_bind]. rewrite E. cbn [mbind res_bind].
    apply (IH ({[f]} ∪ P)); [done|done|].
    assert (f ∉ P) by (apply (sa_apart _ _ _ _ Hsat); left).
    rewrite size_union, size_singleton by set_solver. lia.
Qed.

Lemma seed_axioms_spec :
  ∃ derived wl, seed_axioms h (replicate (fact_count h) false) = Ok (derived, wl) ∧
    sat ∅ (body_lens h) derived wl ∧ pending (λ _, waiting ∅) (body_lens h) derived.
Proof.
  assert (∀ c hd b, cls !! c = Some (hd, b) → body_lens h !! c = Some (length b)) as Hlens.
  { intros c hd b Hc. rewrite (tb_lens _ _ Htb). apply list_lookup_fmap_Some.
    exists b. split; [done|]. apply list_lookup_fmap_Some. by exists (hd, b). }
  assert (length (body_lens h) = length cls) as Hlen.
  { by rewrite (tb_lens _ _ Htb), !length_fmap. }
  unfold seed_axioms. edestruct (rfold_inv (λ (dn : list (nat * nat)) '(derived, wl),
      sat ∅ (body_lens h) derived wl ∧
      ∀ c hd, c < length dn → cls !! c = Some (hd, []) → derived !! hd = Some true))
    as ([derived wl] & E & Hs & Hd); cycle 2.
  - exists derived, wl. split; [exact E|]. split; [done|].
    intros c hd b Hc. rewrite waiting_all. split; [by eapply Hlens|].
    intros ->%nil_length_inv. eapply Hd; [|done]. rewrite length_imap, Hlen.
    by eapply lookup_lt_Some.
  - split; [|intros c hd Hc; cbn in Hc; lia]. split; [by rewrite length_replicate| |constructor| | |done].
    + intros f. split; [intros [? _]%lookup_replicate; done|set_solver].
    + set_solver.
    + intros f [? _]%lookup_replicate. done.
  - intros dn [c count] [derived wl] [rest Hpre] [Hs Hd]. cbn beta iota.
    assert (imap pair (body_lens h) !! length dn = Some (c, count)) as Hat.
    { rewrite Hpre, <-app_assoc. by apply list_lookup_middle. }
    apply list_lookup_imap_Some in Hat as (k & Hk & [= -> ->]).
    destruct (lookup_lt_is_Some_2 cls (length dn)) as [[hd b] Hc].
    { rewrite <-Hlen. by eapply lookup_lt_Some. }
    rewrite (Hlens _ _ _ Hc) in Hk. injection Hk as <-.
    assert (∀ derived' : list bool, (∀ x, derived !! x = Some true → derived' !! x = Some true) →
      (b = [] → derived' !! hd = Some true) →
      ∀ c hd, c < length (dn ++ [(length dn, length b)]) → cls !! c = Some (hd, []) →
        derived' !! hd = Some true) as Hnext.
    { intros derived' Hm Hb c hd' Hlt Hc'. rewrite length_app in Hlt. cbn in Hlt.
      destruct (decide (c = length dn)) as [->|]; [naive_solver|].
      apply Hm. eapply Hd; [|done]. lia. }
    destruct (decide (length b = 0)) as [Hz|Hz].
    + apply nil_length_inv in Hz as ->.
      assert (heads h !! length dn = Some hd) as Hhead.
      { rewrite (tb_heads _ _ Htb). apply list_lookup_fmap_Some. by exists (hd, []). }
      rewrite (vget_eq _ _ _ Hhead). cbn [mbind res_bind].
      assert (derives cls hd) as Hder by (apply (derives_by _ _ _ _ Hc); set_solver).
      destruct (derive_spec _ _ _ _ hd Hs (proj1 (tb_range _ _ Htb _ _ _ Hc)) Hder)
        as (derived' & wl' & -> & Hs' & Hhd & Hm).
      exists (derived', wl'). split; [done|]. split; [done|]. by apply Hnext.
    + exists (derived, wl). split; [done|]. split; [done|]. apply Hnext; [done|].
      by intros ->.
Qed.

(** [derivable] returns, and marks exactly the derivable facts. *)
Lemma derivable_spec :
  ∃ out, derivable h = Ok out ∧ length out = fact_count h ∧
    ∀ f, out !! f = Some true ↔ derives cls f.
Proof.
  unfold derivable. destruct seed_axioms_spec as (derived & wl & -> & Hs & Hp).
  cbn [mbind res_bind]. apply (saturate_spec _ ∅); [done|done|]. lia.
Qed.

End Saturation.

(** ** Building clause by clause *)

Definition in_range (n : nat) (c : clause) : Prop := c.1 < n ∧ Forall (λ f, f < n) c.2.
Definition build (n : nat) (cs : list clause) : res HornClauses :=
  rfold (λ h '(head, body), add_clause h head body) (horn_new n) cs.

Lemma build_spec n cs :
  Forall (in_range n) cs →
  ∃ h, build n cs = Ok h ∧ fact_count h = n ∧ tables h cs.
Proof.
  intros Hcs. destruct (rfold_inv (λ dn h, fact_count h = n ∧ tables h dn)
    (λ h '(head, body), add_clause h head body) (horn_new n) cs) as (h & E & Hn & Ht).
  - split; [done|apply tables_new].
  - intros dn [hd b] h [rest ->] [Hn Ht].
    rewrite !Forall_app, Forall_singleton in Hcs. destruct Hcs as [[_ [Hhd Hb]] _].
    rewrite Forall_forall in Hb. cbn in Hhd, Hb. subst n.
    destruct (add_clause_spec h dn hd b Ht Hhd Hb) as (h' & E & Hn' & Ht'). eauto.
  - eauto.
Qed.

(** ** Stored tables *)

Lemma elem_of_concat {A} (x : A) (ls : list (list A)) :
  x ∈ concat ls ↔ ∃ l, x ∈ l ∧ l ∈ ls.
Proof.
  induction ls as [|l ls IH]; cbn; [set_solver|]. rewrite elem_of_app, IH. set_solver.
Qed.

Lemma count_mentions_spec k deps :
  match count_mentions k deps with
  | Some ms => length ms = k ∧ (∀ c, c ∈ concat deps → c < k) ∧
      ∀ c, c < k → ms !! c = Some (occurs c (concat deps))
  | None => ∃ c, c ∈ concat deps ∧ k ≤ c
  end.
Proof.
  unfold count_mentions. generalize (concat deps). intros l.
  induction l as [|c l IH] using rev_ind; cbn [foldl].
  - rewrite length_replicate. split; [done|]. split; [set_solver|]. intros c Hc.
    by rewrite lookup_replicate_2.
  - rewrite foldl_app. cbn [foldl].
    destruct (foldl _ (Some (replicate k 0)) l) as [ms|]; cbn.
    + destruct IH as (Hlen & Hin & Hms). destruct (ms !! c) as [m|] eqn:Hc; cbn.
      * rewrite length_insert. pose proof (lookup_lt_Some _ _ _ Hc) as Hlt. split; [done|].
        split; [intros x; rewrite elem_of_app, list_elem_of_singleton; intros [?| ->];
          [auto|lia]|].
        intros x Hx. rewrite occurs_app, occurs_cons, occurs_nil.
        destruct (decide (c = x)) as [->|].
        -- rewrite list_lookup_insert_eq by done. rewrite Hms in Hc by done. naive_solver lia.
        -- rewrite list_lookup_insert_ne, Hms by done. f_equal. lia.
      * exists c. apply lookup_ge_None in Hc. split; [set_solver|lia].
    + destruct IH as (x & ? & ?). exists x. split; [set_solver|done].
Qed.

(** The body of clause [c] read back from the rows, facts from [k] on. *)
Fixpoint body_from (c k : nat) (deps : list (list nat)) : list nat :=
  match deps with
  | [] => []
  | ds :: deps => replicate (occurs c ds) k ++ body_from c (S k) deps
  end.

Lemma body_from_occurs c k deps f :
  occurs f (body_from c k deps) =
    if decide (k ≤ f) then match deps !! (f - k) with Some ds => occurs c ds | None => 0 end
    else 0.
Proof.
  revert k. induction deps as [|ds deps IH]; intros k; cbn [body_from].
  - rewrite occurs_nil. by case_decide.
  - rewrite occurs_app, occurs_replicate, IH.
    destruct (decide (k = f)) as [->|Hne].
    + rewrite decide_False, decide_True, Nat.sub_diag by lia. cbn. lia.
    + destruct (decide (S k ≤ f)).
      * rewrite decide_True by lia. by replace (f - k) with (S (f - S k)) by lia.
      * rewrite decide_False by lia. done.
Qed.

Lemma body_from_length c k deps : length (body_from c k deps) = occurs c (concat deps).
Proof.
  revert k. induction deps as [|ds deps IH]; intros k; [done|]. cbn [body_from concat].
  by rewrite length_app, length_replicate, IH, occurs_app.
Qed.

(** Two bodies with the same occurrences of every fact are equally long. *)
Lemma occurs_length l1 l2 : (∀ x, occurs x l1 = occurs x l2) → length l1 = length l2.
Proof.
  intros H. apply Permutation_length. revert l2 H.
  induction l1 as [|x l1 IH]; intros l2 H.
  - destruct l2 as [|y l2]; [done|]. specialize (H y). rewrite occurs_cons, decide_True in H by done.
    by rewrite occurs_nil in H.
  - assert (x ∈ l2) as (a & b & ->)%list_elem_of_split.
    { apply occurs_in. rewrite <-H, occurs_cons, decide_True by done. lia. }
    rewrite <-Permutation_middle. constructor. apply IH. intros y. specialize (H y).
    rewrite occurs_app, !occurs_cons in H. rewrite occurs_app. lia.
Qed.

Lemma try_from_tables st h :
  try_from st = inr h → h = st ∧ ∃ cls, tables h cls.
Proof.
  unfold try_from. destruct (decide _) as [|Hl]; [done|]. apply dec_stable in Hl.
  destruct (decide _) as [|Hr]; [done|]. apply dec_stable in Hr.
  destruct (existsb _ _) eqn:Hh; [done|].
  pose proof (count_mentions_spec (length (heads st)) (dependents st)) as Hm.
  destruct (count_mentions _ _) as [ms|]; [|done]. destruct Hm as (Hml & Hin & Hms).
  destruct (decide _) as [|Heq]; [done|]. apply dec_stable in Heq. intros [= <-].
  split; [done|]. exists (imap (λ c hd, (hd, body_from c 0 (dependents st))) (heads st)).
  assert (∀ f, f ∈ heads st → f < fact_count st) as Hheads.
  { intros f Hf. destruct (decide (f < fact_count st)) as [|Hge]; [done|].
    assert (existsb (λ head, bool_decide (fact_count st ≤ head)) (heads st) = true); [|congruence].
    apply existsb_exists. exists f. split; [by apply list_elem_of_In|].
    apply bool_decide_true. lia. }
  split.
  - apply list_eq. intros c. rewrite list_lookup_fmap, list_lookup_imap.
    by destruct (heads st !! c).
  - rewrite <-Heq. apply list_eq. intros c. rewrite !list_lookup_fmap, list_lookup_imap.
    destruct (heads st !! c) as [hd|] eqn:Hc; cbn.
    + rewrite body_from_length. apply Hms. by eapply lookup_lt_Some.
    + apply lookup_ge_None in Hc. apply lookup_ge_None. lia.
  - done.
  - intros c hd b. rewrite list_lookup_imap. intros (x & Hx & [= -> ->])%fmap_Some.
    split; [apply Hheads; by eapply list_elem_of_lookup_2|].
    intros f Hf%occurs_in. rewrite body_from_occurs, decide_True, Nat.sub_0_r in Hf by lia.
    destruct (dependents st !! f) as [ds|] eqn:E; [|lia]. rewrite <-Hr. by eapply lookup_lt_Some.
  - intros f ds c Hds. rewrite list_lookup_imap. destruct (heads st !! c) as [hd|] eqn:Hc; cbn.
    + by rewrite body_from_occurs, decide_True, Nat.sub_0_r, Hds by lia.
    + apply lookup_ge_None in Hc. destruct (occurs c ds) as [|k] eqn:E; [done|].
      assert (c ∈ ds) by (apply occurs_in; lia).
      assert (c < length (heads st)); [|lia]. apply Hin, elem_of_concat.
      exists ds. split; [done|]. by eapply list_elem_of_lookup_2.
Qed.

Lemma tables_try_from h cls : tables h cls → try_from h = inr h.
Proof.
  intros H. unfold try_from.
  rewrite decide_False by (rewrite (tb_heads _ _ H), (tb_lens _ _ H), !length_fmap; tauto).
  rewrite decide_False by (rewrite (tb_rows _ _ H); tauto).
  replace (existsb _ (heads h)) with false; cycle 1.
  { symmetry. apply not_true_iff_false. intros (f & Hf & Hge)%existsb_exists.
    apply list_elem_of_In in Hf. rewrite (tb_heads _ _ H) in Hf.
    apply list_elem_of_fmap in Hf as ([hd b] & -> & [c Hc]%list_elem_of_lookup).
    apply bool_decide_eq_true in Hge. apply (tb_range _ _ H) in Hc as [? _]. cbn in Hge. lia. }
  pose proof (count_mentions_spec (length (heads h)) (dependents h)) as Hm.
  destruct (count_mentions _ _) as [ms|].
  - destruct Hm as (Hml & Hin & Hms). rewrite decide_False; [done|]. intros Hne. apply Hne.
    apply list_eq. intros c. rewrite (tb_lens _ _ H), !list_lookup_fmap.
    rewrite (tables_clause_len _ _ H) in Hml, Hms.
    destruct (cls !! c) as [[hd b]|] eqn:Hc; cbn.
    + rewrite Hms by (by eapply lookup_lt_Some). f_equal. rewrite <-(body_from_length _ 0).
      apply occurs_length. intros f. rewrite body_from_occurs, decide_True, Nat.sub_0_r by lia.
      destruct (dependents h !! f) as [ds|] eqn:Hf.
      * rewrite (tb_occurs _ _ H _ _ c Hf). by rewrite Hc.
      * destruct (occurs f b) as [|k] eqn:E; [done|]. assert (f ∈ b) as Hfb by (apply occurs_in; lia).
        apply (tb_range _ _ H) in Hc as [_ Hb]. apply Hb in Hfb.
        apply lookup_ge_None in Hf. rewrite (tb_rows _ _ H) in Hf. lia.
    + apply lookup_ge_None in Hc. apply lookup_ge_None. lia.
  - destruct Hm as (c & (ds & Hds & [f Hf]%list_elem_of_lookup)%elem_of_concat & Hge).
    exfalso. apply occurs_in in Hds. rewrite (tb_occurs _ _ H _ _ _ Hf) in Hds.
    rewrite (tables_clause_len _ _ H) in Hge.
    rewrite lookup_ge_None_2 in Hds by done. lia.
Qed.

(** C19: building a clause set from clauses in range and solving it marks
    exactly the facts of the least fixpoint of those clauses: some clause with
    the fact at its head has every body fact derivable. The counters never
    underflow and the saturation always finishes. *)
Theorem derivable_is_least_fixpoint (n : nat) (cs : list clause) :
  Forall (in_range n) cs →
  ∃ h out, build n cs = Ok h ∧ derivable h = Ok out ∧ length out = n ∧
    ∀ f, out !! f = Some true ↔ derives cs f.
Proof.
  intros (h & E & <- & Ht)%build_spec. destruct (derivable_spec h cs Ht) as (out & ? & ? & ?).
  eauto 6.
Qed.

(** C20: Stored tables are accepted as they are exactly when they are the
    tables of some clauses: the heads and the body lengths are theirs, in order,
    and each row of dependents lists the clauses whose body names its fact, as
    often as the body does. The tables of every clause set built in range are
    accepted, and solving accepted tables, whoever wrote them, returns the least
    fixpoint of whatever clauses they are the tables of, without panicking. *)
Theorem stored_tables_are_sound (n : nat) (cs : list clause) (stored h : HornClauses) :
  Forall (in_range n) cs →
  (∃ built, build n cs = Ok built ∧ tables built cs ∧ try_from built = inr built) ∧
  (try_from stored = inr h ↔ h = stored ∧ ∃ cls, tables stored cls) ∧
  ∀ cls, tables h cls → ∃ out, derivable h = Ok out ∧ length out = fact_count h ∧ ∀ f, out !! f = Some true ↔ derives cls f.
Proof.
  intros (b & E & _ & Ht)%build_spec. split_and!.
  - exists b. split_and!; [done|done|]. by eapply tables_try_from.
  - split; [by intros [-> Hcls]%try_from_tables|]. intros [-> [cls Hcls]]. by eapply tables_try_from.
  - intros cls Hcls. by apply derivable_spec.
Qed.

(** Grammar nullability: S -> A B, A -> (nothing), B -> A A. *)
Definition sample_clauses : list clause := [(0, [1; 2]); (1, []); (2, [1; 1])].
Definition sample_tables : HornClauses := mk_horn 2 [0; 1] [2; 0] [[0]; [0]].

Lemma derivable_is_least_fixpoint_witness :
  Forall (in_range 4) sample_clauses ∧
  ∃ h out, build 4 sample_clauses = Ok h ∧ derivable h = Ok out ∧
    out = [true; true; true; false].
Proof.
  assert (Forall (in_range 4) sample_clauses) as H by (repeat constructor; cbn; lia).
  split; [exact H|].
  destruct (derivable_is_least_fixpoint 4 sample_clauses H) as (h & out & Hb & Hd & _ & _).
  exists h, out. split; [exact Hb|]. split; [exact Hd|].
  vm_compute in Hb. injection Hb as <-. vm_compute in Hd. by injection Hd.
Defined.

Lemma stored_tables_are_sound_witness :
  Forall (in_range 4) sample_clauses ∧ try_from sample_tables = inr sample_tables ∧
  ∃ cls out, tables sample_tables cls ∧ derivable sample_tables = Ok out ∧
    ∀ f, out !! f = Some true ↔ derives cls f.
Proof.
  assert (Forall (in_range 4) sample_clauses) as H by (repeat constructor; cbn; lia).
  assert (try_from sample_tables = inr sample_tables) as Ht by (vm_compute; reflexivity).
  split; [exact H|]. split; [exact Ht|].
  destruct (stored_tables_are_sound 4 sample_clauses sample_tables sample_tables H) as (_ & Hacc & Hsolve).
  destruct (proj1 Hacc Ht) as (_ & cls & Hc). destruct (Hsolve cls Hc) as (out & Hd & _ & Hf).
  exists cls, out. split; [exact Hc|]. split; [exact Hd|exact Hf].
Defined.
