(* ===== verification/Solver.v ===== *)
(** * The dataflow solvers

    Models [dataflow/node_fixpoint.rs] and [dataflow/fixpoint.rs]: the problem
    traits as records of functions, the adapters between them, the worklist
    core [try_solve_along], and every entry point. A problem's functions are
    whatever the client supplies; a fallible one answers in a sum. The core
    has no bound of its own, so it takes fuel, and the proofs say how much is
    enough. [PartialEq] on facts is taken to be equality. *)

From S2P Require Import Prelude Words Ids View Bits Worklist Traverse.

(** [Direction] with [Direction::traversal] and [Direction::program_order] *)
Inductive Direction := Forward | Backward.
#[export] Instance Direction_eq_dec : EqDecision Direction.
Proof. solve_decision. Defined.
Definition traversal (d : Direction) : TraversalDirection :=
  match d with Forward => Outgoing | Backward => Incoming end.
Definition program_order {T} (d : Direction) (entering leaving : T) : T * T :=
  match d with Forward => (entering, leaving) | Backward => (leaving, entering) end.

(** [SolveConfig] *)
Record SolveConfig := mk_config { max_steps : option nat }.
Definition config_new : SolveConfig := mk_config None.
Definition with_step_limit (limit : nat) : SolveConfig := mk_config (Some limit).

(** [SolveError] and [TrySolveError] *)
Inductive SolveError := StepLimitExceeded (limit steps pending_node : nat).
Inductive TrySolveError (E : Type) :=
  | ProblemError (e : E)
  | SolverError (e : SolveError).
Arguments ProblemError {E} e.
Arguments SolverError {E} e.

(** [collapse_infallible] *)
Definition collapse_infallible {T} (result : TrySolveError Empty_set + T) : SolveError + T :=
  match result with
  | inr facts => inr facts
  | inl (SolverError error) => inl error
  | inl (ProblemError error) => match error with end
  end.

(** [Facts] *)
Record Facts (F : Type) := mk_facts { f_input : list F; f_output : list F; f_steps : nat }.
Arguments mk_facts {F} _ _ _.
Arguments f_input {F} _.
Arguments f_output {F} _.
Arguments f_steps {F} _.
Definition fact_in {F} (facts : Facts F) (node : Id) : res F := vget (f_input facts) (index node).
Definition fact_out {F} (facts : Facts F) (node : Id) : res F := vget (f_output facts) (index node).

(** [meet_options] *)
Definition meet_options {F} (l r : option F) (meet : F → F → F) : option F :=
  match l, r with
  | None, None => None
  | Some fact, None | None, Some fact => Some fact
  | Some l, Some r => Some (meet l r)
  end.

Section Solvers.
Context {G : Type} {HG : GraphView G}.

(** [trait TryNodeProblem] *)
Record TryNodeProblem (F E : Type) := mk_try_node {
  tn_direction : Direction;
  tn_bottom : G → F;
  tn_boundary : G → E + F;
  tn_meet : G → Id → F → F → E + F;
  tn_transfer : G → Id → F → E + F;
}.

(** [trait NodeProblem] *)
Record NodeProblem (F : Type) := mk_node {
  np_direction : Direction;
  np_bottom : G → F;
  np_boundary : G → F;
  np_meet : F → F → F;
  np_transfer : G → Id → F → F;
}.

(** [InfallibleNodeProblem] *)
Definition InfallibleNodeProblem {F} (p : NodeProblem F) : TryNodeProblem F Empty_set := {|
  tn_direction := np_direction _ p;
  tn_bottom := np_bottom _ p;
  tn_boundary g := inr (np_boundary _ p g);
  tn_meet _ _ a b := inr (np_meet _ p a b);
  tn_transfer g node input := inr (np_transfer _ p g node input);
|}.

Context {F E : Type} `{EqDecision F}.

(** The loop over the upstream neighbours of a node *)
Fixpoint meet_upstream (g : G) (p : TryNodeProblem F E) (node : Id) (output : list F)
    (met : option F) (upstream : list Id) : res (E + option F) :=
  match upstream with
  | [] => mret (inr met)
  | from :: upstream =>
      fact ← vget output (index from);
      match met with
      | None => meet_upstream g p node output (Some fact) upstream
      | Some current =>
          match tn_meet _ _ p g node current fact with
          | inl e => mret (inl e)
          | inr merged => meet_upstream g p node output (Some merged) upstream
          end
      end
  end.

(** [for next in downstream.neighbors(graph, node) { worklist.insert(..) }] *)
Definition queue_all (w : Worklist.t) (nodes : list Id) : res Worklist.t :=
  rfold (λ w next, Worklist.insert w (index next)) w nodes.

(** One turn of the loop of [try_solve_along], after the pop and the limit. *)
Definition visit (downstream : TraversalDirection) (g : G) (p : TryNodeProblem F E)
    (entry : option Id) (boundary : F) (w : Worklist.t) (input output : list F)
    (node_index : nat) : res (E + (Worklist.t * list F * list F)) :=
  node ← from_index node_index;
  let met := if decide (entry = Some node) then Some boundary else None in
  froms ← neighbors (against downstream) g node;
  met ← meet_upstream g p node output met froms;
  match met with
  | inl e => mret (inl e)
  | inr met =>
      let met := default boundary met in
      match tn_transfer _ _ p g node met with
      | inl e => mret (inl e)
      | inr transferred =>
          input ← vset input node_index met;
          old ← vget output node_index;
          if decide (transferred ≠ old) then
            output ← vset output node_index transferred;
            nexts ← neighbors downstream g node;
            w ← queue_all w nexts;
            mret (inr (w, input, output))
          else mret (inr (w, input, output))
      end
  end.

(** The loop of [try_solve_along] *)
Fixpoint solve_loop (fuel : nat) (downstream : TraversalDirection) (g : G)
    (p : TryNodeProblem F E) (entry : option Id) (boundary : F) (config : SolveConfig)
    (w : Worklist.t) (input output : list F) (steps : nat)
    : res (TrySolveError E + (list F * list F * nat)) :=
  match fuel with
  | 0 => Stuck
  | S fuel =>
      '(w, popped) ← Worklist.pop_first w;
      match popped with
      | None => mret (inr (input, output, steps))
      | Some node_index =>
          match max_steps config with
          | Some limit =>
              if decide (limit ≤ steps) then
                mret (inl (SolverError (StepLimitExceeded limit steps node_index)))
              else
                v ← visit downstream g p entry boundary w input output node_index;
                match v with
                | inl e => mret (inl (ProblemError e))
                | inr (w, input, output) =>
                    solve_loop fuel downstream g p entry boundary config w input output (steps + 1)
                end
          | None =>
              v ← visit downstream g p entry boundary w input output node_index;
              match v with
              | inl e => mret (inl (ProblemError e))
              | inr (w, input, output) =>
                  solve_loop fuel downstream g p entry boundary config w input output (steps + 1)
              end
          end
      end
  end.

(** [try_solve_along] *)
Definition try_solve_along (fuel : nat) (downstream : TraversalDirection) (g : G)
    (p : TryNodeProblem F E) (w : Worklist.t) (entry : option Id) (config : SolveConfig)
    : res (TrySolveError E + Facts F) :=
  let node_count := gv_node_bound g in
  match tn_boundary _ _ p g with
  | inl e => mret (inl (ProblemError e))
  | inr boundary =>
      let input := replicate node_count (tn_bottom _ _ p g) in
      let output := replicate node_count (tn_bottom _ _ p g) in
      r ← solve_loop fuel downstream g p entry boundary config w input output 0;
      match r with
      | inl e => mret (inl e)
      | inr (input, output, steps) =>
          let '(input, output) := program_order (tn_direction _ _ p) input output in
          mret (inr (mk_facts input output steps))
      end
  end.

(** [try_solve_with_worklist] of the node solver *)
Definition try_solve_with_worklist (fuel : nat) (g : G) (p : TryNodeProblem F E)
    (w : Worklist.t) (entry : option Id) (config : SolveConfig)
    : res (TrySolveError E + Facts F) :=
  try_solve_along fuel (traversal (tn_direction _ _ p)) g p w entry config.

(** The fallible entry points of the node solver *)
Definition try_solve_node_problem_with_config (fuel : nat) (g : G) (p : TryNodeProblem F E)
    (config : SolveConfig) : res (TrySolveError E + Facts F) :=
  w ← Worklist.live g; try_solve_with_worklist fuel g p w None config.
Definition try_solve_node_problem_from_with_config (fuel : nat) (g : G)
    (p : TryNodeProblem F E) (seeds : list Id) (config : SolveConfig)
    : res (TrySolveError E + Facts F) :=
  w ← Worklist.seeded g seeds; try_solve_with_worklist fuel g p w None config.
Definition try_solve_node_problem (fuel : nat) (g : G) (p : TryNodeProblem F E)
    : res (TrySolveError E + Facts F) :=
  try_solve_node_problem_with_config fuel g p config_new.
Definition try_solve_node_problem_from (fuel : nat) (g : G) (p : TryNodeProblem F E)
    (seeds : list Id) : res (TrySolveError E + Facts F) :=
  try_solve_node_problem_from_with_config fuel g p seeds config_new.
End Solvers.

Arguments TryNodeProblem G F E : clear implicits.
Arguments NodeProblem G F : clear implicits.
Arguments tn_direction {G F E} _.
Arguments tn_bottom {G F E} _ _.
Arguments tn_boundary {G F E} _ _.
Arguments tn_meet {G F E} _ _ _ _ _.
Arguments tn_transfer {G F E} _ _ _ _.
Arguments np_direction {G F} _.
Arguments np_bottom {G F} _ _.
Arguments np_boundary {G F} _ _.
Arguments np_meet {G F} _ _ _.
Arguments np_transfer {G F} _ _ _ _.

Section Infallible.
Context {G : Type} {HG : GraphView G} {F : Type} `{EqDecision F}.

(** The infallible entry points of the node solver *)
Definition solve_node_problem_with_config (fuel : nat) (g : G) (p : NodeProblem G F)
    (config : SolveConfig) : res (SolveError + Facts F) :=
  w ← Worklist.live g;
  collapse_infallible <$>
    try_solve_with_worklist fuel g (InfallibleNodeProblem p) w None config.
Definition solve_node_problem_from_with_config (fuel : nat) (g : G) (p : NodeProblem G F)
    (seeds : list Id) (config : SolveConfig) : res (SolveError + Facts F) :=
  w ← Worklist.seeded g seeds;
  collapse_infallible <$>
    try_solve_with_worklist fuel g (InfallibleNodeProblem p) w None config.
Definition solve_node_problem (fuel : nat) (g : G) (p : NodeProblem G F)
    : res (SolveError + Facts F) :=
  solve_node_problem_with_config fuel g p config_new.
Definition solve_node_problem_from (fuel : nat) (g : G) (p : NodeProblem G F)
    (seeds : list Id) : res (SolveError + Facts F) :=
  solve_node_problem_from_with_config fuel g p seeds config_new.
End Infallible.

(** ** Block problems: the solver of a rooted view *)

Section Blocks.
Context {G : Type} {HG : GraphView G} {HR : RootedView G}.

(** [trait TryProblem] *)
Record TryProblem (F E : Type) := mk_try_problem {
  tp_direction : Direction;
  tp_bottom : G → F;
  tp_boundary : G → E + F;
  tp_meet : G → Id → F → F → E + F;
  tp_transfer : G → Id → F → E + F;
}.

(** [trait Problem] *)
Record Problem (F : Type) := mk_problem {
  pb_direction : Direction;
  pb_bottom : G → F;
  pb_boundary : G → F;
  pb_meet : F → F → F;
  pb_transfer : G → Id → F → F;
}.

(** [BlockProblem] *)
Definition BlockProblem {F E} (p : TryProblem F E) : TryNodeProblem G F E := {|
  tn_direction := tp_direction _ _ p;
  tn_bottom := tp_bottom _ _ p;
  tn_boundary := tp_boundary _ _ p;
  tn_meet := tp_meet _ _ p;
  tn_transfer := tp_transfer _ _ p;
|}.

(** [InfallibleProblem] *)
Definition InfallibleProblem {F} (p : Problem F) : TryProblem F Empty_set := {|
  tp_direction := pb_direction _ p;
  tp_bottom := pb_bottom _ p;
  tp_boundary g := inr (pb_boundary _ p g);
  tp_meet _ _ a b := inr (pb_meet _ p a b);
  tp_transfer g block input := inr (pb_transfer _ p g block input);
|}.

Context {F : Type} `{EqDecision F}.

(** [initial_worklist] *)
Definition initial_worklist (g : G) (d : Direction) : res Worklist.t :=
  match d with
  | Forward =>
      order ← depth_first_preorder g (gv_root g) (traversal d);
      Worklist.of_indices (gv_node_bound g) (index <$> order)
  | Backward => Worklist.live g
  end.

(** [try_solve_with_worklist] of the block solver *)
Definition try_solve_blocks {E} (fuel : nat) (g : G) (p : TryProblem F E) (w : Worklist.t)
    (config : SolveConfig) : res (TrySolveError E + Facts F) :=
  let entry := match tp_direction _ _ p with Forward => Some (gv_root g) | Backward => None end in
  try_solve_with_worklist fuel g (BlockProblem p) w entry config.

(** The fallible entry points of the block solver *)
Definition try_solve_problem_with_config {E} (fuel : nat) (g : G) (p : TryProblem F E)
    (config : SolveConfig) : res (TrySolveError E + Facts F) :=
  w ← initial_worklist g (tp_direction _ _ p); try_solve_blocks fuel g p w config.
Definition try_solve_problem_from_with_config {E} (fuel : nat) (g : G) (p : TryProblem F E)
    (seeds : list Id) (config : SolveConfig) : res (TrySolveError E + Facts F) :=
  w ← Worklist.seeded g seeds; try_solve_blocks fuel g p w config.
Definition try_solve_problem {E} (fuel : nat) (g : G) (p : TryProblem F E)
    : res (TrySolveError E + Facts F) :=
  try_solve_problem_with_config fuel g p config_new.
Definition try_solve_problem_from {E} (fuel : nat) (g : G) (p : TryProblem F E)
    (seeds : list Id) : res (TrySolveError E + Facts F) :=
  try_solve_problem_from_with_config fuel g p seeds config_new.

(** The infallible entry points of the block solver *)
Definition solve_problem_with_config (fuel : nat) (g : G) (p : Problem F)
    (config : SolveConfig) : res (SolveError + Facts F) :=
  w ← initial_worklist g (pb_direction _ p);
  collapse_infallible <$> try_solve_blocks fuel g (InfallibleProblem p) w config.
Definition solve_problem_from_with_config (fuel : nat) (g : G) (p : Problem F)
    (seeds : list Id) (config : SolveConfig) : res (SolveError + Facts F) :=
  w ← Worklist.seeded g seeds;
  collapse_infallible <$> try_solve_blocks fuel g (InfallibleProblem p) w config.
Definition solve_problem (fuel : nat) (g : G) (p : Problem F) : res (SolveError + Facts F) :=
  solve_problem_with_config fuel g p config_new.
Definition solve_problem_from (fuel : nat) (g : G) (p : Problem F) (seeds : list Id)
    : res (SolveError + Facts F) :=
  solve_problem_from_with_config fuel g p seeds config_new.
End Blocks.

Arguments TryProblem G F E : clear implicits.
Arguments Problem G F : clear implicits.
Arguments tp_direction {G F E} _.
Arguments tp_bottom {G F E} _ _.
Arguments tp_boundary {G F E} _ _.
Arguments tp_meet {G F E} _ _ _ _ _.
Arguments tp_transfer {G F E} _ _ _ _.
Arguments pb_direction {G F} _.
Arguments pb_bottom {G F} _ _.
Arguments pb_boundary {G F} _ _.
Arguments pb_meet {G F} _ _ _.
Arguments pb_transfer {G F} _ _ _ _.
