(* ===== verification/SolverTheorems.v ===== *)
(** * Proofs of the dataflow solvers

    The loop's invariant: a visited node that is not queued holds the fact its
    upstream neighbours hand it and what its transfer made of it; a node never
    visited still holds bottom; whatever a visited node changed is queued. *)

From S2P Require Import Prelude Words Ids View Store StoreView Samples Traverse Bits Worklist Solver.

(** ** What a node receives *)

(** The fact a node receives: its upstream facts met in order, in front of
    them the boundary at the entry, and the boundary alone when there are
    none. *)
Fixpoint gather {E F} (meet : F → F → E + F) (met : option F) (facts : list F) : E + option F :=
  match facts with
  | [] => inr met
  | fact :: facts =>
      match met with
      | None => gather meet (Some fact) facts
      | Some current =>
          match meet current fact with
          | inl e => inl e
          | inr merged => gather meet (Some merged) facts
          end
      end
  end.

Section Received.
Context {G F E : Type} (g : G) (s : shape) (p : TryNodeProblem G F E)
  (d : TraversalDirection) (entry : option Id) (boundary : F).

Definition received (o : Id → F) (n : Id) : E + F :=
  match gather (tn_meet p g n) (if decide (entry = Some n) then Some boundary else None)
          (o <$> sh_next s (against d) n) with
  | inl e => inl e
  | inr met => inr (default boundary met)
  end.

(** What a node produces from the facts [o] of the others. *)
Definition produced (o : Id → F) (n : Id) : E + F :=
  match received o n with inl e => inl e | inr m => tn_transfer p g n m end.

Lemma received_ext o o' n :
  (∀ m, m ∈ sh_next s (against d) n → o m = o' m) → received o n = received o' n.
Proof.
  intros H. unfold received. replace (o <$> sh_next s (against d) n)
    with (o' <$> sh_next s (against d) n); [done|].
  apply list_fmap_ext. intros i m Hm. symmetry. apply H. by eapply list_elem_of_lookup_2.
Qed.
End Received.

(** A table over the slots of a view that holds [f] at the live nodes. *)
Definition table {F} (s : shape) (l : list F) (f : Id → F) : Prop :=
  length l = sh_bound s ∧ ∀ n, n ∈ sh_nodes s → l !! index n = Some (f n).

Definition upd {F} (f : Id → F) (n : Id) (x : F) : Id → F :=
  λ m, if decide (m = n) then x else f m.

Lemma upd_same {F} (f : Id → F) n x : upd f n x n = x.
Proof. unfold upd. by rewrite decide_True. Qed.
Lemma upd_other {F} (f : Id → F) n x m : m ≠ n → upd f n x m = f m.
Proof. intros. unfold upd. by rewrite decide_False. Qed.

Section Visit.
Context {G : Type} {HG : GraphView G} (g : G) (s : shape) (HV : Views g s).
Context {F E : Type} `{EqDecision F} (p : TryNodeProblem G F E).
Context (d : TraversalDirection) (entry : option Id) (boundary : F).

(** Indices come back as the identities they came from ([DenseId]). *)
Hypothesis dense : ∀ n, n ∈ sh_nodes s → from_index (index n) = Ok n.

Notation recv := (received g s p d entry boundary).
Notation prod := (produced g s p d entry boundary).

Lemma table_set {A} (l : list A) f n x :
  table s l f → n ∈ sh_nodes s →
  vset l (index n) x = Ok (<[index n := x]> l) ∧ table s (<[index n := x]> l) (upd f n x).
Proof using HV dense.
  intros [Hlen Hf] Hn. assert (index n < length l) as Hlt.
  { rewrite Hlen. by apply (so_bound _ (vw_ok (g := g))). }
  split; [by apply vset_lt|]. split; [by rewrite length_insert|]. intros m Hm.
  destruct (decide (m = n)) as [->|Hne].
  - rewrite upd_same. by apply list_lookup_insert_eq.
  - rewrite upd_other by done. rewrite list_lookup_insert_ne; [by apply Hf|].
    intros Heq. apply Hne. symmetry. by apply index_inj.
Qed.

Lemma meet_upstream_spec n output o met froms :
  table s output o → froms ⊆ sh_nodes s →
  meet_upstream g p n output met froms = Ok (gather (tn_meet p g n) met (o <$> froms)).
Proof using HV dense.
  intros [_ Ho]. revert met. induction froms as [|from froms IH]; intros met Hsub; [done|].
  cbn [meet_upstream]. rewrite (vget_eq _ _ _ (Ho from ltac:(set_solver))).
  rewrite fmap_cons. cbn [mbind res_bind gather].
  destruct met as [current|]; [|apply IH; set_solver].
  destruct (tn_meet p g n current (o from)); [done|]. apply IH. set_solver.
Qed.

Lemma neighbors_live d' n : n ∈ sh_nodes s → sh_next s d' n ⊆ sh_nodes s.
Proof using HV dense. intros Hn m Hm. by eapply (so_live _ (vw_ok (g := g))). Qed.

Lemma queue_all_spec w X nodes :
  queue_is w (sh_bound s) X → nodes ⊆ sh_nodes s →
  ∃ w', queue_all w nodes = Ok w' ∧
    queue_is w' (sh_bound s) (list_to_set (index <$> nodes) ∪ X).
Proof using HV dense.
  intros Hw Hsub. unfold queue_all. revert w X Hw.
  induction nodes as [|n nodes IH]; intros w X Hw; cbn [rfold].
  - exists w. split; [done|]. cbn. by replace (∅ ∪ X) with X by set_solver.
  - destruct (queue_insert _ _ _ (index n) Hw) as (w1 & -> & Hw1).
    { apply (so_bound _ (vw_ok (g := g))). set_solver. }
    cbn [mbind res_bind]. destruct (IH ltac:(set_solver) w1 _ Hw1) as (w2 & -> & Hw2).
    exists w2. split; [done|]. rewrite fmap_cons. cbn [list_to_set].
    by replace ({[index n]} ∪ list_to_set (index <$> nodes) ∪ X : gset nat)
      with (list_to_set (index <$> nodes) ∪ ({[index n]} ∪ X) : gset nat) by set_solver.
Qed.

(** A visit never panics: it fails with the problem's error, or stores what
    the node receives and produces and queues downstream what changed. *)
Lemma visit_spec n w X input output i o :
  n ∈ sh_nodes s → queue_is w (sh_bound s) X → table s input i → table s output o →
  match recv o n with
  | inl e => visit d g p entry boundary w input output (index n) = Ok (inl e)
  | inr m =>
      match tn_transfer p g n m with
      | inl e => visit d g p entry boundary w input output (index n) = Ok (inl e)
      | inr t => ∃ w' input' output',
          visit d g p entry boundary w input output (index n) = Ok (inr (w', input', output')) ∧
          table s input' (upd i n m) ∧ table s output' (upd o n t) ∧
          queue_is w' (sh_bound s)
            (if decide (t = o n) then X else list_to_set (index <$> sh_next s d n) ∪ X)
      end
  end.
Proof using HV dense.
  intros Hn Hw Hi Ho. unfold visit. rewrite dense by done. cbn [mbind res_bind].
  rewrite (vw_next (g := g) (against d) n Hn). cbn [mbind res_bind].
  rewrite (meet_upstream_spec _ _ o) by (done || by apply neighbors_live). cbn [mbind res_bind].
  unfold received. destruct (gather _ _ _) as [e|met]; [done|].
  destruct (tn_transfer p g n (default boundary met)) as [e|t]; [done|].
  destruct (table_set _ _ n (default boundary met) Hi Hn) as [-> Hi']. cbn [mbind res_bind].
  rewrite (vget_eq _ _ _ (proj2 Ho n Hn)). cbn [mbind res_bind].
  destruct (decide (t = o n)) as [->|Hne].
  - rewrite decide_False by tauto. eexists _, _, _. split; [reflexivity|]. split; [done|].
    split; [|done]. split; [apply Ho|]. intros m Hm. unfold upd.
    destruct (decide (m = n)) as [->|]; by apply Ho.
  - rewrite decide_True by done. destruct (table_set _ _ n t Ho Hn) as [-> Ho'].
    cbn [mbind res_bind]. rewrite (vw_next (g := g) d n Hn). cbn [mbind res_bind].
    destruct (queue_all_spec w X (sh_next s d n) Hw) as (w' & -> & Hw'); [by apply neighbors_live|].
    eexists _, _, _. split; [reflexivity|]. done.
Qed.
End Visit.

Section Loop.
Context {G : Type} {HG : GraphView G} (g : G) (s : shape) (HV : Views g s).
Context {F E : Type} `{EqDecision F} (p : TryNodeProblem G F E).
Context (d : TraversalDirection) (entry : option Id) (boundary bot : F) (seeds : list Id).
Hypothesis dense : ∀ n, n ∈ sh_nodes s → from_index (index n) = Ok n.

Notation recv := (received g s p d entry boundary).
Notation queued X n := (index n ∈ (X : gset nat)).

(** Node [n] holds the facts its equation asks for. *)
Definition settled (i o : Id → F) (n : Id) : Prop :=
  recv o n = inr (i n) ∧ tn_transfer p g n (i n) = inr (o n).

(** Reached from a seed along the flow of facts. *)
Definition seeded_by (n : Id) : Prop :=
  n ∈ sh_nodes s ∧ ∃ r, r ∈ seeds ∧ rtc (λ x y, y ∈ sh_next s d x) r n.

Record solving (V : gset Id) (X : gset nat) (i o : Id → F) : Prop := {
  sv_queue : ∀ k, k ∈ X → ∃ n, index n = k ∧ seeded_by n;
  sv_visited : ∀ n, n ∈ V → seeded_by n;
  sv_settled : ∀ n, n ∈ V → ¬ queued X n → settled i o n;
  sv_fresh : ∀ n, n ∉ V → i n = bot ∧ o n = bot;
  sv_seeds : ∀ n, n ∈ seeds → n ∈ V ∨ queued X n;
  sv_spread : ∀ n m, n ∈ V → o n ≠ bot → m ∈ sh_next s d n → m ∈ V ∨ queued X m;
}.

Lemma solving_start :
  seeds ⊆ sh_nodes s →
  solving ∅ (list_to_set (index <$> seeds)) (λ _, bot) (λ _, bot).
Proof using HV dense.
  intros Hsub. split; try set_solver.
  - intros k Hk. apply elem_of_list_to_set, list_elem_of_fmap in Hk as (n & -> & Hn).
    exists n. split; [done|]. split; [by apply Hsub|]. by exists n.
Qed.

(** One visit keeps the invariant. *)
Lemma solving_visit V X i o n m t :
  solving V X i o → queued X n → n ∈ sh_nodes s →
  recv o n = inr m → tn_transfer p g n m = inr t →
  solving ({[n]} ∪ V)
    (if decide (t = o n) then X ∖ {[index n]}
     else list_to_set (index <$> sh_next s d n) ∪ (X ∖ {[index n]}))
    (upd i n m) (upd o n t).
Proof using HV dense.
  intros [H1 H2 H3 H4 H5 H6] HnX Hn Hm Ht.
  pose proof (vw_ok (g := g)) as Hok.
  assert (seeded_by n) as Hseed.
  { destruct (H1 _ HnX) as (n' & ->%index_inj & ?). done. }
  set (X' := if decide (t = o n) then _ else _).
  assert (∀ k, k ∈ X' → k ∈ X ∨ ∃ x, x ∈ sh_next s d n ∧ k = index x) as HX1.
  { intros k. unfold X'. destruct (decide (t = o n)); [set_solver|].
    rewrite elem_of_union, elem_of_list_to_set, list_elem_of_fmap. set_solver. }
  assert (∀ x, queued X x → x ≠ n → queued X' x) as HX2.
  { intros x Hx Hne. assert (index x ≠ index n) by (intros ?%index_inj; done).
    unfold X'. destruct (decide (t = o n)); set_solver. }
  assert (∀ x, t ≠ o n → x ∈ sh_next s d n → queued X' x) as HX3.
  { intros x Hne Hx. unfold X'. rewrite decide_False by done.
    apply elem_of_union_l, elem_of_list_to_set, list_elem_of_fmap. by exists x. }
  assert (∀ x, x ∈ sh_nodes s → (t = o n ∨ x ∉ sh_next s d n) →
    recv (upd o n t) x = recv o x) as Hrecv.
  { intros x Hx Hcase. apply received_ext. intros y Hy. destruct (decide (y = n)) as [->|].
    - rewrite upd_same. destruct Hcase as [|Hno]; [done|]. destruct Hno.
      by apply (mirror_elem s d n x Hok).
    - by rewrite upd_other. }
  split.
  - intros k [Hk|(x & Hx & ->)]%HX1; [by apply H1|]. exists x. split; [done|].
    destruct Hseed as (_ & r & Hr & Hrn). split; [by eapply (so_live _ Hok)|].
    exists r. split; [done|]. by eapply rtc_r.
  - intros x [->%elem_of_singleton|Hx]%elem_of_union; [done|auto].
  - intros x Hx HxX. assert (x ∈ sh_nodes s) as Hxn.
    { apply elem_of_union in Hx as [->%elem_of_singleton|Hx]; [done|]. by apply H2. }
    assert (t = o n ∨ x ∉ sh_next s d n) as Hcase.
    { destruct (decide (t = o n)); [by left|right]. intros ?. by apply HxX, HX3. }
    unfold settled. rewrite (Hrecv x Hxn Hcase).
    destruct (decide (x = n)) as [->|Hne].
    + by rewrite !upd_same.
    + rewrite !upd_other by done. apply H3; [set_solver|]. intros ?. by apply HxX, HX2.
  - intros x Hx. rewrite !upd_other by set_solver. apply H4. set_solver.
  - intros x Hx. destruct (decide (x = n)) as [->|Hne]; [set_solver|].
    destruct (H5 x Hx); [set_solver|]. right. by apply HX2.
  - intros x y Hx Hox Hy. destruct (decide (y = n)) as [->|Hne]; [set_solver|].
    destruct (decide (x = n)) as [->|Hxn].
    + rewrite upd_same in Hox. destruct (decide (t = o n)) as [->|Hch]; [|right; by apply HX3].
      destruct (decide (n ∈ V)) as [HnV|HnV]; [|by destruct (H4 n HnV)].
      destruct (H6 n y HnV Hox Hy); [set_solver|]. right. by apply HX2.
    + rewrite upd_other in Hox by done.
      destruct (H6 x y ltac:(set_solver) Hox Hy); [set_solver|]. right. by apply HX2.
Qed.

(** What a finished solve has: the visited nodes solve their equations, the
    rest hold bottom, and the visited set is closed under what carries facts. *)
Record solution (i o : Id → F) : Prop := {
  sn_visited : ∃ V : gset Id,
    (∀ n, n ∈ seeds → n ∈ V) ∧
    (∀ n, n ∈ V → seeded_by n ∧ settled i o n) ∧
    (∀ n, n ∉ V → i n = bot ∧ o n = bot) ∧
    (∀ n m, n ∈ V → o n ≠ bot → m ∈ sh_next s d n → m ∈ V);
}.

Lemma solving_end V i o : solving V ∅ i o → solution i o.
Proof using HV dense.
  intros [H1 H2 H3 H4 H5 H6]. split. exists V. split_and!.
  - intros n Hn. destruct (H5 n Hn); [done|set_solver].
  - intros n Hn. split; [auto|]. apply H3; [done|]. set_solver.
  - done.
  - intros n m Hn Ho Hm. destruct (H6 n m Hn Ho Hm); [done|set_solver].
Qed.

(** The outcome of a run of the loop. *)
Definition loop_outcome (config : SolveConfig)
    (r : TrySolveError E + (list F * list F * nat)) : Prop :=
  match r with
  | inl (ProblemError e) => ∃ o n, n ∈ sh_nodes s ∧
      produced g s p d entry boundary o n = inl e
  | inl (SolverError (StepLimitExceeded limit steps pending)) =>
      max_steps config = Some limit ∧ steps = limit ∧
      ∃ n, n ∈ sh_nodes s ∧ pending = index n
  | inr (input, output, steps) =>
      (∀ limit, max_steps config = Some limit → steps ≤ limit) ∧
      ∃ i o, table s input i ∧ table s output o ∧ solution i o
  end.

(** The state of the loop between two turns. *)
Record loop_at (V : gset Id) (X : gset nat) (i o : Id → F) (w : Worklist.t)
    (input output : list F) : Prop := {
  la_queue : queue_is w (sh_bound s) X;
  la_input : table s input i;
  la_output : table s output o;
  la_solving : solving V X i o;
}.

Notation run fuel config w input output steps :=
  (solve_loop fuel d g p entry boundary config w input output steps).

(** One turn: the queue is empty, the limit is reached, the problem fails, or
    the least queued node is visited. *)
Lemma solve_loop_turn fuel config V X i o w input output steps :
  loop_at V X i o w input output →
  (X = ∅ ∧ run (S fuel) config w input output steps = Ok (inr (input, output, steps))) ∨
  ∃ n, n ∈ sh_nodes s ∧ queued X n ∧
    ((∃ limit, max_steps config = Some limit ∧ limit ≤ steps ∧
        run (S fuel) config w input output steps =
          Ok (inl (SolverError (StepLimitExceeded limit steps (index n))))) ∨
     ((∀ limit, max_steps config = Some limit → steps < limit) ∧
       ((∃ e, produced g s p d entry boundary o n = inl e ∧
           run (S fuel) config w input output steps = Ok (inl (ProblemError e))) ∨
        (∃ m t w' input' output', recv o n = inr m ∧ tn_transfer p g n m = inr t ∧
           run (S fuel) config w input output steps =
             run fuel config w' input' output' (steps + 1) ∧
           loop_at ({[n]} ∪ V)
             (if decide (t = o n) then X ∖ {[index n]}
              else list_to_set (index <$> sh_next s d n) ∪ (X ∖ {[index n]}))
             (upd i n m) (upd o n t) w' input' output')))).
Proof using HV dense.
  intros [Hq Hi Ho Hs]. cbn [solve_loop].
  destruct (pop_first_spec _ _ _ Hq) as (w1 & popped & -> & Hl & Hw1). cbn [mbind res_bind].
  destruct popped as [k|]; cbn [least without] in *; [right|by left].
  destruct Hl as [Hk _]. destruct (sv_queue _ _ _ _ Hs k Hk) as (n & <- & [Hn _]).
  exists n. split; [done|]. split; [done|].
  pose proof (visit_spec g s HV p d entry boundary dense n w1 _ input output i o Hn Hw1 Hi Ho)
    as Hv.
  assert (∀ K : (E + (Worklist.t * list F * list F)) → res (TrySolveError E + (list F * list F * nat)),
    (∃ e, produced g s p d entry boundary o n = inl e ∧
       (visit d g p entry boundary w1 input output (index n) ≫= K) = K (inl e)) ∨
    (∃ m t w' input' output', recv o n = inr m ∧ tn_transfer p g n m = inr t ∧
       (visit d g p entry boundary w1 input output (index n) ≫= K) =
         K (inr (w', input', output')) ∧
       loop_at ({[n]} ∪ V)
         (if decide (t = o n) then X ∖ {[index n]}
          else list_to_set (index <$> sh_next s d n) ∪ (X ∖ {[index n]}))
         (upd i n m) (upd o n t) w' input' output')) as Hcase.
  { intros K. unfold produced. destruct (recv o n) as [e|m] eqn:Hm.
    - left. exists e. by rewrite Hv.
    - destruct (tn_transfer p g n m) as [e|t] eqn:Ht; [left; exists e; by rewrite Hv|right].
      destruct Hv as (w' & input' & output' & -> & Hi' & Ho' & Hq').
      exists m, t, w', input', output'. split_and!; [done..|].
      split; [done..|]. by apply solving_visit. }
  destruct (max_steps config) as [limit|].
  - destruct (decide (limit ≤ steps)) as [Hle|Hgt]; [left; by eauto|right].
    split; [intros ? [= <-]; lia|].
    edestruct Hcase as [(e & ? & E')|(m & t & w' & input' & output' & ? & ? & E' & ?)].
    + left. exists e. split; [done|]. rewrite E'. reflexivity.
    + right. exists m, t, w', input', output'. split_and!; [done..| |done]. rewrite E'. reflexivity.
  - right. split; [done|].
    edestruct Hcase as [(e & ? & E')|(m & t & w' & input' & output' & ? & ? & E' & ?)].
    + left. exists e. split; [done|]. rewrite E'. reflexivity.
    + right. exists m, t, w', input', output'. split_and!; [done..| |done]. rewrite E'. reflexivity.
Qed.

(** Whatever the loop returns is right, and it never panics. *)
Lemma solve_loop_sound fuel config V X i o w input output steps :
  loop_at V X i o w input output →
  (∀ limit, max_steps config = Some limit → steps ≤ limit) →
  run fuel config w input output steps = Stuck ∨
  ∃ r, run fuel config w input output steps = Ok r ∧ loop_outcome config r.
Proof using HV dense.
  revert V X i o w input output steps.
  induction fuel as [|fuel IH]; intros V X i o w input output steps Hat Hlim; [by left|].
  destruct (solve_loop_turn fuel config _ _ _ _ _ _ _ steps Hat)
    as [[-> ->]|(n & Hn & Hq & [(limit & Hc & Hle & ->)|(Hlt & [(e & He & ->)|
        (m & t & w' & input' & output' & _ & _ & -> & Hat')])])].
  - right. eexists. split; [done|]. split; [done|]. exists i, o.
    split_and!; [apply Hat..|]. eapply solving_end. apply Hat.
  - right. eexists. split; [done|]. cbn. split_and!; [done| |eauto].
    specialize (Hlim _ Hc). lia.
  - right. eexists. split; [done|]. cbn. eauto.
  - eapply IH; [done|]. intros limit Hc. specialize (Hlt _ Hc). lia.
Qed.

(** A step limit bounds the turns. *)
Lemma solve_loop_bounded fuel config limit V X i o w input output steps :
  loop_at V X i o w input output →
  max_steps config = Some limit → steps ≤ limit → limit + 1 < fuel + steps →
  run fuel config w input output steps ≠ Stuck.
Proof using HV dense.
  intros Hat Hc. revert V X i o w input output steps Hat.
  induction fuel as [|fuel IH]; intros V X i o w input output steps Hat Hle Hf; [lia|].
  destruct (solve_loop_turn fuel config _ _ _ _ _ _ _ steps Hat)
    as [[-> ->]|(n & Hn & Hq & [(limit' & Hc' & Hle' & ->)|(Hlt & [(e & He & ->)|
        (m & t & w' & input' & output' & _ & _ & -> & Hat')])])]; try done.
  specialize (Hlt _ Hc). eapply IH; [done|lia|lia].
Qed.

(** More fuel changes nothing. *)
Lemma solve_loop_more fuel fuel' config w input output steps r :
  run fuel config w input output steps = Ok r → fuel ≤ fuel' →
  run fuel' config w input output steps = Ok r.
Proof using.
  revert fuel' w input output steps.
  induction fuel as [|fuel IH]; intros [|fuel'] w input output steps; try done; [lia|].
  cbn [solve_loop]. intros (x & -> & Hr)%res_bind_Ok Hle. cbn [mbind res_bind].
  destruct x as [w1 [k|]]; [|done].
  assert (∀ v, (v ≫= λ v : E + (Worklist.t * list F * list F), match v with
      | inl e => mret (inl (ProblemError e))
      | inr (w, input, output) => run fuel config w input output (steps + 1)
      end) = Ok r →
    (v ≫= λ v : E + (Worklist.t * list F * list F), match v with
      | inl e => mret (inl (ProblemError e))
      | inr (w, input, output) => run fuel' config w input output (steps + 1)
      end) = Ok r) as Hstep.
  { intros v (y & -> & Hy)%res_bind_Ok. cbn [mbind res_bind].
    destruct y as [e|[[w2 i2] o2]]; [done|]. apply IH; [done|lia]. }
  destruct (max_steps config) as [limit|]; [destruct (decide (limit ≤ steps)); [done|]|];
    by apply Hstep.
Qed.
End Loop.

Lemma size_list_le {A} `{Countable A} (l : list A) : size (list_to_set l : gset A) ≤ length l.
Proof.
  induction l as [|x l IH]; cbn; [by rewrite size_empty|].
  pose proof (size_union_alt ({[x]} : gset A) (list_to_set l)) as ->.
  rewrite size_singleton. pose proof (subseteq_size (list_to_set l ∖ {[x]}) (list_to_set l : gset A) ltac:(set_solver)). lia.
Qed.

Lemma sum_upd {F} (height : F → nat) (o : Id → F) n t (l : list Id) :
  n ∈ l → NoDup l →
  sum_list_with (λ m, height (upd o n t m)) l + height (o n) =
  sum_list_with (λ m, height (o m)) l + height t.
Proof.
  intros Hin Hnd. induction Hnd as [|x l Hx Hnd IH]; [set_solver|]. cbn.
  destruct (decide (x = n)) as [->|Hne].
  - rewrite upd_same. assert (sum_list_with (λ m, height (upd o n t m)) l =
      sum_list_with (λ m, height (o m)) l) as ->; [|lia].
    clear -Hx. induction l as [|y l IH]; [done|]. cbn.
    rewrite upd_other by set_solver. rewrite IH by set_solver. done.
  - rewrite upd_other by done. specialize (IH ltac:(set_solver)). lia.
Qed.

(** ** Monotone problems over a finite-height order *)

Section Lattice.
Context {G : Type} {HG : GraphView G} (g : G) (s : shape) (HV : Views g s).
Context {F : Type} `{EqDecision F} (p : NodeProblem G F).
Context (d : TraversalDirection) (entry : option Id) (seeds : list Id).
Hypothesis dense : ∀ n, n ∈ sh_nodes s → from_index (index n) = Ok n.

Context (le : F → F → Prop) `{!PreOrder le}.
Hypothesis meet_mono : ∀ a a' b b', le a a' → le b b' → le (np_meet p a b) (np_meet p a' b').
Hypothesis transfer_mono : ∀ n a b, le a b → le (np_transfer p g n a) (np_transfer p g n b).

Notation boundary := (np_boundary p g).
Notation bot := (np_bottom p g).
Notation q := (InfallibleNodeProblem p).

(** The equations' right-hand sides, without errors. *)
Definition join_all (met : option F) (facts : list F) : option F :=
  foldl (λ acc fact, Some (match acc with None => fact | Some c => np_meet p c fact end))
    met facts.
Definition inflow (o : Id → F) (n : Id) : F :=
  default boundary (join_all (if decide (entry = Some n) then Some boundary else None)
    (o <$> sh_next s (against d) n)).
Definition outflow (o : Id → F) (n : Id) : F := np_transfer p g n (inflow o n).

Lemma gather_infallible met facts :
  gather (λ a b, inr (np_meet p a b) : Empty_set + F) met facts = inr (join_all met facts).
Proof using.
  revert met. induction facts as [|f facts IH]; intros met; [done|].
  cbn [gather]. destruct met; apply IH.
Qed.

Lemma received_infallible o n : received g s q d entry boundary o n = inr (inflow o n).
Proof using. unfold received. cbn. by rewrite gather_infallible. Qed.

Definition below (o o' : Id → F) : Prop := ∀ n, n ∈ sh_nodes s → le (o n) (o' n).

Lemma join_all_mono m m' l l' :
  option_Forall2 le m m' → Forall2 le l l' → option_Forall2 le (join_all m l) (join_all m' l').
Proof using meet_mono.
  intros Hm Hl. revert m m' Hm. induction Hl as [|x y l l' Hxy Hl IH]; intros m m' Hm; [done|].
  cbn. apply IH. destruct Hm; constructor; [by apply meet_mono|done].
Qed.

Lemma outflow_mono o o' n :
  n ∈ sh_nodes s → below o o' → le (outflow o n) (outflow o' n).
Proof using HV meet_mono transfer_mono PreOrder0.
  intros Hn Hle. apply transfer_mono. unfold inflow.
  assert (option_Forall2 le
    (join_all (if decide (entry = Some n) then Some boundary else None)
      (o <$> sh_next s (against d) n))
    (join_all (if decide (entry = Some n) then Some boundary else None)
      (o' <$> sh_next s (against d) n))) as H.
  { apply join_all_mono.
    - destruct (decide _); constructor. reflexivity.
    - apply Forall2_fmap_2, Forall_Forall2_diag, Forall_forall. intros m Hm. apply Hle.
      by eapply (so_live _ (vw_ok (g := g))). }
  destruct H; cbn; [done|reflexivity].
Qed.

Lemma below_upd o n t : le (o n) t → below o (upd o n t).
Proof using PreOrder0.
  intros Ht m Hm. destruct (decide (m = n)) as [->|].
  - by rewrite upd_same.
  - rewrite upd_other by done. reflexivity.
Qed.

(** Facts only rise: every node's fact is below what its equation gives. *)
Definition rising (o : Id → F) : Prop := ∀ n, n ∈ sh_nodes s → le (o n) (outflow o n).

Lemma rising_upd o n : n ∈ sh_nodes s → rising o → rising (upd o n (outflow o n)).
Proof using HV meet_mono transfer_mono PreOrder0.
  intros Hn Hr m Hm. assert (below o (upd o n (outflow o n))) as Hb by (apply below_upd; auto).
  destruct (decide (m = n)) as [->|].
  - rewrite upd_same. by apply outflow_mono.
  - rewrite upd_other by done. etrans; [by apply Hr|]. by apply outflow_mono.
Qed.

(** ** Progress *)
Context (height : F → nat) (H : nat).
Hypothesis height_up : ∀ a b, le a b → a ≠ b → height a < height b.
Hypothesis height_le : ∀ a, height a ≤ H.

Definition total (o : Id → F) : nat := sum_list_with (λ n, height (o n)) (sh_nodes s).
Notation nodes_n := (length (sh_nodes s)).

Lemma total_le o : total o ≤ nodes_n * H.
Proof using height_le.
  unfold total. generalize (sh_nodes s). intros l. induction l as [|n l IH]; [done|]. cbn.
  specialize (height_le (o n)). lia.
Qed.

Lemma total_upd o n t :
  n ∈ sh_nodes s → total (upd o n t) + height (o n) = total o + height t.
Proof using HV. intros Hn. apply sum_upd; [done|]. apply (vw_ok (g := g)). Qed.

Definition measure (X : gset nat) (o : Id → F) : nat := (nodes_n * H - total o) * (nodes_n + 1) + size X.

Lemma queue_bound (X : gset nat) :
  (∀ k, k ∈ X → ∃ n, index n = k ∧ n ∈ sh_nodes s) → size X ≤ nodes_n.
Proof using.
  intros HX. rewrite <-(length_fmap index (sh_nodes s)).
  etrans; [|apply size_list_le]. apply subseteq_size. intros k Hk.
  destruct (HX k Hk) as (n & <- & Hn). apply elem_of_list_to_set, list_elem_of_fmap. eauto.
Qed.

Hypothesis bot_least : ∀ a, le bot a.

(** A solution from above: every equation gives at most the fact held. *)
Definition above_equations (S : Id → F) : Prop :=
  ∀ n, n ∈ sh_nodes s → le (outflow S n) (S n).

Definition least_so_far (o : Id → F) : Prop := ∀ S, above_equations S → below o S.

Notation at_ V X i o w input output :=
  (loop_at g s q d entry boundary bot seeds V X i o w input output).

(** A visit raises a fact or only shortens the queue. *)
Lemma measure_down V X i o n t w input output :
  (∀ k, k ∈ X → ∃ x, index x = k ∧ x ∈ sh_nodes s) →
  n ∈ sh_nodes s → index n ∈ X → rising o → t = outflow o n →
  (∀ k, k ∈ (if decide (t = o n) then X ∖ {[index n]}
             else list_to_set (index <$> sh_next s d n) ∪ (X ∖ {[index n]})) →
    ∃ x, index x = k ∧ x ∈ sh_nodes s) →
  at_ V X i o w input output →
  measure (if decide (t = o n) then X ∖ {[index n]}
     else list_to_set (index <$> sh_next s d n) ∪ (X ∖ {[index n]})) (upd o n t) <
  measure X o.
Proof using All.
  intros HX Hn HnX Hr -> HX' _. pose proof (total_upd o n (outflow o n) Hn) as Htot.
  pose proof (total_le (upd o n (outflow o n))) as Hle. apply queue_bound in HX'.
  unfold measure. destruct (decide (outflow o n = o n)) as [He|Hne].
  - rewrite He in Htot |- *. replace (total (upd o n (o n))) with (total o) by lia.
    rewrite size_difference, size_singleton by set_solver.
    assert (size X ≠ 0) by (intros ?%size_empty_inv; set_solver). lia.
  - pose proof (height_up (o n) (outflow o n) (Hr n Hn) (not_eq_sym Hne)).
    set (a := total (upd o n (outflow o n))) in *. set (b := nodes_n * H) in *.
    assert ((b - a) * (nodes_n + 1) + (nodes_n + 1) ≤ (b - total o) * (nodes_n + 1)); [|lia].
    replace ((b - a) * (nodes_n + 1) + (nodes_n + 1)) with ((b - a + 1) * (nodes_n + 1)) by lia.
    apply Nat.mul_le_mono_r. lia.
Qed.

Lemma solve_loop_converges fuel V X i o w input output steps :
  at_ V X i o w input output → rising o → least_so_far o → measure X o < fuel →
  ∃ input' output' steps' i' o',
    solve_loop fuel d g q entry boundary config_new w input output steps =
      Ok (inr (input', output', steps')) ∧
    table s input' i' ∧ table s output' o' ∧
    solution g s q d entry boundary bot seeds i' o' ∧ least_so_far o'.
Proof using All.
  revert V X i o w input output steps.
  induction fuel as [|fuel IH]; intros V X i o w input output steps Hat Hr Hleast Hm; [lia|].
  assert (∀ V X i o w input output, at_ V X i o w input output →
    ∀ k, k ∈ X → ∃ x, index x = k ∧ x ∈ sh_nodes s) as HX.
  { intros V0 X0 i0 o0 w0 in0 out0 Hat0 k Hk.
    destruct (sv_queue _ _ _ _ _ _ _ _ _ _ _ _ (la_solving _ _ _ _ _ _ _ _ _ _ _ _ _ _ _ Hat0) k Hk)
      as (x & ? & ? & _). eauto. }
  destruct (solve_loop_turn g s HV q d entry boundary bot seeds dense fuel config_new
    _ _ _ _ _ _ _ steps Hat) as [[-> ->]|(n & Hn & Hq & [(limit & [=] & _)|(_ & [(e & _)|
        (m & t & w' & input' & output' & Hrecv & Ht & -> & Hat')])])].
  - exists input, output, steps, i, o. split_and!; [done|apply Hat|apply Hat| |done].
    eapply solving_end; [done|done|apply Hat].
  - destruct e.
  - rewrite received_infallible in Hrecv. injection Hrecv as <-.
    cbn in Ht. injection Ht as <-. fold (outflow o n) in *.
    eapply (IH _ _ _ _ _ _ _ _ Hat').
    + by apply rising_upd.
    + intros S HS m Hm'. destruct (decide (m = n)) as [->|].
      * rewrite upd_same. etrans; [|by apply HS]. apply outflow_mono; [done|]. by apply Hleast.
      * rewrite upd_other by done. by apply Hleast.
    + pose proof (measure_down V X i o n _ w input output (HX _ _ _ _ _ _ _ Hat) Hn Hq Hr eq_refl
        (HX _ _ _ _ _ _ _ Hat') Hat). lia.
Qed.
End Lattice.

(** * What the dataflow solvers promise

    The solver theorems of the development, over any view that keeps the
    contract and whose identities come back from their indices, with the
    witnesses on the sample store. *)


(** The facts of a solve as functions of the node: what each live node
    receives and what it transfers, whichever way the analysis flows. *)
Definition reads {F} (s : shape) (d : Direction) (facts : Facts F) (i o : Id → F) : Prop :=
  ∀ n, n ∈ sh_nodes s →
    match d with
    | Forward => fact_in facts n = Ok (i n) ∧ fact_out facts n = Ok (o n)
    | Backward => fact_out facts n = Ok (i n) ∧ fact_in facts n = Ok (o n)
    end.

Definition dense_ids (s : shape) : Prop := ∀ n, n ∈ sh_nodes s → from_index (index n) = Ok n.

(** The nodes reached from [seeds] along the flow of facts. *)
Definition flows_to (s : shape) (d : Direction) (seeds : list Id) (n : Id) : Prop :=
  ∃ r, r ∈ seeds ∧ rtc (λ x y, y ∈ sh_next s (traversal d) x) r n.

Section Solve.
Context {G : Type} {HG : GraphView G} (g : G) (s : shape) (HV : Views g s) (Hd : dense_ids s).

Section Fallible.
Context {F E : Type} `{EqDecision F} (p : TryNodeProblem G F E).
Notation dir := (tn_direction p).
Notation recv boundary entry o n := (received g s p (traversal dir) entry boundary o n).

(** What a run gives: the problem's own error, the limit with work left, or
    facts of which [Q] holds. *)
Definition outcome (Q : F → (Id → F) → (Id → F) → Prop) (entry : option Id)
    (config : SolveConfig) (r : TrySolveError E + Facts F) : Prop :=
  match r with
  | inl (ProblemError e) => tn_boundary p g = inl e ∨ ∃ boundary o n,
      tn_boundary p g = inr boundary ∧ n ∈ sh_nodes s ∧
      (recv boundary entry o n = inl e ∨
       ∃ m, recv boundary entry o n = inr m ∧ tn_transfer p g n m = inl e)
  | inl (SolverError (StepLimitExceeded limit steps pending)) =>
      max_steps config = Some limit ∧ steps = limit ∧
      ∃ n, n ∈ sh_nodes s ∧ pending = index n
  | inr facts =>
      (∀ limit, max_steps config = Some limit → f_steps facts ≤ limit) ∧
      ∃ boundary i o, tn_boundary p g = inr boundary ∧ reads s dir facts i o ∧ Q boundary i o
  end.

Lemma outcome_mono (Q R : F → (Id → F) → (Id → F) → Prop) entry config r :
  (∀ b i o, Q b i o → R b i o) → outcome Q entry config r → outcome R entry config r.
Proof using.
  intros HQR. destruct r as [[e|[limit steps pending]]|facts]; [done..|].
  intros [Hl (b & i & o & Hb & Hr & HQ)]. split; [done|]. exists b, i, o. auto.
Qed.

(** The run is short of fuel only when the limit does not fit in it. *)
Definition answers (fuel : nat) (config : SolveConfig) (m : res (TrySolveError E + Facts F))
    (P : TrySolveError E + Facts F → Prop) : Prop :=
  (m = Stuck ∧ ∀ limit, max_steps config = Some limit → fuel < limit + 2) ∨
  ∃ r, m = Ok r ∧ P r.

(** The equation of a node: what it received and what it made of it. *)
Definition equation (entry : option Id) (boundary : F) (i o : Id → F) (n : Id) : Prop :=
  recv boundary entry o n = inr (i n) ∧ tn_transfer p g n (i n) = inr (o n).

(** Facts of a run from [seeds]: a visited set that holds the seeds, stays
    within what they reach, and is closed under the flow of facts other than
    bottom; its nodes solve their equations and all others hold bottom. *)
Definition solved_from (seeds : list Id) (entry : option Id) (boundary : F) (i o : Id → F) : Prop :=
  ∃ V : gset Id,
    (∀ n, n ∈ seeds → n ∈ V) ∧
    (∀ n, n ∈ V → n ∈ sh_nodes s ∧ flows_to s dir seeds n ∧ equation entry boundary i o n) ∧
    (∀ n, n ∉ V → i n = tn_bottom p g ∧ o n = tn_bottom p g) ∧
    (∀ n m, n ∈ V → o n ≠ tn_bottom p g → m ∈ sh_next s (traversal dir) n → m ∈ V).

Lemma solution_solved seeds entry boundary i o :
  solution g s p (traversal dir) entry boundary (tn_bottom p g) seeds i o →
  solved_from seeds entry boundary i o.
Proof using.
  intros [(V & H1 & H2 & H3 & H4)]. exists V. split; [done|]. split; [|done].
  intros n Hn. destruct (H2 n Hn) as [[? ?] ?]. done.
Qed.

Lemma table_reads (input output : list F) steps i o :
  table s input i → table s output o →
  reads s dir (let '(a, b) := program_order dir input output in mk_facts a b steps) i o.
Proof using.
  intros [_ Hi] [_ Ho] n Hn. unfold program_order, fact_in, fact_out.
  destruct dir; cbn; split; apply vget_eq; auto.
Qed.

Lemma loop_start w boundary entry seeds :
  seeds ⊆ sh_nodes s → queue_is w (sh_bound s) (list_to_set (index <$> seeds)) →
  loop_at g s p (traversal dir) entry boundary (tn_bottom p g) seeds ∅
    (list_to_set (index <$> seeds)) (λ _, tn_bottom p g) (λ _, tn_bottom p g) w
    (replicate (gv_node_bound g) (tn_bottom p g)) (replicate (gv_node_bound g) (tn_bottom p g)).
Proof using HV Hd.
  intros Hs Hw. rewrite vw_bound.
  assert (table s (replicate (sh_bound s) (tn_bottom p g)) (λ _, tn_bottom p g)) as Ht.
  { split; [by rewrite length_replicate|]. intros n Hn. apply lookup_replicate_2.
    by apply (so_bound _ (vw_ok (g := g))). }
  split; [done..|]. by apply (solving_start g s HV).
Qed.

(** A run from a queue of live seeds returns a right outcome. *)
Lemma run_outcome fuel w seeds entry config :
  seeds ⊆ sh_nodes s → queue_is w (sh_bound s) (list_to_set (index <$> seeds)) →
  answers fuel config (try_solve_with_worklist fuel g p w entry config)
    (outcome (solved_from seeds entry) entry config).
Proof using HV Hd.
  intros Hs Hw. unfold try_solve_with_worklist, try_solve_along.
  destruct (tn_boundary p g) as [e|boundary] eqn:Hb.
  { right. eexists. split; [done|]. by left. }
  pose proof (loop_start w boundary entry seeds Hs Hw) as Hat.
  destruct (solve_loop_sound g s HV p _ _ _ _ _ Hd fuel config _ _ _ _ _ _ _ 0 Hat)
    as [Hst|(r & -> & Hr)]; [intros; lia| |].
  - left. rewrite Hst. split; [done|]. intros limit Hc.
    destruct (decide (fuel < limit + 2)) as [|Hge]; [done|].
    exfalso. eapply (solve_loop_bounded g s HV p _ _ _ _ _ Hd fuel config limit _ _ _ _ _ _ _ 0 Hat);
      [done|lia|lia|done].
  - right. cbn [mbind res_bind]. destruct r as [[e|[limit steps pending]]|[[input output] steps]].
    + eexists. split; [done|]. right. destruct Hr as (o & n & Hn & He).
      exists boundary, o, n. split; [done|]. split; [done|]. unfold produced in He.
      destruct (received _ _ _ _ _ _ o n) as [e'|m]; [left; congruence|right; eauto].
    + eexists. split; [done|]. exact Hr.
    + destruct Hr as (Hlim & i & o & Hi & Ho & Hsol).
      pose proof (table_reads input output steps i o Hi Ho) as Hrd.
      destruct (program_order dir input output) as [a b]. eexists. split; [done|].
      cbn. split; [done|]. exists boundary, i, o.
      split_and!; [done|done|by apply solution_solved].
Qed.

Lemma solved_all entry boundary i o :
  solved_from (sh_nodes s) entry boundary i o →
  ∀ n, n ∈ sh_nodes s → equation entry boundary i o n.
Proof using. intros (V & H1 & H2 & _) n Hn. by apply H2, H1. Qed.
End Fallible.
End Solve.

(** ** Node problems *)

(** The full node solve never panics. It fails with an error of the
    problem's own, reports the step limit with work left exactly at the limit,
    or returns facts that solve the equation of every live node: it received
    the meet of its upstream facts, or the boundary without any, and transfers
    what it received. With a step limit it always returns. *)
Theorem node_solve_is_fixpoint {G} `{HG : GraphView G} (g : G) (s : shape) {F E}
    `{EqDecision F} (p : TryNodeProblem G F E) (fuel : nat) (config : SolveConfig) :
  Views g s → dense_ids s →
  answers fuel config (try_solve_node_problem_with_config fuel g p config)
    (outcome g s p (λ boundary i o, ∀ n, n ∈ sh_nodes s → equation g s p None boundary i o n)
      None config).
Proof.
  intros HV Hd. unfold try_solve_node_problem_with_config.
  destruct (live_spec g s HV) as (w & -> & Hw). cbn [mbind res_bind].
  destruct (run_outcome g s HV Hd p fuel w (sh_nodes s) None config) as [?|(r & Hr & Ho)];
    [done|done|by left|].
  right. exists r. split; [done|]. eapply outcome_mono; [|exact Ho].
  intros b i o. apply solved_all.
Qed.

(** A seeded node solve panics when a seed is not a live node. Otherwise
    the nodes it visits hold the seeds, lie within what the seeds reach and are
    closed under the flow of facts; they solve their equations, and every other
    node holds bottom. Seeding every live node, in any order and with
    repetitions, is the full solve. *)
Theorem seeded_solve_visits_what_flows {G} `{HG : GraphView G} (g : G) (s : shape) {F E}
    `{EqDecision F} (p : TryNodeProblem G F E) (fuel : nat) (config : SolveConfig)
    (seeds : list Id) :
  Views g s → dense_ids s →
  (¬ seeds ⊆ sh_nodes s →
    try_solve_node_problem_from_with_config fuel g p seeds config =
      Panic "seed node is out of range") ∧
  (seeds ⊆ sh_nodes s →
    answers fuel config (try_solve_node_problem_from_with_config fuel g p seeds config)
      (outcome g s p (solved_from g s p seeds None) None config)) ∧
  ((∀ n, n ∈ seeds ↔ n ∈ sh_nodes s) →
    try_solve_node_problem_from_with_config fuel g p seeds config =
      try_solve_node_problem_with_config fuel g p config).
Proof.
  intros HV Hd. unfold try_solve_node_problem_from_with_config, try_solve_node_problem_with_config.
  destruct (seeded_spec g s HV seeds) as [Hin Hout]. split_and!.
  - intros Hn. by rewrite Hout.
  - intros Hs. destruct (Hin Hs) as (w & -> & Hw). cbn [mbind res_bind].
    by apply run_outcome.
  - intros Heq. by rewrite (seeded_all g s seeds HV Heq).
Qed.

(** ** Block problems *)

(** The nodes reached from the root along the edges. *)
Definition from_root {G} `{HG : GraphView G} `{HR : !RootedView G} (g : G) (s : shape) (n : Id) : Prop :=
  rtc (λ x y, y ∈ sh_next s Outgoing x) (gv_root g) n.

(** The initial worklist queues the blocks reachable from the root, or all. *)
Lemma initial_worklist_spec {G} `{HG : GraphView G} `{HR : !RootedView G} (g : G) (s : shape)
    (d : Direction) :
  Views g s → gv_root g ∈ sh_nodes s →
  ∃ w seeds, initial_worklist g d = Ok w ∧
    queue_is w (sh_bound s) (list_to_set (index <$> seeds)) ∧ seeds ⊆ sh_nodes s ∧
    ∀ n, n ∈ seeds ↔ match d with Forward => from_root g s n | Backward => n ∈ sh_nodes s end.
Proof.
  intros HV Hroot. destruct d; cbn [initial_worklist traversal].
  - destruct (depth_first_preorder_spec g s HV Outgoing (gv_root g) Hroot) as (o & V & -> & Hp).
    cbn [mbind res_bind]. pose proof (preorder_facts _ _ _ _ _ Hp) as Hf.
    assert (∀ x, x ∈ o ↔ from_root g s x) as Ho.
    { intros x. rewrite (search_reachable _ _ _ _ x Hf). split.
      - by intros (n & ->%list_elem_of_singleton & ?).
      - intros ?. exists (gv_root g). split; [left|done]. }
    assert (o ⊆ sh_nodes s) as Hsub.
    { intros x Hx%Ho. clear -HV Hroot Hx. induction Hx as [|x y z Hxy _ IH]; [done|].
      apply IH. by eapply (so_live _ (vw_ok (g := g))). }
    destruct (queue_of (gv_node_bound g) (index <$> o)) as (w & Hw & Hq).
    { rewrite (vw_bound (g := g) (s := s)). apply Forall_fmap, Forall_forall.
      intros x Hx%Hsub. by apply (so_bound _ (vw_ok (g := g))). }
    rewrite (vw_bound (g := g) (s := s)) in Hw, Hq |- *. exists w, o. done.
  - destruct (live_spec g s HV) as (w & Hw & Hq). exists w, (sh_nodes s). done.
Qed.

Definition entry_of {G} `{HG : GraphView G} `{HR : !RootedView G} (g : G) (d : Direction) : option Id :=
  match d with Forward => Some (gv_root g) | Backward => None end.

(** C7: the full block solve never panics. Forward, the blocks reachable from
    the root solve their equations, the root with the boundary in front of
    whatever flows back into it, and unreachable blocks hold bottom; backward,
    every block solves its equation. Errors and limits are as for nodes. *)
Theorem block_solve_is_fixpoint {G} `{HG : GraphView G} `{HR : !RootedView G} (g : G) (s : shape)
    {F E} `{EqDecision F} (p : TryProblem G F E) (fuel : nat) (config : SolveConfig) :
  Views g s → dense_ids s → gv_root g ∈ sh_nodes s →
  answers fuel config (try_solve_problem_with_config fuel g p config)
    (outcome g s (BlockProblem p) (λ boundary i o, ∀ n, n ∈ sh_nodes s →
       match tp_direction p with
       | Forward =>
           (from_root g s n → equation g s (BlockProblem p) (Some (gv_root g)) boundary i o n) ∧
           (¬ from_root g s n → i n = tp_bottom p g ∧ o n = tp_bottom p g)
       | Backward => equation g s (BlockProblem p) None boundary i o n
       end) (entry_of g (tp_direction p)) config).
Proof.
  intros HV Hd Hroot. unfold try_solve_problem_with_config.
  destruct (initial_worklist_spec g s (tp_direction p) HV Hroot) as (w & seeds & -> & Hw & Hsub & Hseeds).
  cbn [mbind res_bind]. unfold try_solve_blocks.
  destruct (run_outcome g s HV Hd (BlockProblem p) fuel w seeds (entry_of g (tp_direction p)) config)
    as [?|(r & Hr & Ho)]; [done|done|by left|].
  right. exists r. split; [done|]. eapply outcome_mono; [|exact Ho].
  intros b i o (V & H1 & H2 & H3 & _) n Hn. unfold entry_of in *. cbn in H2.
  destruct (tp_direction p) eqn:Hdir.
  - split.
    + intros Hr'%Hseeds%H1%H2. apply Hr'.
    + intros Hno. apply H3. intros (_ & (r' & Hr'%Hseeds & Hflow) & _)%H2. apply Hno.
      unfold from_root in *. by etrans.
  - by apply H2, H1, Hseeds.
Qed.

(** ** Monotone problems *)

(** An order on facts of finite height in which the problem is monotone. *)
Record monotone_problem {F} (bottom : F) (meet : F → F → F) (transfer : Id → F → F)
    (le : F → F → Prop) (height : F → nat) (H : nat) : Prop := {
  mp_order : PreOrder le;
  mp_meet : ∀ a a' b b', le a a' → le b b' → le (meet a b) (meet a' b');
  mp_transfer : ∀ n a b, le a b → le (transfer n a) (transfer n b);
  mp_height : ∀ a b, le a b → a ≠ b → height a < height b;
  mp_bound : ∀ a, height a ≤ H;
  mp_bottom : ∀ a, le bottom a;
}.

Definition node_monotone {G F} (g : G) (p : NodeProblem G F) :=
  monotone_problem (np_bottom p g) (np_meet p) (np_transfer p g).

(** Visits enough for any monotone problem: every visit raises one of the
    facts or shortens the queue. *)
Definition enough_visits (s : shape) (H : nat) : nat :=
  let nodes := length (sh_nodes s) in nodes * H * (nodes + 1) + nodes + 1.

(** A monotone run from live seeds ends within [enough_visits], below every
    solution. *)
Lemma run_converges {G} `{HG : GraphView G} (g : G) (s : shape) {F} `{EqDecision F}
    (p : NodeProblem G F) le height H fuel w seeds entry :
  Views g s → dense_ids s → node_monotone g p le height H →
  enough_visits s H ≤ fuel → seeds ⊆ sh_nodes s →
  queue_is w (sh_bound s) (list_to_set (index <$> seeds)) →
  ∃ facts i o,
    try_solve_with_worklist fuel g (InfallibleNodeProblem p) w entry config_new = Ok (inr facts) ∧
    reads s (np_direction p) facts i o ∧
    solved_from g s (InfallibleNodeProblem p) seeds entry (np_boundary p g) i o ∧
    ∀ S, (∀ n, n ∈ sh_nodes s →
            le (outflow g s p (traversal (np_direction p)) entry S n) (S n)) →
      ∀ n, n ∈ sh_nodes s → le (o n) (S n).
Proof.
  intros HV Hd [Hpre Hmeet Htr Hup Hbd Hbot] Hfuel Hsub Hw.
  pose proof (loop_start g s HV Hd (InfallibleNodeProblem p) w (np_boundary p g) entry seeds Hsub Hw)
    as Hat.
  destruct (solve_loop_converges g s HV p _ entry seeds Hd le Hmeet Htr height H Hup Hbd Hbot
    fuel _ _ _ _ _ _ _ 0 Hat) as (input & output & steps & i & o & Hrun & Hi & Ho & Hsol & Hl).
  - intros n Hn. apply Hbot.
  - intros S HS n Hn. apply Hbot.
  - unfold measure. assert (size (list_to_set (index <$> seeds) : gset nat) ≤ length (sh_nodes s)).
    { apply queue_bound. intros k (n & -> & Hn)%elem_of_list_to_set%list_elem_of_fmap. eauto. }
    unfold enough_visits in Hfuel.
    assert ((length (sh_nodes s) * H - total s height (λ _, np_bottom p g)) * (length (sh_nodes s) + 1)
      ≤ length (sh_nodes s) * H * (length (sh_nodes s) + 1)); [|lia].
    apply Nat.mul_le_mono_r. lia.
  - unfold try_solve_with_worklist, try_solve_along. cbn [tn_boundary InfallibleNodeProblem].
    change (tn_direction (InfallibleNodeProblem p)) with (np_direction p) in *.
    change (tn_bottom (InfallibleNodeProblem p) g) with (np_bottom p g) in *.
    rewrite Hrun. cbn [mbind res_bind].
    pose proof (table_reads s (InfallibleNodeProblem p) input output steps i o Hi Ho) as Hrd.
    change (tn_direction (InfallibleNodeProblem p)) with (np_direction p) in Hrd.
    destruct (program_order (np_direction p) input output) as [a b].
    eexists _, i, o. split; [reflexivity|]. split; [exact Hrd|].
    split; [by apply solution_solved|exact Hl].
Qed.

(** C4: on a problem monotone over an order of finite height with bottom least,
    the unbounded node solve returns within [enough_visits] turns, and its facts
    are the least solution of the equations: they solve the equation of every
    live node, and any assignment that is above its own equations is above
    them. *)
Theorem monotone_solve_is_least {G} `{HG : GraphView G} (g : G) (s : shape) {F} `{EqDecision F}
    (p : NodeProblem G F) le height H fuel :
  Views g s → dense_ids s → node_monotone g p le height H → enough_visits s H ≤ fuel →
  ∃ facts i o, solve_node_problem fuel g p = Ok (inr facts) ∧ reads s (np_direction p) facts i o ∧
    (∀ n, n ∈ sh_nodes s →
       i n = inflow g s p (traversal (np_direction p)) None o n ∧
       o n = outflow g s p (traversal (np_direction p)) None o n) ∧
    ∀ S, (∀ n, n ∈ sh_nodes s →
            le (outflow g s p (traversal (np_direction p)) None S n) (S n)) →
      ∀ n, n ∈ sh_nodes s → le (o n) (S n).
Proof.
  intros HV Hd Hp Hf. destruct (live_spec g s HV) as (w & Hw & Hq).
  destruct (run_converges g s p le height H fuel w (sh_nodes s) None HV Hd Hp Hf)
    as (facts & i & o & Hr & Hrd & Hsol & Hl); [done|done|].
  exists facts, i, o. unfold solve_node_problem, solve_node_problem_with_config.
  rewrite Hw. cbn [mbind res_bind]. rewrite Hr. split; [done|]. split; [done|].
  split; [|done]. intros n Hn.
  destruct (solved_all g s _ _ _ _ _ Hsol n Hn) as [Hi Ho]. rewrite received_infallible in Hi.
  injection Hi as Hi. cbn in Ho. injection Ho as Ho.
  split; [done|]. rewrite <-Ho. unfold outflow. by rewrite Hi.
Qed.

(** ** A problem on the sample store *)

(** Forward taint, as in the documentation of the seeded solve. *)
Definition taint (source : Id) : NodeProblem (Graph N N) bool := {|
  np_direction := Forward;
  np_bottom _ := false;
  np_boundary _ := false;
  np_meet a b := a || b;
  np_transfer _ node input := input || bool_decide (node = source);
|}.

Definition taint_height (b : bool) : nat := if b then 1 else 0.

Lemma taint_monotone g source :
  node_monotone g (taint source) (λ a b, a = true → b = true) taint_height 1.
Proof.
  split; cbn.
  - split; [intros a; tauto|intros a b c; tauto].
  - intros a a' b b' Ha Hb. rewrite !orb_true_iff. tauto.
  - intros n a b Ha. rewrite !orb_true_iff. tauto.
  - intros [] [] Hle Hne; cbn; try lia.
  - intros []; cbn; lia.
  - done.
Qed.

Lemma node_solve_is_fixpoint_witness :
  ∃ s, Views sample_store s ∧ dense_ids s ∧
    answers 100 config_new
      (try_solve_node_problem_with_config 100 sample_store (InfallibleNodeProblem (taint 3%N))
         config_new) (λ r, ∃ facts, r = inr facts).
Proof.
  destruct sample_nodes as (s & HV & _ & _ & Hd). exists s. split; [exact HV|]. split; [exact Hd|].
  destruct (node_solve_is_fixpoint sample_store s (InfallibleNodeProblem (taint 3%N)) 100
    config_new HV Hd) as [[Hst _]|(r & Hr & _)].
  - vm_compute in Hst. discriminate Hst.
  - right. exists r. split; [exact Hr|]. vm_compute in Hr. injection Hr as <-. eexists; reflexivity.
Defined.

Lemma seeded_solve_visits_what_flows_witness :
  ∃ s, Views sample_store s ∧ dense_ids s ∧
    try_solve_node_problem_from_with_config 100 sample_store (InfallibleNodeProblem (taint 3%N))
      [1%N] config_new = Panic "seed node is out of range".
Proof.
  destruct sample_nodes as (s & HV & Hns & _ & Hd). exists s. split; [exact HV|].
  split; [exact Hd|].
  destruct (seeded_solve_visits_what_flows sample_store s (InfallibleNodeProblem (taint 3%N)) 100
    config_new [1%N] HV Hd) as [Hout _].
  apply Hout. rewrite Hns. intros Hsub. specialize (Hsub 1%N ltac:(left)).
  repeat (apply elem_of_cons in Hsub as [[=]|Hsub]). by apply elem_of_nil in Hsub.
Defined.

(** The same analysis as a block problem, rooted at node 3. *)
Definition taint_blocks (source : Id) : TryProblem (Rooted (Graph N N)) bool Empty_set :=
  InfallibleProblem {|
    pb_direction := Forward;
    pb_bottom _ := false;
    pb_boundary _ := true;
    pb_meet a b := a || b;
    pb_transfer _ node input := input || bool_decide (node = source);
  |}.

Lemma block_solve_is_fixpoint_witness :
  let g := mk_Rooted sample_store 3%N in
  ∃ s, Views g s ∧ dense_ids s ∧ gv_root g ∈ sh_nodes s ∧
    ∃ facts, try_solve_problem_with_config 100 g (taint_blocks 0%N) config_new = Ok (inr facts).
Proof.
  destruct sample_nodes as (s & HV0 & Hns & _ & Hd). intros g.
  pose proof (Rooted_Views sample_store 3%N s HV0) as HV.
  assert (Hroot : gv_root g ∈ sh_nodes s) by (rewrite Hns; right; right; left).
  exists s. split; [exact HV|]. split; [exact Hd|]. split; [exact Hroot|].
  destruct (block_solve_is_fixpoint g s (taint_blocks 0%N) 100 config_new HV Hd Hroot)
    as [[Hst _]|(r & Hr & _)].
  - vm_compute in Hst. discriminate Hst.
  - vm_compute in Hr. injection Hr as <-. eexists. vm_compute. reflexivity.
Defined.

Lemma monotone_solve_is_least_witness :
  ∃ s, Views sample_store s ∧ dense_ids s ∧
    ∃ facts, solve_node_problem 100 sample_store (taint 3%N) = Ok (inr facts) ∧
      fact_out facts 3%N = Ok true.
Proof.
  destruct sample_nodes as (s & HV & Hns & _ & Hd). exists s. split; [exact HV|].
  split; [exact Hd|].
  destruct (monotone_solve_is_least sample_store s (taint 3%N) _ _ _ 100 HV Hd
    (taint_monotone sample_store 3%N)) as (facts & i & o & Hr & _).
  - unfold enough_visits. rewrite Hns. cbn. lia.
  - exists facts. split; [exact Hr|]. vm_compute in Hr. injection Hr as <-. reflexivity.
Defined.

Lemma worklist_seeds_witness :
  ∃ s, Views sample_store s ∧
    ∃ w l, Worklist.seeded sample_store [3; 0; 3]%N = Ok w ∧
      wl_drain (S (sh_bound s)) w = Ok l ∧ l = [0; 3].
Proof.
  destruct sample_nodes as (s & HV & Hns & Hb & _). exists s. split; [exact HV|].
  destruct (worklist_seeds sample_store s [3; 0; 3]%N HV) as (_ & Hin & _).
  destruct Hin as (w & l & Hw & Hl & _).
  - rewrite Hns. intros x Hx. repeat (apply elem_of_cons in Hx as [->|Hx];
      [repeat first [left; reflexivity | right]|]). by apply elem_of_nil in Hx.
  - exists w, l. split; [exact Hw|]. split; [exact Hl|]. rewrite Hb in Hl.
    vm_compute in Hw. injection Hw as <-. vm_compute in Hl. by injection Hl.
Defined.
