(* ===== verification/EdgeSolver.v ===== *)
(** * The edge-sensitive solver

    Models [dataflow/edge_fixpoint.rs]: facts at both sides of every node and
    one on every edge of an [EdgeView]. The problem traits are records of
    functions; a fallible one answers in a sum. As for the node solver the core
    has no bound of its own, so it takes fuel. *)

From S2P Require Import Prelude Words Ids View EdgeViews Bits Worklist Traverse Solver.

Section EdgeSolver.
Context {G D : Type} {HG : GraphView G} {HE : EdgeView G D}.

(** [trait TryEdgeProblem] *)
Record TryEdgeProblem (F E : Type) := mk_try_edge {
  te_direction : Direction;
  te_bottom : G → F;
  te_boundary : G → Id → E + option F;
  te_meet : G → Id → F → F → E + F;
  te_transfer_node : G → Id → F → E + F;
  te_transfer_edge : G → EdgeRef D → F → F → E + F;
}.

(** [trait EdgeProblem] *)
Record EdgeProblem (F : Type) := mk_edge_problem {
  ep_direction : Direction;
  ep_bottom : G → F;
  ep_boundary : G → Id → option F;
  ep_meet : F → F → F;
  ep_transfer_node : G → Id → F → F;
  ep_transfer_edge : G → EdgeRef D → F → F → F;
}.

(** The provided [transfer_edge] of both traits *)
Definition carried {F} (d : Direction) (node_input node_output : F) : F :=
  match d with Forward => node_output | Backward => node_input end.

(** [InfallibleProblem] of the edge solver *)
Definition InfallibleEdgeProblem {F} (p : EdgeProblem F) : TryEdgeProblem F Empty_set := {|
  te_direction := ep_direction _ p;
  te_bottom := ep_bottom _ p;
  te_boundary g n := inr (ep_boundary _ p g n);
  te_meet _ _ a b := inr (ep_meet _ p a b);
  te_transfer_node g n x := inr (ep_transfer_node _ p g n x);
  te_transfer_edge g e i o := inr (ep_transfer_edge _ p g e i o);
|}.

(** [trait ReachableEdgeProblem] *)
Record ReachableEdgeProblem (F E : Type) := mk_reachable_problem {
  re_direction : Direction;
  re_boundary : G → Id → E + option F;
  re_merge : G → Id → F → F → E + F;
  re_transfer : G → Id → F → E + F;
  re_edge_observes_input : G → EdgeRef D → bool;
}.

(** [impl TryEdgeProblem for Reachable] *)
Definition Reachable {F E} (p : ReachableEdgeProblem F E) : TryEdgeProblem (option F) E := {|
  te_direction := re_direction _ _ p;
  te_bottom _ := None;
  te_boundary g n :=
    match re_boundary _ _ p g n with inl e => inl e | inr b => inr (Some <$> b) end;
  te_meet g n a b :=
    match a, b with
    | None, None => inr None
    | Some fact, None | None, Some fact => inr (Some fact)
    | Some l, Some r => match re_merge _ _ p g n l r with inl e => inl e | inr m => inr (Some m) end
    end;
  te_transfer_node g n flow_fact :=
    match flow_fact with
    | None => inr None
    | Some fact => match re_transfer _ _ p g n fact with inl e => inl e | inr t => inr (Some t) end
    end;
  te_transfer_edge g e node_input node_output :=
    if re_edge_observes_input _ _ p g e then inr node_input
    else inr (carried (re_direction _ _ p) node_input node_output);
|}.

(** [EdgeFacts] *)
Record EdgeFacts (F : Type) := mk_edge_facts { ef_nodes : Facts F; ef_edge : list (option F) }.
Definition edge_fact_in {F} (facts : EdgeFacts F) (node : Id) : res F := fact_in (ef_nodes _ facts) node.
Definition edge_fact_out {F} (facts : EdgeFacts F) (node : Id) : res F := fact_out (ef_nodes _ facts) node.
Definition edge_steps {F} (facts : EdgeFacts F) : nat := f_steps (ef_nodes _ facts).
Definition edge_facts {F} (facts : EdgeFacts F) : list (option F) := ef_edge _ facts.
Definition into_block_facts {F} (facts : EdgeFacts F) : Facts F := ef_nodes _ facts.

(** [EdgeFacts::fact_on] *)
Definition fact_on {F} (facts : EdgeFacts F) (edge : Id) : option F :=
  match ef_edge _ facts !! index edge with Some fact => fact | None => None end.

Context {F E : Type} `{EqDecision F}.

(** [Solver]: the tables a solve updates *)
Record EdgeState := mk_edge_state { es_input : list F; es_output : list F; es_edge : list (option F) }.

(** The loop of [Solver::meet_edges] *)
Fixpoint meet_loop (g : G) (p : TryEdgeProblem F E) (node : Id) (edge : list (option F))
    (merged : option F) (es : list Id) : res (E + option F) :=
  match es with
  | [] => mret (inr merged)
  | e :: es =>
      entry ← vget edge (index e);
      fact ← expect entry "adjacency contains an edge excluded from the view";
      match merged with
      | None => meet_loop g p node edge (Some fact) es
      | Some current =>
          match te_meet _ _ p g node current fact with
          | inl error => mret (inl error)
          | inr m => meet_loop g p node edge (Some m) es
          end
      end
  end.

(** [Solver::meet_edges] *)
Definition meet_edges (upstream : TraversalDirection) (g : G) (p : TryEdgeProblem F E) (bottom : F)
    (edge : list (option F)) (node : Id) : res (E + F) :=
  match te_boundary _ _ p g node with
  | inl error => mret (inl error)
  | inr merged =>
      es ← incident_edges upstream g node;
      r ← meet_loop g p node edge merged es;
      mret match r with inl error => inl error | inr m => inr (default bottom m) end
  end.

(** The loop over the downstream edges of a visited node *)
Fixpoint push_facts (downstream : TraversalDirection) (g : G) (p : TryEdgeProblem F E) (node : Id)
    (input output : list F) (edge : list (option F)) (w : Worklist.t) (es : list Id)
    : res (E + (list (option F) * Worklist.t)) :=
  match es with
  | [] => mret (inr (edge, w))
  | e :: es =>
      r ← ev_edge g e;
      i ← vget input (index node);
      o ← vget output (index node);
      match te_transfer_edge _ _ p g r i o with
      | inl error => mret (inl error)
      | inr new_fact =>
          entry ← vget edge (index e);
          fact ← expect entry "adjacency contains an edge excluded from the view";
          if decide (new_fact ≠ fact) then
            edge ← vset edge (index e) (Some new_fact);
            w ← Worklist.insert w (index (far downstream r));
            push_facts downstream g p node input output edge w es
          else push_facts downstream g p node input output edge w es
      end
  end.

(** [visit_along] *)
Definition visit_along (downstream : TraversalDirection) (g : G) (p : TryEdgeProblem F E) (bottom : F)
    (st : EdgeState) (w : Worklist.t) (node : Id) : res (E + (EdgeState * Worklist.t)) :=
  met ← meet_edges (against downstream) g p bottom (es_edge st) node;
  match met with
  | inl error => mret (inl error)
  | inr flowing_in =>
      match te_transfer_node _ _ p g node flowing_in with
      | inl error => mret (inl error)
      | inr flowing_out =>
          let '(i, o) := program_order (te_direction _ _ p) flowing_in flowing_out in
          input ← vset (es_input st) (index node) i;
          output ← vset (es_output st) (index node) o;
          es ← incident_edges downstream g node;
          r ← push_facts downstream g p node input output (es_edge st) w es;
          mret match r with
               | inl error => inl error
               | inr (edge, w) => inr (mk_edge_state input output edge, w)
               end
      end
  end.

(** [if let Some(limit) = config.max_steps() && steps >= limit] *)
Definition limit_hit (config : SolveConfig) (steps : nat) : option nat :=
  limit ← max_steps config; if decide (limit ≤ steps) then Some limit else None.

(** [while let Some(node_index) = worklist.pop_first()] *)
Fixpoint edge_loop (fuel : nat) (g : G) (p : TryEdgeProblem F E) (bottom : F) (config : SolveConfig)
    (st : EdgeState) (w : Worklist.t) (steps : nat)
    : res (TrySolveError E + (EdgeState * nat)) :=
  match fuel with
  | 0 => Stuck
  | S fuel =>
      '(w, popped) ← Worklist.pop_first w;
      match popped with
      | None => mret (inr (st, steps))
      | Some node_index =>
          match limit_hit config steps with
          | Some limit => mret (inl (SolverError (StepLimitExceeded limit steps node_index)))
          | None =>
              node ← from_index node_index;
              v ← visit_along (traversal (te_direction _ _ p)) g p bottom st w node;
              match v with
              | inl error => mret (inl (ProblemError error))
              | inr (st, w) => edge_loop fuel g p bottom config st w (steps + 1)
              end
          end
      end
  end.

(** [edge\[edge_id\] = Some(bottom)] for every edge of the view *)
Definition bottom_edges (g : G) (bottom : F) : res (list (option F)) :=
  ids ← ev_edge_ids g;
  rfold (λ edge e, vset edge (index e) (Some bottom)) (replicate (ev_edge_bound g) None) ids.

(** [try_solve_with_worklist] of the edge solver *)
Definition try_solve_edges (fuel : nat) (g : G) (p : TryEdgeProblem F E) (w : Worklist.t)
    (config : SolveConfig) : res (TrySolveError E + EdgeFacts F) :=
  let bottom := te_bottom _ _ p g in
  edge ← bottom_edges g bottom;
  let table := replicate (gv_node_bound g) bottom in
  r ← edge_loop fuel g p bottom config (mk_edge_state table table edge) w 0;
  mret match r with
       | inl error => inl error
       | inr (st, steps) => inr (mk_edge_facts _ (mk_facts (es_input st) (es_output st) steps) (es_edge st))
       end.

(** The fallible entry points *)
Definition try_solve_edge_problem_with_config (fuel : nat) (g : G) (p : TryEdgeProblem F E)
    (config : SolveConfig) : res (TrySolveError E + EdgeFacts F) :=
  w ← Worklist.live g; try_solve_edges fuel g p w config.
Definition try_solve_edge_problem_from_with_config (fuel : nat) (g : G) (p : TryEdgeProblem F E)
    (seeds : list Id) (config : SolveConfig) : res (TrySolveError E + EdgeFacts F) :=
  w ← Worklist.seeded g seeds; try_solve_edges fuel g p w config.
Definition try_solve_edge_problem (fuel : nat) (g : G) (p : TryEdgeProblem F E)
    : res (TrySolveError E + EdgeFacts F) :=
  try_solve_edge_problem_with_config fuel g p config_new.
Definition try_solve_edge_problem_from (fuel : nat) (g : G) (p : TryEdgeProblem F E) (seeds : list Id)
    : res (TrySolveError E + EdgeFacts F) :=
  try_solve_edge_problem_from_with_config fuel g p seeds config_new.
End EdgeSolver.

Arguments TryEdgeProblem G D F E : clear implicits.
Arguments EdgeProblem G D F : clear implicits.
Arguments ReachableEdgeProblem G D F E : clear implicits.
Arguments te_direction {G D F E} _.
Arguments te_bottom {G D F E} _ _.
Arguments te_boundary {G D F E} _ _ _.
Arguments te_meet {G D F E} _ _ _ _ _.
Arguments te_transfer_node {G D F E} _ _ _ _.
Arguments te_transfer_edge {G D F E} _ _ _ _ _.
Arguments ep_direction {G D F} _.
Arguments ep_bottom {G D F} _ _.
Arguments ep_boundary {G D F} _ _ _.
Arguments ep_meet {G D F} _ _ _.
Arguments ep_transfer_node {G D F} _ _ _ _.
Arguments ep_transfer_edge {G D F} _ _ _ _ _.
Arguments ef_nodes {F} _.
Arguments ef_edge {F} _.

Section Infallible.
Context {G D : Type} {HG : GraphView G} {HE : EdgeView G D} {F : Type} `{EqDecision F}.

(** The infallible entry points *)
Definition solve_edge_problem_with_config (fuel : nat) (g : G) (p : EdgeProblem G D F)
    (config : SolveConfig) : res (SolveError + EdgeFacts F) :=
  w ← Worklist.live g; collapse_infallible <$> try_solve_edges fuel g (InfallibleEdgeProblem p) w config.
Definition solve_edge_problem_from_with_config (fuel : nat) (g : G) (p : EdgeProblem G D F)
    (seeds : list Id) (config : SolveConfig) : res (SolveError + EdgeFacts F) :=
  w ← Worklist.seeded g seeds;
  collapse_infallible <$> try_solve_edges fuel g (InfallibleEdgeProblem p) w config.
Definition solve_edge_problem (fuel : nat) (g : G) (p : EdgeProblem G D F)
    : res (SolveError + EdgeFacts F) :=
  solve_edge_problem_with_config fuel g p config_new.
Definition solve_edge_problem_from (fuel : nat) (g : G) (p : EdgeProblem G D F) (seeds : list Id)
    : res (SolveError + EdgeFacts F) :=
  solve_edge_problem_from_with_config fuel g p seeds config_new.

(** [solve_reachable] *)
Definition solve_reachable `{HR : !RootedView G} (fuel : nat) (g : G) (p : EdgeProblem G D F)
    : res (EdgeFacts F) :=
  reachable ← depth_first_preorder g (gv_root g) Outgoing;
  r ← solve_edge_problem_from fuel g p reachable;
  match r with
  | inr facts => mret facts
  | inl _ => Panic "an unbounded solve cannot exceed a step limit"
  end.
End Infallible.
