(* ===== verification/EdgeSolverTheorems.v ===== *)
(** * Proofs of the edge-sensitive solver

    The loop's invariant: a visited node that is not queued holds what its
    upstream edges hand it and what its transfer made of it; the downstream
    edges of every visited node carry what the edge transfer makes of the facts
    the node holds; nodes never visited and their edges still hold bottom. *)

From S2P Require Import Prelude Words Liveness Ids View EdgeViews Chains Runs Store StoreInv StoreSpec StoreView History Samples Traverse Bits Worklist Solver SolverTheorems EdgeSolver.

Section Visit.
Context {G D : Type} {HG : GraphView G} {HE : EdgeView G D} (g : G) (s : eshape D).
Context (HV : EdgeViews g s) {F E : Type} `{EqDecision F} (p : TryEdgeProblem G D F E).

Notation dir := (te_direction p).
Notation d := (traversal (te_direction p)).
Notation bot := (te_bottom p g).
Notation sh := (es_shape s).

(** The fact a node receives over its upstream edges, behind its boundary. *)
Definition ereceived (ef : Id → F) (n : Id) : E + F :=
  match te_boundary p g n with
  | inl e => inl e
  | inr b =>
      match gather (te_meet p g n) b (ef <$> es_adj s (against d) n) with
      | inl e => inl e
      | inr m => inr (default bot m)
      end
  end.

(** The fact an edge carries away from a node that holds [i] and [o]. *)
Definition emitted (i o : F) (e : Id) : option (E + F) :=
  (λ r, te_transfer_edge p g r i o) <$> es_ref s e.

(** The edge table: a fact on every edge of the view, nothing elsewhere. *)
Definition etable (tbl : list (option F)) (ef : Id → F) : Prop :=
  length tbl = es_edge_bound s ∧
  ∀ e, index e < es_edge_bound s → tbl !! index e = Some (if decide (e ∈ es_ids s) then Some (ef e) else None).

(** An error of one of the problem's own functions. *)
Definition own_error (error : E) : Prop :=
  (∃ n, n ∈ es_nodes s ∧ (te_boundary p g n = inl error ∨
     (∃ a b, te_meet p g n a b = inl error) ∨ ∃ x, te_transfer_node p g n x = inl error)) ∨
  ∃ e r i o, e ∈ es_ids s ∧ es_ref s e = Some r ∧ te_transfer_edge p g r i o = inl error.

Lemma adj_ids_live d' n e : n ∈ es_nodes s → e ∈ es_adj s d' n → e ∈ es_ids s.
Proof. intros Hn He. by apply (eo_adj _ (ew_ok (g := g)) d' n e Hn) in He as [? _]. Qed.

Lemma adj_ref d' n e :
  n ∈ es_nodes s → e ∈ es_adj s d' n →
  ∃ r, es_ref s e = Some r ∧ near d' r = n ∧ ev_edge g e = Ok r ∧ far d' r ∈ es_nodes s.
Proof.
  intros Hn He. pose proof (adj_ids_live d' n e Hn He) as Hid.
  apply (eo_adj _ (ew_ok (g := g)) d' n e Hn) in He as (_ & r & Hr & Hnear). exists r.
  split_and!; [done|done|by apply (ew_edge (g := g))|].
  destruct (eo_ref _ (ew_ok (g := g)) e Hid) as (r' & Hr' & _ & Hends). simplify_eq. apply Hends.
Qed.

Lemma etable_get tbl ef e :
  etable tbl ef → e ∈ es_ids s → vget tbl (index e) = Ok (Some (ef e)).
Proof.
  intros [_ Ht] He. apply vget_eq. rewrite Ht by by apply (eo_edge_bound _ (ew_ok (g := g))).
  by rewrite decide_True.
Qed.

Lemma etable_set tbl ef e x :
  etable tbl ef → e ∈ es_ids s →
  vset tbl (index e) (Some x) = Ok (<[index e := Some x]> tbl) ∧
  etable (<[index e := Some x]> tbl) (upd ef e x).
Proof.
  intros [Hl Ht] He. pose proof (eo_edge_bound _ (ew_ok (g := g)) e He) as Hb.
  split; [apply vset_lt; lia|]. split; [by rewrite length_insert|]. intros e' He'.
  destruct (decide (e' = e)) as [->|Hne].
  - rewrite list_lookup_insert_eq by lia. by rewrite decide_True, upd_same.
  - rewrite list_lookup_insert_ne, Ht, upd_other; [done..|]. by intros ?%index_inj.
Qed.

Lemma meet_loop_spec tbl ef n met es :
  etable tbl ef → es ⊆ es_ids s → meet_loop g p n tbl met es = Ok (gather (te_meet p g n) met (ef <$> es)).
Proof.
  intros Ht. revert met. induction es as [|e es IH]; intros met Hsub; [done|]. cbn [meet_loop].
  rewrite (etable_get _ _ _ Ht) by set_solver. rsimpl. cbn [expect]. rewrite fmap_cons. cbn [gather].
  rsimpl. destruct met as [current|]; [|apply IH; set_solver].
  destruct (te_meet p g n current (ef e)); [done|]. apply IH. set_solver.
Qed.

Lemma meet_edges_spec tbl ef n :
  etable tbl ef → n ∈ es_nodes s → meet_edges (against d) g p bot tbl n = Ok (ereceived ef n).
Proof.
  intros Ht Hn. unfold meet_edges, ereceived. destruct (te_boundary p g n) as [e|b]; [done|].
  rewrite (ew_adj (g := g)) by done. rsimpl.
  rewrite (meet_loop_spec tbl ef) by (done || by intros e; apply adj_ids_live). rsimpl.
  by destruct (gather _ _ _).
Qed.

Lemma gather_error {X Y} (meet : X → X → Y + X) met facts error :
  gather meet met facts = inl error → ∃ a b, meet a b = inl error.
Proof using.
  revert met. induction facts as [|f facts IH]; intros met; cbn; [done|].
  destruct met as [c|]; [|apply IH]. destruct (meet c f) eqn:Hm; [|apply IH].
  intros [= <-]. eauto.
Qed.

Lemma ereceived_error ef n error : n ∈ es_nodes s → ereceived ef n = inl error → own_error error.
Proof using.
  intros Hn. unfold ereceived. destruct (te_boundary p g n) as [e|b] eqn:Hb.
  - intros [= ->]. left. exists n. eauto.
  - destruct (gather _ _ _) as [e|m] eqn:Hg; [|done]. intros [= ->]. left. exists n. split; [done|].
    right; left. by eapply gather_error.
Qed.

(** ** Carrying facts over the downstream edges *)

(** The edges' facts once those in [es] were emitted. *)
Definition after (ef : Id → F) (i o : F) (es : list Id) (e : Id) : F :=
  if decide (e ∈ es) then match emitted i o e with Some (inr t) => t | _ => ef e end else ef e.

Lemma push_facts_spec n input output i o es tbl ef w X :
  n ∈ es_nodes s → vget input (index n) = Ok i → vget output (index n) = Ok o →
  NoDup es → es ⊆ es_adj s d n → etable tbl ef → queue_is w (es_node_bound s) X →
  (∃ error, push_facts d g p n input output tbl w es = Ok (inl error) ∧ own_error error) ∨
  ∃ tbl' w' X', push_facts d g p n input output tbl w es = Ok (inr (tbl', w')) ∧
    (∀ e, e ∈ es → ∃ t, emitted i o e = Some (inr t)) ∧
    etable tbl' (after ef i o es) ∧ queue_is w' (es_node_bound s) X' ∧
    ∀ k, k ∈ X' ↔ k ∈ X ∨ ∃ e r, e ∈ es ∧ es_ref s e = Some r ∧ after ef i o es e ≠ ef e ∧ k = index (far d r).
Proof.
  intros Hn Hi Ho. revert tbl ef w X. induction es as [|e es IH]; intros tbl ef w X Hnd Hsub Ht Hw.
  { right. exists tbl, w, X. split_and!; [done|by intros e ?%elem_of_nil| |done|].
    - destruct Ht as [Hl Ht]. split; [done|]. intros e He. rewrite Ht by done. unfold after.
      by rewrite (decide_False (P := e ∈ [])) by by intros ?%elem_of_nil.
    - intros k. split; [by left|]. by intros [?|(e & r & ?%elem_of_nil & _)]. }
  apply NoDup_cons in Hnd as [Hni Hnd]. cbn [push_facts].
  destruct (adj_ref d n e Hn (Hsub e ltac:(left))) as (r & Hr & Hnear & He & Hfar). rewrite He, Hi, Ho. rsimpl.
  assert (Hid : e ∈ es_ids s) by (apply (adj_ids_live d n); [done|apply Hsub; left]).
  destruct (te_transfer_edge p g r i o) as [error|t] eqn:Htr.
  { left. exists error. split; [done|]. right. by exists e, r, i, o. }
  assert (Hem : emitted i o e = Some (inr t)) by (unfold emitted; rewrite Hr; cbn; by rewrite Htr).
  rewrite (etable_get _ _ _ Ht Hid). rsimpl. cbn [expect]. rsimpl.
  assert (Hstep : ∀ tbl1 w1 X1, etable tbl1 (upd ef e t) → queue_is w1 (es_node_bound s) X1 →
    (∀ k, k ∈ X1 ↔ k ∈ X ∨ t ≠ ef e ∧ k = index (far d r)) →
    (∃ error, push_facts d g p n input output tbl1 w1 es = Ok (inl error) ∧ own_error error) ∨
    ∃ tbl' w' X', push_facts d g p n input output tbl1 w1 es = Ok (inr (tbl', w')) ∧
      (∀ e', e' ∈ e :: es → ∃ t', emitted i o e' = Some (inr t')) ∧
      etable tbl' (after ef i o (e :: es)) ∧ queue_is w' (es_node_bound s) X' ∧
      ∀ k, k ∈ X' ↔ k ∈ X ∨ ∃ e' r', e' ∈ e :: es ∧ es_ref s e' = Some r' ∧
        after ef i o (e :: es) e' ≠ ef e' ∧ k = index (far d r')).
  { intros tbl1 w1 X1 Ht1 Hw1 HX1.
    destruct (IH tbl1 (upd ef e t) w1 X1 Hnd) as [?|(tbl' & w' & X' & Hrun & Hall & Ht' & Hw' & HX')];
      [intros x Hx; apply Hsub; by right|done|done|by left|right].
    assert (Haft : ∀ e', after (upd ef e t) i o es e' = after ef i o (e :: es) e').
    { intros e'. unfold after. destruct (decide (e' = e)) as [->|Hne].
      - rewrite (decide_False (P := e ∈ es)) by done. rewrite (decide_True (P := e ∈ e :: es)) by left.
        by rewrite upd_same, Hem.
      - rewrite upd_other by done. repeat case_decide; set_solver. }
    assert (Hold : ∀ e', e' ∈ es → upd ef e t e' = ef e') by (intros e' He'; apply upd_other; by intros ->).
    exists tbl', w', X'. split_and!; [done| | |done|].
    - intros e' [->|He']%elem_of_cons; [by exists t|by apply Hall].
    - destruct Ht' as [Hl Ht']. split; [done|]. intros e' He'. rewrite Ht', Haft by done. done.
    - assert (Ht_e : after ef i o (e :: es) e = t).
      { unfold after. rewrite decide_True by left. by rewrite Hem. }
      intros k. rewrite HX', HX1. split.
      + intros [[?|[Hne ->]]|(e' & r' & He' & Hr' & Hne & ->)]; [by left| |].
        * right. exists e, r. rewrite Ht_e. split_and!; [left|done..].
        * right. exists e', r'. rewrite <-Haft, <-(Hold e' He'). split_and!; [by right|done..].
      + intros [?|(e' & r' & [->|He']%elem_of_cons & Hr' & Hne & ->)]; [by left; left| |].
        * left; right. rewrite Ht_e in Hne. split; [done|]. congruence.
        * right. exists e', r'. rewrite Haft, (Hold e' He'). done. }
  destruct (decide (t ≠ ef e)) as [Hne|Heq].
  - destruct (etable_set _ _ _ t Ht Hid) as [-> Ht1]. rsimpl.
    destruct (queue_insert _ _ _ (index (far d r)) Hw) as (w1 & -> & Hw1).
    { by apply (eo_node_bound _ (ew_ok (g := g))). }
    rsimpl. eapply Hstep; [done|done|]. intros k. set_solver.
  - apply dec_stable in Heq. eapply (Hstep tbl w X); [|done|].
    + destruct Ht as [Hl Ht]. split; [done|]. intros e' He'. rewrite Ht by done. unfold upd.
      destruct (decide (e' = e)) as [->|]; [by rewrite Heq|done].
    + intros k. split; [by left|]. by intros [?|[? _]].
Qed.
End Visit.

Section Loop.
Context {G D : Type} {HG : GraphView G} {HE : EdgeView G D} (g : G) (s : eshape D).
Context (HV : EdgeViews g s) {F E : Type} `{EqDecision F} (p : TryEdgeProblem G D F E) (seeds : list Id).

Notation dir := (te_direction p).
Notation d := (traversal (te_direction p)).
Notation bot := (te_bottom p g).
Notation sh := (es_shape s).
Notation recv := (ereceived g s p).
Notation queued X n := (index n ∈ (X : gset nat)).

(** Node [n] holds the facts its equation asks for, [i] and [o] in program order. *)
Definition esettled (i o ef : Id → F) (n : Id) : Prop :=
  ∃ m t, recv ef n = inr m ∧ te_transfer_node p g n m = inr t ∧ (i n, o n) = program_order dir m t.

(** The edges leaving [n] carry what the edge transfer makes of its facts. *)
Definition eemits (i o ef : Id → F) (n : Id) : Prop :=
  ∀ e, e ∈ es_adj s d n → emitted g s p (i n) (o n) e = Some (inr (ef e)).

(** Reached from a seed along the flow of facts. *)
Definition eseeded (n : Id) : Prop :=
  n ∈ es_nodes s ∧ ∃ r, r ∈ seeds ∧ rtc (λ x y, y ∈ sh_next sh d x) r n.

Record esolving (V : gset Id) (X : gset nat) (i o ef : Id → F) : Prop := {
  ev_queue : ∀ k, k ∈ X → ∃ n, index n = k ∧ eseeded n;
  ev_visited : ∀ n, n ∈ V → eseeded n;
  ev_settled : ∀ n, n ∈ V → ¬ queued X n → esettled i o ef n;
  ev_emits : ∀ n, n ∈ V → eemits i o ef n;
  ev_fresh : ∀ n, n ∉ V → i n = bot ∧ o n = bot;
  ev_fresh_edges : ∀ n e, n ∈ es_nodes s → n ∉ V → e ∈ es_adj s d n → ef e = bot;
  ev_seeds : ∀ n, n ∈ seeds → n ∈ V ∨ queued X n;
  ev_spread : ∀ n e r, n ∈ V → e ∈ es_adj s d n → es_ref s e = Some r → ef e ≠ bot →
    far d r ∈ V ∨ queued X (far d r);
}.

Lemma esolving_start :
  seeds ⊆ es_nodes s → esolving ∅ (list_to_set (index <$> seeds)) (λ _, bot) (λ _, bot) (λ _, bot).
Proof.
  intros Hsub. split; try set_solver.
  intros k Hk. apply elem_of_list_to_set, list_elem_of_fmap in Hk as (n & -> & Hn).
  exists n. split; [done|]. split; [by apply Hsub|]. by exists n.
Qed.

(** An edge is filed under its two ends only. *)
Lemma adj_unique d' n m e :
  n ∈ es_nodes s → m ∈ es_nodes s → e ∈ es_adj s d' n → e ∈ es_adj s d' m → n = m.
Proof.
  intros Hn Hm (_ & r & Hr & <-)%(eo_adj _ (ew_ok (g := g)) d' n e Hn)
    (_ & r' & Hr' & <-)%(eo_adj _ (ew_ok (g := g)) d' m e Hm). congruence.
Qed.

Lemma ereceived_ext ef ef' n :
  (∀ e, e ∈ es_adj s (against d) n → ef e = ef' e) → recv ef n = recv ef' n.
Proof.
  intros H'. unfold ereceived. replace (ef <$> es_adj s (against d) n) with (ef' <$> es_adj s (against d) n); [done|].
  apply list_fmap_ext. intros i e He. symmetry. apply H'. by eapply list_elem_of_lookup_2.
Qed.

(** The edges that changed when [n] was visited lead to queued nodes. *)
Definition requeued (X : gset nat) (ef ef' : Id → F) (n : Id) (X' : gset nat) : Prop :=
  ∀ k, k ∈ X' ↔ k ∈ X ∖ {[index n]} ∨
    ∃ e r, e ∈ es_adj s d n ∧ es_ref s e = Some r ∧ ef' e ≠ ef e ∧ k = index (far d r).

Lemma esolving_visit V X X' i o ef n m t a b :
  esolving V X i o ef → queued X n → n ∈ es_nodes s →
  recv ef n = inr m → te_transfer_node p g n m = inr t → (a, b) = program_order dir m t →
  (∀ e, e ∈ es_adj s d n → ∃ x, emitted g s p a b e = Some (inr x)) →
  requeued X ef (after g s p ef a b (es_adj s d n)) n X' →
  esolving ({[n]} ∪ V) X' (upd i n a) (upd o n b) (after g s p ef a b (es_adj s d n)).
Proof.
  intros [H1 H2 H3 H4 H5 H6 H7 H8] HnX Hn Hm Ht Hab Hall HX. set (ef' := after g s p ef a b (es_adj s d n)) in *.
  assert (Hseed : eseeded n).
  { destruct (H1 _ HnX) as (n' & ->%index_inj & ?). done. }
  assert (Hsame : ∀ e, e ∉ es_adj s d n → ef' e = ef e).
  { intros e He. unfold ef', after. by rewrite decide_False. }
  assert (Hkeep : ∀ x, queued X x → x ≠ n → queued X' x).
  { intros x Hx Hne. apply HX. left. assert (index x ≠ index n) by (intros ?%index_inj; done). set_solver. }
  assert (Hfar : ∀ e r, e ∈ es_adj s d n → es_ref s e = Some r → far d r ∈ es_nodes s ∧ far d r ∈ sh_next sh d n).
  { intros e r He Hr. destruct (adj_ref g s HV d n e Hn He) as (r' & Hr' & _ & _ & Hin). simplify_eq.
    split; [done|]. apply list_elem_of_omap. exists e. split; [done|]. by rewrite Hr. }
  assert (Hrecv : ∀ x, x ∈ es_nodes s → ¬ queued X' x → recv ef' x = recv ef x).
  { intros x Hx HxX. apply ereceived_ext. intros e He.
    destruct (decide (e ∈ es_adj s d n)) as [Hin|Hin]; [|by apply Hsame].
    destruct (decide (ef' e = ef e)) as [?|Hne]; [done|]. exfalso. apply HxX, HX. right.
    apply (eo_adj _ (ew_ok (g := g)) (against d) x e Hx) in He as (_ & r & Hr & Hnear).
    exists e, r. split_and!; [done..|]. unfold far. by rewrite Hnear. }
  split.
  - intros k [Hk|(e & r & He & Hr & _ & ->)]%HX; [apply H1; set_solver|].
    destruct (Hfar e r He Hr) as [Hin Hnext]. exists (far d r). split; [done|].
    destruct Hseed as (_ & r0 & Hr0 & Hrn). split; [done|]. exists r0. split; [done|]. by eapply rtc_r.
  - intros x [->%elem_of_singleton|Hx]%elem_of_union; [done|auto].
  - intros x Hx HxX. assert (Hxn : x ∈ es_nodes s).
    { apply elem_of_union in Hx as [->%elem_of_singleton|Hx]; [done|]. by apply H2. }
    unfold esettled. rewrite (Hrecv x Hxn HxX). destruct (decide (x = n)) as [->|Hne].
    + exists m, t. by rewrite !upd_same.
    + rewrite !upd_other by done. apply H3; [set_solver|]. intros ?. by apply HxX, Hkeep.
  - intros x Hx e He. assert (Hxn : x ∈ es_nodes s).
    { apply elem_of_union in Hx as [->%elem_of_singleton|Hx]; [done|]. by apply H2. }
    destruct (decide (x = n)) as [->|Hne].
    + rewrite !upd_same. destruct (Hall e He) as [y Hy]. rewrite Hy. do 2 f_equal.
      unfold ef', after. by rewrite decide_True, Hy.
    + rewrite !upd_other by done. rewrite Hsame; [apply H4; [set_solver|done]|].
      intros Hin. apply Hne. by apply (adj_unique d x n e).
  - intros x Hx. rewrite !upd_other by set_solver. apply H5. set_solver.
  - intros x e Hx HxV He. rewrite Hsame; [apply (H6 x); [done|set_solver|done]|].
    intros Hin. assert (x = n) as -> by by apply (adj_unique d x n e). set_solver.
  - intros x Hx. destruct (decide (x = n)) as [->|Hne]; [set_solver|].
    destruct (H7 x Hx); [set_solver|]. right. by apply Hkeep.
  - intros x e r Hx He Hr Hef. assert (Hxn : x ∈ es_nodes s).
    { apply elem_of_union in Hx as [->%elem_of_singleton|Hx]; [done|]. by apply H2. }
    destruct (decide (far d r = n)) as [->|Hfn]; [set_solver|].
    destruct (decide (x = n)) as [->|Hne].
    + destruct (decide (ef' e = ef e)) as [Heq|Hch].
      * rewrite Heq in Hef. destruct (decide (n ∈ V)) as [HnV|HnV].
        -- destruct (H8 n e r HnV He Hr Hef); [set_solver|]. right. by apply Hkeep.
        -- by destruct Hef; apply (H6 n).
      * right. apply HX. right. by exists e, r.
    + rewrite Hsame in Hef. 2:{ intros Hin. apply Hne. by apply (adj_unique d x n e). }
      destruct (H8 x e r ltac:(set_solver) He Hr Hef); [set_solver|]. right. by apply Hkeep.
Qed.

(** What a finished solve has. *)
Definition esolution (i o ef : Id → F) : Prop :=
  ∃ V : gset Id,
    (∀ n, n ∈ seeds → n ∈ V) ∧
    (∀ n, n ∈ V → eseeded n ∧ esettled i o ef n ∧ eemits i o ef n) ∧
    (∀ n, n ∉ V → i n = bot ∧ o n = bot) ∧
    (∀ n e, n ∈ es_nodes s → n ∉ V → e ∈ es_adj s d n → ef e = bot) ∧
    (∀ n e r, n ∈ V → e ∈ es_adj s d n → es_ref s e = Some r → ef e ≠ bot → far d r ∈ V).

Lemma esolving_end V i o ef : esolving V ∅ i o ef → esolution i o ef.
Proof.
  intros [H1 H2 H3 H4 H5 H6 H7 H8]. exists V. split_and!; [| |done|done|].
  - intros n Hn. destruct (H7 n Hn); [done|set_solver].
  - intros n Hn. split_and!; [auto|apply H3; [done|]; set_solver|auto].
  - intros n e r Hn He Hr Hef. destruct (H8 n e r Hn He Hr Hef); [done|set_solver].
Qed.

Record eloop_at (V : gset Id) (X : gset nat) (i o ef : Id → F) (st : EdgeState) (w : Worklist.t) : Prop := {
  ea_queue : queue_is w (es_node_bound s) X;
  ea_input : table sh (es_input st) i;
  ea_output : table sh (es_output st) o;
  ea_edge : etable s (es_edge st) ef;
  ea_solving : esolving V X i o ef;
}.

Hypothesis dense : ∀ n, n ∈ es_nodes s → from_index (index n) = Ok n.

(** What one visit did to the edge facts and the queue. *)
Definition estep (X X' : gset nat) (ef ef' : Id → F) : Prop :=
  ∃ n m t a b, n ∈ es_nodes s ∧ queued X n ∧ recv ef n = inr m ∧ te_transfer_node p g n m = inr t ∧
    (a, b) = program_order dir m t ∧ (∀ e, e ∈ es_adj s d n → ∃ x, emitted g s p a b e = Some (inr x)) ∧
    ef' = after g s p ef a b (es_adj s d n) ∧ requeued X ef ef' n X'.

(** A visit never panics. *)
Lemma evisit_spec V X i o ef st w w0 n :
  eloop_at V X i o ef st w0 → queued X n → n ∈ es_nodes s →
  queue_is w (es_node_bound s) (X ∖ {[index n]}) →
  (∃ error, visit_along d g p bot st w n = Ok (inl error) ∧ own_error g s p error) ∨
  ∃ st' w' X' i' o' ef', visit_along d g p bot st w n = Ok (inr (st', w')) ∧
    eloop_at ({[n]} ∪ V) X' i' o' ef' st' w' ∧ estep X X' ef ef'.
Proof.
  intros [Hq Hi Ho Hef Hs] HnX Hn Hw. unfold visit_along.
  rewrite (meet_edges_spec g s HV p _ ef n Hef Hn). rsimpl.
  destruct (recv ef n) as [error|m] eqn:Hm.
  { left. exists error. split; [done|]. by eapply ereceived_error. }
  destruct (te_transfer_node p g n m) as [error|t] eqn:Ht.
  { left. exists error. split; [done|]. left. exists n. eauto. }
  destruct (program_order dir m t) as [a b] eqn:Hab.
  destruct (table_set g sh (ew_views (g := g)) dense (es_input st) i n a Hi Hn) as [-> Hi']. rsimpl.
  destruct (table_set g sh (ew_views (g := g)) dense (es_output st) o n b Ho Hn) as [-> Ho']. rsimpl.
  rewrite (ew_adj (g := g)) by done. rsimpl.
  assert (Hgi : vget (<[index n := a]> (es_input st)) (index n) = Ok a).
  { apply vget_eq. rewrite (proj2 Hi' n Hn), upd_same. done. }
  assert (Hgo : vget (<[index n := b]> (es_output st)) (index n) = Ok b).
  { apply vget_eq. rewrite (proj2 Ho' n Hn), upd_same. done. }
  destruct (push_facts_spec g s HV p n _ _ a b (es_adj s d n) (es_edge st) ef w _ Hn Hgi Hgo
      (eo_adj_nodup _ (ew_ok (g := g)) d n Hn) ltac:(done) Hef Hw)
    as [(error & -> & He)|(tbl & w' & X' & -> & Hall & Ht' & Hw' & HX')].
  - left. by exists error.
  - right. rsimpl. do 6 eexists. split; [done|]. split.
    + split; cbn; [done..|]. eapply esolving_visit; [done..|by symmetry|done|exact HX'].
    + exists n, m, t, a, b. split_and!; [done..|by symmetry|done|done|exact HX'].
Qed.

Notation run fuel config st w steps := (edge_loop fuel g p bot config st w steps).

Definition eloop_outcome (config : SolveConfig) (r : TrySolveError E + (EdgeState * nat)) : Prop :=
  match r with
  | inl (ProblemError e) => own_error g s p e
  | inl (SolverError (StepLimitExceeded limit steps pending)) =>
      max_steps config = Some limit ∧ steps = limit ∧ ∃ n, n ∈ es_nodes s ∧ pending = index n
  | inr (st, steps) =>
      (∀ limit, max_steps config = Some limit → steps ≤ limit) ∧
      ∃ i o ef, table sh (es_input st) i ∧ table sh (es_output st) o ∧ etable s (es_edge st) ef ∧
        esolution i o ef
  end.

Lemma limit_hit_Some config steps limit :
  limit_hit config steps = Some limit ↔ max_steps config = Some limit ∧ limit ≤ steps.
Proof.
  clear. unfold limit_hit. destruct (max_steps config) as [l|]; cbn; [|naive_solver].
  case_decide; naive_solver.
Qed.

(** One turn of the loop: a result, or one more visit. *)
Lemma edge_loop_turn fuel config V X i o ef st w steps :
  eloop_at V X i o ef st w → (∀ limit, max_steps config = Some limit → steps ≤ limit) →
  (∃ r, run (S fuel) config st w steps = Ok r ∧ eloop_outcome config r) ∨
  (∀ limit, max_steps config = Some limit → steps < limit) ∧
  ∃ V' X' i' o' ef' st' w', run (S fuel) config st w steps = run fuel config st' w' (steps + 1) ∧
    eloop_at V' X' i' o' ef' st' w' ∧ estep X X' ef ef'.
Proof.
  intros Hat Hlim. pose proof Hat as [Hq Hi Ho Hef Hs]. cbn [edge_loop].
  destruct (pop_first_spec _ _ _ Hq) as (w1 & popped & -> & Hl & Hw1). rsimpl.
  destruct popped as [k|]; cbn [least without] in *.
  2:{ left. subst X. eexists. split; [done|]. split; [done|]. exists i, o, ef.
      split_and!; [done..|]. by eapply esolving_end. }
  destruct Hl as [Hk _]. destruct (ev_queue _ _ _ _ _ Hs k Hk) as (n & <- & [Hn _]).
  destruct (limit_hit config steps) as [limit|] eqn:Hhit.
  { apply limit_hit_Some in Hhit as [Hc Hle]. left. eexists. split; [done|]. cbn.
    specialize (Hlim _ Hc). split_and!; [done|lia|]. by exists n. }
  rewrite dense by done. rsimpl.
  destruct (evisit_spec V X i o ef st w1 w n Hat Hk Hn Hw1) as [(error & -> & He)|
    (st' & w' & X' & i' & o' & ef' & -> & Hat' & Hstep)].
  - left. eexists. split; [done|]. done.
  - right. split; [|do 7 eexists; split; [done|split; [exact Hat'|exact Hstep]]].
    intros limit Hc. specialize (Hlim _ Hc). destruct (decide (limit ≤ steps)); [|lia].
    assert (limit_hit config steps = Some limit) by by apply limit_hit_Some. congruence.
Qed.

(** Whatever the loop returns is right, and it never panics; a step limit
    bounds its turns. *)
Lemma edge_loop_sound fuel config V X i o ef st w steps :
  eloop_at V X i o ef st w → (∀ limit, max_steps config = Some limit → steps ≤ limit) →
  run fuel config st w steps = Stuck ∧ (∀ limit, max_steps config = Some limit → fuel + steps < limit + 2) ∨
  ∃ r, run fuel config st w steps = Ok r ∧ eloop_outcome config r.
Proof.
  revert V X i o ef st w steps. induction fuel as [|fuel IH]; intros V X i o ef st w steps Hat Hlim.
  { left. split; [done|]. intros limit Hc. specialize (Hlim _ Hc). lia. }
  destruct (edge_loop_turn fuel config _ _ _ _ _ _ _ steps Hat Hlim)
    as [?|(Hlt & V' & X' & i' & o' & ef' & st' & w' & -> & Hat' & _)]; [by right|].
  destruct (IH _ _ _ _ _ _ _ (steps + 1) Hat') as [[Hst Hf]|?]; [intros limit Hc; specialize (Hlt _ Hc); lia| |by right].
  left. split; [done|]. intros limit Hc. specialize (Hf _ Hc). lia.
Qed.
End Loop.

(** ** Monotone problems over a finite-height order *)

Section Lattice.
Context {G D : Type} {HG : GraphView G} {HE : EdgeView G D} (g : G) (s : eshape D).
Context (HV : EdgeViews g s) {F : Type} `{EqDecision F} (p : EdgeProblem G D F) (seeds : list Id).
Hypothesis dense : ∀ n, n ∈ es_nodes s → from_index (index n) = Ok n.

Notation q := (InfallibleEdgeProblem p).
Notation dir := (ep_direction p).
Notation d := (traversal (ep_direction p)).
Notation bot := (ep_bottom p g).

Context (le : F → F → Prop) `{!PreOrder le}.
Hypothesis meet_mono : ∀ a a' b b', le a a' → le b b' → le (ep_meet p a b) (ep_meet p a' b').
Hypothesis node_mono : ∀ n a b, le a b → le (ep_transfer_node p g n a) (ep_transfer_node p g n b).
Hypothesis edge_mono : ∀ r i i' o o', le i i' → le o o' → le (ep_transfer_edge p g r i o) (ep_transfer_edge p g r i' o').

(** The equations' right-hand sides, without errors. *)
Definition ejoin (met : option F) (facts : list F) : option F :=
  foldl (λ acc fact, Some (match acc with None => fact | Some c => ep_meet p c fact end)) met facts.
Definition einflow (ef : Id → F) (n : Id) : F :=
  default bot (ejoin (ep_boundary p g n) (ef <$> es_adj s (against d) n)).
Definition eoutflow (ef : Id → F) (n : Id) (r : EdgeRef D) : F :=
  let '(i, o) := program_order dir (einflow ef n) (ep_transfer_node p g n (einflow ef n)) in
  ep_transfer_edge p g r i o.

Lemma gather_ejoin met facts :
  gather (λ a b, inr (ep_meet p a b) : Empty_set + F) met facts = inr (ejoin met facts).
Proof.
  clear. revert met. induction facts as [|f facts IH]; intros met; [done|].
  cbn [gather]. destruct met; apply IH.
Qed.

Lemma ereceived_infallible ef n : ereceived g s q ef n = inr (einflow ef n).
Proof. unfold ereceived. cbn. by rewrite gather_ejoin. Qed.

(** Every edge fact of [ef] is below the one of [ef']. *)
Definition ebelow (ef ef' : Id → F) : Prop := ∀ e, e ∈ es_ids s → le (ef e) (ef' e).

Lemma ejoin_mono m m' l l' :
  option_Forall2 le m m' → Forall2 le l l' → option_Forall2 le (ejoin m l) (ejoin m' l').
Proof.
  intros Hm Hl. revert m m' Hm. induction Hl as [|x y l l' Hxy Hl IH]; intros m m' Hm; [done|].
  cbn. apply IH. destruct Hm; constructor; [by apply meet_mono|done].
Qed.

Lemma einflow_mono ef ef' n : n ∈ es_nodes s → ebelow ef ef' → le (einflow ef n) (einflow ef' n).
Proof.
  intros Hn Hle. unfold einflow.
  assert (option_Forall2 le (ejoin (ep_boundary p g n) (ef <$> es_adj s (against d) n))
    (ejoin (ep_boundary p g n) (ef' <$> es_adj s (against d) n))) as H'.
  { apply ejoin_mono.
    - destruct (ep_boundary p g n); constructor. reflexivity.
    - apply Forall2_fmap_2, Forall_Forall2_diag, Forall_forall. intros e He. apply Hle.
      by apply (adj_ids_live g s HV (against d) n). }
  destruct H'; cbn; [done|reflexivity].
Qed.

Lemma eoutflow_mono ef ef' n r : n ∈ es_nodes s → ebelow ef ef' → le (eoutflow ef n r) (eoutflow ef' n r).
Proof.
  intros Hn Hle. pose proof (einflow_mono ef ef' n Hn Hle) as Hi. unfold eoutflow.
  destruct dir; cbn; apply edge_mono; auto.
Qed.

(** Facts only rise: every edge's fact is below what its equation gives. *)
Definition erising (ef : Id → F) : Prop :=
  ∀ n e r, n ∈ es_nodes s → e ∈ es_adj s d n → es_ref s e = Some r → le (ef e) (eoutflow ef n r).

(** An assignment above its own equations. *)
Definition eabove (S : Id → F) : Prop :=
  ∀ n e r, n ∈ es_nodes s → e ∈ es_adj s d n → es_ref s e = Some r → le (eoutflow S n r) (S e).

(** A property of edge facts that bottom has and that the equations of the
    nodes the seeds reach keep *)
Definition einductive (P : Id → F → Prop) : Prop :=
  (∀ e, e ∈ es_ids s → P e bot) ∧
  ∀ ef n e r, eseeded s q seeds n → (∀ e, e ∈ es_ids s → P e (ef e)) → e ∈ es_adj s d n → es_ref s e = Some r → P e (eoutflow ef n r).

(** Every such property holds of the facts of [ef]. *)
Definition ederived (ef : Id → F) : Prop := ∀ P, einductive P → ∀ e, e ∈ es_ids s → P e (ef e).

Lemma eabove_inductive S : (∀ a, le bot a) → eabove S → einductive (λ e a, le a (S e)).
Proof.
  intros Hbot HS. split; [intros; apply Hbot|]. intros ef n e r [Hn _] Hle He Hr. etrans; [|by apply (HS n)]. by apply eoutflow_mono.
Qed.

(** Heights need only measure the facts a solve can meet. *)
Context (within : F → Prop) (height : F → nat) (H : nat).
Hypothesis within_inductive : einductive (λ _, within).
Hypothesis height_up : ∀ a b, within a → within b → le a b → a ≠ b → height a < height b.
Hypothesis height_le : ∀ a, within a → height a ≤ H.

Definition etotal (ef : Id → F) : nat := sum_list_with (λ e, height (ef e)) (es_ids s).
Notation nodes_n := (length (es_nodes s)).
Notation edges_n := (length (es_ids s)).
Definition emeasure (X : gset nat) (ef : Id → F) : nat := (edges_n * H - etotal ef) * (nodes_n + 1) + size X.

Lemma ederived_within ef e : ederived ef → e ∈ es_ids s → within (ef e).
Proof. intros Hd. apply (Hd _ within_inductive). Qed.

Lemma etotal_le ef : ederived ef → etotal ef ≤ edges_n * H.
Proof.
  intros Hd. pose proof (λ e, ederived_within ef e Hd) as Hw. revert Hw. unfold etotal. generalize (es_ids s). intros l.
  induction l as [|e l IH]; intros Hw; [done|]. cbn.
  pose proof (height_le (ef e) (Hw e ltac:(left))). specialize (IH ltac:(intros x Hx; apply Hw; by right)). lia.
Qed.

(** Pointwise rising sums rise, strictly when an entry does. *)
Lemma sum_rises (f f' : Id → F) (l : list Id) :
  (∀ e, e ∈ l → le (f e) (f' e) ∧ within (f e) ∧ within (f' e)) →
  sum_list_with (λ e, height (f e)) l ≤ sum_list_with (λ e, height (f' e)) l ∧
  ((∃ e, e ∈ l ∧ f' e ≠ f e) →
   sum_list_with (λ e, height (f e)) l < sum_list_with (λ e, height (f' e)) l).
Proof.
  induction l as [|x l IH]; intros Hle; [split; [done|]; by intros (e & ?%elem_of_nil & _)|]. cbn.
  destruct IH as [IH1 IH2]; [intros e He; apply Hle; by right|].
  destruct (Hle x ltac:(left)) as (Hx & Hw & Hw').
  assert (Hxh : height (f x) ≤ height (f' x)).
  { destruct (decide (f x = f' x)) as [->|Hne]; [done|]. pose proof (height_up _ _ Hw Hw' Hx Hne). lia. }
  split; [lia|]. intros (e & [->|He]%elem_of_cons & Hne).
  - pose proof (height_up _ _ Hw Hw' Hx (not_eq_sym Hne)). lia.
  - assert (∃ e, e ∈ l ∧ f' e ≠ f e) as Hex by (by exists e). specialize (IH2 Hex). lia.
Qed.

(** A step raises edge facts to what their equations give. *)
Lemma estep_raises X X' ef ef' :
  (∀ k, k ∈ X → ∃ n, index n = k ∧ eseeded s q seeds n) →
  erising ef → estep g s q X X' ef ef' →
  ebelow ef ef' ∧ erising ef' ∧ (ederived ef → ederived ef').
Proof.
  intros HX Hr (n & m & t & a & b & Hn & HnX & Hm & Ht & Hab & Hall & -> & _).
  assert (Hsd : eseeded s q seeds n) by by destruct (HX _ HnX) as (? & ->%index_inj & ?).
  rewrite ereceived_infallible in Hm. injection Hm as <-. cbn in Ht. injection Ht as <-. cbn [te_direction InfallibleEdgeProblem] in *.
  assert (Hnew : ∀ e r, e ∈ es_adj s d n → es_ref s e = Some r → after g s q ef a b (es_adj s d n) e = eoutflow ef n r).
  { intros e r He Hre. unfold after. rewrite decide_True by done. unfold emitted. rewrite Hre. cbn.
    unfold eoutflow. by rewrite <-Hab. }
  assert (Hold : ∀ e, e ∉ es_adj s d n → after g s q ef a b (es_adj s d n) e = ef e).
  { intros e He. unfold after. by rewrite decide_False. }
  assert (Hbelow : ebelow ef (after g s q ef a b (es_adj s d n))).
  { intros e He. destruct (decide (e ∈ es_adj s d n)) as [Hin|Hin]; [|by rewrite Hold].
    destruct (eo_ref _ (ew_ok (g := g)) e He) as (r & Hre & _). rewrite (Hnew e r Hin Hre). by apply Hr. }
  split_and!; [done| |].
  - intros x e r Hx He Hre. destruct (decide (e ∈ es_adj s d n)) as [Hin|Hin].
    + assert (x = n) as -> by by apply (adj_unique g s HV d x n e).
      rewrite (Hnew e r Hin Hre). by apply eoutflow_mono.
    + rewrite (Hold e Hin). etrans; [by apply (Hr x)|]. by apply eoutflow_mono.
  - intros Hd P HP e He. destruct (decide (e ∈ es_adj s d n)) as [Hin|Hin]; [|rewrite Hold by done; by apply Hd].
    destruct (eo_ref _ (ew_ok (g := g)) e He) as (r & Hre & _). rewrite (Hnew e r Hin Hre).
    apply (proj2 HP ef n e r Hsd); [|done|done]. by apply Hd.
Qed.

(** A step raises some edge fact or only shortens the queue. *)
Lemma emeasure_down X X' ef ef' :
  (∀ k, k ∈ X → ∃ n, index n = k ∧ eseeded s q seeds n) → (∀ k, k ∈ X' → ∃ n, index n = k ∧ eseeded s q seeds n) →
  erising ef → ederived ef → estep g s q X X' ef ef' → emeasure X' ef' < emeasure X ef.
Proof.
  intros HXs HX' Hr Hd Hstep. destruct (estep_raises X X' ef ef' HXs Hr Hstep) as (Hle & _ & Hd'). specialize (Hd' Hd).
  destruct Hstep as (n & m & t & a & b & Hn & HnX & _ & _ & _ & _ & _ & HX). cbn [te_direction InfallibleEdgeProblem] in HX.
  assert (Hsize : size X' ≤ nodes_n).
  { rewrite <-(length_fmap index (es_nodes s)). etrans; [|apply size_list_le]. apply subseteq_size.
    intros k Hk. destruct (HX' k Hk) as (x & <- & Hx & _). apply elem_of_list_to_set, list_elem_of_fmap. eauto. }
  destruct (sum_rises ef ef' (es_ids s)) as [Hsum Hstrict]; [intros e He; split_and!; [by apply Hle|by apply ederived_within..]|]. unfold emeasure. fold (etotal ef) (etotal ef') in Hsum, Hstrict.
  pose proof (etotal_le ef' Hd') as Hb.
  destruct (decide (Exists (λ e, ef' e ≠ ef e) (es_ids s))) as [Hex|Hno].
  - apply Exists_exists in Hex. specialize (Hstrict Hex).
    set (M := edges_n * H) in *.
    assert ((M - etotal ef') * (nodes_n + 1) + (nodes_n + 1) ≤ (M - etotal ef) * (nodes_n + 1)); [|lia].
    replace ((M - etotal ef') * (nodes_n + 1) + (nodes_n + 1)) with ((M - etotal ef' + 1) * (nodes_n + 1)) by lia.
    apply Nat.mul_le_mono_r. lia.
  - assert (Hsub : X' ⊆ X ∖ {[index n]}).
    { intros k [Hk|(e & r & He & _ & Hne & _)]%HX; [done|]. destruct Hno. apply Exists_exists.
      exists e. split; [by apply (adj_ids_live g s HV d n)|done]. }
    apply subseteq_size in Hsub. rewrite size_difference, size_singleton in Hsub by set_solver.
    assert (size X ≠ 0) by (intros ?%size_empty_inv; set_solver).
    assert ((edges_n * H - etotal ef') * (nodes_n + 1) ≤ (edges_n * H - etotal ef) * (nodes_n + 1))
      by (apply Nat.mul_le_mono_r; lia). lia.
Qed.

Lemma edge_loop_converges fuel V X i o ef st w steps :
  eloop_at g s q seeds V X i o ef st w → erising ef → ederived ef →
  emeasure X ef < fuel →
  ∃ st' steps' i' o' ef', edge_loop fuel g q bot config_new st w steps = Ok (inr (st', steps')) ∧
    table (es_shape s) (es_input st') i' ∧ table (es_shape s) (es_output st') o' ∧ etable s (es_edge st') ef' ∧
    esolution g s q seeds i' o' ef' ∧ ederived ef'.
Proof.
  revert V X i o ef st w steps. induction fuel as [|fuel IH]; intros V X i o ef st w steps Hat Hr Hl Hm; [lia|].
  cbn [edge_loop]. pose proof Hat as [Hq Hi Ho Hef Hs].
  destruct (pop_first_spec _ _ _ Hq) as (w1 & popped & -> & Hpop & Hw1). rsimpl.
  destruct popped as [k|]; cbn [least without] in *.
  2:{ subst X. exists st, steps, i, o, ef. split_and!; [done..|by eapply esolving_end|done]. }
  destruct Hpop as [Hk _]. destruct (ev_queue _ _ _ _ _ _ _ _ _ Hs k Hk) as (n & <- & [Hn _]).
  cbn [limit_hit max_steps config_new mbind option_bind].
  rewrite dense by done. rsimpl.
  destruct (evisit_spec g s HV q seeds dense V X i o ef st w1 w n Hat Hk Hn Hw1) as [([] & _)|
    (st' & w' & X' & i' & o' & ef' & Hv & Hat' & Hstep)].
  change (te_bottom q g) with bot in Hv. rewrite Hv. rsimpl.
  pose proof (ev_queue _ _ _ _ _ _ _ _ _ Hs) as HX. pose proof (ev_queue _ _ _ _ _ _ _ _ _ (ea_solving _ _ _ _ _ _ _ _ _ _ _ Hat')) as HX'.
  destruct (estep_raises X X' ef ef' HX Hr Hstep) as (_ & Hr' & Hl').
  eapply (IH _ _ _ _ _ _ _ _ Hat' Hr'); [by apply Hl'|].
  pose proof (emeasure_down X X' ef ef' HX HX' Hr Hl Hstep). lia.
Qed.
End Lattice.

(** * What the edge-sensitive solver promises

    The theorems on [dataflow/edge_fixpoint.rs], over any edge view that keeps
    the contract and whose identities come back from their indices, with the
    witnesses on the sample store. *)


(** What a solve reports: the facts at both sides of every live node, in
    program order, a fact on every edge of the view and none elsewhere. *)
Definition edge_reads {D F} (s : eshape D) (facts : EdgeFacts F) (i o ef : Id → F) : Prop :=
  (∀ n, n ∈ es_nodes s → edge_fact_in facts n = Ok (i n) ∧ edge_fact_out facts n = Ok (o n)) ∧
  ∀ e, fact_on facts e = if decide (e ∈ es_ids s) then Some (ef e) else None.

Section Solve.
Context {G D : Type} {HG : GraphView G} {HE : EdgeView G D} (g : G) (s : eshape D).
Context (HV : EdgeViews g s).

Section Fallible.
Context {F E : Type} `{EqDecision F} (p : TryEdgeProblem G D F E).

(** What a run gives: an error of the problem's own functions, the limit with
    work left, or facts of which [Q] holds. *)
Definition edge_outcome (Q : (Id → F) → (Id → F) → (Id → F) → Prop) (config : SolveConfig)
    (r : TrySolveError E + EdgeFacts F) : Prop :=
  match r with
  | inl (ProblemError e) => own_error g s p e
  | inl (SolverError (StepLimitExceeded limit steps pending)) =>
      max_steps config = Some limit ∧ steps = limit ∧ ∃ n, n ∈ es_nodes s ∧ pending = index n
  | inr facts =>
      (∀ limit, max_steps config = Some limit → edge_steps facts ≤ limit) ∧
      ∃ i o ef, edge_reads s facts i o ef ∧ Q i o ef
  end.

(** The run is short of fuel only when the limit does not fit in it. *)
Definition edge_answers (fuel : nat) (config : SolveConfig) (m : res (TrySolveError E + EdgeFacts F))
    (P : TrySolveError E + EdgeFacts F → Prop) : Prop :=
  (m = Stuck ∧ ∀ limit, max_steps config = Some limit → fuel < limit + 2) ∨ ∃ r, m = Ok r ∧ P r.

Lemma bottom_edges_spec bot : ∃ tbl, bottom_edges g bot = Ok tbl ∧ etable s tbl (λ _ : Id, bot : F).
Proof using HV.
  unfold bottom_edges. rewrite (ew_ids (g := g)), (ew_bound (g := g)). rsimpl.
  destruct (rfold_inv (λ don tbl, length tbl = es_edge_bound s ∧ ∀ e, index e < es_edge_bound s →
      tbl !! index e = Some (if decide (e ∈ don) then Some bot else None))
    (λ edge e, vset edge (index e) (Some bot)) (replicate (es_edge_bound s) None) (es_ids s))
    as (tbl & Hrun & Hl & Ht).
  - split; [apply length_replicate|]. intros e He. rewrite lookup_replicate_2 by done.
    by rewrite decide_False by by intros ?%elem_of_nil.
  - intros don e tbl Hpre [Hl Ht].
    assert (Hb : index e < es_edge_bound s).
    { apply (eo_edge_bound _ (ew_ok (g := g))). destruct Hpre as [l ->]. set_solver. }
    rewrite vset_lt by lia. eexists. split; [done|]. split; [by rewrite length_insert|].
    intros e' He'. destruct (decide (e' = e)) as [->|Hne].
    + rewrite list_lookup_insert_eq by lia. by rewrite decide_True by set_solver.
    + rewrite list_lookup_insert_ne by (intros ?%index_inj; congruence). rewrite Ht by done.
      f_equal. repeat case_decide; set_solver.
  - exists tbl. by split.
Qed.

Lemma tables_read (input output : list F) (edge : list (option F)) i o ef steps :
  table (es_shape s) input i → table (es_shape s) output o → etable s edge ef →
  edge_reads s (mk_edge_facts _ (mk_facts input output steps) edge) i o ef.
Proof using HV.
  intros [_ Hi] [_ Ho] [Hl He]. split.
  - intros n Hn. split; apply vget_eq; [by apply Hi|by apply Ho].
  - intros e. unfold fact_on. cbn. destruct (decide (index e < es_edge_bound s)) as [Hb|Hb].
    + by rewrite He.
    + rewrite lookup_ge_None_2 by lia. rewrite decide_False; [done|].
      intros Hin. by apply Hb, (eo_edge_bound _ (ew_ok (g := g))).
Qed.

Lemma edge_loop_start w seeds tbl :
  seeds ⊆ es_nodes s → queue_is w (es_node_bound s) (list_to_set (index <$> seeds)) →
  etable s tbl (λ _, te_bottom p g) →
  let table := replicate (gv_node_bound g) (te_bottom p g) in
  eloop_at g s p seeds ∅ (list_to_set (index <$> seeds)) (λ _, te_bottom p g) (λ _, te_bottom p g)
    (λ _, te_bottom p g) (mk_edge_state table table tbl) w.
Proof using HV.
  intros Hs Hw Ht. rewrite (vw_bound (Views := ew_views (g := g))).
  assert (table (es_shape s) (replicate (es_node_bound s) (te_bottom p g)) (λ _, te_bottom p g)) as Htab.
  { split; [by rewrite length_replicate|]. intros n Hn. apply lookup_replicate_2.
    by apply (eo_node_bound _ (ew_ok (g := g))). }
  split; cbn; [done..|]. by apply (esolving_start g s).
Qed.

Lemma run_edges fuel w seeds config :
  (∀ n, n ∈ es_nodes s → from_index (index n) = Ok n) →
  seeds ⊆ es_nodes s → queue_is w (es_node_bound s) (list_to_set (index <$> seeds)) →
  edge_answers fuel config (try_solve_edges fuel g p w config) (edge_outcome (esolution g s p seeds) config).
Proof using HV.
  intros dense Hs Hw. unfold try_solve_edges. destruct (bottom_edges_spec (te_bottom p g)) as (tbl & -> & Ht). rsimpl.
  pose proof (edge_loop_start w seeds tbl Hs Hw Ht) as Hat.
  destruct (edge_loop_sound g s HV p seeds dense fuel config _ _ _ _ _ _ _ 0 Hat)
    as [[Hst Hf]|(r & -> & Hr)]; [intros; lia| |].
  - left. rewrite Hst. split; [done|]. intros limit Hc. specialize (Hf _ Hc). lia.
  - right. rsimpl. destruct r as [[e|[limit steps pending]]|[st steps]]; eexists; (split; [done|]); [done..|].
    destruct Hr as (Hlim & i & o & ef & Hi & Ho & He & Hsol). split; [done|].
    exists i, o, ef. split; [by apply tables_read|done].
Qed.

(** The equations of a node: it holds the meet of its boundary and upstream
    edge facts, or bottom without any, and its transfer, and each of its
    downstream edges carries what the edge transfer makes of these. *)
Definition edge_equations (i o ef : Id → F) (n : Id) : Prop :=
  esettled g s p i o ef n ∧ eemits g s p i o ef n.
End Fallible.
End Solve.

(** C22: the full edge solve never panics. It fails with an error of the
    problem's own functions, reports the step limit with work left exactly at
    the limit, or returns facts that solve the equations of every live node and
    of every edge; with a step limit it always returns. *)
Theorem edge_solve_is_fixpoint {G D} `{HG : GraphView G} `{HE : !EdgeView G D} (g : G) (s : eshape D)
    {F E} `{EqDecision F} (p : TryEdgeProblem G D F E) (fuel : nat) (config : SolveConfig) :
  EdgeViews g s → (∀ n, n ∈ es_nodes s → from_index (index n) = Ok n) →
  edge_answers fuel config (try_solve_edge_problem_with_config fuel g p config)
    (edge_outcome g s p (λ i o ef, ∀ n, n ∈ es_nodes s → edge_equations g s p i o ef n) config).
Proof.
  intros HV Hd. unfold try_solve_edge_problem_with_config.
  destruct (live_spec g (es_shape s) (ew_views (g := g))) as (w & -> & Hw). rsimpl.
  destruct (run_edges g s HV p fuel w (es_nodes s) config) as [?|(r & Hr & Ho)]; [done..|by left|].
  right. exists r. split; [done|]. destruct r as [[e|[limit steps pending]]|facts]; [done..|].
  destruct Ho as (Hlim & i & o & ef & Hrd & V & H1 & H2 & _). split; [done|]. exists i, o, ef. split; [done|].
  intros n Hn. by apply H2, H1.
Qed.

(** A seeded edge solve panics when a seed is not a live node. Otherwise
    the nodes it visits hold the seeds, lie within what the seeds reach and are
    closed under edges that carry a fact other than bottom; they and their
    edges solve the equations, and every other node and edge holds bottom. *)
Theorem seeded_edge_solve_visits_what_flows {G D} `{HG : GraphView G} `{HE : !EdgeView G D} (g : G)
    (s : eshape D) {F E} `{EqDecision F} (p : TryEdgeProblem G D F E) (fuel : nat) (config : SolveConfig)
    (seeds : list Id) :
  EdgeViews g s → (∀ n, n ∈ es_nodes s → from_index (index n) = Ok n) →
  (¬ seeds ⊆ es_nodes s →
    try_solve_edge_problem_from_with_config fuel g p seeds config = Panic "seed node is out of range") ∧
  (seeds ⊆ es_nodes s →
    edge_answers fuel config (try_solve_edge_problem_from_with_config fuel g p seeds config)
      (edge_outcome g s p (esolution g s p seeds) config)).
Proof.
  intros HV Hd. unfold try_solve_edge_problem_from_with_config.
  destruct (seeded_spec g (es_shape s) (ew_views (g := g)) seeds) as [Hin Hout]. split.
  - intros Hn. by rewrite Hout.
  - intros Hs. destruct (Hin Hs) as (w & -> & Hw). rsimpl. by apply (run_edges g s).
Qed.

(** ** Monotone problems *)

(** An order on facts of finite height in which the problem is monotone. *)
Record edge_monotone {G D F} (g : G) (p : EdgeProblem G D F) (le : F → F → Prop) (height : F → nat)
    (H : nat) : Prop := {
  em_order : PreOrder le;
  em_meet : ∀ a a' b b', le a a' → le b b' → le (ep_meet p a b) (ep_meet p a' b');
  em_node : ∀ n a b, le a b → le (ep_transfer_node p g n a) (ep_transfer_node p g n b);
  em_edge : ∀ r i i' o o', le i i' → le o o' → le (ep_transfer_edge p g r i o) (ep_transfer_edge p g r i' o');
  em_height : ∀ a b, le a b → a ≠ b → height a < height b;
  em_bound : ∀ a, height a ≤ H;
  em_bottom : ∀ a, le (ep_bottom p g) a;
}.

(** Visits enough for any monotone problem: every visit raises the fact of an
    edge or shortens the queue. *)
Definition enough_edge_visits {D} (s : eshape D) (H : nat) : nat :=
  length (es_ids s) * H * (length (es_nodes s) + 1) + length (es_nodes s) + 1.

(** A monotone solve from any queue of seeds returns a solution that has every
    property the equations keep. *)
Lemma edge_solve_converges {G D} `{HG : GraphView G} `{HE : !EdgeView G D} (g : G) (s : eshape D)
    {F} `{EqDecision F} (p : EdgeProblem G D F) le `{!PreOrder le} (within : F → Prop) height H fuel w seeds :
  EdgeViews g s → (∀ n, n ∈ es_nodes s → from_index (index n) = Ok n) →
  (∀ a a' b b', le a a' → le b b' → le (ep_meet p a b) (ep_meet p a' b')) →
  (∀ n a b, le a b → le (ep_transfer_node p g n a) (ep_transfer_node p g n b)) →
  (∀ r i i' o o', le i i' → le o o' → le (ep_transfer_edge p g r i o) (ep_transfer_edge p g r i' o')) →
  einductive g s p seeds (λ _, within) → (∀ a b, within a → within b → le a b → a ≠ b → height a < height b) →
  (∀ a, within a → height a ≤ H) → (∀ a, le (ep_bottom p g) a) → seeds ⊆ es_nodes s →
  queue_is w (es_node_bound s) (list_to_set (index <$> seeds)) → enough_edge_visits s H ≤ fuel →
  ∃ facts i o ef, collapse_infallible <$> try_solve_edges fuel g (InfallibleEdgeProblem p) w config_new = Ok (inr facts) ∧
    edge_reads s facts i o ef ∧ esolution g s (InfallibleEdgeProblem p) seeds i o ef ∧ ederived g s p seeds ef.
Proof.
  intros HV Hd Hmeet Hnode Hedge Hwi Hup Hbd Hbot Hs Hq Hfuel.
  destruct (bottom_edges_spec g s HV (ep_bottom p g)) as (tbl & Htbl & Ht).
  pose proof (edge_loop_start g s HV (InfallibleEdgeProblem p) w seeds tbl Hs Hq Ht) as Hat.
  destruct (edge_loop_converges g s HV p seeds Hd le Hmeet Hnode Hedge within height H Hwi Hup Hbd
    fuel _ _ _ _ _ _ _ 0 Hat) as (st & steps & i & o & ef & Hrun & Hi & Ho & He & Hsol & Hl).
  - intros n e r Hn _ _. apply Hbot.
  - by intros P [HP _].
  - unfold emeasure, enough_edge_visits in *.
    assert (size (list_to_set (index <$> seeds) : gset nat) ≤ length (es_nodes s)).
    { rewrite <-(length_fmap index (es_nodes s)). etrans; [|apply size_list_le]. apply subseteq_size.
      intros k (n & -> & Hn)%elem_of_list_to_set%list_elem_of_fmap. apply elem_of_list_to_set, list_elem_of_fmap. eauto. }
    assert ((length (es_ids s) * H - etotal s height (λ _, ep_bottom p g)) * (length (es_nodes s) + 1)
      ≤ length (es_ids s) * H * (length (es_nodes s) + 1)); [|lia].
    apply Nat.mul_le_mono_r. lia.
  - exists (mk_edge_facts _ (mk_facts (es_input st) (es_output st) steps) (es_edge st)), i, o, ef.
    split_and!; [|by apply (tables_read g s)|exact Hsol|exact Hl].
    unfold try_solve_edges. change (te_bottom (InfallibleEdgeProblem p) g) with (ep_bottom p g) in *.
    rewrite Htbl. rsimpl. by rewrite Hrun.
Qed.

(** C23: on a problem monotone over an order of finite height with bottom least,
    the unbounded edge solve returns within [enough_edge_visits] turns, and its
    facts are the least solution: every node and edge solves its equation, and
    any assignment of facts to edges that is above its own equations is above
    the edge facts returned. *)
Theorem monotone_edge_solve_is_least {G D} `{HG : GraphView G} `{HE : !EdgeView G D} (g : G) (s : eshape D)
    {F} `{EqDecision F} (p : EdgeProblem G D F) le height H fuel :
  EdgeViews g s → (∀ n, n ∈ es_nodes s → from_index (index n) = Ok n) →
  edge_monotone g p le height H → enough_edge_visits s H ≤ fuel →
  ∃ facts i o ef, solve_edge_problem fuel g p = Ok (inr facts) ∧ edge_reads s facts i o ef ∧
    (∀ n, n ∈ es_nodes s → edge_equations g s (InfallibleEdgeProblem p) i o ef n) ∧
    ∀ S, (∀ n e r, n ∈ es_nodes s → e ∈ es_adj s (traversal (ep_direction p)) n → es_ref s e = Some r →
            le (eoutflow g s p S n r) (S e)) →
      ∀ e, e ∈ es_ids s → le (ef e) (S e).
Proof.
  intros HV Hd [Hpre Hmeet Hnode Hedge Hup Hbd Hbot] Hfuel.
  destruct (live_spec g (es_shape s) (ew_views (g := g))) as (w & Hw & Hq).
  destruct (edge_solve_converges g s p le (λ _, True) height H fuel w (es_nodes s) HV Hd Hmeet Hnode Hedge)
    as (facts & i & o & ef & Hrun & Hrd & (V & H1 & H2 & _) & Hl); [done|auto..|done|done|done|].
  exists facts, i, o, ef. split_and!; [|done|intros n Hn; by apply H2, H1|].
  - unfold solve_edge_problem, solve_edge_problem_with_config. rewrite Hw. exact Hrun.
  - intros S HS. by apply (Hl _ (eabove_inductive g s HV p (es_nodes s) le Hmeet Hnode Hedge S Hbot HS)).
Qed.

(** ** Witnesses *)

(** Forward taint that edges with a payload above [cut] do not carry. *)
Definition edge_taint (source cut : N) : EdgeProblem (Graph N N) N bool := {|
  ep_direction := Forward;
  ep_bottom _ := false;
  ep_boundary _ _ := None;
  ep_meet a b := a || b;
  ep_transfer_node _ node input := input || bool_decide (node = source);
  ep_transfer_edge _ r _ output := output && bool_decide (er_data r ≤ cut)%N;
|}.

Definition edge_taint_height (b : bool) : nat := if b then 1 else 0.

Lemma edge_taint_monotone g source cut :
  edge_monotone g (edge_taint source cut) (λ a b, a = true → b = true) edge_taint_height 1.
Proof.
  split; cbn.
  - split; [intros a; tauto|intros a b c; tauto].
  - intros a a' b b' Ha Hb. rewrite !orb_true_iff. tauto.
  - intros n a b Ha. rewrite !orb_true_iff. tauto.
  - intros r i i' o o' _ Ho. rewrite !andb_true_iff. tauto.
  - intros [] [] Hle Hne; cbn; try lia.
  - intros []; cbn; lia.
  - done.
Qed.

Lemma edge_solve_is_fixpoint_witness :
  ∃ s : eshape N, EdgeViews sample_store s ∧
    ∃ facts, try_solve_edge_problem_with_config 100 sample_store (InfallibleEdgeProblem (edge_taint 3 103))
        config_new = Ok (inr facts) ∧
      ∃ i o ef, edge_reads s facts i o ef ∧
        ∀ n, n ∈ es_nodes s →
          edge_equations sample_store s (InfallibleEdgeProblem (edge_taint 3 103)) i o ef n.
Proof.
  destruct sample_edges as (s & HV & _ & _ & Hd). exists s. split; [exact HV|].
  destruct (edge_solve_is_fixpoint sample_store s (InfallibleEdgeProblem (edge_taint 3 103)) 100
    config_new HV Hd) as [[Hst _]|(r & Hr & Ho)].
  - vm_compute in Hst. discriminate Hst.
  - destruct r as [e|facts].
    + vm_compute in Hr. discriminate Hr.
    + exists facts. split; [exact Hr|]. destruct Ho as [_ Ho]. exact Ho.
Defined.

Lemma seeded_edge_solve_visits_what_flows_witness :
  ∃ s : eshape N, EdgeViews sample_store s ∧
    try_solve_edge_problem_from_with_config 100 sample_store (InfallibleEdgeProblem (edge_taint 3 103))
      [1%N] config_new = Panic "seed node is out of range" ∧
    edge_answers 100 config_new
      (try_solve_edge_problem_from_with_config 100 sample_store (InfallibleEdgeProblem (edge_taint 3 103))
        [3%N] config_new)
      (edge_outcome sample_store s (InfallibleEdgeProblem (edge_taint 3 103))
        (esolution sample_store s (InfallibleEdgeProblem (edge_taint 3 103)) [3%N]) config_new).
Proof.
  destruct sample_edges as (s & HV & Hns & _ & Hd). exists s. split; [exact HV|]. split.
  - apply (seeded_edge_solve_visits_what_flows sample_store s (InfallibleEdgeProblem (edge_taint 3 103)) 100
      config_new [1%N] HV Hd). rewrite Hns. intros Hsub. specialize (Hsub 1%N ltac:(left)).
    repeat (apply elem_of_cons in Hsub as [[=]|Hsub]). by apply elem_of_nil in Hsub.
  - apply (seeded_edge_solve_visits_what_flows sample_store s (InfallibleEdgeProblem (edge_taint 3 103)) 100
      config_new [3%N] HV Hd). rewrite Hns. intros x [->|Hx%elem_of_nil]%elem_of_cons; [|done].
    right. right. left.
Defined.

Lemma monotone_edge_solve_is_least_witness :
  ∃ s : eshape N, EdgeViews sample_store s ∧
    ∃ facts, solve_edge_problem 100 sample_store (edge_taint 2 104) = Ok (inr facts) ∧
      fact_on facts 3%N = Some true ∧ fact_on facts 4%N = Some false.
Proof.
  destruct sample_edges as (s & HV & Hns & Hes & Hd). exists s. split; [exact HV|].
  destruct (monotone_edge_solve_is_least sample_store s (edge_taint 2 104) _ _ _ 100 HV Hd
    (edge_taint_monotone sample_store 2 104)) as (facts & i & o & ef & Hr & _).
  - unfold enough_edge_visits. rewrite Hns, Hes. cbn. lia.
  - exists facts. split; [exact Hr|]. vm_compute in Hr. injection Hr as <-. split; reflexivity.
Defined.
