(* ===== verification/LiveVars.v ===== *)
(** * Liveness of variables

    Models [dataflow/liveness.rs] with the departure rule of
    [dataflow/unwind.rs] and the instruction contract of
    [dataflow/instruction.rs]: the worklist over flat buffers of bit rows, one
    row per block and one bit per variable, and the queries that replay a block.
    A [BTreeSet] of variables is a finite set; the order on variables only numbers
    the bits. Proofs are in [LiveVarsTheorems]. *)

From S2P Require Import Prelude Words Ids View EdgeViews Traverse Bits Solver EdgeKinds Cfg.

(** [trait InstrInfo] *)
Class InstrInfo (I Var : Type) : Type := {
  uses : I → list Var;
  defs : I → list Var;
  may_unwind : I → bool;
}.

(** ** Flat buffers of rows *)

(** [row], as the slice it selects *)
Definition slice (words : nat) (buf : list N) (b : nat) : res (list N) :=
  _ ← rassert (bool_decide ((b + 1) * words ≤ length buf)) "range end index out of range for slice";
  mret (take words (drop (b * words) buf)).
Definition put_slice (words : nat) (buf : list N) (b : nat) (r : list N) : list N :=
  take (b * words) buf ++ r ++ drop ((b + 1) * words) buf.
(** [f] works on a row in place *)
Definition with_slice (words : nat) (buf : list N) (b : nat) (f : list N → res (list N)) : res (list N) :=
  r ← slice words buf b; r ← f r; mret (put_slice words buf b r).

(** [for (word, from) in destination.iter_mut().zip(source)] *)
Fixpoint or_into (destination source : list N) : list N :=
  match destination, source with
  | word :: destination, from :: source => N.lor word from :: or_into destination source
  | _, _ => destination
  end.

Section LiveVars.
Context {G I D Var : Type} {HG : GraphView G} {HR : RootedView G} {HE : EdgeView G D} {HK : KindedEdge D} {HC : CfgView G I D}.
Context `{Countable Var} (le : relation Var) `{∀ x y, Decision (le x y)} {HI : InstrInfo I Var}.
Implicit Types (g : G) (b : Id) (v : Var) (u : list Var) (buf r : list N).

(** ** Departures ([dataflow/unwind.rs]) *)

(** [is_unwind_edge], [departs_before_throws] *)
Definition is_unwind_edge (e : EdgeRef D) : bool := bool_decide (kind_of (er_data e) = ExceptionUnwind).
Definition departs_before_throws g (e : EdgeRef D) : res bool :=
  if is_unwind_edge e then l ← cv_instructions g (er_source e); mret (existsb may_unwind l) else mret false.

(** [step_backward] *)
Definition step_backward (live : gset Var) (x : I) (on_unwind : gset Var) : gset Var :=
  let live := foldl (λ live v, live ∖ {[v]}) live (defs x) in
  let live := foldl (λ live v, {[v]} ∪ live) live (uses x) in
  if may_unwind x then live ∪ on_unwind else live.

(** ** The variables of a solve *)

(** [Universe::of], [Universe::words] *)
Definition universe_of g (seeds : list (list Var)) : res (list Var) :=
  ids ← gv_node_ids g;
  variables ← rfold (λ variables b, l ← cv_instructions g b; mret (variables ++ (l ≫= λ x, uses x ++ defs x))) (concat seeds) ids;
  mret (dedup (merge_sort le variables)).
Definition words_of u : nat := div_ceil (length u) 64.

(** [Universe::insert], [Universe::remove]: [binary_search] finds the position
    of a variable in the sorted list when it is there. *)
Definition position u v : option nat := fst <$> list_find (λ x, x = v) u.
Definition update_bit (f : N → N → N) u r v : res (list N) :=
  match position u v with
  | Some i => let '(word, bit) := bit_slot i in w ← vget r word; vset r word (f w bit)
  | None => mret r
  end.
Definition u_insert : list Var → list N → Var → res (list N) := update_bit N.lor.
Definition u_remove : list Var → list N → Var → res (list N) := update_bit (λ w bit, N.land w (not64 bit)).

(** [Universe::set] *)
Definition u_set u r : res (gset Var) :=
  bits ← ones_of r; vs ← rmapM (vget u) bits; mret (list_to_set vs).

(** ** What each block does *)

(** [BlockRows] *)
Record BlockRows : Type := mk_BlockRows {
  br_words : nat;
  br_reads : list N;
  br_writes : list N;
  br_seeded : list N;
  br_unwinding : list bool;
  br_before_unwind : list N;
}.

(** The loop over a block's instructions up to the first that may unwind *)
Fixpoint before_unwind u (l : list I) r : res (bool * list N) :=
  match l with
  | [] => mret (false, r)
  | x :: l => if may_unwind x then mret (true, r) else r ← rfold (u_insert u) r (defs x); before_unwind u l r
  end.

(** One turn of the reversed loop *)
Definition read_write u (acc : list N * list N) (x : I) : res (list N * list N) :=
  let '(reads, writes) := acc in
  '(reads, writes) ← rfold (λ '(reads, writes) v, reads ← u_remove u reads v; writes ← u_insert u writes v; mret (reads, writes)) (reads, writes) (defs x);
  reads ← rfold (u_insert u) reads (uses x);
  mret (reads, writes).

(** The body of the loop of [BlockRows::of] *)
Definition note_block g u (seeds : list (list Var)) (has_unwind : bool) (rows : BlockRows) b : res BlockRows :=
  let i := index b in
  let words := br_words rows in
  seed ← vget seeds i;
  seeded ← with_slice words (br_seeded rows) i (λ r, rfold (u_insert u) r seed);
  l ← cv_instructions g b;
  '(unwinding, before) ← (if has_unwind then
    before ← slice words (br_before_unwind rows) i;
    '(throws, before) ← before_unwind u l before;
    unwinding ← (if throws : bool then vset (br_unwinding rows) i true else mret (br_unwinding rows));
    mret (unwinding, put_slice words (br_before_unwind rows) i before)
  else mret (br_unwinding rows, br_before_unwind rows));
  reads ← slice words (br_reads rows) i;
  writes ← slice words (br_writes rows) i;
  '(reads, writes) ← rfold (read_write u) (reads, writes) (reverse l);
  mret (mk_BlockRows words (put_slice words (br_reads rows) i reads) (put_slice words (br_writes rows) i writes) seeded unwinding before).

(** [BlockRows::of] *)
Definition rows_of g u (seeds : list (list Var)) (has_unwind : bool) : res BlockRows :=
  let bound := gv_node_bound g in
  let words := words_of u in
  let zeros := replicate (bound * words) 0%N in
  ids ← gv_node_ids g;
  rfold (note_block g u seeds has_unwind)
    (mk_BlockRows words zeros zeros zeros (replicate (if has_unwind then bound else 0) false) (if has_unwind then zeros else [])) ids.

(** ** The solve *)

Record SolveState : Type := mk_SolveState {
  sv_live_in : list N;
  sv_flowing_out : list N;
  sv_queued : list bool;
  sv_worklist : list Id;
  sv_steps : nat;
}.

(** The [for edge] loop: what flows back over an edge joins one of two rows. *)
Definition flow_back g (rows : BlockRows) (has_unwind : bool) (i : nat) (live_in : list N) (acc : list N * list N) (e : Id) : res (list N * list N) :=
  let '(out, unwind_out) := acc in
  edge ← ev_edge g e;
  before ← (if has_unwind then throws ← vget (br_unwinding rows) i; mret (throws && is_unwind_edge edge) else mret false);
  from ← slice (br_words rows) live_in (index (er_target edge));
  mret (if (before : bool) then (out, or_into unwind_out from) else (or_into out from, unwind_out)).

(** The words of [next] *)
Definition next_word (rows : BlockRows) (has_unwind : bool) (i : nat) (out unwind_out : list N) (p : nat) : res N :=
  let at_ := i * br_words rows + p in
  o ← vget out p;
  seeded ← vget (br_seeded rows) at_;
  writes ← vget (br_writes rows) at_;
  reads ← vget (br_reads rows) at_;
  let word := N.lor (N.land (N.lor o seeded) (not64 writes)) reads in
  if has_unwind then
    uo ← vget unwind_out p;
    before ← vget (br_before_unwind rows) at_;
    mret (N.lor word (N.land uo (not64 before)))
  else mret word.

Definition push_unqueued (acc : list bool * list Id) b : res (list bool * list Id) :=
  let '(queued, worklist) := acc in
  was ← vget queued (index b);
  if (was : bool) then mret acc else queued ← vset queued (index b) true; mret (queued, b :: worklist).

(** The body of the [while let], for the block popped *)
Definition solve_block g (rows : BlockRows) (has_unwind : bool) (st : SolveState) b : res SolveState :=
  let i := index b in
  let words := br_words rows in
  queued ← vset (sv_queued st) i false;
  _ ← slice words (sv_flowing_out st) i;
  outs ← ev_outgoing g b;
  '(out, unwind_out) ← rfold (flow_back g rows has_unwind i (sv_live_in st))
    (replicate words 0%N, replicate (if has_unwind then words else 0) 0%N) outs;
  next ← rmapM (next_word rows has_unwind i out unwind_out) (seq 0 words);
  let flowing_out := put_slice words (sv_flowing_out st) i out in
  old ← slice words (sv_live_in st) i;
  if decide (next = old) then mret (mk_SolveState (sv_live_in st) flowing_out queued (sv_worklist st) (S (sv_steps st))) else
  preds ← gv_predecessors g b;
  '(queued, worklist) ← rfold push_unqueued (queued, sv_worklist st) preds;
  mret (mk_SolveState (put_slice words (sv_live_in st) i next) flowing_out queued worklist (S (sv_steps st))).

Fixpoint solve_loop (fuel : nat) g (rows : BlockRows) (has_unwind : bool) (st : SolveState) : res SolveState :=
  match fuel with
  | 0 => Stuck
  | S fuel =>
      match sv_worklist st with
      | [] => mret st
      | b :: worklist =>
          st ← solve_block g rows has_unwind (mk_SolveState (sv_live_in st) (sv_flowing_out st) (sv_queued st) worklist (sv_steps st)) b;
          solve_loop fuel g rows has_unwind st
      end
  end.

(** Every block once, and its predecessors for every variable it gains *)
Definition solve_fuel g u : nat := S (gv_node_bound g + length u * adjacency_total Incoming g).

(** The last loop: the seed joins the live-out set *)
Definition read_block u (rows : BlockRows) (live_in : list N) (acc : list N * list (gset Var) * list (gset Var)) b
    : res (list N * list (gset Var) * list (gset Var)) :=
  let '(flowing_out, block_in, block_out) := acc in
  let i := index b in
  seeded ← slice (br_words rows) (br_seeded rows) i;
  flowing_out ← with_slice (br_words rows) flowing_out i (λ r, mret (or_into r seeded));
  r ← slice (br_words rows) live_in i;
  inside ← u_set u r;
  block_in ← vset block_in i inside;
  r ← slice (br_words rows) flowing_out i;
  outside ← u_set u r;
  block_out ← vset block_out i outside;
  mret (flowing_out, block_in, block_out).

(** [solve] *)
Definition solve g (live_out : Id → list Var) : res (Facts (gset Var)) :=
  let bound := gv_node_bound g in
  ids ← gv_node_ids g;
  seeds ← rfold (λ seeds b, vset seeds (index b) (live_out b)) (replicate bound []) ids;
  u ← universe_of g seeds;
  edges ← ev_edge_ids g;
  has_unwind ← rfold (λ found e, if (found : bool) then mret true else is_unwind_edge <$> ev_edge g e) false edges;
  rows ← rows_of g u seeds has_unwind;
  let zeros := replicate (bound * br_words rows) 0%N in
  queued ← rfold (λ queued b, vset queued (index b) true) (replicate bound false) ids;
  st ← solve_loop (solve_fuel g u) g rows has_unwind (mk_SolveState zeros zeros queued (reverse ids) 0);
  '(_, block_in, block_out) ← rfold (read_block u rows (sv_live_in st)) (sv_flowing_out st, replicate bound ∅, replicate bound ∅) ids;
  mret (mk_facts block_in block_out (sv_steps st)).

(** ** Queries *)

(** [Liveness::compute_with_exits], [compute] *)
Definition compute_with_exits : G → (Id → list Var) → res (Facts (gset Var)) := solve.
Definition compute g : res (Facts (gset Var)) := compute_with_exits g (λ _, []).

(** [Liveness::live_in], [live_out], [is_live_in], [is_live_out] *)
Definition live_in (live : Facts (gset Var)) b : res (gset Var) := fact_in live b.
Definition live_out (live : Facts (gset Var)) b : res (gset Var) := fact_out live b.
Definition is_live_in (live : Facts (gset Var)) v b : res bool := X ← live_in live b; mret (bool_decide (v ∈ X)).
Definition is_live_out (live : Facts (gset Var)) v b : res bool := X ← live_out live b; mret (bool_decide (v ∈ X)).

(** [Liveness::live_on_unwind] *)
Definition live_on_unwind (live : Facts (gset Var)) g b : res (gset Var) :=
  outs ← ev_outgoing g b;
  rfold (λ X e,
    edge ← ev_edge g e;
    before ← departs_before_throws g edge;
    if (before : bool) then Y ← live_in live (er_target edge); mret (X ∪ Y) else mret X) ∅ outs.

(** [Liveness::live_points]: a list is built from its end, where the code fills a
    vector from its last slot. *)
Definition live_points (live : Facts (gset Var)) g b : res (list (gset Var)) :=
  l ← cv_instructions g b;
  last ← live_out live b;
  unwind ← live_on_unwind live g b;
  mret (foldr (λ x points, step_backward (default ∅ (head points)) x unwind :: points) [last] l).

(** [Liveness::live_before_instructions], [live_after_instructions] *)
Definition live_before_instructions (live : Facts (gset Var)) g b : res (list (gset Var)) :=
  points ← live_points live g b; mret (take (length points - 1) points).
Definition live_after_instructions (live : Facts (gset Var)) g b : res (list (gset Var)) :=
  points ← live_points live g b; mret (drop 1 points).

(** [Liveness::all_live_variables] *)
Definition all_live_variables (live : Facts (gset Var)) g : res (gset Var) :=
  ids ← gv_node_ids g;
  rfold (λ all b, X ← live_in live b; Y ← live_out live b; mret (all ∪ X ∪ Y)) ∅ ids.
End LiveVars.
