(* ===== verification/LiveVarsTheorems.v ===== *)
(** * What the liveness analysis finds

    A variable is live at a point of a block when some path of the program reaches
    a use of it, or a block that hands it on, before a definition; a path may leave
    before a throwing instruction over an unwind edge. The worklist of
    [dataflow/liveness.rs] over bit rows finds exactly that. *)

From S2P Require Import Prelude Words Liveness Ids View EdgeViews Chains Runs Store StoreInv StoreSpec StoreView History Traverse Bits Solver EdgeKinds Cfg CfgTraces CfgTheorems LiveVars.

#[local] Arguments Nat.div : simpl never.
#[local] Arguments Nat.modulo : simpl never.

(** ** Flat buffers *)

Section Flat.
Context (words : nat).

Definition flat (rows : list (list N)) (buf : list N) : Prop := buf = concat rows ∧ Forall (λ r, length r = words) rows.

Lemma length_flat rows buf : flat rows buf → length buf = length rows * words.
Proof. intros [-> Hr]. induction Hr as [|r rows Hr _ IH]; [done|]. cbn. rewrite length_app, Hr, IH. lia. Qed.

Lemma flat_split rows1 r rows2 buf : flat (rows1 ++ r :: rows2) buf →
  take (length rows1 * words) buf = concat rows1 ∧ drop (length rows1 * words) buf = r ++ concat rows2 ∧
  drop ((length rows1 + 1) * words) buf = concat rows2 ∧ length r = words.
Proof.
  intros [-> Hr]. apply Forall_app in Hr as [H1 [Hr H2]%Forall_cons].
  assert (length (concat rows1) = length rows1 * words) as Hlen by by apply length_flat.
  rewrite concat_app. cbn [concat]. rewrite <-Hlen. split_and!; [by apply take_app_length|by apply drop_app_length| |done].
  rewrite drop_app_ge by lia. replace ((length rows1 + 1) * words - length (concat rows1)) with (length r) by lia. by apply drop_app_length.
Qed.

Lemma slice_flat rows buf b r : flat rows buf → rows !! b = Some r → slice words buf b = Ok r ∧ length r = words.
Proof.
  intros Hf Hb. pose proof (length_flat _ _ Hf) as Hlen. pose proof (lookup_lt_Some _ _ _ Hb) as Hlt.
  apply list_elem_of_split_length in Hb as (rows1 & rows2 & -> & ->). destruct (flat_split _ _ _ _ Hf) as (_ & Hd & _ & Hr). split; [|done].
  unfold slice. rewrite bool_decide_true by (rewrite Hlen; apply Nat.mul_le_mono_r; lia). rsimpl. rewrite Hd. f_equal. rewrite <-Hr at 1. apply take_app_length.
Qed.

Lemma put_flat rows buf b r : flat rows buf → b < length rows → length r = words → flat (<[b := r]> rows) (put_slice words buf b r).
Proof.
  intros Hf Hlt Hr. destruct (lookup_lt_is_Some_2 _ _ Hlt) as [old Hb]. apply list_elem_of_split_length in Hb as (rows1 & rows2 & -> & ->).
  destruct (flat_split _ _ _ _ Hf) as (Ht & _ & Hd & _). unfold put_slice. rewrite Ht, Hd. rewrite insert_app_r_alt, Nat.sub_diag by done. cbn. split.
  - rewrite concat_app. done.
  - destruct Hf as [_ [H1 [_ H2]%Forall_cons]%Forall_app]. apply Forall_app. split; [done|]. by constructor.
Qed.

Lemma vget_flat rows buf b r p : flat rows buf → rows !! b = Some r → p < words → vget buf (b * words + p) = vget r p.
Proof.
  intros Hf Hb Hp. apply list_elem_of_split_length in Hb as (rows1 & rows2 & -> & ->). destruct (flat_split _ _ _ _ Hf) as (_ & Hd & _ & Hr).
  unfold vget. rewrite <-lookup_drop, Hd, lookup_app_l by lia. done.
Qed.

Lemma flat_zeros n : flat (replicate n (replicate words 0%N)) (replicate (n * words) 0%N).
Proof.
  split; [|apply Forall_replicate; by rewrite length_replicate]. induction n as [|n IH]; [done|]. cbn. by rewrite replicate_add, IH.
Qed.
End Flat.

(** ** Rows as sets of variables *)

Section Sets.
Context {Var : Type} `{Countable Var} (u : list Var) (Hu : NoDup u).
Implicit Types (X Y : gset Var) (r : list N).
Notation words := (words_of u).

Record holds (r : list N) (X : gset Var) : Prop := mk_holds {
  ho_len : length r = words;
  ho_u64 : Forall is_u64 r;
  ho_mem : ∀ i, row_mem r i = true ↔ ∃ v, u !! i = Some v ∧ v ∈ X;
  ho_sub : ∀ v, v ∈ X → v ∈ u;
}.

Lemma holds_zeros : holds (replicate words 0%N) ∅.
Proof using. clear Hu. split; [by rewrite length_replicate|apply zeros_u64| |set_solver]. intros i. rewrite row_mem_zeros. set_solver. Qed.

Lemma holds_set_inj r r' X Y : holds r X → holds r' Y → r = r' ↔ X = Y.
Proof using. clear Hu.
  intros HX HY. split.
  - intros <-. apply set_eq. intros v. split; intros Hv.
    + destruct (list_elem_of_lookup_1 u v (ho_sub _ _ HX v Hv)) as [i Hi]. assert (row_mem r i = true) as Hm by (apply (ho_mem _ _ HX); eauto).
      apply (ho_mem _ _ HY) in Hm as (w & Hw & Hin). congruence.
    + destruct (list_elem_of_lookup_1 u v (ho_sub _ _ HY v Hv)) as [i Hi]. assert (row_mem r i = true) as Hm by (apply (ho_mem _ _ HY); eauto).
      apply (ho_mem _ _ HX) in Hm as (w & Hw & Hin). congruence.
  - intros <-. apply row_ext; [by rewrite (ho_len _ _ HX), (ho_len _ _ HY)|apply HX|apply HY|].
    intros i. apply eq_bool_prop_intro. rewrite !Is_true_true. by rewrite (ho_mem _ _ HX), (ho_mem _ _ HY).
Qed.

Lemma position_Some v i : position u v = Some i ↔ u !! i = Some v.
Proof using Hu.
  unfold position. rewrite fmap_Some. split.
  - intros ([j x] & (Hx & Heq & _)%list_find_Some & ->). cbn in *. congruence.
  - intros Hi. destruct (list_find_elem_of (λ x, x = v) u v) as [[j x] Hf]; [by eapply list_elem_of_lookup_2|done|].
    exists (j, x). split; [done|]. apply list_find_Some in Hf as (Hj & -> & _). cbn. by eapply NoDup_lookup.
Qed.

Lemma update_bit_at r X v i f : holds r X → u !! i = Some v →
  ∃ w, r !! (i `div` 64) = Some w ∧ is_u64 w ∧ update_bit f u r v = Ok (<[i `div` 64 := f w (bit_of (i `mod` 64))]> r).
Proof using Hu.
  intros Hr Hi. pose proof (lookup_lt_Some _ _ _ Hi) as Hlt. destruct (lookup_lt_is_Some_2 r (i `div` 64)) as [w Hw].
  { rewrite (ho_len _ _ Hr). by apply div_ceil_lt. }
  exists w. split; [done|]. split; [by eapply Forall_lookup_1; [apply Hr|]|]. unfold update_bit, bit_slot. rewrite (proj2 (position_Some v i) Hi).
  rewrite (vget_eq _ _ _ Hw). rsimpl. by rewrite vset_lt by (by eapply lookup_lt_Some).
Qed.

Lemma insert_holds r X v : holds r X → v ∈ u → ∃ r', u_insert u r v = Ok r' ∧ holds r' ({[v]} ∪ X).
Proof using Hu.
  unfold u_insert, u_remove. intros Hr [i Hi]%list_elem_of_lookup_1. destruct (update_bit_at r X v i N.lor Hr Hi) as (w & Hw & Hw64 & ->). eexists. split; [reflexivity|]. split.
  - rewrite length_insert. apply Hr.
  - apply Forall_insert; [apply Hr|]. apply is_u64_lor; [done|]. apply is_u64_bit_of, mod64_lt.
  - intros j. rewrite row_mem_set by done. rewrite orb_true_iff, bool_decide_eq_true, (ho_mem _ _ Hr). setoid_rewrite elem_of_union. setoid_rewrite elem_of_singleton. split.
    + intros [(x & Hx & Hin)| ->]; eauto.
    + intros (x & Hx & [->|Hin]); [right; by eapply NoDup_lookup|left; eauto].
  - intros x. rewrite elem_of_union, elem_of_singleton. intros [->|Hx]; [by eapply list_elem_of_lookup_2|by apply (ho_sub _ _ Hr)].
Qed.

Lemma remove_holds r X v : holds r X → v ∈ u → ∃ r', u_remove u r v = Ok r' ∧ holds r' (X ∖ {[v]}).
Proof using Hu.
  unfold u_insert, u_remove. intros Hr [i Hi]%list_elem_of_lookup_1. destruct (update_bit_at r X v i (λ w bit, N.land w (not64 bit)) Hr Hi) as (w & Hw & Hw64 & ->). eexists. split; [reflexivity|]. split.
  - rewrite length_insert. apply Hr.
  - apply Forall_insert; [apply Hr|]. by apply is_u64_land.
  - intros j. rewrite row_mem_clear by done. rewrite andb_true_iff, negb_true_iff, bool_decide_eq_false, (ho_mem _ _ Hr).
    setoid_rewrite elem_of_difference. setoid_rewrite elem_of_singleton. split.
    + intros [(x & Hx & Hin) Hj]. exists x. split; [done|]. split; [done|]. intros ->. apply Hj. by eapply NoDup_lookup.
    + intros (x & Hx & Hin & Hne). split; [eauto|]. intros ->. congruence.
  - intros x. rewrite elem_of_difference. intros [Hx _]. by apply (ho_sub _ _ Hr).
Qed.

Lemma insert_all_holds (vs : list Var) : ∀ r X, holds r X → (∀ v, v ∈ vs → v ∈ u) → ∃ r', rfold (u_insert u) r vs = Ok r' ∧ holds r' (list_to_set vs ∪ X).
Proof using Hu.
  induction vs as [|v vs IH]; intros r X Hr Hvs; cbn [rfold]; [exists r; split; [done|]; by rewrite left_id_L by apply _|].
  destruct (insert_holds r X v Hr) as (r1 & -> & H1); [apply Hvs; by left|]. rsimpl.
  destruct (IH r1 _ H1) as (r2 & H2 & Hh); [intros x Hx; apply Hvs; by right|]. exists r2. split; [done|].
  replace (list_to_set (v :: vs) ∪ X) with (list_to_set vs ∪ ({[v]} ∪ X)) by set_solver. done.
Qed.

Lemma or_into_zip (r r' : list N) : length r = length r' → or_into r r' = zip_with N.lor r r'.
Proof using. clear Hu. revert r'. induction r as [|w r IH]; intros [|w' r'] Hlen; try done. cbn. f_equal. apply IH. by injection Hlen. Qed.

Lemma or_holds r r' X Y : holds r X → holds r' Y → holds (or_into r r') (X ∪ Y).
Proof using. clear Hu.
  intros HX HY. rewrite or_into_zip by by rewrite (ho_len _ _ HX), (ho_len _ _ HY). split.
  - rewrite length_zip_with, (ho_len _ _ HX), (ho_len _ _ HY). lia.
  - apply zip_u64; [apply is_u64_lor|apply HX|apply HY].
  - intros i. rewrite (row_mem_zip _ orb); [|by rewrite (ho_len _ _ HX), (ho_len _ _ HY)|done|intros; apply N.lor_spec].
    rewrite orb_true_iff, (ho_mem _ _ HX), (ho_mem _ _ HY). set_solver.
  - intros v [?|?]%elem_of_union; [by apply (ho_sub _ _ HX)|by apply (ho_sub _ _ HY)].
Qed.

(** [r & !r'], word by word *)
Definition without_words (r r' : list N) : list N := zip_with (λ w x, N.land w (not64 x)) r r'.

Lemma land_not64 w x : is_u64 w → N.land w (not64 x) = N.ldiff w x.
Proof using. clear Hu.
  intros Hw. apply N.bits_inj. intros j. unfold not64. rewrite N.land_spec, N.lxor_spec, N.ldiff_spec, U64_MAX_testbit.
  destruct (j <? 64)%N eqn:Hj; [by rewrite xorb_true_r|]. apply N.ltb_ge in Hj. by rewrite (proj1 (is_u64_testbit w) Hw).
Qed.

Lemma without_holds r r' X Y : holds r X → holds r' Y → holds (without_words r r') (X ∖ Y).
Proof using. clear Hu.
  intros HX HY. assert (without_words r r' = zip_with N.ldiff r r') as Hz.
  { unfold without_words. pose proof (ho_u64 _ _ HX) as H64. revert r' HY. clear -H64. intros r' _. revert r'.
    induction H64 as [|w r Hw _ IH]; intros [|x r']; [done..|]. cbn. by rewrite land_not64, IH. }
  assert (Hlen : length r = length r') by by rewrite (ho_len _ _ HX), (ho_len _ _ HY). split.
  - unfold without_words. rewrite length_zip_with, (ho_len _ _ HX), (ho_len _ _ HY). lia.
  - apply zip_u64; [intros; by apply is_u64_land|apply HX|apply HY].
  - intros i. rewrite Hz, (row_mem_zip _ (λ a b, a && negb b)); [|done|done|intros; apply N.ldiff_spec].
    rewrite andb_true_iff, negb_true_iff, (ho_mem _ _ HX). split.
    + intros [(v & Hv & Hin) Hno]. exists v. split; [done|]. apply elem_of_difference. split; [done|]. intros HvY.
      assert (row_mem r' i = true) by (apply (ho_mem _ _ HY); eauto). congruence.
    + intros (v & Hv & [Hin Hno]%elem_of_difference). split; [eauto|]. destruct (row_mem r' i) eqn:Hm; [|done].
      apply (ho_mem _ _ HY) in Hm as (w & Hw & Hin'). congruence.
  - intros v [Hv _]%elem_of_difference. by apply (ho_sub _ _ HX).
Qed.

Lemma set_holds r X : holds r X → u_set u r = Ok X.
Proof using Hu.
  intros Hr. unfold u_set, ones_of. rewrite wo_collect_spec by apply Hr. rsimpl.
  assert (Hin : ∀ i, i ∈ row_ones r → ∃ v, u !! i = Some v ∧ v ∈ X) by (intros i Hi%elem_of_row_ones; by apply (ho_mem _ _ Hr)).
  assert (Hrun : ∃ vs, rmapM (vget u) (row_ones r) = Ok vs ∧ ∀ v, v ∈ vs ↔ ∃ i, i ∈ row_ones r ∧ u !! i = Some v).
  { revert Hin. generalize (row_ones r) as l. induction l as [|i l IH]; intros Hin; [exists []; split; [done|]; set_solver|].
    destruct (Hin i) as (v & Hv & _); [by left|]. destruct IH as (vs & Hvs & Hm); [intros j Hj; apply Hin; by right|].
    exists (v :: vs). cbn [rmapM]. rewrite (vget_eq _ _ _ Hv). rsimpl. rewrite Hvs. rsimpl. split; [done|]. intros x. rewrite elem_of_cons, Hm.
    setoid_rewrite elem_of_cons. naive_solver. }
  destruct Hrun as (vs & -> & Hm). rsimpl. f_equal. apply set_eq. intros v. rewrite elem_of_list_to_set, Hm. split.
  - intros (i & Hi & Hv). destruct (Hin i Hi) as (x & Hx & HxX). congruence.
  - intros HvX. destruct (list_elem_of_lookup_1 u v (ho_sub _ _ Hr v HvX)) as [i Hi]. exists i. split; [|done]. apply elem_of_row_ones, (ho_mem _ _ Hr). eauto.
Qed.
End Sets.

(** ** Buffers as tables of sets *)

Section Buffers.
Context {Var : Type} `{Countable Var} (u : list Var) (bound : nat).
Implicit Types (f : nat → gset Var) (buf : list N).
Notation words := (words_of u).

Definition buffer (buf : list N) f : Prop :=
  ∃ rows, flat words rows buf ∧ length rows = bound ∧ ∀ i r, rows !! i = Some r → holds u r (f i).

(** One entry of a table is replaced. *)
Definition put_set f (i : nat) (X : gset Var) : nat → gset Var := λ j, if decide (j = i) then X else f j.

Lemma put_set_at f i X : put_set f i X i = X.
Proof. unfold put_set. by rewrite decide_True. Qed.
Lemma put_set_other f i X j : j ≠ i → put_set f i X j = f j.
Proof. intros. unfold put_set. by rewrite decide_False. Qed.

Lemma buffer_row buf f i : buffer buf f → i < bound →
  ∃ r, slice words buf i = Ok r ∧ holds u r (f i) ∧ ∀ p, p < words → vget buf (i * words + p) = vget r p.
Proof.
  intros (rows & Hf & Hlen & Hh) Hi. destruct (lookup_lt_is_Some_2 rows i ltac:(lia)) as [r Hr]. exists r.
  split_and!; [by apply (slice_flat words rows buf i r)|by apply Hh|]. intros p Hp. by apply (vget_flat words rows).
Qed.

Lemma buffer_put buf f i r X : buffer buf f → i < bound → holds u r X → buffer (put_slice words buf i r) (put_set f i X).
Proof.
  intros (rows & Hf & Hlen & Hh) Hi Hr. exists (<[i := r]> rows). split_and!.
  - apply put_flat; [done|lia|apply Hr].
  - by rewrite length_insert.
  - intros j r' Hj. unfold put_set. destruct (decide (j = i)) as [->|Hne].
    + rewrite list_lookup_insert_eq in Hj by lia. by injection Hj as <-.
    + rewrite list_lookup_insert_ne in Hj by done. by apply Hh.
Qed.

Lemma buffer_zeros : buffer (replicate (bound * words) 0%N) (λ _, ∅).
Proof.
  exists (replicate bound (replicate words 0%N)). split_and!; [apply flat_zeros|by rewrite length_replicate|].
  intros i r [-> _]%lookup_replicate. apply holds_zeros.
Qed.

Lemma buffer_ext buf f f' : (∀ i, i < bound → f' i = f i) → buffer buf f → buffer buf f'.
Proof.
  intros Heq (rows & Hf & Hlen & Hh). exists rows. split_and!; [done|done|]. intros i r Hr. rewrite Heq; [by apply Hh|]. rewrite <-Hlen. by eapply lookup_lt_Some.
Qed.
End Buffers.

(** ** What a block reads and writes *)

Section Block.
Context {I Var : Type} `{Countable Var} {HI : InstrInfo I Var}.
Implicit Types (l : list I) (v : Var).

(** Reads not preceded by a write, all writes, and the writes before the first
    instruction that may unwind *)
Fixpoint exposed l : gset Var :=
  match l with [] => ∅ | x :: l => list_to_set (uses x) ∪ exposed l ∖ list_to_set (defs x) end.
Fixpoint written l : gset Var := match l with [] => ∅ | x :: l => list_to_set (defs x) ∪ written l end.
Fixpoint early l : gset Var :=
  match l with [] => ∅ | x :: l => if may_unwind x then ∅ else list_to_set (defs x) ∪ early l end.

Lemma exposed_app l1 l2 : exposed (l1 ++ l2) = exposed l1 ∪ exposed l2 ∖ written l1.
Proof. induction l1 as [|x l1 IH]; cbn; [set_solver|]. rewrite IH. set_solver. Qed.
Lemma written_app l1 l2 : written (l1 ++ l2) = written l1 ∪ written l2.
Proof. induction l1 as [|x l1 IH]; cbn; [set_solver|]. rewrite IH. set_solver. Qed.

Context (u : list Var) (Hu : NoDup u).
Definition known l : Prop := ∀ x v, x ∈ l → v ∈ uses x ∨ v ∈ defs x → v ∈ u.

Lemma before_unwind_holds l : ∀ r X, known l → holds u r X → ∃ r', before_unwind u l r = Ok (existsb may_unwind l, r') ∧ holds u r' (early l ∪ X).
Proof using Hu.
  induction l as [|x l IH]; intros r X Hk Hr; cbn [before_unwind existsb early]; [exists r; split; [done|]; by replace (∅ ∪ X) with X by set_solver|].
  destruct (may_unwind x); cbn [orb]; [exists r; split; [done|]; by replace (∅ ∪ X) with X by set_solver|].
  destruct (insert_all_holds u Hu (defs x) r X Hr) as (r1 & -> & H1); [intros v Hv; apply (Hk x v); [by left|by right]|]. rsimpl.
  destruct (IH r1 _ ltac:(intros y v Hy; apply Hk; by right) H1) as (r2 & -> & H2). exists r2. split; [done|].
  by replace (list_to_set (defs x) ∪ early l ∪ X) with (early l ∪ (list_to_set (defs x) ∪ X)) by set_solver.
Qed.

Lemma read_write_holds x reads writes R W : (∀ v, v ∈ uses x ∨ v ∈ defs x → v ∈ u) → holds u reads R → holds u writes W →
  ∃ reads' writes', read_write u (reads, writes) x = Ok (reads', writes') ∧ holds u reads' (list_to_set (uses x) ∪ R ∖ list_to_set (defs x)) ∧
    holds u writes' (list_to_set (defs x) ∪ W).
Proof using Hu.
  intros Hk HR HW. unfold read_write.
  assert (Hdefs : ∀ vs reads writes R W, (∀ v, v ∈ vs → v ∈ u) → holds u reads R → holds u writes W → ∃ reads' writes',
    rfold (λ '(reads, writes) v, reads ← u_remove u reads v; writes ← u_insert u writes v; mret (reads, writes)) (reads, writes) vs = Ok (reads', writes') ∧
    holds u reads' (R ∖ list_to_set vs) ∧ holds u writes' (list_to_set vs ∪ W)).
  { clear -Hu. induction vs as [|v vs IH]; intros reads writes R W Hvs HR HW; cbn [rfold].
    - exists reads, writes. cbn. replace (R ∖ ∅) with R by set_solver. replace (∅ ∪ W) with W by set_solver. done.
    - destruct (remove_holds u Hu reads R v HR ltac:(apply Hvs; by left)) as (r1 & -> & H1). rsimpl.
      destruct (insert_holds u Hu writes W v HW ltac:(apply Hvs; by left)) as (w1 & -> & H2). rsimpl.
      destruct (IH r1 w1 _ _ ltac:(intros y Hy; apply Hvs; by right) H1 H2) as (r2 & w2 & -> & H3 & H4). exists r2, w2. split; [done|].
      replace (R ∖ list_to_set (v :: vs)) with (R ∖ {[v]} ∖ list_to_set vs) by set_solver.
      replace (list_to_set (v :: vs) ∪ W) with (list_to_set vs ∪ ({[v]} ∪ W)) by set_solver. done. }
  destruct (Hdefs (defs x) reads writes R W ltac:(intros; apply Hk; by right) HR HW) as (r1 & w1 & -> & H1 & H2). rsimpl.
  destruct (insert_all_holds u Hu (uses x) r1 _ H1 ltac:(intros; apply Hk; by left)) as (r2 & -> & H3). rsimpl. by exists r2, w1.
Qed.

Lemma read_write_all l : ∀ reads writes, known l → holds u reads ∅ → holds u writes ∅ →
  ∃ reads' writes', rfold (read_write u) (reads, writes) (reverse l) = Ok (reads', writes') ∧ holds u reads' (exposed l) ∧ holds u writes' (written l).
Proof using Hu.
  induction l as [|x l IH]; intros reads writes Hk HR HW; [by exists reads, writes|]. rewrite reverse_cons, rfold_app.
  destruct (IH reads writes ltac:(intros y v Hy; apply Hk; by right) HR HW) as (r1 & w1 & -> & H1 & H2). rsimpl. cbn [rfold].
  destruct (read_write_holds x r1 w1 _ _ ltac:(intros v; apply Hk; by left) H1 H2) as (r2 & w2 & -> & H3 & H4). rsimpl. by exists r2, w2.
Qed.
End Block.

(** ** Tables of what the blocks do *)

Section Rows.
Context {G I D Var : Type} {HG : GraphView G} {HR : RootedView G} {HE : EdgeView G D} {HK : KindedEdge D} {HC : CfgView G I D}.
Context `{Countable Var} {HI : InstrInfo I Var}.
Context (g : G) (nodes : list Id) (bound : nat) (code : Id → list I) (seed : Id → list Var) (u : list Var) (has_unwind : bool) (seeds : list (list Var)).
Context (Hu : NoDup u) (Hcode : ∀ b, b ∈ nodes → cv_instructions g b = Ok (code b)) (Hnodes : ∀ b, b ∈ nodes → index b < bound).
Context (Hseeds : ∀ b, b ∈ nodes → seeds !! index b = Some (seed b)).
Context (Hknown : ∀ b, b ∈ nodes → known u (code b)) (Hknown_seed : ∀ b v, b ∈ nodes → v ∈ seed b → v ∈ u).

(** What [h] says of the blocks in [done], at their indices *)
Definition table (done : list Id) (h : Id → gset Var) : nat → gset Var :=
  λ i, if decide (N.of_nat i ∈ done) then h (N.of_nat i) else ∅.

Lemma table_at done h b : b ∈ done → table done h (index b) = h b.
Proof using. intros Hb. unfold table, index. rewrite N2Nat.id. by rewrite decide_True. Qed.
Lemma table_new done h b : b ∉ done → table done h (index b) = ∅.
Proof using. intros Hb. unfold table, index. rewrite N2Nat.id. by rewrite decide_False. Qed.

Lemma table_snoc buf done h b : b ∉ done → buffer u bound buf (put_set (table done h) (index b) (h b)) → buffer u bound buf (table (done ++ [b]) h).
Proof using.
  intros Hb. apply buffer_ext. intros i _. unfold put_set, table. assert (Hi : i = index b ↔ N.of_nat i = b).
  { unfold index. split; [intros ->; apply N2Nat.id|intros <-; by rewrite Nat2N.id]. }
  destruct (decide (i = index b)) as [E|E].
  - pose proof (proj1 Hi E) as E'. rewrite E'. rewrite decide_True by (apply elem_of_app; right; by left). done.
  - destruct (decide (N.of_nat i ∈ done)) as [Hd|Hd]; [by rewrite decide_True by (apply elem_of_app; by left)|]. rewrite decide_False; [done|].
    intros [?|Hx%list_elem_of_singleton]%elem_of_app; [done|]. by apply E, Hi.
Qed.

Record rows_ok (rows : BlockRows) (done : list Id) : Prop := mk_rows_ok {
  ro_words : br_words rows = words_of u;
  ro_reads : buffer u bound (br_reads rows) (table done (λ b, exposed (code b)));
  ro_writes : buffer u bound (br_writes rows) (table done (λ b, written (code b)));
  ro_seeded : buffer u bound (br_seeded rows) (table done (λ b, list_to_set (seed b)));
  ro_before : has_unwind = true → buffer u bound (br_before_unwind rows) (table done (λ b, early (code b)));
  ro_flags : has_unwind = true → length (br_unwinding rows) = bound ∧
    ∀ b, b ∈ nodes → br_unwinding rows !! index b = Some (bool_decide (b ∈ done) && existsb may_unwind (code b));
}.

Lemma note_block_ok rows done b : rows_ok rows done → b ∈ nodes → b ∉ done →
  ∃ rows', note_block g u seeds has_unwind rows b = Ok rows' ∧ rows_ok rows' (done ++ [b]).
Proof using Hu Hcode Hnodes Hseeds Hknown Hknown_seed.
  intros [Hw Hr Hwr Hs Hb Hf] Hin Hnew. pose proof (Hnodes b Hin) as Hlt. unfold note_block. rewrite Hw.
  rewrite (vget_eq _ _ _ (Hseeds b Hin)). rsimpl. unfold with_slice.
  destruct (buffer_row u bound _ _ _ Hs Hlt) as (rs & -> & Hrs & _). rsimpl. rewrite table_new in Hrs by done.
  destruct (insert_all_holds u Hu (seed b) rs ∅ Hrs) as (rs' & -> & Hrs'); [intros v; by apply Hknown_seed|]. rsimpl. rewrite (Hcode b Hin). rsimpl.
  assert (Hunwind : ∃ unwinding before, (if has_unwind then
      before ← slice (words_of u) (br_before_unwind rows) (index b);
      '(throws, before) ← before_unwind u (code b) before;
      unwinding ← (if throws : bool then vset (br_unwinding rows) (index b) true else mret (br_unwinding rows));
      mret (unwinding, put_slice (words_of u) (br_before_unwind rows) (index b) before)
    else mret (br_unwinding rows, br_before_unwind rows)) = Ok (unwinding, before) ∧
    (has_unwind = true → buffer u bound before (table (done ++ [b]) (λ b, early (code b)))) ∧
    (has_unwind = true → length unwinding = bound ∧
      ∀ x, x ∈ nodes → unwinding !! index x = Some (bool_decide (x ∈ done ++ [b]) && existsb may_unwind (code x)))).
  { destruct has_unwind; [|by eexists _, _]. specialize (Hb eq_refl). destruct (Hf eq_refl) as [Hlen Hflags].
    destruct (buffer_row u bound _ _ _ Hb Hlt) as (rb & -> & Hrb & _). rsimpl. rewrite table_new in Hrb by done.
    destruct (before_unwind_holds u Hu (code b) rb ∅ (Hknown b Hin) Hrb) as (rb' & -> & Hrb'). rsimpl. rewrite right_id_L in Hrb' by apply _.
    exists (if existsb may_unwind (code b) then <[index b := true]> (br_unwinding rows) else br_unwinding rows), (put_slice (words_of u) (br_before_unwind rows) (index b) rb').
    split_and!.
    - destruct (existsb _ _); [rewrite vset_lt by lia|]; done.
    - intros _. apply table_snoc; [done|]. by apply buffer_put.
    - intros _. split; [destruct (existsb _ _); [by rewrite length_insert|done]|]. intros x Hx.
      destruct (decide (x = b)) as [->|Hne].
      + rewrite bool_decide_true by (apply elem_of_app; right; by left). cbn [andb]. destruct (existsb may_unwind (code b)) eqn:Et.
        * by rewrite list_lookup_insert_eq by lia.
        * rewrite Hflags by done. by rewrite Et, andb_false_r.
      + assert (bool_decide (x ∈ done ++ [b]) = bool_decide (x ∈ done)) as ->.
        { apply bool_decide_ext. rewrite elem_of_app, list_elem_of_singleton. naive_solver. }
        destruct (existsb may_unwind (code b)); [rewrite list_lookup_insert_ne by (intros Hi%index_inj; by apply Hne)|]; by apply Hflags. }
  destruct Hunwind as (unwinding & before & -> & Hb' & Hf'). rsimpl.
  destruct (buffer_row u bound _ _ _ Hr Hlt) as (rr & -> & Hrr & _). rsimpl. rewrite table_new in Hrr by done.
  destruct (buffer_row u bound _ _ _ Hwr Hlt) as (rw & -> & Hrw & _). rsimpl. rewrite table_new in Hrw by done.
  destruct (read_write_all u Hu (code b) rr rw (Hknown b Hin) Hrr Hrw) as (rr' & rw' & -> & Hrr' & Hrw'). rsimpl.
  eexists. split; [reflexivity|]. split; cbn [br_words br_reads br_writes br_seeded br_unwinding br_before_unwind]; try done.
  - apply table_snoc; [done|]. by apply buffer_put.
  - apply table_snoc; [done|]. by apply buffer_put.
  - apply table_snoc; [done|]. apply buffer_put; [done|done|]. by rewrite right_id_L in Hrs' by apply _.
Qed.

Lemma rows_of_ok : gv_node_ids g = Ok nodes → gv_node_bound g = bound → NoDup nodes →
  ∃ rows, rows_of g u seeds has_unwind = Ok rows ∧ rows_ok rows nodes.
Proof using Hu Hcode Hnodes Hseeds Hknown Hknown_seed.
  intros Hids Hbound Hnd. unfold rows_of. rewrite Hids, Hbound. rsimpl.
  assert (Hgen : ∀ todo done rows, nodes = done ++ todo → rows_ok rows done → ∃ rows', rfold (note_block g u seeds has_unwind) rows todo = Ok rows' ∧ rows_ok rows' nodes).
  { induction todo as [|b todo IH]; intros done rows Heq Hok; cbn [rfold]; [exists rows; rewrite app_nil_r in Heq; by subst|].
    pose proof Hnd as Hnd'. rewrite Heq in Hnd'. apply NoDup_app in Hnd' as (_ & Hsep & Hnb).
    destruct (note_block_ok rows done b Hok) as (rows1 & -> & H1); [rewrite Heq; apply elem_of_app; right; by left| |].
    - intros Hb. apply (Hsep b Hb). by left.
    - rsimpl. apply (IH (done ++ [b])); [by rewrite <-app_assoc|done]. }
  assert (Hempty : ∀ h, buffer u bound (replicate (bound * words_of u) 0%N) (table [] h)).
  { intros h. eapply buffer_ext; [|apply buffer_zeros]. intros i _. unfold table. by rewrite decide_False by apply not_elem_of_nil. }
  apply (Hgen nodes []); [done|]. split; cbn; try done.
  - by intros ->.
  - intros ->. split; [by rewrite length_replicate|]. intros b Hb. apply lookup_replicate. split; [by rewrite bool_decide_false by apply not_elem_of_nil|by apply Hnodes].
Qed.
End Rows.

(** ** Liveness by paths *)

Section Paths.
Context {I D Var : Type} {HK : KindedEdge D} `{Countable Var} {HI : InstrInfo I Var}.
Context (s : eshape D) (code : Id → list I) (seed : Id → list Var).
Implicit Types (v : Var) (X : nat → gset Var).

(** An unwind edge of a block with an instruction that may unwind leaves before
    such an instruction; any other edge leaves after the last one. *)
Definition unwinds (b : Id) (r : EdgeRef D) : bool := is_unwind_edge r && existsb may_unwind (code b).

Inductive live_at v : Id → nat → Prop :=
  | live_use b i x : code b !! i = Some x → v ∈ uses x → live_at v b i
  | live_pass b i x : code b !! i = Some x → v ∉ defs x → live_at v b (S i) → live_at v b i
  | live_unwind b i x e r : code b !! i = Some x → may_unwind x = true → e ∈ es_adj s Outgoing b → es_ref s e = Some r →
      is_unwind_edge r = true → live_at v (er_target r) 0 → live_at v b i
  | live_leave b e r : e ∈ es_adj s Outgoing b → es_ref s e = Some r → unwinds b r = false →
      live_at v (er_target r) 0 → live_at v b (length (code b))
  | live_kept b : v ∈ seed b → live_at v b (length (code b)).

(** What the edges of a block that [keep] selects bring back *)
Definition gathered (keep : EdgeRef D → bool) X (es : list Id) : gset Var :=
  ⋃ ((λ e, match es_ref s e with Some r => if keep r then X (index (er_target r)) else ∅ | None => ∅ end) <$> es).

Lemma elem_of_gathered keep X es v : v ∈ gathered keep X es ↔ ∃ e r, e ∈ es ∧ es_ref s e = Some r ∧ keep r = true ∧ v ∈ X (index (er_target r)).
Proof.
  unfold gathered. rewrite elem_of_union_list. setoid_rewrite list_elem_of_fmap. split.
  - intros (Y & (e & -> & He) & Hv). destruct (es_ref s e) as [r|] eqn:Hr; [|by apply elem_of_empty in Hv].
    destruct (keep r) eqn:Hk; [|by apply elem_of_empty in Hv]. by exists e, r.
  - intros (e & r & He & Hr & Hk & Hv). eexists. split; [exists e; split; [reflexivity|done]|]. by rewrite Hr, Hk.
Qed.

Lemma gathered_cons keep X e es r : es_ref s e = Some r →
  gathered keep X (e :: es) = (if keep r then X (index (er_target r)) else ∅) ∪ gathered keep X es.
Proof. intros Hr. unfold gathered. cbn. by rewrite Hr. Qed.

Definition leaving X b : gset Var := gathered (λ r, negb (unwinds b r)) X (es_adj s Outgoing b).
Definition throwing X b : gset Var := gathered (unwinds b) X (es_adj s Outgoing b).

(** The equation of a block *)
Definition transfer X b : gset Var :=
  (leaving X b ∪ list_to_set (seed b)) ∖ written (code b) ∪ exposed (code b) ∪ throwing X b ∖ early (code b).

Lemma gathered_mono keep X Y es : (∀ i, X i ⊆ Y i) → gathered keep X es ⊆ gathered keep Y es.
Proof. intros HXY v (e & r & He & Hr & Hk & Hv)%elem_of_gathered. apply elem_of_gathered. exists e, r. split_and!; try done. by apply HXY. Qed.

Lemma transfer_mono X Y b : (∀ i, X i ⊆ Y i) → transfer X b ⊆ transfer Y b.
Proof.
  intros HXY. unfold transfer, leaving, throwing. pose proof (gathered_mono (λ r, negb (unwinds b r)) X Y (es_adj s Outgoing b) HXY).
  pose proof (gathered_mono (unwinds b) X Y (es_adj s Outgoing b) HXY). set_solver.
Qed.

Lemma drop_cons (l : list I) i x rest : drop i l = x :: rest → l !! i = Some x ∧ drop (S i) l = rest.
Proof.
  intros Hd. assert (l !! i = Some x) as Hx by (rewrite <-(Nat.add_0_r i), <-lookup_drop, Hd; done). split; [done|].
  apply drop_S in Hx. rewrite Hd in Hx. by injection Hx.
Qed.

(** From a point of a block to its end, or to where it throws *)
Lemma live_exposed v b : ∀ rest i, drop i (code b) = rest → v ∈ exposed rest → live_at v b i.
Proof.
  induction rest as [|x rest IH]; intros i Hd Hv; [by apply elem_of_empty in Hv|]. apply drop_cons in Hd as [Hx Hd]. cbn in Hv.
  apply elem_of_union in Hv as [Hv|[Hv Hno]%elem_of_difference]; [eapply live_use; [done|by apply elem_of_list_to_set in Hv]|].
  eapply live_pass; [done| |by apply (IH (S i))]. intros Hdef. by apply Hno, elem_of_list_to_set.
Qed.

Lemma live_through v b : live_at v b (length (code b)) → ∀ rest i, i ≤ length (code b) → drop i (code b) = rest → v ∉ written rest → live_at v b i.
Proof.
  intros Hend. induction rest as [|x rest IH]; intros i Hi Hd Hv.
  - assert (length (drop i (code b)) = 0) as Hl by by rewrite Hd. rewrite length_drop in Hl. by replace i with (length (code b)) by lia.
  - apply drop_cons in Hd as [Hx Hd]. cbn in Hv. eapply live_pass; [done|set_solver|]. apply (IH (S i)); [by eapply lookup_lt_Some|done|set_solver].
Qed.

Lemma live_thrown v b e r : e ∈ es_adj s Outgoing b → es_ref s e = Some r → is_unwind_edge r = true → live_at v (er_target r) 0 →
  ∀ rest i, drop i (code b) = rest → existsb may_unwind rest = true → v ∉ early rest → live_at v b i.
Proof.
  intros He Hr Hu Ht. induction rest as [|x rest IH]; intros i Hd Hex Hv; [done|]. apply drop_cons in Hd as [Hx Hd]. cbn in Hex, Hv.
  destruct (may_unwind x) eqn:Hm; [by eapply live_unwind|]. eapply live_pass; [done|set_solver|]. apply (IH (S i)); [done|done|set_solver].
Qed.

(** The set before instruction [i], replayed from the end *)
Definition before_point X b (i : nat) : gset Var :=
  (leaving X b ∪ list_to_set (seed b)) ∖ written (drop i (code b)) ∪ exposed (drop i (code b)) ∪
  (if existsb may_unwind (drop i (code b)) then throwing X b ∖ early (drop i (code b)) else ∅).

(** What the equation finds is live, if what it reads is. *)
Lemma before_point_live X b v i : (∀ e r w, e ∈ es_adj s Outgoing b → es_ref s e = Some r → w ∈ X (index (er_target r)) → live_at w (er_target r) 0) →
  i ≤ length (code b) → v ∈ before_point X b i → live_at v b i.
Proof.
  unfold before_point. intros HX Hi [[[Hv Hno]%elem_of_difference|Hv]%elem_of_union|Hv]%elem_of_union.
  - apply (live_through v b) with (rest := drop i (code b)); [|done..]. apply elem_of_union in Hv as [(e & r & He & Hr & Hk%negb_true_iff & Hv)%elem_of_gathered|Hv].
    + exact (live_leave v b e r He Hr Hk (HX e r v He Hr Hv)).
    + apply live_kept. by apply elem_of_list_to_set in Hv.
  - by apply (live_exposed v b (drop i (code b))).
  - destruct (existsb _ _) eqn:Hex; [|by apply elem_of_empty in Hv]. apply elem_of_difference in Hv as [Hv Hno].
    apply elem_of_gathered in Hv as (e & r & He & Hr & [Hu _]%andb_true_iff & Hv). by apply (live_thrown v b e r He Hr Hu (HX e r v He Hr Hv) (drop i (code b))).
Qed.

Lemma before_point_0 X b : before_point X b 0 = transfer X b.
Proof.
  unfold before_point, transfer. rewrite drop_0. destruct (existsb may_unwind (code b)) eqn:Hex; [done|].
  assert (throwing X b = ∅) as ->.
  { apply set_eq. intros v. split; [|by intros ?%elem_of_empty]. intros (e & r & _ & _ & Hk & _)%elem_of_gathered. unfold unwinds in Hk. by rewrite Hex, andb_false_r in Hk. }
  set_solver.
Qed.

Lemma transfer_live X b v : (∀ e r w, e ∈ es_adj s Outgoing b → es_ref s e = Some r → w ∈ X (index (er_target r)) → live_at w (er_target r) 0) →
  v ∈ transfer X b → live_at v b 0.
Proof. rewrite <-before_point_0. intros HX. apply before_point_live; [done|lia]. Qed.

Lemma drop_at b i x : code b !! i = Some x → drop i (code b) = x :: drop (S i) (code b).
Proof. apply drop_S. Qed.

(** A solution of the equations holds everything that is live. *)
Lemma live_transfer X v b i :
  (∀ b e r, b ∈ es_nodes s → e ∈ es_adj s Outgoing b → es_ref s e = Some r → er_target r ∈ es_nodes s) →
  (∀ b, b ∈ es_nodes s → X (index b) = transfer X b) → b ∈ es_nodes s → live_at v b i → v ∈ before_point X b i.
Proof.
  intros Hclosed HX Hb Hlive. revert Hb. assert (Hin : ∀ c e r, c ∈ es_nodes s → e ∈ es_adj s Outgoing c → es_ref s e = Some r →
    (er_target r ∈ es_nodes s → v ∈ before_point X (er_target r) 0) → v ∈ X (index (er_target r))).
  { intros c e r Hc He Hr Hv. specialize (Hclosed c e r Hc He Hr). rewrite HX by done. rewrite <-before_point_0. by apply Hv. }
  induction Hlive as [b i x Hx Hv|b i x Hx Hv _ IH|b i x e r Hx Hm He Hr Hu _ IH|b e r He Hr Hk _ IH|b Hv]; intros Hb; unfold before_point.
  - rewrite (drop_at b i x Hx). cbn [exposed]. apply (elem_of_list_to_set (C := gset Var)) in Hv. set_solver.
  - specialize (IH Hb). unfold before_point in IH. rewrite (drop_at b i x Hx). cbn [exposed written early existsb]. rewrite <-(elem_of_list_to_set (C := gset Var)) in Hv.
    destruct (may_unwind x); cbn [orb]; [|destruct (existsb may_unwind _); set_solver]. destruct (existsb may_unwind _); set_solver.
  - rewrite (drop_at b i x Hx). cbn [existsb early]. rewrite Hm. cbn [orb]. apply elem_of_union. right. apply elem_of_difference. split; [|set_solver].
    apply elem_of_gathered. exists e, r. split_and!; [done|done| |by eapply Hin]. unfold unwinds. rewrite Hu. cbn. apply existsb_exists. exists x. split; [|done].
    apply list_elem_of_In. by eapply list_elem_of_lookup_2.
  - rewrite drop_all. cbn. assert (v ∈ leaving X b); [|set_solver]. apply elem_of_gathered. exists e, r. split_and!; [done|done|by rewrite Hk|by eapply Hin].
  - rewrite drop_all. cbn. apply (elem_of_list_to_set (C := gset Var)) in Hv. set_solver.
Qed.
End Paths.

(** ** The worklist *)

Section Solve.
Context {G I D Var : Type} {HG : GraphView G} {HR : RootedView G} {HE : EdgeView G D} {HK : KindedEdge D} {HC : CfgView G I D}.
Context `{Countable Var} {HI : InstrInfo I Var}.
Context (g : G) (s : eshape D) (HV : EdgeViews g s) (code : Id → list I) (seed : Id → list Var) (u : list Var) (has_unwind : bool).
Notation nodes := (es_nodes s).
Notation bound := (es_node_bound s).
Context (rows : BlockRows) (Hrows : rows_ok nodes bound code seed u has_unwind rows nodes).
Context (Hkinds : has_unwind = false → ∀ e r, e ∈ es_ids s → es_ref s e = Some r → is_unwind_edge r = false).
Implicit Types (X O : nat → gset Var).

Lemma node_bound_lt b : b ∈ nodes → index b < bound.
Proof using HV. apply (eo_node_bound _ (ew_ok (EdgeViews := HV))). Qed.

Lemma edge_out b e : b ∈ nodes → e ∈ es_adj s Outgoing b → ∃ r, es_ref s e = Some r ∧ ev_edge g e = Ok r ∧ er_target r ∈ nodes ∧ e ∈ es_ids s ∧ er_source r = b.
Proof using HV.
  intros Hb He. pose proof (ew_ok (EdgeViews := HV)) as Hok. apply (eo_adj _ Hok Outgoing b e Hb) in He as (He & r & Hr & Hnear).
  destruct (eo_ref _ Hok e He) as (r' & Hr' & _ & Hends). assert (r' = r) as -> by congruence. exists r. split_and!; [done|by apply (ew_edge (EdgeViews := HV))|apply (Hends Incoming)|done|done].
Qed.

Lemma row_of buf X b : buffer u bound buf X → b ∈ nodes → ∃ r, slice (br_words rows) buf (index b) = Ok r ∧ holds u r (X (index b)) ∧
  ∀ p, p < words_of u → vget buf (index b * br_words rows + p) = vget r p.
Proof using HV Hrows. intros Hb Hin. rewrite (ro_words _ _ _ _ _ _ _ _ Hrows). apply (buffer_row u bound); [done|by apply node_bound_lt]. Qed.

Lemma flow_back_holds live X b : buffer u bound live X → b ∈ nodes →
  ∀ es out uo A B, (∀ e, e ∈ es → e ∈ es_adj s Outgoing b) → holds u out A → (has_unwind = true → holds u uo B) →
  ∃ out' uo', rfold (flow_back g rows has_unwind (index b) live) (out, uo) es = Ok (out', uo') ∧
    holds u out' (A ∪ gathered s (λ r, negb (unwinds code b r)) X es) ∧ (has_unwind = true → holds u uo' (B ∪ gathered s (unwinds code b) X es)).
Proof using HV Hrows Hkinds.
  intros Hlive Hb es. induction es as [|e es IH]; intros out uo A B Hes Ho Hu; cbn [rfold].
  { exists out, uo. replace (A ∪ gathered s (λ r, negb (unwinds code b r)) X []) with A by (unfold gathered; cbn; set_solver).
    replace (B ∪ gathered s (unwinds code b) X []) with B by (unfold gathered; cbn; set_solver). done. }
  destruct (edge_out b e Hb) as (r & Hr & He & Ht & Hid & _); [apply Hes; by left|]. unfold flow_back at 2. rewrite He. rsimpl.
  assert (Hbefore : (if has_unwind then throws ← vget (br_unwinding rows) (index b); mret (throws && is_unwind_edge r) else mret false) = Ok (unwinds code b r)).
  { destruct has_unwind eqn:Hh.
    - destruct (ro_flags _ _ _ _ _ _ _ _ Hrows eq_refl) as [_ Hf]. rewrite (vget_eq _ _ _ (Hf b Hb)). rsimpl. rewrite bool_decide_true by done.
      cbn. unfold unwinds. by rewrite andb_comm.
    - unfold unwinds. by rewrite (Hkinds eq_refl e r Hid Hr). }
  rewrite Hbefore. rsimpl. destruct (row_of live X (er_target r) Hlive Ht) as (from & -> & Hfrom & _). rsimpl.
  destruct (unwinds code b r) eqn:Hk.
  - destruct (IH out (or_into uo from) A (B ∪ X (index (er_target r)))) as (out' & uo' & -> & H1 & H2); [intros x Hx; apply Hes; by right|done| |].
    + intros Hh. apply or_holds; [by apply Hu|done].
    + exists out', uo'. split; [done|]. rewrite !(gathered_cons s _ X e es r Hr), Hk. cbn [negb].
      rewrite (left_id_L ∅ (∪)), (assoc_L (∪)). done.
  - destruct (IH (or_into out from) uo (A ∪ X (index (er_target r))) B) as (out' & uo' & -> & H1 & H2); [intros x Hx; apply Hes; by right|by apply or_holds|done|].
    exists out', uo'. split; [done|]. rewrite !(gathered_cons s _ X e es r Hr), Hk. cbn [negb].
    rewrite (left_id_L ∅ (∪)), (assoc_L (∪)). done.
Qed.

Lemma next_holds b out uo A B : b ∈ nodes → holds u out A → (has_unwind = true → holds u uo B) → (has_unwind = false → B = ∅) →
  ∃ next, rmapM (next_word rows has_unwind (index b) out uo) (seq 0 (br_words rows)) = Ok next ∧
    holds u next ((A ∪ list_to_set (seed b)) ∖ written (code b) ∪ exposed (code b) ∪ B ∖ early (code b)).
Proof using HV Hrows Hkinds HK.
  intros Hb Ho Hu HB. destruct (row_of _ _ b (ro_seeded _ _ _ _ _ _ _ _ Hrows) Hb) as (rs & _ & Hs & Vs).
  destruct (row_of _ _ b (ro_writes _ _ _ _ _ _ _ _ Hrows) Hb) as (rw & _ & Hw & Vw). destruct (row_of _ _ b (ro_reads _ _ _ _ _ _ _ _ Hrows) Hb) as (rr & _ & Hr & Vr).
  rewrite !table_at in * by done. set (n0 := or_into (without_words (or_into out rs) rw) rr).
  assert (H0 : holds u n0 ((A ∪ list_to_set (seed b)) ∖ written (code b) ∪ exposed (code b))) by (apply or_holds; [apply without_holds; [by apply or_holds|done]|done]).
  assert (Hat : ∀ r (Y : gset Var) p, holds u r Y → p < words_of u → ∃ w, r !! p = Some w) by (intros r X p Hx Hp; apply lookup_lt_is_Some_2; by rewrite (ho_len _ _ _ Hx)).
  assert (Hlook : ∀ p o x w z, out !! p = Some o → rs !! p = Some x → rw !! p = Some w → rr !! p = Some z →
    n0 !! p = Some (N.lor (N.land (N.lor o x) (not64 w)) z)).
  { intros p o x w z Eo Ex Ew Ez. unfold n0, without_words. rewrite !or_into_zip; rewrite ?length_zip_with, ?or_into_zip, ?length_zip_with;
      rewrite ?(ho_len _ _ _ Ho), ?(ho_len _ _ _ Hs), ?(ho_len _ _ _ Hw), ?(ho_len _ _ _ Hr); try lia. by rewrite !lookup_zip_with, Eo, Ex, Ew, Ez. }
  rewrite (ro_words _ _ _ _ _ _ _ _ Hrows) in *. assert (has_unwind = true ∨ has_unwind = false) as [Hh|Hh] by (destruct has_unwind; by auto).
  - specialize (Hu Hh). destruct (row_of _ _ b (ro_before _ _ _ _ _ _ _ _ Hrows Hh) Hb) as (rb & _ & Hbf & Vb). rewrite table_at in Hbf by done.
    rewrite (ro_words _ _ _ _ _ _ _ _ Hrows) in Vb.
    set (n1 := or_into n0 (without_words uo rb)). assert (H1 : holds u n1 ((A ∪ list_to_set (seed b)) ∖ written (code b) ∪ exposed (code b) ∪ B ∖ early (code b))).
    { apply or_holds; [done|by apply without_holds]. }
    exists n1. split; [|done]. apply rmapM_eq; [by rewrite length_seq, (ho_len _ _ _ H1)|]. intros i p y [-> Hp]%lookup_seq Hy. cbn [Nat.add] in *.
    destruct (Hat out _ i Ho Hp) as [o Eo], (Hat rs _ i Hs Hp) as [x Ex], (Hat rw _ i Hw Hp) as [w Ew], (Hat rr _ i Hr Hp) as [z Ez], (Hat uo _ i Hu Hp) as [o2 Eo2], (Hat rb _ i Hbf Hp) as [b2 Eb2].
    unfold next_word. rewrite Hh, (ro_words _ _ _ _ _ _ _ _ Hrows), (vget_eq _ _ _ Eo). rsimpl. rewrite Vs, (vget_eq _ _ _ Ex) by done. rsimpl. rewrite Vw, (vget_eq _ _ _ Ew) by done. rsimpl.
    rewrite Vr, (vget_eq _ _ _ Ez) by done. rsimpl. rewrite (vget_eq _ _ _ Eo2). rsimpl. rewrite Vb, (vget_eq _ _ _ Eb2) by done. rsimpl.
    unfold n1, without_words in Hy. rewrite or_into_zip in Hy by (rewrite length_zip_with, (ho_len _ _ _ H0), (ho_len _ _ _ Hu), (ho_len _ _ _ Hbf); lia).
    rewrite !lookup_zip_with, (Hlook i o x w z Eo Ex Ew Ez), Eo2, Eb2 in Hy. cbn in Hy. by injection Hy as <-.
  - rewrite HB by done. exists n0. split; [|by replace (_ ∪ ∅ ∖ early (code b)) with ((A ∪ list_to_set (seed b)) ∖ written (code b) ∪ exposed (code b)) by set_solver].
    apply rmapM_eq; [by rewrite length_seq, (ho_len _ _ _ H0)|]. intros i p y [-> Hp]%lookup_seq Hy. cbn [Nat.add] in *.
    destruct (Hat out _ i Ho Hp) as [o Eo], (Hat rs _ i Hs Hp) as [x Ex], (Hat rw _ i Hw Hp) as [w Ew], (Hat rr _ i Hr Hp) as [z Ez].
    unfold next_word. rewrite Hh, (ro_words _ _ _ _ _ _ _ _ Hrows), (vget_eq _ _ _ Eo). rsimpl. rewrite Vs, (vget_eq _ _ _ Ex) by done. rsimpl. rewrite Vw, (vget_eq _ _ _ Ew) by done. rsimpl.
    rewrite Vr, (vget_eq _ _ _ Ez) by done. rsimpl. rewrite (Hlook i o x w z Eo Ex Ew Ez) in Hy. by injection Hy as <-.
Qed.

(** *** One turn *)

Record solving X O (W : list Id) (st : SolveState) : Prop := mk_solving {
  sg_live : buffer u bound (sv_live_in st) X;
  sg_out : buffer u bound (sv_flowing_out st) O;
  sg_len : length (sv_queued st) = bound;
  sg_flags : ∀ b, b ∈ nodes → sv_queued st !! index b = Some (bool_decide (b ∈ W));
  sg_work : sv_worklist st = W;
  sg_nodup : NoDup W;
  sg_nodes : ∀ b, b ∈ W → b ∈ nodes;
}.

Lemma push_all (preds : list Id) : ∀ queued W, length queued = bound → (∀ b, b ∈ nodes → queued !! index b = Some (bool_decide (b ∈ W))) →
  NoDup W → (∀ b, b ∈ W → b ∈ nodes) → (∀ b, b ∈ preds → b ∈ nodes) →
  ∃ queued' W', rfold push_unqueued (queued, W) preds = Ok (queued', W') ∧ length queued' = bound ∧
    (∀ b, b ∈ nodes → queued' !! index b = Some (bool_decide (b ∈ W'))) ∧ NoDup W' ∧ (∀ b, b ∈ W' ↔ b ∈ W ∨ b ∈ preds) ∧ length W' ≤ length W + length preds.
Proof using HV code seed.
  clear Hrows Hkinds.
  induction preds as [|p preds IH]; intros queued W Hlen Hf Hnd Hw Hp; cbn [rfold].
  { exists queued, W. split_and!; try done; [set_solver|cbn; lia]. }
  assert (Hpn : p ∈ nodes) by (apply Hp; by left). unfold push_unqueued at 2. rewrite (vget_eq _ _ _ (Hf p Hpn)). rsimpl.
  destruct (bool_decide_reflect (p ∈ W)) as [Hin|Hout]; rsimpl.
  - destruct (IH queued W Hlen Hf Hnd Hw ltac:(intros x Hx; apply Hp; by right)) as (q' & W' & -> & H1 & H2 & H3 & H4 & H5).
    exists q', W'. split_and!; try done; [|cbn; lia]. intros x. rewrite H4. set_solver.
  - rewrite vset_lt by (rewrite Hlen; by apply node_bound_lt). rsimpl.
    destruct (IH (<[index p := true]> queued) (p :: W)) as (q' & W' & -> & H1 & H2 & H3 & H4 & H5).
    + by rewrite length_insert.
    + intros x Hx. destruct (decide (x = p)) as [->|Hne].
      * rewrite list_lookup_insert_eq by (rewrite Hlen; by apply node_bound_lt). f_equal. symmetry. apply bool_decide_true. by left.
      * rewrite list_lookup_insert_ne by (intros Hi%index_inj; by apply Hne). rewrite Hf by done. f_equal. apply bool_decide_ext. rewrite elem_of_cons. naive_solver.
    + by constructor.
    + intros x [->|Hx]%elem_of_cons; [done|by apply Hw].
    + intros x Hx. apply Hp. by right.
    + exists q', W'. split_and!; try done; [|cbn in *; lia]. intros x. rewrite H4. set_solver.
Qed.

Lemma preds_of b : b ∈ nodes → gv_predecessors g b = Ok (sh_next (es_shape s) Incoming b) ∧ (∀ p, p ∈ sh_next (es_shape s) Incoming b → p ∈ nodes) ∧
  ∀ c e r, c ∈ nodes → e ∈ es_adj s Outgoing c → es_ref s e = Some r → er_target r = b → c ∈ sh_next (es_shape s) Incoming b.
Proof using HV.
  intros Hb. pose proof (ew_ok (EdgeViews := HV)) as Hok. split_and!.
  - apply (vw_next (Views := ew_views (EdgeViews := HV)) Incoming). done.
  - intros p Hp. by apply (so_live _ (vw_ok (Views := ew_views (EdgeViews := HV))) Incoming b).
  - intros c e r Hc He Hr Ht. cbn. apply list_elem_of_omap. exists e. apply (eo_adj _ Hok Outgoing c e Hc) in He as (He & r' & Hr' & Hnear).
    assert (r' = r) as -> by congruence. split; [|rewrite Hr; cbn; f_equal; exact Hnear]. apply (eo_adj _ Hok Incoming b e Hb). split; [done|]. by exists r.
Qed.

Lemma solve_block_spec X O W b st : solving X O (b :: W) st → b ∈ nodes →
  ∃ W' st', solve_block g rows has_unwind (mk_SolveState (sv_live_in st) (sv_flowing_out st) (sv_queued st) W (sv_steps st)) b = Ok st' ∧
    solving (put_set X (index b) (transfer s code seed X b)) (put_set O (index b) (leaving s code X b)) W' st' ∧
    if decide (transfer s code seed X b = X (index b)) then W' = W
    else (∀ c, c ∈ W' ↔ c ∈ W ∨ c ∈ sh_next (es_shape s) Incoming b) ∧ length W' ≤ length W + length (sh_next (es_shape s) Incoming b).
Proof using HV Hrows Hkinds HK.
  intros [Hl Ho Hlen Hf Hw Hnd Hn] Hb. apply NoDup_cons in Hnd as [Hbw Hnd]. pose proof (node_bound_lt b Hb) as Hlt. unfold solve_block. cbn [sv_live_in sv_flowing_out sv_queued sv_worklist sv_steps].
  rewrite vset_lt by lia. rsimpl. destruct (row_of _ _ b Ho Hb) as (ro & -> & _ & _). rsimpl.
  assert (ev_outgoing g b = Ok (es_adj s Outgoing b)) as -> by exact (ew_adj (EdgeViews := HV) Outgoing b Hb). rsimpl. rewrite (ro_words _ _ _ _ _ _ _ _ Hrows).
  destruct (flow_back_holds _ X b Hl Hb (es_adj s Outgoing b) (replicate (words_of u) 0%N) (replicate (if has_unwind then words_of u else 0) 0%N) ∅ ∅)
    as (out & uo & -> & Hout & Huo); [done|apply holds_zeros|intros Hh; rewrite Hh; apply holds_zeros|]. rsimpl. rewrite !(left_id_L ∅ (∪)) in *.
  destruct (next_holds b out uo _ (gathered s (unwinds code b) X (es_adj s Outgoing b)) Hb Hout Huo) as (next & Hnext & HX).
  { intros Hh. apply set_eq. intros v. split; [|by intros ?%elem_of_empty]. intros (e & r & He & Hr & Hk & _)%elem_of_gathered.
    destruct (edge_out b e Hb He) as (r' & Hr' & _ & _ & Hid & _). unfold unwinds in Hk. by rewrite (Hkinds Hh e r Hid Hr) in Hk. }
  rewrite (ro_words _ _ _ _ _ _ _ _ Hrows) in Hnext. rewrite Hnext. rsimpl. fold (leaving s code X b) (throwing s code X b) in *. fold (transfer s code seed X b) in HX.
  destruct (row_of _ _ b Hl Hb) as (old & Hold & Hlive & _). rewrite (ro_words _ _ _ _ _ _ _ _ Hrows) in Hold. rewrite Hold. rsimpl.
  pose proof (holds_set_inj u next old _ _ HX Hlive) as Hsame. fold (leaving s code X b) in Hout.
  assert (Hflags : ∀ c, c ∈ nodes → <[index b := false]> (sv_queued st) !! index c = Some (bool_decide (c ∈ W))).
  { intros c Hc. destruct (decide (c = b)) as [->|Hne].
    - rewrite list_lookup_insert_eq by lia. f_equal. by rewrite bool_decide_false.
    - rewrite list_lookup_insert_ne by (intros Hi%index_inj; by apply Hne). rewrite Hf by done. f_equal. apply bool_decide_ext. rewrite elem_of_cons. naive_solver. }
  assert (Hwn : ∀ c, c ∈ W → c ∈ nodes) by (intros c Hc; apply Hn; by right).
  destruct (decide (next = old)) as [E|E].
  - eexists W, _. split; [reflexivity|]. split; [|by rewrite decide_True by by apply Hsame]. split; cbn [sv_live_in sv_flowing_out sv_queued sv_worklist]; try done.
    + eapply buffer_ext; [|exact Hl]. intros i _. unfold put_set. destruct (decide (i = index b)) as [->|]; [by apply Hsame|done].
    + by apply buffer_put.
    + by rewrite length_insert.
  - destruct (preds_of b Hb) as (-> & Hpn & _). rsimpl.
    destruct (push_all (sh_next (es_shape s) Incoming b) (<[index b := false]> (sv_queued st)) W) as (q' & W' & -> & H1 & H2 & H3 & H4 & H5); [by rewrite length_insert|done..|].
    rsimpl. eexists W', _. split; [reflexivity|]. split; [|rewrite decide_False by (intros Hx; by apply E, Hsame); done]. split; cbn [sv_live_in sv_flowing_out sv_queued sv_worklist]; try done.
    + by apply buffer_put.
    + by apply buffer_put.
    + intros c [Hc|Hc]%H4; [by apply Hwn|by apply Hpn].
Qed.

(** *** What holds between turns *)

Record halfway X O (W : list Id) : Prop := mk_halfway {
  hw_sound : ∀ b v, b ∈ nodes → v ∈ X (index b) → live_at s code seed v b 0;
  hw_grow : ∀ b, b ∈ nodes → X (index b) ⊆ transfer s code seed X b;
  hw_stable : ∀ b, b ∈ nodes → b ∉ W → X (index b) = transfer s code seed X b ∧ O (index b) = leaving s code X b;
}.

Lemma gathered_ext keep X Y es : (∀ e r, e ∈ es → es_ref s e = Some r → X (index (er_target r)) = Y (index (er_target r))) →
  gathered s keep X es = gathered s keep Y es.
Proof using.
  intros HXY. apply set_eq. intros v. rewrite !elem_of_gathered. split; intros (e & r & He & Hr & Hk & Hv); exists e, r; split_and!; try done;
    [by rewrite <-(HXY e r)|by rewrite (HXY e r)].
Qed.

Lemma transfer_ext X Y b : (∀ e r, e ∈ es_adj s Outgoing b → es_ref s e = Some r → X (index (er_target r)) = Y (index (er_target r))) →
  leaving s code X b = leaving s code Y b ∧ transfer s code seed X b = transfer s code seed Y b.
Proof using. intros HXY. unfold transfer, leaving, throwing. by rewrite !(gathered_ext _ X Y _ HXY). Qed.

Lemma turn_halfway X O W W' b : halfway X O (b :: W) → b ∈ nodes →
  (if decide (transfer s code seed X b = X (index b)) then W' = W
   else ∀ c, c ∈ W' ↔ c ∈ W ∨ c ∈ sh_next (es_shape s) Incoming b) →
  halfway (put_set X (index b) (transfer s code seed X b)) (put_set O (index b) (leaving s code X b)) W'.
Proof using HV.
  intros [Hs Hg Hst] Hb HW. set (X' := put_set X (index b) _). assert (Hup : ∀ i, X i ⊆ X' i).
  { intros i. unfold X', put_set. destruct (decide (i = index b)) as [->|]; [by apply Hg|done]. }
  assert (HX' : ∀ c, c ≠ b → X' (index c) = X (index c)) by (intros c Hc; apply put_set_other; intros Hi%index_inj; by apply Hc).
  assert (Hb' : X' (index b) = transfer s code seed X b) by apply put_set_at.
  assert (Hquiet : ∀ c, c ∈ nodes → c ∉ W' → ∀ e r, e ∈ es_adj s Outgoing c → es_ref s e = Some r → X (index (er_target r)) = X' (index (er_target r))).
  { intros c Hc Hcw e r He Hr. destruct (decide (er_target r = b)) as [Ht|Ht]; [|by rewrite HX']. rewrite Ht, Hb'.
    destruct (decide (transfer s code seed X b = X (index b))); [done|]. exfalso. apply Hcw, HW. right. by apply (proj2 (proj2 (preds_of b Hb)) c e r). }
  assert (HWW : ∀ c, c ∉ W' → c ∉ W) by (intros c Hc Hx; apply Hc; destruct (decide _); [by rewrite HW|apply HW; by left]). split.
  - intros c v Hc Hv. destruct (decide (c = b)) as [->|Hne]; [|rewrite HX' in Hv by done; by apply Hs]. rewrite Hb' in Hv.
    apply (transfer_live s code seed X b v); [|done]. intros e r w He Hr Hw. apply Hs; [|done]. by destruct (edge_out b e Hb He) as (r' & Hr' & _ & Ht & _); simplify_eq.
  - intros c Hc. pose proof (transfer_mono s code seed X X' c Hup) as Hm. destruct (decide (c = b)) as [->|Hne]; [by rewrite Hb'|]. rewrite HX' by done.
    etrans; [by apply Hg|done].
  - intros c Hc Hcw. destruct (transfer_ext X X' c (Hquiet c Hc Hcw)) as [E1 E2]. destruct (decide (c = b)) as [->|Hne].
    + rewrite Hb', put_set_at. by rewrite <-E1, <-E2.
    + rewrite HX' by done. rewrite put_set_other by (intros Hi%index_inj; by apply Hne). rewrite <-E1, <-E2. apply Hst; [done|]. intros [?|?]%elem_of_cons; [done|]. by apply (HWW c).
Qed.

(** *** Termination: every turn that queues blocks adds a variable to a row. *)

Definition gap X (b : Id) : nat := (length u - size (X (index b))) * length (sh_next (es_shape s) Incoming b).
Definition potential X (W : list Id) : nat := length W + sum_list_with (gap X) nodes.

Lemma sum_change (f f' : Id → nat) (l : list Id) b d : NoDup l → b ∈ l → (∀ x, x ≠ b → f' x = f x) → f' b + d ≤ f b →
  sum_list_with f' l + d ≤ sum_list_with f l.
Proof using.
  clear. intros Hnd Hb Hf Hd. induction l as [|x l IH]; [by apply elem_of_nil in Hb|]. apply NoDup_cons in Hnd as [Hx Hnd]. cbn.
  apply elem_of_cons in Hb as [->|Hb].
  - assert (sum_list_with f' l = sum_list_with f l) as ->; [|lia]. clear IH Hnd Hd. induction l as [|y l IH]; [done|]. cbn.
    rewrite Hf by (intros ->; apply Hx; by left). rewrite IH by (intros Hin; apply Hx; by right). done.
  - specialize (IH Hnd Hb). rewrite (Hf x) by by intros ->. lia.
Qed.

Lemma turn_potential X O W W' b st' : NoDup nodes → NoDup u → b ∈ nodes → X (index b) ⊆ transfer s code seed X b →
  solving (put_set X (index b) (transfer s code seed X b)) O W' st' →
  (if decide (transfer s code seed X b = X (index b)) then W' = W else length W' ≤ length W + length (sh_next (es_shape s) Incoming b)) →
  potential (put_set X (index b) (transfer s code seed X b)) W' < potential X (b :: W).
Proof using HV Hrows Hkinds HK.
  intros Hnd Hu Hb Hsub Hst HW. unfold potential. set (X' := put_set X (index b) _) in *. cbn [length].
  assert (HX' : ∀ c, c ≠ b → gap X' c = gap X c) by (intros c Hc; unfold gap, X'; by rewrite put_set_other by (intros Hi%index_inj; by apply Hc)).
  destruct (decide (transfer s code seed X b = X (index b))) as [E|E].
  - subst W'. pose proof (sum_change (gap X) (gap X') nodes b 0 Hnd Hb HX') as Hs. unfold gap at 1 2 in Hs. unfold X' in Hs at 1. rewrite put_set_at, E in Hs. specialize (Hs ltac:(lia)). lia.
  - destruct (row_of _ _ b (sg_live _ _ _ _ Hst) Hb) as (r & _ & Hr & _). unfold X' in Hr. rewrite put_set_at in Hr.
    assert (size (X (index b)) < size (transfer s code seed X b)) as Hlt.
    { apply subset_size. split; [done|]. intros Hsup. apply E. set_solver. }
    assert (size (transfer s code seed X b) ≤ length u) as Hle.
    { rewrite <-(size_list_to_set (C := gset Var) u) by done. apply subseteq_size. intros v Hv. apply elem_of_list_to_set. by apply (ho_sub _ _ _ Hr). }
    pose proof (sum_change (gap X) (gap X') nodes b (length (sh_next (es_shape s) Incoming b)) Hnd Hb HX') as Hs. unfold gap at 1 2 in Hs. unfold X' in Hs at 1. rewrite put_set_at in Hs.
    specialize (Hs ltac:(nia)). lia.
Qed.

Lemma solve_loop_spec : NoDup nodes → NoDup u → ∀ fuel X O W st, solving X O W st → halfway X O W → potential X W < fuel →
  ∃ X' O' st', solve_loop fuel g rows has_unwind st = Ok st' ∧ solving X' O' [] st' ∧ halfway X' O' [].
Proof using HV Hrows Hkinds HK.
  intros Hnd Hu. induction fuel as [|fuel IH]; intros X O W st Hst Hh Hlt; [lia|]. cbn [solve_loop]. pose proof (sg_work _ _ _ _ Hst) as Hw.
  destruct W as [|b W]; rewrite Hw; [by exists X, O, st|]. pose proof (sg_nodes _ _ _ _ Hst b ltac:(by left)) as Hb.
  destruct (solve_block_spec X O W b st Hst Hb) as (W' & st' & -> & Hst' & HW). rsimpl.
  apply (IH _ _ W' st' Hst').
  - apply (turn_halfway X O W W' b Hh Hb). case_decide; [done|]. apply HW.
  - pose proof (turn_potential X _ W W' b st' Hnd Hu Hb (hw_grow _ _ _ Hh b Hb) Hst') as Hp. enough (potential (put_set X (index b) (transfer s code seed X b)) W' < potential X (b :: W)) by lia.
    apply Hp. case_decide; [done|]. apply HW.
Qed.

(** The last loop *)
Lemma read_all_spec (live : list N) X O (todo : list Id) : NoDup u → buffer u bound live X → ∀ flowing block_in block_out, buffer u bound flowing O →
  length block_in = bound → length block_out = bound → NoDup todo → (∀ b, b ∈ todo → b ∈ nodes) →
  ∃ flowing' block_in' block_out', rfold (read_block u rows live) (flowing, block_in, block_out) todo = Ok (flowing', block_in', block_out') ∧
    length block_in' = bound ∧ length block_out' = bound ∧
    (∀ b, b ∈ todo → block_in' !! index b = Some (X (index b)) ∧ block_out' !! index b = Some (O (index b) ∪ list_to_set (seed b))) ∧
    ∀ b, b ∉ todo → block_in' !! index b = block_in !! index b ∧ block_out' !! index b = block_out !! index b.
Proof using HV Hrows.
  intros Hu HX. revert O. induction todo as [|b todo IH]; intros O flowing bi bo HO Hbi Hbo Hnd Hin; cbn [rfold].
  { exists flowing, bi, bo. split_and!; try done. by intros b ?%elem_of_nil. }
  apply NoDup_cons in Hnd as [Hnew Hnd]. assert (Hb : b ∈ nodes) by (apply Hin; by left). pose proof (node_bound_lt b Hb) as Hlt.
  unfold read_block at 2. destruct (row_of _ _ b (ro_seeded _ _ _ _ _ _ _ _ Hrows) Hb) as (rs & -> & Hs & _). rewrite table_at in Hs by done. rsimpl. unfold with_slice.
  destruct (row_of _ _ b HO Hb) as (ro & -> & Ho & _). rsimpl. destruct (row_of _ _ b HX Hb) as (rx & -> & Hx & _). rsimpl. rewrite (set_holds u Hu rx _ Hx). rsimpl.
  rewrite vset_lt by lia. rsimpl. pose proof (or_holds u ro rs _ _ Ho Hs) as Hor.
  pose proof (buffer_put u bound flowing O (index b) _ _ HO Hlt Hor) as HO'. rewrite (ro_words _ _ _ _ _ _ _ _ Hrows) in *.
  destruct (row_of _ _ b HO' Hb) as (r2 & H2 & Hr2 & _). rewrite (ro_words _ _ _ _ _ _ _ _ Hrows) in H2. rewrite H2. rsimpl. rewrite put_set_at in Hr2. rewrite (set_holds u Hu r2 _ Hr2). rsimpl.
  rewrite vset_lt by lia. rsimpl.
  destruct (IH _ _ (<[index b := X (index b)]> bi) (<[index b := O (index b) ∪ list_to_set (seed b)]> bo) HO') as (f' & bi' & bo' & -> & L1 & L2 & Hdone & Hrest);
    [by rewrite length_insert|by rewrite length_insert|done|intros x Hx'; apply Hin; by right|].
  exists f', bi', bo'. split_and!; try done.
  - intros c [->|Hc]%elem_of_cons.
    + destruct (Hrest b Hnew) as [-> ->]. rewrite !list_lookup_insert_eq by lia. done.
    + destruct (Hdone c Hc) as [-> ->]. rewrite put_set_other; [done|]. intros Hi%index_inj. subst c. done.
  - intros c [Hc Hct]%not_elem_of_cons. destruct (Hrest c Hct) as [-> ->]. by rewrite !list_lookup_insert_ne by (intros Hi%index_inj; by apply Hc).
Qed.
End Solve.

(** ** The whole analysis *)

Section Whole.
Context {G I D Var : Type} {HG : GraphView G} {HR : RootedView G} {HE : EdgeView G D} {HK : KindedEdge D} {HC : CfgView G I D}.
Context `{Countable Var} (le : relation Var) `{∀ x y, Decision (le x y)} `{!PartialOrder le} `{!Total le} {HI : InstrInfo I Var}.
Context (g : G) (s : eshape D) (HV : EdgeViews g s) (code : Id → list I) (seed : Id → list Var).
Context (Hcode : ∀ b, b ∈ es_nodes s → cv_instructions g b = Ok (code b)).
Notation nodes := (es_nodes s).
Notation bound := (es_node_bound s).

Lemma fill_table {A} (d : A) (h : Id → A) (todo : list Id) : ∀ l, length l = bound → (∀ b, b ∈ todo → index b < bound) →
  ∃ l', rfold (λ l b, vset l (index b) (h b)) l todo = Ok l' ∧ length l' = bound ∧ (∀ b, b ∈ todo → l' !! index b = Some (h b)) ∧
    ∀ b, b ∉ todo → l' !! index b = l !! index b.
Proof using.
  clear. induction todo as [|b todo IH]; intros l Hl Hin; cbn [rfold].
  { exists l. split_and!; try done. by intros b ?%elem_of_nil. }
  rewrite vset_lt by (rewrite Hl; apply Hin; by left). rsimpl.
  destruct (IH (<[index b := h b]> l)) as (l' & -> & Hl' & Hdone & Hrest); [by rewrite length_insert|intros c Hc; apply Hin; by right|].
  exists l'. split_and!; [done|done| |].
  - intros c Hc. destruct (decide (c ∈ todo)) as [Ht|Ht]; [by apply Hdone|]. apply elem_of_cons in Hc as [->|?]; [|done].
    rewrite Hrest by done. apply list_lookup_insert_eq. rewrite Hl. apply Hin. by left.
  - intros c [Hc Ht]%not_elem_of_cons. rewrite Hrest by done. apply list_lookup_insert_ne. by intros Hi%index_inj.
Qed.

Lemma universe_of_spec seeds : (∀ b, b ∈ nodes → seeds !! index b = Some (seed b)) →
  ∃ u, universe_of le g seeds = Ok u ∧ NoDup u ∧ (∀ b, b ∈ nodes → known u (code b)) ∧ ∀ b v, b ∈ nodes → v ∈ seed b → v ∈ u.
Proof using HV Hcode PartialOrder0 Total0.
  intros Hseeds. unfold universe_of. rewrite (vw_nodes (Views := ew_views (EdgeViews := HV))). rsimpl.
  assert (Hrun : ∀ todo vs, (∀ b, b ∈ todo → b ∈ nodes) →
    rfold (λ variables b, l ← cv_instructions g b; mret (variables ++ (l ≫= λ x, uses x ++ defs x))) vs todo = Ok (vs ++ (todo ≫= λ b, code b ≫= λ x, uses x ++ defs x))).
  { induction todo as [|b todo IH]; intros vs Hin; cbn [rfold]; [by rewrite app_nil_r|]. rewrite Hcode by (apply Hin; by left). rsimpl.
    rewrite IH by (intros c Hc; apply Hin; by right). rewrite bind_cons, app_assoc. done. }
  change (sh_nodes (es_shape s)) with nodes. rewrite Hrun by done. rsimpl. set (vs := concat seeds ++ _). eexists. split; [reflexivity|].
  assert (Hin : ∀ v, v ∈ dedup (merge_sort le vs) ↔ v ∈ vs) by (intros v; rewrite elem_of_dedup; by rewrite merge_sort_Permutation).
  split_and!.
  - assert (Hs : StronglySorted (λ x y, le x y ∧ x ≠ y) (dedup (merge_sort le vs))).
    { apply dedup_strict; [intros x y _ _; apply anti_symm; apply _|]. apply StronglySorted_merge_sort; apply _. }
    revert Hs. generalize (dedup (merge_sort le vs)) as l. clear. induction 1 as [|x l _ IH Hx]; constructor; [|done].
    intros Hin. rewrite Forall_forall in Hx. by destruct (Hx x Hin).
  - intros b Hb x v Hx Hv. apply Hin. apply elem_of_app. right. apply list_elem_of_bind. exists b. split; [|done]. apply list_elem_of_bind. exists x. split; [|done].
    apply elem_of_app. by destruct Hv; [left|right].
  - intros b v Hb Hv. apply Hin. apply elem_of_app. left. apply list_elem_of_In, in_concat. exists (seed b). split; apply list_elem_of_In; [|done].
    eapply list_elem_of_lookup_2. by apply Hseeds.
Qed.

(** A solution of the equations, and nothing that is not live *)
Record solved X O : Prop := mk_solved {
  sd_fix : ∀ b, b ∈ nodes → X (index b) = transfer s code seed X b;
  sd_out : ∀ b, b ∈ nodes → O (index b) = leaving s code X b;
  sd_sound : ∀ b v, b ∈ nodes → v ∈ X (index b) → live_at s code seed v b 0;
}.

Record facts_ok (facts : Facts (gset Var)) X O : Prop := mk_facts_ok {
  fo_solved : solved X O;
  fo_in : ∀ b, b ∈ nodes → live_in facts b = Ok (X (index b));
  fo_out : ∀ b, b ∈ nodes → live_out facts b = Ok (O (index b) ∪ list_to_set (seed b));
}.

Lemma unwind_kinds : ∃ found, rfold (λ found e, if (found : bool) then mret true else is_unwind_edge <$> ev_edge g e) false (es_ids s) = Ok found ∧
  (found = false → ∀ e r, e ∈ es_ids s → es_ref s e = Some r → is_unwind_edge r = false).
Proof using HV.
  clear Hcode. destruct (rfold_inv (λ seen found, found = false → ∀ e r, e ∈ seen → es_ref s e = Some r → is_unwind_edge r = false)
    (λ found e, if (found : bool) then mret true else is_unwind_edge <$> ev_edge g e) false (es_ids s)) as (found & Hrun & Hf); [by intros _ e r ?%elem_of_nil| |by exists found].
  intros seen e found Hpre IH. assert (He : e ∈ es_ids s) by (destruct Hpre as [rest ->]; apply elem_of_app; left; apply elem_of_app; right; by left).
  destruct found; [by exists true|]. destruct (eo_ref _ (ew_ok (EdgeViews := HV)) e He) as (r & Hr & _). rewrite (ew_edge (EdgeViews := HV) e r He Hr).
  exists (is_unwind_edge r). split; [done|]. intros Hno e' r' [He'| ->%list_elem_of_singleton]%elem_of_app Hr'; [by apply (IH eq_refl e')|]. congruence.
Qed.

Lemma initial_potential (u : list Var) : potential s u (λ _, ∅) (reverse nodes) < solve_fuel g u.
Proof using HV.
  unfold potential, solve_fuel. rewrite (vw_bound (Views := ew_views (EdgeViews := HV))), (adjacency_total_eq g (es_shape s) (ew_views (EdgeViews := HV))), length_reverse.
  pose proof (ew_ok (EdgeViews := HV)) as Hok.
  assert (length nodes ≤ bound) by (apply NoDup_index_length; [apply Hok|apply (eo_node_bound _ Hok)]).
  enough (sum_list_with (gap s u (λ _, ∅)) nodes = length u * sum_list_with (λ n, length (sh_next (es_shape s) Incoming n)) nodes) as ->.
  { change (sh_bound (es_shape s)) with bound. change (sh_nodes (es_shape s)) with nodes. lia. }
  generalize nodes as l. induction l as [|b l IH]; cbn [sum_list_with]; [lia|]. rewrite IH. unfold gap at 1. rewrite size_empty. lia.
Qed.

Lemma solve_spec : ∃ facts X O, compute_with_exits le g seed = Ok facts ∧ facts_ok facts X O.
Proof using HV Hcode PartialOrder0 Total0.
  pose proof (ew_ok (EdgeViews := HV)) as Hok. pose proof (eo_nodes _ Hok) as Hnd. unfold compute_with_exits, solve.
  assert (Hids : gv_node_ids g = Ok nodes) by exact (vw_nodes (Views := ew_views (EdgeViews := HV))).
  assert (Hbound : gv_node_bound g = bound) by exact (vw_bound (Views := ew_views (EdgeViews := HV))). rewrite Hids, Hbound. rsimpl.
  destruct (fill_table [] seed nodes (replicate bound [])) as (seeds & -> & _ & Hseeds & _); [by rewrite length_replicate|apply (eo_node_bound _ Hok)|]. rsimpl.
  destruct (universe_of_spec seeds Hseeds) as (u & -> & Hu & Hknown & Hkseed). rsimpl. rewrite (ew_ids (EdgeViews := HV)). rsimpl.
  destruct unwind_kinds as (has_unwind & -> & Hkinds). rsimpl.
  destruct (rows_of_ok g nodes bound code seed u has_unwind seeds Hu Hcode (eo_node_bound _ Hok) Hseeds Hknown Hkseed Hids Hbound Hnd) as (rows & -> & Hrows). rsimpl.
  rewrite (ro_words _ _ _ _ _ _ _ _ Hrows).
  destruct (fill_table false (λ _, true) nodes (replicate bound false)) as (queued & -> & Hql & Hq & _); [by rewrite length_replicate|apply (eo_node_bound _ Hok)|]. rsimpl.
  destruct (solve_loop_spec g s HV code seed u _ rows Hrows Hkinds Hnd Hu (solve_fuel g u) (λ _, ∅) (λ _, ∅) (reverse nodes)
    (mk_SolveState (replicate (bound * words_of u) 0%N) (replicate (bound * words_of u) 0%N) queued (reverse nodes) 0)) as (X & O & st & -> & Hst & [Hs _ Hfix]).
  - split; cbn; try done; try apply buffer_zeros.
    + intros b Hb. rewrite Hq by done. f_equal. symmetry. apply bool_decide_true. by rewrite elem_of_reverse.
    + by rewrite reverse_Permutation.
    + intros b. by rewrite elem_of_reverse.
  - split; [set_solver|set_solver|]. intros b Hb Hno. destruct Hno. by rewrite elem_of_reverse.
  - apply initial_potential.
  - rsimpl. destruct (read_all_spec g s HV code seed u _ rows Hrows (sv_live_in st) X O nodes Hu (sg_live _ _ _ _ _ _ Hst) (sv_flowing_out st) (replicate bound ∅) (replicate bound ∅) (sg_out _ _ _ _ _ _ Hst))
      as (f & bi & bo & -> & _ & _ & Hdone & _); [by rewrite length_replicate|by rewrite length_replicate|done|done|]. rsimpl.
    exists (mk_facts bi bo (sv_steps st)), X, O. split; [reflexivity|]. split; [split| |].
    + intros b Hb. apply Hfix; [done|apply not_elem_of_nil].
    + intros b Hb. apply Hfix; [done|apply not_elem_of_nil].
    + done.
    + intros b Hb. apply vget_eq. by apply Hdone.
    + intros b Hb. apply vget_eq. by apply Hdone.
Qed.

Lemma points_live X O b v i : solved X O → b ∈ nodes → i ≤ length (code b) → v ∈ before_point s code seed X b i ↔ live_at s code seed v b i.
Proof using HV.
  intros [Hfix _ Hs] Hb Hi. assert (Hcl : ∀ b e r, b ∈ nodes → e ∈ es_adj s Outgoing b → es_ref s e = Some r → er_target r ∈ nodes).
  { intros c e r Hc He Hr. by destruct (edge_out g s HV c e Hc He) as (r' & Hr' & _ & Ht & _); simplify_eq. }
  split; [|by apply live_transfer]. apply before_point_live; [|done]. intros e r w He Hr Hw. apply Hs; [by eapply Hcl|done].
Qed.

Lemma at_end X O b : solved X O → b ∈ nodes → before_point s code seed X b (length (code b)) = O (index b) ∪ list_to_set (seed b).
Proof using. intros [_ Hout _] Hb. unfold before_point. rewrite drop_all. cbn [written exposed existsb]. rewrite (Hout b Hb), !(right_id_L ∅ (∪)). clear. set_solver. Qed.

(** *** Replaying a block *)

Lemma step_backward_sets (X Y : gset Var) (x : I) :
  step_backward X x Y = X ∖ list_to_set (defs x) ∪ list_to_set (uses x) ∪ (if may_unwind x then Y else ∅).
Proof using.
  unfold step_backward.
  assert (Hd : ∀ vs (Z : gset Var), foldl (λ live v, live ∖ {[v]}) Z vs = Z ∖ list_to_set vs) by (clear; induction vs as [|v vs IH]; intros Z; cbn; [|rewrite IH]; set_solver).
  assert (Hu : ∀ vs (Z : gset Var), foldl (λ live v, {[v]} ∪ live) Z vs = Z ∪ list_to_set vs) by (clear; induction vs as [|v vs IH]; intros Z; cbn; [|rewrite IH]; set_solver).
  rewrite Hd, Hu. destruct (may_unwind x); [done|]. by rewrite (right_id_L ∅ (∪)).
Qed.

Lemma step_point X b i x : code b !! i = Some x →
  step_backward (before_point s code seed X b (S i)) x (throwing s code X b) = before_point s code seed X b i.
Proof using.
  clear. intros Hx. rewrite step_backward_sets. unfold before_point. rewrite (drop_at code b i x Hx). cbn [exposed written early existsb].
  set (T := throwing s code X b). generalize (leaving s code X b ∪ list_to_set (seed b)) (written (drop (S i) (code b))) (exposed (drop (S i) (code b))) (early (drop (S i) (code b))) (existsb may_unwind (drop (S i) (code b))).
  generalize (list_to_set (defs x) : gset Var) (list_to_set (uses x) : gset Var). clearbody T. clear. intros d us Z W E Y later.
  apply set_eq. intros v. destruct (may_unwind x); cbn [orb].
  - destruct later; set_unfold; destruct (decide (v ∈ d)), (decide (v ∈ T)); tauto.
  - destruct later; set_unfold; destruct (decide (v ∈ d)); tauto.
Qed.

Lemma replay X b last : last = before_point s code seed X b (length (code b)) → ∀ rest i, drop i (code b) = rest → i ≤ length (code b) →
  foldr (λ x points, step_backward (default ∅ (head points)) x (throwing s code X b) :: points) [last] rest =
  before_point s code seed X b <$> seq i (S (length rest)).
Proof using.
  intros ->. induction rest as [|x rest IH]; intros i Hd Hi.
  - assert (length (drop i (code b)) = 0) as Hl by by rewrite Hd. rewrite length_drop in Hl. cbn. by replace i with (length (code b)) by lia.
  - apply drop_cons in Hd as [Hx Hd]. pose proof (lookup_lt_Some _ _ _ Hx). cbn [foldr length]. rewrite (IH (S i)) by (done || lia).
    change (seq i (S (S (length rest)))) with (i :: seq (S i) (S (length rest))). rewrite fmap_cons. f_equal. cbn [seq fmap list_fmap head default]. by apply step_point.
Qed.

Lemma on_unwind_spec facts X O b : facts_ok facts X O → b ∈ nodes → live_on_unwind facts g b = Ok (throwing s code X b).
Proof using HV Hcode.
  intros [_ Hin _] Hb. unfold live_on_unwind. assert (ev_outgoing g b = Ok (es_adj s Outgoing b)) as -> by exact (ew_adj (EdgeViews := HV) Outgoing b Hb). rsimpl.
  unfold throwing. assert (Hes : ∀ e, e ∈ es_adj s Outgoing b → e ∈ es_adj s Outgoing b) by done. revert Hes. generalize (es_adj s Outgoing b) at 1 3 4 as es.
  assert (Hrun : ∀ es (Z : gset Var), (∀ e, e ∈ es → e ∈ es_adj s Outgoing b) →
    rfold (λ X e, edge ← ev_edge g e; before ← departs_before_throws g edge; if (before : bool) then Y ← live_in facts (er_target edge); mret (X ∪ Y) else mret X) Z es =
    Ok (Z ∪ gathered s (unwinds code b) X es)).
  { induction es as [|e es IH]; intros Z Hes; cbn [rfold]; [unfold gathered; cbn; by rewrite (right_id_L ∅ (∪))|].
    destruct (edge_out g s HV b e Hb) as (r & Hr & -> & Ht & _ & Hsrc); [apply Hes; by left|]. rsimpl. rewrite (gathered_cons s _ X e es r Hr).
    assert (departs_before_throws g r = Ok (unwinds code b r)) as ->.
    { unfold departs_before_throws, unwinds. destruct (is_unwind_edge r); [|done]. rewrite Hsrc, (Hcode b Hb). done. }
    rsimpl. destruct (unwinds code b r).
    - rewrite (Hin _ Ht). rsimpl. rewrite IH by (intros x Hx; apply Hes; by right). by rewrite (assoc_L (∪)).
    - rsimpl. rewrite IH by (intros x Hx; apply Hes; by right). by rewrite (left_id_L ∅ (∪)). }
  intros es Hes. rewrite Hrun by done. by rewrite (left_id_L ∅ (∪)).
Qed.

Lemma points_spec facts X O b : facts_ok facts X O → b ∈ nodes →
  live_points facts g b = Ok (before_point s code seed X b <$> seq 0 (S (length (code b)))).
Proof using HV Hcode.
  intros Hf Hb. unfold live_points. rewrite (Hcode b Hb), (fo_out _ _ _ Hf b Hb), (on_unwind_spec facts X O b Hf Hb). rsimpl. f_equal.
  apply (replay X b); [|by rewrite drop_0|lia]. symmetry. apply at_end; [apply Hf|done].
Qed.
End Whole.

(** ** What the analysis promises *)

Section Guarantees.
Context {G I D Var : Type} {HG : GraphView G} {HR : RootedView G} {HE : EdgeView G D} {HK : KindedEdge D} {HC : CfgView G I D}.
Context `{Countable Var} (le : relation Var) `{∀ x y, Decision (le x y)} `{!PartialOrder le} `{!Total le} {HI : InstrInfo I Var}.
Context (g : G) (s : eshape D) (code : Id → list I) (seed : Id → list Var).

(** C36: The liveness analysis ends, whatever the graph, and its rows of bits say
    exactly which variables are live: a variable is in the set of a block's start,
    or of its end, if and only if some path from that point reads it, or ends in a
    block whose exit keeps it, before the path writes it. A path leaves a block
    after its last instruction, or over an unwind edge before any instruction
    that may unwind. *)
Theorem liveness_is_exact :
  EdgeViews g s → (∀ b, b ∈ es_nodes s → cv_instructions g b = Ok (code b)) →
  ∃ facts, compute_with_exits le g seed = Ok facts ∧ ∀ b, b ∈ es_nodes s →
    ∃ X Y, live_in facts b = Ok X ∧ live_out facts b = Ok Y ∧
      (∀ v, v ∈ X ↔ live_at s code seed v b 0) ∧ ∀ v, v ∈ Y ↔ live_at s code seed v b (length (code b)).
Proof using PartialOrder0 Total0.
  intros HV Hcode. destruct (solve_spec le g s HV code seed Hcode) as (facts & X & O & Hrun & Hf). exists facts. split; [done|]. intros b Hb.
  exists (X (index b)), (O (index b) ∪ list_to_set (seed b)). split_and!; [by apply Hf|by apply Hf| |]; intros v.
  - rewrite (sd_fix _ _ _ _ _ (fo_solved _ _ _ _ _ _ Hf) b Hb), <-before_point_0. apply (points_live g s HV code seed X O); [apply Hf|done|lia].
  - rewrite <-(at_end s code seed X O) by (apply Hf || done). apply (points_live g s HV code seed X O); [apply Hf|done|lia].
Qed.

(** C37: Replaying a block from the sets the analysis found gives, for each of its
    instructions, exactly the variables live before it and exactly those live
    after it; and what an unwind edge can carry out of the block is live before
    every instruction that may unwind. *)
Theorem live_points_are_exact facts b :
  EdgeViews g s → (∀ b, b ∈ es_nodes s → cv_instructions g b = Ok (code b)) →
  compute_with_exits le g seed = Ok facts → b ∈ es_nodes s →
  ∃ before after thrown, live_before_instructions facts g b = Ok before ∧ live_after_instructions facts g b = Ok after ∧
    live_on_unwind facts g b = Ok thrown ∧ length before = length (code b) ∧ length after = length (code b) ∧
    (∀ i X, before !! i = Some X → ∀ v, v ∈ X ↔ live_at s code seed v b i) ∧
    (∀ i X, after !! i = Some X → ∀ v, v ∈ X ↔ live_at s code seed v b (S i)) ∧
    ∀ v, v ∈ thrown → ∀ i x, code b !! i = Some x → may_unwind x = true → live_at s code seed v b i.
Proof using PartialOrder0 Total0.
  intros HV Hcode Hrun Hb. destruct (solve_spec le g s HV code seed Hcode) as (facts' & X & O & Hrun' & Hf).
  assert (facts' = facts) as -> by exact (Ok_inj _ _ (eq_trans (eq_sym Hrun') Hrun)). pose proof (fo_solved _ _ _ _ _ _ Hf) as Hs.
  pose proof (points_spec g s HV code seed Hcode facts X O b Hf Hb) as Hp. set (points := before_point s code seed X b <$> seq 0 (S (length (code b)))) in Hp.
  assert (Hlen : length points = S (length (code b))) by (unfold points; by rewrite length_fmap, length_seq).
  assert (Hat : ∀ i Y, points !! i = Some Y → ∀ v, v ∈ Y ↔ live_at s code seed v b i).
  { intros i Y (j & -> & [-> Hj]%lookup_seq)%list_lookup_fmap_Some v. apply (points_live g s HV code seed X O); [done|done|lia]. }
  exists (take (length (code b)) points), (drop 1 points), (throwing s code X b). unfold live_before_instructions, live_after_instructions. rewrite Hp. rsimpl.
  rewrite Hlen, (on_unwind_spec g s HV code seed Hcode facts X O b Hf Hb). replace (S (length (code b)) - 1) with (length (code b)) by lia. split_and!; try done.
  - rewrite length_take, Hlen. lia.
  - rewrite length_drop, Hlen. lia.
  - intros i Y [Hi _]%lookup_take_Some. by apply Hat.
  - intros i Y Hi. rewrite lookup_drop in Hi. by apply (Hat (1 + i)).
  - intros v (e & r & He & Hr & [Hu _]%andb_true_iff & Hv)%elem_of_gathered i x Hx Hm. apply (live_unwind s code seed v b i x e r Hx Hm He Hr Hu).
    apply (sd_sound _ _ _ _ _ Hs); [|done]. by destruct (edge_out g s HV b e Hb He) as (r' & Hr' & _ & Ht & _); simplify_eq.
Qed.
End Guarantees.

(** ** A sample program *)

Record sample_instr : Type := mk_instr { si_uses : list N; si_defs : list N; si_throws : bool }.
#[local] Instance sample_info : InstrInfo sample_instr N := {| uses := si_uses; defs := si_defs; may_unwind := si_throws |}.

(** [x1 := 0; x2 := call(x3); use x2], then block 1 reads [x1]; where the call
    throws, block 2 reads [x2]. *)
Definition sample_program : Cfg sample_instr () := built
  [CNewBlock; CNewBlock;
   CBlockMut 0%N (set_instructions [mk_instr [] [1]%N false; mk_instr [3]%N [2]%N true; mk_instr [2]%N [] false]);
   CBlockMut 1%N (set_instructions [mk_instr [1]%N [] false]); CBlockMut 2%N (set_instructions [mk_instr [2]%N [] false]);
   CAddEdge 0%N 1%N Fallthrough None tt; CAddEdge 0%N 2%N ExceptionUnwind None tt].

Definition sample_code (b : Id) : list sample_instr := match cv_instructions sample_program b with Ok l => l | _ => [] end.

Lemma sample_program_views : ∃ s, EdgeViews sample_program s ∧ 0%N ∈ es_nodes s ∧ ∀ b, b ∈ es_nodes s → cv_instructions sample_program b = Ok (sample_code b).
Proof.
  assert (Hr : reachable_cfg sample_program) by (apply built_reachable; vm_compute; reflexivity).
  apply reachable_ok in Hr as (a & Hr & He). destruct (rp_inv _ _ Hr) as (L & Hinv & _). exists (store_shape (cfg_graph sample_program) L).
  assert (Hlive : ∀ b, b ∈ es_nodes (store_shape (cfg_graph sample_program) L) ↔ a_nlive a b = true) by (intros b; by rewrite (store_node_ids _ _ Hinv), (rp_nlive _ _ Hr)).
  split_and!; [apply cfg_EdgeViews, (store_EdgeViews _ _ Hinv)|by apply Hlive|]. intros b Hb%Hlive. destruct (lookup_lt_is_Some_2 (a_nodes a) (index b)) as [blk Hblk]; [by apply (repr_nlive_lt _ _ Hr)|].
  unfold sample_code. cbn. unfold block. by rewrite (proj2 (repr_node _ _ Hr b blk) Hblk).
Qed.

Lemma liveness_is_exact_witness :
  ∃ s, EdgeViews sample_program s ∧ live_at s sample_code (λ _, []) 2%N 0%N 0 ∧ ¬ live_at s sample_code (λ _, []) 1%N 0%N 0 ∧ live_at s sample_code (λ _, []) 1%N 0%N 3.
Proof.
  destruct sample_program_views as (s & HV & H0 & Hcode). exists s. split; [exact HV|].
  destruct (liveness_is_exact N.le sample_program s sample_code (λ _, []) HV Hcode) as (facts & Hrun & H).
  destruct (H 0%N H0) as (X & Y & HX & HY & Hin & Hout).
  assert (Hc : (facts ← compute_with_exits N.le sample_program (λ _, []); X ← live_in facts 0%N; Y ← live_out facts 0%N;
    mret (bool_decide (2%N ∈ X) && negb (bool_decide (1%N ∈ X)) && bool_decide (1%N ∈ Y))) = Ok true) by (vm_compute; reflexivity).
  assert (Hc' : Ok (bool_decide (2%N ∈ X) && negb (bool_decide (1%N ∈ X)) && bool_decide (1%N ∈ Y)) = Ok true).
  { rewrite <-Hc, Hrun. symmetry. rsimpl. rewrite HX. rsimpl. rewrite HY. rsimpl. reflexivity. }
  apply Ok_inj in Hc'. rewrite !andb_true_iff, negb_true_iff, !bool_decide_eq_true, bool_decide_eq_false in Hc'. destruct Hc' as [[H1 H2] H3].
  split; [|split]; [exact (proj1 (Hin _) H1)|intros Hl; exact (H2 (proj2 (Hin _) Hl))|].
  assert (Hl : length (sample_code 0%N) = 3) by (vm_compute; reflexivity). rewrite <-Hl. exact (proj1 (Hout _) H3).
Defined.

Lemma live_points_are_exact_witness :
  ∃ (s : eshape (Edge ())) facts before after, compute_with_exits N.le sample_program (λ _, []) = Ok facts ∧
    live_before_instructions facts sample_program 0%N = Ok before ∧ live_after_instructions facts sample_program 0%N = Ok after ∧
    length before = 3 ∧ length after = 3 ∧ ∀ X, before !! 1 = Some X → ∀ v, v ∈ X ↔ live_at s sample_code (λ _, []) v 0%N 1.
Proof.
  destruct sample_program_views as (s & HV & H0 & Hcode). exists s.
  assert (Hok : match compute_with_exits N.le sample_program (λ _, []) with Ok _ => true | _ => false end = true) by (vm_compute; reflexivity).
  assert (Hex : ∃ facts, compute_with_exits N.le sample_program (λ _, []) = Ok facts).
  { revert Hok. generalize (compute_with_exits N.le sample_program (λ _, [])). intros [facts| |]; [|discriminate..]. intros _. exists facts. reflexivity. }
  destruct Hex as [facts Hrun].
  destruct (live_points_are_exact N.le sample_program s sample_code (λ _, []) facts 0%N HV Hcode Hrun H0) as (before & after & thrown & Hb & Ha & _ & Lb & La & Hpts & _).
  assert (Hl : length (sample_code 0%N) = 3) by (vm_compute; reflexivity). rewrite Hl in Lb, La.
  exists facts, before, after. exact (conj Hrun (conj Hb (conj Ha (conj Lb (conj La (Hpts 1)))))).
Defined.
