(* ===== verification/Reaching.v ===== *)
(** * Reaching definitions and their chains

    Models [dataflow/reaching.rs] and [dataflow/def_use.rs], with the replay of a
    block of [dataflow/unwind.rs]: a problem of the edge-sensitive solver, whose
    facts are the definitions that may reach a point, and the walk that links
    every use to its suppliers. The solver's functions are pure, so reading a
    block the view does not have, where the code panics, gives no instructions;
    the solver visits blocks of the view only. Proofs are in [ReachingTheorems]. *)

From S2P Require Import Prelude Words Ids View EdgeViews Traverse Bits Worklist Solver EdgeSolver EdgeKinds Cfg LiveVars.

(** [ProgramPoint]: a block and the index of an instruction in it; [DefSite],
    [UseSite] *)
Definition ProgramPoint : Type := Id * nat.
Definition DefSite : Type := ProgramPoint.
Definition UseSite : Type := ProgramPoint.

(** Points compare by block, then by index. *)
Definition site_le : relation ProgramPoint := λ a b, (fst a < fst b)%N ∨ fst a = fst b ∧ snd a ≤ snd b.
#[export] Instance site_le_dec (a b : ProgramPoint) : Decision (site_le a b).
Proof. unfold site_le. apply _. Defined.

Section Replay.
Context {G I D Var : Type} {HG : GraphView G} {HR : RootedView G} {HE : EdgeView G D} {HK : KindedEdge D} {HC : CfgView G I D}.
Context {HI : InstrInfo I Var}.

Definition instructions_of (g : G) (b : Id) : list I := match cv_instructions g b with Ok l => l | _ => [] end.

(** The loop of [replay_block]; what [before_unwind] collects is threaded. *)
Fixpoint replay {A T} (step : A → nat → I → A) (before_unwind : T → A → T) (k : nat) (l : list I) (state : A) (seen : T) : A * T :=
  match l with
  | [] => (state, seen)
  | x :: l =>
      let seen := if may_unwind x then before_unwind seen state else seen in
      replay step before_unwind (S k) l (step state k x) seen
  end.

(** [replay_block] *)
Definition replay_block {A T} (g : G) (b : Id) (input : A) (step : A → nat → I → A) (before_unwind : T → A → T) (seen : T) : A * T :=
  replay step before_unwind 0 (instructions_of g b) input seen.

(** The closure of [unwind_departure] *)
Definition depart {A} (join : A → A → A) (departing : option A) (state : A) : option A :=
  Some (match departing with None => state | Some earlier => join earlier state end).

(** [unwind_departure] *)
Definition unwind_departure {A} (g : G) (edge : EdgeRef D) (input : A) (step : A → nat → I → A) (join : A → A → A) : option A :=
  match departs_before_throws g edge with
  | Ok true => snd (replay_block g (er_source edge) input step (depart join) None)
  | _ => None
  end.
End Replay.

Section Reaching.
Context {G I D Var : Type} {HG : GraphView G} {HR : RootedView G} {HE : EdgeView G D} {HK : KindedEdge D} {HC : CfgView G I D}.
Context `{Countable Var} {HI : InstrInfo I Var}.

(** [ReachingDef]: the variable written, and where *)
Definition ReachingDef : Type := Var * DefSite.
Implicit Types (set : gset ReachingDef) (v : Var).

(** [definitions_of]: the run of a variable, by site *)
Definition definitions_of set v : list DefSite := merge_sort site_le (snd <$> elements (filter (λ rd : ReachingDef, fst rd = v) set)).

(** [kill_variable], [define] *)
Definition kill_variable set v : gset ReachingDef := filter (λ rd : ReachingDef, fst rd ≠ v) set.
Definition define set (site : DefSite) (defs : list Var) : gset ReachingDef :=
  foldl (λ set v, {[(v, site)]} ∪ set) (foldl kill_variable set defs) defs.

(** The step both transfers replay *)
Definition define_at (b : Id) set (inst_idx : nat) (x : I) : gset ReachingDef := define set (b, inst_idx) (defs x).

(** [ReachingDefsProblem] *)
Definition ReachingDefsProblem : EdgeProblem G D (gset ReachingDef) := {|
  ep_direction := Forward;
  ep_bottom _ := ∅;
  ep_boundary _ _ := None;
  ep_meet left right := left ∪ right;
  ep_transfer_node g b input := fst (replay_block g b input (define_at b) (λ _ _, tt) tt);
  ep_transfer_edge g edge input output := default output (unwind_departure g edge input (define_at (er_source edge)) (∪));
|}.

(** [ReachingDefs::compute], with fuel for the solve *)
Definition compute_reaching (fuel : nat) (g : G) : res (Facts (gset ReachingDef)) :=
  into_block_facts <$> solve_reachable fuel g ReachingDefsProblem.
Definition reaching_in (facts : Facts (gset ReachingDef)) (b : Id) : res (gset ReachingDef) := fact_in facts b.
Definition reaching_out (facts : Facts (gset ReachingDef)) (b : Id) : res (gset ReachingDef) := fact_out facts b.
Definition defs_of_at_entry (facts : Facts (gset ReachingDef)) v (b : Id) : res (list DefSite) :=
  set ← reaching_in facts b; mret (definitions_of set v).

(** ** Chains *)

(** [DefUseChains] *)
Record DefUseChains : Type := mk_chains {
  def_use : gmap DefSite (gset UseSite);
  use_def : gmap UseSite (gset DefSite);
}.

(** [entry(key).or_default()], and adding to it *)
Definition or_default (m : gmap ProgramPoint (gset ProgramPoint)) (k : ProgramPoint) : gset ProgramPoint := default ∅ (m !! k).
Definition add_to (m : gmap ProgramPoint (gset ProgramPoint)) (k x : ProgramPoint) : gmap ProgramPoint (gset ProgramPoint) :=
  <[k := {[x]} ∪ or_default m k]> m.

(** The body of [for definition], of [for variable] and of [for (idx, inst)] *)
Definition link (use_site : UseSite) (chains : DefUseChains) (site : DefSite) : DefUseChains :=
  mk_chains (add_to (def_use chains) site use_site) (add_to (use_def chains) use_site site).
Definition link_use (use_site : UseSite) (current : gset ReachingDef) (chains : DefUseChains) v : DefUseChains :=
  let chains := mk_chains (def_use chains) (<[use_site := or_default (use_def chains) use_site]> (use_def chains)) in
  foldl (link use_site) chains (definitions_of current v).
Definition link_instruction (b : Id) (acc : DefUseChains * gset ReachingDef) (entry : nat * I) : DefUseChains * gset ReachingDef :=
  let '(chains, current) := acc in
  let '(idx, x) := entry in
  let chains := foldl (link_use (b, idx) current) chains (uses x) in
  match defs x with
  | [] => (chains, current)
  | _ :: _ => (mk_chains (<[(b, idx) := or_default (def_use chains) (b, idx)]> (def_use chains)) (use_def chains), define current (b, idx) (defs x))
  end.
Definition link_block (g : G) (reaching : Facts (gset ReachingDef)) (chains : DefUseChains) (b : Id) : res DefUseChains :=
  insts ← cv_instructions g b;
  current ← reaching_in reaching b;
  mret (fst (foldl (link_instruction b) (chains, current) (imap pair insts))).

(** [DefUseChains::compute] *)
Definition compute_chains (fuel : nat) (g : G) : res DefUseChains :=
  reaching ← compute_reaching fuel g;
  ids ← gv_node_ids g;
  rfold (link_block g reaching) (mk_chains ∅ ∅) ids.

(** [uses_of], [defs_of], [dead_defs] *)
Definition uses_of (chains : DefUseChains) (def : DefSite) : gset UseSite := or_default (def_use chains) def.
Definition defs_of (chains : DefUseChains) (use_site : UseSite) : gset DefSite := or_default (use_def chains) use_site.
Definition dead_defs (chains : DefUseChains) : list DefSite :=
  merge_sort site_le (fst <$> filter (λ entry : DefSite * gset UseSite, snd entry = ∅) (map_to_list (def_use chains))).
End Reaching.
