(* ===== verification/ReachingTheorems.v ===== *)
(** * Which definitions reach a point

    A definition reaches a point of a block when some path of the program from
    it meets no other definition of its variable; a path may leave before a
    throwing instruction over an unwind edge. The problem of
    [dataflow/reaching.rs] on the edge-sensitive solver finds exactly those, and
    [dataflow/def_use.rs] links exactly the uses they supply. *)

From S2P Require Import Prelude Words Liveness Ids View EdgeViews Chains Runs Store StoreInv StoreSpec StoreView History Traverse Bits Worklist Solver SolverTheorems EdgeSolver EdgeSolverTheorems EdgeKinds Cfg CfgTraces CfgTheorems LiveVars LiveVarsTheorems Reaching.

(** ** Definitions along a block *)

Section Block.
Context {I Var : Type} `{Countable Var} {HI : InstrInfo I Var}.
Implicit Types (X Y : gset (ReachingDef (Var := Var))) (rd : ReachingDef (Var := Var)) (l : list I).

Lemma elem_of_define X site vs rd : rd ∈ define X site vs ↔ fst rd ∈ vs ∧ snd rd = site ∨ rd ∈ X ∧ fst rd ∉ vs.
Proof.
  unfold define.
  assert (Hk : ∀ vs X rd, rd ∈ foldl kill_variable X vs ↔ rd ∈ X ∧ fst rd ∉ vs).
  { clear. induction vs as [|v vs IH]; intros X rd; cbn [foldl]; [set_solver|]. rewrite IH. unfold kill_variable. rewrite elem_of_filter, not_elem_of_cons. tauto. }
  assert (Hg : ∀ vs X rd, rd ∈ foldl (λ X v, {[(v, site)]} ∪ X) X vs ↔ fst rd ∈ vs ∧ snd rd = site ∨ rd ∈ X).
  { clear. induction vs as [|v vs IH]; intros X [w t]; cbn [foldl]; [set_solver|]. rewrite IH, elem_of_union, elem_of_singleton, elem_of_cons. cbn. naive_solver. }
  rewrite Hg, Hk. done.
Qed.

(** The state after instructions [k], [k + 1], ... of block [b] *)
Fixpoint advance (b : Id) (k : nat) l X : gset (ReachingDef (Var := Var)) :=
  match l with [] => X | x :: l => advance b (S k) l (define_at b X k x) end.

Lemma advance_app b l1 l2 k X : advance b k (l1 ++ l2) X = advance b (k + length l1) l2 (advance b k l1 X).
Proof.
  revert k X. induction l1 as [|x l1 IH]; intros k X; cbn [advance app length]; [by rewrite Nat.add_0_r|]. rewrite IH. f_equal. lia.
Qed.

Lemma advance_mono b l k X Y : X ⊆ Y → advance b k l X ⊆ advance b k l Y.
Proof.
  revert k X Y. induction l as [|x l IH]; intros k X Y HXY; cbn; [done|]. apply IH. intros rd. unfold define_at. rewrite !elem_of_define. set_solver.
Qed.

Lemma replay_state {T} (note : T → gset (ReachingDef (Var := Var)) → T) b l k X seen : fst (replay (define_at b) note k l X seen) = advance b k l X.
Proof. revert k X seen. induction l as [|x l IH]; intros k X seen; cbn [replay advance]; [done|]. apply IH. Qed.

(** The states before the instructions that may unwind, joined *)
Definition departing (b : Id) (k : nat) l X (seen : option (gset (ReachingDef (Var := Var)))) : option (gset (ReachingDef (Var := Var))) :=
  snd (replay (define_at b) (depart (∪)) k l X seen).

Lemma departing_None b l k X : departing b k l X None = None ↔ existsb may_unwind l = false.
Proof.
  assert (Hsome : ∀ l k X Z, ∃ Y, departing b k l X (Some Z) = Some Y).
  { clear. unfold departing. induction l as [|x l IH]; intros k X Z; cbn [replay snd]; [by exists Z|]. destruct (may_unwind x); cbn [depart]; apply IH. }
  revert k X. induction l as [|x l IH]; intros k X; [done|]. cbn [existsb].
  change (departing b k (x :: l) X None) with (departing b (S k) l (define_at b X k x) (if may_unwind x then Some X else None)).
  destruct (may_unwind x); cbn [orb]; [|apply IH]. destruct (Hsome l (S k) (define_at b X k x) X) as [Y ->]. done.
Qed.

Lemma elem_of_departing b rd l : ∀ k X seen Y, departing b k l X seen = Some Y →
  rd ∈ Y ↔ (∃ Z, seen = Some Z ∧ rd ∈ Z) ∨ ∃ j x, l !! j = Some x ∧ may_unwind x = true ∧ rd ∈ advance b k (take j l) X.
Proof.
  unfold departing. induction l as [|x l IH]; intros k X seen Y; cbn [replay snd].
  { intros ->. split; [by eauto|]. intros [(Z & [= ->] & ?)|(j & x & ? & _)]; [done|]. by rewrite lookup_nil in *. }
  intros Hd. rewrite (IH _ _ _ _ Hd). split.
  - intros [(Z & HZ & Hin)|(j & y & Hj & Hm & Hin)]; [|right; by exists (S j), y].
    destruct (may_unwind x) eqn:Hx; [|by left; exists Z]. unfold depart in HZ. injection HZ as <-.
    destruct seen as [W|]; [apply elem_of_union in Hin as [Hin|Hin]; [by left; exists W|]|]; right; by exists 0, x.
  - intros [(Z & -> & Hin)|([|j] & y & Hj & Hm & Hin)].
    + left. destruct (may_unwind x); [|by exists Z]. exists (Z ∪ X). split; [done|]. by apply elem_of_union_l.
    + left. injection Hj as ->. rewrite Hm. cbn in Hin. destruct seen as [W|]; eexists; (split; [reflexivity|]); [by apply elem_of_union_r|done].
    + right. by exists j, y.
Qed.

Lemma departing_mono b l k X X' Y Y' : X ⊆ X' → departing b k l X None = Some Y → departing b k l X' None = Some Y' → Y ⊆ Y'.
Proof.
  intros HX HY HY' rd. rewrite (elem_of_departing b rd l k X None Y HY), (elem_of_departing b rd l k X' None Y' HY').
  intros [(Z & [=] & _)|(j & x & Hj & Hm & Hin)]. right. exists j, x. split_and!; [done|done|]. by eapply advance_mono.
Qed.
End Block.

(** ** Reaching by paths *)

Section Paths.
Context {I D Var : Type} {HK : KindedEdge D} `{Countable Var} {HI : InstrInfo I Var}.
Context (s : eshape D) (code : Id → list I) (root : Id).
Implicit Types (X Y : gset (ReachingDef (Var := Var))) (rd : ReachingDef (Var := Var)).

(** Blocks the root does not reach run nothing and pass nothing on. *)
Definition entered (b : Id) : Prop := rtc (λ x y, y ∈ sh_next (es_shape s) Outgoing x) root b.

Inductive reaching_at rd : Id → nat → Prop :=
  | reach_def b i x : code b !! i = Some x → fst rd ∈ defs x → snd rd = (b, i) → reaching_at rd b (S i)
  | reach_pass b i x : code b !! i = Some x → fst rd ∉ defs x → reaching_at rd b i → reaching_at rd b (S i)
  | reach_leave b e r : entered b → e ∈ es_adj s Outgoing b → es_ref s e = Some r → unwinds code b r = false →
      reaching_at rd b (length (code b)) → reaching_at rd (er_target r) 0
  | reach_unwind b i x e r : entered b → code b !! i = Some x → may_unwind x = true → e ∈ es_adj s Outgoing b → es_ref s e = Some r →
      is_unwind_edge r = true → reaching_at rd b i → reaching_at rd (er_target r) 0.

(** The state before instruction [i], from what enters the block *)
Definition state (b : Id) X (i : nat) : gset (ReachingDef (Var := Var)) := advance b 0 (take i (code b)) X.

Lemma state_0 (b : Id) X : state b X 0 = X.
Proof. done. Qed.

Lemma state_S b X i x : code b !! i = Some x → state b X (S i) = define_at b (state b X i) i x.
Proof.
  intros Hx. unfold state. rewrite (take_S_r _ _ _ Hx), advance_app. cbn [advance].
  by rewrite length_take, Nat.min_l by (apply lookup_lt_Some in Hx; lia).
Qed.

Lemma elem_of_state_S b X i x rd : code b !! i = Some x →
  rd ∈ state b X (S i) ↔ fst rd ∈ defs x ∧ snd rd = (b, i) ∨ rd ∈ state b X i ∧ fst rd ∉ defs x.
Proof. intros Hx. rewrite (state_S _ _ _ _ Hx). unfold define_at. by rewrite elem_of_define. Qed.

(** What an edge out of [b] carries, when [X] enters [b] *)
Definition carries (b : Id) (r : EdgeRef D) X rd : Prop :=
  if unwinds code b r then ∃ i x, code b !! i = Some x ∧ may_unwind x = true ∧ rd ∈ state b X i else rd ∈ state b X (length (code b)).

(** What the equations give reaches, if what enters does. *)
Lemma state_reaches b X rd i : (∀ rd, rd ∈ X → reaching_at rd b 0) → i ≤ length (code b) → rd ∈ state b X i → reaching_at rd b i.
Proof.
  intros HX. revert rd. induction i as [|i IH]; intros rd Hi Hrd; [by apply HX|].
  destruct (lookup_lt_is_Some_2 (code b) i ltac:(lia)) as [x Hx]. destruct (proj1 (elem_of_state_S b X i x rd Hx) Hrd) as [[Hd Hs]|[Hin Hno]].
  - by eapply reach_def.
  - eapply reach_pass; [done|done|]. apply IH; [lia|done].
Qed.

Lemma carried_reaches b e r X rd : entered b → e ∈ es_adj s Outgoing b → es_ref s e = Some r → (∀ rd, rd ∈ X → reaching_at rd b 0) →
  carries b r X rd → reaching_at rd (er_target r) 0.
Proof.
  intros Hb He Hr HX. unfold carries. destruct (unwinds code b r) eqn:Hu.
  - intros (i & x & Hx & Hm & Hrd). pose proof (lookup_lt_Some _ _ _ Hx). apply (reach_unwind rd b i x e r Hb Hx Hm He Hr).
    + unfold unwinds in Hu. by apply andb_true_iff in Hu as [? _].
    + apply (state_reaches b X); [done|lia|done].
  - intros Hrd. apply (reach_leave rd b e r Hb He Hr Hu). by apply (state_reaches b X).
Qed.

(** A solution of the equations holds everything that reaches. *)
Lemma reaches_state (entry : Id → gset (ReachingDef (Var := Var))) rd b i :
  (∀ b e r rd, entered b → e ∈ es_adj s Outgoing b → es_ref s e = Some r → carries b r (entry b) rd → rd ∈ entry (er_target r)) →
  reaching_at rd b i → rd ∈ state b (entry b) i.
Proof.
  intros Hsol. induction 1 as [b i x Hx Hd Hs|b i x Hx Hd _ IH|b e r Hb He Hr Hu _ IH|b i x e r Hb Hx Hm He Hr Hk _ IH].
  - apply (elem_of_state_S _ _ i x _ Hx). by left.
  - apply (elem_of_state_S _ _ i x _ Hx). by right.
  - rewrite state_0. apply (Hsol b e r rd Hb He Hr). unfold carries. by rewrite Hu.
  - rewrite state_0. apply (Hsol b e r rd Hb He Hr). unfold carries, unwinds. rewrite Hk. cbn [andb].
    replace (existsb may_unwind (code b)) with true; [by exists i, x|]. symmetry. apply existsb_exists. exists x. split; [|done].
    apply list_elem_of_In. by eapply list_elem_of_lookup_2.
Qed.
End Paths.

(** ** The solve *)

Section Solve.
Context {G I D Var : Type} {HG : GraphView G} {HR : RootedView G} {HE : EdgeView G D} {HK : KindedEdge D} {HC : CfgView G I D}.
Context `{Countable Var} {HI : InstrInfo I Var}.
Context (g : G) (s : eshape D) (HV : EdgeViews g s) (code : Id → list I).
Context (Hcode : ∀ b, b ∈ es_nodes s → cv_instructions g b = Ok (code b)).
Implicit Types (X Y : gset (ReachingDef (Var := Var))) (rd : ReachingDef (Var := Var)).
Notation nodes := (es_nodes s).
Notation problem := (ReachingDefsProblem (G := G) (I := I) (D := D) (Var := Var)).
Notation out_of X r := (ep_transfer_edge problem g r X (ep_transfer_node problem g (er_source r) X)).

Lemma node_mono b X Y : X ⊆ Y → ep_transfer_node problem g b X ⊆ ep_transfer_node problem g b Y.
Proof using. intros HXY. cbn. unfold replay_block. rewrite !replay_state. by apply advance_mono. Qed.

Lemma edge_mono (r : EdgeRef D) i i' o o' : i ⊆ i' → o ⊆ o' → ep_transfer_edge problem g r i o ⊆ ep_transfer_edge problem g r i' o'.
Proof using.
  intros Hi Ho. cbn. unfold unwind_departure. destruct (departs_before_throws g r) as [[]| |]; cbn [default]; [|done..]. unfold replay_block.
  change (snd (replay (define_at (er_source r)) (depart (∪)) 0 (instructions_of g (er_source r)) i None)) with (departing (er_source r) 0 (instructions_of g (er_source r)) i None).
  change (snd (replay (define_at (er_source r)) (depart (∪)) 0 (instructions_of g (er_source r)) i' None)) with (departing (er_source r) 0 (instructions_of g (er_source r)) i' None).
  destruct (departing _ _ _ i _) as [Y|] eqn:HY, (departing _ _ _ i' _) as [Y'|] eqn:HY'; cbn [default id]; [exact (departing_mono _ _ _ _ _ _ _ Hi HY HY')| | |done].
  - apply departing_None in HY'. by rewrite (proj2 (departing_None _ _ _ i) HY') in HY.
  - apply departing_None in HY. by rewrite (proj2 (departing_None _ _ _ i') HY) in HY'.
Qed.

Lemma node_state b X : b ∈ nodes → ep_transfer_node problem g b X = state code b X (length (code b)).
Proof using Hcode. intros Hb. cbn. unfold replay_block, instructions_of. rewrite (Hcode b Hb), replay_state. unfold state. by rewrite take_ge. Qed.

Lemma edge_carries r X rd : er_source r ∈ nodes → rd ∈ out_of X r ↔ carries code (er_source r) r X rd.
Proof using Hcode.
  intros Hb. unfold carries. rewrite (node_state _ _ Hb). cbn. unfold unwind_departure, departs_before_throws, unwinds.
  destruct (is_unwind_edge r); cbn [andb default]; [|done]. rewrite (Hcode _ Hb). rsimpl. destruct (existsb may_unwind (code (er_source r))) eqn:Hex; [|done].
  unfold replay_block, instructions_of. rewrite (Hcode _ Hb).
  change (snd (replay (define_at (er_source r)) (depart (∪)) 0 (code (er_source r)) X None)) with (departing (er_source r) 0 (code (er_source r)) X None).
  destruct (departing _ _ _ _ _) as [Y|] eqn:HY; cbn [default id].
  - rewrite (elem_of_departing _ rd _ _ _ _ _ HY). split; [|by eauto]. by intros [(Z & [=] & _)|?].
  - apply departing_None in HY. congruence.
Qed.

(** Every definition of the program *)
Definition all_definitions : list (ReachingDef (Var := Var)) :=
  nodes ≫= λ b, mjoin (imap (λ i x, (λ v, (v, (b, i))) <$> defs x) (code b)).

Lemma elem_of_all_definitions rd : rd ∈ all_definitions ↔ ∃ b i x, b ∈ nodes ∧ code b !! i = Some x ∧ fst rd ∈ defs x ∧ snd rd = (b, i).
Proof using.
  clear. unfold all_definitions. rewrite list_elem_of_bind. split.
  - intros (b & Hin & Hb). apply list_elem_of_join in Hin as (l & Hrd & Hl). apply elem_of_lookup_imap in Hl as (i & x & -> & Hx).
    apply list_elem_of_fmap in Hrd as (v & -> & Hv). by exists b, i, x.
  - intros (b & i & x & Hb & Hx & Hv & Hs). exists b. split; [|done]. apply list_elem_of_join. exists ((λ v, (v, (b, i))) <$> defs x). split.
    + apply list_elem_of_fmap. exists (fst rd). split; [|done]. destruct rd as [v t]. cbn in *. by subst t.
    + apply elem_of_lookup_imap. by exists i, x.
Qed.

Lemma state_defined b X i rd : b ∈ nodes → i ≤ length (code b) → rd ∈ state code b X i → rd ∈ X ∨ rd ∈ all_definitions.
Proof using.
  clear. intros Hb. revert rd. induction i as [|i IH]; intros rd Hi Hrd; [by left|].
  destruct (lookup_lt_is_Some_2 (code b) i ltac:(lia)) as [x Hx]. destruct (proj1 (elem_of_state_S code b X i x rd Hx) Hrd) as [[Hd Hs]|[Hin _]].
  - right. apply elem_of_all_definitions. by exists b, i, x.
  - apply IH; [lia|done].
Qed.

Lemma elem_of_einflow (ef : Id → gset (ReachingDef (Var := Var))) n rd : rd ∈ einflow g s problem ef n ↔ ∃ e, e ∈ es_adj s Incoming n ∧ rd ∈ ef e.
Proof using.
  clear. unfold einflow. cbn [ep_direction ReachingDefsProblem traversal against ep_boundary ep_bottom].
  assert (Hj : ∀ l met, rd ∈ default ∅ (ejoin problem met l) ↔ rd ∈ default ∅ met ∨ ∃ X, X ∈ l ∧ rd ∈ X).
  { induction l as [|X l IH]; intros met; [cbn; set_solver|]. unfold ejoin. cbn [foldl]. fold (ejoin problem). change (foldl _ ?m l) with (ejoin problem m l). rewrite IH. destruct met as [Y|]; cbn; set_solver. }
  rewrite Hj. setoid_rewrite list_elem_of_fmap. cbn. set_solver.
Qed.

Lemma entered_node b : gv_root g ∈ nodes → entered s (gv_root g) b → b ∈ nodes.
Proof using HV.
  intros Hroot Hb. induction Hb as [b|b c d Hbc _ IH]; [done|]. apply IH. by apply (so_live _ (vw_ok (Views := ew_views (EdgeViews := HV))) Outgoing b).
Qed.

Lemma entered_step b e r : entered s (gv_root g) b → e ∈ es_adj s Outgoing b → es_ref s e = Some r → entered s (gv_root g) (er_target r).
Proof using. intros Hb He Hr. eapply rtc_r; [exact Hb|]. cbn. apply list_elem_of_omap. exists e. split; [done|]. by rewrite Hr. Qed.

Context (Hroot : gv_root g ∈ nodes).
Notation is_entered := (entered s (gv_root g)).
Notation reached := (reaching_at s code (gv_root g)).

(** [order] are the seeds: the blocks the root reaches. *)
Context (order : list Id) (Horder : ∀ b, b ∈ order ↔ is_entered b).

Lemma seeded_entered b : eseeded s (InfallibleEdgeProblem problem) order b ↔ is_entered b.
Proof using HV Hroot Horder.
  split.
  - intros (_ & c & Hc%Horder & Hr). unfold entered in *. by etrans.
  - intros Hb. split; [by apply entered_node|]. exists b. split; [by apply Horder|done].
Qed.

Lemma out_spec ef b e r : b ∈ nodes → e ∈ es_adj s Outgoing b → es_ref s e = Some r →
  er_source r = b ∧ eoutflow g s problem ef b r = out_of (einflow g s problem ef b) r.
Proof using HV.
  intros Hb He Hr. destruct (edge_out g s HV b e Hb He) as (r' & Hr' & _ & _ & _ & Hsrc). assert (r' = r) as -> by congruence. split; [done|].
  unfold eoutflow. cbn [ep_direction ReachingDefsProblem program_order]. by rewrite Hsrc.
Qed.

Lemma definitions_inductive : einductive g s problem order (λ _ X, ∀ rd, rd ∈ X → rd ∈ all_definitions).
Proof using HV Hcode Hroot Horder.
  split; [intros e _ rd Hrd; by apply elem_of_empty in Hrd|]. intros ef b e r [Hb _] Hef He Hr rd. destruct (out_spec ef b e r Hb He Hr) as [Hsrc ->].
  rewrite edge_carries by by rewrite Hsrc. rewrite Hsrc. set (X := einflow g s problem ef b).
  assert (HX : ∀ rd, rd ∈ X → rd ∈ all_definitions).
  { intros d (e' & He' & Hd)%elem_of_einflow. apply (Hef e'); [|done]. by apply (adj_ids_live g s HV Incoming b). }
  unfold carries. destruct (unwinds code b r).
  - intros (i & x & Hx & _ & Hrd). pose proof (lookup_lt_Some _ _ _ Hx). destruct (state_defined b X i rd Hb ltac:(lia) Hrd); auto.
  - intros Hrd. destruct (state_defined b X _ rd Hb (le_n _) Hrd); auto.
Qed.

Lemma reached_inductive : einductive g s problem order (λ e X, ∀ rd r, rd ∈ X → es_ref s e = Some r → reached rd (er_target r) 0).
Proof using HV Hcode Hroot Horder.
  split; [intros e _ rd r Hrd; by apply elem_of_empty in Hrd|]. intros ef b e r Hsd Hef He Hr rd r' Hrd Hr'. assert (r' = r) as -> by congruence.
  pose proof (proj1 Hsd) as Hb. apply seeded_entered in Hsd. destruct (out_spec ef b e r Hb He Hr) as [Hsrc Heq]. rewrite Heq in Hrd.
  apply edge_carries in Hrd; [|by rewrite Hsrc]. rewrite Hsrc in Hrd. apply (carried_reaches s code (gv_root g) b e r _ rd Hsd He Hr) in Hrd; [done|].
  intros d (e' & He' & Hd)%elem_of_einflow. pose proof He' as (Hid & r1 & Hr1 & Hn)%(eo_adj _ (ew_ok (g := g)) Incoming b e' Hb).
  replace b with (er_target r1) by exact Hn. by apply (Hef e' Hid d r1).
Qed.

(** What a finished solve gives each block *)
Lemma solution_exact i o ef : esolution g s (InfallibleEdgeProblem problem) order i o ef → ederived g s problem order ef →
  ∀ b, b ∈ nodes → (∀ k rd, k ≤ length (code b) → rd ∈ state code b (i b) k ↔ reached rd b k) ∧
    (is_entered b → o b = state code b (i b) (length (code b))) ∧ (¬ is_entered b → o b = ∅).
Proof using HV Hcode Hroot Horder.
  intros (V & Hin & Hsol & Hout & Hfresh & _) Hd.
  assert (HVe : ∀ b, b ∈ V ↔ is_entered b).
  { intros b. split; [intros Hb; by apply seeded_entered, Hsol|]. intros Hb. by apply Hin, Horder. }
  assert (Hi : ∀ b, is_entered b → i b = einflow g s problem ef b ∧ o b = ep_transfer_node problem g b (i b)).
  { intros b Hb%HVe. destruct (Hsol b Hb) as (_ & (m & t & Hm & Ht & Hio) & _). rewrite ereceived_infallible in Hm. injection Hm as <-. cbn in Ht. injection Ht as <-.
    injection Hio as -> ->. done. }
  assert (Hcarry : ∀ b e r rd, is_entered b → e ∈ es_adj s Outgoing b → es_ref s e = Some r → carries code b r (i b) rd → rd ∈ i (er_target r)).
  { intros b e r rd Hb He Hr Hc. pose proof (entered_node b Hroot Hb) as Hbn. pose proof (entered_step b e r Hb He Hr) as Ht. pose proof (entered_node _ Hroot Ht) as Htn.
    destruct (Hi _ Ht) as [-> _]. apply elem_of_einflow. exists e. split.
    - apply (eo_adj _ (ew_ok (g := g)) Incoming (er_target r) e Htn). split; [by apply (adj_ids_live g s HV Outgoing b)|by exists r].
    - destruct (Hsol b (proj2 (HVe b) Hb)) as (_ & _ & Hem). specialize (Hem e He). unfold emitted in Hem. rewrite Hr in Hem. cbn [fmap option_fmap option_map] in Hem.
      destruct (out_spec ef b e r Hbn He Hr) as [Hsrc _]. destruct (Hi b Hb) as [_ Ho]. rewrite Ho in Hem. cbn [te_transfer_edge InfallibleEdgeProblem] in Hem. injection Hem as <-.
      rewrite <-Hsrc. change (rd ∈ out_of (i (er_source r)) r). apply edge_carries; rewrite Hsrc; done. }
  assert (Hsound : ∀ b rd, b ∈ nodes → rd ∈ i b → reached rd b 0).
  { intros b rd Hb Hrd. assert (b ∈ V) as HbV.
    { destruct (decide (b ∈ V)) as [?|Hno]; [done|]. destruct (Hout b Hno) as [Hi0 _]. rewrite Hi0 in Hrd. by apply elem_of_empty in Hrd. }
    destruct (Hi b (proj1 (HVe b) HbV)) as [Hib _]. rewrite Hib in Hrd. apply elem_of_einflow in Hrd as (e & He & Hrd).
    pose proof He as (Hid & r & Hr & Hn)%(eo_adj _ (ew_ok (g := g)) Incoming b e Hb). replace b with (er_target r) by exact Hn. by apply (Hd _ reached_inductive e Hid rd r). }
  intros b Hb. split_and!.
  - intros k rd Hk. split.
    + intros Hrd. apply (state_reaches s code (gv_root g) b (i b)); [intros d; by apply Hsound|done|done].
    + by apply (reaches_state s code (gv_root g) i).
  - intros He. destruct (Hi b He) as [_ ->]. by apply node_state.
  - intros Hno. destruct (Hout b) as [_ ->]; [by rewrite HVe|done].
Qed.
End Solve.

(** The whole solve: what enters a block, and the state at each of its points *)
Section Whole.
Context {G I D Var : Type} {HG : GraphView G} {HR : RootedView G} {HE : EdgeView G D} {HK : KindedEdge D} {HC : CfgView G I D}.
Context `{Countable Var} {HI : InstrInfo I Var}.
Context (g : G) (s : eshape D) (code : Id → list I).
Notation nodes := (es_nodes s).
Notation is_entered := (entered s (gv_root g)).
Notation reached := (reaching_at s code (gv_root g)).

(** What the theorems ask of the program: its view keeps the contract, its root
    is a block, its blocks can be read, and an identity comes back from its index. *)
Record readable : Prop := mk_readable {
  rb_views : EdgeViews g s;
  rb_root : gv_root g ∈ nodes;
  rb_code : ∀ b, b ∈ nodes → cv_instructions g b = Ok (code b);
  rb_dense : ∀ b, b ∈ nodes → from_index (index b) = Ok b;
}.

(** Visits enough for the solve *)
Definition enough_reaching : nat := enough_edge_visits s (length (all_definitions (Var := Var) s code)).

Record reaching_ok (facts : Facts (gset (ReachingDef (Var := Var)))) (entry : Id → gset (ReachingDef (Var := Var))) : Prop := mk_reaching_ok {
  rk_in : ∀ b, b ∈ nodes → reaching_in facts b = Ok (entry b);
  rk_points : ∀ b k rd, b ∈ nodes → k ≤ length (code b) → rd ∈ state code b (entry b) k ↔ reached rd b k;
  rk_out : ∀ b, b ∈ nodes → ∃ Y, reaching_out facts b = Ok Y ∧ (is_entered b → Y = state code b (entry b) (length (code b))) ∧ (¬ is_entered b → Y = ∅);
}.

Lemma compute_reaching_ok fuel : readable → enough_reaching ≤ fuel → ∃ facts entry, compute_reaching fuel g = Ok facts ∧ reaching_ok facts entry.
Proof.
  intros [HV Hroot Hcode Hdense] Hfuel. unfold compute_reaching, solve_reachable.
  destruct (depth_first_preorder_spec g (es_shape s) (ew_views (EdgeViews := HV)) Outgoing (gv_root g) Hroot) as (order & V & -> & Hp). rsimpl.
  assert (Horder : ∀ b, b ∈ order ↔ is_entered b).
  { intros b. rewrite (search_reachable _ _ _ _ b (preorder_facts _ _ _ _ _ Hp)). split; [by intros (n & ->%list_elem_of_singleton & ?)|]. intros Hb. exists (gv_root g). split; [by left|done]. }
  unfold solve_edge_problem_from, solve_edge_problem_from_with_config.
  assert (Hsub : order ⊆ nodes) by (intros b Hb; by apply (entered_node g s HV b Hroot), Horder).
  destruct (seeded_spec g (es_shape s) (ew_views (EdgeViews := HV)) order) as [Hseed _]. destruct (Hseed Hsub) as (w & -> & Hq). rsimpl.
  set (U := list_to_set (all_definitions s code) : gset (ReachingDef (Var := Var))).
  destruct (edge_solve_converges g s ReachingDefsProblem (⊆) (λ X, ∀ rd, rd ∈ X → rd ∈ all_definitions s code) size (length (all_definitions (Var := Var) s code)) fuel w order HV Hdense)
    as (facts & i & o & ef & -> & [Hread _] & Hsol & Hd).
  - intros a a' b b'. cbn. set_solver.
  - intros b X Y. by apply node_mono.
  - intros r i i' o o'. by apply edge_mono.
  - by apply definitions_inductive.
  - intros X Y _ _ HXY Hne. apply subset_size. split; [done|]. intros HYX. apply Hne. set_solver.
  - intros X HX. etrans; [|apply (size_list_le (all_definitions s code))]. apply subseteq_size. intros rd Hrd. by apply elem_of_list_to_set, HX.
  - intros X. cbn. set_solver.
  - done.
  - done.
  - done.
  - rsimpl. exists (ef_nodes facts), i. split; [done|]. pose proof (solution_exact g s HV code Hcode Hroot order Horder i o ef Hsol Hd) as Hex. split.
    + intros b Hb. by apply Hread.
    + intros b k rd Hb. by apply Hex.
    + intros b Hb. exists (o b). split; [by apply Hread|by apply Hex].
Qed.
End Whole.

(** ** Sites in order *)

#[export] Instance site_le_order : PartialOrder site_le.
Proof.
  split; [split|].
  - intros [b i]. right. cbn. lia.
  - intros [b i] [b' i'] [b'' i'']. unfold site_le. cbn. lia.
  - intros [b i] [b' i']. unfold site_le. cbn. intros H1 H2. f_equal; lia.
Qed.
#[export] Instance site_le_total : Total site_le.
Proof. intros [b i] [b' i']. unfold site_le. cbn. lia. Qed.

(** ** Chains *)

Section Chains.
Context {I Var : Type} `{Countable Var} {HI : InstrInfo I Var}.
Implicit Types (X : gset (ReachingDef (Var := Var))) (u : UseSite) (d : DefSite) (supplies : UseSite → DefSite → Prop) (defines : DefSite → Prop).

Lemma elem_of_definitions_of X v d : d ∈ definitions_of X v ↔ (v, d) ∈ X.
Proof.
  unfold definitions_of. rewrite merge_sort_Permutation, list_elem_of_fmap. setoid_rewrite elem_of_elements. setoid_rewrite elem_of_filter. split.
  - intros ([w t] & -> & [Hw Hin]). cbn in *. by subst w.
  - intros Hin. by exists (v, d).
Qed.

(** The two maps say the same, and every definition met has an entry. *)
Record chained (chains : DefUseChains) supplies defines : Prop := mk_chained {
  ch_defs : ∀ u d, d ∈ defs_of chains u ↔ supplies u d;
  ch_uses : ∀ u d, u ∈ uses_of chains d ↔ supplies u d;
  ch_entries : ∀ d, is_Some (def_use chains !! d) ↔ defines d ∨ ∃ u, supplies u d;
}.

Lemma chained_ext chains S D S' D' : chained chains S D → (∀ u d, S u d ↔ S' u d) → (∀ d, (D d ∨ ∃ u, S u d) ↔ (D' d ∨ ∃ u, S' u d)) → chained chains S' D'.
Proof. intros [H1 H2 H3] HS HD. split; intros; [by rewrite H1|by rewrite H2|by rewrite H3]. Qed.

Lemma elem_of_add_to m k x k' x' : x' ∈ or_default (add_to m k x) k' ↔ k' = k ∧ x' = x ∨ x' ∈ or_default m k'.
Proof.
  unfold or_default, add_to. destruct (decide (k' = k)) as [->|Hne]; [rewrite lookup_insert_eq|rewrite lookup_insert_ne by done]; cbn; unfold or_default; set_solver.
Qed.

Lemma or_default_touch (m : gmap ProgramPoint (gset ProgramPoint)) k k' : or_default (<[k := or_default m k]> m) k' = or_default m k'.
Proof. unfold or_default. destruct (decide (k' = k)) as [->|Hne]; [by rewrite lookup_insert_eq|by rewrite lookup_insert_ne]. Qed.

Lemma link_chained chains S D u d : chained chains S D → chained (link u chains d) (λ u' d', (u' = u ∧ d' = d) ∨ S u' d') D.
Proof.
  intros [H1 H2 H3]. split.
  - intros u' d'. unfold defs_of, link. cbn [use_def]. rewrite elem_of_add_to. change (or_default (use_def chains) u') with (defs_of chains u'). by rewrite H1.
  - intros u' d'. unfold uses_of, link. cbn [def_use]. rewrite elem_of_add_to. change (or_default (def_use chains) d') with (uses_of chains d'). rewrite H2. naive_solver.
  - intros d'. unfold link, add_to. cbn [def_use]. destruct (decide (d' = d)) as [->|Hne].
    + rewrite lookup_insert_eq. split; [|by eauto]. intros _. right. exists u. by left.
    + rewrite lookup_insert_ne by done. rewrite H3. naive_solver.
Qed.

Lemma links_chained u ds : ∀ chains S D, chained chains S D → chained (foldl (link u) chains ds) (λ u' d', (u' = u ∧ d' ∈ ds) ∨ S u' d') D.
Proof.
  induction ds as [|d ds IH]; intros chains S D Hc; cbn [foldl].
  - eapply chained_ext; [exact Hc| |]; set_solver.
  - eapply chained_ext; [apply IH, link_chained, Hc| |]; set_solver.
Qed.

Lemma link_uses_chained u X vs : ∀ chains S D, chained chains S D →
  chained (foldl (link_use u X) chains vs) (λ u' d', (u' = u ∧ ∃ v, v ∈ vs ∧ (v, d') ∈ X) ∨ S u' d') D.
Proof.
  induction vs as [|v vs IH]; intros chains S D Hc; cbn [foldl].
  { eapply chained_ext; [exact Hc| |]; set_solver. }
  assert (Ht : chained (mk_chains (def_use chains) (<[u := or_default (use_def chains) u]> (use_def chains))) S D).
  { destruct Hc as [H1 H2 H3]. split; [|done|done]. intros u' d'. unfold defs_of. cbn [use_def]. rewrite or_default_touch. apply H1. }
  eapply chained_ext; [apply IH; unfold link_use; apply links_chained, Ht| |].
  - intros u' d'. cbn. rewrite elem_of_definitions_of. set_solver.
  - intros d'. cbn. setoid_rewrite elem_of_definitions_of. set_solver.
Qed.

Lemma link_instruction_chained b k x X chains S D : chained chains S D →
  ∃ chains', link_instruction b (chains, X) (k, x) = (chains', define_at b X k x) ∧
    chained chains' (λ u d, (u = (b, k) ∧ ∃ v, v ∈ uses x ∧ (v, d) ∈ X) ∨ S u d) (λ d, D d ∨ d = (b, k) ∧ defs x ≠ []).
Proof.
  intros Hc. pose proof (link_uses_chained (b, k) X (uses x) chains S D Hc) as H1. unfold link_instruction, define_at.
  set (chains1 := foldl (link_use (b, k) X) chains (uses x)) in *. destruct (defs x) as [|w ds] eqn:Hdefs.
  - exists chains1. split; [done|]. eapply chained_ext; [exact H1|done|]. cbn. naive_solver.
  - eexists. split; [reflexivity|]. destruct H1 as [E1 E2 E3]. split; [done| |].
    + intros u d. unfold uses_of. cbn [def_use]. rewrite or_default_touch. apply E2.
    + intros d. cbn [def_use]. destruct (decide (d = (b, k))) as [->|Hne].
      * rewrite lookup_insert_eq. split; [|by eauto]. intros _. left. right. done.
      * rewrite lookup_insert_ne by done. rewrite E3. cbn. naive_solver.
Qed.

Lemma first_or_later {A} (P : nat → A → Prop) (l : list A) k x : l !! k = Some x →
  (∃ i y, k ≤ i ∧ l !! i = Some y ∧ P i y) ↔ P k x ∨ ∃ i y, S k ≤ i ∧ l !! i = Some y ∧ P i y.
Proof.
  clear. intros Hx. split.
  - intros (i & y & Hi & Hy & HP). destruct (decide (i = k)) as [->|Hne]; [left; by simplify_eq|]. right. exists i, y. split_and!; [lia|done..].
  - intros [HP|(i & y & Hi & Hy & HP)]; [by exists k, x|]. exists i, y. split_and!; [lia|done..].
Qed.

Context (code : Id → list I).

Lemma link_rest b X : ∀ rest k chains S D, drop k (code b) = rest → chained chains S D →
  ∃ chains', foldl (link_instruction b) (chains, state code b X k) (imap (λ j x, (k + j, x)) rest) = (chains', state code b X (k + length rest)) ∧
    chained chains' (λ u d, S u d ∨ ∃ i x, k ≤ i ∧ code b !! i = Some x ∧ u = (b, i) ∧ ∃ v, v ∈ uses x ∧ (v, d) ∈ state code b X i)
      (λ d, D d ∨ ∃ i x, k ≤ i ∧ code b !! i = Some x ∧ d = (b, i) ∧ defs x ≠ []).
Proof.
  induction rest as [|x rest IH]; intros k chains S D Hd Hc.
  { exists chains. rewrite Nat.add_0_r. split; [done|]. assert (length (drop k (code b)) = 0) as Hl by by rewrite Hd. rewrite length_drop in Hl.
    assert (Hno : ∀ i (y : I), k ≤ i → code b !! i ≠ Some y) by (intros i y Hi Hy%lookup_lt_Some; lia). eapply chained_ext; [exact Hc| |]; naive_solver. }
  apply drop_cons in Hd as [Hx Hd]. cbn [imap]. rewrite Nat.add_0_r. cbn [foldl].
  destruct (link_instruction_chained b k x (state code b X k) chains S D Hc) as (chains2 & -> & H2). rewrite <-(state_S _ _ _ _ _ Hx).
  destruct (IH (Datatypes.S k) chains2 _ _ Hd H2) as (chains3 & Hrun & H3). exists chains3. split.
  - cbn [length]. replace (k + Datatypes.S (length rest)) with (Datatypes.S k + length rest) by lia. rewrite <-Hrun. f_equal. apply imap_ext. intros j y _. cbn. f_equal. lia.
  - assert (Hpoint : ∀ u d, (((u = (b, k) ∧ ∃ v, v ∈ uses x ∧ (v, d) ∈ state code b X k) ∨ S u d) ∨
        ∃ i y, Datatypes.S k ≤ i ∧ code b !! i = Some y ∧ u = (b, i) ∧ ∃ v, v ∈ uses y ∧ (v, d) ∈ state code b X i) ↔
      S u d ∨ ∃ i y, k ≤ i ∧ code b !! i = Some y ∧ u = (b, i) ∧ ∃ v, v ∈ uses y ∧ (v, d) ∈ state code b X i).
    { intros u d. rewrite (first_or_later (λ i y, u = (b, i) ∧ ∃ v, v ∈ uses y ∧ (v, d) ∈ state code b X i) _ k x Hx). tauto. }
    eapply chained_ext; [exact H3|exact Hpoint|]. intros d. setoid_rewrite Hpoint. rewrite (first_or_later (λ i y, d = (b, i) ∧ defs y ≠ []) _ k x Hx). tauto.
Qed.
End Chains.

(** ** What the analyses promise *)

Section Guarantees.
Context {G I D Var : Type} {HG : GraphView G} {HR : RootedView G} {HE : EdgeView G D} {HK : KindedEdge D} {HC : CfgView G I D}.
Context `{Countable Var} {HI : InstrInfo I Var}.
Context (g : G) (s : eshape D) (code : Id → list I).
Notation nodes := (es_nodes s).
Notation reached := (reaching_at s code (gv_root g)).

(** C38: Given a stated number of visits, the reaching definitions of a program
    whose blocks can be read are computed, and they are exact: a definition is
    in the set of a block's start if and only if a path of the program from it,
    through blocks the entry reaches, meets no other definition of its variable
    before that start. A path leaves a block after its last instruction, or
    over an unwind edge before any instruction that may unwind, whose own
    definitions it then misses. At the end of a block the entry reaches the set
    is as exact; of any other block it is empty. The definitions of one variable
    are listed by site. *)
Theorem reaching_defs_are_exact fuel :
  readable g s code → enough_reaching (Var := Var) s code ≤ fuel →
  ∃ facts, compute_reaching (Var := Var) fuel g = Ok facts ∧ ∀ b, b ∈ nodes → ∃ X Y,
    reaching_in facts b = Ok X ∧ (∀ rd, rd ∈ X ↔ reached rd b 0) ∧
    reaching_out facts b = Ok Y ∧ (entered s (gv_root g) b → ∀ rd, rd ∈ Y ↔ reached rd b (length (code b))) ∧ (¬ entered s (gv_root g) b → Y = ∅) ∧
    ∀ v, ∃ l, defs_of_at_entry facts v b = Ok l ∧ StronglySorted site_le l ∧ ∀ d, d ∈ l ↔ reached (v, d) b 0.
Proof.
  intros Hg Hfuel. destruct (compute_reaching_ok g s code fuel Hg Hfuel) as (facts & entry & Hrun & [Hin Hpts Hout]). exists facts. split; [done|]. intros b Hb.
  destruct (Hout b Hb) as (Y & HY & Hent & Hnot). exists (entry b), Y. assert (H0 : ∀ rd, rd ∈ entry b ↔ reached rd b 0) by (intros rd; apply (Hpts b 0 rd Hb); lia).
  split_and!; [by apply Hin|done|done| |done|].
  - intros He rd. rewrite (Hent He). by apply Hpts.
  - intros v. exists (definitions_of (entry b) v). unfold defs_of_at_entry. rewrite (Hin b Hb). rsimpl. split_and!; [done|apply StronglySorted_merge_sort; apply _|].
    intros d. by rewrite elem_of_definitions_of.
Qed.

Definition supplies_use (u : UseSite) (d : DefSite) : Prop :=
  ∃ b i x v, u = (b, i) ∧ b ∈ nodes ∧ code b !! i = Some x ∧ v ∈ uses x ∧ reached (v, d) b i.

Lemma uses_of_entry (chains : DefUseChains) d X : def_use chains !! d = Some X → uses_of chains d = X.
Proof. intros Hd. change (default ∅ (def_use chains !! d) = X). by rewrite Hd. Qed.

Lemma in_snoc {A} (l : list A) x (P : A → Prop) : (∃ y, y ∈ l ++ [x] ∧ P y) ↔ (∃ y, y ∈ l ∧ P y) ∨ P x.
Proof.
  clear. setoid_rewrite elem_of_app. setoid_rewrite list_elem_of_singleton. split; [intros (y & [?| ->] & ?); eauto|intros [(y & ? & ?)|?]; eauto].
Qed.

Lemma link_blocks facts entry : readable g s code → reaching_ok (Var := Var) g s code facts entry →
  ∃ chains, rfold (link_block g facts) (mk_chains ∅ ∅) nodes = Ok chains ∧
    chained chains supplies_use (λ d, ∃ b i x, b ∈ nodes ∧ code b !! i = Some x ∧ d = (b, i) ∧ defs x ≠ []).
Proof.
  intros [_ _ Hcode _] [Hin Hpts _].
  destruct (rfold_inv (λ don chains, chained chains (λ u d, ∃ b, b ∈ don ∧ ∃ i x, 0 ≤ i ∧ code b !! i = Some x ∧ u = (b, i) ∧ ∃ v, v ∈ uses x ∧ (v, d) ∈ state code b (entry b) i)
      (λ d, ∃ b, b ∈ don ∧ ∃ i x, 0 ≤ i ∧ code b !! i = Some x ∧ d = (b, i) ∧ defs x ≠ [])) (link_block g facts) (mk_chains ∅ ∅) nodes) as (chains & Hrun & Hc).
  - split; [intros u d; unfold defs_of, or_default; cbn; rewrite lookup_empty; cbn; set_solver|intros u d; unfold uses_of, or_default; cbn; rewrite lookup_empty; cbn; set_solver|].
    intros d. cbn. rewrite lookup_empty. split; [by intros [? [=]]|]. set_solver.
  - intros don b chains Hpre Hc. assert (Hb : b ∈ nodes) by (destruct Hpre as [l ->]; apply elem_of_app; left; apply elem_of_app; right; by left).
    unfold link_block. rewrite (Hcode b Hb), (Hin b Hb). rsimpl. destruct (link_rest code b (entry b) (code b) 0 chains _ _ (drop_0 _) Hc) as (chains' & Hrun & Hc').
    change (state code b (entry b) 0) with (entry b) in Hrun. exists chains'. split; [change (imap pair (code b)) with (imap (λ j x, (0 + j, x)) (code b)); by rewrite Hrun|].
    eapply chained_ext; [exact Hc'| |].
    + intros u d. by rewrite (in_snoc don b (λ b, ∃ i x, 0 ≤ i ∧ code b !! i = Some x ∧ u = (b, i) ∧ ∃ v, v ∈ uses x ∧ (v, d) ∈ state code b (entry b) i)).
    + intros d. rewrite (in_snoc don b (λ b, ∃ i x, 0 ≤ i ∧ code b !! i = Some x ∧ d = (b, i) ∧ defs x ≠ [])).
      setoid_rewrite (λ u, in_snoc don b (λ b, ∃ i x, 0 ≤ i ∧ code b !! i = Some x ∧ u = (b, i) ∧ ∃ v, v ∈ uses x ∧ (v, d) ∈ state code b (entry b) i)). done.
  - exists chains. split; [done|]. assert (Hs : ∀ u d, (∃ b, b ∈ nodes ∧ ∃ i x, 0 ≤ i ∧ code b !! i = Some x ∧ u = (b, i) ∧ ∃ v, v ∈ uses x ∧ (v, d) ∈ state code b (entry b) i) ↔ supplies_use u d).
    { intros u d. split.
      - intros (b & Hb & i & x & _ & Hx & -> & v & Hv & Hst). exists b, i, x, v. split_and!; [done..|]. apply (Hpts b i _ Hb); [|done]. apply lookup_lt_Some in Hx. lia.
      - intros (b & i & x & v & -> & Hb & Hx & Hv & Hr). exists b. split; [done|]. exists i, x. split_and!; [lia|done|done|]. exists v. split; [done|]. apply (Hpts b i _ Hb); [|done]. apply lookup_lt_Some in Hx. lia. }
    eapply chained_ext; [exact Hc|exact Hs|]. intros d. setoid_rewrite Hs. split; [|].
    + intros [(b & Hb & i & x & _ & ?)|?]; [left; by exists b, i, x|by right].
    + intros [(b & i & x & Hb & ?)|?]; [left; exists b; split; [done|]; exists i, x; split; [lia|done]|by right].
Qed.

(** C39: The def-use and use-def chains say the same, and they are exact: a
    definition supplies a use if and only if the instruction of the use reads a
    variable for which that definition reaches it. The dead definitions are
    listed in order, once each: those that supply no use. *)
Theorem def_use_chains_are_exact fuel :
  readable g s code → enough_reaching (Var := Var) s code ≤ fuel →
  ∃ chains, compute_chains (Var := Var) fuel g = Ok chains ∧
    (∀ u d, d ∈ defs_of chains u ↔ ∃ b i x v, u = (b, i) ∧ b ∈ nodes ∧ code b !! i = Some x ∧ v ∈ uses x ∧ reached (v, d) b i) ∧
    (∀ u d, u ∈ uses_of chains d ↔ d ∈ defs_of chains u) ∧
    StronglySorted site_le (dead_defs chains) ∧ NoDup (dead_defs chains) ∧
    ∀ d, d ∈ dead_defs chains ↔ (∃ b i x, b ∈ nodes ∧ code b !! i = Some x ∧ d = (b, i) ∧ defs x ≠ []) ∧ ∀ u, d ∉ defs_of chains u.
Proof.
  intros Hg Hfuel. destruct (compute_reaching_ok (Var := Var) g s code fuel Hg Hfuel) as (facts & entry & Hrun & Hok).
  destruct (link_blocks facts entry Hg Hok) as (chains & Hlink & [H1 H2 H3]). exists chains.
  assert (Hdead : ∀ d, d ∈ dead_defs chains ↔ def_use chains !! d = Some ∅).
  { intros d. unfold dead_defs. rewrite merge_sort_Permutation, list_elem_of_fmap. split.
    - intros ([d' X] & -> & [HX Hin%elem_of_map_to_list]%list_elem_of_filter). cbn in *. by subst X.
    - intros Hd. exists (d, ∅). split; [done|]. apply list_elem_of_filter. split; [done|]. by apply elem_of_map_to_list. }
  split_and!.
  - unfold compute_chains. rewrite Hrun. rsimpl. rewrite (vw_nodes (Views := ew_views (EdgeViews := rb_views _ _ _ Hg))). rsimpl. exact Hlink.
  - exact H1.
  - intros u d. by rewrite H1, H2.
  - apply StronglySorted_merge_sort; apply _.
  - unfold dead_defs. rewrite merge_sort_Permutation. apply NoDup_fmap_fst; [|apply NoDup_filter, NoDup_map_to_list].
    intros d X Y [_ HX%elem_of_map_to_list]%list_elem_of_filter [_ HY%elem_of_map_to_list]%list_elem_of_filter. congruence.
  - intros d. rewrite Hdead. split.
    + intros Hd. assert (Hno : ∀ u, ¬ supplies_use u d).
      { intros u Hu%H2. rewrite (uses_of_entry _ _ _ Hd) in Hu. by apply elem_of_empty in Hu. }
      split; [|intros u Hu; by apply (Hno u), H1]. destruct (proj1 (H3 d) ltac:(by rewrite Hd)) as [(b & i & x & ?)|[u Hu]]; [by exists b, i, x|by destruct (Hno u)].
    + intros [Hdef Hno]. destruct (proj2 (H3 d) (or_introl Hdef)) as [X HX]. rewrite HX. f_equal. apply set_eq. intros u. split; [|by intros ?%elem_of_empty].
      intros Hu. destruct (Hno u). apply H1, H2. by rewrite (uses_of_entry _ _ _ HX).
Qed.
End Guarantees.

(** ** The sample program of [LiveVarsTheorems] *)

#[local] Existing Instance sample_info.
#[local] Notation definition := (ReachingDef (Var := N)).

Lemma sample_readable : ∃ s, readable sample_program s sample_code ∧ es_nodes s = [0; 1; 2]%N ∧ es_ids s = [0; 1]%N.
Proof.
  destruct sample_program_views as (s & HV & H0 & Hcode). exists s.
  assert (Hn : gv_node_ids sample_program = Ok [0; 1; 2]%N) by (vm_compute; reflexivity).
  assert (He : ev_edge_ids sample_program = Ok [0; 1]%N) by (vm_compute; reflexivity).
  rewrite (vw_nodes (Views := ew_views (EdgeViews := HV))) in Hn. rewrite (ew_ids (EdgeViews := HV)) in He. apply Ok_inj in Hn, He.
  split; [|done]. split; [done|exact H0|done|]. change (es_nodes s = [0; 1; 2]%N) in Hn. rewrite Hn. intros b Hb. apply from_index_Ok. unfold index, U32_MAX. split; [lia|].
  repeat (apply elem_of_cons in Hb as [->|Hb]; [vm_compute; discriminate|]). by apply elem_of_nil in Hb.
Qed.

Lemma reaching_defs_are_exact_witness :
  ∃ s : eshape (Edge ()), reaching_at s sample_code 0%N ((1%N, (0%N, 0)) : definition) 2%N 0 ∧
    ¬ reaching_at s sample_code 0%N ((2%N, (0%N, 1)) : definition) 2%N 0.
Proof.
  destruct sample_readable as (s & Hg & Hn & He). exists s.
  assert (Hfuel : enough_reaching (Var := N) s sample_code ≤ 100).
  { unfold enough_reaching, enough_edge_visits, all_definitions. rewrite Hn, He. vm_compute. repeat constructor. }
  destruct (reaching_defs_are_exact sample_program s sample_code 100 Hg Hfuel) as (facts & Hrun & H).
  assert (H2 : 2%N ∈ es_nodes s) by (rewrite Hn; do 2 right; left).
  destruct (H 2%N H2) as (X & Y & HX & Hin & _).
  assert (Hc : (facts ← compute_reaching (Var := N) 100 sample_program; X ← reaching_in facts 2%N;
    mret (bool_decide ((1%N, (0%N, 0)) ∈ X) && negb (bool_decide ((2%N, (0%N, 1)) ∈ X)))) = Ok true) by (vm_compute; reflexivity).
  assert (Hc' : Ok (bool_decide ((1%N, (0%N, 0)) ∈ X) && negb (bool_decide ((2%N, (0%N, 1)) ∈ X))) = Ok true).
  { rewrite <-Hc, Hrun. symmetry. rsimpl. rewrite HX. rsimpl. reflexivity. }
  apply Ok_inj in Hc'. rewrite andb_true_iff, negb_true_iff, bool_decide_eq_true, bool_decide_eq_false in Hc'. destruct Hc' as [Hyes Hno].
  split; [exact (proj1 (Hin _) Hyes)|]. intros Hr. exact (Hno (proj2 (Hin _) Hr)).
Defined.

Lemma def_use_chains_are_exact_witness :
  ∃ chains, compute_chains (Var := N) 100 sample_program = Ok chains ∧
    (2%N, 0) ∉ uses_of chains (0%N, 1) ∧ (1%N, 0) ∈ uses_of chains (0%N, 0) ∧ StronglySorted site_le (dead_defs chains).
Proof.
  destruct sample_readable as (s & Hg & Hn & He).
  assert (Hfuel : enough_reaching (Var := N) s sample_code ≤ 100).
  { unfold enough_reaching, enough_edge_visits, all_definitions. rewrite Hn, He. vm_compute. repeat constructor. }
  destruct (def_use_chains_are_exact sample_program s sample_code 100 Hg Hfuel) as (chains & Hrun & _ & _ & Hsorted & _).
  assert (Hc : (chains ← compute_chains (Var := N) 100 sample_program;
    mret (negb (bool_decide ((2%N, 0) ∈ uses_of chains (0%N, 1))) && bool_decide ((1%N, 0) ∈ uses_of chains (0%N, 0)))) = Ok true) by (vm_compute; reflexivity).
  rewrite Hrun in Hc. change (Ok (negb (bool_decide ((2%N, 0) ∈ uses_of chains (0%N, 1))) && bool_decide ((1%N, 0) ∈ uses_of chains (0%N, 0))) = Ok true) in Hc.
  apply Ok_inj in Hc. rewrite andb_true_iff, negb_true_iff, bool_decide_eq_true, bool_decide_eq_false in Hc. destruct Hc as [Hno Hyes].
  exists chains. exact (conj Hrun (conj Hno (conj Hyes Hsorted))).
Defined.
